(* ===== verification/_CoqProject ===== *)
-Q . S2P
Prelude.v
Text.v
Ir.v
Cfg.v
Dataflow.v
Verify.v
VerifySound.v
Interp.v
InterpSafety.v
InterpBounds.v
VerifyTheorems.v
InterpTheorems.v
Hir.v
Diagnostics.v
Ast.v
Async.v
AsyncTheorems.v
MirLower.v
MirLowerTheorems.v
MirDrops.v
Effects.v
EffectsTheorems.v
Wasm.v
Codegen.v
CodegenTheorems.v
CodegenValid.v
CodegenSim.v
Resolver.v
ResolverTheorems.v
ResolverClaims.v
Modules.v
ModuleCycles.v
ModulesTheorems.v
ModulesClaims.v
Ownership.v
OwnershipPaths.v
OwnershipSound.v
Semantic.v
SemanticBodies.v
SemanticTheorems.v
SemanticDeclarations.v
SemanticAccepted.v
SemanticMatch.v
SemanticPackages.v
Lower.v
LowerNames.v
LowerTheorems.v
LowerPrograms.v
SemanticClean.v
LowerAccepted.v
LowerClaims.v
Pest.v
Validate.v
Parser.v
ParserPratt.v
ParserTotal.v
Unparse.v
ParserRoundTrip.v
Compile.v
Database.v
Package.v
PackageLink.v
PackageClaims.v
Registry.v
Storage.v
Transport.v
Sandbox.v
Providers.v
Frames.v
Project.v
Commands.v
Build.v
CommandLine.v
Conformance.v
DevServer.v
PrototypeLexer.v
PrototypeParser.v
Pipeline.v
PipelineMachine.v
PipelineClaims.v
