(* ===== verification/Prelude.v ===== *)
(** * Verification of the Syllog bootstrap compiler

    Syllog is a language with effects, affine ownership and structured
    asynchrony; the workspace under crates/ is its bootstrap compiler.  A source
    file is parsed and checked (syllog-parser, syllog-semantic), lowered to a
    typed high-level IR and analysed for effects (syllog-compiler), lowered to a
    control-flow IR called MIR and, for async functions, to state machines
    (syllog-compiler, syllog-ir), verified (syllog-ir), and then either run by the
    reference interpreter (syllog-interpreter) or emitted as WebAssembly
    (syllog-codegen-wasm) and run by the host (syllog-runtime).  Packages are
    resolved by syllog-package and exchanged by syllog-registry-client; models are
    reached through syllog-proxy and the provider adapters.  The command
    line (syllog-cli) reads a project (syllog-project) and drives all of these, and
    syllog-dev-server recompiles it as it changes.  An older prototype of the front
    end lives beside the workspace in src/.  This library models the whole compiler,
    from the parse trees of the grammar through configuration checks, modules, names,
    types and ownership to the HIR and the two back ends, the driver and its
    incremental database, the package resolver, cache and registry, the sandbox and
    pipeline executor of the runtime, the provider boundary with its transports and
    adapters, the project manifest, the command line, the development server, the
    specification tests and the prototype, and proves that the parts fit together.

    ** Files

    - Prelude: machine integers with their saturating and checked operations,
      the [result] type, lemmas on lists and options, tactics and the hint
      database [syllog].  Text: the order of strings, ordered iteration of maps
      and sets, stable sorting, joining and splitting.
    - Ast (crates/syllog-parser/src/ast.rs) and Diagnostics
      (crates/syllog-parser/src/diagnostic.rs): the syntax tree, with an
      induction principle over subexpressions, and the reports of every pass.
    - Pest (crates/syllog-parser/src/grammar.pest): parse trees, and the grammar
      as a regular expression per rule.  Parser (crates/syllog-parser/src/lib.rs):
      every function from pairs to the syntax tree, [parse_syl] and [check_syl];
      the generated parser, the Pratt parser and serde_json are the class
      [Syntax].  ParserPratt: what is relied on of them ([SyntaxLaws]) and
      precedence; ParserTotal: construction succeeds on trees of the grammar;
      Unparse and ParserRoundTrip: parse trees of syntax trees and back, and the
      claims, with an instance of the laws.
    - Validate (crates/syllog-parser/src/validate.rs): configuration checks and
      what they accept.
    - Compile (crates/syllog-compiler/src/lib.rs): [compile], rendering and editor
      reports, and its claims.  Database (crates/syllog-compiler/src/database.rs):
      sources, packages, caches, cancellation and queries, and the database without
      caches it refines.  Package
      (crates/syllog-compiler/src/package.rs): [compile_package] with the plan of
      identities and linking; PackageLink: identities from the module analysis to
      the linked HIR; PackageClaims.
    - Modules (crates/syllog-semantic/src/modules.rs): [analyze_modules] with
      collection, import resolution, the cycle search and interface hashes.
      ModuleCycles: the depth-first search; ModulesTheorems: collection and
      linking invariants; ModulesClaims: the claims.
    - Ownership (crates/syllog-semantic/src/ownership.rs): [FunctionChecker] as
      functions on its variables and diagnostics.  OwnershipPaths: a semantics
      of execution paths that tracks moved values and which types are evident, and
      that diagnostics only grow; OwnershipSound: the simulation and the claims.
    - Semantic and SemanticBodies (crates/syllog-semantic/src/lib.rs, types.rs):
      the analyzer's record, the two declaration passes, imports, inference,
      patterns, exhaustiveness and the entry points.  SemanticTheorems: the
      order [extends] of analyzers and what a silent inference establishes;
      SemanticDeclarations: the symbol table; SemanticAccepted: files without
      diagnostics; SemanticMatch: values, patterns and exhaustiveness, and the
      claims on one file; SemanticPackages: the module
      analysis of Modules with this analyser as its body analysis.
    - Ir (crates/syllog-ir/src/lib.rs): effects and the capability manifest,
      identities, async state machines with [verify_async_machine], and MIR.
    - Cfg, Dataflow, Verify (crates/syllog-ir/src/verify.rs): successors and
      [reachable_blocks]; the round-robin must-analysis, written once with its
      transfer function and guard as arguments; the verifier [verify].
      VerifySound turns an error-free verification into the checks of each
      function; VerifyTheorems has the typing rules and the events on paths that
      make a program [well_formed], and the verifier's claims.
    - Interp (crates/syllog-interpreter/src/lib.rs): [execute] and the whole
      machine as a state and error monad over counters and one frame's locals;
      Rust panics are values.  InterpSafety has the weakest-precondition
      calculus and the frame invariant, InterpBounds the resource accounting
      and termination, InterpTheorems the claims; Interp ends with sample inputs.
    - Hir (crates/syllog-compiler/src/hir.rs with the types, literals and
      operators it uses): the typed HIR and its traversal.
    - Lower (crates/syllog-compiler/src/lower.rs): identities, scopes, patterns,
      expressions and declarations, [lower_to_hir].  LowerNames: what identities
      and names denote; LowerTheorems and LowerPrograms: the correspondence of
      source and HIR; SemanticClean and LowerAccepted: what a
      silent analysis guarantees the lowering; LowerClaims: how many identities a
      file takes, and the claims.
    - Async (crates/syllog-compiler/src/async_lower.rs,
      crates/syllog-runtime/src/task.rs): construction of state machines, the
      borrow check, and the task runner.  AsyncTheorems: their claims.
    - MirLower (crates/syllog-compiler/src/mir_lower.rs): the function builder
      as a state monad, all expressions and statements, drop insertion,
      [lower_to_mir].  MirLowerTheorems: the builder's invariant; MirDrops: drop
      insertion, sample programs and the lowering's claims.
    - Effects (crates/syllog-compiler/src/effects.rs): direct effects, inference
      over the call graph, declared bounds, manifest.  EffectsTheorems: inference,
      the programs within their bounds, and claims.
    - Wasm: validation and execution of the target's instructions, after the
      WebAssembly core specification.
    - Codegen (crates/syllog-codegen-wasm/src/lib.rs): all encoders and
      [emit_functions], the part of [emit_with_capabilities] that decides success
      and makes functions and exports; Build completes it.  CodegenTheorems: locals and async
      frames; CodegenValid: validation; CodegenSim: the simulation.
    - Resolver (crates/syllog-package/src/resolver.rs): the backtracking search
      with its record of failed states; versions and requirements are the class
      [SemVer].  ResolverTheorems: the [solution] specification and the search
      invariant; ResolverClaims: the claims, with a small instance.
    - Registry (crates/syllog-registry-client/src/lib.rs): archives, signed
      publications and [LocalRegistry]; JSON and Ed25519 are the class
      [RegistryCodec]; the log it refines.  Storage
      (crates/syllog-package/src/cache.rs, lockfile.rs): the content cache and
      lockfiles on a disk whose calls can fail.  Transport
      (crates/syllog-registry-client/src/transport.rs): publication and resumable
      downloads.  Each with its claims.
    - Sandbox (crates/syllog-runtime/src/lib.rs): policies, the limiter, the
      manifest check and execution; wasmtime is the class [Wasmtime];
      what is admitted, and the composition with Effects.
    - Providers (crates/syllog-proxy/src/provider.rs, registry.rs, router.rs,
      stream.rs): the boundary types, the registry, the router and the streaming
      executor as a machine, and their claims.
    - Pipeline (crates/syllog-runtime/src/pipeline.rs): the executor's methods as
      programs of type [prog], trees of the operations that reach outside a
      task.  PipelineMachine: a machine that interleaves the root task, its
      children and the environment, and what programs may do, as
      predicates every step keeps; PipelineClaims: scheduling, retry,
      circuit breakers and the lifecycle log.
    - Frames (crates/syllog-proxy/src/http_transport.rs, the provider adapters beside it):
      server-sent events, JSON lines and the adapters' requests and responses, from
      the bytes of a body to the deltas an adapter yields.
    - Project (crates/syllog-project/src/manifest.rs, lib.rs): discovery and the
      manifest; the TOML parser is an argument.  Commands
      (crates/syllog-cli/src/commands/mod.rs, fetch.rs): the lockfile and archive
      checks, locked sources, fetching, the publisher seed.  Build
      (crates/syllog-cli/src/commands/mod.rs, build.rs, run.rs, test.rs,
      inspect.rs): the search for sources, sections, source map and metadata of a
      module, building, running and testing.  CommandLine
      (crates/syllog-cli/src/main.rs, commands/new.rs, add.rs, vendor.rs,
      publish.rs): arguments and the remaining commands.
    - Conformance (crates/syllog-spec-tests/src/lib.rs): the manifest of conformance cases, rule
      identifiers and coverage, governance documents and repository checks.
    - DevServer (crates/syllog-dev-server/src/lib.rs, commands/dev.rs): the watch
      loop as a machine.
    - PrototypeLexer and PrototypeParser (src/lexer.rs, token.rs, span.rs, parser.rs,
      ast.rs, main.rs): the prototype.

    ** What is shown

    - Verifier: reachability is exact; definite initialization and ownership are
      the meet over all paths; [verify] succeeds exactly on programs
      that are typed and on no path use a local without a value; a use after a move
      is rejected.
    - Verifier and interpreter together: a verified program never panics, never
      reads an empty slot and ends within a budget; if it also keeps to operand
      types it returns a value of its type or fails only by a limit or an
      arithmetic trap.  Runs that return stay within their limits.
    - Parsing: on trees of the grammar construction ends, never panics and fails
      only on a literal that cannot be read; every printable syntax tree is
      rebuilt from its parse tree, operators grouped as they were.  Validation
      accepts exactly the configured files.
    - Driver: [compile] reports nothing exactly on files that pass every phase, whose
      bodies are then well scoped, whose HIR is the source with its names resolved and
      whose functions keep to their declared effects, and it answers unless there are
      more declarations, members and binders than [u32] identities; a session with the incremental database gives the answers of recomputation.
      [compile_package] links exactly the packages without errors, whatever the
      order of the sources, and the linked definitions carry the identities the
      module analysis gave their declarations.
    - Lowering to HIR: every reference denotes the binding its name had in the
      source, declarations keep names, members, types and flags, and an accepted
      file without field accesses is lowered.
    - Lowering: every lowered function has its return slot, parameters, a
      terminator in every block and targets in range; inserted drops are exactly
      the owned affine locals that a return or goto would lose.
    - Async: a machine is accepted exactly when it is well-formed; lowering
      produces accepted machines, and the runner executes them as the event
      sequence [expected_run] prescribes under every intervention.
    - Effects: inference ends and gives each definition exactly the effects
      reachable through its calls; accepted programs stay within their bounds.
    - Code generation: the step export of an async frame is its transition
      function; emitted functions validate, and the main export returns what the
      interpreter returns, for programs without comparisons.
    - Modules: imports resolve exactly to public definitions of the named module
      or are reported, ids are unique, a dependency cycle is reported exactly
      when there is one, the order of the files does not matter, and the
      interface hash is a function of the exported faces.
    - Names and types: in a package without diagnostics every body uses only
      names in scope and constructors and functions that exist, with the right
      number of arguments, awaits only where it may, and has all its types
      recorded; the symbol table holds the first declaration of every name; a
      match is reported exactly when a value is left unmatched.
    - Ownership: a file that is accepted never uses or borrows a moved value whose
      type is evident, on any path through a function with plain guards and borrows;
      what escapes the checker is a theorem as well.
    - Packages: a resolved graph is a solution, a reported conflict means there
      is none among published releases, and resolution ends and is
      deterministic.
    - Registry: it replies as an append-only log of authentic publications does;
      what was signed and published downloads again.  A download replaces its
      destination only by content of the locked digest, and resumes; the cache only
      ever holds and returns verified content.
    - Sandbox: an export yields a value exactly when the policy admits it; a
      compiled artifact that ran had every effect of its program granted.
    - Providers: resolved adapters speak the runtime's ABI, the first open route is
      selected, and a stream delivers what was offered in order, within its buffer,
      and ends; event decoding is exact on every splitting of a body, and what a
      model sends is what the adapter delivers.
    - Projects: a manifest is accepted exactly when its fields, names and paths are
      valid; a lockfile exactly when it is the closed, reachable graph the manifest
      asks for, which every resolution is; sources of dependencies are those of
      archives with the locked identity, digest and dependencies; vendoring changes
      none of them and nothing outside the vendor directory.
    - Commands: the sources of a target are found exactly, or the search fails where
      something cannot be read; [syllog run] prints the value the interpreter gives;
      arguments are read back as they were written; a dependency that was added is
      there the next time.  Conformance: coverage, the loading of cases and the
      repository checks are exact.
    - Development server: of targets with distinct sources, every one was last built
      from the source the last poll saw, or the poll that first saw it so was less
      than the quiet period ago, and the events are those of the builds made.
    - Prototype: lexer and parser end on every source and implement their grammars,
      spans and positions included; only a line or column counter that overflows
      panics.
    - Pipelines: every execution is finite and cannot get stuck while operations
      answer, children are joined, at most the configured number run at once,
      fan-out results come in declaration order; retry and circuit breakers do
      what their policies say.
    - Divergences found are theorems as well: programs on which the verifier is
      too weak, the lowering loses a return, a limit never stops a loop, a
      verified machine spins, a comparison is emitted as invalid code, an
      ill-typed body is accepted, the ownership checker misses a move, the resolver gives up on a solvable
      graph, a deadline bypasses the breaker, an archive holds a file twice, a
      complete partial download is never taken up, a sign is read in a seed, a build
      stays stale, error recovery swallows the next item.

    ** Budgets

    Recursion that is not structural carries a budget whose exhaustion is a
    value no Rust computation has.  The reachability search gets one step per
    edge and one for the entry; the must-analysis one pass per local and block
    that can still lose a fact; effect inference five passes per definition, one
    per effect, and one more; the interpreter [2 * max_instructions + 2] nested
    steps; the task runner [2 * awaits + 4]; the cycle search one level per
    module and one more; the package search one level per known name and one
    more; the construction of types and expressions the depth of the parse
    tree; the reachability of a lockfile one step per name it can push and one
    more; the prototype's lexer one step per byte and its parser one level per token,
    and one more.  Each is proved sufficient.  Runs of emitted code and the walk of a
    directory tree are stated for every fuel from some bound on.

    ** Modelling choices

    Integers are [N] or [Z] with their width written out; identities and local
    numbers are [N].  A [BTreeMap] or [HashMap] is a [gmap], a set a [gset]; where
    the source iterates a [BTreeMap] or [BTreeSet] the keys are sorted.  Error
    vectors are the lists of appended errors, in order.  Formatted diagnostics
    are data where they show a type.  Tokio's scheduler, timers, semaphore and channel
    are the rules of the pipeline and stream machines, which allow every
    interleaving and let a sleep or a deadline end at any time.  Calls to the
    operating system answer as an argument says, and any of them can fail.  Vectors are assumed to fit the address space, so a [usize] index
    always fits an [i64].

    ** Not modelled

    Serialisation, hashing and the byte encoding of Wasm sections (third-party
    code); sockets, processes and file watching themselves (the code around them is
    modelled with their answers as arguments); the texts that commands print; how a
    text becomes a parse tree, which a parser generator decides. *)

From stdpp Require Import base gmap list strings numbers.

(** ** Machine integers *)

Declare Scope syllog_scope.
Delimit Scope syllog_scope with syllog.
Open Scope syllog_scope.
Open Scope N_scope.

Definition u32_max : N := 4294967295.
Definition u64_max : N := 18446744073709551615.
Definition i64_min : Z := (-9223372036854775808)%Z.
Definition i64_max : Z := 9223372036854775807%Z.

Definition in_i64 (z : Z) : bool := bool_decide (i64_min ≤ z ≤ i64_max)%Z.
Definition in_u64 (n : N) : bool := bool_decide (n ≤ u64_max).

(** [u32::try_from(index).unwrap_or(u32::MAX)] for a [usize] index. *)
Definition u32_of_index (i : nat) : N :=
  if bool_decide (N.of_nat i ≤ u32_max) then N.of_nat i else u32_max.

(** [u64::saturating_add] and [u64::saturating_mul]. *)
Definition u64_saturating_add (a b : N) : N := N.min (a + b) u64_max.
Definition u64_saturating_mul (a b : N) : N := N.min (a * b) u64_max.
Definition u32_saturating_add (a b : N) : N := N.min (a + b) u32_max.
Definition u32_saturating_mul (a b : N) : N := N.min (a * b) u32_max.

(** [checked_add] and friends on [u64] and [i64]. *)
Definition u64_checked (z : Z) : option N :=
  if bool_decide (0 ≤ z ≤ Z.of_N u64_max)%Z then Some (Z.to_N z) else None.
Definition i64_checked (z : Z) : option Z :=
  if in_i64 z then Some z else None.

(** ** Results *)

Inductive result (A E : Type) : Type :=
| Ok (a : A)
| Err (e : E).
Arguments Ok {A E} a.
Arguments Err {A E} e.

(** A check that collects errors succeeds when it collected none. *)
Definition errors_result {E} (errors : list E) : result unit (list E) :=
  match errors with [] => Ok tt | _ => Err errors end.

Lemma errors_result_ok {E} (errors : list E) : errors_result errors = Ok tt ↔ errors = [].
Proof. by destruct errors. Qed.

(** ** Automation *)

Create HintDb syllog.

(** Split conjunctions, appended error lists and boolean tests in the context. *)
Ltac split_hyps :=
  repeat match goal with
  | H : _ ∧ _ |- _ => destruct H
  | H : ∃ _, _ |- _ => destruct H
  | H : _ ++ _ = [] |- _ => apply app_eq_nil in H
  | H : _ && _ = true |- _ => apply andb_true_iff in H
  | H : negb _ = true |- _ => apply negb_true_iff in H
  end.

(** Case analysis on every [match] of the goal and context, closing trivial branches. *)
Ltac cases := repeat (case_match; simplify_eq/=; try done).

(** Bounded quantifiers are equivalent when their bodies are. *)
Lemma forall_impl_iff {A} (P Q R : A → Prop) :
  (∀ x, P x → Q x ↔ R x) → (∀ x, P x → Q x) ↔ (∀ x, P x → R x).
Proof. naive_solver. Qed.

(** ** Lists *)

Lemma concat_nil_iff {A} (ll : list (list A)) : concat ll = [] ↔ Forall (λ l, l = []) ll.
Proof.
  induction ll as [|l ll IH]; simpl; [by split; constructor|].
  rewrite app_nil, IH. split; [by intros []; constructor|by inversion 1].
Qed.

Lemma concat_fmap_nil {A B} (f : A → list B) (l : list A) :
  concat (f <$> l) = [] ↔ ∀ x, x ∈ l → f x = [].
Proof. rewrite concat_nil_iff, Forall_fmap. apply list.Forall_forall. Qed.

Lemma concat_imap_nil {A B} (f : nat → A → list B) (l : list A) :
  concat (imap f l) = [] ↔ ∀ i x, l !! i = Some x → f i x = [].
Proof.
  rewrite concat_nil_iff, Forall_lookup. split.
  - intros H i x Hi. apply (H i). by rewrite list_lookup_imap, Hi.
  - intros H i y. rewrite list_lookup_imap. intros (x&Hx&->)%fmap_Some. by eapply H.
Qed.

(** An element of a list after a change at one index. *)
Lemma list_alter_Some {A} (g : A → A) (l : list A) i j x :
  alter g i l !! j = Some x →
  (j = i ∧ ∃ y, l !! i = Some y ∧ x = g y) ∨ (j ≠ i ∧ l !! j = Some x).
Proof.
  rewrite list_lookup_alter. destruct (decide (i = j)) as [->|]; [|by right].
  intros (y&Hy&->)%fmap_Some. left. eauto.
Qed.

(** The range [0..n]. *)
Definition indices (n : N) : list N := N.of_nat <$> seq 0 (N.to_nat n).

Lemma indices_lookup n i x : indices n !! i = Some x ↔ x = N.of_nat i ∧ (x < n)%N.
Proof.
  unfold indices. rewrite list_lookup_fmap, fmap_Some. split.
  - intros (j&[-> ?]%lookup_seq&->). lia.
  - intros [-> ?]. exists i. split; [|done]. apply lookup_seq. lia.
Qed.

Lemma indices_length n : length (indices n) = N.to_nat n.
Proof. unfold indices. by rewrite length_fmap, length_seq. Qed.

Lemma indices_succ n : indices (n + 1) = indices n ++ [n].
Proof.
  unfold indices. replace (N.to_nat (n + 1)) with (N.to_nat n + 1)%nat by lia.
  rewrite seq_app, fmap_app. simpl. f_equal. f_equal. lia.
Qed.

(** [v[i]] read as a flag, out of range as [false]. *)
Definition flag (l : list bool) (i : nat) : bool := default false (l !! i).

Lemma flag_insert l i j : (i < length l)%nat →
  flag (<[i:=true]> l) j = bool_decide (i = j) || flag l j.
Proof.
  intros Hi. unfold flag. case_bool_decide as Hij; simpl.
  - subst. by rewrite list_lookup_insert_eq.
  - by rewrite list_lookup_insert_ne.
Qed.

Lemma flag_replicate n j : flag (replicate n false) j = false.
Proof.
  unfold flag. destruct (replicate n false !! j) as [b|] eqn:E; [|done].
  by apply lookup_replicate in E as [-> _].
Qed.

Lemma flag_true l i : flag l i = true ↔ l !! i = Some true.
Proof. unfold flag. destruct (l !! i); naive_solver. Qed.

Lemma flag_lt l i : flag l i = true → (i < length l)%nat.
Proof. rewrite flag_true. apply lookup_lt_Some. Qed.

(** Updating one cell of an indexed sum. *)
Lemma sum_list_imap_insert {A} (g : nat → A → nat) (l : list A) i x y :
  l !! i = Some x →
  (sum_list (imap g (<[i:=y]> l)) + g i x = sum_list (imap g l) + g i y)%nat.
Proof.
  revert g i. induction l as [|z l IH]; intros g [|i]; simpl; intros H; simplify_eq/=; [lia|].
  specialize (IH (λ n, g (S n)) i H). rewrite <-!Nat.add_assoc. unfold compose in *. lia.
Qed.

(** ** Sets *)

Lemma size_list_to_set_le `{Countable A} (l : list A) :
  (size (list_to_set l : gset A) ≤ length l)%nat.
Proof.
  induction l as [|x l IH]; cbn [list_to_set length]; [done|].
  rewrite size_union_alt, size_singleton.
  assert (size ((list_to_set l : gset A) ∖ {[x]}) ≤ size (list_to_set l : gset A))%nat; [|lia].
  apply subseteq_size. set_solver.
Qed.

(** ** Methods with a state, mapped over a list *)

Definition map_state {St X Y} (g : X → St → Y * St) : list X → St → list Y * St :=
  fix go l s :=
    match l with
    | [] => ([], s)
    | x :: l => let '(y, s) := g x s in let '(ys, s) := go l s in (y :: ys, s)
    end.

Lemma map_state_length {St X Y} (g : X → St → Y * St) l s : length (map_state g l s).1 = length l.
Proof.
  revert s. induction l as [|x l IH]; intros s; [done|]. cbn. destruct (g x s) as [y s1].
  specialize (IH s1). destruct (map_state g l s1). cbn in *. by f_equal.
Qed.

(** ** Searches in lists *)

Lemma existsb_false {A} (g : A → bool) l x : existsb g l = false → x ∈ l → g x = false.
Proof.
  intros H Hx. destruct (g x) eqn:E; [|done]. rewrite <-H. symmetry. apply existsb_exists.
  exists x. by rewrite <-list_elem_of_In.
Qed.

Lemma Forall2_elem_l {A B} (R : A → B → Prop) l k x : Forall2 R l k → x ∈ l → ∃ y, y ∈ k ∧ R x y.
Proof. induction 1; [by intros ?%not_elem_of_nil|]. intros [->|Hx]%elem_of_cons; set_solver. Qed.

Lemma Forall2_elem_r {A B} (R : A → B → Prop) l k y : Forall2 R l k → y ∈ k → ∃ x, x ∈ l ∧ R x y.
Proof. induction 1; [by intros ?%not_elem_of_nil|]. intros [->|Hx]%elem_of_cons; set_solver. Qed.

Lemma NoDup_map_eq {A B} (g : A → B) l x y : base.NoDup (map g l) → x ∈ l → y ∈ l → g x = g y → x = y.
Proof.
  intros Hnd Hx Hy E. induction l as [|z l IH]; [by apply elem_of_nil in Hx|]. apply stdpp.list_relations.list.NoDup_cons in Hnd as [Hz Hnd].
  apply elem_of_cons in Hx as [->|Hx], Hy as [->|Hy]; [done|..|auto]; destruct Hz.
  - rewrite E. by apply list_elem_of_fmap_2.
  - rewrite <-E. by apply list_elem_of_fmap_2.
Qed.
