(* ===== verification/Text.v ===== *)
(** * Strings and ordered iteration

    Rust compares strings byte by byte and iterates a [BTreeMap] or [BTreeSet] in
    key order.  This file has that order, the entries of a map and the elements
    of a set in that order, and the string functions the components share. *)

From Stdlib Require Import OrderedTypeEx.
From stdpp Require Import base gmap list strings numbers sorting.
From S2P Require Import Prelude.
Open Scope string_scope.
Open Scope list_scope.

(** ** The order of strings *)

Definition string_le (a b : string) : Prop := String.leb a b = true.

#[export] Instance string_le_dec : RelDecision string_le.
Proof. intros a b. unfold string_le. apply _. Defined.

#[export] Instance string_le_total : Total string_le.
Proof. intros a b. apply String.leb_total. Qed.

#[export] Instance string_le_antisymm : AntiSymm (=) string_le.
Proof. intros a b. apply String.leb_antisym. Qed.

Lemma ascii_compare_lt_trans a b c :
  Ascii.compare a b = Lt → Ascii.compare b c = Lt → Ascii.compare a c = Lt.
Proof. unfold Ascii.compare. rewrite !N.compare_lt_iff. lia. Qed.

Lemma ascii_compare_eq a b : Ascii.compare a b = Eq → a = b.
Proof. apply Ascii.compare_eq_iff. Qed.

Lemma ascii_compare_refl a : Ascii.compare a a = Eq.
Proof. apply N.compare_refl. Qed.

Lemma string_compare_lt_trans a b c :
  String.compare a b = Lt → String.compare b c = Lt → String.compare a c = Lt.
Proof.
  revert b c. induction a as [|x a IH]; intros [|y b] [|z c]; simpl; try done.
  destruct (Ascii.compare x y) eqn:E1; [apply ascii_compare_eq in E1 as <-| |done].
  - destruct (Ascii.compare x z); [apply IH|done..].
  - destruct (Ascii.compare y z) eqn:E2; [apply ascii_compare_eq in E2 as <-| |done].
    + by rewrite E1.
    + by rewrite (ascii_compare_lt_trans x y z).
Qed.

Lemma string_compare_refl a : String.compare a a = Eq.
Proof. induction a as [|x a IH]; simpl; [done|]. by rewrite ascii_compare_refl. Qed.

Lemma string_le_alt a b : string_le a b ↔ a = b ∨ String.compare a b = Lt.
Proof.
  unfold string_le, String.leb. destruct (String.compare a b) eqn:E; split; try done; auto.
  - intros _. left. by apply String.compare_eq_iff.
  - intros [->|]; [|done]. by rewrite string_compare_refl in E.
Qed.

#[export] Instance string_le_trans : Transitive string_le.
Proof.
  intros a b c. rewrite !string_le_alt. intros [->|H1] [->|H2]; auto.
  right. by eapply string_compare_lt_trans.
Qed.

(** ** Ordered iteration *)

(** A [BTreeSet] of strings collected from a list, in order. *)
Definition sort_strings (l : list string) : list string := merge_sort string_le (remove_dups l).

Lemma elem_of_sort_strings x l : x ∈ sort_strings l ↔ x ∈ l.
Proof. unfold sort_strings. by rewrite merge_sort_Permutation, elem_of_remove_dups. Qed.

Lemma sort_strings_ext l k : (∀ x, x ∈ l ↔ x ∈ k) → sort_strings l = sort_strings k.
Proof.
  intros H. apply (StronglySorted_unique string_le); [apply StronglySorted_merge_sort; apply _..|].
  unfold sort_strings. rewrite !merge_sort_Permutation.
  apply NoDup_Permutation; [apply NoDup_remove_dups..|]. intros x. by rewrite !elem_of_remove_dups.
Qed.

(** The entries of a map with string keys, by key. *)
Section entries.
Context {A : Type}.

Definition key_le (a b : string * A) : Prop := string_le a.1 b.1.

#[export] Instance key_le_dec : RelDecision key_le.
Proof. intros a b. unfold key_le. apply _. Defined.

#[export] Instance key_le_total : Total key_le.
Proof. intros a b. apply (total string_le). Qed.

#[export] Instance key_le_trans : Transitive key_le.
Proof. intros a b c. apply (transitivity (R := string_le)). Qed.

Definition entries (m : gmap string A) : list (string * A) := merge_sort key_le (map_to_list m).

Lemma elem_of_entries m k x : (k, x) ∈ entries m ↔ m !! k = Some x.
Proof. unfold entries. by rewrite merge_sort_Permutation, elem_of_map_to_list. Qed.

Lemma entries_sorted m : StronglySorted key_le (entries m).
Proof. apply StronglySorted_merge_sort; apply _. Qed.

Lemma entries_keys_NoDup m : NoDup (entries m).*1.
Proof. unfold entries. rewrite merge_sort_Permutation. apply NoDup_fst_map_to_list. Qed.

Lemma entries_inj m m' : entries m = entries m' → m = m'.
Proof.
  intros H. apply map_eq. intros k. apply option_eq. intros x. by rewrite <-!elem_of_entries, H.
Qed.
End entries.

(** The entries of a map with numeric keys, by key. *)
Section id_entries.
Context {A : Type}.

Definition id_le (a b : N * A) : Prop := (a.1 ≤ b.1)%N.

#[export] Instance id_le_dec : RelDecision id_le.
Proof. intros a b. unfold id_le. apply _. Defined.

Definition id_entries (m : gmap N A) : list (N * A) := merge_sort id_le (map_to_list m).

Lemma elem_of_id_entries m k x : (k, x) ∈ id_entries m ↔ m !! k = Some x.
Proof. unfold id_entries. by rewrite merge_sort_Permutation, elem_of_map_to_list. Qed.

Lemma elem_of_id_keys m k : k ∈ (id_entries m).*1 ↔ is_Some (m !! k).
Proof.
  rewrite list_elem_of_fmap. split.
  - intros ([k' x]&->&H%elem_of_id_entries). by exists x.
  - intros [x H%elem_of_id_entries]. by exists (k, x).
Qed.
End id_entries.

(** [l.sort_by(..)]: a stable sort; [le] is the negation of [Ordering::Greater]. *)
Section stable_sort.
Context {A : Type} (le : A → A → bool).

Fixpoint insert_stable (x : A) (l : list A) : list A :=
  match l with
  | [] => [x]
  | y :: l => if le x y then x :: y :: l else y :: insert_stable x l
  end.

Definition stable_sort (l : list A) : list A := foldr insert_stable [] l.

Lemma insert_stable_perm x l : insert_stable x l ≡ₚ x :: l.
Proof.
  induction l as [|y l IH]; simpl; [done|]. destruct (le x y); [done|]. rewrite IH. apply Permutation_swap.
Qed.

Lemma stable_sort_perm l : stable_sort l ≡ₚ l.
Proof. induction l as [|x l IH]; simpl; [done|]. by rewrite insert_stable_perm, IH. Qed.

Lemma stable_sort_nil l : stable_sort l = [] → l = [].
Proof. intros H. apply Permutation_nil. rewrite <-H. apply stable_sort_perm. Qed.

Context (le_total : ∀ x y, le x y = false → le y x = true)
        (le_trans : ∀ x y z, le x y = true → le y z = true → le x z = true).

Lemma insert_stable_sorted x l : StronglySorted le l → StronglySorted le (insert_stable x l).
Proof.
  induction 1 as [|y l Hl IH Hy]; simpl; [by repeat constructor|].
  destruct (le x y) eqn:E.
  - constructor; [by constructor|]. constructor; [by rewrite E|].
    eapply Forall_impl; [exact Hy|]. intros z Hz%Is_true_true. apply Is_true_true. by eapply le_trans.
  - constructor; [done|]. rewrite insert_stable_perm. constructor; [|done]. apply Is_true_true. by apply le_total.
Qed.

Lemma stable_sort_sorted l : StronglySorted le (stable_sort l).
Proof. induction l as [|x l IH]; simpl; [constructor|]. by apply insert_stable_sorted. Qed.

(** Lists without ties have one sorted arrangement. *)
Lemma stable_sort_unique l k :
  l ≡ₚ k → (∀ x y, x ∈ l → y ∈ l → le x y = true → le y x = true → x = y) →
  stable_sort l = stable_sort k.
Proof.
  intros Hp Hties. apply (StronglySorted_unique_strong le).
  - intros x y. rewrite !stable_sort_perm, <-Hp. intros Hx Hy H1%Is_true_true H2%Is_true_true. by apply Hties.
  - apply stable_sort_sorted.
  - apply stable_sort_sorted.
  - by rewrite !stable_sort_perm.
Qed.
End stable_sort.

(** ** Strings *)

(** [parts.join(separator)] *)
Fixpoint join (separator : string) (parts : list string) : string :=
  match parts with
  | [] => ""
  | [p] => p
  | p :: parts => p +:+ separator +:+ join separator parts
  end.

(** The parts of a string between occurrences of a character. *)
Fixpoint split_on (c : Ascii.ascii) (s : string) : list string :=
  match s with
  | EmptyString => [""]
  | String x s =>
      if bool_decide (x = c) then "" :: split_on c s
      else match split_on c s with
           | [] => [String x ""]
           | p :: ps => String x p :: ps
           end
  end.

Lemma string_length_app a b : String.length (a +:+ b) = (String.length a + String.length b)%nat.
Proof. induction a as [|c a IH]; [done|]. exact (f_equal S IH). Qed.

(** [s.starts_with(prefix)] *)
Fixpoint starts_with (prefix s : string) : bool :=
  match prefix, s with
  | EmptyString, _ => true
  | String a prefix, String b s => bool_decide (a = b) && starts_with prefix s
  | _, _ => false
  end.

(** [char::is_whitespace] on one byte; the multi-byte white-space characters
    do not occur in version requirements. *)
Definition is_whitespace (c : Ascii.ascii) : bool :=
  let n := Ascii.N_of_ascii c in
  bool_decide (n = 32)%N || (bool_decide (9 ≤ n)%N && bool_decide (n ≤ 13)%N).

Fixpoint trim_start (s : string) : string :=
  match s with
  | EmptyString => ""
  | String c rest => if is_whitespace c then trim_start rest else s
  end.

(** [s.strip_prefix(prefix)] *)
Fixpoint strip_prefix (prefix s : string) : option string :=
  match prefix, s with
  | EmptyString, s => Some s
  | String c prefix, String c' s => if bool_decide (c = c') then strip_prefix prefix s else None
  | String _ _, EmptyString => None
  end.

(** [str::from_utf8]: the well-formed byte sequences of the Unicode standard. *)
Definition byte_between (low high : N) (b : Byte.byte) : bool :=
  bool_decide (low ≤ Byte.to_N b)%N && bool_decide (Byte.to_N b ≤ high)%N.

Definition continuation : Byte.byte → bool := byte_between 128 191.

(** The second byte of a character of three or four bytes, by its first. *)
Definition second_of_three (b0 b1 : Byte.byte) : bool :=
  (byte_between 224 224 b0 && byte_between 160 191 b1) || (byte_between 225 236 b0 && continuation b1) ||
  (byte_between 237 237 b0 && byte_between 128 159 b1) || (byte_between 238 239 b0 && continuation b1).
Definition second_of_four (b0 b1 : Byte.byte) : bool :=
  (byte_between 240 240 b0 && byte_between 144 191 b1) || (byte_between 241 243 b0 && continuation b1) ||
  (byte_between 244 244 b0 && byte_between 128 143 b1).

Fixpoint utf8_valid (l : list Byte.byte) : bool :=
  match l with
  | [] => true
  | b0 :: l0 =>
      if byte_between 0 127 b0 then utf8_valid l0
      else match l0 with
           | [] => false
           | b1 :: l1 =>
               if byte_between 194 223 b0 then continuation b1 && utf8_valid l1
               else match l1 with
                    | [] => false
                    | b2 :: l2 =>
                        if second_of_three b0 b1 then continuation b2 && utf8_valid l2
                        else match l2 with
                             | [] => false
                             | b3 :: l3 => second_of_four b0 b1 && continuation b2 && continuation b3 && utf8_valid l3
                             end
                    end
           end
  end.

Definition from_utf8 (l : list Byte.byte) : option string :=
  if utf8_valid l then Some (String.string_of_list_byte l) else None.

Example utf8_samples :
  map utf8_valid [[Byte.x41]; [Byte.xc3; Byte.xa9]; [Byte.xe2; Byte.x82; Byte.xac]; [Byte.xf0; Byte.x9f; Byte.x98; Byte.x80]] = [true; true; true; true] ∧
  map utf8_valid [[Byte.xc0; Byte.x80]; [Byte.xed; Byte.xa0; Byte.x80]; [Byte.xf4; Byte.x90; Byte.x80; Byte.x80]; [Byte.x80]; [Byte.xe2; Byte.x82]] =
    [false; false; false; false; false].
Proof. vm_compute. done. Qed.
