(* ===== verification/Ir.v ===== *)
(** * The control-flow intermediate representation (crates/syllog-ir/src/lib.rs) *)

From stdpp Require Import base gmap list strings numbers countable.
From S2P Require Import Prelude.

(** ** Effects and the capability manifest *)

Inductive Effect := EffAlloc | EffAsync | EffIo | EffNetwork | EffProvider.

#[export] Instance Effect_eq_dec : EqDecision Effect.
Proof. solve_decision. Defined.

#[export] Instance Effect_countable : Countable Effect.
Proof.
  refine (inj_countable'
    (λ e, match e with EffAlloc => 0 | EffAsync => 1 | EffIo => 2 | EffNetwork => 3 | EffProvider => 4 end)
    (λ n, match n with 0 => EffAlloc | 1 => EffAsync | 2 => EffIo | 3 => EffNetwork | _ => EffProvider end) _).
  by intros [].
Defined.

Open Scope string_scope.

Definition from_source (name : string) : option Effect :=
  if bool_decide (name = "alloc") then Some EffAlloc
  else if bool_decide (name = "async") then Some EffAsync
  else if bool_decide (name = "io") then Some EffIo
  else if bool_decide (name = "network") then Some EffNetwork
  else if bool_decide (name = "provider") then Some EffProvider
  else None.

Definition as_str (e : Effect) : string :=
  match e with
  | EffAlloc => "alloc"
  | EffAsync => "async"
  | EffIo => "io"
  | EffNetwork => "network"
  | EffProvider => "provider"
  end.

Close Scope string_scope.

Record CapabilityManifest := {
  format_version : N;
  required : gset Effect
}.

Definition default_manifest : CapabilityManifest :=
  {| format_version := 1; required := ∅ |}.

(** ** Identities. Block, local and async-state identities are [u32] newtypes. *)

Record DefId := { module : N; index : N }.

#[export] Instance DefId_eq_dec : EqDecision DefId.
Proof. solve_decision. Defined.

#[export] Instance DefId_countable : Countable DefId.
Proof.
  refine (inj_countable' (λ d, (module d, index d))
    (λ p, {| module := p.1; index := p.2 |}) _).
  by intros [].
Defined.

Abbreviation BlockId := N (only parsing).
Abbreviation LocalId := N (only parsing).
Abbreviation AsyncStateId := N (only parsing).

(** ** Async state machines *)

Inductive AsyncTransition :=
| TrStart (next : AsyncStateId)
| TrSuspend (await_index : N) (resume cancel : AsyncStateId)
| TrResume (next panic : AsyncStateId)
| TrComplete
| TrCancel (drop_locals : list DefId).

Record AsyncState := {
  as_id : AsyncStateId;
  transition : AsyncTransition
}.

Record AsyncStateMachine := {
  am_function : DefId;
  parent_scope_required : bool;
  live_locals : list DefId;
  states : list AsyncState
}.

Inductive AsyncVerificationError :=
| InvalidStateTable
| InvalidTarget (state target : AsyncStateId)
| InvalidTerminalCount
| MissingParentScope.

(** The states a transition may enter. *)
Definition transition_targets (t : AsyncTransition) : list AsyncStateId :=
  match t with
  | TrStart next => [next]
  | TrSuspend _ resume cancel => [resume; cancel]
  | TrResume next panic => [next; panic]
  | TrComplete | TrCancel _ => []
  end.

Definition is_complete (s : AsyncState) : bool :=
  match transition s with TrComplete => true | _ => false end.

Definition is_cancel (s : AsyncState) : bool :=
  match transition s with TrCancel _ => true | _ => false end.

(** The state table is non-empty and its identities are contiguous from zero. *)
Definition invalid_state_table (machine : AsyncStateMachine) : bool :=
  match states machine with
  | [] => true
  | _ => existsb id
           (imap (λ index state, negb (bool_decide (as_id state = u32_of_index index)))
              (states machine))
  end.

Definition async_errors (machine : AsyncStateMachine) : list AsyncVerificationError :=
  let length := length (states machine) in
  let complete := List.length (List.filter is_complete (states machine)) in
  let cancel := List.length (List.filter is_cancel (states machine)) in
  (if invalid_state_table machine then [InvalidStateTable] else [])
  ++ (if parent_scope_required machine then [] else [MissingParentScope])
  ++ concat ((λ state,
       concat ((λ target,
         if bool_decide (length ≤ N.to_nat target)%nat
         then [InvalidTarget (as_id state) target] else [])
         <$> transition_targets (transition state))) <$> states machine)
  ++ (if bool_decide (complete = 1%nat) && bool_decide (cancel = 1%nat)
      then [] else [InvalidTerminalCount]).

Definition verify_async_machine (machine : AsyncStateMachine)
    : result unit (list AsyncVerificationError) :=
  errors_result (async_errors machine).

(** ** MIR *)

Inductive MirType :=
| TyReference (mutable : bool) (inner : MirType)
| TyUnit
| TyBool
| TyI64
| TyU64
| TyString
| TyAggregate (d : DefId).

#[export] Instance MirType_eq_dec : EqDecision MirType.
Proof. solve_decision. Defined.

Inductive Constant :=
| CUnit
| CBool (b : bool)
| CI64 (z : Z)
| CU64 (n : N)
| CString (s : string).

Definition constant_ty (c : Constant) : MirType :=
  match c with
  | CUnit => TyUnit
  | CBool _ => TyBool
  | CI64 _ => TyI64
  | CU64 _ => TyU64
  | CString _ => TyString
  end.

Inductive Operand :=
| OpConstant (c : Constant)
| OpCopy (l : LocalId)
| OpMove (l : LocalId).

Inductive Place :=
| PLocal (l : LocalId)
| PField (base : LocalId) (field : N).

Inductive BinaryOp :=
| BAdd | BSubtract | BMultiply | BDivide | BEqual | BLess | BAnd | BOr.

Inductive Rvalue :=
| RvBorrow (mutable : bool) (place : Place)
| RvUse (o : Operand)
| RvBinary (operator : BinaryOp) (left right : Operand)
| RvAggregate (ty : DefId) (discriminant : N) (fields : list Operand)
| RvDiscriminant (o : Operand).

Inductive Statement :=
| StAssign (destination : Place) (value : Rvalue)
| StDrop (place : Place).

Inductive Terminator :=
| TmReturn
| TmGoto (target : BlockId)
| TmSwitchInt (value : Operand) (targets : list (N * BlockId)) (otherwise : BlockId)
| TmCall (function : DefId) (args : list Operand) (destination : Place) (next : BlockId).

Record BasicBlock := {
  statements : list Statement;
  terminator : option Terminator
}.

Record MirFunction := {
  fn_id : DefId;
  parameter_count : N;
  return_type : MirType;
  fn_locals : list MirType;
  fn_blocks : list BasicBlock
}.

Record MirProgram := {
  functions : list MirFunction;
  entry : option DefId
}.
