(* ===== verification/Cfg.v ===== *)
(** * Control-flow graphs of MIR functions (crates/syllog-ir/src/verify.rs)

    The successor relation, the place and ownership classifiers the passes
    share, and the breadth-first search [reachable_blocks] with its
    termination and correctness: it marks exactly the blocks that a path from
    block zero reaches. *)

From stdpp Require Import base gmap list strings numbers.
From S2P Require Import Prelude Ir.

Definition place_local (p : Place) : LocalId :=
  match p with
  | PLocal l => l
  | PField base _ => base
  end.

Definition successors (t : Terminator) : list BlockId :=
  match t with
  | TmReturn => []
  | TmGoto target => [target]
  | TmSwitchInt _ targets otherwise => (targets.*2) ++ [otherwise]
  | TmCall _ _ _ next => [next]
  end.

Definition mir_type_is_copy (ty : MirType) : bool :=
  match ty with
  | TyUnit | TyBool | TyI64 | TyU64 => true
  | TyReference mutable _ => negb mutable
  | _ => false
  end.

(** The successors of the block at an index, none for a missing terminator. *)
Definition block_successors (f : MirFunction) (i : nat) : list BlockId :=
  match fn_blocks f !! i with
  | Some b => match terminator b with Some t => successors t | None => [] end
  | None => []
  end.

(** The breadth-first loop; [None] is an exhausted step budget. *)
Fixpoint reachable_loop (f : MirFunction) (fuel : nat)
    (queue : list BlockId) (reachable : list bool) : option (list bool) :=
  match queue with
  | [] => Some reachable
  | block :: rest =>
      match fuel with
      | O => None
      | S fuel =>
          let index := N.to_nat block in
          if bool_decide (length reachable ≤ index)%nat || flag reachable index
          then reachable_loop f fuel rest reachable
          else reachable_loop f fuel (rest ++ block_successors f index)
                 (<[index := true]> reachable)
      end
  end.

(** Edges of blocks not yet expanded: with the queue's length, the loop's variant. *)
Definition pending_edges (f : MirFunction) (reachable : list bool) : nat :=
  sum_list (imap (λ i r, if r : bool then 0%nat else length (block_successors f i)) reachable).

Definition unreached (f : MirFunction) : list bool := replicate (length (fn_blocks f)) false.

Definition reachable_blocks (f : MirFunction) : list bool :=
  default (unreached f)
    (reachable_loop f (S (pending_edges f (unreached f))) [0] (unreached f)).

(** ** Specification: paths from the entry block *)

Definition edge (f : MirFunction) (i j : nat) : Prop :=
  (j < length (fn_blocks f))%nat ∧ ∃ s, s ∈ block_successors f i ∧ N.to_nat s = j.

Inductive reaches (f : MirFunction) : nat → Prop :=
| reaches_entry : (0 < length (fn_blocks f))%nat → reaches f 0
| reaches_step i j : reaches f i → edge f i j → reaches f j.
#[export] Hint Constructors reaches : syllog.

Lemma reaches_lt f i : reaches f i → (i < length (fn_blocks f))%nat.
Proof. by destruct 1 as [|? ? ? []]. Qed.
#[export] Hint Resolve reaches_lt : syllog.

(** ** Termination and correctness of the search *)

Lemma pending_edges_insert f r i : r !! i = Some false →
  (pending_edges f (<[i:=true]> r) + length (block_successors f i) = pending_edges f r)%nat.
Proof.
  intros Hi. unfold pending_edges.
  pose proof (sum_list_imap_insert
    (λ i (r : bool), if r then 0%nat else length (block_successors f i)) r i false true Hi).
  simpl in *. lia.
Qed.

Lemma not_flag_lookup r i : (i < length r)%nat → flag r i = false → r !! i = Some false.
Proof.
  intros [[] Hb]%lookup_lt_is_Some Hf; [|done].
  apply flag_true in Hb. congruence.
Qed.

Lemma reachable_loop_total f fuel queue r :
  (length queue + pending_edges f r ≤ fuel)%nat →
  is_Some (reachable_loop f fuel queue r).
Proof.
  revert queue r. induction fuel as [|fuel IH]; intros [|b rest] r Hf; simpl in *; try done; [lia|].
  destruct (_ || _) eqn:E; [apply IH; lia|].
  apply orb_false_iff in E as [Hl Hr]. apply bool_decide_eq_false in Hl.
  assert (r !! N.to_nat b = Some false) as Hb by (apply not_flag_lookup; [lia|done]).
  apply (pending_edges_insert f) in Hb.
  apply IH. rewrite length_app. lia.
Qed.

(** Every mark and every queued block in range is reachable. *)
Definition reach_sound (f : MirFunction) (queue : list BlockId) (r : list bool) : Prop :=
  length r = length (fn_blocks f) ∧
  (∀ i, flag r i = true → reaches f i) ∧
  (∀ b, b ∈ queue → (N.to_nat b < length r)%nat → reaches f (N.to_nat b)).

(** The entry and every successor of a marked block is marked or queued. *)
Definition reach_closed (f : MirFunction) (queue : list BlockId) (r : list bool) : Prop :=
  (0 ∈ queue ∨ flag r 0 = true ∨ length r = 0%nat) ∧
  (∀ i s, flag r i = true → s ∈ block_successors f i →
     s ∈ queue ∨ flag r (N.to_nat s) = true ∨ (length r ≤ N.to_nat s)%nat).

Definition reach_inv (f : MirFunction) (queue : list BlockId) (r : list bool) : Prop :=
  reach_sound f queue r ∧ reach_closed f queue r.

(** Dropping a queued block that is out of range or already marked. *)
Lemma reach_inv_skip f b rest r :
  (length r ≤ N.to_nat b)%nat ∨ flag r (N.to_nat b) = true →
  reach_inv f (b :: rest) r → reach_inv f rest r.
Proof.
  intros E [(Hlen&Hmark&Hqueue) (H0&Hsucc)]. split; split.
  - done.
  - split; [done|]. intros; apply Hqueue; [by constructor|done].
  - destruct H0 as [Hin|]; [|auto]. apply elem_of_cons in Hin as [<-|]; [|auto].
    destruct E; [right; right; change (N.to_nat 0) with 0%nat in *; lia|auto].
  - intros i s Hi Hsi. destruct (Hsucc i s Hi Hsi) as [Hin|]; [|auto].
    apply elem_of_cons in Hin as [<-|]; [|auto]. destruct E; auto.
Qed.

(** Marking a block and queueing its successors. *)
Lemma reach_inv_expand f b rest r :
  (N.to_nat b < length r)%nat →
  reach_inv f (b :: rest) r →
  reach_inv f (rest ++ block_successors f (N.to_nat b)) (<[N.to_nat b:=true]> r).
Proof.
  intros Hlt [(Hlen&Hmark&Hqueue) (H0&Hsucc)].
  assert (reaches f (N.to_nat b)) as Hb by (apply Hqueue; [constructor|lia]).
  assert (∀ s, s ∈ b :: rest → s ∈ rest ++ block_successors f (N.to_nat b) ∨
    flag (<[N.to_nat b:=true]> r) (N.to_nat s) = true) as Hq.
  { intros s [<-|]%elem_of_cons; [|left; apply elem_of_app; auto].
    right. rewrite flag_insert by lia. by rewrite bool_decide_eq_true_2. }
  assert (∀ i, flag r i = true → flag (<[N.to_nat b:=true]> r) i = true) as Hup.
  { intros i Hi. by rewrite flag_insert, Hi, orb_true_r by lia. }
  split; split; rewrite ?length_insert; [done|split| |].
  - intros i. rewrite flag_insert by lia. intros [<-%bool_decide_eq_true|]%orb_true_iff; auto.
  - intros s [Hin|Hin]%elem_of_app Hs; [apply Hqueue; [by constructor|done]|].
    eapply reaches_step; [exact Hb|]. split; [lia|eauto].
  - destruct H0 as [Hin|[]]; [|auto..]. destruct (Hq 0 Hin); auto.
  - intros i s. rewrite flag_insert by lia. intros [Hi|Hi]%orb_true_iff Hsi.
    { apply bool_decide_eq_true in Hi as <-. left. apply elem_of_app. auto. }
    destruct (Hsucc i s Hi Hsi) as [Hin|[]]; [|auto..]. destruct (Hq s Hin); auto.
Qed.

Lemma reachable_loop_inv f fuel queue r r' :
  reach_inv f queue r → reachable_loop f fuel queue r = Some r' → reach_inv f [] r'.
Proof.
  revert queue r. induction fuel as [|fuel IH]; intros [|b rest] r Hinv; simpl;
    try (intros [= <-]; done); try done.
  destruct (_ || _) eqn:E; apply IH.
  - apply orb_true_iff in E. rewrite bool_decide_eq_true in E. by eapply reach_inv_skip.
  - apply orb_false_iff in E as [Hl%bool_decide_eq_false _].
    apply reach_inv_expand; [lia|done].
Qed.

Lemma reachable_blocks_loop f :
  reachable_loop f (S (pending_edges f (unreached f))) [0] (unreached f) =
  Some (reachable_blocks f).
Proof.
  unfold reachable_blocks.
  destruct (reachable_loop_total f (S (pending_edges f (unreached f))) [0] (unreached f))
    as [r ->]; [simpl; lia|done].
Qed.

Lemma reachable_blocks_inv f : reach_inv f [] (reachable_blocks f).
Proof.
  refine (reachable_loop_inv f _ [0] (unreached f) _ _ (reachable_blocks_loop f)).
  unfold reach_inv, reach_sound, reach_closed, unreached. rewrite length_replicate.
  split; split; try (intros ?; by rewrite flag_replicate); [done| |left; constructor].
  split; [intros i; by rewrite flag_replicate|].
  intros b ->%list_elem_of_singleton Hb. apply reaches_entry. lia.
Qed.

Lemma length_reachable_blocks f : length (reachable_blocks f) = length (fn_blocks f).
Proof. apply reachable_blocks_inv. Qed.

(** The marks are exactly the reachable blocks. *)
Lemma reachable_blocks_spec f i : flag (reachable_blocks f) i = true ↔ reaches f i.
Proof.
  destruct (reachable_blocks_inv f) as [(Hlen&Hmark&_) (H0&Hsucc)]. split; [apply Hmark|].
  induction 1 as [Hlt|i j Hi IH [Hj (s&Hs&<-)]].
  - destruct H0 as [?%not_elem_of_nil|[]]; [done|done|lia].
  - destruct (Hsucc i s IH Hs) as [?%not_elem_of_nil|[]]; [done|done|lia].
Qed.
