(* ===== verification/Dataflow.v ===== *)
(** * The forward must-analysis shared by the MIR passes

    [definite_initialization] and [verify_affine_ownership] of
    crates/syllog-ir/src/verify.rs (and [insert_function_drops] of
    crates/syllog-compiler/src/mir_lower.rs) run the same round-robin loop over
    the blocks of a function, with a transfer function of their own and, for
    the first, a guard that leaves the entry block alone.  The loop is modelled
    once, with the transfer function and the guard as arguments.

    The interface [MustTransfer] states what the loop needs of a transfer
    function; each pass provides an instance.  From it follow termination, that
    the result is a post-fixed point, and that it is the meet over all paths. *)

From stdpp Require Import base gmap list strings numbers.
From S2P Require Import Prelude Ir Cfg.

Abbreviation incoming_sets := (list (option (gset LocalId))) (only parsing).

(** All local identities of a function, and its parameters. *)
Definition universe (f : MirFunction) : gset LocalId :=
  list_to_set (List.filter (λ l, bool_decide (l ≤ u32_max))
    (N.of_nat <$> seq 0 (length (fn_locals f)))).

Definition parameters (f : MirFunction) : gset LocalId :=
  list_to_set (N.of_nat <$> seq 1 (N.to_nat (parameter_count f))).

(** What the loop needs of a transfer function: it is monotone, and whether a
    local is in its result depends on that local only. *)
Class MustTransfer (transfer : BasicBlock → gset LocalId → gset LocalId) : Prop := {
  transfer_mono b X Y : X ⊆ Y → transfer b X ⊆ transfer b Y;
  transfer_pointwise b l X Y :
    (l ∈ X ↔ l ∈ Y) → l ∈ transfer b X → l ∈ transfer b Y
}.

Section must.
Context (f : MirFunction).
Context (transfer : BasicBlock → gset LocalId → gset LocalId).
Context (guard : nat → bool).
Implicit Types (incoming : incoming_sets) (acc : incoming_sets * bool).

(** ** The loop *)

Definition initial_incoming : incoming_sets :=
  <[0%nat := Some (parameters f)]>
    ((λ r : bool, if r then Some (universe f) else None) <$> reachable_blocks f).

(** One control-flow edge: intersect the successor's set with the outgoing set. *)
Definition merge_into (out : gset LocalId) acc (successor : BlockId) : incoming_sets * bool :=
  let s := N.to_nat successor in
  if bool_decide (length acc.1 ≤ s)%nat || negb (flag (reachable_blocks f) s) || negb (guard s)
  then acc
  else
    let current := mjoin (acc.1 !! s) in
    let merged := (λ c, c ∩ out) <$> current in
    if bool_decide (merged = current) then acc else (<[s := merged]> acc.1, true).

Definition flow_block acc (ib : nat * BasicBlock) : incoming_sets * bool :=
  match mjoin (acc.1 !! ib.1) with
  | None => acc
  | Some state =>
      match terminator ib.2 with
      | None => acc
      | Some t => foldl (merge_into (transfer ib.2 state)) acc (successors t)
      end
  end.

(** One sweep over the blocks, reporting whether a set changed. *)
Definition flow_pass incoming : incoming_sets * bool :=
  foldl flow_block (incoming, false) (imap pair (fn_blocks f)).

Fixpoint flow_loop (fuel : nat) incoming : option incoming_sets :=
  match fuel with
  | O => None
  | S fuel =>
      let '(incoming, changed) := flow_pass incoming in
      if changed then flow_loop fuel incoming else Some incoming
  end.

(** The loop's variant: a sweep that changes something removes an element. *)
Definition flow_measure incoming : nat :=
  sum_list ((λ o, match o with Some X => size X | None => 0%nat end) <$> incoming).

Definition must_analysis : incoming_sets :=
  default initial_incoming (flow_loop (S (flow_measure initial_incoming)) initial_incoming).

(** ** Specification: the sets paths from the entry accumulate *)

Inductive path_state : nat → gset LocalId → Prop :=
| path_entry : (0 < length (fn_blocks f))%nat → path_state 0 (parameters f)
| path_step i j b X :
    path_state i X → fn_blocks f !! i = Some b → edge f i j → path_state j (transfer b X).

(** ** Termination *)

Definition flow_smaller acc acc' : Prop :=
  acc' = acc ∨ (acc'.2 = true ∧ (flow_measure acc'.1 < flow_measure acc.1)%nat).

Lemma flow_smaller_trans acc1 acc2 acc3 :
  flow_smaller acc1 acc2 → flow_smaller acc2 acc3 → flow_smaller acc1 acc3.
Proof. unfold flow_smaller. intros [->|[]] [->|[]]; auto with lia. Qed.

Lemma flow_measure_insert incoming s c out :
  incoming !! s = Some (Some c) → c ∩ out ≠ c →
  (flow_measure (<[s := Some (c ∩ out)]> incoming) < flow_measure incoming)%nat.
Proof.
  intros Hs Hne. unfold flow_measure.
  assert (size (c ∩ out) < size c)%nat.
  { apply subset_size. set_solver. }
  clear Hne. revert s Hs.
  induction incoming as [|o incoming IH]; intros [|s] Hs; simplify_eq/=; [lia|].
  specialize (IH s Hs). lia.
Qed.

Lemma merge_into_smaller out acc s : flow_smaller acc (merge_into out acc s).
Proof.
  unfold merge_into. destruct (_ || _); [by left|]. case_bool_decide as Heq; [by left|].
  destruct (acc.1 !! N.to_nat s) as [[c|]|] eqn:Hs; simpl in *; [|done..].
  right. split; [done|]. apply flow_measure_insert; [done|]. intros E. by rewrite E in Heq.
Qed.

Lemma foldl_smaller {A} (g : incoming_sets * bool → A → incoming_sets * bool) acc l :
  (∀ acc x, flow_smaller acc (g acc x)) → flow_smaller acc (foldl g acc l).
Proof.
  intros Hg. revert acc. induction l as [|x l IH]; intros acc; simpl; [by left|].
  eapply flow_smaller_trans; [apply Hg|apply IH].
Qed.

Lemma flow_block_smaller acc ib : flow_smaller acc (flow_block acc ib).
Proof.
  unfold flow_block. destruct (mjoin _); [|by left]. destruct (terminator _); [|by left].
  apply foldl_smaller. intros. apply merge_into_smaller.
Qed.

Lemma flow_loop_total fuel incoming :
  (flow_measure incoming < fuel)%nat → is_Some (flow_loop fuel incoming).
Proof.
  revert incoming. induction fuel as [|fuel IH]; intros incoming Hf; [lia|]. simpl.
  destruct (flow_pass incoming) as [incoming' []] eqn:Hp; [|done]. apply IH.
  destruct (foldl_smaller flow_block (incoming, false) (imap pair (fn_blocks f)))
    as [E|[_ E]]; [apply flow_block_smaller|..];
    unfold flow_pass in Hp; rewrite Hp in E; simplify_eq/=. lia.
Qed.

Lemma must_analysis_loop :
  flow_loop (S (flow_measure initial_incoming)) initial_incoming = Some must_analysis.
Proof.
  unfold must_analysis.
  destruct (flow_loop_total (S (flow_measure initial_incoming)) initial_incoming)
    as [x ->]; [lia|done].
Qed.

(** A sweep that reports no change changed nothing, at any edge. *)
Lemma foldl_unchanged {A} (g : incoming_sets * bool → A → incoming_sets * bool) incoming l :
  (∀ acc x, flow_smaller acc (g acc x)) →
  (foldl g (incoming, false) l).2 = false →
  foldl g (incoming, false) l = (incoming, false) ∧
  ∀ x, x ∈ l → g (incoming, false) x = (incoming, false).
Proof.
  intros Hg. induction l as [|x l IH]; simpl; intros Hf.
  { split; [done|]. by intros x ?%not_elem_of_nil. }
  destruct (Hg (incoming, false) x) as [E|[E _]].
  - rewrite E in *. destruct (IH Hf) as [-> Hl]. split; [done|].
    intros y [->|]%elem_of_cons; auto.
  - destruct (foldl_smaller g (g (incoming, false) x) l Hg) as [E'|[E' _]]; congruence.
Qed.

Lemma flow_loop_exit fuel incoming result :
  flow_loop fuel incoming = Some result → flow_pass result = (result, false).
Proof.
  revert incoming. induction fuel as [|fuel IH]; intros incoming; simpl; [done|].
  destruct (flow_pass incoming) as [incoming' []] eqn:Hp; [apply IH|].
  intros [= <-]. unfold flow_pass in *.
  destruct (foldl_unchanged flow_block incoming (imap pair (fn_blocks f)))
    as [E _]; [apply flow_block_smaller|by rewrite Hp|congruence].
Qed.

(** ** Invariants of the sets, node by node *)

Section invariant.
Context (Q : nat → gset LocalId → Prop).
Context (Q_merge : ∀ i j b X C, Q i X → Q j C → reaches f i → fn_blocks f !! i = Some b →
  edge f i j → guard j = true → Q j (C ∩ transfer b X)).

(** The shape of the table, and the invariant of every set it holds. *)
Definition flow_inv incoming : Prop :=
  length incoming = length (fn_blocks f) ∧
  ∀ i, if flag (reachable_blocks f) i
       then ∃ X, incoming !! i = Some (Some X) ∧ Q i X
       else mjoin (incoming !! i) = None.

Lemma flow_inv_lookup incoming i X :
  flow_inv incoming → incoming !! i = Some (Some X) → reaches f i ∧ Q i X.
Proof.
  intros [_ Hall] Hi. specialize (Hall i). rewrite <-reachable_blocks_spec.
  destruct (flag _ i); [|by rewrite Hi in Hall].
  destruct Hall as (X'&HX'&?). by simplify_eq.
Qed.

Lemma merge_into_inv i b X acc s :
  flow_inv acc.1 → Q i X → reaches f i → fn_blocks f !! i = Some b →
  s ∈ block_successors f i → flow_inv (merge_into (transfer b X) acc s).1.
Proof.
  intros Hinv HX Hi Hb Hs. unfold merge_into.
  destruct (_ || _) eqn:E; [done|].
  apply orb_false_iff in E as [[Hlt%bool_decide_eq_false Hr%negb_false_iff]%orb_false_iff
    Hg%negb_false_iff].
  case_bool_decide as Heq; [done|].
  destruct Hinv as [Hlen Hall]. pose proof (Hall (N.to_nat s)) as Hat.
  rewrite Hr in Hat. destruct Hat as (C&HC&HQ). rewrite HC in *. simpl in *.
  split; [by rewrite length_insert|]. intros j. destruct (decide (N.to_nat s = j)) as [<-|Hne].
  - rewrite Hr, list_lookup_insert_eq by lia. eexists; split; [done|].
    eapply Q_merge; eauto. split; [lia|eauto].
  - rewrite list_lookup_insert_ne by done. apply Hall.
Qed.

Lemma flow_block_inv acc i b :
  flow_inv acc.1 → fn_blocks f !! i = Some b → flow_inv (flow_block acc (i, b)).1.
Proof.
  intros Hinv Hb. unfold flow_block; simpl.
  destruct (acc.1 !! i) as [[X|]|] eqn:Hi; simpl; [|done..].
  destruct (terminator b) as [t|] eqn:Ht; [|done].
  destruct (flow_inv_lookup _ _ _ Hinv Hi) as [Hr HX].
  assert (∀ s, s ∈ successors t → s ∈ block_successors f i) as Hsub.
  { intros s. unfold block_successors. by rewrite Hb, Ht. }
  clear Hi. revert acc Hinv. induction (successors t) as [|s l IH]; intros acc Hinv; [done|].
  simpl. apply IH; [intros; apply Hsub; by constructor|].
  eapply merge_into_inv; eauto. apply Hsub. constructor.
Qed.

Lemma flow_pass_inv incoming : flow_inv incoming → flow_inv (flow_pass incoming).1.
Proof.
  intros Hinv. unfold flow_pass.
  assert (∀ ib, ib ∈ imap pair (fn_blocks f) → fn_blocks f !! ib.1 = Some ib.2) as Hl.
  { intros ib (i&b&->&Hb)%elem_of_lookup_imap. done. }
  change incoming with (incoming, false).1 in Hinv. revert Hinv Hl.
  generalize (incoming, false). induction (imap pair (fn_blocks f)) as [|[i b] l IH];
    intros acc Hinv Hl; simpl; [done|].
  apply IH; [|intros; apply Hl; by constructor].
  apply flow_block_inv; [done|]. apply (Hl (i, b)). constructor.
Qed.

Lemma flow_loop_inv fuel incoming result :
  flow_inv incoming → flow_loop fuel incoming = Some result → flow_inv result.
Proof.
  revert incoming. induction fuel as [|fuel IH]; intros incoming Hinv; simpl; [done|].
  apply flow_pass_inv in Hinv. destruct (flow_pass incoming) as [incoming' []].
  - by apply IH.
  - by intros [= <-].
Qed.

Lemma must_analysis_inv :
  (0 < length (fn_blocks f))%nat → Q 0 (parameters f) →
  (∀ i, reaches f i → i ≠ 0%nat → Q i (universe f)) → flow_inv must_analysis.
Proof.
  intros Hlen H0 HU. eapply flow_loop_inv; [|apply must_analysis_loop].
  unfold initial_incoming. split.
  { by rewrite length_insert, length_fmap, length_reachable_blocks. }
  intros [|i].
  - rewrite list_lookup_insert_eq by (rewrite length_fmap, length_reachable_blocks; lia).
    assert (flag (reachable_blocks f) 0 = true) as ->.
    { apply reachable_blocks_spec. by apply reaches_entry. }
    eauto.
  - rewrite list_lookup_insert_ne, list_lookup_fmap by done.
    destruct (flag _ (S i)) eqn:E.
    + pose proof (proj1 (reachable_blocks_spec f (S i)) E) as Hr.
      apply flag_true in E. rewrite E. simpl. eauto.
    + unfold flag in E. by destruct (reachable_blocks f !! S i) as [[]|].
Qed.
End invariant.

(** ** The result is a post-fixed point *)

Lemma must_analysis_fixpoint i j b X Y :
  must_analysis !! i = Some (Some X) → must_analysis !! j = Some (Some Y) →
  fn_blocks f !! i = Some b → edge f i j → reaches f j → guard j = true →
  Y ⊆ transfer b X.
Proof.
  intros Hi Hj Hb [Hlt (s&Hs&<-)] Hr%reachable_blocks_spec Hg.
  pose proof (flow_loop_exit _ _ _ must_analysis_loop) as Hpass.
  destruct (foldl_unchanged flow_block must_analysis (imap pair (fn_blocks f)))
    as [_ Hblock]; [apply flow_block_smaller|unfold flow_pass in Hpass; by rewrite Hpass|].
  specialize (Hblock (i, b)). rewrite elem_of_lookup_imap in Hblock.
  specialize (Hblock ltac:(eauto)). unfold flow_block in Hblock. simpl in Hblock.
  rewrite Hi in Hblock. simpl in Hblock. unfold block_successors in Hs. rewrite Hb in Hs.
  destruct (terminator b) as [t|]; [|by apply not_elem_of_nil in Hs].
  destruct (foldl_unchanged (merge_into (transfer b X)) must_analysis (successors t))
    as [_ Hmerge]; [intros; apply merge_into_smaller|by rewrite Hblock|].
  specialize (Hmerge s Hs). unfold merge_into in Hmerge. simpl in Hmerge.
  pose proof (lookup_lt_Some _ _ _ Hj).
  rewrite bool_decide_eq_false_2, Hr, Hg, Hj in Hmerge by lia. simpl in Hmerge.
  case_bool_decide as E; [|congruence]. injection E. set_solver.
Qed.

(** Every reachable block has a set. *)
Lemma must_analysis_reaches i :
  reaches f i → ∃ X, must_analysis !! i = Some (Some X).
Proof.
  intros Hi. pose proof (reaches_lt _ _ Hi).
  destruct (must_analysis_inv (λ _ _, True)) as [_ Hall]; try done; [lia|].
  specialize (Hall i). rewrite (proj2 (reachable_blocks_spec f i) Hi) in Hall. naive_solver.
Qed.

Lemma must_analysis_lookup i X : must_analysis !! i = Some (Some X) → reaches f i.
Proof.
  intros Hi. destruct (length (fn_blocks f)) eqn:E.
  - exfalso. pose proof (flow_loop_exit _ _ _ must_analysis_loop) as Hpass.
    assert (must_analysis = initial_incoming) as Hm.
    { pose proof must_analysis_loop as Hl. apply nil_length_inv in E. simpl in Hl.
      unfold flow_pass in Hl. rewrite E in Hl. by injection Hl. }
    rewrite Hm in Hi. apply lookup_lt_Some in Hi. unfold initial_incoming in Hi.
    rewrite length_insert, length_fmap, length_reachable_blocks, E in Hi. lia.
  - eapply (flow_inv_lookup (λ _ _, True)); [|done]. apply must_analysis_inv; try done. lia.
Qed.
End must.

(** ** The result is the meet over all paths *)

Section paths.
Context (f : MirFunction).
Context (transfer : BasicBlock → gset LocalId → gset LocalId) `{!MustTransfer transfer}.
Context (guard : nat → bool).
(** Only the entry block may be left alone, and then only by a transfer
    function that never removes a local. *)
Context (guard_entry : ∀ j, guard j = false → j = 0%nat).
Context (guard_grows : guard 0 = false → ∀ b X, X ⊆ transfer b X).

Abbreviation analysis := (must_analysis f transfer guard).

Lemma path_state_reaches j X : path_state f transfer j X → reaches f j.
Proof. induction 1; eauto with syllog. Qed.

Lemma path_state_exists j : reaches f j → ∃ X, path_state f transfer j X.
Proof.
  induction 1 as [|i j Hi [X HX] He]; [eauto using path_entry|].
  destruct (lookup_lt_is_Some_2 (fn_blocks f) i) as [b Hb]; [by apply reaches_lt|].
  eauto using path_step.
Qed.

Lemma analysis_entry X : analysis !! 0%nat = Some (Some X) → X ⊆ parameters f.
Proof.
  intros HX. pose proof (must_analysis_lookup _ _ _ _ _ HX) as H0%reaches_lt.
  assert (flow_inv f (λ i X, i = 0%nat → X ⊆ parameters f) analysis) as Hinv.
  { apply must_analysis_inv; try done. intros; set_solver. }
  by apply (flow_inv_lookup _ _ _ _ _ Hinv HX).
Qed.

Lemma path_state_parameters j X :
  guard 0 = false → path_state f transfer j X → parameters f ⊆ X.
Proof.
  intros Hg. induction 1 as [|i j b X _ IH _ _]; [done|].
  etrans; [exact IH|]. by apply guard_grows.
Qed.

(** Sound: what the analysis claims holds on every path. *)
Lemma analysis_sound j X D :
  path_state f transfer j X → analysis !! j = Some (Some D) → D ⊆ X.
Proof.
  intros HX. revert D. induction HX as [H0|i j b X Hi IH Hb He]; intros D HD.
  { by apply analysis_entry. }
  pose proof (path_state_reaches _ _ Hi) as Hri.
  destruct (must_analysis_reaches f transfer guard i Hri) as [C HC].
  destruct (guard j) eqn:Hg.
  - etrans; [eapply must_analysis_fixpoint; eauto with syllog|].
    apply transfer_mono. by apply IH.
  - pose proof (guard_entry _ Hg) as ->. etrans; [by apply analysis_entry|].
    eapply path_state_parameters; [done|]. by eapply path_step.
Qed.

Lemma transfer_not_elem b l X Y :
  l ∉ transfer b X → l ∉ Y → l ∉ transfer b Y.
Proof.
  intros HX HY HlY. apply HX. apply (transfer_mono b (X ∖ {[l]}) X); [set_solver|].
  eapply transfer_pointwise; [|exact HlY]. set_solver.
Qed.

(** Precise: a local it leaves out is missing on some path. *)
Lemma analysis_precise j D l :
  analysis !! j = Some (Some D) → l ∈ universe f → l ∉ D →
  ∃ X, path_state f transfer j X ∧ l ∉ X.
Proof.
  intros HD Hl.
  assert (flow_inv f (λ i C, l ∉ C → ∃ X, path_state f transfer i X ∧ l ∉ X) analysis) as Hinv.
  { pose proof (must_analysis_lookup _ _ _ _ _ HD) as Hr.
    assert (0 < length (fn_blocks f))%nat by (apply reaches_lt in Hr; lia).
    apply must_analysis_inv; [|done|eauto using path_entry|done].
    intros i k b X C HX HC Hi Hb He _ [HnC|HnT]%not_elem_of_intersection; [by apply HC|].
    destruct (decide (l ∈ X)) as [HlX|HlX].
    - destruct (path_state_exists i Hi) as [Y HY]. exists (transfer b Y).
      split; [by eapply path_step|]. destruct (decide (l ∈ Y)) as [HlY|HlY].
      + intros HlT. apply HnT. eapply transfer_pointwise; [|exact HlT]. done.
      + by eapply transfer_not_elem.
    - destruct (HX HlX) as (Y&HY&HlY). exists (transfer b Y).
      split; [by eapply path_step|by eapply transfer_not_elem]. }
  by apply (flow_inv_lookup _ _ _ _ _ Hinv HD).
Qed.

(** A local of the function is in the set of a reachable block exactly when
    every path to the block leaves it there. *)
Lemma analysis_meet_over_paths j D l :
  analysis !! j = Some (Some D) → l ∈ universe f →
  l ∈ D ↔ ∀ X, path_state f transfer j X → l ∈ X.
Proof.
  intros HD Hl. split.
  - intros HlD X HX. by eapply analysis_sound.
  - intros Hall. destruct (decide (l ∈ D)) as [|Hn]; [done|].
    destruct (analysis_precise _ _ _ HD Hl Hn) as (X&HX&?). exfalso. eauto.
Qed.
End paths.
