(* ===== verification/Verify.v ===== *)
(** * The MIR verifier (crates/syllog-ir/src/verify.rs)

    A translation of the two passes run on every function: [verify_function]
    (structure, targets, types, definite initialization) and
    [verify_affine_ownership] (moves, drops, copies).  The source appends to a
    shared error vector; here each function returns the errors it appends, in
    order, beside its result. *)

From stdpp Require Import base gmap list strings numbers.
From S2P Require Import Prelude Ir Cfg Dataflow.

Inductive VerificationError :=
| UseAfterMove (function : DefId) (block : BlockId) (local : LocalId)
| DoubleDrop (function : DefId) (block : BlockId) (local : LocalId)
| InvalidCopy (function : DefId) (block : BlockId) (local : LocalId)
| OverwriteWithoutDrop (function : DefId) (block : BlockId) (local : LocalId)
| EmptyFunction (function : DefId)
| MissingTerminator (function : DefId) (block : BlockId)
| InvalidBlockTarget (function : DefId) (block target : BlockId)
| InvalidLocal (function : DefId) (block : BlockId) (local : LocalId)
| UseBeforeDefinition (function : DefId) (block : BlockId) (local : LocalId)
| TypeMismatch (function : DefId) (block : BlockId) (expected actual : MirType)
| UnknownFunction (function : DefId) (block : BlockId) (callee : DefId)
| ArgumentCount (function : DefId) (block : BlockId) (expected actual : nat)
| InvalidSwitchType (function : DefId) (block : BlockId) (actual : MirType).

Abbreviation errors := (list VerificationError) (only parsing).

(** [if b { errors.push(e) }] *)
Definition when (b : bool) (e : VerificationError) : errors := if b then [e] else [].

Section function.
Context (f : MirFunction).

Definition local_type (l : LocalId) : option MirType := fn_locals f !! N.to_nat l.

Definition type_error (block : BlockId) (expected actual : MirType) : VerificationError :=
  TypeMismatch (fn_id f) block expected actual.

(** ** Uses of locals and places *)

Definition verify_local_use (block : BlockId) (local : LocalId)
    (defined : gset LocalId) : errors :=
  if bool_decide (N.to_nat local < length (fn_locals f))%nat
  then when (bool_decide (local ∉ defined)) (UseBeforeDefinition (fn_id f) block local)
  else [InvalidLocal (fn_id f) block local].

Definition operand_type (block : BlockId) (operand : Operand)
    (defined : gset LocalId) : option MirType * errors :=
  match operand with
  | OpConstant c => (Some (constant_ty c), [])
  | OpCopy local | OpMove local =>
      (local_type local, verify_local_use block local defined)
  end.

Definition place_type (block : BlockId) (place : Place) : option MirType * errors :=
  match local_type (place_local place) with
  | None => (None, [InvalidLocal (fn_id f) block (place_local place)])
  | Some ty =>
      match place with
      | PLocal _ => (Some ty, [])
      | PField _ _ => (None, [])
      end
  end.

(** The type of a binary operation on operands of known types. *)
Definition binary_type (block : BlockId) (operator : BinaryOp)
    (left right : MirType) : MirType * errors :=
  let mismatch := when (bool_decide (left ≠ right)) (type_error block left right) in
  match operator with
  | BEqual | BLess => (TyBool, mismatch)
  | BAnd | BOr =>
      (TyBool, mismatch ++ when (bool_decide (left ≠ TyBool)) (type_error block TyBool left))
  | BAdd | BSubtract | BMultiply | BDivide => (left, mismatch)
  end.

Definition verify_rvalue (block : BlockId) (value : Rvalue)
    (defined : gset LocalId) : option MirType * errors :=
  match value with
  | RvBorrow mutable place =>
      let '(inner, e) := place_type block place in
      (TyReference mutable <$> inner,
       verify_local_use block (place_local place) defined ++ e)
  | RvUse operand => operand_type block operand defined
  | RvDiscriminant operand => (Some TyU64, (operand_type block operand defined).2)
  | RvAggregate ty _ fields =>
      (Some (TyAggregate ty),
       concat ((λ field, (operand_type block field defined).2) <$> fields))
  | RvBinary operator lhs rhs =>
      let '(left_type, e1) := operand_type block lhs defined in
      match left_type with
      | None => (None, e1)
      | Some left_type =>
          let '(right_type, e2) := operand_type block rhs defined in
          match right_type with
          | None => (None, e1 ++ e2)
          | Some right_type =>
              let '(ty, e3) := binary_type block operator left_type right_type in
              (Some ty, e1 ++ e2 ++ e3)
          end
      end
  end.

(** ** Statements and terminators *)

Definition verify_statement (block : BlockId) (statement : Statement)
    (defined : gset LocalId) : gset LocalId * errors :=
  match statement with
  | StAssign destination value =>
      let '(value_type, e1) := verify_rvalue block value defined in
      let '(destination_type, e2) := place_type block destination in
      match destination_type with
      | None => (defined, e1 ++ e2)
      | Some destination_type =>
          let e3 :=
            match value_type with
            | Some value_type =>
                when (bool_decide (destination_type ≠ value_type))
                  (type_error block destination_type value_type)
            | None => []
            end in
          let defined :=
            match destination with
            | PLocal local => {[local]} ∪ defined
            | PField _ _ => defined
            end in
          (defined, e1 ++ e2 ++ e3)
      end
  | StDrop place => (defined, verify_local_use block (place_local place) defined)
  end.

Fixpoint verify_statements (block : BlockId) (sts : list Statement)
    (defined : gset LocalId) : gset LocalId * errors :=
  match sts with
  | [] => (defined, [])
  | st :: sts =>
      let '(defined, e1) := verify_statement block st defined in
      let '(defined, e2) := verify_statements block sts defined in
      (defined, e1 ++ e2)
  end.

Definition is_switch_type (ty : MirType) : bool :=
  match ty with TyBool | TyI64 | TyU64 => true | _ => false end.

(** One call argument against the callee's parameter at the same position. *)
Definition verify_argument (block : BlockId) (signature : MirFunction)
    (defined : gset LocalId) (index : nat) (argument : Operand) : errors :=
  let '(actual, e) := operand_type block argument defined in
  e ++
  match actual, fn_locals signature !! S index with
  | Some actual, Some expected =>
      when (bool_decide (actual ≠ expected)) (type_error block expected actual)
  | _, _ => []
  end.

Definition verify_terminator (block : BlockId) (t : Terminator)
    (signatures : gmap DefId MirFunction) (defined : gset LocalId) : errors :=
  match t with
  | TmReturn => verify_local_use block 0 defined
  | TmGoto _ => []
  | TmSwitchInt value _ _ =>
      let '(actual, e) := operand_type block value defined in
      e ++ match actual with
           | Some actual =>
               when (negb (is_switch_type actual)) (InvalidSwitchType (fn_id f) block actual)
           | None => []
           end
  | TmCall callee args destination _ =>
      match signatures !! callee with
      | None => []
      | Some signature =>
          let count := N.to_nat (parameter_count signature) in
          when (bool_decide (length args ≠ count))
            (ArgumentCount (fn_id f) block count (length args))
          ++ concat (imap (verify_argument block signature defined) args)
          ++ (let '(actual, e) := place_type block destination in
              e ++ match actual with
                   | Some actual =>
                       when (bool_decide (actual ≠ return_type signature))
                         (type_error block (return_type signature) actual)
                   | None => []
                   end)
      end
  end.

Definition verify_block (block_id : BlockId) (block : BasicBlock)
    (signatures : gmap DefId MirFunction) (defined : gset LocalId) : errors :=
  let '(defined, e) := verify_statements block_id (statements block) defined in
  e ++ match terminator block with
       | Some t => verify_terminator block_id t signatures defined
       | None => []
       end.

Definition verify_targets (signatures : gmap DefId MirFunction) : errors :=
  concat (imap (λ index block,
    let block_id := u32_of_index index in
    match terminator block with
    | None => [MissingTerminator (fn_id f) block_id]
    | Some t =>
        concat ((λ target,
          when (bool_decide (length (fn_blocks f) ≤ N.to_nat target)%nat)
            (InvalidBlockTarget (fn_id f) block_id target)) <$> successors t)
        ++ match t with
           | TmCall callee _ _ _ =>
               when (bool_decide (signatures !! callee = None))
                 (UnknownFunction (fn_id f) block_id callee)
           | _ => []
           end
    end) (fn_blocks f)).
End function.

(** ** Definite initialization *)

Definition define_statement (X : gset LocalId) (st : Statement) : gset LocalId :=
  match st with
  | StAssign (PLocal local) _ => {[local]} ∪ X
  | _ => X
  end.

Definition define_terminator (t : option Terminator) (X : gset LocalId) : gset LocalId :=
  match t with
  | Some (TmCall _ _ (PLocal local) _) => {[local]} ∪ X
  | _ => X
  end.

Definition define_block (b : BasicBlock) (X : gset LocalId) : gset LocalId :=
  define_terminator (terminator b) (foldl define_statement X (statements b)).

Definition definite_initialization (f : MirFunction) : list (option (gset LocalId)) :=
  must_analysis f define_block (λ successor, negb (bool_decide (successor = 0%nat))).

Definition verify_function (f : MirFunction) (signatures : gmap DefId MirFunction) : errors :=
  match fn_locals f, fn_blocks f with
  | [], _ | _, [] => [EmptyFunction (fn_id f)]
  | local0 :: _, _ =>
      when (bool_decide (local0 ≠ return_type f)) (TypeMismatch (fn_id f) 0 (return_type f) local0)
      ++ if bool_decide (length (fn_locals f) < S (N.to_nat (parameter_count f)))%nat
         then [InvalidLocal (fn_id f) 0 (parameter_count f)]
         else
           verify_targets f signatures
           ++ concat (imap (λ index block,
                match mjoin (definite_initialization f !! index) with
                | None => []
                | Some defined => verify_block f (u32_of_index index) block signatures defined
                end) (fn_blocks f))
  end.

(** ** Affine ownership *)

Definition consume_operand (X : gset LocalId) (operand : Operand) : gset LocalId :=
  match operand with
  | OpMove local => X ∖ {[local]}
  | _ => X
  end.

Definition consume_rvalue (value : Rvalue) (X : gset LocalId) : gset LocalId :=
  match value with
  | RvBorrow _ _ => X
  | RvUse operand | RvDiscriminant operand => consume_operand X operand
  | RvAggregate _ _ fields => foldl consume_operand X fields
  | RvBinary _ lhs rhs => consume_operand (consume_operand X lhs) rhs
  end.

Definition own_place (p : Place) (X : gset LocalId) : gset LocalId :=
  match p with
  | PLocal local => {[local]} ∪ X
  | PField _ _ => X
  end.

Definition consume_terminator (t : Terminator) (X : gset LocalId) : gset LocalId :=
  match t with
  | TmSwitchInt value _ _ => consume_operand X value
  | TmCall _ args destination _ => own_place destination (foldl consume_operand X args)
  | TmReturn | TmGoto _ => X
  end.

Definition transfer_statement (X : gset LocalId) (st : Statement) : gset LocalId :=
  match st with
  | StAssign destination value => own_place destination (consume_rvalue value X)
  | StDrop place => X ∖ {[place_local place]}
  end.

Definition transfer_block (b : BasicBlock) (X : gset LocalId) : gset LocalId :=
  let X := foldl transfer_statement X (statements b) in
  match terminator b with
  | Some t => consume_terminator t X
  | None => X
  end.

(** Parameters and every local some block assigns. *)
Definition ever_initialized (f : MirFunction) (parameters : gset LocalId) : gset LocalId :=
  foldl (λ X b, define_block b X) parameters (fn_blocks f).

Section ownership.
Context (f : MirFunction).

Definition affine_local (local : LocalId) : bool :=
  match local_type f local with
  | Some ty => negb (mir_type_is_copy ty)
  | None => false
  end.

Definition check_read (block : BlockId) (local : LocalId) (consume : bool)
    (state initialized : gset LocalId) : gset LocalId * errors :=
  if bool_decide (local ∉ state) && bool_decide (local ∈ initialized)
  then (state, [UseAfterMove (fn_id f) block local])
  else (if consume then state ∖ {[local]} else state, []).

Definition check_operand_ownership (block : BlockId) (operand : Operand)
    (state initialized : gset LocalId) : gset LocalId * errors :=
  match operand with
  | OpConstant _ => (state, [])
  | OpCopy local =>
      let '(state, e) := check_read block local false state initialized in
      (state, e ++ when (affine_local local) (InvalidCopy (fn_id f) block local))
  | OpMove local => check_read block local true state initialized
  end.

Fixpoint check_operands_ownership (block : BlockId) (operands : list Operand)
    (state initialized : gset LocalId) : gset LocalId * errors :=
  match operands with
  | [] => (state, [])
  | o :: operands =>
      let '(state, e1) := check_operand_ownership block o state initialized in
      let '(state, e2) := check_operands_ownership block operands state initialized in
      (state, e1 ++ e2)
  end.

Definition check_rvalue_ownership (block : BlockId) (value : Rvalue)
    (state initialized : gset LocalId) : gset LocalId * errors :=
  match value with
  | RvBorrow _ place => check_read block (place_local place) false state initialized
  | RvUse operand | RvDiscriminant operand =>
      check_operand_ownership block operand state initialized
  | RvAggregate _ _ fields => check_operands_ownership block fields state initialized
  | RvBinary _ lhs rhs => check_operands_ownership block [lhs; rhs] state initialized
  end.

Definition check_terminator_ownership (block : BlockId) (t : Terminator)
    (state initialized : gset LocalId) : gset LocalId * errors :=
  match t with
  | TmReturn => check_read block 0 false state initialized
  | TmSwitchInt value _ _ => check_operand_ownership block value state initialized
  | TmCall _ args destination _ =>
      let '(state, e) := check_operands_ownership block args state initialized in
      (own_place destination state, e)
  | TmGoto _ => (state, [])
  end.

Definition check_statement_ownership (block : BlockId) (statement : Statement)
    (state initialized : gset LocalId) : gset LocalId * errors :=
  match statement with
  | StAssign destination value =>
      let '(state, e1) := check_rvalue_ownership block value state initialized in
      match destination with
      | PLocal local =>
          ({[local]} ∪ state,
           e1 ++ when (bool_decide (local ∈ state) && affine_local local)
                   (OverwriteWithoutDrop (fn_id f) block local))
      | PField _ _ => (state, e1)
      end
  | StDrop place =>
      let local := place_local place in
      (state ∖ {[local]},
       when (bool_decide (local ∉ state) && bool_decide (local ∈ initialized))
         (DoubleDrop (fn_id f) block local))
  end.

Fixpoint check_statements_ownership (block : BlockId) (sts : list Statement)
    (state initialized : gset LocalId) : gset LocalId * errors :=
  match sts with
  | [] => (state, [])
  | st :: sts =>
      let '(state, e1) := check_statement_ownership block st state initialized in
      let '(state, e2) := check_statements_ownership block sts state initialized in
      (state, e1 ++ e2)
  end.

Definition check_block_ownership (block_id : BlockId) (block : BasicBlock)
    (state initialized : gset LocalId) : errors :=
  let '(state, e1) := check_statements_ownership block_id (statements block) state initialized in
  e1 ++ match terminator block with
        | Some t => (check_terminator_ownership block_id t state initialized).2
        | None => []
        end.

Definition ownership_analysis : list (option (gset LocalId)) :=
  must_analysis f transfer_block (λ _, true).

Definition verify_affine_ownership : errors :=
  match fn_blocks f with
  | [] => []
  | _ =>
      let initialized := ever_initialized f (parameters f) in
      concat (imap (λ index block,
        match mjoin (ownership_analysis !! index) with
        | None => []
        | Some state => check_block_ownership (u32_of_index index) block state initialized
        end) (fn_blocks f))
  end.
End ownership.

(** ** The verifier *)

(** [functions.iter().map(|f| (f.id, f)).collect::<BTreeMap<_, _>>()]: the last
    function with an identity wins. *)
Definition signatures_of (fs : list MirFunction) : gmap DefId MirFunction :=
  foldl (λ m f, <[fn_id f := f]> m) ∅ fs.

Definition program_errors (p : MirProgram) : errors :=
  concat ((λ f, verify_function f (signatures_of (functions p)) ++ verify_affine_ownership f)
    <$> functions p).

Definition verify (p : MirProgram) : result unit (list VerificationError) :=
  errors_result (program_errors p).
