(* ===== verification/VerifySound.v ===== *)
(** * What a verified program satisfies

    The transfer functions of the two analyses meet the interface of
    Dataflow.v; an error-free [verify] is exactly [passes_checks] for every
    function (VerifyTheorems shows what that means); and on such a function the ownership check consumes the
    same locals as the analysis, and reads only locals that are still owned. *)

From stdpp Require Import base gmap list strings numbers.
From S2P Require Import Prelude Ir Cfg Dataflow Verify.

(** ** The transfer functions *)

(** Functions built from insertions and removals of single locals. *)
Definition local_update (g : gset LocalId → gset LocalId) : Prop :=
  (∀ X Y, X ⊆ Y → g X ⊆ g Y) ∧
  (∀ l X Y, (l ∈ X ↔ l ∈ Y) → l ∈ g X → l ∈ g Y).

Lemma local_update_id : local_update (λ X, X).
Proof. split; [done|naive_solver]. Qed.

Lemma local_update_insert l : local_update (λ X, {[l]} ∪ X).
Proof. split; set_solver. Qed.

Lemma local_update_delete l : local_update (λ X, X ∖ {[l]}).
Proof. split; set_solver. Qed.

Lemma local_update_compose g h :
  local_update g → local_update h → local_update (λ X, g (h X)).
Proof.
  intros [Hg Hg'] [Hh Hh']. split; [auto|].
  intros l X Y Hl. apply Hg'. split; apply Hh'; tauto.
Qed.

Lemma local_update_foldl {A} (g : gset LocalId → A → gset LocalId) (l : list A) :
  (∀ x, local_update (λ X, g X x)) → local_update (λ X, foldl g X l).
Proof.
  intros Hg. induction l as [|x l IH]; simpl; [apply local_update_id|].
  by apply (local_update_compose (λ X, foldl g X l) (λ X, g X x)).
Qed.

#[export] Hint Resolve local_update_id local_update_insert local_update_delete : syllog.

Lemma define_statement_update st : local_update (λ X, define_statement X st).
Proof. destruct st as [[l|] r|p]; simpl; auto with syllog. Qed.

Lemma define_terminator_update t : local_update (λ X, define_terminator t X).
Proof. destruct t as [[| | |? ? [l|] ?]|]; simpl; auto with syllog. Qed.

Lemma own_place_update p : local_update (λ X, own_place p X).
Proof. destruct p; simpl; auto with syllog. Qed.

Lemma consume_operand_update o : local_update (λ X, consume_operand X o).
Proof. destruct o; simpl; auto with syllog. Qed.

Lemma consume_rvalue_update r : local_update (λ X, consume_rvalue r X).
Proof.
  destruct r as [| |? lhs rhs|? ? fields|]; simpl;
    auto using consume_operand_update, local_update_foldl with syllog.
  apply (local_update_compose (λ X, consume_operand X rhs) (λ X, consume_operand X lhs));
    apply consume_operand_update.
Qed.

Lemma transfer_statement_update st : local_update (λ X, transfer_statement X st).
Proof.
  destruct st as [p r|p]; simpl; auto with syllog.
  apply (local_update_compose (own_place p)); auto using own_place_update, consume_rvalue_update.
Qed.

Lemma consume_terminator_update t : local_update (λ X, consume_terminator t X).
Proof.
  destruct t as [| |v ? ?|? args p ?]; simpl; auto using consume_operand_update with syllog.
  apply (local_update_compose (own_place p));
    auto using own_place_update, local_update_foldl, consume_operand_update.
Qed.

#[export] Instance define_block_transfer : MustTransfer define_block.
Proof.
  assert (∀ b, local_update (define_block b)) as Hb.
  { intros b. apply (local_update_compose (define_terminator (terminator b)));
      auto using define_terminator_update, local_update_foldl, define_statement_update. }
  split; intros b; apply Hb.
Qed.

#[export] Instance transfer_block_transfer : MustTransfer transfer_block.
Proof.
  assert (∀ b, local_update (transfer_block b)) as Hb.
  { intros b. unfold transfer_block. destruct (terminator b) as [t|];
      [apply (local_update_compose (consume_terminator t))|];
      auto using consume_terminator_update, local_update_foldl, transfer_statement_update. }
  split; intros b; apply Hb.
Qed.

(** ** Definite initialization stays within what is ever initialized *)

Lemma define_statement_grows st X : X ⊆ define_statement X st.
Proof. destruct st as [[] ?|]; simpl; set_solver. Qed.

Lemma define_statements_grow sts X : X ⊆ foldl define_statement X sts.
Proof.
  revert X. induction sts as [|st sts IH]; intros X; simpl; [done|].
  etrans; [apply (define_statement_grows st)|apply IH].
Qed.

Lemma define_block_grows b X : X ⊆ define_block b X.
Proof.
  unfold define_block. etrans; [apply define_statements_grow|].
  destruct (terminator b) as [[| | |? ? [] ?]|]; simpl; set_solver.
Qed.

Lemma foldl_define_grows (bs : list BasicBlock) X : X ⊆ foldl (λ X b, define_block b X) X bs.
Proof.
  revert X. induction bs as [|b bs IH]; intros X; simpl; [done|].
  etrans; [apply define_block_grows|apply IH].
Qed.

Lemma ever_initialized_block f P b X :
  b ∈ fn_blocks f → X ⊆ ever_initialized f P → define_block b X ⊆ ever_initialized f P.
Proof.
  intros Hb HX l Hl. destruct (decide (l ∈ X)) as [|HlX]; [by apply HX|]. clear HX.
  unfold ever_initialized. revert P. induction Hb as [b bs|b c bs Hb IH]; intros P; simpl.
  - apply foldl_define_grows. destruct (decide (l ∈ P)).
    + by apply define_block_grows.
    + eapply transfer_pointwise; [|exact Hl]. done.
  - by apply IH.
Qed.

(** The guard of [definite_initialization] leaves only the entry alone. *)
Lemma entry_guard j : negb (bool_decide (j = 0%nat)) = false → j = 0%nat.
Proof. intros H%negb_false_iff. by apply bool_decide_eq_true in H. Qed.

Lemma definite_initialization_initialized f i D :
  definite_initialization f !! i = Some (Some D) → D ⊆ ever_initialized f (parameters f).
Proof.
  intros HD. pose proof (must_analysis_lookup _ _ _ _ _ HD) as Hr.
  destruct (path_state_exists f define_block i Hr) as [X HX].
  etrans; [eapply (analysis_sound f define_block _ entry_guard); [|exact HX|exact HD]|].
  { intros _. apply define_block_grows. }
  clear HD Hr. induction HX as [|i j b X _ IH Hb _].
  - apply foldl_define_grows.
  - apply ever_initialized_block; [|done]. by eapply list_elem_of_lookup_2.
Qed.

(** ** Error-free verification, component by component *)

Record passes_checks (signatures : gmap DefId MirFunction) (f : MirFunction) : Prop := {
  wf_return : fn_locals f !! 0%nat = Some (return_type f);
  wf_parameters : (N.to_nat (parameter_count f) < length (fn_locals f))%nat;
  wf_entry : (0 < length (fn_blocks f))%nat;
  wf_terminator i b : fn_blocks f !! i = Some b →
    ∃ t, terminator b = Some t ∧
         (∀ s, s ∈ successors t → (N.to_nat s < length (fn_blocks f))%nat) ∧
         (∀ callee args p next, t = TmCall callee args p next → is_Some (signatures !! callee));
  wf_block i b D : fn_blocks f !! i = Some b → definite_initialization f !! i = Some (Some D) →
    verify_block f (u32_of_index i) b signatures D = [];
  wf_ownership i b O : fn_blocks f !! i = Some b → ownership_analysis f !! i = Some (Some O) →
    check_block_ownership f (u32_of_index i) b O (ever_initialized f (parameters f)) = []
}.

Lemma when_nil b e : when b e = [] ↔ b = false.
Proof. by destruct b. Qed.

Lemma verify_targets_nil f signatures :
  verify_targets f signatures = [] ↔
  ∀ i b, fn_blocks f !! i = Some b →
    ∃ t, terminator b = Some t ∧
         (∀ s, s ∈ successors t → (N.to_nat s < length (fn_blocks f))%nat) ∧
         (∀ callee args p next, t = TmCall callee args p next → is_Some (signatures !! callee)).
Proof.
  unfold verify_targets. rewrite concat_imap_nil. apply forall_proper; intros i.
  apply forall_impl_iff; intros b Hb.
  destruct (terminator b) as [t|]; [|naive_solver].
  rewrite app_nil, concat_fmap_nil. split.
  - intros [Ht Hc]. exists t. split; [done|]. split.
    + intros s Hs. apply Ht in Hs. apply when_nil, bool_decide_eq_false in Hs. lia.
    + intros callee args p next ->. apply when_nil, bool_decide_eq_false in Hc.
      by apply not_eq_None_Some.
  - intros (t'&[= <-]&Ht&Hc). split.
    + intros s Hs%Ht. apply when_nil, bool_decide_eq_false. lia.
    + destruct t as [| | |callee args p next]; try done. apply when_nil, bool_decide_eq_false.
      apply not_eq_None_Some. by eapply Hc.
Qed.

Lemma imap_mjoin_nil {A} (bs : list BasicBlock) (table : list (option A))
    (g : nat → BasicBlock → A → errors) :
  concat (imap (λ i b, match mjoin (table !! i) with None => [] | Some x => g i b x end) bs) = [] ↔
  ∀ i b x, bs !! i = Some b → table !! i = Some (Some x) → g i b x = [].
Proof.
  rewrite concat_imap_nil. split.
  - intros H i b x Hb Hx. specialize (H i b Hb). by rewrite Hx in H.
  - intros H i b Hb. destruct (table !! i) as [[x|]|] eqn:Hx; simpl; eauto.
Qed.

Lemma verify_function_nil f signatures :
  verify_function f signatures = [] ∧ verify_affine_ownership f = [] ↔ passes_checks signatures f.
Proof.
  unfold verify_function, verify_affine_ownership. split.
  - destruct (fn_locals f) as [|local0 ls] eqn:El; [by intros []|].
    destruct (fn_blocks f) as [|b0 bs] eqn:Eb; [by intros []|]. rewrite <-Eb, <-El.
    intros [[Hret%when_nil%bool_decide_eq_false Hrest]%app_nil Hown].
    case_bool_decide as Hp; [done|]. apply app_nil in Hrest as [Ht Hblk].
    apply dec_stable in Hret. split.
    + rewrite El. by simpl; f_equal.
    + lia.
    + rewrite Eb. simpl. lia.
    + by apply verify_targets_nil.
    + by apply imap_mjoin_nil.
    + by apply imap_mjoin_nil.
  - intros [Hret Hp He Ht Hb Ho].
    destruct (fn_locals f) as [|local0 ls] eqn:El; [done|].
    destruct (fn_blocks f) as [|b0 bs] eqn:Eb; [simpl in He; lia|]. rewrite <-Eb, <-El in *.
    rewrite El in Hret. simpl in Hret. simplify_eq. split.
    + rewrite app_nil, when_nil. split; [by apply bool_decide_eq_false_2; intros []|].
      rewrite bool_decide_eq_false_2 by lia. rewrite app_nil. split.
      * by apply verify_targets_nil.
      * by apply imap_mjoin_nil.
    + by apply imap_mjoin_nil.
Qed.

Lemma verify_ok p :
  verify p = Ok tt ↔ ∀ f, f ∈ functions p → passes_checks (signatures_of (functions p)) f.
Proof.
  unfold verify, program_errors. rewrite errors_result_ok, concat_fmap_nil.
  apply forall_impl_iff; intros f Hf.
  rewrite <-verify_function_nil. apply app_nil.
Qed.

Lemma signatures_of_lookup fs id f :
  signatures_of fs !! id = Some f → f ∈ fs ∧ fn_id f = id.
Proof.
  unfold signatures_of.
  assert (∀ m : gmap DefId MirFunction, foldl (λ m f, <[fn_id f := f]> m) m fs !! id = Some f →
    m !! id = Some f ∨ (f ∈ fs ∧ fn_id f = id)) as H.
  { induction fs as [|g fs IH]; intros m; simpl; [auto|]. intros [Hm|[]]%IH.
    - apply lookup_insert_Some in Hm as [[? <-]|[? ?]]; [right|by left].
      split; [by constructor|done].
    - right. split; [by constructor|done]. }
  intros [?%lookup_empty_Some|]%H; done.
Qed.

(** ** Reads, moves and drops of an error-free block *)

Section reads.
Context (f : MirFunction) (block : BlockId) (initialized : gset LocalId).
Implicit Types D O : gset LocalId.

Lemma verify_local_use_nil l D :
  verify_local_use f block l D = [] ↔ (N.to_nat l < length (fn_locals f))%nat ∧ l ∈ D.
Proof.
  unfold verify_local_use. case_bool_decide; [|naive_solver].
  rewrite when_nil, bool_decide_eq_false. split; [intros ?%dec_stable; done|naive_solver].
Qed.

Lemma check_read_nil l consume O O' :
  check_read f block l consume O initialized = (O', []) →
  O' = (if consume then O ∖ {[l]} else O) ∧ (l ∈ initialized → l ∈ O).
Proof.
  unfold check_read. destruct (_ && _) eqn:E; intros H; simplify_eq. split; [done|].
  intros Hi. apply andb_false_iff in E as [E%bool_decide_eq_false|E%bool_decide_eq_false].
  - by apply dec_stable.
  - done.
Qed.

(** The local an operand reads. *)
Definition operand_reads (o : Operand) : option LocalId :=
  match o with OpConstant _ => None | OpCopy l | OpMove l => Some l end.

Lemma check_operand_nil o O O' :
  check_operand_ownership f block o O initialized = (O', []) →
  O' = consume_operand O o ∧ (∀ l, operand_reads o = Some l → l ∈ initialized → l ∈ O).
Proof.
  destruct o as [c|l|l]; simpl.
  - intros [= <-]. naive_solver.
  - destruct (check_read _ _ _ _ _ _) as [O1 e] eqn:E. intros [= <- [-> _]%app_nil].
    apply check_read_nil in E. naive_solver.
  - intros E%check_read_nil. naive_solver.
Qed.

Lemma check_operands_cons o os O O' :
  check_operands_ownership f block (o :: os) O initialized = (O', []) →
  check_operand_ownership f block o O initialized = (consume_operand O o, []) ∧
  check_operands_ownership f block os (consume_operand O o) initialized = (O', []).
Proof.
  simpl. destruct (check_operand_ownership _ _ _ _ _) as [O1 e1] eqn:E1.
  destruct (check_operands_ownership _ _ _ _ _) as [O2 e2] eqn:E2.
  intros [= <- [-> ->]%app_nil].
  destruct (check_operand_nil _ _ _ E1) as [-> _]. done.
Qed.

Lemma check_operands_nil os O O' :
  check_operands_ownership f block os O initialized = (O', []) →
  O' = foldl consume_operand O os.
Proof.
  revert O. induction os as [|o os IH]; intros O; [by intros [= <-]|].
  intros [_ H]%check_operands_cons. by apply IH.
Qed.

Lemma check_rvalue_nil r O O' :
  check_rvalue_ownership f block r O initialized = (O', []) → O' = consume_rvalue r O.
Proof.
  destruct r as [m p|o|op lhs rhs|ty d fields|o]; simpl.
  - by intros []%check_read_nil.
  - by intros []%check_operand_nil.
  - intros H. by apply (check_operands_nil [lhs; rhs]) in H.
  - apply check_operands_nil.
  - by intros []%check_operand_nil.
Qed.

Lemma check_statement_nil st O O' :
  check_statement_ownership f block st O initialized = (O', []) → O' = transfer_statement O st.
Proof.
  destruct st as [p r|p]; simpl; [|by intros [= <- _]].
  destruct (check_rvalue_ownership _ _ _ _ _) as [O1 e] eqn:E.
  destruct p as [l|base field]; simpl.
  - intros [= <- [-> _]%app_nil]. by apply check_rvalue_nil in E as ->.
  - intros [= <- ->]. by apply check_rvalue_nil in E as ->.
Qed.

Lemma check_statements_cons st sts O O' :
  check_statements_ownership f block (st :: sts) O initialized = (O', []) →
  check_statement_ownership f block st O initialized = (transfer_statement O st, []) ∧
  check_statements_ownership f block sts (transfer_statement O st) initialized = (O', []).
Proof.
  simpl. destruct (check_statement_ownership _ _ _ _ _) as [O1 e1] eqn:E1.
  destruct (check_statements_ownership _ _ _ _ _) as [O2 e2] eqn:E2.
  intros [= <- [-> ->]%app_nil]. pose proof (check_statement_nil _ _ _ E1) as ->. done.
Qed.

Lemma check_terminator_nil t O O' :
  check_terminator_ownership f block t O initialized = (O', []) → O' = consume_terminator t O.
Proof.
  destruct t as [|target|v targets otherwise|callee args p next]; simpl.
  - by intros []%check_read_nil.
  - by intros [= <-].
  - by intros []%check_operand_nil.
  - destruct (check_operands_ownership _ _ _ _ _) as [O1 e] eqn:E. intros [= <- ->].
    by apply check_operands_nil in E as ->.
Qed.

(** Definitions made by error-free statements. *)
Lemma verify_statement_nil st D D' :
  verify_statement f block st D = (D', []) → D' = define_statement D st.
Proof.
  destruct st as [p r|p]; simpl; [|by intros [= <- _]].
  destruct (verify_rvalue _ _ _ _) as [ty e1]. unfold place_type.
  destruct (local_type f (place_local p)) as [t|].
  - destruct p; simpl; by intros [= <- _].
  - intros [= <- [_ ?]%app_nil]. done.
Qed.

Lemma verify_statements_cons st sts D D' :
  verify_statements f block (st :: sts) D = (D', []) →
  verify_statement f block st D = (define_statement D st, []) ∧
  verify_statements f block sts (define_statement D st) = (D', []).
Proof.
  simpl. destruct (verify_statement _ _ _ _) as [D1 e1] eqn:E1.
  destruct (verify_statements _ _ _ _) as [D2 e2] eqn:E2.
  intros [= <- [-> ->]%app_nil]. pose proof (verify_statement_nil _ _ _ E1) as ->. done.
Qed.
End reads.
