(* ===== verification/Interp.v ===== *)
(** * The reference interpreter (crates/syllog-interpreter/src/lib.rs)

    [Machine] holds the counters the source threads through [&mut self]; the
    function table and the limits, which execution never changes, are section
    variables.  An operation is a function of the machine and the current
    frame's locals: it finishes with both, fails with a [RuntimeError], or
    panics (a Rust index or [expect] failure).  [call] and its block loop
    recurse on a step budget: [None] is an exhausted budget, a value that no
    Rust run produces. *)

From stdpp Require Import base gmap strings numbers list.
From S2P Require Import Prelude Ir Cfg Verify.
Open Scope string_scope.
Open Scope N_scope.

(** ** Values *)

Inductive Value :=
| VReference (v : Value)
| VUnit
| VBool (b : bool)
| VI64 (z : Z)
| VU64 (n : N)
| VString (s : string)
| VAggregate (discriminant : N) (fields : list Value).

Inductive RuntimeValue :=
| RReference (v : RuntimeValue)
| RUnit
| RBool (b : bool)
| RI64 (z : Z)
| RU64 (n : N)
| RString (s : string)
| RAggregate (fields : list RuntimeValue).

Fixpoint into_runtime (v : Value) : RuntimeValue :=
  match v with
  | VReference v => RReference (into_runtime v)
  | VUnit => RUnit
  | VBool b => RBool b
  | VI64 z => RI64 z
  | VU64 n => RU64 n
  | VString s => RString s
  | VAggregate _ fields => RAggregate (map into_runtime fields)
  end.

(** The derived [PartialEq]. *)
Fixpoint value_eqb (v w : Value) : bool :=
  match v, w with
  | VReference v, VReference w => value_eqb v w
  | VUnit, VUnit => true
  | VBool a, VBool b => Bool.eqb a b
  | VI64 a, VI64 b => Z.eqb a b
  | VU64 a, VU64 b => N.eqb a b
  | VString a, VString b => String.eqb a b
  | VAggregate d fs, VAggregate e gs =>
      N.eqb d e &&
      (fix go fs gs :=
         match fs, gs with
         | [], [] => true
         | f :: fs, g :: gs => value_eqb f g && go fs gs
         | _, _ => false
         end) fs gs
  | _, _ => false
  end.

(** ** Limits, results and errors *)

Record InterpreterLimits := {
  max_instructions : N;
  max_call_depth : N;
  max_allocated_bytes : N;
  max_output_bytes : N
}.

Definition default_limits : InterpreterLimits := {|
  max_instructions := 1000000;
  max_call_depth := 256;
  max_allocated_bytes := 64 * 1024 * 1024;
  max_output_bytes := 1024 * 1024
|}.

(** [InvalidMir] carries the verifier's errors, which the source prints. *)
Inductive RuntimeError :=
| InvalidMir (errors : list VerificationError)
| MissingEntry (entry : DefId)
| InstructionLimitExceeded (limit : N)
| CallDepthLimitExceeded (limit : N)
| AllocationLimitExceeded (limit : N)
| OutputLimitExceeded (limit : N)
| Trap (message : string).

Record ExecutionResult := {
  er_value : RuntimeValue;
  er_stdout : list Byte.byte;
  er_drops_executed : N
}.

(** How a Rust computation can end. *)
Inductive outcome (A : Type) :=
| Done (a : A)
| Failed (e : RuntimeError)
| Panicked (reason : string).
Arguments Done {A} a.
Arguments Failed {A} e.
Arguments Panicked {A} reason.

(** ** Machine state and the interpreter's effects *)

Record Machine := {
  instructions : N;
  allocated_bytes : N;
  stdout : list Byte.byte;
  drops_executed : N
}.

Abbreviation frame := (list (option Value)) (only parsing).

Definition interp (A : Type) : Type := Machine * frame → outcome (A * (Machine * frame)).

#[export] Instance interp_ret : MRet interp := λ A a st, Done (a, st).
#[export] Instance interp_bind : MBind interp := λ A B k m st,
  match m st with
  | Done (a, st) => k a st
  | Failed e => Failed e
  | Panicked r => Panicked r
  end.

Definition fail {A} (e : RuntimeError) : interp A := λ _, Failed e.
Definition trap {A} (message : string) : interp A := fail (Trap message).
Definition panic {A} (reason : string) : interp A := λ _, Panicked reason.

(** [.ok_or_else(|| trap(message))] *)
Definition ok_or_trap {A} (o : option A) (message : string) : interp A :=
  match o with Some a => mret a | None => trap message end.

Definition get_locals : interp frame := λ st, Done (st.2, st).
Definition set_local (i : nat) (v : option Value) : interp unit :=
  λ st, Done (tt, (st.1, <[i := v]> st.2)).
Definition get_machine : interp Machine := λ st, Done (st.1, st).
Definition set_machine (m : Machine) : interp unit := λ st, Done (tt, (m, st.2)).

(** [locals.get(local).and_then(Option::as_ref)] *)
Definition local_value (local : LocalId) : interp Value :=
  locals ← get_locals;
  ok_or_trap (mjoin (locals !! N.to_nat local)) "local is empty".

(** The slot [locals.get_mut(local)] points to: its current content. *)
Definition local_value_mut (local : LocalId) : interp (option Value) :=
  locals ← get_locals;
  ok_or_trap (locals !! N.to_nat local) "local index is out of range".

Section machine.
Context (functions : gmap DefId MirFunction).
Context (limits : InterpreterLimits).

Definition tick : interp unit :=
  m ← get_machine;
  let n := u64_saturating_add (instructions m) 1 in
  set_machine {| instructions := n; allocated_bytes := allocated_bytes m;
                 stdout := stdout m; drops_executed := drops_executed m |};;
  if bool_decide (max_instructions limits < n)
  then fail (InstructionLimitExceeded (max_instructions limits))
  else mret tt.

Definition charge_allocation (bytes : N) : interp unit :=
  m ← get_machine;
  let n := u64_saturating_add (allocated_bytes m) bytes in
  set_machine {| instructions := instructions m; allocated_bytes := n;
                 stdout := stdout m; drops_executed := drops_executed m |};;
  if bool_decide (max_allocated_bytes limits < n)
  then fail (AllocationLimitExceeded (max_allocated_bytes limits))
  else mret tt.

Definition count_drop : interp unit :=
  m ← get_machine;
  set_machine {| instructions := instructions m; allocated_bytes := allocated_bytes m;
                 stdout := stdout m;
                 drops_executed := u64_saturating_add (drops_executed m) 1 |}.

(** ** Operands *)

Definition constant (c : Constant) : interp Value :=
  match c with
  | CUnit => mret VUnit
  | CBool b => mret (VBool b)
  | CI64 z => mret (VI64 z)
  | CU64 n => mret (VU64 n)
  | CString s =>
      charge_allocation (N.min (N.of_nat (String.length s)) u64_max);;
      mret (VString s)
  end.

Definition operand (o : Operand) : interp Value :=
  match o with
  | OpConstant c => constant c
  | OpCopy local => local_value local
  | OpMove local =>
      slot ← local_value_mut local;
      set_local (N.to_nat local) None;;
      ok_or_trap slot "moved local is empty"
  end.

Definition integer_operand (o : Operand) : interp N :=
  v ← operand o;
  match v with
  | VBool b => mret (if b then 1 else 0)
  | VU64 n => mret n
  | VI64 z => if bool_decide (0 ≤ z)%Z then mret (Z.to_N z) else trap "negative switch value"
  | _ => trap "switch value is not an integer"
  end.

(** ** Primitive operations *)

Definition binary (operator : BinaryOp) (lhs rhs : Value) : interp Value :=
  match operator, lhs, rhs with
  | BAdd, VU64 a, VU64 b =>
      ok_or_trap (VU64 <$> u64_checked (Z.of_N a + Z.of_N b)) "U64 addition overflow"
  | BSubtract, VU64 a, VU64 b =>
      ok_or_trap (VU64 <$> u64_checked (Z.of_N a - Z.of_N b)) "U64 subtraction overflow"
  | BMultiply, VU64 a, VU64 b =>
      ok_or_trap (VU64 <$> u64_checked (Z.of_N a * Z.of_N b)) "U64 multiplication overflow"
  | BDivide, VU64 a, VU64 b =>
      ok_or_trap (VU64 <$> (if bool_decide (b = 0) then None else Some (a / b)))
        "U64 division by zero"
  | BAdd, VI64 a, VI64 b =>
      ok_or_trap (VI64 <$> i64_checked (a + b)) "I64 addition overflow"
  | BSubtract, VI64 a, VI64 b =>
      ok_or_trap (VI64 <$> i64_checked (a - b)) "I64 subtraction overflow"
  | BMultiply, VI64 a, VI64 b =>
      ok_or_trap (VI64 <$> i64_checked (a * b)) "I64 multiplication overflow"
  | BDivide, VI64 a, VI64 b =>
      ok_or_trap (VI64 <$> (if bool_decide (b = 0)%Z then None else i64_checked (Z.quot a b)))
        "I64 division failure"
  | BEqual, a, b => mret (VBool (value_eqb a b))
  | BLess, VU64 a, VU64 b => mret (VBool (N.ltb a b))
  | BLess, VI64 a, VI64 b => mret (VBool (Z.ltb a b))
  | BAnd, VBool a, VBool b => mret (VBool (a && b))
  | BOr, VBool a, VBool b => mret (VBool (a || b))
  | _, _, _ => trap "binary operand types are invalid"
  end.

(** ** Places *)

Definition read_place (place : Place) : interp Value :=
  match place with
  | PLocal local => local_value local
  | PField base field =>
      aggregate ← local_value base;
      match aggregate with
      | VAggregate _ fields =>
          ok_or_trap (fields !! N.to_nat field) "field index is out of range"
      | _ => trap "field base is not an aggregate"
      end
  end.

(** The aggregate a field projection writes into. *)
Definition field_base (base : LocalId) : interp (N * list Value) :=
  slot ← local_value_mut base;
  aggregate ← ok_or_trap slot "field base is empty";
  match aggregate with
  | VAggregate discriminant fields => mret (discriminant, fields)
  | _ => trap "field base is not an aggregate"
  end.

Definition write_field (base : LocalId) (field : N) (v : Value) : interp unit :=
  '(discriminant, fields) ← field_base base;
  if bool_decide (N.to_nat field < length fields)%nat
  then set_local (N.to_nat base)
         (Some (VAggregate discriminant (<[N.to_nat field := v]> fields)))
  else trap "field index is out of range".

Definition assign (place : Place) (v : Value) : interp unit :=
  match place with
  | PLocal local => local_value_mut local;; set_local (N.to_nat local) (Some v)
  | PField base field => write_field base field v
  end.

Definition drop_place (place : Place) : interp unit :=
  match place with
  | PLocal local =>
      slot ← local_value_mut local;
      set_local (N.to_nat local) None;;
      ok_or_trap slot "drop target is empty";;
      count_drop
  | PField base field => write_field base field VUnit;; count_drop
  end.

(** ** Statements *)

Definition rvalue (r : Rvalue) : interp Value :=
  match r with
  | RvBorrow _ place => v ← read_place place; mret (VReference v)
  | RvUse o => operand o
  | RvDiscriminant o =>
      v ← operand o;
      match v with
      | VAggregate discriminant _ => mret (VU64 discriminant)
      | _ => trap "discriminant read requires an aggregate"
      end
  | RvAggregate _ discriminant fields =>
      vs ← mapM operand fields;
      charge_allocation
        (u64_saturating_mul (N.min (N.of_nat (length vs)) u64_max) 16);;
      mret (VAggregate discriminant vs)
  | RvBinary operator lhs rhs =>
      v ← operand lhs;
      w ← operand rhs;
      binary operator v w
  end.

Definition execute_statement (st : Statement) : interp unit :=
  match st with
  | StAssign destination value => v ← rvalue value; assign destination v
  | StDrop place => drop_place place
  end.

Fixpoint execute_statements (sts : list Statement) : interp unit :=
  match sts with
  | [] => mret tt
  | st :: sts => tick;; execute_statement st;; execute_statements sts
  end.

(** ** Terminators *)

(** What the block loop does after a terminator. *)
Inductive Next :=
| NextReturn (v : Value)
| NextBlock (block : nat)
| NextCall (callee : DefId) (args : list Value) (destination : Place) (next : nat).

Definition switch_target (targets : list (N * BlockId)) (otherwise : BlockId) (value : N)
    : BlockId :=
  match list_find (λ t, t.1 = value) targets with
  | Some (_, t) => t.2
  | None => otherwise
  end.

Definition execute_terminator (t : Terminator) : interp Next :=
  match t with
  | TmReturn =>
      locals ← get_locals;
      match locals !! 0%nat with
      | None => panic "index out of bounds: locals[0]"
      | Some slot =>
          set_local 0 None;;
          v ← ok_or_trap slot "return destination is empty";
          mret (NextReturn v)
      end
  | TmGoto target => mret (NextBlock (N.to_nat target))
  | TmSwitchInt value targets otherwise =>
      v ← integer_operand value;
      mret (NextBlock (N.to_nat (switch_target targets otherwise v)))
  | TmCall callee args destination next =>
      vs ← mapM operand args;
      mret (NextCall callee vs destination (N.to_nat next))
  end.

(** One iteration of the block loop up to its terminator. *)
Definition execute_block (b : BasicBlock) : interp Next :=
  execute_statements (statements b);;
  tick;;
  match terminator b with
  | None => panic "verified MIR has a terminator"
  | Some t => execute_terminator t
  end.

(** [locals[index + 1] = Some(argument)] for each argument; [None] is a Rust
    index panic. *)
Fixpoint fill_locals (index : nat) (arguments : list Value) (locals : frame) : option frame :=
  match arguments with
  | [] => Some locals
  | a :: arguments =>
      if bool_decide (S index < length locals)%nat
      then fill_locals (S index) arguments (<[S index := Some a]> locals)
      else None
  end.

(** ** Calls *)

Fixpoint call (fuel : nat) (m : Machine) (id : DefId) (arguments : list Value) (depth : N)
    {struct fuel} : option (outcome (Value * Machine)) :=
  match fuel with
  | O => None
  | S fuel =>
      if bool_decide (max_call_depth limits < depth)
      then Some (Failed (CallDepthLimitExceeded (max_call_depth limits)))
      else
        match functions !! id with
        | None => Some (Failed (MissingEntry id))
        | Some f =>
            if bool_decide (length arguments ≠ N.to_nat (parameter_count f))
            then Some (Failed (Trap "verified call has an invalid argument count"))
            else
              match fill_locals 0 arguments (replicate (length (fn_locals f)) None) with
              | None => Some (Panicked "index out of bounds: locals[index + 1]")
              | Some locals => run_blocks fuel m f 0 depth locals
              end
        end
  end
with run_blocks (fuel : nat) (m : Machine) (f : MirFunction) (block : nat) (depth : N)
    (locals : frame) {struct fuel} : option (outcome (Value * Machine)) :=
  match fuel with
  | O => None
  | S fuel =>
      match fn_blocks f !! block with
      | None => Some (Failed (Trap "verified block target is absent"))
      | Some current =>
          match execute_block current (m, locals) with
          | Failed e => Some (Failed e)
          | Panicked r => Some (Panicked r)
          | Done (NextReturn v, (m, _)) => Some (Done (v, m))
          | Done (NextBlock block, (m, locals)) => run_blocks fuel m f block depth locals
          | Done (NextCall callee args destination next, (m, locals)) =>
              match call fuel m callee args (u32_saturating_add depth 1) with
              | None => None
              | Some (Failed e) => Some (Failed e)
              | Some (Panicked r) => Some (Panicked r)
              | Some (Done (v, m)) =>
                  match assign destination v (m, locals) with
                  | Failed e => Some (Failed e)
                  | Panicked r => Some (Panicked r)
                  | Done (_, (m, locals)) => run_blocks fuel m f next depth locals
                  end
              end
          end
      end
  end.
End machine.

Definition initial_machine : Machine :=
  {| instructions := 0; allocated_bytes := 0; stdout := []; drops_executed := 0 |}.

Definition execute (fuel : nat) (p : MirProgram) (entry : DefId) (limits : InterpreterLimits)
    : option (outcome ExecutionResult) :=
  match verify p with
  | Err errors => Some (Failed (InvalidMir errors))
  | Ok _ =>
      match call (signatures_of (functions p)) limits fuel initial_machine entry [] 1 with
      | None => None
      | Some (Failed e) => Some (Failed e)
      | Some (Panicked r) => Some (Panicked r)
      | Some (Done (v, m)) =>
          Some (Done {| er_value := into_runtime v; er_stdout := stdout m;
                        er_drops_executed := drops_executed m |})
      end
  end.

(** * Sample MIR programs

    Small programs used as concrete inputs: [sample_program] exercises calls,
    switches, aggregates, moves and drops; the others isolate one behaviour
    each. *)

Open Scope string_scope.
Open Scope N_scope.

Definition main_id : DefId := {| module := 0; index := 0 |}.
Definition choose_id : DefId := {| module := 0; index := 1 |}.
Definition option_id : DefId := {| module := 0; index := 2 |}.

(** A block with its terminator. *)
Definition block_of (sts : list Statement) (t : Terminator) : BasicBlock :=
  {| statements := sts; terminator := Some t |}.

Definition assign_local (l : LocalId) (r : Rvalue) : Statement := StAssign (PLocal l) r.

(** [choose(c) = if c { 40 } else { 1 }] *)
Definition choose_function : MirFunction := {|
  fn_id := choose_id; parameter_count := 1; return_type := TyI64;
  fn_locals := [TyI64; TyBool];
  fn_blocks :=
    [block_of [] (TmSwitchInt (OpCopy 1) [(0, 2)] 1);
     block_of [assign_local 0 (RvUse (OpConstant (CI64 40)))] (TmGoto 3);
     block_of [assign_local 0 (RvUse (OpConstant (CI64 1)))] (TmGoto 3);
     block_of [] TmReturn]
|}.

(** Builds and drops a string, reads an aggregate's discriminant, calls
    [choose] and returns [choose(true) + 2]. *)
Definition sample_main : MirFunction := {|
  fn_id := main_id; parameter_count := 0; return_type := TyI64;
  fn_locals := [TyI64; TyString; TyAggregate option_id; TyU64; TyBool];
  fn_blocks :=
    [block_of
       [assign_local 1 (RvUse (OpConstant (CString "hello")));
        StDrop (PLocal 1);
        assign_local 2 (RvAggregate option_id 1 [OpConstant (CI64 5)]);
        assign_local 3 (RvDiscriminant (OpMove 2));
        assign_local 4 (RvBinary BEqual (OpCopy 3) (OpConstant (CU64 1)))]
       (TmCall choose_id [OpCopy 4] (PLocal 0) 1);
     block_of [assign_local 0 (RvBinary BAdd (OpCopy 0) (OpConstant (CI64 2)))] TmReturn]
|}.

Definition sample_program : MirProgram :=
  {| functions := [sample_main; choose_function]; entry := Some main_id |}.

(** One function without parameters or further locals. *)
Definition single (ty : MirType) (locals : list MirType) (blocks : list BasicBlock) : MirProgram :=
  {| functions := [{| fn_id := main_id; parameter_count := 0; return_type := ty;
                      fn_locals := ty :: locals; fn_blocks := blocks |}];
     entry := Some main_id |}.

(** [loop {}] *)
Definition loop_program : MirProgram := single TyUnit [] [block_of [] (TmGoto 0)].

(** [_0 = true + false] *)
Definition bool_add_program : MirProgram :=
  single TyBool []
    [block_of [assign_local 0 (RvBinary BAdd (OpConstant (CBool true)) (OpConstant (CBool false)))]
       TmReturn].

(** [_0 = discriminant(true)] *)
Definition bool_discriminant_program : MirProgram :=
  single TyU64 []
    [block_of [assign_local 0 (RvDiscriminant (OpConstant (CBool true)))] TmReturn].

(** Writes a field of a local that holds nothing. *)
Definition empty_field_program : MirProgram :=
  single TyUnit [TyAggregate option_id]
    [block_of [StAssign (PField 1 0) (RvUse (OpConstant CUnit));
               assign_local 0 (RvUse (OpConstant CUnit))] TmReturn].

(** [_0 = 9223372036854775807 + 1] *)
Definition overflow_program : MirProgram :=
  single TyI64 []
    [block_of [assign_local 0 (RvBinary BAdd (OpConstant (CI64 9223372036854775807))
                                 (OpConstant (CI64 1)))] TmReturn].

(** Moves a string twice. *)
Definition double_move_program : MirProgram :=
  single TyString [TyString]
    [block_of [assign_local 1 (RvUse (OpConstant (CString "s")));
               assign_local 0 (RvUse (OpMove 1)); StDrop (PLocal 0);
               assign_local 0 (RvUse (OpMove 1))] TmReturn].

Definition small_limits : InterpreterLimits :=
  {| max_instructions := 50; max_call_depth := 8; max_allocated_bytes := 1000;
     max_output_bytes := 0 |}.

(** A limit that the saturating instruction counter never passes. *)
Definition unlimited : InterpreterLimits :=
  {| max_instructions := u64_max; max_call_depth := 8; max_allocated_bytes := 1000;
     max_output_bytes := 0 |}.
