(* ===== verification/InterpSafety.v ===== *)
(** * Safety of the interpreter on verified programs

    A small weakest-precondition calculus for the interpreter's monad, the
    frame invariant that ties the interpreter's locals to the ownership sets
    the verifier computes, and its preservation by operands, statements,
    terminators, blocks and calls.  The flag [strict] selects between what
    [verify] alone guarantees ([false]) and what it guarantees for programs
    that also keep to the operand types of the primitive operations ([true],
    the check [strict_function] below). *)

From stdpp Require Import base gmap list strings numbers.
From S2P Require Import Prelude Ir Cfg Dataflow Verify VerifySound Interp.
Open Scope string_scope.

(** ** Weakest preconditions *)

(** From [st], [m] does not panic, fails only with errors in [E], and ends in a
    state satisfying [Q]. *)
Definition wp {A} (E : RuntimeError → Prop) (m : interp A)
    (Q : A → Machine * frame → Prop) (st : Machine * frame) : Prop :=
  match m st with
  | Done (a, st') => Q a st'
  | Failed e => E e
  | Panicked _ => False
  end.

Section wp.
Context (E : RuntimeError → Prop).

Lemma wp_ret {A} (a : A) (Q : A → Machine * frame → Prop) st : Q a st → wp E (mret a) Q st.
Proof. done. Qed.

Lemma wp_bind {A B} (m : interp A) (k : A → interp B) Q st :
  wp E m (λ a, wp E (k a) Q) st → wp E (mbind k m) Q st.
Proof. unfold wp, mbind, interp_bind. by destruct (m st) as [[]| |]. Qed.

Lemma wp_mono {A} (m : interp A) (P Q : A → Machine * frame → Prop) st :
  wp E m P st → (∀ a st', P a st' → Q a st') → wp E m Q st.
Proof. unfold wp. destruct (m st) as [[]| |]; auto. Qed.

Lemma wp_ok_or_trap {A} (o : option A) message (Q : A → Machine * frame → Prop) st :
  (∀ a, o = Some a → Q a st) → (o = None → E (Trap message)) → wp E (ok_or_trap o message) Q st.
Proof. destruct o; unfold wp; simpl; auto. Qed.
End wp.

(** Step through a bind whose first half is a plain read or write of the state. *)
Ltac wp_step := apply wp_bind; unfold wp at 1; simpl.

(** ** Values and their types *)

Inductive has_type : Value → MirType → Prop :=
| ht_reference v m ty : has_type v ty → has_type (VReference v) (TyReference m ty)
| ht_unit : has_type VUnit TyUnit
| ht_bool b : has_type (VBool b) TyBool
| ht_i64 z : in_i64 z = true → has_type (VI64 z) TyI64
| ht_u64 n : in_u64 n = true → has_type (VU64 n) TyU64
| ht_string s : has_type (VString s) TyString
| ht_aggregate d fields ty : in_u64 d = true → has_type (VAggregate d fields) (TyAggregate ty).
#[export] Hint Constructors has_type : syllog.

(** The static type of an operand. *)
Definition operand_ty (f : MirFunction) (o : Operand) : option MirType :=
  match o with
  | OpConstant c => Some (constant_ty c)
  | OpCopy l | OpMove l => local_type f l
  end.

Lemma operand_type_ty f block o D : (operand_type f block o D).1 = operand_ty f o.
Proof. by destruct o. Qed.

(** ** Programs that keep to the operand types of the primitive operations *)

Definition strict_operand (o : Operand) : bool :=
  match o with
  | OpConstant (CI64 z) => in_i64 z
  | OpConstant (CU64 n) => in_u64 n
  | _ => true
  end.

Definition is_number (ty : option MirType) : bool :=
  match ty with Some TyI64 | Some TyU64 => true | _ => false end.

Definition strict_rvalue (f : MirFunction) (r : Rvalue) : bool :=
  match r with
  | RvBorrow _ (PLocal _) => true
  | RvBorrow _ (PField _ _) => false
  | RvUse o => strict_operand o
  | RvBinary operator lhs rhs =>
      strict_operand lhs && strict_operand rhs &&
      match operator with
      | BEqual | BAnd | BOr => true
      | _ => is_number (operand_ty f lhs)
      end
  | RvAggregate _ d fields => in_u64 d && forallb strict_operand fields
  | RvDiscriminant o => match operand_ty f o with Some (TyAggregate _) => true | _ => false end
  end.

Definition is_local (p : Place) : bool := match p with PLocal _ => true | PField _ _ => false end.

Definition strict_statement (f : MirFunction) (st : Statement) : bool :=
  match st with
  | StAssign destination value => is_local destination && strict_rvalue f value
  | StDrop place => is_local place
  end.

Definition strict_terminator (t : Terminator) : bool :=
  match t with
  | TmReturn | TmGoto _ => true
  | TmSwitchInt value _ _ => strict_operand value
  | TmCall _ args destination _ => is_local destination && forallb strict_operand args
  end.

Definition strict_block (f : MirFunction) (b : BasicBlock) : bool :=
  forallb (strict_statement f) (statements b) &&
  match terminator b with Some t => strict_terminator t | None => true end.

Definition strict_function (f : MirFunction) : bool := forallb (strict_block f) (fn_blocks f).

(** ** The errors a verified program can end with *)

Definition arithmetic_traps : list string :=
  ["U64 addition overflow"; "U64 subtraction overflow"; "U64 multiplication overflow";
   "U64 division by zero"; "I64 addition overflow"; "I64 subtraction overflow";
   "I64 multiplication overflow"; "I64 division failure"; "negative switch value"].

(** Traps whose cause [verify] does not check. *)
Definition unchecked_traps : list string :=
  ["binary operand types are invalid"; "discriminant read requires an aggregate";
   "switch value is not an integer"; "field base is empty";
   "field base is not an aggregate"; "field index is out of range"].

Definition allowed (strict : bool) (e : RuntimeError) : Prop :=
  match e with
  | InstructionLimitExceeded _ | CallDepthLimitExceeded _ | AllocationLimitExceeded _ => True
  | Trap message => message ∈ arithmetic_traps ∨ (strict = false ∧ message ∈ unchecked_traps)
  | InvalidMir _ | MissingEntry _ | OutputLimitExceeded _ => False
  end.

Lemma allowed_arithmetic strict message :
  bool_decide (message ∈ arithmetic_traps) = true → allowed strict (Trap message).
Proof. intros H%bool_decide_eq_true. by left. Qed.

Lemma allowed_unchecked strict message :
  strict = false → bool_decide (message ∈ unchecked_traps) = true → allowed strict (Trap message).
Proof. intros ? H%bool_decide_eq_true. by right. Qed.

(** ** The frame invariant *)

Record frame_ok (strict : bool) (f : MirFunction) (O : gset LocalId) (locals : frame) : Prop := {
  frame_length : length locals = length (fn_locals f);
  frame_owned l : l ∈ O → ∃ v, locals !! N.to_nat l = Some (Some v);
  frame_typed i v ty : strict = true → locals !! i = Some (Some v) →
    fn_locals f !! i = Some ty → has_type v ty
}.

Section frame.
Context (strict : bool) (f : MirFunction).

Lemma frame_ok_mono O O' locals :
  O' ⊆ O → frame_ok strict f O locals → frame_ok strict f O' locals.
Proof. intros HO [Hl Ho Ht]. split; [done|set_solver|done]. Qed.

(** Emptying a slot disowns its local. *)
Lemma frame_ok_take O locals l :
  frame_ok strict f O locals → frame_ok strict f (O ∖ {[l]}) (<[N.to_nat l := None]> locals).
Proof.
  intros [Hl Ho Ht]. split.
  - by rewrite length_insert.
  - intros k [Hk Hkl]%elem_of_difference. rewrite elem_of_singleton in Hkl.
    rewrite list_lookup_insert_ne by lia. by apply Ho.
  - intros i v ty Hs Hi Hty. apply list_lookup_insert_Some in Hi as [(?&?&?)|[? Hi]]; [done|eauto].
Qed.

(** Filling a slot of the frame with a value of its type owns its local. *)
Lemma frame_ok_put O locals l v :
  (N.to_nat l < length (fn_locals f))%nat →
  (strict = true → ∀ ty, local_type f l = Some ty → has_type v ty) →
  frame_ok strict f O locals → frame_ok strict f ({[l]} ∪ O) (<[N.to_nat l := Some v]> locals).
Proof.
  intros Hlt Hv [Hl Ho Ht]. split.
  - by rewrite length_insert.
  - intros k Hk. destruct (decide (k = l)) as [->|Hkl].
    + rewrite list_lookup_insert_eq by lia. eauto.
    + rewrite list_lookup_insert_ne by lia. apply Ho. set_solver.
  - intros i w ty Hs Hi Hty. apply list_lookup_insert_Some in Hi as [(<-&[= <-]&?)|[? Hi]]; eauto.
Qed.

Lemma frame_ok_get O locals l :
  frame_ok strict f O locals → l ∈ O →
  ∃ v, locals !! N.to_nat l = Some (Some v) ∧
       (strict = true → ∀ ty, local_type f l = Some ty → has_type v ty).
Proof. intros [Hl Ho Ht] HlO. destruct (Ho l HlO) as [v Hv]. exists v. eauto. Qed.

Lemma frame_ok_slot O locals l :
  frame_ok strict f O locals → (N.to_nat l < length (fn_locals f))%nat →
  ∃ slot, locals !! N.to_nat l = Some slot.
Proof. intros [Hl _ _] ?. apply lookup_lt_is_Some. by rewrite Hl. Qed.
End frame.

(** ** Operands *)

Section operands.
Context (limits : InterpreterLimits) (strict : bool) (f : MirFunction).
Context (block : BlockId) (initialized : gset LocalId).
Implicit Types D O : gset LocalId.

Abbreviation safe := (wp (allowed strict)).
Abbreviation ok := (frame_ok strict f).

(** In strict mode the value of an operand has the operand's static type. *)
Definition operand_value_ok (o : Operand) (v : Value) : Prop :=
  strict = true → ∀ ty, operand_ty f o = Some ty → has_type v ty.

(** What error-free verification says of an operand read with [D] defined and [O] owned. *)
Definition operand_checked D O (o : Operand) : Prop :=
  (operand_type f block o D).2 = [] ∧
  check_operand_ownership f block o O initialized = (consume_operand O o, []) ∧
  (strict = true → strict_operand o = true).

Lemma operand_checked_owned D O o l :
  D ⊆ initialized → operand_checked D O o → operand_reads o = Some l → l ∈ O.
Proof.
  intros HD (Hu&Hc&_) Hr. apply check_operand_nil in Hc as [_ Hc]. apply Hc; [done|]. apply HD.
  destruct o; simplify_eq/=; by apply verify_local_use_nil in Hu as [_ ?].
Qed.

Lemma tick_safe (Q : unit → Machine * frame → Prop) st :
  (∀ m, Q tt (m, st.2)) → safe (tick limits) Q st.
Proof. intros HQ. unfold tick. do 2 wp_step. case_bool_decide; [done|apply HQ]. Qed.

Lemma charge_safe n (Q : unit → Machine * frame → Prop) st :
  (∀ m, Q tt (m, st.2)) → safe (charge_allocation limits n) Q st.
Proof. intros HQ. unfold charge_allocation. do 2 wp_step. case_bool_decide; [done|apply HQ]. Qed.

Lemma constant_safe c O st :
  (strict = true → strict_operand (OpConstant c) = true) → ok O st.2 →
  safe (constant limits c)
    (λ v st', ok O st'.2 ∧ operand_value_ok (OpConstant c) v) st.
Proof.
  intros Hs Hok. destruct c; simpl in *;
    try (split; [done|]; intros S ty [= <-]; specialize (Hs S); auto with syllog).
  apply wp_bind, charge_safe. intros m. split; [done|]. intros S ty [= <-]. auto with syllog.
Qed.

Lemma local_value_safe l O st (Q : Value → Machine * frame → Prop) :
  ok O st.2 → l ∈ O →
  (∀ v, (strict = true → ∀ ty, local_type f l = Some ty → has_type v ty) → Q v st) →
  safe (local_value l) Q st.
Proof.
  intros Hok Hl HQ. destruct (frame_ok_get _ _ _ _ _ Hok Hl) as (v&Hv&Ht).
  unfold local_value. wp_step. rewrite Hv. by apply HQ.
Qed.

Lemma operand_safe D O o st :
  D ⊆ initialized → operand_checked D O o → ok O st.2 →
  safe (operand limits o) (λ v st', ok (consume_operand O o) st'.2 ∧ operand_value_ok o v) st.
Proof.
  intros HD Hc Hok. destruct o as [c|l|l]; simpl.
  - apply constant_safe; [apply Hc|done].
  - pose proof (operand_checked_owned _ _ _ l HD Hc eq_refl) as Hl.
    by eapply local_value_safe.
  - pose proof (operand_checked_owned _ _ _ l HD Hc eq_refl) as Hl.
    destruct (frame_ok_get _ _ _ _ _ Hok Hl) as (v&Hv&Ht).
    unfold local_value_mut. do 2 wp_step. rewrite Hv. wp_step.
    split; [by apply frame_ok_take|done].
Qed.

(** A list of operands, checked left to right. *)
Definition operands_checked D O (os : list Operand) : Prop :=
  Forall (λ o, (operand_type f block o D).2 = []) os ∧
  check_operands_ownership f block os O initialized = (foldl consume_operand O os, []) ∧
  (strict = true → forallb strict_operand os = true).

Lemma operands_checked_cons D O o os :
  operands_checked D O (o :: os) →
  operand_checked D O o ∧ operands_checked D (consume_operand O o) os.
Proof.
  intros ([? ?]%list.Forall_cons&[? ?]%check_operands_cons&Hs).
  split; (split; [done|]; split; [done|]); intros S; specialize (Hs S); simpl in Hs;
    by apply andb_true_iff in Hs as [? ?].
Qed.

Lemma operands_safe D O os st :
  D ⊆ initialized → operands_checked D O os → ok O st.2 →
  safe (mapM (operand limits) os)
    (λ vs st', ok (foldl consume_operand O os) st'.2 ∧ Forall2 operand_value_ok os vs) st.
Proof.
  intros HD. revert O st. induction os as [|o os IH]; intros O st Hc Hok; simpl.
  { by split. }
  apply operands_checked_cons in Hc as [Ho Hos]. apply wp_bind.
  eapply wp_mono; [by eapply operand_safe|]. intros v st' [Hok' Hv]. apply wp_bind.
  eapply wp_mono; [by eapply IH|]. intros vs st'' [Hok'' Hvs]. split; [done|by constructor].
Qed.

Lemma operand_type_known o D :
  (operand_type f block o D).2 = [] →
  ∃ ty, operand_ty f o = Some ty ∧ operand_type f block o D = (Some ty, []).
Proof.
  destruct o as [c|l|l]; simpl; [by eauto|..]; intros Hu;
    pose proof Hu as [[ty Hty]%lookup_lt_is_Some _]%verify_local_use_nil;
    exists ty; unfold local_type; by rewrite Hu, Hty.
Qed.

Lemma integer_operand_safe D O o st :
  D ⊆ initialized → operand_checked D O o →
  (∀ ty, operand_ty f o = Some ty → is_switch_type ty = true) → ok O st.2 →
  safe (integer_operand limits o) (λ _ st', ok (consume_operand O o) st'.2) st.
Proof.
  intros HD Hc Hty Hok. unfold integer_operand. apply wp_bind.
  eapply wp_mono; [by eapply operand_safe|]. intros v st' [Hok' Hv].
  assert (strict = false ∨ ∃ ty, has_type v ty ∧ is_switch_type ty = true) as [S|(ty&Ht&Hsw)].
  { destruct strict eqn:S; [right|by left].
    destruct Hc as (Hu&_&_). apply operand_type_known in Hu as (ty&Ho&_).
    exists ty. split; [by apply Hv|by apply Hty]. }
  - destruct v; try done; try (apply allowed_unchecked; by vm_compute).
    case_bool_decide; [done|]. by apply allowed_arithmetic; vm_compute.
  - destruct Ht; try done. case_bool_decide; [done|]. by apply allowed_arithmetic; vm_compute.
Qed.

(** ** Primitive operations *)

Definition binary_result (operator : BinaryOp) (ty : MirType) : MirType :=
  match operator with
  | BAdd | BSubtract | BMultiply | BDivide => ty
  | BEqual | BLess | BAnd | BOr => TyBool
  end.

Lemma binary_type_result operator left right :
  (binary_type f block operator left right).1 = binary_result operator left.
Proof. by destruct operator. Qed.

(** The operand type an operator wants. *)
Definition operator_accepts (operator : BinaryOp) (ty : MirType) : bool :=
  match operator with
  | BEqual => true
  | BAnd | BOr => bool_decide (ty = TyBool)
  | _ => is_number (Some ty)
  end.

Lemma u64_checked_type z n : u64_checked z = Some n → has_type (VU64 n) TyU64.
Proof.
  unfold u64_checked. case_bool_decide as H; [|done]. intros [= <-]. constructor.
  unfold in_u64. apply bool_decide_eq_true. lia.
Qed.

Lemma i64_checked_type z z' : i64_checked z = Some z' → has_type (VI64 z') TyI64.
Proof. unfold i64_checked. destruct (in_i64 z) eqn:E; [|done]. intros [= <-]. by constructor. Qed.

Lemma u64_divide_type a b : in_u64 a = true → has_type (VU64 (a / b)) TyU64.
Proof.
  unfold in_u64. rewrite bool_decide_eq_true. intros Ha. constructor. apply bool_decide_eq_true.
  destruct (decide (b = 0)%N) as [->|Hb]; [by rewrite N.div_0_r; vm_compute|].
  pose proof (N.Div0.div_le_upper_bound a b a). nia.
Qed.

(** A checked operation either stays in range or is an arithmetic trap. *)
Lemma checked_safe (o : option Value) message ty st :
  bool_decide (message ∈ arithmetic_traps) = true → (∀ v, o = Some v → has_type v ty) →
  safe (ok_or_trap o message) (λ r st', st' = st ∧ has_type r ty) st.
Proof.
  intros Hm Ho. apply wp_ok_or_trap; [auto|]. intros _. by apply allowed_arithmetic.
Qed.

Lemma binary_typed operator v w ty st :
  has_type v ty → has_type w ty → operator_accepts operator ty = true →
  safe (binary operator v w) (λ r st', st' = st ∧ has_type r (binary_result operator ty)) st.
Proof.
  intros Hv Hw Hop. destruct operator; simpl in Hop;
    try (apply bool_decide_eq_true in Hop; subst);
    inversion Hv; subst; try discriminate Hop; inversion Hw; subst; simpl;
    try (split; [done|by constructor]);
    (apply checked_safe; [by vm_compute|]); intros r (x&Hx&->)%fmap_Some;
    try (by eapply u64_checked_type); try (by eapply i64_checked_type);
    case_bool_decide; simplify_eq; eauto using u64_divide_type, i64_checked_type.
Qed.

(** Without the operand types, the only other end is the operand-type trap. *)
Lemma binary_untyped operator v w st :
  strict = false → safe (binary operator v w) (λ _ st', st' = st) st.
Proof.
  intros S. assert (allowed strict (Trap "binary operand types are invalid")) as HT.
  { apply allowed_unchecked; [done|by vm_compute]. }
  destruct operator, v; try exact HT; destruct w; try exact HT; try done; simpl;
    apply wp_ok_or_trap; try done; intros _; apply allowed_arithmetic; by vm_compute.
Qed.

(** ** Right-hand sides *)

(** What error-free verification says of a right-hand side. *)
Definition rvalue_checked D O (r : Rvalue) : Prop :=
  (verify_rvalue f block r D).2 = [] ∧
  check_rvalue_ownership f block r O initialized = (consume_rvalue r O, []) ∧
  (strict = true → strict_rvalue f r = true).

(** The checks of a binary operation, read off the verifier. *)
Lemma binary_checked D O operator lhs rhs :
  rvalue_checked D O (RvBinary operator lhs rhs) →
  operands_checked D O [lhs; rhs] ∧
  (∀ ty, operand_ty f lhs = Some ty →
    (verify_rvalue f block (RvBinary operator lhs rhs) D).1 = Some (binary_result operator ty) ∧
    operand_ty f rhs = Some ty ∧
    (strict = true → operator_accepts operator ty = true)).
Proof.
  intros (Hv&Hc&Hs). simpl in Hv, Hc |- *.
  assert ((operand_type f block lhs D).2 = []) as H1.
  { destruct (operand_type f block lhs D) as [[] e1]; [|done].
    destruct (operand_type f block rhs D) as [[] e2]; [|by apply app_nil in Hv as [-> _]].
    destruct (binary_type _ _ _ _ _). by apply app_nil in Hv as [-> _]. }
  apply operand_type_known in H1 as (lt&T1&E1). rewrite E1 in Hv |- *.
  assert ((operand_type f block rhs D).2 = []) as H2.
  { destruct (operand_type f block rhs D) as [[] e2]; [|done].
    destruct (binary_type _ _ _ _ _). simpl in Hv. by apply app_nil in Hv as [-> _]. }
  apply operand_type_known in H2 as (rt&T2&E2). rewrite E2 in Hv |- *. rewrite T1, T2.
  pose proof (binary_type_result operator lt rt) as Hr.
  destruct (binary_type f block operator lt rt) as [t e3] eqn:E3. simpl in *. subst t.
  subst e3. split.
  - split; [|split; [done|]].
    + repeat constructor; [by rewrite E1|by rewrite E2].
    + intros S. specialize (Hs S). apply andb_true_iff in Hs as [Hs _]. simpl.
      by rewrite andb_true_r.
  - intros ty [= <-].
    assert (lt = rt ∧ (match operator with BAnd | BOr => lt = TyBool | _ => True end)) as [<- Hb].
    { destruct operator; simpl in E3; injection E3 as E3;
        try (apply app_nil in E3 as [E3 E4%when_nil%bool_decide_eq_false]; apply dec_stable in E4);
        apply when_nil, bool_decide_eq_false, dec_stable in E3; done. }
    split; [done|]. split; [done|]. intros S. specialize (Hs S).
    apply andb_true_iff in Hs as [_ Hs]. rewrite T1 in Hs. destruct operator; try done; subst;
      by apply bool_decide_eq_true.
Qed.

Lemma read_place_safe p O st :
  place_local p ∈ O → (strict = true → is_local p = true) → ok O st.2 →
  safe (read_place p)
    (λ v st', st' = st ∧
       (strict = true → ∀ ty, local_type f (place_local p) = Some ty → has_type v ty)) st.
Proof.
  intros Hl Hs Hok. destruct p as [l|base field]; simpl in *.
  - by eapply local_value_safe.
  - assert (strict = false) as S by (destruct strict; naive_solver).
    apply wp_bind. eapply local_value_safe; [done..|]. intros v _.
    destruct v; try (apply allowed_unchecked; [done|by vm_compute]).
    apply wp_ok_or_trap; [naive_solver|]. intros _. apply allowed_unchecked; [done|by vm_compute].
Qed.

Lemma borrow_checked D O m p :
  D ⊆ initialized → rvalue_checked D O (RvBorrow m p) →
  place_local p ∈ O ∧ (strict = true → is_local p = true) ∧
  (∀ ty, (verify_rvalue f block (RvBorrow m p) D).1 = Some ty →
     ∃ inner, ty = TyReference m inner ∧ local_type f (place_local p) = Some inner).
Proof.
  intros HD (Hv&Hc&Hs). simpl in *. unfold place_type in *. split; [|split].
  - apply check_read_nil in Hc as [_ Hc]. apply Hc, HD.
    destruct (local_type f (place_local p)), p; simpl in Hv; apply app_nil in Hv as [Hv _];
      by apply verify_local_use_nil in Hv as [_ ?].
  - intros S. specialize (Hs S). by destruct p.
  - intros ty Hty. destruct (local_type f (place_local p)), p; simplify_eq/=; eauto.
Qed.

Lemma rvalue_safe D O r st :
  D ⊆ initialized → rvalue_checked D O r → ok O st.2 →
  safe (rvalue limits r)
    (λ v st', ok (consume_rvalue r O) st'.2 ∧
       (strict = true → ∀ ty, (verify_rvalue f block r D).1 = Some ty → has_type v ty)) st.
Proof.
  intros HD Hc Hok. destruct r as [m p|o|operator lhs rhs|ty d fields|o].
  - destruct (borrow_checked _ _ _ _ HD Hc) as (Hl&Hp&Hty). apply wp_bind.
    eapply wp_mono; [by eapply read_place_safe|]. intros v st' [-> Hv]. split; [done|].
    intros S ty (inner&->&Hi)%Hty. constructor. by apply Hv.
  - destruct Hc as (?&?&?). eapply wp_mono; [by eapply operand_safe|].
    intros v st' [? Hv]. split; [done|]. intros S ty. simpl. rewrite operand_type_ty. by apply Hv.
  - destruct (binary_checked _ _ _ _ _ Hc) as [Hos Hty].
    pose proof (operands_checked_cons _ _ _ _ Hos) as [Hl [Hr _]%operands_checked_cons].
    destruct (operand_type_known lhs D) as (lt&Tl&_); [apply Hl|].
    destruct (Hty _ Tl) as (Hres&Tr&Hacc).
    simpl. apply wp_bind. eapply wp_mono; [by eapply operand_safe|]. intros v st1 [Hok1 Hv].
    apply wp_bind. eapply wp_mono; [by eapply operand_safe|]. intros w st2 [Hok2 Hw].
    destruct (decide (strict = true)) as [S|S%not_true_is_false].
    + eapply wp_mono; [apply binary_typed; [by apply Hv|by apply Hw|by apply Hacc]|].
      intros r st3 [-> Ht]. split; [done|]. intros _ ty Hres'. simpl in *. congruence.
    + eapply wp_mono; [by apply binary_untyped|]. intros r st3 ->. split; [done|congruence].
  - destruct Hc as (Hv&Hc&Hs). simpl in *. apply wp_bind. eapply wp_mono.
    + eapply operands_safe; [done| |done]. split; [|split; [done|]].
      * apply list.Forall_forall. intros o Ho.
        by apply (concat_fmap_nil (λ field, (operand_type f block field D).2) fields).
      * intros S. by apply andb_true_iff in Hs as [_ ?].
    + intros vs st1 [Hok1 _]. apply wp_bind, charge_safe. intros m. split; [done|].
      intros S ty' [= <-]. constructor. by apply andb_true_iff in Hs as [? _].
  - destruct Hc as (Hv&Hc&Hs). simpl in *. apply wp_bind. eapply wp_mono.
    + eapply operand_safe; [done|split; [done|split; [done|]]|done].
      intros S. specialize (Hs S). destruct o as [[]| |]; simpl in *; try done.
    + intros v st1 [Hok1 Ht].
      assert (strict = false ∨ ∃ ty, has_type v (TyAggregate ty)) as [S|[ty Hty]].
      { destruct (decide (strict = true)) as [S|S%not_true_is_false]; [right|by left].
        specialize (Hs S). specialize (Ht S). destruct (operand_ty f o) as [[]|]; naive_solver. }
      * destruct v; try (apply allowed_unchecked; [done|by vm_compute]). split; [done|]. congruence.
      * inversion Hty; subst. split; [done|]. intros _ ? [= <-]. by constructor.
Qed.

(** ** Writes and statements *)

Lemma slot_safe l slot (Q : option Value → Machine * frame → Prop) st :
  st.2 !! N.to_nat l = Some slot → Q slot st → safe (local_value_mut l) Q st.
Proof. intros Hl HQ. unfold local_value_mut. wp_step. by rewrite Hl. Qed.

Lemma write_field_safe base field v O st :
  strict = false → (N.to_nat base < length (fn_locals f))%nat → ok O st.2 →
  safe (write_field base field v) (λ _ st', ok O st'.2) st.
Proof.
  intros S Hb Hok. destruct (frame_ok_slot _ _ _ _ _ Hok Hb) as [slot Hslot].
  unfold write_field, field_base. do 2 apply wp_bind. eapply slot_safe; [done|].
  destruct slot as [[]|]; try (apply allowed_unchecked; [done|by vm_compute]).
  unfold wp at 1. simpl. case_bool_decide; [|apply allowed_unchecked; [done|by vm_compute]]. simpl.
  eapply frame_ok_mono; [|apply frame_ok_put; [done|congruence|exact Hok]]. set_solver.
Qed.

Lemma assign_safe p v O st :
  (place_type f block p).2 = [] → (strict = true → is_local p = true) →
  (strict = true → ∀ ty, (place_type f block p).1 = Some ty → has_type v ty) → ok O st.2 →
  safe (assign p v) (λ _ st', ok (own_place p O) st'.2) st.
Proof.
  unfold place_type. destruct (local_type f (place_local p)) as [t|] eqn:Ht; [|done].
  intros _ Hp Hv Hok. pose proof (lookup_lt_Some _ _ _ Ht) as Hlt. destruct p as [l|base field].
  - destruct (frame_ok_slot _ _ _ _ _ Hok Hlt) as [slot Hslot].
    simpl. apply wp_bind. eapply slot_safe; [done|].
    apply frame_ok_put; [done| |done]. intros S ty. simpl in *. rewrite Ht. intros [= <-]. by apply Hv.
  - apply write_field_safe; [|done..]. apply not_true_is_false. intros S. by specialize (Hp S).
Qed.

Lemma drop_place_safe p O st :
  place_local p ∈ O → (strict = true → is_local p = true) → ok O st.2 →
  safe (drop_place p) (λ _ st', ok (O ∖ {[place_local p]}) st'.2) st.
Proof.
  intros Hl Hp Hok. destruct (frame_ok_get _ _ _ _ _ Hok Hl) as (v&Hv&_).
  destruct p as [l|base field]; simpl in *.
  - apply wp_bind. eapply slot_safe; [done|]. do 2 wp_step. by apply frame_ok_take.
  - apply wp_bind. eapply wp_mono.
    + eapply write_field_safe; [|by rewrite <-(frame_length _ _ _ _ Hok); eapply lookup_lt_Some|done].
      apply not_true_is_false. intros S. by specialize (Hp S).
    + intros ? st' Hok'. simpl. eapply frame_ok_mono; [|exact Hok']. set_solver.
Qed.

Definition statement_checked D O (s : Statement) : Prop :=
  verify_statement f block s D = (define_statement D s, []) ∧
  check_statement_ownership f block s O initialized = (transfer_statement O s, []) ∧
  (strict = true → strict_statement f s = true).

(** The checks of an assignment: its value, its destination, and that they agree. *)
Lemma assign_checked D O p r :
  statement_checked D O (StAssign p r) →
  rvalue_checked D O r ∧ (place_type f block p).2 = [] ∧ (strict = true → is_local p = true) ∧
  (∀ ty t, (verify_rvalue f block r D).1 = Some ty → (place_type f block p).1 = Some t → ty = t).
Proof.
  intros (Hv&Hc&Hs). simpl in Hv, Hc.
  destruct (check_rvalue_ownership f block r O initialized) as [O1 e] eqn:E.
  assert (e = []) as ->.
  { apply (f_equal snd) in Hc. destruct p; simpl in Hc; [by apply app_nil in Hc as [? _]|done]. }
  destruct (verify_rvalue f block r D) as [ty e1] eqn:E1.
  destruct (place_type f block p) as [t e2] eqn:E2.
  assert (e1 = [] ∧ e2 = []) as [-> ->].
  { apply (f_equal snd) in Hv. destruct t; simpl in Hv; split_hyps; done. }
  split; [|split; [done|split]].
  - split; [by rewrite E1|]. rewrite E. pose proof (check_rvalue_nil _ _ _ _ _ _ E) as ->.
    split; [done|]. intros S. specialize (Hs S). by apply andb_true_iff in Hs as [_ ?].
  - intros S. specialize (Hs S). by apply andb_true_iff in Hs as [? _].
  - simpl. intros ty' t' -> ->. apply (f_equal snd) in Hv. simpl in Hv.
    apply when_nil, bool_decide_eq_false, dec_stable in Hv. done.
Qed.

Lemma rvalue_type_known D O r :
  strict = true → rvalue_checked D O r → is_Some (verify_rvalue f block r D).1.
Proof.
  intros S Hr. destruct r as [m p|o|operator lhs rhs|? ? ?|o]; simpl; [..|done].
  - destruct Hr as (He&_&Hr). specialize (Hr S). destruct p; [|done]. simpl in He.
    unfold place_type in *. simpl in *. destruct (local_type f l); [done|].
    by apply app_nil in He as [_ ?].
  - destruct Hr as (He&_&_). by apply operand_type_known in He as (?&_&->).
  - apply binary_checked in Hr as [[Hl _]%operands_checked_cons Hty].
    destruct (operand_type_known lhs D) as (lt&Tl&_); [apply Hl|].
    apply Hty in Tl as (Hres&_&_). simpl in *. by rewrite Hres.
  - done.
Qed.

Lemma statement_safe D O s st :
  D ⊆ initialized → statement_checked D O s → ok O st.2 →
  safe (execute_statement limits s) (λ _ st', ok (transfer_statement O s) st'.2) st.
Proof.
  intros HD Hc Hok. destruct s as [p r|p]; simpl.
  - apply assign_checked in Hc as (Hr&Hp&Hl&Hty). apply wp_bind.
    eapply wp_mono; [by eapply rvalue_safe|]. intros v st' [Hok' Hv].
    apply assign_safe; [done..| |done]. intros S t Ht.
    destruct (rvalue_type_known D O r S Hr) as [ty E]. rewrite <-(Hty ty t); auto.
  - destruct Hc as (Hv&Hc&Hs). simpl in *. injection Hv as [_ HlD]%verify_local_use_nil.
    injection Hc as Hc%when_nil. apply drop_place_safe; [|done..].
    apply andb_false_iff in Hc as [Hc%bool_decide_eq_false|Hc%bool_decide_eq_false];
      [by apply dec_stable in Hc|]. by apply HD in HlD.
Qed.

Lemma statements_safe sts D O D' O' st :
  foldl define_statement D sts ⊆ initialized →
  verify_statements f block sts D = (D', []) →
  check_statements_ownership f block sts O initialized = (O', []) →
  (strict = true → forallb (strict_statement f) sts = true) → ok O st.2 →
  safe (execute_statements limits sts)
    (λ _ st', D' = foldl define_statement D sts ∧ O' = foldl transfer_statement O sts ∧
              ok O' st'.2) st.
Proof.
  revert D O st. induction sts as [|s sts IH]; intros D O st HD Hv Hc Hs Hok.
  { simpl in *. by simplify_eq. }
  apply verify_statements_cons in Hv as [Hv Hvs]. apply check_statements_cons in Hc as [Hc Hcs].
  simpl in HD |- *. apply wp_bind, tick_safe. intros m. apply wp_bind. eapply wp_mono.
  - eapply (statement_safe D); [|split; [done|split; [done|]]|done].
    + etrans; [|exact HD]. etrans; [apply (define_statement_grows s)|apply define_statements_grow].
    + intros S. specialize (Hs S). by apply andb_true_iff in Hs as [? _].
  - intros ? st' Hok'. apply IH; [done..| |done].
    intros S. specialize (Hs S). by apply andb_true_iff in Hs as [_ ?].
Qed.

(** ** Terminators and blocks *)

(** What a terminator leaves: a typed return value, a successor block, or a
    call whose arguments match the operands of the source. *)
Definition terminator_post (t : Terminator) O (next : Next) (locals : frame) : Prop :=
  match next with
  | NextReturn v => strict = true → has_type v (return_type f)
  | NextBlock j => (∃ s, s ∈ successors t ∧ N.to_nat s = j) ∧ ok (consume_terminator t O) locals
  | NextCall callee args p j =>
      ∃ os s, t = TmCall callee os p s ∧ N.to_nat s = j ∧
              Forall2 operand_value_ok os args ∧ ok (foldl consume_operand O os) locals
  end.

Lemma switch_target_successor v targets otherwise x :
  switch_target targets otherwise x ∈ successors (TmSwitchInt v targets otherwise).
Proof.
  unfold switch_target. simpl. apply elem_of_app.
  destruct (list_find _ _) as [[i t]|] eqn:E; [left|right; by apply list_elem_of_singleton].
  apply list_find_Some in E as (E&_&_). apply list_elem_of_fmap. exists t. split; [done|].
  by eapply list_elem_of_lookup_2.
Qed.

(** The checks of a call, read off the verifier. *)
Lemma call_checked signatures D O callee args p next g :
  signatures !! callee = Some g →
  verify_terminator f block (TmCall callee args p next) signatures D = [] →
  (check_terminator_ownership f block (TmCall callee args p next) O initialized).2 = [] →
  (strict = true → strict_terminator (TmCall callee args p next) = true) →
  operands_checked D O args ∧ length args = N.to_nat (parameter_count g) ∧
  (∀ i o ty, args !! i = Some o → operand_ty f o = Some ty → fn_locals g !! S i = Some ty ∨
     fn_locals g !! S i = None) ∧
  (place_type f block p).2 = [] ∧ (strict = true → is_local p = true) ∧
  (∀ ty, (place_type f block p).1 = Some ty → ty = return_type g).
Proof.
  intros Hg Hv Hc Hs. simpl in Hv. rewrite Hg in Hv.
  apply app_nil in Hv as [Hn [Ha Hp]%app_nil].
  apply when_nil, bool_decide_eq_false, dec_stable in Hn. rewrite concat_imap_nil in Ha.
  simpl in Hc. destruct (check_operands_ownership f block args O initialized) as [O1 e] eqn:E.
  simpl in Hc. subst e.
  assert (∀ i o, args !! i = Some o → (operand_type f block o D).2 = []) as Hu.
  { intros i o Ho. specialize (Ha i o Ho). unfold verify_argument in Ha.
    destruct (operand_type f block o D). by apply app_nil in Ha as [? _]. }
  split; [|split; [done|split; [|split; [|split]]]].
  - split; [|split].
    + by apply Forall_lookup.
    + by rewrite E, (check_operands_nil _ _ _ _ _ _ E).
    + intros S. specialize (Hs S). by apply andb_true_iff in Hs as [_ ?].
  - intros i o ty Ho Hty. specialize (Ha i o Ho). unfold verify_argument in Ha.
    destruct (operand_type_known o D) as (ty'&Hty'&Eo); [by eapply Hu|].
    rewrite Eo in Ha. simpl in Ha. destruct (fn_locals g !! S i) as [t|]; [|by right].
    apply when_nil, bool_decide_eq_false, dec_stable in Ha. left. congruence.
  - destruct (place_type f block p). by apply app_nil in Hp as [? _].
  - intros S. specialize (Hs S). by apply andb_true_iff in Hs as [? _].
  - intros ty Hty. destruct (place_type f block p) as [t e]. simpl in Hty. subst t.
    apply app_nil in Hp as [_ Hp]. by apply when_nil, bool_decide_eq_false, dec_stable in Hp.
Qed.

Lemma return_safe D O st :
  fn_locals f !! 0%nat = Some (return_type f) → D ⊆ initialized →
  verify_local_use f block 0 D = [] → (check_read f block 0 false O initialized).2 = [] →
  ok O st.2 →
  safe (execute_terminator limits TmReturn) (λ next st', terminator_post TmReturn O next st'.2) st.
Proof.
  intros Hret HD [_ H0D]%verify_local_use_nil Hc Hok.
  destruct (check_read f block 0 false O initialized) as [O1 e] eqn:E. simpl in Hc. subst e.
  apply check_read_nil in E as [_ H0]. specialize (H0 (HD _ H0D)).
  destruct (frame_ok_get _ _ _ _ _ Hok H0) as (v&Hv&Ht). simpl in Hv |- *.
  wp_step. change (N.to_nat 0) with 0%nat in Hv. rewrite Hv. do 2 wp_step. intros S. by apply Ht.
Qed.

Lemma terminator_safe signatures D O t st :
  fn_locals f !! 0%nat = Some (return_type f) → D ⊆ initialized →
  (∀ callee args p next, t = TmCall callee args p next → is_Some (signatures !! callee)) →
  verify_terminator f block t signatures D = [] →
  (check_terminator_ownership f block t O initialized).2 = [] →
  (strict = true → strict_terminator t = true) → ok O st.2 →
  safe (execute_terminator limits t) (λ next st', terminator_post t O next st'.2) st.
Proof.
  intros Hret HD Hcallee Hv Hc Hs Hok. destruct t as [|target|v targets otherwise|callee args p next].
  - by eapply return_safe.
  - split; [|done]. exists target. split; [by apply list_elem_of_singleton|done].
  - simpl in Hv, Hc. destruct (operand_type f block v D) as [ty e] eqn:E.
    apply app_nil in Hv as [-> Hty].
    destruct (check_operand_ownership f block v O initialized) as [O1 e1] eqn:E1.
    simpl in Hc. subst e1. pose proof (check_operand_nil _ _ _ _ _ _ E1) as [-> _].
    simpl. apply wp_bind. eapply wp_mono.
    + eapply (integer_operand_safe D); [done|split; [by rewrite E|done]| |done].
      intros t Ht. pose proof (operand_type_ty f block v D) as Hvt. rewrite E in Hvt. simpl in Hvt.
      subst ty. rewrite Ht in Hty. apply when_nil in Hty. by apply negb_false_iff in Hty.
    + intros x st' Hok'. split; [|done]. eexists. split; [apply (switch_target_successor v)|done].
  - destruct (Hcallee callee args p next eq_refl) as [g Hg].
    destruct (call_checked signatures D O callee args p next g) as (Hos&_); [done..|].
    simpl. apply wp_bind. eapply wp_mono; [by eapply operands_safe|].
    intros vs st' [Hok' Hvs]. apply wp_ret. simpl. eauto 10.
Qed.
End operands.

(** ** Blocks *)

Section blocks.
Context (signatures : gmap DefId MirFunction) (limits : InterpreterLimits) (strict : bool).
Context (f : MirFunction) (f_wf : passes_checks signatures f).
Context (f_strict : strict = true → strict_function f = true).

Abbreviation initialized := (ever_initialized f (parameters f)).

Lemma strict_block_at i b : fn_blocks f !! i = Some b → strict = true → strict_block f b = true.
Proof.
  intros Hb S. specialize (f_strict S). unfold strict_function in f_strict.
  rewrite forallb_forall in f_strict. apply f_strict.
  apply list_elem_of_In. by eapply list_elem_of_lookup_2.
Qed.

(** The checks a reachable block has passed. *)
Lemma block_checks i b O :
  fn_blocks f !! i = Some b → ownership_analysis f !! i = Some (Some O) →
  ∃ D D' O' t, terminator b = Some t ∧
    foldl define_statement D (statements b) ⊆ initialized ∧
    verify_statements f (u32_of_index i) (statements b) D = (D', []) ∧
    check_statements_ownership f (u32_of_index i) (statements b) O initialized = (O', []) ∧
    verify_terminator f (u32_of_index i) t signatures D' = [] ∧
    (check_terminator_ownership f (u32_of_index i) t O' initialized).2 = [] ∧
    (strict = true → forallb (strict_statement f) (statements b) = true ∧ strict_terminator t = true).
Proof.
  intros Hb HO. destruct (wf_terminator _ _ f_wf i b Hb) as (t&Ht&_&_).
  destruct (must_analysis_reaches f define_block (λ j, negb (bool_decide (j = 0%nat))) i) as [D HD].
  { by eapply must_analysis_lookup. }
  pose proof (wf_block _ _ f_wf i b D Hb HD) as Hv. pose proof (wf_ownership _ _ f_wf i b O Hb HO) as Hc.
  pose proof (strict_block_at i b Hb) as Hs.
  unfold verify_block, check_block_ownership in *. unfold strict_block in Hs. rewrite Ht in *.
  destruct (verify_statements _ _ _ _) as [D' e] eqn:Ev. apply app_nil in Hv as [-> Hv].
  destruct (check_statements_ownership _ _ _ _ _) as [O' e] eqn:Ec. apply app_nil in Hc as [-> Hc].
  exists D, D', O', t. split_and!; try done.
  - etrans; [|eapply (ever_initialized_block f _ b D);
      [by eapply list_elem_of_lookup_2|by eapply definite_initialization_initialized]].
    unfold define_block. destruct (terminator b) as [[| | |? ? [] ?]|]; simpl; set_solver.
  - intros S. by apply andb_true_iff, Hs.
Qed.

(** Running a block from a frame that owns what the analysis computed for it. *)
Lemma block_safe i b O st :
  fn_blocks f !! i = Some b → ownership_analysis f !! i = Some (Some O) →
  frame_ok strict f O st.2 →
  ∃ t, terminator b = Some t ∧
    wp (allowed strict) (execute_block limits b)
      (λ next st', terminator_post strict f t (foldl transfer_statement O (statements b)) next st'.2) st.
Proof.
  intros Hb HO Hok. destruct (block_checks i b O Hb HO) as (D&D'&O'&t&Ht&HDi&Hv&Hc&Htv&Htc&Hs).
  destruct (wf_terminator _ _ f_wf i b Hb) as (t'&Ht'&_&Hcallee). simplify_eq.
  exists t. split; [done|]. unfold execute_block. apply wp_bind. eapply wp_mono.
  - eapply statements_safe; try done. intros S. by apply Hs.
  - intros ? st1 (->&->&Hok1). apply wp_bind, tick_safe. intros m. rewrite Ht.
    eapply terminator_safe; try done; [apply f_wf|]. intros S. by apply Hs.
Qed.

(** Moving along an edge keeps the invariant of the analysis. *)
Lemma analysis_edge i j b t O locals :
  fn_blocks f !! i = Some b → terminator b = Some t → ownership_analysis f !! i = Some (Some O) →
  (∃ s, s ∈ successors t ∧ N.to_nat s = j) → frame_ok strict f (transfer_block b O) locals →
  ∃ O', ownership_analysis f !! j = Some (Some O') ∧ frame_ok strict f O' locals.
Proof.
  intros Hb Ht HO (s&Hs&<-) Hok.
  destruct (wf_terminator _ _ f_wf i b Hb) as (t'&Ht'&Hlt&_). simplify_eq.
  assert (edge f i (N.to_nat s)) as He.
  { split; [by apply Hlt|]. exists s. unfold block_successors. by rewrite Hb, Ht. }
  assert (reaches f (N.to_nat s)) as Hr.
  { eapply reaches_step; [by eapply must_analysis_lookup|done]. }
  destruct (must_analysis_reaches f transfer_block (λ _, true) _ Hr) as [O' HO'].
  exists O'. split; [done|]. eapply frame_ok_mono; [|exact Hok].
  by eapply (must_analysis_fixpoint f transfer_block (λ _, true)).
Qed.
End blocks.

(** ** Calls *)

Lemma fill_locals_spec arguments index (locals : frame) :
  (index + length arguments < length locals)%nat →
  ∃ locals', fill_locals index arguments locals = Some locals' ∧
    length locals' = length locals ∧
    (∀ i, locals' !! i =
       if bool_decide (index < i ≤ index + length arguments)%nat
       then Some <$> (arguments !! (i - S index)%nat) else locals !! i).
Proof.
  revert index locals. induction arguments as [|a arguments IH]; intros index locals Hlt; simpl in *.
  - exists locals. split; [done|]. split; [done|]. intros i. by rewrite bool_decide_eq_false_2 by lia.
  - rewrite bool_decide_eq_true_2 by lia.
    destruct (IH (S index) (<[S index:=Some a]> locals)) as (locals'&->&Hl&Hi).
    { rewrite length_insert. lia. }
    exists locals'. split; [done|]. rewrite length_insert in Hl. split; [done|].
    intros i. rewrite Hi. destruct (decide (i = S index)) as [->|Hne].
    + rewrite bool_decide_eq_false_2, bool_decide_eq_true_2 by lia.
      rewrite list_lookup_insert_eq by lia. by rewrite Nat.sub_diag.
    + rewrite list_lookup_insert_ne by lia. repeat case_bool_decide; try lia; [|done].
      by replace (i - S index)%nat with (S (i - S (S index)))%nat by lia.
Qed.

(** The frame a call starts with. *)
Lemma entry_frame_ok strict f arguments :
  length arguments = N.to_nat (parameter_count f) →
  (N.to_nat (parameter_count f) < length (fn_locals f))%nat →
  (strict = true → ∀ i v ty, arguments !! i = Some v → fn_locals f !! S i = Some ty → has_type v ty) →
  ∃ locals, fill_locals 0 arguments (replicate (length (fn_locals f)) None) = Some locals ∧
    frame_ok strict f (parameters f) locals.
Proof.
  intros Hn Hp Hty.
  destruct (fill_locals_spec arguments 0 (replicate (length (fn_locals f)) None))
    as (locals&Hf&Hl&Hi); [rewrite length_replicate; lia|].
  exists locals. split; [done|]. rewrite length_replicate in Hl. split; [done|..].
  - intros l Hpl. unfold parameters in Hpl. rewrite elem_of_list_to_set in Hpl.
    apply list_elem_of_fmap in Hpl as (k&->&[? ?]%elem_of_seq). rewrite Hi, Nat2N.id.
    rewrite bool_decide_eq_true_2 by lia.
    destruct (lookup_lt_is_Some_2 arguments (k - 1)) as [v Hv]; [lia|]. rewrite Hv. by exists v.
  - intros i v ty HS Hiv Hlt. rewrite Hi in Hiv. case_bool_decide as Hc.
    + apply fmap_Some in Hiv as (w&Hw&[= <-]). eapply Hty; [done|exact Hw|].
      by replace (S (i - 1)) with i%nat by lia.
    + by apply lookup_replicate in Hiv as [? _].
Qed.

Section calls.
Context (signatures : gmap DefId MirFunction) (limits : InterpreterLimits) (strict : bool).
Context (signatures_wf : ∀ id g, signatures !! id = Some g → passes_checks signatures g).
Context (signatures_strict : strict = true →
  ∀ id g, signatures !! id = Some g → strict_function g = true).

(** A run of a function returning [ty] ends well, if its budget suffices. *)
Definition run_ok (ty : MirType) (r : option (outcome (Value * Machine))) : Prop :=
  match r with
  | None => True
  | Some (Done (v, _)) => strict = true → has_type v ty
  | Some (Failed e) => allowed strict e
  | Some (Panicked _) => False
  end.

Definition arguments_ok (g : MirFunction) (arguments : list Value) : Prop :=
  length arguments = N.to_nat (parameter_count g) ∧
  (strict = true → ∀ i v ty, arguments !! i = Some v → fn_locals g !! S i = Some ty → has_type v ty).

Definition calls_ok (fuel : nat) : Prop := ∀ m id g arguments depth,
  signatures !! id = Some g → arguments_ok g arguments →
  run_ok (return_type g) (call signatures limits fuel m id arguments depth).

Definition runs_ok (fuel : nat) : Prop := ∀ m id f i depth locals O,
  signatures !! id = Some f → ownership_analysis f !! i = Some (Some O) →
  frame_ok strict f O locals →
  run_ok (return_type f) (run_blocks signatures limits fuel m f i depth locals).

Lemma call_ok_step fuel : runs_ok fuel → calls_ok (S fuel).
Proof.
  intros IH m id g arguments depth Hg [Hn Hty]. simpl. case_bool_decide; [done|]. rewrite Hg.
  rewrite bool_decide_eq_false_2 by tauto. pose proof (signatures_wf _ _ Hg) as Hwf.
  destruct (entry_frame_ok strict g arguments) as (locals&->&Hok); [done|apply Hwf|done|].
  destruct (must_analysis_reaches g transfer_block (λ _, true) 0) as [O HO].
  { apply reaches_entry, Hwf. }
  eapply IH; [done..|]. eapply frame_ok_mono; [|exact Hok].
  by eapply (analysis_entry g transfer_block (λ _, true)).
Qed.

(** The values passed to a callee satisfy its parameter types. *)
Lemma call_arguments_ok f block initialized D O callee args p next g vs :
  signatures !! callee = Some g →
  verify_terminator f block (TmCall callee args p next) signatures D = [] →
  (check_terminator_ownership f block (TmCall callee args p next) O initialized).2 = [] →
  (strict = true → strict_terminator (TmCall callee args p next) = true) →
  Forall2 (operand_value_ok strict f) args vs → arguments_ok g vs.
Proof.
  intros Hg Hv Hc Hs Hvs.
  destruct (call_checked strict f block initialized signatures D O callee args p next g)
    as ((Hu&_&_)&Hn&Hty&_); [done..|].
  split; [by rewrite <-(Forall2_length Hvs)|].
  intros HS i v ty Hi Ht. destruct (Forall2_lookup_r _ _ _ _ _ Hvs Hi) as (o&Ho&Hov).
  destruct (operand_type_known f block o D) as (t&Hot&_).
  { rewrite list.Forall_forall in Hu. apply Hu. by eapply list_elem_of_lookup_2. }
  destruct (Hty i o t Ho Hot); simplify_eq. by apply Hov.
Qed.

(** The checks of the terminator of a reachable block. *)
Lemma block_terminator_checked id f i b t O :
  signatures !! id = Some f → fn_blocks f !! i = Some b → terminator b = Some t →
  ownership_analysis f !! i = Some (Some O) →
  ∃ D, verify_terminator f (u32_of_index i) t signatures D = [] ∧
    (check_terminator_ownership f (u32_of_index i) t (foldl transfer_statement O (statements b))
       (ever_initialized f (parameters f))).2 = [] ∧
    (strict = true → strict_terminator t = true).
Proof.
  intros Hf Hb Ht HO. pose proof (signatures_wf _ _ Hf) as Hwf.
  destruct (block_checks signatures strict f Hwf (λ S, signatures_strict S _ _ Hf) i b O Hb HO)
    as (D&D'&O'&t'&Ht'&_&_&Ec&Hv&Hc&Hs). simplify_eq.
  exists D'. split; [done|]. split; [|intros HS; by apply Hs].
  enough (O' = foldl transfer_statement O (statements b)) as <- by done.
  clear -Ec. revert O Ec. induction (statements b) as [|s sts IH]; intros O; [by intros [= <-]|].
  intros [_ ?]%check_statements_cons. by apply IH.
Qed.

(** Where the run stands after a block: at a typed return value, at a block
    whose analysis the frame satisfies, or at a well-typed call after whose
    return it is. *)
Definition next_ok (f : MirFunction) (next : Next) (locals : frame) : Prop :=
  match next with
  | NextReturn v => strict = true → has_type v (return_type f)
  | NextBlock j => ∃ O, ownership_analysis f !! j = Some (Some O) ∧ frame_ok strict f O locals
  | NextCall callee vs p j =>
      ∃ g, signatures !! callee = Some g ∧ arguments_ok g vs ∧
        ∀ w m, (strict = true → has_type w (return_type g)) →
          wp (allowed strict) (assign p w)
            (λ _ st, ∃ O, ownership_analysis f !! j = Some (Some O) ∧ frame_ok strict f O st.2)
            (m, locals)
  end.

Lemma block_next_ok id f i b O m locals :
  signatures !! id = Some f → fn_blocks f !! i = Some b → ownership_analysis f !! i = Some (Some O) →
  frame_ok strict f O locals →
  wp (allowed strict) (execute_block limits b) (λ next st, next_ok f next st.2) (m, locals).
Proof.
  intros Hf Hb HO Hok. pose proof (signatures_wf _ _ Hf) as Hwf.
  destruct (block_safe signatures limits strict f Hwf (λ S, signatures_strict S _ _ Hf)
    i b O (m, locals)) as (t&Ht&Hpost); [done..|].
  eapply wp_mono; [exact Hpost|]. intros [v|j|callee vs p j] [m' locals']; simpl; [done|..].
  - intros [Hs Hok']. eapply analysis_edge; try done. unfold transfer_block. by rewrite Ht.
  - intros (os&s&->&<-&Hvs&Hok').
    destruct (block_terminator_checked _ _ _ _ _ _ Hf Hb Ht HO) as (D&Hv&Hc&Hs).
    destruct (wf_terminator _ _ Hwf i b Hb) as (t'&Ht'&_&Hcallee). simplify_eq.
    destruct (Hcallee _ _ _ _ eq_refl) as [g Hg]. exists g. split; [done|].
    split; [by eapply call_arguments_ok|]. intros w m2 Hw.
    destruct (call_checked strict f (u32_of_index i) _ signatures D _ callee os p s g Hg Hv Hc Hs)
      as (_&_&_&Hp&Hl&Hpt).
    eapply wp_mono.
    { eapply assign_safe; [done..| |done]. intros HS ty ->%Hpt. by apply Hw. }
    intros [] st3 Hok3. eapply (analysis_edge signatures strict f Hwf i); try done.
    + exists s. split; [by apply list_elem_of_singleton|done].
    + unfold transfer_block. by rewrite Ht.
Qed.

Lemma run_ok_step fuel : calls_ok fuel → runs_ok fuel → runs_ok (S fuel).
Proof.
  intros IHc IHr m id f i depth locals O Hf HO Hok.
  assert (i < length (fn_blocks f))%nat as [b Hb]%lookup_lt_is_Some.
  { eapply reaches_lt. by eapply must_analysis_lookup. }
  simpl. rewrite Hb. pose proof (block_next_ok id f i b O m locals Hf Hb HO Hok) as Hnext. unfold wp in Hnext.
  destruct (execute_block limits b (m, locals)) as [[[v|j|callee vs p j] [m' locals']]|e|]; try done.
  - simpl in Hnext. destruct Hnext as (O'&HO'&Hok'). by eapply IHr.
  - simpl in Hnext. destruct Hnext as (g&Hg&Hargs&Hnext).
    specialize (IHc m' callee g vs (u32_saturating_add depth 1) Hg Hargs).
    destruct (call signatures limits fuel m' callee vs _) as [[[w m'']|e|]|]; try done.
    specialize (Hnext w m'' IHc). unfold wp in Hnext.
    destruct (assign p w (m'', locals')) as [[? [m3 locals3]]|e|]; try done.
    simpl in Hnext. destruct Hnext as (O'&HO'&Hok'). by eapply IHr.
Qed.

Lemma calls_runs_ok fuel : calls_ok fuel ∧ runs_ok fuel.
Proof.
  induction fuel as [|fuel [IHc IHr]]; [done|]. split; [by apply call_ok_step|by apply run_ok_step].
Qed.
End calls.
