(* ===== verification/InterpBounds.v ===== *)
(** * Resource accounting and termination of the interpreter

    [machine_step] relates the counters before and after any part of a run:
    they only grow, never pass their limits, the output stays empty, and every
    drop is paid for by an instruction.  Since a block costs at least one
    instruction, [2 * max_instructions + 2] nested steps are enough for every
    program; more change nothing. *)

From stdpp Require Import base gmap list strings numbers.
From S2P Require Import Prelude Ir Cfg Verify Interp.
Open Scope string_scope.
Open Scope N_scope.

(** ** Counters *)

Definition counters_ok (m : Machine) : Prop :=
  instructions m ≤ u64_max ∧ allocated_bytes m ≤ u64_max ∧ drops_executed m ≤ instructions m.

Section bounds.
Context (limits : InterpreterLimits).

(** Between the ticks only allocations are counted, within their limit. *)
Record quiet (m m' : Machine) : Prop := {
  q_instructions : instructions m' = instructions m;
  q_drops : drops_executed m' = drops_executed m;
  q_stdout : stdout m' = stdout m;
  q_allocated : allocated_bytes m ≤ u64_max →
    allocated_bytes m ≤ allocated_bytes m' ∧ allocated_bytes m' ≤ u64_max;
  q_allocation_limit :
    allocated_bytes m ≤ max_allocated_bytes limits → allocated_bytes m' ≤ max_allocated_bytes limits
}.

Lemma quiet_refl m : quiet m m.
Proof. split; lia || done. Qed.

Lemma quiet_trans m1 m2 m3 : quiet m1 m2 → quiet m2 m3 → quiet m1 m3.
Proof. intros [] []. split; [congruence..|lia|auto]. Qed.

(** ** Operations that neither tick nor drop *)

Definition steps {A} (p : interp A) : Prop := ∀ st a st',
  p st = Done (a, st') → quiet st.1 st'.1.

Lemma steps_ret {A} (a : A) : steps (mret a).
Proof. intros st b st' [= <- <-]. apply quiet_refl. Qed.

Lemma steps_fail {A} e : steps (fail e : interp A).
Proof. by intros st a st'. Qed.

Lemma steps_panic {A} r : steps (panic r : interp A).
Proof. by intros st a st'. Qed.

Lemma steps_ok_or_trap {A} (o : option A) message : steps (ok_or_trap o message).
Proof. destruct o; [apply steps_ret|apply steps_fail]. Qed.

Lemma steps_get_locals : steps get_locals.
Proof. intros st a st' [= <- <-]. apply quiet_refl. Qed.

Lemma steps_set_local i v : steps (set_local i v).
Proof. intros st a st' [= <- <-]. apply quiet_refl. Qed.

Lemma steps_bind {A B} (p : interp A) (k : A → interp B) :
  steps p → (∀ a, steps (k a)) → steps (p ≫= k).
Proof.
  intros Hp Hk st b st''. unfold mbind, interp_bind.
  destruct (p st) as [[a st']| |] eqn:E; try done. intros Hb.
  eapply quiet_trans; [by eapply Hp|by eapply Hk].
Qed.

Hint Resolve steps_ret steps_fail steps_panic steps_ok_or_trap steps_get_locals steps_set_local
  : syllog.

(** Walk down the binds and branches of an operation. *)
Local Ltac steps_tac :=
  repeat (intros; match goal with
    | |- steps (_ ≫= _) => apply steps_bind
    | |- steps (match _ with _ => _ end) => case_match
    | |- steps (trap _) => apply steps_fail
    | |- steps _ => solve [auto with syllog]
    end).

Lemma steps_charge n : steps (charge_allocation limits n).
Proof.
  intros [m l] [] st'. unfold charge_allocation, mbind, interp_bind; simpl.
  case_bool_decide; [done|]. intros [= <-]. unfold u64_saturating_add in *.
  split; simpl; intros; try done; lia.
Qed.

Lemma steps_operand o : steps (operand limits o).
Proof.
  destruct o as [[]|l|l]; simpl; unfold local_value, local_value_mut; steps_tac.
  apply steps_charge.
Qed.

Lemma steps_operands os : steps (mapM (operand limits) os).
Proof. induction os; simpl; steps_tac; auto using steps_operand. Qed.

Lemma steps_integer_operand o : steps (integer_operand limits o).
Proof. unfold integer_operand. steps_tac. apply steps_operand. Qed.

Lemma steps_binary operator v w : steps (binary operator v w).
Proof. unfold binary. steps_tac. Qed.

Lemma steps_read_place p : steps (read_place p).
Proof. unfold read_place, local_value. steps_tac. Qed.

Lemma steps_write_field base field v : steps (write_field base field v).
Proof. unfold write_field, field_base, local_value_mut. steps_tac. Qed.

Lemma steps_assign p v : steps (assign p v).
Proof. unfold assign, local_value_mut. steps_tac. apply steps_write_field. Qed.

Lemma steps_rvalue r : steps (rvalue limits r).
Proof.
  unfold rvalue. steps_tac;
    auto using steps_read_place, steps_operand, steps_operands, steps_binary, steps_charge.
Qed.

Lemma steps_terminator t : steps (execute_terminator limits t).
Proof.
  unfold execute_terminator. steps_tac; auto using steps_integer_operand, steps_operands.
Qed.


(** ** Statements: the tick pays for the drop *)

(** A part of a run: counters grow and respect the limits. *)
Record machine_step (m m' : Machine) : Prop := {
  ms_ok : counters_ok m';
  ms_instructions : instructions m ≤ instructions m';
  ms_instruction_limit :
    instructions m ≤ max_instructions limits → instructions m' ≤ max_instructions limits;
  ms_allocation_limit :
    allocated_bytes m ≤ max_allocated_bytes limits → allocated_bytes m' ≤ max_allocated_bytes limits;
  ms_stdout : stdout m' = stdout m;
  ms_drops : drops_executed m ≤ drops_executed m'
}.

Lemma machine_step_refl m : counters_ok m → machine_step m m.
Proof. intros. split; lia || done. Qed.

Lemma machine_step_trans m1 m2 m3 :
  machine_step m1 m2 → machine_step m2 m3 → machine_step m1 m3.
Proof. intros [] []. split; [done|lia|auto|auto|congruence|lia]. Qed.

Lemma quiet_step m m' : counters_ok m → quiet m m' → machine_step m m'.
Proof. intros (?&?&?) []. split; try done; try lia. unfold counters_ok. lia. Qed.

(** [tick] followed by a quiet part and at most one drop. *)
Definition ticked (m m' : Machine) : Prop :=
  machine_step m m' ∧ instructions m' = u64_saturating_add (instructions m) 1.

Lemma tick_spec st a st' :
  tick limits st = Done (a, st') →
  st' = ({| instructions := u64_saturating_add (instructions st.1) 1;
            allocated_bytes := allocated_bytes st.1; stdout := stdout st.1;
            drops_executed := drops_executed st.1 |}, st.2) ∧
  u64_saturating_add (instructions st.1) 1 ≤ max_instructions limits.
Proof.
  unfold tick, mbind, interp_bind; simpl. case_bool_decide; [done|]. intros [= _ <-].
  split; [done|lia].
Qed.

(** Any quiet operation after a tick. *)
Lemma ticked_quiet {A} (p : interp A) st a st' :
  steps p → counters_ok st.1 → (tick limits;; p) st = Done (a, st') → ticked st.1 st'.1.
Proof.
  intros Hp (Hi&Ha&Hd). unfold mbind at 1, interp_bind at 1.
  destruct (tick limits st) as [[[] st1]| |] eqn:E; try done.
  apply tick_spec in E as [-> Hl]. intros []%Hp. simpl in *. unfold ticked, u64_saturating_add in *.
  split; [|lia]. split; simpl in *; intros; try done; try lia. unfold counters_ok. lia.
Qed.

(** A drop after a tick is paid for by the instruction just charged. *)
Lemma ticked_drop {A} (p : interp A) st a st' :
  steps p → counters_ok st.1 → (tick limits;; p;; count_drop) st = Done (a, st') → ticked st.1 st'.1.
Proof.
  intros Hp (Hi&Ha&Hd). unfold mbind at 1, interp_bind at 1.
  destruct (tick limits st) as [[[] st1]| |] eqn:E; try done.
  apply tick_spec in E as [-> Hl]. unfold mbind at 1, interp_bind at 1.
  destruct (p _) as [[b st2]| |] eqn:E; try done. apply Hp in E as [].
  unfold count_drop, mbind, interp_bind; simpl. intros [= _ <-]. simpl in *.
  unfold ticked, u64_saturating_add in *.
  split; [|simpl; lia]. split; simpl; intros; try done; try lia.
  unfold counters_ok. simpl. lia.
Qed.

Lemma bind_assoc {A B C} (p : interp A) (k : A → interp B) (h : B → interp C) st :
  ((p ≫= k) ≫= h) st = (p ≫= λ a, k a ≫= h) st.
Proof. unfold mbind, interp_bind. by destruct (p st) as [[]| |]. Qed.

(** The quiet part of [drop_place]. *)
Definition take_place (place : Place) : interp unit :=
  match place with
  | PLocal local =>
      slot ← local_value_mut local;
      set_local (N.to_nat local) None;;
      ok_or_trap slot "drop target is empty";;
      mret tt
  | PField base field => write_field base field VUnit
  end.

Lemma drop_place_take place st : drop_place place st = (take_place place;; count_drop) st.
Proof.
  destruct place; [|done]. unfold drop_place, take_place, mbind, interp_bind.
  destruct (local_value_mut l st) as [[[] ?]| |]; done.
Qed.

Lemma steps_take_place place : steps (take_place place).
Proof. unfold take_place, local_value_mut. steps_tac. apply steps_write_field. Qed.

Lemma bind_ext {A B} (p : interp A) (k h : A → interp B) st :
  (∀ a st', k a st' = h a st') → (p ≫= k) st = (p ≫= h) st.
Proof. intros Hk. unfold mbind, interp_bind. destruct (p st) as [[]| |]; auto. Qed.

Lemma ticked_statement s st a st' :
  counters_ok st.1 → (tick limits;; execute_statement limits s) st = Done (a, st') → ticked st.1 st'.1.
Proof.
  intros Hok. destruct s as [p r|p]; simpl.
  - apply ticked_quiet; [|done]. steps_tac; auto using steps_rvalue, steps_assign.
  - rewrite (bind_ext _ _ (λ _, take_place p;; count_drop)) by (intros; apply drop_place_take).
    by apply ticked_drop, Hok; apply steps_take_place.
Qed.

Lemma statements_step sts st a st' :
  counters_ok st.1 → execute_statements limits sts st = Done (a, st') → machine_step st.1 st'.1.
Proof.
  revert st. induction sts as [|s sts IH]; intros st Hok; simpl.
  { intros [= _ <-]. by apply machine_step_refl. }
  rewrite <-(bind_assoc (tick limits) (λ _, execute_statement limits s)).
  unfold mbind at 1, interp_bind at 1.
  destruct ((tick limits;; execute_statement limits s) st) as [[b st1]| |] eqn:E; try done.
  apply ticked_statement in E as [Hstep _]; [|done]. intros Hrest%IH; [|apply Hstep].
  by eapply machine_step_trans.
Qed.

(** A finished block charged at least one instruction, within the limit. *)
Lemma block_step b st next st' :
  counters_ok st.1 → execute_block limits b st = Done (next, st') →
  machine_step st.1 st'.1 ∧
  u64_saturating_add (instructions st.1) 1 ≤ instructions st'.1 ≤ max_instructions limits.
Proof.
  intros Hok. unfold execute_block. unfold mbind at 1, interp_bind at 1.
  destruct (execute_statements limits (statements b) st) as [[a st1]| |] eqn:E; try done.
  apply statements_step in E; [|done]. intros Ht. pose proof Ht as Hl.
  apply ticked_quiet in Ht as [Hs Hi].
  - split; [by eapply machine_step_trans|]. split.
    + rewrite Hi. destruct E. unfold u64_saturating_add. lia.
    + unfold mbind, interp_bind in Hl. destruct (tick limits st1) as [[[] st2]| |] eqn:Et; try done.
      apply tick_spec in Et as [_ Hmax]. lia.
  - destruct (terminator b); [apply steps_terminator|apply steps_panic].
  - apply E.
Qed.

(** ** Calls *)

Context (functions : gmap DefId MirFunction).

Lemma assign_step p v m locals a st' :
  counters_ok m → assign p v (m, locals) = Done (a, st') →
  machine_step m st'.1 ∧ instructions st'.1 = instructions m.
Proof.
  intros Hok Ha%steps_assign. split; [by apply (quiet_step m)|apply Ha].
Qed.

Lemma call_run_step fuel :
  (∀ m id arguments depth v m', counters_ok m →
     call functions limits fuel m id arguments depth = Some (Done (v, m')) → machine_step m m') ∧
  (∀ m f i depth locals v m', counters_ok m →
     run_blocks functions limits fuel m f i depth locals = Some (Done (v, m')) → machine_step m m').
Proof.
  induction fuel as [|fuel [IHc IHr]]; [done|]. split.
  - intros m id arguments depth v m' Hok. simpl. case_bool_decide; [done|].
    destruct (functions !! id) as [f|]; [|done]. case_bool_decide; [done|].
    destruct (fill_locals _ _ _); [|done]. by apply IHr.
  - intros m f i depth locals v m' Hok. simpl. destruct (fn_blocks f !! i) as [b|]; [|done].
    destruct (execute_block limits b (m, locals)) as [[next [m1 l1]]|e|] eqn:E; try done.
    apply block_step in E as [Hs _]; [|done]. simpl in Hs. pose proof (ms_ok _ _ Hs) as Hok1.
    destruct next as [w|j|callee vs p j].
    + by intros [= _ <-].
    + intros Hr%IHr; [|done]. by eapply machine_step_trans.
    + destruct (call functions limits fuel m1 callee vs _) as [[[w m2]|e|]|] eqn:Ec; try done.
      apply IHc in Ec; [|done]. pose proof (ms_ok _ _ Ec) as Hok2.
      destruct (assign p w (m2, l1)) as [[? [m3 l3]]|e|] eqn:Ea; try done.
      apply assign_step in Ea as [Ha _]; [|done]. simpl in Ha.
      intros Hr%IHr; [|apply Ha]. eauto using machine_step_trans.
Qed.

(** ** Termination *)

Definition remaining (m : Machine) : nat := N.to_nat (max_instructions limits - instructions m).

Lemma call_run_total fuel :
  max_instructions limits < u64_max →
  (∀ m id arguments depth, counters_ok m → (2 * remaining m + 2 ≤ fuel)%nat →
     is_Some (call functions limits fuel m id arguments depth)) ∧
  (∀ m f i depth locals, counters_ok m → (2 * remaining m + 1 ≤ fuel)%nat →
     is_Some (run_blocks functions limits fuel m f i depth locals)).
Proof.
  intros Hmax. induction fuel as [|fuel [IHc IHr]]; [split; intros; lia|]. split.
  - intros m id arguments depth Hok Hf. simpl. case_bool_decide; [done|].
    destruct (functions !! id) as [f|]; [|done]. case_bool_decide; [done|].
    destruct (fill_locals _ _ _); [|done]. apply IHr; [done|lia].
  - intros m f i depth locals Hok Hf. simpl. destruct (fn_blocks f !! i) as [b|]; [|done].
    destruct (execute_block limits b (m, locals)) as [[next [m1 l1]]|e|] eqn:E; try done.
    apply block_step in E as [Hs Hi]; [|done]. simpl in Hs, Hi. pose proof (ms_ok _ _ Hs) as Hok1.
    assert (S (remaining m1) ≤ remaining m)%nat as Hr.
    { unfold remaining, u64_saturating_add in *. lia. }
    destruct next as [w|j|callee vs p j]; [done|apply IHr; [done|lia]|].
    destruct (IHc m1 callee vs (u32_saturating_add depth 1)) as [r Ec]; [done|lia|]. rewrite Ec.
    destruct r as [[w m2]|e|]; try done. apply (proj1 (call_run_step fuel)) in Ec; [|done].
    destruct (assign p w (m2, l1)) as [[? [m3 l3]]|e|] eqn:Ea; try done.
    pose proof (ms_ok _ _ Ec) as Hok2. apply assign_step in Ea as [Ha Hai]; [|done]. simpl in *.
    apply IHr; [apply Ha|]. pose proof (ms_instructions _ _ Ec). unfold remaining in *. lia.
Qed.

(** More budget does not change a result. *)
Lemma call_run_fuel fuel :
  (∀ m id arguments depth r, call functions limits fuel m id arguments depth = Some r →
     ∀ fuel', (fuel ≤ fuel')%nat → call functions limits fuel' m id arguments depth = Some r) ∧
  (∀ m f i depth locals r, run_blocks functions limits fuel m f i depth locals = Some r →
     ∀ fuel', (fuel ≤ fuel')%nat → run_blocks functions limits fuel' m f i depth locals = Some r).
Proof.
  induction fuel as [|fuel [IHc IHr]]; [done|].
  split; intros m; [intros id arguments depth r|intros f i depth locals r];
    intros Hr [|fuel'] Hle; try lia; apply le_S_n in Hle; revert Hr; simpl.
  - case_bool_decide; [done|]. destruct (functions !! id) as [f|]; [|done].
    case_bool_decide; [done|]. destruct (fill_locals _ _ _); [|done]. intros Hr. by eapply IHr.
  - destruct (fn_blocks f !! i) as [b|]; [|done].
    destruct (execute_block limits b (m, locals)) as [[[w|j|callee vs p j] [m1 l1]]|e|]; try done.
    { intros Hr. by eapply IHr. }
    destruct (call functions limits fuel m1 callee vs _) as [o|] eqn:Ec; [|done].
    rewrite (IHc _ _ _ _ _ Ec fuel' Hle). destruct o as [[w m2]|e|]; try done.
    destruct (assign p w (m2, l1)) as [[? [m3 l3]]|e|]; try done. intros Hr. by eapply IHr.
Qed.
End bounds.
