(* ===== verification/VerifyTheorems.v ===== *)
(** * Correctness of the MIR verifier

    What a well-formed program is, by rules that do not mention the verifier: types of
    operands, values and instructions, and, for what becomes of locals, the events on
    the paths from the entry of a function.  The two passes check exactly that. *)

From stdpp Require Import base gmap strings numbers list.
From S2P Require Import Prelude Ir Cfg Dataflow Verify VerifySound Interp.
Open Scope list_scope.
Open Scope N_scope.

(** ** What it means for a program to be well formed

    What the instructions of a block do to locals, in the order of execution. *)

Inductive Event :=
| EvRead (l : LocalId)      (* borrowed or returned *)
| EvCopy (l : LocalId)
| EvMove (l : LocalId)
| EvDrop (l : LocalId)
| EvAssign (l : LocalId)
| EvResult (l : LocalId).   (* given the result of a call *)

Definition operand_events (o : Operand) : list Event :=
  match o with OpConstant _ => [] | OpCopy l => [EvCopy l] | OpMove l => [EvMove l] end.

Definition rvalue_events (r : Rvalue) : list Event :=
  match r with
  | RvBorrow _ p => [EvRead (place_local p)]
  | RvUse o | RvDiscriminant o => operand_events o
  | RvBinary _ lhs rhs => operand_events lhs ++ operand_events rhs
  | RvAggregate _ _ fields => fields ≫= operand_events
  end.

Definition statement_events (st : Statement) : list Event :=
  match st with
  | StAssign (PLocal l) r => rvalue_events r ++ [EvAssign l]
  | StAssign (PField _ _) r => rvalue_events r
  | StDrop p => [EvDrop (place_local p)]
  end.

Definition terminator_events (t : Terminator) : list Event :=
  match t with
  | TmReturn => [EvRead 0]
  | TmGoto _ => []
  | TmSwitchInt value _ _ => operand_events value
  | TmCall _ args (PLocal l) _ => (args ≫= operand_events) ++ [EvResult l]
  | TmCall _ args (PField _ _) _ => args ≫= operand_events
  end.

Definition block_events (b : BasicBlock) : list Event :=
  (statements b ≫= statement_events) ++ match terminator b with Some t => terminator_events t | None => [] end.

Definition event_local (e : Event) : LocalId :=
  match e with EvRead l | EvCopy l | EvMove l | EvDrop l | EvAssign l | EvResult l => l end.

(** Events that need the value of their local. *)
Definition uses (e : Event) : Prop :=
  match e with EvRead _ | EvCopy _ | EvMove _ | EvDrop _ => True | EvAssign _ | EvResult _ => False end.

(** The events of the blocks on a path from the entry to a block. *)
Inductive arrives (f : MirFunction) : nat → list Event → Prop :=
| arrives_entry : (0 < length (fn_blocks f))%nat → arrives f 0 []
| arrives_step i j b tr : arrives f i tr → fn_blocks f !! i = Some b → edge f i j → arrives f j (tr ++ block_events b).

(** A local holds a value after events when it is a parameter or was assigned, and was
    not moved or dropped since. *)
Inductive owned (f : MirFunction) : list Event → LocalId → Prop :=
| owned_parameter l : 1 ≤ l ≤ parameter_count f → owned f [] l
| owned_assigned tr l : owned f (tr ++ [EvAssign l]) l
| owned_result tr l : owned f (tr ++ [EvResult l]) l
| owned_kept tr e l : owned f tr l → e ≠ EvMove l → e ≠ EvDrop l → owned f (tr ++ [e]) l.

Inductive copyable : MirType → Prop :=
| copyable_unit : copyable TyUnit
| copyable_bool : copyable TyBool
| copyable_i64 : copyable TyI64
| copyable_u64 : copyable TyU64
| copyable_reference inner : copyable (TyReference false inner).

Section typing.
Context (f : MirFunction).

Definition has_type (l : LocalId) (ty : MirType) : Prop := fn_locals f !! N.to_nat l = Some ty.

Inductive operand_has_type : Operand → MirType → Prop :=
| constant_has_type c : operand_has_type (OpConstant c) (constant_ty c)
| copy_has_type l ty : has_type l ty → operand_has_type (OpCopy l) ty
| move_has_type l ty : has_type l ty → operand_has_type (OpMove l) ty.

(** A borrow of a field fits every type: field types are not recorded. *)
Inductive rvalue_fits : Rvalue → MirType → Prop :=
| borrow_fits mutable l ty : has_type l ty → rvalue_fits (RvBorrow mutable (PLocal l)) (TyReference mutable ty)
| borrow_field_fits mutable base field ty ty' : has_type base ty → rvalue_fits (RvBorrow mutable (PField base field)) ty'
| use_fits o ty : operand_has_type o ty → rvalue_fits (RvUse o) ty
| discriminant_fits o ty : operand_has_type o ty → rvalue_fits (RvDiscriminant o) TyU64
| aggregate_fits d variant fields : Forall (λ o, ∃ ty, operand_has_type o ty) fields → rvalue_fits (RvAggregate d variant fields) (TyAggregate d)
| arithmetic_fits op lhs rhs ty : op ∈ [BAdd; BSubtract; BMultiply; BDivide] → operand_has_type lhs ty → operand_has_type rhs ty →
    rvalue_fits (RvBinary op lhs rhs) ty
| comparison_fits op lhs rhs ty : op ∈ [BEqual; BLess] → operand_has_type lhs ty → operand_has_type rhs ty → rvalue_fits (RvBinary op lhs rhs) TyBool
| logical_fits op lhs rhs : op ∈ [BAnd; BOr] → operand_has_type lhs TyBool → operand_has_type rhs TyBool → rvalue_fits (RvBinary op lhs rhs) TyBool.

(** A field may be assigned a value of any type. *)
Inductive statement_typed : Statement → Prop :=
| assign_typed l r ty : has_type l ty → rvalue_fits r ty → statement_typed (StAssign (PLocal l) r)
| assign_field_typed base field r ty ty' : has_type base ty → rvalue_fits r ty' → statement_typed (StAssign (PField base field) r)
| drop_typed p ty : has_type (place_local p) ty → statement_typed (StDrop p).

Inductive terminator_typed (signatures : gmap DefId MirFunction) : Terminator → Prop :=
| return_typed : terminator_typed signatures TmReturn
| goto_typed target : terminator_typed signatures (TmGoto target)
| switch_typed value ty targets otherwise : operand_has_type value ty → ty ∈ [TyBool; TyI64; TyU64] →
    terminator_typed signatures (TmSwitchInt value targets otherwise)
| call_typed callee signature args destination next : signatures !! callee = Some signature →
    length args = N.to_nat (parameter_count signature) →
    (∀ k o, args !! k = Some o → ∃ ty, operand_has_type o ty ∧ fn_locals signature !! S k = Some ty) →
    match destination with PLocal l => has_type l (return_type signature) | PField base _ => ∃ ty, has_type base ty end →
    terminator_typed signatures (TmCall callee args destination next).
End typing.

Record well_formed (signatures : gmap DefId MirFunction) (f : MirFunction) : Prop := {
  (* local 0 is the return slot, parameters follow it, and there is an entry block *)
  fw_return : has_type f 0 (return_type f);
  fw_parameters : (N.to_nat (parameter_count f) < length (fn_locals f))%nat;
  fw_entry : (0 < length (fn_blocks f))%nat;
  (* every block ends, in blocks of the function and calls of the program *)
  fw_ends i b : fn_blocks f !! i = Some b → ∃ t, terminator b = Some t ∧
    (∀ s, s ∈ successors t → (N.to_nat s < length (fn_blocks f))%nat) ∧
    (∀ callee args p next, t = TmCall callee args p next → is_Some (signatures !! callee));
  (* reachable instructions are typed *)
  fw_typed i b : reaches f i → fn_blocks f !! i = Some b →
    Forall (statement_typed f) (statements b) ∧ ∀ t, terminator b = Some t → terminator_typed f signatures t;
  (* what is copied has a type that is copied *)
  fw_copies i b l ty : reaches f i → fn_blocks f !! i = Some b → EvCopy l ∈ block_events b → has_type f l ty → copyable ty;
  (* on every path, a local that is read, copied, moved or dropped holds a value *)
  fw_uses i b tr n e : arrives f i tr → fn_blocks f !! i = Some b → block_events b !! n = Some e → uses e →
    owned f (tr ++ take n (block_events b)) (event_local e);
  (* an assigned local whose type is not copied holds no value on some path *)
  fw_assigns i b n l ty : reaches f i → fn_blocks f !! i = Some b → block_events b !! n = Some (EvAssign l) → has_type f l ty → ¬ copyable ty →
    ∃ tr, arrives f i tr ∧ ¬ owned f (tr ++ take n (block_events b)) l
}.

(** Identities of locals are [u32]. *)
Definition u32_locals (f : MirFunction) : Prop :=
  Forall (λ b, Forall (λ e, event_local e ≤ u32_max) (block_events b)) (fn_blocks f).

(** ** The passes, event by event *)

Definition own_event (X : gset LocalId) (e : Event) : gset LocalId :=
  match e with
  | EvMove l | EvDrop l => X ∖ {[l]}
  | EvAssign l | EvResult l => {[l]} ∪ X
  | _ => X
  end.

Definition define_event (X : gset LocalId) (e : Event) : gset LocalId :=
  match e with EvAssign l | EvResult l => {[l]} ∪ X | _ => X end.

Lemma foldl_bind {A B C} (g : C → B → C) (h : A → list B) (k : C → A → C) l :
  (∀ X x, foldl g X (h x) = k X x) → ∀ X, foldl g X (l ≫= h) = foldl k X l.
Proof. intros Hk. induction l as [|x l IH]; intros X; [done|]. cbn [mbind list_bind foldl]. by rewrite foldl_app, Hk, IH. Qed.

Lemma own_operand X o : foldl own_event X (operand_events o) = consume_operand X o.
Proof. by destruct o. Qed.

Lemma own_rvalue X r : foldl own_event X (rvalue_events r) = consume_rvalue r X.
Proof.
  destruct r as [m p|o|op lhs rhs|d v fields|o]; cbn [rvalue_events consume_rvalue]; rewrite ?foldl_app, ?own_operand; [done..| |done].
  by apply foldl_bind, own_operand.
Qed.

Lemma own_statement X st : foldl own_event X (statement_events st) = transfer_statement X st.
Proof. destruct st as [[l|base field] r|p]; cbn [statement_events transfer_statement]; rewrite ?foldl_app, ?own_rvalue; done. Qed.

Lemma own_terminator X t : foldl own_event X (terminator_events t) = consume_terminator t X.
Proof.
  destruct t as [|target|v targets otherwise|callee args [l|base field] next]; cbn [terminator_events consume_terminator];
    rewrite ?foldl_app, ?own_operand; try done; by rewrite (foldl_bind own_event operand_events consume_operand) by (intros; apply own_operand).
Qed.

Lemma own_block X b : foldl own_event X (block_events b) = transfer_block b X.
Proof.
  unfold block_events, transfer_block. rewrite foldl_app, (foldl_bind own_event statement_events transfer_statement) by (intros; apply own_statement).
  destruct (terminator b); [apply own_terminator|done].
Qed.

Lemma define_operand X o : foldl define_event X (operand_events o) = X.
Proof. by destruct o. Qed.

Lemma define_operands X os : foldl define_event X (os ≫= operand_events) = X.
Proof. revert X. induction os as [|o os IH]; intros X; [done|]. cbn [mbind list_bind]. by rewrite foldl_app, define_operand, IH. Qed.

Lemma define_rvalue X r : foldl define_event X (rvalue_events r) = X.
Proof. destruct r; cbn [rvalue_events]; rewrite ?foldl_app, ?define_operand, ?define_operands; done. Qed.

Lemma define_statement_events X st : foldl define_event X (statement_events st) = define_statement X st.
Proof. destruct st as [[l|base field] r|p]; cbn [statement_events define_statement]; rewrite ?foldl_app, ?define_rvalue; done. Qed.

Lemma define_block_events X b : foldl define_event X (block_events b) = define_block b X.
Proof.
  unfold block_events, define_block. rewrite foldl_app, (foldl_bind define_event statement_events define_statement) by (intros; apply define_statement_events).
  destruct (terminator b) as [[|target|v targets otherwise|callee args [l|base field] next]|]; cbn [terminator_events define_terminator];
    rewrite ?foldl_app, ?define_operand, ?define_operands; done.
Qed.

Lemma own_event_update evs : local_update (λ X, foldl own_event X evs).
Proof. apply local_update_foldl. intros []; cbn; auto with syllog. Qed.

Lemma define_event_update evs : local_update (λ X, foldl define_event X evs).
Proof. apply local_update_foldl. intros []; cbn; auto with syllog. Qed.

Lemma own_below_define evs : ∀ X Y, X ⊆ Y → foldl own_event X evs ⊆ foldl define_event Y evs.
Proof. induction evs as [|e evs IH]; intros X Y HXY; [done|]. apply IH. destruct e; cbn; set_solver. Qed.

Lemma elem_of_parameters f l : l ∈ parameters f ↔ 1 ≤ l ≤ parameter_count f.
Proof.
  unfold parameters. rewrite elem_of_list_to_set, list_elem_of_fmap. split.
  - intros (k & -> & [H1 H2]%elem_of_seq). lia.
  - intros Hl. exists (N.to_nat l). split; [lia|]. apply elem_of_seq. lia.
Qed.

Lemma owned_spec f tr l : owned f tr l ↔ l ∈ foldl own_event (parameters f) tr.
Proof.
  split.
  - induction 1 as [l Hl|tr l|tr l|tr e l _ IH Hm Hd]; rewrite ?foldl_snoc; [by apply elem_of_parameters|cbn; set_solver..|].
    destruct e; cbn; set_solver.
  - induction tr as [|e tr IH] using rev_ind; [intros Hl; constructor; by apply elem_of_parameters|]. rewrite foldl_snoc. intros Hl.
    destruct e as [l'|l'|l'|l'|l'|l']; cbn in Hl; try (apply owned_kept; [by apply IH; set_solver|set_solver..]).
    + destruct (decide (l = l')) as [->|]; [constructor|]. apply owned_kept; [apply IH; set_solver|done..].
    + destruct (decide (l = l')) as [->|]; [constructor|]. apply owned_kept; [apply IH; set_solver|done..].
Qed.

(** ** The sets of the analyses, at every point of a block *)

Section points.
Context (f : MirFunction) (transfer : BasicBlock → gset LocalId → gset LocalId) (event : gset LocalId → Event → gset LocalId).
Context (Hblock : ∀ X b, foldl event X (block_events b) = transfer b X).

Lemma arrives_path_state i X : path_state f transfer i X ↔ ∃ tr, arrives f i tr ∧ X = foldl event (parameters f) tr.
Proof.
  split.
  - induction 1 as [H0|i j b X _ (tr & Htr & ->) Hb He]; [exists []; by split; [constructor|]|].
    exists (tr ++ block_events b). split; [by econstructor|]. by rewrite foldl_app, Hblock.
  - intros (tr & Htr & ->). induction Htr as [H0|i j b tr _ IH Hb He]; [by apply path_entry|]. rewrite foldl_app, Hblock. by eapply path_step.
Qed.

Context `{!MustTransfer transfer} (guard : nat → bool).
Context (guard_entry : ∀ j, guard j = false → j = 0%nat) (guard_grows : guard 0%nat = false → ∀ b X, X ⊆ transfer b X).
Context (g : gset LocalId → gset LocalId) (g_update : local_update g).

Lemma point_sound i D l : must_analysis f transfer guard !! i = Some (Some D) → l ∈ g D → ∀ tr, arrives f i tr → l ∈ g (foldl event (parameters f) tr).
Proof.
  intros HD Hl tr Htr. apply (proj1 g_update D); [|done]. eapply (analysis_sound f transfer guard guard_entry guard_grows); [|exact HD].
  apply arrives_path_state. eauto.
Qed.

Lemma point_precise i D l : must_analysis f transfer guard !! i = Some (Some D) → l ∈ universe f → l ∉ g D →
  ∃ tr, arrives f i tr ∧ l ∉ g (foldl event (parameters f) tr).
Proof.
  intros HD Hu Hl. destruct (decide (l ∈ D)) as [HlD|HlD].
  - destruct (path_state_exists f transfer i) as [X HX]; [by eapply must_analysis_lookup|]. pose proof HX as (tr & Htr & ->)%arrives_path_state.
    exists tr. split; [done|]. intros Hg. apply Hl. eapply (proj2 g_update); [|exact Hg]. split; [done|]. intros _.
    by eapply (analysis_sound f transfer guard guard_entry guard_grows).
  - eapply analysis_precise in HD as (X & (tr & Htr & ->)%arrives_path_state & HX); [|done..].
    exists tr. split; [done|]. intros Hg. apply Hl. by eapply (proj2 g_update); [|exact Hg].
Qed.
End points.

(** ** What an error-free block does *)

Lemma copyable_spec ty : copyable ty ↔ mir_type_is_copy ty = true.
Proof. split; [by intros []|]. destruct ty as [[] ?| | | | | |?]; intros; try done; constructor. Qed.

Section checks.
Context (f : MirFunction) (block : BlockId) (initialized : gset LocalId).

(** What the ownership check asks of an event. *)
Definition event_kept (O : gset LocalId) (e : Event) : Prop :=
  (uses e → event_local e ∈ initialized → event_local e ∈ O) ∧
  (∀ l, e = EvCopy l → affine_local f l = false) ∧
  (∀ l, e = EvAssign l → l ∈ O → affine_local f l = false).

Fixpoint events_kept (O : gset LocalId) (evs : list Event) : Prop :=
  match evs with [] => True | e :: evs => event_kept O e ∧ events_kept (own_event O e) evs end.

Lemma events_kept_app O evs1 evs2 : events_kept O (evs1 ++ evs2) ↔ events_kept O evs1 ∧ events_kept (foldl own_event O evs1) evs2.
Proof. revert O. induction evs1 as [|e evs1 IH]; intros O; cbn; [tauto|]. rewrite IH. tauto. Qed.

Lemma events_kept_lookup O evs : events_kept O evs ↔ ∀ n e, evs !! n = Some e → event_kept (foldl own_event O (take n evs)) e.
Proof.
  revert O. induction evs as [|e evs IH]; intros O; cbn; [by split; [intros _ n ? [=]|]|]. rewrite IH. split.
  - intros [He Hevs] [|n] e' H; cbn in *; [by simplify_eq|by apply Hevs].
  - intros Hall. split; [by apply (Hall 0%nat)|]. intros n e' H. by apply (Hall (S n)).
Qed.

Lemma check_read_kept l consume O e : e = EvRead l ∨ e = EvMove l →
  (check_read f block l consume O initialized).2 = [] ↔ events_kept O [e].
Proof.
  intros He. unfold check_read. cbn [events_kept]. unfold event_kept.
  assert (uses e ∧ event_local e = l ∧ (∀ l', e ≠ EvCopy l') ∧ ∀ l', e ≠ EvAssign l') as (Hu & -> & Hc & Ha) by (by destruct He as [-> | ->]).
  destruct (decide (l ∈ O)) as [HO|HO]; [rewrite (bool_decide_eq_false_2 (l ∉ O)) by (by intros [])|rewrite (bool_decide_eq_true_2 (l ∉ O)) by done]; cbn [andb].
  - destruct consume; naive_solver.
  - case_bool_decide; destruct consume; cbn; naive_solver.
Qed.

Lemma check_operand_kept o O : (check_operand_ownership f block o O initialized).2 = [] ↔ events_kept O (operand_events o).
Proof.
  destruct o as [c|l|l]; cbn [check_operand_ownership operand_events]; [done| |apply check_read_kept; by right].
  pose proof (check_read_kept l false O (EvRead l) (or_introl eq_refl)) as Hr. destruct (check_read _ _ _ _ _ _) as [O1 e1]. cbn [snd] in *.
  rewrite app_nil, Hr, when_nil. cbn. unfold event_kept. cbn. naive_solver.
Qed.

Lemma check_operands_kept os : ∀ O, (check_operands_ownership f block os O initialized).2 = [] ↔ events_kept O (os ≫= operand_events).
Proof.
  induction os as [|o os IH]; intros O; [done|]. cbn [check_operands_ownership mbind list_bind]. rewrite events_kept_app, <-(check_operand_kept o O), own_operand.
  destruct (check_operand_ownership _ _ _ _ _) as [O1 e1] eqn:E1. cbn [snd]. specialize (IH O1). destruct (check_operands_ownership _ _ _ _ _) as [O2 e2]. cbn [snd] in *.
  rewrite app_nil, IH. split; (intros [-> H]; split; [done|]); apply check_operand_nil in E1 as [-> _]; done.
Qed.

Lemma check_rvalue_kept r O : (check_rvalue_ownership f block r O initialized).2 = [] ↔ events_kept O (rvalue_events r).
Proof.
  destruct r as [m p|o|op lhs rhs|d v fields|o]; cbn [check_rvalue_ownership rvalue_events].
  - apply check_read_kept. by left.
  - apply check_operand_kept.
  - rewrite (check_operands_kept [lhs; rhs]). cbn [mbind list_bind]. by rewrite app_nil_r.
  - apply check_operands_kept.
  - apply check_operand_kept.
Qed.

Lemma check_statement_kept st O : (check_statement_ownership f block st O initialized).2 = [] ↔ events_kept O (statement_events st).
Proof.
  destruct st as [p r|p]; cbn [check_statement_ownership statement_events].
  - pose proof (check_rvalue_kept r O) as Hr. destruct (check_rvalue_ownership _ _ _ _ _) as [O1 e1] eqn:E1. cbn [snd] in *. destruct p as [l|base field]; cbn [snd]; [|done].
    rewrite events_kept_app, app_nil, Hr, when_nil, own_rvalue. cbn. unfold event_kept. cbn.
    split; (intros [Hk H]; split; [done|]); apply Hr in Hk; subst e1; apply check_rvalue_nil in E1 as ->.
    + split; [|done]. split_and!; [done|done|]. intros l' [= <-] Hin. by rewrite (bool_decide_eq_true_2 _ Hin) in H.
    + destruct H as [(_ & _ & H) _]. case_bool_decide as Hin; [|done]. cbn. by apply H.
  - cbn. unfold event_kept. cbn. rewrite when_nil. set (l := place_local p). destruct (decide (l ∈ O)) as [HO|HO];
      [rewrite (bool_decide_eq_false_2 (l ∉ O)) by (by intros [])|rewrite (bool_decide_eq_true_2 (l ∉ O)) by done]; cbn [andb]; [naive_solver|].
    rewrite bool_decide_eq_false. naive_solver.
Qed.

Lemma check_statements_kept sts : ∀ O, (check_statements_ownership f block sts O initialized).2 = [] ↔ events_kept O (sts ≫= statement_events).
Proof.
  induction sts as [|st sts IH]; intros O; [done|]. cbn [check_statements_ownership mbind list_bind]. rewrite events_kept_app, <-(check_statement_kept st O), own_statement.
  destruct (check_statement_ownership _ _ _ _ _) as [O1 e1] eqn:E1. cbn [snd]. specialize (IH O1). destruct (check_statements_ownership _ _ _ _ _) as [O2 e2]. cbn [snd] in *.
  rewrite app_nil, IH. split; (intros [-> H]; split; [done|]); apply check_statement_nil in E1 as ->; done.
Qed.

Lemma check_terminator_kept t O : (check_terminator_ownership f block t O initialized).2 = [] ↔ events_kept O (terminator_events t).
Proof.
  destruct t as [|target|v targets otherwise|callee args p next]; cbn [check_terminator_ownership terminator_events].
  - apply check_read_kept. by left.
  - done.
  - apply check_operand_kept.
  - pose proof (check_operands_kept args O) as Ha. destruct (check_operands_ownership _ _ _ _ _) as [O1 e1]. cbn [snd] in *. rewrite Ha. destruct p as [l|base field]; [|done].
    rewrite events_kept_app. cbn. unfold event_kept. cbn. naive_solver.
Qed.

Lemma check_statements_end sts : ∀ O O', check_statements_ownership f block sts O initialized = (O', []) → O' = foldl transfer_statement O sts.
Proof. induction sts as [|st sts IH]; intros O O'; [by intros [= <-]|]. intros [_ H]%check_statements_cons. by apply IH. Qed.

Lemma check_block_kept b O : check_block_ownership f block b O initialized = [] ↔ events_kept O (block_events b).
Proof.
  unfold check_block_ownership, block_events. rewrite events_kept_app, <-check_statements_kept.
  rewrite (foldl_bind own_event statement_events transfer_statement) by (intros; apply own_statement).
  destruct (check_statements_ownership _ _ _ _ _) as [O1 e1] eqn:E1. cbn [snd]. rewrite app_nil.
  destruct (terminator b) as [t|]; [|cbn; tauto].
  split; (intros [-> H]; split; [done|]); apply check_statements_end in E1 as ->; by apply check_terminator_kept.
Qed.
End checks.

Section definitions.
Context (f : MirFunction) (block : BlockId).

(** What definite initialization asks of an event. *)
Definition event_defined (D : gset LocalId) (e : Event) : Prop :=
  uses e → (∃ ty, has_type f (event_local e) ty) ∧ event_local e ∈ D.

Fixpoint events_defined (D : gset LocalId) (evs : list Event) : Prop :=
  match evs with [] => True | e :: evs => event_defined D e ∧ events_defined (define_event D e) evs end.

Lemma events_defined_app D evs1 evs2 : events_defined D (evs1 ++ evs2) ↔ events_defined D evs1 ∧ events_defined (foldl define_event D evs1) evs2.
Proof. revert D. induction evs1 as [|e evs1 IH]; intros D; cbn; [tauto|]. rewrite IH. tauto. Qed.

Lemma events_defined_lookup D evs : events_defined D evs ↔ ∀ n e, evs !! n = Some e → event_defined (foldl define_event D (take n evs)) e.
Proof.
  revert D. induction evs as [|e evs IH]; intros D; cbn; [by split; [intros _ n ? [=]|]|]. rewrite IH. split.
  - intros [He Hevs] [|n] e' H; cbn in *; [by simplify_eq|by apply Hevs].
  - intros Hall. split; [by apply (Hall 0%nat)|]. intros n e' H. by apply (Hall (S n)).
Qed.

Lemma events_defined_operands D os : events_defined D (os ≫= operand_events) ↔ Forall (λ o, events_defined D (operand_events o)) os.
Proof.
  induction os as [|o os IH]; [by split|]. cbn [mbind list_bind]. rewrite events_defined_app, define_operand, Forall_cons_iff. tauto.
Qed.

Lemma declared_spec l : (∃ ty, has_type f l ty) ↔ (N.to_nat l < length (fn_locals f))%nat.
Proof. unfold has_type. rewrite <-lookup_lt_is_Some. done. Qed.

Lemma use_defined l D e : uses e → event_local e = l → verify_local_use f block l D = [] ↔ events_defined D [e].
Proof. intros Hu <-. rewrite verify_local_use_nil, <-declared_spec. cbn. unfold event_defined. tauto. Qed.

Lemma operand_defined o D : (operand_type f block o D).2 = [] ↔ events_defined D (operand_events o).
Proof. destruct o as [c|l|l]; cbn [operand_type operand_events snd]; [done|by apply use_defined..]. Qed.

Lemma operand_type_spec o D ty : (operand_type f block o D).1 = Some ty ↔ operand_has_type f o ty.
Proof.
  destruct o as [c|l|l]; cbn; (split; [intros H|by inversion 1; subst]); [injection H as <-|..]; by constructor.
Qed.

Lemma operand_is_typed o D : (operand_type f block o D).2 = [] → ∃ ty, operand_has_type f o ty.
Proof.
  destruct o as [c|l|l]; cbn [operand_type snd]; [intros _; eexists; constructor|..];
    (intros [Hl _]%verify_local_use_nil; apply declared_spec in Hl as [ty Hty]; exists ty; by constructor).
Qed.

Lemma operand_type_unique o ty ty' : operand_has_type f o ty → operand_has_type f o ty' → ty = ty'.
Proof. unfold has_type. inversion 1; inversion 1; unfold has_type in *; congruence. Qed.

(** The type of an error-free value. *)
Definition type_allows (vt : option MirType) (ty : MirType) : Prop := vt = None ∨ vt = Some ty.

Lemma binary_type_spec op left right : (binary_type f block op left right).2 = [] ↔ left = right ∧ (op ∈ [BAnd; BOr] → left = TyBool).
Proof.
  assert (∀ P `{Decision P} e, when (bool_decide (¬ P)) e = [] ↔ P) as Hwhen.
  { intros P HP e. rewrite when_nil, bool_decide_eq_false. split; [apply dec_stable|naive_solver]. }
  destruct op; cbn; rewrite ?app_nil, !Hwhen; set_solver.
Qed.

Lemma binary_fits op lhs rhs ty : rvalue_fits f (RvBinary op lhs rhs) ty ↔
  ∃ ty', operand_has_type f lhs ty' ∧ operand_has_type f rhs ty' ∧ (op ∈ [BAnd; BOr] → ty' = TyBool) ∧ (binary_type f block op ty' ty').1 = ty.
Proof.
  split.
  - inversion 1 as [| | | | |? ? ? ? Hop|? ? ? ? Hop|? ? ? Hop]; subst; eexists; (split_and!; [eassumption..|set_solver|]); by destruct op; try set_solver.
  - intros (ty' & Hl & Hr & Hbool & <-). destruct op; cbn in *;
      try (eapply arithmetic_fits; [set_solver|done..]); try (eapply comparison_fits; [set_solver|done..]);
      (rewrite Hbool in Hl, Hr by set_solver; eapply logical_fits; [set_solver|done..]).
Qed.

Lemma rvalue_defined r D vt errs : verify_rvalue f block r D = (vt, errs) →
  (errs = [] ↔ events_defined D (rvalue_events r) ∧ ∃ ty, rvalue_fits f r ty) ∧ (errs = [] → ∀ ty, rvalue_fits f r ty ↔ type_allows vt ty).
Proof.
  unfold type_allows. destruct r as [m p|o|op lhs rhs|d v fields|o]; cbn [verify_rvalue rvalue_events].
  - pose proof (use_defined (place_local p) D (EvRead (place_local p)) I eq_refl) as Hu. unfold place_type, local_type.
    destruct (fn_locals f !! N.to_nat (place_local p)) as [ty0|] eqn:E.
    + destruct p as [l|base field]; intros [= <- <-]; cbn in E; rewrite app_nil, Hu.
      * split; [split; [intros [? _]; split; [done|]; eexists; by constructor|tauto]|]. intros _ ty. split.
        -- inversion 1; subst. unfold has_type in *. right. cbn. congruence.
        -- intros [?|[= <-]]; [done|]. by constructor.
      * split; [split; [intros [? _]; split; [done|]; exists TyUnit; by econstructor|tauto]|]. intros _ ty. split; [by left|]. intros _. by econstructor.
    + intros [= <- <-]. rewrite app_nil. split; [|by intros [_ ?]]. split; [by intros [_ ?]|]. intros [_ [ty Hty]]. inversion Hty; subst; unfold has_type in *; cbn in *; congruence.
  - intros E. pose proof (operand_defined o D) as Hd. pose proof (operand_is_typed o D) as Ht. pose proof (operand_type_spec o D) as Hs. rewrite E in Hd, Ht, Hs. cbn in Hd, Ht, Hs.
    split.
    + rewrite <-Hd. split; [|tauto]. intros ->. split; [done|]. destruct Ht as [ty Hty]; [done|]. exists ty. by constructor.
    + intros ->. intros ty. destruct (Ht eq_refl) as [ty0 Hty0]. apply Hs in Hty0 as ->. split.
      * inversion 1; subst. right. by apply Hs.
      * intros [|[= <-]]; [done|]. constructor. by apply Hs.
  - pose proof (operand_defined lhs D) as Hdl. pose proof (operand_is_typed lhs D) as Htl. pose proof (operand_type_spec lhs D) as Hsl.
    pose proof (operand_defined rhs D) as Hdr. pose proof (operand_is_typed rhs D) as Htr. pose proof (operand_type_spec rhs D) as Hsr.
    rewrite events_defined_app, define_operand, <-Hdl, <-Hdr.
    destruct (operand_type f block lhs D) as [tl e1], (operand_type f block rhs D) as [tr e2]. cbn in *.
    destruct tl as [tl|].
    2: { intros [= <- <-]. assert (e1 ≠ []) as Hne by (intros ->; destruct Htl as [ty Hty]; [done|]; apply Hsl in Hty; done). tauto. }
    destruct tr as [tr|].
    2: { intros [= <- <-]. assert (e2 ≠ []) as Hne by (intros ->; destruct Htr as [ty Hty]; [done|]; apply Hsr in Hty; done). rewrite app_nil. tauto. }
    pose proof (binary_type_spec op tl tr) as Hb. destruct (binary_type f block op tl tr) as [ty e3] eqn:Eb. cbn in Hb. intros [= <- <-]. rewrite !app_nil, Hb.
    pose proof (proj1 (Hsl tl) eq_refl) as Hl. pose proof (proj1 (Hsr tr) eq_refl) as Hr. split.
    + split.
      * intros (-> & -> & -> & Hbool). split; [done|]. exists ty. apply binary_fits. exists tr. split_and!; [done..|]. by rewrite Eb.
      * intros [[-> ->] [ty' (t & Hl' & Hr' & Hbool & _)%binary_fits]]. rewrite (operand_type_unique _ _ _ Hl Hl'), (operand_type_unique _ _ _ Hr Hr'). done.
    + intros (_ & _ & -> & Hbool) ty'. rewrite binary_fits. split.
      * intros (t & Hl' & _ & _ & <-). right. by rewrite <-(operand_type_unique _ _ _ Hl Hl'), Eb.
      * intros [|[= <-]]; [done|]. exists tr. split_and!; [done..|]. by rewrite Eb.
  - intros [= <- <-]. rewrite concat_fmap_nil, events_defined_operands, Forall_forall. split.
    + split.
      * intros Hall. split; [intros o Ho; by apply operand_defined, Hall|]. exists (TyAggregate d). constructor. apply Forall_forall. intros o Ho. by eapply operand_is_typed, Hall.
      * intros [Hall _] o Ho. by apply operand_defined, Hall.
    + intros Hall ty. split; [inversion 1; by right|]. intros [|[= <-]]; [done|]. constructor. apply Forall_forall. intros o Ho. by eapply operand_is_typed, Hall.
  - intros [= <- <-]. rewrite operand_defined. split.
    + split; [|tauto]. intros Hd. split; [done|]. apply (proj2 (operand_defined o D)), operand_is_typed in Hd as [ty Hty]. exists TyU64. by econstructor.
    + intros Hd ty. apply (proj2 (operand_defined o D)), operand_is_typed in Hd as [ty0 Hty]. split; [inversion 1; by right|]. intros [|[= <-]]; [done|]. by econstructor.
Qed.
Lemma place_type_local p : (place_type f block p).2 = [] ↔ ∃ ty, has_type f (place_local p) ty.
Proof. unfold place_type, local_type, has_type. destruct (fn_locals f !! _) as [ty|]; [|naive_solver]. destruct p; naive_solver. Qed.

Lemma statement_defined st D : (verify_statement f block st D).2 = [] ↔ statement_typed f st ∧ events_defined D (statement_events st).
Proof.
  destruct st as [p r|p]; cbn [verify_statement statement_events].
  - destruct (verify_rvalue f block r D) as [vt e1] eqn:E1. apply rvalue_defined in E1 as [Hd Ht]. unfold place_type, local_type.
    destruct (fn_locals f !! N.to_nat (place_local p)) as [ty|] eqn:Ety.
    2: { cbn [snd]. rewrite app_nil. split; [by intros [_ ?]|]. intros [Hty _]. inversion Hty; subst; unfold has_type in *; cbn in *; congruence. }
    destruct p as [l|base field]; cbn [snd place_local] in *.
    + rewrite events_defined_app, define_rvalue, !app_nil.
      assert (match vt with Some vt => when (bool_decide (ty ≠ vt)) (type_error f block ty vt) | None => [] end = [] ↔ type_allows vt ty) as ->.
      { unfold type_allows. destruct vt as [vt|]; [|naive_solver]. rewrite when_nil, bool_decide_eq_false. split; [intros ->%dec_stable; by right|naive_solver]. }
      split.
      * intros (He & _ & Hal). pose proof (proj1 Hd He) as [Hdef _]. split; [econstructor; [exact Ety|by apply Ht]|]. split; [done|]. by split; [intros []|].
      * intros [Hty [Hdef _]]. inversion Hty as [? ? ty' Hl Hfit| |]; subst. unfold has_type in Hl. assert (ty' = ty) as -> by congruence.
        assert (e1 = []) as -> by (apply Hd; eauto). split_and!; [done|done|]. by apply Ht.
    + rewrite app_nil_r, Hd. split; [intros [Hdef [ty' Hty']]; split; [by econstructor|done]|]. intros [Hty Hdef]. inversion Hty; subst. eauto.
  - cbn [snd]. rewrite (use_defined _ D (EvDrop (place_local p)) I eq_refl). split; [|tauto]. intros Hd. split; [|done]. destruct Hd as [[[ty Hty] _] _]; [done|]. by econstructor.
Qed.

Lemma statements_defined sts : ∀ D, (verify_statements f block sts D).2 = [] ↔ Forall (statement_typed f) sts ∧ events_defined D (sts ≫= statement_events).
Proof.
  induction sts as [|st sts IH]; intros D; [by cbn; split|]. cbn [verify_statements mbind list_bind]. rewrite events_defined_app, Forall_cons, define_statement_events.
  pose proof (statement_defined st D) as Hst. destruct (verify_statement f block st D) as [D1 e1] eqn:E1. cbn [snd] in Hst. specialize (IH D1).
  destruct (verify_statements f block sts D1) as [D2 e2]. cbn [snd] in *. rewrite app_nil, IH. split.
  - intros [He1 [Hty Hdef]]. pose proof (proj1 Hst He1) as [? ?]. subst e1. apply verify_statement_nil in E1 as ->. done.
  - intros [[Hty Htys] [Hdef Hdefs]]. assert (e1 = []) as -> by (apply Hst; done). apply verify_statement_nil in E1 as ->. done.
Qed.

Lemma argument_defined signature D k o ty : fn_locals signature !! S k = Some ty →
  verify_argument f block signature D k o = [] ↔ events_defined D (operand_events o) ∧ operand_has_type f o ty.
Proof.
  intros Hty. unfold verify_argument. pose proof (operand_defined o D) as Hd. pose proof (operand_is_typed o D) as Ht. pose proof (operand_type_spec o D) as Hs.
  destruct (operand_type f block o D) as [actual e]. cbn [fst snd] in *. rewrite app_nil, Hd, Hty. split.
  - intros [Hdef Hw]. split; [done|]. destruct Ht as [ty' Hty'%Hs]; [by apply Hd|]. subst actual. apply when_nil, bool_decide_eq_false, dec_stable in Hw as ->. by apply Hs.
  - intros [Hdef Ho%Hs]. subst actual. split; [done|]. apply when_nil, bool_decide_eq_false. by intros [].
Qed.

Context (signatures : gmap DefId MirFunction).
Context (signatures_parameters : ∀ id signature, signatures !! id = Some signature → (N.to_nat (parameter_count signature) < length (fn_locals signature))%nat).

Lemma call_defined callee signature args p next D : signatures !! callee = Some signature →
  verify_terminator f block (TmCall callee args p next) signatures D = [] ↔
  terminator_typed f signatures (TmCall callee args p next) ∧ events_defined D (args ≫= operand_events).
Proof.
  intros Hsig. cbn [verify_terminator]. rewrite Hsig, !app_nil, when_nil, bool_decide_eq_false, concat_imap_nil, events_defined_operands.
  pose proof (place_type_local p) as Hp. unfold place_type, local_type in *.
  assert (∀ k o, args !! k = Some o → length args = N.to_nat (parameter_count signature) → ∃ ty, fn_locals signature !! S k = Some ty) as Hparam.
  { intros k o Hk Hlen. apply lookup_lt_is_Some. apply lookup_lt_Some in Hk. pose proof (signatures_parameters _ _ Hsig). lia. }
  split.
  - intros (Hlen%dec_stable & Hargs & Hdest).
    assert (∀ k o, args !! k = Some o → events_defined D (operand_events o) ∧ ∃ ty, operand_has_type f o ty ∧ fn_locals signature !! S k = Some ty) as Hall.
    { intros k o Hk. destruct (Hparam k o Hk Hlen) as [ty Hty]. pose proof (Hargs k o Hk) as [Hd Ho]%(argument_defined _ _ _ _ ty Hty). eauto. }
    split; [|apply Forall_lookup; intros k o Hk; by apply (Hall k)].
    econstructor; [exact Hsig|done|intros k o Hk; by apply Hall|].
    destruct (fn_locals f !! N.to_nat (place_local p)) as [ty|] eqn:E; [|by apply app_nil in Hdest as [? _]]. destruct p as [l|base field]; [|by exists ty].
    cbn in Hdest. apply when_nil, bool_decide_eq_false, dec_stable in Hdest as <-. exact E.
  - intros [Hty Hdefs]. inversion Hty as [| | |? signature' ? ? ? Hsig' Hlen Hargs Hdest]; subst. assert (signature' = signature) as -> by congruence. split_and!.
    + by intros [].
    + intros k o Hk. destruct (Hargs k o Hk) as (ty & Ho & Hs). apply (argument_defined _ _ _ _ ty Hs). split; [|done].
      rewrite Forall_forall in Hdefs. apply Hdefs. by eapply list_elem_of_lookup_2.
    + destruct p as [l|base field]; cbn in *.
      * unfold has_type in Hdest. rewrite Hdest. cbn. apply when_nil, bool_decide_eq_false. by intros [].
      * destruct Hdest as [ty Hdest]. unfold has_type in Hdest. by rewrite Hdest.
Qed.

Lemma terminator_defined t D : (∀ callee args p next, t = TmCall callee args p next → is_Some (signatures !! callee)) →
  verify_terminator f block t signatures D = [] ↔ terminator_typed f signatures t ∧ events_defined D (terminator_events t).
Proof.
  intros Hcall. destruct t as [|target|v targets otherwise|callee args p next]; cbn [terminator_events].
  - cbn [verify_terminator]. rewrite (use_defined _ D (EvRead 0) I eq_refl). split; [intros ?; split; [constructor|done]|tauto].
  - split; [intros _; split; [constructor|done]|done].
  - cbn [verify_terminator]. pose proof (operand_defined v D) as Hd. pose proof (operand_is_typed v D) as Ht. pose proof (operand_type_spec v D) as Hs.
    destruct (operand_type f block v D) as [actual e]. cbn [fst snd] in *. rewrite app_nil, Hd. split.
    + intros [Hdef Hw]. split; [|done]. destruct Ht as [ty Hty]; [by apply Hd|]. pose proof (proj2 (Hs ty) Hty) as ->.
      apply when_nil, negb_false_iff in Hw. eapply switch_typed; [done|]. destruct ty; try done; set_solver.
    + intros [Hty Hdef]. split; [done|]. inversion Hty as [| |? ty ? ? Hv Hin|]; subst. apply Hs in Hv as ->. apply when_nil, negb_false_iff.
      rewrite !elem_of_cons, elem_of_nil in Hin. by destruct Hin as [->|[->|[->|[]]]].
  - destruct (Hcall _ _ _ _ eq_refl) as [signature Hsig]. rewrite (call_defined _ _ _ _ _ _ Hsig). destruct p as [l|base field]; [|done].
    rewrite events_defined_app. cbn. unfold event_defined. cbn. tauto.
Qed.

Lemma verify_statements_end sts : ∀ D D', verify_statements f block sts D = (D', []) → D' = foldl define_statement D sts.
Proof. induction sts as [|st sts IH]; intros D D'; [by intros [= <-]|]. intros [_ H]%verify_statements_cons. by apply IH. Qed.

Lemma block_defined b t D : terminator b = Some t → (∀ callee args p next, t = TmCall callee args p next → is_Some (signatures !! callee)) →
  verify_block f block b signatures D = [] ↔ Forall (statement_typed f) (statements b) ∧ terminator_typed f signatures t ∧ events_defined D (block_events b).
Proof.
  intros Et Hcall. unfold verify_block, block_events. rewrite Et, events_defined_app.
  rewrite (foldl_bind define_event statement_events define_statement) by (intros; apply define_statement_events).
  pose proof (statements_defined (statements b) D) as Hs. destruct (verify_statements _ _ _ _) as [D1 e1] eqn:E1. cbn [snd] in Hs. rewrite app_nil. split.
  - intros [He Ht]. pose proof (proj1 Hs He) as [? ?]. subst e1. apply verify_statements_end in E1 as ->. apply terminator_defined in Ht as [? ?]; done.
  - intros (Htys & Ht & Hdef & Hdeft). assert (e1 = []) as -> by (apply Hs; done). split; [done|]. apply verify_statements_end in E1 as ->. by apply terminator_defined.
Qed.
End definitions.

(** ** The checks are the specification *)

Lemma arrives_reaches f i tr : arrives f i tr → reaches f i.
Proof. induction 1 as [|i j b tr _ IH _ He]; [by constructor|]. by eapply reaches_step. Qed.

Lemma elem_of_universe f l ty : has_type f l ty → l ≤ u32_max → l ∈ universe f.
Proof.
  intros Hl Hu. unfold universe. rewrite elem_of_list_to_set, list_elem_of_In, filter_In. split; [|by apply bool_decide_eq_true_2].
  apply list_elem_of_In, list_elem_of_fmap. exists (N.to_nat l). split; [lia|]. apply elem_of_seq. apply lookup_lt_Some in Hl. lia.
Qed.

Lemma affine_local_spec f l ty : has_type f l ty → affine_local f l = false ↔ copyable ty.
Proof. intros Hl. unfold affine_local, local_type. unfold has_type in Hl. rewrite Hl, copyable_spec. by rewrite negb_false_iff. Qed.

Lemma ever_initialized_prefix f i b D n : fn_blocks f !! i = Some b → definite_initialization f !! i = Some (Some D) →
  foldl define_event D (take n (block_events b)) ⊆ ever_initialized f (parameters f).
Proof.
  intros Hb HD. etrans; [|apply (ever_initialized_block f (parameters f) b D); [by eapply list_elem_of_lookup_2|by eapply definite_initialization_initialized]].
  rewrite <-define_block_events. rewrite <-(take_drop n (block_events b)) at 2. rewrite foldl_app. generalize (foldl define_event D (take n (block_events b))).
  induction (drop n (block_events b)) as [|e evs IH]; intros X; [done|]. etrans; [|apply IH]. destruct e; cbn; set_solver.
Qed.

(** The locals of typed instructions are declared. *)
Lemma operand_uses f o ty e : operand_has_type f o ty → e ∈ operand_events o → uses e ∧ ∃ ty, has_type f (event_local e) ty.
Proof. intros [] He; cbn in He; [by apply not_elem_of_nil in He|..]; apply list_elem_of_singleton in He as ->; by split; [|eexists]. Qed.

Lemma operands_use f os e : (∀ o, o ∈ os → ∃ ty, operand_has_type f o ty) → e ∈ os ≫= operand_events → uses e ∧ ∃ ty, has_type f (event_local e) ty.
Proof. intros Hall (o & He & Ho)%list_elem_of_bind. destruct (Hall o Ho) as [ty Hty]. by eapply operand_uses. Qed.

Lemma rvalue_uses f r ty e : rvalue_fits f r ty → e ∈ rvalue_events r → uses e ∧ ∃ ty, has_type f (event_local e) ty.
Proof.
  intros Hr. destruct Hr as [? l ?|? base ? ? ?|? ?|? ?|d v fields Hall|? ? ? ? _ ? ?|? ? ? ? _ ? ?|? ? ? _ ? ?]; cbn [rvalue_events]; rewrite ?elem_of_app.
  1,2: intros ->%list_elem_of_singleton; split; [done|by eexists].
  1,2: by eapply operand_uses.
  - apply operands_use. by rewrite Forall_forall in Hall.
  - intros [?|?]; (eapply operand_uses; [|eassumption]; eassumption).
  - intros [?|?]; (eapply operand_uses; [|eassumption]; eassumption).
  - intros [?|?]; (eapply operand_uses; [|eassumption]; eassumption).
Qed.

Lemma statement_declares f st e : statement_typed f st → e ∈ statement_events st → ∃ ty, has_type f (event_local e) ty.
Proof.
  intros [l r ty Hl Hr|base field r ty ty' _ Hr|p ty Hp]; cbn [statement_events]; rewrite ?elem_of_app, ?list_elem_of_singleton.
  - intros [He| ->]; [by eapply rvalue_uses|by eexists].
  - intros He. by eapply rvalue_uses.
  - intros ->. by eexists.
Qed.

Lemma terminator_declares f signatures t e : has_type f 0 (return_type f) → terminator_typed f signatures t → e ∈ terminator_events t → ∃ ty, has_type f (event_local e) ty.
Proof.
  intros H0 [|target|v ty targets otherwise Hv _|callee signature args p next _ _ Hargs Hp]; cbn [terminator_events]; rewrite ?list_elem_of_singleton.
  - intros ->. by eexists.
  - by intros ?%not_elem_of_nil.
  - intros He. by eapply operand_uses.
  - assert (∀ e, e ∈ args ≫= operand_events → ∃ ty, has_type f (event_local e) ty) as Ha.
    { intros e' He'. eapply operands_use; [|exact He']. intros o [k Hk]%list_elem_of_lookup. destruct (Hargs k o Hk) as (ty & Ho & _). by exists ty. }
    destruct p as [l|base field]; rewrite ?elem_of_app, ?list_elem_of_singleton; [|apply Ha]. intros [He| ->]; [by apply Ha|by eexists].
Qed.

Lemma block_declares f signatures b e : has_type f 0 (return_type f) → Forall (statement_typed f) (statements b) →
  (∀ t, terminator b = Some t → terminator_typed f signatures t) → e ∈ block_events b → ∃ ty, has_type f (event_local e) ty.
Proof.
  intros H0 Hs Ht. unfold block_events. intros [(st & He & Hin)%list_elem_of_bind|He]%elem_of_app.
  - rewrite Forall_forall in Hs. by eapply statement_declares; [apply Hs|].
  - destruct (terminator b) as [t|]; [|by apply not_elem_of_nil in He]. by eapply terminator_declares; [|apply Ht|].
Qed.

Section exact.
Context (signatures : gmap DefId MirFunction) (f : MirFunction).
Context (signatures_parameters : ∀ id signature, signatures !! id = Some signature → (N.to_nat (parameter_count signature) < length (fn_locals signature))%nat).
Context (f_u32 : u32_locals f).

Lemma event_u32 i b n e : fn_blocks f !! i = Some b → block_events b !! n = Some e → event_local e ≤ u32_max.
Proof.
  intros Hb Hn. pose proof f_u32 as Hu. unfold u32_locals in Hu. rewrite Forall_lookup in Hu. specialize (Hu i b Hb). rewrite Forall_lookup in Hu. by eapply Hu.
Qed.

Lemma passes_checks_well_formed : passes_checks signatures f → well_formed signatures f.
Proof.
  intros [Hret Hp He Ht Hblock Hown].
  assert (∀ i b, reaches f i → fn_blocks f !! i = Some b → ∃ D O, definite_initialization f !! i = Some (Some D) ∧ ownership_analysis f !! i = Some (Some O) ∧
    Forall (statement_typed f) (statements b) ∧ (∀ t, terminator b = Some t → terminator_typed f signatures t) ∧
    events_defined f D (block_events b) ∧ events_kept f (ever_initialized f (parameters f)) O (block_events b)) as Hall.
  { intros i b Hr Hb. destruct (must_analysis_reaches f define_block (λ j, negb (bool_decide (j = 0%nat))) i Hr) as [D HD].
    destruct (must_analysis_reaches f transfer_block (λ _, true) i Hr) as [O HO]. exists D, O. destruct (Ht i b Hb) as (t & Et & _ & Hcall).
    pose proof (Hblock i b D Hb HD) as (Hs & Htt & Hd)%(block_defined f _ signatures signatures_parameters b t D Et Hcall).
    pose proof (Hown i b O Hb HO) as Hk%check_block_kept. split_and!; [done..| |done|done]. intros t' Et'. by simplify_eq. }
  split; [done..| | | |].
  - intros i b Hr Hb. destruct (Hall i b Hr Hb) as (_ & _ & _ & _ & ? & ? & _). done.
  - intros i b l ty Hr Hb [n Hn]%list_elem_of_lookup Hl. destruct (Hall i b Hr Hb) as (_ & O & _ & _ & _ & _ & _ & Hk).
    rewrite events_kept_lookup in Hk. destruct (Hk n _ Hn) as (_ & Hc & _). by eapply affine_local_spec, Hc.
  - intros i b tr n e Htr Hb Hn Hu. destruct (Hall i b (arrives_reaches _ _ _ Htr) Hb) as (D & O & HD & HO & _ & _ & Hd & Hk).
    rewrite events_kept_lookup in Hk. rewrite events_defined_lookup in Hd. destruct (Hd n e Hn Hu) as [_ HlD]. destruct (Hk n e Hn) as [HlO _].
    apply owned_spec. rewrite foldl_app.
    apply (point_sound f transfer_block own_event own_block (λ _, true) ltac:(done) ltac:(done) _ (own_event_update (take n (block_events b))) i O); [done| |done].
    apply HlO; [done|]. by eapply ever_initialized_prefix.
  - intros i b n l ty Hr Hb Hn Hl Hc. destruct (Hall i b Hr Hb) as (D & O & HD & HO & _ & _ & Hd & Hk).
    rewrite events_kept_lookup in Hk. destruct (Hk n _ Hn) as (_ & _ & Ha).
    destruct (point_precise f transfer_block own_event own_block (λ _, true) ltac:(done) ltac:(done) _ (own_event_update (take n (block_events b))) i O l HO) as (tr & Htr & Hno).
    + eapply elem_of_universe; [done|]. by apply (event_u32 i b n (EvAssign l)).
    + intros Hin. apply Hc. eapply affine_local_spec; [done|]. by apply Ha.
    + exists tr. split; [done|]. by rewrite owned_spec, foldl_app.
Qed.

Lemma well_formed_passes_checks : well_formed signatures f → passes_checks signatures f.
Proof.
  intros [Hret Hp He Ht Htyped Hcopies Huses Hassigns].
  assert (∀ i b n e, reaches f i → fn_blocks f !! i = Some b → block_events b !! n = Some e → ∃ ty, has_type f (event_local e) ty) as Hdecl.
  { intros i b n e Hr Hb Hn. destruct (Htyped i b Hr Hb) as [Hs Htt]. eapply block_declares; [done..|]. by eapply list_elem_of_lookup_2. }
  assert (∀ i b n e, reaches f i → fn_blocks f !! i = Some b → block_events b !! n = Some e → event_local e ∈ universe f) as Huniv.
  { intros i b n e Hr Hb Hn. destruct (Hdecl i b n e Hr Hb Hn) as [ty Hty]. eapply elem_of_universe; [done|]. by eapply event_u32. }
  split; [done..| |].
  - intros i b D Hb HD. pose proof (must_analysis_lookup _ _ _ _ _ HD) as Hr. destruct (Ht i b Hb) as (t & Et & _ & Hcall). destruct (Htyped i b Hr Hb) as [Hs Htt].
    apply (block_defined f _ signatures signatures_parameters b t D Et Hcall). split_and!; [done|by apply Htt|]. apply events_defined_lookup. intros n e Hn Hu. split; [by eapply Hdecl|].
    destruct (decide (event_local e ∈ foldl define_event D (take n (block_events b)))) as [|Hno]; [done|]. exfalso.
    destruct (point_precise f define_block define_event define_block_events _ entry_guard (λ _, define_block_grows) _ (define_event_update (take n (block_events b))) i D
      (event_local e) HD (Huniv i b n e Hr Hb Hn) Hno) as (tr & Htr & Hno').
    apply Hno'. rewrite <-foldl_app. eapply own_below_define; [done|]. apply owned_spec. by eapply Huses.
  - intros i b O Hb HO. pose proof (must_analysis_lookup _ _ _ _ _ HO) as Hr. apply check_block_kept, events_kept_lookup. intros n e Hn. split_and!.
    + intros Hu _. destruct (decide (event_local e ∈ foldl own_event O (take n (block_events b)))) as [|Hno]; [done|]. exfalso.
      destruct (point_precise f transfer_block own_event own_block (λ _, true) ltac:(done) ltac:(done) _ (own_event_update (take n (block_events b))) i O
        (event_local e) HO (Huniv i b n e Hr Hb Hn) Hno) as (tr & Htr & Hno').
      apply Hno'. rewrite <-foldl_app. apply owned_spec. by eapply Huses.
    + intros l ->. destruct (Hdecl i b n _ Hr Hb Hn) as [ty Hty]. eapply affine_local_spec; [exact Hty|]. eapply Hcopies; [done..| |exact Hty]. by eapply list_elem_of_lookup_2.
    + intros l -> HlO. destruct (Hdecl i b n _ Hr Hb Hn) as [ty Hty]. eapply affine_local_spec; [exact Hty|].
      destruct (decide (mir_type_is_copy ty = true)) as [Hc|Hc]; [by apply copyable_spec|]. rewrite <-copyable_spec in Hc.
      destruct (Hassigns i b n l ty Hr Hb Hn Hty Hc) as (tr & Htr & Hno). destruct Hno. apply owned_spec. rewrite foldl_app.
      by apply (point_sound f transfer_block own_event own_block (λ _, true) ltac:(done) ltac:(done) _ (own_event_update (take n (block_events b))) i O).
Qed.
End exact.

(** The breadth-first search ends within its step budget and marks exactly
    the blocks that a path from block zero reaches. *)
Theorem reachable_blocks_exact f :
  reachable_loop f (S (pending_edges f (unreached f))) [0] (unreached f) = Some (reachable_blocks f) ∧
  length (reachable_blocks f) = length (fn_blocks f) ∧
  ∀ i, reachable_blocks f !! i = Some true ↔ reaches f i.
Proof.
  split; [apply reachable_blocks_loop|]. split; [apply length_reachable_blocks|].
  intros i. rewrite <-flag_true. apply reachable_blocks_spec.
Qed.

(** Definite initialization is exact: the round-robin loop ends, every
    reachable block gets a set, and a local of the function is in it exactly
    when every path from the entry to the block assigns the local or has it as
    a parameter. *)
Theorem definite_initialization_exact f i :
  reaches f i →
  flow_loop f define_block (λ j, negb (bool_decide (j = 0%nat)))
    (S (flow_measure (initial_incoming f))) (initial_incoming f) = Some (definite_initialization f) ∧
  ∃ D, definite_initialization f !! i = Some (Some D) ∧
       ∀ l, l ∈ universe f → l ∈ D ↔ ∀ X, path_state f define_block i X → l ∈ X.
Proof.
  intros Hi. split; [apply must_analysis_loop|].
  destruct (must_analysis_reaches f define_block (λ j, negb (bool_decide (j = 0%nat))) i Hi) as [D HD].
  exists D. split; [done|]. intros l Hl.
  eapply (analysis_meet_over_paths f define_block _ entry_guard); [|done..].
  intros _. apply define_block_grows.
Qed.

Lemma definite_initialization_exact_witness :
  flow_loop choose_function define_block (λ j, negb (bool_decide (j = 0%nat)))
    (S (flow_measure (initial_incoming choose_function))) (initial_incoming choose_function)
    = Some (definite_initialization choose_function) ∧
  ∃ D, definite_initialization choose_function !! 3%nat = Some (Some D) ∧
       ∀ l, l ∈ universe choose_function →
         l ∈ D ↔ ∀ X, path_state choose_function define_block 3 X → l ∈ X.
Proof.
  apply (definite_initialization_exact choose_function 3).
  apply reachable_blocks_spec. vm_compute. reflexivity.
Defined.

(** The ownership analysis is exact: the loop ends and a local of the
    function is owned on entry to a reachable block exactly when it is owned
    along every path, a move or drop taking it and an assignment giving it back. *)
Theorem ownership_analysis_exact f i :
  reaches f i →
  flow_loop f transfer_block (λ _, true)
    (S (flow_measure (initial_incoming f))) (initial_incoming f) = Some (ownership_analysis f) ∧
  ∃ O, ownership_analysis f !! i = Some (Some O) ∧
       ∀ l, l ∈ universe f → l ∈ O ↔ ∀ X, path_state f transfer_block i X → l ∈ X.
Proof.
  intros Hi. split; [apply must_analysis_loop|].
  destruct (must_analysis_reaches f transfer_block (λ _, true) i Hi) as [O HO].
  exists O. split; [done|]. intros l Hl.
  by eapply (analysis_meet_over_paths f transfer_block (λ _, true)).
Qed.

Lemma ownership_analysis_exact_witness :
  flow_loop sample_main transfer_block (λ _, true)
    (S (flow_measure (initial_incoming sample_main))) (initial_incoming sample_main)
    = Some (ownership_analysis sample_main) ∧
  ∃ O, ownership_analysis sample_main !! 1%nat = Some (Some O) ∧
       ∀ l, l ∈ universe sample_main →
         l ∈ O ↔ ∀ X, path_state sample_main transfer_block 1 X → l ∈ X.
Proof.
  apply (ownership_analysis_exact sample_main 1).
  apply reachable_blocks_spec. vm_compute. reflexivity.
Defined.

(** C40: verification succeeds exactly on well-formed programs: every function has its
    return slot, parameters and an entry, every block ends in blocks of the function
    and calls functions of the program, the reachable instructions are typed and copy
    only values of copied types, on every path from the entry whatever is read, copied,
    moved or dropped holds a value, and an assigned local whose type is not copied
    holds none on some path to the assignment. *)
Theorem verify_exact p : Forall u32_locals (functions p) →
  verify p = Ok tt ↔ ∀ f, f ∈ functions p → well_formed (signatures_of (functions p)) f.
Proof.
  rewrite Forall_forall. intros Hu. rewrite verify_ok. split; intros Hall f Hf.
  - apply passes_checks_well_formed; [|by apply Hu|by apply Hall]. intros id signature [Hin _]%signatures_of_lookup. by apply Hall.
  - apply well_formed_passes_checks; [|by apply Hu|by apply Hall]. intros id signature [Hin _]%signatures_of_lookup. by apply Hall.
Qed.

Lemma verify_exact_witness :
  verify sample_program = Ok tt ∧ ∀ f, f ∈ functions sample_program → well_formed (signatures_of (functions sample_program)) f.
Proof.
  assert (verify sample_program = Ok tt) as Hv by (vm_compute; reflexivity). split; [exact Hv|].
  apply (verify_exact sample_program); [|exact Hv].
  apply Forall_forall. intros f Hf. cbn in Hf. apply elem_of_cons in Hf as [-> |Hf]; [|apply list_elem_of_singleton in Hf as ->];
    unfold u32_locals; apply (bool_decide_unpack _); vm_compute; exact I.
Defined.

(** No program that reads a moved value verifies: if along some path to a
    block a local that the function initializes is not owned, then a block that
    starts by reading it makes the whole program fail. *)
Theorem use_after_move_rejected p f i b l r sts t X :
  f ∈ functions p → fn_blocks f !! i = Some b →
  b = {| statements := StAssign r (RvUse (OpMove l)) :: sts; terminator := t |} →
  l ∈ universe f → l ∈ ever_initialized f (parameters f) →
  path_state f transfer_block i X → l ∉ X → verify p ≠ Ok tt.
Proof.
  intros Hf Hb -> Hl Hinit HX HlX Hv.
  pose proof (proj1 (verify_ok p) Hv f Hf) as Hwf.
  destruct (must_analysis_reaches f transfer_block (λ _, true) i) as [O HO].
  { by eapply path_state_reaches. }
  pose proof (wf_ownership _ _ Hwf i _ O Hb HO) as Hc. unfold check_block_ownership in Hc.
  destruct (check_statements_ownership _ _ _ _ _) as [O' e] eqn:E. apply app_nil in Hc as [-> _].
  apply check_statements_cons in E as [E _]. simpl in E.
  destruct (check_read f (u32_of_index i) l true O _) as [O1 e] eqn:Er.
  assert (e = []) as ->.
  { apply (f_equal snd) in E. destruct r; simpl in E; [by apply app_nil in E as [? _]|done]. }
  apply check_read_nil in Er as [_ Hown]. apply HlX.
  eapply (analysis_sound f transfer_block (λ _, true)); [done|done|exact HX|exact HO|]. auto.
Qed.

(** A string moved by the first block and again by the second. *)
Definition moved_block : BasicBlock :=
  {| statements := [StAssign (PLocal 0) (RvUse (OpMove 1))]; terminator := Some TmReturn |}.

Definition two_block_function : MirFunction := {|
  fn_id := main_id; parameter_count := 1; return_type := TyString;
  fn_locals := [TyString; TyString; TyString];
  fn_blocks := [block_of [assign_local 2 (RvUse (OpMove 1))] (TmGoto 1); moved_block]
|}.

Lemma use_after_move_rejected_witness :
  verify {| functions := [two_block_function]; entry := None |} ≠ Ok tt.
Proof.
  apply (use_after_move_rejected _ two_block_function 1 moved_block 1 (PLocal 0) []
    (Some TmReturn) {[2]}).
  - by constructor.
  - reflexivity.
  - reflexivity.
  - apply (bool_decide_unpack _). vm_compute. exact I.
  - apply (bool_decide_unpack _). vm_compute. exact I.
  - replace {[2]} with (transfer_block (block_of [assign_local 2 (RvUse (OpMove 1))] (TmGoto 1))
      (parameters two_block_function)) by (vm_compute; reflexivity).
    eapply path_step; [apply path_entry; vm_compute; lia|reflexivity|].
    split; [vm_compute; lia|]. exists 1. split; [constructor|reflexivity].
  - by intros H%elem_of_singleton.
Defined.
