(* ===== verification/InterpTheorems.v ===== *)
(** * What the verifier and the interpreter guarantee together *)

From stdpp Require Import base gmap list strings numbers.
From S2P Require Import Prelude Ir Cfg Verify VerifySound Interp InterpSafety InterpBounds.
Open Scope string_scope.
Open Scope N_scope.

(** ** Values at the interface *)

Fixpoint runtime_has_type (v : RuntimeValue) (ty : MirType) : bool :=
  match v, ty with
  | RReference v, TyReference _ ty => runtime_has_type v ty
  | RUnit, TyUnit => true
  | RBool _, TyBool => true
  | RI64 z, TyI64 => in_i64 z
  | RU64 n, TyU64 => in_u64 n
  | RString _, TyString => true
  | RAggregate _, TyAggregate _ => true
  | _, _ => false
  end.

Lemma into_runtime_type v ty : has_type v ty → runtime_has_type (into_runtime v) ty = true.
Proof. by induction 1. Qed.

(** ** The shape of a run *)

(** Nested steps that suffice under an instruction limit. *)
Definition run_budget (limits : InterpreterLimits) : nat :=
  2 * N.to_nat (max_instructions limits) + 2.

Lemma initial_counters_ok : counters_ok initial_machine.
Proof. unfold counters_ok. simpl. unfold u64_max. lia. Qed.

(** A run of the entry function ends, and with the same outcome under every larger budget. *)
Lemma entry_run_total p entry limits :
  max_instructions limits < u64_max →
  ∃ r, ∀ fuel, (run_budget limits ≤ fuel)%nat →
    call (signatures_of (functions p)) limits fuel initial_machine entry [] 1 = Some r.
Proof.
  intros Hmax.
  destruct (proj1 (call_run_total limits (signatures_of (functions p)) (run_budget limits) Hmax)
    initial_machine entry [] 1) as [r Hr].
  - apply initial_counters_ok.
  - unfold remaining, run_budget. simpl. lia.
  - exists r. intros fuel Hf. by eapply (proj1 (call_run_fuel limits _ (run_budget limits))).
Qed.

Lemma verified_signatures p :
  verify p = Ok tt → ∀ id g, signatures_of (functions p) !! id = Some g →
  passes_checks (signatures_of (functions p)) g.
Proof. intros Hv id g [Hg _]%signatures_of_lookup. by apply verify_ok. Qed.

Definition strict_program (p : MirProgram) : bool := forallb strict_function (functions p).

(** Outcomes a verified program may have; its result type in strict mode. *)
Definition outcome_ok (strict : bool) (ty : MirType) (o : outcome ExecutionResult) : Prop :=
  match o with
  | Done r => strict = true → runtime_has_type (er_value r) ty = true
  | Failed e => allowed strict e
  | Panicked _ => False
  end.

Lemma verified_execute strict p entry f limits :
  verify p = Ok tt → (strict = true → strict_program p = true) →
  signatures_of (functions p) !! entry = Some f → parameter_count f = 0 →
  max_instructions limits < u64_max →
  ∃ o, (∀ fuel, (run_budget limits ≤ fuel)%nat → execute fuel p entry limits = Some o) ∧
       outcome_ok strict (return_type f) o.
Proof.
  intros Hv Hs Hf Hp Hmax. destruct (entry_run_total p entry limits Hmax) as [r Hr].
  destruct (calls_runs_ok (signatures_of (functions p)) limits strict (verified_signatures p Hv))
    with (fuel := run_budget limits) as [Hsafe _].
  { intros HS id g [Hg _]%signatures_of_lookup. specialize (Hs HS). unfold strict_program in Hs.
    rewrite forallb_forall in Hs. by apply Hs, list_elem_of_In. }
  specialize (Hsafe initial_machine entry f [] 1 Hf). rewrite Hr in Hsafe by lia.
  specialize (Hsafe ltac:(split; [by rewrite Hp|done])). simpl in Hsafe.
  destruct r as [[v m]|e|reason]; [| |done].
  - exists (Done {| er_value := into_runtime v; er_stdout := stdout m;
                    er_drops_executed := drops_executed m |}). split.
    + intros fuel Hle. unfold execute. by rewrite Hv, Hr.
    + intros HS. by apply into_runtime_type, Hsafe.
  - exists (Failed e). split; [|done]. intros fuel Hle. unfold execute. by rewrite Hv, Hr.
Qed.

(** ** Theorems *)

(** C1: a verified program always ends, within a step budget fixed by its
    instruction limit and with an outcome no larger budget changes; it never
    panics, never reports invalid MIR, a missing function or an output limit,
    never reads an empty local, never misses a block, and any trap it raises is
    an arithmetic one or one of the six the verifier does not rule out. *)
Theorem verified_program_safe p entry f limits :
  verify p = Ok tt →
  signatures_of (functions p) !! entry = Some f → parameter_count f = 0 →
  max_instructions limits < u64_max →
  ∃ o, (∀ fuel, (run_budget limits ≤ fuel)%nat → execute fuel p entry limits = Some o) ∧
       match o with
       | Done _ => True
       | Failed e => allowed false e
       | Panicked _ => False
       end.
Proof.
  intros Hv Hf Hp Hmax. destruct (verified_execute false p entry f limits) as (o&Ho&Hok); try done.
  exists o. split; [done|]. by destruct o.
Qed.

Lemma verified_program_safe_witness :
  ∃ o, (∀ fuel, (run_budget small_limits ≤ fuel)%nat →
          execute fuel bool_add_program main_id small_limits = Some o) ∧
       match o with
       | Done _ => True
       | Failed e => allowed false e
       | Panicked _ => False
       end.
Proof.
  apply (verified_program_safe bool_add_program main_id (hd sample_main (functions bool_add_program)));
    vm_compute; reflexivity.
Defined.

(** C2: a verified program that applies arithmetic and comparison to numbers,
    reads discriminants of aggregates only and projects no fields always ends;
    if it returns, the value has the entry function's return type, and if it
    fails, it ran into a resource limit, an arithmetic overflow or division
    failure, or a negative switch value. *)
Theorem strict_program_safe p entry f limits :
  verify p = Ok tt → strict_program p = true →
  signatures_of (functions p) !! entry = Some f → parameter_count f = 0 →
  max_instructions limits < u64_max →
  ∃ o, (∀ fuel, (run_budget limits ≤ fuel)%nat → execute fuel p entry limits = Some o) ∧
       match o with
       | Done r => runtime_has_type (er_value r) (return_type f) = true
       | Failed (Trap message) => message ∈ arithmetic_traps
       | Failed (InstructionLimitExceeded _ | CallDepthLimitExceeded _
                 | AllocationLimitExceeded _) => True
       | _ => False
       end.
Proof.
  intros Hv Hs Hf Hp Hmax. destruct (verified_execute true p entry f limits) as (o&Ho&Hok); try done.
  exists o. split; [done|]. destruct o as [r|[]|]; simpl in *; try done; auto. by destruct Hok as [|[? _]].
Qed.

Lemma strict_program_safe_witness :
  ∃ o, (∀ fuel, (run_budget small_limits ≤ fuel)%nat →
          execute fuel sample_program main_id small_limits = Some o) ∧
       match o with
       | Done r => runtime_has_type (er_value r) (return_type sample_main) = true
       | Failed (Trap message) => message ∈ arithmetic_traps
       | Failed (InstructionLimitExceeded _ | CallDepthLimitExceeded _
                 | AllocationLimitExceeded _) => True
       | _ => False
       end.
Proof.
  apply (strict_program_safe sample_program main_id sample_main); vm_compute; reflexivity.
Defined.

(** A run that returns has stayed within the instruction and allocation
    limits, executed at most one drop per instruction, and written no output:
    the output limit is never consulted. *)
Theorem returned_run_within_limits fuel p entry limits v m :
  call (signatures_of (functions p)) limits fuel initial_machine entry [] 1 = Some (Done (v, m)) →
  instructions m ≤ max_instructions limits ∧
  allocated_bytes m ≤ max_allocated_bytes limits ∧
  drops_executed m ≤ instructions m ∧ stdout m = [].
Proof.
  intros Hr. apply (proj1 (call_run_step limits _ fuel)) in Hr as []; [|apply initial_counters_ok].
  destruct ms_ok as (_&_&?). split_and!; [|auto using N.le_0_l|done|done].
  apply ms_instruction_limit, N.le_0_l.
Qed.

Lemma returned_run_within_limits_witness :
  ∃ v m, call (signatures_of (functions sample_program)) small_limits 40 initial_machine main_id [] 1
           = Some (Done (v, m)) ∧
         (instructions m ≤ 50 ∧ allocated_bytes m ≤ 1000 ∧ drops_executed m ≤ instructions m ∧
          stdout m = []).
Proof.
  eexists _, _. split; [vm_compute; reflexivity|].
  apply (returned_run_within_limits 40 sample_program main_id small_limits (VI64 42)).
  vm_compute. reflexivity.
Defined.

(** The largest limit is not a limit: the instruction counter saturates at
    [u64::MAX], so with [max_instructions = u64::MAX] a verified endless loop
    exhausts every step budget instead of failing. *)
Theorem saturated_limit_never_stops :
  verify loop_program = Ok tt ∧
  ∀ fuel, execute fuel loop_program main_id unlimited = None.
Proof.
  split; [vm_compute; reflexivity|]. intros fuel. unfold execute.
  replace (verify loop_program) with (@Ok unit (list VerificationError) tt) by (vm_compute; reflexivity).
  enough (∀ fuel m locals, run_blocks (signatures_of (functions loop_program)) unlimited fuel m
    (hd sample_main (functions loop_program)) 0 1 locals = None) as Hrun.
  { destruct fuel as [|fuel]; [done|].
    replace (call (signatures_of (functions loop_program)) unlimited (S fuel) initial_machine main_id [] 1)
      with (run_blocks (signatures_of (functions loop_program)) unlimited fuel initial_machine
              (hd sample_main (functions loop_program)) 0 1 [None]) by reflexivity.
    by rewrite Hrun. }
  clear fuel. induction fuel as [|fuel IH]; intros m locals; [done|]. simpl.
  unfold execute_block, tick, mbind, interp_bind; simpl.
  rewrite bool_decide_eq_false_2 by (unfold u64_saturating_add; lia). apply IH.
Qed.

(** The verifier accepts programs whose operations the interpreter cannot
    perform: arithmetic on booleans, the discriminant of a boolean, and a write
    to a field of an uninitialised local all verify and all trap. *)
Theorem verifier_accepts_trapping_programs :
  (verify bool_add_program = Ok tt ∧
   execute 4 bool_add_program main_id default_limits =
     Some (Failed (Trap "binary operand types are invalid"))) ∧
  (verify bool_discriminant_program = Ok tt ∧
   execute 4 bool_discriminant_program main_id default_limits =
     Some (Failed (Trap "discriminant read requires an aggregate"))) ∧
  (verify empty_field_program = Ok tt ∧
   execute 4 empty_field_program main_id default_limits =
     Some (Failed (Trap "field base is empty"))).
Proof. vm_compute. repeat split. Qed.

(** ** Primitive operations *)

(** Induction on values through their fields. *)
Lemma Value_nested_ind (P : Value → Prop) :
  (∀ v, P v → P (VReference v)) → P VUnit → (∀ b, P (VBool b)) → (∀ z, P (VI64 z)) →
  (∀ n, P (VU64 n)) → (∀ s, P (VString s)) →
  (∀ d fields, Forall P fields → P (VAggregate d fields)) → ∀ v, P v.
Proof.
  intros Href Hunit Hbool Hi Hu Hs Hagg. fix IH 1.
  intros [v| |b|z|n|s|d fields]; [apply Href, IH|exact Hunit|apply Hbool|apply Hi|apply Hu|apply Hs|].
  apply Hagg. induction fields as [|v fields IHf]; constructor; [apply IH|exact IHf].
Qed.

(** The interpreter's equality on values, references and nested aggregates
    included, is equality. *)
Theorem value_eqb_correct v w : value_eqb v w = true ↔ v = w.
Proof.
  revert w. induction v as [v IH| |b|z|n|s|d fs IH] using Value_nested_ind; intros w; destruct w as [w| |c|y|k|t|e gs];
    simpl; try (split; congruence).
  - rewrite IH. split; congruence.
  - rewrite Bool.eqb_true_iff. split; congruence.
  - rewrite Z.eqb_eq. split; congruence.
  - rewrite N.eqb_eq. split; congruence.
  - rewrite String.eqb_eq. split; congruence.
  - rewrite andb_true_iff, N.eqb_eq.
    enough ((fix go fs gs := match fs, gs with
      | [], [] => true | f :: fs, g :: gs => value_eqb f g && go fs gs | _, _ => false end) fs gs = true
      ↔ fs = gs) as -> by (split; [by intros [-> ->]|by intros [= -> ->]]).
    revert gs. induction IH as [|f fs Hf _ IHfs]; intros [|g gs]; try (split; congruence).
    rewrite andb_true_iff, Hf, IHfs. split; [by intros [-> ->]|by intros [= -> ->]].
Qed.

(** Signed division is exact and total: it truncates towards zero, with a
    remainder smaller than the divisor and of the dividend's sign, and traps
    exactly on a zero divisor and on the one quotient out of range. *)
Theorem i64_division_exact a b st :
  in_i64 a = true → in_i64 b = true →
  (∃ q, binary BDivide (VI64 a) (VI64 b) st = Done (VI64 q, st) ∧ in_i64 q = true ∧
        (Z.abs (a - q * b) < Z.abs b)%Z ∧ (0 ≤ (a - q * b) * a)%Z) ∨
  ((b = 0 ∨ a = i64_min ∧ b = -1)%Z ∧
   binary BDivide (VI64 a) (VI64 b) st = Failed (Trap "I64 division failure")).
Proof.
  unfold in_i64 at 1 2. rewrite !bool_decide_eq_true. intros Ha Hb. simpl.
  destruct (decide (b = 0)%Z) as [->|Hb0]; [by right; split; [left|]|].
  rewrite bool_decide_eq_false_2 by done.
  pose proof (Z.quot_rem a b Hb0) as Hqr. pose proof (Z.rem_bound_abs a b Hb0) as Hr.
  pose proof (Z.rem_sign_nz a b Hb0) as Hsign.
  unfold i64_checked. destruct (in_i64 (Z.quot a b)) eqn:E.
  - left. exists (Z.quot a b). split; [done|]. split; [done|].
    replace (a - Z.quot a b * b)%Z with (Z.rem a b) by lia. split; [done|].
    destruct (decide (Z.rem a b = 0)%Z) as [->|Hnz]; [lia|]. specialize (Hsign Hnz).
    destruct (Z.rem a b), a; simpl in *; lia.
  - right. split; [|done]. right. unfold in_i64 in E. rewrite bool_decide_eq_false in E.
    unfold i64_min, i64_max in *.
    assert (Z.abs (Z.quot a b) * Z.abs b ≤ Z.abs a)%Z by (rewrite <-Z.abs_mul; lia).
    assert (1 ≤ Z.abs b)%Z by lia.
    assert (Z.abs (Z.quot a b) ≤ Z.abs a)%Z by nia.
    assert (Z.quot a b = 9223372036854775808)%Z as Hq by lia.
    assert (a = -9223372036854775808)%Z as Ha' by nia. split; [done|]. subst a. nia.
Qed.

Lemma i64_division_exact_witness :
  (∃ q, binary BDivide (VI64 (-7)) (VI64 2) (initial_machine, []) = Done (VI64 q, (initial_machine, [])) ∧
        in_i64 q = true ∧ (Z.abs (-7 - q * 2) < Z.abs 2)%Z ∧ (0 ≤ (-7 - q * 2) * -7)%Z) ∨
  ((2 = 0 ∨ -7 = i64_min ∧ 2 = -1)%Z ∧
   binary BDivide (VI64 (-7)) (VI64 2) (initial_machine, []) = Failed (Trap "I64 division failure")).
Proof. apply (i64_division_exact (-7) 2); reflexivity. Defined.
