(* ===== verification/Hir.v ===== *)
(** * Typed high-level IR (crates/syllog-compiler/src/hir.rs)

    The resolved types of crates/syllog-semantic/src/types.rs, the literals and
    operators of crates/syllog-parser/src/ast.rs that HIR keeps, the HIR itself
    and its pre-order traversal.  [hir::DefId] and [syllog_ir::DefId] have the
    same two [u32] fields; the record [DefId] of [Ir] stands for both and
    [map_id] for the conversion. *)

From stdpp Require Import base gmap list strings numbers sorting.
From S2P Require Import Prelude Text Ir.

(** ** Source positions, literals and operators *)

Record Span := {
  span_start : N; span_end : N;
  span_line : N; span_column : N;
  span_end_line : N; span_end_column : N
}.

Definition default_span : Span := Build_Span 0 0 0 0 0 0.

Inductive Literal :=
| LitString (s : string)
| LitIdentifier (s : string)
| LitInteger (z : Z)
| LitFloat (s : string)
| LitBoolean (b : bool).

Inductive UnaryOperator := Negate | Not.

Inductive BinaryOperator :=
| OpAdd | OpSubtract | OpMultiply | OpDivide | OpRemainder | OpEqual | OpNotEqual
| OpLess | OpLessEqual | OpGreater | OpGreaterEqual | OpAnd | OpOr.

(** ** Resolved types *)

Inductive PrimitiveType :=
| PrimBool | PrimString | PrimStr | PrimChar | PrimBytes
| PrimSigned (width : string) | PrimUnsigned (width : string) | PrimFloat (width : string)
| PrimDuration | PrimSize | PrimAgentRef | PrimProvider | PrimText.

Inductive ResolvedType :=
| RtReference (region : option string) (mutable : bool) (inner : ResolvedType)
| RtPrimitive (p : PrimitiveType)
| RtStruct (name : string)
| RtEnum (name : string)
| RtState (name : string)
| RtOption (inner : ResolvedType)
| RtResult (ok error : ResolvedType)
| RtArray (inner : ResolvedType)
| RtTuple (items : list ResolvedType)
| RtFunction (parameters : list ResolvedType) (res : ResolvedType)
| RtUnit
| RtUnknown
| RtError
| RtIntegerLiteral
| RtFloatLiteral.

Open Scope string_scope.

(** The derived [Debug] output; names are identifiers, which need no escapes. *)
Definition debug_string (s : string) : string := String (Ascii.ascii_of_nat 34) (s +:+ String (Ascii.ascii_of_nat 34) "").

Definition debug_primitive (p : PrimitiveType) : string :=
  match p with
  | PrimBool => "Bool" | PrimString => "String" | PrimStr => "Str" | PrimChar => "Char" | PrimBytes => "Bytes"
  | PrimSigned width => "Signed(" +:+ debug_string width +:+ ")"
  | PrimUnsigned width => "Unsigned(" +:+ debug_string width +:+ ")"
  | PrimFloat width => "Float(" +:+ debug_string width +:+ ")"
  | PrimDuration => "Duration" | PrimSize => "Size" | PrimAgentRef => "AgentRef" | PrimProvider => "Provider" | PrimText => "Text"
  end.

Fixpoint debug_type (t : ResolvedType) : string :=
  match t with
  | RtReference region mutable inner =>
      "Reference { region: " +:+ match region with Some r => "Some(" +:+ debug_string r +:+ ")" | None => "None" end +:+
      ", mutable: " +:+ (if mutable then "true" else "false") +:+ ", inner: " +:+ debug_type inner +:+ " }"
  | RtPrimitive p => "Primitive(" +:+ debug_primitive p +:+ ")"
  | RtStruct name => "Struct(" +:+ debug_string name +:+ ")"
  | RtEnum name => "Enum(" +:+ debug_string name +:+ ")"
  | RtState name => "State(" +:+ debug_string name +:+ ")"
  | RtOption inner => "Option(" +:+ debug_type inner +:+ ")"
  | RtResult ok error => "Result(" +:+ debug_type ok +:+ ", " +:+ debug_type error +:+ ")"
  | RtArray inner => "Array(" +:+ debug_type inner +:+ ")"
  | RtTuple items => "Tuple([" +:+ join ", " (map debug_type items) +:+ "])"
  | RtFunction parameters res => "Function([" +:+ join ", " (map debug_type parameters) +:+ "], " +:+ debug_type res +:+ ")"
  | RtUnit => "Unit" | RtUnknown => "Unknown" | RtError => "Error"
  | RtIntegerLiteral => "IntegerLiteral" | RtFloatLiteral => "FloatLiteral"
  end.

(** [Display]: primitives and the parameters of functions are shown as [Debug] does. *)
Fixpoint display_type (t : ResolvedType) : string :=
  match t with
  | RtReference region mutable inner =>
      "&" +:+ match region with Some r => "'" +:+ r +:+ " " | None => "" end +:+ (if mutable then "mut " else "") +:+ display_type inner
  | RtPrimitive p => debug_primitive p
  | RtStruct name | RtEnum name | RtState name => name
  | RtOption inner => "Option<" +:+ display_type inner +:+ ">"
  | RtResult ok error => "Result<" +:+ display_type ok +:+ ", " +:+ display_type error +:+ ">"
  | RtArray inner => "[" +:+ display_type inner +:+ "]"
  | RtTuple items => "(" +:+ join ", " (map display_type items) +:+ ")"
  | RtFunction parameters res => "fn([" +:+ join ", " (map debug_type parameters) +:+ "]) -> " +:+ display_type res
  | RtUnit => "()" | RtUnknown => "<unknown>" | RtError => "<error>"
  | RtIntegerLiteral => "<integer>" | RtFloatLiteral => "<float>"
  end.

Example displayed_types :
  map display_type [RtOption (RtTuple [RtPrimitive PrimBool; RtStruct "Point"]); RtReference (Some "a") true RtUnit; RtFunction [RtStruct "Point"] RtUnit] =
  ["Option<(Bool, Point)>"; "&'a mut ()"; "fn([Struct(" +:+ debug_string "Point" +:+ ")]) -> ()"].
Proof. reflexivity. Qed.

Close Scope string_scope.

(** ** Expressions and statements *)

Inductive HirPattern :=
| PatWildcard
| PatBinding (definition : DefId)
| PatVariant (definition : DefId) (fields : list HirPattern)
| PatLiteral (l : Literal).

Inductive TypedExpr :=
| mkExpr (kind : HirExprKind) (ty : ResolvedType) (span : Span)
with HirExprKind :=
| HBorrow (mutable : bool) (operand : TypedExpr)
| HAwait (operand : TypedExpr)
| HLiteral (l : Literal)
| HReference (definition : DefId)
| HArray (items : list TypedExpr)
| HCall (callee : TypedExpr) (arguments : list TypedExpr)
| HField (base : TypedExpr) (field : DefId)
| HUnary (operator : UnaryOperator) (operand : TypedExpr)
| HBinary (operator : BinaryOperator) (lhs rhs : TypedExpr)
| HMatch (value : TypedExpr) (arms : list HirMatchArm)
| HBlock (block : HirBlock)
with HirMatchArm :=
| mkArm (pattern : HirPattern) (guard : option TypedExpr) (body : TypedExpr) (span : Span)
with HirBlock :=
| mkBlock (statements : list HirStatement) (span : Span)
with HirStatement :=
| HLet (definition : DefId) (name : string) (ty : ResolvedType) (value : TypedExpr)
| HReturn (value : option TypedExpr)
| HExpression (value : TypedExpr).

Definition expr_kind (e : TypedExpr) : HirExprKind := let 'mkExpr k _ _ := e in k.
Definition expr_ty (e : TypedExpr) : ResolvedType := let 'mkExpr _ ty _ := e in ty.
Definition expr_span (e : TypedExpr) : Span := let 'mkExpr _ _ s := e in s.
Definition block_statements (b : HirBlock) : list HirStatement := let 'mkBlock sts _ := b in sts.

(** The expression a statement evaluates. *)
Definition statement_value (s : HirStatement) : option TypedExpr :=
  match s with
  | HLet _ _ _ value | HExpression value => Some value
  | HReturn value => value
  end.

(** [TypedExpr::walk]: this expression and all nested ones, in visit order. *)
Fixpoint walk (e : TypedExpr) : list TypedExpr :=
  e ::
  match e with
  | mkExpr kind _ _ =>
      match kind with
      | HBorrow _ operand | HAwait operand => walk operand
      | HArray items => flat_map walk items
      | HCall callee arguments => walk callee ++ flat_map walk arguments
      | HField base _ | HUnary _ base => walk base
      | HBinary _ lhs rhs => walk lhs ++ walk rhs
      | HMatch value arms =>
          walk value ++
          flat_map (λ arm,
            match arm with
            | mkArm _ guard body _ =>
                match guard with Some g => walk g | None => [] end ++ walk body
            end) arms
      | HBlock (mkBlock statements _) =>
          flat_map (λ st,
            match st with
            | HLet _ _ _ value | HExpression value => walk value
            | HReturn (Some value) => walk value
            | HReturn None => []
            end) statements
      | HLiteral _ | HReference _ => []
      end
  end.

(** ** Definitions and programs *)

Record HirMember := {
  hm_id : DefId; hm_name : string; hm_ty : ResolvedType; hm_span : Span
}.

Record HirVariant := {
  hv_id : DefId; hv_name : string; hv_fields : list ResolvedType; hv_span : Span
}.

Record HirParameter := {
  hp_id : DefId; hp_name : string; hp_ty : ResolvedType; hp_span : Span
}.

Record HirFunction := {
  is_test : bool;
  asynchronous : bool;
  public : bool;
  declared_effects : option (list string);
  hf_parameters : list HirParameter;
  hf_result : ResolvedType;
  hf_body : HirBlock
}.

Record HirPipeline := {
  pl_parameters : list HirParameter;
  pl_result : ResolvedType;
  agent : option DefId;
  pl_body : option TypedExpr
}.

Inductive HirDefinitionKind :=
| KindStruct (fields : list HirMember)
| KindEnum (variants : list HirVariant)
| KindFunction (function : HirFunction)
| KindState (fields : list HirMember)
| KindAgent
| KindPipeline (pipeline : HirPipeline)
| KindSafetyBound.

Definition as_function (k : HirDefinitionKind) : option HirFunction :=
  match k with KindFunction f => Some f | _ => None end.

Record HirDefinition := {
  hd_id : DefId; hd_name : string; hd_kind : HirDefinitionKind; hd_span : Span
}.

Record HirModule := {
  hm_module : N;
  definitions : list HirDefinition
}.

Record HirProgram := {
  schema_version : N;
  modules : list HirModule;
  hir_entry : option DefId
}.

(** [program.modules.iter().flat_map(|module| &module.definitions)] *)
Definition program_definitions (p : HirProgram) : list HirDefinition :=
  flat_map definitions (modules p).

Definition map_id (id : DefId) : DefId := {| module := module id; index := index id |}.

Lemma map_id_id id : map_id id = id.
Proof. by destruct id. Qed.

(** The derived order of [DefId]: module first. *)
Definition def_id_le (a b : DefId) : Prop :=
  (module a < module b)%N ∨ (module a = module b ∧ (index a ≤ index b)%N).

#[export] Instance def_id_le_dec : RelDecision def_id_le.
Proof. intros a b. unfold def_id_le. apply _. Defined.

#[export] Instance def_id_le_total : Total def_id_le.
Proof. intros [] []. unfold def_id_le. simpl. lia. Qed.

#[export] Instance def_id_le_trans : Transitive def_id_le.
Proof. intros [] [] []. unfold def_id_le. simpl. lia. Qed.

(** [Vec::dedup]: drop an element equal to the one kept before it. *)
Fixpoint dedup (l : list DefId) : list DefId :=
  match l with
  | [] => []
  | x :: l =>
      match dedup l with
      | [] => [x]
      | y :: l' => if decide (x = y) then y :: l' else x :: y :: l'
      end
  end.

(** [locals.sort(); locals.dedup()] *)
Definition sort_dedup (l : list DefId) : list DefId := dedup (merge_sort def_id_le l).
