(* ===== verification/Diagnostics.v ===== *)
(** * Diagnostics (crates/syllog-parser/src/diagnostic.rs)

    The diagnostics every front-end pass reports.  A message is its text, or the
    data of a formatted one where the text is the derived [Debug] output of a
    type or of a verifier error. *)

From stdpp Require Import base list strings numbers.
From S2P Require Import Prelude Ir Verify Hir.

Inductive Severity := SeverityError | SeverityWarning.

Inductive DiagnosticMessage :=
| Text (s : string)
| TypeNotExecutable (ty : ResolvedType)
| Invariant (e : VerificationError)
| TypeMismatch (context : string) (expected found : ResolvedType)
| AgentMismatch (side agent : string) (expected found : ResolvedType).

Record Diagnostic := {
  code : string;
  severity : Severity;
  message : DiagnosticMessage;
  file : string;
  diagnostic_span : Span
}.

Definition is_error (d : Diagnostic) : bool :=
  match severity d with SeverityError => true | SeverityWarning => false end.
