(* ===== verification/Ast.v ===== *)
(** * Syntax tree (crates/syllog-parser/src/ast.rs)

    The tree the parser produces and every front-end pass reads.  Spans,
    literals and operators are those of [Hir].  A struct that occurs inside the
    expression syntax is a one-constructor type of the mutual block, with its
    fields as functions; the others are records.  [Parameter] is called
    [ParameterNode] and [Property] [PropertyNode], since the names are keywords. *)

From stdpp Require Import base countable list strings numbers.
From S2P Require Import Prelude Hir.

#[export] Instance span_eq_dec : EqDecision Span.
Proof. solve_decision. Defined.

#[export] Instance span_countable : Countable Span.
Proof.
  apply (inj_countable'
    (λ s, (span_start s, span_end s, span_line s, span_column s, span_end_line s, span_end_column s))
    (λ '(a, b, c, d, e, f), Build_Span a b c d e f)).
  by intros [].
Defined.

(** ** Types *)

Inductive TypeNode :=
| mkType (kind : TypeKind) (span : Span)
with TypeKind :=
| TkReference (lifetime : option string) (mutable : bool) (inner : TypeNode)
| TkPath (segments : list string) (arguments : list TypeNode)
| TkArray (inner : TypeNode)
| TkTuple (items : list TypeNode).

Definition type_kind (ty : TypeNode) : TypeKind := let 'mkType k _ := ty in k.
Definition type_span (ty : TypeNode) : Span := let 'mkType _ s := ty in s.

(** ** Expressions, statements and blocks *)

Inductive Pattern :=
| mkPattern (kind : PatternKind) (span : Span)
with PatternKind :=
| PkWildcard
| PkPath (path : list string)
| PkConstructor (path : list string) (fields : list Pattern)
| PkLiteral (l : Literal).

Inductive Expr :=
| Ex (kind : ExprKind) (span : Span)
with ExprKind :=
| EBorrow (mutable : bool) (operand : Expr)
| EAwait (operand : Expr)
| ELiteral (l : Literal)
| EPath (path : list string)
| EArray (items : list Expr)
| ECall (callee : Expr) (arguments : list CallArgument)
| EField (base : Expr) (name : string)
| EUnary (operator : UnaryOperator) (operand : Expr)
| EBinary (operator : BinaryOperator) (lhs rhs : Expr)
| EMatch (value : Expr) (arms : list MatchArm)
| EBlock (block : Block)
with CallArgument :=
| mkArgument (name : option string) (value : Expr) (span : Span)
with MatchArm :=
| mkMatchArm (pattern : Pattern) (guard : option Expr) (body : Expr) (span : Span)
with Block :=
| mkBody (statements : list Statement) (span : Span)
with Statement :=
| mkStatement (kind : StatementKind) (span : Span)
with StatementKind :=
| SLet (name : string) (ty : option TypeNode) (value : Expr)
| SReturn (value : option Expr)
| SExpression (value : Expr).

Definition ex_kind (e : Expr) : ExprKind := let 'Ex k _ := e in k.
Definition ex_span (e : Expr) : Span := let 'Ex _ s := e in s.
Definition argument_value (a : CallArgument) : Expr := let 'mkArgument _ v _ := a in v.
Definition arm_pattern (a : MatchArm) : Pattern := let 'mkMatchArm p _ _ _ := a in p.
Definition arm_guard (a : MatchArm) : option Expr := let 'mkMatchArm _ g _ _ := a in g.
Definition arm_body (a : MatchArm) : Expr := let 'mkMatchArm _ _ b _ := a in b.
Definition body_statements (b : Block) : list Statement := let 'mkBody l _ := b in l.
Definition st_kind (s : Statement) : StatementKind := let 'mkStatement k _ := s in k.

(** ** Declarations *)

Record StructField := { sf_public : bool; sf_name : string; sf_ty : TypeNode; sf_span : Span }.

Record StructNode := {
  sn_public : bool; sn_name : string; sn_fields : list StructField; sn_span : Span
}.

Record EnumVariant := { ev_name : string; ev_fields : list TypeNode; ev_span : Span }.

Record EnumNode := {
  en_public : bool; en_name : string; en_variants : list EnumVariant; en_span : Span
}.

Record ParameterNode := { pa_name : string; pa_ty : TypeNode; pa_span : Span }.

Record EffectNode := { ef_name : string; ef_span : Span }.

Record AttributeNode := { at_name : string; at_span : Span }.

Record FunctionNode := {
  fnn_attributes : list AttributeNode;
  fnn_public : bool;
  fnn_asynchronous : bool;
  fnn_name : string;
  fnn_parameters : list ParameterNode;
  fnn_return_type : option TypeNode;
  fnn_effects : option (list EffectNode);
  fnn_body : Block;
  fnn_span : Span
}.

Record StateField := {
  stf_name : string; stf_ty : TypeNode; stf_initializer : option Expr; stf_span : Span
}.

Record StateNode := {
  stn_public : bool; stn_name : string; stn_fields : list StateField; stn_span : Span
}.

Record PropertyNode := {
  prop_name : string; prop_ty : option TypeNode; prop_value : Expr; prop_span : Span
}.

Record AgentNode := {
  ag_public : bool; ag_name : string; ag_fields : list PropertyNode; ag_span : Span
}.

Record PipelineNode := {
  pn_public : bool;
  pn_name : string;
  pn_parameters : list ParameterNode;
  pn_return_type : option TypeNode;
  pn_fields : list PropertyNode;
  pn_span : Span
}.

Record SafetyBoundNode := {
  sb_public : bool; sb_name : string; sb_parameters : list ParameterNode;
  sb_fields : list PropertyNode; sb_span : Span
}.

Inductive Item :=
| ItemStruct (node : StructNode)
| ItemEnum (node : EnumNode)
| ItemFunction (node : FunctionNode)
| ItemState (node : StateNode)
| ItemAgent (node : AgentNode)
| ItemPipeline (node : PipelineNode)
| ItemSafetyBound (node : SafetyBoundNode).

Definition item_name (item : Item) : string :=
  match item with
  | ItemStruct n => sn_name n
  | ItemEnum n => en_name n
  | ItemFunction n => fnn_name n
  | ItemState n => stn_name n
  | ItemAgent n => ag_name n
  | ItemPipeline n => pn_name n
  | ItemSafetyBound n => sb_name n
  end.

Record ModuleNode := { mn_path : list string; mn_span : Span }.

Record UseNode := { un_path : list string; un_alias : option string; un_span : Span }.

Record Ast := {
  ast_module : option ModuleNode;
  ast_imports : list UseNode;
  ast_items : list Item;
  ast_span : Span
}.

(** [property]: the last property of that name; the scan is from the end. *)
Definition property_named (fields : list PropertyNode) (name : string) : option PropertyNode :=
  List.find (λ f, bool_decide (prop_name f = name)) (rev fields).

(** [field]: the literal the last property of that name has. *)
Definition literal_property (fields : list PropertyNode) (name : string) : option Literal :=
  match property_named fields name with
  | Some f => match ex_kind (prop_value f) with ELiteral l => Some l | _ => None end
  | None => None
  end.

(** ** Induction on expressions *)

Definition statement_children (s : Statement) : list Expr :=
  match st_kind s with
  | SLet _ _ e | SExpression e | SReturn (Some e) => [e]
  | SReturn None => []
  end.

Definition arm_children (a : MatchArm) : list Expr :=
  match arm_guard a with Some g => [g] | None => [] end ++ [arm_body a].

(** The direct subexpressions. *)
Definition children (e : Expr) : list Expr :=
  match ex_kind e with
  | EBorrow _ o | EAwait o | EUnary _ o | EField o _ => [o]
  | ELiteral _ | EPath _ => []
  | EArray items => items
  | ECall callee arguments => callee :: map argument_value arguments
  | EBinary _ lhs rhs => [lhs; rhs]
  | EMatch value arms => value :: flat_map arm_children arms
  | EBlock block => flat_map statement_children (body_statements block)
  end.

Lemma Forall_flat_map {A B} (P : B → Prop) (g : A → list B) l :
  Forall (λ x, Forall P (g x)) l → Forall P (flat_map g l).
Proof. induction 1; simpl; [constructor|]. by apply Forall_app. Qed.

Lemma Forall_flat_map_inv {A B} (P : B → Prop) (g : A → list B) l :
  Forall P (flat_map g l) → Forall (λ x, Forall P (g x)) l.
Proof. induction l as [|x l IH]; simpl; [constructor|]. intros [Hx Hl]%Forall_app. auto. Qed.

Lemma expr_children_ind (P : Expr → Prop) :
  (∀ e, Forall P (children e) → P e) → ∀ e, P e.
Proof.
  intros H. fix IH 1. intros [kind span]. apply H.
  destruct kind as [m o|o|l|p|items|callee args|o n|u o|b lhs rhs|value arms|block]; cbn [children ex_kind].
  - repeat constructor. apply IH.
  - repeat constructor. apply IH.
  - constructor.
  - constructor.
  - induction items as [|e items IHl]; constructor; [apply IH|exact IHl].
  - constructor; [apply IH|]. induction args as [|[n e s] args IHl]; constructor; [apply IH|exact IHl].
  - repeat constructor. apply IH.
  - repeat constructor. apply IH.
  - repeat constructor; apply IH.
  - constructor; [apply IH|]. apply Forall_flat_map.
    induction arms as [|[p g e s] arms IHl]; constructor; [|exact IHl].
    destruct g as [g|]; cbn; repeat constructor; apply IH.
  - destruct block as [sts s]. cbn. apply Forall_flat_map.
    induction sts as [|[k s'] sts IHl]; constructor; [|exact IHl].
    destruct k as [n ty e|[e|]|e]; cbn; repeat constructor; apply IH.
Qed.

(** ** Checks at every expression *)

Fixpoint every (p : Expr → bool) (e : Expr) : bool :=
  p e &&
  match e with
  | Ex kind _ =>
      match kind with
      | EBorrow _ o | EAwait o | EUnary _ o | EField o _ => every p o
      | ELiteral _ | EPath _ => true
      | EArray items => forallb (every p) items
      | ECall callee arguments => every p callee && forallb (λ x, match x with mkArgument _ v _ => every p v end) arguments
      | EBinary _ lhs rhs => every p lhs && every p rhs
      | EMatch value arms =>
          every p value &&
          forallb (λ arm, match arm with
                          | mkMatchArm _ guard body _ => match guard with Some g => every p g | None => true end && every p body
                          end) arms
      | EBlock (mkBody sts _) =>
          forallb (λ s, match s with
                        | mkStatement kind _ =>
                            match kind with
                            | SLet _ _ v | SExpression v => every p v
                            | SReturn (Some v) => every p v
                            | SReturn None => true
                            end
                        end) sts
      end
  end.

Lemma forallb_flat_map {A B} (p : B → bool) (g : A → list B) l :
  forallb p (flat_map g l) = forallb (λ x, forallb p (g x)) l.
Proof. induction l as [|x l IH]; simpl; [done|]. by rewrite forallb_app, IH. Qed.

Lemma forallb_eq {A} (p q : A → bool) l : (∀ x, p x = q x) → forallb p l = forallb q l.
Proof. intros H. induction l as [|x l IH]; simpl; [done|]. by rewrite H, IH. Qed.

Lemma every_children p e : every p e = p e && forallb (every p) (children e).
Proof.
  destruct e as [kind span]. unfold every at 1. fold every. f_equal. destruct kind; simpl; rewrite ?andb_true_r; try done.
  - f_equal. induction arguments as [|[n v s] l IH]; simpl; [done|]. by rewrite IH.
  - f_equal. rewrite forallb_flat_map. apply forallb_eq. intros [q [g|] body s]; simpl; by rewrite ?andb_true_r.
  - destruct block as [sts s]. unfold children. simpl. rewrite forallb_flat_map. apply forallb_eq.
    intros [[n ty v|[v|]|v] s']; simpl; by rewrite ?andb_true_r.
Qed.
