(* ===== verification/Async.v ===== *)
(** * Async state machines: lowering and execution

    [build_machine] and [lower_async_state_machines] of
    crates/syllog-compiler/src/async_lower.rs, and the task runner of
    crates/syllog-runtime/src/task.rs.  [expected_run] is the specification of
    the runner on a lowered function: the lifecycle events a task with a given
    number of awaits shows under each scheduler intervention. *)

From stdpp Require Import base gmap list strings numbers sorting.
From S2P Require Import Prelude Ir Hir.
Open Scope N_scope.

(** ** Lowering *)

Inductive AsyncLowerError :=
| Verification (errors : list AsyncVerificationError)
| BorrowAcrossAwait (function : DefId) (locals : list DefId).

Fixpoint contains_borrow (ty : ResolvedType) : bool :=
  match ty with
  | RtPrimitive PrimStr => true
  | RtOption inner | RtArray inner => contains_borrow inner
  | RtResult ok error => contains_borrow ok || contains_borrow error
  | RtTuple items => existsb contains_borrow items
  | RtFunction parameters res => existsb contains_borrow parameters || contains_borrow res
  | _ => false
  end.

Definition is_await (e : TypedExpr) : bool :=
  match expr_kind e with HAwait _ => true | _ => false end.

Definition count_expression_awaits (e : TypedExpr) (count : N) : N :=
  foldl (λ count e, if is_await e then u32_saturating_add count 1 else count) count (walk e).

Definition count_statement_awaits (s : HirStatement) (count : N) : N :=
  match s with
  | HLet _ _ _ value | HExpression value => count_expression_awaits value count
  | HReturn (Some value) => count_expression_awaits value count
  | HReturn None => count
  end.

(** The two states of one await point. *)
Definition await_states (awaits complete_id cancel_id await_index : N) : list AsyncState :=
  let suspend := 1 + await_index * 2 in
  let resume := suspend + 1 in
  let next := if bool_decide (await_index + 1 = awaits) then complete_id else suspend + 2 in
  [{| as_id := suspend; transition := TrSuspend await_index resume cancel_id |};
   {| as_id := resume; transition := TrResume next cancel_id |}].

(** [None] is the overflow panic of the unchecked [u32] additions. *)
Definition build_machine (function : DefId) (awaits : N) (live_locals : list DefId)
    : option AsyncStateMachine :=
  let complete_id := 1 + u32_saturating_mul awaits 2 in
  let cancel_id := complete_id + 1 in
  if bool_decide (u32_max < cancel_id) then None
  else Some {|
    am_function := function;
    parent_scope_required := true;
    live_locals := live_locals;
    states :=
      [{| as_id := 0; transition := TrStart (if bool_decide (awaits = 0) then complete_id else 1) |}]
      ++ flat_map (await_states awaits complete_id cancel_id) (indices awaits)
      ++ [{| as_id := complete_id; transition := TrComplete |};
          {| as_id := cancel_id; transition := TrCancel live_locals |}]
  |}.

(** Parameters and top-level bindings of a function, and those with borrowed types. *)
Definition function_locals (f : HirFunction) : list DefId :=
  ((λ p, map_id (hp_id p)) <$> hf_parameters f) ++
  flat_map (λ s, match s with HLet definition _ _ _ => [map_id definition] | _ => [] end)
    (block_statements (hf_body f)).

Definition function_borrowed (f : HirFunction) : list DefId :=
  ((λ p, map_id (hp_id p)) <$> List.filter (λ p, contains_borrow (hp_ty p)) (hf_parameters f)) ++
  flat_map (λ s, match s with
                 | HLet definition _ ty _ => if contains_borrow ty then [map_id definition] else []
                 | _ => []
                 end) (block_statements (hf_body f)).

Definition function_awaits (f : HirFunction) : N :=
  foldl (λ count s, count_statement_awaits s count) 0 (block_statements (hf_body f)).

(** One definition: nothing for one that is not an async function; [None] is a panic. *)
Definition lower_async_definition (d : HirDefinition)
    : option (result (list AsyncStateMachine) AsyncLowerError) :=
  match hd_kind d with
  | KindFunction f =>
      if asynchronous f then
        let awaits := function_awaits f in
        let borrowed := function_borrowed f in
        if bool_decide (0 < awaits) && negb (bool_decide (borrowed = []))
        then Some (Err (BorrowAcrossAwait (map_id (hd_id d)) borrowed))
        else
          machine ← build_machine (map_id (hd_id d)) awaits (sort_dedup (function_locals f));
          match verify_async_machine machine with
          | Ok _ => Some (Ok [machine])
          | Err errors => Some (Err (Verification errors))
          end
      else Some (Ok [])
  | _ => Some (Ok [])
  end.

Fixpoint lower_async_definitions (ds : list HirDefinition)
    : option (result (list AsyncStateMachine) AsyncLowerError) :=
  match ds with
  | [] => Some (Ok [])
  | d :: ds =>
      r ← lower_async_definition d;
      match r with
      | Err e => Some (Err e)
      | Ok machines =>
          rest ← lower_async_definitions ds;
          match rest with
          | Err e => Some (Err e)
          | Ok more => Some (Ok (machines ++ more))
          end
      end
  end.

Definition lower_async_state_machines (program : HirProgram)
    : option (result (list AsyncStateMachine) AsyncLowerError) :=
  lower_async_definitions (program_definitions program).

(** ** The task runner *)

Inductive TaskControl :=
| ControlComplete
| ControlCancelAt (await_index : N)
| ControlPanicAt (await_index : N).

#[export] Instance TaskControl_eq_dec : EqDecision TaskControl.
Proof. solve_decision. Defined.

Inductive TaskEvent :=
| Started (parent : N)
| Suspended (await_index : N)
| Woken (await_index : N)
| Resumed (await_index : N)
| Cancelled
| EventPanicked
| Dropped (locals : list DefId)
| Completed.

Inductive TaskFailure :=
| InvalidMachine (errors : list AsyncVerificationError)
| InvalidRuntimeState (state : AsyncStateId)
| FailurePanicked (events : list TaskEvent).

Inductive Step :=
| Pending (await_index : N) (resume : AsyncStateId)
| StepComplete.

Record Runner := {
  runner_machine : AsyncStateMachine;
  runner_state : AsyncStateId;
  control : TaskControl;
  last_await : option N;
  events : list TaskEvent;
  panicked : bool
}.

(** Pushes events and enters a state. *)
Definition enter (r : Runner) (pushed : list TaskEvent) (state : AsyncStateId) : Runner :=
  {| runner_machine := runner_machine r; runner_state := state; control := control r;
     last_await := last_await r; events := events r ++ pushed; panicked := panicked r |}.

Definition set_panicked (r : Runner) : Runner :=
  {| runner_machine := runner_machine r; runner_state := runner_state r; control := control r;
     last_await := last_await r; events := events r; panicked := true |}.

Definition runner_new (machine : AsyncStateMachine) (parent : N) (control : TaskControl)
    : result Runner TaskFailure :=
  match verify_async_machine machine with
  | Err errors => Err (InvalidMachine errors)
  | Ok _ => Ok {| runner_machine := machine; runner_state := 0; control := control;
                  last_await := None; events := [Started parent]; panicked := false |}
  end.

(** One iteration of the loop of [advance]: keep going, or return. *)
Inductive advance_result :=
| Continue (r : Runner)
| Return (r : Runner) (s : Step)
| Fail (e : TaskFailure).

Definition advance_once (r : Runner) : advance_result :=
  match states (runner_machine r) !! N.to_nat (runner_state r) with
  | None => Fail (InvalidRuntimeState (runner_state r))
  | Some state =>
      match transition state with
      | TrStart next => Continue (enter r [] next)
      | TrSuspend await_index resume cancel =>
          if bool_decide (control r = ControlCancelAt await_index)
          then Continue (enter r [Suspended await_index; Cancelled] cancel)
          else Return (enter r [Suspended await_index] (runner_state r)) (Pending await_index resume)
      | TrResume next panic =>
          match last_await r with
          | None => Fail (InvalidRuntimeState (runner_state r))
          | Some await_index =>
              if bool_decide (control r = ControlPanicAt await_index)
              then Continue (set_panicked (enter r [Resumed await_index; EventPanicked] panic))
              else Continue (enter r [Resumed await_index] next)
          end
      | TrComplete => Return (enter r [Completed] (runner_state r)) StepComplete
      | TrCancel drop_locals =>
          let r := enter r [Dropped drop_locals] (runner_state r) in
          if panicked r then Fail (FailurePanicked (events r)) else Return r StepComplete
      end
  end.

Definition wake (r : Runner) (await_index : N) (resume : AsyncStateId) : Runner :=
  {| runner_machine := runner_machine r; runner_state := resume; control := control r;
     last_await := Some await_index; events := events r ++ [Woken await_index];
     panicked := panicked r |}.

(** The loops of [advance] and [run_deterministic_task] as one: [None] is an
    exhausted step budget. *)
Fixpoint drive (fuel : nat) (r : Runner) : option (result (list TaskEvent) TaskFailure) :=
  match fuel with
  | O => None
  | S fuel =>
      match advance_once r with
      | Continue r => drive fuel r
      | Return r (Pending await_index resume) => drive fuel (wake r await_index resume)
      | Return r StepComplete => Some (Ok (events r))
      | Fail e => Some (Err e)
      end
  end.

Definition run_deterministic_task (fuel : nat) (machine : AsyncStateMachine) (parent : N)
    (control : TaskControl) : option (result (list TaskEvent) TaskFailure) :=
  match runner_new machine parent control with
  | Err e => Some (Err e)
  | Ok r => drive fuel r
  end.

(** ** Specification of a run *)

(** The events of await points [0 .. n-1] passed normally. *)
Definition passed (n : N) : list TaskEvent :=
  flat_map (λ i, [Suspended i; Woken i; Resumed i]) (indices n).

Definition expected_run (awaits : N) (locals : list DefId) (parent : N) (control : TaskControl)
    : result (list TaskEvent) TaskFailure :=
  let complete := Ok (Started parent :: passed awaits ++ [Completed]) in
  match control with
  | ControlComplete => complete
  | ControlCancelAt k =>
      if bool_decide (k < awaits)
      then Ok (Started parent :: passed k ++ [Suspended k; Cancelled; Dropped locals])
      else complete
  | ControlPanicAt k =>
      if bool_decide (k < awaits)
      then Err (FailurePanicked
             (Started parent :: passed (k + 1) ++ [EventPanicked; Dropped locals]))
      else complete
  end.
