(* ===== verification/AsyncTheorems.v ===== *)
(** * Correctness of async lowering and of the task runner *)

From stdpp Require Import base gmap list strings numbers sorting.
From S2P Require Import Prelude Ir Hir Async.
Open Scope N_scope.

(** ** What the machine verifier accepts *)

Record async_wf (m : AsyncStateMachine) : Prop := {
  aw_nonempty : states m ≠ [];
  aw_ids i s : states m !! i = Some s → as_id s = u32_of_index i;
  aw_scope : parent_scope_required m = true;
  aw_targets s t : s ∈ states m → t ∈ transition_targets (transition s) →
    (N.to_nat t < length (states m))%nat;
  aw_complete : length (List.filter is_complete (states m)) = 1%nat;
  aw_cancel : length (List.filter is_cancel (states m)) = 1%nat
}.

Lemma existsb_imap_false {A} (g : nat → A → bool) (l : list A) :
  existsb id (imap g l) = false ↔ ∀ i x, l !! i = Some x → g i x = false.
Proof.
  revert g. induction l as [|x l IH]; intros g; simpl; [done|].
  rewrite orb_false_iff, IH. split.
  - intros [Hx Hl] [|i] y Hy; simplify_eq/=; [done|by apply (Hl i)].
  - intros H. split; [by apply (H 0%nat)|]. intros i y Hy. by apply (H (S i)).
Qed.

Lemma invalid_state_table_false m :
  invalid_state_table m = false ↔
  states m ≠ [] ∧ ∀ i s, states m !! i = Some s → as_id s = u32_of_index i.
Proof.
  unfold invalid_state_table. destruct (states m) as [|s0 ss] eqn:E; [naive_solver|].
  rewrite existsb_imap_false. split.
  - intros H. split; [done|]. intros i s Hs. specialize (H i s Hs).
    apply negb_false_iff, bool_decide_eq_true in H. done.
  - intros [_ H] i s Hs. apply negb_false_iff, bool_decide_eq_true. by apply H.
Qed.

Lemma verify_async_ok m : verify_async_machine m = Ok tt ↔ async_wf m.
Proof.
  unfold verify_async_machine, async_errors.
  rewrite errors_result_ok, !app_nil, concat_fmap_nil. split.
  - intros (Ht&Hs&Hg&Hc).
    destruct (invalid_state_table m) eqn:E; [done|]. apply invalid_state_table_false in E as [? ?].
    destruct (parent_scope_required m) eqn:E2; [|done].
    destruct (_ && _) eqn:E3; [|done]. apply andb_true_iff in E3.
    rewrite !bool_decide_eq_true in E3. destruct E3. split; try done.
    intros s t Hs' Ht'. specialize (Hg s Hs'). rewrite concat_fmap_nil in Hg. specialize (Hg t Ht').
    case_bool_decide; [done|]. lia.
  - intros [Hn Hi Hs Ht Hc Hk]. split_and!.
    + by rewrite (proj2 (invalid_state_table_false m)).
    + by rewrite Hs.
    + intros s Hin. apply concat_fmap_nil. intros t Htt. specialize (Ht s t Hin Htt).
      by rewrite bool_decide_eq_false_2 by lia.
    + by rewrite Hc, Hk.
Qed.

(** ** The table built for a function *)

Lemma flat_map_pairs {A B} (a b : A → B) (l : list A) k x :
  l !! k = Some x →
  flat_map (λ i, [a i; b i]) l !! (2 * k)%nat = Some (a x) ∧
  flat_map (λ i, [a i; b i]) l !! (2 * k + 1)%nat = Some (b x).
Proof.
  revert k. induction l as [|y l IH]; intros [|k] Hk; simplify_eq/=; [done|].
  replace (k + S (k + 0))%nat with (S (2 * k)) by lia. simpl. apply IH in Hk as [H1 H2].
  split; [by replace (k + (k + 0))%nat with (2 * k)%nat by lia|].
  by replace (k + (k + 0) + 1)%nat with (2 * k + 1)%nat by lia.
Qed.

Lemma length_flat_map_pairs {A B} (a b : A → B) (l : list A) :
  length (flat_map (λ i, [a i; b i]) l) = (2 * length l)%nat.
Proof. induction l; simpl; lia. Qed.

Section built.
Context (function : DefId) (awaits : N) (locals : list DefId) (m : AsyncStateMachine).
Context (m_built : build_machine function awaits locals = Some m).

Abbreviation complete_id := (1 + 2 * awaits).
Abbreviation cancel_id := (2 + 2 * awaits).

Definition suspend_state (k : N) : AsyncState :=
  {| as_id := 1 + 2 * k; transition := TrSuspend k (2 + 2 * k) cancel_id |}.
Definition resume_state (k : N) : AsyncState :=
  {| as_id := 2 + 2 * k; transition := TrResume (3 + 2 * k) cancel_id |}.

Lemma built_fits : cancel_id ≤ u32_max.
Proof.
  revert m_built. unfold build_machine, u32_saturating_mul. case_bool_decide; [done|].
  unfold u32_max in *. lia.
Qed.

Lemma built_states :
  states m =
    {| as_id := 0; transition := TrStart 1 |}
    :: flat_map (λ k, [suspend_state k; resume_state k]) (indices awaits)
    ++ [{| as_id := complete_id; transition := TrComplete |};
        {| as_id := cancel_id; transition := TrCancel locals |}].
Proof.
  pose proof built_fits as Hfit. revert m_built. unfold build_machine.
  replace (u32_saturating_mul awaits 2) with (2 * awaits) by (unfold u32_saturating_mul; lia).
  replace (1 + 2 * awaits + 1) with cancel_id by lia.
  case_bool_decide; [done|]. intros [= <-]. cbn [states app]. f_equal.
  { case_bool_decide; [|done]. do 2 f_equal. lia. }
  f_equal.
  unfold indices. assert (∀ x, x ∈ N.of_nat <$> seq 0 (N.to_nat awaits) → x < awaits) as Hlt.
  { intros x (i&->&Hi%elem_of_seq)%list_elem_of_fmap. lia. }
  induction (N.of_nat <$> seq 0 (N.to_nat awaits)) as [|k l IH]; [done|].
  change (await_states awaits complete_id cancel_id k ++
          flat_map (await_states awaits complete_id cancel_id) l =
          [suspend_state k; resume_state k] ++
          flat_map (λ k, [suspend_state k; resume_state k]) l).
  f_equal; [|apply IH; intros; apply Hlt; by constructor].
  assert (k < awaits) by (apply Hlt; constructor).
  unfold await_states, suspend_state, resume_state.
  replace (1 + k * 2) with (1 + 2 * k) by lia. replace (1 + 2 * k + 1) with (2 + 2 * k) by lia.
  replace (if bool_decide (k + 1 = awaits) then complete_id else 1 + 2 * k + 2)
    with (3 + 2 * k) by (case_bool_decide; lia).
  done.
Qed.

Lemma built_length : length (states m) = N.to_nat (3 + 2 * awaits).
Proof.
  rewrite built_states. simpl. rewrite length_app, length_flat_map_pairs, indices_length.
  simpl. lia.
Qed.

Lemma built_start : states m !! 0%nat = Some {| as_id := 0; transition := TrStart 1 |}.
Proof. by rewrite built_states. Qed.

Lemma built_await k : k < awaits →
  states m !! N.to_nat (1 + 2 * k) = Some (suspend_state k) ∧
  states m !! N.to_nat (2 + 2 * k) = Some (resume_state k).
Proof.
  intros Hk. rewrite built_states.
  assert (indices awaits !! N.to_nat k = Some k) as Hi by (apply indices_lookup; lia).
  destruct (flat_map_pairs suspend_state resume_state _ _ _ Hi) as [H1 H2].
  replace (N.to_nat (1 + 2 * k)) with (S (2 * N.to_nat k)) by lia.
  replace (N.to_nat (2 + 2 * k)) with (S (2 * N.to_nat k + 1)) by lia.
  rewrite !lookup_cons. split; apply lookup_app_l_Some; assumption.
Qed.

Lemma built_terminal :
  states m !! N.to_nat complete_id = Some {| as_id := complete_id; transition := TrComplete |} ∧
  states m !! N.to_nat cancel_id = Some {| as_id := cancel_id; transition := TrCancel locals |}.
Proof.
  rewrite built_states.
  replace (N.to_nat complete_id) with (S (2 * N.to_nat awaits)) by lia.
  replace (N.to_nat cancel_id) with (S (2 * N.to_nat awaits + 1)) by lia. simpl.
  split; (rewrite lookup_app_r; rewrite length_flat_map_pairs, indices_length; [|lia]).
  - by replace (_ - _)%nat with 0%nat by lia.
  - by replace (_ - _)%nat with 1%nat by lia.
Qed.

(** Every entry of the table is one of these. *)
Lemma built_cases i s :
  states m !! i = Some s →
  (i = 0%nat ∧ s = {| as_id := 0; transition := TrStart 1 |}) ∨
  (∃ k, k < awaits ∧ i = N.to_nat (1 + 2 * k) ∧ s = suspend_state k) ∨
  (∃ k, k < awaits ∧ i = N.to_nat (2 + 2 * k) ∧ s = resume_state k) ∨
  (i = N.to_nat complete_id ∧ s = {| as_id := complete_id; transition := TrComplete |}) ∨
  (i = N.to_nat cancel_id ∧ s = {| as_id := cancel_id; transition := TrCancel locals |}).
Proof.
  intros Hs. pose proof (lookup_lt_Some _ _ _ Hs) as Hlt. rewrite built_length in Hlt.
  pose proof built_terminal as [Hc Hk].
  destruct (decide (i = 0%nat)) as [->|H0]; [left; rewrite built_start in Hs; naive_solver|].
  destruct (decide (i = N.to_nat complete_id)) as [->|H1]; [rewrite Hc in Hs; naive_solver|].
  destruct (decide (i = N.to_nat cancel_id)) as [->|H2]; [rewrite Hk in Hs; naive_solver|].
  right. set (k := N.of_nat ((i - 1) / 2)).
  assert (Hd : (i - 1 = 2 * ((i - 1) / 2) + (i - 1) mod 2)%nat) by (apply Nat.div_mod_eq).
  assert (Hm : ((i - 1) mod 2 < 2)%nat) by (apply Nat.mod_upper_bound; lia).
  assert (Hka : k < awaits) by lia. destruct (built_await k Hka) as [Hsu Hre].
  destruct ((i - 1) mod 2)%nat as [|[|]]; [left|right; left|lia]; exists k.
  - assert (i = N.to_nat (1 + 2 * k)) as Hi by lia. rewrite Hi in Hs. naive_solver.
  - assert (i = N.to_nat (2 + 2 * k)) as Hi by lia. rewrite Hi in Hs. naive_solver.
Qed.

Lemma filter_pairs_nil (P : AsyncState → bool) :
  (∀ k, P (suspend_state k) = false) → (∀ k, P (resume_state k) = false) →
  List.filter P (flat_map (λ k, [suspend_state k; resume_state k]) (indices awaits)) = [].
Proof.
  intros H1 H2. induction (indices awaits) as [|k l IH]; simpl; [done|]. by rewrite H1, H2.
Qed.

Lemma built_wf : async_wf m.
Proof.
  pose proof built_fits as Hfit. split.
  - by rewrite built_states.
  - intros i s Hs%built_cases. unfold u32_of_index.
    rewrite bool_decide_eq_true_2; destruct_or!; split_hyps; subst; simpl; lia.
  - revert m_built. unfold build_machine. case_bool_decide; [done|]. by intros [= <-].
  - intros s t [i Hs]%list_elem_of_lookup_1 Ht. rewrite built_length.
    apply built_cases in Hs as [[-> ->]|[(k&?&->&->)|[(k&?&->&->)|[[-> ->]|[-> ->]]]]];
      simpl in Ht; set_unfold in Ht; lia.
  - rewrite built_states. simpl. by rewrite List.filter_app, filter_pairs_nil.
  - rewrite built_states. simpl. by rewrite List.filter_app, filter_pairs_nil.
Qed.

(** ** Runs of a built machine *)

Context (parent : N) (c : TaskControl).

(** The runner about to enter await point [k] (or to complete). *)
Definition at_await (k : N) (last : option N) : Runner :=
  {| runner_machine := m; runner_state := 1 + 2 * k; control := c; last_await := last;
     events := Started parent :: passed k; panicked := false |}.

(** No intervention before await point [k]. *)
Definition undisturbed (k : N) : Prop :=
  match c with
  | ControlComplete => True
  | ControlCancelAt j | ControlPanicAt j => k ≤ j
  end.

Lemma passed_succ k : passed (k + 1) = passed k ++ [Suspended k; Woken k; Resumed k].
Proof. unfold passed. by rewrite indices_succ, flat_map_app. Qed.

(** An await point that is not disturbed takes two steps. *)
Lemma drive_pass fuel k last :
  k < awaits → c ≠ ControlCancelAt k → c ≠ ControlPanicAt k →
  drive (S (S fuel)) (at_await k last) = drive fuel (at_await (k + 1) (Some k)).
Proof.
  intros Hk Hc Hp. destruct (built_await k Hk) as [Hs Hr].
  cbn [drive]. unfold advance_once at 1. cbn [runner_machine runner_state at_await control].
  rewrite Hs. cbn [transition suspend_state]. rewrite bool_decide_eq_false_2 by done.
  unfold advance_once. cbn [wake enter runner_machine runner_state last_await at_await control].
  rewrite Hr. cbn [transition resume_state]. rewrite bool_decide_eq_false_2 by done.
  f_equal. unfold at_await, enter, wake. cbn. f_equal; [lia|].
  f_equal. rewrite passed_succ, <-!app_assoc. done.
Qed.

(** Cancellation: the suspension is recorded, then the locals are dropped once. *)
Lemma drive_cancel fuel k last :
  k < awaits → c = ControlCancelAt k →
  drive (S (S fuel)) (at_await k last) =
    Some (Ok (Started parent :: passed k ++ [Suspended k; Cancelled; Dropped locals])).
Proof.
  intros Hk Hc. destruct (built_await k Hk) as [Hs _]. destruct built_terminal as [_ Hcan].
  cbn [drive]. unfold advance_once at 1. cbn [runner_machine runner_state at_await control].
  rewrite Hs. cbn [transition suspend_state]. rewrite bool_decide_eq_true_2 by done.
  unfold advance_once. cbn [enter runner_machine runner_state at_await]. rewrite Hcan. cbn.
  by rewrite <-app_assoc.
Qed.

(** Panic after resuming: the locals are dropped once and the failure carries the events. *)
Lemma drive_panic fuel k last :
  k < awaits → c = ControlPanicAt k →
  drive (S (S (S fuel))) (at_await k last) =
    Some (Err (FailurePanicked (Started parent :: passed (k + 1) ++ [EventPanicked; Dropped locals]))).
Proof.
  intros Hk Hc. destruct (built_await k Hk) as [Hs Hr]. destruct built_terminal as [_ Hcan].
  cbn [drive]. unfold advance_once at 1. cbn [runner_machine runner_state at_await control].
  rewrite Hs. cbn [transition suspend_state]. rewrite bool_decide_eq_false_2 by (rewrite Hc; done).
  unfold advance_once at 1. cbn [wake enter runner_machine runner_state last_await at_await control].
  rewrite Hr. cbn [transition resume_state]. rewrite bool_decide_eq_true_2 by done.
  unfold advance_once. cbn [set_panicked enter runner_machine runner_state at_await wake].
  rewrite Hcan. cbn. by rewrite passed_succ, <-!app_assoc.
Qed.

Lemma drive_complete fuel last :
  drive (S fuel) (at_await awaits last) = Some (Ok (Started parent :: passed awaits ++ [Completed])).
Proof.
  destruct built_terminal as [Hcom _]. cbn [drive]. unfold advance_once.
  cbn [runner_machine runner_state at_await]. by rewrite Hcom.
Qed.

(** From any await point on, the run is the expected one. *)
Lemma drive_from fuel n k last :
  k + N.of_nat n = awaits → undisturbed k → (2 * n + 3 ≤ fuel)%nat →
  drive fuel (at_await k last) = Some (expected_run awaits locals parent c).
Proof.
  revert fuel k last. induction n as [|n IH]; intros fuel k last Hn Hu Hf.
  - replace k with awaits in * by lia. destruct fuel as [|fuel]; [lia|].
    rewrite drive_complete. unfold expected_run, undisturbed in *.
    destruct c; [done|..]; by rewrite bool_decide_eq_false_2 by lia.
  - destruct fuel as [|[|[|fuel]]]; [lia..|]. unfold undisturbed in Hu.
    destruct (decide (c = ControlCancelAt k)) as [Hc|Hc].
    { rewrite drive_cancel by (lia || done). rewrite Hc. unfold expected_run.
      by rewrite bool_decide_eq_true_2 by lia. }
    destruct (decide (c = ControlPanicAt k)) as [Hp|Hp].
    { rewrite drive_panic by (lia || done). rewrite Hp. unfold expected_run.
      by rewrite bool_decide_eq_true_2 by lia. }
    rewrite drive_pass by (lia || done). apply IH; [lia| |lia].
    unfold undisturbed. destruct c as [|j|j]; [done|..];
      assert (j ≠ k) by congruence; lia.
Qed.

Lemma built_run fuel :
  (2 * N.to_nat awaits + 4 ≤ fuel)%nat →
  run_deterministic_task fuel m parent c = Some (expected_run awaits locals parent c).
Proof.
  intros Hf. unfold run_deterministic_task, runner_new.
  rewrite (proj2 (verify_async_ok m) built_wf). destruct fuel as [|fuel]; [lia|].
  cbn [drive]. unfold advance_once. cbn [runner_machine runner_state].
  change (N.to_nat 0) with 0%nat. rewrite built_start. cbn [transition].
  apply (drive_from fuel (N.to_nat awaits) 0 None); [lia|unfold undisturbed; destruct c; lia || done|lia].
Qed.
End built.

(** ** Theorems *)

Definition two_locals : list DefId := [{| module := 0; index := 1 |}; {| module := 0; index := 2 |}].
Definition task_id : DefId := {| module := 0; index := 0 |}.

(** An async machine is accepted exactly when its state table is non-empty
    with contiguous identities, it requires a parent scope, every transition
    stays inside the table, and it has exactly one completion and one
    cancellation state. *)
Theorem verify_async_machine_exact m : verify_async_machine m = Ok tt ↔ async_wf m.
Proof. apply verify_async_ok. Qed.

(** C6: the lowering of a function with up to 2147483646 awaits neither
    overflows nor fails verification, and the runner executes it exactly as
    specified under every intervention: all awaits in source order when
    undisturbed; on cancellation or panic at an await, the awaits before it,
    then one drop of the live locals, and nothing after. *)
Theorem lowered_task_runs_as_specified function awaits locals parent c :
  2 + 2 * awaits ≤ u32_max →
  ∃ m, build_machine function awaits locals = Some m ∧ verify_async_machine m = Ok tt ∧
       ∀ fuel, (2 * N.to_nat awaits + 4 ≤ fuel)%nat →
         run_deterministic_task fuel m parent c = Some (expected_run awaits locals parent c).
Proof.
  intros Hfit. destruct (build_machine function awaits locals) as [m|] eqn:Hm.
  - exists m. split; [done|]. split; [by eapply verify_async_ok, built_wf|].
    intros fuel Hf. by eapply built_run.
  - exfalso. revert Hm. unfold build_machine, u32_saturating_mul. case_bool_decide; [|done]. lia.
Qed.

Lemma lowered_task_runs_as_specified_witness :
  ∃ m, build_machine task_id 2 two_locals = Some m ∧ verify_async_machine m = Ok tt ∧
       ∀ fuel, (2 * N.to_nat 2 + 4 ≤ fuel)%nat →
         run_deterministic_task fuel m 7 (ControlCancelAt 1) =
           Some (expected_run 2 two_locals 7 (ControlCancelAt 1)).
Proof. apply (lowered_task_runs_as_specified task_id 2 two_locals). vm_compute. discriminate. Defined.

(** A table whose start state points at itself. *)
Definition spinning_machine : AsyncStateMachine := {|
  am_function := task_id; parent_scope_required := true; live_locals := [];
  states := [{| as_id := 0; transition := TrStart 0 |};
             {| as_id := 1; transition := TrComplete |};
             {| as_id := 2; transition := TrCancel [] |}]
|}.

(** Verification alone does not make the runner end: a machine whose start
    state points at itself is accepted, and the runner spins on it forever
    without suspending. *)
Lemma verified_machine_may_spin :
  verify_async_machine spinning_machine = Ok tt ∧
  ∀ fuel parent c, run_deterministic_task fuel spinning_machine parent c = None.
Proof.
  split; [vm_compute; reflexivity|]. intros fuel parent c. unfold run_deterministic_task, runner_new.
  replace (verify_async_machine spinning_machine) with (@Ok unit (list AsyncVerificationError) tt)
    by (vm_compute; reflexivity).
  enough (∀ r, runner_machine r = spinning_machine → runner_state r = 0 → drive fuel r = None) as H
    by (by apply H).
  induction fuel as [|fuel IH]; intros r Hm Hs; [done|]. cbn [drive]. unfold advance_once.
  rewrite Hm, Hs. cbn. by apply IH.
Qed.

(** ** Lowering of whole programs *)

(** An async function whose lowered machine fits the identity space. *)
Definition awaits_fit (d : HirDefinition) : bool :=
  match as_function (hd_kind d) with
  | Some f => bool_decide (2 + 2 * function_awaits f ≤ u32_max)
  | None => true
  end.

(** Lowering never reports its own machines as invalid and never panics:
    for functions whose awaits fit the identity space it yields verified
    machines, one per async function in order, or reports a borrow held across
    an await. *)
Theorem lowering_yields_verified_machines p :
  Forall (λ d, awaits_fit d = true) (program_definitions p) →
  (∃ machines, lower_async_state_machines p = Some (Ok machines) ∧
     Forall (λ m, verify_async_machine m = Ok tt) machines ∧
     am_function <$> machines =
       hd_id <$> List.filter (λ d, match as_function (hd_kind d) with
                                  | Some f => asynchronous f | None => false end)
                  (program_definitions p)) ∨
  (∃ function locals, lower_async_state_machines p = Some (Err (BorrowAcrossAwait function locals))).
Proof.
  unfold lower_async_state_machines. induction (program_definitions p) as [|d ds IH]; intros Hall.
  { left. by exists []. }
  apply list.Forall_cons in Hall as [Hd Hds]. specialize (IH Hds).
  cbn [lower_async_definitions List.filter].
  assert ((∃ f ls, lower_async_definition d = Some (Err (BorrowAcrossAwait f ls))) ∨
    (∃ ms, lower_async_definition d = Some (Ok ms) ∧ Forall (λ m, verify_async_machine m = Ok tt) ms ∧
       am_function <$> ms = if match as_function (hd_kind d) with
                               | Some f => asynchronous f | None => false end
                            then [hd_id d] else [])) as [(f&ls&->)|(ms&->&Hms&Hid)].
  { unfold lower_async_definition, awaits_fit in *.
    destruct (hd_kind d) as [| |f| | | |]; simpl in *; try (right; by exists []).
    destruct (asynchronous f); [|right; by exists []]. destruct (_ && _); [left; eauto|right].
    apply bool_decide_eq_true in Hd.
    destruct (build_machine (map_id (hd_id d)) (function_awaits f) (sort_dedup (function_locals f)))
      as [m|] eqn:Hm.
    - simpl. rewrite (proj2 (verify_async_ok m) (built_wf _ _ _ _ Hm)). exists [m].
      split; [done|].
      split; [constructor; [by eapply verify_async_ok, built_wf|constructor]|].
      revert Hm. unfold build_machine. case_bool_decide; [done|]. intros [= <-]. simpl.
      by rewrite map_id_id.
    - exfalso. revert Hm. unfold build_machine, u32_saturating_mul. case_bool_decide; [|done]. lia. }
  { right. simpl. eauto. }
  simpl. destruct IH as [(machines&->&Hv&Hids)|(f&ls&->)]; simpl; [left|right; eauto].
  exists (ms ++ machines). split; [done|]. split; [by apply Forall_app|].
  rewrite fmap_app, Hid, Hids. destruct (as_function (hd_kind d)) as [g|]; [|done].
  by destruct (asynchronous g).
Qed.

(** An async function holding a string slice across its await. *)
Definition unit_expr (k : HirExprKind) : TypedExpr := mkExpr k RtUnit default_span.

Definition async_function (ty : ResolvedType) : HirDefinition := {|
  hd_id := task_id; hd_name := ""%string;
  hd_kind := KindFunction {|
    is_test := false; asynchronous := true; public := false; declared_effects := None;
    hf_parameters := [{| hp_id := {| module := 0; index := 1 |}; hp_name := ""%string;
                         hp_ty := ty; hp_span := default_span |}];
    hf_result := RtUnit;
    hf_body := mkBlock [HExpression (unit_expr (HAwait (unit_expr (HReference task_id))))] default_span
  |};
  hd_span := default_span
|}.

Definition async_program (ty : ResolvedType) : HirProgram := {|
  schema_version := 1; modules := [{| hm_module := 0; definitions := [async_function ty] |}];
  hir_entry := None
|}.

Lemma lowering_yields_verified_machines_witness :
  (∃ machines, lower_async_state_machines (async_program RtUnit) = Some (Ok machines) ∧
     Forall (λ m, verify_async_machine m = Ok tt) machines ∧
     am_function <$> machines =
       hd_id <$> List.filter (λ d, match as_function (hd_kind d) with
                                  | Some f => asynchronous f | None => false end)
                  (program_definitions (async_program RtUnit))) ∨
  (∃ function locals, lower_async_state_machines (async_program RtUnit) =
     Some (Err (BorrowAcrossAwait function locals))).
Proof. apply (lowering_yields_verified_machines (async_program RtUnit)). repeat constructor. Defined.

(** What the checks around async functions let through: the borrow check
    refuses a function that holds a string slice across an await and lowers one
    that holds a mutable reference, with the reference among the live locals of
    its frame; and the verifier accepts a machine whose start state points at
    itself, on which the runner never ends. *)
Theorem async_checks_are_partial :
  (∃ function locals, lower_async_state_machines (async_program (RtPrimitive PrimStr)) =
     Some (Err (BorrowAcrossAwait function locals))) ∧
  (∃ m, lower_async_state_machines (async_program (RtReference None true RtUnit)) = Some (Ok [m]) ∧
     live_locals m = [{| module := 0; index := 1 |}]) ∧
  verify_async_machine spinning_machine = Ok tt ∧
  (∀ fuel parent c, run_deterministic_task fuel spinning_machine parent c = None).
Proof.
  split_and!; [eexists _, _|eexists| |]; [vm_compute; reflexivity|vm_compute; split; reflexivity|..];
    apply verified_machine_may_spin.
Qed.
