(* ===== verification/MirLower.v ===== *)
(** * HIR to MIR lowering (crates/syllog-compiler/src/mir_lower.rs)

    The function builder is a state monad over [Builder]; [self.index],
    [self.definition] and [self.function] are arguments.  The drop-insertion
    pass runs the reachability search and the must-analysis of [Cfg] and
    [Dataflow], whose code the source repeats under the names [mir_reachable],
    [mir_successors] and [mir_transfer].  *)

From stdpp Require Import base gmap list strings numbers sorting.
From S2P Require Import Prelude Ir Cfg Dataflow Verify Hir Diagnostics.
Open Scope string_scope.
Open Scope N_scope.

(** ** Diagnostics *)

Definition mir_diagnostic (span : Span) (code : string) (message : DiagnosticMessage) : Diagnostic :=
  {| code := code; severity := SeverityError; message := message; file := "<mir>";
     diagnostic_span := span |}.

(** ** Drop insertion *)

Definition mir_type_needs_drop (ty : MirType) : bool :=
  match ty with
  | TyString | TyAggregate _ => true
  | TyReference mutable _ => mutable
  | _ => false
  end.

(** The locals a block's terminator obliges it to drop, in the source's order:
    all owned ones at a return, those the target does not own at a goto. *)
Definition drop_candidates (incoming : list (option (gset LocalId))) (b : BasicBlock)
    (state : gset LocalId) : gset LocalId :=
  match terminator b with
  | Some TmReturn => state
  | Some (TmGoto target) =>
      match mjoin (incoming !! N.to_nat target) with
      | Some next => state ∖ next
      | None => ∅
      end
  | _ => ∅
  end.

(** [candidates.into_iter().rev()], those that need a drop, as statements. *)
Definition drop_statements (f : MirFunction) (candidates : gset LocalId) : list Statement :=
  (λ local, StDrop (PLocal local)) <$>
    List.filter (λ local, negb (bool_decide (local = 0)) &&
                          match local_type f local with
                          | Some ty => mir_type_needs_drop ty
                          | None => false
                          end)
      (reverse (merge_sort N.le (elements candidates))).

Definition insert_block_drops (f : MirFunction) (incoming : list (option (gset LocalId)))
    (index : nat) (b : BasicBlock) : BasicBlock :=
  match mjoin (incoming !! index) with
  | None => b
  | Some state =>
      let state := foldl transfer_statement state (statements b) in
      {| statements := statements b ++ drop_statements f (drop_candidates incoming b state);
         terminator := terminator b |}
  end.

Definition insert_function_drops (f : MirFunction) : MirFunction :=
  match fn_blocks f with
  | [] => f
  | _ =>
      let incoming := must_analysis f transfer_block (λ _, true) in
      {| fn_id := fn_id f; parameter_count := parameter_count f; return_type := return_type f;
         fn_locals := fn_locals f;
         fn_blocks := imap (insert_block_drops f incoming) (fn_blocks f) |}
  end.

Definition insert_drops (p : MirProgram) : MirProgram :=
  {| functions := insert_function_drops <$> functions p; entry := entry p |}.

(** ** The program index *)

Record ProgramIndex := {
  types : gmap string DefId;
  variants : gmap DefId (DefId * N)
}.

Definition mir_def_id (id : DefId) : DefId := map_id id.

(** [BTreeMap] by identity: the last definition with an identity wins, and
    [values()] visits them in identity order. *)
Definition indexed_definitions (p : HirProgram) : list HirDefinition :=
  (snd <$> merge_sort (λ a b, def_id_le a.1 b.1)
    (map_to_list (foldl (λ m d, <[hd_id d := d]> m) (∅ : gmap DefId HirDefinition)
       (program_definitions p)))).

Definition index_types (m : gmap string DefId) (d : HirDefinition) : gmap string DefId :=
  match hd_kind d with
  | KindStruct _ | KindEnum _ | KindState _ => <[hd_name d := mir_def_id (hd_id d)]> m
  | _ => m
  end.

Definition index_variants (m : gmap DefId (DefId * N)) (d : HirDefinition) : gmap DefId (DefId * N) :=
  match hd_kind d with
  | KindEnum declared =>
      foldl (λ m '(discriminant, variant),
               <[hv_id variant := (mir_def_id (hd_id d), N.min (N.of_nat discriminant) u64_max)]> m)
        m (imap pair declared)
  | _ => m
  end.

Definition index_new (p : HirProgram) : ProgramIndex :=
  {| types := foldl index_types ∅ (indexed_definitions p);
     variants := foldl index_variants ∅ (indexed_definitions p) |}.

Fixpoint lower_type (index : ProgramIndex) (ty : ResolvedType) : option MirType :=
  match ty with
  | RtUnit => Some TyUnit
  | RtPrimitive PrimBool => Some TyBool
  | RtPrimitive (PrimString | PrimStr) => Some TyString
  | RtPrimitive (PrimSigned width) => if bool_decide (width = "I64") then Some TyI64 else None
  | RtPrimitive (PrimUnsigned width) => if bool_decide (width = "U64") then Some TyU64 else None
  | RtReference _ mutable inner => TyReference mutable <$> lower_type index inner
  | RtStruct name | RtEnum name | RtState name => TyAggregate <$> types index !! name
  | _ => None
  end.

Definition lower_binary (operator : BinaryOperator) : option BinaryOp :=
  match operator with
  | OpAdd => Some BAdd
  | OpSubtract => Some BSubtract
  | OpMultiply => Some BMultiply
  | OpDivide => Some BDivide
  | OpEqual => Some BEqual
  | OpLess => Some BLess
  | OpAnd => Some BAnd
  | OpOr => Some BOr
  | _ => None
  end.

(** ** The function builder *)

Record Builder := {
  b_locals : list MirType;
  b_blocks : list BasicBlock;
  current : BlockId;
  bindings : gmap DefId LocalId;
  diagnostics : list Diagnostic
}.

Definition builder_new : Builder :=
  {| b_locals := []; b_blocks := [{| statements := []; terminator := None |}]; current := 0;
     bindings := ∅; diagnostics := [] |}.

Definition build (A : Type) : Type := Builder → A * Builder.

#[export] Instance build_ret : MRet build := λ A a s, (a, s).
#[export] Instance build_bind : MBind build := λ A B k m s, let '(a, s) := m s in k a s.

Definition gets {A} (g : Builder → A) : build A := λ s, (g s, s).

Definition error (span : Span) (message : DiagnosticMessage) : build unit := λ s,
  (tt, {| b_locals := b_locals s; b_blocks := b_blocks s; current := current s;
          bindings := bindings s;
          diagnostics := diagnostics s ++ [mir_diagnostic span "SYL3101" message] |}).

Definition new_local (ty : MirType) : build LocalId := λ s,
  (u32_of_index (length (b_locals s)),
   {| b_locals := b_locals s ++ [ty]; b_blocks := b_blocks s; current := current s;
      bindings := bindings s; diagnostics := diagnostics s |}).

Definition new_block : build BlockId := λ s,
  (u32_of_index (length (b_blocks s)),
   {| b_locals := b_locals s; b_blocks := b_blocks s ++ [{| statements := []; terminator := None |}];
      current := current s; bindings := bindings s; diagnostics := diagnostics s |}).

(** Changes the current block. *)
Definition modify_current (g : BasicBlock → BasicBlock) : build unit := λ s,
  (tt, {| b_locals := b_locals s; b_blocks := alter g (N.to_nat (current s)) (b_blocks s);
          current := current s; bindings := bindings s; diagnostics := diagnostics s |}).

Definition assign (destination : Place) (value : Rvalue) : build unit :=
  modify_current (λ b, {| statements := statements b ++ [StAssign destination value];
                          terminator := terminator b |}).

Definition terminate (t : Terminator) : build unit :=
  modify_current (λ b, {| statements := statements b; terminator := Some t |}).

Definition set_current (block : BlockId) : build unit := λ s,
  (tt, {| b_locals := b_locals s; b_blocks := b_blocks s; current := block;
          bindings := bindings s; diagnostics := diagnostics s |}).

Definition bind_local (definition : DefId) (local : LocalId) : build unit := λ s,
  (tt, {| b_locals := b_locals s; b_blocks := b_blocks s; current := current s;
          bindings := <[definition := local]> (bindings s); diagnostics := diagnostics s |}).

(** [self.current_block().terminator.is_some()] *)
Definition is_terminated (s : Builder) : bool :=
  match b_blocks s !! N.to_nat (current s) with
  | Some b => match terminator b with Some _ => true | None => false end
  | None => false
  end.

Definition builder_operand_type (s : Builder) (o : Operand) : option MirType :=
  match o with
  | OpConstant c => Some (constant_ty c)
  | OpCopy local | OpMove local => b_locals s !! N.to_nat local
  end.

Definition unit_operand : Operand := OpConstant CUnit.

(** Reports an expression outside the executable subset. *)
Definition unsupported (span : Span) (text : string) : build Operand :=
  error span (Text text);; mret unit_operand.

(** ** Expressions *)

Section lowering.
Context (index : ProgramIndex).

Definition required_type (ty : ResolvedType) (span : Span) : build MirType :=
  match lower_type index ty with
  | Some ty => mret ty
  | None => error span (TypeNotExecutable ty);; mret TyUnit
  end.

Definition lower_literal (literal : Literal) (span : Span) (expected : option MirType)
    : build Operand :=
  match literal with
  | LitString value => mret (OpConstant (CString value))
  | LitBoolean value => mret (OpConstant (CBool value))
  | LitInteger value =>
      mret (OpConstant
        (if bool_decide (expected = Some TyI64) then CI64 value
         else if bool_decide (0 ≤ value)%Z then CU64 (Z.to_N value) else CI64 value))
  | LitFloat _ | LitIdentifier _ =>
      unsupported span "literal is not in the executable MIR subset"
  end.

Definition lower_reference (definition : DefId) (span : Span) : build Operand :=
  local ← gets (λ s, bindings s !! definition);
  match local with
  | Some local =>
      ty ← gets (λ s, b_locals s !! N.to_nat local);
      mret (match ty with
            | Some ty => if mir_type_is_copy ty then OpCopy local else OpMove local
            | None => OpMove local
            end)
  | None =>
      match variants index !! definition with
      | Some (aggregate, discriminant) =>
          local ← new_local (TyAggregate aggregate);
          assign (PLocal local) (RvAggregate aggregate discriminant []);;
          mret (OpMove local)
      | None => unsupported span "value reference is not executable in MIR"
      end
  end.

Definition pattern_discriminant (pattern : HirPattern) : option N :=
  match pattern with
  | PatVariant definition [] => snd <$> variants index !! definition
  | PatLiteral (LitBoolean value) => Some (if value then 1 else 0)
  | _ => None
  end.

(** The result type of a call or match: the expected one, else the expression's. *)
Definition result_type (expected : option MirType) (ty : ResolvedType) : MirType :=
  match expected with
  | Some ty => ty
  | None => default TyUnit (lower_type index ty)
  end.

Definition is_comparison (operator : BinaryOperator) : bool :=
  match operator with
  | OpEqual | OpNotEqual | OpLess | OpLessEqual | OpGreater | OpGreaterEqual => true
  | _ => false
  end.

(** [arms.iter().map(|_| self.new_block()).collect()] *)
Fixpoint new_blocks (n : nat) : build (list BlockId) :=
  match n with
  | O => mret []
  | S n => block ← new_block; blocks ← new_blocks n; mret (block :: blocks)
  end.

(** Switch targets of all arms but the last. *)
Fixpoint arm_targets (arms : list HirMatchArm) (blocks : list BlockId)
    : build (list (N * BlockId)) :=
  match arms, blocks with
  | mkArm pattern _ _ span :: ((_ :: _) as arms), block :: blocks =>
      match pattern_discriminant pattern with
      | Some discriminant =>
          targets ← arm_targets arms blocks; mret ((discriminant, block) :: targets)
      | None =>
          error span (Text "non-final match arms require a closed discriminant");;
          arm_targets arms blocks
      end
  | _, _ => mret []
  end.

Section with_expression.
Context (lower_expression : TypedExpr → option MirType → build Operand).

(** The loop of [lower_block] over the remaining statements. *)
Fixpoint lower_statements (result : MirType) (sts : list HirStatement) : build unit :=
  match sts with
  | [] => mret tt
  | st :: rest =>
      terminated ← gets is_terminated;
      if terminated : bool then mret tt
      else
        match st with
        | HLet definition _ ty value =>
            ty ← required_type ty (expr_span value);
            operand ← lower_expression value (Some ty);
            local ← new_local ty;
            assign (PLocal local) (RvUse operand);;
            bind_local definition local
        | HReturn (Some value) =>
            operand ← lower_expression value (Some result);
            assign (PLocal 0) (RvUse operand);;
            terminate TmReturn
        | HReturn None =>
            (if bool_decide (result = TyUnit)
             then assign (PLocal 0) (RvUse unit_operand) else mret tt);;
            terminate TmReturn
        | HExpression expression =>
            match rest with
            | [] =>
                operand ← lower_expression expression (Some result);
                assign (PLocal 0) (RvUse operand);;
                terminate TmReturn
            | _ => lower_expression expression None;; mret tt
            end
        end;;
        lower_statements result rest
  end.

Fixpoint lower_arguments (arguments : list TypedExpr) : build (list Operand) :=
  match arguments with
  | [] => mret []
  | a :: arguments =>
      operand ← lower_expression a None;
      operands ← lower_arguments arguments;
      mret (operand :: operands)
  end.

Fixpoint lower_arms (result_type : MirType) (result : LocalId) (join : BlockId)
    (arms : list HirMatchArm) (blocks : list BlockId) : build unit :=
  match arms, blocks with
  | mkArm _ guard body span :: arms, block :: blocks =>
      set_current block;;
      match guard with
      | Some _ => error span (Text "guarded matches are not in the executable subset")
      | None => mret tt
      end;;
      value ← lower_expression body (Some result_type);
      assign (PLocal result) (RvUse value);;
      terminate (TmGoto join);;
      lower_arms result_type result join arms blocks
  | _, _ => mret tt
  end.
End with_expression.

Fixpoint lower_expression (e : TypedExpr) (expected : option MirType) {struct e} : build Operand :=
  match e with
  | mkExpr kind ty span =>
      match kind with
      | HBorrow mutable operand =>
          match expr_kind operand with
          | HReference definition =>
              local ← gets (λ s, bindings s !! definition);
              match local with
              | Some local =>
                  reference ← new_local (default TyUnit (lower_type index ty));
                  assign (PLocal reference) (RvBorrow mutable (PLocal local));;
                  mret (OpMove reference)
              | None => unsupported span "MIR borrow target is not a local"
              end
          | _ => unsupported span "MIR borrows require a direct local place"
          end
      | HAwait operand => lower_expression operand expected
      | HLiteral literal => lower_literal literal span expected
      | HReference definition => lower_reference definition span
      | HBinary operator lhs rhs =>
          left_operand ← lower_expression lhs expected;
          left_type ← gets (λ s, builder_operand_type s left_operand);
          let operand_type := match left_type with Some ty => Some ty | None => expected end in
          right_operand ← lower_expression rhs operand_type;
          let result := if is_comparison operator then TyBool else default TyUnit operand_type in
          match lower_binary operator with
          | Some operator =>
              local ← new_local result;
              assign (PLocal local) (RvBinary operator left_operand right_operand);;
              mret (OpMove local)
          | None => unsupported span "binary operator is not in the executable subset"
          end
      | HCall callee arguments =>
          match expr_kind callee with
          | HReference callee =>
              args ← lower_arguments lower_expression arguments;
              destination ← new_local (result_type expected ty);
              next ← new_block;
              terminate (TmCall (mir_def_id callee) args (PLocal destination) next);;
              set_current next;;
              mret (OpMove destination)
          | _ => unsupported span "only direct function calls are executable"
          end
      | HMatch value arms =>
          match arms with
          | [] => unsupported span "match requires at least one arm"
          | _ =>
              value ← lower_expression value None;
              discriminant ← new_local TyU64;
              assign (PLocal discriminant) (RvDiscriminant value);;
              result ← new_local (result_type expected ty);
              join ← new_block;
              arm_blocks ← new_blocks (length arms);
              targets ← arm_targets arms arm_blocks;
              terminate (TmSwitchInt (OpCopy discriminant) targets (default 0 (last arm_blocks)));;
              lower_arms lower_expression (result_type expected ty) result join arms arm_blocks;;
              set_current join;;
              mret (OpMove result)
          end
      | HBlock (mkBlock sts _) =>
          lower_statements lower_expression (default TyUnit expected) sts;;
          mret (OpCopy 0)
      | HArray _ | HField _ _ | HUnary _ _ =>
          unsupported span "expression is not in the executable MIR subset"
      end
  end.

Definition lower_block (block : HirBlock) (result : MirType) : build unit :=
  lower_statements lower_expression result (block_statements block).

(** ** Functions *)

Fixpoint lower_parameters (parameters : list HirParameter) : build unit :=
  match parameters with
  | [] => mret tt
  | p :: parameters =>
      ty ← required_type (hp_ty p) (hp_span p);
      local ← new_local ty;
      bind_local (hp_id p) local;;
      lower_parameters parameters
  end.

(** [FunctionBuilder::lower] *)
Definition lower_function (definition : HirDefinition) (function : HirFunction)
    : build MirFunction :=
  result ← required_type (hf_result function) (hd_span definition);
  new_local result;;
  lower_parameters (hf_parameters function);;
  lower_block (hf_body function) result;;
  terminated ← gets is_terminated;
  (if terminated : bool then mret tt
   else
     (if bool_decide (result = TyUnit)
      then assign (PLocal 0) (RvUse unit_operand) else mret tt);;
     terminate TmReturn);;
  locals ← gets b_locals;
  blocks ← gets b_blocks;
  mret {| fn_id := mir_def_id (hd_id definition);
          parameter_count := u32_of_index (length (hf_parameters function));
          return_type := result; fn_locals := locals; fn_blocks := blocks |}.
End lowering.

(** The lowered functions and diagnostics of the executable definitions. *)
Fixpoint lower_definitions (index : ProgramIndex) (ds : list HirDefinition)
    : list MirFunction * list Diagnostic :=
  match ds with
  | [] => ([], [])
  | d :: ds =>
      let '(functions, diags) := lower_definitions index ds in
      match as_function (hd_kind d) with
      | Some function =>
          let '(lowered, s) := lower_function index d function builder_new in
          (lowered :: functions, (diagnostics s ++ diags)%list)
      | None => (functions, diags)
      end
  end.

Definition lower_to_mir (hir : HirProgram) : result MirProgram (list Diagnostic) :=
  let '(functions, diags) := lower_definitions (index_new hir) (program_definitions hir) in
  match diags with
  | _ :: _ => Err diags
  | [] =>
      let program := insert_drops {| functions := functions; entry := mir_def_id <$> hir_entry hir |} in
      match verify program with
      | Err errors => Err ((λ e, mir_diagnostic default_span "SYL3102" (Invariant e)) <$> errors)
      | Ok _ => Ok program
      end
  end.
