(* ===== verification/MirLowerTheorems.v ===== *)
(** * Correctness of the MIR lowering *)

From stdpp Require Import base gmap list strings numbers sorting.
From S2P Require Import Prelude Ir Cfg Dataflow Verify VerifySound Interp Hir Diagnostics MirLower.
Open Scope N_scope.
Open Scope list_scope.

(** ** Induction on expressions through their direct sub-expressions *)

Definition option_list {A} (o : option A) : list A := match o with Some a => [a] | None => [] end.

Definition children (k : HirExprKind) : list TypedExpr :=
  match k with
  | HBorrow _ e | HAwait e | HField e _ | HUnary _ e => [e]
  | HLiteral _ | HReference _ => []
  | HArray items => items
  | HCall callee arguments => callee :: arguments
  | HBinary _ lhs rhs => [lhs; rhs]
  | HMatch value arms =>
      value :: flat_map (λ arm, let 'mkArm _ guard body _ := arm in option_list guard ++ [body]) arms
  | HBlock (mkBlock sts _) => flat_map (λ st, option_list (statement_value st)) sts
  end.

Lemma TypedExpr_children_ind (P : TypedExpr → Prop) :
  (∀ kind ty span, Forall P (children kind) → P (mkExpr kind ty span)) → ∀ e, P e.
Proof.
  intros Hstep. fix IH 1. intros [kind ty span]. apply Hstep.
  destruct kind as [? e|e| | |items|callee arguments|e ?|? e|? lhs rhs|value arms|[sts ?]]; simpl.
  - constructor; [apply IH|constructor].
  - constructor; [apply IH|constructor].
  - constructor.
  - constructor.
  - induction items as [|x l IHl]; constructor; [apply IH|exact IHl].
  - constructor; [apply IH|]. induction arguments as [|x l IHl]; constructor; [apply IH|exact IHl].
  - constructor; [apply IH|constructor].
  - constructor; [apply IH|constructor].
  - constructor; [apply IH|constructor; [apply IH|constructor]].
  - constructor; [apply IH|]. induction arms as [|[pat guard body s] l IHl]; simpl; [constructor|].
    destruct guard as [g|]; simpl; [constructor; [apply IH|]|]; (constructor; [apply IH|exact IHl]).
  - induction sts as [|st l IHl]; simpl; [constructor|].
    destruct st as [? ? ? v|[v|]|v]; simpl; try (constructor; [apply IH|]); exact IHl.
Qed.

(** ** The shape of a builder *)

(** Block [i] has no terminator yet. *)
Definition open_block (s : Builder) (i : nat) : Prop :=
  ∃ b, b_blocks s !! i = Some b ∧ terminator b = None.

(** The current block exists and every target of a terminator does. *)
Definition builder_inv (s : Builder) : Prop :=
  (N.to_nat (current s) < length (b_blocks s))%nat ∧
  ∀ i b t target, b_blocks s !! i = Some b → terminator b = Some t → target ∈ successors t →
    (N.to_nat target < length (b_blocks s))%nat.

(** Block identities have not run out. *)
Definition blocks_fit (s : Builder) : Prop := N.of_nat (length (b_blocks s)) ≤ u32_max.

(** From [s] to [s']: blocks and locals are only added, and every block left
    open, the current one apart, was open before and was not the current one. *)
Definition extends (s s' : Builder) : Prop :=
  (length (b_blocks s) ≤ length (b_blocks s'))%nat ∧
  (∃ more, b_locals s' = b_locals s ++ more) ∧
  (blocks_fit s' → builder_inv s →
     builder_inv s' ∧
     ∀ i, open_block s' i → i = N.to_nat (current s') ∨
                            (open_block s i ∧ i ≠ N.to_nat (current s))).

Lemma extends_refl s : extends s s.
Proof.
  split; [lia|]. split; [exists []; by rewrite app_nil_r|]. intros _ Hinv. split; [done|].
  intros i Hi. destruct (decide (i = N.to_nat (current s))); auto.
Qed.

Lemma extends_trans s1 s2 s3 : extends s1 s2 → extends s2 s3 → extends s1 s3.
Proof.
  intros (Hl1&[m1 Hm1]&H1) (Hl2&[m2 Hm2]&H2). split; [lia|]. split.
  { exists (m1 ++ m2). by rewrite Hm2, Hm1, app_assoc. }
  intros Hfit Hinv. assert (blocks_fit s2) as Hfit2 by (unfold blocks_fit in *; lia).
  destruct (H1 Hfit2 Hinv) as [Hinv2 Ho1]. destruct (H2 Hfit Hinv2) as [Hinv3 Ho2].
  split; [done|]. intros i [->|[Hi Hne]]%Ho2; [by left|]. apply Ho1 in Hi as [->|]; [done|auto].
Qed.

(** Operations of the builder that extend it. *)
Definition grows {A} (m : build A) : Prop := ∀ s, extends s (m s).2.

Lemma grows_ret {A} (a : A) : grows (mret a).
Proof. intros s. apply extends_refl. Qed.

Lemma grows_bind {A B} (m : build A) (k : A → build B) :
  grows m → (∀ a, grows (k a)) → grows (m ≫= k).
Proof.
  intros Hm Hk s. unfold mbind, build_bind. specialize (Hm s). destruct (m s) as [a s'].
  eapply extends_trans; [exact Hm|apply Hk].
Qed.

Lemma grows_gets {A} (g : Builder → A) : grows (gets g).
Proof. intros s. apply extends_refl. Qed.

(** A change that leaves the blocks alone and only adds locals. *)
Lemma extends_same_blocks s s' :
  b_blocks s' = b_blocks s → current s' = current s → (∃ more, b_locals s' = b_locals s ++ more) →
  extends s s'.
Proof.
  intros Hb Hc Hl. destruct (extends_refl s) as (H1&_&H3). split; [by rewrite Hb|]. split; [done|].
  unfold blocks_fit, builder_inv, open_block in *. by rewrite Hb, Hc.
Qed.

Lemma grows_error span message : grows (error span message).
Proof. intros s. apply extends_same_blocks; [done..|]. exists []. by rewrite app_nil_r. Qed.

Lemma grows_bind_local d l : grows (bind_local d l).
Proof. intros s. apply extends_same_blocks; [done..|]. exists []. by rewrite app_nil_r. Qed.

Lemma grows_new_local ty : grows (new_local ty).
Proof. intros s. apply extends_same_blocks; [done..|]. by exists [ty]. Qed.

Lemma alter_open (g : BasicBlock → BasicBlock) s i :
  (∀ b, terminator (g b) = None → terminator b = None) →
  open_block (modify_current g s).2 i → open_block s i.
Proof.
  intros Hg (b&Hb&Ht). simpl in Hb. apply list_alter_Some in Hb as [(->&b'&?&->)|[? ?]].
  - exists b'. auto.
  - by exists b.
Qed.

(** A change of the current block whose terminator, if new, stays in range. *)
Lemma grows_modify_current g :
  (∀ b, terminator (g b) = None → terminator b = None) →
  (∀ b t, terminator (g b) = Some t → terminator b = Some t ∨ successors t = []) →
  grows (modify_current g).
Proof.
  intros Hopen Hsucc s. split; [simpl; by rewrite length_alter|].
  split; [exists []; by rewrite app_nil_r|]. intros _ [Hc Ht]. split; [split|].
  - simpl. by rewrite length_alter.
  - intros i b t target Hb Hbt Hin. simpl in *. rewrite length_alter.
    apply list_alter_Some in Hb as [(->&b'&Hb'&->)|[? Hb]]; [|by eapply Ht].
    destruct (Hsucc b' t Hbt) as [Hbt'|Hnil]; [by eapply Ht|].
    rewrite Hnil in Hin. by apply not_elem_of_nil in Hin.
  - intros i Hi%alter_open; [|done]. destruct (decide (i = N.to_nat (current s))); auto.
Qed.

Lemma grows_assign p r : grows (assign p r).
Proof. apply grows_modify_current; simpl; auto. Qed.

Lemma grows_return : grows (terminate TmReturn).
Proof. apply grows_modify_current; simpl; [done|]. intros b t [= <-]. auto. Qed.

Lemma grows_unsupported span text : grows (unsupported span text).
Proof. apply grows_bind; [apply grows_error|intros; apply grows_ret]. Qed.

Hint Resolve grows_ret grows_gets grows_error grows_bind_local grows_new_local grows_assign
  grows_return grows_unsupported : syllog.

(** Walk down the binds and branches of an operation. *)
Ltac grows_tac :=
  repeat (intros; match goal with
    | |- grows (_ ≫= _) => apply grows_bind
    | |- grows (match _ with _ => _ end) => case_match
    | |- grows _ => solve [auto with syllog]
    end).

(** ** Terminators and new blocks *)

(** Terminating the current block closes it. *)
Lemma terminate_spec t s :
  builder_inv s → (∀ target, target ∈ successors t → (N.to_nat target < length (b_blocks s))%nat) →
  builder_inv (terminate t s).2 ∧
  ∀ i, open_block (terminate t s).2 i → open_block s i ∧ i ≠ N.to_nat (current s).
Proof.
  intros [Hc Ht] Hsucc. split; [split|]; simpl.
  - by rewrite length_alter.
  - intros i b t' target Hb Hbt Hin. rewrite length_alter.
    apply list_alter_Some in Hb as [(->&b'&Hb'&->)|[? Hb]]; [|by eapply Ht].
    simpl in Hbt. simplify_eq. by apply Hsucc.
  - intros i (b&Hb&Hbt). simpl in Hb.
    apply list_alter_Some in Hb as [(->&b'&Hb'&->)|[? Hb]]; [done|]. split; [by exists b|done].
Qed.

Lemma terminate_sizes t s :
  length (b_blocks (terminate t s).2) = length (b_blocks s) ∧
  b_locals (terminate t s).2 = b_locals s ∧ current (terminate t s).2 = current s.
Proof. simpl. by rewrite length_alter. Qed.

Definition empty_block : BasicBlock := {| statements := []; terminator := None |}.

(** Adding blocks keeps targets in range and opens exactly the new ones. *)
Lemma add_blocks_spec s s' n :
  b_blocks s' = b_blocks s ++ replicate n empty_block → current s' = current s → builder_inv s →
  builder_inv s' ∧
  ∀ i, open_block s' i → open_block s i ∨ (length (b_blocks s) ≤ i < length (b_blocks s) + n)%nat.
Proof.
  intros Hb Hcur [Hc Ht]. split; [split|].
  - rewrite Hb, length_app, Hcur. lia.
  - intros i b t target Hi Hbt Hin. rewrite Hb, length_app. rewrite Hb in Hi.
    apply lookup_app_Some in Hi as [Hi|[_ [-> _]%lookup_replicate]]; [|done].
    specialize (Ht i b t target Hi Hbt Hin). lia.
  - intros i (b&Hi&Hbt). rewrite Hb in Hi.
    apply lookup_app_Some in Hi as [Hi|[Hle [_ Hlt]%lookup_replicate]]; [left; by exists b|right; lia].
Qed.

Lemma new_blocks_spec n s :
  b_blocks (new_blocks n s).2 = b_blocks s ++ replicate n empty_block ∧
  b_locals (new_blocks n s).2 = b_locals s ∧ current (new_blocks n s).2 = current s ∧
  (new_blocks n s).1 = (λ k, u32_of_index (length (b_blocks s) + k)) <$> seq 0 n.
Proof.
  revert s. induction n as [|n IH]; intros s; simpl.
  { by rewrite app_nil_r. }
  unfold mbind, build_bind. simpl.
  match goal with |- context [new_blocks n ?s1] => destruct (IH s1) as (H1&H2&H3&H4) end.
  destruct (new_blocks n _) as [bs s']. simpl in *. subst. split; [by rewrite H1, <-app_assoc|].
  split; [done|]. split; [done|]. rewrite Nat.add_0_r. f_equal.
  rewrite <-fmap_S_seq, <-list_fmap_compose. apply list_fmap_ext. intros i k _. simpl.
  rewrite length_app. simpl. f_equal. lia.
Qed.

Lemma arm_targets_spec index arms blocks s :
  b_blocks (arm_targets index arms blocks s).2 = b_blocks s ∧
  b_locals (arm_targets index arms blocks s).2 = b_locals s ∧
  current (arm_targets index arms blocks s).2 = current s ∧
  ∀ t, t ∈ (arm_targets index arms blocks s).1.*2 → t ∈ blocks.
Proof.
  revert blocks s. induction arms as [|[pattern guard body span] arms IH]; intros blocks s.
  { split_and!; [done..|]. by intros t Ht%not_elem_of_nil. }
  simpl. destruct arms as [|arm arms].
  { split_and!; [done..|]. by intros t Ht%not_elem_of_nil. }
  destruct blocks as [|block blocks].
  { split_and!; [done..|]. by intros t Ht%not_elem_of_nil. }
  destruct (pattern_discriminant index pattern) as [d|]; unfold mbind, build_bind.
  - destruct (IH blocks s) as (H1&H2&H3&H4).
    destruct (arm_targets index (arm :: arms) blocks s) as [targets s']. simpl in *.
    split_and!; [done..|]. intros t [->|Ht]%elem_of_cons; [by constructor|]. constructor. by apply H4.
  - destruct (error span _ s) as [[] s1] eqn:E. injection E as <-.
    match goal with |- context [arm_targets index _ blocks ?s1] => destruct (IH blocks s1) as (H1&H2&H3&H4) end.
    split_and!; [done..|]. intros t Ht. constructor. by apply H4.
Qed.

(** A call ends the current block and continues in a fresh one. *)
Lemma grows_call {A} (callee : DefId) args p (a : A) :
  grows (next ← new_block; terminate (TmCall callee args p next);; set_current next;; mret a).
Proof.
  intros s. unfold mbind, build_bind. cbn [new_block].
  set (next := u32_of_index (length (b_blocks s))).
  set (s1 := {| b_locals := b_locals s; b_blocks := b_blocks s ++ [_]; current := current s;
                bindings := bindings s; diagnostics := diagnostics s |}).
  destruct (terminate_sizes (TmCall callee args p next) s1) as (Hlen&Hloc&Hcur).
  assert (length (b_blocks s1) = S (length (b_blocks s))) as Hlen1.
  { simpl. rewrite length_app. simpl. lia. }
  split; [simpl in *; lia|]. split; [exists []; by rewrite app_nil_r|]. intros Hfit Hinv.
  assert (N.to_nat next = length (b_blocks s)) as Hnext.
  { unfold next, u32_of_index. unfold blocks_fit in Hfit. simpl in Hfit, Hlen, Hlen1.
    rewrite bool_decide_eq_true_2 by lia. lia. }
  destruct (add_blocks_spec s s1 1) as [Hinv1 Ho1]; [done..|].
  destruct (terminate_spec (TmCall callee args p next) s1) as [[_ Ht2] Ho2]; [done| |].
  { intros target ->%list_elem_of_singleton. lia. }
  split; [split|].
  - simpl in *. lia.
  - exact Ht2.
  - intros i Hi. change (open_block (terminate (TmCall callee args p next) s1).2 i) in Hi.
    apply Ho2 in Hi as [Hi Hne]. apply Ho1 in Hi as [Hi|Hi]; [right; by split|left]. simpl. lia.
Qed.

(** ** Match arms *)

(** The part of an arm before its final jump. *)
Definition arm_prefix (le : TypedExpr → option MirType → build Operand) (ty : MirType)
    (result : LocalId) (guard : option TypedExpr) (body : TypedExpr) (span : Span) : build unit :=
  match guard with
  | Some _ => error span (Text "guarded matches are not in the executable subset")
  | None => mret tt
  end;;
  value ← le body (Some ty);
  assign (PLocal result) (RvUse value).

Lemma lower_arms_cons le ty result join pattern guard body span arms block blocks s :
  lower_arms le ty result join (mkArm pattern guard body span :: arms) (block :: blocks) s =
  lower_arms le ty result join arms blocks
    (terminate (TmGoto join) (arm_prefix le ty result guard body span (set_current block s).2).2).2.
Proof.
  simpl. unfold arm_prefix, mbind, build_bind.
  destruct guard; simpl; destruct (le body (Some ty) _); done.
Qed.

Section arms.
Context (le : TypedExpr → option MirType → build Operand).
Context (ty : MirType) (result : LocalId) (join : BlockId) (base : nat → Prop).

(** What holds between arms: targets in range, and open blocks are those of
    [base] and of the arms still to come. *)
Definition arms_inv (blocks : list BlockId) (s : Builder) : Prop :=
  builder_inv s ∧ (N.to_nat join < length (b_blocks s))%nat ∧
  (∀ block, block ∈ blocks → (N.to_nat block < length (b_blocks s))%nat) ∧
  (∀ i, open_block s i → base i ∨ i ∈ N.to_nat <$> blocks).

Lemma arm_step guard body span block blocks s :
  grows (le body (Some ty)) →
  let s' := (terminate (TmGoto join) (arm_prefix le ty result guard body span (set_current block s).2).2).2 in
  (length (b_blocks s) ≤ length (b_blocks s'))%nat ∧
  (∃ more, b_locals s' = b_locals s ++ more) ∧
  (blocks_fit s' → arms_inv (block :: blocks) s → arms_inv blocks s').
Proof.
  intros Hbody. set (sA := (set_current block s).2).
  assert (grows (arm_prefix le ty result guard body span)) as Hp.
  { unfold arm_prefix. grows_tac; auto with syllog. }
  specialize (Hp sA). set (sB := (arm_prefix le ty result guard body span sA).2) in *.
  destruct Hp as (Hlen&Hloc&Hinv). destruct (terminate_sizes (TmGoto join) sB) as (HlenC&HlocC&HcurC).
  intros s'. unfold s'. rewrite HlenC, HlocC. split; [done|]. split; [done|].
  intros Hfit ((Hcur&Ht)&Hj&Hb&Ho).
  destruct Hinv as [HinvB HoB].
  { unfold blocks_fit in *. by rewrite HlenC in Hfit. }
  { split; [|exact Ht]. simpl. apply Hb. by constructor. }
  destruct (terminate_spec (TmGoto join) sB HinvB) as [HinvC HoC].
  { intros target ->%list_elem_of_singleton. change (b_blocks sA) with (b_blocks s) in Hlen. lia. }
  change (b_blocks sA) with (b_blocks s) in Hlen.
  split; [done|]. split; [rewrite HlenC; lia|]. split.
  - intros b Hin. rewrite HlenC. specialize (Hb b ltac:(by constructor)). lia.
  - intros i [Hi Hne]%HoC. apply HoB in Hi as [->|[Hi Hneb]]; [done|].
    destruct (Ho i Hi) as [|Hin]; [by left|]. right.
    rewrite fmap_cons in Hin. apply elem_of_cons in Hin as [->|]; [done|done].
Qed.

Lemma lower_arms_spec arms blocks s :
  length arms = length blocks →
  (∀ pattern guard body span, mkArm pattern guard body span ∈ arms → grows (le body (Some ty))) →
  let s' := (lower_arms le ty result join arms blocks s).2 in
  (length (b_blocks s) ≤ length (b_blocks s'))%nat ∧
  (∃ more, b_locals s' = b_locals s ++ more) ∧
  (blocks_fit s' → arms_inv blocks s → arms_inv [] s').
Proof.
  revert blocks s. induction arms as [|[pattern guard body span] arms IH]; intros [|block blocks] s Hn Hall;
    simplify_eq/=.
  { split; [done|]. split; [exists []; by rewrite app_nil_r|done]. }
  pose proof (lower_arms_cons le ty result join pattern guard body span arms block blocks s) as Hs.
  cbn [lower_arms] in Hs. rewrite Hs. clear Hs.
  destruct (arm_step guard body span block blocks s) as (Hl1&[m1 Hm1]&Hi1).
  { apply (Hall pattern guard body span). by constructor. }
  set (s1 := (terminate (TmGoto join) _).2) in *.
  destruct (IH blocks s1 Hn) as (Hl2&[m2 Hm2]&Hi2).
  { intros p' g b sp Hin. apply (Hall p' g b sp). by constructor. }
  split; [lia|]. split; [exists (m1 ++ m2); by rewrite Hm2, Hm1, app_assoc|].
  intros Hfit Hinv. apply Hi2; [done|]. apply Hi1; [unfold blocks_fit in *; lia|done].
Qed.
End arms.

(** New block identities are their positions while they fit. *)
Lemma u32_of_index_fits n : N.of_nat n ≤ u32_max → N.to_nat (u32_of_index n) = n.
Proof. intros H. unfold u32_of_index. rewrite bool_decide_eq_true_2 by done. lia. Qed.

(** The switch of a match: its blocks are added and its targets are among them. *)
Lemma match_switch_spec index d arms s :
  arms ≠ [] →
  let s1 := (new_block s).2 in
  let r := new_blocks (length arms) s1 in
  let r3 := arm_targets index arms r.1 r.2 in
  let s4 := (terminate (TmSwitchInt (OpCopy d) r3.1 (default 0 (last r.1))) r3.2).2 in
  length r.1 = length arms ∧
  length (b_blocks s4) = (length (b_blocks s) + S (length arms))%nat ∧ b_locals s4 = b_locals s ∧
  (blocks_fit s4 → builder_inv s →
     builder_inv s4 ∧
     (∀ block, block ∈ r.1 → (N.to_nat block < length (b_blocks s4))%nat) ∧
     ∀ i, open_block s4 i → (open_block s i ∧ i ≠ N.to_nat (current s)) ∨
                            i = length (b_blocks s) ∨ i ∈ N.to_nat <$> r.1).
Proof.
  intros Hne s1 r r3 s4. destruct (new_blocks_spec (length arms) s1) as (Hb2&Hl2&Hc2&Hr).
  fold r in Hb2, Hl2, Hc2, Hr.
  destruct (arm_targets_spec index arms r.1 r.2) as (Hb3&Hl3&Hc3&Htargets).
  fold r3 in Hb3, Hl3, Hc3, Htargets.
  destruct (terminate_sizes (TmSwitchInt (OpCopy d) r3.1 (default 0 (last r.1))) r3.2) as (Hn4&Hl4&Hc4).
  fold s4 in Hn4, Hl4, Hc4.
  assert (b_blocks r3.2 = b_blocks s ++ replicate (S (length arms)) empty_block) as Hb.
  { rewrite Hb3, Hb2. simpl. by rewrite <-app_assoc. }
  assert (length (b_blocks s1) = S (length (b_blocks s))) as Hs1.
  { simpl. rewrite length_app. simpl. lia. }
  assert (length (b_blocks s4) = (length (b_blocks s) + S (length arms))%nat) as Hlen.
  { rewrite Hn4, Hb, length_app, length_replicate. lia. }
  assert (length r.1 = length arms) as Hrl by (by rewrite Hr, length_fmap, length_seq).
  assert (current r3.2 = current s) as Hcur by (by rewrite Hc3, Hc2).
  split; [done|]. split; [done|]. split; [by rewrite Hl4, Hl3, Hl2|].
  intros Hfit Hinv. unfold blocks_fit in Hfit.
  assert (∀ i, i ∈ N.to_nat <$> r.1 ↔
    (length (b_blocks s) < i < length (b_blocks s) + S (length arms))%nat) as Hblocks.
  { intros i. rewrite Hr, <-list_fmap_compose, list_elem_of_fmap. split.
    - intros (k&->&[? ?]%elem_of_seq). unfold compose. rewrite u32_of_index_fits; lia.
    - intros Hi. exists (i - length (b_blocks s1))%nat. split; [|apply elem_of_seq; lia].
      unfold compose. rewrite u32_of_index_fits; lia. }
  assert (∀ block, block ∈ r.1 → (N.to_nat block < length (b_blocks s4))%nat) as Hin.
  { intros block Hblock. assert (N.to_nat block ∈ N.to_nat <$> r.1) as Hx%Hblocks
      by (by apply list_elem_of_fmap_2). lia. }
  destruct (add_blocks_spec s r3.2 (S (length arms)) Hb) as [Hinv3 Ho3]; [done..|].
  destruct (terminate_spec (TmSwitchInt (OpCopy d) r3.1 (default 0 (last r.1))) r3.2 Hinv3) as [Hinv4 Ho4].
  { intros target Htg. rewrite <-Hn4. apply Hin.
    apply elem_of_app in Htg as [Htg|Htg]; [by apply Htargets|].
    apply list_elem_of_singleton in Htg as ->.
    destruct (last r.1) as [x|] eqn:El; [by apply last_Some_elem_of|].
    apply last_None in El. rewrite El in Hrl. destruct arms; [done|discriminate]. }
  split; [done|]. split; [done|]. intros i [Hi Hnc]%Ho4. rewrite Hcur in Hnc.
  apply Ho3 in Hi as [Hi|Hi]; [by left|]. right.
  destruct (decide (i = length (b_blocks s))); [by left|right]. apply Hblocks. lia.
Qed.

Lemma grows_match {A} index le ty result d arms (a : A) :
  arms ≠ [] →
  (∀ pattern guard body span, mkArm pattern guard body span ∈ arms → grows (le body (Some ty))) →
  grows (join ← new_block;
         arm_blocks ← new_blocks (length arms);
         targets ← arm_targets index arms arm_blocks;
         terminate (TmSwitchInt (OpCopy d) targets (default 0 (last arm_blocks)));;
         lower_arms le ty result join arms arm_blocks;;
         set_current join;; mret a).
Proof.
  intros Hne Hall s. destruct (match_switch_spec index d arms s Hne) as (Hrl&Hn4&Hl4&H4).
  unfold mbind, build_bind. destruct (new_block s) as [join s1] eqn:Ej. cbn [snd] in *.
  destruct (new_blocks (length arms) s1) as [bs s2] eqn:Eb. cbn [fst snd] in *.
  destruct (arm_targets index arms bs s2) as [ts s3] eqn:Et. cbn [fst snd] in *.
  destruct (terminate (TmSwitchInt (OpCopy d) ts (default 0 (last bs))) s3) as [[] s4] eqn:E4.
  cbn [snd] in *.
  set (base := λ i, (open_block s i ∧ i ≠ N.to_nat (current s)) ∨ i = length (b_blocks s)).
  destruct (lower_arms_spec le ty result join base arms bs s4) as (Hn5&[more Hl5]&H5); [done..|].
  destruct (lower_arms le ty result join arms bs s4) as [[] s5] eqn:E5. cbn [snd] in *.
  split; [simpl; lia|]. split; [exists more; simpl; by rewrite Hl5, Hl4|].
  intros Hfit Hinv. assert (N.of_nat (length (b_blocks s5)) ≤ u32_max) as Hfit5 by exact Hfit.
  assert (N.to_nat join = length (b_blocks s)) as Hj.
  { injection Ej as <- _. apply u32_of_index_fits. lia. }
  destruct H4 as (Hinv4&Hbs&Ho4); [unfold blocks_fit; lia|done|].
  destruct H5 as ([_ Ht5]&Hj5&_&Ho5); [done| |].
  { split; [done|]. split; [lia|]. split; [done|]. intros i Hi. unfold base.
    destruct (Ho4 i Hi) as [|[|]]; auto. }
  split; [split; [exact Hj5|exact Ht5]|].
  intros i [[[? ?]|Hi]|Hi]%Ho5; [by right|left; simpl; lia|by apply not_elem_of_nil in Hi].
Qed.

(** ** Expressions, statements and functions *)

Section expressions.
Context (index : ProgramIndex).

Lemma grows_required_type ty span : grows (required_type index ty span).
Proof. unfold required_type. grows_tac. Qed.

Lemma grows_literal l span expected : grows (lower_literal l span expected).
Proof. unfold lower_literal. grows_tac. Qed.

Lemma grows_reference d span : grows (lower_reference index d span).
Proof. unfold lower_reference. grows_tac. Qed.

Lemma grows_statements le ty sts :
  Forall (λ e, ∀ expected, grows (le e expected)) (flat_map (λ st, option_list (statement_value st)) sts) →
  grows (lower_statements index le ty sts).
Proof.
  induction sts as [|st sts IH]; cbn [lower_statements flat_map]; [auto with syllog|].
  intros [Hst Hsts]%Forall_app. specialize (IH Hsts).
  destruct st as [d n t v|[v|]|v]; simpl in Hst; try apply list.Forall_cons in Hst as [Hv _];
    grows_tac; auto using grows_required_type with syllog.
Qed.

Lemma grows_arguments le args :
  Forall (λ e, ∀ expected, grows (le e expected)) args → grows (lower_arguments le args).
Proof.
  induction 1 as [|a args Ha _ IH]; cbn [lower_arguments]; [auto with syllog|]. grows_tac.
Qed.

Lemma grows_expression e expected : grows (lower_expression index e expected).
Proof.
  revert expected. induction e as [kind ty span IH] using TypedExpr_children_ind. intros expected.
  destruct kind as [m e|e|l|d|items|callee args|e d|op e|op lhs rhs|value arms|[sts sp]];
    cbn [lower_expression children] in *.
  - grows_tac.
  - apply list.Forall_cons in IH as [IH _]. apply IH.
  - apply grows_literal.
  - apply grows_reference.
  - apply grows_unsupported.
  - apply list.Forall_cons in IH as [_ IH]. destruct (expr_kind callee); auto with syllog.
    apply grows_bind; [by apply grows_arguments|]. intros os.
    apply grows_bind; [auto with syllog|]. intros l. apply grows_call.
  - apply grows_unsupported.
  - apply grows_unsupported.
  - apply list.Forall_cons in IH as [Hl [Hr _]%list.Forall_cons]. grows_tac.
  - destruct arms as [|arm0 arms0]; [auto with syllog|].
    apply list.Forall_cons in IH as [Hv Harms]. remember (arm0 :: arms0) as arms eqn:Earms.
    apply grows_bind; [apply Hv|]. intros o. do 2 (apply grows_bind; [auto with syllog|]; intros ?).
    apply grows_bind; [auto with syllog|]. intros result. apply grows_match; [by subst|].
    intros pattern guard body sp Hin. rewrite list.Forall_forall in Harms. apply Harms.
    apply list_elem_of_In, in_flat_map. exists (mkArm pattern guard body sp).
    split; [by apply list_elem_of_In|]. apply in_or_app. right. by left.
  - apply grows_bind; [|auto with syllog]. by apply grows_statements.
Qed.

Lemma grows_parameters ps : grows (lower_parameters index ps).
Proof.
  induction ps as [|p ps IH]; cbn [lower_parameters]; grows_tac; auto using grows_required_type.
Qed.

Lemma required_type_locals ty span s : b_locals (required_type index ty span s).2 = b_locals s.
Proof. unfold required_type. by destruct (lower_type index ty). Qed.

(** Each parameter takes one local. *)
Lemma parameters_locals ps s :
  length (b_locals (lower_parameters index ps s).2) = (length (b_locals s) + length ps)%nat.
Proof.
  revert s. induction ps as [|p ps IH]; intros s; cbn [lower_parameters]; [simpl; lia|].
  unfold mbind at 1, build_bind at 1. destruct (required_type index (hp_ty p) (hp_span p) s) as [ty s1] eqn:E.
  pose proof (required_type_locals (hp_ty p) (hp_span p) s) as Hl. rewrite E in Hl. simpl in Hl.
  unfold mbind, build_bind. simpl. rewrite IH. simpl. rewrite length_app, Hl. simpl. lia.
Qed.

(** The shape every lowered function has. *)
Record lowered_shape (f : MirFunction) : Prop := {
  ls_return : fn_locals f !! 0%nat = Some (return_type f);
  ls_parameters : (N.to_nat (parameter_count f) < length (fn_locals f))%nat;
  ls_entry : (0 < length (fn_blocks f))%nat;
  ls_terminator i b : fn_blocks f !! i = Some b →
    ∃ t, terminator b = Some t ∧
      ∀ target, target ∈ successors t → (N.to_nat target < length (fn_blocks f))%nat
}.

Lemma builder_new_inv : builder_inv builder_new.
Proof. split; [simpl; lia|]. intros [|i] b t target Hb Ht _; simplify_eq/=. Qed.

(** The body of a function leaves at most the current block open. *)
Lemma body_open s : extends builder_new s → blocks_fit s →
  builder_inv s ∧ ∀ i, open_block s i → i = N.to_nat (current s).
Proof.
  intros (_&_&H) Hfit. destruct (H Hfit builder_new_inv) as [Hinv Ho]. split; [done|].
  intros i Hi. destruct (Ho i Hi) as [|[(b&Hb&_) Hne]]; [done|]. by destruct i.
Qed.

(** Closing the last block leaves none open. *)
Lemma close_function result s :
  let s' := ((terminated ← gets is_terminated;
              if terminated : bool then mret tt
              else
                (if bool_decide (result = TyUnit)
                 then assign (PLocal 0) (RvUse unit_operand) else mret tt);;
                terminate TmReturn) s).2 in
  b_locals s' = b_locals s ∧ length (b_blocks s') = length (b_blocks s) ∧
  (builder_inv s → (∀ i, open_block s i → i = N.to_nat (current s)) →
   builder_inv s' ∧ ∀ i, ¬ open_block s' i).
Proof.
  intros s'. set (m := if bool_decide (result = TyUnit) then assign (PLocal 0) (RvUse unit_operand) else mret tt).
  assert (s' = if is_terminated s then s else (terminate TmReturn (m s).2).2) as ->.
  { unfold s', mbind, build_bind, gets, m. destruct (is_terminated s); [done|].
    by destruct (bool_decide _). }
  destruct (is_terminated s) eqn:E.
  - split; [done|]. split; [done|]. intros Hinv Ho. split; [done|]. intros i Hi.
    pose proof (Ho i Hi) as ->. destruct Hi as (b&Hb&Ht). unfold is_terminated in E.
    by rewrite Hb, Ht in E.
  - assert (length (b_blocks (m s).2) = length (b_blocks s) ∧ current (m s).2 = current s ∧
      b_locals (m s).2 = b_locals s ∧ (builder_inv s → builder_inv (m s).2) ∧
      ∀ i, open_block (m s).2 i → open_block s i) as (Hn&Hc&Hl&Hinv1&Ho1).
    { unfold m. case_bool_decide; [|by split_and!].
      split_and!; try done; [simpl; by rewrite length_alter|..].
      - intros [Hcur Ht]. split; [simpl; by rewrite length_alter|].
        intros i b t target Hb Hbt Hin. simpl in *. rewrite length_alter.
        apply list_alter_Some in Hb as [(->&b'&Hb'&->)|[? Hb]]; by eapply Ht.
      - intros i. by apply alter_open. }
    destruct (m s) as [[] s1]. cbn [snd] in Hn, Hc, Hl, Hinv1, Ho1 |- *.
    destruct (terminate_sizes TmReturn s1) as (Hn2&Hl2&_).
    split; [by rewrite Hl2|]. split; [by rewrite Hn2|]. intros Hinv Ho.
    destruct (terminate_spec TmReturn s1 (Hinv1 Hinv)) as [Hinv2 Ho2].
    { by intros t Ht%not_elem_of_nil. }
    split; [done|]. intros i [Hi Hne]%Ho2. apply Hne. rewrite Hc. by apply Ho, Ho1.
Qed.

(** The states a function goes through: result type, parameters, body, end. *)
Lemma lower_function_states d fn :
  ∃ result s0 s3,
    required_type index (hf_result fn) (hd_span d) builder_new = (result, s0) ∧
    s3 = (lower_block index (hf_body fn) result
            (lower_parameters index (hf_parameters fn) (new_local result s0).2).2).2 ∧
    let s4 := ((terminated ← gets is_terminated;
                if terminated : bool then mret tt
                else
                  (if bool_decide (result = TyUnit)
                   then assign (PLocal 0) (RvUse unit_operand) else mret tt);;
                  terminate TmReturn) s3).2 in
    (lower_function index d fn builder_new).1 =
      {| fn_id := mir_def_id (hd_id d);
         parameter_count := u32_of_index (length (hf_parameters fn));
         return_type := result; fn_locals := b_locals s4; fn_blocks := b_blocks s4 |}.
Proof.
  unfold lower_function, mbind, build_bind, gets.
  destruct (required_type index (hf_result fn) (hd_span d) builder_new) as [result s0].
  exists result, s0. eexists. split; [done|]. split; [done|].
  destruct (new_local result s0) as [l s1]. cbn [snd].
  destruct (lower_parameters index (hf_parameters fn) s1) as [[] s2]. cbn [snd].
  destruct (lower_block index (hf_body fn) result s2) as [[] s3]. cbn [snd].
  destruct (is_terminated s3); [done|]. by destruct (bool_decide _).
Qed.

Lemma lower_function_shape d fn :
  N.of_nat (length (hf_parameters fn)) ≤ u32_max →
  N.of_nat (length (fn_blocks (lower_function index d fn builder_new).1)) ≤ u32_max →
  lowered_shape (lower_function index d fn builder_new).1.
Proof.
  intros Hps. destruct (lower_function_states d fn) as (result&s0&s3&E0&E3&Ef).
  set (s1 := (new_local result s0).2) in *.
  set (s2 := (lower_parameters index (hf_parameters fn) s1).2) in *.
  assert (extends s2 s3) as H23.
  { rewrite E3. apply grows_statements, list.Forall_forall. intros e _ expected.
    apply grows_expression. }
  assert (extends builder_new s3) as H03.
  { eapply extends_trans; [|exact H23]. eapply extends_trans; [|apply grows_parameters].
    eapply extends_trans; [|apply grows_new_local].
    pose proof (grows_required_type (hf_result fn) (hd_span d) builder_new) as H. by rewrite E0 in H. }
  assert (b_locals s1 = [result]) as Hl1.
  { pose proof (required_type_locals (hf_result fn) (hd_span d) builder_new) as H.
    rewrite E0 in H. simpl in *. by rewrite H. }
  assert (∃ more, b_locals s2 = result :: more) as [more Hl2].
  { destruct (grows_parameters (hf_parameters fn) s1) as (_&[more Hm]&_). exists more.
    by rewrite Hl1 in Hm. }
  pose proof (parameters_locals (hf_parameters fn) s1) as Hlen. fold s2 in Hlen.
  rewrite Hl1 in Hlen. simpl in Hlen.
  destruct H23 as (_&[extra Hl3]&_). rewrite Ef. cbn [fn_blocks].
  destruct (close_function result s3) as (Hl4&Hn4&Hclose).
  set (s4 := ((terminated ← gets is_terminated; _) s3).2) in *. clearbody s4. intros Hfit.
  destruct (body_open s3 H03) as [Hinv3 Ho3]; [unfold blocks_fit; lia|].
  destruct (Hclose Hinv3 Ho3) as ([Hc4 Ht4]&Ho4).
  split; cbn [fn_locals fn_blocks return_type parameter_count].
  - by rewrite Hl4, Hl3, Hl2.
  - rewrite Hl4, Hl3, length_app, u32_of_index_fits by done. lia.
  - lia.
  - intros i b Hb. destruct (terminator b) as [t|] eqn:Et.
    + exists t. split; [done|]. intros target Hin. by eapply Ht4.
    + exfalso. apply (Ho4 i). by exists b.
Qed.
End expressions.
