(* ===== verification/MirDrops.v ===== *)
(** * Correctness of drop insertion

    The pass runs on its own analysis of the function before insertion.  The
    lemmas show that the analysis of the function after insertion agrees with
    it, so that each inserted drop is of an owned local and no owned affine
    local is left behind at a return or across a goto. *)

From stdpp Require Import base gmap strings numbers sorting list.
From S2P Require Import Prelude Ir Cfg Dataflow Verify VerifySound Interp Hir.
From S2P Require Import Diagnostics MirLower MirLowerTheorems.
Open Scope N_scope.
Open Scope list_scope.

Lemma merge_sort_drops_elem (l : LocalId) (X : gset LocalId) :
  l ∈ reverse (merge_sort N.le (elements X)) ↔ l ∈ X.
Proof. by rewrite elem_of_reverse, merge_sort_Permutation, elem_of_elements. Qed.

Section drops.
Context (f : MirFunction).

Abbreviation f' := (insert_function_drops f).
Abbreviation before := (must_analysis f transfer_block (λ _, true)).
Abbreviation after := (must_analysis f' transfer_block (λ _, true)).

(** ** The dropped locals *)

(** A local the pass may drop. *)
Definition droppable (l : LocalId) : bool :=
  negb (bool_decide (l = 0)) &&
  match local_type f l with Some ty => mir_type_needs_drop ty | None => false end.

Definition dropped (candidates : gset LocalId) : list LocalId :=
  List.filter droppable (reverse (merge_sort N.le (elements candidates))).

Lemma drop_statements_dropped candidates :
  drop_statements f candidates = (λ l, StDrop (PLocal l)) <$> dropped candidates.
Proof. done. Qed.

Lemma elem_of_dropped l candidates : l ∈ dropped candidates ↔ l ∈ candidates ∧ droppable l = true.
Proof.
  unfold dropped. rewrite list_elem_of_In, filter_In, <-list_elem_of_In, merge_sort_drops_elem. done.
Qed.

Lemma NoDup_dropped candidates : NoDup (dropped candidates).
Proof.
  unfold dropped. apply NoDup_ListNoDup, List.NoDup_filter, NoDup_ListNoDup.
  rewrite reverse_Permutation, merge_sort_Permutation. apply NoDup_elements.
Qed.

(** Drop statements remove exactly the dropped locals. *)
Lemma transfer_drops ds (X : gset LocalId) :
  foldl transfer_statement X ((λ l, StDrop (PLocal l)) <$> ds) = X ∖ list_to_set ds.
Proof.
  revert X. induction ds as [|l ds IH]; intros X; simpl; [set_solver|]. rewrite IH. set_solver.
Qed.

(** ** The function after insertion has the same graph *)

Lemma drops_blocks i :
  fn_blocks f' !! i = insert_block_drops f before i <$> fn_blocks f !! i.
Proof.
  unfold insert_function_drops. destruct (fn_blocks f) eqn:E; [by rewrite E|].
  cbn [fn_blocks]. by rewrite list_lookup_imap.
Qed.

Lemma drops_length : length (fn_blocks f') = length (fn_blocks f).
Proof.
  unfold insert_function_drops. destruct (fn_blocks f) eqn:E; [by rewrite E|].
  cbn [fn_blocks]. by rewrite length_imap.
Qed.

Lemma insert_block_drops_terminator i b : terminator (insert_block_drops f before i b) = terminator b.
Proof. unfold insert_block_drops. by destruct (mjoin _). Qed.

Lemma drops_edge i j : edge f' i j ↔ edge f i j.
Proof.
  unfold edge, block_successors. rewrite drops_length, drops_blocks.
  destruct (fn_blocks f !! i) as [b|]; simpl; [|done]. by rewrite insert_block_drops_terminator.
Qed.

Lemma drops_reaches i : reaches f i → reaches f' i.
Proof.
  induction 1 as [H|i j _ IH He]; [apply reaches_entry; by rewrite drops_length|].
  eapply reaches_step; [done|]. by apply drops_edge.
Qed.

Lemma drops_parameters : parameters f' = parameters f.
Proof. unfold insert_function_drops. by destruct (fn_blocks f). Qed.

Lemma drops_universe : universe f' = universe f.
Proof. unfold insert_function_drops. by destruct (fn_blocks f). Qed.

(** A block after insertion, at a block the analysis reached. *)
Lemma insert_block_drops_reached i b O :
  before !! i = Some (Some O) →
  insert_block_drops f before i b =
    {| statements := statements b ++ ((λ l, StDrop (PLocal l)) <$>
         dropped (drop_candidates before b (foldl transfer_statement O (statements b))));
       terminator := terminator b |}.
Proof. intros HO. unfold insert_block_drops. by rewrite HO. Qed.

(** ** The analysis before insertion is one of the function after it *)

Lemma drops_transfer_subset i b X : transfer_block (insert_block_drops f before i b) X ⊆ transfer_block b X.
Proof.
  unfold insert_block_drops. destruct (mjoin _) as [O|]; [|done].
  unfold transfer_block. simpl. rewrite foldl_app, drop_statements_dropped, transfer_drops.
  destruct (terminator b); [apply consume_terminator_update|]; set_solver.
Qed.

(** Along an edge, what the target owns survives the inserted drops. *)
Lemma drops_postfixpoint i j b O Oj :
  before !! i = Some (Some O) → before !! j = Some (Some Oj) → fn_blocks f !! i = Some b →
  edge f i j → Oj ⊆ transfer_block (insert_block_drops f before i b) O.
Proof.
  intros HO HOj Hb He. pose proof (must_analysis_lookup _ _ _ _ _ HOj) as Hr.
  pose proof (must_analysis_fixpoint f transfer_block (λ _, true) i j b O Oj HO HOj Hb He Hr eq_refl) as Hfix.
  rewrite (insert_block_drops_reached i b O HO). unfold transfer_block in *. simpl.
  destruct He as [_ (s&Hs&<-)]. unfold block_successors in Hs. rewrite Hb in Hs.
  rewrite foldl_app, transfer_drops. unfold drop_candidates in *.
  destruct (terminator b) as [[|target|v targets otherwise|callee args p next]|]; simpl in *.
  - by apply not_elem_of_nil in Hs.
  - apply list_elem_of_singleton in Hs as ->. rewrite HOj. simpl.
    intros l Hl. apply elem_of_difference. split; [by apply Hfix|].
    rewrite elem_of_list_to_set, elem_of_dropped. set_solver.
  - replace (list_to_set (dropped ∅) : gset LocalId) with (∅ : gset LocalId) by (vm_compute; done).
    by rewrite difference_empty_L.
  - replace (list_to_set (dropped ∅) : gset LocalId) with (∅ : gset LocalId) by (vm_compute; done).
    by rewrite difference_empty_L.
  - by apply not_elem_of_nil in Hs.
Qed.

(** What the analysis owned survives on every path after insertion. *)
Lemma drops_path_owned j X :
  path_state f' transfer_block j X → ∀ O, before !! j = Some (Some O) → O ⊆ X.
Proof.
  induction 1 as [H0|i j b' X Hi IH Hb He]; intros Oj HOj.
  { rewrite drops_parameters. by eapply (analysis_entry f transfer_block (λ _, true)). }
  rewrite drops_blocks in Hb. apply fmap_Some in Hb as (b&Hb&->). apply drops_edge in He.
  assert (reaches f i) as Hr.
  { apply path_state_reaches in Hi. clear -Hi. induction Hi as [H|i j _ IH He].
    - apply reaches_entry. by rewrite drops_length in H.
    - eapply reaches_step; [done|]. by apply drops_edge. }
  destruct (must_analysis_reaches f transfer_block (λ _, true) i Hr) as [O HO].
  etrans; [by eapply (drops_postfixpoint i j b O)|]. apply transfer_mono. by apply IH.
Qed.

(** Each path before insertion has a counterpart that owns no more. *)
Lemma drops_path_exists j X :
  path_state f transfer_block j X → ∃ X', path_state f' transfer_block j X' ∧ X' ⊆ X.
Proof.
  induction 1 as [H0|i j b X _ (X'&HX'&Hsub) Hb He].
  - exists (parameters f'). split; [apply path_entry; by rewrite drops_length|].
    by rewrite drops_parameters.
  - exists (transfer_block (insert_block_drops f before i b) X'). split.
    + eapply path_step; [done|by rewrite drops_blocks, Hb|by apply drops_edge].
    + etrans; [apply drops_transfer_subset|]. by apply transfer_mono.
Qed.

(** The two analyses agree on the locals of the function. *)
Lemma drops_analysis i O O' l :
  before !! i = Some (Some O) → after !! i = Some (Some O') → l ∈ universe f → l ∈ O' ↔ l ∈ O.
Proof.
  intros HO HO' Hl.
  rewrite (analysis_meet_over_paths f' transfer_block (λ _, true)); [|done|done|done|by rewrite drops_universe].
  split.
  - intros Hall. rewrite (analysis_meet_over_paths f transfer_block (λ _, true)); [|done..].
    intros X (X'&HX'&Hsub)%drops_path_exists. by apply Hsub, Hall.
  - intros HlO X HX. by eapply drops_path_owned.
Qed.
End drops.

(** ** Theorem *)

Lemma foldl_transfer_pointwise sts l (X Y : gset LocalId) :
  (l ∈ X ↔ l ∈ Y) → l ∈ foldl transfer_statement X sts → l ∈ foldl transfer_statement Y sts.
Proof. apply (local_update_foldl transfer_statement sts transfer_statement_update). Qed.

(** C5: inserted drops are exact.  In every reachable block of the function
    after insertion the pass has appended distinct drops of locals that the
    ownership analysis of that function owns there, and afterwards no owned
    affine local but the return slot is left at a return, and every one left at
    a goto is owned by its target. *)
Theorem inserted_drops_exact f i b' O' :
  reaches f i → fn_blocks (insert_function_drops f) !! i = Some b' →
  ownership_analysis (insert_function_drops f) !! i = Some (Some O') →
  ∃ b ds, fn_blocks f !! i = Some b ∧
    statements b' = statements b ++ ((λ l, StDrop (PLocal l)) <$> ds) ∧ NoDup ds ∧
    (∀ l, l ∈ ds → l ∈ universe f → l ∈ foldl transfer_statement O' (statements b)) ∧
    (∀ l ty, l ∈ universe f → l ≠ 0 → local_type f l = Some ty → mir_type_needs_drop ty = true →
       l ∈ foldl transfer_statement O' (statements b') →
       match terminator b with
       | Some TmReturn => False
       | Some (TmGoto target) => (N.to_nat target < length (fn_blocks f))%nat →
           ∃ Oj, ownership_analysis (insert_function_drops f) !! N.to_nat target = Some (Some Oj) ∧ l ∈ Oj
       | _ => True
       end).
Proof.
  intros Hr Hb' HO'. rewrite drops_blocks in Hb'. apply fmap_Some in Hb' as (b&Hb&->).
  destruct (must_analysis_reaches f transfer_block (λ _, true) i Hr) as [O HO].
  rewrite (insert_block_drops_reached f i b O HO). simpl.
  set (candidates := drop_candidates _ b _). exists b, (dropped f candidates).
  split; [done|]. split; [done|]. split; [apply NoDup_dropped|].
  assert (∀ l, l ∈ universe f → l ∈ O ↔ l ∈ O') as Hagree.
  { intros l Hl. symmetry. by eapply drops_analysis. }
  split.
  - intros l [Hl _]%elem_of_dropped Hu.
    apply (foldl_transfer_pointwise _ l O); [by apply Hagree|].
    revert Hl. unfold candidates, drop_candidates.
    destruct (terminator b) as [[|target| |]|]; [done| |set_solver..].
    destruct (mjoin _); set_solver.
  - intros l ty Hu H0 Hty Hneeds. rewrite foldl_app, transfer_drops.
    intros [Hl Hnd]%elem_of_difference. rewrite elem_of_list_to_set, elem_of_dropped in Hnd.
    assert (droppable f l = true) as Hd.
    { unfold droppable. rewrite Hty, Hneeds, bool_decide_eq_false_2 by done. done. }
    apply (foldl_transfer_pointwise _ l O' O) in Hl; [|symmetry; by apply Hagree].
    assert (l ∉ candidates) as Hnc by tauto. revert Hnc. unfold candidates, drop_candidates.
    destruct (terminator b) as [[|target| |]|] eqn:Et; [done| |done..]. intros Hnc Hlt.
    assert (reaches f (N.to_nat target)) as Hrt.
    { eapply reaches_step; [exact Hr|]. split; [done|]. exists target. split; [|done].
      unfold block_successors. rewrite Hb, Et. by apply list_elem_of_singleton. }
    destruct (must_analysis_reaches f transfer_block (λ _, true) _ Hrt) as [Oj HOj].
    rewrite HOj in Hnc. simpl in Hnc.
    destruct (must_analysis_reaches (insert_function_drops f) transfer_block (λ _, true) (N.to_nat target))
      as [Oj' HOj']; [by apply drops_reaches|].
    exists Oj'. split; [done|]. eapply drops_analysis; [exact HOj|done|done|]. set_solver.
Qed.

(** Takes a string and returns a number without using the string. *)
Definition leaking_function : MirFunction := {|
  fn_id := main_id; parameter_count := 1; return_type := TyI64;
  fn_locals := [TyI64; TyString];
  fn_blocks := [block_of [assign_local 0 (RvUse (OpConstant (CI64 1)))] TmReturn]
|}.

Lemma inserted_drops_exact_witness :
  ∃ b ds, fn_blocks leaking_function !! 0%nat = Some b ∧
    [assign_local 0 (RvUse (OpConstant (CI64 1))); StDrop (PLocal 1)] =
      statements b ++ ((λ l, StDrop (PLocal l)) <$> ds) ∧ NoDup ds ∧
    (∀ l, l ∈ ds → l ∈ universe leaking_function →
       l ∈ foldl transfer_statement {[1]} (statements b)) ∧
    (∀ l ty, l ∈ universe leaking_function → l ≠ 0 → local_type leaking_function l = Some ty →
       mir_type_needs_drop ty = true →
       l ∈ foldl transfer_statement {[1]} [assign_local 0 (RvUse (OpConstant (CI64 1))); StDrop (PLocal 1)] →
       match terminator b with
       | Some TmReturn => False
       | Some (TmGoto target) => (N.to_nat target < length (fn_blocks leaking_function))%nat →
           ∃ Oj, ownership_analysis (insert_function_drops leaking_function) !! N.to_nat target =
                   Some (Some Oj) ∧ l ∈ Oj
       | _ => True
       end).
Proof.
  apply (inserted_drops_exact leaking_function 0
    (block_of [assign_local 0 (RvUse (OpConstant (CI64 1))); StDrop (PLocal 1)] TmReturn) {[1]}).
  - apply reaches_entry. vm_compute. lia.
  - vm_compute. reflexivity.
  - vm_compute. reflexivity.
Defined.

(** * Sample HIR programs, their lowering and their execution *)

Open Scope string_scope.
Open Scope N_scope.

Definition i64_type : ResolvedType := RtPrimitive (PrimSigned "I64").
Definition bool_type : ResolvedType := RtPrimitive PrimBool.

Definition def (i : N) : DefId := {| module := 0; index := i |}.
Definition typed (ty : ResolvedType) (k : HirExprKind) : TypedExpr := mkExpr k ty default_span.
Definition int (z : Z) : TypedExpr := typed i64_type (HLiteral (LitInteger z)).
Definition boolean (b : bool) : TypedExpr := typed bool_type (HLiteral (LitBoolean b)).
Definition block_expr (ty : ResolvedType) (sts : list HirStatement) : TypedExpr :=
  typed ty (HBlock (mkBlock sts default_span)).
Definition arm (p : HirPattern) (body : TypedExpr) : HirMatchArm := mkArm p None body default_span.

Definition main_function (result : ResolvedType) (body : list HirStatement) : HirFunction := {|
  is_test := false; asynchronous := false; public := false; declared_effects := None;
  hf_parameters := []; hf_result := result; hf_body := mkBlock body default_span
|}.

Definition define (id : DefId) (name : string) (kind : HirDefinitionKind) : HirDefinition :=
  {| hd_id := id; hd_name := name; hd_kind := kind; hd_span := default_span |}.

(** [enum Choice { A, B }] *)
Definition choice_enum : HirDefinition :=
  define (def 10) "Choice"
    (KindEnum [{| hv_id := def 11; hv_name := "A"; hv_fields := []; hv_span := default_span |};
               {| hv_id := def 12; hv_name := "B"; hv_fields := []; hv_span := default_span |}]).

Definition main_program (result : ResolvedType) (body : list HirStatement) : HirProgram := {|
  schema_version := 1;
  modules := [{| hm_module := 0;
                 definitions := [choice_enum; define (def 0) "main" (KindFunction (main_function result body))] |}];
  hir_entry := Some (def 0)
|}.

(** Lowers a program and runs it from [main]. *)
Definition lower_and_run (p : HirProgram) : option (outcome RuntimeValue) :=
  match lower_to_mir p with
  | Err _ => None
  | Ok program =>
      match execute 30 program (def 0) default_limits with
      | Some (Done r) => Some (Done (er_value r))
      | Some (Failed e) => Some (Failed e)
      | Some (Panicked reason) => Some (Panicked reason)
      | None => None
      end
  end.

(** [match Choice::B { A => 1, _ => 40 } + 2] *)
Definition match_program : HirProgram :=
  main_program i64_type
    [HExpression (typed i64_type (HBinary OpAdd
       (typed i64_type (HMatch (typed (RtEnum "Choice") (HReference (def 12)))
          [arm (PatVariant (def 11) []) (int 1); arm PatWildcard (int 40)]))
       (int 2)))].

(** [let x = { 1 }; x + 41] *)
Definition nested_block_program : HirProgram :=
  main_program i64_type
    [HLet (def 1) "x" i64_type (block_expr i64_type [HExpression (int 1)]);
     HExpression (typed i64_type (HBinary OpAdd (typed i64_type (HReference (def 1))) (int 41)))].

(** [match Choice::A { A => { return 1 }, _ => 2 } + 10] *)
Definition return_in_arm_program : HirProgram :=
  main_program i64_type
    [HExpression (typed i64_type (HBinary OpAdd
       (typed i64_type (HMatch (typed (RtEnum "Choice") (HReference (def 11)))
          [arm (PatVariant (def 11) []) (block_expr i64_type [HReturn (Some (int 1))]);
           arm PatWildcard (int 2)]))
       (int 10)))].

(** [match true { true => 1, _ => 2 }] *)
Definition bool_match_program : HirProgram :=
  main_program i64_type
    [HExpression (typed i64_type (HMatch (boolean true)
       [arm (PatLiteral (LitBoolean true)) (int 1); arm PatWildcard (int 2)]))].

(** [false && 1 / 0 == 1] *)
Definition conjunction_program : HirProgram :=
  main_program bool_type
    [HExpression (typed bool_type (HBinary OpAnd (boolean false)
       (typed bool_type (HBinary OpEqual
          (typed i64_type (HBinary OpDivide (int 1) (int 0))) (int 1)))))].

Example match_program_runs : lower_and_run match_program = Some (Done (RI64 42)).
Proof. vm_compute. reflexivity. Qed.

(** Lowering a function never loses control flow: when block identities do
    not run out, the function has its return slot and parameters, at least one
    block, a terminator in every block, and every jump, switch and call
    continues in a block of the function. *)
Theorem lowered_function_shape index d fn :
  N.of_nat (length (hf_parameters fn)) ≤ u32_max →
  N.of_nat (length (fn_blocks (lower_function index d fn builder_new).1)) ≤ u32_max →
  lowered_shape (lower_function index d fn builder_new).1.
Proof. apply lower_function_shape. Qed.

Definition nested_block_main : HirFunction :=
  main_function i64_type [HExpression (typed i64_type (HBinary OpAdd (int 1) (int 41)))].

Lemma lowered_function_shape_witness :
  lowered_shape
    (lower_function (index_new match_program) choice_enum nested_block_main builder_new).1.
Proof. apply (lowered_function_shape (index_new match_program) choice_enum nested_block_main); vm_compute; discriminate. Defined.

(** A block used as a value ends the function: [let x = { 1 }; x + 41]
    lowers, verifies and returns 1, because the nested block's result is
    written to the return slot and the block is terminated with a return. *)
Lemma nested_block_returns_early :
  lower_and_run nested_block_program = Some (Done (RI64 1)).
Proof. vm_compute. reflexivity. Qed.

(** A return inside a match arm is lost: the arm's jump to the join block
    replaces the return, so [match Choice::A { A => { return 1 }, _ => 2 } + 10]
    evaluates to 11. *)
Lemma return_in_match_arm_is_lost :
  lower_and_run return_in_arm_program = Some (Done (RI64 11)).
Proof. vm_compute. reflexivity. Qed.

(** Lowering changes what some programs mean: a block used as a value ends
    the function with its own result, a return inside a match arm is lost to
    the arm's jump, a match on a boolean reads a discriminant the interpreter
    refuses, and [&&] evaluates its right operand even when the left is false,
    so a division by zero there is not skipped. *)
Theorem lowering_changes_meaning :
  lower_and_run nested_block_program = Some (Done (RI64 1)) ∧
  lower_and_run return_in_arm_program = Some (Done (RI64 11)) ∧
  lower_and_run bool_match_program =
    Some (Failed (Trap "discriminant read requires an aggregate")) ∧
  lower_and_run conjunction_program = Some (Failed (Trap "U64 division by zero")).
Proof.
  split; [apply nested_block_returns_early|]. split; [apply return_in_match_arm_is_lost|].
  vm_compute. split; reflexivity.
Qed.
