(* ===== verification/Effects.v ===== *)
(** * Effect inference (crates/syllog-compiler/src/effects.rs)

    Direct effects and calls of each executable definition, the inference loop
    over the call graph, declared bounds and the capability manifest.  The loop
    carries a step budget; [infer_exact] in the theorems shows it suffices. *)

From stdpp Require Import base gmap list strings numbers sorting.
From S2P Require Import Prelude Text Ir Hir.
Open Scope string_scope.
Open Scope N_scope.
Open Scope list_scope.

Inductive EffectMessage :=
| PureCombined
| DuplicateEffect (name : string)
| UnknownEffect (name : string)
| OmitsInferred (missing : list Effect).

Record EffectError := {
  ee_code : string;
  ee_message : EffectMessage;
  ee_span : Span
}.

Record EffectAnalysis := {
  ea_functions : gmap DefId (gset Effect);
  manifest : CapabilityManifest
}.

Record LocalEffects := {
  direct : gset Effect;
  calls : gset DefId
}.

Definition no_effects : LocalEffects := {| direct := ∅; calls := ∅ |}.

Definition add_direct (X : gset Effect) (e : LocalEffects) : LocalEffects :=
  {| direct := X ∪ direct e; calls := calls e |}.

Definition add_call (id : DefId) (e : LocalEffects) : LocalEffects :=
  {| direct := direct e; calls := {[id]} ∪ calls e |}.

(** ** Inspection of bodies *)

Fixpoint inspect_expr (expression : TypedExpr) (effects : LocalEffects) : LocalEffects :=
  match expression with
  | mkExpr kind _ _ =>
      match kind with
      | HAwait operand => inspect_expr operand (add_direct {[EffAsync]} effects)
      | HLiteral (LitString _) => add_direct {[EffAlloc]} effects
      | HArray items =>
          fold_left (λ effects item, inspect_expr item effects) items
            (add_direct {[EffAlloc]} effects)
      | HCall callee arguments =>
          let effects :=
            match expr_kind callee with
            | HReference definition => add_call definition effects
            | _ => effects
            end in
          fold_left (λ effects argument, inspect_expr argument effects) arguments
            (inspect_expr callee effects)
      | HBorrow _ operand | HField operand _ | HUnary _ operand => inspect_expr operand effects
      | HBinary _ lhs rhs => inspect_expr rhs (inspect_expr lhs effects)
      | HMatch value arms =>
          fold_left (λ effects arm,
            match arm with
            | mkArm _ guard body _ =>
                inspect_expr body
                  (match guard with Some guard => inspect_expr guard effects | None => effects end)
            end) arms (inspect_expr value effects)
      | HBlock (mkBlock sts _) =>
          fold_left (λ effects st,
            match st with
            | HLet _ _ _ value | HExpression value => inspect_expr value effects
            | HReturn (Some value) => inspect_expr value effects
            | HReturn None => effects
            end) sts effects
      | HLiteral _ | HReference _ => effects
      end
  end.

Definition inspect_block (block : HirBlock) (effects : LocalEffects) : LocalEffects :=
  fold_left (λ effects st,
    match statement_value st with
    | Some value => inspect_expr value effects
    | None => effects
    end) (block_statements block) effects.

(** ** Declared bounds *)

(** The loop over the names: parsed effects, names seen, errors. *)
Fixpoint parse_names (names : list string) (span : Span) (parsed : gset Effect)
    (seen : gset string) : gset Effect * list EffectError :=
  match names with
  | [] => (parsed, [])
  | name :: names =>
      if bool_decide (name ∈ seen)
      then
        let '(parsed, errors) := parse_names names span parsed seen in
        (parsed, {| ee_code := "SYL2701"; ee_message := DuplicateEffect name; ee_span := span |} :: errors)
      else
        let seen := {[name]} ∪ seen in
        if bool_decide (name = "pure") then parse_names names span parsed seen
        else
          match from_source name with
          | Some effect => parse_names names span ({[effect]} ∪ parsed) seen
          | None =>
              let '(parsed, errors) := parse_names names span parsed seen in
              (parsed, {| ee_code := "SYL2701"; ee_message := UnknownEffect name; ee_span := span |} :: errors)
          end
  end.

Definition parse_declaration (declaration : option (list string)) (span : Span)
    : option (gset Effect) * list EffectError :=
  match declaration with
  | None => (None, [])
  | Some declaration =>
      let pure := existsb (String.eqb "pure") declaration in
      let combined :=
        if pure && negb (bool_decide (length declaration = 1%nat))
        then [{| ee_code := "SYL2701"; ee_message := PureCombined; ee_span := span |}] else [] in
      let '(parsed, errors) := parse_names declaration span ∅ ∅ in
      (Some parsed, combined ++ errors)
  end.

(** ** Collection *)

Record Collected := {
  local : gmap DefId LocalEffects;
  declarations : gmap DefId (option (gset Effect) * Span);
  collected_errors : list EffectError
}.

Definition collect_definition (c : Collected) (d : HirDefinition) : Collected :=
  match hd_kind d with
  | KindFunction function =>
      let effects := inspect_block (hf_body function)
        (if asynchronous function then add_direct {[EffAsync]} no_effects else no_effects) in
      let '(declared, errors) := parse_declaration (declared_effects function) (hd_span d) in
      {| local := <[hd_id d := effects]> (local c);
         declarations := <[hd_id d := (declared, hd_span d)]> (declarations c);
         collected_errors := collected_errors c ++ errors |}
  | KindPipeline pipeline =>
      let effects :=
        match agent pipeline with
        | Some _ => add_direct {[EffNetwork; EffProvider]} no_effects
        | None => no_effects
        end in
      let effects :=
        match pl_body pipeline with
        | Some body => inspect_expr body effects
        | None => effects
        end in
      {| local := <[hd_id d := effects]> (local c); declarations := declarations c;
         collected_errors := collected_errors c |}
  | _ => c
  end.

Definition collect (p : HirProgram) : Collected :=
  foldl collect_definition {| local := ∅; declarations := ∅; collected_errors := [] |}
    (program_definitions p).

(** ** Inference *)

(** The effects of a definition's callees in a snapshot. *)
Definition callee_effects (snapshot : gmap DefId (gset Effect)) (e : LocalEffects) : gset Effect :=
  foldl (λ X callee, X ∪ default ∅ (snapshot !! callee)) ∅ (elements (calls e)).

(** One pass over the definitions; each target reads the snapshot only. *)
Definition infer_pass (local : gmap DefId LocalEffects) (inferred : gmap DefId (gset Effect))
    : gmap DefId (gset Effect) :=
  map_imap (λ id e, Some (default ∅ (inferred !! id) ∪ callee_effects inferred e)) local.

Fixpoint infer_loop (local : gmap DefId LocalEffects) (fuel : nat)
    (inferred : gmap DefId (gset Effect)) : option (gmap DefId (gset Effect)) :=
  match fuel with
  | O => None
  | S fuel =>
      let next := infer_pass local inferred in
      if bool_decide (next = inferred) then Some next else infer_loop local fuel next
  end.

(** Each pass that changes something adds one of five effects to a definition. *)
Definition infer_budget (local : gmap DefId LocalEffects) : nat := S (size local * 5).

Definition infer (local : gmap DefId LocalEffects) : option (gmap DefId (gset Effect)) :=
  infer_loop local (infer_budget local) (direct <$> local).

(** ** The analysis *)

Definition effect_rank (e : Effect) : N :=
  match e with EffAlloc => 0 | EffAsync => 1 | EffIo => 2 | EffNetwork => 3 | EffProvider => 4 end.

(** The derived order of [Effect]. *)
Definition effect_le (a b : Effect) : Prop := effect_rank a ≤ effect_rank b.

#[export] Instance effect_le_dec : RelDecision effect_le.
Proof. intros a b. unfold effect_le. apply _. Defined.

(** The elements of a [BTreeSet<Effect>] in order. *)
Definition sorted_effects (X : gset Effect) : list Effect :=
  merge_sort effect_le (elements X).

Definition bound_errors (inferred : gmap DefId (gset Effect))
    (entry : DefId * (option (gset Effect) * Span)) : list EffectError :=
  let '(id, (declared, span)) := entry in
  match declared with
  | None => []
  | Some declared =>
      let missing := default ∅ (inferred !! id) ∖ declared in
      if bool_decide (missing = ∅) then []
      else [{| ee_code := "SYL2702"; ee_message := OmitsInferred (sorted_effects missing);
               ee_span := span |}]
  end.

(** [sort_by_key(|error| (error.span.start, error.code))] *)
Definition error_le (a b : EffectError) : bool :=
  (span_start (ee_span a) <? span_start (ee_span b)) ||
  ((span_start (ee_span a) =? span_start (ee_span b)) && String.leb (ee_code a) (ee_code b)).

(** [None] is an exhausted step budget. *)
Definition analyze_effects (p : HirProgram) : option (result EffectAnalysis (list EffectError)) :=
  let c := collect p in
  inferred ← infer (local c);
  let errors := collected_errors c ++
    flat_map (bound_errors inferred)
      (merge_sort (λ a b, def_id_le a.1 b.1) (map_to_list (declarations c))) in
  match errors with
  | _ :: _ => Some (Err (stable_sort error_le errors))
  | [] =>
      Some (Ok {| ea_functions := inferred;
                  manifest := {| format_version := 1;
                                 required := ⋃ (snd <$> map_to_list inferred) |} |})
  end.
