(* ===== verification/EffectsTheorems.v ===== *)
(** * Correctness of effect inference *)

From stdpp Require Import base gmap list strings numbers sorting.
From S2P Require Import Prelude Text Ir Hir MirLowerTheorems Effects.
Open Scope N_scope.
Open Scope list_scope.

(** ** Inspection is a fold over the pre-order traversal *)

(** What one expression node contributes. *)
Definition note (effects : LocalEffects) (e : TypedExpr) : LocalEffects :=
  match expr_kind e with
  | HAwait _ => add_direct {[EffAsync]} effects
  | HLiteral (LitString _) | HArray _ => add_direct {[EffAlloc]} effects
  | HCall callee _ =>
      match expr_kind callee with
      | HReference definition => add_call definition effects
      | _ => effects
      end
  | _ => effects
  end.

Lemma fold_left_walk {A} (g : LocalEffects → A → LocalEffects) (h : A → list TypedExpr) (l : list A) :
  (∀ x effects, x ∈ l → g effects x = foldl note effects (h x)) →
  ∀ effects, fold_left g l effects = foldl note effects (flat_map h l).
Proof.
  induction l as [|x l IH]; intros Hg effects; [done|]. cbn [fold_left flat_map].
  rewrite foldl_app, <-Hg by constructor. apply IH. intros y eff Hy. apply Hg. by constructor.
Qed.

Lemma inspect_expr_walk e effects : inspect_expr e effects = foldl note effects (walk e).
Proof.
  revert effects. induction e as [kind ty span IH] using TypedExpr_children_ind. intros effects.
  rewrite list.Forall_forall in IH.
  destruct kind as [m e|e|l|d|items|callee args|e d|op e|op lhs rhs|value arms|[sts sp]];
    cbn [inspect_expr walk children] in *; cbn [foldl].
  - apply IH. constructor.
  - apply IH. constructor.
  - by destruct l.
  - done.
  - apply fold_left_walk. intros x eff Hx. by apply IH.
  - rewrite foldl_app, <-IH by constructor.
    change (note effects (mkExpr (HCall callee args) ty span)) with
      (match expr_kind callee with HReference definition => add_call definition effects | _ => effects end).
    apply fold_left_walk. intros x eff Hx. apply IH. by constructor.
  - apply IH. constructor.
  - apply IH. constructor.
  - rewrite foldl_app, <-!IH; [done|by repeat constructor..].
  - rewrite foldl_app, <-IH by constructor.
    change (note effects (mkExpr (HMatch value arms) ty span)) with effects.
    apply fold_left_walk. intros [pattern guard body sp] eff Hx.
    assert (∀ x, x ∈ option_list guard ++ [body] → x ∈ value ::
      flat_map (λ arm, let 'mkArm _ guard body _ := arm in option_list guard ++ [body]) arms) as Hin.
    { intros x Hxx. constructor. apply list_elem_of_In, in_flat_map.
      exists (mkArm pattern guard body sp). split; by apply list_elem_of_In. }
    rewrite foldl_app, <-IH by (apply Hin, elem_of_app; right; constructor).
    destruct guard as [g|]; [|done]. rewrite <-IH; [done|]. apply Hin. constructor.
  - change (note effects (mkExpr (HBlock (mkBlock sts sp)) ty span)) with effects.
    apply fold_left_walk. intros st eff Hst.
    assert (∀ v, statement_value st = Some v → ∀ eff, inspect_expr v eff = foldl note eff (walk v)) as Hv.
    { intros v Hv. apply IH, list_elem_of_In, in_flat_map. exists st.
      split; [by apply list_elem_of_In|]. rewrite Hv. by left. }
    destruct st as [? ? ? v|[v|]|v]; by try apply Hv.
Qed.

Lemma foldl_note_direct es effects x :
  x ∈ direct (foldl note effects es) ↔
  x ∈ direct effects ∨ ∃ e, e ∈ es ∧ x ∈ direct (note no_effects e).
Proof.
  revert effects. induction es as [|e es IH]; intros effects; simpl.
  { split; [by left|]. intros [|(e&He%not_elem_of_nil&_)]; done. }
  rewrite IH. assert (x ∈ direct (note effects e) ↔ x ∈ direct effects ∨ x ∈ direct (note no_effects e)) as ->.
  { unfold note. destruct (expr_kind e) as [| |[]| | |c ?| | | | |]; simpl; try set_solver.
    destruct (expr_kind c); simpl; set_solver. }
  set_solver.
Qed.

Lemma foldl_note_calls es effects id :
  id ∈ calls (foldl note effects es) ↔
  id ∈ calls effects ∨ ∃ e, e ∈ es ∧ id ∈ calls (note no_effects e).
Proof.
  revert effects. induction es as [|e es IH]; intros effects; simpl.
  { split; [by left|]. intros [|(e&He%not_elem_of_nil&_)]; done. }
  rewrite IH. assert (id ∈ calls (note effects e) ↔ id ∈ calls effects ∨ id ∈ calls (note no_effects e)) as ->.
  { unfold note. destruct (expr_kind e) as [| |[]| | |c ?| | | | |]; simpl; try set_solver.
    destruct (expr_kind c); simpl; set_solver. }
  set_solver.
Qed.

(** ** The inference loop *)

(** Effects a definition has itself or through a chain of calls. *)
Inductive has_effect (local : gmap DefId LocalEffects) : DefId → Effect → Prop :=
| effect_direct id e x : local !! id = Some e → x ∈ direct e → has_effect local id x
| effect_call id e callee x :
    local !! id = Some e → callee ∈ calls e → has_effect local callee x → has_effect local id x.

(** The pairs of a table of effects. *)
Definition graph (m : gmap DefId (gset Effect)) : gset (DefId * Effect) :=
  list_to_set (flat_map (λ p, (λ x, (p.1, x)) <$> elements p.2) (map_to_list m)).

Lemma elem_of_graph m id x : (id, x) ∈ graph m ↔ ∃ X, m !! id = Some X ∧ x ∈ X.
Proof.
  unfold graph. rewrite elem_of_list_to_set, list_elem_of_In, in_flat_map. split.
  - intros ([id' X]&Hp%list_elem_of_In&Hx%list_elem_of_In). apply elem_of_map_to_list in Hp.
    apply list_elem_of_fmap in Hx as (y&[= -> ->]&Hy%elem_of_elements). eauto.
  - intros (X&HX&Hx). exists (id, X). rewrite <-!list_elem_of_In, elem_of_map_to_list.
    split; [done|]. apply list_elem_of_fmap. exists x. by rewrite elem_of_elements.
Qed.

Lemma elem_of_callee_effects snapshot e x :
  x ∈ callee_effects snapshot e ↔ ∃ callee X, callee ∈ calls e ∧ snapshot !! callee = Some X ∧ x ∈ X.
Proof.
  unfold callee_effects.
  assert (∀ l (Y : gset Effect), x ∈ foldl (λ X callee, X ∪ default ∅ (snapshot !! callee)) Y l ↔
    x ∈ Y ∨ ∃ callee X, callee ∈ l ∧ snapshot !! callee = Some X ∧ x ∈ X) as H.
  { induction l as [|c l IH]; intros Y; simpl.
    { split; [by left|]. intros [|(?&?&?%not_elem_of_nil&_)]; done. }
    rewrite IH, elem_of_union. destruct (snapshot !! c) as [X|] eqn:E; simpl; set_solver. }
  rewrite H. set_solver.
Qed.

Section infer.
Context (local : gmap DefId LocalEffects).

Lemma infer_pass_lookup inferred id :
  infer_pass local inferred !! id =
  (λ e, default ∅ (inferred !! id) ∪ callee_effects inferred e) <$> local !! id.
Proof. unfold infer_pass. rewrite map_lookup_imap. by destruct (local !! id). Qed.

(** What the loop keeps: one set per definition, between the direct effects and
    the effects the definition has. *)
Definition infer_inv (m : gmap DefId (gset Effect)) : Prop :=
  dom m = dom local ∧
  (∀ id e X, local !! id = Some e → m !! id = Some X → direct e ⊆ X) ∧
  (∀ id X x, m !! id = Some X → x ∈ X → has_effect local id x).

Lemma infer_pass_inv m : infer_inv m → infer_inv (infer_pass local m) ∧ graph m ⊆ graph (infer_pass local m).
Proof.
  intros (Hdom&Hdir&Heff). split; [split; [|split]|].
  - apply set_eq. intros id. rewrite !elem_of_dom, infer_pass_lookup, fmap_is_Some. done.
  - intros id e X He HX. rewrite infer_pass_lookup, He in HX. simpl in HX. simplify_eq.
    destruct (m !! id) as [Y|] eqn:E; simpl; [apply (Hdir id e Y) in E; set_solver|].
    exfalso. apply not_elem_of_dom in E. apply E. rewrite Hdom. by eapply elem_of_dom_2.
  - intros id X x HX Hx. rewrite infer_pass_lookup in HX. apply fmap_Some in HX as (e&He&->).
    apply elem_of_union in Hx as [Hx|(c&Y&Hc&HY&Hx)%elem_of_callee_effects].
    + destruct (m !! id) as [Y|] eqn:E; simpl in Hx; [by eapply Heff|set_solver].
    + eapply effect_call; [done..|]. by eapply Heff.
  - intros [id x] (X&HX&Hx)%elem_of_graph. apply elem_of_graph.
    assert (is_Some (local !! id)) as [e He].
    { apply elem_of_dom. rewrite <-Hdom. by eapply elem_of_dom_2. }
    exists (X ∪ callee_effects m e). rewrite infer_pass_lookup, He, HX. simpl. set_solver.
Qed.

(** Tables over the same definitions with the same pairs are equal. *)
Lemma graph_inj m m' : dom m = dom m' → graph m = graph m' → m = m'.
Proof.
  intros Hdom Hg. apply map_eq. intros id.
  assert (∀ x, (∃ X, m !! id = Some X ∧ x ∈ X) ↔ (∃ X, m' !! id = Some X ∧ x ∈ X)) as Hx.
  { intros x. rewrite <-!elem_of_graph. by rewrite Hg. }
  destruct (m !! id) as [X|] eqn:E, (m' !! id) as [Y|] eqn:E'.
  - f_equal. apply set_eq. intros x. specialize (Hx x). naive_solver.
  - apply elem_of_dom_2 in E. rewrite Hdom in E. by apply elem_of_dom in E as [? ?]; simplify_eq.
  - apply elem_of_dom_2 in E'. rewrite <-Hdom in E'. by apply elem_of_dom in E' as [? ?]; simplify_eq.
  - done.
Qed.

Definition all_effects : list Effect := [EffAlloc; EffAsync; EffIo; EffNetwork; EffProvider].

Lemma graph_bound m : dom m = dom local → (size (graph m) ≤ size local * 5)%nat.
Proof.
  intros Hdom.
  assert (graph m ⊆ list_to_set (list_prod (elements (dom local)) all_effects)) as Hsub.
  { intros [id x] (X&HX&_)%elem_of_graph. apply elem_of_list_to_set, list_elem_of_In, in_prod.
    - apply list_elem_of_In, elem_of_elements. rewrite <-Hdom. by eapply elem_of_dom_2.
    - apply list_elem_of_In. destruct x; unfold all_effects; set_solver. }
  apply subseteq_size in Hsub. etrans; [exact Hsub|].
  etrans; [apply size_list_to_set_le|].
  rewrite length_prod. change (length (elements (dom local))) with (size (dom local)).
  by rewrite size_dom.
Qed.

(** A pass that changes the table adds a pair. *)
Lemma infer_loop_total fuel m :
  infer_inv m → (size local * 5 < fuel + size (graph m))%nat →
  ∃ m', infer_loop local fuel m = Some m' ∧ infer_inv m' ∧ infer_pass local m' = m'.
Proof.
  revert m. induction fuel as [|fuel IH]; intros m Hinv Hlt; simpl.
  { pose proof (graph_bound m (proj1 Hinv)). lia. }
  destruct (infer_pass_inv m Hinv) as [Hinv' Hsub]. case_bool_decide as E.
  - exists (infer_pass local m). split; [done|]. split; [done|]. by rewrite !E.
  - apply IH; [done|]. assert (size (graph m) < size (graph (infer_pass local m)))%nat; [|lia].
    apply subset_size. split; [done|]. intros Hsup. apply E, graph_inj.
    + destruct Hinv as [-> _], Hinv' as [-> _]. done.
    + set_solver.
Qed.

(** A fixed point has every effect its definitions have. *)
Lemma infer_fixpoint_complete m :
  infer_inv m → infer_pass local m = m →
  ∀ id x, has_effect local id x → ∃ X, m !! id = Some X ∧ x ∈ X.
Proof.
  intros (Hdom&Hdir&_) Hfix id x. induction 1 as [id e x He Hx|id e callee x He Hc _ (Y&HY&HxY)].
  - assert (is_Some (m !! id)) as [X HX].
    { apply elem_of_dom. rewrite Hdom. by eapply elem_of_dom_2. }
    exists X. split; [done|]. by eapply Hdir.
  - exists (default ∅ (m !! id) ∪ callee_effects m e). split.
    + rewrite <-Hfix at 1. by rewrite infer_pass_lookup, He.
    + apply elem_of_union. right. apply elem_of_callee_effects. eauto.
Qed.

Lemma infer_start_inv : infer_inv (direct <$> local).
Proof.
  split; [apply dom_fmap_L|]. split.
  - intros id e X He HX. rewrite lookup_fmap, He in HX. by simplify_eq/=.
  - intros id X x HX Hx. rewrite lookup_fmap in HX. apply fmap_Some in HX as (e&He&->).
    by eapply effect_direct.
Qed.

Lemma infer_spec :
  ∃ m, infer local = Some m ∧ dom m = dom local ∧
    ∀ id x, (∃ X, m !! id = Some X ∧ x ∈ X) ↔ has_effect local id x.
Proof.
  destruct (infer_loop_total (infer_budget local) (direct <$> local)) as (m&Hm&Hinv&Hfix).
  - apply infer_start_inv.
  - unfold infer_budget. lia.
  - exists m. split; [done|]. split; [apply Hinv|]. intros id x. split.
    + intros (X&HX&Hx). by eapply Hinv.
    + by apply infer_fixpoint_complete.
Qed.
End infer.

(** ** Theorems *)

(** Inspection and traversal agree: the direct effects and calls found in an
    expression are those of the nodes [walk] visits — an await for [async], a
    string literal or an array for [alloc], a call of a named definition. *)
Theorem inspection_finds_every_node e :
  (∀ x, x ∈ direct (inspect_expr e no_effects) ↔
     ∃ n, n ∈ walk e ∧
       match expr_kind n with
       | HAwait _ => x = EffAsync
       | HLiteral (LitString _) | HArray _ => x = EffAlloc
       | _ => False
       end) ∧
  (∀ id, id ∈ calls (inspect_expr e no_effects) ↔
     ∃ n args, n ∈ walk e ∧ ∃ ty span, expr_kind n = HCall (mkExpr (HReference id) ty span) args).
Proof.
  rewrite inspect_expr_walk. split.
  - intros x. rewrite foldl_note_direct. simpl. split.
    + intros [?%elem_of_empty|(n&Hn&Hx)]; [done|]. exists n. split; [done|]. revert Hx. unfold note.
      destruct (expr_kind n) as [| |[]| | |c ?| | | | |]; simpl; try set_solver.
      destruct (expr_kind c); set_solver.
    + intros (n&Hn&Hx). right. exists n. split; [done|]. unfold note.
      destruct (expr_kind n) as [| |[]| | |c ?| | | | |]; try done; simpl; set_solver.
  - intros id. rewrite foldl_note_calls. simpl. split.
    + intros [?%elem_of_empty|(n&Hn&Hx)]; [done|]. revert Hx. unfold note.
      destruct (expr_kind n) as [| |[]| | |c args| | | | |] eqn:En; try done.
      destruct c as [k ty span]. destruct k as [| | |d| | | | | | |]; simpl; try done.
      intros Hid. assert (id = d) as -> by set_solver. exists n, args. split; [done|]. eauto.
    + intros (n&args&Hn&ty&span&En). right. exists n. split; [done|]. unfold note. rewrite En.
      simpl. set_solver.
Qed.

(** C34: inference ends within its budget and is exact: every executable
    definition gets precisely the effects it has directly or through some chain
    of calls. *)
Theorem infer_exact local :
  ∃ m, infer local = Some m ∧ dom m = dom local ∧
    ∀ id x, (∃ X, m !! id = Some X ∧ x ∈ X) ↔ has_effect local id x.
Proof. apply infer_spec. Qed.

Lemma flat_map_nil {A B} (g : A → list B) (l : list A) :
  flat_map g l = [] ↔ ∀ x, x ∈ l → g x = [].
Proof. rewrite flat_map_concat_map. apply (concat_fmap_nil g). Qed.

(** The manifest of an accepted program requires the effects of its definitions. *)
Lemma manifest_exact p a :
  analyze_effects p = Some (Ok a) → ∀ x, x ∈ required (manifest a) ↔ ∃ id, has_effect (local (collect p)) id x.
Proof.
  unfold analyze_effects. destruct (infer_spec (local (collect p))) as (m&->&_&Hm). simpl.
  destruct (collected_errors (collect p) ++ _); [|done]. intros [= <-] x. simpl. rewrite elem_of_union_list. split.
  - intros (X&HX&Hx). apply list_elem_of_fmap in HX as ([id Y]&->&HY%elem_of_map_to_list). exists id. apply Hm. eauto.
  - intros [id (X&HX&Hx)%Hm]. exists X. split; [|done]. apply list_elem_of_fmap. exists (id, X). split; [done|].
    by apply elem_of_map_to_list.
Qed.

(** An accepted program keeps its bounds and its manifest is exact: the
    analysis always answers, and when it accepts, the manifest requires an
    effect exactly when some executable definition has it, and a function with
    a declared bound has no effect outside it. *)
Theorem accepted_effects_within_bounds p :
  ∃ r, analyze_effects p = Some r ∧
    ∀ a, r = Ok a →
      (∀ x, x ∈ required (manifest a) ↔ ∃ id, has_effect (local (collect p)) id x) ∧
      (∀ id declared span x, declarations (collect p) !! id = Some (Some declared, span) →
         has_effect (local (collect p)) id x → x ∈ declared) ∧
      collected_errors (collect p) = [].
Proof.
  pose proof (λ a, manifest_exact p a) as Hmanifest.
  unfold analyze_effects in *. destruct (infer_spec (local (collect p))) as (m&Einfer&_&Hm). rewrite Einfer in *. simpl in *.
  destruct (collected_errors (collect p) ++ _) as [|err errs] eqn:E; [|eexists; split; [done|congruence]].
  eexists. split; [done|]. intros a [= <-]. apply app_nil in E as [Hc Hb]. split; [by apply Hmanifest|split; [|done]].
  - intros id declared span x Hd (X&HX&Hx)%Hm. rewrite flat_map_nil in Hb.
    assert ((id, (Some declared, span)) ∈ merge_sort (λ a b, def_id_le a.1 b.1)
      (map_to_list (declarations (collect p)))) as Hin.
    { rewrite merge_sort_Permutation. by apply elem_of_map_to_list. }
    specialize (Hb _ Hin). simpl in Hb. rewrite HX in Hb. simpl in Hb.
    case_bool_decide as Em; [|done]. destruct (decide (x ∈ declared)); [done|]. set_solver.
Qed.

(** ** What is accepted *)

(** A list of declared effects: known names, none twice, and [pure] alone. *)
Definition declaration_ok (names : list string) : Prop :=
  NoDup names ∧ Forall (λ name, name = "pure"%string ∨ is_Some (from_source name)) names ∧ ("pure"%string ∈ names → names = ["pure"%string]).

(** Every declared list is one, and bounds the effects the function has, directly or
    through a chain of calls. *)
Definition bounds_hold (p : HirProgram) : Prop :=
  (∀ d f names, d ∈ program_definitions p → hd_kind d = KindFunction f → declared_effects f = Some names → declaration_ok names) ∧
  (∀ id declared span x, declarations (collect p) !! id = Some (Some declared, span) → has_effect (local (collect p)) id x → x ∈ declared).

Lemma parse_names_silent names span : ∀ parsed seen,
  (parse_names names span parsed seen).2 = [] ↔
  NoDup names ∧ (∀ name, name ∈ names → name ∉ seen) ∧ Forall (λ name, name = "pure"%string ∨ is_Some (from_source name)) names.
Proof.
  induction names as [|name names IH]; intros parsed seen; cbn [parse_names].
  { split; [|done]. intros _. split_and!; [constructor|by intros ? ?%not_elem_of_nil|constructor]. }
  rewrite NoDup_cons, Forall_cons. case_bool_decide as Hseen.
  { destruct (parse_names names span parsed seen). cbn. split; [done|]. intros (_ & Hno & _). by destruct (Hno name); [left|]. }
  assert (∀ P : Prop, NoDup names ∧ (∀ n, n ∈ names → n ∉ {[name]} ∪ seen) ∧ P ↔ ((name ∉ names) ∧ NoDup names) ∧ (∀ n, n ∈ name :: names → n ∉ seen) ∧ P) as Hsplit.
  { intros P. split.
    - intros (Hnd & Hno & HP). split_and!; [intros Hin; specialize (Hno name Hin); set_solver|done| |done]. intros n [->|Hn]%elem_of_cons; [done|]. specialize (Hno n Hn). set_solver.
    - intros ([Hn Hnd] & Hno & HP). split_and!; [done| |done]. intros n Hin. apply not_elem_of_union. split; [|apply Hno; by right]. intros ->%elem_of_singleton. done. }
  case_bool_decide as Hpure.
  { rewrite IH, Hsplit. naive_solver. }
  destruct (from_source name) as [e|] eqn:Es.
  - rewrite IH, Hsplit. naive_solver.
  - destruct (parse_names names span parsed _). cbn. split; [done|]. intros (_ & _ & [?|[? ?]] & _); congruence.
Qed.

Lemma parse_declaration_silent names span : (parse_declaration (Some names) span).2 = [] ↔ declaration_ok names.
Proof.
  unfold parse_declaration, declaration_ok. pose proof (parse_names_silent names span ∅ ∅) as Hn. destruct (parse_names names span ∅ ∅) as [parsed errors]. cbn [snd] in *.
  rewrite app_nil, Hn. assert (existsb (String.eqb "pure") names = true ↔ "pure"%string ∈ names) as Hpure.
  { rewrite existsb_exists. split; [intros (x & Hx & ->%String.eqb_eq); by apply list_elem_of_In|]. intros Hin. exists "pure"%string. split; [by apply list_elem_of_In|done]. }
  assert ((if existsb (String.eqb "pure") names && negb (bool_decide (length names = 1%nat))
           then [{| ee_code := "SYL2701"; ee_message := PureCombined; ee_span := span |}] else []) = [] ↔ ("pure"%string ∈ names → names = ["pure"%string])) as ->.
  { destruct (existsb (String.eqb "pure") names) eqn:E; cbn [andb].
    - pose proof (proj1 Hpure eq_refl) as Hin. case_bool_decide as El; cbn.
      + split; [|done]. intros _ _. destruct names as [|x [|]]; [done| |done]. by apply list_elem_of_singleton in Hin as ->.
      + split; [done|]. intros H. by rewrite (H Hin) in El.
    - split; [|done]. by intros _ Hin%Hpure. }
  split.
  - intros (H1 & H2 & _ & H3). done.
  - intros (H1 & H2 & H3). split_and!; [done|done| |done]. intros name _. apply not_elem_of_empty.
Qed.

Lemma collected_errors_silent p : collected_errors (collect p) = [] ↔
  ∀ d f names, d ∈ program_definitions p → hd_kind d = KindFunction f → declared_effects f = Some names → declaration_ok names.
Proof.
  unfold collect.
  assert (∀ ds c, collected_errors (foldl collect_definition c ds) = [] ↔ collected_errors c = [] ∧
    ∀ d f names, d ∈ ds → hd_kind d = KindFunction f → declared_effects f = Some names → declaration_ok names) as H.
  { induction ds as [|d ds IH]; intros c; cbn [foldl].
    { split; [|tauto]. intros ->. split; [done|]. by intros ? ? ? ?%not_elem_of_nil. }
    rewrite IH. assert (collected_errors (collect_definition c d) = [] ↔ collected_errors c = [] ∧
      ∀ f names, hd_kind d = KindFunction f → declared_effects f = Some names → declaration_ok names) as ->.
    { unfold collect_definition. destruct (hd_kind d) as [| |f| | | |]; cbn [collected_errors]; try (split; [by intros ->|by intros [-> _]]).
      pose proof (λ names, parse_declaration_silent names (hd_span d)) as Hs. destruct (declared_effects f) as [names|] eqn:E.
      - specialize (Hs names). destruct (parse_declaration (Some names) (hd_span d)) as [declared errors]. cbn [snd] in Hs. cbn [collected_errors].
        rewrite app_nil, Hs. split; [intros [-> Hok]; split; [done|]; intros f' names' [= <-] ?; by simplify_eq|]. intros [-> Hok]. split; [done|]. by eapply Hok.
      - cbn. rewrite app_nil_r. split; [|tauto]. intros ->. split; [done|]. intros f' names [= <-]. congruence. }
    split.
    - intros [[-> H1] H2]. split; [done|]. intros d' f names [->|Hd]%elem_of_cons; eauto.
    - intros [-> H1]. split; [split; [done|]|]; intros; eapply H1; eauto; [by left|by right]. }
  rewrite H. naive_solver.
Qed.

(** The analysis accepts exactly the programs within their bounds. *)
Lemma analyze_effects_accepts p : (∃ a, analyze_effects p = Some (Ok a)) ↔ bounds_hold p.
Proof.
  unfold bounds_hold. rewrite <-collected_errors_silent. unfold analyze_effects. destruct (infer_spec (local (collect p))) as (m & -> & _ & Hm). cbn.
  set (entries := merge_sort _ _). assert (∀ id x, (id, x) ∈ entries ↔ declarations (collect p) !! id = Some x) as Hin.
  { intros id x. unfold entries. by rewrite merge_sort_Permutation, elem_of_map_to_list. }
  assert (flat_map (bound_errors m) entries = [] ↔ ∀ id declared span x, declarations (collect p) !! id = Some (Some declared, span) →
    has_effect (local (collect p)) id x → x ∈ declared) as <-.
  { rewrite flat_map_nil. split.
    - intros Hall id declared span x Hd (X & HX & Hx)%Hm. apply Hin, Hall in Hd. cbn in Hd. rewrite HX in Hd. cbn in Hd. case_bool_decide as Em; [|done].
      destruct (decide (x ∈ declared)); [done|]. set_solver.
    - intros Hall [id [[declared|] span]] He%Hin; [|done]. cbn. rewrite bool_decide_eq_true_2; [done|]. apply set_eq. intros x. split; [|set_solver].
      intros [Hx Hn]%elem_of_difference. destruct (m !! id) as [X|] eqn:EX; [|set_solver]. exfalso. apply Hn. eapply Hall; [exact He|]. apply Hm. by exists X. }
  rewrite <-app_nil. destruct (collected_errors (collect p) ++ flat_map (bound_errors m) entries); split; try done; [by eexists|by intros [a [=]]].
Qed.

(** [main] calls [helper], which awaits; [main] declares [async, alloc]. *)
Definition effect_function (declared : option (list string)) (body : TypedExpr) : HirDefinitionKind :=
  KindFunction {| is_test := false; asynchronous := false; public := true;
    declared_effects := declared; hf_parameters := []; hf_result := RtUnit;
    hf_body := mkBlock [HExpression body] default_span |}.

Definition plain (k : HirExprKind) : TypedExpr := mkExpr k RtUnit default_span.

Definition helper_id : DefId := {| module := 0; index := 1 |}.

Definition effect_program (declared : list string) : HirProgram := {|
  schema_version := 1;
  modules := [{| hm_module := 0; definitions :=
    [{| hd_id := {| module := 0; index := 0 |}; hd_name := "main"%string; hd_span := default_span;
        hd_kind := effect_function (Some declared) (plain (HCall (plain (HReference helper_id)) [])) |};
     {| hd_id := helper_id; hd_name := "helper"%string; hd_span := default_span;
        hd_kind := effect_function None (plain (HAwait (plain (HLiteral (LitBoolean true))))) |}] |}];
  hir_entry := None
|}.

Example undeclared_effect_rejected :
  analyze_effects (effect_program ["alloc"%string]) =
    Some (Err [{| ee_code := "SYL2702"%string; ee_message := OmitsInferred [EffAsync];
                  ee_span := default_span |}]).
Proof. vm_compute. reflexivity. Qed.

Lemma accepted_effects_within_bounds_witness :
  ∃ r, analyze_effects (effect_program ["async"%string; "alloc"%string]) = Some r ∧
    ∀ a, r = Ok a →
      (∀ x, x ∈ required (manifest a) ↔
         ∃ id, has_effect (local (collect (effect_program ["async"%string; "alloc"%string]))) id x) ∧
      (∀ id declared span x,
         declarations (collect (effect_program ["async"%string; "alloc"%string])) !! id =
           Some (Some declared, span) →
         has_effect (local (collect (effect_program ["async"%string; "alloc"%string]))) id x →
         x ∈ declared) ∧
      collected_errors (collect (effect_program ["async"%string; "alloc"%string])) = [].
Proof. apply accepted_effects_within_bounds. Defined.
