(* ===== verification/Wasm.v ===== *)
(** * The WebAssembly instructions the code generator emits

    Validation and execution of these instructions after the WebAssembly core
    specification: the type-checking algorithm with its control stack, and a
    deterministic machine on the flat instruction sequence.  This is the target
    of crates/syllog-codegen-wasm/src/lib.rs, not code of the repository; the
    instruction names are those the source imports from its encoder. *)

From stdpp Require Import base gmap list strings numbers.
From S2P Require Import Prelude.
Open Scope Z_scope.
Open Scope list_scope.

Inductive ValType := TI32 | TI64.

#[export] Instance ValType_eq_dec : EqDecision ValType.
Proof. solve_decision. Defined.

(** A block type without parameters: no result or one. *)
Abbreviation BlockType := (option ValType) (only parsing).

Inductive Instruction :=
| LocalGet (i : N)
| LocalSet (i : N)
| I64Const (z : Z)
| I32Const (z : Z)
| I64Eq | I32Eq
| I64Add | I64Sub | I64Mul | I64DivU | I64DivS | I64LtU | I64LtS | I64And | I64Or
| If (bt : BlockType)
| Else
| End_
| Loop (bt : BlockType)
| Br (depth : N)
| Return_
| Call (function : N)
| Unreachable.

(** A function: parameter types, result type, declared local types and body. *)
Record WasmFunction := {
  wf_params : list ValType;
  wf_result : ValType;
  wf_locals : list ValType;
  wf_body : list Instruction
}.

(** ** Validation *)

(** A control frame: what a branch to it and its end expect, whether it may
    still meet an [Else], its operands and whether they are unreachable. *)
Record ControlFrame := {
  cf_branch : BlockType;
  cf_end : BlockType;
  cf_is_if : bool;
  cf_stack : list ValType;
  cf_unreachable : bool
}.

Definition push_type (t : ValType) (c : ControlFrame) : ControlFrame :=
  {| cf_branch := cf_branch c; cf_end := cf_end c; cf_is_if := cf_is_if c;
     cf_stack := t :: cf_stack c; cf_unreachable := cf_unreachable c |}.

Definition pop_type (t : ValType) (c : ControlFrame) : option ControlFrame :=
  match cf_stack c with
  | [] => if cf_unreachable c then Some c else None
  | u :: rest =>
      if decide (u = t)
      then Some {| cf_branch := cf_branch c; cf_end := cf_end c; cf_is_if := cf_is_if c;
                   cf_stack := rest; cf_unreachable := cf_unreachable c |}
      else None
  end.

#[global] Arguments push_type : simpl never.
#[global] Arguments pop_type : simpl never.

Fixpoint pop_types (ts : list ValType) (c : ControlFrame) : option ControlFrame :=
  match ts with
  | [] => Some c
  | t :: ts => c ← pop_type t c; pop_types ts c
  end.

Definition pop_block (bt : BlockType) (c : ControlFrame) : option ControlFrame :=
  match bt with Some t => pop_type t c | None => Some c end.

Definition push_block (bt : BlockType) (c : ControlFrame) : ControlFrame :=
  match bt with Some t => push_type t c | None => c end.

Definition mark_unreachable (c : ControlFrame) : ControlFrame :=
  {| cf_branch := cf_branch c; cf_end := cf_end c; cf_is_if := cf_is_if c;
     cf_stack := []; cf_unreachable := true |}.

(** The frame's result is on its stack and nothing else. *)
Definition frame_ends (c : ControlFrame) : bool :=
  match pop_block (cf_end c) c with
  | Some c => bool_decide (cf_stack c = [])
  | None => false
  end.

Definition open_frame (branch end_ : BlockType) (is_if : bool) : ControlFrame :=
  {| cf_branch := branch; cf_end := end_; cf_is_if := is_if; cf_stack := []; cf_unreachable := false |}.

Section validation.
Context (locals : list ValType) (result : ValType) (signatures : list (list ValType * ValType)).

(** Operand and result types of an instruction without control flow. *)
Definition plain_type (i : Instruction) : option (list ValType * list ValType) :=
  match i with
  | LocalGet l => t ← locals !! N.to_nat l; Some ([], [t])
  | LocalSet l => t ← locals !! N.to_nat l; Some ([t], [])
  | I64Const _ => Some ([], [TI64])
  | I32Const _ => Some ([], [TI32])
  | I64Add | I64Sub | I64Mul | I64DivU | I64DivS | I64And | I64Or => Some ([TI64; TI64], [TI64])
  | I64Eq | I64LtU | I64LtS => Some ([TI64; TI64], [TI32])
  | I32Eq => Some ([TI32; TI32], [TI32])
  | Call f => '(ps, r) ← signatures !! N.to_nat f; Some (reverse ps, [r])
  | _ => None
  end.

Definition check_instruction (i : Instruction) (frames : list ControlFrame)
    : option (list ControlFrame) :=
  match frames with
  | [] => None
  | c :: frames =>
      match i with
      | If bt => c ← pop_type TI32 c; Some (open_frame bt bt true :: c :: frames)
      | Loop bt => Some (open_frame None bt false :: c :: frames)
      | Else =>
          if cf_is_if c && frame_ends c
          then Some (open_frame (cf_branch c) (cf_end c) false :: frames) else None
      | End_ =>
          if frame_ends c && negb (cf_is_if c && bool_decide (cf_end c ≠ None))
          then match frames with
               | [] => Some []
               | d :: frames => Some (push_block (cf_end c) d :: frames)
               end
          else None
      | Br depth =>
          target ← (c :: frames) !! N.to_nat depth;
          c ← pop_block (cf_branch target) c;
          Some (mark_unreachable c :: frames)
      | Return_ => c ← pop_type result c; Some (mark_unreachable c :: frames)
      | Unreachable => Some (mark_unreachable c :: frames)
      | i =>
          '(pops, pushes) ← plain_type i;
          c ← pop_types pops c;
          Some (foldl (λ c t, push_type t c) c pushes :: frames)
      end
  end.

Fixpoint check_code (code : list Instruction) (frames : list ControlFrame)
    : option (list ControlFrame) :=
  match code with
  | [] => Some frames
  | i :: code => frames ← check_instruction i frames; check_code code frames
  end.
End validation.

Definition validate_function (signatures : list (list ValType * ValType)) (f : WasmFunction) : bool :=
  match check_code (wf_params f ++ wf_locals f) (wf_result f) signatures (wf_body f)
          [open_frame (Some (wf_result f)) (Some (wf_result f)) false] with
  | Some [] => true
  | _ => false
  end.

Definition validate_module (fs : list WasmFunction) : bool :=
  forallb (validate_function ((λ f, (wf_params f, wf_result f)) <$> fs)) fs.

(** ** Execution *)

(** Values are residues: [0 <= z < 2^32] or [0 <= z < 2^64]. *)
Inductive WasmValue := W32 (z : Z) | W64 (z : Z).

Definition two32 : Z := 4294967296.
Definition two64 : Z := 18446744073709551616.

Definition wrap32 (z : Z) : Z := z mod two32.
Definition wrap64 (z : Z) : Z := z mod two64.

(** The signed reading of a 64-bit residue. *)
Definition signed64 (z : Z) : Z := if bool_decide (z < 9223372036854775808) then z else z - two64.

Definition bool32 (b : bool) : WasmValue := W32 (if b then 1 else 0).

(** Binary operations; [None] is a trap. *)
Definition apply_binary (i : Instruction) (a b : WasmValue) : option WasmValue :=
  match i, a, b with
  | I64Add, W64 a, W64 b => Some (W64 (wrap64 (a + b)))
  | I64Sub, W64 a, W64 b => Some (W64 (wrap64 (a - b)))
  | I64Mul, W64 a, W64 b => Some (W64 (wrap64 (a * b)))
  | I64DivU, W64 a, W64 b => if bool_decide (b = 0) then None else Some (W64 (a / b))
  | I64DivS, W64 a, W64 b =>
      if bool_decide (b = 0) then None
      else let q := Z.quot (signed64 a) (signed64 b) in
           if in_i64 q then Some (W64 (wrap64 q)) else None
  | I64LtU, W64 a, W64 b => Some (bool32 (Z.ltb a b))
  | I64LtS, W64 a, W64 b => Some (bool32 (Z.ltb (signed64 a) (signed64 b)))
  | I64And, W64 a, W64 b => Some (W64 (Z.land a b))
  | I64Or, W64 a, W64 b => Some (W64 (Z.lor a b))
  | I64Eq, W64 a, W64 b => Some (bool32 (Z.eqb a b))
  | I32Eq, W32 a, W32 b => Some (bool32 (Z.eqb a b))
  | _, _, _ => None
  end.

Definition is_binary (i : Instruction) : bool :=
  match i with
  | I64Eq | I32Eq | I64Add | I64Sub | I64Mul | I64DivU | I64DivS | I64LtU | I64LtS | I64And | I64Or => true
  | _ => false
  end.

(** The code after the matching [Else] or [End_] of an open [If]; [stop_else]
    also stops at its [Else]. *)
Fixpoint skip (stop_else : bool) (depth : nat) (code : list Instruction) : option (bool * list Instruction) :=
  match code with
  | [] => None
  | i :: code =>
      match i with
      | If _ | Loop _ => skip stop_else (S depth) code
      | Else => if stop_else && bool_decide (depth = 0%nat) then Some (true, code)
                else skip stop_else depth code
      | End_ => match depth with
                | O => Some (false, code)
                | S depth => skip stop_else depth code
                end
      | _ => skip stop_else depth code
      end
  end.

Record WasmFrame := {
  fr_code : list Instruction;
  (** Where a branch to each enclosing label continues, and the operands below
      it; no emitted branch targets a label with a result. *)
  fr_labels : list (list Instruction * list WasmValue);
  fr_locals : list WasmValue;
  fr_stack : list WasmValue
}.

Inductive WasmState :=
| Running (f : WasmFrame) (callers : list WasmFrame)
| Returned (v : WasmValue)
| Trapped.

Definition with_code (f : WasmFrame) (code : list Instruction) (stack : list WasmValue) : WasmFrame :=
  {| fr_code := code; fr_labels := fr_labels f; fr_locals := fr_locals f; fr_stack := stack |}.

(** Hands a result to the caller. *)
Definition return_value (v : WasmValue) (callers : list WasmFrame) : WasmState :=
  match callers with
  | [] => Returned v
  | c :: callers => Running (with_code c (fr_code c) (v :: fr_stack c)) callers
  end.

Definition zero_value (t : ValType) : WasmValue := match t with TI32 => W32 0 | TI64 => W64 0 end.

Section execution.
Context (fs : list WasmFunction).

Definition enter_function (f : WasmFunction) (arguments : list WasmValue) : WasmFrame :=
  {| fr_code := wf_body f; fr_labels := []; fr_locals := arguments ++ (zero_value <$> wf_locals f);
     fr_stack := [] |}.

Definition wasm_step (f : WasmFrame) (callers : list WasmFrame) : WasmState :=
  match fr_code f with
  | [] => Trapped
  | i :: code =>
      match i, fr_stack f with
      | LocalGet l, stack =>
          match fr_locals f !! N.to_nat l with
          | Some v => Running (with_code f code (v :: stack)) callers
          | None => Trapped
          end
      | LocalSet l, v :: stack =>
          Running {| fr_code := code; fr_labels := fr_labels f;
                     fr_locals := <[N.to_nat l := v]> (fr_locals f); fr_stack := stack |} callers
      | I64Const z, stack => Running (with_code f code (W64 (wrap64 z) :: stack)) callers
      | I32Const z, stack => Running (with_code f code (W32 (wrap32 z) :: stack)) callers
      | If _, W32 c :: stack =>
          match skip false 0 code, skip true 0 code with
          | Some (_, after), Some (has_else, other) =>
              if bool_decide (c = 0)
              then
                if has_else : bool
                then Running {| fr_code := other; fr_labels := (after, stack) :: fr_labels f;
                                fr_locals := fr_locals f; fr_stack := stack |} callers
                else Running (with_code f other stack) callers
              else Running {| fr_code := code; fr_labels := (after, stack) :: fr_labels f;
                              fr_locals := fr_locals f; fr_stack := stack |} callers
          | _, _ => Trapped
          end
      | Else, stack =>
          match fr_labels f with
          | (after, _) :: labels =>
              Running {| fr_code := after; fr_labels := labels; fr_locals := fr_locals f;
                         fr_stack := stack |} callers
          | [] => Trapped
          end
      | End_, stack =>
          match fr_labels f, stack with
          | _ :: labels, _ =>
              Running {| fr_code := code; fr_labels := labels; fr_locals := fr_locals f;
                         fr_stack := stack |} callers
          | [], v :: _ => return_value v callers
          | [], [] => Trapped
          end
      | Loop bt, stack =>
          Running {| fr_code := code; fr_labels := (Loop bt :: code, stack) :: fr_labels f;
                     fr_locals := fr_locals f; fr_stack := stack |} callers
      | Br depth, _ =>
          match drop (N.to_nat depth) (fr_labels f) with
          | (target, stack) :: labels =>
              Running {| fr_code := target; fr_labels := labels; fr_locals := fr_locals f;
                         fr_stack := stack |} callers
          | [] => Trapped
          end
      | Return_, v :: _ => return_value v callers
      | Call k, stack =>
          match fs !! N.to_nat k with
          | Some g =>
              let n := length (wf_params g) in
              Running (enter_function g (reverse (take n stack)))
                (with_code f code (drop n stack) :: callers)
          | None => Trapped
          end
      | i, b :: a :: stack =>
          if is_binary i
          then match apply_binary i a b with
               | Some v => Running (with_code f code (v :: stack)) callers
               | None => Trapped
               end
          else Trapped
      | _, _ => Trapped
      end
  end.

Fixpoint wasm_run (fuel : nat) (s : WasmState) : option WasmState :=
  match fuel, s with
  | _, (Returned _ | Trapped) => Some s
  | O, _ => None
  | S fuel, Running f callers => wasm_run fuel (wasm_step f callers)
  end.

(** Calls an exported function. *)
Definition wasm_invoke (fuel : nat) (k : nat) (arguments : list WasmValue) : option WasmState :=
  match fs !! k with
  | Some g => wasm_run fuel (Running (enter_function g arguments) [])
  | None => Some Trapped
  end.
End execution.
