(* ===== verification/Codegen.v ===== *)
(** * WebAssembly code generation (crates/syllog-codegen-wasm/src/lib.rs)

    The encoders append to one instruction sequence; here each returns what it
    appends or the error.  [emit_functions] is the part of
    [emit_with_capabilities] that decides success and produces the module's
    functions and exports; Build completes it with the sections and the metadata. *)

From stdpp Require Import base gmap list strings numbers pretty.
From S2P Require Import Prelude Ir Cfg Verify Wasm.
Open Scope string_scope.
Open Scope N_scope.
Open Scope list_scope.

Inductive CodegenError :=
| CodegenInvalidMir (errors : list VerificationError)
| InvalidAsyncFrame (errors : list AsyncVerificationError)
| CodegenMissingEntry
| UnsupportedType (ty : MirType)
| UnsupportedOperation (what : string)
| CodegenEncoding (reason : string).

Abbreviation encoded := (result (list Instruction) CodegenError) (only parsing).

(** [?] between encoders that append in turn. *)
Definition and_then (a b : encoded) : encoded :=
  match a with
  | Err e => Err e
  | Ok xs => match b with Err e => Err e | Ok ys => Ok (xs ++ ys) end
  end.

Fixpoint encode_all {A} (encode : A → encoded) (l : list A) : encoded :=
  match l with
  | [] => Ok []
  | x :: l => and_then (encode x) (encode_all encode l)
  end.

(** ** Signatures and locals *)

Fixpoint supported_abi_type (ty : MirType) : result unit CodegenError :=
  match ty with
  | TyUnit | TyBool | TyI64 | TyU64 | TyAggregate _ => Ok tt
  | TyReference _ inner => supported_abi_type inner
  | TyString => Err (UnsupportedType TyString)
  end.

(** The loop over [function.locals]. *)
Fixpoint supported_locals (locals : list MirType) : result unit CodegenError :=
  match locals with
  | [] => Ok tt
  | ty :: locals =>
      match supported_abi_type ty with
      | Err e => Err e
      | Ok _ => supported_locals locals
      end
  end.

Definition supported_signature (f : MirFunction) : result unit CodegenError :=
  supported_locals (fn_locals f).

Definition wasm_local (f : MirFunction) (l : LocalId) : N :=
  if bool_decide (l = 0) then parameter_count f
  else if bool_decide (l ≤ parameter_count f) then l - 1 else l.

Definition codegen_operand_type (f : MirFunction) (o : Operand) : option MirType :=
  match o with
  | OpConstant c => Some (constant_ty c)
  | OpCopy l | OpMove l => fn_locals f !! N.to_nat l
  end.

(** [i64::from_le_bytes(value.to_le_bytes())]: the two's-complement reading. *)
Definition i64_bits (n : N) : Z :=
  if bool_decide (n < 9223372036854775808) then Z.of_N n else (Z.of_N n - 18446744073709551616)%Z.

(** ** Operands, values and places *)

Definition encode_operand (f : MirFunction) (o : Operand) : encoded :=
  match o with
  | OpCopy l | OpMove l => Ok [LocalGet (wasm_local f l)]
  | OpConstant c =>
      match c with
      | CUnit => Ok [I64Const 0]
      | CBool b => Ok [I64Const (if b then 1 else 0)]
      | CI64 z => Ok [I64Const z]
      | CU64 n => Ok [I64Const (i64_bits n)]
      | CString _ => Err (UnsupportedType TyString)
      end
  end.

Definition binary_instruction (operator : BinaryOp) (unsigned : bool) : Instruction :=
  match operator with
  | BAdd => I64Add
  | BSubtract => I64Sub
  | BMultiply => I64Mul
  | BDivide => if unsigned then I64DivU else I64DivS
  | BEqual => I64Eq
  | BLess => if unsigned then I64LtU else I64LtS
  | BAnd => I64And
  | BOr => I64Or
  end.

Definition encode_rvalue (f : MirFunction) (r : Rvalue) : encoded :=
  match r with
  | RvBorrow _ (PLocal l) => Ok [LocalGet (wasm_local f l)]
  | RvBorrow _ (PField _ _) => Err (UnsupportedOperation "aggregate field borrow")
  | RvUse o | RvDiscriminant o => encode_operand f o
  | RvAggregate _ discriminant _ => Ok [I64Const (i64_bits discriminant)]
  | RvBinary operator lhs rhs =>
      let unsigned := bool_decide (codegen_operand_type f lhs = Some TyU64) in
      and_then (encode_operand f lhs)
        (and_then (encode_operand f rhs) (Ok [binary_instruction operator unsigned]))
  end.

Definition encode_set_place (f : MirFunction) (p : Place) : encoded :=
  match p with
  | PLocal l => Ok [LocalSet (wasm_local f l)]
  | PField _ _ => Err (UnsupportedOperation "aggregate field assignment")
  end.

(** ** Blocks *)

Definition encode_continue (pc target depth : N) : list Instruction :=
  [I64Const (Z.of_N target); LocalSet pc; Br depth].

Definition encode_statement (f : MirFunction) (st : Statement) : encoded :=
  match st with
  | StAssign destination value => and_then (encode_rvalue f value) (encode_set_place f destination)
  | StDrop (PLocal _) => Ok []
  | StDrop (PField _ _) => Err (UnsupportedOperation "aggregate field drop")
  end.

(** One candidate of a switch. *)
Definition encode_candidate (f : MirFunction) (pc : N) (value : Operand) (t : N * BlockId) : encoded :=
  and_then (encode_operand f value)
    (if bool_decide (t.1 ≤ u64_max)
     then Ok ([I64Const (i64_bits t.1); I64Eq; If None] ++ encode_continue pc t.2 2 ++ [End_])
     else Err (UnsupportedOperation "switch value exceeds the i64 ABI")).

(** [indices[callee]]: the verifier has checked that the callee exists. *)
Definition encode_terminator (f : MirFunction) (pc : N) (indices : gmap DefId N) (t : Terminator)
    : encoded :=
  match t with
  | TmReturn => Ok [LocalGet (wasm_local f 0); Return_]
  | TmGoto target => Ok (encode_continue pc target 1)
  | TmCall callee args destination next =>
      and_then (encode_all (encode_operand f) args)
        (and_then (Ok [Call (default 0 (indices !! callee))])
           (and_then (encode_set_place f destination) (Ok (encode_continue pc next 1))))
  | TmSwitchInt value targets otherwise =>
      and_then (encode_all (encode_candidate f pc value) targets)
        (Ok (encode_continue pc otherwise 1))
  end.

(** A missing terminator is an [expect] panic, excluded by the verifier. *)
Definition encode_block (f : MirFunction) (pc : N) (indices : gmap DefId N) (b : BasicBlock) : encoded :=
  and_then (encode_all (encode_statement f) (statements b))
    (match terminator b with
     | Some t => encode_terminator f pc indices t
     | None => Ok []
     end).

(** ** Functions *)

(** A vector has at most [isize::MAX] elements, so the conversion of a block
    index to [i64] never fails. *)
Fixpoint encode_blocks (f : MirFunction) (pc : N) (indices : gmap DefId N) (index : nat)
    (bs : list BasicBlock) : encoded :=
  match bs with
  | [] => Ok []
  | b :: bs =>
      and_then (Ok [LocalGet pc; I64Const (Z.of_nat index); I64Eq; If None])
        (and_then (encode_block f pc indices b)
           (and_then (Ok [End_]) (encode_blocks f pc indices (S index) bs)))
  end.

Definition encode_function (f : MirFunction) (indices : gmap DefId N) : result WasmFunction CodegenError :=
  let count := N.of_nat (length (fn_locals f)) in
  if bool_decide (u32_max < count) then Err (UnsupportedOperation "too many locals")
  else
    let non_parameters := count - parameter_count f in
    let pc := count in
    match encode_blocks f pc indices 0 (fn_blocks f) with
    | Err e => Err e
    | Ok blocks =>
        Ok {| wf_params := replicate (N.to_nat (parameter_count f)) TI64;
              wf_result := TI64;
              wf_locals := replicate (N.to_nat (N.min (non_parameters + 1) u32_max)) TI64;
              wf_body := [I64Const 0; LocalSet pc; Loop None] ++ blocks ++
                         [Unreachable; End_; I64Const 0; End_] |}
    end.

(** ** Async frames *)

Definition async_i32 (state : N) : result Z CodegenError :=
  if bool_decide (state ≤ 2147483647) then Ok (Z.of_N state)
  else Err (UnsupportedOperation "async state exceeds i32 ABI").

(** [I32Const(async_i32(state)?)] *)
Definition const_state (state : N) : encoded :=
  match async_i32 state with Ok z => Ok [I32Const z] | Err e => Err e end.

Definition encode_async_transition (current : N) (t : AsyncTransition) : encoded :=
  match t with
  | TrStart next => const_state next
  | TrSuspend _ resume cancel =>
      and_then (Ok [LocalGet 1; I32Const 2; I32Eq; If (Some TI32)])
        (and_then (const_state cancel)
           (and_then (Ok [Else; LocalGet 1; I32Const 1; I32Eq; If (Some TI32)])
              (and_then (const_state resume)
                 (and_then (Ok [Else]) (and_then (const_state current) (Ok [End_; End_]))))))
  | TrResume next panic =>
      and_then (Ok [LocalGet 1; I32Const 3; I32Eq; If (Some TI32)])
        (and_then (const_state panic)
           (and_then (Ok [Else]) (and_then (const_state next) (Ok [End_]))))
  | TrComplete | TrCancel _ => const_state current
  end.

Definition encode_async_state (s : AsyncState) : encoded :=
  and_then (Ok [LocalGet 0])
    (and_then (const_state (as_id s))
       (and_then (Ok [I32Eq; If None])
          (and_then (encode_async_transition (as_id s) (transition s)) (Ok [Return_; End_])))).

Definition encode_async_frame (frame : AsyncStateMachine) : result WasmFunction CodegenError :=
  match encode_all encode_async_state (states frame) with
  | Err e => Err e
  | Ok code =>
      Ok {| wf_params := [TI32; TI32]; wf_result := TI32; wf_locals := [];
            wf_body := code ++ [I32Const (-1); End_] |}
  end.

(** ** Modules *)

(** [functions.iter().enumerate().map(|(i, f)| (f.id, i)).collect::<BTreeMap<_, _>>()] *)
Definition function_indices (fs : list MirFunction) : gmap DefId N :=
  foldl (λ m '(i, f), <[fn_id f := N.of_nat i]> m) ∅ (imap pair fs).

Fixpoint encode_functions (fs : list MirFunction) (indices : gmap DefId N)
    : result (list WasmFunction) CodegenError :=
  match fs with
  | [] => Ok []
  | f :: fs =>
      match encode_function f indices with
      | Err e => Err e
      | Ok g => match encode_functions fs indices with Err e => Err e | Ok gs => Ok (g :: gs) end
      end
  end.

Fixpoint encode_frames (frames : list AsyncStateMachine) : result (list WasmFunction) CodegenError :=
  match frames with
  | [] => Ok []
  | frame :: frames =>
      match encode_async_frame frame with
      | Err e => Err e
      | Ok g => match encode_frames frames with Err e => Err e | Ok gs => Ok (g :: gs) end
      end
  end.

Fixpoint verify_frames (frames : list AsyncStateMachine) : result unit CodegenError :=
  match frames with
  | [] => Ok tt
  | frame :: frames =>
      match verify_async_machine frame with
      | Err errors => Err (InvalidAsyncFrame errors)
      | Ok _ => verify_frames frames
      end
  end.

Fixpoint supported_signatures (fs : list MirFunction) : result unit CodegenError :=
  match fs with
  | [] => Ok tt
  | f :: fs => match supported_signature f with Err e => Err e | Ok _ => supported_signatures fs end
  end.

(** The functions of the module and the exports by name and function index. *)
Record WasmModule := {
  wm_functions : list WasmFunction;
  wm_exports : list (string * N)
}.

Definition async_export_name (frame : AsyncStateMachine) : string :=
  ("syllog_async_" +:+ pretty (module (am_function frame)) +:+ "_" +:+
   pretty (index (am_function frame)) +:+ "_step")%string.

Definition emit_functions (program : MirProgram) (frames : list AsyncStateMachine)
    : result WasmModule CodegenError :=
  match verify program with
  | Err errors => Err (CodegenInvalidMir errors)
  | Ok _ =>
      match verify_frames frames with
      | Err e => Err e
      | Ok _ =>
          match entry program with
          | None => Err CodegenMissingEntry
          | Some entry =>
              let indices := function_indices (functions program) in
              let count := N.of_nat (length (functions program)) in
              if bool_decide (u32_max + 1 < count) then Err (UnsupportedOperation "too many functions")
              else
                match supported_signatures (functions program) with
                | Err e => Err e
                | Ok _ =>
                    if bool_decide (u32_max < count)
                    then Err (UnsupportedOperation "too many function types") else
                    match indices !! entry with
                    | None => Err CodegenMissingEntry
                    | Some entry_index =>
                        if bool_decide (u32_max + 1 < N.of_nat (length frames))
                        then Err (UnsupportedOperation "too many async frames") else
                        match encode_functions (functions program) indices with
                        | Err e => Err e
                        | Ok fs =>
                            match encode_frames frames with
                            | Err e => Err e
                            | Ok gs =>
                                Ok {| wm_functions := fs ++ gs;
                                      wm_exports := ("main", entry_index) ::
                                        imap (λ i frame, (async_export_name frame,
                                                u32_saturating_add count (N.of_nat i))) frames |}
                            end
                        end
                    end
                end
          end
      end
  end.
