(* ===== verification/CodegenTheorems.v ===== *)
(** * Correctness of the emitted code: locals and async frames *)

From stdpp Require Import base gmap list strings numbers relations.
From S2P Require Import Prelude Ir Cfg Verify Hir Async AsyncTheorems Wasm Codegen.
Open Scope N_scope.
Open Scope list_scope.

(** ** Successful encoders *)

Lemma and_then_ok a b c :
  and_then a b = Ok c ↔ ∃ xs ys, a = Ok xs ∧ b = Ok ys ∧ c = xs ++ ys.
Proof. destruct a as [xs|], b as [ys|]; simpl; naive_solver. Qed.

Lemma encode_all_cons {A} (g : A → result (list Instruction) CodegenError) x l c :
  encode_all g (x :: l) = Ok c ↔ ∃ xs ys, g x = Ok xs ∧ encode_all g l = Ok ys ∧ c = xs ++ ys.
Proof. apply and_then_ok. Qed.

(** Split a successful encoding into its parts. *)
Ltac split_encoded :=
  repeat match goal with
  | H : and_then _ _ = Ok _ |- _ => apply and_then_ok in H as (?&?&?&?&?)
  | H : Ok _ = Ok _ |- _ => injection H as H
  | H : Err _ = Ok _ |- _ => discriminate H
  end; subst.

(** ** Skipping over balanced code *)

(** Code that a skip passes over whole. *)
Definition balanced (c : list Instruction) : Prop :=
  ∀ stop_else depth rest, skip stop_else depth (c ++ rest) = skip stop_else depth rest.

Definition is_plain (i : Instruction) : bool :=
  match i with If _ | Loop _ | Else | End_ => false | _ => true end.

Lemma balanced_nil : balanced [].
Proof. done. Qed.

Lemma balanced_app c d : balanced c → balanced d → balanced (c ++ d).
Proof. intros Hc Hd se depth rest. by rewrite <-app_assoc, Hc, Hd. Qed.

Lemma balanced_plain i c : is_plain i = true → balanced c → balanced (i :: c).
Proof. intros Hi Hc se depth rest. destruct i; try done; simpl; apply Hc. Qed.

Lemma balanced_if bt c : balanced c → balanced (If bt :: c ++ [End_]).
Proof. intros Hc se depth rest. simpl. by rewrite <-app_assoc, Hc. Qed.

Lemma balanced_if_else bt c d : balanced c → balanced d → balanced (If bt :: c ++ Else :: d ++ [End_]).
Proof.
  intros Hc Hd se depth rest. cbn [app skip].
  replace ((c ++ Else :: d ++ [End_]) ++ rest) with (c ++ Else :: d ++ End_ :: rest)
    by (by rewrite <-!app_assoc; simpl; rewrite <-!app_assoc).
  rewrite Hc. cbn [skip]. rewrite bool_decide_eq_false_2, andb_false_r by done. by rewrite Hd.
Qed.

Lemma balanced_concat cs : Forall balanced cs → balanced (concat cs).
Proof. induction 1; simpl; auto using balanced_nil, balanced_app. Qed.

Lemma balanced_encode_all {A} (g : A → result (list Instruction) CodegenError) l c :
  (∀ x c, g x = Ok c → balanced c) → encode_all g l = Ok c → balanced c.
Proof.
  intros Hg. revert c. induction l as [|x l IH]; intros c.
  - intros [= <-]. apply balanced_nil.
  - intros (xs&ys&Hx&Hl&->)%encode_all_cons. eauto using balanced_app.
Qed.

(** The two skips of an [If] whose then-branch is balanced code. *)
Lemma skip_if c rest : balanced c →
  skip false 0 (c ++ End_ :: rest) = Some (false, rest) ∧
  skip true 0 (c ++ End_ :: rest) = Some (false, rest).
Proof. intros Hc. by rewrite !Hc. Qed.

Lemma skip_if_else c d rest : balanced c → balanced d →
  skip false 0 (c ++ Else :: d ++ End_ :: rest) = Some (false, rest) ∧
  skip true 0 (c ++ Else :: d ++ End_ :: rest) = Some (true, d ++ End_ :: rest).
Proof. intros Hc Hd. rewrite !Hc. simpl. by rewrite Hd. Qed.

(** ** Runs *)

Section runs.
Context (fs : list WasmFunction).

Definition wasm_move (s s' : WasmState) : Prop :=
  ∃ f callers, s = Running f callers ∧ s' = wasm_step fs f callers.

Abbreviation steps_to := (rtc wasm_move).

Lemma wasm_move_step f callers s' : wasm_step fs f callers = s' → steps_to (Running f callers) s'.
Proof. intros <-. apply rtc_once. by exists f, callers. Qed.

Lemma wasm_step_trans f callers s' s'' :
  wasm_step fs f callers = s' → steps_to s' s'' → steps_to (Running f callers) s''.
Proof. intros H1 H2. etrans; [by apply wasm_move_step|done]. Qed.

(** *** One instruction at a time *)

Section instructions.
Context (code : list Instruction) (labels : list (list Instruction * list WasmValue)).
Context (locals : list WasmValue) (stack : list WasmValue) (callers : list WasmFrame).

Abbreviation at_code c ls st := (Running (Build_WasmFrame c labels ls st) callers).

Lemma step_local_get l v s' :
  locals !! N.to_nat l = Some v → steps_to (at_code code locals (v :: stack)) s' →
  steps_to (at_code (LocalGet l :: code) locals stack) s'.
Proof. intros Hl. apply wasm_step_trans. unfold wasm_step. simpl. by rewrite Hl. Qed.

Lemma step_local_set l v s' :
  steps_to (at_code code (<[N.to_nat l := v]> locals) stack) s' →
  steps_to (at_code (LocalSet l :: code) locals (v :: stack)) s'.
Proof. by apply wasm_step_trans. Qed.

Lemma step_const64 z s' :
  steps_to (at_code code locals (W64 (wrap64 z) :: stack)) s' →
  steps_to (at_code (I64Const z :: code) locals stack) s'.
Proof. by apply wasm_step_trans. Qed.

Lemma step_const32 z s' :
  steps_to (at_code code locals (W32 (wrap32 z) :: stack)) s' →
  steps_to (at_code (I32Const z :: code) locals stack) s'.
Proof. by apply wasm_step_trans. Qed.

Lemma step_binary i a b v s' :
  is_binary i = true → apply_binary i a b = Some v →
  steps_to (at_code code locals (v :: stack)) s' →
  steps_to (at_code (i :: code) locals (b :: a :: stack)) s'.
Proof.
  intros Hi Hv. apply wasm_step_trans. unfold wasm_step. simpl.
  destruct i; try done; by rewrite Hv.
Qed.

(** [If] with an empty else-branch. *)
Lemma step_if_false body bt s' :
  balanced body → steps_to (at_code code locals stack) s' →
  steps_to (at_code (If bt :: body ++ End_ :: code) locals (bool32 false :: stack)) s'.
Proof.
  intros Hb. apply wasm_step_trans. unfold wasm_step. cbn [fr_code fr_stack bool32].
  by destruct (skip_if body code Hb) as [-> ->].
Qed.

Lemma step_if_true body bt s' :
  balanced body →
  steps_to (Running (Build_WasmFrame (body ++ End_ :: code) ((code, stack) :: labels) locals stack) callers) s' →
  steps_to (at_code (If bt :: body ++ End_ :: code) locals (bool32 true :: stack)) s'.
Proof.
  intros Hb. apply wasm_step_trans. unfold wasm_step. cbn [fr_code fr_stack bool32].
  by destruct (skip_if body code Hb) as [-> ->].
Qed.

(** [If] with both branches: the chosen one runs under the block's label. *)
Lemma step_if_else (b : bool) yes no bt s' :
  balanced yes → balanced no →
  steps_to (Running (Build_WasmFrame
    (if b then yes ++ Else :: no ++ End_ :: code else no ++ End_ :: code)
    ((code, stack) :: labels) locals stack) callers) s' →
  steps_to (at_code (If bt :: yes ++ Else :: no ++ End_ :: code) locals (bool32 b :: stack)) s'.
Proof.
  intros Hy Hn. apply wasm_step_trans. unfold wasm_step. cbn [fr_code fr_stack].
  destruct (skip_if_else yes no code Hy Hn) as [-> ->]. by destruct b.
Qed.

Lemma step_end c saved s' :
  steps_to (at_code code locals stack) s' →
  steps_to (Running (Build_WasmFrame (End_ :: code) ((c, saved) :: labels) locals stack) callers) s'.
Proof. by apply wasm_step_trans. Qed.

Lemma step_else c saved rest s' :
  steps_to (at_code c locals stack) s' →
  steps_to (Running (Build_WasmFrame (Else :: rest) ((c, saved) :: labels) locals stack) callers) s'.
Proof. by apply wasm_step_trans. Qed.

Lemma step_return v s' :
  steps_to (return_value v callers) s' →
  steps_to (at_code (Return_ :: code) locals (v :: stack)) s'.
Proof. by apply wasm_step_trans. Qed.
End instructions.

(** A run to a final state is one of the bounded machine. *)
Lemma steps_to_run s s' :
  steps_to s s' → (∀ f callers, s' ≠ Running f callers) →
  ∃ fuel, ∀ fuel', (fuel ≤ fuel')%nat → wasm_run fs fuel' s = Some s'.
Proof.
  induction 1 as [s|s1 s2 s3 (f&callers&->&->) _ IH]; intros Hfinal.
  - exists 0%nat. intros [|n] _; destruct s as [f cs| |]; try done; by edestruct Hfinal.
  - destruct (IH Hfinal) as [fuel Hfuel]. exists (S fuel). intros [|n] Hn; [lia|].
    simpl. apply Hfuel. lia.
Qed.
End runs.

(** ** Local numbering *)

(** The Wasm numbering of locals is a permutation: parameters come first,
    the return slot takes the place after them, every local of a function has an
    index below the number of locals, two locals never share one, and the index
    after them, which holds the current block, is none of theirs. *)
Theorem wasm_local_injective f l k :
  (N.to_nat (parameter_count f) < length (fn_locals f))%nat →
  (N.to_nat l < length (fn_locals f))%nat → (N.to_nat k < length (fn_locals f))%nat →
  (N.to_nat (wasm_local f l) < length (fn_locals f))%nat ∧
  (wasm_local f l = wasm_local f k → l = k) ∧
  (1 ≤ l ≤ parameter_count f → wasm_local f l = l - 1).
Proof.
  intros Hp Hl Hk. unfold wasm_local. split_and!; repeat case_bool_decide; subst; lia.
Qed.

(** One parameter, three locals. *)
Definition three_locals : MirFunction := {|
  fn_id := task_id; parameter_count := 1; return_type := TyI64;
  fn_locals := [TyI64; TyI64; TyBool]; fn_blocks := []
|}.

Lemma wasm_local_injective_witness :
  (N.to_nat (wasm_local three_locals 1) < 3)%nat ∧
  (wasm_local three_locals 1 = wasm_local three_locals 2 → 1 = 2) ∧
  (1 ≤ 1 ≤ 1 → wasm_local three_locals 1 = 1 - 1).
Proof. apply (wasm_local_injective three_locals 1 2); vm_compute; lia. Defined.

(** ** Async frames *)

(** The next state a transition leads to under a signal. *)
Definition next_state (current : N) (t : AsyncTransition) (signal : N) : N :=
  match t with
  | TrStart next => next
  | TrSuspend _ resume cancel =>
      if bool_decide (signal = 2) then cancel
      else if bool_decide (signal = 1) then resume else current
  | TrResume next panic => if bool_decide (signal = 3) then panic else next
  | TrComplete | TrCancel _ => current
  end.

(** The specification of a step export; an unknown state answers -1. *)
Definition frame_step (m : AsyncStateMachine) (state signal : N) : Z :=
  match states m !! N.to_nat state with
  | None => wrap32 (-1)
  | Some s => Z.of_N (next_state state (transition s) signal)
  end.

Lemma const_state_ok n c : const_state n = Ok c → c = [I32Const (Z.of_N n)] ∧ wrap32 (Z.of_N n) = Z.of_N n.
Proof.
  unfold const_state, async_i32. case_bool_decide; [|done]. intros [= <-]. split; [done|].
  unfold wrap32, two32. apply Z.mod_small. lia.
Qed.

Lemma balanced_const_state n c : const_state n = Ok c → balanced c.
Proof. intros [-> _]%const_state_ok. by apply balanced_plain, balanced_nil. Qed.

Section frame.
Context (fs : list WasmFunction) (state signal : N).
Context (labels : list (list Instruction * list WasmValue)) (callers : list WasmFrame).

Abbreviation frame_locals := [W32 (Z.of_N state); W32 (Z.of_N signal)].
Abbreviation in_frame c st := (Running (Build_WasmFrame c labels frame_locals st) callers).

Lemma compare_signal (a b : N) : bool32 (Z.eqb (Z.of_N a) (Z.of_N b)) = bool32 (bool_decide (a = b)).
Proof. f_equal. case_bool_decide; [subst; apply Z.eqb_refl|]. apply Z.eqb_neq. lia. Qed.

(** Comparing the signal with a small constant. *)
Lemma signal_test (k : N) code stack s' :
  wrap32 (Z.of_N k) = Z.of_N k →
  rtc (wasm_move fs) (in_frame code (bool32 (bool_decide (signal = k)) :: stack)) s' →
  rtc (wasm_move fs) (in_frame (LocalGet 1 :: I32Const (Z.of_N k) :: I32Eq :: code) stack) s'.
Proof.
  intros Hk H. eapply step_local_get; [done|]. apply step_const32. rewrite Hk.
  eapply step_binary; [done|simpl; reflexivity|]. by rewrite compare_signal.
Qed.

(** A constant in each branch of an [If]. *)
Lemma choose_constant (b : bool) (x y : N) bt code stack s' :
  wrap32 (Z.of_N x) = Z.of_N x → wrap32 (Z.of_N y) = Z.of_N y →
  rtc (wasm_move fs) (in_frame code (W32 (Z.of_N (if b then x else y)) :: stack)) s' →
  rtc (wasm_move fs)
    (in_frame (If bt :: I32Const (Z.of_N x) :: Else :: I32Const (Z.of_N y) :: End_ :: code)
       (bool32 b :: stack)) s'.
Proof.
  intros Hx Hy H.
  apply (step_if_else fs code labels frame_locals stack callers b [I32Const (Z.of_N x)] [I32Const (Z.of_N y)]);
    [by apply balanced_plain, balanced_nil..|].
  destruct b; apply step_const32; [rewrite Hx; by apply step_else|rewrite Hy; by apply step_end].
Qed.

End frame.

Section async_frame.
Context (fs : list WasmFunction) (state signal : N) (callers : list WasmFrame).

Abbreviation frame_locals := [W32 (Z.of_N state); W32 (Z.of_N signal)].
Abbreviation in_frame c labels st := (Running (Build_WasmFrame c labels frame_locals st) callers).

Lemma transition_run labels current t c code stack s' :
  encode_async_transition current t = Ok c →
  rtc (wasm_move fs) (in_frame code labels (W32 (Z.of_N (next_state current t signal)) :: stack)) s' →
  rtc (wasm_move fs) (in_frame (c ++ code) labels stack) s'.
Proof.
  intros Hc H. destruct t as [next|i resume cancel|next panic| |locals];
    cbn [encode_async_transition next_state] in Hc, H.
  - apply const_state_ok in Hc as [-> Hw]. apply step_const32. by rewrite Hw.
  - split_encoded. repeat match goal with H : const_state _ = Ok _ |- _ => apply const_state_ok in H as [-> ?] end.
    simpl. apply (signal_test _ _ _ _ _ 2); [done|].
    apply (step_if_else fs code labels frame_locals stack callers (bool_decide (signal = 2))
      [I32Const (Z.of_N cancel)]
      (LocalGet 1 :: I32Const 1 :: I32Eq ::
       If (Some TI32) :: [I32Const (Z.of_N resume)] ++ Else :: [I32Const (Z.of_N current)] ++ [End_])).
    { by apply balanced_plain, balanced_nil. }
    { do 3 (apply balanced_plain; [done|]). by apply balanced_if_else; apply balanced_plain, balanced_nil. }
    destruct (bool_decide (signal = 2)).
    + apply step_const32. replace (wrap32 (Z.of_N cancel)) with (Z.of_N cancel) by done. by apply step_else.
    + simpl. apply (signal_test _ _ _ _ _ 1); [done|].
      apply choose_constant; [done..|]. by apply step_end.
  - split_encoded. repeat match goal with H : const_state _ = Ok _ |- _ => apply const_state_ok in H as [-> ?] end.
    simpl. apply (signal_test _ _ _ _ _ 3); [done|]. by apply choose_constant.
  - apply const_state_ok in Hc as [-> Hw]. apply step_const32. by rewrite Hw.
  - apply const_state_ok in Hc as [-> Hw]. apply step_const32. by rewrite Hw.
Qed.

Lemma balanced_transition current t c : encode_async_transition current t = Ok c → balanced c.
Proof.
  intros Hc. destruct t as [next|i resume cancel|next panic| |locals];
    cbn [encode_async_transition] in Hc; try by eapply balanced_const_state.
  - split_encoded. repeat match goal with H : const_state _ = Ok _ |- _ => apply const_state_ok in H as [-> ?] end.
    simpl. do 3 (apply balanced_plain; [done|]).
    apply (balanced_if_else (Some TI32) [_] (LocalGet 1 :: I32Const 1 :: I32Eq :: If (Some TI32) ::
      [I32Const (Z.of_N resume)] ++ Else :: [I32Const (Z.of_N current)] ++ [End_])).
    { by apply balanced_plain, balanced_nil. }
    do 3 (apply balanced_plain; [done|]). by apply balanced_if_else; apply balanced_plain, balanced_nil.
  - split_encoded. repeat match goal with H : const_state _ = Ok _ |- _ => apply const_state_ok in H as [-> ?] end.
    simpl. do 3 (apply balanced_plain; [done|]).
    by apply (balanced_if_else (Some TI32) [_] [_]); apply balanced_plain, balanced_nil.
Qed.

(** The test of one state: returns the next state, or falls through. *)
Lemma async_state_run s c code s' :
  encode_async_state s = Ok c →
  (as_id s = state →
   rtc (wasm_move fs) (return_value (W32 (Z.of_N (next_state state (transition s) signal))) callers) s') →
  (as_id s ≠ state → rtc (wasm_move fs) (in_frame code [] []) s') →
  rtc (wasm_move fs) (in_frame (c ++ code) [] []) s'.
Proof.
  intros Hc Heq Hne. unfold encode_async_state in Hc. split_encoded.
  match goal with H : const_state _ = Ok _ |- _ => apply const_state_ok in H as [-> Hw] end.
  match goal with H : encode_async_transition _ _ = Ok ?c |- _ => rename c into ct; rename H into Ht end.
  simpl. eapply step_local_get; [done|]. apply step_const32. rewrite Hw.
  eapply step_binary; [done|simpl; reflexivity|]. rewrite compare_signal.
  replace ((ct ++ [Return_; End_]) ++ code) with ((ct ++ [Return_]) ++ End_ :: code)
    by (by rewrite <-!app_assoc).
  assert (balanced (ct ++ [Return_])) as Hb.
  { apply balanced_app; [by eapply balanced_transition|by apply balanced_plain, balanced_nil]. }
  case_bool_decide as E.
  - apply step_if_true; [done|]. rewrite <-app_assoc. eapply transition_run; [exact Ht|].
    apply step_return. rewrite <-E. by apply Heq.
  - apply step_if_false; [done|]. apply Hne. congruence.
Qed.

Lemma async_states_run ss base c s' :
  encode_all encode_async_state ss = Ok c → base ≤ state →
  (∀ i s, ss !! i = Some s → as_id s = base + N.of_nat i) →
  rtc (wasm_move fs)
    (return_value (W32 (match ss !! N.to_nat (state - base) with
                        | Some s => Z.of_N (next_state state (transition s) signal)
                        | None => wrap32 (-1)
                        end)) callers) s' →
  rtc (wasm_move fs) (in_frame (c ++ [I32Const (-1); End_]) [] []) s'.
Proof.
  revert base c. induction ss as [|s ss IH]; intros base c Hc Hle Hids H.
  - injection Hc as <-. simpl. apply step_const32. eapply wasm_step_trans; [done|]. exact H.
  - apply encode_all_cons in Hc as (xs&ys&Hx&Hy&->). rewrite <-app_assoc.
    pose proof (Hids 0%nat s eq_refl) as Hid. rewrite N.add_0_r in Hid.
    eapply async_state_run; [exact Hx|..].
    + intros E. replace (N.to_nat (state - base)) with 0%nat in H by lia. exact H.
    + intros E. apply (IH (base + 1)); [done|lia| |].
      * intros i s2 Hi. rewrite (Hids (S i) s2 Hi). lia.
      * replace (N.to_nat (state - base)) with (S (N.to_nat (state - (base + 1)))) in H by lia. exact H.
Qed.
End async_frame.

(** The step export of an async frame is the frame's transition function:
    for a verified machine whose code is generated, calling it with any state
    and signal returns the next state — cancellation on signal 2, resumption on
    1, panic on 3 after a resumption, the same state otherwise — and -1 for a
    state outside the table. *)
Theorem async_frame_step_exact m g fs k state signal :
  verify_async_machine m = Ok tt → encode_async_frame m = Ok g → fs !! k = Some g →
  N.of_nat (length (states m)) ≤ u32_max →
  ∃ fuel, ∀ fuel', (fuel ≤ fuel')%nat →
    wasm_invoke fs fuel' k [W32 (Z.of_N state); W32 (Z.of_N signal)] =
      Some (Returned (W32 (frame_step m state signal))).
Proof.
  intros [_ Hids _ _ _ _]%verify_async_ok Hg Hk Hlen. unfold wasm_invoke. rewrite Hk.
  unfold encode_async_frame in Hg. destruct (encode_all encode_async_state (states m)) as [c|] eqn:Hc; [|done].
  injection Hg as <-. apply steps_to_run; [|done].
  unfold enter_function. simpl. eapply (async_states_run fs state signal [] (states m) 0 c); [done|lia| |].
  - intros i s Hs. rewrite (Hids i s Hs). unfold u32_of_index. pose proof (lookup_lt_Some _ _ _ Hs).
    rewrite bool_decide_eq_true_2 by lia. lia.
  - rewrite N.sub_0_r. unfold frame_step. destruct (states m !! N.to_nat state); apply rtc_refl.
Qed.

(** The machine of a task with one await. *)
Definition one_await : AsyncStateMachine := {|
  am_function := task_id; parent_scope_required := true; live_locals := [];
  states := [{| as_id := 0; transition := TrStart 1 |};
             {| as_id := 1; transition := TrSuspend 0 2 4 |};
             {| as_id := 2; transition := TrResume 3 4 |};
             {| as_id := 3; transition := TrComplete |};
             {| as_id := 4; transition := TrCancel [] |}]
|}.

Lemma async_frame_step_exact_witness :
  ∃ g, encode_async_frame one_await = Ok g ∧
    ∃ fuel, ∀ fuel', (fuel ≤ fuel')%nat →
      wasm_invoke [g] fuel' 0 [W32 1; W32 2] = Some (Returned (W32 4)).
Proof.
  destruct (encode_async_frame one_await) as [g|e] eqn:E; [|vm_compute in E; discriminate].
  exists g. split; [done|].
  apply (async_frame_step_exact one_await g [g] 0 1 2); [vm_compute; reflexivity|done|done|].
  vm_compute. discriminate.
Defined.
