(* ===== verification/CodegenValid.v ===== *)
(** * Validity of the emitted functions

    Every function generated from a verified program whose blocks are all
    reachable and which compares nothing passes WebAssembly validation; a
    comparison, and an unreachable block the verifier does not look at, produce
    code that does not. *)

From stdpp Require Import base gmap list strings numbers relations.
From S2P Require Import Prelude Ir Cfg Dataflow Verify VerifySound Wasm Codegen CodegenTheorems Interp.
Open Scope N_scope.
Open Scope list_scope.

(** ** What the encoders need of a block *)

Section fits.
Context (f : MirFunction) (signatures : gmap DefId MirFunction).

Definition local_fits (l : LocalId) : Prop := (N.to_nat l < length (fn_locals f))%nat.

Definition operand_fits (o : Operand) : Prop :=
  match o with OpConstant _ => True | OpCopy l | OpMove l => local_fits l end.

Definition rvalue_fits (r : Rvalue) : Prop :=
  match r with
  | RvBorrow _ p => local_fits (place_local p)
  | RvUse o | RvDiscriminant o => operand_fits o
  | RvAggregate _ _ _ => True
  | RvBinary operator lhs rhs => operand_fits lhs ∧ operand_fits rhs
  end.

Definition statement_fits (st : Statement) : Prop :=
  match st with
  | StAssign p r => rvalue_fits r ∧ local_fits (place_local p)
  | StDrop _ => True
  end.

Definition terminator_fits (t : Terminator) : Prop :=
  match t with
  | TmReturn => local_fits 0
  | TmGoto _ => True
  | TmSwitchInt v _ _ => operand_fits v
  | TmCall callee args p _ =>
      Forall operand_fits args ∧ local_fits (place_local p) ∧
      ∃ g, signatures !! callee = Some g ∧ length args = N.to_nat (parameter_count g)
  end.

Lemma operand_type_fits block o D : (operand_type f block o D).2 = [] → operand_fits o.
Proof. destruct o; simpl; [done|..]; by intros [? _]%verify_local_use_nil. Qed.

Lemma place_type_fits block p : (place_type f block p).2 = [] → local_fits (place_local p).
Proof.
  unfold place_type, local_fits. destruct (local_type f (place_local p)) eqn:E; [|done].
  intros _. by eapply lookup_lt_Some.
Qed.

Lemma operand_type_none block o D : (operand_type f block o D).2 = [] → (operand_type f block o D).1 ≠ None.
Proof.
  destruct o as [c|l|l]; simpl; [done|..]; intros [Hl _]%verify_local_use_nil;
    apply lookup_lt_is_Some in Hl as [ty Hty]; unfold local_type; by rewrite Hty.
Qed.

Lemma verify_rvalue_fits block r D : (verify_rvalue f block r D).2 = [] → rvalue_fits r.
Proof.
  destruct r as [m p|o|operator lhs rhs|ty d fields|o]; simpl; try done;
    try apply operand_type_fits.
  - destruct (place_type f block p) as [ty e]. simpl. intros [H _]%app_nil.
    by apply verify_local_use_nil in H as [? _].
  - pose proof (operand_type_fits block lhs D) as Hl. pose proof (operand_type_none block lhs D) as Nl.
    pose proof (operand_type_fits block rhs D) as Hr.
    destruct (operand_type f block lhs D) as [[lt|] e1]; simpl in *; [|intros ->; by destruct Nl].
    destruct (operand_type f block rhs D) as [[rt|] e2]; simpl in *.
    + destruct (binary_type f block operator lt rt). simpl. intros [-> [-> _]%app_nil]%app_nil. auto.
    + intros [-> ->]%app_nil. auto.
Qed.

Lemma verify_statement_fits block st D D' : verify_statement f block st D = (D', []) → statement_fits st.
Proof.
  destruct st as [p r|p]; simpl; [|done]. pose proof (verify_rvalue_fits block r D) as Hr.
  pose proof (place_type_fits block p) as Hp.
  destruct (verify_rvalue f block r D) as [ty e1], (place_type f block p) as [t e2]; simpl in *.
  destruct t; intros H; apply (f_equal snd) in H; simpl in H; split_hyps; auto.
Qed.

Lemma verify_statements_fits block sts D D' :
  verify_statements f block sts D = (D', []) → Forall statement_fits sts.
Proof.
  revert D. induction sts as [|st sts IH]; intros D; [constructor|].
  intros [Hs Hr]%verify_statements_cons. constructor; [by eapply verify_statement_fits|by eapply IH].
Qed.

Lemma verify_terminator_fits block t D :
  (∀ callee args p next, t = TmCall callee args p next → is_Some (signatures !! callee)) →
  verify_terminator f block t signatures D = [] → terminator_fits t.
Proof.
  intros Hcallee. destruct t as [|target|v targets otherwise|callee args p next]; simpl; [|done|..].
  - by intros [? _]%verify_local_use_nil.
  - pose proof (operand_type_fits block v D) as Hv. destruct (operand_type f block v D).
    simpl in *. intros [-> _]%app_nil. auto.
  - destruct (Hcallee callee args p next eq_refl) as [g Hg]. rewrite Hg.
    intros [Hn [Ha Hp]%app_nil]%app_nil. split; [|split].
    + apply Forall_lookup. intros i o Ho. rewrite concat_imap_nil in Ha. specialize (Ha i o Ho).
      unfold verify_argument in Ha. pose proof (operand_type_fits block o D) as H.
      destruct (operand_type f block o D). apply app_nil in Ha as [-> _]. auto.
    + pose proof (place_type_fits block p) as H. destruct (place_type f block p).
      apply app_nil in Hp as [-> _]. auto.
    + exists g. split; [done|]. by apply when_nil, bool_decide_eq_false, dec_stable in Hn.
Qed.

(** Every reachable block of a verified function fits. *)
Lemma block_fits i b :
  passes_checks signatures f → reaches f i → fn_blocks f !! i = Some b →
  Forall statement_fits (statements b) ∧ ∃ t, terminator b = Some t ∧ terminator_fits t.
Proof.
  intros Hwf Hi Hb.
  destruct (must_analysis_reaches f define_block (λ j, negb (bool_decide (j = 0%nat))) i Hi) as [D HD].
  pose proof (wf_block _ _ Hwf i b D Hb HD) as Hv. destruct (wf_terminator _ _ Hwf i b Hb) as (t&Ht&_&Hc).
  unfold verify_block in Hv. destruct (verify_statements f (u32_of_index i) (statements b) D) as [D' e] eqn:E.
  apply app_nil in Hv as [-> Hv]. rewrite Ht in Hv. split; [by eapply verify_statements_fits|].
  exists t. split; [done|]. by eapply verify_terminator_fits.
Qed.
End fits.

(** ** Typing of the emitted code *)

Lemma check_code_app L r sigs c d fr :
  check_code L r sigs (c ++ d) fr = (check_code L r sigs c fr ≫= check_code L r sigs d).
Proof.
  revert fr. induction c as [|i c IH]; intros fr; simpl; [done|].
  destruct (check_instruction L r sigs i fr); simpl; [apply IH|done].
Qed.

Lemma pop_push t c : pop_type t (push_type t c) = Some c.
Proof. unfold pop_type, push_type. simpl. rewrite decide_True by done. by destruct c. Qed.

Section typing.
Context (f : MirFunction) (signatures : gmap DefId MirFunction) (indices : gmap DefId N).
Context (types : list ValType) (sigs : list (list ValType * ValType)).
Context (types_all : ∀ i, (i ≤ length (fn_locals f))%nat → types !! i = Some TI64).
Context (params_fit : (N.to_nat (parameter_count f) < length (fn_locals f))%nat).
Context (callees : ∀ id g, signatures !! id = Some g →
  ∃ k, indices !! id = Some k ∧
       sigs !! N.to_nat k = Some (replicate (N.to_nat (parameter_count g)) TI64, TI64)).

Abbreviation check := (check_code types TI64 sigs).
Abbreviation pc := (N.of_nat (length (fn_locals f))).

Lemma wasm_local_fits l : local_fits f l → types !! N.to_nat (wasm_local f l) = Some TI64.
Proof.
  intros Hl. apply types_all. unfold local_fits, wasm_local in *. repeat case_bool_decide; lia.
Qed.

Lemma check_operand o c k fr :
  encode_operand f o = Ok c → operand_fits f o → check c (k :: fr) = Some (push_type TI64 k :: fr).
Proof.
  destruct o as [[]|l|l]; simpl; intros Hc Hf; simplify_eq; simpl; try done; by rewrite wasm_local_fits.
Qed.

Lemma check_set_place p c k fr :
  encode_set_place f p = Ok c → local_fits f (place_local p) →
  check c (push_type TI64 k :: fr) = Some (k :: fr).
Proof.
  destruct p; simpl; intros Hc Hf; simplify_eq. cbn [check_code check_instruction plain_type].
  rewrite wasm_local_fits by done. simpl. by destruct k.
Qed.

(** Equality and order leave an [i32] where an [i64] is wanted. *)
Definition is_comparison_op (operator : BinaryOp) : bool :=
  match operator with BEqual | BLess => true | _ => false end.

Definition compares (r : Rvalue) : bool :=
  match r with RvBinary operator _ _ => is_comparison_op operator | _ => false end.

Lemma check_rvalue r c k fr :
  encode_rvalue f r = Ok c → rvalue_fits f r → compares r = false →
  check c (k :: fr) = Some (push_type TI64 k :: fr).
Proof.
  destruct r as [m [l|]|o|operator lhs rhs|ty d fields|o]; simpl; intros Hc Hf Hn; simplify_eq;
    try by eapply check_operand.
  - simpl. by rewrite wasm_local_fits.
  - split_encoded. destruct Hf as [Hl Hr].
    rewrite check_code_app, (check_operand lhs) by done. simpl.
    rewrite check_code_app, (check_operand rhs) by done. simpl.
    assert (plain_type types sigs (binary_instruction operator
      (bool_decide (codegen_operand_type f lhs = Some TyU64))) = Some ([TI64; TI64], [TI64])) as Hp.
    { destruct operator; simpl; try done; by destruct (bool_decide _). }
    destruct operator; simpl in *; try done; try (destruct (bool_decide _); simpl in *);
      by destruct k.
  - done.
Qed.

Definition statement_compares (st : Statement) : bool :=
  match st with StAssign _ r => compares r | StDrop _ => false end.

Lemma check_statement st c k fr :
  encode_statement f st = Ok c → statement_fits f st → statement_compares st = false →
  check c (k :: fr) = Some (k :: fr).
Proof.
  destruct st as [p r|[]]; simpl; intros Hc Hf Hn; [|by simplify_eq|done].
  split_encoded. destruct Hf as [Hr Hp].
  rewrite check_code_app, (check_rvalue r) by done. simpl. by eapply check_set_place.
Qed.

Lemma check_statements sts c k fr :
  encode_all (encode_statement f) sts = Ok c → Forall (statement_fits f) sts →
  existsb statement_compares sts = false → check c (k :: fr) = Some (k :: fr).
Proof.
  revert c. induction sts as [|st sts IH]; intros c; [by intros [= <-]|].
  intros (xs&ys&Hx&Hy&->)%encode_all_cons [Hs Hss]%list.Forall_cons [Hn Hns]%orb_false_iff.
  rewrite check_code_app, (check_statement st) by done. simpl. by apply IH.
Qed.

(** Arguments pile up and a call takes them. *)
Fixpoint push_all (n : nat) (k : ControlFrame) : ControlFrame :=
  match n with O => k | S n => push_all n (push_type TI64 k) end.

Lemma push_all_succ n k : push_all (S n) k = push_type TI64 (push_all n k).
Proof. revert k. induction n as [|n IH]; intros k; [done|]. simpl in *. by rewrite IH. Qed.

Lemma check_operands os c k fr :
  encode_all (encode_operand f) os = Ok c → Forall (operand_fits f) os →
  check c (k :: fr) = Some (push_all (length os) k :: fr).
Proof.
  revert c k. induction os as [|o os IH]; intros c k; [by intros [= <-]|].
  intros (xs&ys&Hx&Hy&->)%encode_all_cons [Ho Hos]%list.Forall_cons.
  rewrite check_code_app, (check_operand o) by done. simpl. by apply IH.
Qed.

Lemma pop_all n k : pop_types (replicate n TI64) (push_all n k) = Some k.
Proof.
  induction n as [|n IH]; [done|]. rewrite push_all_succ. cbn [replicate pop_types].
  rewrite pop_push. exact IH.
Qed.

(** *** One instruction at a time *)

Abbreviation check1 := (check_instruction types TI64 sigs).

Lemma check_cons i c fr fr' : check1 i fr = Some fr' → check (i :: c) fr = check c fr'.
Proof. intros H. cbn [check_code]. by rewrite H. Qed.

Lemma type_const z k fr : check1 (I64Const z) (k :: fr) = Some (push_type TI64 k :: fr).
Proof. done. Qed.

Lemma type_get l k fr : types !! N.to_nat l = Some TI64 →
  check1 (LocalGet l) (k :: fr) = Some (push_type TI64 k :: fr).
Proof. intros H. cbn [check_instruction plain_type]. by rewrite H. Qed.

Lemma type_set l k fr : types !! N.to_nat l = Some TI64 →
  check1 (LocalSet l) (push_type TI64 k :: fr) = Some (k :: fr).
Proof. intros H. cbn [check_instruction plain_type]. rewrite H. simpl. by destruct k. Qed.

Lemma type_eq k fr : check1 I64Eq (push_type TI64 (push_type TI64 k) :: fr) = Some (push_type TI32 k :: fr).
Proof. by destruct k. Qed.

Lemma type_if bt k fr : check1 (If bt) (push_type TI32 k :: fr) = Some (open_frame bt bt true :: k :: fr).
Proof. by destruct k. Qed.

Lemma type_br depth k fr lp : (k :: fr) !! N.to_nat depth = Some lp → cf_branch lp = None →
  check1 (Br depth) (k :: fr) = Some (mark_unreachable k :: fr).
Proof. intros Hd Hlp. cbn [check_instruction]. rewrite Hd. simpl. by rewrite Hlp. Qed.

Lemma pc_type : types !! N.to_nat pc = Some TI64.
Proof. rewrite Nat2N.id. by apply types_all. Qed.

Lemma check_continue target depth k fr lp :
  (k :: fr) !! N.to_nat depth = Some lp → cf_branch lp = None →
  check (encode_continue pc target depth) (k :: fr) = Some (mark_unreachable k :: fr).
Proof.
  intros Hd Hlp. unfold encode_continue.
  erewrite check_cons by apply type_const. erewrite check_cons by apply type_set, pc_type.
  by erewrite check_cons by (by eapply type_br).
Qed.

Lemma check_candidate v t c k lp fr :
  encode_candidate f pc v t = Ok c → operand_fits f v → cf_branch lp = None →
  check c (k :: lp :: fr) = Some (k :: lp :: fr).
Proof.
  unfold encode_candidate. intros Hc Hv Hlp. apply and_then_ok in Hc as (xs&ys&Hx&Hy&->).
  revert Hy. case_bool_decide; [|done]. intros [= <-].
  rewrite check_code_app, (check_operand v) by done. cbn [mbind option_bind].
  erewrite check_cons by apply type_const. erewrite check_cons by apply type_eq.
  erewrite check_cons by apply type_if.
  change (check (encode_continue pc t.2 2 ++ [End_]) (open_frame None None true :: k :: lp :: fr) =
    Some (k :: lp :: fr)).
  rewrite check_code_app. erewrite check_continue; [|done|done]. done.
Qed.

Lemma check_candidates v targets c k lp fr :
  encode_all (encode_candidate f pc v) targets = Ok c → operand_fits f v → cf_branch lp = None →
  check c (k :: lp :: fr) = Some (k :: lp :: fr).
Proof.
  intros Hc Hv Hlp. revert c Hc. induction targets as [|t ts IH]; intros c; [by intros [= <-]|].
  intros (xs&ys&Hx&Hy&->)%encode_all_cons.
  rewrite check_code_app, (check_candidate v t) by done. simpl. by apply IH.
Qed.

Lemma check_terminator t c k lp fr :
  encode_terminator f pc indices t = Ok c → terminator_fits f signatures t → cf_branch lp = None →
  check c (k :: lp :: fr) = Some (mark_unreachable k :: lp :: fr).
Proof.
  destruct t as [|target|v targets otherwise|callee args p next]; intros Hc Hf Hlp;
    cbn [encode_terminator] in Hc.
  - injection Hc as <-. rewrite (check_cons _ _ _ _ (type_get _ k _ (wasm_local_fits 0 Hf))).
    cbn [check_code check_instruction]. by rewrite pop_push.
  - injection Hc as <-. by eapply check_continue.
  - apply and_then_ok in Hc as (xs&ys&Hx&[= <-]&->).
    rewrite check_code_app, (check_candidates v targets xs k lp fr Hx Hf Hlp). cbn [mbind option_bind].
    by eapply check_continue.
  - apply and_then_ok in Hc as (xs&ys&Hx&Hc&->). apply and_then_ok in Hc as (?&ys2&[= <-]&Hc&->).
    apply and_then_ok in Hc as (ps&?&Hp&[= <-]&->). destruct Hf as (Hargs&Hpl&g&Hg&Hn).
    destruct (callees callee g Hg) as (j&Hj&Hsig).
    rewrite check_code_app, (check_operands args) by done. cbn [mbind option_bind app].
    assert (check1 (Call (default 0 (indices !! callee))) (push_all (length args) k :: lp :: fr) =
      Some (push_type TI64 k :: lp :: fr)) as Hcall.
    { cbn [check_instruction plain_type]. rewrite Hj. simpl. rewrite Hsig. simpl.
      by rewrite reverse_replicate, Hn, pop_all. }
    rewrite (check_cons _ _ _ _ Hcall), check_code_app, (check_set_place p) by done.
    by eapply check_continue.
Qed.

Lemma check_block b c k lp fr :
  encode_block f pc indices b = Ok c → Forall (statement_fits f) (statements b) →
  (∃ t, terminator b = Some t ∧ terminator_fits f signatures t) →
  existsb statement_compares (statements b) = false → cf_branch lp = None →
  check c (k :: lp :: fr) = Some (mark_unreachable k :: lp :: fr).
Proof.
  unfold encode_block. intros Hc Hs (t&Ht&Htf) Hn Hlp. rewrite Ht in Hc.
  apply and_then_ok in Hc as (xs&ys&Hx&Hy&->).
  rewrite check_code_app, (check_statements (statements b)) by done. by eapply check_terminator.
Qed.

Definition block_compares (b : BasicBlock) : bool := existsb statement_compares (statements b).

Definition block_ready (b : BasicBlock) : Prop :=
  Forall (statement_fits f) (statements b) ∧
  (∃ t, terminator b = Some t ∧ terminator_fits f signatures t) ∧ block_compares b = false.

(** The dispatch over the blocks leaves the loop's frame as it was. *)
Lemma check_blocks n bs c lp fr :
  encode_blocks f pc indices n bs = Ok c → Forall block_ready bs → cf_branch lp = None →
  check c (lp :: fr) = Some (lp :: fr).
Proof.
  intros Hc Hbs Hlp. revert n c Hc. induction Hbs as [|b bs (Hs&Ht&Hn) _ IH]; intros n c; [by intros [= <-]|].
  cbn [encode_blocks]. intros (?&?&[= <-]&Hc&->)%and_then_ok.
  apply and_then_ok in Hc as (cb&?&Hb&(?&cs&[= <-]&Hcs&->)%and_then_ok&->). cbn [app].
  erewrite check_cons by apply type_get, pc_type. erewrite check_cons by apply type_const.
  erewrite check_cons by apply type_eq. erewrite check_cons by apply type_if.
  rewrite check_code_app, (check_block b cb _ lp fr) by done. cbn [mbind option_bind].
  transitivity (check cs (lp :: fr)); [done|by eapply IH].
Qed.

(** A function all of whose blocks are ready validates. *)
Lemma check_body blocks :
  encode_blocks f pc indices 0 (fn_blocks f) = Ok blocks → Forall block_ready (fn_blocks f) →
  check (I64Const 0 :: LocalSet pc :: Loop None :: blocks ++ [Unreachable; End_; I64Const 0; End_])
    [open_frame (Some TI64) (Some TI64) false] = Some [].
Proof.
  intros Hc Hbs. erewrite check_cons by apply type_const.
  erewrite check_cons by apply type_set, pc_type. erewrite check_cons by reflexivity.
  rewrite check_code_app, (check_blocks 0 (fn_blocks f)) by done. done.
Qed.
End typing.

(** ** Functions, frames and modules *)

(** Types of the locals of an emitted function. *)
Lemma encoded_types f indices g i :
  encode_function f indices = Ok g → (N.to_nat (parameter_count f) < length (fn_locals f))%nat →
  N.of_nat (length (fn_locals f)) < u32_max → (i ≤ length (fn_locals f))%nat →
  (wf_params g ++ wf_locals g) !! i = Some TI64.
Proof.
  unfold encode_function. intros Hg Hp Hl Hi. revert Hg. case_bool_decide; [done|].
  destruct (encode_blocks _ _ _ _ _); [|done]. intros [= <-]. cbn [wf_params wf_locals].
  rewrite <-replicate_add. apply lookup_replicate_2. rewrite N.min_l; lia.
Qed.


(** The two maps agree: the index of an identity is that of its signature. *)
Lemma function_indices_lookup fs id g :
  signatures_of fs !! id = Some g →
  ∃ k, function_indices fs !! id = Some k ∧ fs !! N.to_nat k = Some g.
Proof.
  unfold signatures_of, function_indices. induction fs as [|f fs IH] using rev_ind; [done|].
  rewrite imap_app, !foldl_app. simpl. rewrite Nat.add_0_r.
  intros [[<- <-]|[Hne Hm]]%lookup_insert_Some.
  - exists (N.of_nat (length fs)). rewrite lookup_insert_eq, Nat2N.id. split; [done|].
    by apply list_lookup_middle.
  - destruct (IH Hm) as (k&Hk&Hg). exists k. rewrite lookup_insert_ne by done. split; [done|].
    by apply lookup_app_l_Some.
Qed.

Lemma encode_functions_lookup fs indices gs :
  encode_functions fs indices = Ok gs → Forall2 (λ f g, encode_function f indices = Ok g) fs gs.
Proof.
  revert gs. induction fs as [|f fs IH]; intros gs; cbn [encode_functions]; [intros [= <-]; constructor|].
  destruct (encode_function f indices) as [g|] eqn:Hg; [|done].
  destruct (encode_functions fs indices); [|done]. intros [= <-]. constructor; auto.
Qed.

Lemma encode_frames_lookup ms gs :
  encode_frames ms = Ok gs → Forall2 (λ m g, encode_async_frame m = Ok g) ms gs.
Proof.
  revert gs. induction ms as [|m ms IH]; intros gs; cbn [encode_frames]; [intros [= <-]; constructor|].
  destruct (encode_async_frame m) as [g|] eqn:Hg; [|done].
  destruct (encode_frames ms); [|done]. intros [= <-]. constructor; auto.
Qed.

Lemma encode_function_signature f indices g :
  encode_function f indices = Ok g →
  (wf_params g, wf_result g) = (replicate (N.to_nat (parameter_count f)) TI64, TI64).
Proof.
  unfold encode_function. case_bool_decide; [done|].
  by destruct (encode_blocks _ _ _ _ _); [intros [= <-]|].
Qed.

(** *** Async frames always validate *)

Section frames.
Context (sigs : list (list ValType * ValType)).

Abbreviation check := (check_code [TI32; TI32] TI32 sigs).

Lemma check_const_state n c k fr :
  const_state n = Ok c → check c (k :: fr) = Some (push_type TI32 k :: fr).
Proof. by intros [-> _]%const_state_ok. Qed.

Lemma check_transition current t c k fr :
  encode_async_transition current t = Ok c → cf_stack k = [] →
  check c (k :: fr) = Some (push_type TI32 k :: fr).
Proof.
  intros Hc Hk. destruct t as [next|i resume cancel|next panic| |locals];
    cbn [encode_async_transition] in Hc; try by eapply check_const_state.
  all: split_encoded; repeat match goal with H : const_state _ = Ok _ |- _ => apply const_state_ok in H as [-> _] end;
    destruct k; simpl in *; subst; reflexivity.
Qed.

Lemma check_async_state s c k fr :
  encode_async_state s = Ok c → check c (k :: fr) = Some (k :: fr).
Proof.
  unfold encode_async_state. intros Hc. split_encoded.
  match goal with H : const_state _ = Ok _ |- _ => apply const_state_ok in H as [-> _] end.
  match goal with H : encode_async_transition _ _ = Ok ?c |- _ => rename c into ct; rename H into Ht end.
  cbn [app]. transitivity (check (ct ++ [Return_; End_]) (open_frame None None true :: k :: fr)).
  { by destruct k. }
  by rewrite check_code_app, (check_transition (as_id s) (transition s)).
Qed.

Lemma check_async_states ss c k fr :
  encode_all encode_async_state ss = Ok c → check c (k :: fr) = Some (k :: fr).
Proof.
  revert c. induction ss as [|s ss IH]; intros c; [by intros [= <-]|].
  intros (xs&ys&Hx&Hy&->)%encode_all_cons. rewrite check_code_app, (check_async_state s) by done.
  simpl. by apply IH.
Qed.

Lemma frame_validates m g : encode_async_frame m = Ok g → validate_function sigs g = true.
Proof.
  unfold encode_async_frame, validate_function. destruct (encode_all _ _) as [c|] eqn:Hc; [|done].
  intros [= <-]. cbn [wf_params wf_locals wf_result wf_body]. rewrite app_nil_r.
  by rewrite check_code_app, (check_async_states (states m)).
Qed.
End frames.

(** What the generator needs beyond verification: every block is reached by the
    verifier, nothing is compared, and the dispatch local has an index. *)
Definition wasm_ready (f : MirFunction) : bool :=
  forallb id (reachable_blocks f) && negb (existsb block_compares (fn_blocks f))
  && bool_decide (N.of_nat (length (fn_locals f)) < u32_max).

Lemma ready_blocks f signatures :
  passes_checks signatures f → wasm_ready f = true → Forall (block_ready f signatures) (fn_blocks f).
Proof.
  unfold wasm_ready. intros Hwf [[Hr Hn%negb_true_iff]%andb_prop _]%andb_prop.
  apply Forall_lookup. intros i b Hb.
  assert (reaches f i) as Hi.
  { apply reachable_blocks_spec, flag_true.
    destruct (lookup_lt_is_Some_2 (reachable_blocks f) i) as [x Hx].
    { rewrite length_reachable_blocks. by eapply lookup_lt_Some. }
    rewrite Hx. f_equal. rewrite forallb_forall in Hr. apply (Hr x), list_elem_of_In.
    by eapply list_elem_of_lookup_2. }
  destruct (block_fits f signatures i b Hwf Hi Hb) as [Hs Ht]. split_and!; [done..|].
  eapply existsb_false; [exact Hn|]. by eapply list_elem_of_lookup_2.
Qed.

Lemma function_validates fs f g sigs :
  passes_checks (signatures_of fs) f → wasm_ready f = true →
  encode_function f (function_indices fs) = Ok g →
  (∀ k h, fs !! k = Some h → sigs !! k = Some (replicate (N.to_nat (parameter_count h)) TI64, TI64)) →
  validate_function sigs g = true.
Proof.
  intros Hwf Hready Hg Hsigs.
  assert (N.of_nat (length (fn_locals f)) < u32_max) as Hlen.
  { apply andb_prop in Hready as [_ H]. by apply bool_decide_eq_true in H. }
  pose proof (λ i, encoded_types f (function_indices fs) g i Hg) as Htypes. pose proof (wf_parameters _ _ Hwf) as Hp.
  pose proof Hg as Hbody. unfold encode_function in Hbody. revert Hbody. case_bool_decide; [done|].
  destruct (encode_blocks _ _ _ _ _) as [blocks|] eqn:Hblocks; [|done]. intros [= Eg].
  unfold validate_function. rewrite <-Eg in Htypes |- *. cbn [wf_params wf_locals wf_result wf_body] in *.
  erewrite (check_body f (signatures_of fs) (function_indices fs)); [done|..].
  - intros i Hi. by apply Htypes.
  - done.
  - intros id h (k&Hk&Hh)%function_indices_lookup. eauto.
  - done.
  - by apply ready_blocks.
Qed.

(** The parts of a successful emission. *)
Lemma emit_functions_ok p frames m :
  emit_functions p frames = Ok m →
  verify p = Ok tt ∧ ∃ fs gs, encode_functions (functions p) (function_indices (functions p)) = Ok fs ∧
    encode_frames frames = Ok gs ∧ wm_functions m = fs ++ gs ∧
    ∃ id k, entry p = Some id ∧ function_indices (functions p) !! id = Some k ∧
      head (wm_exports m) = Some ("main"%string, k).
Proof.
  unfold emit_functions. intros H. repeat case_match; try done; simplify_eq.
  repeat match goal with u : unit |- _ => destruct u end. eauto 15.
Qed.

Lemma module_validates p frames m :
  emit_functions p frames = Ok m → forallb wasm_ready (functions p) = true →
  validate_module (wm_functions m) = true.
Proof.
  intros (Hv&fs&gs&Hfs&Hgs&->&_)%emit_functions_ok Hready. rewrite verify_ok in Hv.
  apply encode_functions_lookup in Hfs. apply encode_frames_lookup in Hgs.
  unfold validate_module. apply forallb_forall. intros g Hg%list_elem_of_In.
  apply list_elem_of_lookup in Hg as [i Hi].
  apply lookup_app_Some in Hi as [Hi|[_ Hi]].
  - destruct (Forall2_lookup_r _ _ _ _ _ Hfs Hi) as (f&Hf&Henc).
    assert (f ∈ functions p) as Hin by by eapply list_elem_of_lookup_2.
    eapply function_validates; [by apply Hv| |exact Henc|].
    + rewrite forallb_forall in Hready. by apply Hready, list_elem_of_In.
    + intros k h Hh. destruct (Forall2_lookup_l _ _ _ _ _ Hfs Hh) as (g'&Hg'&Henc').
      rewrite list_lookup_fmap, (lookup_app_l_Some _ _ _ _ Hg'). simpl. f_equal.
      by eapply encode_function_signature.
  - destruct (Forall2_lookup_r _ _ _ _ _ Hgs Hi) as (frame&_&Henc). by eapply frame_validates.
Qed.

(** C36: code generation is type-preserving on the supported fragment: whenever
    a module is emitted for a program whose functions have no block the
    verifier skips and no comparison, every function of the module — the
    program's and the async frames' — passes WebAssembly validation. *)
Theorem emitted_module_validates p frames m :
  emit_functions p frames = Ok m → forallb wasm_ready (functions p) = true →
  validate_module (wm_functions m) = true.
Proof. apply module_validates. Qed.

(** ** Programs *)

(** Calls [choose(true)] and adds two: the sample program without the string,
    the aggregate and the comparison. *)
Definition adding_program : MirProgram := {|
  functions :=
    [{| fn_id := main_id; parameter_count := 0; return_type := TyI64;
        fn_locals := [TyI64; TyBool];
        fn_blocks :=
          [block_of [assign_local 1 (RvUse (OpConstant (CBool true)))]
             (TmCall choose_id [OpCopy 1] (PLocal 0) 1);
           block_of [assign_local 0 (RvBinary BAdd (OpCopy 0) (OpConstant (CI64 2)))] TmReturn] |};
     choose_function];
  entry := Some main_id
|}.

Lemma emitted_module_validates_witness :
  ∃ m, emit_functions adding_program [one_await] = Ok m ∧ validate_module (wm_functions m) = true.
Proof.
  destruct (emit_functions adding_program [one_await]) as [m|e] eqn:E; [|vm_compute in E; discriminate].
  exists m. split; [done|]. apply (emitted_module_validates adding_program [one_await]); [done|].
  vm_compute. reflexivity.
Defined.

(** [_0 = 1 < 2] *)
Definition less_program : MirProgram :=
  single TyBool [] [block_of [assign_local 0 (RvBinary BLess (OpConstant (CI64 1)) (OpConstant (CI64 2)))] TmReturn].

Definition equal_program : MirProgram :=
  single TyBool [] [block_of [assign_local 0 (RvBinary BEqual (OpConstant (CI64 1)) (OpConstant (CI64 2)))] TmReturn].

(** A block nothing jumps to, writing a local that does not exist. *)
Definition unreachable_block_program : MirProgram :=
  single TyUnit [] [block_of [assign_local 0 (RvUse (OpConstant CUnit))] TmReturn;
                    block_of [assign_local 9 (RvUse (OpConstant CUnit))] TmReturn].

Definition emits_invalid (p : MirProgram) : bool :=
  match emit_functions p [] with
  | Ok m => negb (validate_module (wm_functions m))
  | Err _ => false
  end.

(** The generator turns verified programs into modules that do not
    validate: a comparison leaves an [i32] that is stored into an [i64] local,
    and a block that no path reaches is translated although the verifier never
    looked at its locals. *)
Theorem verified_programs_emit_invalid_modules :
  emits_invalid less_program = true ∧ emits_invalid equal_program = true ∧
  emits_invalid unreachable_block_program = true.
Proof. vm_compute. done. Qed.

