(* ===== verification/CodegenSim.v ===== *)
(** * The emitted code computes what the interpreter computes

    A forward simulation from the interpreter (crates/syllog-interpreter/src/lib.rs)
    to the code of crates/syllog-codegen-wasm/src/lib.rs: a run of a verified,
    strictly typed program without comparisons that returns a value is matched by
    a run of the emitted module returning the value's word. *)

From stdpp Require Import base gmap list strings numbers relations.
From S2P Require Import Prelude Ir Cfg Dataflow Verify VerifySound Interp InterpSafety.
From S2P Require Import Wasm Codegen CodegenTheorems CodegenValid Interp.
Open Scope N_scope.
Open Scope list_scope.

(** ** Words *)

(** The 64-bit word of a value: references are their referent's word,
    aggregates their discriminant.  Strings have no code. *)
Fixpoint value_word (v : Value) : Z :=
  match v with
  | VReference v => value_word v
  | VUnit => 0
  | VBool b => if b then 1 else 0
  | VI64 z => wrap64 z
  | VU64 n => wrap64 (Z.of_N n)
  | VString _ => 0
  | VAggregate discriminant _ => wrap64 (Z.of_N discriminant)
  end.

Lemma wrap64_bits n : wrap64 (i64_bits n) = wrap64 (Z.of_N n).
Proof.
  unfold i64_bits, wrap64, two64. case_bool_decide; [done|].
  by rewrite <-(Z_mod_plus_full (Z.of_N n) (-1)).
Qed.

Lemma wrap64_small z : (0 ≤ z < two64)%Z → wrap64 z = z.
Proof. apply Z.mod_small. Qed.

Lemma wrap64_u64 n : in_u64 n = true → wrap64 (Z.of_N n) = Z.of_N n.
Proof.
  unfold in_u64. intros H%bool_decide_eq_true. apply wrap64_small. unfold two64.
  change u64_max with 18446744073709551615 in H. lia.
Qed.

Lemma signed64_i64 z : in_i64 z = true → signed64 (wrap64 z) = z.
Proof.
  unfold in_i64, signed64, wrap64. intros H%bool_decide_eq_true.
  unfold two64. destruct (decide (0 ≤ z)%Z).
  - rewrite Z.mod_small by (unfold i64_max, i64_min in *; lia). rewrite bool_decide_eq_true_2; [done|].
    unfold i64_max in *. lia.
  - rewrite <-(Z_mod_plus_full z 1), Z.mod_small by (unfold i64_max, i64_min in *; lia).
    rewrite bool_decide_eq_false_2; unfold i64_min in *; lia.
Qed.

Lemma wrap64_add a b : wrap64 (wrap64 a + wrap64 b) = wrap64 (a + b).
Proof. symmetry. apply Zplus_mod. Qed.

Lemma wrap64_sub a b : wrap64 (wrap64 a - wrap64 b) = wrap64 (a - b).
Proof. symmetry. apply Zminus_mod. Qed.

Lemma wrap64_mul a b : wrap64 (wrap64 a * wrap64 b) = wrap64 (a * b).
Proof. symmetry. apply Zmult_mod. Qed.

Lemma u64_checked_some z n : u64_checked z = Some n → Z.of_N n = z.
Proof. unfold u64_checked. case_bool_decide; [|done]. intros [= <-]. lia. Qed.

Lemma i64_checked_some z z' : i64_checked z = Some z' → z' = z ∧ in_i64 z = true.
Proof. unfold i64_checked. destruct (in_i64 z); [|done]. by intros [= <-]. Qed.

Lemma ok_or_trap_done {A} (o : option A) message st a st' :
  ok_or_trap o message st = Done (a, st') → o = Some a ∧ st' = st.
Proof. destruct o; [|done]. by intros [= <- <-]. Qed.

(** ** Binary operations *)

Lemma divide_u64_word a b r st st' :
  in_u64 a = true → in_u64 b = true → binary BDivide (VU64 a) (VU64 b) st = Done (r, st') →
  st' = st ∧ apply_binary I64DivU (W64 (wrap64 (Z.of_N a))) (W64 (wrap64 (Z.of_N b))) =
    Some (W64 (value_word r)).
Proof.
  intros Ha Hb (H&->)%ok_or_trap_done. split; [done|].
  rewrite !wrap64_u64 by done. revert H. simpl. case_bool_decide; [done|].
  intros [= <-]. rewrite bool_decide_eq_false_2 by lia. rewrite <-N2Z.inj_div.
  do 2 f_equal. symmetry. apply wrap64_u64.
  pose proof (u64_divide_type a b Ha) as Ht. by inversion Ht.
Qed.

Lemma divide_i64_word a b r st st' :
  in_i64 a = true → in_i64 b = true → binary BDivide (VI64 a) (VI64 b) st = Done (r, st') →
  st' = st ∧ apply_binary I64DivS (W64 (wrap64 a)) (W64 (wrap64 b)) = Some (W64 (value_word r)).
Proof.
  intros Ha Hb (H&->)%ok_or_trap_done. split; [done|].
  revert H. cbn [apply_binary]. rewrite !signed64_i64 by done. case_bool_decide as E; [done|].
  intros (x&[-> Hx]%i64_checked_some&->)%fmap_Some. rewrite Hx.
  rewrite bool_decide_eq_false_2; [done|]. intros E0. destruct E.
  rewrite <-(signed64_i64 b Hb), E0. done.
Qed.

(** An operation on words agrees with the interpreter's whenever that succeeds;
    division needs the operands' type, which selects the instruction. *)
Lemma binary_word operator v w ty r st st' :
  has_type v ty → has_type w ty → is_comparison_op operator = false →
  binary operator v w st = Done (r, st') →
  st' = st ∧
  apply_binary (binary_instruction operator (bool_decide (Some ty = Some TyU64)))
    (W64 (value_word v)) (W64 (value_word w)) = Some (W64 (value_word r)).
Proof.
  intros Hv Hw Hn. destruct operator; try done;
    try (destruct v, w; try done; intros (H&->)%ok_or_trap_done;
         apply fmap_Some in H as (x&Hx&->); (split; [done|]); simpl;
         first [apply u64_checked_some in Hx; rewrite Hx|apply i64_checked_some in Hx as [-> Hx]];
         by rewrite ?wrap64_add, ?wrap64_sub, ?wrap64_mul).
  - destruct v, w; try done; inversion Hv; inversion Hw; subst; simplify_eq; cbn [binary_instruction value_word].
    + by apply divide_i64_word.
    + by apply divide_u64_word.
  - destruct v as [| |[]| | | |], w as [| |[]| | | |]; try done; by intros [= <- <-].
  - destruct v as [| |[]| | | |], w as [| |[]| | | |]; try done; by intros [= <- <-].
Qed.

(** ** Frames *)

Lemma bind_done {A B} (m : interp A) (k : A → interp B) st r :
  mbind k m st = Done r ↔ ∃ a st', m st = Done (a, st') ∧ k a st' = Done r.
Proof.
  unfold mbind, interp_bind. destruct (m st) as [[a st']|e|]; split.
  - intros H. by exists a, st'.
  - by intros (?&?&[= <- <-]&?).
  - done.
  - by intros (?&?&?&?).
  - done.
  - by intros (?&?&?&?).
Qed.

(** Every value in an interpreter slot has its word in the local's Wasm slot. *)
Record frame_rel (f : MirFunction) (locals : frame) (ws : list WasmValue) : Prop := {
  rel_length : length locals = length (fn_locals f);
  rel_words : length ws = S (length (fn_locals f));
  rel_value l v : locals !! N.to_nat l = Some (Some v) →
    ws !! N.to_nat (wasm_local f l) = Some (W64 (value_word v))
}.

Section frames.
Context (f : MirFunction) (params_fit : (N.to_nat (parameter_count f) < length (fn_locals f))%nat).

Abbreviation pc := (length (fn_locals f)).

Lemma wasm_local_lt l : (N.to_nat l < pc)%nat → (N.to_nat (wasm_local f l) < pc)%nat.
Proof. intros Hl. unfold wasm_local. repeat case_bool_decide; subst; lia. Qed.

Lemma wasm_local_inj l k :
  (N.to_nat l < pc)%nat → (N.to_nat k < pc)%nat → wasm_local f l = wasm_local f k → l = k.
Proof. intros Hl Hk. unfold wasm_local. repeat case_bool_decide; subst; lia. Qed.

Lemma frame_rel_take locals ws l :
  frame_rel f locals ws → frame_rel f (<[l := None]> locals) ws.
Proof.
  intros [Hl Hw Hv]. split; [by rewrite length_insert|done|].
  intros k v Hk. apply Hv. destruct (decide (N.to_nat k = l)) as [<-|]; [|by rewrite list_lookup_insert_ne in Hk].
  apply list_lookup_insert_Some in Hk as [(?&?&?)|(?&?)]; done.
Qed.

Lemma frame_rel_put locals ws l v :
  (N.to_nat l < pc)%nat → frame_rel f locals ws →
  frame_rel f (<[N.to_nat l := Some v]> locals) (<[N.to_nat (wasm_local f l) := W64 (value_word v)]> ws).
Proof.
  intros Hlt [Hl Hw Hv]. split; [by rewrite length_insert..|].
  intros k w Hk. pose proof (lookup_lt_Some _ _ _ Hk) as Hklt. rewrite length_insert, Hl in Hklt.
  apply list_lookup_insert_Some in Hk as [(E&[= ->]&_)|(E&Hk)].
  - apply N2Nat.inj in E as ->. apply list_lookup_insert_eq. rewrite Hw.
    pose proof (wasm_local_lt k Hlt). lia.
  - rewrite list_lookup_insert_ne; [by apply Hv|]. intros H%N2Nat.inj. destruct E. f_equal. by apply wasm_local_inj.
Qed.

Lemma frame_rel_pc locals ws x : frame_rel f locals ws → frame_rel f locals (<[pc := x]> ws).
Proof.
  intros [Hl Hw Hv]. split; [done|by rewrite length_insert|]. intros k v Hk. rewrite list_lookup_insert_ne; [by apply Hv|].
  apply lookup_lt_Some in Hk as Hlt. rewrite Hl in Hlt. pose proof (wasm_local_lt k Hlt). lia.
Qed.

(** ** Operands, values and statements *)

Context (fs : list WasmFunction) (limits : InterpreterLimits).
Context (labels : list (list Instruction * list WasmValue)) (callers : list WasmFrame).

Abbreviation at_code c ws st := (Running (Build_WasmFrame c labels ws st) callers).
Abbreviation steps_to := (rtc (wasm_move fs)).

(** Code that pushes one word. *)
Definition pushes (c : list Instruction) (ws : list WasmValue) (z : Z) : Prop :=
  ∀ code stack s', steps_to (at_code code ws (W64 z :: stack)) s' → steps_to (at_code (c ++ code) ws stack) s'.

Lemma tick_frame st st' u : tick limits st = Done (u, st') → st'.2 = st.2.
Proof.
  unfold tick. intros (m&st1&[= <- <-]&(?&st2&[= <- <-]&H)%bind_done)%bind_done.
  revert H. simpl. case_bool_decide; [done|]. by intros [= <- <-].
Qed.

Lemma charge_frame n st st' u : charge_allocation limits n st = Done (u, st') → st'.2 = st.2.
Proof.
  unfold charge_allocation. intros (m&st1&[= <- <-]&(?&st2&[= <- <-]&H)%bind_done)%bind_done.
  revert H. simpl. case_bool_decide; [done|]. by intros [= <- <-].
Qed.

Lemma pushes_const z ws : pushes [I64Const z] ws (wrap64 z).
Proof. intros code stack s'. apply step_const64. Qed.

Lemma pushes_get l z ws : ws !! N.to_nat l = Some (W64 z) → pushes [LocalGet l] ws z.
Proof. intros Hl code stack s'. by apply step_local_get. Qed.

Lemma local_value_done l st v st' :
  local_value l st = Done (v, st') → st' = st ∧ st.2 !! N.to_nat l = Some (Some v).
Proof.
  intros (locals&st1&[= <- <-]&(H&->)%ok_or_trap_done)%bind_done. split; [done|].
  destruct (st.2 !! N.to_nat l) as [[w|]|]; simpl in H; congruence.
Qed.

Lemma local_value_mut_done l st v st' :
  local_value_mut l st = Done (v, st') → st' = st ∧ st.2 !! N.to_nat l = Some v.
Proof. by intros (locals&st1&[= <- <-]&(H&->)%ok_or_trap_done)%bind_done. Qed.

(** The frame after an operand is read, whatever code is emitted for it. *)
Lemma operand_frame o st v st' ws :
  operand limits o st = Done (v, st') → frame_rel f st.2 ws → frame_rel f st'.2 ws.
Proof.
  destruct o as [c|l|l]; simpl.
  - destruct c; simpl; try (by intros [= <- <-]).
    intros (?&st1&H%charge_frame&[= <- <-])%bind_done. by rewrite H.
  - by intros [-> _]%local_value_done.
  - intros (slot&st1&[-> _]%local_value_mut_done&(?&st2&[= <- <-]&(_&->)%ok_or_trap_done)%bind_done)%bind_done.
    apply frame_rel_take.
Qed.

Lemma operand_sim o c st v st' ws :
  encode_operand f o = Ok c → operand limits o st = Done (v, st') → frame_rel f st.2 ws →
  pushes c ws (value_word v).
Proof.
  intros Hc Ho Hrel. destruct o as [k|l|l]; simpl in Hc.
  - destruct k; simplify_eq; simpl in Ho; injection Ho as <- <-; simpl.
    + apply (pushes_const 0).
    + destruct b; [apply (pushes_const 1)|apply (pushes_const 0)].
    + apply pushes_const.
    + rewrite <-wrap64_bits. apply pushes_const.
  - injection Hc as <-. apply local_value_done in Ho as [_ Hl]. by eapply pushes_get, rel_value.
  - injection Hc as <-. simpl in Ho.
    apply bind_done in Ho as (slot&st1&[-> Hl]%local_value_mut_done&(?&st2&[= <- <-]&(->&_)%ok_or_trap_done)%bind_done).
    by eapply pushes_get, rel_value.
Qed.

Lemma operands_frame os st vs st' ws :
  mapM (operand limits) os st = Done (vs, st') → frame_rel f st.2 ws → frame_rel f st'.2 ws.
Proof.
  revert st vs. induction os as [|o os IH]; intros st vs; [by intros [= <- <-]|]. simpl.
  intros (v&st1&Ho&(ws'&st2&Hos&[= <- <-])%bind_done)%bind_done Hrel.
  eapply IH; [exact Hos|]. by eapply operand_frame.
Qed.

(** Arguments end up on the stack, the last on top. *)
Lemma operands_sim os c st vs st' ws code stack s' :
  encode_all (encode_operand f) os = Ok c → mapM (operand limits) os st = Done (vs, st') →
  frame_rel f st.2 ws →
  steps_to (at_code code ws (reverse (W64 ∘ value_word <$> vs) ++ stack)) s' →
  steps_to (at_code (c ++ code) ws stack) s'.
Proof.
  revert c st vs stack. induction os as [|o os IH]; intros c st vs stack.
  { by intros [= <-] [= <- <-]. }
  intros (xs&ys&Hx&Hy&->)%encode_all_cons. simpl.
  intros (v&st1&Ho&(ws'&st2&Hos&[= <- <-])%bind_done)%bind_done Hrel H.
  rewrite <-app_assoc. eapply operand_sim; [done..|].
  eapply IH; [done|exact Hos|by eapply operand_frame|]. rewrite fmap_cons, reverse_cons, <-app_assoc in H. exact H.
Qed.

Context (block : BlockId) (initialized : gset LocalId).
Implicit Types D O : gset LocalId.

Lemma wp_done {A} E (m : interp A) Q st a st' : wp E m Q st → m st = Done (a, st') → Q a st'.
Proof. unfold wp. intros H E'. by rewrite E' in H. Qed.

Lemma codegen_type o : codegen_operand_type f o = operand_ty f o.
Proof. by destruct o. Qed.

Lemma binary_sim D O operator lhs rhs c st v st' ws :
  encode_rvalue f (RvBinary operator lhs rhs) = Ok c → is_comparison_op operator = false →
  D ⊆ initialized → rvalue_checked true f block initialized D O (RvBinary operator lhs rhs) →
  frame_ok true f O st.2 → frame_rel f st.2 ws →
  rvalue limits (RvBinary operator lhs rhs) st = Done (v, st') →
  frame_rel f st'.2 ws ∧ pushes c ws (value_word v).
Proof.
  intros Hc Hn HD Hr Hok Hrel. simpl in Hc. split_encoded.
  match goal with H1 : encode_operand f lhs = Ok ?a, H2 : encode_operand f rhs = Ok ?b |- _ =>
    rename a into cl; rename H1 into Hl; rename b into cr; rename H2 into Hr' end.
  destruct (binary_checked _ _ _ _ _ _ _ _ _ Hr) as [Hos Hty].
  pose proof (operands_checked_cons _ _ _ _ _ _ _ _ Hos) as [Hcl [Hcr _]%operands_checked_cons].
  destruct (operand_type_known f block lhs D) as (lt&Tl&_); [apply Hcl|].
  destruct (Hty _ Tl) as (_&Tr&_).
  intros (a&st1&Ha&(b&st2&Hb&Hop)%bind_done)%bind_done.
  destruct (wp_done _ _ _ _ _ _ (operand_safe limits _ _ _ _ _ _ _ _ HD Hcl Hok) Ha) as [Hok1 Hta].
  destruct (wp_done _ _ _ _ _ _ (operand_safe limits _ _ _ _ _ _ _ _ HD Hcr Hok1) Hb) as [_ Htb].
  destruct (binary_word operator a b lt v st2 st') as [-> Hw]; [by apply Hta|by apply Htb|done..|].
  pose proof (operand_frame _ _ _ _ _ Ha Hrel) as Hrel1. split; [by eapply operand_frame|].
  rewrite codegen_type, Tl. intros code stack s' H. rewrite <-!app_assoc.
  eapply operand_sim; [done..|]. eapply operand_sim; [done..|].
  eapply step_binary; [|exact Hw|exact H]. destruct operator; try done; by destruct lt.
Qed.

Lemma rvalue_sim D O r c st v st' ws :
  encode_rvalue f r = Ok c → compares r = false → D ⊆ initialized →
  rvalue_checked true f block initialized D O r → frame_ok true f O st.2 → frame_rel f st.2 ws →
  rvalue limits r st = Done (v, st') →
  frame_rel f st'.2 ws ∧ pushes c ws (value_word v).
Proof.
  intros Hc Hn HD Hr Hok Hrel Hv. destruct r as [m [l|]|o|operator lhs rhs|ty d fields|o]; simpl in Hc.
  - injection Hc as <-. apply bind_done in Hv as (w&st1&[-> Hl]%local_value_done&[= <- <-]).
    split; [done|]. by apply pushes_get, (rel_value _ _ _ Hrel l w).
  - done.
  - split; [by eapply operand_frame|by eapply operand_sim].
  - by eapply binary_sim.
  - injection Hc as <-. apply bind_done in Hv as (vs&st1&Hvs&(u&st2&Hu%charge_frame&[= <- <-])%bind_done).
    split; [rewrite Hu; by eapply operands_frame|]. simpl. rewrite <-wrap64_bits. apply pushes_const.
  - apply bind_done in Hv as (w&st1&Hw&Hv). destruct w as [| | | | | |d fields]; try done. injection Hv as <- <-.
    split; [by eapply operand_frame|by apply (operand_sim o c st (VAggregate d fields) st1 ws)].
Qed.

Lemma set_place_sim p c v st st' u ws :
  encode_set_place f p = Ok c → assign p v st = Done (u, st') → frame_rel f st.2 ws →
  ∃ ws', frame_rel f st'.2 ws' ∧ ws' !! pc = ws !! pc ∧
    ∀ code stack s', steps_to (at_code code ws' stack) s' →
      steps_to (at_code (c ++ code) ws (W64 (value_word v) :: stack)) s'.
Proof.
  destruct p as [l|]; [|done]. intros [= <-] H Hrel. simpl in H.
  apply bind_done in H as (slot&st1&[-> Hl]%local_value_mut_done&[= _ <-]). simpl.
  apply lookup_lt_Some in Hl. rewrite (rel_length _ _ _ Hrel) in Hl.
  eexists. split; [by apply frame_rel_put|]. split.
  - apply list_lookup_insert_ne. pose proof (wasm_local_lt l Hl). lia.
  - intros code stack s'. apply step_local_set.
Qed.

(** Statements run to their end with the words in step and the stack as it was. *)
Definition runs_to (c : list Instruction) (ws ws' : list WasmValue) : Prop :=
  ∀ code stack s', steps_to (at_code code ws' stack) s' → steps_to (at_code (c ++ code) ws stack) s'.

Lemma statement_sim D O s c st st' u ws :
  encode_statement f s = Ok c → statement_compares s = false → D ⊆ initialized →
  statement_checked true f block initialized D O s → frame_ok true f O st.2 → frame_rel f st.2 ws →
  execute_statement limits s st = Done (u, st') →
  ∃ ws', frame_rel f st'.2 ws' ∧ ws' !! pc = ws !! pc ∧ runs_to c ws ws'.
Proof.
  intros Hc Hn HD Hs Hok Hrel Hx. destruct s as [p r|[l|]]; simpl in Hc; [..|done].
  - apply and_then_ok in Hc as (cr&cp&Hcr&Hcp&->). apply assign_checked in Hs as (Hr&_).
    apply bind_done in Hx as (v&st1&Hv&Ha).
    destruct (rvalue_sim D O r cr st v st1 ws) as [Hrel1 Hpush]; [done..|].
    eapply set_place_sim in Ha as (ws'&Hrel'&Hpc&Hrun); [|done|exact Hrel1].
    exists ws'. split; [done|]. split; [done|]. intros code stack s' H. rewrite <-app_assoc. by apply Hpush, Hrun.
  - injection Hc as <-.
    apply bind_done in Hx as (slot&st1&[-> _]%local_value_mut_done&(?&st2&[= <- <-]&
      (?&st3&(_&->)%ok_or_trap_done&(?&st4&[= <- <-]&[= <- <-])%bind_done)%bind_done)%bind_done).
    exists ws. split; [by apply frame_rel_take|]. split; [done|]. by intros code stack s'.
Qed.

Lemma statements_sim sts D O D' O' c st st' u ws :
  encode_all (encode_statement f) sts = Ok c → existsb statement_compares sts = false →
  foldl define_statement D sts ⊆ initialized →
  verify_statements f block sts D = (D', []) →
  check_statements_ownership f block sts O initialized = (O', []) →
  forallb (strict_statement f) sts = true → frame_ok true f O st.2 → frame_rel f st.2 ws →
  execute_statements limits sts st = Done (u, st') →
  ∃ ws', frame_rel f st'.2 ws' ∧ ws' !! pc = ws !! pc ∧ runs_to c ws ws'.
Proof.
  revert D O c st ws. induction sts as [|s sts IH]; intros D O c st ws.
  { intros [= <-] _ _ _ _ _ _ Hrel [= _ <-]. exists ws. split; [done|]. split; [done|]. by intros ???. }
  intros (xs&ys&Hx&Hy&->)%encode_all_cons [Hn Hns]%orb_false_iff HD [Hv Hvs]%verify_statements_cons
    [Hc Hcs]%check_statements_cons [Hs Hss]%andb_true_iff Hok Hrel.
  intros (?&st1&H1%tick_frame&(u'&st2&H2&H3)%bind_done)%bind_done. simpl in HD.
  assert (statement_checked true f block initialized D O s) as Hchecked by done.
  assert (D ⊆ initialized) as HD0.
  { etrans; [|exact HD]. etrans; [apply (define_statement_grows s)|apply define_statements_grow]. }
  rewrite <-H1 in Hok, Hrel.
  destruct (statement_sim D O s xs st1 st2 u' ws) as (ws1&Hrel1&Hpc1&Hrun1); [done..|].
  pose proof (wp_done _ _ _ _ _ _ (statement_safe limits true f block initialized D O s st1 HD0 Hchecked Hok) H2) as Hok2.
  destruct (IH _ _ ys st2 ws1 Hy Hns HD Hvs Hcs Hss Hok2 Hrel1 H3) as (ws2&Hrel2&Hpc2&Hrun2).
  exists ws2. split; [done|]. split; [congruence|]. intros code stack s' H. rewrite <-app_assoc.
  by apply Hrun1, Hrun2.
Qed.

(** A value read through an operand has the operand's type. *)
Lemma operand_typed o O st v st' :
  strict_operand o = true → frame_ok true f O st.2 → operand limits o st = Done (v, st') →
  ∃ ty, operand_ty f o = Some ty ∧ has_type v ty.
Proof.
  intros Hs [Hlen _ Hty] Ho. destruct o as [c|l|l]; simpl in *.
  - exists (constant_ty c). split; [done|]. destruct c; simpl in Ho; try (injection Ho as <- <-; by constructor).
    apply bind_done in Ho as (?&?&_&[= <- <-]). constructor.
  - apply local_value_done in Ho as [_ Hl].
    destruct (lookup_lt_is_Some_2 (fn_locals f) (N.to_nat l)) as [ty Ht].
    { rewrite <-Hlen. by eapply lookup_lt_Some. }
    exists ty. split; [done|]. by eapply Hty.
  - apply bind_done in Ho as (slot&st1&[-> Hl]%local_value_mut_done&(?&st2&[= <- <-]&(->&_)%ok_or_trap_done)%bind_done).
    destruct (lookup_lt_is_Some_2 (fn_locals f) (N.to_nat l)) as [ty Ht].
    { rewrite <-Hlen. by eapply lookup_lt_Some. }
    exists ty. split; [done|]. by eapply Hty.
Qed.

(** The integer a switch tests is the word the code compares. *)
Lemma integer_operand_sim o O c st n st' ws :
  encode_operand f o = Ok c → strict_operand o = true → frame_ok true f O st.2 → frame_rel f st.2 ws →
  integer_operand limits o st = Done (n, st') →
  frame_rel f st'.2 ws ∧ pushes c ws (Z.of_N n).
Proof.
  intros Hc Hs Hok Hrel (v&st1&Hv&Hn)%bind_done.
  destruct (operand_typed o O st v st1 Hs Hok Hv) as (ty&_&Hty).
  pose proof (operand_frame _ _ _ _ _ Hv Hrel) as Hrel1.
  pose proof (operand_sim _ _ _ _ _ _ Hc Hv Hrel) as Hpush.
  destruct v; try done; inversion Hty; subst; simpl in Hn, Hpush.
  - injection Hn as <- <-. split; [done|]. by destruct b.
  - revert Hn. case_bool_decide; [|done]. intros [= <- <-]. split; [done|].
    rewrite Z2N.id by done. replace z with (wrap64 z) at 1; [done|]. apply wrap64_small.
    match goal with H : in_i64 z = true |- _ => unfold in_i64 in H; apply bool_decide_eq_true in H end.
    unfold i64_max, two64 in *. lia.
  - injection Hn as <- <-. split; [done|]. by rewrite wrap64_u64 in Hpush.
Qed.
End frames.

(** ** Blocks as balanced code *)

Lemma balanced_all c : forallb is_plain c = true → balanced c.
Proof.
  induction c as [|i c IH]; simpl; [intros; apply balanced_nil|].
  intros [Hi Hc]%andb_true_iff. by apply balanced_plain; [|apply IH].
Qed.

Lemma plain_operand f o c : encode_operand f o = Ok c → forallb is_plain c = true.
Proof. destruct o as [[]|l|l]; simpl; intros; simplify_eq; done. Qed.

Lemma plain_rvalue f r c : encode_rvalue f r = Ok c → forallb is_plain c = true.
Proof.
  destruct r as [m [l|]|o|operator lhs rhs|ty d fields|o]; simpl; intros H; try (by simplify_eq);
    try (by eapply plain_operand).
  apply and_then_ok in H as (xs&ys&Hx&(zs&ws&Hz&[= <-]&->)%and_then_ok&->).
  rewrite !forallb_app, (plain_operand _ _ _ Hx), (plain_operand _ _ _ Hz).
  by destruct operator; simpl; try destruct (bool_decide _).
Qed.

Lemma plain_set_place f p c : encode_set_place f p = Ok c → forallb is_plain c = true.
Proof. by destruct p; intros; simplify_eq/=. Qed.

Lemma balanced_statement f s c : encode_statement f s = Ok c → balanced c.
Proof.
  destruct s as [p r|[]]; simpl; [|by intros [= <-]|done]. intros (xs&ys&Hx&Hy&->)%and_then_ok.
  by apply balanced_app; apply balanced_all; [eapply plain_rvalue|eapply plain_set_place].
Qed.

Lemma balanced_continue pc target depth : balanced (encode_continue pc target depth).
Proof. by apply balanced_all. Qed.

Lemma balanced_candidate f pc v t c : encode_candidate f pc v t = Ok c → balanced c.
Proof.
  intros (xs&ys&Hx&Hy&->)%and_then_ok. revert Hy. case_bool_decide; [|done]. intros [= <-].
  apply balanced_app; [by eapply balanced_all, plain_operand|].
  do 2 (apply balanced_plain; [done|]). apply (balanced_if None (encode_continue pc t.2 2)), balanced_continue.
Qed.

Lemma balanced_terminator f pc indices t c : encode_terminator f pc indices t = Ok c → balanced c.
Proof.
  destruct t as [|target|v targets otherwise|callee args p next]; cbn [encode_terminator].
  - intros [= <-]. by apply balanced_all.
  - intros [= <-]. apply balanced_continue.
  - intros (xs&ys&Hx&[= <-]&->)%and_then_ok. apply balanced_app; [|apply balanced_continue].
    eapply balanced_encode_all; [|exact Hx]. intros ??. apply balanced_candidate.
  - intros (xs&ys&Hx&(?&zs&[= <-]&(ps&?&Hp&[= <-]&->)%and_then_ok&->)%and_then_ok&->)%and_then_ok.
    apply balanced_app; [eapply balanced_encode_all; [|exact Hx]; intros ???; by eapply balanced_all, plain_operand|].
    apply balanced_plain; [done|]. apply balanced_app; [by eapply balanced_all, plain_set_place|].
    apply balanced_continue.
Qed.

Lemma balanced_block f pc indices b c : encode_block f pc indices b = Ok c → balanced c.
Proof.
  intros (xs&ys&Hx&Hy&->)%and_then_ok. apply balanced_app.
  - eapply balanced_encode_all; [|exact Hx]. intros ??. apply balanced_statement.
  - destruct (terminator b); [by eapply balanced_terminator|injection Hy as <-; apply balanced_nil].
Qed.

(** ** Dispatch *)

Section dispatch.
Context (f : MirFunction) (indices : gmap DefId N) (fs : list WasmFunction).
Context (labels : list (list Instruction * list WasmValue)) (callers : list WasmFrame).
Context (ws : list WasmValue) (i : nat).
Context (small : (Z.of_nat i < two64)%Z).

Abbreviation pc := (N.of_nat (length (fn_locals f))).
Context (at_i : ws !! length (fn_locals f) = Some (W64 (Z.of_nat i))).

(** The chain of tests reaches the block the dispatch local names. *)
Lemma dispatch n bs c b rest :
  encode_blocks f pc indices n bs = Ok c → (n ≤ i)%nat → bs !! (i - n)%nat = Some b →
  ∃ cb after, encode_block f pc indices b = Ok cb ∧ ∀ s',
    rtc (wasm_move fs) (Running (Build_WasmFrame (cb ++ End_ :: after) ((after, []) :: labels) ws []) callers) s' →
    rtc (wasm_move fs) (Running (Build_WasmFrame (c ++ rest) labels ws []) callers) s'.
Proof.
  revert n c. induction bs as [|b0 bs IH]; intros n c Hc Hn Hb; [done|]. cbn [encode_blocks] in Hc.
  apply and_then_ok in Hc as (?&?&[= <-]&(cb&?&Hcb&(?&cs&[= <-]&Hcs&->)%and_then_ok&->)%and_then_ok&->).
  assert (∀ s', rtc (wasm_move fs) (Running (Build_WasmFrame (If None :: cb ++ End_ :: cs ++ rest) labels ws
      [bool32 (bool_decide (i = n))]) callers) s' →
    rtc (wasm_move fs) (Running (Build_WasmFrame
      (([LocalGet pc; I64Const (Z.of_nat n); I64Eq; If None] ++ cb ++ [End_] ++ cs) ++ rest) labels ws []) callers) s')
    as Htest.
  { intros s' H. rewrite <-!app_assoc. cbn [app].
    eapply step_local_get; [by rewrite Nat2N.id|]. apply step_const64. eapply step_binary; [done| |exact H].
    cbn [apply_binary]. rewrite wrap64_small by lia. f_equal. f_equal.
    case_bool_decide; [subst; apply Z.eqb_refl|]. apply Z.eqb_neq. lia. }
  destruct (decide (i = n)) as [E|Hne].
  - subst n. rewrite Nat.sub_diag in Hb. injection Hb as ->.
    exists cb, (cs ++ rest). split; [done|]. intros s' H. apply Htest. rewrite bool_decide_eq_true_2 by done.
    apply step_if_true; [by eapply balanced_block|exact H].
  - replace (i - n)%nat with (S (i - S n)) in Hb by lia.
    destruct (IH (S n) cs Hcs ltac:(lia) Hb) as (cb'&after&Hcb'&H'). exists cb', after. split; [done|].
    intros s' H. apply Htest. rewrite bool_decide_eq_false_2 by done.
    apply step_if_false; [by eapply balanced_block|]. by apply H'.
Qed.
End dispatch.

(** ** Terminators and blocks *)

Section terminators.
Context (f : MirFunction) (params_fit : (N.to_nat (parameter_count f) < length (fn_locals f))%nat).
Context (indices : gmap DefId N) (fs : list WasmFunction) (limits : InterpreterLimits).
Context (callers : list WasmFrame) (labels : list (list Instruction * list WasmValue)).
(** The loop the block runs in. *)
Context (lc : list Instruction) (outer : list (list Instruction * list WasmValue)).
Context (in_loop : drop 1 labels = (lc, []) :: outer).

Abbreviation pc := (N.of_nat (length (fn_locals f))).
Abbreviation steps_to := (rtc (wasm_move fs)).
Abbreviation running c ls ws st := (Running (Build_WasmFrame c ls ws st) callers).

Definition set_pc (ws : list WasmValue) (target : N) : list WasmValue :=
  <[length (fn_locals f) := W64 (wrap64 (Z.of_N target))]> ws.

Lemma continue_sim target depth ls code ws stack s' :
  drop (N.to_nat depth) ls = (lc, []) :: outer →
  steps_to (running lc outer (set_pc ws target) []) s' →
  steps_to (running (encode_continue pc target depth ++ code) ls ws stack) s'.
Proof.
  intros Hd H. apply step_const64. apply step_local_set. rewrite Nat2N.id.
  eapply wasm_step_trans; [|exact H]. unfold wasm_step. simpl. by rewrite Hd.
Qed.

Lemma switch_target_cons t ts otherwise n :
  switch_target (t :: ts) otherwise n = if decide (t.1 = n) then t.2 else switch_target ts otherwise n.
Proof.
  unfold switch_target. simpl. destruct (decide (t.1 = n)); [done|]. by destruct (list_find _ ts) as [[]|].
Qed.

(** The tests of a switch jump to the first candidate that matches. *)
Lemma candidates_sim v cv targets otherwise c n ws code s' :
  encode_operand f v = Ok cv → pushes fs labels callers cv ws (Z.of_N n) →
  encode_all (encode_candidate f pc v) targets = Ok c →
  steps_to (running lc outer (set_pc ws (switch_target targets otherwise n)) []) s' →
  steps_to (running (c ++ encode_continue pc otherwise 1 ++ code) labels ws []) s'.
Proof.
  intros Hv Hpush. revert c. induction targets as [|t ts IH]; intros c.
  { intros [= <-]. by apply continue_sim. }
  intros (xs&ys&(?&zs&Hv'&Hz&->)%and_then_ok&Hy&->)%encode_all_cons. rewrite switch_target_cons. intros H.
  rewrite Hv in Hv'. injection Hv' as <-. revert Hz. case_bool_decide as Ht; [|done]. intros [= <-].
  rewrite <-!app_assoc. apply Hpush. cbn [app]. apply step_const64. rewrite wrap64_bits.
  rewrite wrap64_u64 by (by apply bool_decide_eq_true). eapply step_binary; [done|done|].
  replace (Z.eqb (Z.of_N n) (Z.of_N t.1)) with (bool_decide (t.1 = n))
    by (case_bool_decide; [subst; by rewrite Z.eqb_refl|symmetry; apply Z.eqb_neq; lia]).
  change (steps_to (running (If None :: encode_continue pc t.2 2 ++ End_ :: ys ++ encode_continue pc otherwise 1 ++ code)
    labels ws [bool32 (bool_decide (t.1 = n))]) s').
  destruct (decide (t.1 = n)) as [E|E].
  - rewrite bool_decide_eq_true_2 by done. apply step_if_true; [apply balanced_continue|]. by apply continue_sim.
  - rewrite bool_decide_eq_false_2 by done. apply step_if_false; [apply balanced_continue|]. by apply IH.
Qed.

(** Where the code stands when the interpreter has run a block. *)
Definition next_reached (next : Next) (locals : frame) (s' : WasmState) : Prop :=
  match next with
  | NextReturn v => steps_to (return_value (W64 (value_word v)) callers) s'
  | NextBlock j => ∀ ws, frame_rel f locals ws →
      ws !! length (fn_locals f) = Some (W64 (wrap64 (Z.of_nat j))) → steps_to (running lc outer ws []) s'
  | NextCall callee vs p j => ∀ ws cp code, frame_rel f locals ws → encode_set_place f p = Ok cp →
      steps_to (running (Call (default 0 (indices !! callee)) :: cp ++ encode_continue pc (N.of_nat j) 1 ++ code)
        labels ws (reverse (W64 ∘ value_word <$> vs))) s'
  end.

Lemma set_pc_rel locals ws target :
  frame_rel f locals ws → frame_rel f locals (set_pc ws target) ∧
  set_pc ws target !! length (fn_locals f) = Some (W64 (wrap64 (Z.of_N target))).
Proof.
  intros Hrel. split; [by apply frame_rel_pc|]. apply list_lookup_insert_eq.
  rewrite (rel_words _ _ _ Hrel). lia.
Qed.

Lemma terminator_sim t O c st next st' ws code s' :
  encode_terminator f pc indices t = Ok c → strict_terminator t = true →
  frame_ok true f O st.2 → frame_rel f st.2 ws →
  execute_terminator limits t st = Done (next, st') → next_reached next st'.2 s' →
  steps_to (running (c ++ code) labels ws []) s'.
Proof.
  intros Hc Hs Hok Hrel Hx H. destruct t as [|target|v targets otherwise|callee args p next'];
    cbn [encode_terminator execute_terminator] in Hc, Hx.
  - injection Hc as <-. apply bind_done in Hx as (locals&st1&[= <- <-]&Hx).
    destruct (st.2 !! 0%nat) as [slot|] eqn:E0; [|done].
    apply bind_done in Hx as (?&st2&[= <- <-]&(v&st3&(->&->)%ok_or_trap_done&[= <- <-])%bind_done).
    cbn [app]. eapply step_local_get; [by apply (rel_value _ _ _ Hrel 0)|]. by apply step_return.
  - injection Hc as <-. injection Hx as <- <-. destruct (set_pc_rel st.2 ws target Hrel).
    apply continue_sim; [done|]. apply H; [done|]. by rewrite N_nat_Z.
  - apply and_then_ok in Hc as (xs&ys&Hx'&[= <-]&->). apply bind_done in Hx as (n&st1&Hn&[= <- <-]).
    rewrite <-app_assoc. destruct (encode_operand f v) as [cv|] eqn:Hv.
    + destruct (integer_operand_sim f params_fit fs limits labels callers v O cv st n st1 ws) as [Hrel1 Hpush]; [done..|].
      destruct (set_pc_rel st1.2 ws (switch_target targets otherwise n) Hrel1).
      eapply candidates_sim; [done..|]. apply H; [done|]. by rewrite N_nat_Z.
    + destruct targets as [|t ts]; [|unfold encode_all, encode_candidate in Hx'; by rewrite Hv in Hx'].
      injection Hx' as <-.
      assert (frame_rel f st1.2 ws) as Hrel1.
      { apply bind_done in Hn as (x&st2&Ho&Hn). assert (st1 = st2) as ->; [|by eapply operand_frame].
        destruct x; try done; try (by injection Hn as _ ->).
        revert Hn. case_bool_decide; [|done]. by intros [= _ ->]. }
      destruct (set_pc_rel st1.2 ws otherwise Hrel1).
      apply continue_sim; [done|]. apply H; [done|]. by rewrite N_nat_Z.
  - apply and_then_ok in Hc as (xs&?&Ha&(?&?&[= <-]&(cp&?&Hp&[= <-]&->)%and_then_ok&->)%and_then_ok&->).
    apply bind_done in Hx as (vs&st1&Hvs&[= <- <-]).
    rewrite <-app_assoc. eapply operands_sim; [done..|]. rewrite app_nil_r. cbn [app].
    rewrite <-app_assoc. specialize (H ws cp code). rewrite N2Nat.id in H. apply H; [|done].
    by eapply operands_frame.
Qed.

Lemma block_sim signatures i b O c m locals next st' ws code s' :
  passes_checks signatures f → strict_function f = true → block_compares b = false →
  fn_blocks f !! i = Some b → ownership_analysis f !! i = Some (Some O) →
  frame_ok true f O locals → frame_rel f locals ws →
  encode_block f pc indices b = Ok c → execute_block limits b (m, locals) = Done (next, st') →
  next_reached next st'.2 s' → steps_to (running (c ++ code) labels ws []) s'.
Proof.
  intros Hwf Hstrict Hn Hb HO Hok Hrel (xs&ys&Hx&Hy&->)%and_then_ok Hrun H.
  destruct (block_checks signatures true f Hwf (λ _, Hstrict) i b O Hb HO)
    as (D&D'&O'&t&Ht&HD&Hv&Hc&_&_&Hs). destruct (Hs eq_refl) as [Hss Hst]. rewrite Ht in Hy.
  apply bind_done in Hrun as (u&st1&H1&(?&st2&H2%tick_frame&H3)%bind_done). rewrite Ht in H3.
  destruct (statements_sim f params_fit fs limits labels callers (u32_of_index i) _ (statements b) D O D' O' xs
    (m, locals) st1 u ws Hx Hn HD Hv Hc Hss Hok Hrel H1) as (ws1&Hrel1&_&Hrun).
  destruct (wp_done _ _ _ _ _ _ (statements_safe limits true f (u32_of_index i) _ (statements b) D O D' O'
    (m, locals) HD Hv Hc (λ _, Hss) Hok) H1) as (_&_&Hok1).
  rewrite <-app_assoc. apply Hrun. eapply terminator_sim; [done..| | |exact H3|done]; by rewrite H2.
Qed.
End terminators.

(** ** Calls *)

Lemma step_call fs k g code labels ws stack callers s' :
  fs !! N.to_nat k = Some g →
  rtc (wasm_move fs) (Running (enter_function g (reverse (take (length (wf_params g)) stack)))
    (Build_WasmFrame code labels ws (drop (length (wf_params g)) stack) :: callers)) s' →
  rtc (wasm_move fs) (Running (Build_WasmFrame (Call k :: code) labels ws stack) callers) s'.
Proof. intros Hg. apply wasm_step_trans. unfold wasm_step. simpl. by rewrite Hg. Qed.

(** The locals a function is entered with hold the arguments' words. *)
Lemma entry_rel f arguments locals n :
  length arguments = N.to_nat (parameter_count f) →
  (N.to_nat (parameter_count f) < length (fn_locals f))%nat →
  (length arguments + n = S (length (fn_locals f)))%nat →
  fill_locals 0 arguments (replicate (length (fn_locals f)) None) = Some locals →
  frame_rel f locals ((W64 ∘ value_word <$> arguments) ++ (zero_value <$> replicate n TI64)).
Proof.
  intros Ha Hp Hn Hfill.
  destruct (fill_locals_spec arguments 0 (replicate (length (fn_locals f)) None)) as (locals'&Hf&Hl&Hi).
  { rewrite length_replicate. lia. }
  rewrite Hfill in Hf. injection Hf as <-. rewrite length_replicate in Hl. split; [done|..].
  { by rewrite length_app, !length_fmap, length_replicate. }
  intros l v. rewrite Hi. case_bool_decide as Hr; [|by intros [? _]%lookup_replicate].
  intros (w&Hw&[= <-])%fmap_Some. apply lookup_app_l_Some. rewrite list_lookup_fmap.
  replace (N.to_nat (wasm_local f l)) with (N.to_nat l - 1)%nat; [by rewrite Hw|].
  unfold wasm_local. rewrite bool_decide_eq_false_2, bool_decide_eq_true_2 by lia. lia.
Qed.

Section calls.
Context (fns : list MirFunction) (fs : list WasmFunction) (limits : InterpreterLimits).
Context (fns_wf : ∀ f, f ∈ fns → passes_checks (signatures_of fns) f).
Context (fns_strict : ∀ f, f ∈ fns → strict_function f = true).
Context (fns_ready : ∀ f, f ∈ fns → existsb block_compares (fn_blocks f) = false ∧
  (Z.of_nat (length (fn_blocks f)) < two64)%Z ∧ N.of_nat (length (fn_locals f)) < u32_max).
Context (emitted : ∀ k f, fns !! k = Some f →
  ∃ g, fs !! k = Some g ∧ encode_function f (function_indices fns) = Ok g).

Abbreviation signatures := (signatures_of fns).
Abbreviation indices := (function_indices fns).
Abbreviation steps_to := (rtc (wasm_move fs)).

Lemma signature_in id f : signatures !! id = Some f → f ∈ fns.
Proof. by intros [? _]%signatures_of_lookup. Qed.

Lemma sim_wf id f : signatures !! id = Some f → passes_checks signatures f.
Proof. intros ?%signature_in. by apply fns_wf. Qed.

Lemma sim_strict : true = true → ∀ id f, signatures !! id = Some f → strict_function f = true.
Proof. intros _ id f ?%signature_in. by apply fns_strict. Qed.

Definition loop_code (blocks : list Instruction) : list Instruction :=
  Loop None :: blocks ++ [Unreachable; End_; I64Const 0; End_].

(** The code emitted for a function, and its shape. *)
Lemma emitted_function id f :
  signatures !! id = Some f →
  ∃ k g blocks, indices !! id = Some k ∧ fs !! N.to_nat k = Some g ∧
    encode_blocks f (N.of_nat (length (fn_locals f))) indices 0 (fn_blocks f) = Ok blocks ∧
    wf_params g = replicate (N.to_nat (parameter_count f)) TI64 ∧
    wf_locals g = replicate (S (length (fn_locals f)) - N.to_nat (parameter_count f)) TI64 ∧
    wf_body g = I64Const 0 :: LocalSet (N.of_nat (length (fn_locals f))) :: loop_code blocks.
Proof.
  intros Hid. destruct (function_indices_lookup _ _ _ Hid) as (k&Hk&Hf).
  destruct (emitted _ _ Hf) as (g&Hg&He). pose proof (wf_parameters _ _ (sim_wf _ _ Hid)) as Hp.
  destruct (fns_ready f) as (_&_&Hl); [by eapply signature_in|].
  unfold encode_function in He. revert He. case_bool_decide; [done|].
  destruct (encode_blocks _ _ _ _ _) as [blocks|] eqn:Hb; [|done]. intros [= <-].
  exists k. eexists _, blocks. split_and!; try done. cbn [wf_locals]. f_equal. rewrite N.min_l; lia.
Qed.

Definition calls_sim (fuel : nat) : Prop := ∀ m id f arguments depth v m' k g callers s',
  signatures !! id = Some f → arguments_ok true f arguments →
  call signatures limits fuel m id arguments depth = Some (Done (v, m')) →
  indices !! id = Some k → fs !! N.to_nat k = Some g →
  steps_to (return_value (W64 (value_word v)) callers) s' →
  steps_to (Running (enter_function g (W64 ∘ value_word <$> arguments)) callers) s'.

Definition runs_sim (fuel : nat) : Prop := ∀ m id f i depth locals O v m' ws blocks callers s',
  signatures !! id = Some f → ownership_analysis f !! i = Some (Some O) →
  frame_ok true f O locals → frame_rel f locals ws →
  encode_blocks f (N.of_nat (length (fn_locals f))) indices 0 (fn_blocks f) = Ok blocks →
  ws !! length (fn_locals f) = Some (W64 (wrap64 (Z.of_nat i))) →
  run_blocks signatures limits fuel m f i depth locals = Some (Done (v, m')) →
  steps_to (return_value (W64 (value_word v)) callers) s' →
  steps_to (Running (Build_WasmFrame (loop_code blocks) [] ws []) callers) s'.

Lemma call_sim_step fuel : runs_sim fuel → calls_sim (S fuel).
Proof.
  intros IH m id f arguments depth v m' k g callers s' Hid [Hn Hty] Hcall Hk Hg H.
  pose proof (sim_wf _ _ Hid) as Hwf. pose proof (wf_parameters _ _ Hwf) as Hp.
  destruct (emitted_function id f Hid) as (k'&g'&blocks&Hk'&Hg'&Hb&_&Hl&Hbody). simplify_eq.
  cbn [call] in Hcall. revert Hcall. case_bool_decide; [done|]. rewrite Hid.
  rewrite bool_decide_eq_false_2 by tauto.
  destruct (entry_frame_ok true f arguments) as (locals&Hfill&Hok); [done..|]. rewrite Hfill. intros Hrun.
  unfold enter_function. rewrite Hbody, Hl.
  apply step_const64, step_local_set. rewrite Nat2N.id.
  destruct (must_analysis_reaches f transfer_block (λ _, true) 0) as [O HO].
  { apply reaches_entry, Hwf. }
  pose proof (entry_rel f arguments locals (S (length (fn_locals f)) - N.to_nat (parameter_count f))
    Hn Hp ltac:(lia) Hfill) as Hrel.
  eapply (IH m id f 0%nat depth locals O); [done|done| | |done| |exact Hrun|exact H].
  - eapply frame_ok_mono; [|exact Hok]. by eapply (analysis_entry f transfer_block (λ _, true)).
  - by apply frame_rel_pc.
  - apply list_lookup_insert_eq. rewrite (rel_words _ _ _ Hrel). lia.
Qed.

Lemma run_sim_step fuel : calls_sim fuel → runs_sim fuel → runs_sim (S fuel).
Proof.
  intros IHc IHr m id f i depth locals O v m' ws blocks callers s' Hid HO Hok Hrel Hblocks Hpc Hrun H.
  pose proof (sim_wf _ _ Hid) as Hwf. pose proof (wf_parameters _ _ Hwf) as Hp.
  pose proof (signature_in _ _ Hid) as Hin. destruct (fns_ready f Hin) as (Hn&Hlen&_).
  assert (i < length (fn_blocks f))%nat as Hi.
  { eapply reaches_lt. by eapply must_analysis_lookup. }
  destruct (lookup_lt_is_Some_2 _ _ Hi) as [b Hb].
  rewrite wrap64_small in Hpc by lia. simpl in Hrun. rewrite Hb in Hrun.
  destruct (dispatch f indices fs [(loop_code blocks, [])] callers ws i ltac:(lia) Hpc 0 (fn_blocks f) blocks b
    [Unreachable; End_; I64Const 0; End_]) as (cb&after&Hcb&Hdispatch); [done|lia|by rewrite Nat.sub_0_r|].
  eapply wasm_step_trans; [done|]. apply Hdispatch. clear Hdispatch.
  destruct (execute_block limits b (m, locals)) as [[next [m1 locals1]]|e|] eqn:Hx; [|done..].
  pose proof (wp_done _ _ _ _ _ _ (block_next_ok signatures limits true sim_wf sim_strict id f i b O m locals
    Hid Hb HO Hok) Hx) as Hnext. simpl in Hnext.
  eapply (block_sim f Hp indices fs limits callers [(after, []); (loop_code blocks, [])] (loop_code blocks) []
    eq_refl signatures i b O);
    [done|by apply fns_strict|by eapply existsb_false, list_elem_of_lookup_2|done..|].
  destruct next as [w|j|callee vs p j]; cbn [next_reached snd].
  - by injection Hrun as -> ->.
  - destruct Hnext as (O'&HO'&Hok'). intros ws' Hrel' Hpc'. by eapply IHr.
  - destruct Hnext as (g&Hg&Hargs&Hnext). intros ws' cp code Hrel' Hcp.
    destruct (call signatures limits fuel m1 callee vs _) as [[[w m2]|e|]|] eqn:Hcall; [|done..].
    destruct (emitted_function callee g Hg) as (k&wg&_&Hk&Hwg&_&Hwp&_). rewrite Hk. simpl.
    eapply step_call; [done|]. rewrite Hwp, length_replicate. destruct Hargs as [Hlen' Htys].
    rewrite take_ge, drop_ge, reverse_involutive by (rewrite length_reverse, length_fmap; lia).
    eapply (IHc m1 callee g vs); [done|by split|exact Hcall|done..|]. cbn [return_value with_code fr_code fr_stack].
    specialize (Hnext w m2). unfold wp in Hnext.
    destruct (assign p w (m2, locals1)) as [[u [m3 locals3]]|e|] eqn:Ha; [|done..].
    destruct (set_place_sim f Hp fs [(after, []); (loop_code blocks, [])] callers p cp w (m2, locals1)
      (m3, locals3) u ws' Hcp Ha Hrel') as (ws3&Hrel3&_&Hset).
    apply Hset. eapply continue_sim; [done|].
    destruct (set_pc_rel f Hp locals3 ws3 (N.of_nat j) Hrel3) as [Hrel4 Hpc4].
    destruct Hnext as (O'&HO'&Hok').
    { intros _. pose proof (calls_runs_ok signatures limits true sim_wf sim_strict fuel) as [Hcok _].
      specialize (Hcok m1 callee g vs (u32_saturating_add depth 1) Hg (conj Hlen' Htys)).
      rewrite Hcall in Hcok. by apply Hcok. }
    eapply IHr; [exact Hid|exact HO'|exact Hok'|exact Hrel4|exact Hblocks| |exact Hrun|exact H]. by rewrite Hpc4, nat_N_Z.
Qed.

Lemma calls_runs_sim fuel : calls_sim fuel ∧ runs_sim fuel.
Proof.
  induction fuel as [|fuel [IHc IHr]]; [split; intros ????; done|].
  split; [by apply call_sim_step|by apply run_sim_step].
Qed.
End calls.

(** ** Programs *)

(** Functions the simulation covers: operands of the primitive operations'
    types, no comparison, and tables the target can index. *)
Definition wasm_faithful (f : MirFunction) : bool :=
  strict_function f && negb (existsb block_compares (fn_blocks f))
  && bool_decide (N.of_nat (length (fn_blocks f)) ≤ u32_max)
  && bool_decide (N.of_nat (length (fn_locals f)) < u32_max).

Lemma wasm_faithful_spec f :
  wasm_faithful f = true →
  strict_function f = true ∧ existsb block_compares (fn_blocks f) = false ∧
  (Z.of_nat (length (fn_blocks f)) < two64)%Z ∧ N.of_nat (length (fn_locals f)) < u32_max.
Proof.
  unfold wasm_faithful. rewrite !andb_true_iff, negb_true_iff, !bool_decide_eq_true.
  intros [[[? ?] ?] ?]. split_and!; try done. unfold two64, u32_max in *. lia.
Qed.

(** The main export of an emitted module: its type, and what it returns. *)
Lemma emitted_module_returns p frames m start limits fuel r :
  emit_functions p frames = Ok m → forallb wasm_faithful (functions p) = true →
  entry p = Some start → execute fuel p start limits = Some (Done r) →
  ∃ v k, er_value r = into_runtime v ∧ head (wm_exports m) = Some ("main"%string, k) ∧
    (∃ g, wm_functions m !! N.to_nat k = Some g ∧ wf_params g = [] ∧ wf_result g = TI64) ∧
    ∃ enough, ∀ fuel', (enough ≤ fuel')%nat →
      wasm_invoke (wm_functions m) fuel' (N.to_nat k) [] = Some (Returned (W64 (value_word v))).
Proof.
  intros (Hv&fs&gs&Hfs&Hgs&->&start'&k&Hid'&Hk&Hmain)%emit_functions_ok Hfaith Hid Hx.
  rewrite Hid in Hid'. injection Hid' as <-.
  unfold execute in Hx. pose proof Hv as Hv'. rewrite Hv in Hx. rewrite verify_ok in Hv.
  destruct (call _ _ _ _ _ _ _) as [[[v m']|e|]|] eqn:Hcall; [|done..]. injection Hx as <-.
  exists v, k. split; [done|]. split; [done|].
  assert (∃ f, signatures_of (functions p) !! start = Some f ∧ arguments_ok true f []) as (f&Hf&Hargs).
  { destruct fuel; [done|]. simpl in Hcall. revert Hcall. case_bool_decide; [done|].
    destruct (signatures_of (functions p) !! start) as [f|]; [|done]. case_bool_decide as Hn; [done|].
    intros _. exists f. split; [done|]. split; [simpl in *; lia|]. by intros _ i w ty Hi. }
  rewrite forallb_forall in Hfaith. apply encode_functions_lookup in Hfs.
  assert (∀ j g, functions p !! j = Some g → ∃ w, (fs ++ gs) !! j = Some w ∧
    encode_function g (function_indices (functions p)) = Ok w) as Hemit.
  { intros j g Hj. destruct (Forall2_lookup_l _ _ _ _ _ Hfs Hj) as (w&Hw&He). exists w.
    split; [by apply lookup_app_l_Some|done]. }
  destruct (function_indices_lookup _ _ _ Hf) as (k'&Hk'&Hfk). simplify_eq.
  destruct (Hemit _ _ Hfk) as (w&Hw&Hencoded). split.
  { exists w. split; [done|]. pose proof (encode_function_signature _ _ _ Hencoded) as Hsig. injection Hsig as -> ->. split; [|done].
    destruct Hargs as [Hn _]. simpl in Hn. by replace (N.to_nat (parameter_count f)) with 0%nat by lia. }
  unfold wasm_invoke. rewrite Hw. apply steps_to_run; [|done].
  assert (∀ g, g ∈ functions p → _) as Hspec by (intros g Hg%list_elem_of_In; exact (wasm_faithful_spec g (Hfaith g Hg))).
  destruct (calls_runs_sim (functions p) (fs ++ gs) limits Hv (λ g Hg, proj1 (Hspec g Hg))
    (λ g Hg, proj2 (Hspec g Hg)) Hemit fuel) as [Hsim _].
  eapply (Hsim initial_machine start f []); [done|done|exact Hcall|done..|apply rtc_refl].
Qed.

(** C3: the code generator is correct on the supported fragment: if the
    interpreter returns a value for a program of which a module is emitted, then
    calling the module's main export returns that value's word, whatever frames
    are emitted beside it, for every fuel from some bound on. *)
Theorem emitted_module_simulates p frames m start limits fuel r :
  emit_functions p frames = Ok m → forallb wasm_faithful (functions p) = true →
  entry p = Some start → execute fuel p start limits = Some (Done r) →
  ∃ v k, er_value r = into_runtime v ∧ head (wm_exports m) = Some ("main"%string, k) ∧
    ∃ enough, ∀ fuel', (enough ≤ fuel')%nat →
      wasm_invoke (wm_functions m) fuel' (N.to_nat k) [] = Some (Returned (W64 (value_word v))).
Proof.
  intros Hm Hf He Hx. destruct (emitted_module_returns p frames m start limits fuel r Hm Hf He Hx) as (v & k & ? & ? & _ & ?). by exists v, k.
Qed.

Lemma emitted_module_simulates_witness :
  ∃ m, emit_functions adding_program [one_await] = Ok m ∧
    ∃ v k, RI64 42 = into_runtime v ∧ head (wm_exports m) = Some ("main"%string, k) ∧
    ∃ enough, ∀ fuel', (enough ≤ fuel')%nat →
      wasm_invoke (wm_functions m) fuel' (N.to_nat k) [] = Some (Returned (W64 (value_word v))).
Proof.
  destruct (emit_functions adding_program [one_await]) as [m|e] eqn:E; [|vm_compute in E; discriminate].
  exists m. split; [done|].
  apply (emitted_module_simulates adding_program [one_await] m main_id small_limits 100
    {| er_value := RI64 42; er_stdout := []; er_drops_executed := 0 |}); [done|..]; vm_compute; reflexivity.
Defined.

(** What the first export returns. *)
Definition wasm_main (fuel : nat) (p : MirProgram) : option WasmState :=
  match emit_functions p [] with
  | Ok m => match wm_exports m with
            | (_, k) :: _ => wasm_invoke (wm_functions m) fuel (N.to_nat k) []
            | [] => None
            end
  | Err _ => None
  end.

(** Where the interpreter stops the emitted code need not: on
    [i64::MAX + 1] the interpreter traps and the module returns the wrapped
    value. *)
Theorem backends_disagree_on_overflow :
  wasm_main 100 overflow_program = Some (Returned (W64 9223372036854775808)) ∧
  execute 100 overflow_program main_id small_limits = Some (Failed (Trap "I64 addition overflow")).
Proof. vm_compute. done. Qed.
