(* ===== verification/Resolver.v ===== *)
(** * Package resolution (crates/syllog-package/src/resolver.rs)

    The backtracking search over package releases.  Versions, requirements and
    the digest come from the semver and sha2 crates: they are the fields of the
    class [SemVer], whose documented behaviour is [SemVerLaws].  The index is a
    function from names to releases, as the trait [PackageIndex]; the map of
    failed states is threaded through the search as the source threads
    [&mut failed_states], kept as an association list whose first entry for a
    state is the map's.  The recursion of [search] carries a step budget. *)

From Stdlib Require Import Ascii.
From stdpp Require Import base gmap list strings numbers sorting.
From S2P Require Import Prelude Text.
Open Scope string_scope.
Open Scope list_scope.

#[export] Instance byte_eq_dec : EqDecision Byte.byte := Byte.byte_eq_dec.

Class SemVer := {
  Version : Type;
  version_eq_dec :: EqDecision Version;
  (** [Version::cmp] *)
  version_cmp : Version → Version → comparison;
  (** [Display] *)
  version_display : Version → string;
  VersionReq : Type;
  (** [VersionReq::parse], with the error's text *)
  parse_requirement : string → result VersionReq string;
  (** [VersionReq::matches] *)
  requirement_matches : VersionReq → Version → bool;
  (** [format!("{:x}", Sha256::digest(content))] *)
  sha256_hex : list Byte.byte → string
}.

(** [Version]'s order is total and agrees with its equality. *)
Class SemVerLaws `{SemVer} : Prop := {
  version_cmp_eq a b : version_cmp a b = Eq ↔ a = b;
  version_cmp_antisym a b : version_cmp a b = CompOpp (version_cmp b a);
  version_cmp_trans a b c : version_cmp a b ≠ Gt → version_cmp b c ≠ Gt → version_cmp a c ≠ Gt
}.

Section resolver.
Context `{SemVer}.

Record PackageRelease := {
  pr_name : string;
  pr_version : Version;
  pr_dependencies : gmap string string;
  pr_checksum : string;
  pr_content : list Byte.byte;
  pr_yanked : bool;
  pr_available_offline : bool;
  pr_archive_paths : list string
}.

#[export] Instance PackageRelease_eq_dec : EqDecision PackageRelease.
Proof. solve_decision. Defined.

(** [InMemoryIndex::new] and its [releases]. *)
Definition in_memory_index (releases : list PackageRelease) : gmap string (list PackageRelease) :=
  foldl (λ grouped r, <[pr_name r := default [] (grouped !! pr_name r) ++ [r]]> grouped) ∅ releases.

Definition index_releases (grouped : gmap string (list PackageRelease)) (name : string)
    : list PackageRelease :=
  default [] (grouped !! name).

Record LockedPackage := {
  lp_name : string;
  lp_version : Version;
  lp_checksum : string;
  lp_dependencies : gmap string Version
}.

Record Resolution := {
  format : N;
  packages : list LockedPackage
}.

Inductive ResolveError :=
| InvalidRequirement (package requirement reason : string)
| Conflict (package : string) (requirements : list string)
| OfflineUnavailable (package : string) (version : Version)
| ChecksumMismatch (package : string) (version : Version) (expected actual : string)
| UnsafeArchivePath (package : string) (version : Version) (path : string)
| AmbiguousRelease (package : string) (version : Version).

Record Constraint := {
  requirement : VersionReq;
  ct_text : string;
  ct_origin : string;
  exact : bool
}.

Record SearchState := {
  ss_selected : list (string * Version * string);
  ss_constraints : list (string * list (string * string))
}.

#[export] Instance SearchState_eq_dec : EqDecision SearchState.
Proof. solve_decision. Defined.

Abbreviation constraint_map := (gmap string (list Constraint)) (only parsing).
Abbreviation selection := (gmap string PackageRelease) (only parsing).

(** ** Constraints *)

Definition add_constraint (constraints : constraint_map) (package text origin : string)
    : result constraint_map ResolveError :=
  match parse_requirement text with
  | Err reason => Err (InvalidRequirement package text reason)
  | Ok req =>
      Ok (<[package := default [] (constraints !! package) ++
                        [{| requirement := req; ct_text := text; ct_origin := origin;
                            exact := starts_with "=" (trim_start text) |}]]> constraints)
  end.

(** The loop over the dependencies of the manifest or of a release, with the
    origin each one is recorded under. *)
Fixpoint add_constraints (origin : string → string → string) (deps : list (string * string))
    (constraints : constraint_map) : result constraint_map ResolveError :=
  match deps with
  | [] => Ok constraints
  | (name, text) :: deps =>
      match add_constraint constraints name text (origin name text) with
      | Err e => Err e
      | Ok constraints => add_constraints origin deps constraints
      end
  end.

Definition root_origin (name text : string) : string := "root requires " +:+ name +:+ " " +:+ text.

Definition release_origin (r : PackageRelease) (dependency text : string) : string :=
  pr_name r +:+ " " +:+ version_display (pr_version r) +:+ " requires " +:+ dependency +:+ " " +:+ text.

Definition conflict (package : string) (constraints : list Constraint) : ResolveError :=
  Conflict package
    (sort_strings ((λ c, ct_origin c +:+ " (" +:+ ct_text c +:+ ")") <$> constraints)).

(** [active.iter().all(|constraint| constraint.requirement.matches(&release.version))] *)
Definition satisfies (active : list Constraint) (r : PackageRelease) : bool :=
  forallb (λ c, requirement_matches (requirement c) (pr_version r)) active.

(** A withdrawn release needs an exact requirement. *)
Definition not_withdrawn (active : list Constraint) (r : PackageRelease) : bool :=
  negb (pr_yanked r) ||
  existsb (λ c, exact c && requirement_matches (requirement c) (pr_version r)) active.

(** ** Releases *)

(** [right.version.cmp(&left.version).then_with(|| left.checksum.cmp(&right.checksum))] *)
Definition release_le (l r : PackageRelease) : Prop :=
  match version_cmp (pr_version r) (pr_version l) with
  | Lt => True
  | Eq => string_le (pr_checksum l) (pr_checksum r)
  | Gt => False
  end.

#[export] Instance release_le_dec : RelDecision release_le.
Proof. intros l r. unfold release_le. destruct (version_cmp _ _); apply _. Defined.

Fixpoint reject_ambiguous (name : string) (releases : list PackageRelease) : result unit ResolveError :=
  match releases with
  | a :: (b :: _) as rest =>
      if bool_decide (pr_version a = pr_version b) && bool_decide (a ≠ b)
      then Err (AmbiguousRelease name (pr_version a)) else reject_ambiguous name rest
  | _ => Ok tt
  end.

(** [Path::components] on Unix. *)
Inductive Component := RootDir | CurDir | ParentDir | Normal (name : string).

Definition normal_component (part : string) : list Component :=
  if bool_decide (part = "") || bool_decide (part = ".") then []
  else if bool_decide (part = "..") then [ParentDir] else [Normal part].

Definition components (path : string) : list Component :=
  match split_on "/"%char path with
  | [] => []
  | first :: rest =>
      (if bool_decide (first = "") && negb (bool_decide (path = "")) then [RootDir]
       else if bool_decide (first = ".") then [CurDir] else normal_component first)
      ++ flat_map normal_component rest
  end.

Definition is_normal (c : Component) : bool := match c with Normal _ => true | _ => false end.

(** The loop over [release.archive_paths]. *)
Definition unsafe_path (path : string) : bool :=
  bool_decide (path = "") || existsb (λ c, negb (is_normal c)) (components path).

Definition validate_release (r : PackageRelease) : result unit ResolveError :=
  let actual := sha256_hex (pr_content r) in
  if bool_decide (actual ≠ pr_checksum r)
  then Err (ChecksumMismatch (pr_name r) (pr_version r) (pr_checksum r) actual)
  else match List.find unsafe_path (pr_archive_paths r) with
       | Some path => Err (UnsafeArchivePath (pr_name r) (pr_version r) path)
       | None => Ok tt
       end.

(** ** Search *)

(** The order of [(String, String)]. *)
Definition pair_le (a b : string * string) : Prop :=
  a.1 ≠ b.1 ∧ string_le a.1 b.1 ∨ a.1 = b.1 ∧ string_le a.2 b.2.

#[export] Instance pair_le_dec : RelDecision pair_le.
Proof. intros a b. unfold pair_le. apply _. Defined.

Definition state_fingerprint (selected : selection) (constraints : constraint_map) : SearchState := {|
  ss_selected := (λ '(name, r), (name, pr_version r, pr_checksum r)) <$> entries selected;
  ss_constraints :=
    (λ '(name, active), (name, merge_sort pair_le ((λ c, (ct_text c, ct_origin c)) <$> active)))
      <$> entries constraints
|}.

Abbreviation failures := (list (SearchState * ResolveError)) (only parsing).

Definition failure_of (failed : failures) (state : SearchState) : option ResolveError :=
  snd <$> List.find (λ f, bool_decide (f.1 = state)) failed.

Section search.
Context (index : string → list PackageRelease) (offline : bool).

Definition candidate (active : list Constraint) (r : PackageRelease) : bool :=
  satisfies active r && not_withdrawn active r.

Definition candidate_count (name : string) (active : list Constraint) : nat :=
  length (List.filter (λ r, candidate active r && (negb offline || pr_available_offline r)) (index name)).

(** The first selected package some active constraint rejects. *)
Definition violated (selected : selection) (constraints : constraint_map)
    : option (string * list Constraint) :=
  match List.find (λ '(name, r), match constraints !! name with
                                 | Some active => negb (satisfies active r)
                                 | None => false
                                 end) (entries selected) with
  | Some (name, _) => Some (name, default [] (constraints !! name))
  | None => None
  end.

(** [min_by_key] on the candidate count and the name. *)
Definition better (a b : string * list Constraint) : bool :=
  bool_decide (candidate_count a.1 a.2 < candidate_count b.1 b.2)%nat ||
  (bool_decide (candidate_count a.1 a.2 = candidate_count b.1 b.2) && String.ltb a.1 b.1).

Fixpoint min_entry (l : list (string * list Constraint)) : option (string * list Constraint) :=
  match l with
  | [] => None
  | x :: l => match min_entry l with
              | None => Some x
              | Some y => Some (if better y x then y else x)
              end
  end.

Definition next_package (selected : selection) (constraints : constraint_map)
    : option (string * list Constraint) :=
  min_entry (List.filter (λ '(name, _), negb (bool_decide (is_Some (selected !! name)))) (entries constraints)).

(** The releases to try for a package, best first, or the error that ends the
    search of this state. *)
Definition compatible_releases (name : string) (active : list Constraint)
    : result (list PackageRelease) ResolveError :=
  let releases := merge_sort release_le (index name) in
  match reject_ambiguous name releases with
  | Err e => Err e
  | Ok _ =>
      let compatible := List.filter (candidate active) releases in
      if offline
      then
        match List.find (λ r, negb (pr_available_offline r)) compatible with
        | Some unavailable =>
            if forallb (λ r, negb (pr_available_offline r)) compatible
            then Err (OfflineUnavailable name (pr_version unavailable))
            else Ok (List.filter pr_available_offline compatible)
        | None => Ok (List.filter pr_available_offline compatible)
        end
      else Ok compatible
  end.

Abbreviation outcome := (option (result selection ResolveError * failures)) (only parsing).

(** How the loop over the compatible releases ends: with a solution, with an
    error that leaves the function, or with no release left and the last
    conflict. *)
Inductive tried :=
| Solved (solution : selection)
| Stopped (e : ResolveError)
| Exhausted (last : option ResolveError).

Fixpoint try_releases (rec : selection → constraint_map → failures → outcome)
    (name : string) (selected : selection) (constraints : constraint_map)
    (releases : list PackageRelease) (last : option ResolveError) (failed : failures)
    : option (tried * failures) :=
  match releases with
  | [] => Some (Exhausted last, failed)
  | r :: releases =>
      match validate_release r with
      | Err e => Some (Stopped e, failed)
      | Ok _ =>
          match add_constraints (release_origin r) (entries (pr_dependencies r)) constraints with
          | Err e => Some (Stopped e, failed)
          | Ok next =>
              match rec (<[name := r]> selected) next failed with
              | None => None
              | Some (Ok solution, failed) => Some (Solved solution, failed)
              | Some (Err (Conflict p rs), failed) =>
                  try_releases rec name selected constraints releases (Some (Conflict p rs)) failed
              | Some (Err e, failed) => Some (Stopped e, failed)
              end
          end
      end
  end.

Fixpoint search (fuel : nat) (selected : selection) (constraints : constraint_map) (failed : failures)
    : outcome :=
  match fuel with
  | O => None
  | S fuel =>
      let state := state_fingerprint selected constraints in
      match failure_of failed state with
      | Some e => Some (Err e, failed)
      | None =>
          match violated selected constraints with
          | Some (name, active) =>
              Some (Err (conflict name active), (state, conflict name active) :: failed)
          | None =>
              match next_package selected constraints with
              | None => Some (Ok selected, failed)
              | Some (name, active) =>
                  match compatible_releases name active with
                  | Err e => Some (Err e, failed)
                  | Ok [] => Some (Err (conflict name active), failed)
                  | Ok compatible =>
                      match try_releases (search fuel) name selected constraints compatible None failed with
                      | None => None
                      | Some (Solved solution, failed) => Some (Ok solution, failed)
                      | Some (Stopped e, failed) => Some (Err e, failed)
                      | Some (Exhausted last, failed) =>
                          let e := default (conflict name active) last in
                          Some (Err e, (state, e) :: failed)
                      end
                  end
              end
          end
      end
  end.

(** The lockfile entry of a selected release. *)
Definition locked_package (selected : selection) (r : PackageRelease) : LockedPackage := {|
  lp_name := pr_name r;
  lp_version := pr_version r;
  lp_checksum := pr_checksum r;
  lp_dependencies :=
    map_imap (λ name _, pr_version <$> selected !! name) (pr_dependencies r)
|}.

(** [resolve]; a manifest's dependencies map names to requirement texts. *)
Definition resolve (fuel : nat) (dependencies : gmap string string)
    : option (result Resolution ResolveError) :=
  match add_constraints root_origin (entries dependencies) ∅ with
  | Err e => Some (Err e)
  | Ok constraints =>
      match search fuel ∅ constraints [] with
      | None => None
      | Some (Err e, _) => Some (Err e)
      | Some (Ok selected, _) =>
          Some (Ok {| format := 1;
                      packages := (λ '(_, r), locked_package selected r) <$> entries selected |})
      end
  end.
End search.
End resolver.
