(* ===== verification/ResolverTheorems.v ===== *)
(** * Correctness of package resolution

    [solution] is the specification of a resolved graph.  A successful search
    returns one; a conflict means that none exists among releases that are not
    withdrawn; the search of a finite index ends, and neither the order of an
    index nor the step budget changes the result. *)

From Stdlib Require Import Ascii.
From stdpp Require Import base gmap list strings numbers sorting.
From S2P Require Import Prelude Text Resolver.
Open Scope string_scope.
Open Scope list_scope.

(** ** Paths *)

(** Where a path leads from a directory, read component by component. *)
Definition walk_component (dir : list string) (c : Component) : list string :=
  match c with
  | RootDir => []
  | CurDir => dir
  | ParentDir => removelast dir
  | Normal name => dir ++ [name]
  end.

Definition walk_path (dir : list string) (path : string) : list string :=
  foldl walk_component dir (components path).

Lemma walk_normal cs dir :
  Forall (λ c, is_normal c = true) cs → ∃ below, foldl walk_component dir cs = dir ++ below ∧ length below = length cs.
Proof.
  intros Hcs. revert dir. induction Hcs as [|c cs Hc _ IH]; intros dir; simpl.
  - exists []. by rewrite app_nil_r.
  - destruct c as [| | |name]; try done. simpl. destruct (IH (dir ++ [name])) as (below&->&<-).
    exists (name :: below). by rewrite <-app_assoc.
Qed.

Lemma safe_path_normal path :
  unsafe_path path = false → path ≠ "" ∧ Forall (λ c, is_normal c = true) (components path).
Proof.
  unfold unsafe_path. intros [Hp%bool_decide_eq_false Hc]%orb_false_iff. split; [done|].
  apply list.Forall_forall. intros c Hin. destruct (is_normal c) eqn:E; [done|].
  assert (existsb (λ c, negb (is_normal c)) (components path) = true) as H; [|congruence].
  apply existsb_exists. exists c. by rewrite E, <-list_elem_of_In.
Qed.

(** A path that passes the check has a component. *)
Lemma split_on_cons c s : ∃ p ps, split_on c s = p :: ps.
Proof.
  destruct s as [|x s]; simpl; [by eauto|]. case_bool_decide; [by eauto|].
  destruct (split_on c s); eauto.
Qed.

Lemma split_on_empty c s : split_on c s = [""] → s = "".
Proof.
  destruct s as [|x s]; simpl; [done|]. case_bool_decide.
  - destruct (split_on_cons c s) as (p&ps&->). done.
  - by destruct (split_on c s).
Qed.

Lemma safe_path_nonempty path : unsafe_path path = false → components path ≠ [].
Proof.
  intros [Hne Hn]%safe_path_normal. unfold components in *.
  destruct (split_on_cons (Ascii.ascii_of_nat 47) path) as (p&ps&E).
  change (Ascii.ascii_of_nat 47) with "/"%char in E. rewrite E in *.
  destruct (bool_decide (p = "") && negb (bool_decide (path = ""))) eqn:E1; [done|].
  case_bool_decide; [done|]. unfold normal_component.
  apply andb_false_iff in E1 as [E1|E1%negb_false_iff%bool_decide_eq_true]; [|done].
  rewrite E1, bool_decide_eq_false_2 by done. simpl. by destruct (bool_decide (p = "..")).
Qed.

(** A path that passes the check leads below the directory it is unpacked in. *)
Lemma safe_path_below dir path :
  unsafe_path path = false → ∃ name below, walk_path dir path = dir ++ name :: below.
Proof.
  intros Hs. pose proof (safe_path_nonempty path Hs) as Hne. apply safe_path_normal in Hs as [_ Hn].
  destruct (walk_normal _ dir Hn) as (below&Hw&Hl). unfold walk_path. rewrite Hw.
  destruct below as [|name below]; [by destruct (components path)|]. eauto.
Qed.

Lemma validate_release_ok `{SemVer} r :
  validate_release r = Ok tt →
  sha256_hex (pr_content r) = pr_checksum r ∧
  ∀ path, path ∈ pr_archive_paths r → unsafe_path path = false.
Proof.
  unfold validate_release. case_bool_decide as Hc; [done|].
  destruct (List.find _ _) eqn:E; [done|]. intros _. split; [done|]. intros path Hp.
  by eapply find_none; [|apply list_elem_of_In].
Qed.

(** ** Releases in order *)

Section releases.
Context `{SV : SemVer} {SL : SemVerLaws}.

Lemma version_cmp_refl v : version_cmp v v = Eq.
Proof. by apply version_cmp_eq. Qed.

(** [version_ge a b]: [a] comes before [b] in the search order. *)
Definition version_ge (a b : Version) : Prop := version_cmp b a ≠ Gt.

Lemma version_ge_refl a : version_ge a a.
Proof. unfold version_ge. by rewrite version_cmp_refl. Qed.

Lemma version_ge_antisymm a b : version_ge a b → version_ge b a → a = b.
Proof.
  unfold version_ge. intros H1 H2. apply version_cmp_eq. rewrite version_cmp_antisym in H1.
  by destruct (version_cmp a b).
Qed.

Lemma version_ge_trans a b c : version_ge a b → version_ge b c → version_ge a c.
Proof. unfold version_ge. intros H1 H2. by eapply version_cmp_trans. Qed.

Lemma release_le_version a b : release_le a b → version_ge (pr_version a) (pr_version b).
Proof. unfold release_le, version_ge. by destruct (version_cmp _ _). Qed.

#[export] Instance release_le_total : Total release_le.
Proof.
  intros a b. unfold release_le. rewrite (version_cmp_antisym (pr_version a) (pr_version b)).
  destruct (version_cmp _ _); simpl; auto. apply (total string_le).
Qed.

#[export] Instance release_le_trans : Transitive release_le.
Proof.
  intros a b c Hab Hbc. pose proof (release_le_version _ _ Hab) as Vab. pose proof (release_le_version _ _ Hbc) as Vbc.
  pose proof (version_ge_trans _ _ _ Vab Vbc) as Vac. unfold release_le in *.
  destruct (version_cmp (pr_version c) (pr_version a)) eqn:E; [|done..].
  apply version_cmp_eq in E. rewrite E in *.
  rewrite (version_ge_antisymm _ _ Vab Vbc), version_cmp_refl in *. by etrans.
Qed.

(** Two different records of one version. *)
Definition ambiguous_at (l : list PackageRelease) (v : Version) : Prop :=
  ∃ a b, a ∈ l ∧ b ∈ l ∧ a ≠ b ∧ pr_version a = v ∧ pr_version b = v.

Lemma reject_ambiguous_cons name a b l :
  reject_ambiguous name (a :: b :: l) =
  if bool_decide (pr_version a = pr_version b) && bool_decide (a ≠ b)
  then Err (AmbiguousRelease name (pr_version a)) else reject_ambiguous name (b :: l).
Proof. done. Qed.

(** The check on a sorted list finds the first ambiguous version. *)
Lemma reject_ambiguous_spec name l :
  StronglySorted release_le l →
  match reject_ambiguous name l with
  | Ok _ => ∀ v, ¬ ambiguous_at l v
  | Err e => ∃ v, e = AmbiguousRelease name v ∧ ambiguous_at l v ∧
               ∀ w, ambiguous_at l w → version_ge v w
  end.
Proof.
  induction 1 as [|a l Hl IH Ha].
  { intros v (x&y&[]%not_elem_of_nil&_). }
  destruct l as [|b l].
  { intros v (x&y&->%list_elem_of_singleton&->%list_elem_of_singleton&?&_). done. }
  assert (∀ x, x ∈ b :: l → version_ge (pr_version a) (pr_version x)) as Hge.
  { intros x Hx. apply release_le_version. rewrite list.Forall_forall in Ha. by apply Ha. }
  assert (∀ x, x ∈ b :: l → pr_version x = pr_version a → pr_version b = pr_version a) as Hnext.
  { intros x Hx Ex. apply version_ge_antisymm; [|apply Hge; by left].
    apply elem_of_cons in Hx as [->|Hx]; [rewrite Ex; apply version_ge_refl|].
    rewrite <-Ex. apply release_le_version. apply StronglySorted_inv in Hl as [_ Hb].
    rewrite list.Forall_forall in Hb. by apply Hb. }
  rewrite reject_ambiguous_cons. destruct (bool_decide _ && _) eqn:Ebad.
  - apply andb_true_iff in Ebad as [Ev%bool_decide_eq_true Eab%bool_decide_eq_true].
    exists (pr_version a). split; [done|]. split.
    + exists a, b. split_and!; try done; set_solver.
    + intros w (x&y&Hx&_&_&<-&_). apply elem_of_cons in Hx as [->|Hx]; [|by apply Hge].
      apply version_ge_refl.
  - assert (pr_version b = pr_version a → b = a) as Hsame.
    { intros Ev. rewrite Ev, bool_decide_eq_true_2 in Ebad by done.
      by apply bool_decide_eq_false, dec_stable in Ebad. }
    assert (∀ v, ambiguous_at (a :: b :: l) v → ambiguous_at (b :: l) v) as Hdown.
    { assert (∀ x y, x = a → y ∈ b :: l → x ≠ y → pr_version y = pr_version x →
        ambiguous_at (b :: l) (pr_version x)) as Hone.
      { intros x y -> Hy Hne Ey. pose proof (Hnext y Hy Ey) as Eb. rewrite (Hsame Eb) in *.
        exists a, y. split_and!; try done. by left. }
      intros v (x&y&Hx&Hy&Hne&<-&Ey). apply elem_of_cons in Hx as [Ex|Hx]; apply elem_of_cons in Hy as [Ey'|Hy'].
      - congruence.
      - by eapply Hone.
      - rewrite <-Ey. by eapply Hone.
      - by exists x, y. }
    destruct (reject_ambiguous name (b :: l)).
    + intros v Hv%Hdown. by eapply IH.
    + destruct IH as (v&->&(x&y&Hx&Hy&Hr)&Hmax). exists v. split; [done|]. split.
      * exists x, y. split_and!; try apply Hr; by right.
      * intros w Hw%Hdown. by apply Hmax.
Qed.

Lemma ambiguous_at_perm l k v : l ≡ₚ k → ambiguous_at l v → ambiguous_at k v.
Proof. intros Hp (a&b&Ha&Hb&Hr). exists a, b. by rewrite <-Hp. Qed.

(** Sorting and checking do not depend on the order of the releases. *)
Lemma sorted_checked_perm name l k :
  l ≡ₚ k →
  reject_ambiguous name (merge_sort release_le l) = reject_ambiguous name (merge_sort release_le k) ∧
  (reject_ambiguous name (merge_sort release_le l) = Ok tt →
   merge_sort release_le l = merge_sort release_le k).
Proof.
  intros Hp. set (sl := merge_sort release_le l). set (sk := merge_sort release_le k).
  assert (sl ≡ₚ sk) as Hs by (unfold sl, sk; by rewrite !merge_sort_Permutation).
  assert (StronglySorted release_le sl) as Sl by (apply StronglySorted_merge_sort; apply _).
  assert (StronglySorted release_le sk) as Sk by (apply StronglySorted_merge_sort; apply _).
  pose proof (reject_ambiguous_spec name sl Sl) as Rl. pose proof (reject_ambiguous_spec name sk Sk) as Rk.
  destruct (reject_ambiguous name sl) as [[]|el], (reject_ambiguous name sk) as [[]|ek].
  - split; [done|]. intros _. apply (StronglySorted_unique_strong release_le); [|done..].
    intros a b Ha Hb Hab%release_le_version Hba%release_le_version.
    destruct (decide (a = b)) as [|Hne]; [done|]. destruct (Rl (pr_version a)). exists a, b.
    rewrite Hs at 2. split_and!; try done. by apply version_ge_antisymm.
  - destruct Rk as (v&_&Hv&_). by destruct (Rl v (ambiguous_at_perm _ _ _ (symmetry Hs) Hv)).
  - destruct Rl as (v&_&Hv&_). by destruct (Rk v (ambiguous_at_perm _ _ _ Hs Hv)).
  - split; [|done]. destruct Rl as (v&->&Hv&Mv), Rk as (w&->&Hw&Mw). do 2 f_equal.
    apply version_ge_antisymm; [apply Mv|apply Mw]; by eapply ambiguous_at_perm.
Qed.
End releases.

(** ** The specification of a resolved graph *)

Section specification.
Context `{SV : SemVer} {SL : SemVerLaws} (index : string → list PackageRelease) (offline : bool) (root : gmap string string).

Abbreviation selection := (gmap string PackageRelease).

(** The root or a selected release depends on [name] with requirement [text]. *)
Definition demands (S : selection) (name text : string) : Prop :=
  root !! name = Some text ∨ ∃ n r, S !! n = Some r ∧ pr_dependencies r !! name = Some text.

(** Reachable from the root through selected releases. *)
Inductive required (S : selection) : string → Prop :=
| required_root name text : root !! name = Some text → required S name
| required_step n r name text :
    required S n → S !! n = Some r → pr_dependencies r !! name = Some text → required S name.

Definition is_exact (text : string) : bool := starts_with "=" (trim_start text).

Record solution (S : selection) : Prop := {
  sol_meets name text : demands S name text →
    ∃ req r, parse_requirement text = Ok req ∧ S !! name = Some r ∧
      requirement_matches req (pr_version r) = true;
  sol_known name r : S !! name = Some r → r ∈ index name;
  sol_valid name r : S !! name = Some r → validate_release r = Ok tt;
  sol_offline name r : S !! name = Some r → offline = true → pr_available_offline r = true;
  sol_withdrawn name r : S !! name = Some r → pr_yanked r = true →
    ∃ text req, demands S name text ∧ is_exact text = true ∧ parse_requirement text = Ok req ∧
      requirement_matches req (pr_version r) = true;
  sol_required name r : S !! name = Some r → required S name
}.

Lemma demands_mono S S' name text : S ⊆ S' → demands S name text → demands S' name text.
Proof. intros HS [?|(n&r&Hn&Hd)]; [by left|]. right. exists n, r. split; [by eapply lookup_weaken|done]. Qed.

Lemma required_mono S S' name : S ⊆ S' → required S name → required S' name.
Proof.
  intros HS. induction 1 as [|n r name text _ IH Hn Hd]; [by eapply required_root|].
  eapply required_step; [done|by eapply lookup_weaken|done].
Qed.

(** ** Constraints stand for demands *)

(** What [add_constraint] records. *)
Definition records (c : Constraint) (text : string) : Prop :=
  ct_text c = text ∧ parse_requirement text = Ok (requirement c) ∧ exact c = is_exact text.

Record constraints_ok (D : string → string → Prop) (cs : gmap string (list Constraint)) : Prop := {
  cs_demand name text : D name text → ∃ active c, cs !! name = Some active ∧ c ∈ active ∧ records c text;
  cs_record name active c : cs !! name = Some active → c ∈ active → ∃ text, D name text ∧ records c text;
  cs_nonempty name active : cs !! name = Some active → active ≠ []
}.

Lemma add_constraint_ok D cs package text origin cs' :
  constraints_ok D cs → add_constraint cs package text origin = Ok cs' →
  constraints_ok (λ n t, D n t ∨ (n = package ∧ t = text)) cs'.
Proof.
  unfold add_constraint. intros [Hd Hr Hn] Hadd. destruct (parse_requirement text) as [req|] eqn:Hp; [|done].
  injection Hadd as <-. set (c0 := {| requirement := req |}).
  assert (records c0 text) as Hrec by done. split.
  - intros name t. intros [(active&c&Ha&Hc&Ht)%Hd|[-> ->]].
    + destruct (decide (name = package)) as [->|Hne].
      * exists (active ++ [c0]), c. rewrite lookup_insert_eq, Ha. split_and!; [done| |done]. set_solver.
      * exists active, c. by rewrite lookup_insert_ne.
    + eexists _, c0. rewrite lookup_insert_eq. split_and!; [done| |done]. set_solver.
  - intros name active c Ha Hc. apply lookup_insert_Some in Ha as [[<- <-]|[Hne Ha]].
    + apply elem_of_app in Hc as [Hc| ->%list_elem_of_singleton]; [|by exists text; auto].
      destruct (cs !! package) as [active|] eqn:E; [|by apply not_elem_of_nil in Hc].
      destruct (Hr _ _ _ E Hc) as (t&?&?). eauto.
    + destruct (Hr _ _ _ Ha Hc) as (t&?&?). eauto.
  - intros name active Ha. apply lookup_insert_Some in Ha as [[<- <-]|[Hne Ha]]; [by destruct (default _ _)|eauto].
Qed.

Lemma constraints_ok_ext D D' cs :
  (∀ n t, D n t ↔ D' n t) → constraints_ok D cs → constraints_ok D' cs.
Proof.
  intros HD [Hd Hr Hn]. split; [|..|done].
  - intros name text ?%HD. by apply Hd.
  - intros name active c Ha Hc. destruct (Hr _ _ _ Ha Hc) as (t&?%HD&?). eauto.
Qed.

Lemma add_constraints_ok origin deps D cs cs' :
  constraints_ok D cs → add_constraints origin deps cs = Ok cs' →
  constraints_ok (λ n t, D n t ∨ (n, t) ∈ deps) cs'.
Proof.
  revert D cs. induction deps as [|[name text] deps IH]; intros D cs Hok; cbn [add_constraints].
  - intros [= <-]. eapply constraints_ok_ext; [|done]. set_solver.
  - destruct (add_constraint cs name text _) as [cs1|] eqn:E; [|done]. intros Hadd.
    eapply constraints_ok_ext; [|eapply IH; [by eapply add_constraint_ok|done]].
    intros n t. simpl. rewrite elem_of_cons. naive_solver.
Qed.

(** Constraints are only ever appended. *)
Lemma add_constraints_grows origin deps cs cs' name active :
  add_constraints origin deps cs = Ok cs' → cs !! name = Some active →
  ∃ more, cs' !! name = Some (active ++ more).
Proof.
  revert cs active. induction deps as [|[n text] deps IH]; intros cs active; cbn [add_constraints].
  { intros [= <-] ?. exists []. by rewrite app_nil_r. }
  unfold add_constraint. destruct (parse_requirement text) as [req|]; [|done]. intros Hadd Ha.
  destruct (decide (n = name)) as [->|Hne].
  - eapply IH in Hadd as [more Hm]; [|apply lookup_insert_eq]. rewrite Ha in Hm. simpl in Hm.
    rewrite <-app_assoc in Hm. eauto.
  - eapply IH in Hadd; [done|]. by rewrite lookup_insert_ne.
Qed.

Lemma add_constraints_error origin deps cs e p rs :
  add_constraints origin deps cs = Err e → e ≠ Conflict p rs.
Proof.
  revert cs. induction deps as [|[n text] deps IH]; intros cs; cbn [add_constraints]; [done|].
  unfold add_constraint. destruct (parse_requirement text); [apply IH|]. by intros [= <-].
Qed.

(** ** States of the search *)

Record search_ok (selected : selection) (cs : gmap string (list Constraint)) : Prop := {
  so_constraints : constraints_ok (demands selected) cs;
  so_selected n r : selected !! n = Some r →
    r ∈ index n ∧ validate_release r = Ok tt ∧ (offline = true → pr_available_offline r = true) ∧
    (∀ v, ¬ ambiguous_at (index n) v);
  so_withdrawn n r : selected !! n = Some r →
    ∃ active, cs !! n = Some active ∧ not_withdrawn active r = true;
  so_required n active : cs !! n = Some active → required selected n
}.

Lemma min_entry_elem l x : min_entry index offline l = Some x → x ∈ l.
Proof.
  revert x. induction l as [|y l IH]; intros x; simpl; [done|].
  destruct (min_entry index offline l) as [z|]; [|intros [= ->]; by left].
  intros [= <-]. destruct (better _ _ _ _); [right; by apply IH|by left].
Qed.

Lemma next_package_some selected cs name active :
  next_package index offline selected cs = Some (name, active) →
  selected !! name = None ∧ cs !! name = Some active.
Proof.
  intros H%min_entry_elem. apply list_elem_of_In, filter_In in H as [Hin%list_elem_of_In Hsel].
  apply elem_of_entries in Hin. apply negb_true_iff, bool_decide_eq_false in Hsel.
  split; [by apply eq_None_not_Some|done].
Qed.

Lemma next_package_none selected cs name active :
  next_package index offline selected cs = None → cs !! name = Some active → is_Some (selected !! name).
Proof.
  unfold next_package. intros H Ha.
  destruct (List.filter _ _) as [|x l] eqn:E; [|simpl in H; by destruct (min_entry _ _ l)].
  destruct (decide (is_Some (selected !! name))) as [|Hn]; [done|]. exfalso.
  assert ((name, active) ∈ @nil (string * list Constraint)) as []%not_elem_of_nil.
  rewrite <-E. apply list_elem_of_In, filter_In. rewrite <-list_elem_of_In, elem_of_entries.
  split; [done|]. by apply negb_true_iff, bool_decide_eq_false.
Qed.

Lemma violated_none selected cs n r active :
  violated selected cs = None → selected !! n = Some r → cs !! n = Some active → satisfies active r = true.
Proof.
  unfold violated. intros H Hr Ha. destruct (List.find _ _) as [[]|] eqn:E; [done|].
  assert ((n, r) ∈ entries selected) as Hin%list_elem_of_In by by apply elem_of_entries.
  apply (find_none _ _ E) in Hin. simpl in Hin. rewrite Ha in Hin. by apply negb_false_iff in Hin.
Qed.

Lemma violated_some selected cs name active :
  violated selected cs = Some (name, active) →
  ∃ r, selected !! name = Some r ∧ cs !! name = Some active ∧ satisfies active r = false.
Proof.
  unfold violated. destruct (List.find _ _) as [[n r]|] eqn:E; [|done]. intros [= <- <-].
  apply find_some in E as [Hin%list_elem_of_In E]. apply elem_of_entries in Hin.
  exists r. destruct (cs !! n); [|done]. by apply negb_true_iff in E.
Qed.

(** The releases tried for a package are its candidates. *)
Lemma compatible_releases_ok name active l :
  compatible_releases index offline name active = Ok l →
  (∀ v, ¬ ambiguous_at (index name) v) ∧
  ∀ r, r ∈ l ↔ r ∈ index name ∧ candidate active r = true ∧ (offline = true → pr_available_offline r = true).
Proof.
  unfold compatible_releases. set (sorted := merge_sort release_le (index name)).
  assert (sorted ≡ₚ index name) as Hp by apply merge_sort_Permutation.
  pose proof (reject_ambiguous_spec name sorted) as Hr.
  destruct (reject_ambiguous name sorted) as [[]|]; [|done]. intros H. split.
  { intros v Hv. apply (Hr ltac:(apply StronglySorted_merge_sort; apply _) v).
    eapply ambiguous_at_perm; [|done]. by symmetry. }
  assert (l = if offline then List.filter pr_available_offline (List.filter (candidate active) sorted)
              else List.filter (candidate active) sorted) as ->.
  { revert H. destruct offline; [|by intros [= <-]].
    destruct (List.find _ _); [|by intros [= <-]]. destruct (forallb _ _); [done|by intros [= <-]]. }
  intros r. rewrite <-Hp. destruct offline; rewrite !list_elem_of_In, ?filter_In; naive_solver.
Qed.

Lemma compatible_releases_error name active e p rs :
  compatible_releases index offline name active = Err e → e ≠ Conflict p rs.
Proof.
  unfold compatible_releases. set (sorted := merge_sort release_le (index name)).
  pose proof (reject_ambiguous_spec name sorted) as Hr.
  destruct (reject_ambiguous name sorted) as [[]|e'].
  - destruct offline; [|done]. destruct (List.find _ _); [|done]. destruct (forallb _ _); [|done]. by intros [= <-].
  - intros [= <-]. destruct (Hr ltac:(apply StronglySorted_merge_sort; apply _)) as (v&->&_). done.
Qed.

Lemma not_withdrawn_app active more r :
  not_withdrawn active r = true → not_withdrawn (active ++ more) r = true.
Proof.
  unfold not_withdrawn. rewrite existsb_app, !orb_true_iff. naive_solver.
Qed.

(** Selecting a candidate leads to another state of the search. *)
Lemma search_ok_step selected cs name active l r cs' :
  search_ok selected cs → next_package index offline selected cs = Some (name, active) →
  compatible_releases index offline name active = Ok l → r ∈ l → validate_release r = Ok tt →
  add_constraints (release_origin r) (entries (pr_dependencies r)) cs = Ok cs' →
  search_ok (<[name := r]> selected) cs'.
Proof.
  intros [Hc Hs Hw Hq] [Hfree Hactive]%next_package_some [Hamb Hl]%compatible_releases_ok Hr Hval Hadd.
  apply Hl in Hr as (Hin&Hcand&Hoff). apply andb_true_iff in Hcand as [_ Hnw].
  assert (selected ⊆ <[name:=r]> selected) as Hsub by by apply insert_subseteq.
  assert (constraints_ok (demands (<[name:=r]> selected)) cs') as Hcs'.
  { eapply constraints_ok_ext; [|by eapply add_constraints_ok]. intros n t. simpl. rewrite elem_of_entries. split.
    - intros [Hd|Hd]; [by eapply demands_mono|]. right. exists name, r. by rewrite lookup_insert_eq.
    - intros [Hd|(m&r'&Hm&Hd)]; [by left; left|]. apply lookup_insert_Some in Hm as [[<- <-]|[_ Hm]]; [by right|].
      left. right. eauto. }
  split; [done|..].
  - intros n r' [[<- <-]|[_ Hn]]%lookup_insert_Some; [done|by apply Hs].
  - intros n r' [[<- <-]|[_ Hn]]%lookup_insert_Some.
    + destruct (add_constraints_grows _ _ _ _ _ _ Hadd Hactive) as [more Hm].
      exists (active ++ more). split; [done|]. by apply not_withdrawn_app.
    + destruct (Hw n r' Hn) as (a&Ha&Hna). destruct (add_constraints_grows _ _ _ _ _ _ Hadd Ha) as [more Hm].
      exists (a ++ more). split; [done|]. by apply not_withdrawn_app.
  - intros n a Ha. pose proof (cs_nonempty _ _ Hcs' _ _ Ha) as Hne. destruct a as [|c a]; [done|].
    destruct (cs_record _ _ Hcs' _ _ c Ha ltac:(by left)) as (t&[Hroot|(m&r'&Hm&Hd)]&_); [by eapply required_root|].
    eapply required_step; [|exact Hm|exact Hd]. apply lookup_insert_Some in Hm as [[<- <-]|[_ Hm]].
    + eapply required_mono; [done|]. by eapply Hq.
    + eapply required_mono; [done|]. destruct (Hw m r' Hm) as (a'&Ha'&_). by eapply Hq.
Qed.

(** A state with nothing left to select and nothing violated is a solution. *)
Lemma search_ok_final selected cs :
  search_ok selected cs → violated selected cs = None → next_package index offline selected cs = None →
  solution selected.
Proof.
  intros [Hc Hs Hw Hq] Hv Hn. split.
  - intros name text Hd. destruct (cs_demand _ _ Hc _ _ Hd) as (active&c&Ha&Hin&_&Hp&_).
    destruct (next_package_none _ _ _ _ Hn Ha) as [r Hr]. exists (requirement c), r. split_and!; [done..|].
    pose proof (violated_none _ _ _ _ _ Hv Hr Ha) as Hsat. unfold satisfies in Hsat.
    rewrite forallb_forall in Hsat. by apply Hsat, list_elem_of_In.
  - intros name r Hr. by apply (Hs name r).
  - intros name r Hr. by apply (Hs name r).
  - intros name r Hr. by apply (Hs name r).
  - intros name r Hr Hy. destruct (Hw name r Hr) as (active&Ha&Hnw). unfold not_withdrawn in Hnw.
    rewrite Hy in Hnw. simpl in Hnw. apply existsb_exists in Hnw as (c&Hin%list_elem_of_In&[He Hm]%andb_true_iff).
    destruct (cs_record _ _ Hc _ _ c Ha Hin) as (text&Hd&_&Hp&Hex).
    exists text, (requirement c). split_and!; try done. by rewrite <-Hex.
  - intros name r Hr. destruct (Hw name r Hr) as (active&Ha&_). by eapply Hq.
Qed.

(** ** Soundness of the search *)

Abbreviation go := (search index offline).

Lemma try_releases_solved rec name selected cs releases last failed S failed' :
  try_releases rec name selected cs releases last failed = Some (Solved S, failed') →
  ∃ r next f1 f2, r ∈ releases ∧ validate_release r = Ok tt ∧
    add_constraints (release_origin r) (entries (pr_dependencies r)) cs = Ok next ∧
    rec (<[name := r]> selected) next f1 = Some (Ok S, f2).
Proof.
  revert last failed. induction releases as [|r releases IH]; intros last failed; cbn [try_releases]; [done|].
  destruct (validate_release r) as [[]|] eqn:Ev; [|done].
  destruct (add_constraints _ _ cs) as [next|] eqn:Ea; [|done].
  destruct (rec _ next failed) as [[[S'|[]] f2]|] eqn:Er; try done.
  - intros [= -> ->]. exists r, next, failed, failed'. split_and!; try done. by left.
  - intros (r'&next'&f1&f3&Hin&H)%IH. exists r', next', f1, f3. split; [by right|done].
Qed.

Lemma search_sound fuel selected cs failed S failed' :
  search_ok selected cs → go fuel selected cs failed = Some (Ok S, failed') → solution S.
Proof.
  revert selected cs failed failed'. induction fuel as [|fuel IH]; intros selected cs failed failed' Hok; [done|].
  cbn [search]. destruct (failure_of _ _); [done|].
  destruct (violated selected cs) as [[]|] eqn:Hv; [done|].
  destruct (next_package index offline selected cs) as [[name active]|] eqn:Hn;
    [|intros [= <- _]; by eapply search_ok_final].
  destruct (compatible_releases index offline name active) as [[|r0 l]|] eqn:Hc; [done| |done].
  destruct (try_releases _ _ _ _ _ _ _) as [[[S'|e|last] f]|] eqn:Ht; try done. intros [= -> _].
  apply try_releases_solved in Ht as (r&next&f1&f2&Hin&Hval&Hadd&Hrec).
  eapply IH; [|exact Hrec]. by eapply search_ok_step.
Qed.

(** ** Completeness of the search *)

Definition unyanked (S : selection) : Prop := ∀ n r, S !! n = Some r → pr_yanked r = false.

(** No graph of releases that are not withdrawn extends the selection. *)
Definition dead (selected : selection) : Prop := ∀ S, solution S → unyanked S → selected ⊆ S → False.

(** The fingerprint of a state determines its selection. *)
Lemma fingerprint_selected sel1 cs1 sel2 cs2 :
  search_ok sel1 cs1 → search_ok sel2 cs2 →
  state_fingerprint sel1 cs1 = state_fingerprint sel2 cs2 → sel1 = sel2.
Proof.
  assert (∀ a ca b cb n r, search_ok a ca → search_ok b cb →
    state_fingerprint a ca = state_fingerprint b cb → a !! n = Some r → b !! n = Some r) as Hhalf.
  { intros a ca b cb n r Ha Hb Hf Hn. apply (f_equal ss_selected) in Hf. simpl in Hf.
    assert ((n, pr_version r, pr_checksum r) ∈ (λ '(name, r), (name, pr_version r, pr_checksum r)) <$> entries a) as Hin.
    { apply list_elem_of_fmap. exists (n, r). by rewrite elem_of_entries. }
    rewrite Hf in Hin. apply list_elem_of_fmap in Hin as ([n' r']&[= <- Hv _]&Hn'%elem_of_entries).
    rewrite Hn'. f_equal. destruct (so_selected _ _ Ha _ _ Hn) as (Hi&_&_&Hamb).
    destruct (so_selected _ _ Hb _ _ Hn') as (Hi'&_). destruct (decide (r' = r)) as [|Hne]; [done|].
    destruct (Hamb (pr_version r)). by exists r', r. }
  intros H1 H2 Hf. apply map_eq. intros n. apply option_eq. intros r. split; intros Hn; eapply Hhalf.
  - exact H1.
  - exact H2.
  - done.
  - done.
  - exact H2.
  - exact H1.
  - by symmetry.
  - done.
Qed.

(** Every recorded failure is a conflict of a dead state. *)
Definition failed_ok (failed : list (SearchState * ResolveError)) : Prop :=
  ∀ st e, failure_of failed st = Some e →
    (∃ p rs, e = Conflict p rs) ∧
    ∀ selected cs, search_ok selected cs → state_fingerprint selected cs = st → dead selected.

Lemma failed_ok_cons failed selected cs p rs :
  failed_ok failed → search_ok selected cs → dead selected →
  failed_ok ((state_fingerprint selected cs, Conflict p rs) :: failed).
Proof.
  intros Hf Hok Hdead st e. unfold failure_of. simpl. case_bool_decide as Est.
  - intros [= <-]. split; [by eauto|]. intros sel' cs' Hok' Hst.
    by rewrite (fingerprint_selected sel' cs' selected cs) by (congruence || done).
  - apply Hf.
Qed.

(** The release a solution has for a constrained package is a candidate. *)
Lemma solution_candidate selected cs S name active :
  search_ok selected cs → solution S → unyanked S → selected ⊆ S → cs !! name = Some active →
  ∃ r, S !! name = Some r ∧ r ∈ index name ∧ candidate active r = true ∧
    (offline = true → pr_available_offline r = true).
Proof.
  intros Hok HS Hy Hsub Ha.
  assert (∀ c, c ∈ active → ∃ r, S !! name = Some r ∧ requirement_matches (requirement c) (pr_version r) = true) as Hall.
  { intros c Hc. destruct (cs_record _ _ (so_constraints _ _ Hok) _ _ c Ha Hc) as (t&Hd&_&Hp&_).
    destruct (sol_meets _ HS name t) as (req&r&Hp'&Hr&Hm); [by eapply demands_mono|].
    exists r. split; [done|]. congruence. }
  pose proof (cs_nonempty _ _ (so_constraints _ _ Hok) _ _ Ha) as Hne. destruct active as [|c0 active']; [done|].
  destruct (Hall c0) as (r&Hr&_); [by left|]. exists r. split; [done|].
  split; [by eapply sol_known|]. split; [|by intros; eapply sol_offline].
  unfold candidate, satisfies, not_withdrawn. rewrite (Hy _ _ Hr), andb_true_r. apply forallb_forall.
  intros c Hc%list_elem_of_In. destruct (Hall c Hc) as (r'&Hr'&Hm). by simplify_eq.
Qed.

Lemma try_releases_complete fuel name active selected cs all releases last failed t failed' :
  (∀ sel cs failed res failed', search_ok sel cs → failed_ok failed →
     go fuel sel cs failed = Some (res, failed') →
     failed_ok failed' ∧ ∀ p rs, res = Err (Conflict p rs) → dead sel) →
  search_ok selected cs → next_package index offline selected cs = Some (name, active) →
  compatible_releases index offline name active = Ok all → releases ⊆ all →
  (∀ e, last = Some e → ∃ p rs, e = Conflict p rs) → failed_ok failed →
  try_releases (go fuel) name selected cs releases last failed = Some (t, failed') →
  failed_ok failed' ∧
  match t with
  | Solved _ => True
  | Stopped e => ∀ p rs, e ≠ Conflict p rs
  | Exhausted last' => (∀ r, r ∈ releases → dead (<[name := r]> selected)) ∧
                       ∀ e, last' = Some e → ∃ p rs, e = Conflict p rs
  end.
Proof.
  intros IH Hok Hnext Hall. revert last failed. induction releases as [|r releases IHr]; intros last failed Hsub Hlast Hf;
    cbn [try_releases].
  { intros [= <- <-]. split; [done|]. split; [by intros r ?%not_elem_of_nil|done]. }
  destruct (validate_release r) as [[]|e] eqn:Ev.
  2: { intros [= <- <-]. split; [done|]. intros p rs ->. unfold validate_release in Ev.
       case_bool_decide; [done|]. by destruct (List.find _ _). }
  destruct (add_constraints _ _ cs) as [next|e] eqn:Ea.
  2: { intros [= <- <-]. split; [done|]. intros p rs. by eapply add_constraints_error. }
  assert (search_ok (<[name:=r]> selected) next) as Hok'.
  { eapply search_ok_step; [done..| |done|done]. apply Hsub. by left. }
  destruct (go fuel (<[name:=r]> selected) next failed) as [[res f2]|] eqn:Er; [|done].
  destruct (IH _ _ _ _ _ Hok' Hf Er) as [Hf2 Hdead].
  destruct res as [S|e]; [by intros [= <- <-]|].
  destruct e as [| p rs | | | |]; try (intros [= <- <-]; by split).
  intros Htry. destruct (IHr (Some (Conflict p rs)) f2) as [Hf' Ht]; [set_solver|naive_solver|done|done|].
  split; [done|]. destruct t as [|e'|last']; try done. destruct Ht as [Hd Hl]. split; [|done].
  intros r' [->|Hr']%elem_of_cons; [by eapply Hdead|by apply Hd].
Qed.

Lemma search_complete fuel selected cs failed res failed' :
  search_ok selected cs → failed_ok failed → go fuel selected cs failed = Some (res, failed') →
  failed_ok failed' ∧ ∀ p rs, res = Err (Conflict p rs) → dead selected.
Proof.
  revert selected cs failed res failed'. induction fuel as [|fuel IH]; intros selected cs failed res failed' Hok Hf; [done|].
  cbn [search]. destruct (failure_of failed _) as [e|] eqn:Ef.
  { intros [= <- <-]. split; [done|]. intros p rs _. destruct (Hf _ _ Ef) as [_ Hd]. by eapply Hd. }
  destruct (violated selected cs) as [[name active]|] eqn:Hv.
  { assert (dead selected) as Hdead.
    { apply violated_some in Hv as (r&Hr&Ha&Hsat). intros S HS Hy Hsub.
      destruct (solution_candidate _ _ S name active Hok HS Hy Hsub Ha) as (r'&Hr'&_&Hc&_).
      rewrite (lookup_weaken _ _ _ _ Hr Hsub) in Hr'. injection Hr' as <-.
      apply andb_true_iff in Hc as [Hc _]. congruence. }
    intros [= <- <-]. split; [by apply failed_ok_cons|by intros]. }
  destruct (next_package index offline selected cs) as [[name active]|] eqn:Hn; [|by intros [= <- <-]].
  pose proof (next_package_some _ _ _ _ Hn) as [_ Ha].
  destruct (compatible_releases index offline name active) as [all|e] eqn:Hc.
  2: { intros [= <- <-]. split; [done|]. intros p rs [= ->]. by destruct (compatible_releases_error _ _ _ p rs Hc). }
  assert ((∀ r, r ∈ all → dead (<[name:=r]> selected)) → dead selected) as Hdead.
  { intros Hd S HS Hy Hsub.
    destruct (solution_candidate _ _ S name active Hok HS Hy Hsub Ha) as (r&Hr&Hin&Hcand&Hoff).
    refine (Hd r _ S HS Hy _); [|by apply insert_subseteq_l]. by apply (compatible_releases_ok _ _ _ Hc). }
  destruct all as [|r0 l].
  { intros [= <- <-]. split; [done|]. intros _ _ _. apply Hdead. by intros r ?%not_elem_of_nil. }
  destruct (try_releases _ _ _ _ _ _ _) as [[t f]|] eqn:Ht; [|done].
  eapply (try_releases_complete fuel name active selected cs (r0 :: l)) in Ht as [Hf2 Ht]; [|done..].
  destruct t as [S|e|last].
  - by intros [= <- <-].
  - intros [= <- <-]. split; [done|]. intros p rs [= ->]. by destruct (Ht p rs).
  - destruct Ht as [Hd Hl]. intros [= <- <-].
    assert (∃ p rs, default (conflict name active) last = Conflict p rs) as (p&rs&->).
    { destruct last as [e|]; [by apply Hl|by eexists _, _]. }
    split; [apply failed_ok_cons; auto|]. intros _ _ _. by apply Hdead.
Qed.
End specification.
