(* ===== verification/ResolverClaims.v ===== *)
(** * Claims about package resolution

    Termination on a finite index, independence of the index's order, and the
    claims on [resolve], with a small instance of the version interface. *)

From Stdlib Require Import Ascii.
From stdpp Require Import base gmap list strings numbers sorting.
From S2P Require Import Prelude Text Resolver ResolverTheorems.
Open Scope string_scope.
Open Scope list_scope.

(** ** Budgets *)

Section budgets.
Context `{SV : SemVer} {SL : SemVerLaws} (index : string → list PackageRelease) (offline : bool).

Abbreviation selection := (gmap string PackageRelease).
Abbreviation failures := (list (SearchState * ResolveError)).
Abbreviation go := (search index offline).

Lemma try_releases_mono rec rec' name (selected : selection) cs releases last (failed : failures) x :
  (∀ sel cs failed x, rec sel cs failed = Some x → rec' sel cs failed = Some x) →
  try_releases rec name selected cs releases last failed = Some x →
  try_releases rec' name selected cs releases last failed = Some x.
Proof.
  intros Hrec. revert last failed. induction releases as [|r releases IH]; intros last failed; cbn [try_releases]; [done|].
  destruct (validate_release r); [|done]. destruct (add_constraints _ _ cs) as [next|]; [|done].
  destruct (rec _ next failed) as [y|] eqn:E; [|done]. rewrite (Hrec _ _ _ _ E).
  destruct y as [[|[]] ?]; try done. apply IH.
Qed.

Lemma search_mono fuel fuel' selected cs failed x :
  (fuel ≤ fuel')%nat → go fuel selected cs failed = Some x → go fuel' selected cs failed = Some x.
Proof.
  revert fuel' selected cs failed x. induction fuel as [|fuel IH]; intros [|fuel'] selected cs failed x Hle; try done; [lia|].
  cbn [search]. destruct (failure_of _ _); [done|]. destruct (violated _ _) as [[]|]; [done|].
  destruct (next_package _ _ _ _) as [[name active]|]; [|done].
  destruct (compatible_releases _ _ _ _) as [[|r l]|]; [done| |done].
  destruct (try_releases (go fuel) _ _ _ _ _ _) as [y|] eqn:E; [|done].
  rewrite (try_releases_mono _ (go fuel') _ _ _ _ _ _ _ (λ sel cs f x, IH fuel' sel cs f x ltac:(lia)) E).
  done.
Qed.

Lemma try_releases_total rec name (selected : selection) cs releases last (failed : failures) :
  (∀ r cs failed, r ∈ releases → is_Some (rec (<[name := r]> selected) cs failed)) →
  is_Some (try_releases rec name selected cs releases last failed).
Proof.
  revert last failed. induction releases as [|r releases IH]; intros last failed Hrec; cbn [try_releases]; [done|].
  destruct (validate_release r); [|done]. destruct (add_constraints _ _ cs) as [next|]; [|done].
  destruct (Hrec r next failed) as [[[|[]] ?] E]; [by left|..]; rewrite E; try done.
  apply IH. intros r' cs' f' Hr'. apply Hrec. by right.
Qed.

Context (names : gset string) (finite : ∀ n r, r ∈ index n → n ∈ names).

(** Each level of the search selects one more known name. *)
Lemma search_total fuel selected cs failed :
  (size (names ∖ dom selected) < fuel)%nat → is_Some (go fuel selected cs failed).
Proof.
  revert selected cs failed. induction fuel as [|fuel IH]; intros selected cs failed Hlt; [lia|].
  cbn [search]. destruct (failure_of _ _); [done|]. destruct (violated _ _) as [[]|]; [done|].
  destruct (next_package index offline selected cs) as [[name active]|] eqn:Hn; [|done].
  apply next_package_some in Hn as [Hfree _].
  destruct (compatible_releases index offline name active) as [[|r0 l]|] eqn:Hc; [done| |done].
  apply compatible_releases_ok in Hc as [_ Hl].
  assert (is_Some (try_releases (go fuel) name selected cs (r0 :: l) None failed)) as [[[S|e|last] f] ->]; [|done..].
  apply try_releases_total. intros r cs' f' Hr. apply IH.
  assert (size (names ∖ dom (<[name:=r]> selected)) < size (names ∖ dom selected))%nat; [|lia].
  apply subset_size. apply Hl in Hr as [Hin _]. apply finite in Hin. rewrite dom_insert.
  apply not_elem_of_dom in Hfree. set_solver.
Qed.
End budgets.

(** ** Order of the index *)

Section order.
Context `{SV : SemVer} {SL : SemVerLaws} (index index' : string → list PackageRelease) (offline : bool).
Context (same : ∀ n, index n ≡ₚ index' n).

Lemma filter_length_perm {A} (g : A → bool) l k :
  l ≡ₚ k → length (List.filter g l) = length (List.filter g k).
Proof. induction 1; simpl; repeat case_match; simpl; lia. Qed.

Lemma min_entry_perm l : min_entry index offline l = min_entry index' offline l.
Proof.
  induction l as [|x l IH]; simpl; [done|]. rewrite IH. destruct (min_entry index' offline l) as [y|]; [|done].
  unfold better, candidate_count. by rewrite !(filter_length_perm _ _ _ (same _)).
Qed.

Lemma compatible_releases_perm name active :
  compatible_releases index offline name active = compatible_releases index' offline name active.
Proof.
  unfold compatible_releases. destruct (sorted_checked_perm name _ _ (same name)) as [Hr Hs]. rewrite <-Hr.
  destruct (reject_ambiguous name (merge_sort release_le (index name))) as [[]|]; [|done].
  by rewrite (Hs eq_refl).
Qed.

Lemma search_perm fuel selected cs failed :
  search index offline fuel selected cs failed = search index' offline fuel selected cs failed.
Proof.
  revert selected cs failed. induction fuel as [|fuel IH]; intros selected cs failed; cbn [search]; [done|].
  destruct (failure_of _ _); [done|]. destruct (violated _ _) as [[]|]; [done|].
  unfold next_package. rewrite min_entry_perm. destruct (min_entry _ _ _) as [[name active]|]; [|done].
  rewrite compatible_releases_perm. destruct (compatible_releases _ _ _ _) as [[|r l]|]; [done| |done].
  assert (∀ releases last f, try_releases (search index offline fuel) name selected cs releases last f =
    try_releases (search index' offline fuel) name selected cs releases last f) as ->; [|done].
  induction releases as [|r' releases IHr]; intros last f; cbn [try_releases]; [done|].
  destruct (validate_release r'); [|done]. destruct (add_constraints _ _ cs); [|done].
  rewrite IH. by destruct (search _ _ _ _ _ _) as [[[|[]] ?]|].
Qed.

Lemma resolve_perm fuel deps : resolve index offline fuel deps = resolve index' offline fuel deps.
Proof. unfold resolve. destruct (add_constraints _ _ _); [|done]. by rewrite search_perm. Qed.
End order.

(** ** The index in memory *)

Section in_memory.
Context `{SV : SemVer}.

Lemma in_memory_index_releases releases n :
  index_releases (in_memory_index releases) n = List.filter (λ r, bool_decide (pr_name r = n)) releases.
Proof.
  unfold index_releases, in_memory_index. induction releases as [|r releases IH] using rev_ind; [done|].
  rewrite foldl_app, List.filter_app. simpl. case_bool_decide as Hn.
  - subst. by rewrite lookup_insert_eq, IH.
  - by rewrite lookup_insert_ne, IH, app_nil_r.
Qed.

Lemma in_memory_perm releases releases' n :
  releases ≡ₚ releases' →
  index_releases (in_memory_index releases) n ≡ₚ index_releases (in_memory_index releases') n.
Proof.
  intros Hp. rewrite !in_memory_index_releases. induction Hp; simpl; repeat case_match; try done.
  - by constructor.
  - apply Permutation_swap.
  - by etrans.
Qed.
End in_memory.

(** ** Resolution *)

Section resolution.
Context `{SV : SemVer} {SL : SemVerLaws} (index : string → list PackageRelease) (offline : bool).

Lemma initial_search_ok deps cs :
  add_constraints root_origin (entries deps) ∅ = Ok cs → search_ok index offline deps ∅ cs.
Proof.
  intros Hadd.
  assert (constraints_ok (demands deps ∅) cs) as Hcs.
  { eapply constraints_ok_ext; [|eapply (add_constraints_ok index _ _ (λ _ _, False)); [by split; [done|intros ??? ?%lookup_empty_Some|intros ?? ?%lookup_empty_Some]|done]].
    intros n t. simpl. rewrite elem_of_entries. split.
    - intros [[]|?]. by left.
    - intros [?|(m&r&Hm%lookup_empty_Some&_)]; [by right|done]. }
  split; [done|by intros ?? ?%lookup_empty_Some|by intros ?? ?%lookup_empty_Some|]. intros n active Ha.
  pose proof (cs_nonempty _ _ Hcs _ _ Ha). destruct active as [|c active]; [done|].
  destruct (cs_record _ _ Hcs _ _ c Ha ltac:(by left)) as (t&[Hroot|(m&r&Hm%lookup_empty_Some&_)]&_); [by eapply required_root|done].
Qed.

Lemma resolve_solution fuel deps res : resolve index offline fuel deps = Some (Ok res) →
  ∃ S, solution index offline deps S ∧ packages res = (λ '(_, r), locked_package S r) <$> entries S.
Proof.
  unfold resolve. destruct (add_constraints root_origin (entries deps) ∅) as [cs|] eqn:Hadd; [|done].
  destruct (search index offline fuel ∅ cs []) as [[[S|] f]|] eqn:Hs; [|done..]. intros [= <-].
  apply search_sound with (root := deps) in Hs; [|by apply initial_search_ok]. by exists S.
Qed.
End resolution.

(** C22: a resolved package graph is a solution: every requirement of the root
    and of every selected release is met by the selected release of that name;
    each selected release is in the index, has the digest of its content, is
    available when working offline, was withdrawn only if an exact requirement
    names it, and is reachable from the root; every path of its archive leads
    below the directory it is unpacked in; and the lockfile lists the graph by
    name. *)
Theorem resolution_sound `{SV : SemVer} {SL : SemVerLaws} index offline fuel deps res :
  resolve index offline fuel deps = Some (Ok res) →
  ∃ S, solution index offline deps S ∧
    packages res = (λ '(_, r), locked_package S r) <$> entries S ∧
    ∀ name r, S !! name = Some r →
      sha256_hex (pr_content r) = pr_checksum r ∧
      ∀ path dir, path ∈ pr_archive_paths r → ∃ child below, walk_path dir path = dir ++ child :: below.
Proof.
  intros (S & Hs & Hp)%resolve_solution. exists S. split; [done|]. split; [done|]. intros name r Hr. clear Hp.
  pose proof (sol_valid _ _ _ _ Hs name r Hr) as [Hd Hp]%validate_release_ok. split; [done|].
  intros path dir Hin. by apply safe_path_below, Hp.
Qed.

(** C23: a reported conflict is real: when resolution ends with a conflict, no
    solution exists whose releases are all still published, although the search
    cuts branches by the record of failed states. *)
Theorem conflict_means_unsolvable `{SV : SemVer} {SL : SemVerLaws} index offline fuel deps package reqs :
  resolve index offline fuel deps = Some (Err (Conflict package reqs)) →
  ¬ ∃ S, solution index offline deps S ∧ unyanked S.
Proof.
  unfold resolve. destruct (add_constraints root_origin (entries deps) ∅) as [cs|e] eqn:Hadd.
  - destruct (search index offline fuel ∅ cs []) as [[[S|e] f]|] eqn:Hs; [done| |done]. intros [= ->] (S&HS&Hy).
    eapply search_complete in Hs as [_ Hdead]; [|by apply initial_search_ok|done].
    eapply Hdead; [done|exact HS|exact Hy|apply map_empty_subseteq].
  - intros [= ->]. by eapply add_constraints_error in Hadd.
Qed.

(** C39: resolution against a finite index ends and is deterministic: with a
    budget of one step per known name and one more the result is reached, a
    larger budget does not change it, and neither does the order in which the
    releases were published. *)
Theorem resolution_terminates_deterministically `{SV : SemVer} {SL : SemVerLaws} releases offline deps :
  ∃ res, ∀ fuel releases',
    (S (size (list_to_set (pr_name <$> releases) : gset string)) ≤ fuel)%nat → releases' ≡ₚ releases →
    resolve (index_releases (in_memory_index releases')) offline fuel deps = Some res.
Proof.
  set (names := list_to_set (pr_name <$> releases) : gset string).
  set (index := index_releases (in_memory_index releases)).
  assert (∀ n r, r ∈ index n → n ∈ names) as Hfin.
  { intros n r. unfold index. rewrite in_memory_index_releases.
    rewrite list_elem_of_In, filter_In, <-list_elem_of_In. intros [Hr <-%bool_decide_eq_true].
    apply elem_of_list_to_set, list_elem_of_fmap. eauto. }
  assert (∃ res, ∀ fuel, (S (size names) ≤ fuel)%nat → resolve index offline fuel deps = Some res) as [res Hres].
  { unfold resolve. destruct (add_constraints root_origin (entries deps) ∅) as [cs|e]; [|by exists (Err e)].
    destruct (search_total index offline names Hfin (S (size names)) ∅ cs []) as [[r f] E].
    { rewrite dom_empty_L, difference_empty_L. lia. }
    destruct r as [S0|e]; eexists; intros fuel Hf; by rewrite (search_mono _ _ _ _ _ _ _ _ Hf E). }
  exists res. intros fuel releases' Hf Hp. rewrite <-(Hres fuel Hf). apply resolve_perm.
  intros n. by apply in_memory_perm.
Qed.

(** ** A small version scheme *)

(** Versions are numbers; [*] accepts all, [=n] and [n] accept one. *)
Module Numbers.
Definition digit (c : ascii) : option N :=
  let n := N_of_ascii c in if bool_decide (48 ≤ n ≤ 57)%N then Some (n - 48)%N else None.

Definition parse (text : string) : result (option N) string :=
  match text with
  | String "*" EmptyString => Ok None
  | String "=" (String c EmptyString) | String c EmptyString =>
      match digit c with Some n => Ok (Some n) | None => Err "expected a digit" end
  | _ => Err "malformed requirement"
  end.

Definition show (n : N) : string := String (ascii_of_N (48 + n)) EmptyString.

#[export] Instance numbers : SemVer := {|
  Version := N; version_cmp := N.compare; version_display := show;
  VersionReq := option N; parse_requirement := parse;
  requirement_matches req v := match req with Some n => N.eqb n v | None => true end;
  sha256_hex content := show (N.of_nat (length content))
|}.

#[export] Instance numbers_laws : SemVerLaws.
Proof.
  split; simpl.
  - apply N.compare_eq_iff.
  - intros a b. apply N.compare_antisym.
  - intros a b c. rewrite !N.compare_le_iff. lia.
Qed.

Definition release (name : string) (version : N) (deps : list (string * string)) (yanked available : bool)
    : PackageRelease := {|
  pr_name := name; pr_version := version : Version; pr_dependencies := list_to_map deps;
  pr_checksum := "0"; pr_content := []; pr_yanked := yanked; pr_available_offline := available;
  pr_archive_paths := ["src/main.syl"]
|}.
End Numbers.
Import Numbers.

(** The newest [a] needs a [b] that does not exist, the older one does not. *)
Definition backtracking : string → list PackageRelease :=
  index_releases (in_memory_index
    [release "a" 1 [("b", "1")] false true; release "a" 2 [("b", "9")] false true; release "b" 1 [] false true]).

Definition locked_versions (r : option (result Resolution ResolveError)) : list (string * N) :=
  match r with Some (Ok res) => (λ p, (lp_name p, lp_version p)) <$> packages res | _ => [] end.

(** The package a conflict is reported for. *)
Definition conflict_package (r : option (result Resolution ResolveError)) : option string :=
  match r with Some (Err (Conflict p _)) => Some p | _ => None end.

Lemma resolution_sound_witness :
  ∃ res, resolve backtracking true 5 {["a" := "*"]} = Some (Ok res) ∧
    locked_versions (Some (Ok res)) = [("a", 1%N); ("b", 1%N)] ∧
    ∃ S, solution backtracking true {["a" := "*"]} S.
Proof.
  assert (locked_versions (resolve backtracking true 5 {["a" := "*"]}) = [("a", 1%N); ("b", 1%N)]) as Hv
    by (vm_compute; reflexivity).
  destruct (resolve backtracking true 5 {["a" := "*"]}) as [[res|e]|] eqn:E; [|discriminate Hv..].
  exists res. split; [done|]. split; [exact Hv|].
  - destruct (resolution_sound backtracking true 5 {["a" := "*"]} res E) as (S&HS&_). by exists S.
Defined.

Lemma conflict_means_unsolvable_witness :
  ¬ ∃ S, solution backtracking false {["a" := "2"]} S ∧ unyanked S.
Proof.
  assert (conflict_package (resolve backtracking false 5 {["a" := "2"]}) = Some "b") as Hc
    by (vm_compute; reflexivity).
  destruct (resolve backtracking false 5 {["a" := "2"]}) as [[res|[]]|] eqn:E; try discriminate Hc.
  exact (conflict_means_unsolvable _ _ _ _ _ _ E).
Defined.

Lemma resolution_terminates_deterministically_witness :
  ∃ res, ∀ fuel releases',
    (S (size (list_to_set (pr_name <$> [release "a" 1 [("b", "1")] false true; release "b" 1 [] false true]) : gset string))
      ≤ fuel)%nat → releases' ≡ₚ [release "a" 1 [("b", "1")] false true; release "b" 1 [] false true] →
    resolve (index_releases (in_memory_index releases')) true fuel {["a" := "*"]} = Some res.
Proof. apply resolution_terminates_deterministically. Defined.

(** The package an offline resolution misses. *)
Definition missing_package (r : option (result Resolution ResolveError)) : option string :=
  match r with Some (Err (OfflineUnavailable p _)) => Some p | _ => None end.

Definition withdrawn_a : PackageRelease := release "a" 1 [] true true.
Definition exact_b : PackageRelease := release "b" 1 [("a", "=1")] false true.
Definition withdrawn_index : string → list PackageRelease :=
  index_releases (in_memory_index [withdrawn_a; exact_b]).

Definition old_a : PackageRelease := release "a" 1 [] false true.
Definition offline_index : string → list PackageRelease :=
  index_releases (in_memory_index
    [release "a" 2 [("b", "*")] false true; old_a; release "b" 1 [] false false]).

(** Entries of a map written out. *)
Ltac concrete_lookups :=
  repeat match goal with
  | H : _ !! _ = Some _ |- _ =>
      first [apply lookup_insert_Some in H as [[? ?]|[? H]]|apply lookup_singleton_Some in H as [? ?]
            |apply lookup_empty_Some in H; done]; subst; simpl in *
  end.

Lemma withdrawn_solution :
  solution withdrawn_index false {["a" := "*"; "b" := "*"]} {["a" := withdrawn_a; "b" := exact_b]}.
Proof.
  assert (∀ name text, demands {["a" := "*"; "b" := "*"]} {["a" := withdrawn_a; "b" := exact_b]} name text →
    (name = "a" ∧ (text = "*" ∨ text = "=1")) ∨ (name = "b" ∧ text = "*")) as Hd.
  { intros name text [Hr|(n&r&Hn&Hr)]; concrete_lookups; auto. }
  assert (demands {["a" := "*"; "b" := "*"]} {["a" := withdrawn_a; "b" := exact_b]} "a" "=1") as Hexact.
  { right. exists "b", exact_b. split; reflexivity. }
  split.
  - intros name text [[-> [->| ->]]|[-> ->]]%Hd; eexists _, _; (split; [reflexivity|]);
      (split; [reflexivity|]); reflexivity.
  - intros name r Hr. concrete_lookups; apply list_elem_of_In; by left.
  - intros name r Hr. concrete_lookups; reflexivity.
  - done.
  - intros name r Hr Hy. concrete_lookups; [|discriminate Hy]. exists "=1", (Some 1%N). split_and!; try done.
  - intros name r Hr. concrete_lookups; eapply required_root; reflexivity.
Qed.

Lemma offline_solution : solution offline_index true {["a" := "*"]} {["a" := old_a]}.
Proof.
  split.
  - intros name text [Hr|(n&r&Hn&Hr)]; concrete_lookups.
    eexists _, _; (split; [reflexivity|]); (split; [reflexivity|]); done.
  - intros name r Hr. concrete_lookups; apply list_elem_of_In; right; by left.
  - intros name r Hr. concrete_lookups; reflexivity.
  - intros name r Hr. by concrete_lookups.
  - intros name r Hr Hy. concrete_lookups. discriminate Hy.
  - intros name r Hr. concrete_lookups. eapply required_root. reflexivity.
Qed.

(** The search gives up where a solution exists: a withdrawn release is
    dropped because the exact requirement that allows it comes from a package
    selected later, and an archive that is missing offline below the newest
    release ends the search before the older release is tried. *)
Theorem resolution_incomplete :
  (conflict_package (resolve withdrawn_index false 9 {["a" := "*"; "b" := "*"]}) = Some "a" ∧
   ∃ S, solution withdrawn_index false {["a" := "*"; "b" := "*"]} S) ∧
  (missing_package (resolve offline_index true 9 {["a" := "*"]}) = Some "b" ∧
   ∃ S, solution offline_index true {["a" := "*"]} S).
Proof.
  split; (split; [vm_compute; reflexivity|]); eexists; [apply withdrawn_solution|apply offline_solution].
Qed.
