(* ===== verification/Modules.v ===== *)
(** * Module graph (crates/syllog-semantic/src/modules.rs)

    [analyze_modules] assembles logical modules from source files, resolves the
    imports between them, looks for a dependency cycle, hashes each module's
    public signatures and analyses every source with its imports installed.
    SHA-256 and the body analysis are parameters.  The maps keyed by [ModuleId]
    are [gmap N]; their iteration order is that of [id_entries].  A loop over
    [&mut modules] is a fold that threads the map. *)

From Stdlib Require Import Ascii.
From stdpp Require Import base gmap list strings numbers sorting.
From S2P Require Import Prelude Text Ir Hir Diagnostics Ast.
Open Scope string_scope.
Open Scope list_scope.

Record ModuleSource := { src_file : string; src_ast : Ast }.

Record QualifiedDefId := { qd_module : N; qd_index : N }.

Inductive ModuleDefinitionKind :=
| DefStruct | DefEnum | DefFunction | DefState | DefAgent | DefPipeline | DefSafetyBound.

Record ModuleDefinition := {
  md_id : QualifiedDefId;
  md_name : string;
  md_kind : ModuleDefinitionKind;
  md_public : bool;
  md_file : string;
  md_span : Span
}.

Record ResolvedImport := {
  ri_local_name : string;
  ri_definition : QualifiedDefId;
  ri_span : Span
}.

Record ResolvedModule := {
  rm_id : N;
  rm_name : string;
  rm_files : list string;
  rm_definitions : gmap string ModuleDefinition;
  rm_imports : gmap string ResolvedImport;
  rm_dependencies : gset N;
  rm_interface_hash : string
}.

Record PendingImport := { pi_owner : N; pi_file : string; pi_node : UseNode }.

#[export] Instance qualified_def_id_eq_dec : EqDecision QualifiedDefId.
Proof. solve_decision. Defined.

#[export] Instance qualified_def_id_countable : Countable QualifiedDefId.
Proof.
  apply (inj_countable' (λ d, (qd_module d, qd_index d)) (λ '(m, i), Build_QualifiedDefId m i)).
  by intros [].
Defined.

Abbreviation module_map := (gmap N ResolvedModule).
Abbreviation site_map := (gmap (N * N) (string * Span)).

Definition with_files (f : list string → list string) (m : ResolvedModule) : ResolvedModule :=
  {| rm_id := rm_id m; rm_name := rm_name m; rm_files := f (rm_files m);
     rm_definitions := rm_definitions m; rm_imports := rm_imports m;
     rm_dependencies := rm_dependencies m; rm_interface_hash := rm_interface_hash m |}.

Definition with_definition (d : ModuleDefinition) (m : ResolvedModule) : ResolvedModule :=
  {| rm_id := rm_id m; rm_name := rm_name m; rm_files := rm_files m;
     rm_definitions := <[md_name d := d]> (rm_definitions m); rm_imports := rm_imports m;
     rm_dependencies := rm_dependencies m; rm_interface_hash := rm_interface_hash m |}.

Definition with_dependency (id : N) (m : ResolvedModule) : ResolvedModule :=
  {| rm_id := rm_id m; rm_name := rm_name m; rm_files := rm_files m;
     rm_definitions := rm_definitions m; rm_imports := rm_imports m;
     rm_dependencies := {[id]} ∪ rm_dependencies m; rm_interface_hash := rm_interface_hash m |}.

Definition with_import (i : ResolvedImport) (m : ResolvedModule) : ResolvedModule :=
  {| rm_id := rm_id m; rm_name := rm_name m; rm_files := rm_files m;
     rm_definitions := rm_definitions m; rm_imports := <[ri_local_name i := i]> (rm_imports m);
     rm_dependencies := rm_dependencies m; rm_interface_hash := rm_interface_hash m |}.

Definition with_hash (h : string) (m : ResolvedModule) : ResolvedModule :=
  {| rm_id := rm_id m; rm_name := rm_name m; rm_files := rm_files m;
     rm_definitions := rm_definitions m; rm_imports := rm_imports m;
     rm_dependencies := rm_dependencies m; rm_interface_hash := h |}.

(** [error] *)
Definition module_error (code message file : string) (span : Span) : Diagnostic :=
  {| code := code; severity := SeverityError; message := Text message; file := file;
     diagnostic_span := span |}.

Definition path_name (path : list string) : string := join "::" path.

Definition quoted (s : string) : string := "'" +:+ s +:+ "'".

(** ** Declarations *)

Definition module_definition (module index : N) (file : string) (item : Item) : ModuleDefinition :=
  let '(name, kind, public, span) :=
    match item with
    | ItemStruct n => (sn_name n, DefStruct, sn_public n, sn_span n)
    | ItemEnum n => (en_name n, DefEnum, en_public n, en_span n)
    | ItemFunction n => (fnn_name n, DefFunction, fnn_public n, fnn_span n)
    | ItemState n => (stn_name n, DefState, stn_public n, stn_span n)
    | ItemAgent n => (ag_name n, DefAgent, ag_public n, ag_span n)
    | ItemPipeline n => (pn_name n, DefPipeline, pn_public n, pn_span n)
    | ItemSafetyBound n => (sb_name n, DefSafetyBound, sb_public n, sb_span n)
    end in
  {| md_id := {| qd_module := module; qd_index := index |}; md_name := name; md_kind := kind;
     md_public := public; md_file := file; md_span := span |}.

Definition item_identity (item : Item) : string * Span :=
  match item with
  | ItemStruct n => (sn_name n, sn_span n)
  | ItemEnum n => (en_name n, en_span n)
  | ItemFunction n => (fnn_name n, fnn_span n)
  | ItemState n => (stn_name n, stn_span n)
  | ItemAgent n => (ag_name n, ag_span n)
  | ItemPipeline n => (pn_name n, pn_span n)
  | ItemSafetyBound n => (sb_name n, sb_span n)
  end.

Definition item_public (item : Item) : bool :=
  match item with
  | ItemStruct n => sn_public n
  | ItemEnum n => en_public n
  | ItemFunction n => fnn_public n
  | ItemState n => stn_public n
  | ItemAgent n => ag_public n
  | ItemPipeline n => pn_public n
  | ItemSafetyBound n => sb_public n
  end.

(** ** Signatures *)

Fixpoint type_signature (ty : TypeNode) : string :=
  match ty with
  | mkType kind _ =>
      match kind with
      | TkReference lifetime mutable inner =>
          "&" +:+ match lifetime with Some name => "'" +:+ name +:+ " " | None => "" end
          +:+ (if mutable then "mut " else "") +:+ type_signature inner
      | TkPath segments arguments =>
          path_name segments +:+
          match arguments with
          | [] => ""
          | _ => "<" +:+ join "," (map type_signature arguments) +:+ ">"
          end
      | TkArray inner => "[" +:+ type_signature inner +:+ "]"
      | TkTuple items => "(" +:+ join "," (map type_signature items) +:+ ")"
      end
  end.

Definition show_bool (b : bool) : string := if b then "true" else "false".

Definition char_string (n : N) : string := String (ascii_of_N n) EmptyString.

Definition hex_digit (n : N) : string := char_string (if (n <? 10)%N then 48 + n else 87 + n).

(** One character of the derived [Debug] output of a string; a byte of a
    multi-byte character stands for itself. *)
Definition debug_char (c : ascii) : string :=
  let n := N_of_ascii c in
  if (n =? 0)%N then "\0" else if (n =? 9)%N then "\t" else if (n =? 10)%N then "\n"
  else if (n =? 13)%N then "\r" else if (n =? 34)%N then "\" +:+ char_string 34
  else if (n =? 92)%N then "\\" else if (n <? 16)%N then "\u{" +:+ hex_digit n +:+ "}"
  else if (n <? 32)%N || (n =? 127)%N
       then "\u{" +:+ hex_digit (n / 16) +:+ hex_digit (n mod 16) +:+ "}"
  else String c EmptyString.

Fixpoint debug_chars (s : string) : string :=
  match s with
  | EmptyString => ""
  | String c s => debug_char c +:+ debug_chars s
  end.

Definition debug_str (s : string) : string := char_string 34 +:+ debug_chars s +:+ char_string 34.

Definition item_signature (item : Item) : string :=
  match item with
  | ItemFunction n =>
      "fn " +:+ fnn_name n +:+ "(" +:+ join "," (map (λ p, type_signature (pa_ty p)) (fnn_parameters n))
      +:+ ")->" +:+ match fnn_return_type n with Some ty => type_signature ty | None => "()" end
      +:+ ";async=" +:+ show_bool (fnn_asynchronous n)
  | ItemStruct n =>
      "struct " +:+ sn_name n +:+ "{" +:+
      join "," (map (λ f, show_bool (sf_public f) +:+ ":" +:+ sf_name f +:+ ":" +:+ type_signature (sf_ty f))
                    (sn_fields n)) +:+ "}"
  | ItemEnum n =>
      "enum " +:+ en_name n +:+ "{" +:+
      join "," (map (λ v, ev_name v +:+ "(" +:+ join "," (map type_signature (ev_fields v)) +:+ ")")
                    (en_variants n)) +:+ "}"
  | ItemState n =>
      "state " +:+ stn_name n +:+ ":[" +:+
      join ", " (map (λ f, "(" +:+ debug_str (stf_name f) +:+ ", " +:+ debug_str (type_signature (stf_ty f)) +:+ ")")
                     (stn_fields n)) +:+ "]"
  | ItemAgent n => "agent " +:+ ag_name n
  | ItemPipeline n => "pipeline " +:+ pn_name n
  | ItemSafetyBound n => "safety_bound " +:+ sb_name n
  end.

(** The module a source declares. *)
Definition source_module (s : ModuleSource) : option string :=
  match ast_module (src_ast s) with Some m => Some (path_name (mn_path m)) | None => None end.

(** The text [interface_hash] digests. *)
Definition interface_text (name : string) (sources : list ModuleSource) : string :=
  join (char_string 10) (merge_sort string_le
    (flat_map (λ s, map item_signature (List.filter item_public (ast_items (src_ast s))))
      (List.filter (λ s, bool_decide (source_module s = Some name)) sources))).

(** ** Collection *)

Record CollectedSources := {
  cl_modules : module_map;
  cl_next : gmap N N;
  cl_pending : list PendingImport;
  cl_diagnostics : list Diagnostic
}.

(** The body of the loop over a source's items. *)
Definition collect_item (id : N) (name file : string) (c : CollectedSources) (item : Item) : CollectedSources :=
  let index := default 0%N (cl_next c !! id) in
  let d := module_definition id index file item in
  let next := <[id := u32_saturating_add index 1]> (cl_next c) in
  if bool_decide (is_Some (cl_modules c !! id ≫= λ m, rm_definitions m !! md_name d)) then
    {| cl_modules := cl_modules c; cl_next := next; cl_pending := cl_pending c;
       cl_diagnostics := cl_diagnostics c ++
         [module_error "SYL2403" ("duplicate definition " +:+ quoted (md_name d) +:+
           " exported by module " +:+ quoted name) file (md_span d)] |}
  else
    {| cl_modules := alter (with_definition d) id (cl_modules c); cl_next := next;
       cl_pending := cl_pending c; cl_diagnostics := cl_diagnostics c |}.

(** The body of the loop over the sources. *)
Definition collect_source (ids : gmap string N) (c : CollectedSources) (s : ModuleSource) : CollectedSources :=
  match source_module s with
  | None =>
      {| cl_modules := cl_modules c; cl_next := cl_next c; cl_pending := cl_pending c;
         cl_diagnostics := cl_diagnostics c ++
           [module_error "SYL2400" "project source must declare a module" (src_file s)
              (ast_span (src_ast s))] |}
  | Some name =>
      match ids !! name with
      | None => c
      | Some id =>
          match cl_modules c !! id with
          | None => c
          | Some _ =>
              let c := {| cl_modules := alter (with_files (λ l, l ++ [src_file s])) id (cl_modules c);
                          cl_next := cl_next c; cl_pending := cl_pending c;
                          cl_diagnostics := cl_diagnostics c |} in
              let c := foldl (collect_item id name (src_file s)) c (ast_items (src_ast s)) in
              {| cl_modules := cl_modules c; cl_next := cl_next c;
                 cl_pending := cl_pending c ++
                   map (λ node, {| pi_owner := id; pi_file := src_file s; pi_node := node |})
                       (ast_imports (src_ast s));
                 cl_diagnostics := cl_diagnostics c |}
          end
      end
  end.

Definition collect_sources (sources : list ModuleSource) (ids : gmap string N) (modules : module_map)
    : CollectedSources :=
  foldl (collect_source ids)
    {| cl_modules := modules; cl_next := ∅; cl_pending := []; cl_diagnostics := [] |} sources.

(** ** Imports *)

Record Linked := {
  lk_modules : module_map;
  lk_sites : site_map;
  lk_diagnostics : list Diagnostic
}.

(** [path.split_last()] *)
Definition split_last (path : list string) : option (string * list string) :=
  match rev path with [] => None | symbol :: front => Some (symbol, rev front) end.

(** [diagnostics.push(error(..)); continue] for an import. *)
Definition reject (l : Linked) (p : PendingImport) (code message : string) : Linked :=
  {| lk_modules := lk_modules l; lk_sites := lk_sites l;
     lk_diagnostics := lk_diagnostics l ++ [module_error code message (pi_file p) (un_span (pi_node p))] |}.

(** [dependency_sites.entry(key).or_insert_with(..)] *)
Definition entry_or_insert {V} (key : N * N) (v : V) (sites : gmap (N * N) V) : gmap (N * N) V :=
  match sites !! key with Some _ => sites | None => <[key := v]> sites end.

(** The end of the loop body: record the dependency, then the import. *)
Definition link_import (l : Linked) (p : PendingImport) (owner : ResolvedModule) (target : N)
    (symbol : string) (d : ModuleDefinition) : Linked :=
  let local_name := default symbol (un_alias (pi_node p)) in
  let l := {| lk_modules := alter (with_dependency target) (pi_owner p) (lk_modules l);
              lk_sites := entry_or_insert (pi_owner p, target) (pi_file p, un_span (pi_node p)) (lk_sites l);
              lk_diagnostics := lk_diagnostics l |} in
  if bool_decide (is_Some (rm_definitions owner !! local_name))
     || bool_decide (is_Some (rm_imports owner !! local_name))
  then reject l p "SYL2403" ("duplicate local name " +:+ quoted local_name)
  else {| lk_modules := alter (with_import {| ri_local_name := local_name; ri_definition := md_id d;
                                              ri_span := un_span (pi_node p) |})
                          (pi_owner p) (lk_modules l);
          lk_sites := lk_sites l; lk_diagnostics := lk_diagnostics l |}.

Definition resolve_import (ids : gmap string N) (l : Linked) (p : PendingImport) : Linked :=
  match split_last (un_path (pi_node p)) with
  | None => l
  | Some (symbol, module_path) =>
      let module_name := path_name module_path in
      match ids !! module_name with
      | None => reject l p "SYL2401" ("unknown imported module " +:+ quoted module_name)
      | Some target =>
          match lk_modules l !! target ≫= λ m, rm_definitions m !! symbol with
          | None => reject l p "SYL2401" ("module " +:+ quoted module_name +:+ " has no definition "
                                          +:+ quoted symbol)
          | Some d =>
              if negb (md_public d)
              then reject l p "SYL2402" ("definition " +:+ quoted (module_name +:+ "::" +:+ symbol)
                                         +:+ " is private")
              else match lk_modules l !! pi_owner p with
                   | None => l
                   | Some owner => link_import l p owner target symbol d
                   end
          end
      end
  end.

Definition resolve_imports (ids : gmap string N) (modules : module_map) (pending : list PendingImport)
    (diagnostics : list Diagnostic) : Linked :=
  foldl (resolve_import ids)
    {| lk_modules := modules; lk_sites := ∅; lk_diagnostics := diagnostics |} pending.

(** ** Dependency cycles *)

Section cycles.
Context (modules : module_map).

Abbreviation states := (gmap N N).

(** A visit's loop either returns from the function or runs to its end. *)
Inductive Walked :=
| Returned (cycle : option (list N)) (s : states) (stack : list N)
| Completed (s : states) (stack : list N).

Definition neighbors (m : ResolvedModule) : list N := merge_sort N.le (elements (rm_dependencies m)).

(** [stack.iter().position(|candidate| candidate == neighbor)] *)
Fixpoint position (x : N) (l : list N) : option nat :=
  match l with
  | [] => None
  | y :: l => if bool_decide (y = x) then Some 0%nat else S <$> position x l
  end.

Fixpoint visit_neighbors (visit : N → states → list N → option (option (list N) * states * list N))
    (l : list N) (s : states) (stack : list N) : option Walked :=
  match l with
  | [] => Some (Completed s stack)
  | neighbor :: l =>
      match default 0%N (s !! neighbor) with
      | 0%N =>
          match visit neighbor s stack with
          | None => None
          | Some (Some cycle, s, stack) => Some (Returned (Some cycle) s stack)
          | Some (None, s, stack) => visit_neighbors visit l s stack
          end
      | 1%N =>
          match position neighbor stack with
          | None => Some (Returned None s stack)
          | Some start => Some (Returned (Some (drop start stack ++ [neighbor])) s stack)
          end
      | _ => visit_neighbors visit l s stack
      end
  end.

Fixpoint visit (fuel : nat) (node : N) (s : states) (stack : list N)
    : option (option (list N) * states * list N) :=
  match fuel with
  | O => None
  | S fuel =>
      let s := <[node := 1%N]> s in
      let stack := stack ++ [node] in
      match modules !! node with
      | None => Some (None, s, stack)
      | Some m =>
          match visit_neighbors (visit fuel) (neighbors m) s stack with
          | None => None
          | Some (Returned cycle s stack) => Some (cycle, s, stack)
          | Some (Completed s stack) => Some (None, <[node := 2%N]> s, removelast stack)
          end
      end
  end.

Fixpoint visit_roots (fuel : nat) (roots : list N) (s : states) (stack : list N)
    : option (option (list N)) :=
  match roots with
  | [] => Some None
  | id :: roots =>
      if bool_decide (default 0%N (s !! id) = 0%N) then
        match visit fuel id s stack with
        | None => None
        | Some (Some cycle, _, _) => Some (Some cycle)
        | Some (None, s, stack) => visit_roots fuel roots s stack
        end
      else visit_roots fuel roots s stack
  end.

(** Each nested visit marks one more module, so their number bounds the depth. *)
Definition find_cycle : option (option (list N)) :=
  visit_roots (S (size modules)) (id_entries modules).*1 ∅ [].
End cycles.

Definition cycle_diagnostic (modules : module_map) (sites : site_map) (cycle : list N)
    : list Diagnostic :=
  match head cycle ≫= λ id, modules !! id with
  | None => []
  | Some first =>
      let site :=
        default (default "" (head (rm_files first)), default_span)
          match cycle with a :: b :: _ => sites !! (a, b) | _ => None end in
      [module_error "SYL2404"
         ("module dependency cycle: " +:+
          join " -> " (omap (λ id, rm_name <$> modules !! id) cycle)) site.1 site.2]
  end.

(** ** The whole analysis *)

Definition source_le (a b : ModuleSource) : bool := bool_decide (string_le (src_file a) (src_file b)).

(** [names.into_iter().enumerate()] collected into a map. *)
Definition module_ids (sources : list ModuleSource) : gmap string N :=
  list_to_map (imap (λ i name, (name, u32_of_index i)) (sort_strings (omap source_module sources))).

Definition empty_module (name : string) (id : N) : ResolvedModule :=
  {| rm_id := id; rm_name := name; rm_files := []; rm_definitions := ∅; rm_imports := ∅;
     rm_dependencies := ∅; rm_interface_hash := "" |}.

(** Collecting [ids.iter()] into a map by id: a later entry replaces an earlier one. *)
Definition empty_modules (ids : gmap string N) : module_map :=
  foldl (λ m '(name, id), <[id := empty_module name id]> m) ∅ (entries ids).

(** [analyze_modules] up to the search for a cycle, on sorted sources. *)
Definition link_sources (sources : list ModuleSource) : Linked :=
  let ids := module_ids sources in
  let c := collect_sources sources ids (empty_modules ids) in
  resolve_imports ids (cl_modules c) (cl_pending c) (cl_diagnostics c).

Section analysis.
Context {Analysis : Type} (analysis_diagnostics : Analysis → list Diagnostic)
        (analyze_with_imports : string → Ast → list (string * Item) → Analysis)
        (sha256 : string → string).

Definition interface_hash (m : ResolvedModule) (sources : list ModuleSource) : string :=
  sha256 (interface_text (rm_name m) sources).

(** The declaration a definition came from. *)
Definition definition_item (sources : list ModuleSource) (d : ModuleDefinition) : option Item :=
  match List.find (λ s, bool_decide (src_file s = md_file d)) sources with
  | None => None
  | Some s =>
      List.find (λ item, bool_decide (item_identity item = (md_name d, md_span d))) (ast_items (src_ast s))
  end.

Definition module_list (modules : module_map) : list ResolvedModule := (id_entries modules).*2.

Definition definition_items (sources : list ModuleSource) (modules : module_map)
    : gmap QualifiedDefId Item :=
  foldl (λ items d,
      match definition_item sources d with
      | Some item => <[md_id d := item]> items
      | None => items
      end) ∅
    (flat_map (λ m, (entries (rm_definitions m)).*2) (module_list modules)).

(** The names installed before a source's own declarations: its module's
    imports and the definitions of its module's other files. *)
Definition visible_imports (items : gmap QualifiedDefId Item) (m : ResolvedModule) (s : ModuleSource)
    : list (string * Item) :=
  omap (λ '(_, i), (λ item, (ri_local_name i, item)) <$> items !! ri_definition i)
    (entries (rm_imports m)) ++
  omap (λ '(_, d),
      if bool_decide (md_file d = src_file s)
         || existsb (λ item, bool_decide ((item_identity item).1 = md_name d)) (ast_items (src_ast s))
      then None
      else (λ item, (md_name d, item)) <$> items !! md_id d)
    (entries (rm_definitions m)).

Definition analyze_source_bodies (sources : list ModuleSource) (modules : module_map)
    : gmap string Analysis :=
  let items := definition_items sources modules in
  foldl (λ analyses s,
      match source_module s with
      | None => analyses
      | Some name =>
          match List.find (λ m, bool_decide (rm_name m = name)) (module_list modules) with
          | None => analyses
          | Some m =>
              <[src_file s := analyze_with_imports (src_file s) (src_ast s) (visible_imports items m s)]>
                analyses
          end
      end) ∅ sources.

(** The order in which diagnostics are listed: file, start, code. *)
Definition diagnostic_le (a b : Diagnostic) : bool :=
  if bool_decide (file a = file b) then
    if bool_decide (span_start (diagnostic_span a) = span_start (diagnostic_span b))
    then bool_decide (string_le (code a) (code b))
    else bool_decide (span_start (diagnostic_span a) < span_start (diagnostic_span b))%N
  else bool_decide (string_le (file a) (file b)).

Record ModuleAnalysis := {
  ma_modules : list ResolvedModule;
  ma_source_analyses : gmap string Analysis;
  ma_diagnostics : list Diagnostic
}.

(** [None] when the budget of [find_cycle] is too small. *)
Definition analyze_modules (sources : list ModuleSource) : option ModuleAnalysis :=
  let sources := stable_sort source_le sources in
  let l := link_sources sources in
  match find_cycle (lk_modules l) with
  | None => None
  | Some found =>
      let cycle := match found with
                   | Some c => cycle_diagnostic (lk_modules l) (lk_sites l) c
                   | None => []
                   end in
      let modules := (λ m, with_hash (interface_hash m sources) m) <$> lk_modules l in
      let analyses := analyze_source_bodies sources modules in
      Some {| ma_modules := module_list modules;
              ma_source_analyses := analyses;
              ma_diagnostics := stable_sort diagnostic_le
                (lk_diagnostics l ++ cycle ++
                 flat_map (λ '(_, a), analysis_diagnostics a) (entries analyses)) |}
  end.

(** [ModuleAnalysis::module] *)
Definition find_module (a : ModuleAnalysis) (name : string) : option ResolvedModule :=
  List.find (λ m, bool_decide (rm_name m = name)) (ma_modules a).
End analysis.
