(* ===== verification/ModuleCycles.v ===== *)
(** * Search for dependency cycles

    [find_cycle] is a depth-first search with the usual three states: absent
    (not seen), 1 (on the stack) and 2 (finished).  The invariant [dfs] says the
    stack is a path of dependencies holding exactly the nodes in state 1, and
    the finished nodes are closed under dependencies and lie on no cycle. *)

From stdpp Require Import base gmap list numbers sorting relations.
From S2P Require Import Prelude Text Ast Modules.

(** A list that follows a relation. *)
Definition follows {A} (R : relation A) (l : list A) : Prop :=
  ∀ i a b, l !! i = Some a → l !! S i = Some b → R a b.

Lemma follows_snoc {A} (R : relation A) l x :
  follows R l → (∀ y, last l = Some y → R y x) → follows R (l ++ [x]).
Proof.
  intros Hl Hx i a b Ha Hb. apply lookup_app_Some in Hb as [Hb|[Hge Hb]].
  - assert (i < length l)%nat by (apply lookup_lt_Some in Hb; lia).
    rewrite lookup_app_l in Ha by done. by eapply Hl.
  - apply list_lookup_singleton_Some in Hb as [Hi <-].
    assert (length l = S i)%nat as Hlen by lia. rewrite lookup_app_l in Ha by lia.
    apply Hx. by rewrite last_lookup, Hlen.
Qed.

Lemma follows_drop {A} (R : relation A) l n : follows R l → follows R (drop n l).
Proof.
  intros Hl i a b. rewrite !lookup_drop. intros Ha Hb. eapply Hl; [exact Ha|].
  by replace (S (n + i))%nat with (n + S i)%nat by lia.
Qed.

(** A cycle as it is reported: it starts and ends at one node, follows the
    relation and visits no other node twice. *)
Record is_cycle {A} (R : relation A) (c : list A) : Prop := {
  cycle_closed : ∃ a mid, c = a :: mid ++ [a];
  cycle_follows : follows R c;
  cycle_simple : NoDup (removelast c)
}.

Section cycles.
Context (modules : gmap N ResolvedModule).

Definition depends (a b : N) : Prop := ∃ m, modules !! a = Some m ∧ b ∈ rm_dependencies m.

Lemma elem_of_neighbors m b : b ∈ neighbors m ↔ b ∈ rm_dependencies m.
Proof. unfold neighbors. by rewrite merge_sort_Permutation, elem_of_elements. Qed.

Lemma position_Some x l i : position x l = Some i → l !! i = Some x.
Proof.
  revert i. induction l as [|y l IH]; intros i; simpl; [done|]. case_bool_decide as E; [by intros [= <-]; subst|].
  destruct (position x l) as [j|]; simpl; [|done]. intros [= <-]. by apply IH.
Qed.

Lemma position_None x l : position x l = None → x ∉ l.
Proof.
  induction l as [|y l IH]; simpl; [intros _; apply not_elem_of_nil|]. case_bool_decide; [done|].
  destruct (position x l); simpl; [done|]. intros _. apply not_elem_of_cons. by split; [congruence|apply IH].
Qed.

Abbreviation states := (gmap N N).

Record dfs (s : states) (stack : list N) : Prop := {
  dfs_states : ∀ a n, s !! a = Some n → n = 1%N ∨ n = 2%N;
  dfs_known : ∀ a n, s !! a = Some n → is_Some (modules !! a);
  dfs_stack : ∀ a, s !! a = Some 1%N ↔ a ∈ stack;
  dfs_nodup : NoDup stack;
  dfs_path : follows depends stack;
  dfs_closed : ∀ a b, s !! a = Some 2%N → depends a b → s !! b = Some 2%N;
  dfs_acyclic : ∀ a, s !! a = Some 2%N → ¬ tc depends a a
}.

(** What was finished stays finished. *)
Definition dfs_extends (s s' : states) : Prop :=
  dom s ⊆ dom s' ∧ ∀ a, s !! a = Some 2%N → s' !! a = Some 2%N.

Lemma dfs_extends_refl s : dfs_extends s s.
Proof. by split. Qed.

Lemma dfs_extends_trans s1 s2 s3 : dfs_extends s1 s2 → dfs_extends s2 s3 → dfs_extends s1 s3.
Proof. intros [? ?] [? ?]. split; [set_solver|auto]. Qed.

Definition good (stack : list N) (cycle : option (list N)) (s s' : states) (stack' : list N) : Prop :=
  match cycle with
  | Some c => is_cycle depends c
  | None => dfs s' stack' ∧ stack' = stack ∧ dfs_extends s s'
  end.

Lemma dfs_enter s stack a :
  dfs s stack → s !! a = None → is_Some (modules !! a) →
  (∀ y, last stack = Some y → depends y a) →
  dfs (<[a := 1%N]> s) (stack ++ [a]).
Proof.
  intros [H1 H2 H3 H4 H5 H6 H7] Hnew Hm Hlast. split.
  - intros b n [[_ <-]|[_ Hb]]%lookup_insert_Some; [by left|by eapply H1].
  - intros b n [[<- _]|[_ Hb]]%lookup_insert_Some; [done|by eapply H2].
  - intros b. rewrite elem_of_app, list_elem_of_singleton, lookup_insert_Some, <-H3. naive_solver congruence.
  - apply NoDup_app. split; [done|]. split; [|apply NoDup_singleton].
    intros b Hb%H3 ->%list_elem_of_singleton. congruence.
  - by apply follows_snoc.
  - intros b c. rewrite !lookup_insert_Some. intros [[_ ?]|[Hne Hb]] Hd; [done|].
    pose proof (H6 _ _ Hb Hd). right. split; [congruence|done].
  - intros b [[_ ?]|[_ Hb]]%lookup_insert_Some; [done|by apply H7].
Qed.

(** The nodes reachable from a closed set stay in it. *)
Lemma closed_tc (P : N → Prop) a b : (∀ a b, P a → depends a b → P b) → P a → tc depends a b → P b.
Proof. intros Hc Ha Ht. revert Ha. induction Ht; eauto. Qed.

Lemma dfs_leave s stack a m :
  dfs s (stack ++ [a]) → modules !! a = Some m →
  (∀ b, b ∈ rm_dependencies m → s !! b = Some 2%N) →
  dfs (<[a := 2%N]> s) stack.
Proof.
  intros [H1 H2 H3 H4 H5 H6 H7] Hm Hdone.
  assert (s !! a = Some 1%N) as Ha by (apply H3; set_solver).
  assert (∀ b, depends a b → s !! b = Some 2%N) as Hout.
  { intros b (m'&Hm'&Hb). replace m' with m in Hb by congruence. by apply Hdone. }
  apply NoDup_app in H4 as (H4&H4'&_). split.
  - intros b n [[_ <-]|[_ Hb]]%lookup_insert_Some; [by right|by eapply H1].
  - intros b n [[<- _]|[_ Hb]]%lookup_insert_Some; [by rewrite Hm|by eapply H2].
  - intros b. rewrite lookup_insert_Some, H3, elem_of_app, list_elem_of_singleton.
    split; [naive_solver|]. intros Hb. right. split; [|by left]. intros ->. eapply H4'; [done|]. set_solver.
  - done.
  - intros i x y Hx Hy. eapply H5; by apply lookup_app_l_Some.
  - intros b c Hb Hd. apply lookup_insert_Some.
    destruct (decide (c = a)) as [->|Hca]; [by left|]. right. split; [done|].
    apply lookup_insert_Some in Hb as [[<- _]|[_ Hb]]; [by apply Hout|by eapply H6].
  - intros b Hb Hcycle. apply lookup_insert_Some in Hb as [[<- _]|[_ Hb]]; [|by eapply H7].
    assert (∃ c, depends a c ∧ (c = a ∨ tc depends c a)) as (c&Hac&Hca).
    { inversion Hcycle; subst; eauto. }
    pose proof (Hout _ Hac) as Hc2. destruct Hca as [->|Hca]; [congruence|].
    enough (s !! a = Some 2%N) by congruence.
    by eapply (closed_tc (λ x, s !! x = Some 2%N)).
Qed.

(** A dependency on a node of the stack closes a cycle. *)
Lemma stack_cycle s stack i b :
  dfs s stack → stack !! i = Some b → (∀ y, last stack = Some y → depends y b) →
  is_cycle depends (drop i stack ++ [b]).
Proof.
  intros Hd Hi Hlast.
  assert (∃ rest, drop i stack = b :: rest) as [rest Hr].
  { exists (drop (S i) stack). by apply drop_S. }
  split.
  - exists b, rest. by rewrite Hr.
  - apply follows_snoc; [apply follows_drop, Hd|]. intros y Hy. apply Hlast.
    assert (last (take i stack ++ drop i stack) = Some y) as Hl by (by rewrite last_app, Hy).
    by rewrite take_drop in Hl.
  - rewrite removelast_last. apply (NoDup_app (take i stack)). rewrite take_drop. apply Hd.
Qed.

Context (deps_known : ∀ a b, depends a b → is_Some (modules !! b)).

Definition visits (visit : N → states → list N → option (option (list N) * states * list N))
    (s : states) : Prop :=
  ∀ a s1 stack, dfs s1 stack → dom s ⊆ dom s1 → s1 !! a = None → is_Some (modules !! a) →
    (∀ y, last stack = Some y → depends y a) →
    ∃ cycle s' stack', visit a s1 stack = Some (cycle, s', stack') ∧ good stack cycle s1 s' stack' ∧
      (cycle = None → s' !! a = Some 2%N).

(** The loop over the dependencies of the node on top of the stack. *)
Lemma visit_neighbors_ok visit s0 l s stack top :
  visits visit s0 → dfs s stack → dom s0 ⊆ dom s → last stack = Some top → Forall (depends top) l →
  ∃ w, visit_neighbors visit l s stack = Some w ∧
    match w with
    | Returned cycle s' stack' => ∃ c, cycle = Some c ∧ is_cycle depends c
    | Completed s' stack' =>
        dfs s' stack' ∧ stack' = stack ∧ dfs_extends s s' ∧ ∀ b, b ∈ l → s' !! b = Some 2%N
    end.
Proof.
  intros Hv Hd Hdom Htop Hl. revert s Hd Hdom. induction l as [|b l IH]; intros s Hd Hdom; simpl.
  { eexists; split; [done|]. split_and!; [done..|apply dfs_extends_refl|set_solver]. }
  inv Hl. rename H1 into Hb, H2 into Hl.
  assert (∀ y, last stack = Some y → depends y b) as Hlast by (intros y Hy; congruence).
  destruct (s !! b) as [n|] eqn:Hs; simpl.
  - destruct (dfs_states _ _ Hd _ _ Hs) as [-> | ->]; simpl.
    + destruct (position b stack) as [i|] eqn:Hp; [apply position_Some in Hp|].
      * eexists; split; [done|]. eexists; split; [done|]. by eapply stack_cycle.
      * apply position_None in Hp. by rewrite (dfs_stack _ _ Hd) in Hs.
    + destruct (IH Hl s Hd Hdom) as (w&->&Hw). exists w. split; [done|]. destruct w; [done|].
      destruct Hw as (?&?&[? He]&Hdone). split_and!; try done. intros c [->|Hc]%elem_of_cons; auto.
  - destruct (Hv b s stack Hd Hdom Hs (deps_known _ _ Hb) Hlast) as (cycle&s'&stack'&->&Hg&Hfin).
    destruct cycle as [c|]; simpl in Hg; [by eexists; split; [done|]; exists c|].
    destruct Hg as (Hd'&->&He'). destruct (IH Hl s' Hd') as (w&->&Hw).
    { destruct He'. set_solver. }
    exists w. split; [done|]. destruct w; [done|]. destruct Hw as (?&?&He&Hdone).
    split_and!; try done; [by eapply dfs_extends_trans|].
    intros c [->|Hc]%elem_of_cons; [|by apply Hdone]. apply He. by apply Hfin.
Qed.

Lemma visit_ok fuel s0 :
  (size (dom modules ∖ dom s0) < fuel)%nat → visits (visit modules fuel) s0.
Proof.
  revert s0. induction fuel as [|fuel IH]; intros s0 Hlt; [lia|].
  intros a s stack Hd Hdom Hnew Hm Hlast. cbn [visit]. destruct Hm as [m Hm]. rewrite Hm.
  assert (dfs (<[a:=1%N]> s) (stack ++ [a])) as Hd1 by (apply dfs_enter; [done|done|by rewrite Hm|done]).
  assert (size (dom modules ∖ dom (<[a:=1%N]> s)) < fuel)%nat as Hsize.
  { assert (size (dom modules ∖ dom (<[a:=1%N]> s)) < size (dom modules ∖ dom s0))%nat; [|lia].
    apply subset_size. rewrite dom_insert.
    assert (a ∈ dom modules) by (apply elem_of_dom; by rewrite Hm).
    assert (a ∉ dom s) by by apply not_elem_of_dom. set_solver. }
  destruct (visit_neighbors_ok (visit modules fuel) (<[a:=1%N]> s) (neighbors m) (<[a:=1%N]> s) (stack ++ [a]) a)
    as (w&->&Hw); try done.
  - by apply IH.
  - by rewrite last_snoc.
  - apply Forall_forall. intros b Hb%elem_of_neighbors. by exists m.
  - destruct w as [cycle s' stack'|s' stack'].
    + destruct Hw as (c&->&Hc). by eexists _, _, _.
    + destruct Hw as (Hd'&->&[Hs1 Hs2]&Hdone). eexists _, _, _. split; [done|]. simpl.
      rewrite removelast_last, lookup_insert_eq. split; [|done].
      split_and!; [|done|split].
      * eapply dfs_leave; [done..|]. intros b Hb. by apply Hdone, elem_of_neighbors.
      * rewrite dom_insert in *. set_solver.
      * intros b Hb. apply lookup_insert_Some. destruct (decide (a = b)) as [->|Hne]; [by left|].
        right. split; [done|]. apply Hs2. by rewrite lookup_insert_ne.
Qed.

Lemma visit_roots_ok roots s :
  dfs s [] → Forall (λ a, is_Some (modules !! a)) roots →
  ∃ r, visit_roots modules (S (size modules)) roots s [] = Some r ∧
    match r with
    | Some c => is_cycle depends c
    | None => ∃ s', dfs s' [] ∧ dfs_extends s s' ∧ ∀ a, a ∈ roots → s' !! a = Some 2%N
    end.
Proof.
  intros Hd Hroots. revert s Hd. induction Hroots as [|a roots Ha _ IH]; intros s Hd; cbn [visit_roots].
  { eexists; split; [done|]. exists s. split_and!; [done|apply dfs_extends_refl|set_solver]. }
  case_bool_decide as E.
  - assert (s !! a = None) as Hnew.
    { destruct (s !! a) as [n|] eqn:Hs; [|done]. simpl in E. destruct (dfs_states _ _ Hd _ _ Hs); lia. }
    destruct (visit_ok (S (size modules)) ∅) with (a := a) (s1 := s) (stack := @nil N)
      as (cycle&s'&stack'&->&Hg&Hfin); try done.
    { rewrite dom_empty_L, difference_empty_L, size_dom. lia. }
    destruct cycle as [c|]; [by eexists|]. destruct Hg as (Hd'&->&He).
    destruct (IH s' Hd') as (r&->&Hr). exists r. split; [done|]. destruct r; [done|].
    destruct Hr as (s2&?&He2&Hdone). exists s2. split_and!; [done|by eapply dfs_extends_trans|].
    intros b [->|Hb]%elem_of_cons; [apply He2; by apply Hfin|by apply Hdone].
  - destruct (IH s Hd) as (r&->&Hr). exists r. split; [done|]. destruct r; [done|].
    destruct Hr as (s2&?&He2&Hdone). exists s2. split_and!; [done|done|].
    intros b [->|Hb]%elem_of_cons; [|by apply Hdone]. apply He2.
    destruct (s !! a) as [n|] eqn:Hs; [|done]. destruct (dfs_states _ _ Hd _ _ Hs) as [-> | ->]; [|done].
    apply (dfs_stack _ _ Hd) in Hs. by apply elem_of_nil in Hs.
Qed.

(** The search ends, a list it returns is a cycle, and without one no module
    depends on itself. *)
Lemma find_cycle_exact :
  ∃ r, find_cycle modules = Some r ∧
    match r with
    | Some c => is_cycle depends c
    | None => ∀ a, ¬ tc depends a a
    end.
Proof.
  unfold find_cycle. destruct (visit_roots_ok (id_entries modules).*1 ∅) as (r&->&Hr).
  - split; try (by intros ?? ?%lookup_empty_Some); try done; try (by intros ? ?%lookup_empty_Some); [|constructor].
    intros a. rewrite lookup_empty. split; [done|]. by intros ?%elem_of_nil.
  - apply Forall_forall. intros a. by rewrite elem_of_id_keys.
  - exists r. split; [done|]. destruct r; [done|]. destruct Hr as (s&Hd&_&Hall). intros a Ha.
    assert (is_Some (modules !! a)) as Hk.
    { inversion Ha as [? ? (m&Hm&_)|? ? ? (m&Hm&_)]; subst; by rewrite Hm. }
    apply elem_of_id_keys, Hall in Hk. by eapply dfs_acyclic.
Qed.
End cycles.
