(* ===== verification/ModulesTheorems.v ===== *)
(** * The module graph is what the sources say

    [graph_grows] relates two stages of linking; every step of
    [resolve_imports] keeps the invariant [linked_ok] and handles the import it
    is given, by recording it or by a diagnostic at its place. *)

From stdpp Require Import base gmap list strings numbers sorting relations.
From S2P Require Import Prelude Text Hir Diagnostics Ast Modules ModuleCycles.
Open Scope string_scope.
Open Scope list_scope.

(** ** Module ids *)

Lemma empty_modules_lookup (ids : gmap string N) name id :
  ids !! name = Some id → is_Some (empty_modules ids !! id).
Proof.
  unfold empty_modules. rewrite <-elem_of_entries. generalize (entries ids), (∅ : gmap N ResolvedModule).
  intros l. induction l as [|[n i] l IH]; intros m; simpl; [by intros ?%elem_of_nil|].
  intros [[= <- <-]|Hin]%elem_of_cons; [|by apply IH]. clear IH.
  assert (is_Some (<[id:=empty_module name id]> m !! id)) as Hm by (by rewrite lookup_insert_eq).
  revert Hm. generalize (<[id:=empty_module name id]> m). induction l as [|[n' i'] l IH]; intros m'; simpl; [done|].
  intros Hm. apply IH. destruct (decide (i' = id)) as [->|]; [by rewrite lookup_insert_eq|by rewrite lookup_insert_ne].
Qed.

Lemma empty_modules_empty (ids : gmap string N) id m :
  empty_modules ids !! id = Some m → ∃ name, m = empty_module name id.
Proof.
  unfold empty_modules.
  assert (∀ l (m0 : gmap N ResolvedModule), (∀ id m, m0 !! id = Some m → ∃ name, m = empty_module name id) →
    foldl (λ m '(name, id), <[id := empty_module name id]> m) m0 l !! id = Some m →
    ∃ name, m = empty_module name id) as H; [|apply H; by intros ?? ?%lookup_empty_Some].
  intros l. induction l as [|[n i] l IH]; intros m0 H0; simpl; [by apply H0|]. apply IH.
  intros id' m' [[<- <-]|[_ Hm]]%lookup_insert_Some; [by exists n|by apply H0].
Qed.

(** ** Collection *)

Lemma module_definition_id module index file item :
  md_id (module_definition module index file item) = {| qd_module := module; qd_index := index |}.
Proof. by destruct item. Qed.

(** After [count] items: every definition is filed under its name in its own
    module, and the indices given out in a module are distinct. *)
Record sources_ok (count : nat) (c : CollectedSources) : Prop := {
  co_next : ∀ id, (default 0 (cl_next c !! id) ≤ N.of_nat count)%N;
  co_filed : ∀ id m name d, cl_modules c !! id = Some m → rm_definitions m !! name = Some d →
    md_name d = name ∧ qd_module (md_id d) = id ∧ (qd_index (md_id d) < default 0 (cl_next c !! id))%N;
  co_distinct : ∀ id m name name' d d', cl_modules c !! id = Some m →
    rm_definitions m !! name = Some d → rm_definitions m !! name' = Some d' → md_id d = md_id d' → name = name'
}.

Lemma lookup_alter_cases {A} (g : A → A) (m : gmap N A) i j y :
  alter g i m !! j = Some y → (i = j ∧ ∃ x, m !! i = Some x ∧ y = g x) ∨ (i ≠ j ∧ m !! j = Some y).
Proof.
  destruct (decide (i = j)) as [<-|Hne].
  - rewrite lookup_alter_eq. intros (x&Hx&?)%fmap_Some. left. eauto.
  - rewrite lookup_alter_ne by done. by right.
Qed.

Lemma collect_item_ok count id name file c item :
  (N.of_nat (S count) ≤ u32_max)%N → sources_ok count c →
  sources_ok (S count) (collect_item id name file c item).
Proof.
  intros Hmax [Hn Hf Hd]. unfold collect_item.
  set (index := default 0%N (cl_next c !! id)) in *. set (d := module_definition id index file item).
  assert (u32_saturating_add index 1 = index + 1)%N as Hsat.
  { unfold u32_saturating_add. pose proof (Hn id). subst index. lia. }
  assert (∀ id', (default 0 (<[id:=u32_saturating_add index 1]> (cl_next c) !! id') ≤ N.of_nat (S count))%N ∧
    (default 0 (cl_next c !! id') ≤ default 0 (<[id:=u32_saturating_add index 1]> (cl_next c) !! id'))%N) as Hnext.
  { intros id'. pose proof (Hn id'). destruct (decide (id = id')) as [<-|Hne].
    - rewrite lookup_insert_eq, Hsat. simpl. subst index. lia.
    - rewrite lookup_insert_ne by done. lia. }
  destruct (bool_decide _) eqn:E.
  - split; simpl; [apply Hnext| |done..].
    intros id' m n d' Hm Hd'. destruct (Hf _ _ _ _ Hm Hd') as (?&?&?). split_and!; [done..|].
    pose proof (Hnext id'). lia.
  - apply bool_decide_eq_false in E. split; simpl; [apply Hnext|..].
    + intros id' m' n d' [(<-&m&Hm&->)|[Hne Hm]]%lookup_alter_cases; simpl.
      * intros [[<- <-]|[_ Hd']]%lookup_insert_Some.
        -- unfold d. rewrite module_definition_id, lookup_insert_eq, Hsat. simpl. split_and!; [done..|lia].
        -- destruct (Hf _ _ _ _ Hm Hd') as (?&?&?). split_and!; [done..|]. pose proof (Hnext id). lia.
      * intros Hd'. destruct (Hf _ _ _ _ Hm Hd') as (?&?&?). split_and!; [done..|]. pose proof (Hnext id'). lia.
    + intros id' m' n n' d1 d2 [(<-&m&Hm&->)|[Hne Hm]]%lookup_alter_cases; simpl; [|by apply (Hd id')].
      assert (∀ n e, rm_definitions m !! n = Some e → md_id e ≠ md_id d) as Hold.
      { intros n0 e He Heq. destruct (Hf _ _ _ _ Hm He) as (_&_&Hlt). rewrite Heq in Hlt. unfold d in Hlt.
        rewrite module_definition_id in Hlt. simpl in Hlt. subst index. lia. }
      intros [[<- <-]|[_ H1]]%lookup_insert_Some [[<- <-]|[_ H2]]%lookup_insert_Some Heq; [done|..].
      * symmetry in Heq. by destruct (Hold _ _ H2 Heq).
      * by destruct (Hold _ _ H1 Heq).
      * by apply (Hd id m n n' d1 d2).
Qed.

Lemma collect_items_ok items count id name file c :
  (N.of_nat (count + length items) ≤ u32_max)%N → sources_ok count c →
  sources_ok (count + length items) (foldl (collect_item id name file) c items).
Proof.
  revert count c. induction items as [|item items IH]; intros count c Hmax Hc; simpl in *.
  - by rewrite Nat.add_0_r.
  - rewrite Nat.add_succ_r in *. rewrite <-Nat.add_succ_l in *. apply IH; [done|]. apply collect_item_ok; [lia|done].
Qed.

Lemma sources_ok_le count count' c : (count ≤ count')%nat → sources_ok count c → sources_ok count' c.
Proof. intros Hle [Hn ??]. split; [|done..]. intros id. pose proof (Hn id). lia. Qed.

Lemma sources_ok_with_files count c f id pending diagnostics :
  sources_ok count c →
  sources_ok count {| cl_modules := alter (with_files f) id (cl_modules c); cl_next := cl_next c;
                        cl_pending := pending; cl_diagnostics := diagnostics |}.
Proof.
  intros [Hn Hf Hd]. split; simpl; [done|..].
  - intros id' m' n d [(<-&m&Hm&->)|[Hne Hm]]%lookup_alter_cases; simpl; by eapply Hf.
  - intros id' m' n n' d d' [(<-&m&Hm&->)|[Hne Hm]]%lookup_alter_cases; simpl; by eapply Hd.
Qed.

Lemma collect_source_ok ids count c s :
  (N.of_nat (count + length (ast_items (src_ast s))) ≤ u32_max)%N → sources_ok count c →
  sources_ok (count + length (ast_items (src_ast s))) (collect_source ids c s).
Proof.
  intros Hmax Hc. unfold collect_source.
  assert (sources_ok (count + length (ast_items (src_ast s))) c) as Hsame by (by eapply sources_ok_le; [|done]; lia).
  destruct (source_module s) as [name|]; [|by destruct Hsame; split].
  destruct (ids !! name) as [id|]; [|done]. destruct (cl_modules c !! id); [|done].
  edestruct (collect_items_ok (ast_items (src_ast s)) count id name (src_file s)); [exact Hmax| |by split].
  by apply sources_ok_with_files.
Qed.

Definition item_count (sources : list ModuleSource) : nat :=
  sum_list_with (λ s, length (ast_items (src_ast s))) sources.

Lemma collect_sources_ok sources ids modules :
  (N.of_nat (item_count sources) ≤ u32_max)%N → (∀ id m, modules !! id = Some m → ∃ name, m = empty_module name id) →
  sources_ok (item_count sources) (collect_sources sources ids modules).
Proof.
  intros Hmax H0. unfold collect_sources.
  set (c := Build_CollectedSources modules ∅ [] []). assert (sources_ok 0 c) as Hc.
  { split; simpl; [done|..].
    - intros id m n d [name ->]%H0. simpl. by rewrite lookup_empty.
    - intros id m n n' d d' [name ->]%H0. simpl. by rewrite lookup_empty. }
  rewrite <-(Nat.add_0_l (item_count sources)) in *. revert Hmax Hc. generalize 0%nat, c. clear c H0.
  induction sources as [|s sources IH]; intros count c Hmax Hc; simpl in *.
  - unfold item_count. simpl. by rewrite Nat.add_0_r.
  - unfold item_count in *. simpl in *. rewrite Nat.add_assoc in *. apply IH; [done|]. apply collect_source_ok; [lia|done].
Qed.

(** ** Names, ids and pending imports *)

Lemma module_ids_known sources s name :
  s ∈ sources → source_module s = Some name → is_Some (module_ids sources !! name).
Proof.
  intros Hs Hn. destruct (module_ids sources !! name) eqn:E; [done|]. exfalso.
  apply not_elem_of_list_to_map in E. apply E.
  assert (name ∈ sort_strings (omap source_module sources)) as [i Hi]%list_elem_of_lookup.
  { apply elem_of_sort_strings, list_elem_of_omap. by exists s. }
  apply list_elem_of_fmap. exists (name, u32_of_index i). split; [done|].
  apply list_elem_of_lookup. exists i. rewrite list_lookup_imap, Hi. done.
Qed.

(** A module's id is the position of its name among the sorted names. *)
Lemma module_ids_position sources name id :
  module_ids sources !! name = Some id →
  ∃ i, sort_strings (omap source_module sources) !! i = Some name ∧ id = u32_of_index i.
Proof.
  intros H%elem_of_list_to_map_2. apply elem_of_lookup_imap in H as (i&x&[= -> ->]&Hi). eauto.
Qed.

Lemma sort_strings_length l : (length (sort_strings l) ≤ length l)%nat.
Proof.
  unfold sort_strings. rewrite merge_sort_Permutation. apply submseteq_length.
  apply NoDup_submseteq; [apply NoDup_remove_dups|]. intros x. by rewrite elem_of_remove_dups.
Qed.

Lemma omap_length {A B} (g : A → option B) l : (length (omap g l) ≤ length l)%nat.
Proof. induction l as [|x l IH]; csimpl; [done|]. destruct (g x); simpl; lia. Qed.

Lemma module_ids_inj sources name name' id :
  (N.of_nat (length sources) ≤ u32_max)%N →
  module_ids sources !! name = Some id → module_ids sources !! name' = Some id → name = name'.
Proof.
  intros Hmax (i&Hi&->)%module_ids_position (j&Hj&Heq)%module_ids_position.
  assert (∀ k x, sort_strings (omap source_module sources) !! k = Some x → u32_of_index k = N.of_nat k) as Hidx.
  { intros k x Hk%lookup_lt_Some. pose proof (sort_strings_length (omap source_module sources)).
    pose proof (omap_length source_module sources). unfold u32_of_index. case_bool_decide; lia. }
  rewrite (Hidx _ _ Hi), (Hidx _ _ Hj) in Heq. assert (i = j) as -> by lia. congruence.
Qed.

Lemma empty_modules_name (ids : gmap string N) id m :
  empty_modules ids !! id = Some m → ids !! rm_name m = Some id.
Proof.
  unfold empty_modules. intros Hm. apply elem_of_entries. revert Hm.
  assert (∀ l (m0 : gmap N ResolvedModule) m, (∀ m, m0 !! id = Some m → (rm_name m, id) ∈ entries ids) →
    (∀ x, x ∈ l → x ∈ entries ids) →
    foldl (λ m '(name, id), <[id := empty_module name id]> m) m0 l !! id = Some m →
    (rm_name m, id) ∈ entries ids) as H; [|apply H; [by intros ? ?%lookup_empty_Some|done]].
  intros l. induction l as [|[n i] l IH]; intros m0 m' H0 Hl; simpl; [by apply H0|].
  apply IH; [|intros; apply Hl; by right].
  intros m'' [[-> <-]|[_ Hm]]%lookup_insert_Some; [apply Hl; by left|by apply H0].
Qed.

(** What collection keeps of a module. *)
Definition frame (m : ResolvedModule) : string * gmap string ResolvedImport * gset N :=
  (rm_name m, rm_imports m, rm_dependencies m).

Definition same_frame (m m' : gmap N ResolvedModule) : Prop :=
  ∀ id, frame <$> m !! id = frame <$> m' !! id.

Lemma alter_same_frame g id (m : gmap N ResolvedModule) :
  (∀ x, frame (g x) = frame x) → same_frame m (alter g id m).
Proof.
  intros Hg j. destruct (decide (id = j)) as [<-|Hne].
  - rewrite lookup_alter_eq. destruct (m !! id); simpl; by rewrite ?Hg.
  - by rewrite lookup_alter_ne.
Qed.

Lemma same_frame_trans m1 m2 m3 : same_frame m1 m2 → same_frame m2 m3 → same_frame m1 m3.
Proof. intros H1 H2 id. by rewrite H1. Qed.

Lemma same_frame_Some m m' id x :
  same_frame m m' → m !! id = Some x → ∃ y, m' !! id = Some y ∧ frame y = frame x.
Proof.
  intros H Hx. specialize (H id). rewrite Hx in H. symmetry in H.
  apply fmap_Some in H as (y&Hy&Heq). eauto.
Qed.

Lemma collect_item_frame id name file c item :
  same_frame (cl_modules c) (cl_modules (collect_item id name file c item)) ∧
  cl_pending (collect_item id name file c item) = cl_pending c.
Proof. unfold collect_item. destruct (bool_decide _); simpl; [done|]. split; [by apply alter_same_frame|done]. Qed.

Lemma collect_items_frame items id name file c :
  let c' := foldl (collect_item id name file) c items in
  same_frame (cl_modules c) (cl_modules c') ∧ cl_pending c' = cl_pending c.
Proof.
  revert c. induction items as [|item items IH]; intros c; simpl; [by split|].
  destruct (collect_item_frame id name file c item) as [Hn Hp].
  destruct (IH (collect_item id name file c item)) as [Hn' Hp']. split; [by eapply same_frame_trans|congruence].
Qed.

Definition pending_of (ids : gmap string N) (modules : gmap N ResolvedModule) (s : ModuleSource)
    : list PendingImport :=
  match source_module s ≫= λ name, ids !! name with
  | Some id =>
      match modules !! id with
      | Some _ => map (λ node, {| pi_owner := id; pi_file := src_file s; pi_node := node |})
                      (ast_imports (src_ast s))
      | None => []
      end
  | None => []
  end.

Lemma pending_of_ext ids m m' s : same_frame m m' → pending_of ids m s = pending_of ids m' s.
Proof.
  intros H. unfold pending_of. destruct (source_module s ≫= _) as [id|]; [|done].
  specialize (H id). destruct (m !! id), (m' !! id); done.
Qed.

Lemma collect_source_frame ids c s :
  same_frame (cl_modules c) (cl_modules (collect_source ids c s)) ∧
  cl_pending (collect_source ids c s) = cl_pending c ++ pending_of ids (cl_modules c) s.
Proof.
  unfold collect_source, pending_of. destruct (source_module s) as [name|]; simpl; [|by rewrite app_nil_r].
  destruct (ids !! name) as [id|]; [|by rewrite app_nil_r].
  destruct (cl_modules c !! id); [|by rewrite app_nil_r].
  edestruct collect_items_frame as [Hn Hp]. split; [|by rewrite Hp].
  eapply same_frame_trans; [|exact Hn]. by apply alter_same_frame.
Qed.

Lemma collect_sources_frame sources ids modules :
  let c := collect_sources sources ids modules in
  same_frame modules (cl_modules c) ∧ cl_pending c = flat_map (pending_of ids modules) sources.
Proof.
  unfold collect_sources. set (c := Build_CollectedSources modules ∅ [] []).
  assert (∀ c, same_frame (cl_modules c) (cl_modules (foldl (collect_source ids) c sources)) ∧
    cl_pending (foldl (collect_source ids) c sources) = cl_pending c ++ flat_map (pending_of ids (cl_modules c)) sources)
    as H; [|apply (H c)].
  clear c. induction sources as [|s sources IH]; intros c; simpl; [by rewrite app_nil_r|].
  destruct (IH (collect_source ids c s)) as [Hn ->]. destruct (collect_source_frame ids c s) as [Hn' ->]. split.
  - by eapply same_frame_trans.
  - rewrite <-app_assoc. do 2 f_equal. apply flat_map_ext. intros s'. symmetry. by apply pending_of_ext.
Qed.

(** ** Linking *)

(** Modules keep their declarations and gain imports and dependencies. *)
Record module_grows (m m' : ResolvedModule) : Prop := {
  mg_name : rm_name m' = rm_name m;
  mg_definitions : rm_definitions m' = rm_definitions m;
  mg_imports : rm_imports m ⊆ rm_imports m';
  mg_dependencies : rm_dependencies m ⊆ rm_dependencies m'
}.

Record graph_grows (l l' : Linked) : Prop := {
  gg_modules : ∀ id m, lk_modules l !! id = Some m →
    ∃ m', lk_modules l' !! id = Some m' ∧ module_grows m m';
  gg_nothing_new : ∀ id, lk_modules l !! id = None → lk_modules l' !! id = None;
  gg_sites : lk_sites l ⊆ lk_sites l';
  gg_diagnostics : ∃ k, lk_diagnostics l' = lk_diagnostics l ++ k
}.

Lemma module_grows_refl m : module_grows m m.
Proof. by split. Qed.

#[export] Instance graph_grows_preorder : PreOrder graph_grows.
Proof.
  split.
  - intros l. split; [|done..|exists []; by rewrite app_nil_r]. intros id m Hm. exists m. by split; [|apply module_grows_refl].
  - intros l1 l2 l3 [H1 N1 S1 [k1 D1]] [H2 N2 S2 [k2 D2]]. split; [|auto|by etrans|].
    + intros id m (m'&Hm'&G1)%H1. apply H2 in Hm' as (m''&Hm''&G2). exists m''. split; [done|].
      destruct G1, G2. split; [congruence|congruence|by etrans|set_solver].
    + exists (k1 ++ k2). by rewrite D2, D1, app_assoc.
Qed.

Lemma alter_grows (g : ResolvedModule → ResolvedModule) id l sites :
  (∀ m, lk_modules l !! id = Some m → module_grows m (g m)) → lk_sites l ⊆ sites →
  graph_grows l {| lk_modules := alter g id (lk_modules l); lk_sites := sites;
                   lk_diagnostics := lk_diagnostics l |}.
Proof.
  intros Hg Hs. split; simpl; [..|exists []; by rewrite app_nil_r].
  - intros j m Hm. destruct (decide (id = j)) as [<-|Hne].
    + exists (g m). rewrite lookup_alter_eq, Hm. by split; [|apply Hg].
    + exists m. rewrite lookup_alter_ne by done. by split; [|apply module_grows_refl].
  - intros j Hj. destruct (decide (id = j)) as [<-|Hne]; [by rewrite lookup_alter_eq, Hj|by rewrite lookup_alter_ne].
  - done.
Qed.

Lemma reject_grows l p c text : graph_grows l (reject l p c text).
Proof.
  split; simpl; [|done|done|by eexists]. intros id m Hm. exists m. by split; [|apply module_grows_refl].
Qed.

Lemma entry_or_insert_grows {V} k (v : V) sites : sites ⊆ entry_or_insert k v sites.
Proof. unfold entry_or_insert. destruct (sites !! k) eqn:E; [done|]. by apply insert_subseteq. Qed.

Lemma entry_or_insert_Some {V} k (v : V) sites k' v' :
  entry_or_insert k v sites !! k' = Some v' → sites !! k' = Some v' ∨ (k' = k ∧ v' = v).
Proof.
  unfold entry_or_insert. destruct (sites !! k) eqn:E; [by left|].
  intros [[-> ->]|[_ ?]]%lookup_insert_Some; [by right|by left].
Qed.

Lemma entry_or_insert_is_Some {V} k (v : V) sites : is_Some (entry_or_insert k v sites !! k).
Proof. unfold entry_or_insert. destruct (sites !! k) eqn:E; [by rewrite E|by rewrite lookup_insert_eq]. Qed.

(** The stages of [link_import]. *)
Definition depend_step (l : Linked) (p : PendingImport) (target : N) : Linked :=
  {| lk_modules := alter (with_dependency target) (pi_owner p) (lk_modules l);
     lk_sites := entry_or_insert (pi_owner p, target) (pi_file p, un_span (pi_node p)) (lk_sites l);
     lk_diagnostics := lk_diagnostics l |}.

Definition import_of (p : PendingImport) (symbol : string) (d : ModuleDefinition) : ResolvedImport :=
  {| ri_local_name := default symbol (un_alias (pi_node p)); ri_definition := md_id d;
     ri_span := un_span (pi_node p) |}.

Definition import_step (l : Linked) (p : PendingImport) (i : ResolvedImport) : Linked :=
  {| lk_modules := alter (with_import i) (pi_owner p) (lk_modules l); lk_sites := lk_sites l;
     lk_diagnostics := lk_diagnostics l |}.

Lemma depend_step_grows l p target : graph_grows l (depend_step l p target).
Proof.
  apply alter_grows; [|apply entry_or_insert_grows]. intros m _. split; simpl; [done..|set_solver].
Qed.

Lemma import_step_grows l p i :
  (∀ m, lk_modules l !! pi_owner p = Some m → rm_imports m !! ri_local_name i = None) →
  graph_grows l (import_step l p i).
Proof.
  intros Hfree. apply alter_grows; [|done]. intros m Hm. split; simpl; [done|done|by apply insert_subseteq, Hfree|done].
Qed.

Section linking.
Context (ids : gmap string N) (pending : list PendingImport).

(** An import and the statement it came from. *)
Definition imported (l : Linked) (m : ResolvedModule) (local : string) (i : ResolvedImport)
    (p : PendingImport) : Prop :=
  ∃ path symbol target tm d,
    un_path (pi_node p) = path ++ [symbol] ∧ ids !! path_name path = Some target ∧
    target ∈ rm_dependencies m ∧ lk_modules l !! target = Some tm ∧
    rm_definitions tm !! symbol = Some d ∧ md_public d = true ∧ i = import_of p symbol d ∧
    local = ri_local_name i ∧ rm_definitions m !! local = None.

Record linked_ok (l : Linked) : Prop := {
  lo_imports : ∀ id m local i, lk_modules l !! id = Some m → rm_imports m !! local = Some i →
    ∃ p, p ∈ pending ∧ pi_owner p = id ∧ imported l m local i p;
  lo_dependencies : ∀ id m t, lk_modules l !! id = Some m → t ∈ rm_dependencies m →
    is_Some (lk_modules l !! t) ∧ is_Some (lk_sites l !! (id, t));
  lo_sites : ∀ a b v, lk_sites l !! (a, b) = Some v →
    ∃ p, p ∈ pending ∧ pi_owner p = a ∧ v = (pi_file p, un_span (pi_node p))
}.

(** An import is recorded, or reported at its place. *)
Definition handled (l : Linked) (p : PendingImport) : Prop :=
  (∃ m i, lk_modules l !! pi_owner p = Some m ∧ imported l m (ri_local_name i) i p ∧
     rm_imports m !! ri_local_name i = Some i) ∨
  (∃ d, d ∈ lk_diagnostics l ∧ file d = pi_file p ∧ diagnostic_span d = un_span (pi_node p) ∧
     severity d = SeverityError).

Lemma imported_grows l l' m m' local i p :
  graph_grows l l' → module_grows m m' → imported l m local i p → imported l' m' local i p.
Proof.
  intros [Hg _ _ _] [_ Hd _ Hdep] (path&symbol&target&tm&d&?&?&?&Htm&?&?&?&?&?).
  destruct (Hg _ _ Htm) as (tm'&Htm'&[_ Hd' _ _]). exists path, symbol, target, tm', d.
  rewrite Hd, Hd'. split_and!; try done. by apply Hdep.
Qed.

Lemma handled_grows l l' p : graph_grows l l' → handled l p → handled l' p.
Proof.
  intros Hg [(m&i&Hm&Hi&Hlook)|(d&Hd&Hrest)].
  - left. destruct (gg_modules _ _ Hg _ _ Hm) as (m'&Hm'&Hmg). exists m', i.
    split_and!; [done|by eapply imported_grows|]. eapply lookup_weaken; [done|apply Hmg].
  - right. exists d. destruct (gg_diagnostics _ _ Hg) as [k ->]. split; [set_solver|done].
Qed.

Lemma reject_handled l p c text : handled (reject l p c text) p.
Proof.
  right. eexists. split; [apply elem_of_app; right; by apply list_elem_of_singleton|done].
Qed.

Lemma reject_ok l p c text : linked_ok l → linked_ok (reject l p c text).
Proof. intros [H1 H2 H3]. by split. Qed.

Lemma split_last_app path symbol front :
  split_last path = Some (symbol, front) → path = front ++ [symbol].
Proof.
  unfold split_last. destruct (rev path) as [|x r] eqn:E; [done|]. intros [= <- <-].
  rewrite <-(rev_involutive path), E. done.
Qed.

Lemma depend_step_ok l p target owner :
  p ∈ pending → lk_modules l !! pi_owner p = Some owner → is_Some (lk_modules l !! target) →
  linked_ok l → linked_ok (depend_step l p target).
Proof.
  intros Hp Howner Htarget [H1 H2 H3]. pose proof (depend_step_grows l p target) as Hg.
  assert (∀ t, is_Some (lk_modules l !! t) → is_Some (lk_modules (depend_step l p target) !! t)) as Hkeep.
  { intros t [x Hx]. destruct (gg_modules _ _ Hg _ _ Hx) as (x'&Hx'&_). by rewrite Hx'. }
  assert (∀ k, is_Some (lk_sites l !! k) → is_Some (lk_sites (depend_step l p target) !! k)) as Hsites.
  { intros k [v Hv]. exists v. eapply lookup_weaken; [exact Hv|apply Hg]. }
  split.
  - intros id m' local i Hm' Hi.
    apply lookup_alter_cases in Hm' as [(<-&m&Hm&->)|[Hne Hm]].
    + destruct (H1 _ _ _ _ Hm Hi) as (q&?&?&Hq). exists q. split_and!; [done..|].
      eapply imported_grows; [done| |done]. split; simpl; [done..|set_solver].
    + destruct (H1 _ _ _ _ Hm Hi) as (q&?&?&Hq). exists q. split_and!; [done..|].
      eapply imported_grows; [done|apply module_grows_refl|done].
  - intros id m' t Hm' Ht. apply lookup_alter_cases in Hm' as [(<-&m&Hm&->)|[Hne Hm]].
    + simpl in Ht. apply elem_of_union in Ht as [->%elem_of_singleton|Ht].
      * split; [by apply Hkeep|]. apply entry_or_insert_is_Some.
      * destruct (H2 _ _ _ Hm Ht). split; [by apply Hkeep|by apply Hsites].
    + destruct (H2 _ _ _ Hm Ht). split; [by apply Hkeep|by apply Hsites].
  - intros a b v [Hv|[[= -> ->] ->]]%entry_or_insert_Some; [by eapply H3|]. by exists p.
Qed.

Lemma import_step_ok l p i m0 :
  p ∈ pending → lk_modules l !! pi_owner p = Some m0 → rm_imports m0 !! ri_local_name i = None →
  imported l m0 (ri_local_name i) i p → linked_ok l →
  linked_ok (import_step l p i) ∧ handled (import_step l p i) p.
Proof.
  intros Hp Hm0 Hfree Himp [H1 H2 H3].
  assert (graph_grows l (import_step l p i)) as Hg.
  { apply import_step_grows. intros m Hm. by replace m with m0 by congruence. }
  assert (module_grows m0 (with_import i m0)) as Hm0g by (split; simpl; [done|done|by apply insert_subseteq|done]).
  split; [split|].
  - intros id m' local j Hm' Hj. apply lookup_alter_cases in Hm' as [(<-&m&Hm&->)|[Hne Hm]].
    + replace m with m0 in * by congruence. simpl in Hj. apply lookup_insert_Some in Hj as [[<- <-]|[_ Hj]].
      * exists p. split_and!; [done..|]. by eapply imported_grows.
      * destruct (H1 _ _ _ _ Hm Hj) as (q&?&?&Hq). exists q. split_and!; [done..|]. by eapply imported_grows.
    + destruct (H1 _ _ _ _ Hm Hj) as (q&?&?&Hq). exists q. split_and!; [done..|].
      eapply imported_grows; [done|apply module_grows_refl|done].
  - intros id m' t Hm' Ht. apply lookup_alter_cases in Hm' as [(<-&m&Hm&->)|[Hne Hm]];
      destruct (H2 _ _ _ Hm Ht) as [[x Hx] ?]; (split; [|done]);
      destruct (gg_modules _ _ Hg _ _ Hx) as (x'&Hx'&_); by rewrite Hx'.
  - done.
  - left. exists (with_import i m0), i. split_and!; [|by eapply imported_grows|apply lookup_insert_eq].
    unfold import_step. simpl. by rewrite lookup_alter_eq, Hm0.
Qed.
Lemma link_import_ok l p owner path symbol target tm d :
  p ∈ pending → lk_modules l !! pi_owner p = Some owner → un_path (pi_node p) = path ++ [symbol] →
  ids !! path_name path = Some target → lk_modules l !! target = Some tm →
  rm_definitions tm !! symbol = Some d → md_public d = true → linked_ok l →
  let l' := link_import l p owner target symbol d in
  linked_ok l' ∧ graph_grows l l' ∧ handled l' p.
Proof.
  intros Hp Howner Hpath Hids Htm Hd Hpub Hok. unfold link_import.
  fold (depend_step l p target).
  assert (linked_ok (depend_step l p target)) as Hdep by (eapply depend_step_ok; eauto).
  pose proof (depend_step_grows l p target) as Hg.
  destruct (_ || _) eqn:E.
  - split_and!; [by apply reject_ok|etrans; [exact Hg|apply reject_grows]|apply reject_handled].
  - apply orb_false_iff in E as [E1%bool_decide_eq_false E2%bool_decide_eq_false].
    apply eq_None_not_Some in E1, E2.
    fold (import_of p symbol d). fold (import_step (depend_step l p target) p (import_of p symbol d)).
    set (l1 := depend_step l p target) in *.
    assert (lk_modules l1 !! pi_owner p = Some (with_dependency target owner)) as Hm1.
    { unfold l1, depend_step. simpl. by rewrite lookup_alter_eq, Howner. }
    destruct (gg_modules _ _ Hg _ _ Htm) as (tm'&Htm'&[_ Htd _ _]).
    destruct (import_step_ok l1 p (import_of p symbol d) (with_dependency target owner)) as [Hok' Hh]; try done.
    + exists path, symbol, target, tm', d. rewrite Htd. split_and!; try done. simpl. set_solver.
    + split_and!; [done| |done]. transitivity l1; [exact Hg|]. apply import_step_grows.
      intros m Hm. replace m with (with_dependency target owner) by congruence. done.
Qed.

Lemma resolve_import_ok l p :
  p ∈ pending → linked_ok l →
  linked_ok (resolve_import ids l p) ∧ graph_grows l (resolve_import ids l p) ∧
  (un_path (pi_node p) ≠ [] → is_Some (lk_modules l !! pi_owner p) → handled (resolve_import ids l p) p).
Proof.
  intros Hp Hok. unfold resolve_import.
  destruct (split_last (un_path (pi_node p))) as [[symbol path]|] eqn:Hs.
  2: { split_and!; [done..|]. intros Hne. unfold split_last in Hs.
       destruct (rev (un_path (pi_node p))) eqn:E; [|done]. apply (f_equal (@rev string)) in E. by rewrite rev_involutive in E. }
  apply split_last_app in Hs.
  assert (∀ c text, linked_ok (reject l p c text) ∧ graph_grows l (reject l p c text) ∧
    (un_path (pi_node p) ≠ [] → is_Some (lk_modules l !! pi_owner p) → handled (reject l p c text) p)) as Hrej.
  { intros c text. split_and!; [by apply reject_ok|apply reject_grows|]. intros _ _. apply reject_handled. }
  destruct (ids !! path_name path) as [target|] eqn:Hids; [|apply Hrej].
  destruct (lk_modules l !! target) as [tm|] eqn:Htm; simpl; [|apply Hrej].
  destruct (rm_definitions tm !! symbol) as [d|] eqn:Hd; simpl; [|apply Hrej].
  destruct (md_public d) eqn:Hpub; simpl; [|apply Hrej].
  destruct (lk_modules l !! pi_owner p) as [owner|] eqn:Ho.
  - destruct (link_import_ok l p owner path symbol target tm d) as (?&?&?); try done.
  - split_and!; [done..|]. intros _ [? ?]. done.
Qed.

Lemma resolve_all_ok l l0 :
  (∀ p, p ∈ l → p ∈ pending) → linked_ok l0 →
  let r := foldl (resolve_import ids) l0 l in
  linked_ok r ∧ graph_grows l0 r ∧
  ∀ p, p ∈ l → un_path (pi_node p) ≠ [] → is_Some (lk_modules l0 !! pi_owner p) → handled r p.
Proof.
  revert l0. induction l as [|p l IH]; intros l0 Hin Hok; simpl; [by split_and!; [..|intros ? ?%elem_of_nil]|].
  destruct (resolve_import_ok l0 p) as (Hok1&Hg1&Hh1); [apply Hin; by left|done|].
  destruct (IH (resolve_import ids l0 p)) as (Hok2&Hg2&Hh2); [intros; apply Hin; by right|done|].
  split_and!; [done|by etrans|]. intros q [->|Hq]%elem_of_cons Hne Ho.
  - eapply handled_grows; [done|]. by apply Hh1.
  - apply Hh2; [done..|]. destruct Ho as [x Hx]. destruct (gg_modules _ _ Hg1 _ _ Hx) as (x'&Hx'&_). by rewrite Hx'.
Qed.
End linking.
