(* ===== verification/ModulesClaims.v ===== *)
(** * Claims about the module graph

    Imports, dependency cycles, the order of the sources and interface hashes,
    stated of [link_sources] and [analyze_modules]. *)

From stdpp Require Import base gmap list strings numbers sorting relations.
From S2P Require Import Prelude Text Hir Diagnostics Ast Modules ModuleCycles ModulesTheorems.
Open Scope string_scope.
Open Scope list_scope.

Definition pending_imports (sources : list ModuleSource) : list PendingImport :=
  flat_map (pending_of (module_ids sources) (empty_modules (module_ids sources))) sources.

Definition collected (sources : list ModuleSource) : CollectedSources :=
  collect_sources sources (module_ids sources) (empty_modules (module_ids sources)).

Lemma elem_of_flat_map {A B} (g : A → list B) l y : y ∈ flat_map g l ↔ ∃ x, x ∈ l ∧ y ∈ g x.
Proof.
  rewrite list_elem_of_In, in_flat_map. by setoid_rewrite list_elem_of_In.
Qed.

(** Where a pending import comes from. *)
Lemma elem_of_pending sources p :
  p ∈ pending_imports sources ↔
  ∃ s name, s ∈ sources ∧ source_module s = Some name ∧ module_ids sources !! name = Some (pi_owner p) ∧
    pi_node p ∈ ast_imports (src_ast s) ∧ pi_file p = src_file s.
Proof.
  unfold pending_imports. rewrite elem_of_flat_map. split.
  - intros (s&Hs&Hp). unfold pending_of in Hp. destruct (source_module s) as [name|] eqn:Hn; simpl in Hp; [|by apply elem_of_nil in Hp].
    destruct (module_ids sources !! name) as [id|] eqn:Hid; [|by apply elem_of_nil in Hp].
    destruct (empty_modules _ !! id); [|by apply elem_of_nil in Hp].
    apply list_elem_of_fmap in Hp as (node&->&Hnode). by exists s, name.
  - intros (s&name&Hs&Hn&Hid&Hnode&Hf). exists s. split; [done|]. unfold pending_of. rewrite Hn. simpl. rewrite Hid.
    destruct (empty_modules_lookup _ _ _ Hid) as [x ->]. apply list_elem_of_fmap. exists (pi_node p).
    split; [|done]. rewrite <-Hf. by destruct p.
Qed.

Lemma link_sources_ok sources :
  linked_ok (module_ids sources) (pending_imports sources) (link_sources sources) ∧
  graph_grows {| lk_modules := cl_modules (collected sources); lk_sites := ∅;
                 lk_diagnostics := cl_diagnostics (collected sources) |} (link_sources sources) ∧
  ∀ p, p ∈ pending_imports sources → un_path (pi_node p) ≠ [] → handled (module_ids sources) (link_sources sources) p.
Proof.
  destruct (collect_sources_frame sources (module_ids sources) (empty_modules (module_ids sources))) as [Hframe Hpend].
  unfold link_sources. fold (collected sources). cbv zeta. unfold resolve_imports.
  fold (collected sources) in Hframe, Hpend. fold (pending_imports sources) in Hpend. rewrite Hpend.
  assert (∀ id m, cl_modules (collected sources) !! id = Some m → rm_imports m = ∅ ∧ rm_dependencies m = ∅) as Hfresh.
  { intros id m Hm. specialize (Hframe id). rewrite Hm in Hframe.
    apply fmap_Some in Hframe as (x&[name ->]%empty_modules_empty&[= _ -> ->]). done. }
  destruct (resolve_all_ok (module_ids sources) (pending_imports sources) (pending_imports sources)
    {| lk_modules := cl_modules (collected sources); lk_sites := ∅; lk_diagnostics := cl_diagnostics (collected sources) |})
    as (Hok&Hg&Hh); [done| |].
  - split; simpl.
    + intros id m local i [-> _]%Hfresh. by rewrite lookup_empty.
    + intros id m t [_ ->]%Hfresh. by intros ?%elem_of_empty.
    + intros a b v. by rewrite lookup_empty.
  - split_and!; [done..|]. intros p Hp Hne. apply Hh; [done..|]. simpl.
    apply elem_of_pending in Hp as (s&name&_&_&Hid&_). apply empty_modules_lookup in Hid as [x Hx].
    destruct (same_frame_Some _ _ _ _ Hframe Hx) as (y&Hy&_). by rewrite Hy.
Qed.

(** A linked module carries the name its id stands for. *)
Lemma linked_name sources id m :
  lk_modules (link_sources sources) !! id = Some m → module_ids sources !! rm_name m = Some id.
Proof.
  intros Hm. destruct (link_sources_ok sources) as (_&Hg&_).
  destruct (collect_sources_frame sources (module_ids sources) (empty_modules (module_ids sources))) as [Hframe _].
  fold (collected sources) in Hframe.
  destruct (cl_modules (collected sources) !! id) as [x|] eqn:Hx.
  - destruct (gg_modules _ _ Hg id x Hx) as (m'&Hm'&[Hname _ _ _]). replace m' with m in * by congruence. rewrite Hname.
    specialize (Hframe id). rewrite Hx in Hframe. apply fmap_Some in Hframe as (y&Hy&[= -> _ _]).
    by apply empty_modules_name.
  - apply (gg_nothing_new _ _ Hg) in Hx. congruence.
Qed.

Lemma linked_definitions sources id m :
  lk_modules (link_sources sources) !! id = Some m →
  ∃ x, cl_modules (collected sources) !! id = Some x ∧ rm_definitions m = rm_definitions x.
Proof.
  intros Hm. destruct (link_sources_ok sources) as (_&Hg&_).
  destruct (cl_modules (collected sources) !! id) as [x|] eqn:Hx.
  - destruct (gg_modules _ _ Hg id x Hx) as (m'&Hm'&[_ Hd _ _]). exists x. split; [done|congruence].
  - apply (gg_nothing_new _ _ Hg) in Hx. congruence.
Qed.

(** Sizes that keep every id below the saturation point of [u32]. *)
Definition ids_fit (sources : list ModuleSource) : Prop :=
  (N.of_nat (length sources + item_count sources) ≤ u32_max)%N.

Lemma definition_ids_unique sources id id' m m' name name' d d' :
  ids_fit sources →
  lk_modules (link_sources sources) !! id = Some m → rm_definitions m !! name = Some d →
  lk_modules (link_sources sources) !! id' = Some m' → rm_definitions m' !! name' = Some d' →
  md_id d = md_id d' → id = id' ∧ name = name'.
Proof.
  intros Hfit (x&Hx&->)%linked_definitions Hd (x'&Hx'&->)%linked_definitions Hd' Heq.
  unfold ids_fit in Hfit.
  destruct (collect_sources_ok sources (module_ids sources) (empty_modules (module_ids sources))) as [_ Hfiled Hdist].
  { lia. }
  { apply empty_modules_empty. }
  fold (collected sources) in Hfiled, Hdist.
  destruct (Hfiled _ _ _ _ Hx Hd) as (_&Hid&_), (Hfiled _ _ _ _ Hx' Hd') as (_&Hid'&_).
  assert (id = id') as <- by congruence. split; [done|]. replace x' with x in * by congruence.
  by eapply Hdist.
Qed.

(** Import resolution is exact: a module's import stands for an import
    statement of one of its files, names a public definition of the module
    its path names, and never hides a definition of the importing module; a
    definition id belongs to one definition; and each import statement with a
    path is recorded or reported at its place. *)
Theorem imports_resolve_exactly sources :
  ids_fit sources →
  let l := link_sources sources in
  (∀ id m local i, lk_modules l !! id = Some m → rm_imports m !! local = Some i →
     ∃ s node path symbol tid tm d,
       s ∈ sources ∧ source_module s = Some (rm_name m) ∧ node ∈ ast_imports (src_ast s) ∧
       un_path node = path ++ [symbol] ∧ lk_modules l !! tid = Some tm ∧ rm_name tm = path_name path ∧
       rm_definitions tm !! symbol = Some d ∧ md_public d = true ∧ ri_definition i = md_id d ∧
       ri_span i = un_span node ∧ local = default symbol (un_alias node) ∧ rm_definitions m !! local = None) ∧
  (∀ id id' m m' name name' d d',
     lk_modules l !! id = Some m → rm_definitions m !! name = Some d →
     lk_modules l !! id' = Some m' → rm_definitions m' !! name' = Some d' →
     md_id d = md_id d' → id = id' ∧ name = name') ∧
  (∀ s name node, s ∈ sources → source_module s = Some name → node ∈ ast_imports (src_ast s) → un_path node ≠ [] →
     (∃ id m i, lk_modules l !! id = Some m ∧ rm_name m = name ∧ rm_imports m !! ri_local_name i = Some i ∧
        ri_span i = un_span node) ∨
     (∃ d, d ∈ lk_diagnostics l ∧ is_error d = true ∧ file d = src_file s ∧ diagnostic_span d = un_span node)).
Proof.
  intros Hfit l. pose proof (link_sources_ok sources) as ([Himp Hdep Hsites]&Hg&Hh).
  assert (N.of_nat (length sources) ≤ u32_max)%N as Hlen by (unfold ids_fit in Hfit; lia).
  split_and!.
  - intros id m local i Hm Hi.
    destruct (Himp _ _ _ _ Hm Hi) as (p&Hp&Hown&path&symbol&tid&tm&d&Hpath&Hid&_&Htm&Hd&Hpub&->&->&Hfree).
    apply elem_of_pending in Hp as (s&name&Hs&Hn&Hname&Hnode&_). rewrite Hown in Hname.
    assert (name = rm_name m) as -> by (eapply module_ids_inj; [done..|by apply linked_name]).
    assert (rm_name tm = path_name path) by (eapply module_ids_inj; [done|by apply linked_name|done]).
    exists s, (pi_node p), path, symbol, tid, tm, d. by split_and!.
  - intros id id' m m' name name' d d'. by apply definition_ids_unique.
  - intros s name node Hs Hn Hnode Hne. destruct (module_ids_known _ _ _ Hs Hn) as [id Hid].
    set (p := {| pi_owner := id; pi_file := src_file s; pi_node := node |}).
    assert (p ∈ pending_imports sources) as Hp by (apply elem_of_pending; by exists s, name).
    destruct (Hh p Hp Hne) as [(m&i&Hm&(path&symbol&tid&tm&d&?&?&?&?&?&?&->&?&?)&Hi)|(d&Hd&Hf&Hsp&Hsev)].
    + left. exists id, m, (import_of p symbol d). split_and!; [done| |done..].
      eapply module_ids_inj; [done|by apply linked_name|done].
    + right. exists d. split_and!; try done. unfold is_error. by rewrite Hsev.
Qed.

(** ** Cycles *)

Lemma cycle_diagnostic_shape modules sites (c : list N) :
  is_cycle (depends modules) c →
  (∀ a b m, modules !! a = Some m → b ∈ rm_dependencies m → is_Some (sites !! (a, b))) →
  ∃ a b site, head c = Some a ∧ sites !! (a, b) = Some site ∧
    cycle_diagnostic modules sites c =
      [module_error "SYL2404" ("module dependency cycle: " +:+ join " -> " (omap (λ id, rm_name <$> modules !! id) c))
         site.1 site.2].
Proof.
  intros [(a&mid&Hc) Hf _] Hsites.
  assert (∃ b rest, c = a :: b :: rest) as (b&rest&Hc').
  { destruct mid as [|b mid]; simpl in Hc; eauto. }
  destruct (Hf 0%nat a b) as (m&Hm&Hb); [by rewrite Hc'|by rewrite Hc'|].
  destruct (Hsites _ _ _ Hm Hb) as [site Hsite]. exists a, b, site. rewrite Hc' at 1. split_and!; [done..|].
  unfold cycle_diagnostic.
  assert (head c ≫= (λ id, modules !! id) = Some m) as -> by (by rewrite Hc').
  assert (match c with a :: b :: _ => sites !! (a, b) | _ => None end = Some site) as -> by (by rewrite Hc').
  done.
Qed.

(** The analysis of a project always ends, and reports a dependency cycle
    exactly when there is one: without a report no module depends on itself,
    directly or through others; otherwise the one added diagnostic spells out
    a simple cycle of dependencies and stands at an import statement. *)
Theorem module_cycles_reported {Analysis} (body_diagnostics : Analysis → list Diagnostic) analyze sha256 sources :
  let l := link_sources (stable_sort source_le sources) in
  ∃ a, analyze_modules body_diagnostics analyze sha256 sources = Some a ∧
    let bodies := flat_map (λ '(_, x), body_diagnostics x) (entries (ma_source_analyses a)) in
    ((∀ x, ¬ tc (depends (lk_modules l)) x x) ∧ ma_diagnostics a ≡ₚ lk_diagnostics l ++ bodies) ∨
    (∃ c d s node, is_cycle (depends (lk_modules l)) c ∧ ma_diagnostics a ≡ₚ lk_diagnostics l ++ d :: bodies ∧
       code d = "SYL2404" ∧
       message d = Text ("module dependency cycle: " +:+ join " -> " (omap (λ id, rm_name <$> lk_modules l !! id) c)) ∧
       s ∈ sources ∧ node ∈ ast_imports (src_ast s) ∧ file d = src_file s ∧ diagnostic_span d = un_span node).
Proof.
  intros l. pose proof (link_sources_ok (stable_sort source_le sources)) as ([_ Hdep Hsites]&_&_). fold l in Hdep, Hsites.
  destruct (find_cycle_exact (lk_modules l)) as (r&Hr&Hspec).
  { intros a b (m&Hm&Hb). by destruct (Hdep _ _ _ Hm Hb). }
  unfold analyze_modules. fold l. rewrite Hr. eexists. split; [done|].
  cbn [ma_diagnostics ma_source_analyses]. destruct r as [c|].
  - right. destruct (cycle_diagnostic_shape (lk_modules l) (lk_sites l) c Hspec) as (a&b&site&_&Hsite&->).
    { intros a b m Hm Hb. by destruct (Hdep _ _ _ Hm Hb). }
    destruct (Hsites _ _ _ Hsite) as (p&Hp&_&->).
    apply elem_of_pending in Hp as (s&name&Hs&_&_&Hnode&Hfile).
    eexists c, _, s, (pi_node p). split_and!; [done|apply stable_sort_perm|done|done| |done..].
    by rewrite stable_sort_perm in Hs.
  - left. split; [done|]. apply stable_sort_perm.
Qed.

(** ** Order of the sources *)

(** The analysis does not depend on the order in which source files with
    distinct names are given. *)
Theorem module_analysis_order_independent {Analysis} (body_diagnostics : Analysis → list Diagnostic) analyze sha256
    sources sources' :
  sources ≡ₚ sources' → NoDup (src_file <$> sources) →
  analyze_modules body_diagnostics analyze sha256 sources = analyze_modules body_diagnostics analyze sha256 sources'.
Proof.
  intros Hp Hnd. unfold analyze_modules.
  rewrite (stable_sort_unique source_le) with (k := sources'); [done|..].
  - intros x y. unfold source_le. rewrite bool_decide_eq_false, bool_decide_eq_true.
    intros Hn. by destruct (total string_le (src_file x) (src_file y)).
  - intros x y z. unfold source_le. rewrite !bool_decide_eq_true. apply transitivity.
  - done.
  - intros x y [i Hi]%list_elem_of_lookup [j Hj]%list_elem_of_lookup. unfold source_le. rewrite !bool_decide_eq_true.
    intros H1 H2. pose proof (anti_symm string_le _ _ H1 H2) as Heq.
    assert (i = j) as <-; [|congruence].
    eapply NoDup_lookup; [exact Hnd|by rewrite list_lookup_fmap, Hi|by rewrite list_lookup_fmap, Hj, Heq].
Qed.

(** ** Interface hashes *)

(** What [interface_hash] looks at in a declaration: a function keeps its name,
    parameters, result and [async]; types keep their fields and variants; of
    agents, pipelines and safety bounds only the name is left. *)
Definition exported_face (item : Item) : Item :=
  match item with
  | ItemFunction n =>
      ItemFunction {| fnn_attributes := []; fnn_public := fnn_public n;
                      fnn_asynchronous := fnn_asynchronous n; fnn_name := fnn_name n;
                      fnn_parameters := fnn_parameters n; fnn_return_type := fnn_return_type n;
                      fnn_effects := None; fnn_body := mkBody [] default_span; fnn_span := default_span |}
  | ItemAgent n =>
      ItemAgent {| ag_public := ag_public n; ag_name := ag_name n; ag_fields := []; ag_span := default_span |}
  | ItemPipeline n =>
      ItemPipeline {| pn_public := pn_public n; pn_name := pn_name n; pn_parameters := [];
                      pn_return_type := None; pn_fields := []; pn_span := default_span |}
  | ItemSafetyBound n =>
      ItemSafetyBound {| sb_public := sb_public n; sb_name := sb_name n; sb_parameters := [];
                         sb_fields := []; sb_span := default_span |}
  | _ => item
  end.

Definition exported_source (s : ModuleSource) : ModuleSource :=
  {| src_file := ""; src_ast :=
       {| ast_module := ast_module (src_ast s); ast_imports := [];
          ast_items := map exported_face (List.filter item_public (ast_items (src_ast s)));
          ast_span := default_span |} |}.

Lemma exported_face_signature item : item_signature (exported_face item) = item_signature item.
Proof. by destruct item. Qed.

Lemma exported_face_public item : item_public (exported_face item) = item_public item.
Proof. by destruct item. Qed.

Lemma exported_signatures items :
  map item_signature (List.filter item_public (map exported_face (List.filter item_public items))) =
  map item_signature (List.filter item_public items).
Proof.
  induction items as [|item items IH]; simpl; [done|]. destruct (item_public item) eqn:E; [|done].
  simpl. rewrite exported_face_public, E. simpl. by rewrite exported_face_signature, IH.
Qed.

(** An interface hash is a function of the exported faces alone: private
    declarations and bodies do not change it, as documented, and neither do
    the declared effects of a public function or the parameters, result and
    properties of a public pipeline, agent or safety bound. *)
Theorem interface_hash_of_faces sha256 m sources :
  interface_hash sha256 m (map exported_source sources) = interface_hash sha256 m sources.
Proof.
  unfold interface_hash, interface_text. do 3 f_equal. induction sources as [|s sources IH]; simpl; [done|].
  change (source_module (exported_source s)) with (source_module s).
  destruct (bool_decide _); simpl; [|done]. by rewrite exported_signatures, IH.
Qed.

(** ** Instances *)

Definition plain (name : string) : TypeNode := mkType (TkPath [name] []) default_span.

Definition public_function (name : string) : Item :=
  ItemFunction {| fnn_attributes := []; fnn_public := true; fnn_asynchronous := false; fnn_name := name;
                  fnn_parameters := []; fnn_return_type := Some (plain "I64"); fnn_effects := None;
                  fnn_body := mkBody [] default_span; fnn_span := default_span |}.

Definition module_source (file name : string) (imports : list (list string)) (items : list Item) : ModuleSource :=
  {| src_file := file;
     src_ast := {| ast_module := Some {| mn_path := [name]; mn_span := default_span |};
                   ast_imports := map (λ path, {| un_path := path; un_alias := None; un_span := default_span |}) imports;
                   ast_items := items; ast_span := default_span |} |}.

(** Two modules that import each other, and an import that fails. *)
Definition two_modules : list ModuleSource :=
  [module_source "a.syl" "a" [["b"; "g"]; ["c"; "h"]] [public_function "f"];
   module_source "b.syl" "b" [["a"; "f"]] [public_function "g"]].

Lemma two_modules_analysed :
  (λ c, code c) <$> lk_diagnostics (link_sources two_modules) = ["SYL2401"] ∧
  find_cycle (lk_modules (link_sources two_modules)) = Some (Some [0; 1; 0]%N).
Proof. by vm_compute. Qed.

Lemma imports_resolve_exactly_witness :
  (∃ m i, lk_modules (link_sources two_modules) !! 0%N = Some m ∧ rm_imports m !! "g" = Some i) ∧
  ids_fit two_modules ∧
  ∀ id m local i, lk_modules (link_sources two_modules) !! id = Some m → rm_imports m !! local = Some i →
    rm_definitions m !! local = None.
Proof.
  split; [|split].
  - eexists _, _. split; reflexivity.
  - by vm_compute.
  - intros id m local i Hm Hi.
    destruct (imports_resolve_exactly two_modules) as (H&_&_); [by vm_compute|].
    destruct (H id m local i Hm Hi) as (s&node&path&symbol&tid&tm&d&Hall).
    apply Hall.
Defined.

Lemma module_analysis_order_independent_witness :
  analyze_modules (λ ds, ds) (λ _ _ _, []) (λ x, x) two_modules =
  analyze_modules (λ ds, ds) (λ _ _ _, []) (λ x, x) (rev two_modules).
Proof.
  apply module_analysis_order_independent.
  - apply Permutation_swap.
  - apply (bool_decide_unpack _). by vm_compute.
Defined.
