(* ===== verification/Ownership.v ===== *)
(** * Ownership checker (crates/syllog-semantic/src/ownership.rs)

    [FunctionChecker] walks a function body with a map of variables and reports
    uses of moved values, conflicting borrows and escaping references.  The
    checker's two mutable fields, the variables and the diagnostics, are the
    record [Checker] every operation threads; [self.file] and [self.function]
    are arguments.  The recursive calls of [check_expr] on blocks and match arms
    are passed to the operations that make them. *)

From Stdlib Require Import Ascii.
From stdpp Require Import base gmap list strings numbers sorting.
From S2P Require Import Prelude Text Ir Hir Diagnostics Ast.
Open Scope string_scope.
Open Scope list_scope.

Inductive OwnershipState :=
| Available
| Moved
| SharedBorrowed (count : N)
| MutBorrowed.

Inductive Origin := OriginParameter | OriginLocal.

Record OwnedVariable := {
  v_state : OwnershipState;
  v_copy : bool;
  v_origin : Origin;
  v_borrow : option (string * bool)
}.

Inductive UseMode := Consume | Read.

#[export] Instance ownership_state_eq_dec : EqDecision OwnershipState.
Proof. solve_decision. Defined.
#[export] Instance origin_eq_dec : EqDecision Origin.
Proof. solve_decision. Defined.
#[export] Instance use_mode_eq_dec : EqDecision UseMode.
Proof. solve_decision. Defined.

Abbreviation variable_map := (gmap string OwnedVariable).

Record Checker := { ck_variables : variable_map; ck_diagnostics : list Diagnostic }.

Definition with_state (s : OwnershipState) (v : OwnedVariable) : OwnedVariable :=
  {| v_state := s; v_copy := v_copy v; v_origin := v_origin v; v_borrow := v_borrow v |}.

Definition without_borrow (v : OwnedVariable) : OwnedVariable :=
  {| v_state := v_state v; v_copy := v_copy v; v_origin := v_origin v; v_borrow := None |}.

Definition with_variables (vars : variable_map) (k : Checker) : Checker :=
  {| ck_variables := vars; ck_diagnostics := ck_diagnostics k |}.

(** [self.variables.get_mut(name)] and an assignment to its state. *)
Definition set_state (name : string) (s : OwnershipState) (k : Checker) : Checker :=
  with_variables (alter (with_state s) name (ck_variables k)) k.

(** ** Names, copies and uses *)

Fixpoint place_name (e : Expr) : option string :=
  match e with
  | Ex (EPath [name]) _ => Some name
  | Ex (ELiteral (LitIdentifier name)) _ => Some name
  | Ex (EField base _) _ => place_name base
  | _ => None
  end.

Definition borrow_target (e : Expr) : option (string * bool) :=
  match ex_kind e with
  | EBorrow mutable operand => (λ name, (name, mutable)) <$> place_name operand
  | _ => None
  end.

(** [width.chars().all(|character| character.is_ascii_digit())] *)
Fixpoint all_digits (s : string) : bool :=
  match s with
  | EmptyString => true
  | String c s => bool_decide (48 ≤ N_of_ascii c)%N && bool_decide (N_of_ascii c ≤ 57)%N && all_digits s
  end.

(** [name.strip_prefix(['I', 'U', 'F'])] followed by the digit test. *)
Definition numeric_name (name : string) : bool :=
  match name with
  | String c width =>
      (bool_decide (c = "I"%char) || bool_decide (c = "U"%char) || bool_decide (c = "F"%char))
      && all_digits width
  | EmptyString => false
  end.

Fixpoint type_is_copy (ty : TypeNode) : bool :=
  match ty with
  | mkType kind _ =>
      match kind with
      | TkReference _ mutable _ => negb mutable
      | TkTuple items => forallb type_is_copy items
      | TkPath [name] [] =>
          existsb (λ n, bool_decide (name = n)) ["Bool"; "Char"; "Duration"; "Size"; "Str"] || numeric_name name
      | TkArray _ | TkPath _ _ => false
      end
  end.

(** [variables.get(name).is_none_or(|variable| variable.copy)] *)
Definition name_is_copy (vars : variable_map) (name : string) : bool :=
  match vars !! name with Some v => v_copy v | None => true end.

Definition expression_is_copy (e : Expr) (vars : variable_map) : bool :=
  match ex_kind e with
  | ELiteral (LitString _) | EArray _ => false
  | EBorrow mutable _ => negb mutable
  | EPath [name] => name_is_copy vars name
  | ELiteral (LitIdentifier name) => name_is_copy vars name
  | _ => true
  end.

Abbreviation uses_map := (gmap string nat).

(** [block_last_uses], with the recursive call on expressions as an argument. *)
Definition block_last_uses_with (collect : Expr → nat → uses_map → uses_map) (block : Block) : uses_map :=
  snd (foldl (λ '(index, uses) s,
      (S index, match st_kind s with
                | SLet _ _ e | SExpression e | SReturn (Some e) => collect e index uses
                | SReturn None => uses
                end))
    (0%nat, ∅) (body_statements block)).

Fixpoint collect_uses (e : Expr) (index : nat) (uses : uses_map) : uses_map :=
  let uses := match place_name e with Some name => <[name := index]> uses | None => uses end in
  match e with
  | Ex kind _ =>
      match kind with
      | EBorrow _ operand | EAwait operand | EUnary _ operand | EField operand _ =>
          collect_uses operand index uses
      | EArray items => foldl (λ uses item, collect_uses item index uses) uses items
      | ECall callee arguments =>
          foldl (λ uses a, collect_uses (argument_value a) index uses) (collect_uses callee index uses) arguments
      | EBinary _ lhs rhs => collect_uses rhs index (collect_uses lhs index uses)
      | EMatch value arms =>
          foldl (λ uses arm,
              collect_uses (arm_body arm) index
                match arm_guard arm with Some g => collect_uses g index uses | None => uses end)
            (collect_uses value index uses) arms
      | EBlock block =>
          foldl (λ uses '(name, _), <[name := index]> uses) uses
            (entries (block_last_uses_with collect_uses block))
      | ELiteral _ | EPath _ => uses
      end
  end.

Definition block_last_uses (block : Block) : uses_map := block_last_uses_with collect_uses block.

(** ** Operations of the checker *)

Section checker.
Context (file : string).

(** [self.error] *)
Definition report (code message : string) (span : Span) (k : Checker) : Checker :=
  {| ck_variables := ck_variables k;
     ck_diagnostics := ck_diagnostics k ++
       [{| code := code; severity := SeverityError; message := Text message;
           Diagnostics.file := file; diagnostic_span := span |}] |}.

Definition name_text (before name after : string) : string := before +:+ "'" +:+ name +:+ "'" +:+ after.

Definition use_variable (name : string) (mode : UseMode) (span : Span) (k : Checker) : Checker :=
  match ck_variables k !! name with
  | None => k
  | Some v =>
      match v_state v with
      | Moved => report "SYL2602" (name_text "use of moved value " name "") span k
      | state =>
          if bool_decide (mode = Consume) && negb (v_copy v) then
            match state with
            | SharedBorrowed _ | MutBorrowed =>
                report "SYL2605" (name_text "cannot move " name " while it is borrowed") span k
            | _ => set_state name Moved k
            end
          else k
      end
  end.

Definition borrow (operand : Expr) (mutable : bool) (k : Checker) : Checker :=
  match place_name operand with
  | None => k
  | Some name =>
      match ck_variables k !! name with
      | None => k
      | Some v =>
          match mutable, v_state v with
          | _, Moved => report "SYL2602" (name_text "cannot borrow moved value " name "") (ex_span operand) k
          | true, Available => set_state name MutBorrowed k
          | false, Available => set_state name (SharedBorrowed 1) k
          | false, SharedBorrowed count => set_state name (SharedBorrowed (u32_saturating_add count 1)) k
          | _, _ => report "SYL2603" (name_text "borrow of " name " conflicts with an overlapping borrow")
                      (ex_span operand) k
          end
      end
  end.

(** The state of a variable after one of its borrows ends. *)
Definition released (mutable : bool) (s : OwnershipState) : OwnershipState :=
  match mutable, s with
  | true, MutBorrowed => Available
  | false, SharedBorrowed count => if bool_decide (count = 1%N) then Available else SharedBorrowed (N.pred count)
  | _, _ => s
  end.

Definition release_borrow (binding : string) (k : Checker) : Checker :=
  match ck_variables k !! binding ≫= v_borrow with
  | None => k
  | Some (target, mutable) =>
      with_variables
        (alter without_borrow binding
          (alter (λ v, with_state (released mutable (v_state v)) v) target (ck_variables k))) k
  end.

Definition is_borrowed (s : OwnershipState) : bool :=
  match s with SharedBorrowed _ | MutBorrowed => true | _ => false end.

Definition borrowed_targets (k : Checker) : list string :=
  (List.filter (λ '(_, v), is_borrowed (v_state v)) (entries (ck_variables k))).*1.

(** The reports of an [await] with borrows before or after its operand. *)
Definition report_suspended (names : list string) (span : Span) (k : Checker) : Checker :=
  foldl (λ k name,
    report "SYL2606" (name_text "borrow of " name
      " crosses an await suspension; move owned data into the task or end the borrow first") span k)
    k (sort_strings names).

Definition check_return_escape (e : Expr) (k : Checker) : Checker :=
  let target :=
    match ex_kind e with
    | EBorrow _ operand => place_name operand
    | EPath [name] => fst <$> (ck_variables k !! name ≫= v_borrow)
    | _ => None
    end in
  match target with
  | None => k
  | Some target =>
      match ck_variables k !! target with
      | Some v =>
          if bool_decide (v_origin v = OriginLocal)
          then report "SYL2604" (name_text "reference to local " target " escapes its region") (ex_span e) k
          else k
      | None => k
      end
  end.

(** The state of a variable after a match, from its states after the arms. *)
Definition merged_state (states : list OwnershipState) : OwnershipState :=
  if bool_decide (Moved ∈ states) then Moved
  else if bool_decide (MutBorrowed ∈ states) then MutBorrowed
  else
    let shared := foldr N.max 0%N (omap (λ s, match s with SharedBorrowed c => Some c | _ => None end) states) in
    if bool_decide (shared = 0%N) then Available else SharedBorrowed shared.

Definition merge_branches (before : variable_map) (branches : list variable_map) : variable_map :=
  map_imap (λ name v, Some (with_state (merged_state (omap (λ b, v_state <$> (b !! name)) branches)) v)) before.

(** [check_match_arms] *)
Definition check_match_arms_with (check : Expr → UseMode → Checker → Checker) (arms : list MatchArm)
    (k : Checker) : Checker :=
  let before := ck_variables k in
  let '(k, branches) :=
    foldl (λ '(k, branches) arm,
        let k := with_variables before k in
        let k := match arm_guard arm with Some g => check g Read k | None => k end in
        let k := check (arm_body arm) Consume k in
        (k, branches ++ [ck_variables k]))
      (k, []) arms in
  with_variables (merge_branches before branches) k.

Abbreviation shadow_map := (gmap string (option OwnedVariable)).

(** The statement at [index]; [shadowed] keeps what a name stood for before the block. *)
Definition check_statement_with (check : Expr → UseMode → Checker → Checker) (s : Statement)
    (shadowed : shadow_map) (k : Checker) : shadow_map * Checker :=
  match st_kind s with
  | SLet name ty value =>
      let k := check value Consume k in
      let copy := match ty with
                  | Some ty => type_is_copy ty
                  | None => expression_is_copy value (ck_variables k)
                  end in
      let shadowed := match shadowed !! name with
                      | Some _ => shadowed
                      | None => <[name := ck_variables k !! name]> shadowed
                      end in
      let k := release_borrow name k in
      (shadowed,
       with_variables (<[name := {| v_state := Available; v_copy := copy; v_origin := OriginLocal;
                                    v_borrow := borrow_target value |}]> (ck_variables k)) k)
  | SReturn (Some value) => (shadowed, check value Consume (check_return_escape value k))
  | SReturn None => (shadowed, k)
  | SExpression value => (shadowed, check value Consume k)
  end.

(** The bindings whose last use has passed give their borrows back. *)
Definition end_borrows (last_uses : uses_map) (index : nat) (k : Checker) : Checker :=
  foldl (λ k name, release_borrow name k) k
    (List.filter (λ '(name, v),
        bool_decide (is_Some (v_borrow v)) && bool_decide (default index (last_uses !! name) ≤ index)%nat)
      (entries (ck_variables k))).*1.

Definition restore (k : Checker) (entry : string * option OwnedVariable) : Checker :=
  let '(name, previous) := entry in
  let k := release_borrow name k in
  with_variables match previous with
                 | Some v => <[name := v]> (ck_variables k)
                 | None => delete name (ck_variables k)
                 end k.

(** [check_block] *)
Definition check_block_with (check : Expr → UseMode → Checker → Checker) (block : Block) (k : Checker)
    : Checker :=
  let last_uses := block_last_uses block in
  let '(_, shadowed, k) :=
    foldl (λ '(index, shadowed, k) s,
        let '(shadowed, k) := check_statement_with check s shadowed k in
        (S index, shadowed, end_borrows last_uses index k))
      (0%nat, ∅, k) (body_statements block) in
  foldl restore k (entries shadowed).

Fixpoint check_expr (e : Expr) (mode : UseMode) (k : Checker) : Checker :=
  match e with
  | Ex kind span =>
      match kind with
      | EBorrow mutable operand => borrow operand mutable k
      | EPath [name] => use_variable name mode span k
      | ELiteral (LitIdentifier name) => use_variable name mode span k
      | EArray items => foldl (λ k item, check_expr item Consume k) k items
      | ECall callee arguments =>
          foldl (λ k a, check_expr (argument_value a) Consume k) (check_expr callee Read k) arguments
      | EField base _ => check_expr base mode k
      | EUnary _ operand => check_expr operand mode k
      | EAwait operand =>
          let before := borrowed_targets k in
          let k := check_expr operand mode k in
          report_suspended (before ++ borrowed_targets k) span k
      | EBinary _ lhs rhs => check_expr rhs Read (check_expr lhs Read k)
      | EMatch value arms => check_match_arms_with check_expr arms (check_expr value Consume k)
      | EBlock block => check_block_with check_expr block k
      | ELiteral _ | EPath _ => k
      end
  end.

Definition check_block (block : Block) (k : Checker) : Checker := check_block_with check_expr block k.

(** ** Functions and files *)

Definition checker_new (f : FunctionNode) (diagnostics : list Diagnostic) : Checker :=
  {| ck_variables :=
       foldl (λ vars p, <[pa_name p := {| v_state := Available; v_copy := type_is_copy (pa_ty p);
                                          v_origin := OriginParameter; v_borrow := None |}]> vars)
         ∅ (fnn_parameters f);
     ck_diagnostics := diagnostics |}.

(** The lifetimes of the reference parameters. *)
Definition parameter_regions (f : FunctionNode) : list (option string) :=
  omap (λ p, match type_kind (pa_ty p) with TkReference lifetime _ _ => Some lifetime | _ => None end)
    (fnn_parameters f).

Definition check_signature_regions (f : FunctionNode) (k : Checker) : Checker :=
  match fnn_return_type f with
  | Some (mkType (TkReference result_region _ _) span) =>
      let sources := parameter_regions f in
      let valid := match result_region with
                   | Some region => bool_decide (Some region ∈ sources)
                   | None => bool_decide (length sources = 1%nat)
                   end in
      if valid then k
      else report "SYL2604" "returned reference lifetime is not tied to exactly one input reference" span k
  | _ => k
  end.

(** [FunctionChecker::check] *)
Definition check_function (f : FunctionNode) (diagnostics : list Diagnostic) : Checker :=
  check_block (fnn_body f) (check_signature_regions f (checker_new f diagnostics)).

Definition analyze_ownership (ast : Ast) : list Diagnostic :=
  foldl (λ diagnostics item,
      match item with
      | ItemFunction f => ck_diagnostics (check_function f diagnostics)
      | _ => diagnostics
      end) [] (ast_items ast).
End checker.
