(* ===== verification/OwnershipPaths.v ===== *)
(** * Execution paths and moves

    A path semantics of function bodies that keeps, for each variable in scope,
    whether its value is affine, whether its type is evident from the source, and
    whether the value has been moved.  A path takes one arm of every match, with the
    names of its pattern in scope and after the guards of the arms before it, and goes
    on after a [return], so that it covers every shorter path.  Its outcome is [None]
    when it uses or borrows a moved value. *)

From stdpp Require Import base gmap strings numbers list.
From S2P Require Import Prelude Text Hir Diagnostics Ast Ownership.
Open Scope string_scope.
Open Scope list_scope.

(** [evident]: the source says what the value is, by a declared type or by the literal,
    array or borrow it comes from.  The value of a call, a field, an operator, an
    await, a match or a block is opaque, and so is what a pattern binds: such a value
    counts as affine. *)
Record Owned := { affine : bool; evident : bool; moved : bool }.

Abbreviation env := (gmap string Owned).

Definition opaque : Owned := {| affine := true; evident := false; moved := false |}.
Definition known (is_affine : bool) : Owned := {| affine := is_affine; evident := true; moved := false |}.

(** The primitive types of fixed size. *)
Definition scalar_types : list string :=
  ["Bool"; "Char"; "I8"; "I16"; "I32"; "I64"; "I128"; "Isize"; "U8"; "U16"; "U32"; "U64"; "U128"; "Usize"; "F16"; "F32"; "F64";
   "Duration"; "Size"; "Str"].

(** Types whose values are copied: scalars, shared references and tuples of them. *)
Fixpoint copy_type (ty : TypeNode) : bool :=
  match ty with
  | mkType kind _ =>
      match kind with
      | TkReference _ mutable _ => negb mutable
      | TkTuple items => forallb copy_type items
      | TkPath [name] [] => bool_decide (name ∈ scalar_types)
      | TkArray _ | TkPath _ _ => false
      end
  end.

(** The value a [let] binds. *)
Definition bound_value (ty : option TypeNode) (e : Expr) (σ : env) : Owned :=
  match ty with
  | Some ty => known (negb (copy_type ty))
  | None =>
      match ex_kind e with
      | ELiteral (LitString _) | EArray _ => known true
      | EBorrow mutable _ => known mutable
      | EPath [name] | ELiteral (LitIdentifier name) =>
          match σ !! name with Some o => {| affine := affine o; evident := evident o; moved := false |} | None => opaque end
      | ELiteral _ => known false
      | _ => opaque
      end
  end.

(** The names a pattern binds. *)
Fixpoint bound_names (p : Pattern) : list string :=
  match p with
  | mkPattern (PkPath [name]) _ => [name]
  | mkPattern (PkConstructor _ fields) _ => flat_map bound_names fields
  | _ => []
  end.

Definition bind_names (names : list string) (σ : env) : env := foldr (λ x, <[x := opaque]>) σ names.

(** What the names declared in a block stood for before it. *)
Abbreviation shadows := (gmap string (option Owned)).

Definition restore_env (sh : shadows) (σ : env) : env :=
  merge (λ prev cur, match prev with Some p => p | None => cur end) sh σ.

Definition shadow (name : string) (σ : env) (sh : shadows) : shadows :=
  match sh !! name with Some _ => sh | None => <[name := σ !! name]> sh end.

(** What the names of a pattern stood for before it. *)
Definition shadow_names (names : list string) (σ : env) : shadows := foldr (λ x, <[x := σ !! x]>) ∅ names.

Inductive task :=
| Eval (e : Expr) (mode : UseMode)
| EvalAll (l : list (Expr * UseMode))
| Arms (arms : list MatchArm)
| Stmts (l : list Statement) (sh : shadows).

(** The parts of an expression that are evaluated one after the other. *)
Definition sequential (kind : ExprKind) (mode : UseMode) : option (list (Expr * UseMode)) :=
  match kind with
  | EArray items => Some (map (λ e, (e, Consume)) items)
  | ECall callee arguments => Some ((callee, Read) :: map (λ a, (argument_value a, Consume)) arguments)
  | EField e _ | EUnary _ e | EAwait e => Some [(e, mode)]
  | EBorrow _ e => match place_name e with Some _ => None | None => Some [(e, Read)] end
  | EBinary _ lhs rhs => Some [(lhs, Read); (rhs, Read)]
  | _ => None
  end.

(** The variable a leaf uses. *)
Definition leaf (kind : ExprKind) : option string :=
  match kind with
  | EPath [name] | ELiteral (LitIdentifier name) => Some name
  | _ => None
  end.

Definition inert (kind : ExprKind) : bool :=
  match kind with
  | ELiteral (LitIdentifier _) | EPath [_] => false
  | ELiteral _ | EPath _ => true
  | _ => false
  end.

Definition declare (name : string) (ty : option TypeNode) (value : Expr) (σ : env) : env :=
  <[name := bound_value ty value σ]> σ.

Section paths.
(** Whether the second use of a moved opaque value fails a path, as that of an evident
    one does. *)
Context (strict : bool).

(** Using a variable. *)
Definition use (name : string) (mode : UseMode) (σ : env) : option env :=
  match σ !! name with
  | None => Some σ
  | Some o =>
      if moved o then (if evident o || strict then None else Some σ)
      else if affine o && bool_decide (mode = Consume)
           then Some (<[name := {| affine := true; evident := evident o; moved := true |}]> σ) else Some σ
  end.

Inductive run : task → env → option env → Prop :=
| run_leaf kind span mode name σ :
    leaf kind = Some name → run (Eval (Ex kind span) mode) σ (use name mode σ)
| run_inert kind span mode σ :
    inert kind = true → run (Eval (Ex kind span) mode) σ (Some σ)
| run_borrow mutable operand name span mode σ :
    place_name operand = Some name → run (Eval (Ex (EBorrow mutable operand) span) mode) σ (use name Read σ)
| run_sequential kind span mode parts σ r :
    sequential kind mode = Some parts → run (EvalAll parts) σ r → run (Eval (Ex kind span) mode) σ r
| run_match_value value arms span mode σ :
    run (Eval value Consume) σ None → run (Eval (Ex (EMatch value arms) span) mode) σ None
| run_match value arms span mode σ σ1 r :
    run (Eval value Consume) σ (Some σ1) → run (Arms arms) σ1 r →
    run (Eval (Ex (EMatch value arms) span) mode) σ r
| run_block block span mode σ r :
    run (Stmts (body_statements block) ∅) σ r → run (Eval (Ex (EBlock block) span) mode) σ r
| run_done σ : run (EvalAll []) σ (Some σ)
| run_first e mode l σ :
    run (Eval e mode) σ None → run (EvalAll ((e, mode) :: l)) σ None
| run_next e mode l σ σ1 r :
    run (Eval e mode) σ (Some σ1) → run (EvalAll l) σ1 r → run (EvalAll ((e, mode) :: l)) σ r
| run_arm pattern guard body span arms σ r :
    run (EvalAll (match guard with Some g => [(g, Read)] | None => [] end ++ [(body, Consume)]))
      (bind_names (bound_names pattern) σ) r →
    run (Arms (mkMatchArm pattern guard body span :: arms)) σ (restore_env (shadow_names (bound_names pattern) σ) <$> r)
| run_skip_guard pattern g body span arms σ σ1 r :
    run (Eval g Read) (bind_names (bound_names pattern) σ) (Some σ1) →
    run (Arms arms) (restore_env (shadow_names (bound_names pattern) σ) σ1) r →
    run (Arms (mkMatchArm pattern (Some g) body span :: arms)) σ r
| run_skip_pattern arm arms σ r :
    run (Arms arms) σ r → run (Arms (arm :: arms)) σ r
| run_end sh σ : run (Stmts [] sh) σ (Some (restore_env sh σ))
| run_let_value name ty value span l sh σ :
    run (Eval value Consume) σ None → run (Stmts (mkStatement (SLet name ty value) span :: l) sh) σ None
| run_let name ty value span l sh σ σ1 r :
    run (Eval value Consume) σ (Some σ1) →
    run (Stmts l (shadow name σ1 sh)) (declare name ty value σ1) r →
    run (Stmts (mkStatement (SLet name ty value) span :: l) sh) σ r
| run_value_fails kind span e l sh σ :
    kind = SReturn (Some e) ∨ kind = SExpression e → run (Eval e Consume) σ None →
    run (Stmts (mkStatement kind span :: l) sh) σ None
| run_value kind span e l sh σ σ1 r :
    kind = SReturn (Some e) ∨ kind = SExpression e → run (Eval e Consume) σ (Some σ1) →
    run (Stmts l sh) σ1 r → run (Stmts (mkStatement kind span :: l) sh) σ r
| run_return span l sh σ r :
    run (Stmts l sh) σ r → run (Stmts (mkStatement (SReturn None) span :: l) sh) σ r.
End paths.

(** ** What a path keeps *)

(** The variables in scope, whether they are affine and whether that is evident. *)
Definition nature (o : Owned) : bool * bool := (affine o, evident o).
Definition same_scope (σ σ' : env) : Prop := ∀ x, nature <$> σ !! x = nature <$> σ' !! x.

#[export] Instance same_scope_equiv : Equivalence same_scope.
Proof.
  split; [by intros σ x|by intros σ σ' H x|]. intros σ1 σ2 σ3 H1 H2 x. by rewrite H1.
Qed.

Lemma lookup_restore sh σ x :
  restore_env sh σ !! x = match sh !! x with Some prev => prev | None => σ !! x end.
Proof. unfold restore_env. rewrite lookup_merge. by destruct (sh !! x), (σ !! x). Qed.

Lemma restore_scope sh σ σ' : same_scope σ σ' → same_scope (restore_env sh σ) (restore_env sh σ').
Proof. intros H x. rewrite !lookup_restore. by destruct (sh !! x). Qed.

Lemma restore_shadow name σ sh o :
  restore_env (shadow name σ sh) (<[name := o]> σ) = restore_env sh σ.
Proof.
  apply map_eq. intros x. rewrite !lookup_restore. unfold shadow. destruct (sh !! name) eqn:E.
  - destruct (decide (name = x)) as [<-|Hne]; [by rewrite E|]. by rewrite lookup_insert_ne.
  - destruct (decide (name = x)) as [<-|Hne]; [by rewrite lookup_insert_eq, E|]. by rewrite !lookup_insert_ne.
Qed.

Lemma lookup_bind_names names σ x : bind_names names σ !! x = if bool_decide (x ∈ names) then Some opaque else σ !! x.
Proof.
  induction names as [|y names IH]; [done|]. cbn. destruct (decide (y = x)) as [->|Hne].
  - rewrite lookup_insert_eq, bool_decide_eq_true_2; [done|by left].
  - rewrite lookup_insert_ne by done. etrans; [exact IH|].
    assert (bool_decide (x ∈ y :: names) = bool_decide (x ∈ names)) as -> by (apply bool_decide_ext; rewrite elem_of_cons; naive_solver). done.
Qed.

Lemma lookup_shadow_names names σ x : shadow_names names σ !! x = if bool_decide (x ∈ names) then Some (σ !! x) else None.
Proof.
  induction names as [|y names IH]; [done|]. cbn. destruct (decide (y = x)) as [->|Hne].
  - rewrite lookup_insert_eq, bool_decide_eq_true_2; [done|by left].
  - rewrite lookup_insert_ne by done. etrans; [exact IH|].
    assert (bool_decide (x ∈ y :: names) = bool_decide (x ∈ names)) as -> by (apply bool_decide_ext; rewrite elem_of_cons; naive_solver). done.
Qed.

Lemma restore_names names σ σ' x : restore_env (shadow_names names σ) σ' !! x = if bool_decide (x ∈ names) then σ !! x else σ' !! x.
Proof. rewrite lookup_restore, lookup_shadow_names. by case_bool_decide. Qed.

Lemma restore_bind_names names σ : restore_env (shadow_names names σ) (bind_names names σ) = σ.
Proof. apply map_eq. intros x. rewrite restore_names, lookup_bind_names. by case_bool_decide. Qed.

Lemma restore_names_scope names σ σ' : same_scope (bind_names names σ) σ' → same_scope σ (restore_env (shadow_names names σ) σ').
Proof. intros H x. rewrite restore_names. specialize (H x). rewrite lookup_bind_names in H. by case_bool_decide. Qed.

Section paths.
Context (strict : bool).

Lemma use_scope name mode σ σ' : use strict name mode σ = Some σ' → same_scope σ σ'.
Proof.
  unfold use. destruct (σ !! name) as [o|] eqn:E; [|by intros [= <-]]. destruct (moved o); [destruct (_ || _); [done|by intros [= <-]]|].
  destruct (affine o) eqn:Ha; simpl; [|by intros [= <-]]. case_bool_decide; [|by intros [= <-]]. intros [= <-] x.
  destruct (decide (name = x)) as [<-|Hne]; [rewrite lookup_insert_eq, E; unfold nature; simpl; by rewrite Ha|by rewrite lookup_insert_ne].
Qed.

Lemma run_scope t σ r :
  run strict t σ r → ∀ σ', r = Some σ' →
    match t with Stmts _ sh => same_scope (restore_env sh σ) σ' | _ => same_scope σ σ' end.
Proof.
  induction 1 as [kind span mode name σ Hl|kind span mode σ Hi|mutable operand name span mode σ Hn
    |kind span mode parts σ r Hs _ IH|value arms span mode σ _ IH|value arms span mode σ σ1 r _ IH1 _ IH2
    |block span mode σ r _ IH|σ|e mode l σ _ IH|e mode l σ σ1 r _ IH1 _ IH2|pattern guard body span arms σ r _ IH
    |pattern g body span arms σ σ1 r _ IH1 _ IH2|arm arms σ r _ IH|sh σ|name ty value span l sh σ _ IH
    |name ty value span l sh σ σ1 r _ IH1 _ IH2|kind span e l sh σ Hk _ IH|kind span e l sh σ σ1 r Hk _ IH1 _ IH2
    |span l sh σ r _ IH]; intros σ' Hr; simplify_eq/=; try done; eauto using use_scope.
  - etrans; eauto.
  - pose proof (IH _ eq_refl) as Hs. etrans; [|exact Hs]. intros x. rewrite lookup_restore. by rewrite lookup_empty.
  - etrans; eauto.
  - destruct r as [σ1|]; simplify_eq/=. apply restore_names_scope. eauto.
  - pose proof (restore_names_scope _ _ _ (IH1 _ eq_refl)) as H1. etrans; [exact H1|]. eauto.
  - pose proof (IH2 _ eq_refl) as Hs. unfold declare in Hs. rewrite restore_shadow in Hs.
    etrans; [|exact Hs]. apply restore_scope. eauto.
  - pose proof (IH2 _ eq_refl) as Hs. etrans; [|exact Hs]. apply restore_scope. eauto.
Qed.
End paths.

(** * The ownership checker finds every use of a moved value

    [tracks] relates the variables of the checker to a path: what a path has
    moved, the checker knows to be moved.  Every step of the checker keeps it or
    reports a diagnostic, and diagnostics are never withdrawn. *)

Open Scope string_scope.
Open Scope list_scope.

(** ** Diagnostics only grow *)

Definition more (k k' : Checker) : Prop := ∃ ds, ck_diagnostics k' = ck_diagnostics k ++ ds.
Definition quiet (k k' : Checker) : Prop := ck_diagnostics k' = ck_diagnostics k.

#[export] Instance more_preorder : PreOrder more.
Proof.
  split; [intros k; exists []; by rewrite app_nil_r|].
  intros k1 k2 k3 [d1 H1] [d2 H2]. exists (d1 ++ d2). by rewrite H2, H1, app_assoc.
Qed.

Lemma quiet_more k k' : quiet k k' → more k k'.
Proof. intros H. exists []. by rewrite app_nil_r. Qed.

Lemma quiet_split k1 k2 k3 : more k1 k2 → more k2 k3 → quiet k1 k3 → quiet k1 k2 ∧ quiet k2 k3.
Proof.
  intros [d1 H1] [d2 H2] H. unfold quiet in *. rewrite H2, H1, <-app_assoc in H.
  rewrite <-(app_nil_r (ck_diagnostics k1)) in H at 2. apply app_inv_head in H.
  apply app_nil in H as [-> ->]. by rewrite H2, H1, !app_nil_r.
Qed.

Lemma foldl_more {A} (g : Checker → A → Checker) l k :
  Forall (λ x, ∀ k, more k (g k x)) l → more k (foldl g k l).
Proof. intros H. revert k. induction H as [|x l Hx _ IH]; intros k; simpl; [done|]. etrans; [apply Hx|apply IH]. Qed.

Section checker.
Context (file : string).

Lemma report_more code message span k : more k (report file code message span k).
Proof. by eexists. Qed.

Lemma report_not_quiet code message span k : ¬ quiet k (report file code message span k).
Proof.
  unfold quiet, report. simpl. intros H. rewrite <-(app_nil_r (ck_diagnostics k)) in H at 2.
  by apply app_inv_head in H.
Qed.

Lemma use_variable_more name mode span k : more k (use_variable file name mode span k).
Proof.
  unfold use_variable. destruct (ck_variables k !! name) as [v|]; [|done].
  destruct (v_state v); repeat case_match; first [done|apply report_more|by apply quiet_more].
Qed.

Lemma borrow_more operand mutable k : more k (borrow file operand mutable k).
Proof.
  unfold borrow. destruct (place_name operand); [|done]. destruct (_ !! _) as [v|]; [|done].
  destruct mutable, (v_state v); first [apply report_more|by apply quiet_more].
Qed.

Lemma release_borrow_quiet name k : quiet k (release_borrow name k).
Proof. unfold release_borrow. by destruct (_ ≫= _) as [[]|]. Qed.

Lemma report_suspended_more names span k : more k (report_suspended file names span k).
Proof. apply foldl_more, Forall_forall. intros x _ k'. apply report_more. Qed.

Lemma check_return_escape_more e k : more k (check_return_escape file e k).
Proof.
  unfold check_return_escape. destruct (match ex_kind e with EBorrow _ _ => _ | _ => _ end); [|done].
  destruct (_ !! _); [|done]. case_bool_decide; [apply report_more|done].
Qed.

Lemma end_borrows_quiet uses index k : quiet k (end_borrows uses index k).
Proof.
  unfold end_borrows. generalize ((List.filter (λ '(name, v),
    bool_decide (is_Some (v_borrow v)) && bool_decide (default index (uses !! name) ≤ index)%nat)
      (entries (ck_variables k))).*1).
  intros l. revert k. induction l as [|x l IH]; intros k; simpl; [done|].
  unfold quiet. rewrite IH. apply release_borrow_quiet.
Qed.

Lemma restore_quiet k entry : quiet k (restore k entry).
Proof. destruct entry as [name previous]. unfold restore, quiet. simpl. apply release_borrow_quiet. Qed.

Lemma restores_quiet l k : quiet k (foldl restore k l).
Proof.
  revert k. induction l as [|x l IH]; intros k; simpl; [done|]. unfold quiet. rewrite IH. apply restore_quiet.
Qed.

(** The loops of the checker, as functions of the statements and arms left. *)
Definition block_loop (uses : uses_map) (check : Expr → UseMode → Checker → Checker)
    (st : nat * gmap string (option OwnedVariable) * Checker) (l : list Statement)
    : nat * gmap string (option OwnedVariable) * Checker :=
  foldl (λ '(index, shadowed, k) s,
    let '(shadowed, k) := check_statement_with file check s shadowed k in
    (S index, shadowed, end_borrows uses index k)) st l.

Definition arm_check (check : Expr → UseMode → Checker → Checker) (before : variable_map)
    (k : Checker) (arm : MatchArm) : Checker :=
  let k := with_variables before k in
  let k := match arm_guard arm with Some g => check g Read k | None => k end in
  check (arm_body arm) Consume k.

Definition arm_loop (check : Expr → UseMode → Checker → Checker) (before : variable_map)
    (st : Checker * list variable_map) (arms : list MatchArm) : Checker * list variable_map :=
  foldl (λ '(k, branches) arm,
    let k := arm_check check before k arm in (k, branches ++ [ck_variables k])) st arms.

Lemma check_match_arms_alt check arms k :
  check_match_arms_with check arms k =
  let '(k', branches) := arm_loop check (ck_variables k) (k, []) arms in
  with_variables (merge_branches (ck_variables k) branches) k'.
Proof. done. Qed.

Lemma check_block_alt check block k :
  check_block_with file check block k =
  let '(_, shadowed, k') := block_loop (block_last_uses block) check (0%nat, ∅, k) (body_statements block) in
  foldl restore k' (entries shadowed).
Proof. done. Qed.

Definition grows (check : Expr → UseMode → Checker → Checker) (e : Expr) : Prop :=
  ∀ mode k, more k (check e mode k).

Lemma statement_more check s shadowed k :
  Forall (grows check) (statement_children s) → more k (check_statement_with file check s shadowed k).2.
Proof.
  unfold check_statement_with, statement_children. destruct (st_kind s) as [name ty e|[e|]|e]; simpl; [| |done|].
  - intros [He _]%Forall_cons. etrans; [apply (He Consume k)|].
    unfold more. simpl. rewrite release_borrow_quiet. exists []. by rewrite app_nil_r.
  - intros [He _]%Forall_cons. etrans; [apply check_return_escape_more|apply He].
  - intros [He _]%Forall_cons. apply He.
Qed.

Lemma block_loop_more check uses l index shadowed k :
  Forall (λ s, Forall (grows check) (statement_children s)) l →
  more k (block_loop uses check (index, shadowed, k) l).2.
Proof.
  intros H. revert index shadowed k. induction H as [|s l Hs _ IH]; intros index shadowed k; simpl; [done|].
  pose proof (statement_more check s shadowed k Hs) as Hm.
  destruct (check_statement_with file check s shadowed k) as [shadowed' k']. simpl in Hm.
  etrans; [exact Hm|]. etrans; [apply quiet_more, end_borrows_quiet|apply IH].
Qed.

Lemma arm_check_more check before k arm :
  Forall (grows check) (arm_children arm) → more k (arm_check check before k arm).
Proof.
  intros [Hg Hb]%Forall_app. apply Forall_cons in Hb as [Hb _]. unfold arm_check.
  trans (with_variables before k); [by apply quiet_more|]. destruct (arm_guard arm) as [g|]; [|apply Hb].
  apply Forall_cons in Hg as [Hg _]. etrans; [apply (Hg Read)|apply Hb].
Qed.

Lemma arm_loop_more check before arms k branches :
  Forall (λ a, Forall (grows check) (arm_children a)) arms →
  more k (arm_loop check before (k, branches) arms).1.
Proof.
  intros H. revert k branches. induction H as [|a arms Ha _ IH]; intros k branches; simpl; [done|].
  etrans; [by apply arm_check_more|apply IH].
Qed.

Lemma check_block_more check block k :
  Forall (grows check) (flat_map statement_children (body_statements block)) →
  more k (check_block_with file check block k).
Proof.
  intros H%Forall_flat_map_inv. rewrite check_block_alt.
  pose proof (block_loop_more check (block_last_uses block) _ 0%nat ∅ k H) as Hm.
  destruct (block_loop _ _ _ _) as [[i sh] k']. simpl in Hm. etrans; [exact Hm|]. apply quiet_more, restores_quiet.
Qed.

Lemma check_expr_more e mode k : more k (check_expr file e mode k).
Proof.
  revert mode k. induction e as [e IH] using expr_children_ind. fold (grows (check_expr file) e).
  assert (Forall (grows (check_expr file)) (children e)) as Hc by exact IH. clear IH.
  destruct e as [kind span]. intros mode k. cbn [children ex_kind] in Hc.
  destruct kind as [m o|o|l|p|items|callee args|o n|u o|b lhs rhs|value arms|block]; cbn [check_expr].
  - apply borrow_more.
  - apply Forall_cons in Hc as [Ho _]. etrans; [apply Ho|apply report_suspended_more].
  - destruct l; try done. apply use_variable_more.
  - destruct p as [|x [|]]; try done. apply use_variable_more.
  - apply foldl_more. eapply Forall_impl; [exact Hc|]. intros x Hx k'. apply Hx.
  - apply Forall_cons in Hc as [Hcal Hargs]. etrans; [apply Hcal|]. apply foldl_more.
    rewrite Forall_map in Hargs. eapply Forall_impl; [exact Hargs|]. intros x Hx k'. apply Hx.
  - apply Forall_cons in Hc as [Ho _]. apply Ho.
  - apply Forall_cons in Hc as [Ho _]. apply Ho.
  - apply Forall_cons in Hc as [H1 [H2 _]%Forall_cons]. etrans; [apply H1|apply H2].
  - apply Forall_cons in Hc as [Hv Ha%Forall_flat_map_inv]. etrans; [apply (Hv Consume)|].
    rewrite check_match_arms_alt. set (k1 := check_expr file value Consume k).
    pose proof (arm_loop_more (check_expr file) (ck_variables k1) arms k1 [] Ha) as Hm.
    destruct (arm_loop _ _ _ _) as [k' branches]. simpl in Hm. etrans; [exact Hm|]. by apply quiet_more.
  - by apply check_block_more.
Qed.
End checker.
