(* ===== verification/OwnershipSound.v ===== *)
(** * Soundness of the ownership checker for moves

    A simulation: along every path, the variables of the checker over-approximate
    what the path has moved, as long as the checker reports nothing. *)

From Stdlib Require Import Ascii.
From stdpp Require Import base gmap strings numbers list.
From S2P Require Import Prelude Text Hir Diagnostics Ast Ownership OwnershipPaths.
Open Scope string_scope.
Open Scope list_scope.

(** ** Plain functions

    Guards only read, what is borrowed is a variable or a field of one, and declared
    types that look numeric are. *)

(** Expressions that move nothing when they are read. *)
Fixpoint reads_only (e : Expr) : bool :=
  match e with
  | Ex (ELiteral _) _ | Ex (EPath _) _ => true
  | Ex (EBorrow _ e) _ => bool_decide (is_Some (place_name e))
  | Ex (EField e _) _ | Ex (EUnary _ e) _ | Ex (EAwait e) _ => reads_only e
  | Ex (EBinary _ lhs rhs) _ => reads_only lhs && reads_only rhs
  | _ => false
  end.

(** The declared types written with a letter and digits are numeric. *)
Fixpoint sized (ty : TypeNode) : bool :=
  match ty with
  | mkType kind _ =>
      match kind with
      | TkTuple items => forallb sized items
      | TkPath [name] [] => negb (numeric_name name) || bool_decide (name ∈ scalar_types)
      | _ => true
      end
  end.

Fixpoint plain_expr (e : Expr) : bool :=
  match e with
  | Ex kind _ =>
      match kind with
      | EBorrow _ o => bool_decide (is_Some (place_name o))
      | EAwait o | EUnary _ o | EField o _ => plain_expr o
      | ELiteral _ | EPath _ => true
      | EArray items => forallb plain_expr items
      | ECall callee arguments => plain_expr callee && forallb (λ a, plain_expr (argument_value a)) arguments
      | EBinary _ lhs rhs => plain_expr lhs && plain_expr rhs
      | EMatch value arms =>
          plain_expr value &&
          forallb (λ a, match arm_guard a with Some g => reads_only g && plain_expr g | None => true end
                        && plain_expr (arm_body a)) arms
      | EBlock block =>
          forallb (λ s, match st_kind s with
                        | SLet _ ty e => match ty with Some ty => sized ty | None => true end && plain_expr e
                        | SExpression e | SReturn (Some e) => plain_expr e
                        | SReturn None => true
                        end) (body_statements block)
      end
  end.

Definition plain_arm (a : MatchArm) : bool :=
  match arm_guard a with Some g => reads_only g && plain_expr g | None => true end && plain_expr (arm_body a).

Definition plain_statement (s : Statement) : bool :=
  match st_kind s with
  | SLet _ ty e => match ty with Some ty => sized ty | None => true end && plain_expr e
  | SExpression e | SReturn (Some e) => plain_expr e
  | SReturn None => true
  end.

Definition plain_task (t : task) : bool :=
  match t with
  | Eval e _ => plain_expr e
  | EvalAll l => forallb (λ p, plain_expr p.1) l
  | Arms arms => forallb plain_arm arms
  | Stmts l _ => forallb plain_statement l
  end.

Lemma forallb_map {A B} (p : B → bool) (h : A → B) l : forallb p (map h l) = forallb (λ x, p (h x)) l.
Proof. induction l as [|x l IH]; simpl; [done|]. by rewrite IH. Qed.

Lemma sequential_plain kind span mode parts :
  sequential kind mode = Some parts → plain_expr (Ex kind span) = true →
  forallb (λ p, plain_expr p.1) parts = true.
Proof.
  destruct kind as [m o|o|l|p|items|callee args|o n|u o|b lhs rhs|value arms|block]; simpl; try (intros [= <-]; simpl; rewrite ?forallb_map, ?andb_true_r; done).
  destruct (place_name o); [done|]. intros _ Hp. by apply bool_decide_eq_true in Hp as [? ?].
Qed.

Lemma sized_copy ty : sized ty = true → type_is_copy ty = true → copy_type ty = true.
Proof.
  revert ty. fix IH 1. intros [kind span]. destruct kind as [r m inner|segments arguments|inner|items]; cbn [sized type_is_copy copy_type]; try done.
  - destruct segments as [|name [|]]; try done. destruct arguments; [|done]. intros Hs [Hn|Hn]%orb_true_iff.
    + apply existsb_exists in Hn as (n & Hin%list_elem_of_In & ->%bool_decide_eq_true).
      repeat (apply elem_of_cons in Hin as [->|Hin]; [reflexivity|]). by apply not_elem_of_nil in Hin.
    + rewrite Hn in Hs. exact Hs.
  - induction items as [|ty items IHi]; [done|]. cbn. rewrite !andb_true_iff. intros [H1 H2] [H3 H4]. split; [by apply IH|by apply IHi].
Qed.

Lemma use_read strict name σ σ' : use strict name Read σ = Some σ' → σ' = σ.
Proof.
  unfold use. destruct (σ !! name) as [o|]; [|by intros [= <-]]. destruct (moved o); [destruct (_ || _); [done|by intros [= <-]]|].
  rewrite bool_decide_false, andb_false_r by done. by intros [= <-].
Qed.

Lemma run_all_read strict l σ r :
  run strict (EvalAll l) σ r → ∀ σ', r = Some σ' →
  (∀ e mode σ σ', (e, mode) ∈ l → run strict (Eval e mode) σ (Some σ') → σ' = σ) → σ' = σ.
Proof.
  intros H. remember (EvalAll l) as t eqn:Ht. revert l Ht.
  induction H; intros l0 Ht σ' Hr Hl; simplify_eq; [done|].
  assert (σ1 = σ) as -> by (eapply Hl; [by left|done]).
  eapply IHrun2; [done|done|]. intros e' m' ? ? Hin. apply Hl. by right.
Qed.

Lemma run_reads_only strict e : reads_only e = true → ∀ σ σ', run strict (Eval e Read) σ (Some σ') → σ' = σ.
Proof.
  revert e. fix IH 1. intros [kind span] Hro σ σ' H.
  inversion H; subst; try done.
  - match goal with U : use _ _ _ _ = _ |- _ => by apply use_read in U end.
  - match goal with U : use _ _ _ _ = _ |- _ => by apply use_read in U end.
  - match goal with S : sequential _ _ = _, A : run _ (EvalAll _) _ _ |- _ => rename S into Hs, A into Hall end.
    eapply run_all_read; [done..|]. intros e mode σ1 σ2 Hin Hrun.
    destruct kind as [m o|o|l|p|items|callee args|o n|u o|b lhs rhs|value arms|block]; cbn in Hs, Hro; try done.
    + apply bool_decide_eq_true in Hro as [? Hn]. by rewrite Hn in Hs.
    + injection Hs as <-. apply list_elem_of_singleton in Hin as [= -> ->]. by eapply IH.
    + injection Hs as <-. apply list_elem_of_singleton in Hin as [= -> ->]. by eapply IH.
    + injection Hs as <-. apply list_elem_of_singleton in Hin as [= -> ->]. by eapply IH.
    + injection Hs as <-. apply andb_true_iff in Hro as [H1 H2].
      apply elem_of_cons in Hin as [[= -> ->]|Hin]; [by apply (IH lhs H1)|].
      apply list_elem_of_singleton in Hin as [= -> ->]. by apply (IH rhs H2).
Qed.

(** ** Tracking *)

Definition tracks_var (o : Owned) (v : OwnedVariable) : Prop :=
  (affine o = true → v_copy v = false) ∧ (moved o = true → v_state v = Moved).

Definition tracks (σ : env) (vars : variable_map) : Prop :=
  ∀ x o, σ !! x = Some o → evident o = true → ∃ v, vars !! x = Some v ∧ tracks_var o v.

(** Changes to a variable that keep it tracked. *)
Definition kept (a b : option OwnedVariable) : Prop :=
  ∀ v, a = Some v → ∃ v', b = Some v' ∧ v_copy v' = v_copy v ∧ (v_state v = Moved → v_state v' = Moved).

#[export] Instance kept_preorder : PreOrder kept.
Proof.
  split; [intros a v; eauto|]. intros a b c H1 H2 v (v'&Hv'&Hc&Hm)%H1. apply H2 in Hv' as (v''&?&?&?).
  exists v''. split_and!; [done|congruence|auto].
Qed.

Definition kept_all (vars vars' : variable_map) : Prop := ∀ x, kept (vars !! x) (vars' !! x).

Lemma tracks_kept σ vars vars' : tracks σ vars → kept_all vars vars' → tracks σ vars'.
Proof.
  intros Ht Hk x o Ho He. destruct (Ht x o Ho He) as (v&Hv&Hc&Hm). destruct (Hk x v Hv) as (v'&Hv'&Hcopy&Hmoved).
  exists v'. split; [done|]. split; [by rewrite Hcopy|auto].
Qed.

Lemma alter_kept g name vars :
  (∀ v, vars !! name = Some v → v_copy (g v) = v_copy v ∧ (v_state v = Moved → v_state (g v) = Moved)) →
  kept_all vars (alter g name vars).
Proof.
  intros Hg x v Hv. destruct (decide (name = x)) as [<-|Hne].
  - exists (g v). rewrite lookup_alter_eq, Hv. split; [done|]. by apply Hg.
  - exists v. by rewrite lookup_alter_ne.
Qed.

Section checker.
Context (file : string).

Lemma use_variable_kept name mode span k :
  kept_all (ck_variables k) (ck_variables (use_variable file name mode span k)).
Proof.
  unfold use_variable. destruct (_ !! name) as [v|] eqn:E; [|by intros x].
  destruct (v_state v) eqn:Hs; repeat case_match; try (by intros x).
  all: apply alter_kept; by intros.
Qed.

Lemma borrow_kept operand mutable k :
  kept_all (ck_variables k) (ck_variables (borrow file operand mutable k)).
Proof.
  unfold borrow. destruct (place_name operand) as [name|]; [|by intros x]. destruct (_ !! name) as [v|] eqn:E; [|by intros x].
  destruct mutable, (v_state v) eqn:Hs; try (by intros x).
  all: apply alter_kept; intros v' Hv'; split; [done|]; intros Hm; exfalso; congruence.
Qed.

Lemma release_borrow_kept name k : kept_all (ck_variables k) (ck_variables (release_borrow name k)).
Proof.
  unfold release_borrow. destruct (_ ≫= _) as [[target mutable]|]; [|by intros x]. simpl.
  intros x. trans (alter (λ v, with_state (released mutable (v_state v)) v) target (ck_variables k) !! x).
  - apply alter_kept. intros v _. split; [done|]. simpl. intros ->. by destruct mutable.
  - apply alter_kept. by intros v _.
Qed.

Lemma end_borrows_kept uses index k : kept_all (ck_variables k) (ck_variables (end_borrows uses index k)).
Proof.
  unfold end_borrows. generalize ((List.filter (λ '(name, v),
    bool_decide (is_Some (v_borrow v)) && bool_decide (default index (uses !! name) ≤ index)%nat)
      (entries (ck_variables k))).*1).
  intros l. revert k. induction l as [|n l IH]; intros k; simpl; [by intros x|].
  intros x. etrans; [apply (release_borrow_kept n k)|apply IH].
Qed.

(** Using a variable in step with a path. *)
Lemma use_variable_sim name mode span k σ :
  tracks σ (ck_variables k) → quiet k (use_variable file name mode span k) →
  ∃ σ', use false name mode σ = Some σ' ∧ tracks σ' (ck_variables (use_variable file name mode span k)).
Proof.
  intros Ht Hq. pose proof (tracks_kept _ _ _ Ht (use_variable_kept name mode span k)) as Hsame.
  unfold use. destruct (σ !! name) as [o|] eqn:Ho; [|by exists σ]. rewrite orb_false_r. destruct (evident o) eqn:Hev.
  2: { destruct (moved o); [by exists σ|]. destruct (affine o && _); [|by exists σ]. eexists. split; [done|].
       intros x o' [[<- <-]|[Hne Hx]]%lookup_insert_Some; [done|by apply Hsame]. }
  destruct (Ht _ _ Ho Hev) as (v&Hv&Hc&Hm). revert Hq Hsame. unfold use_variable. rewrite Hv. intros Hq Hsame.
  destruct (moved o) eqn:Hmoved.
  { rewrite (Hm eq_refl) in Hq. by apply report_not_quiet in Hq. }
  destruct (affine o) eqn:Haff; simpl; [|by exists σ]. case_bool_decide as Hmode; [|by exists σ].
  rewrite (Hc eq_refl) in *. simpl in *.
  destruct (v_state v) eqn:Hs; try (by apply report_not_quiet in Hq).
  eexists. split; [done|]. intros x o' [[<- <-]|[Hne Hx]]%lookup_insert_Some; simpl.
  - intros _. rewrite lookup_alter_eq, Hv. exists (with_state Moved v). split; [done|]. split; [intros _; by apply Hc|done].
  - rewrite lookup_alter_ne by done. by apply Ht.
Qed.

Lemma borrow_sim operand mutable name k σ :
  place_name operand = Some name → tracks σ (ck_variables k) → quiet k (borrow file operand mutable k) →
  ∃ σ', use false name Read σ = Some σ' ∧ tracks σ' (ck_variables (borrow file operand mutable k)).
Proof.
  intros Hn Ht Hq. pose proof (tracks_kept _ _ _ Ht (borrow_kept operand mutable k)) as Hsame.
  assert (∃ σ', use false name Read σ = Some σ') as [σ' Hu]; [|exists σ'; split; [done|by apply use_read in Hu as ->]].
  unfold use. destruct (σ !! name) as [o|] eqn:Ho; [|eauto]. destruct (moved o) eqn:Hmoved; [|case_match; eauto].
  destruct (evident o) eqn:Hev; simpl; [|eauto]. destruct (Ht _ _ Ho Hev) as (v&Hv&_&Hm).
  exfalso. revert Hq. unfold borrow. rewrite Hn, Hv, (Hm Hmoved). destruct mutable; apply report_not_quiet.
Qed.

(** ** Shadowed names *)

Definition tracks_shadow (sh : shadows) (shk : gmap string (option OwnedVariable)) : Prop :=
  ∀ x, match sh !! x, shk !! x with
       | None, None => True
       | Some prev, Some prevk => ∀ o, prev = Some o → evident o = true → ∃ v, prevk = Some v ∧ tracks_var o v
       | _, _ => False
       end.

Lemma restore_lookup k name previous x :
  if decide (x = name) then ck_variables (restore k (name, previous)) !! x = previous
  else kept (ck_variables k !! x) (ck_variables (restore k (name, previous)) !! x).
Proof.
  unfold restore. simpl. case_decide as Hx.
  - subst. destruct previous; [by rewrite lookup_insert_eq|by rewrite lookup_delete_eq].
  - destruct previous; rewrite ?lookup_insert_ne, ?lookup_delete_ne by done; apply release_borrow_kept.
Qed.

Lemma restores_kept l k x :
  NoDup l.*1 →
  (x ∉ l.*1 → kept (ck_variables k !! x) (ck_variables (foldl restore k l) !! x)) ∧
  (∀ previous, (x, previous) ∈ l → kept previous (ck_variables (foldl restore k l) !! x)).
Proof.
  revert k. induction l as [|[n p] l IH]; intros k Hnd; simpl.
  { split; [done|]. by intros ? ?%elem_of_nil. }
  csimpl in Hnd. apply NoDup_cons in Hnd as [Hn Hnd]. destruct (IH (restore k (n, p)) Hnd) as [IH1 IH2].
  pose proof (restore_lookup k n p x) as Hr. split.
  - intros [Hne Hx]%not_elem_of_cons. rewrite decide_False in Hr by done. etrans; [exact Hr|by apply IH1].
  - intros previous [[= -> ->]|Hin]%elem_of_cons; [|by apply IH2].
    rewrite decide_True in Hr by done. rewrite <-Hr at 1. by apply IH1.
Qed.

Lemma restores_tracks sh shk σ k :
  tracks_shadow sh shk → tracks σ (ck_variables k) →
  tracks (restore_env sh σ) (ck_variables (foldl restore k (entries shk))).
Proof.
  intros Hsh Ht x o. rewrite lookup_restore. specialize (Hsh x).
  destruct (restores_kept (entries shk) k x (entries_keys_NoDup shk)) as [H1 H2]. intros Ho He.
  assert (∃ a v, a = Some v ∧ tracks_var o v ∧ kept a (ck_variables (foldl restore k (entries shk)) !! x))
    as (a&v&->&[Hc Hm]&Hk).
  { destruct (sh !! x) as [prev|] eqn:E, (shk !! x) as [prevk|] eqn:Ek; try done.
    - destruct (Hsh o Ho He) as (v&->&Hv). exists (Some v), v. split_and!; [done..|]. apply H2. by apply elem_of_entries.
    - destruct (Ht _ _ Ho He) as (v&Hv&Htv). exists (ck_variables k !! x), v. split_and!; [done..|]. apply H1.
      intros ([y p]&->&Hin)%list_elem_of_fmap. apply elem_of_entries in Hin. simpl in *. congruence. }
  destruct (Hk v eq_refl) as (v'&Hv'&Hcopy&Hmoved). exists v'. split; [done|]. split; [by rewrite Hcopy|auto].
Qed.
(** ** The checker in the shape of tasks *)

Abbreviation check := (check_expr file).

Definition check_all (l : list (Expr * UseMode)) (k : Checker) : Checker :=
  foldl (λ k '(e, mode), check e mode k) k l.

Lemma check_all_more l k : more k (check_all l k).
Proof. apply foldl_more, Forall_forall. intros [e mode] _ k'. apply check_expr_more. Qed.

Lemma foldl_map {A B C} (g : C → B → C) (h : A → B) l k : foldl g k (map h l) = foldl (λ k x, g k (h x)) k l.
Proof. revert k. induction l as [|x l IH]; intros k; simpl; [done|]. apply IH. Qed.

Lemma check_sequential kind span mode parts k :
  sequential kind mode = Some parts → plain_expr (Ex kind span) = true →
  ck_variables (check (Ex kind span) mode k) = ck_variables (check_all parts k) ∧
  more (check_all parts k) (check (Ex kind span) mode k).
Proof.
  unfold check_all. intros Hs Hp.
  destruct kind as [m o|operand|l|p|items|callee args|o n|u o|b lhs rhs|value arms|block]; cbn in Hs; try (injection Hs as <-; cbn; rewrite ?foldl_map; done); try done.
  { cbn in Hp. apply bool_decide_eq_true in Hp as [? Hn]. by rewrite Hn in Hs. }
  injection Hs as <-. cbn. split; [|apply report_suspended_more]. unfold report_suspended. generalize (sort_strings
    (borrowed_targets k ++ borrowed_targets (check operand mode k))).
  intros l. generalize (check operand mode k). induction l as [|x l IH]; intros k'; simpl; [done|]. by rewrite IH.
Qed.

(** The rest of a block, from a statement on. *)
Definition block_finish (uses : uses_map) (st : nat * gmap string (option OwnedVariable) * Checker)
    (l : list Statement) : Checker :=
  let '(_, shadowed, k) := block_loop file uses check st l in foldl restore k (entries shadowed).

Lemma block_finish_more uses index shadowed k l : more k (block_finish uses (index, shadowed, k) l).
Proof.
  unfold block_finish. pose proof (block_loop_more file check uses l index shadowed k) as H.
  destruct (block_loop file uses check (index, shadowed, k) l) as [[i sh] k']. simpl in H.
  etrans; [apply H|apply quiet_more, restores_quiet]. apply Forall_forall. intros s _. apply Forall_forall.
  intros e _ mode k0. apply check_expr_more.
Qed.

Lemma arm_check_all before k arm :
  arm_check check before k arm =
  check_all (match arm_guard arm with Some g => [(g, Read)] | None => [] end ++ [(arm_body arm, Consume)])
    (with_variables before k).
Proof. unfold arm_check. by destruct (arm_guard arm). Qed.

Lemma arm_check_mono before k arm : more k (arm_check check before k arm).
Proof. apply arm_check_more, Forall_forall. intros e _ mode k0. apply check_expr_more. Qed.

Lemma arm_loop_mono before arms k branches :
  more k (arm_loop check before (k, branches) arms).1.
Proof.
  apply arm_loop_more, Forall_forall. intros a _. apply Forall_forall. intros e _ mode k0. apply check_expr_more.
Qed.

Lemma arm_loop_branches before arms k branches b :
  b ∈ branches → b ∈ (arm_loop check before (k, branches) arms).2.
Proof.
  revert k branches. induction arms as [|a arms IH]; intros k branches Hb; simpl; [done|].
  apply IH. apply elem_of_app. by left.
Qed.

Lemma merge_branches_kept before branches b : b ∈ branches → kept_all before b → kept_all before (merge_branches before branches).
Proof.
  intros Hin Hk x v Hv. unfold merge_branches. rewrite map_lookup_imap, Hv. simpl. eexists. split; [done|]. split; [done|]. simpl. intros Hm.
  destruct (Hk x v Hv) as (vb&Hvb&_&Hmb). unfold merged_state. rewrite bool_decide_true; [done|]. apply list_elem_of_omap. exists b. rewrite Hvb. simpl.
  split; [done|]. by rewrite (Hmb Hm).
Qed.

Lemma merge_branches_tracks before branches b σ σ' :
  tracks σ before → same_scope σ σ' → b ∈ branches → tracks σ' b → tracks σ' (merge_branches before branches).
Proof.
  intros Hb Hs Hin Ht x o Ho He. destruct (Ht _ _ Ho He) as (vb&Hvb&_&Hmb).
  specialize (Hs x). rewrite Ho in Hs. apply fmap_Some in Hs as (o0&Ho0&Ha). unfold nature in Ha. injection Ha as Ha Hev.
  destruct (Hb _ _ Ho0) as (v&Hv&Hc&_); [congruence|]. unfold merge_branches. rewrite map_lookup_imap, Hv. simpl.
  eexists. split; [done|]. split; simpl; [by rewrite Ha|]. intros Hmoved. unfold merged_state.
  rewrite bool_decide_true; [done|]. apply list_elem_of_omap. exists b. rewrite Hvb. simpl.
  split; [done|]. by rewrite (Hmb Hmoved).
Qed.

(** The names of a pattern are opaque; behind them the variables stay tracked. *)
Lemma bind_names_tracks names σ vars : tracks σ vars → tracks (bind_names names σ) vars.
Proof. intros Ht x o. rewrite lookup_bind_names. case_bool_decide; [by intros [= <-]|apply Ht]. Qed.

Lemma restore_names_tracks names σ σ' before vars :
  tracks σ before → kept_all before vars → tracks σ' vars → tracks (restore_env (shadow_names names σ) σ') vars.
Proof.
  intros Hb Hk Ht x o. rewrite restore_names. case_bool_decide; [|apply Ht]. by apply (tracks_kept _ _ _ Hb Hk).
Qed.

(** What a name stood for before the block that a statement is in. *)
Definition outer (shk : gmap string (option OwnedVariable)) (k : Checker) (x : string) : option OwnedVariable :=
  match shk !! x with Some previous => previous | None => ck_variables k !! x end.

(** What the checker promises of each task, from a state that tracks the path. *)
Definition promise (t : task) (σ : env) (r : option env) : Prop :=
  match t with
  | Eval e mode => ∀ k, tracks σ (ck_variables k) → quiet k (check e mode k) →
      ∃ σ', r = Some σ' ∧ tracks σ' (ck_variables (check e mode k)) ∧ kept_all (ck_variables k) (ck_variables (check e mode k))
  | EvalAll l => ∀ k, tracks σ (ck_variables k) → quiet k (check_all l k) →
      ∃ σ', r = Some σ' ∧ tracks σ' (ck_variables (check_all l k)) ∧ kept_all (ck_variables k) (ck_variables (check_all l k))
  | Arms arms => ∀ before k branches, tracks σ before → quiet k (arm_loop check before (k, branches) arms).1 →
      ∃ σ' b, r = Some σ' ∧ b ∈ (arm_loop check before (k, branches) arms).2 ∧ tracks σ' b ∧ kept_all before b
  | Stmts l sh => ∀ uses index shk k, tracks σ (ck_variables k) → tracks_shadow sh shk →
      quiet k (block_finish uses (index, shk, k) l) →
      ∃ σ', r = Some σ' ∧ tracks σ' (ck_variables (block_finish uses (index, shk, k) l)) ∧
        ∀ x, kept (outer shk k x) (ck_variables (block_finish uses (index, shk, k) l) !! x)
  end.

(** A statement that evaluates an expression and declares nothing. *)
Lemma promise_value kind span e l sh σ r1 r :
  kind = SReturn (Some e) ∨ kind = SExpression e → promise (Eval e Consume) σ r1 →
  (∀ σ1, r1 = Some σ1 → promise (Stmts l sh) σ1 r) → (r1 = None → r = None) →
  promise (Stmts (mkStatement kind span :: l) sh) σ r.
Proof.
  intros Hkind He Hl Hnone uses index shk k Ht Hsh Hq.
  set (k0 := match kind with SReturn _ => check_return_escape file e k | _ => k end).
  assert (block_finish uses (index, shk, k) (mkStatement kind span :: l) =
    block_finish uses (S index, shk, end_borrows uses index (check e Consume k0)) l) as Heq.
  { by destruct Hkind as [-> | ->]. }
  rewrite Heq in *.
  assert (ck_variables k0 = ck_variables k ∧ more k k0) as [Hv0 Hm0].
  { subst k0. destruct Hkind as [-> | ->]; [|done]. split; [|apply check_return_escape_more].
    unfold check_return_escape. repeat case_match; done. }
  set (kf := block_finish uses (S index, shk, end_borrows uses index (check e Consume k0)) l) in *.
  assert (more (end_borrows uses index (check e Consume k0)) kf) as Hm2 by apply block_finish_more.
  assert (more (check e Consume k0) kf) as Hm1 by (etrans; [apply quiet_more, end_borrows_quiet|exact Hm2]).
  destruct (quiet_split k k0 kf Hm0) as [_ Hq0]; [etrans; [apply check_expr_more|exact Hm1]|done|].
  destruct (quiet_split _ _ _ (check_expr_more file e Consume k0) Hm1 Hq0) as [Hq1 Hq2].
  destruct (He k0) as (σ1&->&Ht1&Hk1); [by rewrite Hv0|done|]. rewrite Hv0 in Hk1.
  destruct (Hl σ1 eq_refl uses (S index) shk (end_borrows uses index (check e Consume k0))) as (σ2&->&Ht2&Hk2).
  - eapply tracks_kept; [done|apply end_borrows_kept].
  - done.
  - unfold quiet in *. fold kf. by rewrite Hq2, end_borrows_quiet.
  - exists σ2. split_and!; [done..|]. intros x. etrans; [|apply Hk2]. unfold outer. destruct (shk !! x); [done|].
    etrans; [apply Hk1|apply end_borrows_kept].
Qed.

Lemma bound_value_copy ty e σ vars :
  tracks σ vars → match ty with Some ty => sized ty | None => true end = true →
  affine (bound_value ty e σ) = true → evident (bound_value ty e σ) = true →
  match ty with Some ty => type_is_copy ty | None => expression_is_copy e vars end = false.
Proof.
  intros Ht Hs. unfold bound_value, expression_is_copy. destruct ty as [ty|].
  { intros Ha _. cbn in Ha. destruct (type_is_copy ty) eqn:E; [|done]. by rewrite (sized_copy ty Hs E) in Ha. }
  assert (∀ name, let o := match σ !! name with Some o => {| affine := affine o; evident := evident o; moved := false |} | None => opaque end in
    affine o = true → evident o = true → name_is_copy vars name = false) as Hn.
  { intros name. unfold name_is_copy. destruct (σ !! name) as [o|] eqn:Ho; [|done]. cbn. intros Ha He.
    destruct (Ht _ _ Ho He) as (v&->&Hc&_). by apply Hc. }
  destruct (ex_kind e) as [[]|?|[]|[|x [|]]|?|? ?|? ?|? ?|? ? ?|? ?|?]; try done; apply Hn.
Qed.

Lemma shadow_tracks name σ vars sh shk :
  tracks σ vars → tracks_shadow sh shk →
  tracks_shadow (shadow name σ sh)
    match shk !! name with Some _ => shk | None => <[name := vars !! name]> shk end.
Proof.
  intros Ht Hsh x. unfold shadow. pose proof (Hsh name) as Hn. pose proof (Hsh x) as Hx.
  destruct (sh !! name) eqn:E1, (shk !! name) eqn:E2; try done.
  destruct (decide (name = x)) as [<-|Hne].
  - rewrite !lookup_insert_eq. intros o Ho. by apply Ht.
  - by rewrite !lookup_insert_ne.
Qed.

Lemma promise_let name ty value span l sh σ r1 r :
  match ty with Some ty => sized ty | None => true end = true → promise (Eval value Consume) σ r1 →
  (∀ σ1, r1 = Some σ1 → promise (Stmts l (shadow name σ1 sh)) (declare name ty value σ1) r) →
  (r1 = None → r = None) →
  promise (Stmts (mkStatement (SLet name ty value) span :: l) sh) σ r.
Proof.
  intros Hsized He Hl Hnone uses index shk k Ht Hsh Hq.
  set (k1 := check value Consume k).
  set (copy := match ty with Some ty => type_is_copy ty | None => expression_is_copy value (ck_variables k1) end).
  set (shk' := match shk !! name with Some _ => shk | None => <[name := ck_variables k1 !! name]> shk end).
  set (k2 := release_borrow name k1).
  set (v := {| v_state := Available; v_copy := copy; v_origin := OriginLocal; v_borrow := borrow_target value |}).
  set (k3 := with_variables (<[name := v]> (ck_variables k2)) k2).
  change (block_finish uses (index, shk, k) (mkStatement (SLet name ty value) span :: l))
    with (block_finish uses (S index, shk', end_borrows uses index k3) l) in *.
  assert (quiet k1 k3) as Hq13 by apply release_borrow_quiet.
  assert (more k1 (block_finish uses (S index, shk', end_borrows uses index k3) l)) as Hm1.
  { etrans; [by apply quiet_more|]. etrans; [apply quiet_more, end_borrows_quiet|apply block_finish_more]. }
  destruct (quiet_split k k1 _ (check_expr_more file value Consume k) Hm1 Hq) as [Hq1 Hq2].
  destruct (He k Ht Hq1) as (σ1&->&Ht1&Hk1). fold k1 in Ht1, Hk1.
  assert (∀ x, x ≠ name → kept (ck_variables k !! x) (ck_variables (end_borrows uses index k3) !! x)) as Hk3.
  { intros x Hx. etrans; [apply Hk1|]. etrans; [apply (release_borrow_kept name k1)|]. etrans; [|apply end_borrows_kept]. simpl. by rewrite lookup_insert_ne. }
  destruct (Hl σ1 eq_refl uses (S index) shk' (end_borrows uses index k3)) as (σ2&->&Ht2&Hk2).
  - eapply tracks_kept; [|apply end_borrows_kept]. unfold declare. simpl.
    intros x o [[<- <-]|[Hne Hx]]%lookup_insert_Some.
    + intros Hev. exists v. rewrite lookup_insert_eq. split; [done|]. split; simpl; [intros Ha; by eapply bound_value_copy|].
      unfold bound_value, known, opaque. repeat case_match; done.
    + rewrite lookup_insert_ne by done. by apply (tracks_kept _ _ _ Ht1 (release_borrow_kept name k1)).
  - by apply shadow_tracks.
  - unfold quiet in *. by rewrite Hq2, end_borrows_quiet, Hq13.
  - exists σ2. split_and!; [done..|]. intros x. etrans; [|apply Hk2]. unfold outer, shk'. destruct (shk !! name) eqn:En.
    + destruct (shk !! x) eqn:Ex; [done|]. apply Hk3. congruence.
    + destruct (decide (name = x)) as [<-|Hne]; [rewrite En, lookup_insert_eq; apply Hk1|]. rewrite lookup_insert_ne by done.
      destruct (shk !! x); [done|]. by apply Hk3.
Qed.

Theorem run_promise t σ r : run false t σ r → plain_task t = true → promise t σ r.
Proof.
  induction 1 as [kind span mode name σ Hl|kind span mode σ Hi|mutable operand name span mode σ Hn
    |kind span mode parts σ r Hs _ IH|value arms span mode σ _ IH|value arms span mode σ σ1 r H1 IH1 H2 IH2
    |block span mode σ r _ IH|σ|e mode l σ _ IH|e mode l σ σ1 r _ IH1 _ IH2|pattern guard body span arms σ r _ IH
    |pattern g body span arms σ σ1 r H1 IH1 _ IH2|arm arms σ r _ IH|sh σ|name ty value span l sh σ _ IH
    |name ty value span l sh σ σ1 r _ IH1 _ IH2|kind span e l sh σ Hk _ IH|kind span e l sh σ σ1 r Hk _ IH1 _ IH2
    |span l sh σ r _ IH]; intros Hread.
  - intros k Ht Hq. assert (check (Ex kind span) mode k = use_variable file name mode span k) as Heq.
    { destruct kind as [| |[]|[|x [|]]| | | | | | |]; by simplify_eq/=. }
    rewrite Heq in *. destruct (use_variable_sim name mode span k σ Ht Hq) as (σ'&?&?). exists σ'. split_and!; [done..|apply use_variable_kept].
  - intros k Ht Hq. assert (check (Ex kind span) mode k = k) as -> by (by destruct kind as [| |[]|[|x [|]]| | | | | | |]).
    exists σ. split_and!; [done..|by intros x].
  - intros k Ht Hq. destruct (borrow_sim operand mutable name k σ Hn Ht Hq) as (σ'&?&?). exists σ'. split_and!; [done..|apply borrow_kept].
  - intros k Ht Hq. destruct (check_sequential kind span mode parts k Hs Hread) as [Hv Hm].
    destruct (quiet_split _ _ _ (check_all_more parts k) Hm Hq) as [Hq' _].
    rewrite Hv. apply IH; [|done|done]. by apply (sequential_plain kind span mode).
  - intros k Ht Hq. apply andb_true_iff in Hread as [Hread _]. cbn [check_expr] in Hq. rewrite check_match_arms_alt in Hq.
    destruct (IH Hread k) as (?&?&_); [done| |done].
    pose proof (arm_loop_mono (ck_variables (check value Consume k)) arms (check value Consume k) []) as Hm.
    destruct (arm_loop _ _ _ _) as [k' branches]. by eapply (quiet_split _ _ _ (check_expr_more file value Consume k) Hm).
  - intros k Ht Hq. apply andb_true_iff in Hread as [Hread1 Hread2]. cbn [check_expr] in Hq |- *.
    rewrite check_match_arms_alt in Hq |- *. set (k1 := check value Consume k) in *.
    pose proof (arm_loop_mono (ck_variables k1) arms k1 []) as Hm.
    destruct (arm_loop check (ck_variables k1) (k1, []) arms) as [k' branches] eqn:Hloop.
    destruct (quiet_split _ _ _ (check_expr_more file value Consume k) Hm Hq) as [Hq1 Hq2].
    destruct (IH1 Hread1 k Ht Hq1) as (?&[= <-]&Ht1&Hk1). fold k1 in Ht1, Hk1.
    destruct (IH2 Hread2 (ck_variables k1) k1 [] Ht1) as (σ'&b&->&Hb&Ht'&Hkb); [by rewrite Hloop|].
    exists σ'. split; [done|]. rewrite Hloop in Hb. simpl in *. split.
    + eapply merge_branches_tracks; [exact Ht1| |exact Hb|done]. by apply (run_scope _ _ _ _ H2).
    + intros x. etrans; [apply Hk1|]. by apply (merge_branches_kept _ _ b).
  - intros k Ht Hq. cbn [check_expr] in *. destruct (IH Hread (block_last_uses block) 0%nat ∅ k Ht) as (σ'&->&Ht'&Hk'); [intros x; by rewrite !lookup_empty|exact Hq|].
    exists σ'. split; [done|]. split; [exact Ht'|]. intros x. specialize (Hk' x). unfold outer in Hk'. rewrite lookup_empty in Hk'. exact Hk'.
  - intros k Ht _. exists σ. split_and!; [done..|by intros x].
  - intros k Ht Hq. apply andb_true_iff in Hread as [Hread _]. destruct (IH Hread k) as (?&?&_); [done| |done].
    by eapply (quiet_split _ _ _ (check_expr_more file e mode k) (check_all_more l _)).
  - intros k Ht Hq. apply andb_true_iff in Hread as [Hread1 Hread2].
    destruct (quiet_split _ _ _ (check_expr_more file e mode k) (check_all_more l _) Hq) as [Hq1 Hq2].
    destruct (IH1 Hread1 k Ht Hq1) as (?&[= <-]&Ht1&Hk1). destruct (IH2 Hread2 (check e mode k)) as (σ'&->&Ht2&Hk2); [done..|].
    exists σ'. split_and!; [done..|]. intros x. etrans; [apply Hk1|apply Hk2].
  - intros before k branches Ht Hq. apply andb_true_iff in Hread as [Hread _].
    unfold plain_arm in Hread. apply andb_true_iff in Hread as [Hg Hb]. cbn [arm_guard arm_body] in Hg, Hb.
    cbn [arm_loop foldl] in *. set (k1 := arm_check check before k (mkMatchArm pattern guard body span)) in *.
    fold (arm_loop check before (k1, branches ++ [ck_variables k1]) arms) in *.
    destruct (quiet_split _ _ _ (arm_check_mono before k _) (arm_loop_mono before arms k1 _) Hq) as [Hq1 _].
    pose proof (arm_check_all before k (mkMatchArm pattern guard body span)) as Heq.
    cbn [arm_guard arm_body] in Heq. fold k1 in Heq.
    destruct (IH ltac:(destruct guard as [g|]; simpl; [apply andb_true_iff in Hg as [_ ->]|]; by rewrite Hb)
      (with_variables before k)) as (σ'&->&Ht'&Hk'); [by apply bind_names_tracks|rewrite <-Heq; exact Hq1|]. rewrite <-Heq in Ht', Hk'. cbn [with_variables ck_variables] in Hk'.
    eexists _, (ck_variables k1). split_and!; [done| |by eapply restore_names_tracks|done].
    apply arm_loop_branches. set_solver.
  - intros before k branches Ht Hq. apply andb_true_iff in Hread as [Hread1 Hread2].
    unfold plain_arm in Hread1. simpl in Hread1. apply andb_true_iff in Hread1 as [[Hro _]%andb_true_iff _].
    apply (run_reads_only _ _ Hro) in H1 as ->. rewrite restore_bind_names in IH2. apply (IH2 Hread2); [done|].
    apply (quiet_split _ _ _ (arm_check_mono before k _) (arm_loop_mono before arms _ _) Hq).
  - intros before k branches Ht Hq. apply andb_true_iff in Hread as [_ Hread2]. apply (IH Hread2); [done|].
    apply (quiet_split _ _ _ (arm_check_mono before k _) (arm_loop_mono before arms _ _) Hq).
  - intros uses index shk k Ht Hsh _. exists (restore_env sh σ). split; [done|]. split; [by apply restores_tracks|]. intros x. unfold block_finish, outer. cbn.
    destruct (restores_kept (entries shk) k x (entries_keys_NoDup shk)) as [H1 H2]. destruct (shk !! x) as [previous|] eqn:Ex.
    + apply H2. by apply elem_of_entries.
    + apply H1. intros ([y p]&->&Hin)%list_elem_of_fmap. apply elem_of_entries in Hin. simpl in *. congruence.
  - apply andb_true_iff in Hread as [[Hsz Hread]%andb_true_iff _]. eapply promise_let; [done|by apply IH|done|done].
  - apply andb_true_iff in Hread as [[Hsz Hread1]%andb_true_iff Hread2]. eapply promise_let; [done|by apply IH1| |done].
    intros ? [= <-]. by apply IH2.
  - apply andb_true_iff in Hread as [Hread _]. eapply promise_value; [done|apply IH|done|done].
    by destruct Hk as [-> | ->].
  - apply andb_true_iff in Hread as [Hread1 Hread2]. eapply promise_value; [done|apply IH1| |done].
    + by destruct Hk as [-> | ->].
    + intros ? [= <-]. by apply IH2.
  - intros uses index shk k Ht Hsh Hq. destruct (IH Hread uses (S index) shk (end_borrows uses index k)) as (σ'&->&Ht'&Hk').
    + eapply tracks_kept; [done|apply end_borrows_kept].
    + done.
    + unfold quiet in *. by rewrite end_borrows_quiet.
    + exists σ'. split; [done|]. split; [exact Ht'|]. intros x. etrans; [|apply Hk']. unfold outer. destruct (shk !! x); [done|apply end_borrows_kept].
Qed.
End checker.

(** * Claims about the ownership checker *)

Open Scope string_scope.
Open Scope list_scope.

(** The variables a call starts with. *)
Definition parameter_env (f : FunctionNode) : gmap string Owned :=
  foldl (λ σ p, <[pa_name p := known (negb (copy_type (pa_ty p)))]> σ) ∅ (fnn_parameters f).

Definition plain_function (f : FunctionNode) : bool :=
  forallb (λ p, sized (pa_ty p)) (fnn_parameters f) && forallb plain_statement (body_statements (fnn_body f)).

Lemma parameter_tracks f diagnostics : forallb (λ p, sized (pa_ty p)) (fnn_parameters f) = true →
  tracks (parameter_env f) (ck_variables (checker_new f diagnostics)).
Proof.
  unfold parameter_env, checker_new. simpl.
  assert (∀ l σ vars, forallb (λ p, sized (pa_ty p)) l = true → tracks σ vars → tracks
    (foldl (λ σ p, <[pa_name p := known (negb (copy_type (pa_ty p)))]> σ) σ l)
    (foldl (λ vars p, <[pa_name p := {| v_state := Available; v_copy := type_is_copy (pa_ty p);
                                        v_origin := OriginParameter; v_borrow := None |}]> vars) vars l)) as H.
  { intros l. induction l as [|p l IH]; intros σ vars Hs Ht; simpl; [done|]. cbn in Hs. apply andb_true_iff in Hs as [Hp Hs]. apply IH; [done|].
    intros x o [[<- <-]|[Hne Hx]]%lookup_insert_Some.
    - intros _. eexists. rewrite lookup_insert_eq. split; [done|]. split; simpl; [|done]. intros Ha.
      destruct (type_is_copy (pa_ty p)) eqn:E; [|done]. by rewrite (sized_copy _ Hp E) in Ha.
    - rewrite lookup_insert_ne by done. by apply Ht. }
  intros Hs. apply H; [done|]. by intros x o ?%lookup_empty_Some.
Qed.

Lemma check_signature_more file f k : more k (check_signature_regions file f k).
Proof. unfold check_signature_regions. repeat case_match; first [done|apply report_more]. Qed.

Lemma check_signature_variables file f k :
  ck_variables (check_signature_regions file f k) = ck_variables k.
Proof. unfold check_signature_regions. repeat case_match; done. Qed.

Lemma check_block_mono file block k : more k (check_block file block k).
Proof. apply check_block_more, Forall_forall. intros e _ mode k'. apply check_expr_more. Qed.

Lemma check_function_more file f diagnostics :
  ∃ ds, ck_diagnostics (check_function file f diagnostics) = diagnostics ++ ds.
Proof.
  assert (more (checker_new f diagnostics) (check_function file f diagnostics)) as Hm; [|exact Hm].
  etrans; [apply check_signature_more|apply check_block_mono].
Qed.

(** A file without reports has no report in any function. *)
Lemma analyze_ownership_nil file ast f :
  analyze_ownership file ast = [] → ItemFunction f ∈ ast_items ast → ck_diagnostics (check_function file f []) = [].
Proof.
  unfold analyze_ownership. set (step := λ diagnostics item, _).
  assert (∀ ds item, ∃ es, step ds item = ds ++ es) as Hstep.
  { intros ds item. unfold step. destruct item; try (exists []; by rewrite app_nil_r). apply check_function_more. }
  assert (∀ l ds, ∃ es, foldl step ds l = ds ++ es) as Hfold.
  { induction l as [|x l IH]; intros ds; simpl; [exists []; by rewrite app_nil_r|].
    destruct (Hstep ds x) as [es ->]. destruct (IH (ds ++ es)) as [es' ->]. exists (es ++ es'). by rewrite app_assoc. }
  intros Hnil (l1&l2&Hsplit)%list_elem_of_split. rewrite Hsplit, foldl_app in Hnil. simpl in Hnil.
  destruct (Hfold l1 []) as [es1 H1]. rewrite H1 in Hnil. simpl in Hnil.
  destruct (check_function_more file f es1) as [es2 H2]. rewrite H2 in Hnil.
  destruct (Hfold l2 (es1 ++ es2)) as [es3 H3]. rewrite H3 in Hnil.
  apply app_nil in Hnil as [[-> ->]%app_nil _]. exact H2.
Qed.

(** C16: in a file the ownership checker accepts, no value whose type is evident is
    consumed twice: on every path through a function whose match guards only read,
    whose borrows are of variables and fields and whose numeric type names are those
    of the language, no variable of a declared affine type, or bound to a string, an
    array, an exclusive borrow or such a variable, is used or borrowed after it has
    been moved, across shadowing, pattern names, nested blocks and the joins after
    matches. *)
Theorem accepted_functions_never_use_moved_values file ast f r :
  analyze_ownership file ast = [] → ItemFunction f ∈ ast_items ast → plain_function f = true →
  run false (Stmts (body_statements (fnn_body f)) ∅) (parameter_env f) r → ∃ σ, r = Some σ.
Proof.
  intros Hnil Hin [Hsized Hplain]%andb_true_iff Hrun.
  pose proof (analyze_ownership_nil file ast f Hnil Hin) as Hf. unfold check_function in Hf.
  set (k := check_signature_regions file f (checker_new f [])) in Hf.
  assert (ck_diagnostics k = []) as Hk.
  { destruct (check_block_mono file (fnn_body f) k) as [ds Hds]. rewrite Hf in Hds. by destruct (ck_diagnostics k). }
  destruct (run_promise file _ _ _ Hrun Hplain (block_last_uses (fnn_body f)) 0%nat ∅ k) as (σ&->&_).
  - unfold k. rewrite check_signature_variables. by apply parameter_tracks.
  - intros x. by rewrite !lookup_empty.
  - unfold quiet. by rewrite Hk.
  - eauto.
Qed.

(** ** Programs *)

Lemma run_use strict kind span mode name σ r :
  leaf kind = Some name → use strict name mode σ = r → run strict (Eval (Ex kind span) mode) σ r.
Proof. intros Hl <-. by apply run_leaf. Qed.

Definition name_type (name : string) : TypeNode := mkType (TkPath [name] []) default_span.
Definition var (name : string) : Expr := Ex (ELiteral (LitIdentifier name)) default_span.
Definition call (f : string) (arguments : list Expr) : Expr :=
  Ex (ECall (var f) (map (λ e, mkArgument None e default_span) arguments)) default_span.
Definition reference (name : string) : Expr := Ex (EBorrow false (var name)) default_span.
Definition statement (e : Expr) : Statement := mkStatement (SExpression e) default_span.
Definition bind (name : string) (e : Expr) : Statement := mkStatement (SLet name None e) default_span.
Definition block (l : list Statement) : Expr := Ex (EBlock (mkBody l default_span)) default_span.
Definition arm (guard : option Expr) (body : Expr) : MatchArm :=
  mkMatchArm (mkPattern PkWildcard default_span) guard body default_span.

(** A function of one parameter. *)
Definition function_of (ty : string) (body : list Statement) : FunctionNode :=
  {| fnn_attributes := []; fnn_public := false; fnn_asynchronous := false; fnn_name := "main";
     fnn_parameters := [{| pa_name := "x"; pa_ty := name_type ty; pa_span := default_span |}];
     fnn_return_type := None; fnn_effects := None; fnn_body := mkBody body default_span; fnn_span := default_span |}.

Definition file_of (f : FunctionNode) : Ast :=
  {| ast_module := None; ast_imports := []; ast_items := [ItemFunction f]; ast_span := default_span |}.

Definition codes (f : FunctionNode) : list string := code <$> analyze_ownership "main.syl" (file_of f).

(** One arm moves [x], the other reads it; a later use would be reported. *)
Definition moves_in_one_arm : FunctionNode :=
  function_of "String"
    [bind "y" (Ex (EMatch (call "decide" [])
       [arm None (call "take" [var "x"]); arm (Some (var "x")) (call "other" [])]) default_span)].

Lemma accepted_functions_never_use_moved_values_witness :
  ∃ r, run false (Stmts (body_statements (fnn_body moves_in_one_arm)) ∅) (parameter_env moves_in_one_arm) r ∧
    ∃ σ, r = Some σ.
Proof.
  assert (∃ r, run false (Stmts (body_statements (fnn_body moves_in_one_arm)) ∅) (parameter_env moves_in_one_arm) r) as [r Hr].
  { eexists. eapply run_let.
    - eapply run_match.
      + eapply run_sequential; [done|]. eapply run_next; [by eapply run_use|apply run_done].
      + eapply (run_arm false (mkPattern PkWildcard default_span) None _ _ _ _ (Some _)). eapply run_next; [|apply run_done]. eapply run_sequential; [done|].
        eapply run_next; [by eapply run_use|]. eapply run_next; [by eapply run_use|apply run_done].
    - apply run_end. }
  exists r. split; [done|].
  apply (accepted_functions_never_use_moved_values "main.syl" (file_of moves_in_one_arm) moves_in_one_arm);
    [by vm_compute|by left|by vm_compute|done].
Defined.

(** [take(x)] in a guard, then [x] in the next arm. *)
Definition guard_moves : FunctionNode :=
  function_of "String"
    [statement (Ex (EMatch (call "decide" [])
       [arm (Some (call "take" [var "x"])) (call "other" []); arm None (call "take" [var "x"])]) default_span)].

(** [show(&take(x))], and [x] is moved again. *)
Definition borrow_moves : FunctionNode :=
  function_of "String" [statement (call "show" [Ex (EBorrow false (call "take" [var "x"])) default_span]); statement (call "take" [var "x"])].

(** A value from a call, consumed twice. *)
Definition call_result_moves : FunctionNode :=
  function_of "String" [bind "s" (call "make" []); statement (call "take" [var "s"]); statement (call "take" [var "s"])].

(** What a pattern binds, consumed twice. *)
Definition binder_moves : FunctionNode :=
  function_of "String"
    [statement (Ex (EMatch (var "x")
       [mkMatchArm (mkPattern (PkPath ["y"]) default_span) None
          (block [statement (call "take" [var "y"]); statement (call "take" [var "y"])]) default_span]) default_span)].

(** A value of a type the checker takes for a number. *)
Definition letter_type_moves : FunctionNode := function_of "F" [statement (call "take" [var "x"]); statement (call "take" [var "x"])].

Definition body_fails (strict : bool) (f : FunctionNode) : Prop :=
  run strict (Stmts (body_statements (fnn_body f)) ∅) (parameter_env f) None.

(** A call [take(x)] that moves [x], and one that fails. *)
Lemma run_take strict x σ o : σ !! "take" = None → σ !! x = Some o → moved o = false → affine o = true →
  run strict (Eval (call "take" [var x]) Consume) σ (Some (<[x := {| affine := true; evident := evident o; moved := true |}]> σ)).
Proof.
  intros Ht Hx Hm Ha. eapply run_sequential; [done|]. eapply run_next; [eapply run_use; [done|]; unfold use; by rewrite Ht|].
  eapply run_next; [|apply run_done]. eapply run_use; [done|]. unfold use. rewrite Hx, Hm, Ha. done.
Qed.

Lemma run_take_fails strict x σ o : σ !! "take" = None → σ !! x = Some o → moved o = true → evident o || strict = true →
  run strict (Eval (call "take" [var x]) Consume) σ None.
Proof.
  intros Ht Hx Hm He. eapply run_sequential; [done|]. eapply run_next; [eapply run_use; [done|]; unfold use; by rewrite Ht|].
  eapply run_first. eapply run_use; [done|]. unfold use. by rewrite Hx, Hm, He.
Qed.

(** Where the checker falls short of its description.  It accepts functions with a
    path that consumes a value twice: a value moved by the guard of an arm and used in
    the next one, a value moved inside the operand of a borrow, a value of a type
    named by a letter, and, where the type is not evident, the result of a call and
    what a pattern binds.  A copy of a reference does not keep its target borrowed,
    and moving a value that was lent to a call that has returned is rejected. *)
Theorem ownership_checker_gaps :
  (codes guard_moves = [] ∧ body_fails false guard_moves) ∧
  (codes borrow_moves = [] ∧ body_fails false borrow_moves) ∧
  (codes letter_type_moves = [] ∧ body_fails false letter_type_moves) ∧
  (codes call_result_moves = [] ∧ body_fails true call_result_moves) ∧
  (codes binder_moves = [] ∧ body_fails true binder_moves) ∧
  codes (function_of "String" [bind "r" (reference "x"); bind "t" (var "r"); statement (call "take" [var "x"]);
                               statement (call "show" [var "t"])]) = [] ∧
  codes (function_of "String" [statement (call "show" [reference "x"]); statement (call "take" [var "x"])]) = ["SYL2605"].
Proof.
  split_and!; try (by vm_compute).
  - eapply run_value_fails; [by right|]. eapply run_match.
    + eapply run_sequential; [done|]. eapply run_next; [by eapply run_use|apply run_done].
    + eapply run_skip_guard.
      * eapply run_sequential; [done|]. eapply run_next; [by eapply run_use|]. eapply run_next; [by eapply run_use|apply run_done].
      * eapply (run_arm false _ None _ _ _ _ None). eapply run_first. by eapply run_take_fails.
  - eapply run_value; [by right| |].
    + eapply run_sequential; [done|]. eapply run_next; [by eapply run_use|]. eapply run_next; [|apply run_done].
      eapply run_sequential; [done|]. eapply run_next; [|apply run_done]. eapply run_sequential; [done|].
      eapply run_next; [by eapply run_use|]. eapply run_next; [by eapply run_use|apply run_done].
    + eapply run_value_fails; [by right|]. by eapply run_take_fails.
  - eapply run_value; [by right|by eapply run_take|]. eapply run_value_fails; [by right|]. by eapply run_take_fails.
  - eapply run_let.
    + eapply run_sequential; [done|]. eapply run_next; [by eapply run_use|apply run_done].
    + eapply run_value; [by right|by eapply run_take|]. eapply run_value_fails; [by right|]. by eapply run_take_fails.
  - eapply run_value_fails; [by right|]. eapply run_match; [by eapply run_use|].
    eapply (run_arm true _ None _ _ _ _ None). eapply run_first. eapply run_block.
    eapply run_value; [by right|by eapply run_take|]. eapply run_value_fails; [by right|]. by eapply run_take_fails.
Qed.
