(* ===== verification/Semantic.v ===== *)
(** * Semantic analysis: declarations (crates/syllog-semantic/src/lib.rs, types.rs)

    The resolved types and their compatibility, the symbol table, and the two
    passes over the declarations of one source file.  [Analyzer] is the record of
    the same name without the file and the tree, which are arguments; every
    method is a function on it that returns its result and the changed
    analyzer. *)

From stdpp Require Import base gmap list strings numbers pretty.
From S2P Require Import Prelude Text Ir Hir Diagnostics Ast Ownership.
Open Scope string_scope.
Open Scope list_scope.

#[export] Instance primitive_type_eq_dec : EqDecision PrimitiveType.
Proof. solve_decision. Defined.

(** ** Types *)

Fixpoint type_eqb (a b : ResolvedType) : bool :=
  let all2 := fix go (l k : list ResolvedType) : bool :=
    match l, k with
    | [], [] => true
    | x :: l, y :: k => type_eqb x y && go l k
    | _, _ => false
    end in
  match a, b with
  | RtReference r m i, RtReference r' m' i' => bool_decide (r = r') && Bool.eqb m m' && type_eqb i i'
  | RtPrimitive p, RtPrimitive p' => bool_decide (p = p')
  | RtStruct n, RtStruct n' | RtEnum n, RtEnum n' | RtState n, RtState n' => bool_decide (n = n')
  | RtOption i, RtOption i' | RtArray i, RtArray i' => type_eqb i i'
  | RtResult o e, RtResult o' e' => type_eqb o o' && type_eqb e e'
  | RtTuple l, RtTuple l' => all2 l l'
  | RtFunction l r, RtFunction l' r' => all2 l l' && type_eqb r r'
  | RtUnit, RtUnit | RtUnknown, RtUnknown | RtError, RtError
  | RtIntegerLiteral, RtIntegerLiteral | RtFloatLiteral, RtFloatLiteral => true
  | _, _ => false
  end.

Definition bool_type : ResolvedType := RtPrimitive PrimBool.
Definition string_type : ResolvedType := RtPrimitive PrimString.

Definition is_hole (t : ResolvedType) : bool :=
  match t with RtError | RtUnknown => true | _ => false end.

Fixpoint compatible (expected actual : ResolvedType) : bool :=
  if is_hole expected || is_hole actual then true
  else
    match expected, actual with
    | RtPrimitive (PrimSigned _), RtIntegerLiteral | RtPrimitive (PrimUnsigned _), RtIntegerLiteral => true
    | RtPrimitive (PrimFloat _), RtFloatLiteral => true
    | RtArray l, RtArray r | RtOption l, RtOption r => compatible l r
    | RtReference _ lm l, RtReference _ rm r => Bool.eqb lm rm && compatible l r
    | RtResult lo le, RtResult ro re => compatible lo ro && compatible le re
    | RtTuple l, RtTuple r =>
        bool_decide (length l = length r) &&
        (fix go (l r : list ResolvedType) : bool :=
           match l, r with
           | x :: l, y :: r => compatible x y && go l r
           | _, _ => true
           end) l r
    | _, _ => type_eqb expected actual
    end.

Definition primitive_names : list string :=
  ["Bool"; "String"; "Str"; "Char"; "Bytes"; "I8"; "I16"; "I32"; "I64"; "I128"; "Isize"; "U8";
   "U16"; "U32"; "U64"; "U128"; "Usize"; "F16"; "F32"; "F64"; "Duration"; "Size"; "AgentRef";
   "Provider"; "Text"; "Unit"].

Definition one_of (name : string) (l : list string) : bool := bool_decide (name ∈ l).

Definition primitive_type (name : string) : option PrimitiveType :=
  if one_of name ["Bool"] then Some PrimBool
  else if one_of name ["String"] then Some PrimString
  else if one_of name ["Str"] then Some PrimStr
  else if one_of name ["Char"] then Some PrimChar
  else if one_of name ["Bytes"] then Some PrimBytes
  else if one_of name ["I8"; "I16"; "I32"; "I64"; "I128"; "Isize"] then Some (PrimSigned name)
  else if one_of name ["U8"; "U16"; "U32"; "U64"; "U128"; "Usize"] then Some (PrimUnsigned name)
  else if one_of name ["F16"; "F32"; "F64"] then Some (PrimFloat name)
  else if one_of name ["Duration"] then Some PrimDuration
  else if one_of name ["Size"] then Some PrimSize
  else if one_of name ["AgentRef"] then Some PrimAgentRef
  else if one_of name ["Provider"] then Some PrimProvider
  else if one_of name ["Text"] then Some PrimText
  else None.

(** ** Symbols and the analyzer *)

Inductive TypeSymbolKind := SymPrimitive | SymStruct | SymEnum | SymState | SymGeneric (arity : nat).
Record TypeSymbol := { ts_name : string; ts_kind : TypeSymbolKind; ts_span : Span }.
Inductive ValueSymbolKind := SymFunction | SymAgent | SymPipeline | SymSafetyBound.
Record ValueSymbol := { vs_name : string; vs_kind : ValueSymbolKind; vs_span : Span }.
Record SymbolTable := { sym_types : gmap string TypeSymbol; sym_values : gmap string ValueSymbol }.

(** [EnumDefinition], [FunctionSignature] and [AgentContract]; a [StructDefinition]
    is its map of fields. *)
Abbreviation variant_list := (list (string * list ResolvedType)).
Record FunctionSignature := { sig_parameters : list ResolvedType; sig_result : ResolvedType }.
Record AgentContract := { agent_input : option ResolvedType; agent_output : option ResolvedType }.

Record Analyzer := {
  an_symbols : SymbolTable;
  an_diagnostics : list Diagnostic;
  an_expression_types : gmap Span ResolvedType;
  an_structs : gmap string (gmap string ResolvedType);
  an_enums : gmap string variant_list;
  an_functions : gmap string FunctionSignature;
  an_agents : gmap string AgentContract;
  an_states : gmap string (list ResolvedType);
  an_async : bool
}.

Abbreviation scope_map := (gmap string ResolvedType).

Definition set_symbols (x : SymbolTable) (a : Analyzer) : Analyzer :=
  {| an_symbols := x; an_diagnostics := an_diagnostics a; an_expression_types := an_expression_types a;
     an_structs := an_structs a; an_enums := an_enums a; an_functions := an_functions a;
     an_agents := an_agents a; an_states := an_states a; an_async := an_async a |}.
Definition set_diagnostics (x : list Diagnostic) (a : Analyzer) : Analyzer :=
  {| an_symbols := an_symbols a; an_diagnostics := x; an_expression_types := an_expression_types a;
     an_structs := an_structs a; an_enums := an_enums a; an_functions := an_functions a;
     an_agents := an_agents a; an_states := an_states a; an_async := an_async a |}.
Definition set_expression_types (x : gmap Span ResolvedType) (a : Analyzer) : Analyzer :=
  {| an_symbols := an_symbols a; an_diagnostics := an_diagnostics a; an_expression_types := x;
     an_structs := an_structs a; an_enums := an_enums a; an_functions := an_functions a;
     an_agents := an_agents a; an_states := an_states a; an_async := an_async a |}.
Definition set_structs (x : gmap string (gmap string ResolvedType)) (a : Analyzer) : Analyzer :=
  {| an_symbols := an_symbols a; an_diagnostics := an_diagnostics a; an_expression_types := an_expression_types a;
     an_structs := x; an_enums := an_enums a; an_functions := an_functions a;
     an_agents := an_agents a; an_states := an_states a; an_async := an_async a |}.
Definition set_enums (x : gmap string variant_list) (a : Analyzer) : Analyzer :=
  {| an_symbols := an_symbols a; an_diagnostics := an_diagnostics a; an_expression_types := an_expression_types a;
     an_structs := an_structs a; an_enums := x; an_functions := an_functions a;
     an_agents := an_agents a; an_states := an_states a; an_async := an_async a |}.
Definition set_functions (x : gmap string FunctionSignature) (a : Analyzer) : Analyzer :=
  {| an_symbols := an_symbols a; an_diagnostics := an_diagnostics a; an_expression_types := an_expression_types a;
     an_structs := an_structs a; an_enums := an_enums a; an_functions := x;
     an_agents := an_agents a; an_states := an_states a; an_async := an_async a |}.
Definition set_agents (x : gmap string AgentContract) (a : Analyzer) : Analyzer :=
  {| an_symbols := an_symbols a; an_diagnostics := an_diagnostics a; an_expression_types := an_expression_types a;
     an_structs := an_structs a; an_enums := an_enums a; an_functions := an_functions a;
     an_agents := x; an_states := an_states a; an_async := an_async a |}.
Definition set_states (x : gmap string (list ResolvedType)) (a : Analyzer) : Analyzer :=
  {| an_symbols := an_symbols a; an_diagnostics := an_diagnostics a; an_expression_types := an_expression_types a;
     an_structs := an_structs a; an_enums := an_enums a; an_functions := an_functions a;
     an_agents := an_agents a; an_states := x; an_async := an_async a |}.
Definition set_async (x : bool) (a : Analyzer) : Analyzer :=
  {| an_symbols := an_symbols a; an_diagnostics := an_diagnostics a; an_expression_types := an_expression_types a;
     an_structs := an_structs a; an_enums := an_enums a; an_functions := an_functions a;
     an_agents := an_agents a; an_states := an_states a; an_async := x |}.

(** [Analyzer::new] *)
Definition builtin_types : gmap string TypeSymbol :=
  foldl (λ m '(name, kind), <[name := {| ts_name := name; ts_kind := kind; ts_span := default_span |}]> m) ∅
    (map (λ name, (name, SymPrimitive)) primitive_names ++ [("Option", SymGeneric 1); ("Result", SymGeneric 2)]).

Definition analyzer_new : Analyzer :=
  {| an_symbols := {| sym_types := builtin_types; sym_values := ∅ |}; an_diagnostics := [];
     an_expression_types := ∅; an_structs := ∅; an_enums := ∅; an_functions := ∅; an_agents := ∅;
     an_states := ∅; an_async := false |}.

(** [property] of this file takes the first property of a name. *)
Definition first_property (fields : list PropertyNode) (name : string) : option PropertyNode :=
  List.find (λ f, bool_decide (prop_name f = name)) fields.

Definition property_identifier (p : PropertyNode) : option string :=
  match ex_kind (prop_value p) with
  | ELiteral (LitIdentifier name) => Some name
  | EPath path => last path
  | _ => None
  end.

Definition split_constructor_path (segments : list string) : option (string * string) :=
  match segments with [a; b] => Some (a, b) | _ => None end.

Definition find_variant (variants : variant_list) (name : string) : option (list ResolvedType) :=
  snd <$> List.find (λ v, bool_decide (v.1 = name)) variants.

Definition in_quotes (s : string) : string := "'" +:+ s +:+ "'".

Section analysis.
Context (file : string).

Definition push_message (code : string) (m : DiagnosticMessage) (span : Span) (a : Analyzer) : Analyzer :=
  set_diagnostics (an_diagnostics a ++
    [{| code := code; severity := SeverityError; message := m; Diagnostics.file := file; diagnostic_span := span |}]) a.

Definition push_error (code text : string) (span : Span) (a : Analyzer) : Analyzer := push_message code (Text text) span a.

Definition require_compatible (expected actual : ResolvedType) (span : Span) (context : string) (a : Analyzer)
    : Analyzer :=
  if compatible expected actual then a else push_message "SYL2101" (TypeMismatch context expected actual) span a.

Definition unknown_variant (type_name variant_name : string) (span : Span) (a : Analyzer) : Analyzer :=
  push_error "SYL2003" ("type " +:+ in_quotes type_name +:+ " has no variant " +:+ in_quotes variant_name) span a.

Definition type_arity_error (name : string) (expected actual : nat) (span : Span) (a : Analyzer) : Analyzer :=
  push_error "SYL2004" ("type " +:+ in_quotes name +:+ " expects " +:+ pretty expected +:+
    " argument(s), found " +:+ pretty actual) span a.

(** ** Declarations *)

Definition insert_type (name : string) (kind : TypeSymbolKind) (span : Span) (a : Analyzer) : Analyzer :=
  match sym_types (an_symbols a) !! name with
  | Some _ => push_error "SYL2001" ("duplicate type symbol " +:+ in_quotes name) span a
  | None =>
      set_symbols {| sym_types := <[name := {| ts_name := name; ts_kind := kind; ts_span := span |}]>
                                    (sym_types (an_symbols a));
                     sym_values := sym_values (an_symbols a) |} a
  end.

Definition insert_value (name : string) (kind : ValueSymbolKind) (span : Span) (a : Analyzer) : Analyzer :=
  match sym_values (an_symbols a) !! name with
  | Some _ => push_error "SYL2001" ("duplicate value symbol " +:+ in_quotes name) span a
  | None =>
      set_symbols {| sym_types := sym_types (an_symbols a);
                     sym_values := <[name := {| vs_name := name; vs_kind := kind; vs_span := span |}]>
                                     (sym_values (an_symbols a)) |} a
  end.

Definition collect_declaration (a : Analyzer) (item : Item) : Analyzer :=
  match item with
  | ItemStruct n => insert_type (sn_name n) SymStruct (sn_span n) a
  | ItemEnum n => insert_type (en_name n) SymEnum (en_span n) a
  | ItemState n => insert_type (stn_name n) SymState (stn_span n) a
  | ItemFunction n => insert_value (fnn_name n) SymFunction (fnn_span n) a
  | ItemAgent n => insert_value (ag_name n) SymAgent (ag_span n) a
  | ItemPipeline n => insert_value (pn_name n) SymPipeline (pn_span n) a
  | ItemSafetyBound n => insert_value (sb_name n) SymSafetyBound (sb_span n) a
  end.

Definition collect_declarations (ast : Ast) (a : Analyzer) : Analyzer := foldl collect_declaration a (ast_items ast).

Definition option_state {X Y} (g : X → Analyzer → Y * Analyzer) (o : option X) (a : Analyzer) : option Y * Analyzer :=
  match o with
  | Some x => let '(y, a) := g x a in (Some y, a)
  | None => (None, a)
  end.

Fixpoint resolve_type (node : TypeNode) (a : Analyzer) : ResolvedType * Analyzer :=
  match node with
  | mkType kind span =>
      match kind with
      | TkReference lifetime mutable inner =>
          let '(t, a) := resolve_type inner a in (RtReference lifetime mutable t, a)
      | TkArray inner => let '(t, a) := resolve_type inner a in (RtArray t, a)
      | TkTuple [] => (RtUnit, a)
      | TkTuple items => let '(ts, a) := map_state resolve_type items a in (RtTuple ts, a)
      | TkPath segments arguments =>
          match segments with
          | [name] =>
              if bool_decide (name = "Option") then
                match arguments with
                | [x] => let '(t, a) := resolve_type x a in (RtOption t, a)
                | _ => (RtError, type_arity_error name 1 (length arguments) span a)
                end
              else if bool_decide (name = "Result") then
                match arguments with
                | [x; y] =>
                    let '(ok, a) := resolve_type x a in
                    let '(error, a) := resolve_type y a in (RtResult ok error, a)
                | _ => (RtError, type_arity_error name 2 (length arguments) span a)
                end
              else if bool_decide (name = "Unit") && bool_decide (length arguments = 0%nat) then (RtUnit, a)
              else
                match sym_types (an_symbols a) !! name with
                | None => (RtError, push_error "SYL2002" ("unknown type " +:+ in_quotes name) span a)
                | Some symbol =>
                    if negb (bool_decide (length arguments = 0%nat))
                    then (RtError, type_arity_error name 0 (length arguments) span a)
                    else (match ts_kind symbol with
                          | SymPrimitive => match primitive_type name with Some p => RtPrimitive p | None => RtError end
                          | SymStruct => RtStruct name
                          | SymEnum => RtEnum name
                          | SymState => RtState name
                          | SymGeneric _ => RtError
                          end, a)
                end
          | _ => (RtError, push_error "SYL2002" ("unknown type " +:+ in_quotes (join "::" segments)) span a)
          end
      end
  end.

(** The parts of declarations that are resolved one after the other. *)
Definition resolve_fields (fields : list StructField) (a : Analyzer) : gmap string ResolvedType * Analyzer :=
  let '(l, a) := map_state (λ f a, let '(t, a) := resolve_type (sf_ty f) a in ((sf_name f, t), a)) fields a in
  (foldl (λ m '(name, t), <[name := t]> m) ∅ l, a).

Definition resolve_variants (variants : list EnumVariant) (a : Analyzer) : variant_list * Analyzer :=
  map_state (λ v a, let '(ts, a) := map_state resolve_type (ev_fields v) a in ((ev_name v, ts), a)) variants a.

Definition resolve_signature (parameters : list ParameterNode) (result : option TypeNode) (a : Analyzer)
    : FunctionSignature * Analyzer :=
  let '(ps, a) := map_state (λ p, resolve_type (pa_ty p)) parameters a in
  let '(r, a) := option_state resolve_type result a in
  ({| sig_parameters := ps; sig_result := default RtUnit r |}, a).

Definition resolve_contract (fields : list PropertyNode) (a : Analyzer) : AgentContract * Analyzer :=
  let '(i, a) := option_state resolve_type (first_property fields "input" ≫= prop_ty) a in
  let '(o, a) := option_state resolve_type (first_property fields "output" ≫= prop_ty) a in
  ({| agent_input := i; agent_output := o |}, a).

Definition resolve_property_types (keep : PropertyNode → bool) (fields : list PropertyNode) (a : Analyzer) : Analyzer :=
  foldl (λ a f, if keep f then match prop_ty f with Some ty => (resolve_type ty a).2 | None => a end else a) a fields.

Definition install_import (alias : string) (item : Item) (a : Analyzer) : Analyzer :=
  match item with
  | ItemStruct n =>
      let a := insert_type alias SymStruct (sn_span n) a in
      let '(fields, a) := resolve_fields (sn_fields n) a in
      set_structs (<[alias := fields]> (an_structs a)) a
  | ItemEnum n =>
      let a := insert_type alias SymEnum (en_span n) a in
      let '(variants, a) := resolve_variants (en_variants n) a in
      set_enums (<[alias := variants]> (an_enums a)) a
  | ItemFunction n =>
      let a := insert_value alias SymFunction (fnn_span n) a in
      let '(s, a) := resolve_signature (fnn_parameters n) (fnn_return_type n) a in
      set_functions (<[alias := s]> (an_functions a)) a
  | ItemState n =>
      let a := insert_type alias SymState (stn_span n) a in
      let '(fields, a) := map_state (λ f, resolve_type (stf_ty f)) (stn_fields n) a in
      set_states (<[alias := fields]> (an_states a)) a
  | ItemAgent n =>
      let a := insert_value alias SymAgent (ag_span n) a in
      let '(c, a) := resolve_contract (ag_fields n) a in
      set_agents (<[alias := c]> (an_agents a)) a
  | ItemPipeline n =>
      let a := insert_value alias SymPipeline (pn_span n) a in
      let '(s, a) := resolve_signature (pn_parameters n) (pn_return_type n) a in
      set_functions (<[alias := s]> (an_functions a)) a
  | ItemSafetyBound n => insert_value alias SymSafetyBound (sb_span n) a
  end.

Definition resolve_struct (n : StructNode) (a : Analyzer) : Analyzer :=
  match ts_kind <$> sym_types (an_symbols a) !! sn_name n with
  | Some SymStruct =>
      let '(fields, a) := resolve_fields (sn_fields n) a in
      set_structs (<[sn_name n := fields]> (an_structs a)) a
  | _ => a
  end.

Definition resolve_enum (n : EnumNode) (a : Analyzer) : Analyzer :=
  match ts_kind <$> sym_types (an_symbols a) !! en_name n with
  | Some SymEnum =>
      let '(variants, a) := resolve_variants (en_variants n) a in
      set_enums (<[en_name n := variants]> (an_enums a)) a
  | _ => a
  end.

Definition resolve_state_signature (n : StateNode) (a : Analyzer) : Analyzer :=
  let '(fields, a) := map_state (λ f, resolve_type (stf_ty f)) (stn_fields n) a in
  match an_states a !! stn_name n with
  | Some _ => a
  | None => set_states (<[stn_name n := fields]> (an_states a)) a
  end.

Definition resolve_function_signature (n : FunctionNode) (a : Analyzer) : Analyzer :=
  match vs_kind <$> sym_values (an_symbols a) !! fnn_name n, an_functions a !! fnn_name n with
  | Some SymFunction, None =>
      let '(s, a) := resolve_signature (fnn_parameters n) (fnn_return_type n) a in
      set_functions (<[fnn_name n := s]> (an_functions a)) a
  | _, _ => a
  end.

Definition resolve_agent_contract (n : AgentNode) (a : Analyzer) : Analyzer :=
  match an_agents a !! ag_name n with
  | Some _ => a
  | None =>
      let '(c, a) := resolve_contract (ag_fields n) a in
      let a := resolve_property_types (λ f, negb (one_of (prop_name f) ["input"; "output"])) (ag_fields n) a in
      set_agents (<[ag_name n := c]> (an_agents a)) a
  end.

Definition resolve_pipeline_signature (n : PipelineNode) (a : Analyzer) : Analyzer :=
  let '(s, a) := resolve_signature (pn_parameters n) (pn_return_type n) a in
  let a := match an_functions a !! pn_name n with
           | Some _ => a
           | None => set_functions (<[pn_name n := s]> (an_functions a)) a
           end in
  resolve_property_types (λ _, true) (pn_fields n) a.

Definition resolve_declaration (a : Analyzer) (item : Item) : Analyzer :=
  match item with
  | ItemStruct n => resolve_struct n a
  | ItemEnum n => resolve_enum n a
  | ItemState n => resolve_state_signature n a
  | ItemFunction n => resolve_function_signature n a
  | ItemAgent n => resolve_agent_contract n a
  | ItemPipeline n => resolve_pipeline_signature n a
  | ItemSafetyBound n =>
      let '(_, a) := map_state (λ p, resolve_type (pa_ty p)) (sb_parameters n) a in
      resolve_property_types (λ _, true) (sb_fields n) a
  end.

Definition resolve_declarations (ast : Ast) (a : Analyzer) : Analyzer := foldl resolve_declaration a (ast_items ast).
End analysis.
