(* ===== verification/SemanticBodies.v ===== *)
(** * Semantic analysis: bodies (crates/syllog-semantic/src/lib.rs)

    Type inference for the bodies of functions, states and pipelines, match
    checking, and the entry points [analyze] and [analyze_with_imports].  Scopes
    are passed by value: the source hands [&mut] scopes down, but only
    [check_block] and [check_pattern] write to one, and what they are given is a
    copy the callers drop, except the scope of a match arm, which [check_pattern]
    returns.  [infer_expr] is passed to the methods that call it back. *)

From stdpp Require Import base gmap list strings numbers pretty.
From S2P Require Import Prelude Text Ir Hir Diagnostics Ast Ownership Semantic.
Open Scope string_scope.
Open Scope list_scope.

Abbreviation inference := (Expr → scope_map → option ResolvedType → Analyzer → ResolvedType * Analyzer).

Definition argument_span (x : CallArgument) : Span := let 'mkArgument _ _ s := x in s.
Definition pattern_kind (p : Pattern) : PatternKind := let 'mkPattern k _ := p in k.
Definition body_span (b : Block) : Span := let 'mkBody _ s := b in s.

Section bodies.
Context (file : string).

(** ** Patterns *)

(** The payload types of a variant, in a pattern of the expected type; [None] when
    the type has no such variant. *)
Definition variant_payload (expected : ResolvedType) (type_name variant_name : string) (a : Analyzer)
    : option (list ResolvedType) :=
  match expected with
  | RtEnum enum_name =>
      if bool_decide (enum_name = type_name)
      then an_enums a !! enum_name ≫= λ variants, find_variant variants variant_name else None
  | RtOption inner =>
      if bool_decide (type_name = "Option") then
        if bool_decide (variant_name = "some") then Some [inner]
        else if bool_decide (variant_name = "none") then Some [] else None
      else None
  | RtResult ok error =>
      if bool_decide (type_name = "Result") then
        if bool_decide (variant_name = "ok") then Some [ok]
        else if bool_decide (variant_name = "err") then Some [error] else None
      else None
  | _ => None
  end.

(** The loop over the fields of a variant pattern and the payload types. *)
Definition check_fields (check : Pattern → ResolvedType → scope_map → Analyzer → scope_map * Analyzer)
    : list Pattern → list ResolvedType → scope_map → Analyzer → scope_map * Analyzer :=
  fix go fields payload scope a :=
    match fields, payload with
    | field :: fields, ty :: payload =>
        let '(scope, a) := check field ty scope a in go fields payload scope a
    | _, _ => (scope, a)
    end.

(** [check_variant_pattern], with the recursive call on the fields. *)
Definition check_variant_pattern_with
    (check : Pattern → ResolvedType → scope_map → Analyzer → scope_map * Analyzer)
    (path : list string) (fields : list Pattern) (expected : ResolvedType) (scope : scope_map) (span : Span)
    (a : Analyzer) : scope_map * Analyzer :=
  match split_constructor_path path with
  | None => (scope, push_error file "SYL2003" "malformed variant pattern" span a)
  | Some (type_name, variant_name) =>
      match expected with
      | RtError => (scope, a)
      | _ =>
          match variant_payload expected type_name variant_name a with
          | None => (scope, unknown_variant file type_name variant_name span a)
          | Some payload =>
              let a := if bool_decide (length payload = length fields) then a
                       else push_error file "SYL2101" ("pattern expects " +:+ pretty (length payload) +:+
                              " field(s), found " +:+ pretty (length fields)) span a in
              check_fields check fields payload scope a
          end
      end
  end.

Definition pattern_literal_type (l : Literal) : ResolvedType :=
  match l with
  | LitBoolean _ => bool_type
  | LitString _ => string_type
  | LitInteger _ => RtIntegerLiteral
  | LitFloat _ => RtFloatLiteral
  | LitIdentifier _ => RtUnknown
  end.

Fixpoint check_pattern (pattern : Pattern) (expected : ResolvedType) (scope : scope_map) (a : Analyzer)
    : scope_map * Analyzer :=
  match pattern with
  | mkPattern kind span =>
      match kind with
      | PkWildcard => (scope, a)
      | PkLiteral l => (scope, require_compatible file expected (pattern_literal_type l) span "pattern" a)
      | PkPath [name] => (<[name := expected]> scope, a)
      | PkPath segments => check_variant_pattern_with check_pattern segments [] expected scope span a
      | PkConstructor path fields => check_variant_pattern_with check_pattern path fields expected scope span a
      end
  end.

(** ** Exhaustiveness *)

Definition catch_all (arm : MatchArm) : bool :=
  match arm_guard arm with
  | Some _ => false
  | None => match pattern_kind (arm_pattern arm) with
            | PkWildcard => true
            | PkPath path => bool_decide (length path = 1%nat)
            | _ => false
            end
  end.

Definition required_variants (value_type : ResolvedType) (a : Analyzer) : option (list string) :=
  match value_type with
  | RtEnum name => Some (match an_enums a !! name with Some variants => variants.*1 | None => [] end)
  | RtOption _ => Some ["some"; "none"]
  | RtResult _ _ => Some ["ok"; "err"]
  | RtPrimitive PrimBool => Some ["true"; "false"]
  | _ => None
  end.

Definition covered_variant (arm : MatchArm) : option string :=
  match arm_guard arm with
  | Some _ => None
  | None => match pattern_kind (arm_pattern arm) with
            | PkConstructor path _ | PkPath path => last path
            | PkLiteral (LitBoolean b) => Some (if b then "true" else "false")
            | _ => None
            end
  end.

Definition missing_variants (required : list string) (arms : list MatchArm) : list string :=
  filter (λ v, v ∉ omap covered_variant arms) required.

Definition check_exhaustive (span : Span) (value_type : ResolvedType) (arms : list MatchArm) (a : Analyzer)
    : Analyzer :=
  if existsb catch_all arms then a
  else
    match required_variants value_type a with
    | None => a
    | Some required =>
        match missing_variants required arms with
        | [] => a
        | missing => push_error file "SYL2301" ("non-exhaustive match; missing " +:+ join ", " missing) span a
        end
    end.

(** ** Literals and paths *)

Definition infer_literal (l : Literal) (span : Span) (scope : scope_map) (expected : option ResolvedType)
    (a : Analyzer) : ResolvedType * Analyzer :=
  match l with
  | LitString _ => (string_type, a)
  | LitBoolean _ => (bool_type, a)
  | LitInteger _ => (RtIntegerLiteral, a)
  | LitFloat _ => (RtFloatLiteral, a)
  | LitIdentifier name =>
      if bool_decide (name = "none") then
        match expected with
        | Some (RtOption _ as ty) | Some (RtError as ty) => (ty, a)
        | _ => (RtError, push_error file "SYL2003" "'none' requires an Option context" span a)
        end
      else
        match scope !! name with
        | Some ty => (ty, a)
        | None =>
            match an_functions a !! name with
            | Some s => (RtFunction (sig_parameters s) (sig_result s), a)
            | None => (RtError, push_error file "SYL2003" ("unknown value " +:+ in_quotes name) span a)
            end
        end
  end.

Definition enum_variant (enum_name variant_name : string) (a : Analyzer) : option (list ResolvedType) :=
  an_enums a !! enum_name ≫= λ variants, find_variant variants variant_name.

Definition infer_path (segments : list string) (span : Span) (a : Analyzer) : ResolvedType * Analyzer :=
  match split_constructor_path segments ≫= λ '(e, v), (λ fields, (e, v, fields)) <$> enum_variant e v a with
  | Some (enum_name, variant_name, fields) =>
      match fields with
      | [] => (RtEnum enum_name, a)
      | _ => (RtError, push_error file "SYL2101"
                ("variant '" +:+ enum_name +:+ "::" +:+ variant_name +:+ "' requires " +:+
                 pretty (length fields) +:+ " value(s)") span a)
      end
  | None => (RtError, push_error file "SYL2003" ("unknown value path " +:+ in_quotes (join "::" segments)) span a)
  end.

Definition is_place (e : Expr) : bool :=
  match ex_kind e with EPath _ | EField _ _ | ELiteral (LitIdentifier _) => true | _ => false end.

Definition comparison (o : BinaryOperator) : bool :=
  match o with OpEqual | OpNotEqual | OpLess | OpLessEqual | OpGreater | OpGreaterEqual => true | _ => false end.
Definition logical (o : BinaryOperator) : bool := match o with OpAnd | OpOr => true | _ => false end.

(** ** Methods that call [infer_expr] back *)

Section inference.
Context (infer : inference).

Definition infer_borrow (mutable : bool) (operand : Expr) (scope : scope_map) (a : Analyzer)
    : ResolvedType * Analyzer :=
  let a := if is_place operand then a
           else push_error file "SYL2601" "borrow operand must be a named place" (ex_span operand) a in
  let '(t, a) := infer operand scope None a in (RtReference None mutable t, a).

Definition infer_items (expected_item : option ResolvedType) (scope : scope_map)
    : list Expr → ResolvedType → Analyzer → ResolvedType * Analyzer :=
  fix go items item_type a :=
    match items with
    | [] => (item_type, a)
    | item :: items =>
        let '(actual, a) := infer item scope expected_item a in
        match item_type with
        | RtUnknown => go items actual a
        | _ => go items item_type (require_compatible file item_type actual (ex_span item) "array element" a)
        end
    end.

Definition infer_array (items : list Expr) (scope : scope_map) (expected : option ResolvedType) (a : Analyzer)
    : ResolvedType * Analyzer :=
  let expected_item := match expected with Some (RtArray item) => Some item | _ => None end in
  let '(t, a) := infer_items expected_item scope items (default RtUnknown expected_item) a in (RtArray t, a).

(** The loop over the arguments and the types they are checked against. *)
Definition infer_arguments (context : string) (scope : scope_map)
    : list CallArgument → list ResolvedType → Analyzer → Analyzer :=
  fix go arguments types a :=
    match arguments, types with
    | mkArgument _ value span :: arguments, expected :: types =>
        let '(actual, a) := infer value scope (Some expected) a in
        go arguments types (require_compatible file expected actual span context a)
    | _, _ => a
    end.

(** The loop over the arguments of a callee that is no function. *)
Definition infer_all (scope : scope_map) : list CallArgument → Analyzer → Analyzer :=
  fix go arguments a :=
    match arguments with
    | [] => a
    | mkArgument _ value _ :: arguments => go arguments (infer value scope None a).2
    end.

(** [arguments.first().map_or(Unknown, ..)] *)
Definition infer_first (arguments : list CallArgument) (scope : scope_map) (a : Analyzer) : ResolvedType * Analyzer :=
  match arguments with
  | [] => (RtUnknown, a)
  | mkArgument _ value _ :: _ => infer value scope None a
  end.

(** The payload and result type of the constructor; [None] after an error. *)
Definition option_constructor (variant_name : string) (arguments : list CallArgument) (span : Span)
    (scope : scope_map) (expected : option ResolvedType) (a : Analyzer)
    : option (list ResolvedType * ResolvedType) * Analyzer :=
  let '(item, a) := match expected with
                    | Some (RtOption item) => (item, a)
                    | _ => infer_first arguments scope a
                    end in
  if bool_decide (variant_name = "some") then (Some ([item], RtOption item), a)
  else if bool_decide (variant_name = "none") then (Some ([], RtOption item), a)
  else (None, unknown_variant file "Option" variant_name span a).

Definition result_constructor (variant_name : string) (arguments : list CallArgument) (span : Span)
    (scope : scope_map) (expected : option ResolvedType) (a : Analyzer)
    : option (list ResolvedType * ResolvedType) * Analyzer :=
  let '(types, a) :=
    match expected with
    | Some (RtResult ok error) => (Some (ok, error), a)
    | _ =>
        if bool_decide (variant_name = "ok") then
          let '(ok, a) := infer_first arguments scope a in (Some (ok, RtUnknown), a)
        else if bool_decide (variant_name = "err") then
          let '(error, a) := infer_first arguments scope a in (Some (RtUnknown, error), a)
        else (None, a)
    end in
  match types with
  | None => (None, unknown_variant file "Result" variant_name span a)
  | Some (ok, error) =>
      if bool_decide (variant_name = "ok") then (Some ([ok], RtResult ok error), a)
      else if bool_decide (variant_name = "err") then (Some ([error], RtResult ok error), a)
      else (None, unknown_variant file "Result" variant_name span a)
  end.

Definition enum_constructor (type_name variant_name : string) (span : Span) (a : Analyzer)
    : option (list ResolvedType * ResolvedType) * Analyzer :=
  match an_enums a !! type_name with
  | Some variants =>
      match find_variant variants variant_name with
      | Some fields => (Some (fields, RtEnum type_name), a)
      | None => (None, unknown_variant file type_name variant_name span a)
      end
  | None => (None, push_error file "SYL2003"
               ("unknown constructor '" +:+ type_name +:+ "::" +:+ variant_name +:+ "'") span a)
  end.

Definition infer_constructor_call (segments : list string) (arguments : list CallArgument) (span : Span)
    (scope : scope_map) (expected : option ResolvedType) (a : Analyzer) : ResolvedType * Analyzer :=
  match split_constructor_path segments with
  | None => (RtError, push_error file "SYL2003" "unknown constructor" span a)
  | Some (type_name, variant_name) =>
      let '(constructor, a) :=
        if bool_decide (type_name = "Option") then option_constructor variant_name arguments span scope expected a
        else if bool_decide (type_name = "Result") then result_constructor variant_name arguments span scope expected a
        else enum_constructor type_name variant_name span a in
      match constructor with
      | None => (RtError, a)
      | Some (fields, result) =>
          let a := if bool_decide (length fields = length arguments) then a
                   else push_error file "SYL2101" ("constructor expects " +:+ pretty (length fields) +:+
                          " value(s), found " +:+ pretty (length arguments)) span a in
          (result, infer_arguments "constructor argument" scope arguments fields a)
      end
  end.

(** A call whose callee is no path. *)
Definition infer_function_call (callee : Expr) (arguments : list CallArgument) (span : Span) (scope : scope_map)
    (a : Analyzer) : ResolvedType * Analyzer :=
  let '(callee_type, a) := infer callee scope None a in
  match callee_type with
  | RtFunction parameters result =>
      let a := if bool_decide (length parameters = length arguments) then a
               else push_error file "SYL2101" ("function expects " +:+ pretty (length parameters) +:+
                      " argument(s), found " +:+ pretty (length arguments)) span a in
      (result, infer_arguments "call argument" scope arguments parameters a)
  | _ =>
      let a := match callee_type with
               | RtError => a
               | _ => push_error file "SYL2101" "called expression is not a function" (ex_span callee) a
               end in
      (RtError, infer_all scope arguments a)
  end.

Definition infer_call (callee : Expr) (arguments : list CallArgument) (span : Span) (scope : scope_map)
    (expected : option ResolvedType) (a : Analyzer) : ResolvedType * Analyzer :=
  match ex_kind callee with
  | EPath segments => infer_constructor_call segments arguments span scope expected a
  | _ => infer_function_call callee arguments span scope a
  end.

Definition infer_field (base : Expr) (name : string) (span : Span) (scope : scope_map) (a : Analyzer)
    : ResolvedType * Analyzer :=
  let '(base_type, a) := infer base scope None a in
  match base_type with
  | RtStruct struct_name =>
      match an_structs a !! struct_name ≫= lookup name with
      | Some ty => (ty, a)
      | None => (RtError, push_error file "SYL2003"
                   ("type " +:+ in_quotes struct_name +:+ " has no field " +:+ in_quotes name) span a)
      end
  | _ => (RtError, a)
  end.

Definition infer_unary (operator : UnaryOperator) (operand : Expr) (scope : scope_map) (a : Analyzer)
    : ResolvedType * Analyzer :=
  let '(t, a) := infer operand scope None a in
  match operator with
  | Not => (bool_type, require_compatible file bool_type t (ex_span operand) "'!' operand" a)
  | Negate => (t, a)
  end.

Definition infer_binary (operator : BinaryOperator) (lhs rhs : Expr) (scope : scope_map) (a : Analyzer)
    : ResolvedType * Analyzer :=
  let '(l, a) := infer lhs scope None a in
  let '(r, a) := infer rhs scope (Some l) a in
  if comparison operator then (bool_type, require_compatible file l r (ex_span rhs) "comparison" a)
  else if logical operator then
    let a := require_compatible file bool_type l (ex_span lhs) "Boolean operator" a in
    (bool_type, require_compatible file bool_type r (ex_span rhs) "Boolean operator" a)
  else (l, require_compatible file l r (ex_span rhs) "binary operator" a).

Definition check_guard (guard : option Expr) (scope : scope_map) (a : Analyzer) : Analyzer :=
  match guard with
  | None => a
  | Some g =>
      let '(t, a) := infer g scope (Some bool_type) a in
      require_compatible file bool_type t (ex_span g) "match guard" a
  end.

Definition check_arms (value_type : ResolvedType) (scope : scope_map) (expected : option ResolvedType)
    : list MatchArm → ResolvedType → Analyzer → ResolvedType * Analyzer :=
  fix go arms result a :=
    match arms with
    | [] => (result, a)
    | mkMatchArm pattern guard body _ :: arms =>
        let '(arm_scope, a) := check_pattern pattern value_type scope a in
        let a := check_guard guard arm_scope a in
        let '(arm_type, a) := infer body arm_scope expected a in
        match result with
        | RtUnknown => go arms arm_type a
        | _ => go arms result (require_compatible file result arm_type (ex_span body) "match arm" a)
        end
    end.

Definition check_match (span : Span) (value_type : ResolvedType) (arms : list MatchArm) (scope : scope_map)
    (expected : option ResolvedType) (a : Analyzer) : ResolvedType * Analyzer :=
  let '(result, a) := check_arms value_type scope expected arms (default RtUnknown expected) a in
  (result, check_exhaustive span value_type arms a).

Definition infer_match (value : Expr) (arms : list MatchArm) (span : Span) (scope : scope_map)
    (expected : option ResolvedType) (a : Analyzer) : ResolvedType * Analyzer :=
  let '(value_type, a) := infer value scope None a in
  check_match span value_type arms scope expected a.

Definition check_statements (expected_result : ResolvedType)
    : list Statement → scope_map → ResolvedType → Analyzer → ResolvedType * Analyzer :=
  fix go statements scope result a :=
    match statements with
    | [] => (result, a)
    | mkStatement kind span :: rest =>
        match kind with
        | SLet name ty value =>
            let '(declared, a) := option_state (resolve_type file) ty a in
            let '(actual, a) := infer value scope declared a in
            go rest (<[name := default actual declared]> scope) result a
        | SReturn value =>
            let '(actual, a) := match value with
                                | None => (RtUnit, a)
                                | Some value => infer value scope (Some expected_result) a
                                end in
            go rest scope result (require_compatible file expected_result actual span "return value" a)
        | SExpression e =>
            let at_end := match rest with [] => true | _ => false end in
            let '(t, a) := infer e scope (if at_end then Some expected_result else None) a in
            go rest scope t
              (if at_end then require_compatible file expected_result t (ex_span e) "function result" a else a)
        end
    end.

Definition check_block (block : Block) (scope : scope_map) (expected_result : ResolvedType) (a : Analyzer)
    : ResolvedType * Analyzer :=
  match block with
  | mkBody statements span =>
      let '(result, a) := check_statements expected_result statements scope RtUnit a in
      (result, match statements with
               | [] => require_compatible file expected_result RtUnit span "function result" a
               | _ => a
               end)
  end.

Definition infer_await (operand : Expr) (span : Span) (scope : scope_map) (expected : option ResolvedType)
    (a : Analyzer) : ResolvedType * Analyzer :=
  let a := if an_async a then a
           else push_error file "SYL2501" "'await' is only valid inside an async function" span a in
  infer operand scope expected a.

Definition infer_expr_kind (e : Expr) (scope : scope_map) (expected : option ResolvedType) (a : Analyzer)
    : ResolvedType * Analyzer :=
  match e with
  | Ex kind span =>
      match kind with
      | EBorrow mutable operand => infer_borrow mutable operand scope a
      | EAwait operand => infer_await operand span scope expected a
      | ELiteral l => infer_literal l span scope expected a
      | EPath segments => infer_path segments span a
      | EArray items => infer_array items scope expected a
      | ECall callee arguments => infer_call callee arguments span scope expected a
      | EField base name => infer_field base name span scope a
      | EUnary operator operand => infer_unary operator operand scope a
      | EBinary operator lhs rhs => infer_binary operator lhs rhs scope a
      | EMatch value arms => infer_match value arms span scope expected a
      | EBlock block => check_block block scope (default RtUnknown expected) a
      end
  end.
End inference.

Fixpoint infer_expr (e : Expr) (scope : scope_map) (expected : option ResolvedType) (a : Analyzer)
    : ResolvedType * Analyzer :=
  let '(inferred, a) := infer_expr_kind infer_expr e scope expected a in
  (inferred, set_expression_types (<[ex_span e := inferred]> (an_expression_types a)) a).

(** ** Bodies of the declarations *)

Definition parameter_scope (parameters : list ParameterNode) (types : list ResolvedType) : scope_map :=
  foldl (λ m '(p, ty), <[pa_name p := ty]> m) ∅ (zip parameters types).

Definition check_function (n : FunctionNode) (a : Analyzer) : Analyzer :=
  match an_functions a !! fnn_name n with
  | None => a
  | Some s =>
      let scope := parameter_scope (fnn_parameters n) (sig_parameters s) in
      let '(_, a') := check_block infer_expr (fnn_body n) scope (sig_result s) (set_async (fnn_asynchronous n) a) in
      set_async (an_async a) a'
  end.

Definition check_initializer (a : Analyzer) (entry : StateField * ResolvedType) : Analyzer :=
  let '(field, expected) := entry in
  match stf_initializer field with
  | None => a
  | Some initializer =>
      let '(actual, a) := infer_expr initializer ∅ (Some expected) a in
      require_compatible file expected actual (ex_span initializer) "state initializer" a
  end.

Definition check_state (n : StateNode) (a : Analyzer) : Analyzer :=
  foldl check_initializer a (zip (stn_fields n) (default [] (an_states a !! stn_name n))).

(** The two checks of a pipeline's signature against its agent's contract. *)
Definition check_agent_input (n : PipelineNode) (s : FunctionSignature) (agent_name : string) (c : AgentContract)
    (a : Analyzer) : Analyzer :=
  match agent_input c with
  | None => a
  | Some expected =>
      let input := head (sig_parameters s) in
      if match input with Some t => compatible expected t | None => false end then a
      else push_message file "SYL2201" (AgentMismatch "input" agent_name expected (default RtUnit input))
             (match pn_parameters n with p :: _ => pa_span p | [] => pn_span n end) a
  end.

Definition check_agent_output (n : PipelineNode) (s : FunctionSignature) (agent_name : string) (c : AgentContract)
    (a : Analyzer) : Analyzer :=
  match agent_output c with
  | None => a
  | Some expected =>
      if compatible expected (sig_result s) then a
      else push_message file "SYL2201" (AgentMismatch "output" agent_name expected (sig_result s))
             (match pn_return_type n with Some ty => type_span ty | None => pn_span n end) a
  end.

Definition check_agent (n : PipelineNode) (s : FunctionSignature) (a : Analyzer) : Analyzer :=
  match first_property (pn_fields n) "agent" ≫= property_identifier with
  | None => a
  | Some agent_name =>
      match an_agents a !! agent_name with
      | None => a
      | Some c => check_agent_output n s agent_name c (check_agent_input n s agent_name c a)
      end
  end.

Definition check_result (n : PipelineNode) (s : FunctionSignature) (a : Analyzer) : Analyzer :=
  match first_property (pn_fields n) "result" with
  | None => a
  | Some result =>
      let '(declared, a) := match prop_ty result with
                            | None => (sig_result s, a)
                            | Some ty => resolve_type file ty a
                            end in
      let a := require_compatible file (sig_result s) declared (prop_span result) "pipeline result annotation" a in
      let '(actual, a) := infer_expr (prop_value result) (parameter_scope (pn_parameters n) (sig_parameters s))
                            (Some declared) a in
      require_compatible file declared actual (ex_span (prop_value result)) "pipeline result" a
  end.

Definition check_pipeline (n : PipelineNode) (a : Analyzer) : Analyzer :=
  let s := default {| sig_parameters := []; sig_result := RtUnit |} (an_functions a !! pn_name n) in
  check_result n s (check_agent n s a).

Definition check_item (a : Analyzer) (item : Item) : Analyzer :=
  match item with
  | ItemFunction n => check_function n a
  | ItemState n => check_state n a
  | ItemPipeline n => check_pipeline n a
  | _ => a
  end.

Definition check_bodies (ast : Ast) (a : Analyzer) : Analyzer := foldl check_item a (ast_items ast).
End bodies.

(** ** Entry points *)

Record Analysis := {
  analysis_symbols : SymbolTable;
  analysis_diagnostics : list Diagnostic;
  analysis_expression_types : gmap Span ResolvedType
}.

Definition finish (file : string) (ast : Ast) (a : Analyzer) : Analysis :=
  {| analysis_symbols := an_symbols a;
     analysis_diagnostics := an_diagnostics a ++ analyze_ownership file ast;
     analysis_expression_types := an_expression_types a |}.

Definition declared (file : string) (ast : Ast) (imports : list (string * Item)) : Analyzer :=
  resolve_declarations file ast
    (foldl (λ a '(alias, item), install_import file alias item a) (collect_declarations file ast analyzer_new) imports).

Definition analyze_with_imports (file : string) (ast : Ast) (imports : list (string * Item)) : Analysis :=
  finish file ast (check_bodies file ast (declared file ast imports)).

Definition analyze (file : string) (ast : Ast) : Analysis :=
  finish file ast (check_bodies file ast (resolve_declarations file ast (collect_declarations file ast analyzer_new))).
