(* ===== verification/SemanticTheorems.v ===== *)
(** * Semantic analysis: what a silent run has established

    [extends] is the order of the analyzer during the checks of bodies: the
    environment is fixed, diagnostics and recorded types only grow.  [step a b Q]
    says that a method went from [a] to [b] along this order and that, when it
    reported nothing, [Q] holds from [b] on.  [reached a S e] is the declarative
    reading of an accepted expression: names are in scope, constructors exist and
    have the right number of arguments, [await] occurs in asynchronous code, and
    the type of the expression and of all expressions below it is recorded. *)

From stdpp Require Import base gmap strings numbers pretty list.
From S2P Require Import Prelude Text Ir Hir Diagnostics Ast Ownership Semantic SemanticBodies.
Open Scope string_scope.
Open Scope list_scope.

Record extends (a b : Analyzer) : Prop := {
  ext_symbols : an_symbols b = an_symbols a;
  ext_structs : an_structs b = an_structs a;
  ext_enums : an_enums b = an_enums a;
  ext_functions : an_functions b = an_functions a;
  ext_agents : an_agents b = an_agents a;
  ext_states : an_states b = an_states a;
  ext_async : an_async b = an_async a;
  ext_diagnostics : an_diagnostics a `prefix_of` an_diagnostics b;
  ext_types : dom (an_expression_types a) ⊆ dom (an_expression_types b)
}.

#[export] Instance extends_preorder : PreOrder extends.
Proof.
  split.
  - intros a. by split.
  - intros a b c [] []. split; try congruence; by etrans.
Qed.

Definition silent (a b : Analyzer) : Prop := an_diagnostics b = an_diagnostics a.

Record step (a b : Analyzer) (Q : Analyzer → Prop) : Prop := {
  step_extends : extends a b;
  step_holds : silent a b → ∀ c, extends b c → Q c
}.

Lemma prefix_silent a b c :
  an_diagnostics a `prefix_of` an_diagnostics b → an_diagnostics b `prefix_of` an_diagnostics c →
  silent a c → silent a b ∧ silent b c.
Proof.
  intros [k Hk] [k' Hk'] Hs. unfold silent in *.
  assert (an_diagnostics b = an_diagnostics a) as Hb; [|split; congruence].
  rewrite Hk, Hs in Hk'. rewrite <-app_assoc in Hk'. rewrite <-(app_nil_r (an_diagnostics a)) in Hk' at 1.
  apply app_inv_head in Hk'. symmetry in Hk'. apply app_nil in Hk' as [-> _]. by rewrite Hk, app_nil_r.
Qed.

Lemma extends_silent a b c : extends a b → extends b c → silent a c → silent a b ∧ silent b c.
Proof.
  intros H1 H2. apply prefix_silent; [apply (ext_diagnostics _ _ H1)|apply (ext_diagnostics _ _ H2)].
Qed.

Lemma step_refl (a : Analyzer) (Q : Analyzer → Prop) : (∀ c, extends a c → Q c) → step a a Q.
Proof. intros H. by split. Qed.

Lemma step_trans a b c Q R : step a b Q → step b c R → step a c (λ d, Q d ∧ R d).
Proof.
  intros [H1 Q1] [H2 Q2]. split; [by etrans|].
  intros Hs d Hd. destruct (extends_silent _ _ _ H1 H2 Hs). split; [apply Q1|apply Q2]; auto. by etrans.
Qed.

Lemma step_weaken a b (Q R : Analyzer → Prop) :
  step a b Q → (∀ c, extends b c → Q c → R c) → step a b R.
Proof. intros [H HQ] Himp. split; [done|]. auto. Qed.

(** ** Diagnostics *)

Section steps.
Context (file : string).

Lemma push_message_extends code m span a : extends a (push_message file code m span a).
Proof. split; try done. by eexists. Qed.

Lemma push_message_loud code m span a : ¬ silent a (push_message file code m span a).
Proof. intros H. apply (f_equal length) in H. simpl in H. rewrite length_app in H. simpl in H. lia. Qed.

(** A report is a step after which anything is claimed. *)
Lemma push_message_step code m span a Q : step a (push_message file code m span a) Q.
Proof. split; [apply push_message_extends|]. by intros ?%push_message_loud. Qed.

Lemma push_error_step code m span a Q : step a (push_error file code m span a) Q.
Proof. apply push_message_step. Qed.

Lemma unknown_variant_step t v span a Q : step a (unknown_variant file t v span a) Q.
Proof. apply push_message_step. Qed.

Lemma require_compatible_step expected actual span context a :
  step a (require_compatible file expected actual span context a) (λ _, compatible expected actual = true).
Proof.
  unfold require_compatible. destruct (compatible expected actual); [by apply step_refl|apply push_message_step].
Qed.

Lemma if_step (b : bool) code m span a :
  step a (if b then a else push_error file code m span a) (λ _, b = true).
Proof. destruct b; [by apply step_refl|apply push_message_step]. Qed.

Lemma map_state_extends {X Y} (g : X → Analyzer → Y * Analyzer) l :
  Forall (λ x, ∀ a, extends a (g x a).2) l → ∀ a, extends a (map_state g l a).2.
Proof.
  induction 1 as [|x l Hx _ IHl]; intros a; [done|]. cbn.
  specialize (Hx a). destruct (g x a) as [y b]. specialize (IHl b). destruct (map_state g l b). by etrans.
Qed.

Lemma resolve_type_extends ty : ∀ a, extends a (resolve_type file ty a).2.
Proof.
  revert ty. fix IH 1. intros [kind span] a. destruct kind as [r m inner|segments arguments|inner|items]; cbn [resolve_type].
  - specialize (IH inner a). by destruct (resolve_type file inner a).
  - destruct segments as [|name [|]]; try apply push_message_extends.
    destruct (bool_decide (name = "Option")).
    { destruct arguments as [|x [|]]; try apply push_message_extends.
      specialize (IH x a). by destruct (resolve_type file x a). }
    destruct (bool_decide (name = "Result")).
    { destruct arguments as [|x [|y [|]]]; try apply push_message_extends.
      pose proof (IH x a) as Hx. destruct (resolve_type file x a) as [t1 a1].
      pose proof (IH y a1) as Hy. destruct (resolve_type file y a1). by etrans. }
    destruct (_ && _); [done|]. destruct (_ !! name); [|apply push_message_extends].
    destruct (negb _); [apply push_message_extends|done].
  - specialize (IH inner a). by destruct (resolve_type file inner a).
  - destruct items as [|x items]; [done|].
    assert (Forall (λ y, ∀ a, extends a (resolve_type file y a).2) (x :: items)) as Hall.
    { constructor; [apply IH|]. induction items as [|z items IHl]; constructor; [apply IH|exact IHl]. }
    apply map_state_extends with (a := a) in Hall. by destruct (map_state _ (x :: items) a).
Qed.

(** ** Patterns *)

Fixpoint pattern_names (p : Pattern) : gset string :=
  match p with
  | mkPattern kind _ =>
      match kind with
      | PkPath [name] => {[name]}
      | PkConstructor _ fields => ⋃ (map pattern_names fields)
      | _ => ∅
      end
  end.

Definition checks_pattern (p : Pattern) : Prop :=
  ∀ expected scope a scope' b, check_pattern file p expected scope a = (scope', b) →
    extends a b ∧ dom scope' ⊆ pattern_names p ∪ dom scope.

Lemma check_fields_checks fields :
  Forall checks_pattern fields →
  ∀ payload scope a scope' b, check_fields (check_pattern file) fields payload scope a = (scope', b) →
    extends a b ∧ dom scope' ⊆ ⋃ (map pattern_names fields) ∪ dom scope.
Proof.
  induction 1 as [|p fields Hp _ IH]; intros [|ty payload] scope a scope' b; cbn;
    try (intros [= <- <-]; split; [done|set_solver]).
  destruct (check_pattern file p ty scope a) as [scope1 a1] eqn:E. intros Hrest.
  apply Hp in E as [E1 E2]. apply IH in Hrest as [R1 R2]. split; [by etrans|set_solver].
Qed.

Lemma check_variant_pattern_checks path fields expected scope span a scope' b :
  Forall checks_pattern fields →
  check_variant_pattern_with file (check_pattern file) path fields expected scope span a = (scope', b) →
  extends a b ∧ dom scope' ⊆ ⋃ (map pattern_names fields) ∪ dom scope.
Proof.
  intros Hf. unfold check_variant_pattern_with.
  destruct (split_constructor_path path) as [[t v]|].
  2: { intros [= <- <-]. split; [apply push_message_extends|set_solver]. }
  destruct expected; try (intros [= <- <-]; split; [apply push_message_extends || done|set_solver]);
    destruct (variant_payload _ _ _ _); try (intros [= <- <-]; split; [apply push_message_extends|set_solver]);
    intros [He Hd]%check_fields_checks; try done; (split; [|done]); (etrans; [|exact He]); eapply step_extends, if_step.
Qed.

Lemma check_pattern_checks p : checks_pattern p.
Proof.
  revert p. fix IH 1. intros [kind span] expected scope a scope' b. destruct kind as [|path|path fields|l];
    cbn [check_pattern pattern_names].
  - intros [= <- <-]. split; [done|set_solver].
  - destruct path as [|name [|]].
    1,3: intros H; apply check_variant_pattern_checks in H; [set_solver|constructor].
    intros [= <- <-]. split; [done|]. rewrite dom_insert_L. set_solver.
  - assert (Forall checks_pattern fields) as Hf.
    { induction fields as [|f fields IHf]; constructor; [apply IH|apply IHf]. }
    intros H. by apply check_variant_pattern_checks in H.
  - intros [= <- <-]. split; [eapply step_extends, require_compatible_step|set_solver].
Qed.
End steps.

(** ** Accepted expressions *)

(** The subexpressions the analyzer infers a type for, with the names bound there.
    The path of a constructor call is resolved, not inferred. *)
Definition bind_statement (s : Statement) (S : gset string) : gset string :=
  match st_kind s with SLet name _ _ => {[name]} ∪ S | _ => S end.

Fixpoint scoped_statements (S : gset string) (l : list Statement) : list (gset string * Expr) :=
  match l with
  | [] => []
  | s :: l => map (pair S) (statement_children s) ++ scoped_statements (bind_statement s S) l
  end.

Definition scoped_arms (S : gset string) (arms : list MatchArm) : list (gset string * Expr) :=
  flat_map (λ arm, map (pair (pattern_names (arm_pattern arm) ∪ S)) (arm_children arm)) arms.

Definition is_path (e : Expr) : bool := match ex_kind e with EPath _ => true | _ => false end.

Definition scoped_children (S : gset string) (e : Expr) : list (gset string * Expr) :=
  match ex_kind e with
  | ECall callee arguments =>
      (if is_path callee then [] else [(S, callee)]) ++ map (pair S) (map argument_value arguments)
  | EMatch value arms => (S, value) :: scoped_arms S arms
  | EBlock block => scoped_statements S (body_statements block)
  | _ => map (pair S) (children e)
  end.

(** The number of values a constructor takes. *)
Definition constructor_arity (a : Analyzer) (type_name variant_name : string) : option nat :=
  if bool_decide (type_name = "Option") then
    if bool_decide (variant_name = "some") then Some 1%nat
    else if bool_decide (variant_name = "none") then Some 0%nat else None
  else if bool_decide (type_name = "Result") then
    if bool_decide (variant_name = "ok") || bool_decide (variant_name = "err") then Some 1%nat else None
  else length <$> enum_variant type_name variant_name a.

(** What a call needs of its callee: a constructor, or a known function where the
    name is not a local variable, with as many arguments as it takes. *)
Definition callee_ok (a : Analyzer) (S : gset string) (callee : Expr) (arguments : list CallArgument) : Prop :=
  match ex_kind callee with
  | EPath segments =>
      ∃ type_name variant_name, segments = [type_name; variant_name] ∧
        constructor_arity a type_name variant_name = Some (length arguments)
  | ELiteral (LitIdentifier name) =>
      name ∈ S ∨ name = "none" ∨ ∃ s, an_functions a !! name = Some s ∧ length (sig_parameters s) = length arguments
  | _ => True
  end.

Definition local_ok (a : Analyzer) (S : gset string) (e : Expr) : Prop :=
  match ex_kind e with
  | EBorrow _ operand => is_place operand = true
  | EAwait _ => an_async a = true
  | ELiteral (LitIdentifier name) => name ∈ S ∨ name = "none" ∨ is_Some (an_functions a !! name)
  | EPath segments => ∃ enum_name variant_name,
      segments = [enum_name; variant_name] ∧ enum_variant enum_name variant_name a = Some []
  | ECall callee arguments => callee_ok a S callee arguments
  | _ => True
  end.

Inductive reached (a : Analyzer) (S : gset string) (e : Expr) : Prop :=
| reached_intro :
    ex_span e ∈ dom (an_expression_types a) →
    local_ok a S e →
    (∀ S' c, (S', c) ∈ scoped_children S e → reached a S' c) →
    reached a S e.

Definition all_reached (a : Analyzer) (l : list (gset string * Expr)) : Prop :=
  ∀ S e, (S, e) ∈ l → reached a S e.

Lemma all_reached_nil a : all_reached a [].
Proof. intros S e H. by apply not_elem_of_nil in H. Qed.

Lemma all_reached_cons a S e l : reached a S e → all_reached a l → all_reached a ((S, e) :: l).
Proof. intros H Hl S' e' [[= -> ->]|]%elem_of_cons; auto. Qed.

Lemma all_reached_app a l k : all_reached a l → all_reached a k → all_reached a (l ++ k).
Proof. intros Hl Hk S e [|]%elem_of_app; auto. Qed.

Lemma enum_variant_extends a b t v : extends a b → enum_variant t v b = enum_variant t v a.
Proof. intros H. unfold enum_variant. by rewrite (ext_enums _ _ H). Qed.

Create HintDb reached.
#[export] Hint Resolve all_reached_nil all_reached_cons all_reached_app : reached.
#[export] Hint Opaque all_reached : reached.

(** ** Inference *)

Section inference_steps.
Context (file : string).
Abbreviation inf := (infer_expr file).

Definition infers (e : Expr) : Prop :=
  ∀ S scope expected a t b, inf e scope expected a = (t, b) → dom scope ⊆ S →
    step a b (λ c, reached c S e).

Lemma infer_items_step expected scope S items :
  Forall infers items → dom scope ⊆ S →
  ∀ t a t' b, infer_items file inf expected scope items t a = (t', b) →
    step a b (λ c, all_reached c (map (pair S) items)).
Proof.
  intros Hf HS. induction Hf as [|e items He _ IH]; intros t a t' b; cbn.
  { intros [= <- <-]. apply step_refl. eauto with reached. }
  destruct (inf e scope expected a) as [actual a1] eqn:E. intros H.
  specialize (He S _ _ _ _ _ E HS).
  assert (step a1 b (λ c, all_reached c (map (pair S) items))) as Hrest.
  { destruct t; try exact (IH _ _ _ _ H);
      (eapply step_weaken; [eapply step_trans; [apply require_compatible_step|exact (IH _ _ _ _ H)]|]); naive_solver. }
  eapply step_weaken; [exact (step_trans _ _ _ _ _ He Hrest)|]. intros c _ [? ?]. cbn in *. auto with reached.
Qed.

Lemma infer_arguments_step context scope S arguments :
  Forall (λ x, infers (argument_value x)) arguments → dom scope ⊆ S →
  ∀ types a, step a (infer_arguments file inf context scope arguments types a)
    (λ c, length types = length arguments → all_reached c (map (pair S) (map argument_value arguments))).
Proof.
  intros Hf HS. induction Hf as [|[n e sp] arguments He _ IH]; intros [|ty types] a; cbn;
    try (apply step_refl; cbn; eauto with reached; done).
  destruct (inf e scope (Some ty) a) as [actual a1] eqn:E.
  specialize (He S _ _ _ _ _ E HS).
  eapply step_weaken; [eapply step_trans; [exact He|eapply step_trans; [apply require_compatible_step|apply IH]]|].
  intros c _ (? & _ & ?) Hlen. cbn in *. auto with reached.
Qed.

Lemma infer_all_step scope S arguments :
  Forall (λ x, infers (argument_value x)) arguments → dom scope ⊆ S →
  ∀ a, step a (infer_all inf scope arguments a) (λ c, all_reached c (map (pair S) (map argument_value arguments))).
Proof.
  intros Hf HS. induction Hf as [|[n e sp] arguments He _ IH]; intros a; cbn.
  { apply step_refl. eauto with reached. }
  destruct (inf e scope None a) as [actual a1] eqn:E.
  specialize (He S _ _ _ _ _ E HS).
  eapply step_weaken; [eapply step_trans; [exact He|apply IH]|]. intros c _ [? ?]. cbn in *. auto with reached.
Qed.

Lemma infer_first_step scope arguments a t b :
  Forall (λ x, infers (argument_value x)) arguments →
  infer_first inf arguments scope a = (t, b) → step a b (λ _, True).
Proof.
  intros [|[n e sp] l He _]; cbn.
  - intros [= <- <-]. by apply step_refl.
  - intros E. by eapply step_weaken; [exact (He (dom scope) _ _ _ _ _ E (reflexivity _))|].
Qed.

(** The three kinds of constructors report or have the arity of their fields. *)
Definition constructs (type_name variant_name : string) (a : Analyzer)
    (r : option (list ResolvedType * ResolvedType) * Analyzer) : Prop :=
  match r with
  | (Some (fields, _), b) => step a b (λ c, constructor_arity c type_name variant_name = Some (length fields))
  | (None, b) => step a b (λ _, False)
  end.

Lemma option_constructor_step v arguments span scope expected a :
  Forall (λ x, infers (argument_value x)) arguments →
  constructs "Option" v a (option_constructor file inf v arguments span scope expected a).
Proof.
  intros Hf. unfold option_constructor.
  set (r := match expected with Some (RtOption item) => (item, a) | _ => infer_first inf arguments scope a end).
  assert (step a r.2 (λ _, True)) as Hr.
  { destruct (infer_first inf arguments scope a) as [t b] eqn:E. apply infer_first_step in E; [|done].
    subst r. destruct expected as [[]|]; try exact E. by apply step_refl. }
  destruct r as [item b]. cbn in Hr. unfold constructs, constructor_arity. cbn.
  destruct (bool_decide (v = "some")); [by eapply step_weaken|].
  destruct (bool_decide (v = "none")); [by eapply step_weaken|].
  eapply step_weaken; [eapply step_trans; [exact Hr|apply (unknown_variant_step _ _ _ _ _ (λ _, False))]|]. by intros c _ [].
Qed.

Lemma result_constructor_step v arguments span scope expected a :
  Forall (λ x, infers (argument_value x)) arguments →
  constructs "Result" v a (result_constructor file inf v arguments span scope expected a).
Proof.
  intros Hf. unfold result_constructor.
  match goal with |- context [let '(types, a) := ?x in _] => set (r := x) end.
  assert (step a r.2 (λ _, True)) as Hr.
  { destruct (infer_first inf arguments scope a) as [t b] eqn:E. apply infer_first_step in E; [|done].
    subst r. destruct expected as [[]|]; repeat case_bool_decide; try exact E; by apply step_refl. }
  destruct r as [[[ok error]|] b]; cbn in Hr; unfold constructs, constructor_arity; cbn;
    [destruct (bool_decide (v = "ok")); [by eapply step_weaken|]; destruct (bool_decide (v = "err"));
       [by eapply step_weaken|]|];
    (eapply step_weaken; [eapply step_trans; [exact Hr|apply (unknown_variant_step _ _ _ _ _ (λ _, False))]|]); by intros c _ [].
Qed.

Lemma enum_constructor_step t v span a :
  t ≠ "Option" → t ≠ "Result" → constructs t v a (enum_constructor file t v span a).
Proof.
  intros H1 H2. unfold enum_constructor, constructs, constructor_arity.
  rewrite !bool_decide_false by done.
  destruct (an_enums a !! t) as [variants|] eqn:E; [|apply push_message_step].
  destruct (find_variant variants v) as [fields|] eqn:Ev; [|apply push_message_step].
  apply step_refl. intros c Hc. rewrite (enum_variant_extends _ _ _ _ Hc). unfold enum_variant. by rewrite E; cbn; rewrite Ev.
Qed.

Lemma infer_constructor_call_step segments arguments span scope S expected a t b :
  Forall (λ x, infers (argument_value x)) arguments → dom scope ⊆ S →
  infer_constructor_call file inf segments arguments span scope expected a = (t, b) →
  step a b (λ c, (∃ ty v, segments = [ty; v] ∧ constructor_arity c ty v = Some (length arguments)) ∧
                 all_reached c (map (pair S) (map argument_value arguments))).
Proof.
  intros Hf HS. unfold infer_constructor_call.
  destruct (split_constructor_path segments) as [[ty v]|] eqn:Ep; [|intros [= <- <-]; apply push_message_step].
  assert (segments = [ty; v]) as ->.
  { destruct segments as [|? [|? [|]]]; try done. by injection Ep as -> ->. }
  match goal with |- context [let '(constructor, a) := ?x in _] => assert (constructs ty v a x) as Hr; [|set (r := x) in *] end.
  { repeat case_bool_decide; subst;
      [by apply option_constructor_step|by apply result_constructor_step|by apply enum_constructor_step]. }
  destruct r as [[[fields result]|] a1]; cbn in Hr.
  2: { intros [= <- <-]. eapply step_weaken; [exact Hr|done]. }
  intros [= <- <-].
  eapply step_weaken; [eapply step_trans; [exact Hr|eapply step_trans; [apply if_step|by apply infer_arguments_step]]|].
  intros c _ (Ha & Hlen & Hall). apply bool_decide_eq_true in Hlen. split; [|by apply Hall].
  exists ty, v. split; [done|]. by rewrite Ha, Hlen.
Qed.

(** Proofs about a method walk along its steps. *)
Lemma infer_expr_unfold e scope expected a :
  inf e scope expected a =
    (let '(t, b) := infer_expr_kind file inf e scope expected a in
     (t, set_expression_types (<[ex_span e := t]> (an_expression_types b)) b)).
Proof. by destruct e. Qed.

Lemma function_name_type name span scope S a t b s :
  inf (Ex (ELiteral (LitIdentifier name)) span) scope None a = (t, b) → dom scope ⊆ S →
  name ∉ S → name ≠ "none" → an_functions a !! name = Some s → t = RtFunction (sig_parameters s) (sig_result s).
Proof.
  rewrite infer_expr_unfold. cbn. intros H HS Hn Hnone Hs.
  rewrite bool_decide_false in H by done.
  assert (scope !! name = None) as Hscope by (apply not_elem_of_dom; set_solver).
  rewrite Hscope, Hs in H. by injection H.
Qed.

Lemma infer_function_call_step callee arguments span scope S a t b :
  is_path callee = false → infers callee → Forall (λ x, infers (argument_value x)) arguments → dom scope ⊆ S →
  infer_function_call file inf callee arguments span scope a = (t, b) →
  step a b (λ c, reached c S callee ∧ all_reached c (map (pair S) (map argument_value arguments)) ∧
                 callee_ok c S callee arguments).
Proof.
  intros Hp Hcallee Hf HS. unfold infer_function_call.
  destruct (inf callee scope None a) as [ct a1] eqn:E.
  pose proof (Hcallee S _ _ _ _ _ E HS) as H1.
  assert (∀ c, extends a c → reached c S callee →
    (∀ ps r, ct = RtFunction ps r → length ps = length arguments) → callee_ok c S callee arguments) as Hok.
  { intros c Hc [_ Hl _] Hlen. unfold callee_ok, local_ok, is_path in *. destruct callee as [kind sp]. cbn in *.
    destruct kind as [| |[]| | | | | | | |]; try done.
    destruct Hl as [|[|[s' Hs']]]; [by left|by right; left|].
    destruct (decide (s ∈ S)); [by left|]. destruct (decide (s = "none")); [by right; left|].
    right; right. exists s'. split; [done|]. eapply Hlen, function_name_type; [exact E|exact HS|done|done|].
    by rewrite <-(ext_functions _ _ Hc). }
  assert (∀ a2, (∀ ps r, ct ≠ RtFunction ps r) → extends a1 a2 → b = infer_all inf scope arguments a2 →
     step a b (λ c, reached c S callee ∧ all_reached c (map (pair S) (map argument_value arguments)) ∧
                    callee_ok c S callee arguments)) as Hother.
  { intros a2 Hct Ha2 ->. pose proof (infer_all_step scope S arguments Hf HS a2) as H2.
    assert (step a1 a2 (λ _, True)) as H12 by by split.
    pose proof (step_trans _ _ _ _ _ H1 (step_trans _ _ _ _ _ H12 H2)) as H. eapply step_weaken; [exact H|].
    intros c Hc (R & _ & A). split; [done|]. split; [done|]. apply Hok; [|done|intros ps r Heq; by destruct (Hct _ _ Heq)].
    etrans; [exact (step_extends _ _ _ H)|done]. }
  destruct ct; intros [= <- <-]; try (eapply Hother; [done| |reflexivity]; apply push_message_extends || done).
  assert (extends a (infer_arguments file inf "call argument" scope arguments parameters
    (if bool_decide (length parameters = length arguments) then a1
     else push_error file "SYL2101" ("function expects " +:+ pretty (length parameters) +:+
            " argument(s), found " +:+ pretty (length arguments)) span a1))) as Hext.
  { etrans; [exact (step_extends _ _ _ H1)|]. etrans; [eapply step_extends, if_step|].
    eapply step_extends. by apply infer_arguments_step with (S := S). }
  eapply step_weaken;
    [eapply step_trans; [exact H1|eapply step_trans; [apply if_step|by apply infer_arguments_step with (S := S)]]|].
  intros c Hc (R & Hlen%bool_decide_eq_true & A).
  split; [done|]. split; [by apply A|]. apply Hok; [by etrans|done|by intros ps r [= <- <-]].
Qed.

Lemma infer_call_step callee arguments span scope S expected a t b :
  infers callee → Forall (λ x, infers (argument_value x)) arguments → dom scope ⊆ S →
  infer_call file inf callee arguments span scope expected a = (t, b) →
  step a b (λ c, all_reached c ((if is_path callee then [] else [(S, callee)]) ++
                                map (pair S) (map argument_value arguments)) ∧
                 callee_ok c S callee arguments).
Proof.
  intros Hc Hf HS H. destruct (is_path callee) eqn:Hp.
  - unfold infer_call, is_path, callee_ok in *. destruct (ex_kind callee); try discriminate Hp.
    eapply step_weaken; [exact (infer_constructor_call_step _ _ _ _ S _ _ _ _ Hf HS H)|].
    intros c _ [? ?]. by split.
  - assert (infer_function_call file inf callee arguments span scope a = (t, b)) as H'.
    { unfold infer_call, is_path in *. by destruct (ex_kind callee). }
    eapply step_weaken; [exact (infer_function_call_step _ _ _ _ S _ _ _ Hp Hc Hf HS H')|].
    intros c _ (? & ? & ?). cbn in *. auto with reached.
Qed.

Lemma check_guard_step guard scope S a :
  Forall infers (match guard with Some g => [g] | None => [] end) → dom scope ⊆ S →
  step a (check_guard file inf guard scope a)
    (λ c, all_reached c (map (pair S) (match guard with Some g => [g] | None => [] end))).
Proof.
  intros Hg HS. destruct guard as [g|]; cbn; [|apply step_refl; eauto with reached].
  apply Forall_inv in Hg. destruct (inf g scope (Some bool_type) a) as [t a1] eqn:E.
  eapply step_weaken; [eapply step_trans; [exact (Hg S _ _ _ _ _ E HS)|apply require_compatible_step]|].
  intros c _ [? _]. cbn in *. auto with reached.
Qed.

Lemma check_arms_step value_type scope S expected arms :
  Forall (λ arm, Forall infers (arm_children arm)) arms → dom scope ⊆ S →
  ∀ result a t b, check_arms file inf value_type scope expected arms result a = (t, b) →
    step a b (λ c, all_reached c (scoped_arms S arms)).
Proof.
  intros Hf HS. induction Hf as [|[p guard body sp] arms Harm _ IH]; intros result a t b; cbn.
  { intros [= <- <-]. apply step_refl. eauto with reached. }
  destruct (check_pattern file p value_type scope a) as [scope1 a1] eqn:E1.
  apply check_pattern_checks in E1 as [X1 D1].
  assert (dom scope1 ⊆ pattern_names p ∪ S) as HS1 by set_solver.
  unfold arm_children in Harm. cbn in Harm. apply Forall_app in Harm as [Hguard Hbody%Forall_inv].
  pose proof (check_guard_step guard scope1 _ a1 Hguard HS1) as H2.
  destruct (inf body scope1 expected (check_guard file inf guard scope1 a1)) as [arm_type a3] eqn:E3.
  pose proof (Hbody _ _ _ _ _ _ E3 HS1) as H3. intros H.
  assert (step a3 b (λ c, all_reached c (scoped_arms S arms))) as Hrest.
  { destruct result; try exact (IH _ _ _ _ H);
      (eapply step_weaken; [eapply step_trans; [apply require_compatible_step|exact (IH _ _ _ _ H)]|]); naive_solver. }
  assert (step a a1 (λ _, True)) as H1 by by split.
  eapply step_weaken;
    [exact (step_trans _ _ _ _ _ H1 (step_trans _ _ _ _ _ H2 (step_trans _ _ _ _ _ H3 Hrest)))|].
  intros c _ (_ & ? & ? & ?). cbn in *. unfold arm_children. cbn. rewrite map_app. cbn. auto with reached.
Qed.

Lemma check_exhaustive_extends span ty arms a : extends a (check_exhaustive file span ty arms a).
Proof.
  unfold check_exhaustive. destruct (existsb catch_all arms); [done|].
  destruct (required_variants ty a); [|done]. destruct (missing_variants l arms); [done|apply push_message_extends].
Qed.

Lemma check_statements_step expected sts :
  Forall (λ s, Forall infers (statement_children s)) sts →
  ∀ S scope result a t b, dom scope ⊆ S →
    check_statements file inf expected sts scope result a = (t, b) →
    step a b (λ c, all_reached c (scoped_statements S sts)).
Proof.
  induction 1 as [|[kind sp] sts Hs _ IH]; intros S scope result a t b HS; cbn.
  { intros [= <- <-]. apply step_refl. eauto with reached. }
  destruct kind as [name ty value|value|value]; cbn in *.
  - apply Forall_inv in Hs.
    destruct (option_state (resolve_type file) ty a) as [declared a1] eqn:E1.
    assert (step a a1 (λ _, True)) as H1.
    { split; [|done]. destruct ty as [ty|]; cbn in E1; [|by injection E1 as <- <-].
      pose proof (resolve_type_extends file ty a). destruct (resolve_type file ty a). by injection E1 as <- <-. }
    destruct (inf value scope declared a1) as [actual a2] eqn:E2. intros H.
    pose proof (Hs S _ _ _ _ _ E2 HS) as H2.
    assert (step a2 b (λ c, all_reached c (scoped_statements ({[name]} ∪ S) sts))) as H3.
    { eapply IH; [|exact H]. rewrite dom_insert_L. set_solver. }
    eapply step_weaken; [exact (step_trans _ _ _ _ _ H1 (step_trans _ _ _ _ _ H2 H3))|].
    intros c _ (_ & ? & ?). cbn in *. auto with reached.
  - destruct value as [value|]; cbn in *.
    + apply Forall_inv in Hs. destruct (inf value scope (Some expected) a) as [actual a1] eqn:E1. intros H.
      pose proof (Hs S _ _ _ _ _ E1 HS) as H1.
      eapply step_weaken; [eapply step_trans; [exact H1|eapply step_trans;
        [apply require_compatible_step|by eapply IH]]|].
      intros c _ (? & _ & ?). cbn in *. auto with reached.
    + intros H. eapply step_weaken; [eapply step_trans; [apply require_compatible_step|by eapply IH]|]. naive_solver.
  - apply Forall_inv in Hs. set (last := match sts with [] => true | _ => false end).
    destruct (inf value scope (if last then Some expected else None) a) as [actual a1] eqn:E1. intros H.
    pose proof (Hs S _ _ _ _ _ E1 HS) as H1.
    assert (step a1 b (λ c, all_reached c (scoped_statements S sts))) as Hrest.
    { destruct last; [|by eapply IH].
      eapply step_weaken; [eapply step_trans; [apply require_compatible_step|by eapply IH]|]. naive_solver. }
    eapply step_weaken; [exact (step_trans _ _ _ _ _ H1 Hrest)|]. intros c _ [? ?]. cbn in *. auto with reached.
Qed.

Lemma check_block_step block scope S expected a t b :
  Forall (λ s, Forall infers (statement_children s)) (body_statements block) → dom scope ⊆ S →
  check_block file inf block scope expected a = (t, b) →
  step a b (λ c, all_reached c (scoped_statements S (body_statements block))).
Proof.
  destruct block as [sts span]. cbn. intros Hf HS.
  destruct (check_statements file inf expected sts scope RtUnit a) as [r a1] eqn:E. intros [= <- <-].
  pose proof (check_statements_step _ _ Hf _ _ _ _ _ _ HS E) as H1.
  destruct sts; [|done].
  eapply step_weaken; [eapply step_trans; [exact H1|apply require_compatible_step]|]. naive_solver.
Qed.

Lemma infer_literal_step l span scope S expected a t b :
  dom scope ⊆ S → infer_literal file l span scope expected a = (t, b) →
  step a b (λ c, local_ok c S (Ex (ELiteral l) span)).
Proof.
  intros HS. unfold local_ok. cbn. destruct l as [|name| | |]; cbn; try (intros [= <- <-]; by apply step_refl).
  case_bool_decide as Hn.
  { intros H. assert (extends a b) as Hext.
    { destruct expected as [[]|]; injection H as <- <-; apply push_message_extends || done. }
    split; [done|]. auto. }
  destruct (scope !! name) as [ty|] eqn:Es.
  { intros [= <- <-]. apply step_refl. intros c _. left. apply elem_of_dom_2 in Es. set_solver. }
  destruct (an_functions a !! name) as [s|] eqn:Ef; intros [= <- <-]; [|apply push_message_step].
  apply step_refl. intros c Hc. right; right. rewrite (ext_functions _ _ Hc). by exists s.
Qed.

Lemma infer_path_step segments span S a t b :
  infer_path file segments span a = (t, b) → step a b (λ c, local_ok c S (Ex (EPath segments) span)).
Proof.
  unfold infer_path, local_ok. cbn.
  destruct (split_constructor_path segments) as [[en v]|] eqn:Ep; cbn; [|intros [= <- <-]; apply push_message_step].
  assert (segments = [en; v]) as ->.
  { destruct segments as [|? [|? [|]]]; try discriminate Ep. by injection Ep as -> ->. }
  destruct (enum_variant en v a) as [[|f fields]|] eqn:Ev; cbn; intros [= <- <-]; try apply push_message_step.
  apply step_refl. intros c Hc. exists en, v. by rewrite (enum_variant_extends _ _ _ _ Hc).
Qed.

Lemma infer_kind_step e scope S expected a t b :
  Forall infers (children e) → dom scope ⊆ S →
  infer_expr_kind file inf e scope expected a = (t, b) →
  step a b (λ c, local_ok c S e ∧ all_reached c (scoped_children S e)).
Proof.
  destruct e as [kind span]. intros Hf HS.
  destruct kind as [m o|o|l|p|items|callee args|o n|u o|op lhs rhs|value arms|block]; cbn in *.
  - apply Forall_inv in Hf. unfold infer_borrow.
    destruct (inf o scope None _) as [t1 b1] eqn:E. intros [= <- <-].
    eapply step_weaken; [eapply step_trans; [apply if_step|exact (Hf S _ _ _ _ _ E HS)]|].
    intros c _ [? ?]. cbn in *. auto with reached.
  - apply Forall_inv in Hf. unfold infer_await. intros E.
    pose proof (if_step file (an_async a) "SYL2501" "'await' is only valid inside an async function" span a) as H1.
    eapply step_weaken; [exact (step_trans _ _ _ _ _ H1 (Hf S _ _ _ _ _ E HS))|].
    intros c Hc [Ha ?]. cbn in *. split; [|auto with reached]. unfold local_ok. cbn.
    rewrite (ext_async _ _ Hc), (ext_async _ _ (step_extends _ _ _ (Hf S _ _ _ _ _ E HS))),
      (ext_async _ _ (step_extends _ _ _ H1)). exact Ha.
  - intros E. eapply step_weaken; [exact (infer_literal_step _ _ _ _ _ _ _ _ HS E)|]. intros. split; eauto with reached.
  - intros E. eapply step_weaken; [exact (infer_path_step _ _ S _ _ _ E)|]. intros. split; eauto with reached.
  - unfold infer_array. destruct (infer_items _ _ _ _ _ _ _) as [t1 b1] eqn:E. intros [= <- <-].
    eapply step_weaken; [exact (infer_items_step _ _ S _ Hf HS _ _ _ _ E)|]. by intros.
  - apply Forall_cons in Hf as [Hc Hargs]. rewrite Forall_map in Hargs. intros E.
    eapply step_weaken; [exact (infer_call_step _ _ _ _ S _ _ _ _ Hc Hargs HS E)|]. by intros c _ [? ?].
  - apply Forall_inv in Hf. unfold infer_field. destruct (inf o scope None a) as [t1 b1] eqn:E. intros H.
    pose proof (Hf S _ _ _ _ _ E HS) as H1.
    assert (step b1 b (λ _, True)) as H2.
    { split; [|done]. destruct t1; try (injection H as <- <-; done).
      destruct (_ ≫= _); injection H as <- <-; [done|apply push_message_extends]. }
    eapply step_weaken; [exact (step_trans _ _ _ _ _ H1 H2)|]. intros c _ [? _]. cbn in *. split; auto with reached.
  - apply Forall_inv in Hf. unfold infer_unary. destruct (inf o scope None a) as [t1 b1] eqn:E. intros H.
    pose proof (Hf S _ _ _ _ _ E HS) as H1.
    assert (step b1 b (λ _, True)) as H2.
    { split; [|done]. destruct u; injection H as <- <-; [done|eapply step_extends, require_compatible_step]. }
    eapply step_weaken; [exact (step_trans _ _ _ _ _ H1 H2)|]. intros c _ [? _]. cbn in *. split; auto with reached.
  - apply Forall_cons in Hf as [Hl Hr%Forall_inv]. unfold infer_binary.
    destruct (inf lhs scope None a) as [l a1] eqn:E1. destruct (inf rhs scope (Some l) a1) as [r a2] eqn:E2.
    pose proof (Hl S _ _ _ _ _ E1 HS) as H1. pose proof (Hr S _ _ _ _ _ E2 HS) as H2. intros H.
    assert (step a2 b (λ _, True)) as H3.
    { split; [|done]. destruct (comparison op); [|destruct (logical op)]; injection H as <- <-;
        try (eapply step_extends, require_compatible_step).
      etrans; eapply step_extends, require_compatible_step. }
    eapply step_weaken; [exact (step_trans _ _ _ _ _ H1 (step_trans _ _ _ _ _ H2 H3))|].
    intros c _ (? & ? & _). cbn in *. split; auto with reached.
  - apply Forall_cons in Hf as [Hv Harms%Forall_flat_map_inv]. unfold infer_match, check_match.
    destruct (inf value scope None a) as [vt a1] eqn:E1.
    destruct (check_arms _ _ _ _ _ _ _ _) as [r a2] eqn:E2. intros [= <- <-].
    assert (step a2 (check_exhaustive file span vt arms a2) (λ _, True)) as H3.
    { split; [apply check_exhaustive_extends|done]. }
    eapply step_weaken; [exact (step_trans _ _ _ _ _ (Hv S _ _ _ _ _ E1 HS)
      (step_trans _ _ _ _ _ (check_arms_step _ _ S _ _ Harms HS _ _ _ _ E2) H3))|].
    intros c _ (? & ? & _). cbn in *. split; auto with reached.
  - apply Forall_flat_map_inv in Hf. intros E.
    eapply step_weaken; [exact (check_block_step _ _ S _ _ _ _ Hf HS E)|]. by intros.
Qed.

Lemma infer_step e : infers e.
Proof.
  induction e as [e IH] using expr_children_ind. intros S scope expected a t b.
  rewrite infer_expr_unfold. destruct (infer_expr_kind file inf e scope expected a) as [t1 b1] eqn:E.
  intros [= <- <-] HS. pose proof (infer_kind_step _ _ S _ _ _ _ IH HS E) as H1.
  set (b2 := set_expression_types _ b1).
  assert (step b1 b2 (λ c, ex_span e ∈ dom (an_expression_types c))) as H2.
  { split.
    - subst b2. split; try done. cbn. rewrite dom_insert_L. set_solver.
    - intros _ c Hc. apply (ext_types _ _ Hc). subst b2. cbn. rewrite dom_insert_L. set_solver. }
  eapply step_weaken; [exact (step_trans _ _ _ _ _ H1 H2)|].
  intros c _ ((Hl & Hall) & Hsp). by constructor.
Qed.
End inference_steps.
