(* ===== verification/SemanticDeclarations.v ===== *)
(** * Semantic analysis: the declaration passes

    What the symbol table holds after the first pass, and what the tables of
    functions and states hold after the second when nothing was reported. *)

From stdpp Require Import base gmap strings numbers pretty list.
From S2P Require Import Prelude Text Ir Hir Diagnostics Ast Semantic SemanticBodies SemanticTheorems.
Open Scope string_scope.
Open Scope list_scope.

#[local] Opaque builtin_types.

(** ** Declared names *)

(** A declaration under the name it is given: its own, or the alias of an import. *)
Abbreviation named_item := (string * Item)%type.

Definition named_items (ast : Ast) : list named_item := map (λ item, (item_name item, item)) (ast_items ast).

Definition type_symbol (e : named_item) : option TypeSymbol :=
  match e.2 with
  | ItemStruct n => Some {| ts_name := e.1; ts_kind := SymStruct; ts_span := sn_span n |}
  | ItemEnum n => Some {| ts_name := e.1; ts_kind := SymEnum; ts_span := en_span n |}
  | ItemState n => Some {| ts_name := e.1; ts_kind := SymState; ts_span := stn_span n |}
  | _ => None
  end.

Definition value_symbol (e : named_item) : option ValueSymbol :=
  match e.2 with
  | ItemFunction n => Some {| vs_name := e.1; vs_kind := SymFunction; vs_span := fnn_span n |}
  | ItemAgent n => Some {| vs_name := e.1; vs_kind := SymAgent; vs_span := ag_span n |}
  | ItemPipeline n => Some {| vs_name := e.1; vs_kind := SymPipeline; vs_span := pn_span n |}
  | ItemSafetyBound n => Some {| vs_name := e.1; vs_kind := SymSafetyBound; vs_span := sb_span n |}
  | _ => None
  end.

(** The symbol of the first declaration of a name. *)
Definition first_type (l : list named_item) (name : string) : option TypeSymbol :=
  List.find (λ s, bool_decide (ts_name s = name)) (omap type_symbol l).
Definition first_value (l : list named_item) (name : string) : option ValueSymbol :=
  List.find (λ s, bool_decide (vs_name s = name)) (omap value_symbol l).

Section declarations.
Context (file : string).

Definition declare (a : Analyzer) (e : named_item) : Analyzer :=
  match type_symbol e, value_symbol e with
  | Some s, _ => insert_type file (ts_name s) (ts_kind s) (ts_span s) a
  | None, Some s => insert_value file (vs_name s) (vs_kind s) (vs_span s) a
  | None, None => a
  end.

Lemma collect_declare ast a : collect_declarations file ast a = foldl declare a (named_items ast).
Proof.
  unfold collect_declarations, named_items. revert a. induction (ast_items ast) as [|item l IH]; intros a; [done|].
  cbn. rewrite IH. by destruct item.
Qed.

Lemma symbol_cases e : (∃ s, type_symbol e = Some s ∧ value_symbol e = None) ∨
                       (∃ s, type_symbol e = None ∧ value_symbol e = Some s).
Proof. destruct e as [name []]; cbn; naive_solver. Qed.

Lemma find_app {A} (f : A → bool) l k :
  List.find f (l ++ k) = match List.find f l with Some x => Some x | None => List.find f k end.
Proof. induction l as [|x l IH]; cbn; [done|]. by destruct (f x). Qed.

Definition symbols_exact (l : list named_item) (a : Analyzer) : Prop :=
  (∀ name, sym_types (an_symbols a) !! name =
     match builtin_types !! name with Some s => Some s | None => first_type l name end) ∧
  (∀ name, sym_values (an_symbols a) !! name = first_value l name).

Lemma symbols_exact_new : symbols_exact [] analyzer_new.
Proof. split; intros name; cbn; [|done]. by destruct (builtin_types !! name). Qed.

(** An insertion adds the symbol where the name was free. *)
Lemma insert_type_lookup n kind span a name :
  sym_types (an_symbols (insert_type file n kind span a)) !! name =
    match sym_types (an_symbols a) !! name with
    | Some s => Some s
    | None => if bool_decide (n = name) then Some {| ts_name := n; ts_kind := kind; ts_span := span |} else None
    end.
Proof.
  unfold insert_type. destruct (sym_types (an_symbols a) !! n) eqn:E; cbn.
  - case_bool_decide as Hn; [subst; by rewrite E|by destruct (_ !! name)].
  - case_bool_decide as Hn; [subst; by rewrite lookup_insert_eq, E|].
    rewrite lookup_insert_ne by done. by destruct (_ !! name).
Qed.

Lemma insert_value_lookup n kind span a name :
  sym_values (an_symbols (insert_value file n kind span a)) !! name =
    match sym_values (an_symbols a) !! name with
    | Some s => Some s
    | None => if bool_decide (n = name) then Some {| vs_name := n; vs_kind := kind; vs_span := span |} else None
    end.
Proof.
  unfold insert_value. destruct (sym_values (an_symbols a) !! n) eqn:E; cbn.
  - case_bool_decide as Hn; [subst; by rewrite E|by destruct (_ !! name)].
  - case_bool_decide as Hn; [subst; by rewrite lookup_insert_eq, E|].
    rewrite lookup_insert_ne by done. by destruct (_ !! name).
Qed.

Lemma insert_type_values n kind span a :
  sym_values (an_symbols (insert_type file n kind span a)) = sym_values (an_symbols a).
Proof. unfold insert_type. by destruct (_ !! n). Qed.

Lemma insert_value_types n kind span a :
  sym_types (an_symbols (insert_value file n kind span a)) = sym_types (an_symbols a).
Proof. unfold insert_value. by destruct (_ !! n). Qed.

Lemma first_type_snoc l e name :
  first_type (l ++ [e]) name =
    match first_type l name with
    | Some s => Some s
    | None => type_symbol e ≫= λ s, if bool_decide (ts_name s = name) then Some s else None
    end.
Proof. unfold first_type. rewrite omap_app, find_app. cbn. by destruct (type_symbol e). Qed.

Lemma first_value_snoc l e name :
  first_value (l ++ [e]) name =
    match first_value l name with
    | Some s => Some s
    | None => value_symbol e ≫= λ s, if bool_decide (vs_name s = name) then Some s else None
    end.
Proof. unfold first_value. rewrite omap_app, find_app. cbn. by destruct (value_symbol e). Qed.

Lemma declare_exact l a e : symbols_exact l a → symbols_exact (l ++ [e]) (declare a e).
Proof.
  intros [Ht Hv]. unfold symbols_exact, declare.
  destruct (symbol_cases e) as [(s & E1 & E2)|(s & E1 & E2)]; split; intros name;
    rewrite ?first_type_snoc, ?first_value_snoc, ?E1, ?E2; cbn.
  - rewrite insert_type_lookup, Ht. destruct s; cbn. by destruct (builtin_types !! name), (first_type l name).
  - rewrite insert_type_values, Hv. by destruct (first_value l name).
  - rewrite insert_value_types, Ht. by destruct (builtin_types !! name), (first_type l name).
  - rewrite insert_value_lookup, Hv. destruct s; cbn. by destruct (first_value l name).
Qed.

Lemma declare_all_exact l : symbols_exact l (foldl declare analyzer_new l).
Proof.
  induction l as [|e l IH] using rev_ind; [apply symbols_exact_new|].
  rewrite foldl_app. cbn. by apply declare_exact.
Qed.

(** Every declaration adds one symbol or one diagnostic. *)
Definition symbol_count (a : Analyzer) : nat :=
  size (sym_types (an_symbols a)) + size (sym_values (an_symbols a)) + length (an_diagnostics a).

Lemma declare_count a e : symbol_count (declare a e) = S (symbol_count a).
Proof.
  unfold declare, symbol_count.
  destruct (symbol_cases e) as [(s & E1 & E2)|(s & E1 & E2)]; rewrite E1, ?E2; unfold insert_type, insert_value.
  - destruct (sym_types (an_symbols a) !! ts_name s) eqn:E; cbn; [rewrite length_app; cbn; lia|].
    rewrite map_size_insert_None by done. lia.
  - destruct (sym_values (an_symbols a) !! vs_name s) eqn:E; cbn; [rewrite length_app; cbn; lia|].
    rewrite map_size_insert_None by done. lia.
Qed.

Lemma declare_all_count l a : symbol_count (foldl declare a l) = (length l + symbol_count a)%nat.
Proof. revert a. induction l as [|e l IH]; intros a; cbn; [done|]. rewrite IH, declare_count. lia. Qed.

(** ** The order of the declaration passes *)

Record grows (a b : Analyzer) : Prop := {
  gr_diagnostics : an_diagnostics a `prefix_of` an_diagnostics b;
  gr_types : sym_types (an_symbols a) ⊆ sym_types (an_symbols b);
  gr_values : sym_values (an_symbols a) ⊆ sym_values (an_symbols b);
  gr_functions : dom (an_functions a) ⊆ dom (an_functions b);
  gr_states : dom (an_states a) ⊆ dom (an_states b);
  gr_async : an_async b = an_async a
}.

#[local] Instance grows_preorder : PreOrder grows.
Proof. split; [by intros a; split|]. intros a b c [] []. split; try congruence; by etrans. Qed.

Lemma grows_silent a b c : grows a b → grows b c → silent a c → silent a b ∧ silent b c.
Proof. intros H1 H2. apply prefix_silent; [apply (gr_diagnostics _ _ H1)|apply (gr_diagnostics _ _ H2)]. Qed.

Lemma extends_grows a b : extends a b → grows a b.
Proof.
  intros H. split; rewrite ?(ext_symbols _ _ H), ?(ext_functions _ _ H), ?(ext_states _ _ H); try done;
    [apply (ext_diagnostics _ _ H)|apply (ext_async _ _ H)].
Qed.

Lemma declare_grows a e : grows a (declare a e).
Proof.
  unfold declare. destruct (symbol_cases e) as [(s & E1 & E2)|(s & E1 & E2)]; rewrite E1, ?E2.
  - unfold insert_type. destruct (_ !! ts_name s) eqn:E; [apply extends_grows, push_message_extends|].
    split; try done. cbn. by apply insert_subseteq.
  - unfold insert_value. destruct (_ !! vs_name s) eqn:E; [apply extends_grows, push_message_extends|].
    split; try done. cbn. by apply insert_subseteq.
Qed.

Lemma set_structs_grows x a : grows a (set_structs x a). Proof. by split. Qed.
Lemma set_enums_grows x a : grows a (set_enums x a). Proof. by split. Qed.
Lemma set_agents_grows x a : grows a (set_agents x a). Proof. by split. Qed.
Lemma set_functions_grows n x a : grows a (set_functions (<[n := x]> (an_functions a)) a).
Proof. split; try done. cbn. rewrite dom_insert_L. set_solver. Qed.
Lemma set_states_grows n x a : grows a (set_states (<[n := x]> (an_states a)) a).
Proof. split; try done. cbn. rewrite dom_insert_L. set_solver. Qed.

(** Resolving the parts of a declaration only reports. *)
Lemma resolve_types_extends {X} (g : X → TypeNode) l a : extends a (map_state (λ x, resolve_type file (g x)) l a).2.
Proof. apply map_state_extends. apply Forall_true. intros. apply resolve_type_extends. Qed.

Lemma option_state_extends o a : extends a (option_state (resolve_type file) o a).2.
Proof. destruct o as [ty|]; cbn; [|done]. pose proof (resolve_type_extends file ty a). by destruct (resolve_type file ty a). Qed.

Lemma resolve_fields_extends l a : extends a (resolve_fields file l a).2.
Proof.
  unfold resolve_fields.
  pose proof (map_state_extends (λ f a, let '(t, a) := resolve_type file (sf_ty f) a in ((sf_name f, t), a)) l) as H.
  destruct (map_state _ l a) as [k b] eqn:E. cbn. change b with ((k, b).2). rewrite <-E. apply H, Forall_true.
  intros f a'. pose proof (resolve_type_extends file (sf_ty f) a'). by destruct (resolve_type file (sf_ty f) a').
Qed.

Lemma resolve_variants_extends l a : extends a (resolve_variants file l a).2.
Proof.
  unfold resolve_variants. apply map_state_extends, Forall_true. intros v a'.
  pose proof (map_state_extends (resolve_type file) (ev_fields v)
    (Forall_true _ _ (λ ty a, resolve_type_extends file ty a)) a').
  by destruct (map_state (resolve_type file) (ev_fields v) a').
Qed.

Lemma resolve_signature_extends ps r a : extends a (resolve_signature file ps r a).2.
Proof.
  unfold resolve_signature. pose proof (resolve_types_extends pa_ty ps a) as H1.
  destruct (map_state _ ps a) as [l b]. pose proof (option_state_extends r b) as H2.
  destruct (option_state _ r b). by etrans.
Qed.

Lemma resolve_contract_extends l a : extends a (resolve_contract file l a).2.
Proof.
  unfold resolve_contract. pose proof (option_state_extends (first_property l "input" ≫= prop_ty) a) as H1.
  destruct (option_state _ _ a) as [i b].
  pose proof (option_state_extends (first_property l "output" ≫= prop_ty) b) as H2.
  destruct (option_state _ _ b). by etrans.
Qed.

Lemma resolve_property_types_extends keep l a : extends a (resolve_property_types file keep l a).
Proof.
  unfold resolve_property_types. revert a. induction l as [|f l IH]; intros a; cbn; [done|].
  etrans; [|apply IH]. destruct (keep f), (prop_ty f); try done. apply resolve_type_extends.
Qed.

(** What a pass may do to the table of states: an entry has one type per field of
    the state it came from. *)
Definition states_from (e : named_item) (a b : Analyzer) : Prop :=
  ∀ name types, an_states b !! name = Some types →
    an_states a !! name = Some types ∨
    ∃ n, e = (name, ItemState n) ∧ length types = length (stn_fields n).

Lemma states_from_same e a b : an_states b = an_states a → states_from e a b.
Proof. intros H name types. rewrite H. by left. Qed.

Lemma declare_states a e : an_states (declare a e) = an_states a.
Proof.
  unfold declare, insert_type, insert_value. destruct (type_symbol e) as [s|]; [by destruct (_ !! ts_name s)|].
  destruct (value_symbol e) as [s|]; [by destruct (_ !! vs_name s)|done].
Qed.

Lemma resolves_env e a d b c :
  extends d b → grows b c → an_states c = an_states b → an_states d = an_states a →
  grows d c ∧ states_from e a c.
Proof.
  intros H Hg Hc Hd. split; [etrans; [by apply extends_grows|done]|].
  apply states_from_same. by rewrite Hc, (ext_states _ _ H).
Qed.

Lemma install_import_installs alias item a :
  grows (declare a (alias, item)) (install_import file alias item a) ∧
  states_from (alias, item) a (install_import file alias item a).
Proof.
  pose proof (declare_states a (alias, item)) as Hst.
  destruct item as [n|n|n|n|n|n|n]; cbn [install_import]; unfold declare in *; cbn in Hst |- *;
    set (d := insert_type file alias _ _ a) in * || set (d := insert_value file alias _ _ a) in *.
  - pose proof (resolve_fields_extends (sn_fields n) d) as H. destruct (resolve_fields file (sn_fields n) d) as [x b].
    by apply (resolves_env _ _ _ _ _ H); [apply set_structs_grows|..].
  - pose proof (resolve_variants_extends (en_variants n) d) as H.
    destruct (resolve_variants file (en_variants n) d) as [x b].
    by apply (resolves_env _ _ _ _ _ H); [apply set_enums_grows|..].
  - pose proof (resolve_signature_extends (fnn_parameters n) (fnn_return_type n) d) as H.
    destruct (resolve_signature file _ _ d) as [x b].
    by apply (resolves_env _ _ _ _ _ H); [apply set_functions_grows|..].
  - pose proof (resolve_types_extends stf_ty (stn_fields n) d) as H.
    pose proof (map_state_length (λ f, resolve_type file (stf_ty f)) (stn_fields n) d) as Hlen.
    destruct (map_state _ _ d) as [x b]. cbn in *.
    split; [etrans; [by apply extends_grows|apply set_states_grows]|].
    intros name types. cbn. rewrite lookup_insert_Some. intros [[<- <-]|[_ Hl]]; [by right; eauto|].
    left. by rewrite <-Hst, <-(ext_states _ _ H).
  - pose proof (resolve_contract_extends (ag_fields n) d) as H. destruct (resolve_contract file (ag_fields n) d) as [x b].
    by apply (resolves_env _ _ _ _ _ H); [apply set_agents_grows|..].
  - pose proof (resolve_signature_extends (pn_parameters n) (pn_return_type n) d) as H.
    destruct (resolve_signature file _ _ d) as [x b].
    by apply (resolves_env _ _ _ _ _ H); [apply set_functions_grows|..].
  - split; [done|]. by apply states_from_same.
Qed.

Lemma resolve_declaration_resolves item a :
  grows a (resolve_declaration file a item) ∧ states_from (item_name item, item) a (resolve_declaration file a item).
Proof.
  destruct item as [n|n|n|n|n|n|n]; cbn [resolve_declaration item_name].
  - unfold resolve_struct. destruct (_ <$> _) as [[]|]; try (split; [done|by apply states_from_same]).
    pose proof (resolve_fields_extends (sn_fields n) a) as H. destruct (resolve_fields file _ a) as [x b].
    by apply (resolves_env _ _ _ _ _ H); [apply set_structs_grows|..].
  - unfold resolve_enum. destruct (_ <$> _) as [[]|]; try (split; [done|by apply states_from_same]).
    pose proof (resolve_variants_extends (en_variants n) a) as H. destruct (resolve_variants file _ a) as [x b].
    by apply (resolves_env _ _ _ _ _ H); [apply set_enums_grows|..].
  - unfold resolve_function_signature. destruct (_ <$> _) as [[]|]; try (split; [done|by apply states_from_same]).
    destruct (_ !! fnn_name n); [split; [done|by apply states_from_same]|].
    pose proof (resolve_signature_extends (fnn_parameters n) (fnn_return_type n) a) as H.
    destruct (resolve_signature file _ _ a) as [x b].
    by apply (resolves_env _ _ _ _ _ H); [apply set_functions_grows|..].
  - unfold resolve_state_signature. pose proof (resolve_types_extends stf_ty (stn_fields n) a) as H.
    pose proof (map_state_length (λ f, resolve_type file (stf_ty f)) (stn_fields n) a) as Hlen.
    destruct (map_state _ _ a) as [x b]. cbn in *. destruct (an_states b !! stn_name n) eqn:E.
    + split; [by apply extends_grows|]. apply states_from_same. by rewrite (ext_states _ _ H).
    + split; [etrans; [by apply extends_grows|apply set_states_grows]|].
      intros name types. cbn. rewrite lookup_insert_Some. intros [[<- <-]|[_ Hl]]; [by right; eauto|].
      left. by rewrite <-(ext_states _ _ H).
  - unfold resolve_agent_contract. destruct (_ !! ag_name n); [split; [done|by apply states_from_same]|].
    pose proof (resolve_contract_extends (ag_fields n) a) as H. destruct (resolve_contract file (ag_fields n) a) as [x b].
    pose proof (resolve_property_types_extends (λ f, negb (one_of (prop_name f) ["input"; "output"])) (ag_fields n) b) as H'.
    pose proof (transitivity H H') as H2.
    by apply (resolves_env _ _ _ _ _ H2); [apply set_agents_grows|..].
  - unfold resolve_pipeline_signature. pose proof (resolve_signature_extends (pn_parameters n) (pn_return_type n) a) as H.
    destruct (resolve_signature file _ _ a) as [x b]. cbn in *.
    set (c := match an_functions b !! pn_name n with Some _ => b | None => _ end).
    assert (grows b c ∧ an_states c = an_states b) as [Hg Hs].
    { subst c. destruct (_ !! pn_name n); [done|]. split; [apply set_functions_grows|done]. }
    pose proof (resolve_property_types_extends (λ _, true) (pn_fields n) c) as H2.
    split; [etrans; [by apply extends_grows|etrans; [exact Hg|by apply extends_grows]]|].
    apply states_from_same. by rewrite (ext_states _ _ H2), Hs, (ext_states _ _ H).
  - pose proof (resolve_types_extends pa_ty (sb_parameters n) a) as H. destruct (map_state _ _ a) as [x b].
    pose proof (transitivity H (resolve_property_types_extends (λ _, true) (sb_fields n) b)) as H2.
    split; [by apply extends_grows|]. apply states_from_same. by rewrite (ext_states _ _ H2).
Qed.
End declarations.
