(* ===== verification/SemanticAccepted.v ===== *)
(** * Semantic analysis: files without diagnostics

    The declaration passes as a chain of declarations, the tables a silent chain
    leaves, and the steps of the bodies' checks on top of it. *)

From stdpp Require Import base gmap strings numbers list.
From S2P Require Import Prelude Text Ir Hir Diagnostics Ast Ownership Semantic.
From S2P Require Import SemanticBodies SemanticTheorems SemanticDeclarations.
Open Scope string_scope.
Open Scope list_scope.

#[local] Opaque builtin_types.
#[export] Existing Instance grows_preorder.

Section chain.
Context (file : string).

(** [declares a l b]: from [a] the declarations [l] were made in this order, with
    growth in between, up to [b]. *)
Inductive declares (a : Analyzer) : list named_item → Analyzer → Prop :=
| declares_nil b : grows a b → declares a [] b
| declares_snoc l b e c : declares a l b → grows (declare file b e) c → declares a (l ++ [e]) c.

Lemma declares_later a l b c : declares a l b → grows b c → declares a l c.
Proof. destruct 1 as [b H|l b e d Hl H]; intros Hc; [apply declares_nil|eapply declares_snoc; [done|]]; by etrans. Qed.

Lemma declares_grows a l b : declares a l b → grows a b.
Proof.
  induction 1 as [b H|l b e d Hl IH H]; [done|]. etrans; [exact IH|]. etrans; [apply declare_grows|exact H].
Qed.

Lemma declares_fold process a l b k :
  (∀ a e, grows (declare file a e) (process a e)) → declares a l b → declares a (l ++ k) (foldl process b k).
Proof.
  intros Hp. revert l b. induction k as [|e k IH]; intros l b H; [by rewrite app_nil_r|]. cbn.
  rewrite (cons_middle e), app_assoc. apply IH. by eapply declares_snoc.
Qed.

(** In a silent chain no insertion met its name. *)
Lemma declare_type_silent b e s :
  type_symbol e = Some s → silent b (declare file b e) →
  sym_types (an_symbols b) !! ts_name s = None ∧ sym_types (an_symbols (declare file b e)) !! ts_name s = Some s.
Proof.
  intros E. unfold declare. rewrite E. unfold insert_type.
  destruct (_ !! ts_name s) eqn:Es; [by intros ?%push_message_loud|]. intros _. cbn. split; [done|].
  rewrite lookup_insert_eq. by destruct s.
Qed.

Lemma declare_value_silent b e s :
  value_symbol e = Some s → silent b (declare file b e) →
  sym_values (an_symbols (declare file b e)) !! vs_name s = Some s.
Proof.
  intros E. unfold declare. destruct (symbol_cases e) as [(s' & E1 & E2)|(s' & E1 & E2)]; [congruence|].
  rewrite E1, E. unfold insert_value. destruct (_ !! vs_name s) eqn:Es; [by intros ?%push_message_loud|]. intros _. cbn.
  rewrite lookup_insert_eq. by destruct s.
Qed.

Lemma snoc_silent a b e c : grows a b → grows (declare file b e) c → silent a c →
  silent a b ∧ silent b (declare file b e).
Proof.
  intros H1 H2 Hs. destruct (grows_silent a b c) as [Hab Hbc]; [done| |done|].
  { etrans; [apply declare_grows|exact H2]. }
  split; [done|]. by destruct (grows_silent b (declare file b e) c (declare_grows _ _ _) H2 Hbc).
Qed.

Lemma declares_values a l b :
  declares a l b → silent a b →
  ∀ e s, e ∈ l → value_symbol e = Some s → sym_values (an_symbols b) !! vs_name s = Some s.
Proof.
  induction 1 as [b H|l b e c Hl IH H]; intros Hs e' s; [by intros ?%not_elem_of_nil|].
  destruct (snoc_silent _ _ _ _ (declares_grows _ _ _ Hl) H Hs) as [H1 H2].
  intros [He| ->%list_elem_of_singleton]%elem_of_app E; (eapply lookup_weaken; [|apply (gr_values _ _ H)]).
  - eapply lookup_weaken; [by eapply IH|]. apply (gr_values _ _ (declare_grows file b e)).
  - by apply declare_value_silent.
Qed.

Lemma declares_types a l b :
  declares a l b → silent a b →
  NoDup (ts_name <$> omap type_symbol l) ∧
  ∀ s, s ∈ omap type_symbol l → sym_types (an_symbols b) !! ts_name s = Some s.
Proof.
  induction 1 as [b H|l b e c Hl IH H]; intros Hs.
  { split; [constructor|]. by intros s ?%not_elem_of_nil. }
  destruct (snoc_silent _ _ _ _ (declares_grows _ _ _ Hl) H Hs) as [H1 H2].
  destruct (IH H1) as [Hnd Hlook]. rewrite omap_app, fmap_app.
  assert (∀ s, s ∈ omap type_symbol l → sym_types (an_symbols c) !! ts_name s = Some s) as Hold.
  { intros s Hin. eapply lookup_weaken; [by apply Hlook|]. etrans; [|apply (gr_types _ _ H)].
    apply (gr_types _ _ (declare_grows file b e)). }
  cbn. destruct (type_symbol e) as [s|] eqn:E; cbn.
  2: { rewrite !app_nil_r. by split. }
  destruct (declare_type_silent _ _ _ E H2) as [Hnone Hsome]. split.
  - apply NoDup_app. split; [done|]. split; [|apply NoDup_singleton].
    intros x (s' & -> & Hin)%list_elem_of_fmap Hx%list_elem_of_singleton.
    specialize (Hlook _ Hin). rewrite Hx in Hlook. congruence.
  - intros s' [Hin| ->%list_elem_of_singleton]%elem_of_app; [by apply Hold|].
    eapply lookup_weaken; [exact Hsome|apply (gr_types _ _ H)].
Qed.

Lemma type_entry_unique l e e' s s' :
  NoDup (ts_name <$> omap type_symbol l) → e ∈ l → e' ∈ l →
  type_symbol e = Some s → type_symbol e' = Some s' → ts_name s = ts_name s' → e = e'.
Proof.
  induction l as [|x l IH]; [by intros _ ?%not_elem_of_nil|]. intros Hnd He He' E E' Hn. cbn in Hnd.
  assert (∀ y t, y ∈ l → type_symbol y = Some t → ts_name t ∈ ts_name <$> omap type_symbol l) as Hin.
  { intros y t Hy Et. apply list_elem_of_fmap. exists t. split; [done|]. apply list_elem_of_omap. eauto. }
  apply elem_of_cons in He as [->|He], He' as [->|He']; [done|..].
  - rewrite E in Hnd. cbn in Hnd. apply NoDup_cons in Hnd as [Hx _]. destruct Hx. rewrite Hn. eauto.
  - rewrite E' in Hnd. cbn in Hnd. apply NoDup_cons in Hnd as [Hx _]. destruct Hx. rewrite <-Hn. eauto.
  - apply IH; try done. destruct (type_symbol x); [by apply NoDup_cons in Hnd as [_ ?]|done].
Qed.

(** ** The tables after the declaration passes *)

Section tables.
Context (ast : Ast) (imports : list named_item).

Definition declared_entries : list named_item := named_items ast ++ imports.

Definition imported : Analyzer :=
  foldl (λ a '(alias, item), install_import file alias item a) (collect_declarations file ast analyzer_new) imports.

Lemma imported_declares : declares analyzer_new declared_entries imported.
Proof.
  unfold imported. rewrite collect_declare.
  assert (∀ l a, foldl (λ a '(alias, item), install_import file alias item a) a l =
                 foldl (λ a e, install_import file e.1 e.2 a) a l) as ->.
  { induction l as [|[x i] l IH]; intros a; [done|]. apply IH. }
  apply (declares_fold (λ a e, install_import file e.1 e.2 a)).
  - intros a [alias item]. apply install_import_installs.
  - apply (declares_fold (declare file) _ []); [done|]. by apply declares_nil.
Qed.

Lemma resolve_all_grows items a : grows a (foldl (resolve_declaration file) a items).
Proof.
  revert a. induction items as [|item items IH]; intros a; [done|]. cbn. etrans; [|apply IH].
  apply resolve_declaration_resolves.
Qed.

Lemma declared_declares : declares analyzer_new declared_entries (declared file ast imports).
Proof. eapply declares_later; [apply imported_declares|apply resolve_all_grows]. Qed.

(** Every state entry comes from a declaration of that name. *)
Definition states_known (a : Analyzer) : Prop :=
  ∀ name types, an_states a !! name = Some types →
    ∃ n, (name, ItemState n) ∈ declared_entries ∧ length types = length (stn_fields n).

Lemma states_known_step a b e :
  e ∈ declared_entries → states_known a → states_from e a b → states_known b.
Proof. intros He Ha Hb name types [|(n & -> & Hn)]%Hb; [by apply Ha|by exists n]. Qed.

Lemma declare_all_states l a : an_states (foldl (declare file) a l) = an_states a.
Proof. revert a. induction l as [|e l IH]; intros a; [done|]. cbn. by rewrite IH, declare_states. Qed.

Lemma declared_states_known : states_known (declared file ast imports).
Proof.
  assert (∀ l a, (∀ e, e ∈ l → e ∈ declared_entries) → states_known a →
    states_known (foldl (λ a '(alias, item), install_import file alias item a) a l)) as Himp.
  { induction l as [|[x i] l IH]; intros a Hl Ha; [done|]. cbn. apply IH; [set_solver|].
    eapply states_known_step; [|exact Ha|apply install_import_installs]. set_solver. }
  assert (∀ l a, (∀ i, i ∈ l → (item_name i, i) ∈ declared_entries) → states_known a →
    states_known (foldl (resolve_declaration file) a l)) as Hres.
  { induction l as [|i l IH]; intros a Hl Ha; [done|]. cbn. apply IH; [set_solver|].
    eapply states_known_step; [|exact Ha|apply resolve_declaration_resolves]. set_solver. }
  apply Hres.
  - intros i Hi. apply elem_of_app. left. apply list_elem_of_fmap. eauto.
  - apply Himp; [unfold declared_entries; set_solver|].
    intros name types. rewrite collect_declare, declare_all_states. done.
Qed.

(** What [resolve_declaration] leaves for functions and states. *)
Lemma resolve_declaration_state n a : is_Some (an_states (resolve_declaration file a (ItemState n)) !! stn_name n).
Proof.
  cbn. unfold resolve_state_signature. destruct (map_state _ _ a) as [x b].
  destruct (an_states b !! stn_name n) eqn:E; [by rewrite E|]. cbn. rewrite lookup_insert_eq. eauto.
Qed.

Lemma resolve_declaration_function n a :
  vs_kind <$> sym_values (an_symbols a) !! fnn_name n = Some SymFunction →
  is_Some (an_functions (resolve_declaration file a (ItemFunction n)) !! fnn_name n).
Proof.
  intros H. cbn. unfold resolve_function_signature. rewrite H.
  destruct (an_functions a !! fnn_name n) eqn:E; [by rewrite E|].
  destruct (resolve_signature _ _ _ _). cbn. rewrite lookup_insert_eq. eauto.
Qed.

Lemma declared_function n :
  silent analyzer_new (declared file ast imports) → ItemFunction n ∈ ast_items ast →
  is_Some (an_functions (declared file ast imports) !! fnn_name n).
Proof.
  intros Hs Hn. unfold declared, resolve_declarations. fold imported.
  destruct (grows_silent analyzer_new imported (declared file ast imports)) as [Hi _];
    [exact (declares_grows _ _ _ imported_declares)|apply resolve_all_grows|done|].
  apply list_elem_of_split in Hn as (l & k & Hitems). rewrite Hitems, foldl_app. cbn.
  set (b := foldl (resolve_declaration file) imported l).
  assert (vs_kind <$> sym_values (an_symbols b) !! fnn_name n = Some SymFunction) as Hk.
  { assert (sym_values (an_symbols imported) !! fnn_name n =
      Some {| vs_name := fnn_name n; vs_kind := SymFunction; vs_span := fnn_span n |}) as Hv.
    { apply (declares_values _ _ _ imported_declares Hi (fnn_name n, ItemFunction n) {| vs_name := _ |}); [|done].
      apply elem_of_app. left. apply list_elem_of_fmap. exists (ItemFunction n). split; [done|].
      rewrite Hitems. set_solver. }
    subst b. by rewrite (lookup_weaken _ _ _ _ Hv (gr_values _ _ (resolve_all_grows l imported))). }
  apply elem_of_dom. apply (gr_functions _ _ (resolve_all_grows k _)). apply elem_of_dom.
  by apply resolve_declaration_function.
Qed.

Lemma declared_state n :
  silent analyzer_new (declared file ast imports) → ItemState n ∈ ast_items ast →
  ∃ types, an_states (declared file ast imports) !! stn_name n = Some types ∧ length types = length (stn_fields n).
Proof.
  intros Hs Hn.
  assert (is_Some (an_states (declared file ast imports) !! stn_name n)) as [types Htypes].
  { unfold declared, resolve_declarations. apply list_elem_of_split in Hn as (l & k & Hitems).
    rewrite Hitems, foldl_app. cbn. apply elem_of_dom. apply (gr_states _ _ (resolve_all_grows k _)).
    apply elem_of_dom. apply resolve_declaration_state. }
  exists types. split; [done|]. destruct (declared_states_known _ _ Htypes) as (m & Hm & Hlen).
  assert ((stn_name n, ItemState m) = (stn_name n, ItemState n)) as [= <-]; [|done].
  destruct (declares_types _ _ _ declared_declares Hs) as [Hnd _].
  eapply type_entry_unique; [exact Hnd|exact Hm| |reflexivity|reflexivity|done].
  apply elem_of_app. left. apply list_elem_of_fmap. by exists (ItemState n).
Qed.
End tables.
End chain.

(** ** The bodies *)

Definition parameter_names (parameters : list ParameterNode) : gset string := list_to_set (map pa_name parameters).

(** The expressions of a declaration, read in the final analyzer: names are the
    parameters and what the body binds; [await] is allowed by the function's own
    flag. *)
Definition item_ok (c : Analyzer) (item : Item) : Prop :=
  match item with
  | ItemFunction n =>
      all_reached (set_async (fnn_asynchronous n) c)
        (scoped_statements (parameter_names (fnn_parameters n)) (body_statements (fnn_body n)))
  | ItemState n => ∀ f e, f ∈ stn_fields n → stf_initializer f = Some e → reached c ∅ e
  | ItemPipeline n => ∀ p, first_property (pn_fields n) "result" = Some p →
      reached c (parameter_names (pn_parameters n)) (prop_value p)
  | _ => True
  end.

(** The tables know the declaration. *)
Definition item_known (a : Analyzer) (item : Item) : Prop :=
  match item with
  | ItemFunction n => is_Some (an_functions a !! fnn_name n)
  | ItemState n => ∃ types, an_states a !! stn_name n = Some types ∧ length types = length (stn_fields n)
  | _ => True
  end.

Lemma item_known_extends a b item : extends a b → item_known a item → item_known b item.
Proof. intros H. destruct item; cbn; rewrite ?(ext_functions _ _ H), ?(ext_states _ _ H); done. Qed.

Lemma parameter_scope_dom ps types : dom (parameter_scope ps types) ⊆ parameter_names ps.
Proof.
  unfold parameter_scope, parameter_names.
  assert (∀ m : scope_map, dom (foldl (λ (m : scope_map) '(p, ty), <[pa_name p := ty]> m) m (zip ps types)) ⊆
    dom m ∪ list_to_set (C := gset string) (map pa_name ps)) as H.
  { revert types. induction ps as [|p ps IH]; intros [|ty types] m; cbn; try set_solver.
    etrans; [apply IH|]. rewrite dom_insert_L. set_solver. }
  specialize (H ∅). rewrite dom_empty_L in H. set_solver.
Qed.

Section bodies.
Context (file : string).

Lemma check_function_step n a :
  step a (check_function file n a) (λ c, item_known a (ItemFunction n) → item_ok c (ItemFunction n)).
Proof.
  unfold check_function. cbn. destruct (an_functions a !! fnn_name n) as [s|] eqn:E.
  2: { apply step_refl. by intros c _ [? ?]. }
  set (scope := parameter_scope _ _). set (a0 := set_async (fnn_asynchronous n) a).
  destruct (check_block file (infer_expr file) (fnn_body n) scope (sig_result s) a0) as [t a1] eqn:Eb.
  assert (Forall (λ st, Forall (infers file) (statement_children st)) (body_statements (fnn_body n))) as Hall.
  { apply Forall_true. intros st. apply Forall_true. apply infer_step. }
  pose proof (check_block_step file _ _ (parameter_names (fnn_parameters n)) _ _ _ _ Hall (parameter_scope_dom _ _) Eb)
    as [[] Hh].
  split; [by split|]. intros Hs c Hc _. apply Hh; [exact Hs|]. destruct Hc. by split.
Qed.

Lemma check_initializer_step f expected a :
  step a (check_initializer file a (f, expected)) (λ c, ∀ e, stf_initializer f = Some e → reached c ∅ e).
Proof.
  unfold check_initializer. destruct (stf_initializer f) as [e|]; [|by apply step_refl].
  destruct (infer_expr file e ∅ (Some expected) a) as [t b] eqn:E.
  assert (dom (∅ : scope_map) ⊆ (∅ : gset string)) as Hd by by rewrite dom_empty_L.
  eapply step_weaken; [eapply step_trans; [exact (infer_step file e ∅ _ _ _ _ _ E Hd)|apply require_compatible_step]|].
  by intros c _ [? _] e' [= <-].
Qed.

Lemma check_initializers_step fields types a :
  step a (foldl (check_initializer file) a (zip fields types))
    (λ c, length types = length fields → ∀ f e, f ∈ fields → stf_initializer f = Some e → reached c ∅ e).
Proof.
  revert types a. induction fields as [|f fields IH]; intros [|ty types] a; cbn; try (apply step_refl; set_solver).
  eapply step_weaken; [eapply step_trans; [apply check_initializer_step|apply IH]|].
  intros c _ [H1 H2] [= Hlen] g e [->|Hg]%elem_of_cons He; eauto.
Qed.

Lemma check_state_step n a :
  step a (check_state file n a) (λ c, item_known a (ItemState n) → item_ok c (ItemState n)).
Proof.
  unfold check_state. eapply step_weaken; [apply check_initializers_step|].
  intros c _ H (types & Ht & Hlen). rewrite Ht in H. exact (H Hlen).
Qed.

Lemma check_agent_extends n s a : extends a (check_agent file n s a).
Proof.
  unfold check_agent. destruct (_ ≫= _) as [name|]; [|done]. destruct (_ !! name) as [c|]; [|done].
  unfold check_agent_output, check_agent_input.
  etrans; [|destruct (agent_output c); [destruct (compatible _ _)|]; apply push_message_extends || done].
  destruct (agent_input c); [|done]. destruct (match _ with Some _ => _ | None => _ end); [done|].
  apply push_message_extends.
Qed.

Lemma check_pipeline_step n a : step a (check_pipeline file n a) (λ c, item_ok c (ItemPipeline n)).
Proof.
  unfold check_pipeline, check_result. cbn. set (s := default _ _). set (a1 := check_agent file n s a).
  assert (step a a1 (λ _, True)) as H1 by (split; [apply check_agent_extends|done]).
  destruct (first_property (pn_fields n) "result") as [p|]; [|by eapply step_weaken].
  set (r := match prop_ty p with Some ty => _ | None => _ end).
  assert (step a1 r.2 (λ _, True)) as H2.
  { split; [|done]. subst r. destruct (prop_ty p); [apply resolve_type_extends|done]. }
  destruct r as [declared a2]. cbn in H2.
  destruct (infer_expr file (prop_value p) _ _ _) as [t a3] eqn:E.
  pose proof (infer_step file _ (parameter_names (pn_parameters n)) _ _ _ _ _ E (parameter_scope_dom _ _)) as H3.
  eapply step_weaken; [eapply step_trans; [exact H1|eapply step_trans; [exact H2|eapply step_trans;
    [apply require_compatible_step|eapply step_trans; [exact H3|apply require_compatible_step]]]]|].
  intros c _ (_ & _ & _ & Hr & _) q [= <-]. exact Hr.
Qed.

Lemma check_item_step item a : step a (check_item file a item) (λ c, item_known a item → item_ok c item).
Proof.
  destruct item as [n|n|n|n|n|n|n]; cbn [check_item]; try (by apply step_refl).
  - apply check_function_step.
  - apply check_state_step.
  - eapply step_weaken; [apply check_pipeline_step|]. auto.
Qed.

Lemma check_items_step items a :
  step a (foldl (check_item file) a items) (λ c, ∀ item, item ∈ items → item_known a item → item_ok c item).
Proof.
  revert a. induction items as [|i items IH]; intros a; cbn; [apply step_refl; set_solver|].
  pose proof (check_item_step i a) as Hi.
  eapply step_weaken; [eapply step_trans; [exact Hi|apply IH]|].
  intros c _ [H1 H2] item [->|Hin]%elem_of_cons Hk; [by apply H1|].
  apply H2; [done|]. by eapply item_known_extends; [apply (step_extends _ _ _ Hi)|].
Qed.
End bodies.
