(* ===== verification/SemanticMatch.v ===== *)
(** * Semantic analysis: match expressions

    What a match means, and how the analyzer's exhaustiveness check relates to it.
    [pattern_matches] is the reading of patterns by values; the check compares the
    names of variants only, so it is exact where the fields of variant patterns
    match everything. *)

From stdpp Require Import base gmap strings numbers list.
From S2P Require Import Prelude Text Ir Hir Diagnostics Ast Ownership OwnershipSound Semantic.
From S2P Require Import SemanticBodies SemanticTheorems SemanticDeclarations SemanticAccepted.
Open Scope string_scope.
Open Scope list_scope.

Inductive MatchValue :=
| MvLiteral (l : Literal)
| MvVariant (type_name variant_name : string) (fields : list MatchValue).

#[export] Instance literal_eq_dec : EqDecision Literal.
Proof. solve_decision. Defined.

(** The values of the types the check knows the variants of. *)
Definition value_of (a : Analyzer) (ty : ResolvedType) (v : MatchValue) : Prop :=
  match ty with
  | RtPrimitive PrimBool => ∃ b, v = MvLiteral (LitBoolean b)
  | RtEnum name => ∃ variant_name types fields,
      enum_variant name variant_name a = Some types ∧ length fields = length types ∧
      v = MvVariant name variant_name fields
  | RtOption _ => v = MvVariant "Option" "none" [] ∨ ∃ x, v = MvVariant "Option" "some" [x]
  | RtResult _ _ => ∃ x, v = MvVariant "Result" "ok" [x] ∨ v = MvVariant "Result" "err" [x]
  | _ => True
  end.

Fixpoint pattern_matches (p : Pattern) (v : MatchValue) : bool :=
  match p with
  | mkPattern kind _ =>
      match kind with
      | PkWildcard | PkPath [_] => true
      | PkLiteral l => match v with MvLiteral l' => bool_decide (l = l') | _ => false end
      | PkPath [t; n] =>
          match v with
          | MvVariant t' n' [] => bool_decide (t = t') && bool_decide (n = n')
          | _ => false
          end
      | PkConstructor [t; n] patterns =>
          match v with
          | MvVariant t' n' values =>
              bool_decide (t = t') && bool_decide (n = n') &&
              (fix go (ps : list Pattern) (vs : list MatchValue) : bool :=
                 match ps, vs with
                 | [], [] => true
                 | p :: ps, v :: vs => pattern_matches p v && go ps vs
                 | _, _ => false
                 end) patterns values
          | _ => false
          end
      | _ => false
      end
  end.

(** Patterns that match every value, by their form. *)
Definition irrefutable (p : Pattern) : bool :=
  match pattern_kind p with PkWildcard | PkPath [_] => true | _ => false end.

Definition plain_fields (arm : MatchArm) : bool :=
  match pattern_kind (arm_pattern arm) with PkConstructor _ fields => forallb irrefutable fields | _ => true end.

Definition matched (arms : list MatchArm) (v : MatchValue) : Prop :=
  ∃ arm, arm ∈ arms ∧ arm_guard arm = None ∧ pattern_matches (arm_pattern arm) v = true.

Lemma irrefutable_matches p v : irrefutable p = true → pattern_matches p v = true.
Proof. destruct p as [[| [|? [|]]| |] s]; cbn; intros; simplify_eq; done. Qed.

Lemma catch_all_matches arm v : catch_all arm = true → arm_guard arm = None ∧ pattern_matches (arm_pattern arm) v = true.
Proof.
  destruct arm as [p [g|] body s]; unfold catch_all; cbn; [done|]. intros H. split; [done|].
  apply irrefutable_matches. unfold irrefutable. destruct (pattern_kind p) as [|[|? [|]]| |]; done.
Qed.

Section exhaustive.
Context (file : string).

(** A variant pattern that was checked in silence names a variant of the type. *)
Lemma check_variant_pattern_silent path fields expected scope span a scope' b :
  check_variant_pattern_with file (check_pattern file) path fields expected scope span a = (scope', b) →
  silent a b → expected ≠ RtError →
  ∃ t n payload, path = [t; n] ∧ variant_payload expected t n a = Some payload ∧ length payload = length fields.
Proof.
  unfold check_variant_pattern_with.
  destruct (split_constructor_path path) as [[t n]|] eqn:Ep.
  2: { intros [= <- <-] []%push_message_loud. }
  assert (path = [t; n]) as ->.
  { destruct path as [|? [|? [|]]]; try discriminate Ep. by injection Ep as -> ->. }
  intros H Hs He. exists t, n.
  assert (match variant_payload expected t n a with
          | None => (scope, unknown_variant file t n span a)
          | Some payload =>
              check_fields (check_pattern file) fields payload scope
                (if bool_decide (length payload = length fields) then a
                 else push_error file "SYL2101" ("pattern expects " +:+ pretty.pretty (length payload) +:+
                        " field(s), found " +:+ pretty.pretty (length fields)) span a)
          end = (scope', b)) as H' by (destruct expected; done).
  destruct (variant_payload expected t n a) as [payload|].
  2: { injection H' as <- <-. by apply push_message_loud in Hs. }
  exists payload. split; [done|]. split; [done|].
  assert (Forall (checks_pattern file) fields) as Hf by (apply Forall_true; apply check_pattern_checks).
  apply (check_fields_checks file _ Hf) in H' as [Hx _].
  case_bool_decide as Hlen; [done|].
  destruct (extends_silent _ _ _ (push_message_extends _ _ _ _ _) Hx Hs) as [Hl _]. by apply push_message_loud in Hl.
Qed.

(** The form of a pattern that was checked in silence against a type with variants. *)
Definition pattern_ok (a : Analyzer) (ty : ResolvedType) (p : Pattern) : Prop :=
  match pattern_kind p with
  | PkWildcard | PkPath [_] => True
  | PkPath path => ∃ t n, path = [t; n] ∧ variant_payload ty t n a = Some []
  | PkConstructor path fields => ∃ t n payload, path = [t; n] ∧ variant_payload ty t n a = Some payload ∧
      length payload = length fields
  | PkLiteral l => compatible ty (pattern_literal_type l) = true
  end.

Lemma check_pattern_silent p ty scope a scope' b :
  check_pattern file p ty scope a = (scope', b) → silent a b → ty ≠ RtError → pattern_ok a ty p.
Proof.
  destruct p as [kind span]. unfold pattern_ok. destruct kind as [|path|path fields|l]; cbn [check_pattern pattern_kind].
  - done.
  - destruct path as [|x [|y path]]; [|done|]; intros H Hs He;
      destruct (check_variant_pattern_silent _ _ _ _ _ _ _ _ H Hs He) as (t & n & [|] & ? & ? & ?); try done; eauto.
  - apply check_variant_pattern_silent.
  - intros [= <- <-] Hs _. unfold require_compatible in Hs.
    destruct (compatible _ _); [done|]. by apply push_message_loud in Hs.
Qed.

Lemma pattern_ok_enums a b ty p : an_enums b = an_enums a → pattern_ok b ty p → pattern_ok a ty p.
Proof.
  intros H. assert (∀ t n, variant_payload ty t n b = variant_payload ty t n a) as Hv.
  { intros t n. unfold variant_payload. by rewrite H. }
  unfold pattern_ok. destruct (pattern_kind p) as [|[|? [|]]| |]; try setoid_rewrite Hv; done.
Qed.

(** An unguarded arm with plain fields that covers a variant matches its values. *)
Lemma covered_matches a ty arm name types fields t :
  pattern_ok a ty (arm_pattern arm) → plain_fields arm = true → catch_all arm = false →
  covered_variant arm = Some name → compatible ty bool_type = false →
  (∀ t' payload, variant_payload ty t' name a = Some payload → t' = t ∧ payload = types) →
  length fields = length types →
  arm_guard arm = None ∧ pattern_matches (arm_pattern arm) (MvVariant t name fields) = true.
Proof.
  destruct arm as [[kind s] [g|] body s']; unfold covered_variant, plain_fields, pattern_ok, catch_all; cbn; [done|].
  intros Hok Hplain Hcatch Hcov Hbool Hpay Hlen. split; [done|].
  destruct kind as [|path|path ps|l]; cbn in *; try done.
  - destruct path as [|x [|y path]]; try done. destruct Hok as (t' & n & [= -> -> ->] & Hp).
    injection Hcov as ->. destruct (Hpay _ _ Hp) as [-> <-]. destruct fields; [|done].
    by rewrite !bool_decide_true.
  - destruct Hok as (t' & n & payload & -> & Hp & Hl). injection Hcov as ->.
    destruct (Hpay _ _ Hp) as [-> ->]. rewrite !bool_decide_true by done. cbn.
    assert (length ps = length fields) as Hpf by congruence. clear -Hplain Hpf.
    revert fields Hpf. induction ps as [|p ps IH]; intros [|v fields] Hpf; try done. cbn in Hplain.
    apply andb_true_iff in Hplain as [Hp Hps]. rewrite (irrefutable_matches _ _ Hp). cbn. apply IH; [done|]. by injection Hpf.
  - destruct l; try done. discriminate (eq_trans (eq_sym Hbool) Hok).
Qed.

Lemma missing_nil required arms name :
  missing_variants required arms = [] → name ∈ required → ∃ arm, arm ∈ arms ∧ covered_variant arm = Some name.
Proof.
  intros Hm Hin. assert (name ∉ missing_variants required arms) as Hn by (rewrite Hm; apply not_elem_of_nil).
  unfold missing_variants in Hn. rewrite list_elem_of_filter in Hn.
  destruct (decide (name ∈ omap covered_variant arms)) as [Hc|]; [|naive_solver].
  apply list_elem_of_omap in Hc. naive_solver.
Qed.

Lemma check_exhaustive_silent span ty arms a required name :
  silent a (check_exhaustive file span ty arms a) → existsb catch_all arms = false →
  required_variants ty a = Some required → name ∈ required → ∃ arm, arm ∈ arms ∧ covered_variant arm = Some name.
Proof.
  unfold check_exhaustive. intros Hs Hc Hr Hin. rewrite Hc, Hr in Hs. apply missing_nil with (required := required); [|done].
  destruct (missing_variants required arms) as [|m ms] eqn:E; [done|]. by apply push_message_loud in Hs.
Qed.

(** The check is sound where variant patterns have plain fields. *)
Lemma exhaustive_sound span ty arms a :
  is_Some (required_variants ty a) →
  Forall (λ arm, pattern_ok a ty (arm_pattern arm)) arms → Forall (λ arm, plain_fields arm = true) arms →
  silent a (check_exhaustive file span ty arms a) → ∀ v, value_of a ty v → matched arms v.
Proof.
  intros [required Hr] Hok Hplain Hs v Hv. unfold matched.
  destruct (existsb catch_all arms) eqn:Ec.
  { apply existsb_exists in Ec as (arm & Hin%list_elem_of_In & Hc).
    destruct (catch_all_matches _ v Hc). by exists arm. }
  rewrite Forall_forall in Hok, Hplain.
  assert (∀ name, name ∈ required → ∃ arm, arm ∈ arms ∧ covered_variant arm = Some name) as Hcov.
  { intros name. by eapply check_exhaustive_silent. }
  assert (∀ name types fields t, name ∈ required → compatible ty bool_type = false →
    (∀ t' payload, variant_payload ty t' name a = Some payload → t' = t ∧ payload = types) →
    length fields = length types →
    ∃ arm, arm ∈ arms ∧ arm_guard arm = None ∧ pattern_matches (arm_pattern arm) (MvVariant t name fields) = true) as Hvar.
  { intros name types fields t Hin Hb Hp Hlen. destruct (Hcov _ Hin) as (arm & Harm & Hc). exists arm. split; [done|].
    apply (covered_matches a ty arm name types); auto. by eapply existsb_false. }
  destruct ty as [| [] | |n| |t|ok er| | | | | | | |]; try discriminate Hr; cbn in Hr, Hv; injection Hr as <-.
  - destruct Hv as [b ->]. destruct (Hcov (if b then "true" else "false")) as (arm & Harm & Hc).
    { destruct b; set_solver. }
    exists arm. split; [done|]. specialize (Hok _ Harm). apply (existsb_false _ _ _ Ec) in Harm.
    destruct arm as [[kind s] [g|] body s']; unfold covered_variant, pattern_ok, catch_all in *; cbn in *; [done|].
    split; [done|]. clear Hcov Hvar Hplain. destruct kind as [|[|x [|y path]]|path ps|l]; cbn in *; try done.
    + by destruct Hok as (? & ? & ? & ?).
    + by destruct Hok as (? & ? & ? & ? & ? & ?).
    + destruct l; try done. by destruct b, b0.
  - destruct Hv as (name & types & fields & He & Hl & ->). unfold enum_variant in He.
    destruct (an_enums a !! n) as [variants|] eqn:En; [|done]. cbn in He.
    eapply Hvar; [| | |exact Hl]; [|done|].
    + unfold find_variant in He. destruct (List.find _ _) as [[name' tys]|] eqn:Ef; [|done].
      apply find_some in Ef as [Hin Hn]. apply bool_decide_eq_true in Hn. cbn in Hn. subst name'.
      apply list_elem_of_fmap. exists (name, tys). by rewrite list_elem_of_In.
    + cbn. intros t' payload. case_bool_decide; [|done]. rewrite En. cbn. rewrite He. naive_solver.
  - destruct Hv as [->|[x ->]].
    + eapply (Hvar "none" []); [set_solver|done| |done]. cbn. intros t' payload. repeat case_bool_decide; naive_solver.
    + eapply (Hvar "some" [t]); [set_solver|done| |done]. cbn. intros t' payload. repeat case_bool_decide; naive_solver.
  - destruct Hv as [x [->| ->]].
    + eapply (Hvar "ok" [ok]); [set_solver|done| |done]. cbn. intros t' payload. repeat case_bool_decide; naive_solver.
    + eapply (Hvar "err" [er]); [set_solver|done| |done]. cbn. intros t' payload. repeat case_bool_decide; naive_solver.
Qed.

(** ** Reports *)

Lemma matching_arm_covers arm t name fields :
  arm_guard arm = None → catch_all arm = false →
  pattern_matches (arm_pattern arm) (MvVariant t name fields) = true → covered_variant arm = Some name.
Proof.
  destruct arm as [[kind s] guard body s']; unfold catch_all, covered_variant; cbn. intros ->.
  destruct kind as [|[|x [|y [|]]]|[|x [|y [|]]] ps|l]; cbn; try done.
  - destruct fields; [|done]. intros _ [_ Hn]%andb_true_iff. apply bool_decide_eq_true in Hn. by subst.
  - intros _ [[_ Hn]%andb_true_iff _]%andb_true_iff. apply bool_decide_eq_true in Hn. by subst.
Qed.

Lemma matching_bool_covers arm b :
  arm_guard arm = None → catch_all arm = false →
  pattern_matches (arm_pattern arm) (MvLiteral (LitBoolean b)) = true →
  covered_variant arm = Some (if b then "true" else "false").
Proof.
  destruct arm as [[kind s] guard body s']; unfold catch_all, covered_variant; cbn. intros ->.
  destruct kind as [|[|x [|y [|]]]|[|x [|y [|]]] ps|l]; cbn; try done.
  intros _ Hl. apply bool_decide_eq_true in Hl. by subst.
Qed.

(** Every required variant has a value whose matching arms all cover it. *)
Lemma required_value ty a required name :
  required_variants ty a = Some required → name ∈ required →
  ∃ v, value_of a ty v ∧ ∀ arm, arm_guard arm = None → catch_all arm = false →
    pattern_matches (arm_pattern arm) v = true → covered_variant arm = Some name.
Proof.
  destruct ty as [| [] | |n| |t|ok er| | | | | | | |]; try done; cbn; intros [= <-] Hin.
  - exists (MvLiteral (LitBoolean (bool_decide (name = "true")))). split; [by eexists|].
    intros arm Hg Hc Hm. rewrite (matching_bool_covers _ _ Hg Hc Hm). case_bool_decide; [by subst|].
    f_equal. set_solver.
  - unfold enum_variant. destruct (an_enums a !! n) as [variants|]; [|by apply not_elem_of_nil in Hin]. cbn.
    assert (∃ types, find_variant variants name = Some types) as [types Ht].
    { apply list_elem_of_fmap in Hin as ([name' types] & -> & Hin). unfold find_variant.
      destruct (List.find _ variants) as [[]|] eqn:Ef; [by eexists|].
      apply list_elem_of_In, (find_none _ _ Ef) in Hin. by apply bool_decide_eq_false in Hin. }
    exists (MvVariant n name (replicate (length types) (MvLiteral (LitBoolean true)))). split.
    + exists name, types, (replicate (length types) (MvLiteral (LitBoolean true))).
      by rewrite length_replicate.
    + intros arm Hg Hc Hm. by eapply matching_arm_covers.
  - assert (name = "none" ∨ name = "some") as [->| ->] by set_solver.
    + exists (MvVariant "Option" "none" []). split; [by left|]. intros arm Hg Hc Hm. by eapply matching_arm_covers.
    + exists (MvVariant "Option" "some" [MvLiteral (LitBoolean true)]). split; [right; by eexists|].
      intros arm Hg Hc Hm. by eapply matching_arm_covers.
  - assert (name = "ok" ∨ name = "err") as [->| ->] by set_solver.
    + exists (MvVariant "Result" "ok" [MvLiteral (LitBoolean true)]). split; [eexists; by left|].
      intros arm Hg Hc Hm. by eapply matching_arm_covers.
    + exists (MvVariant "Result" "err" [MvLiteral (LitBoolean true)]). split; [eexists; by right|].
      intros arm Hg Hc Hm. by eapply matching_arm_covers.
Qed.

Lemma check_exhaustive_cases span ty arms a :
  check_exhaustive file span ty arms a = a ∨ ¬ silent a (check_exhaustive file span ty arms a).
Proof.
  unfold check_exhaustive. destruct (existsb catch_all arms); [by left|].
  destruct (required_variants ty a); [|by left]. destruct (missing_variants _ _); [by left|].
  right. apply push_message_loud.
Qed.

Lemma exhaustive_complete span ty arms a :
  ¬ silent a (check_exhaustive file span ty arms a) → ∃ v, value_of a ty v ∧ ¬ matched arms v.
Proof.
  unfold check_exhaustive. intros Hl. destruct (existsb catch_all arms) eqn:Ec; [by destruct Hl|].
  destruct (required_variants ty a) as [required|] eqn:Er; [|by destruct Hl].
  destruct (missing_variants required arms) as [|m ms] eqn:Em; [by destruct Hl|].
  assert (m ∈ missing_variants required arms) as Hm by (rewrite Em; apply elem_of_cons; by left).
  apply list_elem_of_filter in Hm as [Hn Hin].
  destruct (required_value _ _ _ _ Er Hin) as (v & Hv & Hcov). exists v. split; [done|].
  intros (arm & Harm & Hg & Hp). apply Hn. apply list_elem_of_omap. exists arm. split; [done|].
  apply Hcov; [done| |done]. by eapply existsb_false.
Qed.

(** ** Whole matches *)

Lemma check_arms_patterns ty scope expected arms :
  ty ≠ RtError →
  ∀ result a t b, check_arms file (infer_expr file) ty scope expected arms result a = (t, b) → silent a b →
    Forall (λ arm, pattern_ok a ty (arm_pattern arm)) arms.
Proof.
  intros Hty. induction arms as [|[p guard body sp] arms IH]; intros result a t b; cbn; [constructor|].
  destruct (check_pattern file p ty scope a) as [scope1 a1] eqn:E1.
  destruct (check_pattern_checks file p _ _ _ _ _ E1) as [X1 _].
  assert (extends a1 (check_guard file (infer_expr file) guard scope1 a1)) as X2.
  { eapply step_extends, (check_guard_step file guard scope1 (dom scope1)); [|done].
    destruct guard; [|constructor]. constructor; [apply infer_step|constructor]. }
  destruct (infer_expr file body scope1 expected _) as [arm_type a3] eqn:E3.
  pose proof (step_extends _ _ _ (infer_step file body _ _ _ _ _ _ E3 (reflexivity (dom scope1)))) as X3.
  pose proof (transitivity X2 X3) as X13. pose proof (transitivity X1 X13) as X. intros H Hs.
  assert (∃ result' a4, extends a3 a4 ∧
    check_arms file (infer_expr file) ty scope expected arms result' a4 = (t, b)) as (r & a4 & X4 & H4).
  { destruct result; first [exists arm_type, a3; split; [done|exact H]
      |eexists _, _; split; [|exact H]; eapply step_extends, require_compatible_step]. }
  assert (extends a4 b) as X5.
  { eapply step_extends, (check_arms_step file ty scope (dom scope)); [|done|exact H4].
    apply Forall_true. intros arm. apply Forall_true. apply infer_step. }
  destruct (extends_silent a a1 b) as [S1 S1b]; [done|by do 2 (etrans; [done|])|done|].
  destruct (extends_silent a a4 b) as [_ S4]; [by etrans|done|done|].
  constructor.
  - by eapply check_pattern_silent.
  - eapply Forall_impl; [exact (IH _ _ _ _ H4 S4)|]. intros arm Hok. eapply pattern_ok_enums; [|exact Hok].
    by rewrite (ext_enums _ _ X4), (ext_enums _ _ X).
Qed.

Lemma check_match_patterns span ty arms scope expected a t b :
  check_match file (infer_expr file) span ty arms scope expected a = (t, b) → silent a b → ty ≠ RtError →
  Forall (λ arm, pattern_ok a ty (arm_pattern arm)) arms ∧
  ∃ a', extends a a' ∧ silent a' (check_exhaustive file span ty arms a').
Proof.
  unfold check_match. destruct (check_arms _ _ _ _ _ _ _ _) as [r a1] eqn:E. intros [= <- <-] Hs Hty.
  assert (extends a a1) as X1.
  { eapply step_extends, (check_arms_step file ty scope (dom scope)); [|done|exact E].
    apply Forall_true. intros arm. apply Forall_true. apply infer_step. }
  destruct (extends_silent a a1 _ X1 (check_exhaustive_extends file span ty arms a1) Hs) as [S1 S2].
  split; [by eapply check_arms_patterns|by exists a1].
Qed.
End exhaustive.

(** * Claims about the semantic analyser

    Declarations, accepted files and matches of one file, with sample programs. *)

Open Scope string_scope.
Open Scope list_scope.

(** ** Declarations *)

(** The first pass keeps the first declaration of every name, apart from the
    built-in types, which no declaration replaces; types and values have separate
    tables; and every declaration either adds its symbol or one diagnostic. *)
Theorem collect_declarations_exact file ast :
  let a := collect_declarations file ast analyzer_new in
  (∀ name, sym_types (an_symbols a) !! name =
     match builtin_types !! name with Some s => Some s | None => first_type (named_items ast) name end) ∧
  (∀ name, sym_values (an_symbols a) !! name = first_value (named_items ast) name) ∧
  (size (sym_types (an_symbols a)) + size (sym_values (an_symbols a)) + length (an_diagnostics a) =
     28 + length (ast_items ast))%nat.
Proof.
  cbv zeta. rewrite collect_declare. destruct (declare_all_exact file (named_items ast)) as [Ht Hv].
  split; [exact Ht|]. split; [exact Hv|].
  change (symbol_count (foldl (declare file) analyzer_new (named_items ast)) = 28 + length (ast_items ast))%nat.
  rewrite declare_all_count. unfold named_items. rewrite length_map, Nat.add_comm. f_equal.
Qed.

(** ** Accepted files *)

(** The analyzer at the end of [analyze_with_imports]. *)
Definition final (file : string) (ast : Ast) (imports : list named_item) : Analyzer :=
  check_bodies file ast (declared file ast imports).

Lemma accepted_file_is_well_scoped file ast imports :
  analysis_diagnostics (analyze_with_imports file ast imports) = [] →
  an_async (final file ast imports) = false ∧
  analyze_ownership file ast = [] ∧
  ∀ item, item ∈ ast_items ast → item_ok (final file ast imports) item.
Proof.
  cbn. intros [Hd Ho]%app_nil. fold (final file ast imports) in *.
  pose proof (declares_grows _ _ _ _ (declared_declares file ast imports)) as Hg.
  pose proof (check_items_step file (ast_items ast) (declared file ast imports)) as [Hx Hk].
  assert (silent analyzer_new (final file ast imports)) as Hs by exact Hd.
  destruct (prefix_silent _ _ _ (gr_diagnostics _ _ Hg) (ext_diagnostics _ _ Hx) Hs) as [S1 S2].
  split; [unfold final, check_bodies; by rewrite (ext_async _ _ Hx), (gr_async _ _ Hg)|]. split; [done|].
  intros item Hin. apply Hk; [done|done|done|]. destruct item; cbn; try done.
  - by apply declared_function.
  - by apply declared_state.
Qed.

(** ** Matches *)

Lemma value_of_extends a b ty v : extends a b → value_of b ty v ↔ value_of a ty v.
Proof.
  intros H. destruct ty as [| [] | |n| | | | | | | | | | |]; cbn; try done.
  by setoid_rewrite (enum_variant_extends _ _ _ _ H).
Qed.

(** For a scrutinee whose type has known variants (an enum, [Option], [Result],
    [Bool]), when the arms themselves are accepted and the fields of variant
    patterns are wildcards or names, [check_match] reports nothing exactly when
    every value of the type is matched by an arm without a guard. *)
Theorem match_check_exact file span ty arms scope expected a t a1 :
  check_arms file (infer_expr file) ty scope expected arms (default RtUnknown expected) a = (t, a1) → silent a a1 →
  is_Some (required_variants ty a) → Forall (λ arm, plain_fields arm = true) arms →
  (silent a (check_match file (infer_expr file) span ty arms scope expected a).2 ↔
   ∀ v, value_of a ty v → matched arms v).
Proof.
  intros E Hs Hreq Hplain. unfold check_match. rewrite E. cbn.
  assert (extends a a1) as X.
  { eapply step_extends, (check_arms_step file ty scope (dom scope)); [|done|exact E].
    apply Forall_true. intros arm. apply Forall_true. apply infer_step. }
  assert (ty ≠ RtError) as Hty by (intros ->; by destruct Hreq).
  pose proof (check_arms_patterns file ty scope expected arms Hty _ _ _ _ E Hs) as Hok.
  assert (is_Some (required_variants ty a1)) as Hreq1.
  { destruct ty as [| [] | |n| | | | | | | | | | |]; cbn in *; eauto. }
  setoid_rewrite <-(value_of_extends _ _ _ _ X).
  assert (silent a (check_exhaustive file span ty arms a1) ↔ silent a1 (check_exhaustive file span ty arms a1)) as ->.
  { unfold silent in *. by rewrite Hs. }
  split.
  - apply exhaustive_sound; [done| |done]. eapply Forall_impl; [exact Hok|]. intros arm.
    apply pattern_ok_enums. symmetry. apply (ext_enums _ _ X).
  - intros Hall. destruct (check_exhaustive_cases file span ty arms a1) as [H|H]; [by rewrite H|].
    destruct (exhaustive_complete _ _ _ _ _ H) as (v & Hv & Hm). by destruct (Hm (Hall v Hv)).
Qed.

(** ** Programs *)

Definition integer (z : Z) : Expr := Ex (ELiteral (LitInteger z)) default_span.
Definition boolean (b : bool) : Expr := Ex (ELiteral (LitBoolean b)) default_span.
Definition sum_of (l r : Expr) : Expr := Ex (EBinary OpAdd l r) default_span.
Definition match_on (value : Expr) (arms : list (PatternKind * Expr)) : Expr :=
  Ex (EMatch value (map (λ '(p, e), mkMatchArm (mkPattern p default_span) None e default_span) arms)) default_span.
Definition option_of (name : string) : TypeNode := mkType (TkPath ["Option"] [name_type name]) default_span.

(** [fn main(x: ty) -> result { body }] *)
Definition main_with (ty result : TypeNode) (body : list Statement) : FunctionNode :=
  {| fnn_attributes := []; fnn_public := false; fnn_asynchronous := false; fnn_name := "main";
     fnn_parameters := [{| pa_name := "x"; pa_ty := ty; pa_span := default_span |}];
     fnn_return_type := Some result; fnn_effects := None; fnn_body := mkBody body default_span;
     fnn_span := default_span |}.

Definition reported (f : FunctionNode) : list string :=
  code <$> analysis_diagnostics (analyze "main.syl" (file_of f)).

Definition i64_to_bool (body : list Statement) : FunctionNode := main_with (name_type "I64") (name_type "Bool") body.
Definition i64_to_i64 (body : list Statement) : FunctionNode := main_with (name_type "I64") (name_type "I64") body.

(** [match x { Option::some(true) => true, Option::none => false }] *)
Definition some_true : Pattern := mkPattern (PkLiteral (LitBoolean true)) default_span.
Definition partial_arms : list (PatternKind * Expr) :=
  [(PkConstructor ["Option"; "some"] [some_true], boolean true); (PkPath ["Option"; "none"], boolean false)].

Definition arms_of (arms : list (PatternKind * Expr)) : list MatchArm :=
  map (λ '(p, e), mkMatchArm (mkPattern p default_span) None e default_span) arms.

(** A match on an option with both variants, checked in an analyzer without
    declarations. *)
Definition total_arms : list MatchArm :=
  arms_of [(PkConstructor ["Option"; "some"] [mkPattern (PkPath ["y"]) default_span], boolean true);
           (PkPath ["Option"; "none"], boolean false)].

Lemma match_check_exact_witness : matched total_arms (MvVariant "Option" "none" []).
Proof.
  apply (match_check_exact "main.syl" default_span (RtOption (RtPrimitive PrimString)) total_arms ∅ None analyzer_new
    (check_arms "main.syl" (infer_expr "main.syl") (RtOption (RtPrimitive PrimString)) ∅ None total_arms RtUnknown
       analyzer_new).1
    (check_arms "main.syl" (infer_expr "main.syl") (RtOption (RtPrimitive PrimString)) ∅ None total_arms RtUnknown
       analyzer_new).2).
  - by destruct (check_arms _ _ _ _ _ _ _ _).
  - by vm_compute.
  - by eexists.
  - by repeat constructor.
  - by vm_compute.
  - by left.
Defined.
