(* ===== verification/SemanticPackages.v ===== *)
(** * The semantic analyser over a package

    [analyze_modules] with [analyze_with_imports] of the analyser in place of its
    parameter: what the absence of diagnostics means for all sources, and an
    order in which names are installed that rejects correct packages. *)

From stdpp Require Import base gmap strings numbers list.
From S2P Require Import Prelude Text Ir Hir Diagnostics Ast Modules ModulesTheorems.
From S2P Require Import ModulesClaims Ownership OwnershipSound Semantic SemanticBodies SemanticTheorems SemanticDeclarations SemanticAccepted.
From S2P Require Import SemanticMatch.
Open Scope string_scope.
Open Scope list_scope.

Abbreviation analyze_package := (analyze_modules analysis_diagnostics analyze_with_imports).

Section package.
Context (sources : list ModuleSource).
Abbreviation ids := (module_ids sources).

(** ** Every source has a module *)

Lemma collect_item_diagnostics id name file c item :
  cl_diagnostics c `prefix_of` cl_diagnostics (collect_item id name file c item).
Proof. unfold collect_item. destruct (bool_decide _); cbn; [by eexists|done]. Qed.

Lemma collect_items_diagnostics id name file items c :
  cl_diagnostics c `prefix_of` cl_diagnostics (foldl (collect_item id name file) c items).
Proof.
  revert c. induction items as [|item items IH]; intros c; [done|]. etrans; [apply collect_item_diagnostics|apply IH].
Qed.

Lemma collect_source_diagnostics table c s :
  cl_diagnostics c `prefix_of` cl_diagnostics (collect_source table c s) ∧
  (source_module s = None → cl_diagnostics (collect_source table c s) ≠ []).
Proof.
  unfold collect_source. destruct (source_module s) as [name|]; cbn.
  - split; [|done]. destruct (table !! name) as [id|]; [|done]. destruct (cl_modules c !! id); [|done]. cbn.
    exact (collect_items_diagnostics _ _ _ (ast_items (src_ast s)) {| cl_diagnostics := cl_diagnostics c |}).
  - split; [by eexists|]. intros _ H. apply app_nil in H as [_ H]. discriminate H.
Qed.

Lemma collected_modules l table c s :
  cl_diagnostics (foldl (collect_source table) c l) = [] → s ∈ l → is_Some (source_module s).
Proof.
  assert (∀ l c, cl_diagnostics c `prefix_of` cl_diagnostics (foldl (collect_source table) c l)) as Hp.
  { clear. induction l as [|s l IH]; intros c; [done|]. etrans; [apply collect_source_diagnostics|apply IH]. }
  revert c. induction l as [|x l IH]; intros c Hd; [by intros ?%elem_of_nil|]. cbn in Hd.
  intros [->|Hs]%elem_of_cons; [|by eapply IH].
  destruct (source_module x) as [name|] eqn:E; [by eexists|].
  destruct (collect_source_diagnostics table c x) as [_ Hne]. destruct (Hne E).
  destruct (Hp l (collect_source table c x)) as [k Hk]. rewrite Hd in Hk. symmetry in Hk. by apply app_nil in Hk as [? _].
Qed.

Lemma linked_module s name :
  (N.of_nat (length sources) ≤ u32_max)%N → s ∈ sources → source_module s = Some name →
  ∃ id m, lk_modules (link_sources sources) !! id = Some m ∧ rm_name m = name.
Proof.
  intros Hmax Hs Hn. destruct (module_ids_known _ _ _ Hs Hn) as [id Hid].
  destruct (empty_modules_lookup _ _ _ Hid) as [x Hx].
  pose proof (module_ids_inj _ _ _ _ Hmax Hid (empty_modules_name _ _ _ Hx)) as Hname.
  destruct (collect_sources_frame sources ids (empty_modules ids)) as [Hframe _].
  destruct (same_frame_Some _ _ _ _ Hframe Hx) as (y & Hy & [= Hf _ _]).
  destruct (link_sources_ok sources) as (_ & Hg & _).
  destruct (gg_modules _ _ Hg id y Hy) as (m & Hm & [Hmn _ _ _]).
  exists id, m. split; [exact Hm|]. congruence.
Qed.

(** The modules of a source can be found whatever hash they carry. *)
Lemma found_module s name g :
  (N.of_nat (length sources) ≤ u32_max)%N → s ∈ sources → source_module s = Some name →
  (∀ m, rm_name (g m) = rm_name m) →
  is_Some (List.find (λ m, bool_decide (rm_name m = name)) (module_list (g <$> lk_modules (link_sources sources)))).
Proof.
  intros Hmax Hs Hn Hg. destruct (linked_module _ _ Hmax Hs Hn) as (id & m & Hm & Hname).
  destruct (List.find _ _) eqn:E; [by eexists|].
  assert (g m ∈ module_list (g <$> lk_modules (link_sources sources))) as Hin.
  { unfold module_list. apply list_elem_of_fmap. exists (id, g m). split; [done|]. apply elem_of_id_entries.
    by rewrite lookup_fmap, Hm. }
  apply list_elem_of_In, (find_none _ _ E) in Hin. apply bool_decide_eq_false in Hin. by rewrite Hg in Hin.
Qed.
End package.

(** ** Every source is analysed *)

Lemma analysed_sources {A} (analyze : string → Ast → list named_item → A) sources (modules : module_map) (l : list ModuleSource) s :
  NoDup (src_file <$> l) → s ∈ l →
  (∀ s, s ∈ l → ∃ name, source_module s = Some name ∧
     is_Some (List.find (λ m, bool_decide (rm_name m = name)) (module_list modules))) →
  ∀ analyses : gmap string A, ∃ imports,
    foldl (λ (analyses : gmap string A) s,
      match source_module s with
      | None => analyses
      | Some name =>
          match List.find (λ m, bool_decide (rm_name m = name)) (module_list modules) with
          | None => analyses
          | Some m => <[src_file s := analyze (src_file s) (src_ast s)
                          (visible_imports (definition_items sources modules) m s)]> analyses
          end
      end) analyses l !! src_file s = Some (analyze (src_file s) (src_ast s) imports).
Proof.
  intros Hnd Hs Hall analyses. induction l as [|x l IH] using rev_ind; [by apply elem_of_nil in Hs|].
  rewrite fmap_app in Hnd. apply NoDup_app in Hnd as (Hnd & Hdis & _).
  rewrite foldl_app. cbn. destruct (Hall x) as (name & -> & [m ->]); [set_solver|].
  apply elem_of_app in Hs as [Hs| ->%list_elem_of_singleton].
  - destruct (IH Hnd Hs) as [imports Hi]; [set_solver|]. exists imports. rewrite lookup_insert_ne; [exact Hi|].
    intros Heq. apply (Hdis (src_file s)); [by apply list_elem_of_fmap_2|]. cbn. rewrite Heq. set_solver.
  - eexists. by rewrite lookup_insert_eq.
Qed.

(** C15: in a package analysed without diagnostics, every source has been analysed
    with some imports, without ownership errors, and is well scoped: every
    function body, initializer and pipeline result uses only its parameters,
    variables bound before, and known functions and constructors with the right
    number of arguments, awaits only in asynchronous functions, and has its type
    and the types of all expressions below it recorded. *)
Theorem accepted_package_is_well_scoped sha256 sources p :
  analyze_package sha256 sources = Some p → ma_diagnostics p = [] →
  NoDup (src_file <$> sources) → (N.of_nat (length sources) ≤ u32_max)%N →
  ∀ s, s ∈ sources → ∃ imports,
    ma_source_analyses p !! src_file s = Some (analyze_with_imports (src_file s) (src_ast s) imports) ∧
    analyze_ownership (src_file s) (src_ast s) = [] ∧
    an_async (final (src_file s) (src_ast s) imports) = false ∧
    ∀ item, item ∈ ast_items (src_ast s) → item_ok (final (src_file s) (src_ast s) imports) item.
Proof.
  intros Hp Hd Hnd Hmax s Hs. unfold analyze_modules in Hp. set (sorted := stable_sort source_le sources) in *.
  assert (sorted ≡ₚ sources) as Hperm by apply stable_sort_perm.
  set (l := link_sources sorted) in *. destruct (find_cycle (lk_modules l)) as [found|]; [|done].
  injection Hp as <-. cbn in Hd |- *.
  match type of Hd with stable_sort _ ?k = [] => assert (k = []) as Hk end.
  { by apply (stable_sort_nil diagnostic_le). }
  apply app_nil in Hk as [Hl [_ Hb]%app_nil].
  assert (∀ s, s ∈ sorted → ∃ name, source_module s = Some name ∧
    is_Some (List.find (λ m, bool_decide (rm_name m = name))
      (module_list ((λ m, with_hash (interface_hash sha256 m sorted) m) <$> lk_modules l)))) as Hmod.
  { intros x Hx. destruct (link_sources_ok sorted) as (_ & Hg & _). destruct (gg_diagnostics _ _ Hg) as [k Hk].
    fold l in Hk. rewrite Hl in Hk. cbn in Hk. symmetry in Hk. apply app_nil in Hk as [Hk _].
    destruct (collected_modules _ _ _ x Hk Hx) as [name Hname]. exists name. split; [done|].
    eapply found_module; [|done|done|done]. by rewrite Hperm. }
  destruct (analysed_sources analyze_with_imports sorted
    ((λ m, with_hash (interface_hash sha256 m sorted) m) <$> lk_modules l) sorted s) with (analyses := (∅ : gmap string Analysis))
    as [imports Hi]; [by rewrite Hperm|by rewrite Hperm|exact Hmod|].
  exists imports. split; [exact Hi|].
  destruct (accepted_file_is_well_scoped (src_file s) (src_ast s) imports) as (Ha & Ho & Hok); [|done].
  apply elem_of_entries in Hi. fold (analyze_source_bodies analyze_with_imports sorted
    ((λ m, with_hash (interface_hash sha256 m sorted) m) <$> lk_modules l)) in Hi.
  clear -Hb Hi. induction (entries _) as [|[f x] k IH]; [by apply elem_of_nil in Hi|]. cbn in Hb.
  apply app_nil in Hb as [Hx Hb]. apply elem_of_cons in Hi as [[= <- <-]|Hi]; [exact Hx|by apply IH].
Qed.

(** ** Packages *)

Definition struct_item (name : string) (fields : list (string * string)) : Item :=
  ItemStruct {| sn_public := true; sn_name := name;
                sn_fields := map (λ '(f, ty), {| sf_public := true; sf_name := f; sf_ty := name_type ty;
                                                 sf_span := default_span |}) fields;
                sn_span := default_span |}.

Definition no_hash (s : string) : string := s.

Definition package_codes (sources : list ModuleSource) : option (list string) :=
  (λ p, code <$> ma_diagnostics p) <$> analyze_package no_hash sources.

(** [b::double] is imported by [a] and called there. *)
Definition double_item : Item :=
  ItemFunction {| fnn_attributes := []; fnn_public := true; fnn_asynchronous := false; fnn_name := "double";
                  fnn_parameters := [{| pa_name := "x"; pa_ty := plain "I64"; pa_span := default_span |}];
                  fnn_return_type := Some (plain "I64"); fnn_effects := None;
                  fnn_body := mkBody [statement (sum_of (var "x") (var "x"))]
                                default_span;
                  fnn_span := default_span |}.

Definition calling_item : Item :=
  ItemFunction (i64_to_i64 [statement
    (call "double" [var "x"])]).

Definition good_package : list ModuleSource :=
  [module_source "a.syl" "a" [["b"; "double"]] [calling_item]; module_source "b.syl" "b" [] [double_item]].

Lemma accepted_package_is_well_scoped_witness :
  ∃ s imports, s ∈ good_package ∧ item_ok (final (src_file s) (src_ast s) imports) calling_item.
Proof.
  exists (module_source "a.syl" "a" [["b"; "double"]] [calling_item]). destruct (analyze_package no_hash good_package) as [p|] eqn:E.
  - destruct (accepted_package_is_well_scoped no_hash good_package p E) 
      with (s := module_source "a.syl" "a" [["b"; "double"]] [calling_item]) as (imports & _ & _ & _ & H);
      [| | |by left|exists imports; split; [by left|apply H; by left]].
    + assert (package_codes good_package = Some []) as Hc by (vm_compute; reflexivity).
      unfold package_codes in Hc. rewrite E in Hc. injection Hc as Hc. by apply fmap_nil_inv in Hc.
    + apply (bool_decide_unpack _). vm_compute. exact I.
    + vm_compute. discriminate.
  - assert (is_Some (package_codes good_package)) as [c Hc] by (exists []; vm_compute; reflexivity).
    unfold package_codes in Hc. rewrite E in Hc. discriminate Hc.
Defined.

(** ** Gaps *)

(** A module in two files; the second declares two structs, the first of which has
    a field of the second. *)
Definition user_types : list Item :=
  [struct_item "Account" [("owner", "Person")]; struct_item "Person" [("age", "I64")]].
Definition user_caller : Item := ItemFunction (i64_to_i64 [statement (var "x")]).

(** Programs the analyser accepts although they are ill-typed or partial: a
    [let] whose value contradicts its annotation, a [return] of the wrong type in
    a nested block, a field of a value that is no struct, a body that ends without
    its result, a negated Boolean, a match on an integer without a catch-all, and
    a match whose variant pattern has a refutable field, which leaves
    [Option::some(false)] unmatched.  It rejects [1 + x] while it accepts [x + 1],
    and it rejects a module split over two files whose declarations it accepts in
    one file, because the definitions of the other files are installed in the
    order of their names and resolved at once. *)
Theorem semantic_analysis_gaps :
  reported (i64_to_bool [mkStatement (SLet "b" (Some (name_type "Bool")) (integer 5)) default_span;
                         statement (var "b")]) = [] ∧
  reported (i64_to_bool [statement (block [mkStatement (SReturn (Some (integer 5))) default_span]);
                         statement (boolean true)]) = [] ∧
  reported (i64_to_bool [statement (Ex (EField (var "x") "size") default_span)]) = [] ∧
  reported (i64_to_bool [bind "y" (var "x")]) = [] ∧
  reported (i64_to_bool [statement (Ex (EUnary Negate (boolean true)) default_span)]) = [] ∧
  reported (i64_to_bool [statement (match_on (var "x") [(PkLiteral (LitInteger 1), boolean true)])]) = [] ∧
  (reported (main_with (option_of "Bool") (name_type "Bool") [statement (match_on (var "x") partial_arms)]) = [] ∧
   ¬ matched (arms_of partial_arms) (MvVariant "Option" "some" [MvLiteral (LitBoolean false)])) ∧
  (reported (i64_to_i64 [statement (sum_of (integer 1) (var "x"))]) = ["SYL2101"] ∧
   reported (i64_to_i64 [statement (sum_of (var "x") (integer 1))]) = []) ∧
  (package_codes [module_source "a.syl" "m" [] [user_caller]; module_source "b.syl" "m" [] user_types] = Some ["SYL2002"] ∧
   package_codes [module_source "a.syl" "m" [] (user_caller :: user_types)] = Some []).
Proof.
  split_and!; try (vm_compute; reflexivity).
  intros (arm & Hin & _ & Hm). repeat (apply elem_of_cons in Hin as [->|Hin]; [discriminate Hm|]).
  by apply elem_of_nil in Hin.
Qed.
