(* ===== verification/Lower.v ===== *)
(** * Lowering of the syntax tree (crates/syllog-compiler/src/lower.rs)

    [Lowerer] keeps the state of the struct of the same name; the tree, the
    analysis and the module are arguments.  A [u32] identity that overflows and a
    missing map entry under [\[\]] are Rust panics, recorded in [lw_panicked].
    Scopes are passed by value, as in the analyser: only blocks, parameters and
    patterns write to one. *)

From stdpp Require Import base gmap strings numbers list.
From S2P Require Import Prelude Text Ir Hir Diagnostics Ast Semantic SemanticBodies.
Open Scope string_scope.
Open Scope list_scope.

Definition SOURCE_MODULE : N := 0.
Definition BUILTIN_MODULE : N := u32_max.

Abbreviation id_map := (gmap string DefId).

Record Lowerer := {
  lw_next : N;
  lw_globals : id_map;
  lw_members : id_map;
  lw_diagnostics : list Diagnostic;
  lw_panicked : bool
}.

Definition set_globals (m : id_map) (l : Lowerer) : Lowerer :=
  {| lw_next := lw_next l; lw_globals := m; lw_members := lw_members l; lw_diagnostics := lw_diagnostics l;
     lw_panicked := lw_panicked l |}.
Definition set_members (m : id_map) (l : Lowerer) : Lowerer :=
  {| lw_next := lw_next l; lw_globals := lw_globals l; lw_members := m; lw_diagnostics := lw_diagnostics l;
     lw_panicked := lw_panicked l |}.
Definition lower_panic (l : Lowerer) : Lowerer :=
  {| lw_next := lw_next l; lw_globals := lw_globals l; lw_members := lw_members l;
     lw_diagnostics := lw_diagnostics l; lw_panicked := true |}.

Definition hir_error (span : Span) (text : string) : Diagnostic :=
  {| code := "SYL3001"; severity := SeverityError; message := Text text; Diagnostics.file := "<hir>";
     diagnostic_span := span |}.

Definition push_hir_error (span : Span) (text : string) (l : Lowerer) : Lowerer :=
  {| lw_next := lw_next l; lw_globals := lw_globals l; lw_members := lw_members l;
     lw_diagnostics := lw_diagnostics l ++ [hir_error span text]; lw_panicked := lw_panicked l |}.

(** ** Helpers *)

Definition expression_name (e : Expr) : option string :=
  match ex_kind e with
  | ELiteral (LitIdentifier name) => Some name
  | EPath path => last path
  | _ => None
  end.

Definition named_type (ty : ResolvedType) : option string :=
  match ty with RtStruct name | RtState name => Some name | _ => None end.

Definition primitive (name : string) : ResolvedType :=
  if one_of name ["Bool"] then RtPrimitive PrimBool
  else if one_of name ["String"] then RtPrimitive PrimString
  else if one_of name ["Str"] then RtPrimitive PrimStr
  else if one_of name ["Char"] then RtPrimitive PrimChar
  else if one_of name ["Bytes"] then RtPrimitive PrimBytes
  else if one_of name ["Duration"] then RtPrimitive PrimDuration
  else if one_of name ["Size"] then RtPrimitive PrimSize
  else if one_of name ["AgentRef"] then RtPrimitive PrimAgentRef
  else if one_of name ["Provider"] then RtPrimitive PrimProvider
  else if one_of name ["Text"] then RtPrimitive PrimText
  else if starts_with "I" name then RtPrimitive (PrimSigned name)
  else if starts_with "U" name then RtPrimitive (PrimUnsigned name)
  else if starts_with "F" name then RtPrimitive (PrimFloat name)
  else RtError.

Definition builtin_definition (name : string) : option DefId :=
  if one_of name ["Option::some"] then Some {| module := BUILTIN_MODULE; index := 0 |}
  else if one_of name ["Option::none"] then Some {| module := BUILTIN_MODULE; index := 1 |}
  else if one_of name ["Result::ok"] then Some {| module := BUILTIN_MODULE; index := 2 |}
  else if one_of name ["Result::err"] then Some {| module := BUILTIN_MODULE; index := 3 |}
  else None.

Definition lower_effects (effects : option (list EffectNode)) : option (list string) :=
  map ef_name <$> effects.

Definition has_attribute (f : FunctionNode) (name : string) : bool :=
  existsb (λ x, bool_decide (at_name x = name)) (fnn_attributes f).

(** The types of [symbols]; no state. *)
Fixpoint lower_type (symbols : SymbolTable) (node : TypeNode) : ResolvedType :=
  match node with
  | mkType kind _ =>
      match kind with
      | TkReference lifetime mutable inner => RtReference lifetime mutable (lower_type symbols inner)
      | TkArray inner => RtArray (lower_type symbols inner)
      | TkTuple [] => RtUnit
      | TkTuple items => RtTuple (map (lower_type symbols) items)
      | TkPath [name] arguments =>
          let named := match sym_types symbols !! name with
                       | None => RtError
                       | Some s => match ts_kind s with
                                   | SymPrimitive => primitive name
                                   | SymStruct => RtStruct name
                                   | SymEnum => RtEnum name
                                   | SymState => RtState name
                                   | SymGeneric _ => RtError
                                   end
                       end in
          match arguments with
          | [x] => if bool_decide (name = "Option") then RtOption (lower_type symbols x) else named
          | [x; y] => if bool_decide (name = "Result") then RtResult (lower_type symbols x) (lower_type symbols y) else named
          | _ => named
          end
      | TkPath _ _ => RtError
      end
  end.

Fixpoint fallback_expression_type (e : Expr) (scope : id_map) : ResolvedType :=
  match e with
  | Ex kind _ =>
      match kind with
      | EBorrow mutable operand => RtReference None mutable (fallback_expression_type operand scope)
      | EAwait operand => fallback_expression_type operand scope
      | ELiteral (LitIdentifier name) => if bool_decide (is_Some (scope !! name)) then RtUnknown else RtError
      | EPath [enum_name; _] => RtEnum enum_name
      | _ => RtError
      end
  end.

Section lowering.
Context (module : N) (symbols : SymbolTable) (expression_types : gmap Span ResolvedType).

Definition allocate (l : Lowerer) : DefId * Lowerer :=
  ({| Ir.module := module; index := lw_next l |},
   {| lw_next := lw_next l + 1; lw_globals := lw_globals l; lw_members := lw_members l;
      lw_diagnostics := lw_diagnostics l; lw_panicked := lw_panicked l || bool_decide (lw_next l = u32_max) |}).

(** [map\[&key\]] *)
Definition index_or_panic (m : id_map) (key : string) (l : Lowerer) : DefId * Lowerer :=
  match m !! key with
  | Some id => (id, l)
  | None => ({| Ir.module := 0; index := 0 |}, lower_panic l)
  end.

(** ** Identities of declarations and members *)

Definition index_global (l : Lowerer) (item : Item) : Lowerer :=
  match lw_globals l !! item_name item with
  | Some _ => l
  | None => let '(id, l) := allocate l in set_globals (<[item_name item := id]> (lw_globals l)) l
  end.

Definition index_globals (items : list Item) (l : Lowerer) : Lowerer := foldl index_global l items.

Definition field_key (owner name : string) : string := owner +:+ "." +:+ name.
Definition variant_key (owner name : string) : string := owner +:+ "::" +:+ name.

Definition member_keys (item : Item) : list string :=
  match item with
  | ItemStruct n => map (λ f, field_key (sn_name n) (sf_name f)) (sn_fields n)
  | ItemEnum n => map (λ v, variant_key (en_name n) (ev_name v)) (en_variants n)
  | ItemState n => map (λ f, field_key (stn_name n) (stf_name f)) (stn_fields n)
  | _ => []
  end.

Definition index_member (l : Lowerer) (key : string) : Lowerer :=
  match lw_members l !! key with
  | Some _ => l
  | None => let '(id, l) := allocate l in set_members (<[key := id]> (lw_members l)) l
  end.

Definition index_members (items : list Item) (l : Lowerer) : Lowerer :=
  foldl (λ l item, foldl index_member l (member_keys item)) l items.

(** ** Names *)

Definition resolve_value (name : string) (scope : id_map) (span : Span) (l : Lowerer) : option DefId * Lowerer :=
  match scope !! name with
  | Some id => (Some id, l)
  | None => match lw_globals l !! name with
            | Some id => (Some id, l)
            | None => (None, push_hir_error span ("unresolved HIR value '" +:+ name +:+ "'") l)
            end
  end.

Definition resolve_member (name : string) (span : Span) (l : Lowerer) : DefId * Lowerer :=
  match lw_members l !! name with
  | Some id => (id, l)
  | None => match builtin_definition name with
            | Some id => (id, l)
            | None => ({| Ir.module := BUILTIN_MODULE; index := u32_max |},
                       push_hir_error span ("unresolved HIR member '" +:+ name +:+ "'") l)
            end
  end.

(** ** Patterns, expressions and blocks *)

(** A list of patterns, with the scope the earlier ones have extended. *)
Definition lower_fields (lower : Pattern → id_map → Lowerer → HirPattern * id_map * Lowerer)
    : list Pattern → id_map → Lowerer → list HirPattern * id_map * Lowerer :=
  fix go fields scope l :=
    match fields with
    | [] => ([], scope, l)
    | p :: fields =>
        let '(h, scope, l) := lower p scope l in
        let '(hs, scope, l) := go fields scope l in (h :: hs, scope, l)
    end.

Fixpoint lower_pattern (p : Pattern) (scope : id_map) (l : Lowerer) : HirPattern * id_map * Lowerer :=
  match p with
  | mkPattern kind span =>
      match kind with
      | PkWildcard => (PatWildcard, scope, l)
      | PkLiteral literal => (PatLiteral literal, scope, l)
      | PkPath [name] => let '(id, l) := allocate l in (PatBinding id, <[name := id]> scope, l)
      | PkPath path => let '(id, l) := resolve_member (join "::" path) span l in (PatVariant id [], scope, l)
      | PkConstructor path fields =>
          let '(id, l) := resolve_member (join "::" path) span l in
          let '(hs, scope, l) := lower_fields lower_pattern fields scope l in (PatVariant id hs, scope, l)
      end
  end.

Section expressions.
Context (lower : Expr → id_map → Lowerer → TypedExpr * Lowerer).

Definition lower_optional (e : option Expr) (scope : id_map) (l : Lowerer) : option TypedExpr * Lowerer :=
  match e with
  | None => (None, l)
  | Some e => let '(h, l) := lower e scope l in (Some h, l)
  end.

Definition lower_statements : list Statement → id_map → Lowerer → list HirStatement * Lowerer :=
  fix go statements scope l :=
    match statements with
    | [] => ([], l)
    | mkStatement kind _ :: rest =>
        match kind with
        | SLet name ty value =>
            let '(h, l) := lower value scope l in
            let t := match ty with Some ty => lower_type symbols ty | None => expr_ty h end in
            let '(id, l) := allocate l in
            let '(hs, l) := go rest (<[name := id]> scope) l in (HLet id name t h :: hs, l)
        | SReturn value =>
            let '(h, l) := lower_optional value scope l in
            let '(hs, l) := go rest scope l in (HReturn h :: hs, l)
        | SExpression e =>
            let '(h, l) := lower e scope l in
            let '(hs, l) := go rest scope l in (HExpression h :: hs, l)
        end
    end.

Definition lower_block (b : Block) (scope : id_map) (l : Lowerer) : HirBlock * Lowerer :=
  match b with
  | mkBody statements span => let '(hs, l) := lower_statements statements scope l in (mkBlock hs span, l)
  end.

Definition lower_arm (arm : MatchArm) (scope : id_map) (l : Lowerer) : HirMatchArm * Lowerer :=
  match arm with
  | mkMatchArm pattern guard body span =>
      let '(p, arm_scope, l) := lower_pattern pattern scope l in
      let '(g, l) := lower_optional guard arm_scope l in
      let '(b, l) := lower body arm_scope l in (mkArm p g b span, l)
  end.

Definition lower_identifier (name : string) (scope : id_map) (span : Span) (l : Lowerer) : HirExprKind * Lowerer :=
  if bool_decide (name = "none") then (HLiteral (LitIdentifier name), l)
  else
    let '(id, l) := resolve_value name scope span l in
    (match id with Some id => HReference id | None => HLiteral (LitIdentifier name) end, l).

Definition lower_kind (e : Expr) (scope : id_map) (l : Lowerer) : HirExprKind * Lowerer :=
  match e with
  | Ex kind span =>
      match kind with
      | EBorrow mutable operand => let '(h, l) := lower operand scope l in (HBorrow mutable h, l)
      | EAwait operand => let '(h, l) := lower operand scope l in (HAwait h, l)
      | ELiteral (LitIdentifier name) => lower_identifier name scope span l
      | ELiteral literal => (HLiteral literal, l)
      | EPath segments => let '(id, l) := resolve_member (join "::" segments) span l in (HReference id, l)
      | EArray items => let '(hs, l) := map_state (λ x, lower x scope) items l in (HArray hs, l)
      | ECall callee arguments =>
          let '(c, l) := lower callee scope l in
          let '(hs, l) := map_state (λ x, match x with mkArgument _ value _ => lower value scope end) arguments l in
          (HCall c hs, l)
      | EField base name =>
          let '(h, l) := lower base scope l in
          let '(id, l) := resolve_member (field_key (default "<error>" (named_type (expr_ty h))) name) span l in
          (HField h id, l)
      | EUnary operator operand => let '(h, l) := lower operand scope l in (HUnary operator h, l)
      | EBinary operator lhs rhs =>
          let '(x, l) := lower lhs scope l in
          let '(y, l) := lower rhs scope l in (HBinary operator x y, l)
      | EMatch value arms =>
          let '(v, l) := lower value scope l in
          let '(hs, l) := map_state (λ arm, lower_arm arm scope) arms l in (HMatch v hs, l)
      | EBlock block => let '(b, l) := lower_block block scope l in (HBlock b, l)
      end
  end.
End expressions.

Fixpoint lower_expression (e : Expr) (scope : id_map) (l : Lowerer) : TypedExpr * Lowerer :=
  let ty := match expression_types !! ex_span e with
            | Some ty => ty
            | None => fallback_expression_type e scope
            end in
  let '(kind, l) := lower_kind lower_expression e scope l in (mkExpr kind ty (ex_span e), l).

(** ** Declarations *)

Definition lower_parameters : list ParameterNode → id_map → Lowerer → list HirParameter * id_map * Lowerer :=
  fix go parameters scope l :=
    match parameters with
    | [] => ([], scope, l)
    | p :: parameters =>
        let '(id, l) := allocate l in
        let h := {| hp_id := id; hp_name := pa_name p; hp_ty := lower_type symbols (pa_ty p); hp_span := pa_span p |} in
        let '(hs, scope, l) := go parameters (<[pa_name p := id]> scope) l in (h :: hs, scope, l)
    end.

Definition lower_member (owner name : string) (ty : TypeNode) (span : Span) (l : Lowerer) : HirMember * Lowerer :=
  let '(id, l) := index_or_panic (lw_members l) (field_key owner name) l in
  ({| hm_id := id; hm_name := name; hm_ty := lower_type symbols ty; hm_span := span |}, l).

Definition lower_variant (owner : string) (v : EnumVariant) (l : Lowerer) : HirVariant * Lowerer :=
  let '(id, l) := index_or_panic (lw_members l) (variant_key owner (ev_name v)) l in
  ({| hv_id := id; hv_name := ev_name v; hv_fields := map (lower_type symbols) (ev_fields v); hv_span := ev_span v |}, l).

Definition lower_result (ty : option TypeNode) : ResolvedType :=
  match ty with Some ty => lower_type symbols ty | None => RtUnit end.

Definition lower_function (n : FunctionNode) (l : Lowerer) : HirFunction * Lowerer :=
  let '(parameters, scope, l) := lower_parameters (fnn_parameters n) ∅ l in
  let '(body, l) := lower_block lower_expression (fnn_body n) scope l in
  ({| is_test := has_attribute n "test"; asynchronous := fnn_asynchronous n; public := fnn_public n;
      declared_effects := lower_effects (fnn_effects n); hf_parameters := parameters;
      hf_result := lower_result (fnn_return_type n); hf_body := body |}, l).

Definition lower_pipeline (n : PipelineNode) (l : Lowerer) : HirPipeline * Lowerer :=
  let '(parameters, scope, l) := lower_parameters (pn_parameters n) ∅ l in
  let name := property_named (pn_fields n) "agent" ≫= λ p, expression_name (prop_value p) in
  let agent := name ≫= λ name, lw_globals l !! name in
  let '(body, l) := lower_optional lower_expression (prop_value <$> property_named (pn_fields n) "result") scope l in
  ({| pl_parameters := parameters; pl_result := lower_result (pn_return_type n); agent := agent; pl_body := body |}, l).

Definition lower_definition (item : Item) (l : Lowerer) : HirDefinition * Lowerer :=
  let '(id, l) := index_or_panic (lw_globals l) (item_name item) l in
  let '(kind, span, l) :=
    match item with
    | ItemStruct n =>
        let '(fields, l) := map_state (λ f, lower_member (sn_name n) (sf_name f) (sf_ty f) (sf_span f)) (sn_fields n) l in
        (KindStruct fields, sn_span n, l)
    | ItemEnum n =>
        let '(variants, l) := map_state (lower_variant (en_name n)) (en_variants n) l in
        (KindEnum variants, en_span n, l)
    | ItemFunction n => let '(f, l) := lower_function n l in (KindFunction f, fnn_span n, l)
    | ItemState n =>
        let '(fields, l) := map_state (λ f, lower_member (stn_name n) (stf_name f) (stf_ty f) (stf_span f)) (stn_fields n) l in
        (KindState fields, stn_span n, l)
    | ItemAgent n => (KindAgent, ag_span n, l)
    | ItemPipeline n => let '(p, l) := lower_pipeline n l in (KindPipeline p, pn_span n, l)
    | ItemSafetyBound n => (KindSafetyBound, sb_span n, l)
    end in
  ({| hd_id := id; hd_name := item_name item; hd_kind := kind; hd_span := span |}, l).

(** [lower_module]; [None] is a panic. *)
Definition lower_module (ast : Ast) (l : Lowerer) : option (result (HirModule * option DefId * N) (list Diagnostic)) :=
  let l := index_members (ast_items ast) (index_globals (ast_items ast) l) in
  let '(definitions, l) := map_state lower_definition (ast_items ast) l in
  let '(entry, l) :=
    if existsb (λ item, bool_decide (item_name item = "main")) (ast_items ast)
    then let '(id, l) := index_or_panic (lw_globals l) "main" l in (Some id, l) else (None, l) in
  if lw_panicked l then None
  else Some (match lw_diagnostics l with
             | [] => Ok ({| hm_module := module; definitions := definitions |}, entry, lw_next l)
             | _ => Err (lw_diagnostics l)
             end).
End lowering.

Definition lowerer_planned (globals members : id_map) (next_definition : N) : Lowerer :=
  {| lw_next := next_definition; lw_globals := globals; lw_members := members; lw_diagnostics := [];
     lw_panicked := false |}.

Definition lowerer_new : Lowerer := lowerer_planned ∅ ∅ 0.

Definition lower_module_to_hir (ast : Ast) (analysis : Analysis) (module : N) (globals members : id_map)
    (next_definition : N) : option (result (HirModule * option DefId * N) (list Diagnostic)) :=
  lower_module module (analysis_symbols analysis) (analysis_expression_types analysis) ast
    (lowerer_planned globals members next_definition).

Definition lower (ast : Ast) (analysis : Analysis) : option (result HirProgram (list Diagnostic)) :=
  match lower_module SOURCE_MODULE (analysis_symbols analysis) (analysis_expression_types analysis) ast lowerer_new with
  | None => None
  | Some (Err ds) => Some (Err ds)
  | Some (Ok (m, entry, _)) => Some (Ok {| schema_version := 1; modules := [m]; hir_entry := entry |})
  end.

#[export] Instance type_symbol_kind_eq_dec : EqDecision TypeSymbolKind.
Proof. solve_decision. Defined.
#[export] Instance type_symbol_eq_dec : EqDecision TypeSymbol.
Proof. solve_decision. Defined.
#[export] Instance value_symbol_kind_eq_dec : EqDecision ValueSymbolKind.
Proof. solve_decision. Defined.
#[export] Instance value_symbol_eq_dec : EqDecision ValueSymbol.
Proof. solve_decision. Defined.
#[export] Instance symbol_table_eq_dec : EqDecision SymbolTable.
Proof. solve_decision. Defined.

Definition lower_to_hir (ast : Ast) (symbols : SymbolTable) : option (result HirProgram (list Diagnostic)) :=
  let analysis := analyze "<hir>" ast in
  match analysis_diagnostics analysis with
  | [] =>
      if bool_decide (analysis_symbols analysis = symbols) then lower ast analysis
      else Some (Err [hir_error (ast_span ast) "symbol table does not belong to the supplied syntax tree"])
  | ds => Some (Err ds)
  end.
