(* ===== verification/LowerNames.v ===== *)
(** * Lowering: names and identities

    The nameless reading of a syntax tree and of HIR: a use of a local variable is
    the distance to its binder, and declarations, variants and fields keep their
    names.  A tree read with the names in scope and the HIR made from it read with
    the identities in scope are the same, so every reference of the HIR denotes
    the binding the name had in the source. *)

From stdpp Require Import base gmap strings numbers list.
From S2P Require Import Prelude Text Ir Hir Diagnostics Ast Semantic SemanticBodies Lower.
Open Scope string_scope.
Open Scope list_scope.

(** ** Nameless trees *)

Inductive PatternTree :=
| PtWildcard
| PtLiteral (l : Literal)
| PtBinding
| PtVariant (name : string) (fields : list PatternTree).

Inductive Label :=
| LbBorrow (mutable : bool) | LbAwait | LbLiteral (l : Literal)
| LbLocal (distance : nat) | LbGlobal (name : string) | LbMember (name : string)
| LbArray | LbCall | LbField (name : string) | LbUnary (operator : UnaryOperator)
| LbBinary (operator : BinaryOperator) | LbMatch | LbArm (p : PatternTree) (guarded : bool) | LbBlock
| LbLet (name : string) | LbReturn | LbExpression.

(** A node carries the span of the source where HIR keeps it. *)
Inductive Tree := Node (label : Label) (span : option Span) (children : list Tree).

Section position.
Context `{EqDecision A}.
Fixpoint distance (x : A) (l : list A) : option nat :=
  match l with
  | [] => None
  | y :: l => if decide (x = y) then Some 0%nat else S <$> distance x l
  end.

Lemma distance_lookup x l i : distance x l = Some i → l !! i = Some x.
Proof.
  revert i. induction l as [|y l IH]; intros i; cbn; [done|]. destruct (decide (x = y)) as [->|]; [by intros [= <-]|].
  destruct (distance x l); cbn; [|done]. intros [= <-]. by apply IH.
Qed.

Lemma lookup_distance x l i : NoDup l → l !! i = Some x → distance x l = Some i.
Proof.
  intros Hnd. revert i. induction Hnd as [|y l Hy _ IH]; intros i Hi; [done|]. cbn. destruct i as [|i].
  - injection Hi as ->. by rewrite decide_True.
  - rewrite decide_False; [by rewrite (IH i Hi)|]. intros ->. apply Hy. by eapply list_elem_of_lookup_2.
Qed.

Lemma distance_None x l : x ∉ l → distance x l = None.
Proof.
  induction l as [|y l IH]; [done|]. rewrite not_elem_of_cons. intros [H1 H2]. cbn.
  by rewrite decide_False, IH.
Qed.
End position.

(** *** The source *)

Fixpoint pattern_binders (p : Pattern) : list string :=
  match p with
  | mkPattern kind _ =>
      match kind with
      | PkPath [name] => [name]
      | PkConstructor _ fields => flat_map pattern_binders fields
      | _ => []
      end
  end.

Fixpoint pattern_tree (p : Pattern) : PatternTree :=
  match p with
  | mkPattern kind _ =>
      match kind with
      | PkWildcard => PtWildcard
      | PkLiteral l => PtLiteral l
      | PkPath [_] => PtBinding
      | PkPath path => PtVariant (join "::" path) []
      | PkConstructor path fields => PtVariant (join "::" path) (map pattern_tree fields)
      end
  end.

Definition name_label (env : list string) (name : string) : Label :=
  if bool_decide (name = "none") then LbLiteral (LitIdentifier name)
  else match distance name env with Some i => LbLocal i | None => LbGlobal name end.

Section source.
Context (expression_types : gmap Span ResolvedType).

(** The type a field is looked up in: the one recorded for the base. *)
Definition field_owner (base : Expr) : string :=
  default "<error>" (expression_types !! ex_span base ≫= named_type).

Section statements.
Context (tree : list string → Expr → Tree).

Definition optional_tree (env : list string) (e : option Expr) : list Tree :=
  match e with Some e => [tree env e] | None => [] end.

Definition statement_trees : list string → list Statement → list Tree :=
  fix go env l :=
    match l with
    | [] => []
    | mkStatement kind _ :: l =>
        match kind with
        | SLet name _ value => Node (LbLet name) None [tree env value] :: go (name :: env) l
        | SReturn value => Node LbReturn None (optional_tree env value) :: go env l
        | SExpression e => Node LbExpression None [tree env e] :: go env l
        end
    end.

Definition arm_tree (env : list string) (arm : MatchArm) : Tree :=
  match arm with
  | mkMatchArm p guard body span =>
      let env := rev (pattern_binders p) ++ env in
      Node (LbArm (pattern_tree p) (bool_decide (is_Some guard))) (Some span) (optional_tree env guard ++ [tree env body])
  end.
End statements.

Fixpoint source_tree (env : list string) (e : Expr) : Tree :=
  match e with
  | Ex kind span =>
      let node label children := Node label (Some span) children in
      match kind with
      | EBorrow m o => node (LbBorrow m) [source_tree env o]
      | EAwait o => node LbAwait [source_tree env o]
      | ELiteral (LitIdentifier name) => node (name_label env name) []
      | ELiteral l => node (LbLiteral l) []
      | EPath segments => node (LbMember (join "::" segments)) []
      | EArray items => node LbArray (map (source_tree env) items)
      | ECall callee arguments =>
          node LbCall (source_tree env callee ::
            map (λ x, match x with mkArgument _ value _ => source_tree env value end) arguments)
      | EField base name => node (LbField (field_key (field_owner base) name)) [source_tree env base]
      | EUnary op o => node (LbUnary op) [source_tree env o]
      | EBinary op x y => node (LbBinary op) [source_tree env x; source_tree env y]
      | EMatch value arms => node LbMatch (source_tree env value :: map (arm_tree source_tree env) arms)
      | EBlock (mkBody l s) => node LbBlock [Node LbBlock (Some s) (statement_trees source_tree env l)]
      end
  end.

Definition body_tree (env : list string) (b : Block) : list Tree := statement_trees source_tree env (body_statements b).
End source.

(** *** HIR *)

(** What the identities of a program stand for. *)
Record NameTable := { nt_global : DefId → option string; nt_member : DefId → option string }.

Section hir.
Context (t : NameTable).

Definition id_name (names : DefId → option string) (id : DefId) : string := default "" (names id).

Fixpoint hir_pattern_binders (p : HirPattern) : list DefId :=
  match p with
  | PatBinding id => [id]
  | PatVariant _ fields => flat_map hir_pattern_binders fields
  | _ => []
  end.

Fixpoint hir_pattern_tree (p : HirPattern) : PatternTree :=
  match p with
  | PatWildcard => PtWildcard
  | PatLiteral l => PtLiteral l
  | PatBinding _ => PtBinding
  | PatVariant id fields => PtVariant (id_name (nt_member t) id) (map hir_pattern_tree fields)
  end.

Definition id_label (env : list DefId) (id : DefId) : Label :=
  match distance id env with
  | Some i => LbLocal i
  | None => match nt_global t id with
            | Some name => LbGlobal name
            | None => LbMember (id_name (nt_member t) id)
            end
  end.

Section statements.
Context (tree : list DefId → TypedExpr → Tree).

Definition hir_optional_tree (env : list DefId) (e : option TypedExpr) : list Tree :=
  match e with Some e => [tree env e] | None => [] end.

Definition hir_statement_trees : list DefId → list HirStatement → list Tree :=
  fix go env l :=
    match l with
    | [] => []
    | HLet id name _ value :: l => Node (LbLet name) None [tree env value] :: go (id :: env) l
    | HReturn value :: l => Node LbReturn None (hir_optional_tree env value) :: go env l
    | HExpression e :: l => Node LbExpression None [tree env e] :: go env l
    end.

Definition hir_arm_tree (env : list DefId) (arm : HirMatchArm) : Tree :=
  match arm with
  | mkArm p guard body span =>
      let env := rev (hir_pattern_binders p) ++ env in
      Node (LbArm (hir_pattern_tree p) (bool_decide (is_Some guard))) (Some span)
        (hir_optional_tree env guard ++ [tree env body])
  end.
End statements.

Fixpoint hir_tree (env : list DefId) (h : TypedExpr) : Tree :=
  match h with
  | mkExpr kind _ span =>
      let node label children := Node label (Some span) children in
      match kind with
      | HBorrow m o => node (LbBorrow m) [hir_tree env o]
      | HAwait o => node LbAwait [hir_tree env o]
      | HLiteral l => node (LbLiteral l) []
      | HReference id => node (id_label env id) []
      | HArray items => node LbArray (map (hir_tree env) items)
      | HCall callee arguments => node LbCall (hir_tree env callee :: map (hir_tree env) arguments)
      | HField base id => node (LbField (id_name (nt_member t) id)) [hir_tree env base]
      | HUnary op o => node (LbUnary op) [hir_tree env o]
      | HBinary op x y => node (LbBinary op) [hir_tree env x; hir_tree env y]
      | HMatch value arms => node LbMatch (hir_tree env value :: map (hir_arm_tree hir_tree env) arms)
      | HBlock (mkBlock l s) => node LbBlock [Node LbBlock (Some s) (hir_statement_trees hir_tree env l)]
      end
  end.

Definition hir_body_tree (env : list DefId) (b : HirBlock) : list Tree :=
  hir_statement_trees hir_tree env (block_statements b).
End hir.
