(* ===== verification/LowerTheorems.v ===== *)
(** * Lowering: the trees agree

    The state of the lowerer only grows; the scope of names and the list of
    identities in scope stay in step; and a lowering that reports nothing yields
    HIR with the nameless tree of its source. *)

From stdpp Require Import base gmap strings numbers list.
From S2P Require Import Prelude Text Ir Hir Diagnostics Ast Semantic SemanticBodies Lower LowerNames.
Open Scope string_scope.
Open Scope list_scope.

(** ** Growth *)

Record lower_ext (l l' : Lowerer) : Prop := {
  le_globals : lw_globals l' = lw_globals l;
  le_members : lw_members l' = lw_members l;
  le_next : (lw_next l ≤ lw_next l')%N;
  le_diagnostics : lw_diagnostics l `prefix_of` lw_diagnostics l';
  le_panicked : lw_panicked l' = true → lw_panicked l = true ∨ (u32_max < lw_next l')%N
}.

#[export] Instance lower_ext_preorder : PreOrder lower_ext.
Proof.
  split; [by intros l; split; auto|]. intros a b c [] []. split; [congruence|congruence|lia|by etrans|].
  intros [Hb|?]%le_panicked1; [apply le_panicked0 in Hb as [|]; [by left|right; lia]|by right].
Qed.

(** [lowered l l' P]: the state went from [l] to [l'], and [P] holds unless a
    diagnostic was reported on the way. *)
Record lowered (l l' : Lowerer) (P : Prop) : Prop := {
  ld_ext : lower_ext l l';
  ld_holds : lw_diagnostics l' = lw_diagnostics l → P
}.

Lemma lowered_refl l (P : Prop) : P → lowered l l P.
Proof. by split. Qed.

Lemma lowered_weaken l l' (P Q : Prop) : lowered l l' P → (P → Q) → lowered l l' Q.
Proof. intros [H HP] HQ. split; auto. Qed.

Lemma lowered_trans a b c P Q : lowered a b P → lowered b c Q → lowered a c (P ∧ Q).
Proof.
  intros [H1 P1] [H2 P2]. split; [by etrans|]. intros Hs.
  destruct (le_diagnostics _ _ H1) as [k1 E1], (le_diagnostics _ _ H2) as [k2 E2].
  assert (k1 = [] ∧ k2 = []) as [-> ->].
  { rewrite E1, Hs, <-app_assoc in E2. rewrite <-(app_nil_r (lw_diagnostics a)) in E2 at 1.
    apply app_inv_head in E2. symmetry in E2. by apply app_nil in E2. }
  rewrite app_nil_r in E1, E2. auto.
Qed.

Lemma push_hir_error_lowered span text l P : lowered l (push_hir_error span text l) P.
Proof.
  split; [split; cbn; try done; [by eexists|auto]|]. cbn. intros H. apply (f_equal length) in H.
  rewrite length_app in H. cbn in H. lia.
Qed.

Section trees.
Context (module base : N) (t : NameTable) (symbols : SymbolTable) (expression_types : gmap Span ResolvedType).

(** Identities given out after the declarations and members got theirs. *)
Definition local_id (id : DefId) : Prop := Ir.module id = module ∧ (base ≤ index id)%N.

Record table_ok (l : Lowerer) : Prop := {
  to_base : (base ≤ lw_next l)%N;
  to_globals : ∀ x id, lw_globals l !! x = Some id → ¬ local_id id ∧ nt_global t id = Some x;
  to_members : ∀ k id, lw_members l !! k = Some id → ¬ local_id id ∧ nt_global t id = None ∧ nt_member t id = Some k;
  to_builtin : ∀ k id, lw_members l !! k = None → builtin_definition k = Some id →
    ¬ local_id id ∧ nt_global t id = None ∧ nt_member t id = Some k
}.

Lemma table_ok_ext l l' : lower_ext l l' → table_ok l → table_ok l'.
Proof.
  intros [Hg Hm Hn _ _] [H1 H2 H3 H4]. split; [lia|rewrite Hg; done|rewrite Hm; done|rewrite Hm; done].
Qed.

(** The scope, the names bound and the identities bound agree. *)
Record env_ok (scope : id_map) (names : list string) (ids : list DefId) (next : N) : Prop := {
  eo_length : length names = length ids;
  eo_scope : ∀ x, scope !! x = distance x names ≫= λ i, ids !! i;
  eo_nodup : NoDup ids;
  eo_local : ∀ id, id ∈ ids → local_id id ∧ (index id < next)%N
}.

Lemma env_ok_le scope names ids n n' : env_ok scope names ids n → (n ≤ n')%N → env_ok scope names ids n'.
Proof. intros [] Hn. split; try done. intros id [? ?]%eo_local0. split; [done|lia]. Qed.

Lemma env_ok_empty n : env_ok ∅ [] [] n.
Proof. split; [done|done|constructor|]. by intros id ?%not_elem_of_nil. Qed.

Lemma env_ok_bind scope names ids n x :
  (base ≤ n)%N → env_ok scope names ids n →
  env_ok (<[x := {| Ir.module := module; index := n |}]> scope) (x :: names) ({| Ir.module := module; index := n |} :: ids) (n + 1).
Proof.
  intros Hb [H1 H2 H3 H4]. split; cbn.
  - by rewrite H1.
  - intros y. destruct (decide (y = x)) as [->|Hne]; [by rewrite lookup_insert_eq|].
    rewrite lookup_insert_ne, H2 by done. by destruct (distance y names).
  - constructor; [|done]. intros [_ Hlt]%H4. cbn in Hlt. lia.
  - intros id [->|Hin]%elem_of_cons; [split; [by split|cbn; lia]|]. destruct (H4 _ Hin). split; [done|lia].
Qed.

Lemma scope_bound scope names ids n x id :
  env_ok scope names ids n → scope !! x = Some id → ∃ i, distance x names = Some i ∧ distance id ids = Some i.
Proof.
  intros [_ H2 H3 _] Hx. rewrite H2 in Hx. destruct (distance x names) as [i|]; [|done]. cbn in Hx.
  exists i. split; [done|]. by apply lookup_distance.
Qed.

Lemma scope_free scope names ids n x : env_ok scope names ids n → scope !! x = None → distance x names = None.
Proof.
  intros [H1 H2 _ _] Hx. rewrite H2 in Hx. destruct (distance x names) as [i|] eqn:E; [|done]. cbn in Hx.
  apply distance_lookup, lookup_lt_Some in E. apply lookup_ge_None in Hx. lia.
Qed.

Lemma not_local_distance scope names ids n id : env_ok scope names ids n → ¬ local_id id → distance id ids = None.
Proof. intros H Hid. apply distance_None. intros [? _]%(eo_local _ _ _ _ H). done. Qed.

Lemma allocate_ext l : lower_ext l (allocate module l).2.
Proof.
  split; cbn; try done; [lia|]. intros [|Hm]%orb_true_iff; [by left|]. apply bool_decide_eq_true in Hm. right. lia.
Qed.

(** ** Names *)

Lemma resolve_member_lowered name span l id l' :
  table_ok l → resolve_member name span l = (id, l') →
  lowered l l' (¬ local_id id ∧ nt_global t id = None ∧ nt_member t id = Some name).
Proof.
  intros Ht. unfold resolve_member. destruct (lw_members l !! name) as [i|] eqn:E.
  - intros [= <- <-]. apply lowered_refl. by apply (to_members _ Ht).
  - destruct (builtin_definition name) as [i|] eqn:Eb; intros [= <- <-]; [|apply push_hir_error_lowered].
    apply lowered_refl. by apply (to_builtin _ Ht).
Qed.

Lemma lower_identifier_lowered name scope names ids span l h l' :
  table_ok l → env_ok scope names ids (lw_next l) → lower_identifier name scope span l = (h, l') →
  lowered l l' (∀ ty s, hir_tree t ids (mkExpr h ty s) = Node (name_label names name) (Some s) []).
Proof.
  intros Ht Henv. unfold lower_identifier, name_label, resolve_value. case_bool_decide as Hn.
  { intros [= <- <-]. by apply lowered_refl. }
  destruct (scope !! name) as [id|] eqn:Es.
  { intros [= <- <-]. apply lowered_refl. intros ty s. cbn. unfold id_label.
    destruct (scope_bound _ _ _ _ _ _ Henv Es) as (i & -> & ->). done. }
  rewrite (scope_free _ _ _ _ _ Henv Es).
  destruct (lw_globals l !! name) as [id|] eqn:Eg; intros [= <- <-]; [|apply push_hir_error_lowered].
  apply lowered_refl. intros ty s. cbn. unfold id_label. destruct (to_globals _ Ht _ _ Eg) as [Hl ->].
  by rewrite (not_local_distance _ _ _ _ _ Henv Hl).
Qed.

(** ** Patterns *)

Definition lowers_pattern (p : Pattern) : Prop :=
  ∀ scope names ids l h scope' l', lower_pattern module p scope l = (h, scope', l') →
    table_ok l → env_ok scope names ids (lw_next l) →
    env_ok scope' (rev (pattern_binders p) ++ names) (rev (hir_pattern_binders h) ++ ids) (lw_next l') ∧
    lowered l l' (hir_pattern_tree t h = pattern_tree p).

Lemma lower_fields_lowered fields :
  Forall lowers_pattern fields →
  ∀ scope names ids l hs scope' l', lower_fields (lower_pattern module) fields scope l = (hs, scope', l') →
    table_ok l → env_ok scope names ids (lw_next l) →
    env_ok scope' (rev (flat_map pattern_binders fields) ++ names) (rev (flat_map hir_pattern_binders hs) ++ ids) (lw_next l') ∧
    lowered l l' (map (hir_pattern_tree t) hs = map pattern_tree fields).
Proof.
  induction 1 as [|p fields Hp _ IH]; intros scope names ids l hs scope' l'; cbn.
  { intros [= <- <- <-] Ht Henv. split; [done|by apply lowered_refl]. }
  destruct (lower_pattern module p scope l) as [[h scope1] l1] eqn:E1.
  destruct (lower_fields (lower_pattern module) fields scope1 l1) as [[hs1 scope2] l2] eqn:E2. intros [= <- <- <-] Ht Henv.
  destruct (Hp _ _ _ _ _ _ _ E1 Ht Henv) as [Henv1 H1].
  destruct (IH _ _ _ _ _ _ _ E2 (table_ok_ext _ _ (ld_ext _ _ _ H1) Ht) Henv1) as [Henv2 H2].
  cbn. rewrite !rev_app_distr, <-!app_assoc. split; [done|].
  eapply lowered_weaken; [exact (lowered_trans _ _ _ _ _ H1 H2)|]. by intros [-> ->].
Qed.

Lemma lower_pattern_lowered p : lowers_pattern p.
Proof.
  revert p. fix IH 1. intros [kind span] scope names ids l h scope' l'.
  assert (∀ name, (let '(id, l) := resolve_member name span l in (PatVariant id [], scope, l)) = (h, scope', l') →
    table_ok l → env_ok scope names ids (lw_next l) →
    env_ok scope' names (rev (hir_pattern_binders h) ++ ids) (lw_next l') ∧
    lowered l l' (hir_pattern_tree t h = PtVariant name [])) as Hvar.
  { intros name. destruct (resolve_member name span l) as [id l1] eqn:E. intros [= <- <- <-] Ht Henv.
    pose proof (resolve_member_lowered _ _ _ _ _ Ht E) as H1. cbn.
    split; [eapply env_ok_le; [done|apply (le_next _ _ (ld_ext _ _ _ H1))]|].
    eapply lowered_weaken; [exact H1|]. intros (_ & _ & Hm). unfold id_name. by rewrite Hm. }
  destruct kind as [|path|path fields|literal]; cbn [lower_pattern pattern_binders pattern_tree].
  - intros [= <- <- <-] Ht Henv. split; [done|by apply lowered_refl].
  - destruct path as [|name [|]]; [apply Hvar| |apply Hvar]. intros [= <- <- <-] Ht Henv. cbn.
    split; [by apply env_ok_bind; [apply to_base|]|]. split; [apply (allocate_ext l)|done].
  - destruct (resolve_member (join "::" path) span l) as [id l1] eqn:E1.
    destruct (lower_fields (lower_pattern module) fields scope l1) as [[hs scope2] l2] eqn:E2. intros [= <- <- <-] Ht Henv.
    pose proof (resolve_member_lowered _ _ _ _ _ Ht E1) as H1.
    assert (Forall lowers_pattern fields) as Hf.
    { clear -IH. induction fields as [|f fields IHf]; constructor; [apply IH|apply IHf]. }
    destruct (lower_fields_lowered _ Hf _ _ _ _ _ _ _ E2 (table_ok_ext _ _ (ld_ext _ _ _ H1) Ht)
      (env_ok_le _ _ _ _ _ Henv (le_next _ _ (ld_ext _ _ _ H1)))) as [Henv2 H2].
    split; [done|]. eapply lowered_weaken; [exact (lowered_trans _ _ _ _ _ H1 H2)|].
    intros [(_ & _ & Hm) Hfields]. cbn. unfold id_name. by rewrite Hm, Hfields.
  - intros [= <- <- <-] Ht Henv. split; [done|by apply lowered_refl].
Qed.

(** ** Expressions *)

Abbreviation lower_expr := (lower_expression module symbols expression_types).

Definition lowers (e : Expr) : Prop :=
  ∀ scope names ids l h l', lower_expr e scope l = (h, l') →
    table_ok l → env_ok scope names ids (lw_next l) →
    lowered l l' (hir_tree t ids h = source_tree expression_types names e).

(** [lowers] from the state the scope was made in on. *)
Lemma lowers_later e scope names ids n l h l' :
  lowers e → lower_expr e scope l = (h, l') → table_ok l → env_ok scope names ids n → (n ≤ lw_next l)%N →
  lowered l l' (hir_tree t ids h = source_tree expression_types names e).
Proof. intros He E Ht Henv Hn. eapply He; [done|done|]. by eapply env_ok_le. Qed.

Lemma map_state_lowered {X Y Z} (g : X → Lowerer → Y * Lowerer) (f1 : Y → Z) (f2 : X → Z) n items :
  Forall (λ x, ∀ l y l', g x l = (y, l') → table_ok l → (n ≤ lw_next l)%N → lowered l l' (f1 y = f2 x)) items →
  ∀ l ys l', map_state g items l = (ys, l') → table_ok l → (n ≤ lw_next l)%N →
    lowered l l' (map f1 ys = map f2 items).
Proof.
  induction 1 as [|x items Hx _ IH]; intros l ys l'; cbn.
  { intros [= <- <-] Ht Hn. by apply lowered_refl. }
  destruct (g x l) as [y l1] eqn:E1. destruct (map_state g items l1) as [ys1 l2] eqn:E2. intros [= <- <-] Ht Hn.
  pose proof (Hx _ _ _ E1 Ht Hn) as H1. pose proof (ld_ext _ _ _ H1) as X1.
  pose proof (IH _ _ _ E2 (table_ok_ext _ _ X1 Ht) (N.le_trans _ _ _ Hn (le_next _ _ X1))) as H2.
  eapply lowered_weaken; [exact (lowered_trans _ _ _ _ _ H1 H2)|]. intros [H3 H4]. cbn. by rewrite H3, H4.
Qed.

Lemma lower_optional_lowered e scope names ids n l h l' :
  Forall lowers (match e with Some e => [e] | None => [] end) → lower_optional lower_expr e scope l = (h, l') →
  table_ok l → env_ok scope names ids n → (n ≤ lw_next l)%N →
  lowered l l' (hir_optional_tree (hir_tree t) ids h = optional_tree (source_tree expression_types) names e ∧
                bool_decide (is_Some h) = bool_decide (is_Some e)).
Proof.
  intros Hf E Ht Henv Hn. destruct e as [e|]; cbn in *; [|injection E as <- <-; by apply lowered_refl].
  apply Forall_inv in Hf. destruct (lower_expr e scope l) as [h1 l1] eqn:E1. injection E as <- <-.
  eapply lowered_weaken; [exact (lowers_later _ _ _ _ _ _ _ _ Hf E1 Ht Henv Hn)|]. intros Hh. cbn. by rewrite Hh.
Qed.

Lemma lower_statements_lowered sts :
  Forall (λ s, Forall lowers (statement_children s)) sts →
  ∀ scope names ids n l hs l', lower_statements module symbols lower_expr sts scope l = (hs, l') →
    table_ok l → env_ok scope names ids n → (n ≤ lw_next l)%N →
    lowered l l' (hir_statement_trees (hir_tree t) ids hs = statement_trees (source_tree expression_types) names sts).
Proof.
  induction 1 as [|[kind sp] sts Hs _ IH]; intros scope names ids n l hs l'; cbn.
  { intros [= <- <-] Ht Henv Hn. by apply lowered_refl. }
  destruct kind as [name ty value|value|value]; cbn in Hs.
  - apply Forall_inv in Hs. destruct (lower_expr value scope l) as [h l1] eqn:E1. cbn.
    match goal with |- context [lower_statements _ _ _ sts ?sc ?la] =>
      destruct (lower_statements module symbols lower_expr sts sc la) as [hs1 l3] eqn:E3 end.
    intros [= <- <-] Ht Henv Hn.
    pose proof (lowers_later _ _ _ _ _ _ _ _ Hs E1 Ht Henv Hn) as H1. pose proof (ld_ext _ _ _ H1) as X1.
    pose proof (table_ok_ext _ _ X1 Ht) as Ht1.
    pose proof (allocate_ext l1) as X2.
    assert (lowered l1 (allocate module l1).2 True) as H2 by by split.
    pose proof (IH _ _ _ _ _ _ _ E3 (table_ok_ext _ _ X2 Ht1)
      (env_ok_bind _ _ _ _ name (to_base _ Ht1)
        (env_ok_le _ _ _ _ _ Henv (N.le_trans _ _ _ Hn (le_next _ _ X1)))) (N.le_refl _)) as H3.
    eapply lowered_weaken; [exact (lowered_trans _ _ _ _ _ H1 (lowered_trans _ _ _ _ _ H2 H3))|].
    intros (Hh & _ & Hrest). cbn. rewrite Hh. f_equal. exact Hrest.
  - destruct (lower_optional lower_expr value scope l) as [h l1] eqn:E1.
    destruct (lower_statements module symbols lower_expr sts scope l1) as [hs1 l2] eqn:E2. intros [= <- <-] Ht Henv Hn.
    assert (Forall lowers (match value with Some e => [e] | None => [] end)) as Hv by by destruct value.
    pose proof (lower_optional_lowered _ _ _ _ _ _ _ _ Hv E1 Ht Henv Hn) as H1. pose proof (ld_ext _ _ _ H1) as X1.
    pose proof (IH _ _ _ _ _ _ _ E2 (table_ok_ext _ _ X1 Ht) Henv (N.le_trans _ _ _ Hn (le_next _ _ X1))) as H2.
    eapply lowered_weaken; [exact (lowered_trans _ _ _ _ _ H1 H2)|]. intros [[Hh _] Hrest]. cbn. rewrite Hh. f_equal. exact Hrest.
  - apply Forall_inv in Hs. destruct (lower_expr value scope l) as [h l1] eqn:E1.
    destruct (lower_statements module symbols lower_expr sts scope l1) as [hs1 l2] eqn:E2. intros [= <- <-] Ht Henv Hn.
    pose proof (lowers_later _ _ _ _ _ _ _ _ Hs E1 Ht Henv Hn) as H1. pose proof (ld_ext _ _ _ H1) as X1.
    pose proof (IH _ _ _ _ _ _ _ E2 (table_ok_ext _ _ X1 Ht) Henv (N.le_trans _ _ _ Hn (le_next _ _ X1))) as H2.
    eapply lowered_weaken; [exact (lowered_trans _ _ _ _ _ H1 H2)|]. intros [Hh Hrest]. cbn. rewrite Hh. f_equal. exact Hrest.
Qed.

Lemma lower_arm_lowered arm scope names ids n l h l' :
  Forall lowers (arm_children arm) → lower_arm module lower_expr arm scope l = (h, l') →
  table_ok l → env_ok scope names ids n → (n ≤ lw_next l)%N →
  lowered l l' (hir_arm_tree t (hir_tree t) ids h = arm_tree (source_tree expression_types) names arm).
Proof.
  destruct arm as [p guard body sp]. unfold arm_children. cbn. intros [Hg Hb%Forall_inv]%Forall_app.
  destruct (lower_pattern module p scope l) as [[hp scope1] l1] eqn:E1.
  destruct (lower_optional lower_expr guard scope1 l1) as [hg l2] eqn:E2.
  destruct (lower_expr body scope1 l2) as [hb l3] eqn:E3. intros [= <- <-] Ht Henv Hn.
  destruct (lower_pattern_lowered p _ _ _ _ _ _ _ E1 Ht (env_ok_le _ _ _ _ _ Henv Hn)) as [Henv1 H1].
  pose proof (ld_ext _ _ _ H1) as X1. pose proof (table_ok_ext _ _ X1 Ht) as Ht1.
  pose proof (lower_optional_lowered _ _ _ _ _ _ _ _ Hg E2 Ht1 Henv1 (N.le_refl _)) as H2.
  pose proof (ld_ext _ _ _ H2) as X2.
  pose proof (lowers_later _ _ _ _ _ _ _ _ Hb E3 (table_ok_ext _ _ X2 Ht1) Henv1 (le_next _ _ X2)) as H3.
  eapply lowered_weaken; [exact (lowered_trans _ _ _ _ _ H1 (lowered_trans _ _ _ _ _ H2 H3))|].
  intros (Hp & [Hgt Hsome] & Hbt). cbn. by rewrite Hp, Hgt, Hsome, Hbt.
Qed.

(** The recorded type of the base decides where a field is looked up. *)
Lemma fallback_unnamed e scope : named_type (fallback_expression_type e scope) = None.
Proof.
  revert e. fix IH 1. intros [[m o|o|[| | | |]|[|? [|? [|]]]| | | | | | |] sp]; cbn; try done.
  by destruct (bool_decide _).
Qed.

Lemma lower_expression_owner e scope l h l' :
  lower_expr e scope l = (h, l') → default "<error>" (named_type (expr_ty h)) = field_owner expression_types e.
Proof.
  unfold field_owner. destruct e as [kind span]. cbn [lower_expression ex_span].
  destruct (lower_kind _ _ _ _ _ _) as [k l1]. intros [= <- <-]. unfold expr_ty.
  destruct (expression_types !! span); [done|]. pose proof (fallback_unnamed (Ex kind span) scope) as Hf.
  exact (f_equal (default "<error>") Hf).
Qed.

Lemma lower_kind_lowered e scope names ids l k l' :
  Forall lowers (children e) → lower_kind module symbols lower_expr e scope l = (k, l') →
  table_ok l → env_ok scope names ids (lw_next l) →
  lowered l l' (∀ ty, hir_tree t ids (mkExpr k ty (ex_span e)) = source_tree expression_types names e).
Proof.
  destruct e as [kind span]. intros Hf E Ht Henv.
  destruct kind as [m o|o|lit|p|items|callee args|o n|u o|op x y|value arms|block]; cbn in Hf, E.
  - apply Forall_inv in Hf. destruct (lower_expr o scope l) as [h l1] eqn:E1. injection E as <- <-.
    eapply lowered_weaken; [exact (Hf _ _ _ _ _ _ E1 Ht Henv)|]. intros Hh ty. cbn. by rewrite Hh.
  - apply Forall_inv in Hf. destruct (lower_expr o scope l) as [h l1] eqn:E1. injection E as <- <-.
    eapply lowered_weaken; [exact (Hf _ _ _ _ _ _ E1 Ht Henv)|]. intros Hh ty. cbn. by rewrite Hh.
  - destruct lit as [|name| | |]; try (injection E as <- <-; by apply lowered_refl).
    eapply lowered_weaken; [exact (lower_identifier_lowered _ _ _ _ _ _ _ _ Ht Henv E)|]. intros H ty. apply H.
  - destruct (resolve_member (join "::" p) span l) as [id l1] eqn:E1. injection E as <- <-.
    eapply lowered_weaken; [exact (resolve_member_lowered _ _ _ _ _ Ht E1)|]. intros (Hl & Hg & Hm) ty. cbn.
    unfold id_label, id_name. by rewrite (not_local_distance _ _ _ _ _ Henv Hl), Hg, Hm.
  - destruct (map_state _ items l) as [hs l1] eqn:E1. injection E as <- <-.
    assert (lowered l l1 (map (hir_tree t ids) hs = map (source_tree expression_types names) items)) as H.
    { eapply map_state_lowered; [|exact E1|done|apply N.le_refl]. eapply Forall_impl; [exact Hf|].
      cbn. intros e He l2 y l3 Ey Ht2 Hn. by eapply lowers_later. }
    eapply lowered_weaken; [exact H|]. intros Hh ty. cbn. by rewrite Hh.
  - apply Forall_cons in Hf as [Hc Hargs]. rewrite Forall_map in Hargs.
    destruct (lower_expr callee scope l) as [c l1] eqn:E1. destruct (map_state _ args l1) as [hs l2] eqn:E2.
    injection E as <- <-. pose proof (Hc _ _ _ _ _ _ E1 Ht Henv) as H1. pose proof (ld_ext _ _ _ H1) as X1.
    assert (lowered l1 l2 (map (hir_tree t ids) hs =
      map (λ x, match x with mkArgument _ value _ => source_tree expression_types names value end) args)) as H2.
    { eapply map_state_lowered; [|exact E2|by eapply table_ok_ext|apply (le_next _ _ X1)].
      eapply Forall_impl; [exact Hargs|]. cbn. intros [an v s] Hv l3 y l4 Ey Ht2 Hn. by eapply lowers_later. }
    eapply lowered_weaken; [exact (lowered_trans _ _ _ _ _ H1 H2)|]. intros [Hct Hat] ty. cbn. by rewrite Hct, Hat.
  - apply Forall_inv in Hf. destruct (lower_expr o scope l) as [h l1] eqn:E1.
    destruct (resolve_member _ span l1) as [id l2] eqn:E2. injection E as <- <-.
    pose proof (Hf _ _ _ _ _ _ E1 Ht Henv) as H1.
    pose proof (resolve_member_lowered _ _ _ _ _ (table_ok_ext _ _ (ld_ext _ _ _ H1) Ht) E2) as H2.
    eapply lowered_weaken; [exact (lowered_trans _ _ _ _ _ H1 H2)|]. intros [Hh (_ & _ & Hm)] ty. cbn.
    unfold id_name. by rewrite Hh, Hm, (lower_expression_owner _ _ _ _ _ E1).
  - apply Forall_inv in Hf. destruct (lower_expr o scope l) as [h l1] eqn:E1. injection E as <- <-.
    eapply lowered_weaken; [exact (Hf _ _ _ _ _ _ E1 Ht Henv)|]. intros Hh ty. cbn. by rewrite Hh.
  - apply Forall_cons in Hf as [Hx Hy%Forall_inv].
    destruct (lower_expr x scope l) as [hx l1] eqn:E1. destruct (lower_expr y scope l1) as [hy l2] eqn:E2.
    injection E as <- <-. pose proof (Hx _ _ _ _ _ _ E1 Ht Henv) as H1. pose proof (ld_ext _ _ _ H1) as X1.
    pose proof (lowers_later _ _ _ _ _ _ _ _ Hy E2 (table_ok_ext _ _ X1 Ht) Henv (le_next _ _ X1)) as H2.
    eapply lowered_weaken; [exact (lowered_trans _ _ _ _ _ H1 H2)|]. intros [Hxt Hyt] ty. cbn. by rewrite Hxt, Hyt.
  - apply Forall_cons in Hf as [Hv Harms%Forall_flat_map_inv].
    destruct (lower_expr value scope l) as [v l1] eqn:E1. destruct (map_state _ arms l1) as [hs l2] eqn:E2.
    injection E as <- <-. pose proof (Hv _ _ _ _ _ _ E1 Ht Henv) as H1. pose proof (ld_ext _ _ _ H1) as X1.
    assert (lowered l1 l2 (map (hir_arm_tree t (hir_tree t) ids) hs =
      map (arm_tree (source_tree expression_types) names) arms)) as H2.
    { eapply map_state_lowered; [|exact E2|by eapply table_ok_ext|apply (le_next _ _ X1)].
      eapply Forall_impl; [exact Harms|]. cbn. intros arm Ha l3 y l4 Ey Ht2 Hn. by eapply lower_arm_lowered. }
    eapply lowered_weaken; [exact (lowered_trans _ _ _ _ _ H1 H2)|]. intros [Hvt Hat] ty. cbn. by rewrite Hvt, Hat.
  - destruct block as [sts bs]. cbn in Hf, E. apply Forall_flat_map_inv in Hf.
    destruct (lower_statements _ _ _ sts scope l) as [hs l1] eqn:E1. injection E as <- <-.
    eapply lowered_weaken; [exact (lower_statements_lowered _ Hf _ _ _ _ _ _ _ E1 Ht Henv (N.le_refl _))|].
    intros Hh ty. cbn. by rewrite Hh.
Qed.

Lemma lower_expression_lowered e : lowers e.
Proof.
  induction e as [e IH] using expr_children_ind. intros scope names ids l h l' E Ht Henv.
  assert (lower_expr e scope l = (let '(kind, l) := lower_kind module symbols lower_expr e scope l in
    (mkExpr kind (match expression_types !! ex_span e with Some ty => ty | None => fallback_expression_type e scope end)
       (ex_span e), l))) as Hu by by destruct e.
  rewrite Hu in E. destruct (lower_kind module symbols lower_expr e scope l) as [k l1] eqn:E1. injection E as <- <-.
  eapply lowered_weaken; [exact (lower_kind_lowered _ _ _ _ _ _ _ IH E1 Ht Henv)|]. auto.
Qed.
End trees.
