(* ===== verification/LowerPrograms.v ===== *)
(** * Lowering: whole modules

    The identities of declarations and members, the table of names a lowered
    module defines, and the correspondence of declarations and definitions. *)

From stdpp Require Import base gmap strings numbers list.
From S2P Require Import Prelude Text Ir Hir Diagnostics Ast Semantic SemanticBodies Lower LowerNames LowerTheorems.
Open Scope string_scope.
Open Scope list_scope.

(** ** The names a module defines *)

Definition member_entries (d : HirDefinition) : list (DefId * string) :=
  match hd_kind d with
  | KindStruct fields | KindState fields => map (λ f, (hm_id f, field_key (hd_name d) (hm_name f))) fields
  | KindEnum variants => map (λ v, (hv_id v, variant_key (hd_name d) (hv_name v))) variants
  | _ => []
  end.

Definition builtin_entries : list (DefId * string) :=
  [({| module := BUILTIN_MODULE; index := 0 |}, "Option::some"); ({| module := BUILTIN_MODULE; index := 1 |}, "Option::none");
   ({| module := BUILTIN_MODULE; index := 2 |}, "Result::ok"); ({| module := BUILTIN_MODULE; index := 3 |}, "Result::err")].

Definition entry_name (l : list (DefId * string)) (id : DefId) : option string :=
  snd <$> List.find (λ e, bool_decide (e.1 = id)) l.

Definition program_names (ds : list HirDefinition) : NameTable :=
  {| nt_global := entry_name (map (λ d, (hd_id d, hd_name d)) ds);
     nt_member := entry_name (flat_map member_entries ds ++ builtin_entries) |}.

Lemma entry_name_unique l id name :
  (id, name) ∈ l → (∀ name', (id, name') ∈ l → name' = name) → entry_name l id = Some name.
Proof.
  intros Hin Hun. unfold entry_name. destruct (List.find _ l) as [[i n]|] eqn:E.
  - apply find_some in E as [E Hi]. apply bool_decide_eq_true in Hi. cbn in Hi. subst i.
    apply list_elem_of_In, Hun in E. by subst.
  - apply list_elem_of_In, (find_none _ _ E) in Hin. by apply bool_decide_eq_false in Hin.
Qed.

Lemma entry_name_none l id : (∀ name, (id, name) ∉ l) → entry_name l id = None.
Proof.
  intros H. unfold entry_name. destruct (List.find _ l) as [[i n]|] eqn:E; [|done].
  apply find_some in E as [E Hi]. apply bool_decide_eq_true in Hi. cbn in Hi. subst i.
  apply list_elem_of_In in E. by destruct (H n).
Qed.

(** ** The identities of a module *)

Section modules.
Context (module : N) (symbols : SymbolTable) (expression_types : gmap Span ResolvedType).
Hypothesis Hmodule : module ≠ BUILTIN_MODULE.

(** Both tables give out identities of this module once each. *)
Record ids_ok (l : Lowerer) : Prop := {
  io_global : ∀ x id, lw_globals l !! x = Some id → Ir.module id = module ∧ (index id < lw_next l)%N;
  io_member : ∀ k id, lw_members l !! k = Some id → Ir.module id = module ∧ (index id < lw_next l)%N;
  io_global_inj : ∀ x y id, lw_globals l !! x = Some id → lw_globals l !! y = Some id → x = y;
  io_member_inj : ∀ x y id, lw_members l !! x = Some id → lw_members l !! y = Some id → x = y;
  io_disjoint : ∀ x k id, lw_globals l !! x = Some id → lw_members l !! k = Some id → False
}.

Lemma ids_ok_new : ids_ok lowerer_new.
Proof. split; cbn; intros *; by rewrite ?lookup_empty. Qed.

Lemma index_global_ok l item : ids_ok l → ids_ok (index_global module l item).
Proof.
  intros [H1 H2 H3 H4 H5]. unfold index_global. destruct (lw_globals l !! item_name item) eqn:E; [by split|].
  split; cbn.
  - intros x id. rewrite lookup_insert_Some. intros [[_ <-]|[_ Hx]]; cbn; [split; [done|lia]|].
    destruct (H1 _ _ Hx). split; [done|lia].
  - intros k id Hk. destruct (H2 _ _ Hk). split; [done|lia].
  - intros x y id. rewrite !lookup_insert_Some. intros [[<- <-]|[_ Hx]] [[<- Hid]|[_ Hy]]; try done.
    + apply H1 in Hy as [_ Hlt]. cbn in Hlt. lia.
    + subst id. apply H1 in Hx as [_ Hlt]. cbn in Hlt. lia.
    + by eapply H3.
  - done.
  - intros x k id. rewrite lookup_insert_Some. intros [[_ <-]|[_ Hx]] Hk; [|by eapply H5].
    apply H2 in Hk as [_ Hlt]. cbn in Hlt. lia.
Qed.

Lemma index_member_ok l key : ids_ok l → ids_ok (index_member module l key).
Proof.
  intros [H1 H2 H3 H4 H5]. unfold index_member. destruct (lw_members l !! key) eqn:E; [by split|].
  split; cbn.
  - intros x id Hx. destruct (H1 _ _ Hx). split; [done|lia].
  - intros k id. rewrite lookup_insert_Some. intros [[_ <-]|[_ Hx]]; cbn; [split; [done|lia]|].
    destruct (H2 _ _ Hx). split; [done|lia].
  - done.
  - intros x y id. rewrite !lookup_insert_Some. intros [[<- <-]|[_ Hx]] [[<- Hid]|[_ Hy]]; try done.
    + apply H2 in Hy as [_ Hlt]. cbn in Hlt. lia.
    + subst id. apply H2 in Hx as [_ Hlt]. cbn in Hlt. lia.
    + by eapply H4.
  - intros x k id Hx. rewrite lookup_insert_Some. intros [[_ <-]|[_ Hk]]; [|by eapply H5].
    apply H1 in Hx as [_ Hlt]. cbn in Hlt. lia.
Qed.

(** What indexing adds: exactly the names of the declarations and the keys. *)
Record indexed (names keys : list string) (l l' : Lowerer) : Prop := {
  ix_globals : ∀ x, is_Some (lw_globals l' !! x) ↔ is_Some (lw_globals l !! x) ∨ x ∈ names;
  ix_members : ∀ k, is_Some (lw_members l' !! k) ↔ is_Some (lw_members l !! k) ∨ k ∈ keys;
  ix_diagnostics : lw_diagnostics l' = lw_diagnostics l;
  ix_ids : ids_ok l → ids_ok l';
  ix_next : (lw_next l ≤ lw_next l')%N;
  ix_count : (lw_next l' ≤ lw_next l + N.of_nat (length names + length keys))%N;
  ix_panicked : lw_panicked l' = true → lw_panicked l = true ∨ (u32_max < lw_next l')%N
}.

Lemma indexed_refl l : indexed [] [] l l.
Proof. split; try done; [intros x; rewrite elem_of_nil; naive_solver..|cbn; lia|auto]. Qed.

Lemma indexed_trans n1 k1 n2 k2 a b c : indexed n1 k1 a b → indexed n2 k2 b c → indexed (n1 ++ n2) (k1 ++ k2) a c.
Proof.
  intros [G1 M1 D1 I1 N1 C1 P1] [G2 M2 D2 I2 N2 C2 P2].
  split; [| |congruence|auto|lia|rewrite !length_app; lia|].
  - intros x. rewrite G2, G1, elem_of_app. tauto.
  - intros x. rewrite M2, M1, elem_of_app. tauto.
  - intros [Hb|?]%P2; [apply P1 in Hb as [|]; [by left|right; lia]|by right].
Qed.

Lemma index_global_indexed l item : indexed [item_name item] [] l (index_global module l item).
Proof.
  assert (lw_members (index_global module l item) = lw_members l) as Hm
    by (unfold index_global; by destruct (lw_globals l !! item_name item)).
  split; [|by intros k; rewrite Hm, elem_of_nil; naive_solver| |apply index_global_ok|..].
  - intros x. rewrite list_elem_of_singleton. unfold index_global.
    destruct (lw_globals l !! item_name item) eqn:E; cbn; [naive_solver|].
    rewrite lookup_insert_is_Some. destruct (decide (item_name item = x)); naive_solver.
  - unfold index_global. by destruct (lw_globals l !! item_name item).
  - unfold index_global. destruct (lw_globals l !! item_name item); cbn; lia.
  - unfold index_global. destruct (lw_globals l !! item_name item); cbn; lia.
  - unfold index_global. destruct (lw_globals l !! item_name item); cbn; [by left|].
    intros [|Hx]%orb_true_iff; [by left|]. apply bool_decide_eq_true in Hx. right. lia.
Qed.

Lemma index_member_indexed l key : indexed [] [key] l (index_member module l key).
Proof.
  assert (lw_globals (index_member module l key) = lw_globals l) as Hm
    by (unfold index_member; by destruct (lw_members l !! key)).
  split; [by intros k; rewrite Hm, elem_of_nil; naive_solver| | |apply index_member_ok|..].
  - intros x. rewrite list_elem_of_singleton. unfold index_member.
    destruct (lw_members l !! key) eqn:E; cbn; [naive_solver|].
    rewrite lookup_insert_is_Some. destruct (decide (key = x)); naive_solver.
  - unfold index_member. by destruct (lw_members l !! key).
  - unfold index_member. destruct (lw_members l !! key); cbn; lia.
  - unfold index_member. destruct (lw_members l !! key); cbn; lia.
  - unfold index_member. destruct (lw_members l !! key); cbn; [by left|].
    intros [|Hx]%orb_true_iff; [by left|]. apply bool_decide_eq_true in Hx. right. lia.
Qed.

Lemma index_globals_indexed items l : indexed (map item_name items) [] l (index_globals module items l).
Proof.
  revert l. induction items as [|item items IH]; intros l; [apply indexed_refl|].
  exact (indexed_trans [_] [] _ [] _ _ _ (index_global_indexed l item) (IH _)).
Qed.

Lemma index_keys_indexed keys l : indexed [] keys l (foldl (index_member module) l keys).
Proof.
  revert l. induction keys as [|k keys IH]; intros l; [apply indexed_refl|].
  exact (indexed_trans [] [_] [] _ _ _ _ (index_member_indexed l k) (IH _)).
Qed.

Lemma index_members_indexed items l : indexed [] (flat_map member_keys items) l (index_members module items l).
Proof.
  revert l. induction items as [|item items IH]; intros l; [apply indexed_refl|].
  exact (indexed_trans [] _ [] _ _ _ _ (index_keys_indexed (member_keys item) l) (IH _)).
Qed.

Definition index_all (items : list Item) (l : Lowerer) : Lowerer := index_members module items (index_globals module items l).

Lemma index_all_indexed items l : indexed (map item_name items) (flat_map member_keys items) l (index_all items l).
Proof.
  rewrite <-(app_nil_r (map item_name items)). change (flat_map member_keys items) with ([] ++ flat_map member_keys items).
  exact (indexed_trans _ _ _ _ _ _ _ (index_globals_indexed items l) (index_members_indexed items _)).
Qed.

(** ** Declarations and definitions *)

Section definitions.
Context (base : N) (t : NameTable).
Abbreviation table_ok := (table_ok module base t).
Abbreviation env_ok := (env_ok module base).

Definition parameters_match (ps : list ParameterNode) (hs : list HirParameter) : Prop :=
  map (λ h, (hp_name h, hp_ty h, hp_span h)) hs = map (λ p, (pa_name p, lower_type symbols (pa_ty p), pa_span p)) ps.

(** The definition says what the declaration says: the same members, parameters,
    types and attributes, and bodies with the same nameless tree. *)
Definition item_lowered (item : Item) (d : HirDefinition) : Prop :=
  match item, hd_kind d with
  | ItemStruct n, KindStruct fields =>
      map (λ f, (hm_name f, hm_ty f, hm_span f)) fields =
      map (λ f, (sf_name f, lower_type symbols (sf_ty f), sf_span f)) (sn_fields n)
  | ItemState n, KindState fields =>
      map (λ f, (hm_name f, hm_ty f, hm_span f)) fields =
      map (λ f, (stf_name f, lower_type symbols (stf_ty f), stf_span f)) (stn_fields n)
  | ItemEnum n, KindEnum variants =>
      map (λ v, (hv_name v, hv_fields v, hv_span v)) variants =
      map (λ v, (ev_name v, map (lower_type symbols) (ev_fields v), ev_span v)) (en_variants n)
  | ItemFunction n, KindFunction f =>
      (is_test f, asynchronous f, public f, declared_effects f, hf_result f) =
        (has_attribute n "test", fnn_asynchronous n, fnn_public n, lower_effects (fnn_effects n),
         lower_result symbols (fnn_return_type n)) ∧
      parameters_match (fnn_parameters n) (hf_parameters f) ∧
      hir_body_tree t (rev (map hp_id (hf_parameters f))) (hf_body f) =
        body_tree expression_types (rev (map pa_name (fnn_parameters n))) (fnn_body n)
  | ItemPipeline n, KindPipeline p =>
      parameters_match (pn_parameters n) (pl_parameters p) ∧
      pl_result p = lower_result symbols (pn_return_type n) ∧
      (∀ id, agent p = Some id → nt_global t id = property_named (pn_fields n) "agent" ≫= λ x, expression_name (prop_value x)) ∧
      hir_optional_tree (hir_tree t) (rev (map hp_id (pl_parameters p))) (pl_body p) =
        optional_tree (source_tree expression_types) (rev (map pa_name (pn_parameters n)))
          (prop_value <$> property_named (pn_fields n) "result")
  | ItemAgent _, KindAgent | ItemSafetyBound _, KindSafetyBound => True
  | _, _ => False
  end.

Lemma lower_parameters_lowered ps scope names ids l hs scope' l' :
  lower_parameters module symbols ps scope l = (hs, scope', l') → table_ok l → env_ok scope names ids (lw_next l) →
  env_ok scope' (rev (map pa_name ps) ++ names) (rev (map hp_id hs) ++ ids) (lw_next l') ∧
  lowered l l' True ∧ parameters_match ps hs.
Proof.
  revert scope names ids l hs scope' l'.
  induction ps as [|p ps IH]; intros scope names ids l hs scope' l'; cbn.
  { intros [= <- <- <-] Ht Henv. split; [done|]. split; [by apply lowered_refl|done]. }
  match goal with |- context [lower_parameters _ _ ps ?sc ?la] =>
    destruct (lower_parameters module symbols ps sc la) as [[hs1 scope1] l2] eqn:E end.
  intros [= <- <- <-] Ht Henv. pose proof (allocate_ext module l) as X.
  destruct (IH _ _ _ _ _ _ _ E (table_ok_ext _ _ _ _ _ X Ht) (env_ok_bind _ _ _ _ _ _ (pa_name p) (to_base _ _ _ _ Ht) Henv))
    as (Henv1 & H1 & Hm). cbn. rewrite <-!app_assoc. split; [exact Henv1|]. split.
  - split; [|done]. etrans; [exact X|exact (ld_ext _ _ _ H1)].
  - unfold parameters_match in *. cbn. by rewrite Hm.
Qed.

Lemma lower_body_lowered b scope names ids n l h l' :
  lower_block module symbols (lower_expression module symbols expression_types) b scope l = (h, l') →
  table_ok l → env_ok scope names ids n → (n ≤ lw_next l)%N →
  lowered l l' (hir_body_tree t ids h = body_tree expression_types names b).
Proof.
  destruct b as [sts sp]. cbn. destruct (lower_statements _ _ _ sts scope l) as [hs l1] eqn:E.
  intros [= <- <-] Ht Henv Hn. unfold hir_body_tree, body_tree. cbn.
  eapply lower_statements_lowered; [|exact E|exact Ht|exact Henv|exact Hn].
  apply Forall_true. intros st. apply Forall_true. apply lower_expression_lowered.
Qed.

Lemma lower_function_lowered n l f l' :
  lower_function module symbols expression_types n l = (f, l') → table_ok l →
  lowered l l' (∀ d, hd_kind d = KindFunction f → item_lowered (ItemFunction n) d).
Proof.
  unfold lower_function. destruct (lower_parameters _ _ _ _ l) as [[hs scope] l1] eqn:E1.
  destruct (lower_block _ _ _ _ _ l1) as [b l2] eqn:E2. intros [= <- <-] Ht.
  destruct (lower_parameters_lowered _ _ _ _ _ _ _ _ E1 Ht (env_ok_empty _ _ _)) as (Henv & H1 & Hm).
  rewrite !app_nil_r in Henv.
  pose proof (lower_body_lowered _ _ _ _ _ _ _ _ E2 (table_ok_ext _ _ _ _ _ (ld_ext _ _ _ H1) Ht) Henv (N.le_refl _)) as H2.
  eapply lowered_weaken; [exact (lowered_trans _ _ _ _ _ H1 H2)|]. intros [_ Hb] d Hd. unfold item_lowered. by rewrite Hd.
Qed.

Lemma lower_pipeline_lowered n l p l' :
  lower_pipeline module symbols expression_types n l = (p, l') → table_ok l →
  lowered l l' (∀ d, hd_kind d = KindPipeline p → item_lowered (ItemPipeline n) d).
Proof.
  unfold lower_pipeline. destruct (lower_parameters _ _ _ _ l) as [[hs scope] l1] eqn:E1.
  destruct (lower_optional _ _ _ l1) as [b l2] eqn:E2. intros [= <- <-] Ht.
  destruct (lower_parameters_lowered _ _ _ _ _ _ _ _ E1 Ht (env_ok_empty _ _ _)) as (Henv & H1 & Hm).
  rewrite !app_nil_r in Henv. pose proof (table_ok_ext _ _ _ _ _ (ld_ext _ _ _ H1) Ht) as Ht1.
  assert (lowered l1 l2 (hir_optional_tree (hir_tree t) (rev (map hp_id hs)) b =
    optional_tree (source_tree expression_types) (rev (map pa_name (pn_parameters n)))
      (prop_value <$> property_named (pn_fields n) "result"))) as H2.
  { eapply lowered_weaken; [eapply lower_optional_lowered; [|exact E2|exact Ht1|exact Henv|apply N.le_refl]|by intros []].
    destruct (prop_value <$> _); [|constructor]. constructor; [apply lower_expression_lowered|constructor]. }
  eapply lowered_weaken; [exact (lowered_trans _ _ _ _ _ H1 H2)|]. intros [_ Hb] d Hd. unfold item_lowered. rewrite Hd.
  split; [done|]. split; [done|]. split; [|done]. cbn [agent]. intros id Hid.
  apply bind_Some in Hid as (name & En & Hid). rewrite En. by apply (to_globals _ _ _ _ Ht1).
Qed.

(** The identities of a definition are those of the tables. *)
Definition ids_match (l : Lowerer) (item : Item) (d : HirDefinition) : Prop :=
  hd_name d = item_name item ∧ lw_globals l !! item_name item = Some (hd_id d) ∧
  map snd (member_entries d) = member_keys item ∧
  ∀ id k, (id, k) ∈ member_entries d → lw_members l !! k = Some id.

Lemma lower_members_ids {X Y Z} (g : X → Lowerer → Y * Lowerer) (id : Y → DefId) (key : X → string) (name : Y → string)
    (view : Y → Z) (spec : X → Z) l xs ys l' :
  map_state g xs l = (ys, l') →
  (∀ k, k ∈ map key xs → is_Some (lw_members l !! k)) →
  (∀ x y l', g x l = (y, l') → is_Some (lw_members l !! key x) →
     lw_members l !! key x = Some (id y) ∧ name y = key x ∧ view y = spec x ∧ l' = l) →
  l' = l ∧ map name ys = map key xs ∧ (∀ y, y ∈ ys → lw_members l !! name y = Some (id y)) ∧ map view ys = map spec xs.
Proof.
  intros E Hin Hg. revert ys l' E. induction xs as [|x xs IH]; intros ys l'; cbn.
  { intros [= <- <-]. split_and!; [done|done| |done]. by intros y ?%not_elem_of_nil. }
  destruct (g x l) as [y l1] eqn:E1. destruct (Hg _ _ _ E1) as (Hy & Hn & Hv & ->); [apply Hin; by left|].
  destruct (map_state g xs l) as [ys1 l2] eqn:E2.
  destruct (IH (λ k Hk, Hin k (proj2 (elem_of_cons _ _ _) (or_intror Hk))) _ _ eq_refl) as (-> & Hns & Hall & Hvs).
  intros [= <- <-]. split; [done|]. split; [cbn; by rewrite Hn, Hns|]. split; [|cbn; by rewrite Hv, Hvs].
  intros z [->|Hz]%elem_of_cons; [by rewrite Hn|by apply Hall].
Qed.

Lemma index_or_panic_some m key l id : m !! key = Some id → index_or_panic m key l = (id, l).
Proof. unfold index_or_panic. by intros ->. Qed.

Lemma lower_fields_ids {X} (owner : string) (name : X → string) (ty : X → TypeNode) (span : X → Span) xs l ys l' :
  map_state (λ x, lower_member symbols owner (name x) (ty x) (span x)) xs l = (ys, l') →
  (∀ k, k ∈ map (λ x, field_key owner (name x)) xs → is_Some (lw_members l !! k)) →
  l' = l ∧ map (λ f, field_key owner (hm_name f)) ys = map (λ x, field_key owner (name x)) xs ∧
  (∀ f, f ∈ ys → lw_members l !! field_key owner (hm_name f) = Some (hm_id f)) ∧
  map (λ f, (hm_name f, hm_ty f, hm_span f)) ys = map (λ x, (name x, lower_type symbols (ty x), span x)) xs.
Proof.
  intros E Hk. eapply (lower_members_ids _ hm_id _ _ _ _ l xs ys l' E Hk).
  intros x y l1 Ex [id Hid]. unfold lower_member in Ex. rewrite (index_or_panic_some _ _ _ _ Hid) in Ex.
  by injection Ex as <- <-.
Qed.

Lemma lower_variants_ids owner xs l ys l' :
  map_state (lower_variant symbols owner) xs l = (ys, l') →
  (∀ k, k ∈ map (λ x, variant_key owner (ev_name x)) xs → is_Some (lw_members l !! k)) →
  l' = l ∧ map (λ f, variant_key owner (hv_name f)) ys = map (λ x, variant_key owner (ev_name x)) xs ∧
  (∀ f, f ∈ ys → lw_members l !! variant_key owner (hv_name f) = Some (hv_id f)) ∧
  map (λ f, (hv_name f, hv_fields f, hv_span f)) ys =
    map (λ x, (ev_name x, map (lower_type symbols) (ev_fields x), ev_span x)) xs.
Proof.
  intros E Hk. eapply (lower_members_ids _ hv_id _ _ _ _ l xs ys l' E Hk).
  intros x y l1 Ex [id Hid]. unfold lower_variant in Ex. rewrite (index_or_panic_some _ _ _ _ Hid) in Ex.
  by injection Ex as <- <-.
Qed.

Lemma lower_definition_lowered item l d l' :
  lower_definition module symbols expression_types item l = (d, l') → table_ok l →
  is_Some (lw_globals l !! item_name item) → (∀ k, k ∈ member_keys item → is_Some (lw_members l !! k)) →
  ids_match l item d ∧ lowered l l' (item_lowered item d).
Proof.
  unfold lower_definition. intros E Ht [id Hid] Hk. rewrite (index_or_panic_some _ _ _ _ Hid) in E.
  unfold ids_match. destruct item as [n|n|n|n|n|n|n]; cbn in Hid, Hk, E |- *.
  - destruct (map_state _ _ l) as [fields l1] eqn:Ef. injection E as <- <-.
    apply lower_fields_ids in Ef as (-> & Hn & Hall & Hm); [|exact Hk]. cbn.
    split; [|by apply lowered_refl]. split_and!; [done|done|by rewrite map_map|].
    intros i k (f & [= -> ->] & Hf)%list_elem_of_fmap. by apply Hall.
  - destruct (map_state _ _ l) as [fields l1] eqn:Ef. injection E as <- <-.
    apply lower_variants_ids in Ef as (-> & Hn & Hall & Hm); [|exact Hk]. cbn.
    split; [|by apply lowered_refl]. split_and!; [done|done|by rewrite map_map|].
    intros i k (f & [= -> ->] & Hf)%list_elem_of_fmap. by apply Hall.
  - destruct (lower_function _ _ _ n l) as [f l1] eqn:Ef. injection E as <- <-. cbn.
    split; [split_and!; [done..|]; by intros i k ?%not_elem_of_nil|].
    eapply lowered_weaken; [exact (lower_function_lowered _ _ _ _ Ef Ht)|].
    intros H. exact (H {| hd_id := id; hd_name := fnn_name n; hd_kind := KindFunction f; hd_span := fnn_span n |} eq_refl).
  - destruct (map_state _ _ l) as [fields l1] eqn:Ef. injection E as <- <-.
    apply lower_fields_ids in Ef as (-> & Hn & Hall & Hm); [|exact Hk]. cbn.
    split; [|by apply lowered_refl]. split_and!; [done|done|by rewrite map_map|].
    intros i k (f & [= -> ->] & Hf)%list_elem_of_fmap. by apply Hall.
  - injection E as <- <-. cbn. split; [split_and!; [done..|]; by intros i k ?%not_elem_of_nil|by apply lowered_refl].
  - destruct (lower_pipeline _ _ _ n l) as [f l1] eqn:Ef. injection E as <- <-. cbn.
    split; [split_and!; [done..|]; by intros i k ?%not_elem_of_nil|].
    eapply lowered_weaken; [exact (lower_pipeline_lowered _ _ _ _ Ef Ht)|].
    intros H. exact (H {| hd_id := id; hd_name := pn_name n; hd_kind := KindPipeline f; hd_span := pn_span n |} eq_refl).
  - injection E as <- <-. cbn. split; [split_and!; [done..|]; by intros i k ?%not_elem_of_nil|by apply lowered_refl].
Qed.

Lemma lower_definitions_lowered items l ds l' :
  map_state (lower_definition module symbols expression_types) items l = (ds, l') → table_ok l →
  (∀ item, item ∈ items → is_Some (lw_globals l !! item_name item) ∧
     ∀ k, k ∈ member_keys item → is_Some (lw_members l !! k)) →
  Forall2 (ids_match l) items ds ∧ lowered l l' (Forall2 item_lowered items ds).
Proof.
  revert l ds l'. induction items as [|item items IH]; intros l ds l'; cbn.
  { intros [= <- <-] Ht Hin. split; [constructor|]. apply lowered_refl. constructor. }
  destruct (lower_definition _ _ _ item l) as [d l1] eqn:E1. destruct (map_state _ items l1) as [ds1 l2] eqn:E2.
  intros [= <- <-] Ht Hin. destruct (Hin item) as [Hg Hm]; [by left|].
  destruct (lower_definition_lowered _ _ _ _ E1 Ht Hg Hm) as [Hids H1]. pose proof (ld_ext _ _ _ H1) as X1.
  destruct (IH _ _ _ E2 (table_ok_ext _ _ _ _ _ X1 Ht)) as [Hids2 H2].
  { intros i Hi. rewrite (le_globals _ _ X1), (le_members _ _ X1). apply Hin. by right. }
  split.
  - constructor; [done|]. eapply Forall2_impl; [exact Hids2|]. intros i e. unfold ids_match.
    by rewrite (le_globals _ _ X1), (le_members _ _ X1).
  - eapply lowered_weaken; [exact (lowered_trans _ _ _ _ _ H1 H2)|]. intros [? ?]. by constructor.
Qed.
End definitions.

(** ** Tables *)

(** A table that names the identities of the lowerer. *)
Lemma table_ok_intro t l :
  ids_ok l →
  (∀ x id, lw_globals l !! x = Some id → nt_global t id = Some x) →
  (∀ id, (∀ x, lw_globals l !! x ≠ Some id) → nt_global t id = None) →
  (∀ k id, lw_members l !! k = Some id → nt_member t id = Some k) →
  (∀ k id, builtin_definition k = Some id → nt_member t id = Some k) →
  table_ok module (lw_next l) t l.
Proof.
  intros [H1 H2 H3 H4 H5] Hg Hn Hm Hb. unfold local_id. split; [done|..]; unfold local_id.
  - intros x id Hx. split; [|auto]. destruct (H1 _ _ Hx). lia.
  - intros k id Hk. split_and!; [|apply Hn; intros x Hx; by eapply H5|auto]. destruct (H2 _ _ Hk). lia.
  - intros k id _ Hk. assert (Ir.module id = BUILTIN_MODULE) as Hid.
    { unfold builtin_definition in Hk. repeat (destruct (one_of _ _); [by injection Hk as <-|]). done. }
    split_and!; [|apply Hn; intros x Hx|auto].
    + intros [? _]. congruence.
    + apply H1 in Hx as [? _]. congruence.
Qed.

Lemma builtin_definition_entry k id : builtin_definition k = Some id → (id, k) ∈ builtin_entries.
Proof.
  unfold builtin_definition, one_of, builtin_entries. intros H. rewrite !elem_of_cons.
  repeat (case_bool_decide as Hk; [apply list_elem_of_singleton in Hk; injection H as <-; naive_solver|clear Hk]). done.
Qed.

Lemma builtin_entry_inj id k k' : (id, k) ∈ builtin_entries → (id, k') ∈ builtin_entries → k = k'.
Proof.
  intros H H'. assert (NoDup builtin_entries.*1) as Hnd by (apply (bool_decide_unpack _); by vm_compute).
  apply list_elem_of_lookup in H as [i Hi], H' as [j Hj].
  assert (i = j) as <-; [|congruence].
  eapply NoDup_lookup; [exact Hnd|by rewrite list_lookup_fmap, Hi|by rewrite list_lookup_fmap, Hj].
Qed.

Lemma builtin_entry_module id k : (id, k) ∈ builtin_entries → Ir.module id = BUILTIN_MODULE.
Proof.
  assert (Forall (λ e, Ir.module e.1 = BUILTIN_MODULE) builtin_entries) as H by by repeat constructor.
  intros Hin. exact (proj1 (Forall_forall _ _) H _ Hin).
Qed.

(** The names read off the definitions are those of the lowerer's tables. *)
Lemma program_names_ok l items ds :
  ids_ok l → Forall2 (ids_match l) items ds →
  (∀ x, is_Some (lw_globals l !! x) → x ∈ map item_name items) →
  (∀ k, is_Some (lw_members l !! k) → k ∈ flat_map member_keys items) →
  table_ok module (lw_next l) (program_names ds) l.
Proof.
  intros Hok Hids Hglobals Hmembers.
  assert (∀ id x, (id, x) ∈ map (λ d, (hd_id d, hd_name d)) ds → lw_globals l !! x = Some id) as Hd.
  { intros id x (d & [= -> ->] & Hin)%list_elem_of_fmap. destruct (Forall2_elem_r _ _ _ _ Hids Hin) as (item & _ & Hn & Hg & _).
    by rewrite Hn. }
  assert (∀ id k, (id, k) ∈ flat_map member_entries ds → lw_members l !! k = Some id) as Hm.
  { intros id k Hin. apply list_elem_of_In, in_flat_map in Hin as (d & Hin%list_elem_of_In & He%list_elem_of_In).
    destruct (Forall2_elem_r _ _ _ _ Hids Hin) as (item & _ & _ & _ & _ & Hall). by apply Hall. }
  apply table_ok_intro; [done|..]; cbn.
  - intros x id Hx. apply entry_name_unique; [|intros y Hy%Hd; by eapply (io_global_inj _ Hok)].
    destruct (proj1 (list_elem_of_fmap _ _ _) (Hglobals x (ex_intro _ id Hx))) as (item & -> & Hitem).
    destruct (Forall2_elem_l _ _ _ _ Hids Hitem) as (d & Hin & Hn & Hg & _). apply list_elem_of_fmap. exists d. split; [|done].
    rewrite Hn. congruence.
  - intros id Hno. apply entry_name_none. intros x Hx%Hd. by eapply Hno.
  - intros k id Hk. apply entry_name_unique.
    + apply elem_of_app. left. assert (k ∈ flat_map member_keys items) as Hin by eauto.
      apply list_elem_of_In, in_flat_map in Hin as (item & Hitem%list_elem_of_In & Hki%list_elem_of_In).
      destruct (Forall2_elem_l _ _ _ _ Hids Hitem) as (d & Hin & _ & _ & Hkeys & Hall).
      rewrite <-Hkeys in Hki. apply list_elem_of_fmap in Hki as ([id' k'] & -> & He). cbn in *.
      assert (id' = id) as -> by (apply Hall in He; congruence).
      apply list_elem_of_In, in_flat_map. exists d. by rewrite <-!list_elem_of_In.
    + intros k' [He%Hm|He%builtin_entry_module]%elem_of_app; [by eapply (io_member_inj _ Hok)|].
      apply (io_member _ Hok) in Hk as [? _]. congruence.
  - intros k id Hb%builtin_definition_entry. apply entry_name_unique; [apply elem_of_app; by right|].
    intros k' [He%Hm|He]%elem_of_app; [|by eapply builtin_entry_inj].
    apply (io_member _ Hok) in He as [? _]. apply builtin_entry_module in Hb. congruence.
Qed.
End modules.
