(* ===== verification/SemanticClean.v ===== *)
(** * Semantic analysis: the error type is always reported

    [RtError] is compatible with everything and suppresses further reports, so a
    silent analysis is only worth something where it does not arise.  Resolving
    types and declarations in silence never yields it, and neither does inference,
    except for a field of a value that is no struct: in expressions without field
    accesses all inferred types are free of it, and all variant patterns name
    variants that exist. *)

From stdpp Require Import base gmap strings numbers list.
From S2P Require Import Prelude Text Ir Hir Diagnostics Ast Semantic SemanticBodies SemanticTheorems.
From S2P Require Import SemanticDeclarations SemanticAccepted Lower.
Open Scope string_scope.
Open Scope list_scope.

Fixpoint error_free (t : ResolvedType) : bool :=
  match t with
  | RtError => false
  | RtReference _ _ i | RtOption i | RtArray i => error_free i
  | RtResult x y => error_free x && error_free y
  | RtTuple l => forallb error_free l
  | RtFunction l r => forallb error_free l && error_free r
  | _ => true
  end.

Abbreviation all_clean l := (forallb error_free l = true).

(** Only the built-in types are primitive or generic. *)
Definition builtin_kinds (a : Analyzer) : Prop :=
  ∀ name s, sym_types (an_symbols a) !! name = Some s →
    match ts_kind s with
    | SymPrimitive => name ∈ primitive_names
    | SymGeneric _ => name = "Option" ∨ name = "Result"
    | _ => True
    end.

Lemma builtin_types_lookup name s :
  builtin_types !! name = Some s →
  (ts_kind s = SymPrimitive ∧ name ∈ primitive_names) ∨ (∃ n, ts_kind s = SymGeneric n ∧ (name = "Option" ∨ name = "Result")).
Proof.
  unfold builtin_types.
  set (good := λ (m : gmap string TypeSymbol), ∀ name s, m !! name = Some s →
    (ts_kind s = SymPrimitive ∧ name ∈ primitive_names) ∨ (∃ n, ts_kind s = SymGeneric n ∧ (name = "Option" ∨ name = "Result"))).
  assert (∀ l m, good m → (∀ n k, (n, k) ∈ l → (k = SymPrimitive ∧ n ∈ primitive_names) ∨
     (∃ i, k = SymGeneric i ∧ (n = "Option" ∨ n = "Result"))) →
    good (foldl (λ m '(name, kind), <[name := {| ts_name := name; ts_kind := kind; ts_span := default_span |}]> m) m l)) as H.
  { induction l as [|[n k] l IH]; intros m Hm Hl; [done|]. cbn. apply IH; [|set_solver].
    intros x s' [[<- <-]|[_ Hx]]%lookup_insert_Some; [cbn; apply Hl; by left|by apply Hm]. }
  intros Hs. eapply H; [| |exact Hs].
  - intros x y. by rewrite lookup_empty.
  - intros n k [Hin|Hin]%elem_of_app.
    + apply list_elem_of_fmap in Hin as (x & [= -> ->] & Hx). by left.
    + right. rewrite !elem_of_cons, elem_of_nil in Hin. destruct Hin as [[= -> ->]|[[= -> ->]|[]]]; eauto.
Qed.

Lemma primitive_types_known : Forall (λ n, n = "Unit" ∨ is_Some (primitive_type n)) primitive_names.
Proof. apply (bool_decide_unpack _). by vm_compute. Qed.

(** ** Types *)

Lemma builtin_kinds_extends a b : extends a b → builtin_kinds a → builtin_kinds b.
Proof. intros H. unfold builtin_kinds. by rewrite (ext_symbols _ _ H). Qed.

(** A silent map of a method whose results satisfy [P] after a silent call. *)
Lemma map_state_clean {X Y} (g : X → Analyzer → Y * Analyzer) (P : X → Y → Prop) l :
  (∀ x a, extends a (g x a).2) →
  Forall (λ x, ∀ a y b, g x a = (y, b) → silent a b → builtin_kinds a → P x y) l →
  ∀ a ys b, map_state g l a = (ys, b) → silent a b → builtin_kinds a → Forall2 P l ys ∧ extends a b.
Proof.
  intros Hx. induction 1 as [|x l Hg _ IH]; intros a ys b; cbn.
  { intros [= <- <-] _ _. by split; [constructor|]. }
  destruct (g x a) as [y a1] eqn:E1. destruct (map_state g l a1) as [ys1 a2] eqn:E2. intros [= <- <-] Hs Ha.
  pose proof (Hx x a) as X1. rewrite E1 in X1. cbn in X1.
  pose proof (map_state_extends g l (Forall_true _ _ Hx) a1) as X2. rewrite E2 in X2. cbn in X2.
  destruct (extends_silent _ _ _ X1 X2 Hs) as [S1 S2].
  destruct (IH _ _ _ E2 S2 (builtin_kinds_extends _ _ X1 Ha)) as [Hl _].
  split; [constructor; [by eapply Hg|done]|by etrans].
Qed.

Section clean.
Context (file : string).

Lemma resolve_type_clean ty : ∀ a t b,
  resolve_type file ty a = (t, b) → silent a b → builtin_kinds a → error_free t = true.
Proof.
  revert ty. fix IH 1. intros [kind span] a t b. destruct kind as [r m inner|segments arguments|inner|items]; cbn [resolve_type].
  - destruct (resolve_type file inner a) as [t1 b1] eqn:E. intros [= <- <-] Hs Ha. by apply (IH _ _ _ _ E).
  - destruct segments as [|name [|]]; try (intros [= <- <-] Hs; by apply push_message_loud in Hs).
    destruct (bool_decide (name = "Option")) eqn:Eo.
    { destruct arguments as [|x [|]]; try (intros [= <- <-] Hs; by apply push_message_loud in Hs).
      destruct (resolve_type file x a) as [t1 b1] eqn:E. intros [= <- <-] Hs Ha. by apply (IH _ _ _ _ E). }
    destruct (bool_decide (name = "Result")) eqn:Er.
    { destruct arguments as [|x [|y [|]]]; try (intros [= <- <-] Hs; by apply push_message_loud in Hs).
      destruct (resolve_type file x a) as [t1 b1] eqn:E1. destruct (resolve_type file y b1) as [t2 b2] eqn:E2.
      intros [= <- <-] Hs Ha. pose proof (resolve_type_extends file x a) as X1. rewrite E1 in X1. cbn in X1.
      pose proof (resolve_type_extends file y b1) as X2. rewrite E2 in X2. cbn in X2.
      destruct (extends_silent _ _ _ X1 X2 Hs) as [S1 S2]. cbn.
      rewrite (IH _ _ _ _ E1 S1 Ha). cbn. apply (IH _ _ _ _ E2 S2). unfold builtin_kinds. by rewrite (ext_symbols _ _ X1). }
    destruct (bool_decide (name = "Unit") && _) eqn:Eu; [by intros [= <- <-]|].
    destruct (_ !! name) as [s|] eqn:Es; [|intros [= <- <-] Hs; by apply push_message_loud in Hs].
    destruct (negb _) eqn:En; [intros [= <- <-] Hs; by apply push_message_loud in Hs|].
    intros [= <- <-] _ Ha. apply Ha in Es. apply bool_decide_eq_false in Eo, Er.
    destruct (ts_kind s); try done; [|by destruct Es].
    destruct (proj1 (Forall_forall _ _) primitive_types_known _ Es) as [->|[p ->]]; [|done].
    apply negb_false_iff in En. rewrite En in Eu. discriminate Eu.
  - destruct (resolve_type file inner a) as [t1 b1] eqn:E. intros [= <- <-] Hs Ha. by apply (IH _ _ _ _ E).
  - destruct items as [|x items]; [by intros [= <- <-]|].
    assert (Forall (λ y, ∀ a t b, resolve_type file y a = (t, b) → silent a b → builtin_kinds a → error_free t = true)
      (x :: items)) as Hall.
    { constructor; [apply IH|]. induction items as [|z items IHl]; constructor; [apply IH|exact IHl]. }
    destruct (map_state (resolve_type file) (x :: items) a) as [ts b1] eqn:E. intros [= <- <-] Hs Ha.
    destruct (map_state_clean _ (λ _ t, error_free t = true) _ (λ y a, resolve_type_extends file y a) Hall _ _ _ E Hs Ha)
      as [Hts _]. cbn [error_free]. clear -Hts. induction Hts as [|? ? ? ? H1 _ H2]; [done|]. cbn. by rewrite H1, H2.
Qed.

(** ** Tables and scopes *)

Record clean (a : Analyzer) : Prop := {
  cl_kinds : builtin_kinds a;
  cl_enums : ∀ t n types, enum_variant t n a = Some types → all_clean types;
  cl_functions : ∀ f s, an_functions a !! f = Some s → all_clean (sig_parameters s) ∧ error_free (sig_result s) = true;
  cl_states : ∀ n types, an_states a !! n = Some types → all_clean types
}.

Lemma clean_extends a b : extends a b → clean a ↔ clean b.
Proof.
  intros H. assert (∀ t n, enum_variant t n b = enum_variant t n a) as He by (intros; by apply enum_variant_extends).
  split; intros [H1 H2 H3 H4]; split; unfold builtin_kinds in *.
  all: rewrite ?(ext_symbols _ _ H), ?(ext_functions _ _ H), ?(ext_states _ _ H) in *; try done; intros t n;
    first [rewrite He; apply H2|rewrite <-He; apply H2].
Qed.

Definition scope_clean (scope : scope_map) : Prop := ∀ x t, scope !! x = Some t → error_free t = true.
Definition expected_clean (o : option ResolvedType) : Prop := match o with Some t => error_free t = true | None => True end.

Lemma scope_clean_insert scope x t : scope_clean scope → error_free t = true → scope_clean (<[x := t]> scope).
Proof. intros H Ht y u [[_ <-]|[_ Hy]]%lookup_insert_Some; [done|by eapply H]. Qed.

Lemma forallb_elem {A} (p : A → bool) l x : forallb p l = true → x ∈ l → p x = true.
Proof. intros H Hx. by eapply forallb_forall; [exact H|apply list_elem_of_In]. Qed.

(** ** Patterns *)

Definition variant_known (a : Analyzer) (t n : string) : Prop :=
  (t = "Option" ∧ (n = "some" ∨ n = "none")) ∨ (t = "Result" ∧ (n = "ok" ∨ n = "err")) ∨ is_Some (enum_variant t n a).

Fixpoint pattern_known (a : Analyzer) (p : Pattern) : Prop :=
  match p with
  | mkPattern kind _ =>
      match kind with
      | PkWildcard | PkLiteral _ | PkPath [_] => True
      | PkPath path => ∃ t n, path = [t; n] ∧ variant_known a t n
      | PkConstructor path fields =>
          (∃ t n, path = [t; n] ∧ variant_known a t n) ∧
          (fix go (l : list Pattern) : Prop := match l with [] => True | p :: l => pattern_known a p ∧ go l end) fields
      end
  end.

Lemma variant_payload_clean ty t n a payload :
  clean a → error_free ty = true → variant_payload ty t n a = Some payload → all_clean payload ∧ variant_known a t n.
Proof.
  intros Ha Hty. unfold variant_known. destruct ty; cbn in *; try done.
  - case_bool_decide as Hn; [|done]. subst name. intros Hp. split; [by eapply (cl_enums _ Ha)|].
    right; right. by exists payload.
  - repeat case_bool_decide; try done; intros [= <-]; cbn; rewrite ?Hty; auto.
  - apply andb_true_iff in Hty as [Ho He]. repeat case_bool_decide; try done; intros [= <-]; cbn; rewrite ?Ho, ?He; auto 6.
Qed.

Definition patterns_clean (p : Pattern) : Prop :=
  ∀ ty scope a scope' b, check_pattern file p ty scope a = (scope', b) → silent a b → clean a →
    error_free ty = true → scope_clean scope → scope_clean scope' ∧ pattern_known a p.

Lemma pattern_known_enums a b p : an_enums a = an_enums b → pattern_known b p → pattern_known a p.
Proof.
  intros H. assert (∀ t n, variant_known b t n → variant_known a t n) as Hv.
  { intros t n. unfold variant_known, enum_variant. by rewrite H. }
  revert p. fix IH 1. intros [[|[|x [|y path]]|path fields|l] s]; cbn; try done.
  - intros (t & n & ? & ?). eauto.
  - intros (t & n & ? & ?). eauto.
  - intros [(t & n & ? & ?) Hf]. split; [eauto|]. induction fields as [|f fields IHf]; [done|].
    destruct Hf as [Hf1 Hf2]. split; [by apply IH|by apply IHf].
Qed.

Lemma check_fields_clean fields :
  Forall patterns_clean fields →
  ∀ payload scope a scope' b, check_fields (check_pattern file) fields payload scope a = (scope', b) → silent a b →
    clean a → all_clean payload → length payload = length fields → scope_clean scope →
    scope_clean scope' ∧
    (fix go (l : list Pattern) : Prop := match l with [] => True | p :: l => pattern_known a p ∧ go l end) fields.
Proof.
  induction 1 as [|p fields Hp _ IH]; intros [|ty payload] scope a scope' b; try done; cbn.
  { by intros [= <- <-]. }
  destruct (check_pattern file p ty scope a) as [scope1 a1] eqn:E1. intros E2 Hs Ha [Hty Hpay]%andb_true_iff [= Hlen] Hsc.
  destruct (check_pattern_checks file p _ _ _ _ _ E1) as [X1 _].
  destruct (check_fields_checks file fields (Forall_true _ _ (check_pattern_checks file)) _ _ _ _ _ E2) as [X2 _].
  destruct (extends_silent _ _ _ X1 X2 Hs) as [S1 S2].
  destruct (Hp _ _ _ _ _ E1 S1 Ha Hty Hsc) as [Hsc1 Hk].
  destruct (IH _ _ _ _ _ E2 S2 (proj1 (clean_extends _ _ X1) Ha) Hpay Hlen Hsc1) as [Hsc2 Hks]. split; [done|]. split; [done|].
  clear -Hks X1. induction fields as [|f fields IHf]; [done|]. destruct Hks as [K1 K2].
  split; [eapply pattern_known_enums; [|exact K1]; by rewrite (ext_enums _ _ X1)|by apply IHf].
Qed.

Lemma check_variant_pattern_clean path fields ty scope span a scope' b :
  Forall patterns_clean fields →
  check_variant_pattern_with file (check_pattern file) path fields ty scope span a = (scope', b) → silent a b →
  clean a → error_free ty = true → scope_clean scope →
  scope_clean scope' ∧ (∃ t n, path = [t; n] ∧ variant_known a t n) ∧
  (fix go (l : list Pattern) : Prop := match l with [] => True | p :: l => pattern_known a p ∧ go l end) fields.
Proof.
  intros Hf. unfold check_variant_pattern_with.
  destruct (split_constructor_path path) as [[t n]|] eqn:Ep; [|intros [= <- <-] []%push_message_loud].
  assert (path = [t; n]) as ->.
  { destruct path as [|? [|? [|]]]; try discriminate Ep. by injection Ep as -> ->. }
  intros E Hs Ha Hty Hsc.
  assert (match variant_payload ty t n a with
          | None => (scope, unknown_variant file t n span a)
          | Some payload =>
              check_fields (check_pattern file) fields payload scope
                (if bool_decide (length payload = length fields) then a
                 else push_error file "SYL2101" ("pattern expects " +:+ pretty.pretty (length payload) +:+
                        " field(s), found " +:+ pretty.pretty (length fields)) span a)
          end = (scope', b)) as E' by (destruct ty; done).
  destruct (variant_payload ty t n a) as [payload|] eqn:Epay.
  2: { injection E' as <- <-. by apply push_message_loud in Hs. }
  destruct (variant_payload_clean _ _ _ _ _ Ha Hty Epay) as [Hpay Hk].
  case_bool_decide as Hlen.
  - destruct (check_fields_clean _ Hf _ _ _ _ _ E' Hs Ha Hpay Hlen Hsc). eauto 6.
  - destruct (check_fields_checks file fields (Forall_true _ _ (check_pattern_checks file)) _ _ _ _ _ E') as [X _].
    destruct (extends_silent _ _ _ (push_message_extends _ _ _ _ _) X Hs) as [Hl _]. by apply push_message_loud in Hl.
Qed.

Lemma check_pattern_clean p : patterns_clean p.
Proof.
  revert p. fix IH 1. intros [kind span] ty scope a scope' b.
  destruct kind as [|path|path fields|l]; cbn [check_pattern pattern_known].
  - by intros [= <- <-].
  - destruct path as [|name [|]].
    1,3: intros E Hs Ha Hty Hsc; destruct (check_variant_pattern_clean _ _ _ _ _ _ _ _ (Forall_nil_2 _) E Hs Ha Hty Hsc)
      as (? & ? & _); done.
    intros [= <- <-] _ _ Hty Hsc. split; [by apply scope_clean_insert|done].
  - intros E Hs Ha Hty Hsc. eapply check_variant_pattern_clean; [|exact E|done|done|done|done].
    clear -IH. induction fields as [|f fields IHf]; constructor; [apply IH|apply IHf].
  - by intros [= <- <-].
Qed.

(** ** Inference *)

Abbreviation inf := (infer_expr file).

Inductive patterns_ok (a : Analyzer) (e : Expr) : Prop :=
| patterns_ok_intro :
    (∀ v arms, ex_kind e = EMatch v arms → Forall (λ arm, pattern_known a (arm_pattern arm)) arms) →
    (∀ c, c ∈ children e → patterns_ok a c) → patterns_ok a e.

Lemma patterns_ok_enums a b e : an_enums a = an_enums b → patterns_ok b e → patterns_ok a e.
Proof.
  intros H. induction e as [e IH] using expr_children_ind. intros [H1 H2]. constructor.
  - intros v arms E. eapply Forall_impl; [exact (H1 _ _ E)|]. intros arm. by apply pattern_known_enums.
  - rewrite Forall_forall in IH. auto.
Qed.

Definition fieldless (e : Expr) : bool := every (λ e, match ex_kind e with EField _ _ => false | _ => true end) e.

Lemma fieldless_children e c : fieldless e = true → c ∈ children e → fieldless c = true.
Proof.
  unfold fieldless. rewrite every_children. intros [_ H]%andb_true_iff Hc. by eapply forallb_elem.
Qed.


(** A method whose silence makes [Q] true in all clean later states. *)
Abbreviation clean_step a b Q := (step a b (λ c, clean c → Q c)).

Lemma check_pattern_clean_step p ty scope a scope' b :
  check_pattern file p ty scope a = (scope', b) →
  clean_step a b (λ c, error_free ty = true → scope_clean scope → scope_clean scope' ∧ pattern_known c p).
Proof.
  intros E. destruct (check_pattern_checks file p _ _ _ _ _ E) as [X _]. split; [done|].
  intros Hs c Hc Hcl Hty Hsc. assert (extends a c) as Hac by by etrans. apply (clean_extends _ _ Hac) in Hcl.
  destruct (check_pattern_clean p _ _ _ _ _ E Hs Hcl Hty Hsc) as [? Hk]. split; [done|].
  eapply pattern_known_enums; [|exact Hk]. exact (ext_enums _ _ Hac).
Qed.

Definition infers_clean (e : Expr) : Prop :=
  ∀ scope expected a t b, inf e scope expected a = (t, b) → fieldless e = true →
    clean_step a b (λ c, scope_clean scope → expected_clean expected → error_free t = true ∧ patterns_ok c e).

Definition all_patterns_ok (a : Analyzer) (l : list Expr) : Prop := ∀ e, e ∈ l → patterns_ok a e.

Lemma all_patterns_ok_nil a : all_patterns_ok a [].
Proof. intros e H. by apply not_elem_of_nil in H. Qed.
Lemma all_patterns_ok_cons a e l : patterns_ok a e → all_patterns_ok a l → all_patterns_ok a (e :: l).
Proof. intros H Hl e' [->|]%elem_of_cons; auto. Qed.
Lemma all_patterns_ok_app a l k : all_patterns_ok a l → all_patterns_ok a k → all_patterns_ok a (l ++ k).
Proof. intros Hl Hk e [|]%elem_of_app; auto. Qed.

Abbreviation all_fieldless l := (forallb fieldless l = true).

(** The first item decides the type where none is expected. *)
Lemma unknown_next {A} (t : ResolvedType) (P : ResolvedType → A → Prop) actual (checked unchecked : A) :
  match t with RtUnknown => P actual unchecked | _ => P t checked end → P actual unchecked ∨ P t checked.
Proof. destruct t; auto. Qed.

Lemma infer_items_clean o scope items :
  Forall infers_clean items → all_fieldless items →
  ∀ t a t' b, infer_items file inf o scope items t a = (t', b) →
    clean_step a b (λ c, scope_clean scope → expected_clean o → error_free t = true →
      error_free t' = true ∧ all_patterns_ok c items).
Proof.
  intros Hf. induction Hf as [|e items He _ IH]; intros Hfl t a t' b; cbn.
  { intros [= <- <-]. apply step_refl. intros c _ _ _ _ ?. split; [done|apply all_patterns_ok_nil]. }
  apply andb_true_iff in Hfl as [Hfe Hfl]. destruct (inf e scope o a) as [actual a1] eqn:E1. intros E.
  assert (∃ t2, step a1 b (λ c, clean c → scope_clean scope → expected_clean o → error_free t2 = true →
      error_free t' = true ∧ all_patterns_ok c items) ∧
    (error_free actual = true → error_free t = true → error_free t2 = true)) as (t2 & H2 & Ht2).
  { destruct (unknown_next t (λ t2 a2, infer_items file inf o scope items t2 a2 = (t', b)) actual
      (require_compatible file t actual (ex_span e) "array element" a1) a1) as [E'|E']; [destruct t; exact E|..].
    - exists actual. split; [exact (IH Hfl _ _ _ _ E')|auto].
    - exists t. split; [|auto].
      eapply step_weaken; [eapply step_trans; [apply require_compatible_step|exact (IH Hfl _ _ _ _ E')]|].
      intros c _ [_ H]. exact H. }
  eapply step_weaken; [exact (step_trans _ _ _ _ _ (He _ _ _ _ _ E1 Hfe) H2)|].
  intros c _ [Q1 Q2] Hc Hsc Ho Ht. destruct (Q1 Hc Hsc Ho) as [Hact Hp].
  destruct (Q2 Hc Hsc Ho (Ht2 Hact Ht)) as [Hres Hps]. split; [done|by apply all_patterns_ok_cons].
Qed.

Lemma infer_arguments_clean context scope args :
  Forall infers_clean (map argument_value args) → all_fieldless (map argument_value args) →
  ∀ types a, clean_step a (infer_arguments file inf context scope args types a) (λ c, scope_clean scope →
    all_clean types → length types = length args → all_patterns_ok c (map argument_value args)).
Proof.
  intros Hf Hfl. induction args as [|[n e sp] args IH]; intros types a; [destruct types; apply step_refl; intros; apply all_patterns_ok_nil|].
  destruct types as [|ty types]; [apply step_refl; intros c _ _ _ _ Hlen; discriminate Hlen|].
  cbn [map argument_value infer_arguments forallb] in *.
  apply Forall_cons in Hf as [He Hf]. apply andb_true_iff in Hfl as [Hfe Hfl].
  destruct (inf e scope (Some ty) a) as [actual a1] eqn:E1.
  eapply step_weaken; [eapply step_trans; [exact (He _ _ _ _ _ E1 Hfe)|eapply step_trans;
    [apply require_compatible_step|apply (IH Hf Hfl)]]|].
  intros c _ (Q1 & _ & Q2) Hc Hsc [Hty Htys]%andb_true_iff [= Hlen].
  apply all_patterns_ok_cons; [by apply Q1|by apply Q2].
Qed.

Lemma infer_first_clean args scope a t b :
  Forall infers_clean (map argument_value args) → all_fieldless (map argument_value args) →
  infer_first inf args scope a = (t, b) → clean_step a b (λ _, scope_clean scope → error_free t = true).
Proof.
  destruct args as [|[n e sp] l]; cbn; [intros _ _ [= <- <-]; by apply step_refl|].
  intros [He _]%Forall_cons [Hfe _]%andb_true_iff E.
  eapply step_weaken; [exact (He _ _ _ _ _ E Hfe)|]. intros c _ H Hc Hsc. by apply H.
Qed.

(** *** Constructors *)

(** The payload and result of a constructor that was resolved in silence. *)
Definition constructs_clean (scope : scope_map) (expected : option ResolvedType) (a : Analyzer)
    (r : option (list ResolvedType * ResolvedType) * Analyzer) : Prop :=
  clean_step a r.2 (λ _, scope_clean scope → expected_clean expected →
    match r.1 with Some (fields, result) => all_clean fields ∧ error_free result = true | None => False end).

Lemma option_constructor_clean v args span scope expected a :
  Forall infers_clean (map argument_value args) → all_fieldless (map argument_value args) →
  constructs_clean scope expected a (option_constructor file inf v args span scope expected a).
Proof.
  intros Hf Hfl. unfold option_constructor, constructs_clean.
  set (r := match expected with Some (RtOption item) => (item, a) | _ => infer_first inf args scope a end).
  assert (clean_step a r.2 (λ _, scope_clean scope → expected_clean expected → error_free r.1 = true)) as Hr.
  { destruct (infer_first inf args scope a) as [t b] eqn:E. pose proof (infer_first_clean _ _ _ _ _ Hf Hfl E) as H.
    assert (clean_step a b (λ _, scope_clean scope → expected_clean expected → error_free t = true)) as H'
      by (eapply step_weaken; [exact H|auto]).
    subst r. destruct expected as [[]|]; first [exact H'|apply step_refl; intros c _ _ _ Hexp; exact Hexp]. }
  destruct r as [item b]. cbn [fst snd] in Hr.
  destruct (bool_decide (v = "some")), (bool_decide (v = "none")); cbn [fst snd].
  1-3: eapply step_weaken; [exact Hr|]; intros c _ H Hc Hsc Hexp; cbn; by rewrite (H Hc Hsc Hexp).
  eapply step_weaken; [eapply step_trans; [exact Hr|apply (unknown_variant_step _ _ _ _ _ (λ _, False))]|]. by intros c _ [].
Qed.

Lemma result_constructor_clean v args span scope expected a :
  Forall infers_clean (map argument_value args) → all_fieldless (map argument_value args) →
  constructs_clean scope expected a (result_constructor file inf v args span scope expected a).
Proof.
  intros Hf Hfl. unfold result_constructor, constructs_clean.
  match goal with |- context [let '(types, a) := ?x in _] => set (r := x) end.
  set (Q := λ r : option (ResolvedType * ResolvedType) * Analyzer, scope_clean scope → expected_clean expected →
    match r.1 with Some (ok, error) => error_free ok = true ∧ error_free error = true | None => True end).
  assert (clean_step a r.2 (λ _, Q r)) as Hr.
  { destruct (infer_first inf args scope a) as [t b] eqn:E. pose proof (infer_first_clean _ _ _ _ _ Hf Hfl E) as H.
    assert (∀ o, (o = Some (t, RtUnknown) ∨ o = Some (RtUnknown, t)) → clean_step a b (λ _, Q (o, b))) as H'.
    { intros o Ho. eapply step_weaken; [exact H|]. intros c _ Ht Hc Hsc _. destruct Ho as [-> | ->]; cbn; auto. }
    assert (clean_step a a (λ _, Q (None, a))) as H0 by (apply step_refl; intros c _ _ _ _; exact I).
    subst r. destruct expected as [[]|]; repeat case_bool_decide; try first [by (apply H'; auto)|exact H0].
    apply step_refl. intros c _ _ _ [Ho He]%andb_true_iff. by split. }
  destruct r as [[[ok error]|] b]; unfold Q in Hr; cbn [fst snd] in Hr.
  2: { eapply step_weaken; [eapply step_trans; [exact Hr|apply (unknown_variant_step _ _ _ _ _ (λ _, False))]|]. by intros c _ []. }
  destruct (bool_decide (v = "ok")), (bool_decide (v = "err")); cbn [fst snd].
  1-3: eapply step_weaken; [exact Hr|]; intros c _ H Hc Hsc Hexp; destruct (H Hc Hsc Hexp) as [H1 H2]; cbn; by rewrite H1, ?H2.
  eapply step_weaken; [eapply step_trans; [exact Hr|apply (unknown_variant_step _ _ _ _ _ (λ _, False))]|]. by intros c _ [].
Qed.

Lemma enum_constructor_clean t v span scope expected a :
  constructs_clean scope expected a (enum_constructor file t v span a).
Proof.
  unfold enum_constructor, constructs_clean. destruct (an_enums a !! t) as [variants|] eqn:E; [|apply push_message_step].
  destruct (find_variant variants v) as [fields|] eqn:Ev; cbn [fst snd]; [|apply push_message_step].
  apply step_refl. intros c Hc Hcl _ _. split; [|done]. apply (cl_enums _ Hcl t v). rewrite (enum_variant_extends _ _ _ _ Hc).
  unfold enum_variant. by rewrite E.
Qed.

Lemma infer_constructor_call_clean segments args span scope expected a t b :
  Forall infers_clean (map argument_value args) → all_fieldless (map argument_value args) →
  infer_constructor_call file inf segments args span scope expected a = (t, b) →
  clean_step a b (λ c, scope_clean scope → expected_clean expected →
    error_free t = true ∧ all_patterns_ok c (map argument_value args)).
Proof.
  intros Hf Hfl. unfold infer_constructor_call.
  destruct (split_constructor_path segments) as [[ty v]|] eqn:Ep; [|intros [= <- <-]; apply push_message_step].
  match goal with |- context [let '(constructor, a) := ?x in _] =>
    assert (constructs_clean scope expected a x) as Hr; [|set (r := x) in *] end.
  { repeat case_bool_decide; [by apply option_constructor_clean|by apply result_constructor_clean|by apply enum_constructor_clean]. }
  destruct r as [[[fields result]|] a1]; unfold constructs_clean in Hr; cbn [fst snd] in Hr.
  2: { intros [= <- <-]. eapply step_weaken; [exact Hr|]. intros c _ H Hc Hsc Hexp. by destruct (H Hc Hsc Hexp). }
  intros [= <- <-].
  eapply step_weaken; [eapply step_trans; [exact Hr|eapply step_trans;
    [apply if_step|exact (infer_arguments_clean _ _ _ Hf Hfl _ _)]]|].
  intros c _ (Q1 & Hlen%bool_decide_eq_true & Q2) Hc Hsc Hexp. destruct (Q1 Hc Hsc Hexp) as [Hfs Hres].
  split; [done|by apply Q2].
Qed.

(** *** Calls *)

Lemma infer_all_clean scope args a : step a (infer_all inf scope args a) (λ _, True).
Proof. eapply step_weaken; [apply (infer_all_step file scope (dom scope)); [|done]|done].
  apply Forall_true. intros x. apply infer_step.
Qed.

Lemma infer_function_call_clean callee args span scope a t b :
  infers_clean callee → fieldless callee = true →
  Forall infers_clean (map argument_value args) → all_fieldless (map argument_value args) →
  infer_function_call file inf callee args span scope a = (t, b) →
  clean_step a b (λ c, scope_clean scope → error_free t = true ∧ all_patterns_ok c (callee :: map argument_value args)).
Proof.
  intros Hcallee Hfc Hf Hfl. unfold infer_function_call.
  destruct (inf callee scope None a) as [ct a1] eqn:E. pose proof (Hcallee _ _ _ _ _ E Hfc) as H1.
  assert (∀ a2, infer_all inf scope args a2 = b → (step a1 a2 (λ _, False) ∨ (error_free ct = false ∧ a2 = a1)) →
    clean_step a b (λ c, scope_clean scope → error_free t = true ∧ all_patterns_ok c (callee :: map argument_value args))) as Hother.
  { intros a2 <- Ha2. pose proof (infer_all_clean scope args a2) as H3. destruct Ha2 as [H2|[Hct ->]].
    - eapply step_weaken; [exact (step_trans _ _ _ _ _ H1 (step_trans _ _ _ _ _ H2 H3))|]. by intros c _ (_ & [] & _).
    - eapply step_weaken; [exact (step_trans _ _ _ _ _ H1 H3)|]. intros c _ [Q _] Hc Hsc.
      destruct (Q Hc Hsc I) as [Q1 _]. congruence. }
  destruct ct; try (intros [= <- <-]; eapply Hother; [reflexivity|left; apply push_message_step]; fail).
  - intros [= <- <-].
    eapply step_weaken; [eapply step_trans; [exact H1|eapply step_trans;
      [apply if_step|exact (infer_arguments_clean _ _ _ Hf Hfl _ _)]]|].
    intros c _ (Q1 & Hlen%bool_decide_eq_true & Q2) Hc Hsc. destruct (Q1 Hc Hsc I) as [[Hps Hres]%andb_true_iff Hp].
    split; [done|]. apply all_patterns_ok_cons; [done|by apply Q2].
  - intros [= <- <-]. eapply Hother; [reflexivity|by right].
Qed.

Lemma infer_call_clean callee args span scope expected a t b :
  infers_clean callee → fieldless callee = true →
  Forall infers_clean (map argument_value args) → all_fieldless (map argument_value args) →
  infer_call file inf callee args span scope expected a = (t, b) →
  clean_step a b (λ c, scope_clean scope → expected_clean expected →
    error_free t = true ∧ all_patterns_ok c (callee :: map argument_value args)).
Proof.
  intros Hcallee Hfc Hf Hfl E. destruct (is_path callee) eqn:Hp.
  - unfold infer_call, is_path in *. destruct callee as [kind sp]. cbn in E, Hp. destruct kind; try discriminate Hp.
    eapply step_weaken; [exact (infer_constructor_call_clean _ _ _ _ _ _ _ _ Hf Hfl E)|].
    intros c _ Q Hc Hsc Hexp. destruct (Q Hc Hsc Hexp). split; [done|]. apply all_patterns_ok_cons; [|done].
    constructor; [done|]. cbn. by intros x ?%not_elem_of_nil.
  - assert (infer_function_call file inf callee args span scope a = (t, b)) as E'.
    { unfold infer_call, is_path in *. by destruct (ex_kind callee). }
    eapply step_weaken; [exact (infer_function_call_clean _ _ _ _ _ _ _ Hcallee Hfc Hf Hfl E')|]. auto.
Qed.

(** *** Matches *)

Lemma check_guard_clean guard scope a :
  Forall infers_clean (option_list guard) → all_fieldless (option_list guard) →
  clean_step a (check_guard file inf guard scope a) (λ c, scope_clean scope → all_patterns_ok c (option_list guard)).
Proof.
  destruct guard as [g|]; cbn; [|intros _ _; apply step_refl; intros; apply all_patterns_ok_nil].
  intros Hg%Forall_inv [Hfg _]%andb_true_iff. destruct (inf g scope (Some bool_type) a) as [t a1] eqn:E.
  eapply step_weaken; [eapply step_trans; [exact (Hg _ _ _ _ _ E Hfg)|apply require_compatible_step]|].
  intros c _ [Q _] Hc Hsc. apply all_patterns_ok_cons; [by apply Q|apply all_patterns_ok_nil].
Qed.

Lemma check_arms_clean value_type scope expected arms :
  Forall (λ arm, Forall infers_clean (arm_children arm)) arms → all_fieldless (flat_map arm_children arms) →
  ∀ result a t b, check_arms file inf value_type scope expected arms result a = (t, b) →
    clean_step a b (λ c, error_free value_type = true → scope_clean scope → expected_clean expected →
      error_free result = true → error_free t = true ∧ all_patterns_ok c (flat_map arm_children arms) ∧
      Forall (λ arm, pattern_known c (arm_pattern arm)) arms).
Proof.
  intros Hf. induction Hf as [|[p guard body sp] arms Harm _ IH]; intros Hfl result a t b.
  { intros [= <- <-]. apply step_refl. intros c _ _ _ _ _ ?. split_and!; [done|apply all_patterns_ok_nil|constructor]. }
  cbn [flat_map] in *. rewrite forallb_app in Hfl. apply andb_true_iff in Hfl as [Hfa Hfl]. unfold arm_children in Harm, Hfa.
  cbn [arm_guard arm_body] in Harm, Hfa. rewrite forallb_app in Hfa. apply andb_true_iff in Hfa as [Hfg Hfb].
  cbn in Hfb. rewrite andb_true_r in Hfb. apply Forall_app in Harm as [Hguard Hbody%Forall_inv]. cbn [check_arms].
  destruct (check_pattern file p value_type scope a) as [scope1 a1] eqn:E1.
  pose proof (check_pattern_clean_step _ _ _ _ _ _ E1) as H1.
  pose proof (check_guard_clean guard scope1 a1 Hguard Hfg) as H2.
  destruct (inf body scope1 expected (check_guard file inf guard scope1 a1)) as [arm_type a3] eqn:E3.
  pose proof (Hbody _ _ _ _ _ E3 Hfb) as H3. intros E.
  assert (∃ t2, clean_step a3 b (λ c, error_free value_type = true → scope_clean scope → expected_clean expected →
      error_free t2 = true → error_free t = true ∧ all_patterns_ok c (flat_map arm_children arms) ∧
      Forall (λ arm, pattern_known c (arm_pattern arm)) arms) ∧
    (error_free arm_type = true → error_free result = true → error_free t2 = true)) as (t2 & H4 & Ht2).
  { destruct (unknown_next result (λ t2 a2, check_arms file inf value_type scope expected arms t2 a2 = (t, b)) arm_type
      (require_compatible file result arm_type (ex_span body) "match arm" a3) a3) as [E'|E']; [destruct result; exact E|..].
    - exists arm_type. split; [exact (IH Hfl _ _ _ _ E')|auto].
    - exists result. split; [|auto].
      eapply step_weaken; [eapply step_trans; [apply require_compatible_step|exact (IH Hfl _ _ _ _ E')]|].
      intros c _ [_ H]. exact H. }
  eapply step_weaken; [exact (step_trans _ _ _ _ _ H1 (step_trans _ _ _ _ _ H2 (step_trans _ _ _ _ _ H3 H4)))|].
  intros c _ (Q1 & Q2 & Q3 & Q4) Hc Hvt Hsc Hexp Hr. destruct (Q1 Hc Hvt Hsc) as [Hsc1 Hp].
  destruct (Q3 Hc Hsc1 Hexp) as [Hat Hb]. destruct (Q4 Hc Hvt Hsc Hexp (Ht2 Hat Hr)) as (? & ? & ?).
  split; [done|]. split; [|by constructor]. unfold arm_children at 1. cbn [arm_guard arm_body].
  repeat apply all_patterns_ok_app; [by apply Q2| |done]. apply all_patterns_ok_cons; [done|apply all_patterns_ok_nil].
Qed.

(** *** Blocks *)

Lemma resolve_type_clean_step ty a t b :
  resolve_type file ty a = (t, b) → clean_step a b (λ _, error_free t = true).
Proof.
  intros E. pose proof (resolve_type_extends file ty a) as X. rewrite E in X. cbn in X. split; [done|].
  intros Hs c Hc Hcl. eapply resolve_type_clean; [exact E|done|]. apply cl_kinds.
  eapply clean_extends; [|exact Hcl]. by etrans.
Qed.

Lemma check_statements_clean expected sts :
  Forall (λ s, Forall infers_clean (statement_children s)) sts → all_fieldless (flat_map statement_children sts) →
  ∀ scope result a t b, check_statements file inf expected sts scope result a = (t, b) →
    clean_step a b (λ c, scope_clean scope → error_free expected = true → error_free result = true →
      error_free t = true ∧ all_patterns_ok c (flat_map statement_children sts)).
Proof.
  intros Hf. induction Hf as [|[kind sp] sts Hs _ IH]; intros Hfl scope result a t b.
  { intros [= <- <-]. apply step_refl. intros c _ _ _ _ ?. split; [done|apply all_patterns_ok_nil]. }
  cbn [flat_map] in *. rewrite forallb_app in Hfl. apply andb_true_iff in Hfl as [Hfs Hfl]. specialize (IH Hfl).
  destruct kind as [name ty value|value|value]; cbn in Hs, Hfs.
  - apply Forall_inv in Hs. rewrite andb_true_r in Hfs. cbn [check_statements].
    destruct (option_state (resolve_type file) ty a) as [declared a1] eqn:E1.
    assert (clean_step a a1 (λ _, expected_clean declared)) as H1.
    { destruct ty as [ty|]; cbn in E1; [|injection E1 as <- <-; by apply step_refl].
      destruct (resolve_type file ty a) as [t1 b1] eqn:Et. injection E1 as <- <-. by eapply resolve_type_clean_step. }
    destruct (inf value scope declared a1) as [actual a2] eqn:E2. intros E.
    eapply step_weaken; [exact (step_trans _ _ _ _ _ H1 (step_trans _ _ _ _ _ (Hs _ _ _ _ _ E2 Hfs) (IH _ _ _ _ _ E)))|].
    intros c _ (Q1 & Q2 & Q3) Hc Hsc Hexp Hr. pose proof (Q1 Hc) as Hd. destruct (Q2 Hc Hsc Hd) as [Hact Hp].
    destruct (Q3 Hc) as [? ?]; [|done|done|].
    { apply scope_clean_insert; [done|]. by destruct declared. }
    split; [done|]. by apply all_patterns_ok_cons.
  - cbn [check_statements]. destruct value as [value|]; cbn in Hs, Hfs.
    + apply Forall_inv in Hs. rewrite andb_true_r in Hfs.
      destruct (inf value scope (Some expected) a) as [actual a1] eqn:E1. intros E.
      eapply step_weaken; [exact (step_trans _ _ _ _ _ (Hs _ _ _ _ _ E1 Hfs)
        (step_trans _ _ _ _ _ (require_compatible_step _ _ _ _ _ _) (IH _ _ _ _ _ E)))|].
      intros c _ (Q1 & _ & Q3) Hc Hsc Hexp Hr. destruct (Q1 Hc Hsc Hexp), (Q3 Hc Hsc Hexp Hr).
      split; [done|]. by apply all_patterns_ok_cons.
    + intros E.
      eapply step_weaken; [exact (step_trans _ _ _ _ _ (require_compatible_step _ _ _ _ _ _) (IH _ _ _ _ _ E))|].
      intros c _ [_ Q]. exact Q.
  - apply Forall_inv in Hs. rewrite andb_true_r in Hfs. cbn [check_statements].
    set (last := match sts with [] => true | _ => false end).
    destruct (inf value scope (if last then Some expected else None) a) as [actual a1] eqn:E1. intros E.
    pose proof (Hs _ _ _ _ _ E1 Hfs) as H1.
    assert (clean_step a1 b (λ c, scope_clean scope → error_free expected = true → error_free actual = true →
      error_free t = true ∧ all_patterns_ok c (flat_map statement_children sts))) as H2.
    { destruct last; [|exact (IH _ _ _ _ _ E)].
      eapply step_weaken; [exact (step_trans _ _ _ _ _ (require_compatible_step _ _ _ _ _ _) (IH _ _ _ _ _ E))|].
      intros c _ [_ Q]. exact Q. }
    eapply step_weaken; [exact (step_trans _ _ _ _ _ H1 H2)|].
    intros c _ [Q1 Q2] Hc Hsc Hexp Hr. destruct (Q1 Hc Hsc) as [Hact Hp]; [by destruct last|].
    destruct (Q2 Hc Hsc Hexp Hact). split; [done|]. by apply all_patterns_ok_cons.
Qed.

Lemma check_block_clean block scope expected a t b :
  Forall (λ s, Forall infers_clean (statement_children s)) (body_statements block) →
  all_fieldless (flat_map statement_children (body_statements block)) →
  check_block file inf block scope expected a = (t, b) →
  clean_step a b (λ c, scope_clean scope → error_free expected = true →
    error_free t = true ∧ all_patterns_ok c (flat_map statement_children (body_statements block))).
Proof.
  destruct block as [sts span]. cbn [body_statements check_block]. intros Hf Hfl.
  destruct (check_statements file inf expected sts scope RtUnit a) as [r a1] eqn:E. intros [= <- <-].
  pose proof (check_statements_clean _ _ Hf Hfl _ _ _ _ _ E) as H1.
  assert (step a1 (match sts with [] => require_compatible file expected RtUnit span "function result" a1 | _ => a1 end)
    (λ _, True)) as H2.
  { destruct sts; [|by apply step_refl]. eapply step_weaken; [apply require_compatible_step|done]. }
  eapply step_weaken; [exact (step_trans _ _ _ _ _ H1 H2)|]. intros c _ [Q _] Hc Hsc Hexp. by apply Q.
Qed.

(** *** Expressions *)

Lemma patterns_ok_children a e :
  match ex_kind e with EMatch _ arms => Forall (λ arm, pattern_known a (arm_pattern arm)) arms | _ => True end →
  all_patterns_ok a (children e) → patterns_ok a e.
Proof. intros H1 H2. constructor; [|exact H2]. intros v arms E. by rewrite E in H1. Qed.

Lemma infer_literal_clean l span scope expected a t b :
  infer_literal file l span scope expected a = (t, b) →
  clean_step a b (λ _, scope_clean scope → expected_clean expected → error_free t = true).
Proof.
  destruct l as [|name| | |]; cbn; try (intros [= <- <-]; by apply step_refl).
  case_bool_decide as Hn.
  { destruct expected as [[]|]; cbn; intros [= <- <-]; try apply push_message_step; by apply step_refl. }
  destruct (scope !! name) as [ty|] eqn:Es; [intros [= <- <-]; apply step_refl; intros c _ _ Hsc _; by eapply Hsc|].
  destruct (an_functions a !! name) as [s|] eqn:Ef; intros [= <- <-]; [|apply push_message_step].
  apply step_refl. intros c Hc Hcl _ _. rewrite <-(ext_functions _ _ Hc) in Ef.
  destruct (cl_functions _ Hcl _ _ Ef) as [H1 H2]. cbn. by rewrite H1, H2.
Qed.

Lemma infer_path_clean segments span a t b :
  infer_path file segments span a = (t, b) → step a b (λ _, error_free t = true).
Proof.
  unfold infer_path. destruct (_ ≫= _) as [[[en v] [|f fields]]|]; intros [= <- <-]; try apply push_message_step.
  by apply step_refl.
Qed.

Lemma infer_kind_clean e scope expected a t b :
  Forall infers_clean (children e) → fieldless e = true → infer_expr_kind file inf e scope expected a = (t, b) →
  clean_step a b (λ c, scope_clean scope → expected_clean expected → error_free t = true ∧ patterns_ok c e).
Proof.
  intros Hf Hfl. unfold fieldless in Hfl. rewrite every_children in Hfl. apply andb_true_iff in Hfl as [Hkind Hfl].
  fold fieldless in Hfl.
  assert (∀ c, (error_free t = true ∧ all_patterns_ok c (children e)) →
    match ex_kind e with EMatch _ arms => Forall (λ arm, pattern_known c (arm_pattern arm)) arms | _ => True end →
    error_free t = true ∧ patterns_ok c e) as Hdone.
  { intros c [? ?] ?. split; [done|by apply patterns_ok_children]. }
  destruct e as [kind span].
  destruct kind as [m o|o|l|p|items|callee args|o n|u o|op lhs rhs|value arms|block]; cbn in Hf, Hfl, Hkind;
    cbn [infer_expr_kind children ex_kind] in *.
  - apply Forall_inv in Hf. rewrite andb_true_r in Hfl. unfold infer_borrow.
    destruct (inf o scope None _) as [t1 b1] eqn:E. intros [= <- <-].
    eapply step_weaken; [exact (step_trans _ _ _ _ _ (if_step _ _ _ _ _ _) (Hf _ _ _ _ _ E Hfl))|].
    intros c _ [_ Q] Hc Hsc _. destruct (Q Hc Hsc I). apply Hdone; [|done]. split; [done|].
    apply all_patterns_ok_cons; [done|apply all_patterns_ok_nil].
  - apply Forall_inv in Hf. rewrite andb_true_r in Hfl. unfold infer_await. intros E.
    eapply step_weaken; [exact (step_trans _ _ _ _ _ (if_step _ _ _ _ _ _) (Hf _ _ _ _ _ E Hfl))|].
    intros c _ [_ Q] Hc Hsc Hexp. destruct (Q Hc Hsc Hexp). apply Hdone; [|done]. split; [done|].
    apply all_patterns_ok_cons; [done|apply all_patterns_ok_nil].
  - intros E. eapply step_weaken; [exact (infer_literal_clean _ _ _ _ _ _ _ E)|]. intros c _ Q Hc Hsc Hexp.
    apply Hdone; [|done]. split; [by apply Q|apply all_patterns_ok_nil].
  - intros E. eapply step_weaken; [exact (infer_path_clean _ _ _ _ _ E)|]. intros c _ Q Hc Hsc Hexp.
    apply Hdone; [|done]. split; [by apply Q|apply all_patterns_ok_nil].
  - unfold infer_array. destruct (infer_items _ _ _ _ _ _ _) as [t1 b1] eqn:E. intros [= <- <-].
    eapply step_weaken; [exact (infer_items_clean _ _ _ Hf Hfl _ _ _ _ E)|].
    intros c _ Q Hc Hsc Hexp. apply Hdone; [|done].
    apply Q; [done|done|..]; destruct expected as [[]|]; done.
  - apply Forall_cons in Hf as [Hcallee Hargs]. apply andb_true_iff in Hfl as [Hfc Hfa]. intros E.
    eapply step_weaken; [exact (infer_call_clean _ _ _ _ _ _ _ _ Hcallee Hfc Hargs Hfa E)|].
    intros c _ Q Hc Hsc Hexp. apply Hdone; [by apply Q|done].
  - discriminate Hkind.
  - apply Forall_inv in Hf. rewrite andb_true_r in Hfl. unfold infer_unary.
    destruct (inf o scope None a) as [t1 b1] eqn:E. intros H.
    assert (step b1 b (λ _, True) ∧ (error_free t1 = true → error_free t = true)) as [H2 Ht].
    { destruct u; injection H as <- <-; (split; [|auto]); [by apply step_refl|eapply step_weaken; [apply require_compatible_step|done]]. }
    eapply step_weaken; [exact (step_trans _ _ _ _ _ (Hf _ _ _ _ _ E Hfl) H2)|].
    intros c _ [Q _] Hc Hsc _. destruct (Q Hc Hsc I). apply Hdone; [|done]. split; [auto|].
    apply all_patterns_ok_cons; [done|apply all_patterns_ok_nil].
  - apply Forall_cons in Hf as [Hl Hr%Forall_inv]. rewrite andb_true_r in Hfl. apply andb_true_iff in Hfl as [Hfl Hfr].
    unfold infer_binary. destruct (inf lhs scope None a) as [l a1] eqn:E1. destruct (inf rhs scope (Some l) a1) as [r a2] eqn:E2.
    intros H. assert (step a2 b (λ _, True) ∧ (error_free l = true → error_free t = true)) as [H3 Ht].
    { destruct (comparison op); [|destruct (logical op)]; injection H as <- <-; (split; [|auto]);
        (eapply step_weaken; [first [apply require_compatible_step|
          eapply step_trans; apply require_compatible_step]|done]). }
    eapply step_weaken; [exact (step_trans _ _ _ _ _ (Hl _ _ _ _ _ E1 Hfl) (step_trans _ _ _ _ _ (Hr _ _ _ _ _ E2 Hfr) H3))|].
    intros c _ (Q1 & Q2 & _) Hc Hsc _. destruct (Q1 Hc Hsc I) as [Hlt ?]. destruct (Q2 Hc Hsc Hlt). apply Hdone; [|done].
    split; [auto|]. by apply all_patterns_ok_cons, all_patterns_ok_cons, all_patterns_ok_nil.
  - apply Forall_cons in Hf as [Hv Harms%Forall_flat_map_inv]. apply andb_true_iff in Hfl as [Hfv Hfa].
    unfold infer_match, check_match.
    destruct (inf value scope None a) as [vt a1] eqn:E1.
    destruct (check_arms _ _ _ _ _ _ _ _) as [r a2] eqn:E2. intros [= <- <-].
    assert (step a2 (check_exhaustive file span vt arms a2) (λ _, True)) as H3.
    { split; [apply check_exhaustive_extends|done]. }
    eapply step_weaken; [exact (step_trans _ _ _ _ _ (Hv _ _ _ _ _ E1 Hfv)
      (step_trans _ _ _ _ _ (check_arms_clean _ _ _ _ Harms Hfa _ _ _ _ E2) H3))|].
    intros c _ (Q1 & Q2 & _) Hc Hsc Hexp. destruct (Q1 Hc Hsc I) as [Hvt ?].
    destruct (Q2 Hc Hvt Hsc Hexp) as (? & ? & ?); [by destruct expected|].
    apply Hdone; [split; [done|by apply all_patterns_ok_cons]|done].
  - apply Forall_flat_map_inv in Hf. intros E.
    eapply step_weaken; [exact (check_block_clean _ _ _ _ _ _ Hf Hfl E)|].
    intros c _ Q Hc Hsc Hexp. apply Hdone; [|done]. apply Q; [done|done|by destruct expected].
Qed.

Lemma infer_expr_clean e : infers_clean e.
Proof.
  induction e as [e IH] using expr_children_ind. intros scope expected a t b.
  rewrite infer_expr_unfold. destruct (infer_expr_kind file inf e scope expected a) as [t1 b1] eqn:E.
  intros [= <- <-] Hfl. pose proof (infer_kind_clean _ _ _ _ _ _ IH Hfl E) as H1.
  assert (step b1 (set_expression_types (<[ex_span e := t1]> (an_expression_types b1)) b1) (λ _, True)) as H2.
  { split; [|done]. split; try done. cbn. rewrite dom_insert_L. set_solver. }
  eapply step_weaken; [exact (step_trans _ _ _ _ _ H1 H2)|]. intros c _ [Q _]. exact Q.
Qed.
End clean.

(** * Semantic analysis: the tables of an accepted file

    What the silent declaration passes leave behind: tables free of the error type,
    whose functions and variants are those of the items. *)

Open Scope string_scope.
Open Scope list_scope.

Section tables.
Context (file : string).

(** ** Parts of declarations *)

Lemma Forall2_all_clean {X} (l : list X) ts : Forall2 (λ _ t, error_free t = true) l ts → all_clean ts.
Proof. induction 1 as [|? ? ? ? H1 _ H2]; [done|]. cbn. by rewrite H1, H2. Qed.

Lemma resolve_types_clean {X} (g : X → TypeNode) l a ts b :
  map_state (λ x, resolve_type file (g x)) l a = (ts, b) → silent a b → builtin_kinds a → all_clean ts.
Proof.
  intros E Hs Ha. eapply Forall2_all_clean.
  eapply (map_state_clean (λ x, resolve_type file (g x)) (λ _ t, error_free t = true)); [| |exact E|done|done].
  - intros x c. apply resolve_type_extends.
  - apply Forall_true. intros x. apply resolve_type_clean.
Qed.

Lemma resolve_variants_clean l a vs b :
  resolve_variants file l a = (vs, b) → silent a b → builtin_kinds a →
  Forall2 (λ v p, p.1 = ev_name v ∧ all_clean p.2) l vs.
Proof.
  unfold resolve_variants. intros E Hs Ha.
  eapply (map_state_clean _ (λ v p, p.1 = ev_name v ∧ all_clean p.2)); [| |exact E|done|done].
  - intros v c. assert (extends c (map_state (resolve_type file) (ev_fields v) c).2) as H by exact (resolve_types_extends file (λ ty, ty) _ c).
    cbn beta. by destruct (map_state _ (ev_fields v) c).
  - apply Forall_true. intros v c p d Ev Hs' Hc.
    destruct (map_state (resolve_type file) (ev_fields v) c) as [ts d'] eqn:Et. injection Ev as <- <-. split; [done|].
    by eapply (resolve_types_clean (λ ty, ty)).
Qed.

Lemma resolve_signature_clean ps r a s b :
  resolve_signature file ps r a = (s, b) → silent a b → builtin_kinds a →
  all_clean (sig_parameters s) ∧ error_free (sig_result s) = true.
Proof.
  unfold resolve_signature. intros E Hs Ha. pose proof (resolve_types_extends file pa_ty ps a) as X1.
  destruct (map_state _ ps a) as [ts a1] eqn:E1. pose proof (option_state_extends file r a1) as X2.
  destruct (option_state _ r a1) as [o a2] eqn:E2. cbn in X1, X2. injection E as <- <-.
  destruct (extends_silent _ _ _ X1 X2 Hs) as [S1 S2]. cbn. split; [by eapply resolve_types_clean|].
  destruct r as [ty|]; cbn in E2; [|by injection E2 as <- <-].
  destruct (resolve_type file ty a1) as [t a3] eqn:E3. injection E2 as <- <-. cbn.
  eapply resolve_type_clean; [exact E3|done|]. by eapply builtin_kinds_extends.
Qed.

(** ** The tables *)

Record tables_ok (items : list Item) (a : Analyzer) : Prop := {
  tb_clean : clean a;
  tb_functions : ∀ f, is_Some (an_functions a !! f) → f ∈ map item_name items;
  tb_variants : ∀ t n, is_Some (enum_variant t n a) → variant_key t n ∈ flat_map member_keys items
}.

Lemma tables_ok_extends items a b : extends a b → tables_ok items a → tables_ok items b.
Proof.
  intros H [H1 H2 H3]. split; [by apply (clean_extends _ _ H)|by rewrite (ext_functions _ _ H)|].
  intros t n. rewrite (enum_variant_extends _ _ _ _ H). apply H3.
Qed.

Lemma tables_ok_same items a b :
  an_symbols b = an_symbols a → an_functions b = an_functions a → an_enums b = an_enums a → an_states b = an_states a →
  tables_ok items a → tables_ok items b.
Proof.
  intros E1 E2 E3 E4 [[H1 H2 H3 H4] H5 H6]. unfold builtin_kinds, enum_variant in *.
  split; [split|..]; unfold builtin_kinds, enum_variant; rewrite ?E1, ?E2, ?E3, ?E4; done.
Qed.

Lemma tables_ok_function items a f s :
  tables_ok items a → f ∈ map item_name items → all_clean (sig_parameters s) ∧ error_free (sig_result s) = true →
  tables_ok items (set_functions (<[f := s]> (an_functions a)) a).
Proof.
  intros [[H1 H2 H3 H4] H5 H6] Hf Hs. split; [split|..]; try done; cbn.
  - intros g s' [[_ <-]|[_ Hg]]%lookup_insert_Some; [done|by eapply H3].
  - intros g. rewrite lookup_insert_is_Some. intros [<-|[_ Hg]]; [done|by apply H5].
Qed.

Lemma tables_ok_state items a n types :
  tables_ok items a → all_clean types → tables_ok items (set_states (<[n := types]> (an_states a)) a).
Proof.
  intros [[H1 H2 H3 H4] H5 H6] Hs. split; [split|..]; try done; cbn.
  intros m ts [[_ <-]|[_ Hg]]%lookup_insert_Some; [done|by eapply H4].
Qed.

Lemma find_variant_elem vs n types : find_variant vs n = Some types → (n, types) ∈ vs.
Proof.
  unfold find_variant. destruct (List.find _ vs) as [[m ts]|] eqn:E; [|done]. intros [= <-].
  apply find_some in E as [E Hn]. apply bool_decide_eq_true in Hn. cbn in Hn. subst. by apply list_elem_of_In.
Qed.

Lemma tables_ok_enum items a n vs :
  tables_ok items a → ItemEnum n ∈ items → Forall2 (λ v p, p.1 = ev_name v ∧ all_clean p.2) (en_variants n) vs →
  tables_ok items (set_enums (<[en_name n := vs]> (an_enums a)) a).
Proof.
  intros [[H1 H2 H3 H4] H5 H6] Hn Hvs.
  assert (∀ v types, find_variant vs v = Some types →
    all_clean types ∧ variant_key (en_name n) v ∈ flat_map member_keys items) as Hfind.
  { intros v types Hv%find_variant_elem. apply list_elem_of_lookup in Hv as [i Hi].
    destruct (Forall2_lookup_r _ _ _ _ _ Hvs Hi) as (x & Hx & Hname & Hc). split; [done|].
    apply list_elem_of_In, in_flat_map. exists (ItemEnum n). rewrite <-!list_elem_of_In. split; [done|]. cbn.
    apply list_elem_of_fmap. exists x. cbn in Hname. rewrite Hname. split; [done|]. by eapply list_elem_of_lookup_2. }
  assert (∀ t v, enum_variant t v (set_enums (<[en_name n := vs]> (an_enums a)) a) =
    if bool_decide (en_name n = t) then find_variant vs v else enum_variant t v a) as Hev.
  { intros t v. unfold enum_variant. cbn. case_bool_decide as Ht; [subst; by rewrite lookup_insert_eq|].
    by rewrite lookup_insert_ne. }
  split; [split|..]; try done.
  - intros t v types. rewrite Hev. case_bool_decide; [by intros []%Hfind|apply H2].
  - intros t v. rewrite Hev. case_bool_decide as Ht; [subst; by intros [types []%Hfind]|apply H6].
Qed.

Lemma declared_tables items a item :
  item ∈ items → tables_ok items a → silent a (resolve_declaration file a item) →
  tables_ok items (resolve_declaration file a item).
Proof.
  intros Hin Ha. pose proof (cl_kinds _ (tb_clean _ _ Ha)) as Hk.
  assert (item_name item ∈ map item_name items) as Hname by by apply list_elem_of_fmap_2.
  destruct item as [n|n|n|n|n|n|n]; cbn [resolve_declaration item_name] in *.
  - unfold resolve_struct. destruct (_ <$> _) as [[]|]; try done.
    pose proof (resolve_fields_extends file (sn_fields n) a) as H. destruct (resolve_fields file _ a) as [x b].
    intros _. eapply tables_ok_same; [..|exact (tables_ok_extends _ _ _ H Ha)]; done.
  - unfold resolve_enum. destruct (_ <$> _) as [[]|]; try done.
    pose proof (resolve_variants_extends file (en_variants n) a) as H.
    destruct (resolve_variants file _ a) as [x b] eqn:E. intros Hs.
    apply tables_ok_enum; [exact (tables_ok_extends _ _ _ H Ha)|done|]. by eapply resolve_variants_clean.
  - unfold resolve_function_signature. destruct (_ <$> _) as [[]|], (an_functions a !! fnn_name n); try done.
    pose proof (resolve_signature_extends file (fnn_parameters n) (fnn_return_type n) a) as H.
    destruct (resolve_signature _ _ _ a) as [s b] eqn:E. intros Hs.
    apply tables_ok_function; [exact (tables_ok_extends _ _ _ H Ha)|done|]. by eapply resolve_signature_clean.
  - unfold resolve_state_signature. pose proof (resolve_types_extends file stf_ty (stn_fields n) a) as H.
    destruct (map_state _ _ a) as [x b] eqn:E. destruct (an_states b !! stn_name n); intros Hs;
      [exact (tables_ok_extends _ _ _ H Ha)|].
    apply tables_ok_state; [exact (tables_ok_extends _ _ _ H Ha)|]. by eapply resolve_types_clean.
  - unfold resolve_agent_contract. destruct (an_agents a !! ag_name n); [done|].
    pose proof (resolve_contract_extends file (ag_fields n) a) as H. destruct (resolve_contract _ _ a) as [x b].
    intros _. pose proof (resolve_property_types_extends file (λ f, negb (one_of (prop_name f) ["input"; "output"])) (ag_fields n) b) as H2.
    eapply tables_ok_same; [..|exact (tables_ok_extends _ _ _ (transitivity H H2) Ha)]; done.
  - unfold resolve_pipeline_signature.
    pose proof (resolve_signature_extends file (pn_parameters n) (pn_return_type n) a) as H.
    destruct (resolve_signature _ _ _ a) as [s b] eqn:E. cbn in H.
    set (c := match an_functions b !! pn_name n with Some _ => b | None => _ end). intros Hs.
    pose proof (resolve_property_types_extends file (λ _, true) (pn_fields n) c) as H2.
    eapply tables_ok_extends; [exact H2|].
    assert (silent a b) as Hsb.
    { eapply (prefix_silent a b (resolve_property_types file (λ _, true) (pn_fields n) c)); [apply H|..|done].
      etrans; [|apply H2]. subst c. by destruct (an_functions b !! pn_name n). }
    subst c. destruct (an_functions b !! pn_name n); [exact (tables_ok_extends _ _ _ H Ha)|].
    apply tables_ok_function; [exact (tables_ok_extends _ _ _ H Ha)|done|]. by eapply resolve_signature_clean.
  - intros _. pose proof (resolve_types_extends file pa_ty (sb_parameters n) a) as H.
    destruct (map_state _ _ a) as [x b]. cbn in H.
    pose proof (resolve_property_types_extends file (λ _, true) (sb_fields n) b) as H2.
    exact (tables_ok_extends _ _ _ (transitivity H H2) Ha).
Qed.

Lemma collected_tables ast : tables_ok (ast_items ast) (collect_declarations file ast analyzer_new).
Proof.
  rewrite collect_declare. pose proof (declare_all_exact file (named_items ast)) as [Ht _].
  set (a := foldl _ _ _) in *.
  assert (an_functions a = ∅ ∧ an_enums a = ∅ ∧ an_states a = ∅) as (Ef & Ee & Es).
  { subst a. clear Ht. induction (named_items ast) as [|e l IH] using rev_ind; [done|]. rewrite foldl_app. cbn.
    destruct IH as (<- & <- & <-). unfold declare, insert_type, insert_value.
    destruct (symbol_cases e) as [(s & -> & _)|(s & -> & ->)]; by destruct (_ !! _). }
  assert (∀ t n, enum_variant t n a = None) as Hev.
  { intros t n. unfold enum_variant. by rewrite Ee, lookup_empty. }
  split; [split|..].
  - intros name s. rewrite Ht. destruct (builtin_types !! name) as [s'|] eqn:Eb.
    + intros [= <-]. apply builtin_types_lookup in Eb as [[-> ?]|(n & -> & ?)]; done.
    + unfold first_type. intros Hf%find_some. destruct Hf as [Hf _]. apply list_elem_of_In, list_elem_of_omap in Hf as ([? []] & _ & Hf);
        cbn in Hf; first [discriminate Hf|by injection Hf as <-].
  - intros t n types. by rewrite Hev.
  - intros f s. by rewrite Ef, lookup_empty.
  - intros f s. by rewrite Es, lookup_empty.
  - intros f. rewrite Ef, lookup_empty. by intros [].
  - intros t n. rewrite Hev. by intros [].
Qed.

Lemma resolved_tables items l a :
  (∀ item, item ∈ l → item ∈ items) → tables_ok items a → silent a (foldl (resolve_declaration file) a l) →
  tables_ok items (foldl (resolve_declaration file) a l).
Proof.
  revert a. induction l as [|item l IH]; intros a Hl Ha Hs; [done|]. cbn in *.
  destruct (grows_silent _ _ _ (proj1 (resolve_declaration_resolves file item a)) (resolve_all_grows file l _) Hs) as [S1 S2].
  apply IH; [set_solver| |done]. apply declared_tables; [set_solver|done|done].
Qed.

(** ** Bodies *)

(** The expressions of an item that are lowered, and what their patterns need. *)
Definition lowered_expressions (item : Item) : list Expr :=
  match item with
  | ItemFunction n => flat_map statement_children (body_statements (fnn_body n))
  | ItemPipeline n => option_list (prop_value <$> first_property (pn_fields n) "result")
  | _ => []
  end.

Lemma parameter_scope_clean ps types : all_clean types → scope_clean (parameter_scope ps types).
Proof.
  intros Ht. unfold parameter_scope.
  assert (∀ m : scope_map, scope_clean m →
    scope_clean (foldl (λ (m : scope_map) '(p, ty), <[pa_name p := ty]> m) m (zip ps types))) as H.
  { revert types Ht. induction ps as [|p ps IH]; intros [|ty types] Ht m Hm; try done. cbn in *.
    apply andb_true_iff in Ht as [H1 H2]. apply IH; [done|]. by apply scope_clean_insert. }
  apply H. intros x t Hx. by rewrite lookup_empty in Hx.
Qed.

Lemma check_function_clean n a :
  forallb fieldless (lowered_expressions (ItemFunction n)) = true →
  step a (check_function file n a) (λ c, clean c → item_known a (ItemFunction n) →
    all_patterns_ok c (lowered_expressions (ItemFunction n))).
Proof.
  intros Hfl. unfold check_function. cbn [item_known]. destruct (an_functions a !! fnn_name n) as [s|] eqn:E.
  2: { apply step_refl. by intros c _ _ [? ?]. }
  set (scope := parameter_scope _ _). set (a0 := set_async (fnn_asynchronous n) a).
  destruct (check_block file (infer_expr file) (fnn_body n) scope (sig_result s) a0) as [t a1] eqn:Eb.
  assert (Forall (λ st, Forall (infers_clean file) (statement_children st)) (body_statements (fnn_body n))) as Hall.
  { apply Forall_true. intros st. apply Forall_true. apply infer_expr_clean. }
  pose proof (check_block_clean file _ _ _ _ _ _ Hall Hfl Eb) as [X Hh].
  split; [destruct X; by split|]. intros Hs c Hc Hcl _.
  assert (extends a1 (set_async (an_async a1) c)) as Hc' by (destruct Hc; by split).
  assert (clean (set_async (an_async a1) c)) as Hcl' by (destruct Hcl; by split).
  assert (an_functions c !! fnn_name n = Some s) as Hfun.
  { rewrite (ext_functions _ _ Hc). cbn. by rewrite (ext_functions _ _ X). }
  destruct (cl_functions _ Hcl _ _ Hfun) as [Hps Hres].
  destruct (Hh Hs _ Hc' Hcl' (parameter_scope_clean _ _ Hps) Hres) as [_ Hp].
  intros e He. eapply patterns_ok_enums; [|exact (Hp e He)]. done.
Qed.

Lemma check_pipeline_clean n a :
  forallb fieldless (lowered_expressions (ItemPipeline n)) = true →
  step a (check_pipeline file n a) (λ c, clean c → all_patterns_ok c (lowered_expressions (ItemPipeline n))).
Proof.
  unfold check_pipeline, check_result. cbn [lowered_expressions]. set (s := default _ _). set (a1 := check_agent file n s a).
  assert (extends a a1) as X1 by apply check_agent_extends.
  assert (step a a1 (λ c, clean c → all_clean (sig_parameters s) ∧ error_free (sig_result s) = true)) as H1.
  { split; [done|]. intros _ c Hc Hcl. subst s. destruct (an_functions a !! pn_name n) as [s|] eqn:E; [|done].
    apply (cl_functions _ Hcl (pn_name n)). by rewrite (ext_functions _ _ Hc), (ext_functions _ _ X1). }
  destruct (first_property (pn_fields n) "result") as [p|]; cbn.
  2: { intros _. eapply step_weaken; [exact H1|]. intros. apply all_patterns_ok_nil. }
  rewrite andb_true_r. intros Hfl.
  set (r := match prop_ty p with Some ty => _ | None => _ end).
  assert (step a1 r.2 (λ c, clean c → error_free (sig_result s) = true → error_free r.1 = true)) as H2.
  { subst r. destruct (prop_ty p) as [ty|]; [|by apply step_refl].
    destruct (resolve_type file ty a1) as [t b] eqn:E. eapply step_weaken; [exact (resolve_type_clean_step _ _ _ _ _ E)|].
    intros c _ H Hcl _. by apply H. }
  destruct r as [declared a2]. cbn in H2.
  destruct (infer_expr file (prop_value p) _ _ _) as [t a3] eqn:E.
  pose proof (infer_expr_clean file _ _ _ _ _ _ E Hfl) as H3.
  eapply step_weaken; [eapply step_trans; [exact H1|eapply step_trans; [exact H2|eapply step_trans;
    [apply require_compatible_step|eapply step_trans; [exact H3|apply require_compatible_step]]]]|].
  intros c _ (Q1 & Q2 & _ & Q3 & _) Hcl. destruct (Q1 Hcl) as [Hps Hres].
  destruct (Q3 Hcl (parameter_scope_clean _ _ Hps) (Q2 Hcl Hres)) as [_ Hp].
  apply all_patterns_ok_cons; [done|apply all_patterns_ok_nil].
Qed.

Lemma check_items_clean items a :
  forallb fieldless (flat_map lowered_expressions items) = true →
  step a (foldl (check_item file) a items) (λ c, clean c → ∀ item, item ∈ items → item_known a item →
    all_patterns_ok c (lowered_expressions item)).
Proof.
  revert a. induction items as [|i items IH]; intros a; cbn; [intros _; apply step_refl; set_solver|].
  rewrite forallb_app. intros [Hi Hl]%andb_true_iff.
  assert (step a (check_item file a i) (λ c, clean c → item_known a i → all_patterns_ok c (lowered_expressions i))) as H1.
  { destruct i as [n|n|n|n|n|n|n]; try (apply step_refl; intros; apply all_patterns_ok_nil).
    - by apply check_function_clean.
    - eapply step_weaken; [apply check_state_step|]. intros. apply all_patterns_ok_nil.
    - eapply step_weaken; [by apply check_pipeline_clean|]. auto. }
  eapply step_weaken; [eapply step_trans; [exact H1|exact (IH _ Hl)]|].
  intros c _ [Q1 Q2] Hcl item [->|Hin]%elem_of_cons Hk; [by apply Q1|].
  apply Q2; [done|done|]. by eapply item_known_extends; [apply (step_extends _ _ _ H1)|].
Qed.
End tables.
