(* ===== verification/LowerAccepted.v ===== *)
(** * Lowering of accepted files

    Names the analyser has resolved are found again by the lowerer: the bodies of
    an accepted file without field accesses are lowered without a report, with one
    identity per binder. *)

From stdpp Require Import base gmap strings numbers list.
From S2P Require Import Prelude Text Ir Hir Diagnostics Ast Semantic SemanticBodies SemanticTheorems.
From S2P Require Import SemanticAccepted SemanticClean Lower LowerNames LowerTheorems LowerPrograms.
Open Scope string_scope.
Open Scope list_scope.
Open Scope nat_scope.

(** ** Counts over the expressions *)

Definition total {A} (g : A → nat) (l : list A) : nat := foldr (λ x n, g x + n) 0 l.

Lemma total_app {A} (g : A → nat) l k : total g (l ++ k) = total g l + total g k.
Proof. induction l as [|x l IH]; simpl; [done|]. rewrite IH. lia. Qed.

Lemma total_flat_map {A B} (g : B → nat) (h : A → list B) l : total g (flat_map h l) = total (λ x, total g (h x)) l.
Proof. induction l as [|x l IH]; simpl; [done|]. by rewrite total_app, IH. Qed.

Lemma total_single {A} (g : A → nat) x : total g [x] = g x.
Proof. apply Nat.add_0_r. Qed.

Lemma total_map {A B} (g : B → nat) (h : A → B) l : total g (map h l) = total (λ x, g (h x)) l.
Proof. induction l as [|x l IH]; simpl; [done|]. by rewrite IH. Qed.

Lemma total_cons {A} (g : A → nat) x l : total g (x :: l) = g x + total g l.
Proof. done. Qed.

Lemma total_add {A} (g h : A → nat) l : total (λ x, g x + h x) l = total g l + total h l.
Proof. induction l as [|x l IH]; simpl; [done|]. rewrite IH. lia. Qed.

Lemma total_eq {A} (g h : A → nat) l : (∀ x, g x = h x) → total g l = total h l.
Proof. intros H. induction l as [|x l IH]; simpl; [done|]. by rewrite H, IH. Qed.

Fixpoint tally (w : Expr → nat) (e : Expr) : nat :=
  w e +
  match e with
  | Ex kind _ =>
      match kind with
      | EBorrow _ o | EAwait o | EUnary _ o | EField o _ => tally w o
      | ELiteral _ | EPath _ => 0
      | EArray items => total (tally w) items
      | ECall callee arguments => tally w callee + total (λ x, match x with mkArgument _ v _ => tally w v end) arguments
      | EBinary _ lhs rhs => tally w lhs + tally w rhs
      | EMatch value arms =>
          tally w value +
          total (λ arm, match arm with
                        | mkMatchArm _ guard body _ => match guard with Some g => tally w g | None => 0 end + tally w body
                        end) arms
      | EBlock (mkBody sts _) =>
          total (λ s, match s with
                      | mkStatement kind _ =>
                          match kind with
                          | SLet _ _ v | SExpression v => tally w v
                          | SReturn (Some v) => tally w v
                          | SReturn None => 0
                          end
                      end) sts
      end
  end.

Lemma tally_children w e : tally w e = w e + total (tally w) (children e).
Proof.
  destruct e as [kind span]. unfold tally at 1. fold tally. f_equal. destruct kind; simpl; rewrite ?Nat.add_0_r; try done.
  - f_equal. induction arguments as [|[n v s] l IH]; simpl; [done|]. by rewrite IH.
  - f_equal. rewrite total_flat_map. apply total_eq. intros [q [g|] body s]; simpl; by rewrite ?Nat.add_0_r.
  - destruct block as [sts s]. unfold children. simpl. rewrite total_flat_map. apply total_eq.
    intros [[n ty v|[v|]|v] s']; simpl; by rewrite ?Nat.add_0_r.
Qed.

(** ** Binders *)

Definition let_binders (sts : list Statement) : nat :=
  total (λ s, match st_kind s with SLet _ _ _ => 1 | _ => 0 end) sts.
Definition arm_binders (arms : list MatchArm) : nat := total (λ arm, length (pattern_binders (arm_pattern arm))) arms.

Definition own_binders (e : Expr) : nat :=
  match ex_kind e with
  | EMatch _ arms => arm_binders arms
  | EBlock b => let_binders (body_statements b)
  | _ => 0
  end.

Abbreviation binders := (tally own_binders).

Definition body_binders (b : Block) : nat :=
  let_binders (body_statements b) + total binders (flat_map statement_children (body_statements b)).

(** ** Silent steps of the lowerer *)

(** Nothing is reported and at most [n] identities are given out. *)
Record hushed (n : nat) (l l' : Lowerer) : Prop := {
  qt_globals : lw_globals l' = lw_globals l;
  qt_members : lw_members l' = lw_members l;
  qt_diagnostics : lw_diagnostics l' = lw_diagnostics l;
  qt_low : (lw_next l ≤ lw_next l')%N;
  qt_next : (lw_next l' ≤ lw_next l + N.of_nat n)%N;
  qt_panicked : lw_panicked l' = true → lw_panicked l = true ∨ (u32_max < lw_next l')%N
}.

Lemma hushed_refl l : hushed 0 l l.
Proof. split; try done; [lia|auto]. Qed.

Lemma hushed_trans n m a b c : hushed n a b → hushed m b c → hushed (n + m) a c.
Proof.
  intros [? ? ? ? ? P1] [? ? ? ? ? P2]. split; try congruence; [lia|lia|].
  intros [[|]%P1|]%P2; auto. right. lia.
Qed.

Lemma hushed_weaken n m a b : hushed n a b → n ≤ m → hushed m a b.
Proof. intros [] H. split; try done. lia. Qed.

Section accepted.
Context (module : N) (symbols : SymbolTable) (expression_types : gmap Span ResolvedType).
Context (c : Analyzer).

Lemma allocate_quiet l : hushed 1 l (allocate module l).2.
Proof.
  split; cbn; try done; [lia|]. intros [|Hm]%orb_true_iff; [by left|]. apply bool_decide_eq_true in Hm. right. lia.
Qed.

(** The functions and variants the analyser knows have identities. *)
Record names_ok (l : Lowerer) : Prop := {
  no_functions : ∀ f, is_Some (an_functions c !! f) → is_Some (lw_globals l !! f);
  no_variants : ∀ t n, is_Some (enum_variant t n c) → is_Some (lw_members l !! variant_key t n)
}.

Lemma names_ok_quiet n l l' : hushed n l l' → names_ok l → names_ok l'.
Proof. intros Hq [H1 H2]. split; [by rewrite (qt_globals _ _ _ Hq)|by rewrite (qt_members _ _ _ Hq)]. Qed.

Lemma resolve_variant_quiet t n span l id l' :
  names_ok l → variant_known c t n → resolve_member (join "::" [t; n]) span l = (id, l') → l' = l.
Proof.
  intros Hok Hv. unfold resolve_member. change (join "::" [t; n]) with (variant_key t n).
  destruct (lw_members l !! variant_key t n) as [i|] eqn:E; [by intros [= <- <-]|].
  destruct Hv as [[-> Hv]|[[-> Hv]|Hv]].
  - destruct Hv as [-> | ->]; cbn; by intros [= <- <-].
  - destruct Hv as [-> | ->]; cbn; by intros [= <- <-].
  - apply (no_variants _ Hok) in Hv as [i Hi]. congruence.
Qed.

(** ** Patterns *)

Abbreviation fields_known := (fix go (l : list Pattern) : Prop := match l with [] => True | p :: l => pattern_known c p ∧ go l end).

Definition quiet_pattern (p : Pattern) : Prop :=
  ∀ scope l h scope' l', lower_pattern module p scope l = (h, scope', l') → names_ok l → pattern_known c p →
    hushed (length (pattern_binders p)) l l' ∧ pattern_names p ∪ dom scope ⊆ dom scope'.

Lemma lower_fields_quiet fields :
  Forall quiet_pattern fields →
  ∀ scope l hs scope' l', lower_fields (lower_pattern module) fields scope l = (hs, scope', l') → names_ok l →
    fields_known fields →
    hushed (length (flat_map pattern_binders fields)) l l' ∧ ⋃ (map pattern_names fields) ∪ dom scope ⊆ dom scope'.
Proof.
  induction 1 as [|p fields Hp _ IH]; intros scope l hs scope' l'; cbn.
  { intros [= <- <- <-] _ _. split; [apply hushed_refl|set_solver]. }
  destruct (lower_pattern module p scope l) as [[h scope1] l1] eqn:E1.
  destruct (lower_fields (lower_pattern module) fields scope1 l1) as [[hs1 scope2] l2] eqn:E2.
  intros [= <- <- <-] Hok [Hk Hks]. destruct (Hp _ _ _ _ _ E1 Hok Hk) as [Q1 D1].
  destruct (IH _ _ _ _ _ E2 (names_ok_quiet _ _ _ Q1 Hok) Hks) as [Q2 D2].
  rewrite length_app. split; [by eapply hushed_trans|set_solver].
Qed.

Lemma lower_pattern_quiet p : quiet_pattern p.
Proof.
  revert p. fix IH 1. intros [kind span] scope l h scope' l'.
  destruct kind as [|path|path fields|literal]; cbn [lower_pattern pattern_binders pattern_names pattern_known].
  - intros [= <- <- <-] _ _. split; [apply hushed_refl|set_solver].
  - destruct path as [|name [|x path]].
    + by intros _ _ (t & n & ? & _).
    + intros [= <- <- <-] _ _. split; [apply allocate_quiet|]. rewrite dom_insert_L. set_solver.
    + destruct (resolve_member (join "::" (name :: x :: path)) span l) as [id l1] eqn:E.
      intros [= <- <- <-] Hok (t & n & Hpath & Hv). rewrite Hpath in E. apply resolve_variant_quiet in E as ->; [|done..].
      split; [apply hushed_refl|set_solver].
  - destruct (resolve_member (join "::" path) span l) as [id l1] eqn:E1.
    destruct (lower_fields (lower_pattern module) fields scope l1) as [[hs scope2] l2] eqn:E2.
    intros [= <- <- <-] Hok [(t & n & -> & Hv) Hks]. apply resolve_variant_quiet in E1 as ->; [|done..].
    eapply lower_fields_quiet; [|exact E2|done|done].
    clear -IH. induction fields as [|f fields IHf]; constructor; [apply IH|apply IHf].
  - intros [= <- <- <-] _ _. split; [apply hushed_refl|set_solver].
Qed.

(** ** Expressions *)

Abbreviation lower_expr := (lower_expression module symbols expression_types).

Definition lowers_quietly (e : Expr) : Prop :=
  ∀ S scope l h l', lower_expr e scope l = (h, l') → names_ok l → S ⊆ dom scope →
    reached c S e → patterns_ok c e → fieldless e = true → hushed (binders e) l l'.

Lemma lower_path_quiet t n scope span l h l' :
  lower_expr (Ex (EPath [t; n]) span) scope l = (h, l') → names_ok l → variant_known c t n → l' = l.
Proof.
  cbn [lower_expression]. unfold lower_kind. destruct (resolve_member _ span l) as [id l1] eqn:E.
  intros [= <- <-] Hok Hv. by eapply resolve_variant_quiet.
Qed.

Lemma constructor_arity_known t n k : constructor_arity c t n = Some k → variant_known c t n.
Proof.
  unfold constructor_arity, variant_known. repeat case_bool_decide; subst; cbn; try done; auto 10.
  intros Hk. right; right. by destruct (enum_variant t n c).
Qed.

Lemma map_state_quiet {X Y} (g : X → Lowerer → Y * Lowerer) (w : X → nat) items :
  (∀ x, x ∈ items → ∀ l y l', g x l = (y, l') → names_ok l → hushed (w x) l l') →
  ∀ l ys l', map_state g items l = (ys, l') → names_ok l → hushed (total w items) l l'.
Proof.
  induction items as [|x items IH]; intros Hg l ys l'; cbn; [intros [= <- <-] _; apply hushed_refl|].
  destruct (g x l) as [y l1] eqn:E1. destruct (map_state g items l1) as [ys1 l2] eqn:E2. intros [= <- <-] Hok.
  assert (hushed (w x) l l1) as Q1 by (eapply Hg; [by left|done|done]).
  eapply hushed_trans; [exact Q1|]. eapply IH; [|exact E2|by eapply names_ok_quiet]. intros z Hz. apply Hg. by right.
Qed.

Lemma lower_optional_quiet e S scope l h l' :
  Forall lowers_quietly (option_list e) → lower_optional lower_expr e scope l = (h, l') → names_ok l → S ⊆ dom scope →
  all_reached c (map (pair S) (option_list e)) → all_patterns_ok c (option_list e) →
  forallb fieldless (option_list e) = true → hushed (total binders (option_list e)) l l'.
Proof.
  destruct e as [e|]; cbn; [|intros _ [= <- <-] **; apply hushed_refl].
  intros He%Forall_inv. destruct (lower_expr e scope l) as [h1 l1] eqn:E. intros [= <- <-] Hok HS Hr Hp.
  rewrite andb_true_r. intros Hf. rewrite Nat.add_0_r. eapply He; [exact E|done|exact HS|apply Hr|apply Hp|done]; by left.
Qed.

Lemma statements_quiet sts :
  Forall (λ s, Forall lowers_quietly (statement_children s)) sts →
  ∀ S scope l hs l', lower_statements module symbols lower_expr sts scope l = (hs, l') → names_ok l → S ⊆ dom scope →
    all_reached c (scoped_statements S sts) → all_patterns_ok c (flat_map statement_children sts) →
    forallb fieldless (flat_map statement_children sts) = true →
    hushed (let_binders sts + total binders (flat_map statement_children sts)) l l'.
Proof.
  induction 1 as [|[kind sp] sts Hs _ IH]; intros S scope l hs l'.
  { intros [= <- <-] **. apply hushed_refl. }
  assert (let_binders (mkStatement kind sp :: sts) = match kind with SLet _ _ _ => 1 | _ => 0 end + let_binders sts)
    as -> by done.
  cbn [flat_map scoped_statements].
  intros E Hok HS Hr Hp Hf. rewrite forallb_app in Hf. apply andb_true_iff in Hf as [Hf1 Hf2].
  rewrite total_app.
  assert (all_patterns_ok c (flat_map statement_children sts)) as Hp2 by (intros e He; apply Hp, elem_of_app; by right).
  assert (∀ S', bind_statement (mkStatement kind sp) S = S' → all_reached c (scoped_statements S' sts)) as Hr2.
  { intros S' <- S1 e He. apply Hr, elem_of_app. by right. }
  cbn [lower_statements] in E. destruct kind as [name ty value|value|value]; cbn [st_kind] in *.
  - apply Forall_inv in Hs. cbn in Hf1. rewrite andb_true_r in Hf1.
    destruct (lower_expr value scope l) as [h l1] eqn:E1. cbn [allocate] in E.
    match type of E with context [lower_statements _ _ _ sts ?sc ?la] =>
      destruct (lower_statements module symbols lower_expr sts sc la) as [hs1 l3] eqn:E3 end.
    injection E as <- <-.
    assert (hushed (binders value) l l1) as Q1.
    { eapply Hs; [exact E1|done|exact HS|apply Hr, elem_of_app; left; by left|apply Hp, elem_of_app; left; by left|done]. }
    pose proof (allocate_quiet l1) as Q2. pose proof (names_ok_quiet _ _ _ Q1 Hok) as Hok1.
    assert (hushed (let_binders sts + total binders (flat_map statement_children sts)) (allocate module l1).2 l3) as Q3.
    { eapply IH; [exact E3|by eapply names_ok_quiet| |exact (Hr2 _ eq_refl)|done|done]. rewrite dom_insert_L. cbn. set_solver. }
    eapply hushed_weaken; [exact (hushed_trans _ _ _ _ _ Q1 (hushed_trans _ _ _ _ _ Q2 Q3))|].
    cbn [statement_children st_kind]. rewrite total_single. lia.
  - destruct (lower_optional lower_expr value scope l) as [h l1] eqn:E1.
    destruct (lower_statements module symbols lower_expr sts scope l1) as [hs1 l2] eqn:E2. injection E as <- <-.
    assert (statement_children (mkStatement (SReturn value) sp) = option_list value) as Hv by by destruct value.
    rewrite Hv in *.
    assert (hushed (total binders (option_list value)) l l1) as Q1.
    { eapply lower_optional_quiet; [exact Hs|exact E1|done|exact HS| | |done].
      - intros S1 e He. apply Hr, elem_of_app. by left.
      - intros e He. apply Hp, elem_of_app. by left. }
    eapply hushed_weaken; [eapply hushed_trans; [exact Q1|]|].
    { eapply IH; [exact E2|by eapply names_ok_quiet|exact HS|exact (Hr2 _ eq_refl)|done|done]. }
    lia.
  - apply Forall_inv in Hs. cbn in Hf1. rewrite andb_true_r in Hf1.
    destruct (lower_expr value scope l) as [h l1] eqn:E1.
    destruct (lower_statements module symbols lower_expr sts scope l1) as [hs1 l2] eqn:E2. injection E as <- <-.
    assert (hushed (binders value) l l1) as Q1.
    { eapply Hs; [exact E1|done|exact HS|apply Hr, elem_of_app; left; by left|apply Hp, elem_of_app; left; by left|done]. }
    eapply hushed_weaken; [eapply hushed_trans; [exact Q1|]|].
    { eapply IH; [exact E2|by eapply names_ok_quiet|exact HS|exact (Hr2 _ eq_refl)|done|done]. }
    cbn [statement_children st_kind]. rewrite total_single. lia.
Qed.

Lemma lower_arm_quiet arm S scope l h l' :
  Forall lowers_quietly (arm_children arm) → lower_arm module lower_expr arm scope l = (h, l') → names_ok l →
  S ⊆ dom scope → all_reached c (map (pair (pattern_names (arm_pattern arm) ∪ S)) (arm_children arm)) →
  all_patterns_ok c (arm_children arm) → pattern_known c (arm_pattern arm) → forallb fieldless (arm_children arm) = true →
  hushed (length (pattern_binders (arm_pattern arm)) + total binders (arm_children arm)) l l'.
Proof.
  destruct arm as [p guard body sp]. unfold arm_children. cbn [lower_arm arm_pattern arm_guard arm_body].
  change (match guard with Some g => [g] | None => [] end) with (option_list guard).
  rewrite forallb_app, map_app, total_app.
  destruct (lower_pattern module p scope l) as [[hp scope1] l1] eqn:E1.
  destruct (lower_optional lower_expr guard scope1 l1) as [hg l2] eqn:E2.
  destruct (lower_expr body scope1 l2) as [hb l3] eqn:E3.
  intros [Hg Hb%Forall_inv]%Forall_app [= <- <-] Hok HS Hr Hp Hk [Hfg Hfb]%andb_true_iff.
  cbn in Hfb. rewrite andb_true_r in Hfb.
  destruct (lower_pattern_quiet p _ _ _ _ _ E1 Hok Hk) as [Q1 D1]. pose proof (names_ok_quiet _ _ _ Q1 Hok) as Hok1.
  assert (pattern_names p ∪ S ⊆ dom scope1) as HS1 by set_solver.
  assert (hushed (total binders (option_list guard)) l1 l2) as Q2.
  { eapply lower_optional_quiet; [exact Hg|exact E2|done|exact HS1| | |done].
    - intros S1 e He. apply Hr, elem_of_app. by left.
    - intros e He. apply Hp, elem_of_app. by left. }
  assert (hushed (binders body) l2 l3) as Q3.
  { eapply Hb; [exact E3|by eapply names_ok_quiet|exact HS1| | |done].
    - apply Hr, elem_of_app. right. by left.
    - apply Hp, elem_of_app. right. by left. }
  eapply hushed_weaken; [exact (hushed_trans _ _ _ _ _ Q1 (hushed_trans _ _ _ _ _ Q2 Q3))|]. rewrite total_single. lia.
Qed.

Lemma identifier_quiet name scope S span l h l' :
  lower_identifier name scope span l = (h, l') → names_ok l → S ⊆ dom scope →
  name ∈ S ∨ name = "none" ∨ is_Some (an_functions c !! name) → l' = l.
Proof.
  unfold lower_identifier, resolve_value. case_bool_decide as Hn; [by intros [= <- <-]|]. intros E Hok HS Hname.
  destruct (scope !! name) as [id|] eqn:Es; [by injection E as <- <-|].
  destruct (lw_globals l !! name) as [id|] eqn:Eg; [by injection E as <- <-|]. exfalso.
  destruct Hname as [Hin|[?|Hf]]; [|done|].
  - apply not_elem_of_dom in Es. set_solver.
  - apply (no_functions _ Hok) in Hf as [? ?]. congruence.
Qed.

Lemma lower_kind_quiet e S scope l k l' :
  Forall lowers_quietly (children e) → lower_kind module symbols lower_expr e scope l = (k, l') → names_ok l →
  S ⊆ dom scope → reached c S e → patterns_ok c e → fieldless e = true → hushed (binders e) l l'.
Proof.
  intros Hf E Hok HS [_ Hlocal Hreach] [Hpat Hpats] Hfl. rewrite tally_children.
  unfold fieldless in Hfl. rewrite every_children in Hfl. apply andb_true_iff in Hfl as [Hkind Hfl]. fold fieldless in Hfl.
  assert (∀ o scope' l h l' S', o ∈ children e → (S', o) ∈ scoped_children S e → S' ⊆ dom scope' →
    lower_expr o scope' l = (h, l') → names_ok l → hushed (binders o) l l') as Hchild.
  { intros o scope' l0 h l1 S' Ho Hso HS' Eo Hok'. rewrite Forall_forall in Hf. eapply (Hf o Ho); [exact Eo|done|exact HS'|..].
    - by apply Hreach.
    - by apply Hpats.
    - by eapply forallb_elem. }
  destruct e as [kind span].
  destruct kind as [m o|o|lit|p|items|callee args|o n|u o|op x y|value arms|block];
    cbn [lower_kind] in E; cbn [children ex_kind] in Hf, Hfl, Hpats, Hchild |- *;
    unfold own_binders at 1; cbn [ex_kind]; rewrite ?Nat.add_0_l.
  - destruct (lower_expr o scope l) as [h l1] eqn:E1. injection E as <- <-. rewrite total_single.
    eapply Hchild; [by left|by left|exact HS|exact E1|done].
  - destruct (lower_expr o scope l) as [h l1] eqn:E1. injection E as <- <-. rewrite total_single.
    eapply Hchild; [by left|by left|exact HS|exact E1|done].
  - assert (l' = l) as ->; [|apply hushed_refl]. destruct lit as [|name| | |]; try (injection E as _ <-; done).
    by eapply identifier_quiet.
  - destruct Hlocal as (t & n & -> & Hv). destruct (resolve_member _ span l) as [id l1] eqn:E1. injection E as <- <-.
    apply resolve_variant_quiet in E1 as ->; [apply hushed_refl|done|]. right; right. by exists [].
  - destruct (map_state _ items l) as [hs l1] eqn:E1. injection E as <- <-.
    eapply map_state_quiet; [|exact E1|done]. intros x Hx l2 y l3 Ex Hok2.
    eapply Hchild; [exact Hx| |exact HS|exact Ex|done]. by apply list_elem_of_fmap_2.
  - destruct (lower_expr callee scope l) as [h l1] eqn:E1. destruct (map_state _ args l1) as [hs l2] eqn:E2.
    injection E as <- <-.
    assert (hushed (binders callee) l l1) as Q1.
    { destruct (is_path callee) eqn:Ep.
      - unfold local_ok, callee_ok in Hlocal. cbn in Hlocal. destruct callee as [ck csp]. unfold is_path in Ep. cbn in Ep, Hlocal.
        destruct ck; try discriminate Ep. destruct Hlocal as (t & n & -> & Ha%constructor_arity_known).
        apply lower_path_quiet in E1 as ->; [|done..]. eapply hushed_weaken; [apply hushed_refl|lia].
      - eapply Hchild; [by left| |exact HS|exact E1|done]. unfold scoped_children. cbn. rewrite Ep. by left. }
    rewrite total_cons. eapply hushed_trans; [exact Q1|].
    assert (hushed (total (λ x, binders (argument_value x)) args) l1 l2) as Q2.
    { eapply map_state_quiet; [|exact E2|by eapply names_ok_quiet]. intros [an v s] Hx l3 y l4 Ex Hok2.
      eapply Hchild; [| |exact HS|exact Ex|done].
      - right. by apply (list_elem_of_fmap_2 argument_value) in Hx.
      - unfold scoped_children. cbn. apply elem_of_app. right. apply list_elem_of_fmap_2.
        by apply (list_elem_of_fmap_2 argument_value) in Hx. }
    by rewrite total_map.
  - discriminate Hkind.
  - destruct (lower_expr o scope l) as [h l1] eqn:E1. injection E as <- <-. rewrite total_single.
    eapply Hchild; [by left|by left|exact HS|exact E1|done].
  - destruct (lower_expr x scope l) as [hx l1] eqn:E1. destruct (lower_expr y scope l1) as [hy l2] eqn:E2.
    injection E as <- <-. cbn [total foldr]. rewrite Nat.add_0_r.
    assert (hushed (binders x) l l1) as Q1 by (eapply Hchild; [by left|by left|exact HS|exact E1|done]).
    eapply hushed_trans; [exact Q1|].
    eapply Hchild; [right; by left|right; by left|exact HS|exact E2|by eapply names_ok_quiet].
  - destruct (lower_expr value scope l) as [v l1] eqn:E1. destruct (map_state _ arms l1) as [hs l2] eqn:E2.
    injection E as <- <-. apply Forall_cons in Hf as [_ Harms%Forall_flat_map_inv]. cbn in Hfl. apply andb_true_iff in Hfl as [_ Hfa].
    rewrite forallb_flat_map in Hfa. specialize (Hpat _ _ eq_refl).
    assert (hushed (binders value) l l1) as Q1 by (eapply Hchild; [by left|by left|exact HS|exact E1|done]).
    assert (hushed (total (λ arm, length (pattern_binders (arm_pattern arm)) + total binders (arm_children arm)) arms) l1 l2) as Q2.
    { eapply map_state_quiet; [|exact E2|by eapply names_ok_quiet]. intros arm Harm l3 y l4 Ex Hok2.
      rewrite Forall_forall in Harms, Hpat.
      eapply lower_arm_quiet; [by apply Harms|exact Ex|done|exact HS| | |by apply Hpat|by eapply (forallb_elem _ _ _ Hfa)].
      - intros S1 e He. apply Hreach. right. apply list_elem_of_In, in_flat_map. exists arm. by rewrite <-!list_elem_of_In.
      - intros e He. apply Hpats. right. apply list_elem_of_In, in_flat_map. exists arm. by rewrite <-!list_elem_of_In. }
    eapply hushed_weaken; [exact (hushed_trans _ _ _ _ _ Q1 Q2)|]. rewrite total_cons, total_flat_map, total_add.
    unfold arm_binders. lia.
  - destruct block as [sts bs]. cbn [lower_block body_statements] in *.
    destruct (lower_statements _ _ _ sts scope l) as [hs l1] eqn:E1. injection E as <- <-.
    eapply statements_quiet; [by apply Forall_flat_map_inv|exact E1|done|exact HS| |done|done].
    intros S1 e He. by apply Hreach.
Qed.

Lemma lower_expression_quiet e : lowers_quietly e.
Proof.
  induction e as [e IH] using expr_children_ind. intros S scope l h l' E Hok HS Hr Hp Hf.
  assert (∃ k, lower_kind module symbols lower_expr e scope l = (k, l')) as [k Ek].
  { destruct e as [kind span]. cbn [lower_expression] in E.
    destruct (lower_kind module symbols lower_expr (Ex kind span) scope l) as [k l1] eqn:E1.
    injection E as <- <-. by exists k. }
  by eapply lower_kind_quiet.
Qed.
End accepted.

(** ** Declarations *)

Section declarations.
Context (module : N) (symbols : SymbolTable) (expression_types : gmap Span ResolvedType).
Context (c : Analyzer).

Lemma lower_parameters_quiet ps scope l hs scope' l' :
  lower_parameters module symbols ps scope l = (hs, scope', l') →
  hushed (length ps) l l' ∧ parameter_names ps ∪ dom scope ⊆ dom scope'.
Proof.
  unfold parameter_names. revert scope l hs scope' l'. induction ps as [|p ps IH]; intros scope l hs scope' l'; cbn.
  { intros [= <- <- <-]. split; [apply hushed_refl|set_solver]. }
  match goal with |- context [lower_parameters _ _ ps ?sc ?la] =>
    destruct (lower_parameters module symbols ps sc la) as [[hs1 scope1] l2] eqn:E end.
  intros [= <- <- <-]. apply IH in E as [Q2 D]. rewrite dom_insert_L in D. split; [|set_solver].
  exact (hushed_trans 1 _ _ _ _ (allocate_quiet module l) Q2).
Qed.

(** The identities the body of an item takes. *)
Definition item_binders (item : Item) : nat :=
  match item with
  | ItemFunction n => length (fnn_parameters n) + body_binders (fnn_body n)
  | ItemPipeline n => length (pn_parameters n) + total binders (lowered_expressions item)
  | _ => 0
  end.

(** [lower_pipeline] takes the last property of a name, the analyser the first. *)
Definition one_result (item : Item) : Prop :=
  match item with
  | ItemPipeline n => property_named (pn_fields n) "result" = first_property (pn_fields n) "result"
  | _ => True
  end.

Definition item_accepted (item : Item) : Prop :=
  item_ok c item ∧ all_patterns_ok c (lowered_expressions item) ∧
  forallb fieldless (lowered_expressions item) = true ∧ one_result item.

Lemma lower_function_quiet n l f l' :
  lower_function module symbols expression_types n l = (f, l') → names_ok c l → item_accepted (ItemFunction n) →
  hushed (item_binders (ItemFunction n)) l l'.
Proof.
  unfold lower_function. destruct (lower_parameters _ _ _ _ l) as [[hs scope] l1] eqn:E1.
  destruct (lower_block _ _ _ (fnn_body n) scope l1) as [b l2] eqn:E2. intros [= <- <-] Hok (Hr & Hp & Hf & _).
  apply lower_parameters_quiet in E1 as [Q1 D1]. cbn [item_binders]. eapply hushed_trans; [exact Q1|].
  unfold body_binders. destruct (fnn_body n) as [sts sp] eqn:Eb. cbn in E2. cbn [item_ok lowered_expressions] in Hr, Hp, Hf.
  rewrite Eb in Hr, Hp, Hf. cbn [body_statements] in *.
  destruct (lower_statements _ _ _ sts scope l1) as [hs1 l3] eqn:E3. injection E2 as <- <-.
  eapply (statements_quiet module symbols expression_types (set_async (fnn_asynchronous n) c));
    [|exact E3| | |exact Hr| |done].
  - apply Forall_true. intros st. apply Forall_true. apply lower_expression_quiet.
  - destruct (names_ok_quiet _ _ _ _ Q1 Hok). by split.
  - set_solver.
  - intros e He. by eapply patterns_ok_enums; [|apply Hp].
Qed.

Lemma lower_pipeline_quiet n l f l' :
  lower_pipeline module symbols expression_types n l = (f, l') → names_ok c l → item_accepted (ItemPipeline n) →
  hushed (item_binders (ItemPipeline n)) l l'.
Proof.
  unfold lower_pipeline. destruct (lower_parameters _ _ _ _ l) as [[hs scope] l1] eqn:E1.
  destruct (lower_optional _ _ scope l1) as [b l2] eqn:E2. intros [= <- <-] Hok (Hr & Hp & Hf & Hone).
  cbn [one_result] in Hone. rewrite Hone in E2.
  apply lower_parameters_quiet in E1 as [Q1 D1]. cbn [item_binders lowered_expressions item_ok] in *.
  eapply hushed_trans; [exact Q1|]. eapply lower_optional_quiet; [|exact E2|by eapply names_ok_quiet| | |done|done].
  - apply Forall_true. apply lower_expression_quiet.
  - instantiate (1 := parameter_names (pn_parameters n)). set_solver.
  - destruct (first_property (pn_fields n) "result") as [q|]; [|by intros S e ?%not_elem_of_nil].
    intros S e [= -> ->]%list_elem_of_singleton. by apply Hr.
Qed.

Lemma lower_definition_quiet item l d l' :
  lower_definition module symbols expression_types item l = (d, l') → names_ok c l → item_accepted item →
  is_Some (lw_globals l !! item_name item) → (∀ k, k ∈ member_keys item → is_Some (lw_members l !! k)) →
  hushed (item_binders item) l l'.
Proof.
  unfold lower_definition. intros E Hok Ha [id Hid] Hk. rewrite (index_or_panic_some _ _ _ _ Hid) in E.
  destruct item as [n|n|n|n|n|n|n]; cbn in Hid, Hk, E.
  - destruct (map_state _ _ l) as [fields l1] eqn:Ef. injection E as <- <-.
    apply lower_fields_ids in Ef as (-> & _); [apply hushed_refl|exact Hk].
  - destruct (map_state _ _ l) as [fields l1] eqn:Ef. injection E as <- <-.
    apply lower_variants_ids in Ef as (-> & _); [apply hushed_refl|exact Hk].
  - destruct (lower_function _ _ _ n l) as [f l1] eqn:Ef. injection E as <- <-. by eapply lower_function_quiet.
  - destruct (map_state _ _ l) as [fields l1] eqn:Ef. injection E as <- <-.
    apply lower_fields_ids in Ef as (-> & _); [apply hushed_refl|exact Hk].
  - injection E as <- <-. apply hushed_refl.
  - destruct (lower_pipeline _ _ _ n l) as [f l1] eqn:Ef. injection E as <- <-. by eapply lower_pipeline_quiet.
  - injection E as <- <-. apply hushed_refl.
Qed.

Lemma lower_definitions_quiet items l ds l' :
  map_state (lower_definition module symbols expression_types) items l = (ds, l') → names_ok c l →
  (∀ item, item ∈ items → item_accepted item ∧ is_Some (lw_globals l !! item_name item) ∧
     ∀ k, k ∈ member_keys item → is_Some (lw_members l !! k)) →
  hushed (total item_binders items) l l'.
Proof.
  revert l ds l'. induction items as [|item items IH]; intros l ds l'; cbn; [intros [= <- <-] **; apply hushed_refl|].
  destruct (lower_definition _ _ _ item l) as [d l1] eqn:E1. destruct (map_state _ items l1) as [ds1 l2] eqn:E2.
  intros [= <- <-] Hok Hin. destruct (Hin item) as (Ha & Hg & Hm); [by left|].
  pose proof (lower_definition_quiet _ _ _ _ E1 Hok Ha Hg Hm) as Q1. eapply hushed_trans; [exact Q1|].
  eapply IH; [exact E2|by eapply names_ok_quiet|]. intros i Hi. rewrite (qt_globals _ _ _ Q1), (qt_members _ _ _ Q1).
  apply Hin. by right.
Qed.
End declarations.
