(* ===== verification/LowerClaims.v ===== *)
(** * Lowering: what the lowered program says *)

From stdpp Require Import base gmap strings numbers list.
From S2P Require Import Prelude Text Ir Hir Diagnostics Ast Semantic SemanticBodies SemanticTheorems.
From S2P Require Import OwnershipSound SemanticDeclarations SemanticAccepted SemanticMatch SemanticClean.
From S2P Require Import Lower LowerNames LowerTheorems LowerPrograms LowerAccepted.
Open Scope string_scope.
Open Scope list_scope.

(** ** A table for the identities given out before any definition is lowered *)

Definition swapped (m : id_map) : list (DefId * string) := prod_swap <$> map_to_list m.

Definition lowerer_names (l : Lowerer) : NameTable :=
  {| nt_global := entry_name (swapped (lw_globals l));
     nt_member := entry_name (swapped (lw_members l) ++ builtin_entries) |}.

Lemma swapped_elem m id x : (id, x) ∈ swapped m ↔ m !! x = Some id.
Proof.
  unfold swapped. rewrite list_elem_of_fmap. split.
  - intros ([y i] & [= -> ->] & H). by apply elem_of_map_to_list.
  - intros H. exists (x, id). split; [done|]. by apply elem_of_map_to_list.
Qed.

Section module.
Context (module : N).
Hypothesis Hmodule : module ≠ BUILTIN_MODULE.

Lemma lowerer_names_ok l : ids_ok module l → table_ok module (lw_next l) (lowerer_names l) l.
Proof.
  intros Hok. apply table_ok_intro; [done|done|..]; cbn.
  - intros x id Hx. apply entry_name_unique; [by apply swapped_elem|].
    intros y Hy%swapped_elem. by eapply (io_global_inj _ _ Hok).
  - intros id Hno. apply entry_name_none. intros x Hx%swapped_elem. by eapply Hno.
  - intros k id Hk. apply entry_name_unique; [apply elem_of_app; left; by apply swapped_elem|].
    intros k' [He%swapped_elem|He%builtin_entry_module]%elem_of_app; [by eapply (io_member_inj _ _ Hok)|].
    apply (io_member _ _ Hok) in Hk as [? _]. congruence.
  - intros k id Hb%builtin_definition_entry. apply entry_name_unique; [apply elem_of_app; by right|].
    intros k' [He%swapped_elem|He]%elem_of_app; [|by eapply builtin_entry_inj].
    apply (io_member _ _ Hok) in He as [? _]. apply builtin_entry_module in Hb. congruence.
Qed.

Definition item_kept (symbols : SymbolTable) (types : gmap Span ResolvedType) (ds : list HirDefinition)
    (item : Item) (d : HirDefinition) : Prop :=
  hd_name d = item_name item ∧ item_lowered symbols types (program_names ds) item d.

(** Lowering the items of a module from a fresh lowerer: the identities, the
    definitions, and the panic that only running out of identities raises. *)
Lemma lower_items_lowered symbols types items ds l' :
  map_state (lower_definition module symbols types) items (index_all module items lowerer_new) = (ds, l') →
  indexed module (map item_name items) (flat_map member_keys items) lowerer_new (index_all module items lowerer_new) ∧
  (let l := index_all module items lowerer_new in table_ok module (lw_next l) (program_names ds) l) ∧
  lowered (index_all module items lowerer_new) l' (Forall2 (item_kept symbols types ds) items ds) ∧
  (lw_panicked l' = true → (u32_max < lw_next l')%N).
Proof.
  intros E. pose proof (index_all_indexed module Hmodule items lowerer_new) as Hix.
  set (l := index_all module items lowerer_new) in *.
  assert (ids_ok module l) as Hok by exact (ix_ids _ _ _ _ _ Hix (ids_ok_new _)).
  assert (∀ item, item ∈ items → is_Some (lw_globals l !! item_name item) ∧
    ∀ k, k ∈ member_keys item → is_Some (lw_members l !! k)) as Hknown.
  { intros item Hin. split.
    - apply (ix_globals _ _ _ _ _ Hix). right. by apply list_elem_of_fmap_2.
    - intros k Hk. apply (ix_members _ _ _ _ _ Hix). right. apply list_elem_of_In, in_flat_map. exists item.
      by rewrite <-!list_elem_of_In. }
  destruct (lower_definitions_lowered _ _ _ _ _ _ _ _ _ E (lowerer_names_ok l Hok) Hknown) as [Hids _].
  assert (table_ok module (lw_next l) (program_names ds) l) as Htable.
  { eapply program_names_ok; [done|done|exact Hids|..].
    - intros x [[y Hy]|Hx]%(ix_globals _ _ _ _ _ Hix); [|done]. cbn in Hy. by rewrite lookup_empty in Hy.
    - intros k [[y Hy]|Hx]%(ix_members _ _ _ _ _ Hix); [|done]. cbn in Hy. by rewrite lookup_empty in Hy. }
  destruct (lower_definitions_lowered _ _ _ _ _ _ _ _ _ E Htable Hknown) as [_ Hlow].
  split; [done|]. split; [done|]. split.
  - eapply lowered_weaken; [exact Hlow|]. intros Hall. unfold item_kept. clearbody l. clear -Hall Hids.
    revert Hall. generalize (program_names ds). intros t Hall.
    induction Hids as [|item d items ds [Hn _] _ IH]; inversion Hall; subst; constructor; auto.
  - intros [Hp|?]%(le_panicked _ _ (ld_ext _ _ _ Hlow)); [|done].
    destruct (ix_panicked _ _ _ _ _ Hix Hp) as [Hn|Hlt]; [done|]. pose proof (le_next _ _ (ld_ext _ _ _ Hlow)). fold l in Hlt. lia.
Qed.

Lemma lower_module_inv symbols types ast m entry n :
  lower_module module symbols types ast lowerer_new = Some (Ok (m, entry, n)) →
  ∃ ds, m = {| hm_module := module; definitions := ds |} ∧
    Forall2 (item_kept symbols types ds) (ast_items ast) ds ∧
    match entry with
    | Some id => nt_global (program_names ds) id = Some "main"
    | None => Forall (λ item, item_name item ≠ "main") (ast_items ast)
    end.
Proof.
  unfold lower_module. fold (index_all module (ast_items ast) lowerer_new).
  destruct (map_state _ _ _) as [ds l'] eqn:E. destruct (lower_items_lowered _ _ _ _ _ E) as (Hix & Htable & Hlow & _).
  set (l := index_all module (ast_items ast) lowerer_new) in *. cbn in Htable.
  assert (lw_globals l' = lw_globals l) as Hg by exact (le_globals _ _ (ld_ext _ _ _ Hlow)).
  assert (lw_diagnostics l = []) as Hd by exact (ix_diagnostics _ _ _ _ _ Hix).
  unfold index_or_panic. rewrite Hg.
  destruct (existsb _ _) eqn:Emain.
  - apply existsb_exists in Emain as (item & Hitem%list_elem_of_In & Hname%bool_decide_eq_true).
    destruct (lw_globals l !! "main") as [id|] eqn:Eid.
    2: { exfalso. rewrite eq_None_not_Some in Eid. apply Eid, (ix_globals _ _ _ _ _ Hix). right. rewrite <-Hname.
         by apply list_elem_of_fmap_2. }
    destruct (lw_panicked l'); [done|]. destruct (lw_diagnostics l') eqn:Ed; [|done]. intros [= <- <- <-].
    exists ds. split; [done|]. split; [apply Hlow; by rewrite Ed, Hd|]. by apply (to_globals _ _ _ _ Htable).
  - destruct (lw_panicked l'); [done|]. destruct (lw_diagnostics l') eqn:Ed; [|done]. intros [= <- <- <-].
    exists ds. split; [done|]. split; [apply Hlow; by rewrite Ed, Hd|]. apply Forall_forall. intros item Hin Hname.
    assert (existsb (λ item, bool_decide (item_name item = "main")) (ast_items ast) = true); [|congruence].
    apply existsb_exists. exists item. split; [by apply list_elem_of_In|by apply bool_decide_eq_true].
Qed.
End module.

Lemma lower_to_hir_kept ast symbols p :
  lower_to_hir ast symbols = Some (Ok p) →
  ∃ ds, modules p = [{| hm_module := SOURCE_MODULE; definitions := ds |}] ∧
    Forall2 (item_kept symbols (analysis_expression_types (analyze "<hir>" ast)) ds) (ast_items ast) ds ∧
    match hir_entry p with
    | Some id => nt_global (program_names ds) id = Some "main"
    | None => Forall (λ item, item_name item ≠ "main") (ast_items ast)
    end.
Proof.
  unfold lower_to_hir. destruct (analysis_diagnostics _); [|done]. case_bool_decide as Hsym; [|done].
  unfold lower. destruct (lower_module _ _ _ ast lowerer_new) as [[[[m entry] n]|]|] eqn:E; try done.
  intros [= <-]. rewrite Hsym in E. apply lower_module_inv in E as (ds & -> & Hds & He); [|done]. by exists ds.
Qed.

(** C7: when [lower_to_hir] returns a program, the program is the source with its
    names resolved: one module with a definition for every item, in order and under
    its name, with the same members, parameters, effects, types and flags, and
    bodies whose nameless tree is the source's.  Every reference of the HIR, by the
    identities the definitions carry, denotes the binding its name had in the
    source - the nearest enclosing [let], parameter or pattern variable, else the
    declaration or member of that name - and the entry is the definition named
    [main], absent only when no item is. *)
Theorem lowering_keeps_bindings ast symbols p :
  lower_to_hir ast symbols = Some (Ok p) →
  ∃ ds, modules p = [{| hm_module := SOURCE_MODULE; definitions := ds |}] ∧
    Forall2 (item_kept symbols (analysis_expression_types (analyze "<hir>" ast)) ds) (ast_items ast) ds ∧
    match hir_entry p with
    | Some id => nt_global (program_names ds) id = Some "main"
    | None => Forall (λ item, item_name item ≠ "main") (ast_items ast)
    end.
Proof. apply lower_to_hir_kept. Qed.

(** ** Accepted files *)

Definition identities (ast : Ast) : nat :=
  length (ast_items ast) + length (flat_map member_keys (ast_items ast)) + total item_binders (ast_items ast).

Lemma lower_module_completes module symbols types ast c :
  module ≠ BUILTIN_MODULE → tables_ok (ast_items ast) c → (∀ item, item ∈ ast_items ast → item_accepted c item) →
  (N.of_nat (identities ast) ≤ u32_max)%N →
  ∃ m entry n, lower_module module symbols types ast lowerer_new = Some (Ok (m, entry, n)).
Proof.
  intros Hm Ht Hitems Hmax. unfold lower_module. fold (index_all module (ast_items ast) lowerer_new).
  pose proof (index_all_indexed module Hm (ast_items ast) lowerer_new) as Hix.
  set (l := index_all module (ast_items ast) lowerer_new) in *.
  destruct (map_state _ _ _) as [ds l'] eqn:E.
  assert (∀ item, item ∈ ast_items ast → item_name item ∈ map item_name (ast_items ast)) as Hname
    by (intros; by apply list_elem_of_fmap_2).
  assert (names_ok c l) as Hok.
  { split.
    - intros f Hf. apply (ix_globals _ _ _ _ _ Hix). right. by apply (tb_functions _ _ Ht).
    - intros t n Hn. apply (ix_members _ _ _ _ _ Hix). right. by apply (tb_variants _ _ Ht). }
  assert (hushed (total item_binders (ast_items ast)) l l') as Q.
  { eapply lower_definitions_quiet; [exact E|exact Hok|]. intros item Hin. split; [by apply Hitems|]. split.
    - apply (ix_globals _ _ _ _ _ Hix). right. by apply Hname.
    - intros k Hk. apply (ix_members _ _ _ _ _ Hix). right. apply list_elem_of_In, in_flat_map. exists item.
      by rewrite <-!list_elem_of_In. }
  assert (lw_panicked l' = false) as Hp.
  { apply not_true_is_false. intros Hp. pose proof (ix_count _ _ _ _ _ Hix) as Hc. pose proof (qt_next _ _ _ Q) as Hn.
    pose proof (qt_low _ _ _ Q). unfold identities in Hmax. rewrite length_map in Hc. cbn in Hc.
    assert (u32_max < lw_next l')%N; [|lia].
    apply (qt_panicked _ _ _ Q) in Hp as [[Hp|Hp]%(ix_panicked _ _ _ _ _ Hix)|Hp]; [done|lia|done]. }
  assert (lw_diagnostics l' = []) as Hd by (rewrite (qt_diagnostics _ _ _ Q); exact (ix_diagnostics _ _ _ _ _ Hix)).
  unfold index_or_panic. rewrite (qt_globals _ _ _ Q). destruct (existsb _ _) eqn:Emain.
  - apply existsb_exists in Emain as (item & Hitem%list_elem_of_In & Hmain%bool_decide_eq_true).
    assert (is_Some (lw_globals l !! "main")) as [id ->].
    { apply (ix_globals _ _ _ _ _ Hix). right. rewrite <-Hmain. by apply Hname. }
    rewrite Hp, Hd. by eexists _, _, _.
  - rewrite Hp, Hd. by eexists _, _, _.
Qed.

Lemma accepted_items ast :
  analysis_diagnostics (analyze "<hir>" ast) = [] →
  forallb fieldless (flat_map lowered_expressions (ast_items ast)) = true → Forall one_result (ast_items ast) →
  tables_ok (ast_items ast) (final "<hir>" ast []) ∧
  ∀ item, item ∈ ast_items ast → item_accepted (final "<hir>" ast []) item.
Proof.
  intros Hd Hfl Hone. destruct (accepted_file_is_well_scoped "<hir>" ast []) as (_ & _ & Hok); [exact Hd|].
  apply app_nil in Hd as [Hd _].
  pose proof (collected_tables "<hir>" ast) as Ht0. set (a0 := collect_declarations "<hir>" ast analyzer_new) in *.
  pose proof (resolve_all_grows "<hir>" (ast_items ast) a0) as Hg1.
  set (a1 := foldl (resolve_declaration "<hir>") a0 (ast_items ast)) in *.
  pose proof (check_items_clean "<hir>" (ast_items ast) a1 Hfl) as Hc.
  set (a2 := final "<hir>" ast []) in *. change (foldl (check_item "<hir>") a1 (ast_items ast)) with a2 in Hc.
  pose proof (declares_grows _ _ _ _ (declared_declares "<hir>" ast [])) as Hg.
  change (declared "<hir>" ast []) with a1 in Hg.
  assert (silent analyzer_new a2) as Hs by exact Hd.
  destruct (prefix_silent _ _ _ (gr_diagnostics _ _ Hg) (ext_diagnostics _ _ (step_extends _ _ _ Hc)) Hs) as [S1 S2].
  assert (silent a0 a1) as S01.
  { unfold silent in *. rewrite S1. cbn. destruct (gr_diagnostics _ _ Hg1) as [k Hk]. rewrite S1 in Hk. cbn in Hk.
    symmetry in Hk. by apply app_nil in Hk as [-> _]. }
  assert (tables_ok (ast_items ast) a1) as Ht1 by (apply resolved_tables; auto).
  assert (tables_ok (ast_items ast) a2) as Ht2 by exact (tables_ok_extends _ _ _ (step_extends _ _ _ Hc) Ht1).
  split; [done|]. intros item Hin. split; [by apply Hok|]. split; [|split].
  - apply (step_holds _ _ _ Hc S2 a2 (reflexivity _) (tb_clean _ _ Ht2) item Hin).
    change a1 with (declared "<hir>" ast []). destruct item; cbn; try done; [by apply declared_function|by apply declared_state].
  - apply forallb_forall. intros e He. eapply forallb_forall; [exact Hfl|]. apply in_flat_map. exists item.
    split; [by apply list_elem_of_In|done].
  - by eapply Forall_forall.
Qed.

(** C8: a file the analyser accepts is lowered: where the bodies access no fields,
    no pipeline has two [result] properties and the file has at most [u32::MAX]
    declarations, members and binders, [lower_to_hir] neither panics nor reports. *)
Theorem accepted_files_lower ast :
  analysis_diagnostics (analyze "<hir>" ast) = [] →
  forallb fieldless (flat_map lowered_expressions (ast_items ast)) = true → Forall one_result (ast_items ast) →
  (N.of_nat (identities ast) ≤ u32_max)%N →
  ∃ p, lower_to_hir ast (analysis_symbols (analyze "<hir>" ast)) = Some (Ok p).
Proof.
  intros Hd Hfl Hone Hmax. destruct (accepted_items ast Hd Hfl Hone) as [Htables Hitems].
  unfold lower_to_hir. rewrite Hd, bool_decide_true by done. unfold lower.
  edestruct (lower_module_completes SOURCE_MODULE) as (m & entry & n & ->); [done|exact Htables|exact Hitems|exact Hmax|].
  by eexists.
Qed.

(** ** How many identities a file takes *)

Definition takes (n : nat) (l l' : Lowerer) : Prop := (lw_next l' ≤ lw_next l + N.of_nat n)%N.

Lemma takes_trans n m a b c : takes n a b → takes m b c → takes (n + m) a c.
Proof. unfold takes. lia. Qed.

Lemma takes_le n m a b : takes n a b → (n ≤ m)%nat → takes m a b.
Proof. unfold takes. lia. Qed.

Section counting.
Context (module : N) (symbols : SymbolTable) (expression_types : gmap Span ResolvedType).

Lemma resolve_member_takes name span l : takes 0 l (resolve_member name span l).2.
Proof. unfold takes, resolve_member. destruct (lw_members l !! name); [cbn; lia|]. destruct (builtin_definition name); cbn; lia. Qed.

Lemma index_or_panic_takes m key l : takes 0 l (index_or_panic m key l).2.
Proof. unfold takes, index_or_panic. destruct (m !! key); cbn; lia. Qed.

Lemma lower_pattern_takes p : ∀ scope l, takes (length (pattern_binders p)) l (lower_pattern module p scope l).2.
Proof.
  revert p. fix IH 1. intros [kind span] scope l. destruct kind as [|path|path fields|literal]; cbn [lower_pattern pattern_binders].
  - unfold takes. cbn. lia.
  - destruct path as [|name [|x path]].
    + pose proof (resolve_member_takes (join "::" []) span l) as H. destruct (resolve_member _ span l). exact H.
    + unfold takes. cbn. lia.
    + pose proof (resolve_member_takes (join "::" (name :: x :: path)) span l) as H. destruct (resolve_member _ span l). exact H.
  - pose proof (resolve_member_takes (join "::" path) span l) as H. destruct (resolve_member _ span l) as [id l1]. cbn [snd] in H.
    assert (takes (length (flat_map pattern_binders fields)) l1 (lower_fields (lower_pattern module) fields scope l1).2) as H2.
    { clear H. revert scope l1. induction fields as [|f fields IHf]; intros scope l1; [unfold takes; cbn; lia|]. cbn [lower_fields flat_map]. rewrite length_app.
      pose proof (IH f scope l1) as H1. destruct (lower_pattern module f scope l1) as [[h scope1] l2]. specialize (IHf scope1 l2).
      destruct (lower_fields (lower_pattern module) fields scope1 l2) as [[hs scope2] l3]. exact (takes_trans _ _ _ _ _ H1 IHf). }
    destruct (lower_fields (lower_pattern module) fields scope l1) as [[hs scope2] l2]. exact (takes_trans 0 _ _ _ _ H H2).
  - unfold takes. cbn. lia.
Qed.

Abbreviation lower_expr := (lower_expression module symbols expression_types).

Definition expression_takes (e : Expr) : Prop := ∀ scope l, takes (binders e) l (lower_expr e scope l).2.

Lemma map_state_takes {X Y} (g : X → Lowerer → Y * Lowerer) (w : X → nat) items :
  (∀ x, x ∈ items → ∀ l, takes (w x) l (g x l).2) → ∀ l, takes (total w items) l (map_state g items l).2.
Proof.
  induction items as [|x items IH]; intros Hg l; [unfold takes; cbn; lia|]. cbn [map_state total foldr].
  pose proof (Hg x ltac:(by left) l) as H1. destruct (g x l) as [y l1]. cbn [snd] in H1.
  pose proof (IH ltac:(intros z Hz; apply Hg; by right) l1) as H2. destruct (map_state g items l1) as [ys l2]. exact (takes_trans _ _ _ _ _ H1 H2).
Qed.

Lemma lower_optional_takes e scope l : Forall expression_takes (option_list e) → takes (total binders (option_list e)) l (lower_optional lower_expr e scope l).2.
Proof.
  destruct e as [e|]; cbn; [|unfold takes; lia]. intros He%Forall_inv. specialize (He scope l). destruct (lower_expr e scope l) as [h l1].
  eapply takes_le; [exact He|]. lia.
Qed.

Lemma lower_statements_takes sts : Forall (λ s, Forall expression_takes (statement_children s)) sts →
  ∀ scope l, takes (let_binders sts + total binders (flat_map statement_children sts)) l (lower_statements module symbols lower_expr sts scope l).2.
Proof.
  induction 1 as [|[kind sp] sts Hs _ IH]; intros scope l; [unfold takes; cbn; lia|].
  assert (let_binders (mkStatement kind sp :: sts) = (match kind with SLet _ _ _ => 1 | _ => 0 end + let_binders sts)%nat) as -> by done.
  cbn [flat_map lower_statements]. rewrite total_app. destruct kind as [name ty value|value|value].
  - apply Forall_inv in Hs. specialize (Hs scope l). cbn [statement_children st_kind]. rewrite total_single. destruct (lower_expr value scope l) as [h l1]. cbn [snd] in Hs.
    cbn [allocate]. match goal with |- context [lower_statements _ _ _ sts ?sc ?la] => specialize (IH sc la); destruct (lower_statements module symbols lower_expr sts sc la) as [hs l2] end.
    unfold takes in *. cbn in *. lia.
  - assert (statement_children (mkStatement (SReturn value) sp) = option_list value) as Hv by by destruct value. rewrite Hv in *.
    pose proof (lower_optional_takes value scope l Hs) as H1. destruct (lower_optional lower_expr value scope l) as [h l1]. specialize (IH scope l1).
    destruct (lower_statements _ _ _ sts scope l1) as [hs l2]. unfold takes in *. cbn in *. lia.
  - apply Forall_inv in Hs. specialize (Hs scope l). cbn [statement_children st_kind]. rewrite total_single. destruct (lower_expr value scope l) as [h l1]. specialize (IH scope l1).
    destruct (lower_statements _ _ _ sts scope l1) as [hs l2]. unfold takes in *. cbn in *. lia.
Qed.

Lemma lower_arm_takes arm scope l : Forall expression_takes (arm_children arm) →
  takes (length (pattern_binders (arm_pattern arm)) + total binders (arm_children arm)) l (lower_arm module lower_expr arm scope l).2.
Proof.
  destruct arm as [p guard body sp]. unfold arm_children. cbn [lower_arm arm_pattern arm_guard arm_body].
  change (match guard with Some g => [g] | None => [] end) with (option_list guard). intros [Hg Hb%Forall_inv]%Forall_app. rewrite total_app, total_single.
  pose proof (lower_pattern_takes p scope l) as H1. destruct (lower_pattern module p scope l) as [[hp scope1] l1].
  pose proof (lower_optional_takes guard scope1 l1 Hg) as H2. destruct (lower_optional lower_expr guard scope1 l1) as [hg l2].
  specialize (Hb scope1 l2). destruct (lower_expr body scope1 l2) as [hb l3]. unfold takes in *. cbn in *. lia.
Qed.

Lemma lower_kind_takes e scope l : Forall expression_takes (children e) → takes (binders e) l (lower_kind module symbols lower_expr e scope l).2.
Proof.
  rewrite tally_children. intros Hf. destruct e as [kind span].
  destruct kind as [m o|o|lit|p|items|callee args|o n|u o|op x y|value arms|block];
    cbn [lower_kind] in *; cbn [children ex_kind] in Hf |- *; unfold own_binders at 1; cbn [ex_kind]; rewrite ?Nat.add_0_l, ?total_single.
  - apply Forall_inv in Hf. specialize (Hf scope l). by destruct (lower_expr o scope l).
  - apply Forall_inv in Hf. specialize (Hf scope l). by destruct (lower_expr o scope l).
  - destruct lit; try (unfold takes; cbn; lia). unfold lower_identifier, resolve_value. case_bool_decide; [unfold takes; cbn; lia|].
    destruct (scope !! _); [unfold takes; cbn; lia|]. destruct (lw_globals l !! _); unfold takes; cbn; lia.
  - pose proof (resolve_member_takes (join "::" p) span l) as H. by destruct (resolve_member _ span l).
  - rewrite Forall_forall in Hf. pose proof (map_state_takes (λ x, lower_expr x scope) binders items (λ x Hx l, Hf x Hx scope l) l) as H. by destruct (map_state _ items l).
  - apply Forall_cons in Hf as [Hc Ha]. specialize (Hc scope l). destruct (lower_expr callee scope l) as [h l1]. rewrite total_cons, total_map.
    assert (takes (total (λ x, binders (argument_value x)) args) l1 (map_state (λ x, match x with mkArgument _ value _ => lower_expr value scope end) args l1).2) as H.
    { apply map_state_takes. intros [an v s] Hx l2. rewrite Forall_forall in Ha. apply Ha. by apply (list_elem_of_fmap_2 argument_value) in Hx. }
    destruct (map_state _ args l1) as [hs l2]. exact (takes_trans _ _ _ _ _ Hc H).
  - apply Forall_inv in Hf. specialize (Hf scope l). destruct (lower_expr o scope l) as [h l1].
    match goal with |- context [resolve_member ?k span l1] => pose proof (resolve_member_takes k span l1) as H; destruct (resolve_member k span l1) as [id l2] end.
    unfold takes in *. cbn in *. lia.
  - apply Forall_inv in Hf. specialize (Hf scope l). by destruct (lower_expr o scope l).
  - apply Forall_cons in Hf as [Hx Hy%Forall_inv]. specialize (Hx scope l). destruct (lower_expr x scope l) as [hx l1]. specialize (Hy scope l1).
    destruct (lower_expr y scope l1) as [hy l2]. cbn [total foldr]. rewrite Nat.add_0_r. exact (takes_trans _ _ _ _ _ Hx Hy).
  - apply Forall_cons in Hf as [Hv Harms%Forall_flat_map_inv]. specialize (Hv scope l). destruct (lower_expr value scope l) as [v l1].
    assert (takes (total (λ arm, length (pattern_binders (arm_pattern arm)) + total binders (arm_children arm))%nat arms) l1 (map_state (λ arm, lower_arm module lower_expr arm scope) arms l1).2) as H.
    { apply map_state_takes. intros arm Harm l2. rewrite Forall_forall in Harms. apply lower_arm_takes. by apply Harms. }
    destruct (map_state _ arms l1) as [hs l2]. rewrite total_cons, total_flat_map. rewrite total_add in H. unfold takes, arm_binders in *. cbn in *. lia.
  - destruct block as [sts bs]. cbn [lower_block body_statements] in *. apply Forall_flat_map_inv in Hf.
    pose proof (lower_statements_takes sts Hf scope l) as H. by destruct (lower_statements _ _ _ sts scope l).
Qed.

Lemma lower_expression_takes e : expression_takes e.
Proof.
  induction e as [e IH] using expr_children_ind. intros scope l. pose proof (lower_kind_takes e scope l IH) as H. destruct e as [kind span].
  cbn [lower_expression]. by destruct (lower_kind module symbols lower_expr (Ex kind span) scope l).
Qed.

Lemma lower_parameters_takes ps : ∀ scope l, takes (length ps) l (lower_parameters module symbols ps scope l).2.
Proof.
  induction ps as [|p ps IH]; intros scope l; [unfold takes; cbn; lia|]. cbn.
  match goal with |- context [lower_parameters _ _ ps ?sc ?la] => specialize (IH sc la); destruct (lower_parameters module symbols ps sc la) as [[hs scope1] l2] end.
  unfold takes in *. cbn in *. lia.
Qed.

(** The binders of what is lowered of an item: of several [result] properties of a
    pipeline the last. *)
Definition lowered_binders (item : Item) : nat :=
  match item with
  | ItemFunction n => length (fnn_parameters n) + body_binders (fnn_body n)
  | ItemPipeline n => length (pn_parameters n) + total binders (option_list (prop_value <$> property_named (pn_fields n) "result"))
  | _ => 0
  end.

Lemma lower_definition_takes item l : takes (lowered_binders item) l (lower_definition module symbols expression_types item l).2.
Proof.
  unfold lower_definition. pose proof (index_or_panic_takes (lw_globals l) (item_name item) l) as H0. destruct (index_or_panic _ _ l) as [id l1]. cbn [snd] in H0.
  assert (∀ {X Y} (g : X → Lowerer → Y * Lowerer) items l1, (∀ x l, takes 0 l (g x l).2) → takes 0 l1 (map_state g items l1).2) as Hmembers.
  { intros X Y g items l2 Hg. pose proof (map_state_takes g (λ _, 0%nat) items (λ x _, Hg x) l2) as H. eapply takes_le; [exact H|]. clear. by induction items. }
  assert (∀ owner name ty span l, takes 0 l (lower_member symbols owner name ty span l).2) as Hmember.
  { intros owner name ty span l2. unfold lower_member. pose proof (index_or_panic_takes (lw_members l2) (field_key owner name) l2) as H. by destruct (index_or_panic _ _ l2). }
  destruct item as [n|n|n|n|n|n|n]; cbn [lowered_binders]; try exact H0.
  - match goal with |- context [map_state ?g (sn_fields n) l1] => pose proof (Hmembers _ _ g (sn_fields n) l1 (λ f l, Hmember _ _ _ _ l)) as H; destruct (map_state g (sn_fields n) l1) as [fs l2] end.
    exact (takes_trans 0 0 _ _ _ H0 H).
  - assert (∀ v l, takes 0 l (lower_variant symbols (en_name n) v l).2) as Hvariant.
    { intros v l2. unfold lower_variant. pose proof (index_or_panic_takes (lw_members l2) (variant_key (en_name n) (ev_name v)) l2) as H. by destruct (index_or_panic _ _ l2). }
    pose proof (Hmembers _ _ _ (en_variants n) l1 Hvariant) as H. destruct (map_state _ (en_variants n) l1) as [vs l2]. exact (takes_trans 0 0 _ _ _ H0 H).
  - unfold lower_function. pose proof (lower_parameters_takes (fnn_parameters n) ∅ l1) as H1. destruct (lower_parameters _ _ _ _ l1) as [[hs scope] l2].
    destruct (fnn_body n) as [sts sp]. cbn [lower_block body_binders body_statements].
    pose proof (lower_statements_takes sts ltac:(apply Forall_true; intros st; apply Forall_true, lower_expression_takes) scope l2) as H2.
    destruct (lower_statements _ _ _ sts scope l2) as [hs1 l3]. unfold body_binders. unfold takes in *. cbn [snd body_statements] in *. lia.
  - match goal with |- context [map_state ?g (stn_fields n) l1] => pose proof (Hmembers _ _ g (stn_fields n) l1 (λ f l, Hmember _ _ _ _ l)) as H; destruct (map_state g (stn_fields n) l1) as [fs l2] end.
    exact (takes_trans 0 0 _ _ _ H0 H).
  - unfold lower_pipeline. pose proof (lower_parameters_takes (pn_parameters n) ∅ l1) as H1. destruct (lower_parameters _ _ _ _ l1) as [[hs scope] l2].
    pose proof (lower_optional_takes (prop_value <$> property_named (pn_fields n) "result") scope l2 ltac:(apply Forall_true, lower_expression_takes)) as H2.
    destruct (lower_optional _ _ scope l2) as [b l3]. unfold takes in *. cbn in *. lia.
Qed.
End counting.

(** Declarations, members and binders of a file: one identity each. *)
Definition file_identities (ast : Ast) : nat :=
  length (ast_items ast) + length (flat_map member_keys (ast_items ast)) + total lowered_binders (ast_items ast).

(** Lowering panics only when these are more than there are [u32]. *)
Lemma lower_to_hir_panics ast symbols : lower_to_hir ast symbols = None → (u32_max < N.of_nat (file_identities ast))%N.
Proof.
  unfold lower_to_hir. destruct (analysis_diagnostics _); [|done]. case_bool_decide as Hsym; [|done]. unfold lower.
  destruct (lower_module _ _ _ ast lowerer_new) as [[[[m entry] n]|]|] eqn:E; try done. intros _. revert E. unfold lower_module.
  fold (index_all SOURCE_MODULE (ast_items ast) lowerer_new). set (l := index_all SOURCE_MODULE (ast_items ast) lowerer_new).
  match goal with |- context [map_state ?g (ast_items ast) l] =>
    pose proof (map_state_takes g lowered_binders (ast_items ast) (λ item _ l, lower_definition_takes _ _ _ item l) l) as Ht; destruct (map_state g (ast_items ast) l) as [ds l'] eqn:E end.
  cbn [snd] in Ht. destruct (lower_items_lowered SOURCE_MODULE ltac:(done) _ _ _ _ _ E) as (Hix & _ & Hlow & Hpanic). fold l in Hix, Hlow.
  assert (lw_panicked l' = true → (u32_max < N.of_nat (file_identities ast))%N) as Hgoal.
  { intros Hp%Hpanic. pose proof (ix_count _ _ _ _ _ Hix) as Hc. rewrite length_map in Hc. cbn in Hc. unfold takes in Ht. unfold file_identities. lia. }
  destruct (existsb _ _) eqn:Emain.
  - apply existsb_exists in Emain as (item & Hitem%list_elem_of_In & Hname%bool_decide_eq_true). unfold index_or_panic. rewrite (le_globals _ _ (ld_ext _ _ _ Hlow)).
    assert (is_Some (lw_globals l !! "main")) as [id ->].
    { apply (ix_globals _ _ _ _ _ Hix). right. rewrite <-Hname. by apply list_elem_of_fmap_2. }
    destruct (lw_panicked l'); [by auto|done].
  - destruct (lw_panicked l'); [by auto|done].
Qed.

(** ** Types *)

(** The type is written with [Unit] somewhere. *)
Fixpoint mentions_unit (ty : TypeNode) : bool :=
  match ty with
  | mkType kind _ =>
      match kind with
      | TkReference _ _ inner | TkArray inner => mentions_unit inner
      | TkTuple items => existsb mentions_unit items
      | TkPath segments arguments =>
          bool_decide (segments = ["Unit"]) || existsb mentions_unit arguments
      end
  end.

Lemma primitives_agree :
  Forall (λ n, n = "Unit" ∨ primitive n = match primitive_type n with Some p => RtPrimitive p | None => RtError end)
    primitive_names.
Proof. unfold primitive_names. repeat first [apply Forall_cons; split; [first [by left|right; reflexivity]|]|constructor]. Qed.

Section types.
Context (file : string).

Definition type_agrees (ty : TypeNode) : Prop :=
  ∀ a t b, resolve_type file ty a = (t, b) → silent a b → builtin_kinds a →
    (lower_type (an_symbols a) ty = t ↔ mentions_unit ty = false).

Lemma types_agree items :
  Forall type_agrees items →
  ∀ a ts b, map_state (resolve_type file) items a = (ts, b) → silent a b → builtin_kinds a →
    (map (lower_type (an_symbols a)) items = ts ↔ existsb mentions_unit items = false).
Proof.
  induction 1 as [|ty items Hty _ IH]; intros a ts b; cbn; [by intros [= <- <-]|].
  destruct (resolve_type file ty a) as [t a1] eqn:E1. destruct (map_state (resolve_type file) items a1) as [ts1 a2] eqn:E2.
  intros [= <- <-] Hs Ha. pose proof (resolve_type_extends file ty a) as X1. rewrite E1 in X1. cbn in X1.
  assert (extends a1 a2) as X2.
  { change a2 with ((ts1, a2).2). rewrite <-E2. apply map_state_extends, Forall_true. intros. apply resolve_type_extends. }
  destruct (extends_silent _ _ _ X1 X2 Hs) as [S1 S2].
  pose proof (Hty _ _ _ E1 S1 Ha) as H1. pose proof (IH _ _ _ E2 S2 (builtin_kinds_extends _ _ X1 Ha)) as H2.
  rewrite (ext_symbols _ _ X1) in H2. rewrite orb_false_iff, <-H1, <-H2. split; [by intros [= -> ->]|by intros [-> ->]].
Qed.

(** A name alone: only [Unit] is read differently. *)
Lemma name_agrees name a s :
  sym_types (an_symbols a) !! name = Some s → builtin_kinds a → name ≠ "Unit" → name ≠ "Option" → name ≠ "Result" →
  match ts_kind s with
  | SymPrimitive => primitive name | SymStruct => RtStruct name | SymEnum => RtEnum name
  | SymState => RtState name | SymGeneric _ => RtError
  end =
  match ts_kind s with
  | SymPrimitive => match primitive_type name with Some p => RtPrimitive p | None => RtError end
  | SymStruct => RtStruct name | SymEnum => RtEnum name | SymState => RtState name | SymGeneric _ => RtError
  end.
Proof.
  intros Hs Ha Hu Ho Hr. apply Ha in Hs. destruct (ts_kind s); try done.
  by destruct (proj1 (Forall_forall _ _) primitives_agree _ Hs).
Qed.

Lemma lower_type_agrees ty : type_agrees ty.
Proof.
  revert ty. fix IH 1. intros [kind span] a t b. unfold type_agrees in IH.
  destruct kind as [r m inner|segments arguments|inner|items]; cbn [resolve_type lower_type mentions_unit].
  - destruct (resolve_type file inner a) as [t1 b1] eqn:E. intros [= <- <-] Hs Ha. rewrite <-(IH _ _ _ _ E Hs Ha).
    split; [by intros [=]|by intros ->].
  - destruct segments as [|name [|]]; try (intros [= <- <-] []%push_message_loud).
    destruct (bool_decide (name = "Option")) eqn:Eo.
    { apply bool_decide_eq_true in Eo as ->. destruct arguments as [|x [|]]; try (intros [= <- <-] []%push_message_loud).
      destruct (resolve_type file x a) as [t1 b1] eqn:E. intros [= <- <-] Hs Ha.
      rewrite bool_decide_false by done. cbn. rewrite orb_false_r, <-(IH _ _ _ _ E Hs Ha).
      split; [by intros [=]|by intros ->]. }
    destruct (bool_decide (name = "Result")) eqn:Er.
    { apply bool_decide_eq_true in Er as ->. destruct arguments as [|x [|y [|]]]; try (intros [= <- <-] []%push_message_loud).
      destruct (resolve_type file x a) as [t1 b1] eqn:E1. destruct (resolve_type file y b1) as [t2 b2] eqn:E2.
      intros [= <- <-] Hs Ha. pose proof (resolve_type_extends file x a) as X1. rewrite E1 in X1. cbn in X1.
      pose proof (resolve_type_extends file y b1) as X2. rewrite E2 in X2. cbn in X2.
      destruct (extends_silent _ _ _ X1 X2 Hs) as [S1 S2].
      pose proof (IH _ _ _ _ E1 S1 Ha) as H1. pose proof (IH _ _ _ _ E2 S2 (builtin_kinds_extends _ _ X1 Ha)) as H2.
      rewrite (ext_symbols _ _ X1) in H2.
      rewrite bool_decide_false by done. cbn. rewrite orb_false_r, orb_false_iff, <-H1, <-H2.
      split; [by intros [= -> ->]|by intros [-> ->]]. }
    apply bool_decide_eq_false in Eo, Er.
    destruct (bool_decide (name = "Unit") && _) eqn:Eu.
    { apply andb_true_iff in Eu as [->%bool_decide_eq_true Hlen%bool_decide_eq_true].
      apply nil_length_inv in Hlen as ->. intros [= <- <-] Hs Ha. cbn. split; [|done].
      destruct (sym_types (an_symbols a) !! "Unit") as [s|] eqn:Es; [|done]. by destruct (ts_kind s). }
    destruct (_ !! name) as [s|] eqn:Es; [|intros [= <- <-] []%push_message_loud].
    destruct (negb _) eqn:En; [intros [= <- <-] []%push_message_loud|]. intros [= <- <-] _ Ha.
    apply negb_false_iff in En. rewrite En, andb_true_r in Eu. apply bool_decide_eq_true, nil_length_inv in En as ->.
    apply bool_decide_eq_false in Eu. cbn. rewrite (name_agrees _ _ _ Es Ha) by done.
    split; [|done]. intros _. rewrite bool_decide_false; [done|]. by intros [=].
  - destruct (resolve_type file inner a) as [t1 b1] eqn:E. intros [= <- <-] Hs Ha. rewrite <-(IH _ _ _ _ E Hs Ha).
    split; [by intros [=]|by intros ->].
  - destruct items as [|x items]; [by intros [= <- <-]|].
    assert (Forall type_agrees (x :: items)) as Hall.
    { constructor; [exact (IH x)|]. induction items as [|z items IHl]; constructor; [exact (IH z)|exact IHl]. }
    destruct (map_state (resolve_type file) (x :: items) a) as [ts b1] eqn:E. intros [= <- <-] Hs Ha.
    rewrite <-(types_agree _ Hall _ _ _ E Hs Ha). split; [by intros [=]|by intros ->].
Qed.
End types.

(** Lowering reads the types of an annotated declaration again: where the
    analyser resolved a type without a report, over the declarations of a file,
    lowering gives the same type exactly when [Unit] does not occur in it. *)
Theorem lowered_types_agree file ast ty t b :
  let a := collect_declarations file ast analyzer_new in
  resolve_type file ty a = (t, b) → an_diagnostics b = an_diagnostics a →
  (lower_type (an_symbols a) ty = t ↔ mentions_unit ty = false).
Proof.
  intros a E Hs. apply (lower_type_agrees file ty a t b E Hs). exact (cl_kinds _ (tb_clean _ _ (collected_tables file ast))).
Qed.

(** ** A file *)

(** [enum Sign { plus, minus }] and a function whose bindings shadow each other. *)
Definition sign_item : Item :=
  ItemEnum {| en_public := false; en_name := "Sign";
              en_variants := [{| ev_name := "plus"; ev_fields := []; ev_span := default_span |};
                              {| ev_name := "minus"; ev_fields := [name_type "I64"]; ev_span := default_span |}];
              en_span := default_span |}.

Definition variant_pattern (path : list string) (fields : list string) : Pattern :=
  mkPattern (PkConstructor path (map (λ x, mkPattern (PkPath [x]) default_span) fields)) default_span.

Definition shadowing_item : Item :=
  ItemFunction {| fnn_attributes := []; fnn_public := false; fnn_asynchronous := false; fnn_name := "main";
                  fnn_parameters := [{| pa_name := "x"; pa_ty := name_type "I64"; pa_span := default_span |};
                                     {| pa_name := "s"; pa_ty := name_type "Sign"; pa_span := default_span |}];
                  fnn_return_type := Some (name_type "I64"); fnn_effects := None;
                  fnn_body := mkBody
                    [bind "x" (block [bind "y" (var "x"); statement (var "y")]);
                     statement (Ex (EMatch (var "s")
                       [mkMatchArm (mkPattern (PkPath ["Sign"; "plus"]) default_span) None (var "x") default_span;
                        mkMatchArm (variant_pattern ["Sign"; "minus"] ["x"]) None (var "x") default_span]) default_span)]
                    default_span;
                  fnn_span := default_span |}.

Definition file_with (items : list Item) : Ast :=
  {| ast_module := None; ast_imports := []; ast_items := items; ast_span := default_span |}.

Definition lower_file (items : list Item) : option (result HirProgram (list Diagnostic)) :=
  lower_to_hir (file_with items) (analysis_symbols (analyze "<hir>" (file_with items))).

Definition shadowing_file : list Item := [sign_item; shadowing_item].

Lemma lowering_keeps_bindings_witness :
  ∃ ds, Forall2 (item_kept (analysis_symbols (analyze "<hir>" (file_with shadowing_file)))
                   (analysis_expression_types (analyze "<hir>" (file_with shadowing_file))) ds) shadowing_file ds.
Proof.
  destruct (lower_file shadowing_file) as [[p|]|] eqn:E.
  - destruct (lowering_keeps_bindings _ _ p E) as (ds & _ & H & _). exists ds. exact H.
  - exfalso. assert (match lower_file shadowing_file with Some (Ok _) => true | _ => false end = true) as H
      by (vm_compute; reflexivity). rewrite E in H. discriminate H.
  - exfalso. assert (match lower_file shadowing_file with Some (Ok _) => true | _ => false end = true) as H
      by (vm_compute; reflexivity). rewrite E in H. discriminate H.
Defined.

Lemma accepted_files_lower_witness : ∃ p, lower_file shadowing_file = Some (Ok p).
Proof.
  apply (accepted_files_lower (file_with shadowing_file)).
  - vm_compute. reflexivity.
  - vm_compute. reflexivity.
  - repeat constructor.
  - vm_compute. discriminate.
Defined.

Lemma lowered_types_agree_witness :
  lower_type (an_symbols (collect_declarations "a.syl" (file_with shadowing_file) analyzer_new)) (name_type "Sign") = RtEnum "Sign".
Proof.
  set (a := collect_declarations "a.syl" (file_with shadowing_file) analyzer_new).
  assert (resolve_type "a.syl" (name_type "Sign") a = (RtEnum "Sign", a)) as E by reflexivity.
  apply (lowered_types_agree "a.syl" (file_with shadowing_file) (name_type "Sign") (RtEnum "Sign") a E); reflexivity.
Defined.

(** ** Gaps *)

Definition returning (ty : string) (body : list Statement) : Item :=
  ItemFunction {| fnn_attributes := []; fnn_public := false; fnn_asynchronous := false; fnn_name := "main";
                  fnn_parameters := [{| pa_name := "x"; pa_ty := name_type "I64"; pa_span := default_span |}];
                  fnn_return_type := Some (name_type ty); fnn_effects := None; fnn_body := mkBody body default_span;
                  fnn_span := default_span |}.

Definition results_item (values : list Expr) : Item :=
  ItemPipeline {| pn_public := false; pn_name := "answer"; pn_parameters := [];
                  pn_return_type := Some (name_type "Bool");
                  pn_fields := map (λ e, {| prop_name := "result"; prop_ty := None; prop_value := e; prop_span := default_span |}) values;
                  pn_span := default_span |}.

Definition boolean_literal (b : bool) : Expr := Ex (ELiteral (LitBoolean b)) default_span.

Definition lowered_codes (items : list Item) : option (result (list (option ResolvedType)) (list string)) :=
  (λ r, match r with
        | Ok p => Ok (map (λ d, match hd_kind d with
                                | KindFunction f => Some (hf_result f)
                                | KindPipeline q => expr_ty <$> pl_body q
                                | _ => None
                                end) (flat_map definitions (modules p)))
        | Err ds => Err (map code ds)
        end) <$> lower_file items.

(** Files the analyser accepts that are lowered to something else: a function that
    returns [Unit] gets an unsigned type of that name, a field of a value that is no
    struct is reported after all, and of two [result] properties the analyser
    checks the first and lowering takes the last, here a name nothing declares. *)
Lemma lowering_gaps :
  analysis_diagnostics (analyze "<hir>" (file_with [returning "Unit" []])) = [] ∧
  lowered_codes [returning "Unit" []] = Some (Ok [Some (RtPrimitive (PrimUnsigned "Unit"))]) ∧
  analysis_diagnostics (analyze "<hir>" (file_with [returning "Bool" [statement (Ex (EField (var "x") "size") default_span)]])) = [] ∧
  lowered_codes [returning "Bool" [statement (Ex (EField (var "x") "size") default_span)]] = Some (Err ["SYL3001"]) ∧
  analysis_diagnostics (analyze "<hir>" (file_with [results_item [boolean_literal true; var "nothing"]])) = [] ∧
  lowered_codes [results_item [boolean_literal true; var "nothing"]] = Some (Err ["SYL3001"]).
Proof. split_and!; vm_compute; reflexivity. Qed.
