(* ===== verification/Pest.v ===== *)
(** * Parse trees (crates/syllog-parser/src/grammar.pest)

    The parse trees Pest hands to lib.rs, and the trees the grammar allows.  A
    rule of the grammar is a regular expression over the rules of the pairs inside:
    literals and silent rules leave no pair, atomic rules no inner pairs.  Whether a
    word of pairs fits is decided with derivatives. *)

From stdpp Require Import base list strings numbers.
From S2P Require Import Prelude Text Hir.
Open Scope string_scope.
Open Scope list_scope.
Open Scope nat_scope.

(** The rules that tag pairs, with the names [Debug] prints. *)
Inductive Rule :=
| R_program | R_module_decl | R_use_decl | R_visibility | R_async_marker | R_struct_decl
| R_struct_field | R_enum_decl | R_enum_variant | R_function_decl | R_attribute | R_parameters
| R_parameter | R_return_type | R_state_decl | R_state_field | R_agent_decl | R_pipeline_decl
| R_safety_bound_decl | R_property_block | R_property | R_typed_property | R_effect_set | R_effect_name
| R_type_expr | R_reference_type | R_lifetime | R_array_type | R_tuple_type | R_path_type
| R_generic_arguments | R_block | R_let_statement | R_return_statement | R_expression_statement | R_expression
| R_postfix_expression | R_call_suffix | R_call_argument | R_named_argument | R_field_suffix | R_borrow_expression
| R_await_expression | R_parenthesized | R_array_expression | R_path_expression | R_match_expression | R_match_arm
| R_match_guard | R_pattern | R_wildcard_pattern | R_constructor_pattern | R_literal_pattern | R_path_pattern
| R_op_or | R_op_and | R_op_equal | R_op_not_equal | R_op_less_equal | R_op_greater_equal
| R_op_less | R_op_greater | R_op_add | R_op_subtract | R_op_multiply | R_op_divide
| R_op_remainder | R_prefix_operator | R_op_not | R_op_negate | R_boolean | R_float
| R_integer | R_string | R_path | R_identifier | R_kw_struct | R_kw_enum
| R_kw_fn | R_kw_state | R_kw_agent | R_kw_pipeline | R_kw_safety_bound | R_kw_let
| R_kw_return | R_kw_match | R_kw_if | R_kw_module | R_kw_use | R_kw_as
| R_kw_await | R_kw_mut | R_EOI.

Definition rule_name (r : Rule) : string :=
  match r with
  | R_program => "program"
  | R_module_decl => "module_decl"
  | R_use_decl => "use_decl"
  | R_visibility => "visibility"
  | R_async_marker => "async_marker"
  | R_struct_decl => "struct_decl"
  | R_struct_field => "struct_field"
  | R_enum_decl => "enum_decl"
  | R_enum_variant => "enum_variant"
  | R_function_decl => "function_decl"
  | R_attribute => "attribute"
  | R_parameters => "parameters"
  | R_parameter => "parameter"
  | R_return_type => "return_type"
  | R_state_decl => "state_decl"
  | R_state_field => "state_field"
  | R_agent_decl => "agent_decl"
  | R_pipeline_decl => "pipeline_decl"
  | R_safety_bound_decl => "safety_bound_decl"
  | R_property_block => "property_block"
  | R_property => "property"
  | R_typed_property => "typed_property"
  | R_effect_set => "effect_set"
  | R_effect_name => "effect_name"
  | R_type_expr => "type_expr"
  | R_reference_type => "reference_type"
  | R_lifetime => "lifetime"
  | R_array_type => "array_type"
  | R_tuple_type => "tuple_type"
  | R_path_type => "path_type"
  | R_generic_arguments => "generic_arguments"
  | R_block => "block"
  | R_let_statement => "let_statement"
  | R_return_statement => "return_statement"
  | R_expression_statement => "expression_statement"
  | R_expression => "expression"
  | R_postfix_expression => "postfix_expression"
  | R_call_suffix => "call_suffix"
  | R_call_argument => "call_argument"
  | R_named_argument => "named_argument"
  | R_field_suffix => "field_suffix"
  | R_borrow_expression => "borrow_expression"
  | R_await_expression => "await_expression"
  | R_parenthesized => "parenthesized"
  | R_array_expression => "array_expression"
  | R_path_expression => "path_expression"
  | R_match_expression => "match_expression"
  | R_match_arm => "match_arm"
  | R_match_guard => "match_guard"
  | R_pattern => "pattern"
  | R_wildcard_pattern => "wildcard_pattern"
  | R_constructor_pattern => "constructor_pattern"
  | R_literal_pattern => "literal_pattern"
  | R_path_pattern => "path_pattern"
  | R_op_or => "op_or"
  | R_op_and => "op_and"
  | R_op_equal => "op_equal"
  | R_op_not_equal => "op_not_equal"
  | R_op_less_equal => "op_less_equal"
  | R_op_greater_equal => "op_greater_equal"
  | R_op_less => "op_less"
  | R_op_greater => "op_greater"
  | R_op_add => "op_add"
  | R_op_subtract => "op_subtract"
  | R_op_multiply => "op_multiply"
  | R_op_divide => "op_divide"
  | R_op_remainder => "op_remainder"
  | R_prefix_operator => "prefix_operator"
  | R_op_not => "op_not"
  | R_op_negate => "op_negate"
  | R_boolean => "boolean"
  | R_float => "float"
  | R_integer => "integer"
  | R_string => "string"
  | R_path => "path"
  | R_identifier => "identifier"
  | R_kw_struct => "kw_struct"
  | R_kw_enum => "kw_enum"
  | R_kw_fn => "kw_fn"
  | R_kw_state => "kw_state"
  | R_kw_agent => "kw_agent"
  | R_kw_pipeline => "kw_pipeline"
  | R_kw_safety_bound => "kw_safety_bound"
  | R_kw_let => "kw_let"
  | R_kw_return => "kw_return"
  | R_kw_match => "kw_match"
  | R_kw_if => "kw_if"
  | R_kw_module => "kw_module"
  | R_kw_use => "kw_use"
  | R_kw_as => "kw_as"
  | R_kw_await => "kw_await"
  | R_kw_mut => "kw_mut"
  | R_EOI => "EOI"
  end.

(** Equality of rules, by their position in the grammar. *)
Definition rule_code (r : Rule) : nat :=
  match r with
  | R_program => 0 | R_module_decl => 1 | R_use_decl => 2 | R_visibility => 3 | R_async_marker => 4 |
  R_struct_decl => 5 | R_struct_field => 6 | R_enum_decl => 7 | R_enum_variant => 8 | R_function_decl => 9 |
  R_attribute => 10 | R_parameters => 11 | R_parameter => 12 | R_return_type => 13 | R_state_decl => 14 |
  R_state_field => 15 | R_agent_decl => 16 | R_pipeline_decl => 17 | R_safety_bound_decl => 18 |
  R_property_block => 19 | R_property => 20 | R_typed_property => 21 | R_effect_set => 22 | R_effect_name =>
  23 | R_type_expr => 24 | R_reference_type => 25 | R_lifetime => 26 | R_array_type => 27 | R_tuple_type => 28
  | R_path_type => 29 | R_generic_arguments => 30 | R_block => 31 | R_let_statement => 32 | R_return_statement
  => 33 | R_expression_statement => 34 | R_expression => 35 | R_postfix_expression => 36 | R_call_suffix => 37
  | R_call_argument => 38 | R_named_argument => 39 | R_field_suffix => 40 | R_borrow_expression => 41 |
  R_await_expression => 42 | R_parenthesized => 43 | R_array_expression => 44 | R_path_expression => 45 |
  R_match_expression => 46 | R_match_arm => 47 | R_match_guard => 48 | R_pattern => 49 | R_wildcard_pattern =>
  50 | R_constructor_pattern => 51 | R_literal_pattern => 52 | R_path_pattern => 53 | R_op_or => 54 | R_op_and
  => 55 | R_op_equal => 56 | R_op_not_equal => 57 | R_op_less_equal => 58 | R_op_greater_equal => 59 |
  R_op_less => 60 | R_op_greater => 61 | R_op_add => 62 | R_op_subtract => 63 | R_op_multiply => 64 |
  R_op_divide => 65 | R_op_remainder => 66 | R_prefix_operator => 67 | R_op_not => 68 | R_op_negate => 69 |
  R_boolean => 70 | R_float => 71 | R_integer => 72 | R_string => 73 | R_path => 74 | R_identifier => 75 |
  R_kw_struct => 76 | R_kw_enum => 77 | R_kw_fn => 78 | R_kw_state => 79 | R_kw_agent => 80 | R_kw_pipeline =>
  81 | R_kw_safety_bound => 82 | R_kw_let => 83 | R_kw_return => 84 | R_kw_match => 85 | R_kw_if => 86 |
  R_kw_module => 87 | R_kw_use => 88 | R_kw_as => 89 | R_kw_await => 90 | R_kw_mut => 91 | R_EOI => 92
  end.

Definition all_rules : list Rule :=
  [R_program; R_module_decl; R_use_decl; R_visibility; R_async_marker; R_struct_decl; R_struct_field;
  R_enum_decl; R_enum_variant; R_function_decl; R_attribute; R_parameters; R_parameter; R_return_type;
  R_state_decl; R_state_field; R_agent_decl; R_pipeline_decl; R_safety_bound_decl; R_property_block;
  R_property; R_typed_property; R_effect_set; R_effect_name; R_type_expr; R_reference_type; R_lifetime;
  R_array_type; R_tuple_type; R_path_type; R_generic_arguments; R_block; R_let_statement; R_return_statement;
  R_expression_statement; R_expression; R_postfix_expression; R_call_suffix; R_call_argument;
  R_named_argument; R_field_suffix; R_borrow_expression; R_await_expression; R_parenthesized;
  R_array_expression; R_path_expression; R_match_expression; R_match_arm; R_match_guard; R_pattern;
  R_wildcard_pattern; R_constructor_pattern; R_literal_pattern; R_path_pattern; R_op_or; R_op_and; R_op_equal;
  R_op_not_equal; R_op_less_equal; R_op_greater_equal; R_op_less; R_op_greater; R_op_add; R_op_subtract;
  R_op_multiply; R_op_divide; R_op_remainder; R_prefix_operator; R_op_not; R_op_negate; R_boolean; R_float;
  R_integer; R_string; R_path; R_identifier; R_kw_struct; R_kw_enum; R_kw_fn; R_kw_state; R_kw_agent;
  R_kw_pipeline; R_kw_safety_bound; R_kw_let; R_kw_return; R_kw_match; R_kw_if; R_kw_module; R_kw_use;
  R_kw_as; R_kw_await; R_kw_mut; R_EOI].

Lemma rule_code_inv r : all_rules !! rule_code r = Some r.
Proof. by destruct r. Qed.

#[export] Instance rule_eq_dec : EqDecision Rule.
Proof.
  intros r s. refine (cast_if (decide (rule_code r = rule_code s))); [|by intros ->].
  abstract (pose proof (rule_code_inv r) as Hr; pose proof (rule_code_inv s) as Hs; congruence).
Defined.

(** Comparisons of two known rules. *)
Ltac decide_rules :=
  repeat match goal with
  | |- context [bool_decide (?a = ?b :> Rule)] =>
      let v := eval vm_compute in (bool_decide (a = b)) in
      lazymatch v with true => idtac | false => idtac end; change (bool_decide (a = b)) with v
  end.

(** [pest::iterators::Pair]: its rule, [as_str], positions and inner pairs. *)
Inductive Pair := mkPair (rule : Rule) (text : string) (span : Span) (inner : list Pair).

Definition as_rule (p : Pair) : Rule := let 'mkPair r _ _ _ := p in r.
Definition as_str (p : Pair) : string := let 'mkPair _ t _ _ := p in t.
Definition pair_span (p : Pair) : Span := let 'mkPair _ _ s _ := p in s.
Definition into_inner (p : Pair) : list Pair := let 'mkPair _ _ _ l := p in l.

Arguments as_rule !p /.
Arguments as_str !p /.
Arguments pair_span !p /.
Arguments into_inner !p /.

Definition front_is (r : Rule) (l : list Pair) : bool :=
  match l with p :: _ => bool_decide (as_rule p = r) | [] => false end.

Fixpoint pair_depth (p : Pair) : nat :=
  match p with mkPair _ _ _ l => S (foldr (λ q n, pair_depth q `max` n) 0 l) end.

Lemma pair_depth_inner p q : q ∈ into_inner p → pair_depth q < pair_depth p.
Proof.
  destruct p as [r t s l]. cbn. induction l as [|x l IH]; [by intros ?%elem_of_nil|].
  intros [->|Hq]%elem_of_cons; cbn; [lia|]. apply IH in Hq. lia.
Qed.

(** ** The grammar *)

Inductive Shape :=
| Nothing
| Never
| One (r : Rule)
| Then (a b : Shape)
| Or (a b : Shape)
| Many (a : Shape).

Definition Maybe (a : Shape) : Shape := Or a Nothing.
Definition Some_of (a : Shape) : Shape := Then a (Many a).
Definition one_of_rules (l : list Rule) : Shape := foldr (λ r s, Or (One r) s) Never l.

Declare Scope shape_scope.
Delimit Scope shape_scope with shape.
Bind Scope shape_scope with Shape.
Notation "a @> b" := (Then a b) (at level 60, right associativity) : shape_scope.
Coercion One : Rule >-> Shape.

Definition item_shape : Shape :=
  one_of_rules [R_struct_decl; R_enum_decl; R_function_decl; R_state_decl; R_agent_decl; R_pipeline_decl; R_safety_bound_decl].
Definition statement_shape : Shape := one_of_rules [R_let_statement; R_return_statement; R_expression_statement].
Definition literal_shape : Shape := one_of_rules [R_string; R_boolean; R_float; R_integer].
Definition primary_rules : list Rule :=
  [R_borrow_expression; R_await_expression; R_match_expression; R_array_expression; R_string; R_boolean; R_float; R_integer;
   R_path_expression; R_parenthesized; R_block].
Definition infix_rules : list Rule :=
  [R_op_or; R_op_and; R_op_equal; R_op_not_equal; R_op_less_equal; R_op_greater_equal; R_op_less; R_op_greater;
   R_op_add; R_op_subtract; R_op_multiply; R_op_divide; R_op_remainder].
Definition operand_shape : Shape := Many R_prefix_operator @> R_postfix_expression.

Definition grammar (r : Rule) : Shape :=
  match r with
  | R_program => Maybe R_module_decl @> Many R_use_decl @> Many item_shape @> R_EOI
  | R_module_decl => R_kw_module @> R_path
  | R_use_decl => R_kw_use @> R_path @> Maybe (R_kw_as @> R_identifier)
  | R_struct_decl => Maybe R_visibility @> R_kw_struct @> R_identifier @> Many R_struct_field
  | R_struct_field => Maybe R_visibility @> R_identifier @> R_type_expr
  | R_enum_decl => Maybe R_visibility @> R_kw_enum @> R_identifier @> Many R_enum_variant
  | R_enum_variant => R_identifier @> Maybe (Maybe (Some_of R_type_expr))
  | R_function_decl =>
      Many R_attribute @> Maybe R_visibility @> Maybe R_async_marker @> R_kw_fn @> R_identifier @>
      R_parameters @> Maybe R_return_type @> Maybe R_effect_set @> R_block
  | R_attribute => R_identifier
  | R_parameters => Maybe (Some_of R_parameter)
  | R_parameter => R_identifier @> R_type_expr
  | R_return_type => R_type_expr
  | R_state_decl => Maybe R_visibility @> R_kw_state @> R_identifier @> Many R_state_field
  | R_state_field => R_identifier @> R_type_expr @> Maybe R_expression
  | R_agent_decl => Maybe R_visibility @> R_kw_agent @> R_identifier @> R_property_block
  | R_pipeline_decl =>
      Maybe R_visibility @> R_kw_pipeline @> R_identifier @> Maybe R_parameters @> Maybe R_return_type @> R_property_block
  | R_safety_bound_decl =>
      Maybe R_visibility @> R_kw_safety_bound @> R_identifier @> Maybe R_parameters @> R_property_block
  | R_property_block => Many R_property
  | R_property => R_identifier @> Or R_typed_property R_expression
  | R_typed_property => R_type_expr @> R_expression
  | R_effect_set => Maybe (Some_of R_effect_name)
  | R_effect_name => R_identifier
  | R_type_expr => one_of_rules [R_reference_type; R_array_type; R_tuple_type; R_path_type]
  | R_reference_type => Maybe R_lifetime @> Maybe R_kw_mut @> R_type_expr
  | R_array_type => R_type_expr
  | R_tuple_type => Maybe (Some_of R_type_expr)
  | R_path_type => R_path @> Maybe R_generic_arguments
  | R_generic_arguments => Some_of R_type_expr
  | R_block => Many statement_shape
  | R_let_statement => R_kw_let @> R_identifier @> Maybe R_type_expr @> R_expression
  | R_return_statement => R_kw_return @> Maybe R_expression
  | R_expression_statement => R_expression
  | R_expression => operand_shape @> Many (one_of_rules infix_rules @> operand_shape)
  | R_postfix_expression => one_of_rules primary_rules @> Many (Or R_call_suffix R_field_suffix)
  | R_call_suffix => Maybe (Some_of R_call_argument)
  | R_call_argument => Or R_named_argument R_expression
  | R_named_argument => R_identifier @> R_expression
  | R_field_suffix => R_identifier
  | R_borrow_expression => Maybe R_kw_mut @> R_expression
  | R_await_expression => R_kw_await @> R_expression
  | R_parenthesized => R_expression
  | R_array_expression => Maybe (Some_of R_expression)
  | R_path_expression => R_path
  | R_match_expression => R_kw_match @> R_expression @> Many R_match_arm
  | R_match_arm => R_pattern @> Maybe R_match_guard @> R_expression
  | R_match_guard => R_kw_if @> R_expression
  | R_pattern => one_of_rules [R_wildcard_pattern; R_constructor_pattern; R_literal_pattern; R_path_pattern]
  | R_constructor_pattern => R_path @> Maybe (Some_of R_pattern)
  | R_literal_pattern => literal_shape
  | R_path_pattern => R_path
  | R_prefix_operator => Or R_op_not R_op_negate
  | R_path => Some_of R_identifier
  | _ => Nothing
  end.

(** *** Deciding *)

Fixpoint nullable (s : Shape) : bool :=
  match s with
  | Nothing | Many _ => true
  | Never | One _ => false
  | Then a b => nullable a && nullable b
  | Or a b => nullable a || nullable b
  end.

Fixpoint derivative (r : Rule) (s : Shape) : Shape :=
  match s with
  | Nothing | Never => Never
  | One q => if bool_decide (r = q) then Nothing else Never
  | Then a b => if nullable a then Or (Then (derivative r a) b) (derivative r b) else Then (derivative r a) b
  | Or a b => Or (derivative r a) (derivative r b)
  | Many a => Then (derivative r a) (Many a)
  end.

Definition fits (s : Shape) (word : list Rule) : bool := nullable (foldl (λ s r, derivative r s) s word).

(** What a shape says of the pairs. *)
Fixpoint matches (s : Shape) (l : list Pair) : Prop :=
  match s with
  | Nothing => l = []
  | Never => False
  | One r => ∃ p, l = [p] ∧ as_rule p = r
  | Then a b => ∃ k m, l = k ++ m ∧ matches a k ∧ matches b m
  | Or a b => matches a l ∨ matches b l
  | Many a => ∃ ls, l = concat ls ∧ Forall (matches a) ls
  end.

Lemma nullable_matches s : nullable s = true → matches s [].
Proof.
  induction s as [| |r|a IHa b IHb|a IHa b IHb|a IHa]; cbn; try done.
  - intros [Ha Hb]%andb_true_iff. exists [], []. auto.
  - intros [Ha|Hb]%orb_true_iff; auto.
  - exists []. by split.
Qed.

Lemma derivative_matches s : ∀ p l, matches (derivative (as_rule p) s) l → matches s (p :: l).
Proof.
  induction s as [| |r|a IHa b IHb|a IHa b IHb|a IHa]; intros p l; cbn; try done.
  - case_bool_decide as Hr; [|done]. cbn. intros ->. by exists p.
  - destruct (nullable a) eqn:En; cbn.
    + intros [(k & m & -> & Hk & Hm)|Hl]; [exists (p :: k), m; auto|].
      exists [], (p :: l). split; [done|]. split; [by apply nullable_matches|auto].
    + intros (k & m & -> & Hk & Hm). exists (p :: k), m. auto.
  - intros [|]; auto.
  - intros (k & m & -> & Hk & ls & -> & Hls). exists ((p :: k) :: ls). split; [done|]. constructor; auto.
Qed.

Lemma fits_matches s l : fits s (map as_rule l) = true → matches s l.
Proof.
  unfold fits. revert s. induction l as [|p l IH]; intros s; cbn; [apply nullable_matches|].
  intros H%IH. by apply derivative_matches.
Qed.

Lemma matches_one_of rules l : matches (one_of_rules rules) l → ∃ p, l = [p] ∧ as_rule p ∈ rules.
Proof.
  induction rules as [|r rules IH]; cbn; [done|]. intros [(p & -> & <-)|(p & -> & Hp)%IH]; exists p; rewrite elem_of_cons; auto.
Qed.

Lemma matches_many_one r l : matches (Many (One r)) l → Forall (λ p, as_rule p = r) l.
Proof.
  cbn. intros (ls & -> & Hls). induction Hls as [|x ls (p & -> & Hp) _ IH]; cbn; [constructor|]. by constructor.
Qed.

Lemma matches_many_of rules l : matches (Many (one_of_rules rules)) l → Forall (λ p, as_rule p ∈ rules) l.
Proof.
  cbn. intros (ls & -> & Hls).
  induction Hls as [|x ls Hx _ IH]; cbn; [constructor|]. apply matches_one_of in Hx as (p & -> & Hp). by constructor.
Qed.

Lemma matches_some_of r l : matches (Some_of (One r)) l → l ≠ [] ∧ Forall (λ p, as_rule p = r) l.
Proof.
  intros (k & m & -> & (p & -> & Hp) & Hm%matches_many_one). split; [done|]. by constructor.
Qed.

Lemma matches_maybe_some r l : matches (Maybe (Some_of (One r))) l → Forall (λ p, as_rule p = r) l.
Proof. intros [[_ H]%matches_some_of| ->]; [done|constructor]. Qed.

(** Texts of the tokens whose content matters: digits of an integer. *)
Definition is_digit (c : Ascii.ascii) : bool :=
  let n := Ascii.nat_of_ascii c in (48 <=? n) && (n <=? 57).

Definition token_ok (p : Pair) : bool :=
  match as_rule p with
  | R_integer => negb (bool_decide (as_str p = "")) && forallb is_digit (String.list_ascii_of_string (as_str p))
  | _ => true
  end.

Fixpoint conforms (p : Pair) : bool :=
  match p with
  | mkPair r _ _ l => fits (grammar r) (map as_rule l) && token_ok p && forallb conforms l
  end.

Lemma conforms_inner p q : conforms p = true → q ∈ into_inner p → conforms q = true.
Proof.
  destruct p as [r t s l]. cbn. intros [_ H]%andb_true_iff Hq. by eapply forallb_forall; [exact H|apply list_elem_of_In].
Qed.

Lemma conforms_matches p : conforms p = true → matches (grammar (as_rule p)) (into_inner p).
Proof. destruct p as [r t s l]. cbn. intros [[H _]%andb_true_iff _]%andb_true_iff. by apply fits_matches. Qed.
