(* ===== verification/Validate.v ===== *)
(** * Validation of configuration (crates/syllog-parser/src/validate.rs)

    The checks on agents, pipelines and safety bounds after parsing.  The methods
    only append diagnostics, so each returns the list it appends. *)

From stdpp Require Import base gmap strings numbers list.
From S2P Require Import Prelude Hir Diagnostics Ast.
Open Scope string_scope.
Open Scope list_scope.

Definition validation_error (file code text : string) (span : Span) : Diagnostic :=
  {| Diagnostics.code := code; severity := SeverityError; message := Text text; Diagnostics.file := file;
     diagnostic_span := span |}.

Definition find_property (fields : list PropertyNode) (name : string) : option PropertyNode :=
  List.find (λ f, bool_decide (prop_name f = name)) fields.

Definition is_nonempty_string (e : Expr) : bool :=
  match ex_kind e with ELiteral (LitString s) => negb (bool_decide (s = "")) | _ => false end.

Inductive ProviderCallStatus := NotCall | Malformed | ValidCall (has_model : bool).

Definition argument_name (x : CallArgument) : option string := let 'mkArgument n _ _ := x in n.

(** [any(|name| !names.insert(name))] *)
Fixpoint repeated (seen : gset string) (names : list string) : bool :=
  match names with
  | [] => false
  | name :: names => bool_decide (name ∈ seen) || repeated ({[name]} ∪ seen) names
  end.

Definition provider_call_status (kind : ExprKind) : ProviderCallStatus :=
  match kind with
  | ECall callee arguments =>
      if negb (match ex_kind callee with ELiteral (LitIdentifier _) | EPath _ => true | _ => false end) ||
         existsb (λ x, match argument_name x with None => true | Some _ => false end) arguments
      then Malformed
      else if repeated ∅ (omap argument_name arguments) then Malformed
      else
        match List.find (λ x, bool_decide (argument_name x = Some "model")) arguments with
        | Some x => if is_nonempty_string (argument_value x) then ValidCall true else Malformed
        | None => ValidCall false
        end
  | _ => NotCall
  end.

Definition is_fallback_entry (e : Expr) : bool :=
  is_nonempty_string e || match provider_call_status (ex_kind e) with ValidCall true => true | _ => false end.

Section validation.
Context (file : string).
Abbreviation error := (validation_error file).

Definition required_property (kind declaration : string) (span : Span) (fields : list PropertyNode) (name : string)
    : option PropertyNode * list Diagnostic :=
  match find_property fields name with
  | Some f => (Some f, [])
  | None => (None, [error "SYL1002" (kind +:+ " '" +:+ declaration +:+ "' is missing required property '" +:+ name +:+ "'") span])
  end.

Fixpoint duplicate_loop (seen : gset string) (fields : list PropertyNode) : list Diagnostic :=
  match fields with
  | [] => []
  | f :: fields =>
      (if bool_decide (prop_name f ∈ seen) then [error "SYL1001" ("duplicate property '" +:+ prop_name f +:+ "'") (prop_span f)]
       else []) ++ duplicate_loop ({[prop_name f]} ∪ seen) fields
  end.

Definition duplicate_properties (fields : list PropertyNode) : list Diagnostic := duplicate_loop ∅ fields.

Definition validate_agent_reference (reference : PropertyNode) (agents : gset string) : list Diagnostic :=
  let value := prop_value reference in
  let name := match ex_kind value with
              | ELiteral (LitIdentifier name) => Some name
              | EPath segments => last segments
              | _ => None
              end in
  match name with
  | Some name =>
      if bool_decide (name ∈ agents) then []
      else [error "SYL1101" ("pipeline references unknown agent '" +:+ name +:+ "'") (ex_span value)]
  | None => [error "SYL1101" "pipeline 'agent' must reference a declared agent by name" (ex_span value)]
  end.

Definition validate_top_level_model (agent : AgentNode) : list Diagnostic :=
  let '(model, ds) := required_property "agent" (ag_name agent) (ag_span agent) (ag_fields agent) "model" in
  ds ++ match model with
        | Some model =>
            if is_nonempty_string (prop_value model) then []
            else [error "SYL1201" "agent 'model' must be a non-empty string" (ex_span (prop_value model))]
        | None => []
        end.

Definition validate_provider (agent : AgentNode) (provider : PropertyNode) : list Diagnostic :=
  let invalid := [error "SYL1201"
    "provider must be a non-empty route string or a provider call with named arguments and a non-empty string model"
    (prop_span provider)] in
  if is_nonempty_string (prop_value provider) then validate_top_level_model agent
  else
    match provider_call_status (ex_kind (prop_value provider)) with
    | ValidCall true => []
    | ValidCall false => validate_top_level_model agent
    | NotCall | Malformed => invalid
    end.

Definition validate_fallback (agent : AgentNode) : list Diagnostic :=
  match find_property (ag_fields agent) "fallback" with
  | None => []
  | Some fallback =>
      match ex_kind (prop_value fallback) with
      | EArray entries =>
          flat_map (λ entry, if is_fallback_entry entry then []
                             else [error "SYL1202"
                               "fallback entry must be a non-empty route string or a provider call with a named string 'model' argument"
                               (ex_span entry)]) entries
      | _ => [error "SYL1202" "fallback must be an array of provider definitions" (ex_span (prop_value fallback))]
      end
  end.

Definition validate_agent (agent : AgentNode) : list Diagnostic :=
  let required := required_property "agent" (ag_name agent) (ag_span agent) (ag_fields agent) in
  let '(provider, ds) := required "provider" in
  duplicate_properties (ag_fields agent) ++ ds ++ (required "context_window").2 ++
  match provider with Some provider => validate_provider agent provider | None => [] end ++
  validate_fallback agent.

Definition validate_item (agents : gset string) (item : Item) : list Diagnostic :=
  match item with
  | ItemAgent agent => validate_agent agent
  | ItemPipeline n =>
      duplicate_properties (pn_fields n) ++
      let '(reference, ds) := required_property "pipeline" (pn_name n) (pn_span n) (pn_fields n) "agent" in
      ds ++ match reference with Some reference => validate_agent_reference reference agents | None => [] end
  | ItemSafetyBound n =>
      duplicate_properties (sb_fields n) ++
      match find_property (sb_fields n) "require", find_property (sb_fields n) "policy" with
      | None, None => [error "SYL1002" "safety_bound requires a 'require' or 'policy' property" (sb_span n)]
      | _, _ => []
      end
  | _ => []
  end.

Definition agent_names (ast : Ast) : gset string :=
  list_to_set (omap (λ item, match item with ItemAgent n => Some (ag_name n) | _ => None end) (ast_items ast)).

Definition validate (ast : Ast) : list Diagnostic := flat_map (validate_item (agent_names ast)) (ast_items ast).
End validation.

(** * Validation: what a valid configuration is *)

Open Scope string_scope.
Open Scope list_scope.

(** ** Specification *)

Definition property_is (fields : list PropertyNode) (name : string) (e : Expr) : Prop :=
  ∃ f, f ∈ fields ∧ prop_name f = name ∧ prop_value f = e.

(** A provider named by a route. *)
Definition route (e : Expr) : Prop := ∃ s, ex_kind e = ELiteral (LitString s) ∧ s ≠ "".

(** A provider call: a name applied to arguments with distinct names; a [model]
    among them is a non-empty string. *)
Definition provider_call (e : Expr) (with_model : bool) : Prop :=
  ∃ callee arguments names, ex_kind e = ECall callee arguments ∧
    ((∃ name, ex_kind callee = ELiteral (LitIdentifier name)) ∨ ∃ path, ex_kind callee = EPath path) ∧
    map argument_name arguments = map Some names ∧ NoDup names ∧
    if with_model then ∃ x, x ∈ arguments ∧ argument_name x = Some "model" ∧ route (argument_value x)
    else "model" ∉ names.

Definition referred_agent (e : Expr) (name : string) : Prop :=
  ex_kind e = ELiteral (LitIdentifier name) ∨ ∃ path, ex_kind e = EPath (path ++ [name]).

Definition configured (ast : Ast) (item : Item) : Prop :=
  match item with
  | ItemAgent n =>
      let fields := ag_fields n in
      NoDup (map prop_name fields) ∧ (∃ e, property_is fields "context_window" e) ∧
      (∃ e, property_is fields "provider" e ∧
         (provider_call e true ∨ (route e ∨ provider_call e false) ∧ ∃ m, property_is fields "model" m ∧ route m)) ∧
      ∀ e, property_is fields "fallback" e →
        ∃ entries, ex_kind e = EArray entries ∧ Forall (λ x, route x ∨ provider_call x true) entries
  | ItemPipeline n =>
      NoDup (map prop_name (pn_fields n)) ∧
      ∃ e name, property_is (pn_fields n) "agent" e ∧ referred_agent e name ∧
        ∃ a, ItemAgent a ∈ ast_items ast ∧ ag_name a = name
  | ItemSafetyBound n =>
      NoDup (map prop_name (sb_fields n)) ∧
      ((∃ e, property_is (sb_fields n) "require" e) ∨ ∃ e, property_is (sb_fields n) "policy" e)
  | _ => True
  end.

(** ** Properties *)

Lemma find_property_some fields name f :
  find_property fields name = Some f → f ∈ fields ∧ prop_name f = name.
Proof.
  intros [Hf Hn]%find_some. apply bool_decide_eq_true in Hn. by rewrite list_elem_of_In.
Qed.

Lemma find_property_none fields name : find_property fields name = None ↔ ∀ e, ¬ property_is fields name e.
Proof.
  unfold find_property, property_is. split.
  - intros H e (f & Hf & Hn & _). apply list_elem_of_In, (find_none _ _ H) in Hf.
    by apply bool_decide_eq_false in Hf.
  - intros H. destruct (List.find _ fields) as [f|] eqn:E; [|done]. apply find_property_some in E as [Hf Hn].
    destruct (H (prop_value f)). by exists f.
Qed.

Lemma find_property_is fields name e :
  NoDup (map prop_name fields) → (prop_value <$> find_property fields name = Some e ↔ property_is fields name e).
Proof.
  intros Hnd. split.
  - destruct (find_property fields name) as [f|] eqn:E; [|done]. intros [= <-]. apply find_property_some in E as [Hf Hn].
    by exists f.
  - intros (f & Hf & Hn & <-). destruct (find_property fields name) as [g|] eqn:E.
    + apply find_property_some in E as [Hg Hng]. cbn. do 2 f_equal.
      by eapply NoDup_map_eq; [exact Hnd|..|congruence].
    + exfalso. apply (proj1 (find_property_none _ _) E (prop_value f)). by exists f.
Qed.

Lemma duplicate_loop_exact file fields seen :
  duplicate_loop file seen fields = [] ↔ NoDup (map prop_name fields) ∧ Forall (λ f, prop_name f ∉ seen) fields.
Proof.
  revert seen. induction fields as [|f fields IH]; intros seen; cbn.
  { split; [split; constructor|done]. }
  rewrite NoDup_cons, Forall_cons. case_bool_decide as Hf; cbn; [naive_solver|]. rewrite IH, !Forall_forall.
  setoid_rewrite elem_of_union. setoid_rewrite elem_of_singleton.
  setoid_rewrite list_elem_of_fmap. naive_solver.
Qed.

Lemma duplicate_properties_exact file fields : duplicate_properties file fields = [] ↔ NoDup (map prop_name fields).
Proof.
  unfold duplicate_properties. rewrite duplicate_loop_exact. split; [by intros []|]. intros H. split; [done|].
  apply Forall_true. set_solver.
Qed.

Lemma repeated_exact names seen : repeated seen names = false ↔ NoDup names ∧ Forall (λ n, n ∉ seen) names.
Proof.
  revert seen. induction names as [|n names IH]; intros seen; cbn.
  { split; [split; constructor|done]. }
  rewrite orb_false_iff, bool_decide_eq_false, IH, NoDup_cons, Forall_cons, !Forall_forall. set_solver.
Qed.

Lemma route_exact e : is_nonempty_string e = true ↔ route e.
Proof.
  unfold is_nonempty_string, route. destruct (ex_kind e) as [| |[]| | | | | | | |]; try naive_solver.
  rewrite negb_true_iff, bool_decide_eq_false. naive_solver.
Qed.

Lemma named_arguments arguments :
  existsb (λ x, match argument_name x with None => true | Some _ => false end) arguments = false ↔
  map argument_name arguments = map Some (omap argument_name arguments).
Proof.
  induction arguments as [|x l IH]; cbn; [done|]. destruct (argument_name x); cbn; [|split; [done|]; by destruct (omap argument_name l)]. rewrite IH.
  split; [by intros ->|by intros [=]].
Qed.

Lemma provider_call_exact e b : provider_call_status (ex_kind e) = ValidCall b ↔ provider_call e b.
Proof.
  unfold provider_call. destruct (ex_kind e) as [| | | | |callee arguments| | | | |];
    try (split; [done|by intros (? & ? & ? & [=] & _)]). cbn.
  set (named := match ex_kind callee with ELiteral (LitIdentifier _) | EPath _ => true | _ => false end).
  assert (named = true ↔ (∃ name, ex_kind callee = ELiteral (LitIdentifier name)) ∨ ∃ path, ex_kind callee = EPath path) as Hnamed.
  { subst named. destruct (ex_kind callee) as [| |[]| | | | | | | |]; naive_solver. }
  assert (∀ names, map argument_name arguments = map Some names → names = omap argument_name arguments) as Hnames.
  { clear. induction arguments as [|x l IH]; intros [|n names]; cbn; try done. intros [= -> H]. cbn. f_equal. auto. }
  assert (∀ names : list string, map argument_name arguments = map Some names →
    (List.find (λ x, bool_decide (argument_name x = Some "model")) arguments = None ↔ "model" ∉ names)) as Hmodel.
  { intros names Hn. assert ("model" ∈ names ↔ Some "model" ∈ map argument_name arguments) as Hin.
    { rewrite Hn, list_elem_of_fmap. naive_solver. }
    rewrite Hin, list_elem_of_fmap. split.
    - intros Hf (x & Hx & Hin'). apply list_elem_of_In, (find_none _ _ Hf) in Hin'. by apply bool_decide_eq_false in Hin'.
    - intros Hno. destruct (List.find _ arguments) as [x|] eqn:Ef; [|done]. apply find_some in Ef as [Hx Hx'].
      apply bool_decide_eq_true in Hx'. destruct Hno. exists x. by rewrite list_elem_of_In. }
  destruct named; cbn; [|split; [done|naive_solver]].
  destruct (existsb _ arguments) eqn:Ee.
  { split; [done|]. intros (c & args & names & [= <- <-] & _ & Hn & _).
    rewrite (Hnames _ Hn) in Hn. apply named_arguments in Hn. congruence. }
  apply named_arguments in Ee.
  destruct (repeated ∅ (omap argument_name arguments)) eqn:Er.
  { split; [done|]. intros (c & args & names & [= <- <-] & _ & Hn & Hnd & _).
    rewrite (Hnames _ Hn) in Hnd. assert (repeated ∅ (omap argument_name arguments) = false); [|congruence].
    apply repeated_exact. split; [done|]. apply Forall_true. set_solver. }
  apply repeated_exact in Er as [Hnd _].
  destruct (List.find _ arguments) as [x|] eqn:Ef.
  - pose proof Ef as [Hx Hxm]%find_some. apply bool_decide_eq_true in Hxm. apply list_elem_of_In in Hx.
    assert (∀ y, y ∈ arguments → argument_name y = Some "model" → y = x) as Huniq.
    { intros y Hy Hym. eapply (NoDup_map_eq argument_name); [|exact Hy|exact Hx|congruence].
      rewrite Ee. by apply NoDup_fmap_2; [apply _|]. }
    destruct (is_nonempty_string (argument_value x)) eqn:Es.
    + apply route_exact in Es. split.
      * intros [= <-]. exists callee, arguments, (omap argument_name arguments). naive_solver.
      * intros (c & args & names & [= <- <-] & _ & Hn & _ & Hb). destruct b; [done|].
        apply (Hmodel _ Hn) in Hb. congruence.
    + split; [done|]. intros (c & args & names & [= <- <-] & _ & Hn & _ & Hb). destruct b.
      * destruct Hb as (y & Hy & Hym & Hr%route_exact). rewrite (Huniq y Hy Hym) in Hr. congruence.
      * apply (Hmodel _ Hn) in Hb. congruence.
  - split.
    + intros [= <-]. exists callee, arguments, (omap argument_name arguments). split; [done|].
      split; [by apply Hnamed|]. split; [done|]. split; [done|]. by apply (Hmodel _ Ee).
    + intros (c & args & names & [= <- <-] & _ & Hn & _ & Hb). destruct b; [|done].
      destruct Hb as (y & Hy & Hym & _). apply list_elem_of_In, (find_none _ _ Ef) in Hy.
      by apply bool_decide_eq_false in Hy.
Qed.

Lemma referred_exact e agents file f :
  prop_value f = e → (validate_agent_reference file f agents = [] ↔ ∃ name, referred_agent e name ∧ name ∈ agents).
Proof.
  intros <-. unfold validate_agent_reference, referred_agent.
  destruct (ex_kind (prop_value f)) as [| |[]|path| | | | | | |];
    try (split; [done|by intros (? & [[=]|[? [=]]] & _)]).
  - case_bool_decide; naive_solver.
  - destruct (last path) as [name|] eqn:El.
    + apply last_Some in El as [path' ->]. case_bool_decide as Hin; (split; [|try done]); [eauto 6|done|].
      intros (n & [[=]|[path'' [= Hp]]] & Hn). apply app_inj_tail in Hp as [_ ->]. done.
    + apply last_None in El as ->. split; [done|]. intros (n & [[=]|[path' [= Hp]]] & _). by destruct path'.
Qed.

Lemma agent_names_elem ast name : name ∈ agent_names ast ↔ ∃ a, ItemAgent a ∈ ast_items ast ∧ ag_name a = name.
Proof.
  unfold agent_names. rewrite elem_of_list_to_set, list_elem_of_omap. split.
  - intros ([] & Hin & [= <-]). eauto.
  - intros (a & Hin & <-). by exists (ItemAgent a).
Qed.

Lemma required_property_exact file kind declaration span fields name :
  (required_property file kind declaration span fields name).1 = find_property fields name ∧
  ((required_property file kind declaration span fields name).2 = [] ↔ ∃ e, property_is fields name e).
Proof.
  unfold required_property. destruct (find_property fields name) as [f|] eqn:E; (split; [done|]); cbn.
  - split; [|done]. intros _. apply find_property_some in E as [Hf Hn]. exists (prop_value f), f. auto.
  - split; [done|]. intros [e He]. by apply (proj1 (find_property_none _ _) E) in He.
Qed.

Lemma top_level_model_exact file n :
  NoDup (map prop_name (ag_fields n)) →
  (validate_top_level_model file n = [] ↔ ∃ m, property_is (ag_fields n) "model" m ∧ route m).
Proof.
  intros Hnd. unfold validate_top_level_model.
  pose proof (required_property_exact file "agent" (ag_name n) (ag_span n) (ag_fields n) "model") as [H1 H2].
  destruct (required_property _ _ _ _ _ _) as [model ds]. cbn in H1, H2. subst model. rewrite app_nil, H2.
  pose proof (λ e, find_property_is _ "model" e Hnd) as Hf.
  destruct (find_property (ag_fields n) "model") as [f|]; cbn in Hf.
  - split.
    + intros [_ H]. exists (prop_value f). split; [by apply Hf|]. apply route_exact.
      by destruct (is_nonempty_string (prop_value f)).
    + intros (m & Hm & Hr%route_exact). split; [eauto|]. apply Hf in Hm as [= ->]. by rewrite Hr.
  - split; [|naive_solver]. intros [[e He%Hf] _]. discriminate He.
Qed.

Lemma provider_exact file n f :
  NoDup (map prop_name (ag_fields n)) →
  (validate_provider file n f = [] ↔
   provider_call (prop_value f) true ∨
   (route (prop_value f) ∨ provider_call (prop_value f) false) ∧ ∃ m, property_is (ag_fields n) "model" m ∧ route m).
Proof.
  intros Hnd. unfold validate_provider. pose proof (top_level_model_exact file n Hnd) as Hm.
  pose proof (provider_call_exact (prop_value f) true) as H1. pose proof (provider_call_exact (prop_value f) false) as H2.
  pose proof (route_exact (prop_value f)) as Hr.
  destruct (is_nonempty_string (prop_value f)) eqn:Es.
  - rewrite Hm. split; [naive_solver|]. intros [Hc|[_ Hc]]; [|done]. exfalso. apply H1 in Hc.
    destruct (proj1 Hr eq_refl) as (s & Hs & _). by rewrite Hs in Hc.
  - assert (¬ route (prop_value f)) as Hnr by (intros Hx%Hr; done).
    destruct (provider_call_status (ex_kind (prop_value f))) as [| |[]]; try rewrite Hm; naive_solver.
Qed.

Lemma fallback_entry_exact x : is_fallback_entry x = true ↔ route x ∨ provider_call x true.
Proof.
  unfold is_fallback_entry. rewrite orb_true_iff, route_exact, <-provider_call_exact.
  destruct (provider_call_status (ex_kind x)) as [| |[]]; naive_solver.
Qed.

Lemma fallback_exact file n :
  NoDup (map prop_name (ag_fields n)) →
  (validate_fallback file n = [] ↔ ∀ e, property_is (ag_fields n) "fallback" e →
     ∃ entries, ex_kind e = EArray entries ∧ Forall (λ x, route x ∨ provider_call x true) entries).
Proof.
  intros Hnd. unfold validate_fallback. pose proof (λ e, find_property_is _ "fallback" e Hnd) as Hf.
  destruct (find_property (ag_fields n) "fallback") as [f|]; cbn in Hf.
  2: { split; [|done]. intros _ e He%Hf. discriminate He. }
  assert (∀ entries, flat_map (λ entry, if is_fallback_entry entry then [] else
      [validation_error file "SYL1202"
         "fallback entry must be a non-empty route string or a provider call with a named string 'model' argument"
         (ex_span entry)]) entries = [] ↔ Forall (λ x, route x ∨ provider_call x true) entries) as Hall.
  { induction entries as [|x l IH]; cbn; [split; [constructor|done]|]. rewrite app_nil, Forall_cons, IH, <-fallback_entry_exact.
    destruct (is_fallback_entry x); naive_solver. }
  split.
  - intros H e He%Hf. injection He as <-. destruct (ex_kind (prop_value f)); try done. eexists. split; [done|by apply Hall].
  - intros H. destruct (H (prop_value f)) as (entries & -> & He); [by apply Hf|]. by apply Hall.
Qed.

Lemma configured_exact file ast item :
  validate_item file (agent_names ast) item = [] ↔ configured ast item.
Proof.
  destruct item as [n|n|n|n|n|n|n]; try done; cbn [validate_item configured].
  - unfold validate_agent.
    pose proof (required_property_exact file "agent" (ag_name n) (ag_span n) (ag_fields n) "provider") as [P1 P2].
    pose proof (required_property_exact file "agent" (ag_name n) (ag_span n) (ag_fields n) "context_window") as [_ C2].
    destruct (required_property _ _ _ _ _ "provider") as [provider ds]. cbn in P1, P2. subst provider.
    rewrite !app_nil, duplicate_properties_exact, P2, C2.
    assert (∀ A B C D E : Prop, (A → (B ∧ D ↔ E)) → (A ∧ B ∧ C ∧ D ↔ A ∧ C ∧ E)) as Hprop by tauto.
    apply Hprop. intros Hnd. rewrite fallback_exact by done. pose proof (λ e, find_property_is _ "provider" e Hnd) as Hf.
    destruct (find_property (ag_fields n) "provider") as [f|]; cbn in Hf.
    + rewrite provider_exact by done. split.
      * intros (_ & Hp & Hfb). split; [|done]. exists (prop_value f). split; [by apply Hf|done].
      * intros [(e & He & Hp) Hfb]. split; [eauto|]. split; [|done]. apply Hf in He as [= <-]. done.
    + split; [|naive_solver]. intros [[e He%Hf] _]. discriminate He.
  - pose proof (required_property_exact file "pipeline" (pn_name n) (pn_span n) (pn_fields n) "agent") as [P1 P2].
    destruct (required_property _ _ _ _ _ _) as [reference ds]. cbn in P1, P2. subst reference.
    rewrite !app_nil, duplicate_properties_exact, P2.
    assert (∀ A B C D : Prop, (A → (B ∧ C ↔ D)) → (A ∧ B ∧ C ↔ A ∧ D)) as Hprop by tauto.
    apply Hprop. intros Hnd. pose proof (λ e, find_property_is _ "agent" e Hnd) as Hf.
    destruct (find_property (pn_fields n) "agent") as [f|]; cbn in Hf.
    + rewrite (referred_exact _ _ _ _ eq_refl). setoid_rewrite agent_names_elem. split.
      * intros (_ & name & Hr & Ha). exists (prop_value f), name. split; [by apply Hf|done].
      * intros (e & name & He & Hr & Ha). split; [eauto|]. apply Hf in He as [= <-]. eauto.
    + split; [|naive_solver]. intros [[e He%Hf] _]. discriminate He.
  - rewrite app_nil, duplicate_properties_exact.
    pose proof (find_property_none (sb_fields n) "require") as Hr. pose proof (find_property_none (sb_fields n) "policy") as Hp.
    assert (∀ name f, find_property (sb_fields n) name = Some f → ∃ e, property_is (sb_fields n) name e) as Hsome.
    { intros name f [Hf Hn]%find_property_some. exists (prop_value f), f. auto. }
    destruct (find_property (sb_fields n) "require") eqn:E1, (find_property (sb_fields n) "policy") eqn:E2; naive_solver.
Qed.

Lemma validate_silent file ast : validate file ast = [] ↔ Forall (configured ast) (ast_items ast).
Proof.
  unfold validate. assert (Hl : ∀ l, flat_map (validate_item file (agent_names ast)) l = [] ↔ Forall (configured ast) l).
  { intros l. induction l as [|item l IH]; cbn; [split; [constructor|done]|].
    by rewrite app_nil, Forall_cons, IH, configured_exact. }
  apply Hl.
Qed.

(** C14: a file has no validation diagnostics exactly when it is configured: no
    declaration repeats a property; every agent has a [context_window] and a
    [provider] that is a route or a call of named, distinct arguments, a non-empty
    model inside the call or beside it, and fallbacks that name providers with
    models; every pipeline names a declared agent; every safety bound has a
    requirement or a policy. *)
Theorem validate_exact file ast : validate file ast = [] ↔ Forall (configured ast) (ast_items ast).
Proof. apply validate_silent. Qed.
