(* ===== verification/Parser.v ===== *)
(** * Construction of the syntax tree (crates/syllog-parser/src/lib.rs)

    Every function of lib.rs that turns pairs into nodes.  Pest's generated parser,
    its [PrattParser] and [serde_json] are the operations of the class [Syntax].
    An [anyhow] error is its chain of messages; the panic of a Pratt parser on a
    sequence that is no expression is a value.  [parse_type] and
    [parse_expression] descend into inner pairs with the depth of the tree as a
    budget. *)

From Stdlib Require Import Ascii.
From stdpp Require Import base strings numbers list.
From S2P Require Import Prelude Text Hir Diagnostics Ast Pest Validate.
Open Scope string_scope.
Open Scope list_scope.
Open Scope nat_scope.

(** ** Libraries *)

Inductive Assoc := AssocLeft | AssocRight.
Inductive Op := OpPrefix (r : Rule) | OpInfix (r : Rule) (a : Assoc).

(** [pest::error]: the parts of an error [check_syl] reads. *)
Inductive InputLocation := LocationPos (position : N) | LocationSpan (first last : N).
Inductive LineColLocation := LineColPos (line column : N) | LineColSpan (line column end_line end_column : N).
Record PestError := {
  pest_location : InputLocation; pest_line_col : LineColLocation; pest_message : string; pest_display : string
}.

Class Syntax := {
  (** [SylParser::parse(Rule::program, ..)] *)
  syl_parser : string → result (list Pair) PestError;
  (** [PrattParser] with its operators, loosest first; [None] is a panic *)
  pratt_parse : ∀ A, list (list Op) → (Pair → A) → (Pair → A → A) → (A → Pair → A → A) → list Pair → option A;
  (** [serde_json::from_str::<String>] *)
  json_string : string → result string string
}.
Arguments pratt_parse {_ A}.

(** ** Errors *)

Inductive ParseError :=
| Failed (chain : list string)
| Panicked
| OutOfBudget.

Abbreviation parsed A := (result A ParseError).

Definition result_bind {A B E} (r : result A E) (k : A → result B E) : result B E :=
  match r with Ok a => k a | Err e => Err e end.

Notation "'let?' x ':=' e 'in' k" := (result_bind e (λ x, k)) (at level 10, x name, e at level 100, k at level 200).

(** [bail!] and [context] on an option. *)
Definition bail {A} (message : string) : parsed A := Err (Failed [message]).
Definition context {A} (message : string) (o : option A) : parsed A :=
  match o with Some x => Ok x | None => bail message end.

(** [map(g).collect::<Result<Vec<_>>>()] *)
Fixpoint collect {A B E} (g : A → result B E) (l : list A) : result (list B) E :=
  match l with
  | [] => Ok []
  | x :: l => let? y := g x in let? ys := collect g l in Ok (y :: ys)
  end.

(** [o.map(g).transpose()] *)
Definition transpose {A B E} (g : A → result B E) (o : option A) : result (option B) E :=
  match o with
  | Some x => let? y := g x in Ok (Some y)
  | None => Ok None
  end.

(** ** Helpers *)

Definition span_join (x y : Span) : Span :=
  {| span_start := span_start x; span_end := span_end y; span_line := span_line x; span_column := span_column x;
     span_end_line := span_end_line y; span_end_column := span_end_column y |}.

Definition is_keyword (r : Rule) : bool :=
  match r with
  | R_kw_struct | R_kw_enum | R_kw_fn | R_kw_state | R_kw_agent | R_kw_pipeline | R_kw_safety_bound | R_kw_let
  | R_kw_return | R_kw_match | R_kw_if | R_kw_module | R_kw_use | R_kw_as => true
  | _ => false
  end.

Definition meaningful_inner (p : Pair) : list Pair := List.filter (λ q, negb (is_keyword (as_rule q))) (into_inner p).

Definition pop_front (parts : list Pair) (what : string) : parsed (Pair * list Pair) :=
  match parts with
  | p :: parts => Ok (p, parts)
  | [] => bail (what +:+ " is missing")
  end.

Definition take_identifier (parts : list Pair) (what : string) : parsed (string * list Pair) :=
  let? r := pop_front parts what in
  let '(p, parts) := r in
  if bool_decide (as_rule p = R_identifier) then Ok (as_str p, parts)
  else bail (what +:+ ": expected identifier, found " +:+ rule_name (as_rule p)).

Definition take_marker (parts : list Pair) (r : Rule) : bool * list Pair :=
  if front_is r parts then (true, tail parts) else (false, parts).

(** An optional part under a rule of its own. *)
Definition take_optional {A} (r : Rule) (parse : Pair → parsed A) (parts : list Pair) : parsed (option A * list Pair) :=
  match parts with
  | p :: rest => if bool_decide (as_rule p = r) then let? x := parse p in Ok (Some x, rest) else Ok (None, parts)
  | [] => Ok (None, [])
  end.

Definition binary_operator (r : Rule) : parsed BinaryOperator :=
  match r with
  | R_op_add => Ok OpAdd
  | R_op_subtract => Ok OpSubtract
  | R_op_multiply => Ok OpMultiply
  | R_op_divide => Ok OpDivide
  | R_op_remainder => Ok OpRemainder
  | R_op_equal => Ok OpEqual
  | R_op_not_equal => Ok OpNotEqual
  | R_op_less => Ok OpLess
  | R_op_less_equal => Ok OpLessEqual
  | R_op_greater => Ok OpGreater
  | R_op_greater_equal => Ok OpGreaterEqual
  | R_op_and => Ok OpAnd
  | R_op_or => Ok OpOr
  | r => bail ("unexpected binary operator: " +:+ rule_name r)
  end.

Definition parse_path (p : Pair) : parsed (list string) :=
  if bool_decide (as_rule p = R_path) then Ok (map as_str (into_inner p))
  else bail ("expected path, found " +:+ rule_name (as_rule p)).

(** *** [str::parse::<i64>] *)

Definition digit_value (c : Ascii.ascii) : Z := (Z.of_nat (Ascii.nat_of_ascii c) - 48)%Z.

Fixpoint digits_value (acc : Z) (l : list Ascii.ascii) : Z :=
  match l with [] => acc | c :: l => digits_value (10 * acc + digit_value c) l end.

Definition parse_i64 (s : string) : result Z string :=
  let '(negative, digits) :=
    match String.list_ascii_of_string s with
    | c :: l => if bool_decide (c = "-"%char) then (true, l)
                else if bool_decide (c = "+"%char) then (false, l) else (false, c :: l)
    | [] => (false, [])
    end in
  if bool_decide (s = "") then Err "cannot parse integer from empty string"
  else if bool_decide (digits = []) || negb (forallb is_digit digits) then Err "invalid digit found in string"
  else
    let value := digits_value 0 digits in
    if negative then if bool_decide (i64_min ≤ - value)%Z then Ok (- value)%Z
                     else Err "number too small to fit in target type"
    else if bool_decide (value ≤ i64_max)%Z then Ok value else Err "number too large to fit in target type".

Fixpoint trim_quotes (s : string) : string :=
  match s with
  | String c rest => if bool_decide (c = "'"%char) then trim_quotes rest else s
  | EmptyString => s
  end.

(** ** Types *)

Fixpoint parse_type_within (budget : nat) (p : Pair) : parsed TypeNode :=
  match budget with
  | O => Err OutOfBudget
  | S budget =>
      let? p := (if bool_decide (as_rule p = R_type_expr) then context "type expression is empty" (head (into_inner p))
                 else Ok p) in
      let? kind :=
        match as_rule p with
        | R_reference_type =>
            let parts := meaningful_inner p in
            let? r := take_optional R_lifetime (λ q, Ok (trim_quotes (as_str q))) parts in
            let '(lifetime, parts) := r in
            let '(mutable, parts) := take_marker parts R_kw_mut in
            let? r := pop_front parts "referenced type" in
            let? inner := parse_type_within budget r.1 in
            Ok (TkReference lifetime mutable inner)
        | R_array_type =>
            let? q := context "array type is empty" (head (into_inner p)) in
            let? inner := parse_type_within budget q in Ok (TkArray inner)
        | R_tuple_type => let? items := collect (parse_type_within budget) (into_inner p) in Ok (TkTuple items)
        | R_path_type =>
            let? q := context "type path is empty" (head (into_inner p)) in
            let? segments := parse_path q in
            let? arguments := transpose (λ generics, collect (parse_type_within budget) (into_inner generics))
                                (head (tail (into_inner p))) in
            Ok (TkPath segments (default [] arguments))
        | r => bail ("unexpected type rule: " +:+ rule_name r)
        end in
      Ok (mkType kind (pair_span p))
  end.

Definition parse_type (p : Pair) : parsed TypeNode := parse_type_within (pair_depth p) p.

Section syntax.
Context `{Syntax}.

(** ** Literals and patterns *)

Definition parse_literal (p : Pair) : parsed Literal :=
  match as_rule p with
  | R_string => match json_string (as_str p) with
                | Ok s => Ok (LitString s)
                | Err e => Err (Failed ["invalid string literal"; e])
                end
  | R_integer => match parse_i64 (as_str p) with
                 | Ok z => Ok (LitInteger z)
                 | Err e => Err (Failed ["integer literal is outside the signed 64-bit range"; e])
                 end
  | R_float => Ok (LitFloat (as_str p))
  | R_boolean => Ok (LitBoolean (bool_decide (as_str p = "true")))
  | r => bail ("unexpected literal rule: " +:+ rule_name r)
  end.

Fixpoint parse_pattern (p : Pair) : parsed Pattern :=
  match p with
  | mkPair _ _ span [] => bail "pattern is empty"
  | mkPair _ _ span (mkPair rule _ _ parts :: _) =>
      let? kind :=
        match rule with
        | R_wildcard_pattern => Ok PkWildcard
        | R_path_pattern =>
            let? q := context "path pattern is empty" (head parts) in
            let? path := parse_path q in Ok (PkPath path)
        | R_constructor_pattern =>
            match parts with
            | [] => bail "constructor path is empty"
            | q :: fields =>
                let? path := parse_path q in
                let? fields := collect parse_pattern fields in Ok (PkConstructor path fields)
            end
        | R_literal_pattern =>
            let? q := context "literal pattern is empty" (head parts) in
            let? l := parse_literal q in Ok (PkLiteral l)
        | r => bail ("unexpected pattern rule: " +:+ rule_name r)
        end in
      Ok (mkPattern kind span)
  end.

(** ** Expressions, statements and blocks *)

Section expressions.
Context (parse_expression : Pair → parsed Expr).

Definition parse_statement (p : Pair) : parsed Statement :=
  let? kind :=
    match as_rule p with
    | R_let_statement =>
        let? r := take_identifier (meaningful_inner p) "let binding" in
        let '(name, parts) := r in
        let? r := take_optional R_type_expr parse_type parts in
        let '(ty, parts) := r in
        let? r := pop_front parts "let initializer" in
        let? value := parse_expression r.1 in Ok (SLet name ty value)
    | R_return_statement => let? value := transpose parse_expression (head (meaningful_inner p)) in Ok (SReturn value)
    | R_expression_statement =>
        let? q := context "expression statement is empty" (head (into_inner p)) in
        let? e := parse_expression q in Ok (SExpression e)
    | r => bail ("unexpected statement rule: " +:+ rule_name r)
    end in
  Ok (mkStatement kind (pair_span p)).

Definition parse_block (p : Pair) : parsed Block :=
  let? statements := collect parse_statement (into_inner p) in Ok (mkBody statements (pair_span p)).

Definition parse_call_argument (p : Pair) : parsed CallArgument :=
  let? inner := context "call argument is empty" (head (into_inner p)) in
  if bool_decide (as_rule inner = R_named_argument) then
    let? name := context "named argument has no name" (head (into_inner inner)) in
    let? q := context "named argument has no value" (head (tail (into_inner inner))) in
    let? value := parse_expression q in Ok (mkArgument (Some (as_str name)) value (pair_span p))
  else
    let? value := parse_expression inner in Ok (mkArgument None value (pair_span p)).

Definition parse_guard (p : Pair) : parsed Expr :=
  let? q := context "match guard is empty" (head (meaningful_inner p)) in parse_expression q.

Definition parse_match_arm (p : Pair) : parsed MatchArm :=
  let? r := pop_front (meaningful_inner p) "match pattern" in
  let? pattern := parse_pattern r.1 in
  let? r := take_optional R_match_guard parse_guard r.2 in
  let '(guard, parts) := r in
  let? r := pop_front parts "match arm body" in
  let? body := parse_expression r.1 in
  Ok (mkMatchArm pattern guard body (pair_span p)).

Definition parse_match (p : Pair) : parsed Expr :=
  let? q := context "match value is missing" (head (meaningful_inner p)) in
  let? value := parse_expression q in
  let? arms := collect parse_match_arm (tail (meaningful_inner p)) in
  Ok (Ex (EMatch value arms) (pair_span p)).

Definition parse_primary (p : Pair) : parsed Expr :=
  let finish kind := Ok (Ex kind (pair_span p)) in
  match as_rule p with
  | R_borrow_expression =>
      let '(mutable, parts) := take_marker (meaningful_inner p) R_kw_mut in
      let? r := pop_front parts "borrow operand" in
      let? operand := parse_expression r.1 in finish (EBorrow mutable operand)
  | R_await_expression =>
      let? q := context "await operand is missing" (List.find (λ q, bool_decide (as_rule q = R_expression)) (into_inner p)) in
      let? operand := parse_expression q in finish (EAwait operand)
  | R_string | R_boolean | R_float | R_integer => let? l := parse_literal p in finish (ELiteral l)
  | R_path_expression =>
      let? q := context "path expression is empty" (head (into_inner p)) in
      let? segments := parse_path q in
      finish (match segments with [name] => ELiteral (LitIdentifier name) | _ => EPath segments end)
  | R_array_expression => let? items := collect parse_expression (into_inner p) in finish (EArray items)
  | R_parenthesized =>
      let? q := context "parenthesized expression is empty" (head (into_inner p)) in parse_expression q
  | R_match_expression => parse_match p
  | R_block => let? b := parse_block p in finish (EBlock b)
  | r => bail ("unexpected primary rule: " +:+ rule_name r)
  end.

Definition parse_suffix (e : Expr) (suffix : Pair) : parsed Expr :=
  let span := span_join (ex_span e) (pair_span suffix) in
  match as_rule suffix with
  | R_call_suffix =>
      let? arguments := collect parse_call_argument (into_inner suffix) in Ok (Ex (ECall e arguments) span)
  | R_field_suffix =>
      let? name := context "field suffix has no name" (head (into_inner suffix)) in Ok (Ex (EField e (as_str name)) span)
  | r => bail ("unexpected postfix suffix: " +:+ rule_name r)
  end.

Definition parse_suffixes : Expr → list Pair → parsed Expr :=
  fix go e suffixes :=
    match suffixes with
    | [] => Ok e
    | suffix :: suffixes => let? e := parse_suffix e suffix in go e suffixes
    end.

Definition parse_postfix (p : Pair) : parsed Expr :=
  let? primary := context "postfix expression is empty" (head (meaningful_inner p)) in
  let? e := parse_primary primary in
  parse_suffixes e (tail (meaningful_inner p)).
End expressions.

(** [map_prefix] and [map_infix] *)
Definition build_prefix (operator : Pair) (operand : parsed Expr) : parsed Expr :=
  let? operand := operand in
  let? inner := context "prefix operator is empty" (head (into_inner operator)) in
  let? o := match as_rule inner with
            | R_op_not => Ok Not
            | R_op_negate => Ok Negate
            | r => bail ("unexpected prefix operator: " +:+ rule_name r)
            end in
  Ok (Ex (EUnary o operand) (span_join (pair_span operator) (ex_span operand))).

Definition build_infix (left_operand : parsed Expr) (operator : Pair) (right_operand : parsed Expr) : parsed Expr :=
  let? x := left_operand in
  let? y := right_operand in
  let? o := binary_operator (as_rule operator) in
  Ok (Ex (EBinary o x y) (span_join (ex_span x) (ex_span y))).

Definition operators : list (list Op) :=
  let infix r := OpInfix r AssocLeft in
  [[infix R_op_or]; [infix R_op_and]; [infix R_op_equal; infix R_op_not_equal];
   [infix R_op_less; infix R_op_less_equal; infix R_op_greater; infix R_op_greater_equal];
   [infix R_op_add; infix R_op_subtract]; [infix R_op_multiply; infix R_op_divide; infix R_op_remainder];
   [OpPrefix R_prefix_operator]].

Fixpoint parse_expression_within (budget : nat) (p : Pair) : parsed Expr :=
  match budget with
  | O => Err OutOfBudget
  | S budget =>
      if bool_decide (as_rule p = R_expression) then
        match pratt_parse operators (parse_postfix (parse_expression_within budget)) build_prefix build_infix (into_inner p) with
        | Some r => r
        | None => Err Panicked
        end
      else bail ("expected expression, found " +:+ rule_name (as_rule p))
  end.

Definition parse_expression (p : Pair) : parsed Expr := parse_expression_within (pair_depth p) p.

(** ** Declarations *)

Definition parse_parameter (p : Pair) : parsed ParameterNode :=
  let? r := take_identifier (meaningful_inner p) "parameter" in
  let '(name, parts) := r in
  let? r := pop_front parts "parameter type" in
  let? ty := parse_type r.1 in Ok {| pa_name := name; pa_ty := ty; pa_span := pair_span p |}.

Definition parse_parameters (p : Pair) : parsed (list ParameterNode) := collect parse_parameter (into_inner p).

Definition parse_return_type (p : Pair) : parsed TypeNode :=
  let? q := context "return type is missing" (head (into_inner p)) in parse_type q.

Definition parse_struct_field (p : Pair) : parsed StructField :=
  let '(public, parts) := take_marker (meaningful_inner p) R_visibility in
  let? r := take_identifier parts "struct field" in
  let '(name, parts) := r in
  let? r := pop_front parts "struct field type" in
  let? ty := parse_type r.1 in
  Ok {| sf_public := public; sf_name := name; sf_ty := ty; sf_span := pair_span p |}.

Definition parse_struct (p : Pair) : parsed StructNode :=
  let '(public, parts) := take_marker (meaningful_inner p) R_visibility in
  let? r := take_identifier parts "struct name" in
  let '(name, parts) := r in
  let? fields := collect parse_struct_field parts in
  Ok {| sn_public := public; sn_name := name; sn_fields := fields; sn_span := pair_span p |}.

Definition parse_enum_variant (p : Pair) : parsed EnumVariant :=
  let? r := take_identifier (meaningful_inner p) "enum variant" in
  let '(name, parts) := r in
  let? fields := collect parse_type parts in
  Ok {| ev_name := name; ev_fields := fields; ev_span := pair_span p |}.

Definition parse_enum (p : Pair) : parsed EnumNode :=
  let '(public, parts) := take_marker (meaningful_inner p) R_visibility in
  let? r := take_identifier parts "enum name" in
  let '(name, parts) := r in
  let? variants := collect parse_enum_variant parts in
  Ok {| en_public := public; en_name := name; en_variants := variants; en_span := pair_span p |}.

Definition parse_attribute (p : Pair) : parsed AttributeNode :=
  let? r := take_identifier (meaningful_inner p) "attribute name" in
  Ok {| at_name := r.1; at_span := pair_span p |}.

(** The loop over the attributes in front. *)
Fixpoint parse_attributes (parts : list Pair) : parsed (list AttributeNode * list Pair) :=
  match parts with
  | p :: rest =>
      if bool_decide (as_rule p = R_attribute) then
        let? x := parse_attribute p in
        let? r := parse_attributes rest in Ok (x :: r.1, r.2)
      else Ok ([], parts)
  | [] => Ok ([], [])
  end.

Definition parse_effect (p : Pair) : parsed EffectNode :=
  let? q := context "effect name is empty" (head (into_inner p)) in
  Ok {| ef_name := as_str q; ef_span := pair_span p |}.

Definition parse_effect_set (p : Pair) : parsed (list EffectNode) := collect parse_effect (into_inner p).

Definition parse_function (p : Pair) : parsed FunctionNode :=
  let? r := parse_attributes (meaningful_inner p) in
  let '(attributes, parts) := r in
  let '(public, parts) := take_marker parts R_visibility in
  let '(asynchronous, parts) := take_marker parts R_async_marker in
  let? r := take_identifier parts "function name" in
  let '(name, parts) := r in
  let? r := pop_front parts "function parameters" in
  let '(q, parts) := r in
  let? parameters := parse_parameters q in
  let? r := take_optional R_return_type parse_return_type parts in
  let '(return_type, parts) := r in
  let? r := take_optional R_effect_set parse_effect_set parts in
  let '(effects, parts) := r in
  let? r := pop_front parts "function body" in
  let? body := parse_block parse_expression r.1 in
  Ok {| fnn_attributes := attributes; fnn_public := public; fnn_asynchronous := asynchronous; fnn_name := name;
        fnn_parameters := parameters; fnn_return_type := return_type; fnn_effects := effects; fnn_body := body;
        fnn_span := pair_span p |}.

Definition parse_state_field (p : Pair) : parsed StateField :=
  let? r := take_identifier (meaningful_inner p) "state field" in
  let '(name, parts) := r in
  let? r := pop_front parts "state field type" in
  let '(q, parts) := r in
  let? ty := parse_type q in
  let? initializer := transpose parse_expression (head parts) in
  Ok {| stf_name := name; stf_ty := ty; stf_initializer := initializer; stf_span := pair_span p |}.

Definition parse_state (p : Pair) : parsed StateNode :=
  let '(public, parts) := take_marker (meaningful_inner p) R_visibility in
  let? r := take_identifier parts "state name" in
  let '(name, parts) := r in
  let? fields := collect parse_state_field parts in
  Ok {| stn_public := public; stn_name := name; stn_fields := fields; stn_span := pair_span p |}.

Definition parse_property (p : Pair) : parsed PropertyNode :=
  let? r := take_identifier (meaningful_inner p) "property name" in
  let '(name, parts) := r in
  let? r := pop_front parts "property value" in
  let value_or_typed := r.1 in
  let? typed :=
    (if bool_decide (as_rule value_or_typed = R_typed_property) then
       let? q := context "typed property type is missing" (head (into_inner value_or_typed)) in
       let? ty := parse_type q in
       let? q := context "typed property value is missing" (head (tail (into_inner value_or_typed))) in
       let? value := parse_expression q in Ok (Some ty, value)
     else let? value := parse_expression value_or_typed in Ok (None, value)) in
  Ok {| prop_name := name; prop_ty := typed.1; prop_value := typed.2; prop_span := pair_span p |}.

Definition parse_property_block (p : Pair) : parsed (list PropertyNode) := collect parse_property (into_inner p).

Definition parse_agent (p : Pair) : parsed AgentNode :=
  let '(public, parts) := take_marker (meaningful_inner p) R_visibility in
  let? r := take_identifier parts "agent name" in
  let '(name, parts) := r in
  let? r := pop_front parts "agent body" in
  let? fields := parse_property_block r.1 in
  Ok {| ag_public := public; ag_name := name; ag_fields := fields; ag_span := pair_span p |}.

Definition parse_pipeline (p : Pair) : parsed PipelineNode :=
  let '(public, parts) := take_marker (meaningful_inner p) R_visibility in
  let? r := take_identifier parts "pipeline name" in
  let '(name, parts) := r in
  let? r := take_optional R_parameters parse_parameters parts in
  let '(parameters, parts) := r in
  let? r := take_optional R_return_type parse_return_type parts in
  let '(return_type, parts) := r in
  let? r := pop_front parts "pipeline body" in
  let? fields := parse_property_block r.1 in
  Ok {| pn_public := public; pn_name := name; pn_parameters := default [] parameters; pn_return_type := return_type;
        pn_fields := fields; pn_span := pair_span p |}.

Definition parse_safety_bound (p : Pair) : parsed SafetyBoundNode :=
  let '(public, parts) := take_marker (meaningful_inner p) R_visibility in
  let? r := take_identifier parts "safety_bound name" in
  let '(name, parts) := r in
  let? r := take_optional R_parameters parse_parameters parts in
  let '(parameters, parts) := r in
  let? r := pop_front parts "safety_bound body" in
  let? fields := parse_property_block r.1 in
  Ok {| sb_public := public; sb_name := name; sb_parameters := default [] parameters; sb_fields := fields;
        sb_span := pair_span p |}.

Definition parse_item (p : Pair) : parsed Item :=
  match as_rule p with
  | R_struct_decl => let? n := parse_struct p in Ok (ItemStruct n)
  | R_enum_decl => let? n := parse_enum p in Ok (ItemEnum n)
  | R_function_decl => let? n := parse_function p in Ok (ItemFunction n)
  | R_state_decl => let? n := parse_state p in Ok (ItemState n)
  | R_agent_decl => let? n := parse_agent p in Ok (ItemAgent n)
  | R_pipeline_decl => let? n := parse_pipeline p in Ok (ItemPipeline n)
  | R_safety_bound_decl => let? n := parse_safety_bound p in Ok (ItemSafetyBound n)
  | r => bail ("unexpected item rule: " +:+ rule_name r)
  end.

(** ** Programs *)

Definition parse_module (p : Pair) : parsed ModuleNode :=
  let? r := pop_front (meaningful_inner p) "module path" in
  let? path := parse_path r.1 in Ok {| mn_path := path; mn_span := pair_span p |}.

Definition parse_use (p : Pair) : parsed UseNode :=
  let? r := pop_front (meaningful_inner p) "import path" in
  let? path := parse_path r.1 in
  Ok {| un_path := path; un_alias := as_str <$> head r.2; un_span := pair_span p |}.

(** The loop of [lower_program]; the three variables are its state. *)
Fixpoint lower_pairs (module : option ModuleNode) (imports : list UseNode) (items : list Item) (l : list Pair)
    : parsed (option ModuleNode * list UseNode * list Item) :=
  match l with
  | [] => Ok (module, imports, items)
  | p :: l =>
      match as_rule p with
      | R_module_decl => let? m := parse_module p in lower_pairs (Some m) imports items l
      | R_use_decl => let? u := parse_use p in lower_pairs module (imports ++ [u]) items l
      | R_EOI => lower_pairs module imports items l
      | _ => let? i := parse_item p in lower_pairs module imports (items ++ [i]) l
      end
  end.

Definition lower_program (p : Pair) : parsed Ast :=
  let? r := lower_pairs None [] [] (into_inner p) in
  let '(module, imports, items) := r in
  Ok {| ast_module := module; ast_imports := imports; ast_items := items; ast_span := pair_span p |}.

Definition parse_syl (input : string) : parsed Ast :=
  match syl_parser input with
  | Err e => bail ("invalid Syllog source; expected struct, enum, fn, state, agent, pipeline, or safety_bound: " +:+
                   pest_display e)
  | Ok pairs => let? p := context "parser did not produce a program node" (head pairs) in lower_program p
  end.

Record CheckResult := { checked_ast : option Ast; checked_diagnostics : list Diagnostic }.

Definition pest_span (e : PestError) : Span :=
  let '(first, last) := match pest_location e with LocationPos p => (p, p) | LocationSpan a b => (a, b) end in
  let '(line, column, end_line, end_column) :=
    match pest_line_col e with LineColPos l c => (l, c, l, c) | LineColSpan l c el ec => (l, c, el, ec) end in
  {| span_start := first; span_end := last; span_line := line; span_column := column; span_end_line := end_line;
     span_end_column := end_column |}.

Definition syntax_error (code : string) (file message : string) (span : Span) : Diagnostic :=
  {| Diagnostics.code := code; severity := SeverityError; message := Text message; Diagnostics.file := file;
     diagnostic_span := span |}.

(** [None] is a panic. *)
Definition check_syl (file input : string) : option CheckResult :=
  match syl_parser input with
  | Err e => Some {| checked_ast := None; checked_diagnostics := [syntax_error "SYL0001" file (pest_message e) (pest_span e)] |}
  | Ok pairs =>
      match (let? p := context "parser did not produce a program node" (head pairs) in lower_program p) with
      | Ok ast => Some {| checked_ast := Some ast; checked_diagnostics := validate file ast |}
      | Err (Failed chain) =>
          Some {| checked_ast := None;
                  checked_diagnostics := [syntax_error "SYL0002" file
                    ("internal AST lowering failure: " +:+ join ": " chain) default_span] |}
      | Err _ => None
      end
  end.
End syntax.
