(* ===== verification/ParserPratt.v ===== *)
(** * Operator precedence (the operator table of crates/syllog-parser/src/lib.rs)

    What lib.rs relies on of the Pratt parser, and what it makes of a chain of
    operands and operators.  A tree is well bound when its operators respect the
    table; the law of the class says that a Pratt parser evaluates the tree whose
    yield it reads.  Every chain the grammar allows is the yield of the well bound
    tree that [attach] builds from left to right. *)

From stdpp Require Import base strings numbers list.
From S2P Require Import Prelude Text Hir Diagnostics Ast Pest Parser.
Open Scope list_scope.
Open Scope nat_scope.

Inductive OpTree :=
| Operand (p : Pair)
| Prefixed (op : Pair) (t : OpTree)
| Infixed (x : OpTree) (op : Pair) (y : OpTree).

Fixpoint yield (t : OpTree) : list Pair :=
  match t with
  | Operand p => [p]
  | Prefixed op t => op :: yield t
  | Infixed x op y => yield x ++ op :: yield y
  end.

Fixpoint evaluate {A} (primary : Pair → A) (prefix : Pair → A → A) (infix : A → Pair → A → A) (t : OpTree) : A :=
  match t with
  | Operand p => primary p
  | Prefixed op t => prefix op (evaluate primary prefix infix t)
  | Infixed x op y => infix (evaluate primary prefix infix x) op (evaluate primary prefix infix y)
  end.

(** Positions in the table, from the loosest operators. *)
Definition is_infix (r : Rule) (o : Op) : bool := match o with OpInfix s _ => bool_decide (r = s) | OpPrefix _ => false end.
Definition is_prefix (r : Rule) (o : Op) : bool := match o with OpPrefix s => bool_decide (r = s) | OpInfix _ _ => false end.

Fixpoint level_of (f : Op → bool) (table : list (list Op)) : option nat :=
  match table with
  | [] => None
  | group :: table => if existsb f group then Some 0 else S <$> level_of f table
  end.

Definition level (r : Rule) : option nat := level_of (is_infix r) operators.
Definition binding (p : Pair) : nat := default 0 (level (as_rule p)).

(** Every infix operator at the top of the tree binds tighter than [n], or as tight
    on the left of a left-associative operator. *)
Definition tighter (n : nat) (t : OpTree) : Prop := match t with Infixed _ op _ => n < binding op | _ => True end.

Definition single (t : OpTree) : Prop := match t with Infixed _ _ _ => False | _ => True end.

Fixpoint well_bound (t : OpTree) : Prop :=
  match t with
  | Operand p => level (as_rule p) = None ∧ level_of (is_prefix (as_rule p)) operators = None
  | Prefixed op t =>
      is_Some (level_of (is_prefix (as_rule op)) operators) ∧ level (as_rule op) = None ∧ well_bound t ∧
      single t
  | Infixed x op y =>
      is_Some (level (as_rule op)) ∧ well_bound x ∧ well_bound y ∧ tighter (binding op) y ∧
      match x with Infixed _ op' _ => binding op ≤ binding op' | _ => True end
  end.

(** What lib.rs relies on of the libraries. *)
Class SyntaxLaws `{Syntax} := {
  pratt_law A (primary : Pair → A) (prefix : Pair → A → A) (infix : A → Pair → A → A) t :
    well_bound t → pratt_parse operators primary prefix infix (yield t) = Some (evaluate primary prefix infix t);
  (** [SylParser::parse] answers with one tree of the grammar. *)
  grammar_law input pairs :
    syl_parser input = Ok pairs → ∃ p, pairs = [p] ∧ as_rule p = R_program ∧ conforms p = true
}.

(** ** Chains *)

(** A further operator and operand on the right of a tree. *)
Fixpoint attach (t : OpTree) (op : Pair) (u : OpTree) : OpTree :=
  match t with
  | Infixed x op' y => if binding op' <? binding op then Infixed x op' (attach y op u) else Infixed t op u
  | _ => Infixed t op u
  end.

Lemma attach_yield t op u : yield (attach t op u) = yield t ++ op :: yield u.
Proof.
  induction t as [p|o t IH|x IHx o y IHy]; cbn [attach yield app]; [done..|].
  destruct (binding o <? binding op); cbn [yield]; [by rewrite IHy, <-(assoc_L (++))|done].
Qed.

Lemma attach_tighter n t op u : tighter n t → n < binding op → tighter n (attach t op u).
Proof. destruct t as [p|o t|x o y]; cbn [attach tighter]; [done..|]. by destruct (binding o <? binding op). Qed.

Lemma attach_well_bound t op u :
  well_bound t → is_Some (level (as_rule op)) → well_bound u → single u → well_bound (attach t op u).
Proof.
  intros Ht Hop Hu Hs. assert (tighter (binding op) u) as Htu by (by destruct u).
  induction t as [p|o t IH|x IHx o y IHy]; cbn [attach]; [by repeat split; cbn in Ht; try tauto..|].
  destruct (Nat.ltb_spec (binding o) (binding op)) as [Hlt|Hge]; cbn [well_bound]; cbn [well_bound] in Ht; [|by repeat split; try tauto].
  destruct Ht as (Ho & Hx & Hy & Hty & Hl). repeat split; auto using attach_tighter.
Qed.

(** The operand [prefix* postfix]. *)
Fixpoint operand_tree (prefixes : list Pair) (p : Pair) : OpTree :=
  match prefixes with
  | [] => Operand p
  | op :: prefixes => Prefixed op (operand_tree prefixes p)
  end.

Lemma operand_tree_yield prefixes p : yield (operand_tree prefixes p) = prefixes ++ [p].
Proof. induction prefixes; cbn; by f_equal. Qed.

Lemma operand_tree_single prefixes p : single (operand_tree prefixes p).
Proof. by destruct prefixes. Qed.

Lemma operand_tree_well_bound prefixes p :
  Forall (λ q, as_rule q = R_prefix_operator) prefixes → as_rule p = R_postfix_expression →
  well_bound (operand_tree prefixes p).
Proof.
  intros Hq Hp. induction Hq as [|q prefixes Hq _ IH]; cbn; [by rewrite Hp|]. rewrite Hq.
  repeat split; [by eexists|done|]. by destruct prefixes.
Qed.

(** Left to right, the tree of a whole chain. *)
Definition chain_tree (first : list Pair * Pair) (rest : list (Pair * (list Pair * Pair))) : OpTree :=
  foldl (λ t x, attach t x.1 (operand_tree x.2.1 x.2.2)) (operand_tree first.1 first.2) rest.

Definition chain_yield (first : list Pair * Pair) (rest : list (Pair * (list Pair * Pair))) : list Pair :=
  (first.1 ++ [first.2]) ++ flat_map (λ x, x.1 :: x.2.1 ++ [x.2.2]) rest.

Definition operand_ok (x : list Pair * Pair) : Prop :=
  Forall (λ q, as_rule q = R_prefix_operator) x.1 ∧ as_rule x.2 = R_postfix_expression.

Lemma infix_rules_level r : r ∈ infix_rules → is_Some (level r).
Proof. intros Hr. repeat (apply elem_of_cons in Hr as [->|Hr]; [by eexists|]). by apply elem_of_nil in Hr. Qed.

Lemma chain_tree_correct first rest :
  operand_ok first → Forall (λ x, as_rule x.1 ∈ infix_rules ∧ operand_ok x.2) rest →
  well_bound (chain_tree first rest) ∧ yield (chain_tree first rest) = chain_yield first rest.
Proof.
  intros [H1 H2] Hr. unfold chain_tree, chain_yield. rewrite <-operand_tree_yield.
  pose proof (operand_tree_well_bound _ _ H1 H2) as Hw. revert Hw. generalize (operand_tree first.1 first.2).
  induction Hr as [|x rest (Hop%infix_rules_level & Hq & Hp) _ IH]; intros t Ht; cbn; [by rewrite app_nil_r|].
  edestruct (IH (attach t x.1 (operand_tree x.2.1 x.2.2))) as [Hw Hy].
  { apply attach_well_bound; auto using operand_tree_well_bound, operand_tree_single. }
  split; [done|]. by rewrite Hy, attach_yield, operand_tree_yield, <-(assoc_L (++)).
Qed.

Lemma matches_operand l : matches operand_shape l → ∃ x, l = x.1 ++ [x.2] ∧ operand_ok x.
Proof. intros (k & m & -> & Hk%matches_many_one & (p & -> & Hp)). by exists (k, p). Qed.

Lemma matches_chain l :
  matches (grammar R_expression) l →
  ∃ first rest, l = chain_yield first rest ∧ operand_ok first ∧ Forall (λ x, as_rule x.1 ∈ infix_rules ∧ operand_ok x.2) rest.
Proof.
  intros (k & m & -> & (first & -> & Hf)%matches_operand & (ls & -> & Hls)). exists first. unfold chain_yield.
  assert (∃ rest, concat ls = flat_map (λ x, x.1 :: x.2.1 ++ [x.2.2]) rest ∧
          Forall (λ x, as_rule x.1 ∈ infix_rules ∧ operand_ok x.2) rest) as (rest & -> & Hr); [|by exists rest].
  induction Hls as [|l ls (a & b & -> & (op & -> & Hop)%matches_one_of & (x & -> & Hx)%matches_operand) _ (rest & E & Hr)].
  - by exists [].
  - exists ((op, x) :: rest). cbn. rewrite E. split; [by rewrite <-!(assoc_L (++))|by constructor].
Qed.

(** An expression is the value of the tree of its chain. *)
Lemma pratt_chain `{SyntaxLaws} {A} (primary : Pair → A) prefix infix l :
  matches (grammar R_expression) l →
  ∃ t, well_bound t ∧ yield t = l ∧ pratt_parse operators primary prefix infix l = Some (evaluate primary prefix infix t).
Proof.
  intros (first & rest & -> & Hf & Hr)%matches_chain. destruct (chain_tree_correct first rest Hf Hr) as [Hw <-].
  eauto using pratt_law.
Qed.

(** ** The well bound tree of a chain is unique *)

Fixpoint chain_of (t : OpTree) : (list Pair * Pair) * list (Pair * (list Pair * Pair)) :=
  match t with
  | Operand p => (([], p), [])
  | Prefixed op t => let '(first, rest) := chain_of t in ((op :: first.1, first.2), rest)
  | Infixed x op y =>
      let '(first, rest) := chain_of x in
      let '(first', rest') := chain_of y in (first, rest ++ (op, first') :: rest')
  end.

Lemma chain_of_yield t : yield t = chain_yield (chain_of t).1 (chain_of t).2.
Proof.
  induction t as [p|op t IH|x IHx op y IHy]; cbn; [done| |].
  - rewrite IH. by destruct (chain_of t).
  - rewrite IHx, IHy. destruct (chain_of x) as [f r], (chain_of y) as [f' r']. unfold chain_yield. cbn.
    rewrite flat_map_app. cbn. by rewrite <-!(assoc_L (++)).
Qed.

Lemma chain_of_single t : single t → well_bound t → t = operand_tree (chain_of t).1.1 (chain_of t).1.2 ∧ (chain_of t).2 = [].
Proof.
  induction t as [p|op t IH|x _ op y _]; cbn; [done| |done]. intros _ (_ & _ & Hw & Hs).
  destruct (IH Hs Hw) as [E1 E2]. destruct (chain_of t) as [[qs p] r]. cbn in *. by rewrite <-E1.
Qed.

Lemma chain_of_tighter n t : well_bound t → tighter n t → Forall (λ x, n < binding x.1) (chain_of t).2.
Proof.
  revert n. induction t as [p|op t _|x IHx op y IHy]; intros n Hw Ht.
  - constructor.
  - by destruct (chain_of_single (Prefixed op t)) as [_ ->].
  - cbn in Ht. destruct Hw as (_ & Hx & Hy & Hty & Hl).
    assert (Forall (λ x, n < binding x.1) (chain_of x).2) as H1.
    { apply IHx; [done|]. destruct x; cbn; try done. cbn in Hl. lia. }
    assert (Forall (λ x, n < binding x.1) (chain_of y).2) as H2.
    { eapply Forall_impl; [by apply (IHy (binding op))|]. cbn. lia. }
    cbn. destruct (chain_of x) as [f r], (chain_of y) as [f' r']. cbn in *. apply Forall_app_2; [done|]. by constructor.
Qed.

Lemma attach_deep x op rest : ∀ s,
  Forall (λ o, binding op < binding o.1) rest →
  foldl (λ t o, attach t o.1 (operand_tree o.2.1 o.2.2)) (Infixed x op s) rest =
  Infixed x op (foldl (λ t o, attach t o.1 (operand_tree o.2.1 o.2.2)) s rest).
Proof.
  induction rest as [|o rest IH]; intros s Hr; [done|]. apply Forall_cons in Hr as [Ho Hr]. cbn [foldl attach].
  apply Nat.ltb_lt in Ho as ->. by apply IH.
Qed.

Lemma chain_of_tree t : well_bound t → chain_tree (chain_of t).1 (chain_of t).2 = t.
Proof.
  induction t as [p|op t _|x IHx op y IHy]; intros Hw; [done| |].
  - destruct (chain_of_single (Prefixed op t)) as [E1 E2]; [done..|]. unfold chain_tree. by rewrite E2, <-E1.
  - destruct Hw as (_ & Hx & Hy & Hty & Hl). pose proof (chain_of_tighter _ _ Hy Hty) as Hr.
    specialize (IHx Hx). specialize (IHy Hy). revert IHx IHy Hr. cbn [chain_of].
    destruct (chain_of x) as [f r], (chain_of y) as [f' r']. unfold chain_tree. cbn [fst snd]. intros E1 E2 Hr.
    rewrite foldl_app, E1. cbn [foldl fst snd].
    replace (attach x op (operand_tree f'.1 f'.2)) with (Infixed x op (operand_tree f'.1 f'.2)).
    { by rewrite attach_deep, E2. }
    destruct x as [| |x1 op' x2]; [done..|]. cbn [attach]. apply Nat.ltb_ge in Hl. by rewrite Hl.
Qed.

(** ** A parser that keeps the law *)

Definition prefix_pair (p : Pair) : bool := bool_decide (is_Some (level_of (is_prefix (as_rule p)) operators)).

Fixpoint split_chain (prefixes : list Pair) (l : list Pair) : option ((list Pair * Pair) * list (Pair * (list Pair * Pair))) :=
  match l with
  | [] => None
  | p :: l =>
      if prefix_pair p then split_chain (prefixes ++ [p]) l
      else match l with
           | [] => Some ((prefixes, p), [])
           | op :: l => match split_chain [] l with
                        | Some (first, rest) => Some ((prefixes, p), (op, first) :: rest)
                        | None => None
                        end
           end
  end.

Definition chain_parse {A} (primary : Pair → A) (prefix : Pair → A → A) (infix : A → Pair → A → A) (l : list Pair) : option A :=
  match split_chain [] l with
  | Some (first, rest) => Some (evaluate primary prefix infix (chain_tree first rest))
  | None => None
  end.

Definition readable_operand (x : list Pair * Pair) : Prop := Forall (λ p, prefix_pair p = true) x.1 ∧ prefix_pair x.2 = false.

Lemma split_operand x prefixes l :
  readable_operand x →
  split_chain prefixes ((x.1 ++ [x.2]) ++ l) =
  match l with
  | [] => Some ((prefixes ++ x.1, x.2), [])
  | op :: l => match split_chain [] l with
               | Some (first, rest) => Some ((prefixes ++ x.1, x.2), (op, first) :: rest)
               | None => None
               end
  end.
Proof.
  destruct x as [qs p]. intros [Hq Hp]. cbn in Hq, Hp. cbn [fst snd]. revert prefixes.
  induction Hq as [|q qs Hq _ IH]; intros prefixes; cbn [app split_chain].
  - by rewrite Hp, app_nil_r.
  - rewrite Hq, IH. by rewrite <-(assoc_L (++)).
Qed.

Lemma split_chain_yield first rest :
  readable_operand first → Forall (λ x, readable_operand x.2) rest →
  split_chain [] (chain_yield first rest) = Some (first, rest).
Proof.
  unfold chain_yield. intros Hf Hr. revert first Hf. induction Hr as [|[op x] rest Hx _ IH]; intros first Hf.
  - rewrite split_operand by done. by destruct first.
  - rewrite split_operand by done. cbn [flat_map app fst snd]. rewrite IH by done. by destruct first.
Qed.

Lemma chain_of_readable t :
  well_bound t → readable_operand (chain_of t).1 ∧ Forall (λ x, readable_operand x.2) (chain_of t).2.
Proof.
  induction t as [p|op t IH|x IHx op y IHy]; cbn [well_bound chain_of].
  - intros [_ Hp]. repeat split; try constructor. cbn. unfold prefix_pair. by rewrite Hp.
  - intros (Hop & _ & Hw & Hs). destruct (IH Hw) as [[H1 H2] H3]. destruct (chain_of t) as [f r]. cbn in *.
    repeat split; [|done..]. constructor; [by apply bool_decide_eq_true|done].
  - intros (_ & Hx & Hy & _). destruct (IHx Hx) as [H1 H2], (IHy Hy) as [H3 H4].
    destruct (chain_of x), (chain_of y). cbn in *. split; [done|]. apply Forall_app_2; [done|by constructor].
Qed.

Lemma chain_parse_law {A} (primary : Pair → A) prefix infix t :
  well_bound t → chain_parse primary prefix infix (yield t) = Some (evaluate primary prefix infix t).
Proof.
  intros Hw. unfold chain_parse. destruct (chain_of_readable t Hw) as [H1 H2].
  rewrite chain_of_yield, split_chain_yield by done. by rewrite chain_of_tree.
Qed.
