(* ===== verification/ParserTotal.v ===== *)
(** * Construction of the syntax tree is total (crates/syllog-parser/src/lib.rs)

    On a tree of the grammar every function of lib.rs answers, and fails only on a
    literal: an integer beyond [i64] or a string that is not JSON.  [decided r b]
    says that [r] is a node when [b] holds and such a failure otherwise; [readable]
    says of a tree that its literals can be read. *)

From stdpp Require Import base strings numbers sets list.
From S2P Require Import Prelude Text Hir Diagnostics Ast Pest Validate Parser ParserPratt.
Open Scope string_scope.
Open Scope list_scope.
Open Scope nat_scope.

Definition literal_failure (chain : list string) : Prop :=
  ∃ e, chain = ["invalid string literal"; e] ∨ chain = ["integer literal is outside the signed 64-bit range"; e].

Inductive decided {A} : parsed A → bool → Prop :=
| decided_ok x : decided (Ok x) true
| decided_failed chain : literal_failure chain → decided (Err (Failed chain)) false.

Lemma decided_cases {A} (r : parsed A) b :
  decided r b → (∃ x, r = Ok x ∧ b = true) ∨ (∃ chain, literal_failure chain ∧ r = Err (Failed chain) ∧ b = false).
Proof. intros [x|chain Hc]; [left|right]; by eexists. Qed.

Lemma decided_eq {A} (r : parsed A) a b : decided r a → a = b → decided r b.
Proof. by intros H <-. Qed.

Lemma decided_bind {A B} (r : parsed A) (k : A → parsed B) a b :
  decided r a → (∀ x, r = Ok x → decided (k x) b) → decided (let? x := r in k x) (a && b).
Proof. intros [x|chain Hc] Hk; cbn; [by apply Hk|by constructor]. Qed.

Lemma decided_map {A B} (r : parsed A) (f : A → B) a : decided r a → decided (let? x := r in Ok (f x)) a.
Proof. intros [x|chain Hc]; cbn; by constructor. Qed.

Lemma parsed_bind_assoc {A B C} (r : parsed A) (g : A → parsed B) (k : B → parsed C) :
  (let? y := (let? x := r in g x) in k y) = let? x := r in let? y := g x in k y.
Proof. by destruct r. Qed.

Lemma decided_collect {A B} (g : A → parsed B) (f : A → bool) l :
  (∀ x, x ∈ l → decided (g x) (f x)) → decided (collect g l) (forallb f l).
Proof.
  intros Hg. induction l as [|x l IH]; cbn; [constructor|]. apply decided_bind; [apply Hg; by left|].
  intros y _. apply decided_map, IH. intros z Hz. apply Hg. by right.
Qed.

(** ** Trees *)

Section syntax.
Context `{Syntax}.

Definition is_ok {A E} (r : result A E) : bool := match r with Ok _ => true | Err _ => false end.

Definition token_readable (p : Pair) : bool :=
  match as_rule p with
  | R_string => is_ok (json_string (as_str p))
  | R_integer => is_ok (parse_i64 (as_str p))
  | _ => true
  end.

Fixpoint readable (p : Pair) : bool :=
  match p with mkPair _ _ _ l => token_readable p && forallb readable l end.

(** Pairs under rules without literals. *)
Definition literal_rule (r : Rule) : bool := match r with R_string | R_integer => true | _ => false end.

Lemma readable_inner p : literal_rule (as_rule p) = false → readable p = forallb readable (into_inner p).
Proof. destruct p as [r t s l]. cbn. by destruct r. Qed.

Lemma readable_leaf p : conforms p = true → grammar (as_rule p) = Nothing → literal_rule (as_rule p) = false → readable p = true.
Proof. intros Hc%conforms_matches Hg Hl. rewrite Hg in Hc. cbn in Hc. by rewrite readable_inner, Hc. Qed.

Definition good (p : Pair) (r : Rule) : Prop := conforms p = true ∧ as_rule p = r.

Lemma readable_identifier p : good p R_identifier → readable p = true.
Proof. intros [Hc Hr]. apply readable_leaf; by rewrite ?Hr. Qed.

Lemma readable_identifiers l : Forall (λ p, good p R_identifier) l → forallb readable l = true.
Proof. induction 1 as [|p l Hp _ IH]; cbn; [done|]. by rewrite readable_identifier. Qed.

Lemma good_inner p q : conforms p = true → q ∈ into_inner p → conforms q = true ∧ pair_depth q < pair_depth p.
Proof. eauto using conforms_inner, pair_depth_inner. Qed.

Lemma inner_good p n : conforms p = true → pair_depth p ≤ n → Forall (λ q, conforms q = true ∧ pair_depth q < n) (into_inner p).
Proof. intros Hc Hn. apply Forall_forall. intros q Hq. destruct (good_inner p q Hc Hq). split; [done|lia]. Qed.

(** The pairs inside, all under one rule. *)
Lemma all_good p l r :
  conforms p = true → (∀ q, q ∈ l → q ∈ into_inner p) → Forall (λ q, as_rule q = r) l →
  Forall (λ q, good q r ∧ pair_depth q < pair_depth p) l.
Proof.
  intros Hc Hsub Hl. apply Forall_forall. intros q Hq. rewrite Forall_forall in Hl.
  destruct (good_inner p q Hc (Hsub _ Hq)). repeat split; auto.
Qed.

Lemma readable_path p : good p R_path → readable p = true.
Proof.
  intros [Hc Hr]. rewrite readable_inner by by rewrite Hr. apply readable_identifiers.
  pose proof (conforms_matches _ Hc) as Hm. rewrite Hr in Hm. apply matches_some_of in Hm as [_ Hm].
  eapply Forall_impl; [by eapply (all_good p)|]. cbn. tauto.
Qed.

Lemma parse_path_ok p : as_rule p = R_path → parse_path p = Ok (map as_str (into_inner p)).
Proof. intros Hr. unfold parse_path. by rewrite Hr. Qed.

Lemma parse_literal_decided p :
  as_rule p ∈ [R_string; R_boolean; R_float; R_integer] → conforms p = true → decided (parse_literal p) (readable p).
Proof.
  intros Hr Hc. destruct p as [r t s l]. cbn in Hr.
  assert (grammar r = Nothing) as Hg. { repeat (apply elem_of_cons in Hr as [->|Hr]; [done|]). by apply elem_of_nil in Hr. }
  pose proof (conforms_matches _ Hc) as Hm. cbn [as_rule] in Hm. rewrite Hg in Hm. cbn in Hm. subst l.
  unfold parse_literal. cbn [readable token_readable as_rule as_str forallb]. unfold token_readable. cbn [as_rule as_str].
  repeat (apply elem_of_cons in Hr as [->|Hr]; [|]); [..|by apply elem_of_nil in Hr].
  - destruct (json_string t); cbn; constructor. eexists. by left.
  - constructor.
  - constructor.
  - destruct (parse_i64 t); cbn; constructor. eexists. by right.
Qed.

Lemma all_conform n l : Forall (λ q, conforms q = true ∧ pair_depth q < n) l → Forall (λ q, conforms q = true) l.
Proof. intros Hl. eapply Forall_impl; [exact Hl|]. by intros q [Hq _]. Qed.

Lemma collect_decided {A} (g : Pair → parsed A) r n l :
  (∀ q, good q r → pair_depth q < n → decided (g q) (readable q)) →
  Forall (λ q, as_rule q = r) l → Forall (λ q, conforms q = true ∧ pair_depth q < n) l →
  decided (collect g l) (forallb readable l).
Proof.
  intros Hg Hr Hc. apply decided_collect. rewrite Forall_forall in Hr, Hc. intros q Hq. apply Hg; [split|]; [apply Hc|apply Hr|apply Hc]; done.
Qed.

Lemma filter_kept rules l :
  Forall (λ r, is_keyword r = false) rules → Forall (λ q, as_rule q ∈ rules) l →
  List.filter (λ q, negb (is_keyword (as_rule q))) l = l.
Proof.
  rewrite Forall_forall. intros Hr Hl. induction Hl as [|q l Hq _ IH]; cbn; [done|]. by rewrite (Hr _ Hq), IH.
Qed.

Lemma filter_same r l :
  Forall (λ q, as_rule q = r) l → is_keyword r = false → List.filter (λ q, negb (is_keyword (as_rule q))) l = l.
Proof.
  intros Hl Hr. apply (filter_kept [r]); [by constructor|]. eapply Forall_impl; [done|]. intros q ->. by left.
Qed.

Lemma matches_many_or a b l : matches (Many (Or (One a) (One b))) l → Forall (λ p, as_rule p ∈ [a; b]) l.
Proof.
  cbn. intros (ls & -> & Hls). induction Hls as [|x ls [(p & -> & Hp)|(p & -> & Hp)] _ IH]; cbn; [constructor|..];
  constructor; try done; rewrite Hp; set_solver.
Qed.

Lemma chain_rules l :
  matches (grammar R_expression) l → Forall (λ q, as_rule q ∈ R_postfix_expression :: R_prefix_operator :: infix_rules) l.
Proof.
  assert (∀ x, operand_ok x → Forall (λ q, as_rule q ∈ R_postfix_expression :: R_prefix_operator :: infix_rules) (x.1 ++ [x.2])) as Ho.
  { intros x [Hq Hp]. apply Forall_app_2; [eapply Forall_impl; [done|]; intros q ->; by right; left|].
    constructor; [rewrite Hp; by left|constructor]. }
  intros (first & rest & -> & Hf & Hr)%matches_chain. unfold chain_yield. apply Forall_app_2; [auto|].
  induction Hr as [|x rest [Hop Hx] _ IH]; cbn [flat_map]; [constructor|]. constructor; [by right; right|].
  apply Forall_app_2; auto.
Qed.

(** Opening a pair: its inner pairs by the grammar's rule. *)
Ltac split_shape H :=
  let K1 := fresh in let K2 := fresh in
  lazymatch type of H with
  | matches (Many (One _)) _ => apply matches_many_one in H
  | matches (Maybe (Some_of (One _))) _ => apply matches_maybe_some in H
  | matches (Some_of (One _)) _ => apply matches_some_of in H as [_ H]
  | matches (one_of_rules _) _ => apply matches_one_of in H as (? & -> & H)
  | matches (Many (one_of_rules _)) _ => apply matches_many_of in H
  | matches (Many (Or _ _)) _ => apply matches_many_or in H
  | matches (Maybe _) _ => destruct H as [H|H]; split_shape H
  | matches (Then _ _) _ => destruct H as (? & ? & -> & K1 & K2); split_shape K1; split_shape K2
  | matches (Or _ _) _ => destruct H as [H|H]; split_shape H
  | matches (One _) _ => destruct H as (? & -> & H)
  | matches Nothing _ => cbn [matches] in H; subst
  end.

Ltac open_pair p Hp Hn :=
  let Hc := fresh "Hc" in let Hr := fresh "Hr" in let Hm := fresh "Hm" in let Hall := fresh "Hall" in
  destruct Hp as [Hc Hr]; pose proof (conforms_matches _ Hc) as Hm; pose proof (inner_good _ _ Hc Hn) as Hall;
  destruct p as [? ? ? ?]; cbn [as_rule into_inner] in Hr, Hm, Hall; subst; cbn [grammar] in Hm;
  unfold literal_shape, statement_shape, item_shape in Hm; split_shape Hm;
  rewrite ?Forall_app, ?Forall_cons, ?Forall_nil in Hall; destruct_and?.

Ltac enter x n :=
  let Hn := fresh "Hn" in assert (pair_depth x ≤ n) as Hn by lia;
  match goal with Hc : conforms x = true, Hr : as_rule x = _ |- _ => open_pair x (conj Hc Hr) Hn end.

Ltac use_rules :=
  repeat match goal with
  | Hr : as_rule ?q = R_path |- context [parse_path ?q] => rewrite (parse_path_ok q Hr)
  | Hr : as_rule ?q = _ |- context [as_rule ?q] => rewrite Hr
  | Hl : Forall (λ q, as_rule q = ?r) ?l |- context [List.filter _ ?l] => rewrite (filter_same r l Hl eq_refl)
  | _ => progress decide_rules
  end.

Ltac leaves :=
  repeat match goal with
  | Hr : as_rule ?q = _, Hc : conforms ?q = true |- context [readable ?q] =>
      first [rewrite (readable_leaf q Hc) by (rewrite Hr; reflexivity)|rewrite (readable_path q (conj Hc Hr))]
  end.



Ltac cases_of H := repeat (apply elem_of_cons in H as [H|H]; [|]); [..|by apply elem_of_nil in H].

(** Running a function on the pairs it has been given, and the literals of pairs without any. *)
Ltac run :=
  unfold meaningful_inner, take_optional, take_marker, take_identifier, pop_front, front_is, context, transpose;
  repeat first [progress use_rules|
          rewrite parsed_bind_assoc|progress cbn [into_inner app List.filter is_keyword negb head tail result_bind fst snd forallb readable token_readable
                        as_rule as_str pair_span andb default map option_fmap option_map id from_option]];
  rewrite ?forallb_app; cbn [forallb andb]; leaves; cbn [andb]; rewrite ?andb_true_r, ?andb_true_l.

Lemma parse_type_within_decided n p : good p R_type_expr → pair_depth p ≤ n → decided (parse_type_within n p) (readable p).
Proof.
  revert p. induction n as [|n IH]; intros p Hp Hn; [by destruct p; cbn in Hn; lia|].
  open_pair p Hp Hn. rename x into q.
  assert (∀ l, Forall (λ q, as_rule q = R_type_expr) l → Forall (λ q, conforms q = true ∧ pair_depth q < n) l →
    decided (collect (parse_type_within n) l) (forallb readable l)) as Hcol.
  { intros l Hl Hg. eapply collect_decided; [|done..]. intros x Hx Hd. apply IH; [done|lia]. }
  cbn [parse_type_within]. run. apply decided_map. cases_of Hm; rewrite Hm; enter q n; run.
  all: try (apply decided_map, IH; [by split|lia]).
  - by apply decided_map, Hcol.
  - apply decided_map. enter x n. run. by apply Hcol.
  - constructor.
Qed.

Lemma parse_type_decided p : good p R_type_expr → decided (parse_type p) (readable p).
Proof. intros Hp. by apply parse_type_within_decided. Qed.

(** ** Patterns *)

Lemma parse_pattern_decided p : good p R_pattern → decided (parse_pattern p) (readable p).
Proof.
  remember (pair_depth p) as n eqn:Hn. assert (pair_depth p ≤ n) as Hle by lia. clear Hn. revert p Hle.
  induction n as [|n IH]; intros p Hn Hp; [by destruct p; cbn in Hn; lia|].
  open_pair p Hp Hn. rename x into q. cbn [parse_pattern].
  cases_of Hm; enter q n; run; try (apply decided_map); try by constructor.
  - eapply collect_decided; [|done..]. intros x Hx Hd. apply IH; [lia|done].
  - by apply parse_literal_decided.
Qed.

(** ** Expressions *)

Create HintDb parsing.
Hint Resolve parse_type_decided parse_pattern_decided decided_ok : parsing.
Hint Extern 1 (good _ _) => split : parsing.

(** One call after the other. *)
Ltac calls :=
  run;
  repeat lazymatch goal with
  | |- decided (Ok _) _ => constructor
  | |- decided (result_bind _ (λ _, Ok _)) _ => apply decided_map
  | |- decided (result_bind _ _) _ => apply decided_bind; [|intros ? _]; run
  end; eauto 3 with parsing.

Ltac collected := eapply collect_decided; [|done..]; let q := fresh "q" in let Hq := fresh "Hq" in intros q Hq ?.

Section expressions.
Context (parse : Pair → parsed Expr) (n : nat).
Hypothesis Hparse : ∀ q, good q R_expression → pair_depth q < n → decided (parse q) (readable q).
Hint Resolve Hparse : parsing.

Lemma parse_statement_decided p :
  conforms p = true → as_rule p ∈ [R_let_statement; R_return_statement; R_expression_statement] → pair_depth p ≤ n →
  decided (parse_statement parse p) (readable p).
Proof.
  intros Hc Hr Hn. unfold parse_statement. apply decided_map.
  cases_of Hr; rewrite Hr; open_pair p (conj Hc Hr) Hn; calls.
Qed.

Lemma parse_block_decided p : good p R_block → pair_depth p ≤ n → decided (parse_block parse p) (readable p).
Proof.
  intros Hp Hn. open_pair p Hp Hn. unfold parse_block. calls. apply decided_collect. rewrite Forall_forall in Hm, Hall.
  intros q Hq. destruct (Hall q Hq). apply parse_statement_decided; [done|by apply Hm|lia].
Qed.

Lemma parse_call_argument_decided p : good p R_call_argument → pair_depth p ≤ n → decided (parse_call_argument parse p) (readable p).
Proof.
  intros Hp Hn. open_pair p Hp Hn; unfold parse_call_argument; [|calls].
  enter x n. calls.
Qed.

Lemma parse_guard_decided p : good p R_match_guard → pair_depth p ≤ n → decided (parse_guard parse p) (readable p).
Proof. intros Hp Hn. open_pair p Hp Hn. unfold parse_guard. calls. Qed.

Lemma parse_match_arm_decided p : good p R_match_arm → pair_depth p ≤ n → decided (parse_match_arm parse p) (readable p).
Proof.
  intros Hp Hn. open_pair p Hp Hn; unfold parse_match_arm; calls. apply parse_guard_decided; [by split|lia].
Qed.

Lemma parse_match_decided p : good p R_match_expression → pair_depth p ≤ n → decided (parse_match parse p) (readable p).
Proof.
  intros Hp Hn. open_pair p Hp Hn. unfold parse_match. calls.
  collected. apply parse_match_arm_decided; [done|lia].
Qed.

Lemma parse_primary_decided p :
  conforms p = true → as_rule p ∈ primary_rules → pair_depth p ≤ n → decided (parse_primary parse p) (readable p).
Proof.
  intros Hc Hr Hn. unfold parse_primary.
  assert (∀ q, conforms q = true → as_rule q ∈ [R_string; R_boolean; R_float; R_integer] →
    decided (let? l := parse_literal q in Ok (Ex (ELiteral l) (pair_span p))) (readable q)) as Hlit.
  { intros q Hq Hqr. by apply decided_map, parse_literal_decided. }
  cases_of Hr; rewrite Hr; try (apply Hlit; [done|rewrite Hr; set_solver]).
  - open_pair p (conj Hc Hr) Hn; calls.
  - open_pair p (conj Hc Hr) Hn. cbn [List.find into_inner app]. calls.
  - by apply parse_match_decided.
  - open_pair p (conj Hc Hr) Hn; calls. collected. by apply Hparse.
  - open_pair p (conj Hc Hr) Hn; calls.
  - open_pair p (conj Hc Hr) Hn; calls.
  - apply decided_map. by apply parse_block_decided.
Qed.

Lemma parse_suffix_decided e p :
  conforms p = true → as_rule p ∈ [R_call_suffix; R_field_suffix] → pair_depth p ≤ n →
  decided (parse_suffix parse e p) (readable p).
Proof.
  intros Hc Hr Hn. unfold parse_suffix. cases_of Hr; rewrite Hr; open_pair p (conj Hc Hr) Hn; calls.
  collected. apply parse_call_argument_decided; [done|lia].
Qed.

Lemma parse_suffixes_decided e l :
  Forall (λ q, as_rule q ∈ [R_call_suffix; R_field_suffix]) l → Forall (λ q, conforms q = true ∧ pair_depth q < n) l →
  decided (parse_suffixes parse e l) (forallb readable l).
Proof.
  intros Hr Hc. revert e. induction l as [|q l IH]; intros e; cbn; [constructor|].
  apply Forall_cons in Hr as [Hq Hr], Hc as [[Hc1 Hc2] Hc]. apply decided_bind; [apply parse_suffix_decided; [done..|lia]|auto].
Qed.

Lemma parse_postfix_decided p : good p R_postfix_expression → pair_depth p ≤ n → decided (parse_postfix parse p) (readable p).
Proof.
  intros Hp Hn.
  open_pair p Hp Hn. unfold parse_postfix.
  unfold meaningful_inner. cbn [into_inner app].
  rewrite (filter_kept (primary_rules ++ [R_call_suffix; R_field_suffix])).
  2: by repeat constructor.
  2: { constructor; [apply elem_of_app; by left|]. eapply Forall_impl; [done|]. intros q Hq. apply elem_of_app. by right. }
  calls; [apply parse_primary_decided; [done..|lia]|by apply parse_suffixes_decided].
Qed.
End expressions.

(** *** Operators *)

Lemma build_prefix_decided operator r b :
  good operator R_prefix_operator → decided r b → decided (build_prefix operator r) (readable operator && b).
Proof.
  intros Hp Hr. rewrite andb_comm. apply decided_bind; [done|]. intros e _. open_pair operator Hp (le_n (pair_depth operator)); calls.
Qed.

Lemma build_infix_decided x operator y a b :
  conforms operator = true → as_rule operator ∈ infix_rules → decided x a → decided y b →
  decided (build_infix x operator y) (a && (readable operator && b)).
Proof.
  intros Hc Hr Hx Hy. unfold build_infix. apply decided_bind; [done|]. intros e _. rewrite andb_comm.
  apply decided_bind; [done|]. intros e' _. rewrite (readable_leaf operator Hc).
  all: cases_of Hr; rewrite Hr; try done; apply decided_map; constructor.
Qed.

(** A tree over the pairs of an expression. *)
Lemma evaluate_decided (primary : Pair → parsed Expr) (known : Pair → Prop) t :
  (∀ q, known q → as_rule q = R_postfix_expression → decided (primary q) (readable q)) →
  well_bound t → Forall known (yield t) → Forall (λ q, conforms q = true) (yield t) →
  Forall (λ q, as_rule q ∈ R_postfix_expression :: R_prefix_operator :: infix_rules) (yield t) →
  decided (evaluate primary build_prefix build_infix t) (forallb readable (yield t)).
Proof.
  intros Hp. induction t as [p|op t IH|x IHx op y IHy]; cbn [yield evaluate well_bound forallb].
  - rewrite !Forall_singleton, andb_true_r. intros [H1 H2] Hk _ [Hr|[Hr|Hr]%elem_of_cons]%elem_of_cons; [auto|..].
    + by rewrite Hr in H2.
    + apply infix_rules_level in Hr as [? Hr]. by rewrite Hr in H1.
  - rewrite !Forall_cons. intros (Hop & Hnop & Hw & _) [Hk1 Hk] [Hc1 Hc] [Hr1 Hr].
    apply build_prefix_decided; [split; [done|]|auto]. apply elem_of_cons in Hr1 as [Hr1|[Hr1|Hr1]%elem_of_cons]; [|done|].
    + rewrite Hr1 in Hop. by destruct Hop.
    + apply infix_rules_level in Hr1 as [? Hr1]. by rewrite Hr1 in Hnop.
  - rewrite !Forall_app, !Forall_cons, forallb_app. cbn [forallb].
    intros (Hop & Hwx & Hwy & _) (Hkx & _ & Hky) (Hcx & Hc & Hcy) (Hrx & Hr & Hry).
    apply build_infix_decided; auto. apply elem_of_cons in Hr as [Hr|[Hr|Hr]%elem_of_cons]; [..|done].
    all: rewrite Hr in Hop; by destruct Hop.
Qed.

Context `{!SyntaxLaws}.

Lemma parse_expression_within_decided n p :
  good p R_expression → pair_depth p ≤ n → decided (parse_expression_within n p) (readable p).
Proof.
  revert p. induction n as [|n IH]; intros p [Hc Hr] Hn; [by destruct p; cbn in Hn; lia|].
  cbn [parse_expression_within]. rewrite readable_inner by by rewrite Hr. use_rules.
  pose proof (conforms_matches _ Hc) as Hm. pose proof (inner_good _ _ Hc Hn) as Hall. rewrite Hr in Hm.
  pose proof (chain_rules _ Hm) as Hrules.
  destruct (pratt_chain (parse_postfix (parse_expression_within n)) build_prefix build_infix _ Hm) as (t & Hw & Hy & ->).
  rewrite <-Hy in Hall, Hrules |- *.
  eapply (evaluate_decided _ (λ q, conforms q = true ∧ pair_depth q < S n)); [|exact Hw|exact Hall| |exact Hrules].
  - intros q [Hq Hd] Hqr. eapply (parse_postfix_decided _ n); [|by split|lia]. intros x Hx Hxd. apply IH; [done|lia].
  - by eapply all_conform.
Qed.

Lemma parse_expression_decided p : good p R_expression → decided (parse_expression p) (readable p).
Proof. intros Hp. by apply parse_expression_within_decided. Qed.
Hint Resolve parse_expression_decided : parsing.

(** ** Declarations *)

Ltac opened p Hp := open_pair p Hp (le_n (pair_depth p)).

Lemma parse_parameter_decided p : good p R_parameter → decided (parse_parameter p) (readable p).
Proof. intros Hp. unfold parse_parameter. opened p Hp; calls. Qed.

Lemma parse_parameters_decided p : good p R_parameters → decided (parse_parameters p) (readable p).
Proof. intros Hp. unfold parse_parameters. opened p Hp; calls. collected. by apply parse_parameter_decided. Qed.

Lemma parse_return_type_decided p : good p R_return_type → decided (parse_return_type p) (readable p).
Proof. intros Hp. unfold parse_return_type. opened p Hp; calls. Qed.

Lemma parse_struct_field_decided p : good p R_struct_field → decided (parse_struct_field p) (readable p).
Proof. intros Hp. unfold parse_struct_field. opened p Hp; calls. Qed.

Lemma parse_struct_decided p : good p R_struct_decl → decided (parse_struct p) (readable p).
Proof. intros Hp. unfold parse_struct. opened p Hp; calls; collected; by apply parse_struct_field_decided. Qed.

Lemma parse_enum_variant_decided p : good p R_enum_variant → decided (parse_enum_variant p) (readable p).
Proof. intros Hp. unfold parse_enum_variant. opened p Hp; calls; collected; by apply parse_type_decided. Qed.

Lemma parse_enum_decided p : good p R_enum_decl → decided (parse_enum p) (readable p).
Proof. intros Hp. unfold parse_enum. opened p Hp; calls; collected; by apply parse_enum_variant_decided. Qed.

Lemma parse_state_field_decided p : good p R_state_field → decided (parse_state_field p) (readable p).
Proof. intros Hp. unfold parse_state_field. opened p Hp; calls. Qed.

Lemma parse_state_decided p : good p R_state_decl → decided (parse_state p) (readable p).
Proof. intros Hp. unfold parse_state. opened p Hp; calls; collected; by apply parse_state_field_decided. Qed.

Lemma parse_property_decided p : good p R_property → decided (parse_property p) (readable p).
Proof.
  intros Hp. unfold parse_property. opened p Hp; [|calls].
  enter x (pair_depth x). calls.
Qed.

Lemma parse_property_block_decided p : good p R_property_block → decided (parse_property_block p) (readable p).
Proof. intros Hp. unfold parse_property_block. opened p Hp; calls. collected. by apply parse_property_decided. Qed.
Hint Resolve parse_parameters_decided parse_return_type_decided parse_property_block_decided : parsing.

Lemma parse_agent_decided p : good p R_agent_decl → decided (parse_agent p) (readable p).
Proof. intros Hp. unfold parse_agent. opened p Hp; calls. Qed.

Lemma parse_pipeline_decided p : good p R_pipeline_decl → decided (parse_pipeline p) (readable p).
Proof. intros Hp. unfold parse_pipeline. opened p Hp; calls. Qed.

Lemma parse_safety_bound_decided p : good p R_safety_bound_decl → decided (parse_safety_bound p) (readable p).
Proof. intros Hp. unfold parse_safety_bound. opened p Hp; calls. Qed.

Lemma parse_effect_set_decided p : good p R_effect_set → decided (parse_effect_set p) (readable p).
Proof.
  intros Hp. unfold parse_effect_set. opened p Hp; calls. collected. unfold parse_effect. opened q Hq; calls.
Qed.

(** *** Functions *)

Lemma parse_attributes_decided attributes rest :
  Forall (λ q, as_rule q = R_attribute) attributes → Forall (λ q, conforms q = true) attributes →
  front_is R_attribute rest = false →
  forallb readable attributes = true ∧ ∃ l, parse_attributes (attributes ++ rest) = Ok (l, rest).
Proof.
  intros Hr Hc Hf. induction attributes as [|q l IH]; cbn [app forallb parse_attributes].
  - split; [done|]. exists []. destruct rest as [|x rest]; [done|]. cbn in Hf |- *. by rewrite Hf.
  - apply Forall_cons in Hr as [Hq Hr], Hc as [Hcq Hc]. destruct (IH Hr Hc) as (-> & l' & ->). use_rules.
    unfold parse_attribute. opened q (conj Hcq Hq). run. split; [done|]. by eexists.
Qed.

Lemma parse_function_decided p : good p R_function_decl → decided (parse_function p) (readable p).
Proof.
  intros Hp. unfold parse_function. 
  assert (∀ q, good q R_block → decided (parse_block parse_expression q) (readable q)) as Hb.
  { intros q Hq. eapply (parse_block_decided _ (pair_depth q)); [|done..]. intros. by apply parse_expression_decided. }
  pose proof parse_effect_set_decided as He. opened p Hp.
  all: unfold meaningful_inner; cbn [into_inner]; rewrite List.filter_app; run.
  all: match goal with
       | |- context [parse_attributes (?x ++ ?rest)] => destruct (parse_attributes_decided x rest) as (E & l & ->)
       end; [done|by eapply all_conform|by cbn [front_is]; use_rules|].
  all: rewrite E; calls.
Qed.

(** ** Programs *)

Lemma parse_module_decided p : good p R_module_decl → decided (parse_module p) (readable p).
Proof. intros Hp. unfold parse_module. opened p Hp; calls. Qed.

Lemma parse_use_decided p : good p R_use_decl → decided (parse_use p) (readable p).
Proof. intros Hp. unfold parse_use. opened p Hp; calls. Qed.

Definition item_rules : list Rule :=
  [R_struct_decl; R_enum_decl; R_function_decl; R_state_decl; R_agent_decl; R_pipeline_decl; R_safety_bound_decl].

Lemma parse_item_decided p : conforms p = true → as_rule p ∈ item_rules → decided (parse_item p) (readable p).
Proof.
  intros Hc Hr. unfold parse_item. cases_of Hr; rewrite Hr; apply decided_map.
  - by apply parse_struct_decided.
  - by apply parse_enum_decided.
  - by apply parse_function_decided.
  - by apply parse_state_decided.
  - by apply parse_agent_decided.
  - by apply parse_pipeline_decided.
  - by apply parse_safety_bound_decided.
Qed.

Lemma lower_pairs_decided l : ∀ module imports items,
  Forall (λ q, conforms q = true) l → Forall (λ q, as_rule q ∈ R_module_decl :: R_use_decl :: R_EOI :: item_rules) l →
  decided (lower_pairs module imports items l) (forallb readable l).
Proof.
  induction l as [|p l IH]; intros module imports items Hc Hr; cbn [lower_pairs forallb]; [constructor|].
  apply Forall_cons in Hc as [Hcp Hc], Hr as [Hrp Hr].
  apply elem_of_cons in Hrp as [Hp|Hrp]; [|apply elem_of_cons in Hrp as [Hp|Hrp]; [|apply elem_of_cons in Hrp as [Hp|Hrp]]].
  - rewrite Hp. apply decided_bind; [by apply parse_module_decided|auto].
  - rewrite Hp. apply decided_bind; [by apply parse_use_decided|auto].
  - rewrite Hp, (readable_leaf p Hcp) by by rewrite Hp. auto.
  - pose proof (parse_item_decided p Hcp Hrp) as Hi.
    cases_of Hrp; rewrite Hrp; (apply decided_bind; [done|auto]).
Qed.

Lemma lower_program_decided p : good p R_program → decided (lower_program p) (readable p).
Proof.
  intros [Hc Hr]. unfold lower_program.
  pose proof (conforms_matches _ Hc) as Hm. pose proof (inner_good _ _ Hc (le_n _)) as Hall. rewrite Hr in Hm.
  rewrite readable_inner by by rewrite Hr. apply decided_eq with (forallb readable (into_inner p) && true); [|apply andb_true_r].
  apply decided_bind.
  - apply lower_pairs_decided; [by eapply all_conform|]. cbn [grammar] in Hm. unfold item_shape in Hm.
    revert Hm. generalize (into_inner p). intros inner Hm. split_shape Hm; repeat apply Forall_app_2.
    all: first [eapply Forall_impl; [eassumption|]; intros q Hq|apply Forall_singleton|apply Forall_nil_2]; cbn beta in *; try done; use_rules.
    all: first [by left|by right; left|by right; right; left|by right; right; right].
  - intros [[module imports] items] _. constructor.
Qed.
End syntax.
