(* ===== verification/Unparse.v ===== *)
(** * Parse trees of syntax trees

    A parse tree for every syntax tree the parser can build, the inverse of lib.rs:
    spans are those of the nodes, operators carry the parentheses precedence asks
    for.  [printable] says which syntax trees those are: a joined span spans its
    operands, integers are non-negative and fit [i64], a path of one segment is an
    identifier. *)

From Stdlib Require Import Ascii.
From stdpp Require Import base strings numbers list.
From S2P Require Import Prelude Text Hir Diagnostics Ast Pest Validate Parser ParserPratt.
Open Scope string_scope.
Open Scope list_scope.
Open Scope nat_scope.

(** ** Numbers *)

Definition digit (z : Z) : ascii := ascii_of_nat (48 + Z.to_nat z).

Fixpoint decimal_digits (fuel : nat) (z : Z) (acc : list ascii) : list ascii :=
  match fuel with
  | O => acc
  | S fuel => if (z <? 10)%Z then digit z :: acc else decimal_digits fuel (z / 10)%Z (digit (z mod 10)%Z :: acc)
  end.

(** Nineteen digits hold every [i64]. *)
Definition decimal (z : Z) : string := String.string_of_list_ascii (decimal_digits 19 z []).

Lemma digit_ok z : (0 ≤ z < 10)%Z → is_digit (digit z) = true ∧ digit_value (digit z) = z.
Proof.
  intros Hz. unfold is_digit, digit_value, digit. rewrite nat_ascii_embedding by lia. split; [|lia].
  apply andb_true_iff. split; apply Nat.leb_le; lia.
Qed.

Lemma decimal_digits_value fuel : ∀ z acc,
  (0 ≤ z < 10 ^ Z.of_nat fuel)%Z → digits_value 0 (decimal_digits fuel z acc) = digits_value z acc.
Proof.
  induction fuel as [|fuel IH]; intros z acc Hz; cbn [decimal_digits].
  - f_equal. change (10 ^ Z.of_nat 0)%Z with 1%Z in Hz. lia.
  - destruct (Z.ltb_spec z 10) as [Hlt|Hge]; cbn [digits_value].
    + by rewrite (proj2 (digit_ok z ltac:(lia))).
    + pose proof (Z.mod_pos_bound z 10 ltac:(lia)) as Hm. rewrite IH; cbn [digits_value].
      * f_equal. rewrite (proj2 (digit_ok _ Hm)). rewrite (Z.div_mod z 10) at 3 by lia. lia.
      * rewrite Nat2Z.inj_succ, Z.pow_succ_r in Hz by lia. split; [apply Z.div_pos; lia|]. apply Z.div_lt_upper_bound; lia.
Qed.

Lemma decimal_digits_ok fuel : ∀ z acc,
  (0 ≤ z)%Z → forallb is_digit acc = true → forallb is_digit (decimal_digits fuel z acc) = true.
Proof.
  induction fuel as [|fuel IH]; intros z acc Hz Ha; cbn [decimal_digits]; [done|].
  destruct (Z.ltb_spec z 10) as [Hlt|Hge].
  - cbn. by rewrite (proj1 (digit_ok z ltac:(lia))).
  - apply IH; [apply Z.div_pos; lia|]. cbn. by rewrite (proj1 (digit_ok _ (Z.mod_pos_bound z 10 ltac:(lia)))).
Qed.

Lemma decimal_digits_nonempty fuel : ∀ z acc, decimal_digits (S fuel) z acc ≠ [].
Proof.
  assert (∀ fuel z acc, acc ≠ [] → decimal_digits fuel z acc ≠ []) as Ha.
  { clear. induction fuel as [|fuel IH]; intros z acc Hn; cbn; [done|]. destruct (z <? 10)%Z; [done|]. by apply IH. }
  intros z acc. cbn [decimal_digits]. destruct (z <? 10)%Z; [done|]. by apply Ha.
Qed.

Lemma parse_decimal z : (0 ≤ z ≤ i64_max)%Z → parse_i64 (decimal z) = Ok z.
Proof.
  intros Hz. unfold parse_i64, decimal. rewrite String.list_ascii_of_string_of_list_ascii.
  pose proof (decimal_digits_value 19 z [] ltac:(unfold i64_max in Hz; change (10 ^ Z.of_nat 19)%Z with 10000000000000000000%Z; lia)) as Hv.
  pose proof (decimal_digits_ok 19 z [] ltac:(lia) eq_refl) as Hd.
  pose proof (decimal_digits_nonempty 18 z []) as Hn.
  destruct (decimal_digits 19 z []) as [|c l]; [done|].
  assert (is_digit c = true) as Hc by (by apply andb_true_iff in Hd as [Hd _]).
  rewrite !bool_decide_false by (intros ->; done). rewrite bool_decide_false by done. rewrite bool_decide_false by done.
  rewrite Hd. cbn [orb negb]. rewrite Hv. by rewrite bool_decide_true by apply Hz.
Qed.

(** ** Pairs *)

Definition leaf (r : Rule) (text : string) : Pair := mkPair r text default_span [].
Definition node (r : Rule) (s : Span) (inner : list Pair) : Pair := mkPair r "" s inner.
Definition mark (r : Rule) (b : bool) : list Pair := if b then [leaf r ""] else [].
Definition option_pair {A} (f : A → Pair) (o : option A) : list Pair := match o with Some x => [f x] | None => [] end.

Definition name_pair (x : string) : Pair := leaf R_identifier x.
Definition path_pair (path : list string) : Pair := node R_path default_span (map name_pair path).

Fixpoint type_pair (t : TypeNode) : Pair :=
  match t with
  | mkType kind s =>
      node R_type_expr s
        [match kind with
         | TkReference lifetime mutable inner =>
             node R_reference_type s
               (option_pair (λ l, leaf R_lifetime (String "'"%char l)) lifetime ++ mark R_kw_mut mutable ++ [type_pair inner])
         | TkArray inner => node R_array_type s [type_pair inner]
         | TkTuple items => node R_tuple_type s (map type_pair items)
         | TkPath segments arguments =>
             node R_path_type s
               (path_pair segments ::
                match arguments with [] => [] | _ => [node R_generic_arguments s (map type_pair arguments)] end)
         end]
  end.

Section unparse.
(** The JSON text of a string. *)
Context (quote : string → string).

Definition literal_pair (s : Span) (l : Literal) : Pair :=
  match l with
  | LitString x => mkPair R_string (quote x) s []
  | LitInteger z => mkPair R_integer (decimal z) s []
  | LitFloat x => mkPair R_float x s []
  | LitBoolean b => mkPair R_boolean (if b then "true" else "false") s []
  | LitIdentifier x => node R_path_expression s [path_pair [x]]
  end.

Fixpoint pattern_pair (p : Pattern) : Pair :=
  match p with
  | mkPattern kind s =>
      node R_pattern s
        [match kind with
         | PkWildcard => node R_wildcard_pattern s []
         | PkPath path => node R_path_pattern s [path_pair path]
         | PkConstructor path fields => node R_constructor_pattern s (path_pair path :: map pattern_pair fields)
         | PkLiteral l => node R_literal_pattern s [literal_pair s l]
         end]
  end.

(** *** Operators *)

Definition operator_rule (o : BinaryOperator) : Rule :=
  match o with
  | OpAdd => R_op_add | OpSubtract => R_op_subtract | OpMultiply => R_op_multiply | OpDivide => R_op_divide
  | OpRemainder => R_op_remainder | OpEqual => R_op_equal | OpNotEqual => R_op_not_equal | OpLess => R_op_less
  | OpLessEqual => R_op_less_equal | OpGreater => R_op_greater | OpGreaterEqual => R_op_greater_equal
  | OpAnd => R_op_and | OpOr => R_op_or
  end.

Definition operator_pair (o : BinaryOperator) : Pair := leaf (operator_rule o) "".
Definition prefix_operator_pair (o : UnaryOperator) (s : Span) : Pair :=
  node R_prefix_operator s [leaf (match o with Not => R_op_not | Negate => R_op_negate end) ""].

Definition expression_node (s : Span) (t : OpTree) : Pair := node R_expression s (yield t).
Definition parentheses (s : Span) (t : OpTree) : Pair := node R_parenthesized s [expression_node s t].
Definition postfix_node (s : Span) (parts : list Pair) : OpTree := Operand (node R_postfix_expression s parts).
Definition enclose (s : Span) (t : OpTree) : OpTree := postfix_node s [parentheses s t].

Definition operator_level (o : BinaryOperator) : nat := binding (operator_pair o).

(** An operand of a prefix operator; [&] and [await] would take what follows. *)
Definition under_prefix (e : Expr) (t : OpTree) : OpTree :=
  match ex_kind e with EBinary _ _ _ | EBorrow _ _ | EAwait _ => enclose (ex_span e) t | _ => t end.

(** An operand of an infix operator that binary operators from [n] on may head. *)
Definition under_infix (n : nat) (e : Expr) (t : OpTree) : OpTree :=
  match ex_kind e with
  | EBinary o _ _ => if n <=? operator_level o then t else enclose (ex_span e) t
  | EBorrow _ _ | EAwait _ => enclose (ex_span e) t
  | _ => t
  end.

(** What a call or a field access follows. *)
Definition under_suffix (e : Expr) (t : OpTree) : list Pair :=
  match ex_kind e, t with
  | (EBinary _ _ _ | EBorrow _ _ | EAwait _ | EUnary _ _), _ => [parentheses (ex_span e) t]
  | _, Operand p => into_inner p
  | _, _ => []
  end.

(** *** Expressions *)

Section children.
Context (tree : Expr → OpTree).

Definition whole (e : Expr) : Pair := expression_node (ex_span e) (tree e).

Definition argument_pair (a : CallArgument) : Pair :=
  match a with
  | mkArgument (Some x) v s => node R_call_argument s [node R_named_argument s [name_pair x; whole v]]
  | mkArgument None v s => node R_call_argument s [whole v]
  end.

Definition arm_pair (a : MatchArm) : Pair :=
  match a with
  | mkMatchArm p guard body s =>
      node R_match_arm s
        (pattern_pair p :: option_pair (λ g, node R_match_guard s [leaf R_kw_if "if"; whole g]) guard ++ [whole body])
  end.

Definition statement_pair (x : Statement) : Pair :=
  match x with
  | mkStatement (SLet name ty v) s =>
      node R_let_statement s (leaf R_kw_let "let" :: name_pair name :: option_pair type_pair ty ++ [whole v])
  | mkStatement (SReturn v) s => node R_return_statement s (leaf R_kw_return "return" :: option_pair whole v)
  | mkStatement (SExpression v) s => node R_expression_statement s [whole v]
  end.

Definition block_pair (b : Block) : Pair := match b with mkBody l s => node R_block s (map statement_pair l) end.
End children.

Fixpoint expr_tree (e : Expr) : OpTree :=
  match e with
  | Ex kind s =>
      let primary p := postfix_node s [p] in
      match kind with
      | EBorrow mutable x => primary (node R_borrow_expression s (mark R_kw_mut mutable ++ [whole expr_tree x]))
      | EAwait x => primary (node R_await_expression s [leaf R_kw_await "await"; whole expr_tree x])
      | ELiteral l => primary (literal_pair s l)
      | EPath path => primary (node R_path_expression s [path_pair path])
      | EArray items => primary (node R_array_expression s (map (whole expr_tree) items))
      | ECall f arguments =>
          postfix_node s (under_suffix f (expr_tree f) ++ [node R_call_suffix s (map (argument_pair expr_tree) arguments)])
      | EField x name => postfix_node s (under_suffix x (expr_tree x) ++ [node R_field_suffix s [name_pair name]])
      | EUnary o x => Prefixed (prefix_operator_pair o s) (under_prefix x (expr_tree x))
      | EBinary o x y =>
          Infixed (under_infix (operator_level o) x (expr_tree x)) (operator_pair o)
            (under_infix (S (operator_level o)) y (expr_tree y))
      | EMatch v arms =>
          primary (node R_match_expression s (leaf R_kw_match "match" :: whole expr_tree v :: map (arm_pair expr_tree) arms))
      | EBlock b => primary (block_pair expr_tree b)
      end
  end.

Definition expr_pair (e : Expr) : Pair := whole expr_tree e.

(** ** Declarations *)

Definition parameter_pair (p : ParameterNode) : Pair := node R_parameter (pa_span p) [name_pair (pa_name p); type_pair (pa_ty p)].
Definition parameters_pair (l : list ParameterNode) : Pair := node R_parameters default_span (map parameter_pair l).
Definition return_type_pair (t : TypeNode) : Pair := node R_return_type default_span [type_pair t].
Definition visible (public : bool) : list Pair := mark R_visibility public.

Definition struct_field_pair (f : StructField) : Pair :=
  node R_struct_field (sf_span f) (visible (sf_public f) ++ [name_pair (sf_name f); type_pair (sf_ty f)]).

Definition struct_pair (n : StructNode) : Pair :=
  node R_struct_decl (sn_span n)
    (visible (sn_public n) ++ leaf R_kw_struct "struct" :: name_pair (sn_name n) :: map struct_field_pair (sn_fields n)).

Definition variant_pair (v : EnumVariant) : Pair :=
  node R_enum_variant (ev_span v) (name_pair (ev_name v) :: map type_pair (ev_fields v)).

Definition enum_pair (n : EnumNode) : Pair :=
  node R_enum_decl (en_span n)
    (visible (en_public n) ++ leaf R_kw_enum "enum" :: name_pair (en_name n) :: map variant_pair (en_variants n)).

Definition attribute_pair (x : AttributeNode) : Pair := node R_attribute (at_span x) [name_pair (at_name x)].
Definition effect_pair (x : EffectNode) : Pair := node R_effect_name (ef_span x) [name_pair (ef_name x)].
Definition effects_pair (l : list EffectNode) : Pair := node R_effect_set default_span (map effect_pair l).

Definition function_pair (n : FunctionNode) : Pair :=
  node R_function_decl (fnn_span n)
    (map attribute_pair (fnn_attributes n) ++ visible (fnn_public n) ++ mark R_async_marker (fnn_asynchronous n) ++
     leaf R_kw_fn "fn" :: name_pair (fnn_name n) :: parameters_pair (fnn_parameters n) ::
     option_pair return_type_pair (fnn_return_type n) ++ option_pair effects_pair (fnn_effects n) ++
     [block_pair expr_tree (fnn_body n)]).

Definition state_field_pair (f : StateField) : Pair :=
  node R_state_field (stf_span f) (name_pair (stf_name f) :: type_pair (stf_ty f) :: option_pair expr_pair (stf_initializer f)).

Definition state_pair (n : StateNode) : Pair :=
  node R_state_decl (stn_span n)
    (visible (stn_public n) ++ leaf R_kw_state "state" :: name_pair (stn_name n) :: map state_field_pair (stn_fields n)).

Definition property_pair (f : PropertyNode) : Pair :=
  node R_property (prop_span f)
    [name_pair (prop_name f);
     match prop_ty f with
     | Some ty => node R_typed_property (prop_span f) [type_pair ty; expr_pair (prop_value f)]
     | None => expr_pair (prop_value f)
     end].

Definition property_block_pair (l : list PropertyNode) : Pair := node R_property_block default_span (map property_pair l).

Definition agent_pair (n : AgentNode) : Pair :=
  node R_agent_decl (ag_span n)
    (visible (ag_public n) ++ [leaf R_kw_agent "agent"; name_pair (ag_name n); property_block_pair (ag_fields n)]).

Definition optional_parameters (l : list ParameterNode) : list Pair := match l with [] => [] | _ => [parameters_pair l] end.

Definition pipeline_pair (n : PipelineNode) : Pair :=
  node R_pipeline_decl (pn_span n)
    (visible (pn_public n) ++ leaf R_kw_pipeline "pipeline" :: name_pair (pn_name n) :: optional_parameters (pn_parameters n) ++
     option_pair return_type_pair (pn_return_type n) ++ [property_block_pair (pn_fields n)]).

Definition safety_bound_pair (n : SafetyBoundNode) : Pair :=
  node R_safety_bound_decl (sb_span n)
    (visible (sb_public n) ++ leaf R_kw_safety_bound "safety_bound" :: name_pair (sb_name n) ::
     optional_parameters (sb_parameters n) ++ [property_block_pair (sb_fields n)]).

Definition item_pair (i : Item) : Pair :=
  match i with
  | ItemStruct n => struct_pair n
  | ItemEnum n => enum_pair n
  | ItemFunction n => function_pair n
  | ItemState n => state_pair n
  | ItemAgent n => agent_pair n
  | ItemPipeline n => pipeline_pair n
  | ItemSafetyBound n => safety_bound_pair n
  end.

Definition module_pair (m : ModuleNode) : Pair := node R_module_decl (mn_span m) [leaf R_kw_module "module"; path_pair (mn_path m)].

Definition use_pair (u : UseNode) : Pair :=
  node R_use_decl (un_span u)
    (leaf R_kw_use "use" :: path_pair (un_path u) ::
     match un_alias u with Some a => [leaf R_kw_as "as"; name_pair a] | None => [] end).

Definition unparse (ast : Ast) : Pair :=
  node R_program (ast_span ast)
    (option_pair module_pair (ast_module ast) ++ map use_pair (ast_imports ast) ++ map item_pair (ast_items ast) ++ [leaf R_EOI ""]).
End unparse.

(** ** What the parser can build *)

Definition nonempty {A} (l : list A) : bool := match l with [] => false | _ => true end.

Fixpoint type_printable (t : TypeNode) : bool :=
  match t with
  | mkType kind _ =>
      match kind with
      | TkReference lifetime _ inner =>
          match lifetime with Some l => bool_decide (trim_quotes l = l) | None => true end && type_printable inner
      | TkArray inner => type_printable inner
      | TkTuple items => forallb type_printable items
      | TkPath segments arguments => nonempty segments && forallb type_printable arguments
      end
  end.

Definition literal_printable (l : Literal) : bool :=
  match l with
  | LitInteger z => bool_decide (0 ≤ z ≤ i64_max)%Z
  | LitIdentifier _ => false
  | _ => true
  end.

Fixpoint pattern_printable (p : Pattern) : bool :=
  match p with
  | mkPattern kind _ =>
      match kind with
      | PkWildcard => true
      | PkPath path => nonempty path
      | PkConstructor path fields => nonempty path && forallb pattern_printable fields
      | PkLiteral l => literal_printable l
      end
  end.

Definition optional {A} (p : A → bool) (o : option A) : bool := match o with Some x => p x | None => true end.

Definition statement_printable (x : Statement) : bool :=
  match x with mkStatement (SLet _ ty _) _ => optional type_printable ty | _ => true end.

(** What a node says of itself; its subexpressions are checked by [every]. *)
Definition node_printable (e : Expr) : bool :=
  match e with
  | Ex kind s =>
      match kind with
      | ELiteral (LitIdentifier _) => true
      | ELiteral l => literal_printable l
      | EPath path => match path with [] | [_] => false | _ => true end
      | ECall f _ => bool_decide (s = span_join (ex_span f) s)
      | EField x _ => bool_decide (s = span_join (ex_span x) s)
      | EUnary _ x => bool_decide (s = span_join s (ex_span x))
      | EBinary _ x y => bool_decide (s = span_join (ex_span x) (ex_span y))
      | EMatch _ arms => forallb (λ a, pattern_printable (arm_pattern a)) arms
      | EBlock (mkBody l s') => bool_decide (s = s') && forallb statement_printable l
      | EBorrow _ _ | EAwait _ | EArray _ => true
      end
  end.

Definition expr_printable : Expr → bool := every node_printable.

Definition block_printable (b : Block) : bool := expr_printable (Ex (EBlock b) (let 'mkBody _ s := b in s)).
Definition parameter_printable (p : ParameterNode) : bool := type_printable (pa_ty p).
Definition property_printable (f : PropertyNode) : bool := optional type_printable (prop_ty f) && expr_printable (prop_value f).

Definition item_printable (i : Item) : bool :=
  match i with
  | ItemStruct n => forallb (λ f, type_printable (sf_ty f)) (sn_fields n)
  | ItemEnum n => forallb (λ v, forallb type_printable (ev_fields v)) (en_variants n)
  | ItemFunction n =>
      forallb parameter_printable (fnn_parameters n) && optional type_printable (fnn_return_type n) && block_printable (fnn_body n)
  | ItemState n => forallb (λ f, type_printable (stf_ty f) && optional expr_printable (stf_initializer f)) (stn_fields n)
  | ItemAgent n => forallb property_printable (ag_fields n)
  | ItemPipeline n =>
      forallb parameter_printable (pn_parameters n) && optional type_printable (pn_return_type n) &&
      forallb property_printable (pn_fields n)
  | ItemSafetyBound n => forallb parameter_printable (sb_parameters n) && forallb property_printable (sb_fields n)
  end.

Definition printable (ast : Ast) : bool :=
  optional (λ m, nonempty (mn_path m)) (ast_module ast) && forallb (λ u, nonempty (un_path u)) (ast_imports ast) &&
  forallb item_printable (ast_items ast).
