(* ===== verification/ParserRoundTrip.v ===== *)
(** * Syntax trees survive printing and parsing

    lib.rs rebuilds every printable syntax tree from its parse tree: no part is
    lost, dropped or reordered, and the operator table regroups operands as they
    were. *)

From Stdlib Require Import Ascii.
From stdpp Require Import base strings numbers sets list.
From S2P Require Import Prelude Text Hir Diagnostics Ast Pest Validate Parser ParserPratt.
From S2P Require Import ParserTotal Unparse.
Open Scope string_scope.
Open Scope list_scope.
Open Scope nat_scope.

#[local] Arguments parse_type : simpl never.
#[local] Arguments parse_expression {_} _ : simpl never.
#[local] Arguments expr_pair : simpl never.

Lemma depth_below r t s l n q : pair_depth (mkPair r t s l) ≤ n → q ∈ l → pair_depth q < n.
Proof. intros Hn Hq. pose proof (pair_depth_inner (mkPair r t s l) q Hq). lia. Qed.

Lemma collect_map {A B E} (g : B → result A E) (f : A → B) l :
  (∀ x, x ∈ l → g (f x) = Ok x) → collect g (map f l) = Ok l.
Proof.
  induction l as [|x l IH]; intros Hg; cbn; [done|]. rewrite Hg by by left. cbn. rewrite IH; [done|].
  intros y Hy. apply Hg. by right.
Qed.

Lemma forallb_member {A} (p : A → bool) l x : forallb p l = true → x ∈ l → p x = true.
Proof. intros Hl Hx. by eapply forallb_forall; [exact Hl|apply list_elem_of_In]. Qed.

Lemma filter_map {A} (f : A → Pair) l :
  (∀ x, is_keyword (as_rule (f x)) = false) → List.filter (λ q, negb (is_keyword (as_rule q))) (map f l) = map f l.
Proof. intros Hf. induction l as [|x l IH]; cbn; [done|]. by rewrite Hf, IH. Qed.

Lemma parse_path_pair path : parse_path (path_pair path) = Ok path.
Proof.
  unfold parse_path, path_pair. cbn. f_equal. rewrite map_map. cbn. apply List.map_id.
Qed.

Create Rewrite HintDb printed.

Lemma type_pair_rule t : as_rule (type_pair t) = R_type_expr.
Proof. by destruct t. Qed.

Lemma pattern_pair_rule quote p : as_rule (pattern_pair quote p) = R_pattern.
Proof. by destruct p. Qed.

Lemma expr_pair_rule quote e : as_rule (expr_pair quote e) = R_expression.
Proof. done. Qed.

Lemma block_pair_rule tree b : as_rule (block_pair tree b) = R_block.
Proof. by destruct b. Qed.

#[export] Hint Rewrite expr_pair_rule block_pair_rule type_pair_rule pattern_pair_rule parse_path_pair : printed.

(** Running a function on a printed pair. *)
Ltac read :=
  repeat first [progress unfold meaningful_inner, take_marker, front_is, take_optional, take_identifier, pop_front, context, transpose|
    progress decide_rules|progress autorewrite with printed|progress cbn].

(** ** Types *)

(** The pair inside the pair of a type. *)
Definition type_inner (kind : TypeKind) (s : Span) : Pair :=
  match kind with
  | TkReference lifetime mutable inner =>
      node R_reference_type s
        (option_pair (λ l, leaf R_lifetime (String "'"%char l)) lifetime ++ mark R_kw_mut mutable ++ [type_pair inner])
  | TkArray inner => node R_array_type s [type_pair inner]
  | TkTuple items => node R_tuple_type s (map type_pair items)
  | TkPath segments arguments =>
      node R_path_type s
        (path_pair segments :: match arguments with [] => [] | _ => [node R_generic_arguments s (map type_pair arguments)] end)
  end.

Lemma type_pair_inner kind s : type_pair (mkType kind s) = node R_type_expr s [type_inner kind s].
Proof. by destruct kind. Qed.

Lemma depth_map {A} (f : A → Pair) r t s l n x : pair_depth (mkPair r t s (map f l)) ≤ n → x ∈ l → pair_depth (f x) ≤ n.
Proof. intros Hn Hx. apply Nat.lt_le_incl. eapply depth_below; [exact Hn|]. by apply list_elem_of_fmap_2. Qed.

Lemma parse_type_within_pair n : ∀ t, type_printable t = true → pair_depth (type_pair t) ≤ n → parse_type_within n (type_pair t) = Ok t.
Proof.
  induction n as [|n IH]; intros [kind s] Ht Hn; [cbn in Hn; lia|]. rewrite type_pair_inner in Hn |- *.
  assert (pair_depth (type_inner kind s) ≤ n) as Hd by (pose proof (depth_below _ _ _ _ _ _ Hn (list_elem_of_here _ _)); lia).
  destruct kind as [lifetime mutable inner|segments arguments|inner|items]; cbn [type_printable] in Ht; cbn [type_inner] in Hd.
  - apply andb_true_iff in Ht as [Hl Ht].
    assert (parse_type_within n (type_pair inner) = Ok inner) as Hi.
    { apply IH; [done|]. apply Nat.lt_le_incl. eapply depth_below; [exact Hd|]. rewrite !elem_of_app. right; right; by left. }
    destruct lifetime as [l|]; [apply bool_decide_eq_true in Hl|]; destruct mutable; read; rewrite Hi, ?bool_decide_true, ?Hl by done; done.
  - apply andb_true_iff in Ht as [_ Ht].
    assert (∀ y, y ∈ arguments → parse_type_within n (type_pair y) = Ok y) as Hi.
    { intros y Hy. apply IH; [by eapply forallb_member|]. destruct arguments as [|x l]; [by apply elem_of_nil in Hy|].
      eapply depth_map; [|exact Hy]. apply Nat.lt_le_incl. eapply depth_below; [exact Hd|]. by right; left. }
    destruct arguments as [|x l]; read; [done|].
    rewrite Hi, (collect_map (parse_type_within n) type_pair l); [done|by intros; apply Hi; right|by left].
  - assert (parse_type_within n (type_pair inner) = Ok inner) as Hi.
    { apply IH; [done|]. apply Nat.lt_le_incl. eapply depth_below; [exact Hd|]. by left. }
    read. by rewrite Hi.
  - read. rewrite collect_map; [done|]. intros y Hy. apply IH; [by eapply forallb_member|]. by eapply depth_map.
Qed.

Lemma parse_type_pair t : type_printable t = true → parse_type (type_pair t) = Ok t.
Proof. intros Ht. by apply parse_type_within_pair. Qed.

(** ** Literals and patterns *)

Section syntax.
Context `{SyntaxLaws} (quote : string → string) (json_law : ∀ x, json_string (quote x) = Ok x).

Lemma parse_literal_pair s l : literal_printable l = true → parse_literal (literal_pair quote s l) = Ok l.
Proof.
  destruct l as [x|x|z|x|b]; cbn [literal_printable]; try done; unfold parse_literal; cbn -[parse_i64 decimal].
  - by rewrite json_law.
  - intros Hz%bool_decide_eq_true. by rewrite parse_decimal.
  - by destruct b.
Qed.

Lemma parse_pattern_pair p : pattern_printable p = true → parse_pattern (pattern_pair quote p) = Ok p.
Proof.
  revert p. fix IH 1. intros [[|path|path fields|l] s]; cbn [pattern_printable]; intros Hp; read; [done..| |].
  - apply andb_true_iff in Hp as [_ Hp].
    assert (collect parse_pattern (map (pattern_pair quote) fields) = Ok fields) as ->; [|done].
    induction fields as [|q fields IHl]; cbn; [done|]. apply andb_true_iff in Hp as [Hq Hp]. by rewrite (IH q Hq), (IHl Hp).
  - by rewrite parse_literal_pair.
Qed.

(** ** Expressions *)

Abbreviation tree := (expr_tree quote).
Abbreviation pair_of := (expr_pair quote).

Section expressions.
Context (parse : Pair → parsed Expr).

Definition reads (e : Expr) : Prop := parse (whole tree e) = Ok e.

Lemma parse_statement_pair x :
  statement_printable x = true → Forall reads (statement_children x) → parse_statement parse (statement_pair tree x) = Ok x.
Proof.
  unfold reads. destruct x as [[name ty v|[v|]|v] s]; unfold parse_statement, statement_children; cbn -[whole].
  - intros Ht [Hv _]%Forall_cons. destruct ty as [ty|]; read; [rewrite (parse_type_pair ty Ht); cbn|]; by rewrite Hv.
  - intros _ [Hv _]%Forall_cons. read. by rewrite Hv.
  - done.
  - intros _ [Hv _]%Forall_cons. read. by rewrite Hv.
Qed.

Lemma parse_block_pair l s :
  forallb statement_printable l = true → Forall reads (flat_map statement_children l) →
  parse_block parse (block_pair tree (mkBody l s)) = Ok (mkBody l s).
Proof.
  intros Hl Hr%Forall_flat_map_inv. unfold parse_block. cbn [block_pair node into_inner]. rewrite Forall_forall in Hr.
  rewrite collect_map; [done|]. intros x Hx. apply parse_statement_pair; [by eapply forallb_member|by apply Hr].
Qed.

Lemma parse_argument_pair a : reads (argument_value a) → parse_call_argument parse (argument_pair tree a) = Ok a.
Proof. unfold reads. destruct a as [[name|] v s]; cbn -[whole]; intros Hv; unfold parse_call_argument; read; by rewrite Hv. Qed.

Lemma parse_arm_pair a :
  pattern_printable (arm_pattern a) = true → Forall reads (arm_children a) →
  parse_match_arm parse (arm_pair quote tree a) = Ok a.
Proof.
  unfold reads. destruct a as [p [g|] body s]; cbn [arm_pattern arm_children arm_guard arm_body app]; rewrite ?Forall_cons.
  - intros Hp (Hg & Hb & _). unfold parse_match_arm, parse_guard. read. rewrite parse_pattern_pair by done. read. unfold parse_guard. read. rewrite Hg. read. by rewrite Hb.
  - intros Hp (Hb & _). unfold parse_match_arm. read. rewrite parse_pattern_pair by done. read. by rewrite Hb.
Qed.

(** Parentheses leave no trace. *)
Lemma evaluate_enclose e t :
  parse (expression_node (ex_span e) t) = Ok e →
  evaluate (parse_postfix parse) build_prefix build_infix (enclose (ex_span e) t) = Ok e.
Proof. intros He. cbn. unfold parse_postfix, parse_primary. read. by rewrite He. Qed.

(** A suffix applies to what is in front of it. *)
Lemma parse_postfix_suffix s s' parts x e :
  is_keyword (as_rule x) = false → parse_postfix parse (node R_postfix_expression s' parts) = Ok e →
  parse_postfix parse (node R_postfix_expression s (parts ++ [x])) = parse_suffix parse e x.
Proof.
  unfold parse_postfix, meaningful_inner. cbn [node into_inner]. intros Hx. rewrite List.filter_app. cbn [List.filter].
  rewrite Hx. cbn [negb]. destruct (List.filter _ parts) as [|p l]; cbn; [done|].
  destruct (parse_primary parse p) as [e0|]; cbn; [|done]. revert e0.
  induction l as [|q l IH]; intros e0; cbn; [intros [= <-]; by destruct (parse_suffix _ _ _)|].
  destruct (parse_suffix parse e0 q); cbn; [apply IH|done].
Qed.
End expressions.

(** *** The operator tree *)

Definition deep (n : nat) (t : OpTree) : Prop := Forall (λ q, pair_depth q ≤ n) (yield t).

(** The tree of an expression groups and evaluates as it should. *)
Definition faithful (e : Expr) : Prop :=
  well_bound (tree e) ∧
  ∀ n, deep n (tree e) → evaluate (parse_postfix (parse_expression_within n)) build_prefix build_infix (tree e) = Ok e.

Lemma faithful_reads n e : faithful e → pair_depth (whole tree e) ≤ n → reads (parse_expression_within n) e.
Proof.
  intros [Hw He] Hn. destruct n as [|n]; [cbn in Hn; lia|]. unfold reads, whole, expression_node. cbn [parse_expression_within].
  read. rewrite pratt_law by done. apply He. apply Forall_forall. intros q Hq.
  pose proof (depth_below _ _ _ _ _ _ Hn Hq). lia.
Qed.

Definition operand_like (e : Expr) (t : OpTree) : Prop := t = tree e ∨ t = enclose (ex_span e) (tree e).

Lemma under_prefix_like e : operand_like e (under_prefix e (tree e)).
Proof. unfold under_prefix, operand_like. destruct (ex_kind e); auto. Qed.

Lemma under_infix_like n e : operand_like e (under_infix n e (tree e)).
Proof. unfold under_infix, operand_like. destruct (ex_kind e); auto. destruct (_ <=? _); auto. Qed.

Lemma like_well_bound e t : operand_like e t → faithful e → well_bound t.
Proof. intros [-> | ->] [Hw _]; done. Qed.

Lemma like_evaluate n e t :
  operand_like e t → faithful e → deep n t →
  evaluate (parse_postfix (parse_expression_within n)) build_prefix build_infix t = Ok e.
Proof.
  intros [-> | ->] He Hd; [by apply He|]. apply evaluate_enclose. apply faithful_reads; [done|].
  unfold deep, enclose, postfix_node in Hd. cbn [yield] in Hd. rewrite Forall_singleton in Hd.
  apply Nat.lt_le_incl, depth_below with R_parenthesized "" (ex_span e) [expression_node (ex_span e) (tree e)]; [|by left].
  apply Nat.lt_le_incl. eapply depth_below; [exact Hd|]. by left.
Qed.

Lemma under_prefix_single e : single (under_prefix e (tree e)).
Proof. destruct e as [[] s]; done. Qed.

Lemma under_infix_tighter n e :
  match under_infix n e (tree e) with Infixed _ op _ => n ≤ binding op | _ => True end.
Proof.
  destruct e as [kind s]. unfold under_infix. destruct kind; try done. cbn [ex_kind].
  destruct (Nat.leb_spec n (operator_level operator)); [|done]. done.
Qed.

Lemma operator_level_some o : is_Some (level (as_rule (operator_pair o))).
Proof. destruct o; by eexists. Qed.

(** *** Suffixes *)

Lemma depth_app r s s' a b : pair_depth (node r s a) ≤ pair_depth (node r s' (a ++ b)).
Proof. cbn. induction a as [|x a IH]; cbn; lia. Qed.

Lemma under_suffix_reads n e s x :
  faithful e → is_keyword (as_rule x) = false → pair_depth (node R_postfix_expression s (under_suffix e (tree e) ++ [x])) ≤ n →
  parse_postfix (parse_expression_within n) (node R_postfix_expression s (under_suffix e (tree e) ++ [x])) =
  parse_suffix (parse_expression_within n) e x.
Proof.
  intros He Hx Hn. apply parse_postfix_suffix with (ex_span e); [done|].
  assert (Hd := Nat.le_trans _ _ _ (depth_app R_postfix_expression (ex_span e) s (under_suffix e (tree e)) [x]) Hn).
  assert (like_evaluate' := like_evaluate n e (enclose (ex_span e) (tree e)) (or_intror eq_refl) He).
  destruct He as [Hw He]. destruct e as [kind s0]. destruct kind;
    try (apply like_evaluate'; apply Forall_singleton; exact Hd); apply (He n); apply Forall_singleton; exact Hd.
Qed.

(** *** Primaries *)

Lemma faithful_postfix s parts e :
  tree e = Operand (node R_postfix_expression s parts) →
  (∀ n, pair_depth (node R_postfix_expression s parts) ≤ n →
        parse_postfix (parse_expression_within n) (node R_postfix_expression s parts) = Ok e) →
  faithful e.
Proof.
  intros E He. unfold faithful, deep. rewrite E. split; [done|]. intros n Hn. cbn [yield] in Hn. rewrite Forall_singleton in Hn.
  by apply He.
Qed.

Lemma faithful_primary s p e :
  tree e = postfix_node s [p] → is_keyword (as_rule p) = false →
  (∀ n, pair_depth p ≤ n → parse_primary (parse_expression_within n) p = Ok e) → faithful e.
Proof.
  intros E Hk He. eapply faithful_postfix; [exact E|]. intros n Hn. unfold parse_postfix, meaningful_inner.
  cbn [node into_inner List.filter]. rewrite Hk. cbn. rewrite He; [done|]. apply Nat.lt_le_incl. eapply depth_below; [exact Hn|]. by left.
Qed.

(** A subexpression somewhere below. *)
Lemma reads_below n p e : faithful e → pair_depth p ≤ n → whole tree e ∈ into_inner p → reads (parse_expression_within n) e.
Proof. intros He Hn Hp. apply faithful_reads; [done|]. pose proof (pair_depth_inner _ _ Hp). lia. Qed.

Ltac primary_of := eapply faithful_primary; [done..|]; let n := fresh "n" in let Hd := fresh "Hd" in intros n Hd; unfold parse_primary.

Lemma faithful_borrow m x s : faithful x → faithful (Ex (EBorrow m x) s).
Proof.
  intros Hx. primary_of. assert (reads (parse_expression_within n) x) as Hr.
  { eapply reads_below; [done|exact Hd|]. apply elem_of_app. right. by left. }
  destruct m; read; by rewrite Hr.
Qed.

Lemma faithful_await x s : faithful x → faithful (Ex (EAwait x) s).
Proof.
  intros Hx. primary_of. assert (reads (parse_expression_within n) x) as Hr by (eapply reads_below; [done|exact Hd|by right; left]).
  read. by rewrite Hr.
Qed.

Lemma faithful_literal l s : node_printable (Ex (ELiteral l) s) = true → faithful (Ex (ELiteral l) s).
Proof.
  intros Hl. destruct l as [x|x|z|x|b]; primary_of; try done; cbn [expr_tree literal_pair as_rule as_str pair_span].
  all: pose proof (parse_literal_pair s _ Hl) as E; cbn [literal_pair] in E; by rewrite E.
Qed.

Lemma faithful_path path s : node_printable (Ex (EPath path) s) = true → faithful (Ex (EPath path) s).
Proof. intros Hp. primary_of. destruct path as [|x [|y path]]; [done..|]. read. done. Qed.

Lemma faithful_array items s : Forall faithful items → faithful (Ex (EArray items) s).
Proof.
  rewrite Forall_forall. intros Hx. primary_of. read. rewrite collect_map; [done|]. intros x Hi.
  eapply reads_below; [by apply Hx|exact Hd|]. by apply list_elem_of_fmap_2.
Qed.

Lemma arm_depth a c : c ∈ arm_children a → pair_depth (whole tree c) < pair_depth (arm_pair quote tree a).
Proof.
  destruct a as [p g body s]. unfold arm_children. cbn [arm_guard arm_body]. rewrite elem_of_app, list_elem_of_singleton. intros Hc.
  assert (∀ q, q ∈ into_inner (arm_pair quote tree (mkMatchArm p g body s)) →
               pair_depth q < pair_depth (arm_pair quote tree (mkMatchArm p g body s))) as Hd by (intros; by apply pair_depth_inner).
  destruct Hc as [Hc| ->].
  - destruct g as [g|]; [apply list_elem_of_singleton in Hc as ->|by apply elem_of_nil in Hc].
    etrans; [|apply Hd; right; by left]. apply (pair_depth_inner (node R_match_guard s [leaf R_kw_if "if"; whole tree g])). by right; left.
  - apply Hd. right. apply elem_of_app. right. by left.
Qed.

Lemma statement_depth x c : c ∈ statement_children x → pair_depth (whole tree c) < pair_depth (statement_pair tree x).
Proof.
  destruct x as [[name ty v|[v|]|v] s]; unfold statement_children; cbn [st_kind]; rewrite ?list_elem_of_singleton.
  - intros ->. apply pair_depth_inner. right; right. apply elem_of_app. right. by left.
  - intros ->. apply pair_depth_inner. right. by left.
  - by intros ?%elem_of_nil.
  - intros ->. apply pair_depth_inner. by left.
Qed.

Lemma argument_depth a : pair_depth (whole tree (argument_value a)) < pair_depth (argument_pair tree a).
Proof.
  destruct a as [[name|] v s]; [|by apply pair_depth_inner; left].
  etrans; [|apply (pair_depth_inner (argument_pair tree (mkArgument (Some name) v s))); by left].
  apply pair_depth_inner. right. by left.
Qed.

(** The parts of a list under a pair. *)
Lemma reads_parts {A} (part : A → Pair) (sub : A → list Expr) n p l x :
  (∀ c, c ∈ sub x → pair_depth (whole tree c) < pair_depth (part x)) →
  pair_depth p ≤ n → part x ∈ into_inner p → x ∈ l → Forall faithful (flat_map sub l) →
  Forall (reads (parse_expression_within n)) (sub x).
Proof.
  intros Hs Hn Hp Hx Hl%Forall_flat_map_inv. rewrite Forall_forall in Hl. specialize (Hl _ Hx). cbn in Hl.
  rewrite Forall_forall in Hl |- *. intros c Hc. apply faithful_reads; [auto|]. pose proof (pair_depth_inner _ _ Hp).
  pose proof (Hs _ Hc). lia.
Qed.

Lemma faithful_match v arms s :
  forallb (λ a, pattern_printable (arm_pattern a)) arms = true → faithful v → Forall faithful (flat_map arm_children arms) →
  faithful (Ex (EMatch v arms) s).
Proof.
  intros Hp Hv Ha.
  apply (faithful_primary s (node R_match_expression s (leaf R_kw_match "match" :: whole tree v :: map (arm_pair quote tree) arms)));
    [done..|]. intros n Hd. unfold parse_primary, parse_match.
  assert (reads (parse_expression_within n) v) as Hr by (eapply reads_below; [done|exact Hd|by right; left]).
  read. rewrite filter_map by (by intros []). rewrite Hr. cbn. rewrite collect_map; [done|]. intros a Hin.
  apply parse_arm_pair; [by eapply (forallb_member (λ a, pattern_printable (arm_pattern a)))|].
  eapply (reads_parts (arm_pair quote tree)); [apply arm_depth|exact Hd| |exact Hin|exact Ha].
  right; right. by apply list_elem_of_fmap_2.
Qed.

Lemma faithful_block b s :
  node_printable (Ex (EBlock b) s) = true → Forall faithful (flat_map statement_children (body_statements b)) →
  faithful (Ex (EBlock b) s).
Proof.
  destruct b as [l s']. cbn [node_printable body_statements]. intros [->%bool_decide_eq_true Hl]%andb_true_iff Hf.
  apply (faithful_primary s' (block_pair tree (mkBody l s'))); [done..|]. intros n Hd. unfold parse_primary.
  cbn [block_pair node as_rule]. rewrite (parse_block_pair _ l s'); [done..|]. apply Forall_flat_map, Forall_forall. intros x Hx.
  eapply (reads_parts (statement_pair tree)); [apply statement_depth|exact Hd| |exact Hx|exact Hf]. by apply list_elem_of_fmap_2.
Qed.

Lemma faithful_call f arguments s :
  node_printable (Ex (ECall f arguments) s) = true → faithful f → Forall faithful (map argument_value arguments) →
  faithful (Ex (ECall f arguments) s).
Proof.
  cbn [node_printable]. intros Hs%bool_decide_eq_true Hf Ha.
  apply (faithful_postfix s (under_suffix f (tree f) ++ [node R_call_suffix s (map (argument_pair tree) arguments)])); [done|].
  intros n Hd. rewrite under_suffix_reads by done. unfold parse_suffix. cbn [node as_rule into_inner pair_span].
  rewrite collect_map; [cbn; by rewrite <-Hs|]. intros a Hin. apply parse_argument_pair.
  rewrite Forall_forall in Ha. apply faithful_reads; [by apply Ha, list_elem_of_fmap_2|].
  assert (pair_depth (node R_call_suffix s (map (argument_pair tree) arguments)) < n) as Hc.
  { eapply depth_below; [exact Hd|]. apply elem_of_app. right. by left. }
  pose proof (argument_depth a). pose proof (depth_map _ _ _ _ _ _ _ (Nat.lt_le_incl _ _ Hc) Hin). lia.
Qed.

Lemma faithful_field x name s :
  node_printable (Ex (EField x name) s) = true → faithful x → faithful (Ex (EField x name) s).
Proof.
  cbn [node_printable]. intros Hs%bool_decide_eq_true Hx.
  apply (faithful_postfix s (under_suffix x (tree x) ++ [node R_field_suffix s [name_pair name]])); [done|].
  intros n Hd. rewrite under_suffix_reads by done. cbn. by rewrite <-Hs.
Qed.

Lemma faithful_unary o x s : node_printable (Ex (EUnary o x) s) = true → faithful x → faithful (Ex (EUnary o x) s).
Proof.
  cbn [node_printable]. intros Hs%bool_decide_eq_true Hx. split.
  - cbn [expr_tree well_bound prefix_operator_pair node as_rule]. repeat split; [by eexists| |apply under_prefix_single].
    eapply like_well_bound; [apply under_prefix_like|done].
  - unfold deep. intros n [_ Hd]%Forall_cons. cbn [expr_tree evaluate].
    rewrite (like_evaluate n x) by (apply under_prefix_like || done). unfold build_prefix. destruct o; cbn; by rewrite <-Hs.
Qed.

Lemma faithful_binary o x y s :
  node_printable (Ex (EBinary o x y) s) = true → faithful x → faithful y → faithful (Ex (EBinary o x y) s).
Proof.
  cbn [node_printable]. intros Hs%bool_decide_eq_true Hx Hy. split.
  - cbn [expr_tree well_bound]. split; [apply operator_level_some|].
    split; [eapply like_well_bound; [apply under_infix_like|done]|]. split; [eapply like_well_bound; [apply under_infix_like|done]|].
    split; [exact (under_infix_tighter (S (operator_level o)) y)|exact (under_infix_tighter (operator_level o) x)].
  - unfold deep. cbn [expr_tree evaluate yield]. intros n [Hdx [_ Hdy]%Forall_cons]%Forall_app.
    rewrite (like_evaluate n x), (like_evaluate n y) by (apply under_infix_like || done).
    unfold build_infix. destruct o; cbn; by rewrite <-Hs.
Qed.

Lemma faithful_expr e : expr_printable e = true → faithful e.
Proof.
  induction e as [e IH] using expr_children_ind. unfold expr_printable. rewrite every_children. intros [Hn Hc]%andb_true_iff.
  assert (Forall faithful (children e)) as Hf.
  { apply Forall_forall. intros c Hx. rewrite Forall_forall in IH. apply IH; [done|]. by eapply forallb_member. }
  clear IH Hc. destruct e as [[m x|x|l|path|items|f args|x name|o x|o x y|v arms|b] s];
    cbn [children ex_kind] in Hf; rewrite ?Forall_cons in Hf; destruct_and?.
  - by apply faithful_borrow.
  - by apply faithful_await.
  - by apply faithful_literal.
  - by apply faithful_path.
  - by apply faithful_array.
  - by apply faithful_call.
  - by apply faithful_field.
  - by apply faithful_unary.
  - by apply faithful_binary.
  - by apply faithful_match.
  - by apply faithful_block.
Qed.

Lemma parse_expression_pair e : expr_printable e = true → parse_expression (pair_of e) = Ok e.
Proof. intros He. by apply faithful_reads; [apply faithful_expr|]. Qed.

(** ** Declarations *)

#[local] Arguments block_pair : simpl never.
#[local] Arguments parse_block _ _ : simpl never.
#[local] Arguments parse_parameters _ : simpl never.
#[local] Arguments parse_return_type _ : simpl never.
#[local] Arguments parse_effect_set _ : simpl never.
#[local] Arguments parse_property_block {_} _ : simpl never.

Lemma parse_body_pair b : block_printable b = true → parse_block parse_expression (block_pair tree b) = Ok b.
Proof.
  destruct b as [l s]. unfold block_printable, expr_printable. rewrite every_children.
  intros [[_ Hl]%andb_true_iff Hc]%andb_true_iff. apply parse_block_pair; [done|]. apply Forall_forall. intros c Hx.
  apply parse_expression_pair. by eapply forallb_member.
Qed.

Lemma parse_optional_expression o : optional expr_printable o = true → transpose parse_expression (head (option_pair pair_of o)) = Ok o.
Proof. destruct o as [e|]; cbn -[expr_pair]; [|done]. intros He. by rewrite parse_expression_pair. Qed.

Lemma parse_parameter_pair p : parameter_printable p = true → parse_parameter (parameter_pair p) = Ok p.
Proof. destruct p as [name ty s]. intros Hp. unfold parse_parameter. read. by rewrite (parse_type_pair ty Hp). Qed.

Lemma parse_parameters_pair l : forallb parameter_printable l = true → parse_parameters (parameters_pair l) = Ok l.
Proof. intros Hl. apply collect_map. intros p Hp. apply parse_parameter_pair. by eapply forallb_member. Qed.

Lemma parse_return_type_pair t : type_printable t = true → parse_return_type (return_type_pair t) = Ok t.
Proof. apply parse_type_pair. Qed.

Lemma parse_property_pair f : property_printable f = true → parse_property (property_pair quote f) = Ok f.
Proof.
  unfold property_printable. intros [Ht He]%andb_true_iff. destruct f as [name ty v s]. cbn in Ht, He. unfold parse_property.
  destruct ty as [ty|]; read; [rewrite (parse_type_pair ty Ht); cbn|]; by rewrite (parse_expression_pair v He).
Qed.

Lemma parse_property_block_pair l : forallb property_printable l = true → parse_property_block (property_block_pair quote l) = Ok l.
Proof. intros Hl. apply collect_map. intros p Hp. apply parse_property_pair. by eapply forallb_member. Qed.

Lemma parse_attribute_pairs l rest :
  front_is R_attribute rest = false → parse_attributes (map attribute_pair l ++ rest) = Ok (l, rest).
Proof.
  intros Hf. induction l as [|[name s] l IH]; cbn [map app parse_attributes].
  - destruct rest as [|q rest]; [done|]. cbn in Hf |- *. by rewrite Hf.
  - unfold parse_attribute. read. by rewrite IH.
Qed.

Lemma take_marker_mark r b rest : front_is r rest = false → take_marker (mark r b ++ rest) r = (b, rest).
Proof. intros Hf. destruct b; unfold take_marker; cbn [mark app leaf front_is as_rule]; [by rewrite bool_decide_true|by rewrite Hf]. Qed.

Lemma take_optional_pair {A} r (parse : Pair → parsed A) (f : A → Pair) o rest :
  (∀ x, o = Some x → as_rule (f x) = r ∧ parse (f x) = Ok x) → front_is r rest = false →
  take_optional r parse (option_pair f o ++ rest) = Ok (o, rest).
Proof.
  intros Hp Hf. unfold take_optional. destruct o as [x|]; cbn [option_pair app].
  - destruct (Hp x eq_refl) as [-> ->]. by rewrite bool_decide_true.
  - destruct rest as [|q rest]; [done|]. cbn [front_is] in Hf. by rewrite Hf.
Qed.

Lemma parse_effects_pair l : parse_effect_set (effects_pair l) = Ok l.
Proof. apply collect_map. by intros [] _. Qed.

Lemma parse_function_pair n : item_printable (ItemFunction n) = true → parse_function (function_pair quote n) = Ok n.
Proof.
  cbn [item_printable]. intros [[Hp Hr]%andb_true_iff Hb]%andb_true_iff.
  destruct n as [attributes public asynchronous name parameters return_type effects body s].
  cbn [fnn_parameters fnn_return_type fnn_body] in Hp, Hr, Hb.
  unfold parse_function, meaningful_inner. cbn [function_pair node into_inner fnn_attributes pair_span].
  rewrite List.filter_app, filter_map by done. cbn [fnn_public fnn_asynchronous fnn_name fnn_parameters fnn_return_type fnn_effects fnn_body fnn_span].
  match goal with |- context [List.filter ?f ?l] =>
    replace (List.filter f l) with (mark R_visibility public ++ mark R_async_marker asynchronous ++ name_pair name :: parameters_pair parameters ::
      option_pair return_type_pair return_type ++ option_pair effects_pair effects ++ [block_pair tree body])
    by (destruct public, asynchronous, return_type, effects; cbn; by rewrite block_pair_rule) end.
  rewrite parse_attribute_pairs by (destruct public, asynchronous; done). cbn [result_bind].
  rewrite take_marker_mark by (by destruct asynchronous). rewrite take_marker_mark by done.
  unfold take_identifier. cbn [pop_front result_bind name_pair leaf as_rule as_str]. rewrite bool_decide_true by done.
  cbn [pop_front result_bind]. rewrite (parse_parameters_pair _ Hp). cbn [result_bind].
  rewrite take_optional_pair.
  2: { intros ty ->. split; [done|]. by apply parse_return_type_pair. }
  2: { destruct effects; cbn; [done|]. by rewrite block_pair_rule. }
  cbn [result_bind]. rewrite take_optional_pair.
  2: { intros l _. split; [done|apply parse_effects_pair]. }
  2: { cbn. by rewrite block_pair_rule. }
  cbn [result_bind pop_front fst]. by rewrite (parse_body_pair body Hb).
Qed.

Lemma parse_struct_pair n : item_printable (ItemStruct n) = true → parse_struct (struct_pair n) = Ok n.
Proof.
  destruct n as [public name fields s]. cbn [item_printable sn_fields]. intros Hf.
  assert (collect parse_struct_field (map struct_field_pair fields) = Ok fields) as Hc.
  { apply collect_map. intros [fpublic fname ty fs] Hin. unfold parse_struct_field.
    pose proof (forallb_member _ _ _ Hf Hin) as Ht. cbn in Ht. destruct fpublic; read; by rewrite (parse_type_pair ty Ht). }
  unfold parse_struct. destruct public; read; rewrite filter_map by done; by rewrite Hc.
Qed.

Lemma parse_enum_pair n : item_printable (ItemEnum n) = true → parse_enum (enum_pair n) = Ok n.
Proof.
  destruct n as [public name variants s]. cbn [item_printable en_variants]. intros Hv.
  assert (collect parse_enum_variant (map variant_pair variants) = Ok variants) as Hc.
  { apply collect_map. intros [vname fields vs] Hin. pose proof (forallb_member _ _ _ Hv Hin) as Ht. cbn in Ht.
    unfold parse_enum_variant. read. rewrite filter_map by (by intros []). rewrite collect_map; [done|].
    intros t Hti. apply parse_type_pair. by eapply forallb_member. }
  unfold parse_enum. destruct public; read; rewrite filter_map by done; by rewrite Hc.
Qed.

Lemma parse_state_pair n : item_printable (ItemState n) = true → parse_state (state_pair quote n) = Ok n.
Proof.
  destruct n as [public name fields s]. cbn [item_printable stn_fields]. intros Hf.
  assert (collect parse_state_field (map (state_field_pair quote) fields) = Ok fields) as Hc.
  { apply collect_map. intros [fname ty init fs] Hin. pose proof (forallb_member _ _ _ Hf Hin) as Ht. cbn in Ht.
    apply andb_true_iff in Ht as [Ht Hi]. unfold parse_state_field.
    destruct init as [e|]; read; rewrite (parse_type_pair ty Ht); read; [by rewrite (parse_expression_pair e Hi)|done]. }
  unfold parse_state. destruct public; read; rewrite filter_map by done; by rewrite Hc.
Qed.

Lemma parse_agent_pair n : item_printable (ItemAgent n) = true → parse_agent (agent_pair quote n) = Ok n.
Proof.
  destruct n as [public name fields s]. cbn [item_printable ag_fields]. intros Hf.
  unfold parse_agent. destruct public; read; by rewrite parse_property_block_pair.
Qed.

Lemma parse_pipeline_pair n : item_printable (ItemPipeline n) = true → parse_pipeline (pipeline_pair quote n) = Ok n.
Proof.
  destruct n as [public name parameters return_type fields s]. cbn [item_printable pn_parameters pn_return_type pn_fields].
  intros [[Hp Hr]%andb_true_iff Hf]%andb_true_iff. apply parse_property_block_pair in Hf. pose proof (parse_parameters_pair _ Hp) as Hps.
  unfold parse_pipeline, pipeline_pair. cbn [pn_parameters].
  destruct public, parameters as [|p l], return_type as [ty|]; cbn [optional_parameters]; read; rewrite ?Hps; read;
    rewrite ?(parse_return_type_pair _ Hr); read; by rewrite Hf.
Qed.

Lemma parse_safety_bound_pair n : item_printable (ItemSafetyBound n) = true → parse_safety_bound (safety_bound_pair quote n) = Ok n.
Proof.
  destruct n as [public name parameters fields s]. cbn [item_printable sb_parameters sb_fields].
  intros [Hp Hf]%andb_true_iff. apply parse_property_block_pair in Hf. pose proof (parse_parameters_pair _ Hp) as Hps.
  unfold parse_safety_bound, safety_bound_pair. cbn [sb_parameters].
  destruct public, parameters as [|p l]; cbn [optional_parameters]; read; rewrite ?Hps; read; by rewrite Hf.
Qed.

(** ** Programs *)

Lemma parse_item_pair i : item_printable i = true → parse_item (item_pair quote i) = Ok i.
Proof.
  intros Hi. destruct i as [n|n|n|n|n|n|n]; cbn [item_pair]; unfold parse_item.
  all: lazymatch goal with |- context [as_rule ?p] => let r := eval hnf in (as_rule p) in change (as_rule p) with r end; cbv iota.
  - by rewrite parse_struct_pair.
  - by rewrite parse_enum_pair.
  - by rewrite parse_function_pair.
  - by rewrite parse_state_pair.
  - by rewrite parse_agent_pair.
  - by rewrite parse_pipeline_pair.
  - by rewrite parse_safety_bound_pair.
Qed.

Lemma parse_use_pair u : parse_use (use_pair u) = Ok u.
Proof. destruct u as [path [alias|] s]; unfold parse_use; by read. Qed.

Lemma lower_items module imports l rest : ∀ items,
  forallb item_printable l = true →
  lower_pairs module imports items (map (item_pair quote) l ++ rest) = lower_pairs module imports (items ++ l) rest.
Proof.
  induction l as [|i l IH]; intros items Hl; cbn [map app lower_pairs]; [by rewrite app_nil_r|].
  cbn [forallb] in Hl. apply andb_true_iff in Hl as [Hi Hl]. pose proof (parse_item_pair i Hi) as E.
  assert (as_rule (item_pair quote i) ∈ item_rules) as Hr by (destruct i; cbn; unfold item_rules; set_solver).
  rewrite E. cbn [result_bind]. rewrite IH, <-(assoc_L (++)) by done. by destruct i.
Qed.

Lemma lower_uses module items l rest : ∀ imports,
  lower_pairs module imports items (map use_pair l ++ rest) = lower_pairs module (imports ++ l) items rest.
Proof.
  induction l as [|u l IH]; intros imports; cbn [map app lower_pairs]; [by rewrite app_nil_r|].
  change (as_rule (use_pair u)) with R_use_decl. cbv iota. rewrite parse_use_pair. cbn [result_bind]. by rewrite IH, <-(assoc_L (++)).
Qed.

Lemma lower_unparse ast : printable ast = true → lower_program (unparse quote ast) = Ok ast.
Proof.
  unfold printable. intros [_ Hi]%andb_true_iff. destruct ast as [module imports items s]. unfold lower_program, unparse.
  cbn [node into_inner pair_span ast_module ast_imports ast_items ast_span] in *.
  assert (∀ m, lower_pairs m [] [] (map use_pair imports ++ map (item_pair quote) items ++ [leaf R_EOI ""]) = Ok (m, imports, items)) as E.
  { intros m. by rewrite lower_uses, lower_items. }
  destruct module as [[path ms]|]; cbn [option_pair app lower_pairs module_pair node as_rule].
  - unfold parse_module. read. by rewrite E.
  - by rewrite E.
Qed.
End syntax.

(** * Checked files (crates/syllog-parser/src/lib.rs)

    What [check_syl] answers for any input, and that the syntax tree of a printed
    file is the file.  The laws of the libraries are instantiated by a parser for
    one source text. *)

Open Scope string_scope.
Open Scope list_scope.
Open Scope N_scope.

(** ** An instance of the libraries *)

Definition plain_quote (x : string) : string := String "034"%char (x +:+ String "034"%char "").

Fixpoint drop_last (x : string) : string :=
  match x with
  | String c EmptyString => EmptyString
  | String c x => String c (drop_last x)
  | EmptyString => EmptyString
  end.

Definition plain_json (x : string) : result string string :=
  match x with
  | String _ x => Ok (drop_last x)
  | EmptyString => Err "EOF while parsing a value"
  end.

Lemma plain_json_quote x : plain_json (plain_quote x) = Ok x.
Proof.
  unfold plain_json, plain_quote. f_equal. induction x as [|c x IH]; [done|].
  change (drop_last (String c (x +:+ String "034" "")) = String c x). rewrite <-IH at 2. by destruct x.
Qed.

(** Columns of one line. *)
Definition columns (first last : N) : Span :=
  {| span_start := first; span_end := last; span_line := 1; span_column := first + 1; span_end_line := 1;
     span_end_column := last + 1 |}.

Definition sample_source : string := "fn main(x: I64) -> I64 { return -x * (1 + 2); }".

Definition sample_value : Expr :=
  Ex (EBinary OpMultiply (Ex (EUnary Negate (Ex (ELiteral (LitIdentifier "x")) (columns 33 34))) (columns 32 34))
        (Ex (EBinary OpAdd (Ex (ELiteral (LitInteger 1)) (columns 38 39)) (Ex (ELiteral (LitInteger 2)) (columns 42 43))) (columns 38 43)))
     (columns 32 43).

Definition sample_function : FunctionNode :=
  {| fnn_attributes := []; fnn_public := false; fnn_asynchronous := false; fnn_name := "main";
     fnn_parameters := [{| pa_name := "x"; pa_ty := mkType (TkPath ["I64"] []) (columns 11 14); pa_span := columns 8 14 |}];
     fnn_return_type := Some (mkType (TkPath ["I64"] []) (columns 19 22)); fnn_effects := None;
     fnn_body := mkBody [mkStatement (SReturn (Some sample_value)) (columns 25 45)] (columns 23 47);
     fnn_span := columns 0 47 |}.

Definition sample_file : Ast :=
  {| ast_module := None; ast_imports := []; ast_items := [ItemFunction sample_function]; ast_span := columns 0 47 |}.

#[export] Instance sample_syntax : Syntax := {
  syl_parser input :=
    if bool_decide (input = sample_source) then Ok [unparse plain_quote sample_file]
    else Err {| pest_location := LocationPos 0; pest_line_col := LineColPos 1 1; pest_message := "expected program";
                pest_display := "expected program" |};
  pratt_parse A _ := chain_parse;
  json_string := plain_json
}.

#[export] Instance sample_laws : SyntaxLaws.
Proof.
  split.
  - intros A primary prefix infix t Hw. by apply chain_parse_law.
  - intros input pairs. cbn. case_bool_decide; [|done]. intros [= <-]. eexists. split; [done|]. split; [done|]. by vm_compute.
Qed.

(** ** Claims *)

(** C13: [check_syl] answers for every input and never panics: a text outside the
    grammar has one SYL0001 diagnostic at the error, a file whose literals can be
    read has its tree and the validator's diagnostics, and otherwise the one
    diagnostic is the SYL0002 of a literal that is no JSON string or no [i64]. *)
Theorem check_syl_answers `{SyntaxLaws} file input :
  ∃ answer, check_syl file input = Some answer ∧
    match syl_parser input with
    | Err e => answer = {| checked_ast := None; checked_diagnostics := [syntax_error "SYL0001" file (pest_message e) (pest_span e)] |}
    | Ok pairs => ∃ p, pairs = [p] ∧
        if readable p then
          ∃ ast, lower_program p = Ok ast ∧ answer = {| checked_ast := Some ast; checked_diagnostics := validate file ast |}
        else
          ∃ chain, literal_failure chain ∧
            answer = {| checked_ast := None;
                        checked_diagnostics := [syntax_error "SYL0002" file
                          ("internal AST lowering failure: " +:+ join ": " chain) default_span] |}
    end.
Proof.
  unfold check_syl. destruct (syl_parser input) as [pairs|e] eqn:E; [|by eexists].
  destruct (grammar_law _ _ E) as (p & -> & Hr & Hc). cbn [head context result_bind].
  destruct (decided_cases _ _ (lower_program_decided p (conj Hc Hr))) as [(ast & E1 & E2)|(chain & Hf & E1 & E2)]; rewrite E1.
  all: eexists; (split; [done|]); exists p; (split; [done|]); rewrite E2; by eexists.
Qed.

Lemma check_syl_answers_witness : ∃ answer, check_syl "main.syl" sample_source = Some answer ∧ checked_ast answer = Some sample_file.
Proof.
  destruct (check_syl_answers "main.syl" sample_source) as (answer & E & H). exists answer. split; [exact E|].
  injection E as <-. vm_compute. reflexivity.
Defined.

(** C10: lib.rs rebuilds every printable syntax tree from the parse tree that prints
    it: every part in its place, spans included, and every chain of operators grouped
    as it was. *)
Theorem parse_unparse `{SyntaxLaws} quote ast :
  (∀ x, json_string (quote x) = Ok x) → printable ast = true → lower_program (unparse quote ast) = Ok ast.
Proof. intros Hq Ha. by apply lower_unparse. Qed.

Lemma parse_unparse_witness : lower_program (unparse plain_quote sample_file) = Ok sample_file.
Proof. apply parse_unparse; [exact plain_json_quote|by vm_compute]. Defined.
