(* ===== verification/Compile.v ===== *)
(** * Front-end driver (crates/syllog-compiler/src/lib.rs)

    [compile] runs the parser, the validator, the semantic analyser, lowering to HIR
    and effect inference on one file and attributes every diagnostic to its phase;
    [render_human] and [EditorReport] present them.  A panic of a phase, or an
    exhausted budget of the model, is [None].  Strings are UTF-8 bytes. *)

From Stdlib Require Import Ascii.
From stdpp Require Import base gmap strings numbers pretty sorting list.
From S2P Require Import Prelude Text Ir Hir Diagnostics Ast Effects EffectsTheorems Semantic.
From S2P Require Import SemanticBodies SemanticAccepted SemanticMatch Lower LowerPrograms LowerClaims.
From S2P Require Import Pest Validate Parser ParserPratt ParserTotal Unparse ParserRoundTrip.
Open Scope string_scope.
Open Scope list_scope.
Open Scope N_scope.

Inductive CompilationPhase := PhaseParse | PhaseValidate | PhaseResolve | PhaseTypeCheck | PhaseOwnership | PhaseEffectCheck.

#[export] Instance phase_eq_dec : EqDecision CompilationPhase.
Proof. solve_decision. Defined.

Definition phase_name (p : CompilationPhase) : string :=
  match p with
  | PhaseParse => "parse"
  | PhaseValidate => "validate"
  | PhaseResolve => "resolve"
  | PhaseTypeCheck => "type_check"
  | PhaseOwnership => "ownership"
  | PhaseEffectCheck => "effect_check"
  end.

Record CompilerDiagnostic := { cd_phase : CompilationPhase; cd_diagnostic : Diagnostic }.

Record Compilation := {
  compiled_file : string;
  compiled_ast : option Ast;
  compiled_symbols : option SymbolTable;
  completed_phases : list CompilationPhase;
  compiled_diagnostics : list CompilerDiagnostic
}.

Definition severe (d : CompilerDiagnostic) : bool := is_error (cd_diagnostic d).

Definition success (c : Compilation) : bool := negb (existsb severe (compiled_diagnostics c)).

Definition parser_phase (code : string) : CompilationPhase :=
  if String.prefix "SYL0" code then PhaseParse else PhaseValidate.

Definition resolve_codes : list string := ["SYL2001"; "SYL2002"; "SYL2003"; "SYL2004"].

Definition semantic_phase (code : string) : CompilationPhase :=
  if bool_decide (code ∈ resolve_codes) then PhaseResolve
  else if String.prefix "SYL26" code then PhaseOwnership
  else PhaseTypeCheck.

Definition phased (phase : string → CompilationPhase) (d : Diagnostic) : CompilerDiagnostic :=
  {| cd_phase := phase (code d); cd_diagnostic := d |}.

(** The messages of effects.rs. *)
Definition display_effects (l : list Effect) : string := join ", " (map Ir.as_str l).

Definition effect_message (m : EffectMessage) : string :=
  match m with
  | PureCombined => "'pure' cannot be combined with effect capabilities"
  | DuplicateEffect name => "duplicate effect " +:+ in_quotes name
  | UnknownEffect name => "unknown effect " +:+ in_quotes name
  | OmitsInferred missing => "declared effect bound omits inferred effect(s): " +:+ display_effects missing
  end.

Definition effect_diagnostic (file : string) (e : EffectError) : CompilerDiagnostic :=
  {| cd_phase := PhaseEffectCheck;
     cd_diagnostic := {| code := ee_code e; severity := SeverityError; message := Text (effect_message (ee_message e));
                         Diagnostics.file := file; diagnostic_span := ee_span e |} |}.

Definition in_file (file : string) (d : Diagnostic) : Diagnostic :=
  {| code := code d; severity := severity d; message := message d; Diagnostics.file := file; diagnostic_span := diagnostic_span d |}.

Section compile.
Context `{Syntax}.

(** Lowering and effects, where nothing before reported an error: whether the
    effects ran, and what is reported. *)
Definition check_effects (file : string) (ast : Ast) (symbols : SymbolTable) : option (bool * list CompilerDiagnostic) :=
  match lower_to_hir ast symbols with
  | None => None
  | Some (Ok hir) =>
      match analyze_effects hir with
      | None => None
      | Some (Ok _) => Some (true, [])
      | Some (Err errors) => Some (true, map (effect_diagnostic file) errors)
      end
  | Some (Err errors) =>
      Some (false, map (λ d, {| cd_phase := PhaseTypeCheck; cd_diagnostic := in_file file d |}) errors)
  end.

Definition compile (file source : string) : option Compilation :=
  match check_syl file source with
  | None => None
  | Some checked =>
      let diagnostics := map (phased parser_phase) (checked_diagnostics checked) in
      match checked_ast checked with
      | None =>
          Some {| compiled_file := file; compiled_ast := None; compiled_symbols := None; completed_phases := [PhaseParse];
                  compiled_diagnostics := diagnostics |}
      | Some ast =>
          let analysis := analyze file ast in
          let diagnostics := diagnostics ++ map (phased semantic_phase) (analysis_diagnostics analysis) in
          match (if forallb (λ d, negb (severe d)) diagnostics then check_effects file ast (analysis_symbols analysis)
                 else Some (false, [])) with
          | None => None
          | Some (ran_effects, reported) =>
              Some {| compiled_file := file; compiled_ast := Some ast; compiled_symbols := Some (analysis_symbols analysis);
                      completed_phases :=
                        [PhaseParse; PhaseValidate; PhaseResolve; PhaseTypeCheck; PhaseOwnership] ++
                        (if ran_effects then [PhaseEffectCheck] else []);
                      compiled_diagnostics := diagnostics ++ reported |}
          end
      end
  end.
End compile.

(** ** Terminal output *)

(** [str::lines]: a final line break opens no line, a carriage return before one goes. *)
Definition line_feed : ascii := "010"%char.
Definition carriage_return : ascii := "013"%char.

Fixpoint source_lines (s : string) : list string :=
  match s with
  | EmptyString => []
  | String c s =>
      if bool_decide (c = line_feed) then "" :: source_lines s
      else match s with
           | EmptyString => [String c ""]
           | String c' s' =>
               if bool_decide (c' = line_feed)
               then (if bool_decide (c = carriage_return) then "" else String c "") :: source_lines s'
               else match source_lines s with
                    | l :: ls => String c l :: ls
                    | [] => [String c ""]
                    end
           end
  end.

(** [chars().count()]: the bytes that do not continue a character. *)
Fixpoint char_count (s : string) : N :=
  match s with
  | EmptyString => 0
  | String c s =>
      let b := N_of_ascii c in
      (if (128 <=? b) && (b <? 192) then 0 else 1) + char_count s
  end.

Fixpoint repeated_text (s : string) (n : nat) : string :=
  match n with O => "" | S n => s +:+ repeated_text s n end.

Definition new_line : string := String line_feed "".

Definition severity_name (s : Severity) : string := match s with SeverityError => "error" | SeverityWarning => "warning" end.

(** Columns before the carets and the number of carets. *)
Definition carets (span : Span) (line : string) : N * N :=
  let indentation := span_column span - 1 in
  let available := char_count line - indentation in
  let requested := if bool_decide (span_line span = span_end_line span) then span_end_column span - span_column span else available in
  (indentation, N.min (N.max requested 1) (N.max available 1)).

Section render.
(** The text of a message. *)
Context (message_text : DiagnosticMessage → string).

Definition excerpt (span : Span) (line : string) : string :=
  let number := pretty (span_line span) in
  let '(indentation, count) := carets span line in
  number +:+ " | " +:+ line +:+ new_line +:+
  repeated_text " " (String.length number) +:+ " | " +:+ repeated_text " " (N.to_nat indentation) +:+
  repeated_text "^" (N.to_nat count) +:+ new_line.

Definition source_line (lines : list string) (span : Span) : option string :=
  if bool_decide (span_line span = 0) then None else lines !! N.to_nat (span_line span - 1).

Definition render_diagnostic (lines : list string) (d : CompilerDiagnostic) : string :=
  let diagnostic := cd_diagnostic d in
  let span := diagnostic_span diagnostic in
  severity_name (severity diagnostic) +:+ "[" +:+ code diagnostic +:+ "]: " +:+ message_text (message diagnostic) +:+ new_line +:+
  " --> " +:+ Diagnostics.file diagnostic +:+ ":" +:+ pretty (span_line span) +:+ ":" +:+ pretty (span_column span) +:+ new_line +:+
  match source_line lines span with Some line => excerpt span line | None => "" end +:+
  " = phase: " +:+ phase_name (cd_phase d) +:+ new_line.

Definition render_human (source : string) (diagnostics : list CompilerDiagnostic) : string :=
  join new_line (map (render_diagnostic (source_lines source)) diagnostics).
End render.

(** ** Editor reports *)

Record EditorPosition := { ep_line : N; ep_column : N; ep_byte : N }.
Record EditorRange := { range_start : EditorPosition; range_end : EditorPosition }.
Record EditorDiagnostic := {
  ed_code : string; ed_severity : string; ed_message : DiagnosticMessage; ed_file : string; ed_phase : CompilationPhase;
  ed_range : EditorRange
}.
Record EditorReport := {
  report_schema : N; report_success : bool; report_phases : list CompilationPhase; report_diagnostics : list EditorDiagnostic
}.

(** Subtraction on [N] saturates as [saturating_sub] does. *)
Definition editor_range (span : Span) : EditorRange :=
  {| range_start := {| ep_line := span_line span - 1; ep_column := span_column span - 1; ep_byte := span_start span |};
     range_end := {| ep_line := span_end_line span - 1; ep_column := span_end_column span - 1; ep_byte := span_end span |} |}.

Definition editor_diagnostic (d : CompilerDiagnostic) : EditorDiagnostic :=
  let diagnostic := cd_diagnostic d in
  {| ed_code := code diagnostic; ed_severity := severity_name (severity diagnostic); ed_message := message diagnostic;
     ed_file := Diagnostics.file diagnostic; ed_phase := cd_phase d; ed_range := editor_range (diagnostic_span diagnostic) |}.

Definition editor_report (c : Compilation) : EditorReport :=
  {| report_schema := 1; report_success := success c; report_phases := completed_phases c;
     report_diagnostics := map editor_diagnostic (compiled_diagnostics c) |}.

(** * What the driver reports (crates/syllog-compiler/src/lib.rs) *)

Open Scope string_scope.
Open Scope list_scope.

Lemma lower_to_hir_reports ast symbols ds : lower_to_hir ast symbols = Some (Err ds) → ds ≠ [].
Proof.
  unfold lower_to_hir. destruct (analysis_diagnostics _) as [|d l]; [|by intros [= <-]].
  case_bool_decide; [|by intros [= <-]]. unfold lower, lower_module.
  destruct (map_state _ _ _) as [definitions l]. destruct (if existsb _ _ then _ else _) as [entry l'].
  destruct (lw_panicked l'); [done|]. destruct (lw_diagnostics l') as [|d ds']; [done|]. by intros [= <-].
Qed.

Lemma analyze_effects_answers hir :
  (∃ effects, analyze_effects hir = Some (Ok effects)) ∨ (∃ errors, analyze_effects hir = Some (Err errors) ∧ errors ≠ []).
Proof.
  unfold analyze_effects. destruct (infer_spec (local (Effects.collect hir))) as (m & -> & _). cbn.
  destruct (_ ++ _) as [|e l]; [left; by eexists|]. right. eexists. split; [done|]. intros E.
  by apply stable_sort_nil in E.
Qed.

Section compile.
Context `{SyntaxLaws}.

(** A file without reports: it parses, its declarations are configured, the analyser and
    the ownership checker are silent and every name, call and await of a body is in
    scope, the program is the source with its names resolved, and its functions have
    only the effects they declare. *)
Definition accepted (file source : string) (ast : Ast) : Prop :=
  ∃ p hir ds,
    syl_parser source = Ok [p] ∧ lower_program p = Ok ast ∧ Forall (configured ast) (ast_items ast) ∧
    analysis_diagnostics (analyze file ast) = [] ∧ Forall (item_ok (final file ast [])) (ast_items ast) ∧
    lower_to_hir ast (analysis_symbols (analyze file ast)) = Some (Ok hir) ∧
    modules hir = [{| hm_module := SOURCE_MODULE; definitions := ds |}] ∧
    Forall2 (item_kept (analysis_symbols (analyze file ast)) (analysis_expression_types (analyze "<hir>" ast)) ds) (ast_items ast) ds ∧
    bounds_hold hir.

(** What the driver then returns. *)
Definition silent_compilation (file : string) (ast : Ast) : Compilation :=
  {| compiled_file := file; compiled_ast := Some ast; compiled_symbols := Some (analysis_symbols (analyze file ast));
     completed_phases := [PhaseParse; PhaseValidate; PhaseResolve; PhaseTypeCheck; PhaseOwnership; PhaseEffectCheck];
     compiled_diagnostics := [] |}.

(** The declarations, members and binders of the file are more than there are [u32]
    identities for them. *)
Definition out_of_identities (source : string) : Prop :=
  ∃ p ast, syl_parser source = Ok [p] ∧ lower_program p = Ok ast ∧ u32_max < N.of_nat (file_identities ast).

Lemma check_effects_cases file ast symbols :
  match check_effects file ast symbols with
  | None => lower_to_hir ast symbols = None
  | Some (ran, reported) =>
      reported = [] → ran = true ∧ ∃ hir effects, lower_to_hir ast symbols = Some (Ok hir) ∧ analyze_effects hir = Some (Ok effects)
  end.
Proof.
  unfold check_effects. destruct (lower_to_hir ast symbols) as [[hir|ds]|] eqn:E; [|..|done].
  - destruct (analyze_effects_answers hir) as [[effects Ee]|(errors & -> & Hn)]; [|by destruct errors].
    rewrite Ee. intros _. split; [done|]. by exists hir, effects.
  - apply lower_to_hir_reports in E. by destruct ds.
Qed.

Lemma parsed_cases file source p ast :
  syl_parser source = Ok [p] → lower_program p = Ok ast →
  check_syl file source = Some {| checked_ast := Some ast; checked_diagnostics := validate file ast |}.
Proof. intros E1 E2. unfold check_syl. rewrite E1. cbn. by rewrite E2. Qed.

Lemma check_syl_inv file source answer :
  check_syl file source = Some answer →
  match checked_ast answer with
  | Some ast => ∃ p, syl_parser source = Ok [p] ∧ lower_program p = Ok ast ∧ checked_diagnostics answer = validate file ast
  | None => checked_diagnostics answer ≠ []
  end.
Proof.
  unfold check_syl. destruct (syl_parser source) as [pairs|e] eqn:E; [|by intros [= <-]].
  destruct (grammar_law _ _ E) as (p & -> & _). cbn [head context result_bind].
  destruct (lower_program p) as [ast|[chain| |]] eqn:E2; intros [= <-]; cbn; [by exists p|done].
Qed.

Lemma check_syl_total file source : is_Some (check_syl file source).
Proof.
  unfold check_syl. destruct (syl_parser source) as [pairs|e] eqn:E; [|by eexists].
  destruct (grammar_law _ _ E) as (p & -> & Hr & Hc). cbn [head context result_bind].
  destruct (decided_cases _ _ (lower_program_decided p (conj Hc Hr))) as [(ast & -> & _)|(chain & _ & -> & _)]; by eexists.
Qed.

(** Nothing reported: every phase was passed. *)
Lemma compile_silent file source c : compile file source = Some c → compiled_diagnostics c = [] → ∃ ast, accepted file source ast.
Proof.
  unfold compile. destruct (check_syl_total file source) as [checked E]. rewrite E. apply check_syl_inv in E.
  destruct (checked_ast checked) as [ast|] eqn:Ea; [|intros [= <-]; by intros ?%map_eq_nil].
  destruct E as (p & Ep & El & ->). pose proof (check_effects_cases file ast (analysis_symbols (analyze file ast))) as Hc.
  remember (map (phased parser_phase) (validate file ast) ++ _) as reports eqn:Er. destruct (forallb _ _) eqn:Ef.
  - destruct (check_effects file ast _) as [[ran reported]|] eqn:Ec; [|done]. intros [= <-]. cbn [compiled_diagnostics].
    subst reports. intros [[Hv%map_eq_nil Ha%map_eq_nil]%app_nil Hr]%app_nil. destruct (Hc Hr) as (_ & hir & effects & Eh & Ee).
    destruct (lower_to_hir_kept _ _ _ Eh) as (ds & Hm & Hk & _). destruct (accepted_file_is_well_scoped file ast [] Ha) as (_ & _ & Hok).
    exists ast, p, hir, ds. pose proof (proj1 (validate_silent file ast) Hv).
    split_and!; try done; [by apply Forall_forall|by apply analyze_effects_accepts; exists effects].
  - intros [= <-]. cbn [compiled_diagnostics]. rewrite app_nil_r. by intros ->.
Qed.

(** Every phase passed: nothing is reported. *)
Lemma compile_accepted file source ast : accepted file source ast → compile file source = Some (silent_compilation file ast).
Proof.
  intros (p & hir & ds & Ep & El & Hc & Ha & _ & Eh & _ & _ & Hb). unfold compile. rewrite (parsed_cases file source p ast Ep El). cbn [checked_diagnostics checked_ast].
  rewrite (proj2 (validate_silent file ast) Hc), Ha. cbn [map app forallb]. unfold check_effects. rewrite Eh.
  apply analyze_effects_accepts in Hb as [effects ->]. done.
Qed.

Lemma compile_panics file source : compile file source = None → out_of_identities source.
Proof.
  unfold compile. destruct (check_syl_total file source) as [checked E]. rewrite E. apply check_syl_inv in E.
  destruct (checked_ast checked) as [ast|] eqn:Ea; [|done]. destruct E as (p & Ep & El & ->). intros Hn. exists p, ast. split_and!; [done..|].
  pose proof (check_effects_cases file ast (analysis_symbols (analyze file ast))) as Hc.
  destruct (forallb _ _); [|done]. destruct (check_effects file ast _) as [[ran reported]|]; [done|]. by eapply lower_to_hir_panics.
Qed.
End compile.

(** C11: [compile] reports nothing exactly on the files that pass every phase: they
    parse, are configured, the analyser and the ownership checker are silent, they
    lower to HIR and each function has only the effects it declares, itself or
    through its calls; then the bodies are well scoped, the HIR is the source with
    its names resolved, and all six phases are completed.  It always answers, unless
    the file has more declarations, members and binders than there are [u32]. *)
Theorem compile_exact `{SyntaxLaws} file source :
  match compile file source with
  | Some c => (compiled_diagnostics c = [] ↔ ∃ ast, accepted file source ast) ∧ ∀ ast, accepted file source ast → c = silent_compilation file ast
  | None => out_of_identities source
  end.
Proof.
  destruct (compile file source) as [c|] eqn:Ec; [|by apply (compile_panics file)]. split; [split|].
  - intros Hd. by eapply compile_silent.
  - intros [ast Ha]. apply compile_accepted in Ha. rewrite Ec in Ha. by injection Ha as ->.
  - intros ast Ha. apply compile_accepted in Ha. rewrite Ec in Ha. by injection Ha.
Qed.

Lemma compile_exact_witness : ∃ ast, accepted "main.syl" sample_source ast ∧ compile "main.syl" sample_source = Some (silent_compilation "main.syl" ast).
Proof.
  pose proof (compile_exact "main.syl" sample_source) as H.
  assert (option_map compiled_diagnostics (compile "main.syl" sample_source) = Some []) as D by (vm_compute; reflexivity).
  destruct (compile "main.syl" sample_source) as [c|]; [|discriminate D]. injection D as D. destruct H as [Hi Hc]. destruct (proj1 Hi D) as [ast Ha].
  exists ast. split; [exact Ha|]. by rewrite (Hc ast Ha).
Defined.
