(* ===== verification/Database.v ===== *)
(** * Incremental query database (crates/syllog-compiler/src/database.rs)

    Sources with revisions, packages as sorted lists of files, the caches of parse
    and HIR queries, and cooperative cancellation.  The caches are part of the
    state: a query takes the database and returns it with its answer; [None] is a
    panic of a phase.  An [Arc] is its content.  [SourceFileId], [PackageId] and
    [ModuleId] are their numbers. *)

From stdpp Require Import base gmap strings numbers pretty sorting list.
From S2P Require Import Prelude Text Ir Hir Diagnostics Ast Semantic SemanticBodies Lower.
From S2P Require Import Pest Validate Parser Compile.
Open Scope string_scope.
Open Scope list_scope.
Open Scope N_scope.

Record ParseResult := { pr_ast : option Ast; pr_diagnostics : list CompilerDiagnostic; pr_cancelled : bool }.
Record HirResult := { hr_program : option HirProgram; hr_diagnostics : list CompilerDiagnostic; hr_cancelled : bool }.

Record SourceInput := { si_text : string; si_revision : N }.
Record ParseCache := { pc_revision : N; pc_result : ParseResult }.
Record HirCache := { hc_fingerprint : list (N * N); hc_result : HirResult }.

Record Database := {
  db_sources : gmap N SourceInput;
  db_packages : gmap N (list N);
  db_parse_cache : gmap N ParseCache;
  db_hir_cache : gmap N HirCache;
  db_cancelled : bool
}.

Definition database_new : Database :=
  {| db_sources := ∅; db_packages := ∅; db_parse_cache := ∅; db_hir_cache := ∅; db_cancelled := false |}.

Definition with_parse_cache (c : gmap N ParseCache) (db : Database) : Database :=
  {| db_sources := db_sources db; db_packages := db_packages db; db_parse_cache := c; db_hir_cache := db_hir_cache db;
     db_cancelled := db_cancelled db |}.
Definition with_hir_cache (c : gmap N HirCache) (db : Database) : Database :=
  {| db_sources := db_sources db; db_packages := db_packages db; db_parse_cache := db_parse_cache db; db_hir_cache := c;
     db_cancelled := db_cancelled db |}.

(** ** Inputs *)

(** [sort_unstable] and [dedup]. *)
Fixpoint dedup_ids (l : list N) : list N :=
  match l with
  | [] => []
  | x :: l =>
      match dedup_ids l with
      | [] => [x]
      | y :: l' => if bool_decide (x = y) then y :: l' else x :: y :: l'
      end
  end.

Definition sorted_ids (l : list N) : list N := dedup_ids (merge_sort N.le l).

Definition set_package_files (package : N) (files : list N) (db : Database) : Database :=
  let files := sorted_ids files in
  if bool_decide (db_packages db !! package = Some files) then db
  else {| db_sources := db_sources db; db_packages := <[package := files]> (db_packages db);
          db_parse_cache := db_parse_cache db; db_hir_cache := delete package (db_hir_cache db);
          db_cancelled := db_cancelled db |}.

Definition set_cancelled (b : bool) (db : Database) : Database :=
  {| db_sources := db_sources db; db_packages := db_packages db; db_parse_cache := db_parse_cache db;
     db_hir_cache := db_hir_cache db; db_cancelled := b |}.
Definition cancel : Database → Database := set_cancelled true.
Definition reset_cancellation : Database → Database := set_cancelled false.

Definition saturating_succ (n : N) : N := N.min (n + 1) u64_max.

(** The cached packages that have the file as a member. *)
Definition unaffected (packages : gmap N (list N)) (file : N) (entry : N * HirCache) : Prop :=
  file ∉ default [] (packages !! entry.1).

Definition set_source (file : N) (text : string) (db : Database) : Database :=
  if bool_decide (si_text <$> db_sources db !! file = Some text) then db
  else
    let revision := match db_sources db !! file with Some source => saturating_succ (si_revision source) | None => 1 end in
    {| db_sources := <[file := {| si_text := text; si_revision := revision |}]> (db_sources db);
       db_packages := db_packages db;
       db_parse_cache := delete file (db_parse_cache db);
       db_hir_cache := filter (unaffected (db_packages db) file) (db_hir_cache db);
       db_cancelled := db_cancelled db |}.

Definition fingerprint (db : Database) (package : N) : option (list (N * N)) :=
  (map (λ file, (file, match db_sources db !! file with Some source => si_revision source | None => 0 end))) <$>
  db_packages db !! package.

(** ** Diagnostics *)

Definition source_name (file : N) : string := "<source-" +:+ pretty file +:+ ">.syl".
Definition package_name (package : N) : string := "<package-" +:+ pretty package +:+ ">".

Definition cancelled_hir : HirResult := {| hr_program := None; hr_diagnostics := []; hr_cancelled := true |}.

Definition database_diagnostic (file code text : string) : CompilerDiagnostic :=
  {| cd_phase := PhaseParse;
     cd_diagnostic := {| Diagnostics.code := code; severity := SeverityError; message := Text text; Diagnostics.file := file;
                         diagnostic_span := default_span |} |}.

(** [semantic_phase] of this file. *)
Definition query_phase (code : string) : CompilationPhase :=
  if bool_decide (code ∈ resolve_codes) then PhaseResolve else PhaseTypeCheck.

(** ** Identities of a module in its package *)

Definition remap_id (target : N) (id : DefId) : DefId :=
  if bool_decide (module id = 0) then {| module := target; index := index id |} else id.

Fixpoint remap_pattern (target : N) (p : HirPattern) : HirPattern :=
  match p with
  | PatBinding definition => PatBinding (remap_id target definition)
  | PatVariant definition fields => PatVariant (remap_id target definition) (map (remap_pattern target) fields)
  | PatWildcard | PatLiteral _ => p
  end.

Section remap.
Context (target : N) (expression : TypedExpr → TypedExpr).

Definition remap_statement (st : HirStatement) : HirStatement :=
  match st with
  | HLet definition name ty value => HLet (remap_id target definition) name ty (expression value)
  | HReturn value => HReturn (match value with Some value => Some (expression value) | None => None end)
  | HExpression value => HExpression (expression value)
  end.

Definition remap_statements (b : HirBlock) : HirBlock :=
  match b with mkBlock statements span => mkBlock (map remap_statement statements) span end.

Definition remap_arm (arm : HirMatchArm) : HirMatchArm :=
  match arm with
  | mkArm pattern guard body span =>
      mkArm (remap_pattern target pattern) (match guard with Some g => Some (expression g) | None => None end) (expression body) span
  end.
End remap.

Fixpoint remap_expression (target : N) (e : TypedExpr) : TypedExpr :=
  match e with
  | mkExpr kind ty span =>
      mkExpr
        (match kind with
         | HReference definition => HReference (remap_id target definition)
         | HArray items => HArray (map (remap_expression target) items)
         | HCall callee arguments => HCall (remap_expression target callee) (map (remap_expression target) arguments)
         | HField base field => HField (remap_expression target base) (remap_id target field)
         | HAwait operand => HAwait (remap_expression target operand)
         | HBorrow mutable operand => HBorrow mutable (remap_expression target operand)
         | HUnary operator operand => HUnary operator (remap_expression target operand)
         | HBinary operator x y => HBinary operator (remap_expression target x) (remap_expression target y)
         | HMatch value arms => HMatch (remap_expression target value) (map (remap_arm target (remap_expression target)) arms)
         | HBlock block => HBlock (remap_statements target (remap_expression target) block)
         | HLiteral l => HLiteral l
         end) ty span
  end.

Definition remap_block (target : N) : HirBlock → HirBlock := remap_statements target (remap_expression target).

Definition remap_member (target : N) (m : HirMember) : HirMember :=
  {| hm_id := remap_id target (hm_id m); hm_name := hm_name m; hm_ty := hm_ty m; hm_span := hm_span m |}.
Definition remap_variant (target : N) (v : HirVariant) : HirVariant :=
  {| hv_id := remap_id target (hv_id v); hv_name := hv_name v; hv_fields := hv_fields v; hv_span := hv_span v |}.
Definition remap_parameter (target : N) (p : HirParameter) : HirParameter :=
  {| hp_id := remap_id target (hp_id p); hp_name := hp_name p; hp_ty := hp_ty p; hp_span := hp_span p |}.

Definition remap_kind (target : N) (k : HirDefinitionKind) : HirDefinitionKind :=
  match k with
  | KindStruct fields => KindStruct (map (remap_member target) fields)
  | KindState fields => KindState (map (remap_member target) fields)
  | KindEnum variants => KindEnum (map (remap_variant target) variants)
  | KindFunction f =>
      KindFunction {| is_test := is_test f; asynchronous := asynchronous f; public := public f;
                      declared_effects := declared_effects f; hf_parameters := map (remap_parameter target) (hf_parameters f);
                      hf_result := hf_result f; hf_body := remap_block target (hf_body f) |}
  | KindPipeline p =>
      KindPipeline {| pl_parameters := map (remap_parameter target) (pl_parameters p); pl_result := pl_result p;
                      agent := remap_id target <$> agent p; pl_body := remap_expression target <$> pl_body p |}
  | KindAgent | KindSafetyBound => k
  end.

Definition remap_definition (target : N) (d : HirDefinition) : HirDefinition :=
  {| hd_id := remap_id target (hd_id d); hd_name := hd_name d; hd_kind := remap_kind target (hd_kind d); hd_span := hd_span d |}.

Definition remap_module (target : N) (m : HirModule) : HirModule :=
  {| hm_module := target; definitions := map (remap_definition target) (definitions m) |}.

(** [ModuleId(u32::try_from(module_index).unwrap_or(u32::MAX - 1))] *)
Definition module_target (position : nat) : N :=
  let n := N.of_nat position in if bool_decide (n ≤ u32_max) then n else u32_max - 1.

(** ** Queries *)

Section queries.
Context `{Syntax}.

(** The result of parsing a text. *)
Definition parse_text (file : N) (text : string) : option ParseResult :=
  match check_syl (source_name file) text with
  | None => None
  | Some checked =>
      Some {| pr_ast := checked_ast checked; pr_diagnostics := map (phased parser_phase) (checked_diagnostics checked);
              pr_cancelled := false |}
  end.

Definition parse (file : N) (db : Database) : option (ParseResult * Database) :=
  if db_cancelled db then Some ({| pr_ast := None; pr_diagnostics := []; pr_cancelled := true |}, db)
  else match db_sources db !! file with
  | None =>
      Some ({| pr_ast := None; pr_diagnostics := [database_diagnostic (source_name file) "SYL9001" "source input is not set"];
               pr_cancelled := false |}, db)
  | Some source =>
      let compute :=
        match parse_text file (si_text source) with
        | None => None
        | Some result =>
            Some (result, with_parse_cache (<[file := {| pc_revision := si_revision source; pc_result := result |}]>
                                              (db_parse_cache db)) db)
        end in
      match db_parse_cache db !! file with
      | Some cached => if bool_decide (pc_revision cached = si_revision source) then Some (pc_result cached, db) else compute
      | None => compute
      end
  end.

(** The loop of [build_hir] over the files, with the query it parses them with. *)
Record Building := {
  bd_diagnostics : list CompilerDiagnostic; bd_modules : list HirModule; bd_entry : option DefId
}.

Definition report (ds : list CompilerDiagnostic) (b : Building) : Building :=
  {| bd_diagnostics := bd_diagnostics b ++ ds; bd_modules := bd_modules b; bd_entry := bd_entry b |}.

(** A lowered file joins the package. *)
Definition add_program (position : nat) (file : N) (program : HirProgram) (b : Building) : option Building :=
  let target := module_target position in
  match modules program with
  | [] => None
  | m :: _ =>
      let candidate := remap_id target <$> hir_entry program in
      let repeated := match candidate, bd_entry b with Some _, Some _ => true | _, _ => false end in
      Some {| bd_diagnostics := bd_diagnostics b ++
                (if repeated then [database_diagnostic (source_name file) "SYL3002" "package declares more than one main function"]
                 else []);
              bd_modules := bd_modules b ++ [remap_module target m];
              bd_entry := match candidate with Some _ => candidate | None => bd_entry b end |}
  end.

(** One file after it has been parsed. *)
Definition build_file (position : nat) (file : N) (parsed : ParseResult) (b : Building) : option Building :=
  let b := report (pr_diagnostics parsed) b in
  match pr_ast parsed with
  | None => Some b
  | Some ast =>
      let analysis := analyze (source_name file) ast in
      let b := report (map (phased query_phase) (analysis_diagnostics analysis)) b in
      match analysis_diagnostics analysis, pr_diagnostics parsed with
      | [], [] =>
          match lower_to_hir ast (analysis_symbols analysis) with
          | None => None
          | Some (Ok program) => add_program position file program b
          | Some (Err errors) => Some (report (map (λ d, {| cd_phase := PhaseTypeCheck; cd_diagnostic := d |}) errors) b)
          end
      | _, _ => Some b
      end
  end.

Section loop.
Context {St : Type} (stopped : St → bool) (query : N → St → option (ParseResult * St)).

(** No building is a cancelled build. *)
Fixpoint build_files (position : nat) (files : list N) (b : Building) (s : St) : option (option Building * St) :=
  match files with
  | [] => Some (Some b, s)
  | file :: files =>
      if stopped s then Some (None, s)
      else match query file s with
      | None => None
      | Some (parsed, s) =>
          if pr_cancelled parsed then Some (None, s)
          else match build_file position file parsed b with
          | None => None
          | Some b => build_files (S position) files b s
          end
      end
  end.
End loop.

Definition finish_build (b : Building) : HirResult :=
  {| hr_program :=
       if forallb (λ d, negb (severe d)) (bd_diagnostics b)
       then Some {| schema_version := 1; modules := bd_modules b; hir_entry := bd_entry b |} else None;
     hr_diagnostics := bd_diagnostics b; hr_cancelled := false |}.

Definition no_building : Building := {| bd_diagnostics := []; bd_modules := []; bd_entry := None |}.

Definition unknown_package (package : N) : HirResult :=
  {| hr_program := None; hr_diagnostics := [database_diagnostic (package_name package) "SYL9002" "unknown package"];
     hr_cancelled := false |}.

Definition build_hir (package : N) (db : Database) : option (HirResult * Database) :=
  match db_packages db !! package with
  | None => Some (unknown_package package, db)
  | Some files =>
      match build_files db_cancelled parse 0 files no_building db with
      | None => None
      | Some (None, db) => Some (cancelled_hir, db)
      | Some (Some b, db) => Some (finish_build b, db)
      end
  end.

Definition hir (package : N) (db : Database) : option (HirResult * Database) :=
  if db_cancelled db then Some (cancelled_hir, db)
  else match fingerprint db package with
  | None => build_hir package db
  | Some current =>
      let compute :=
        match build_hir package db with
        | None => None
        | Some (result, db) =>
            Some (result, if hr_cancelled result then db
                          else with_hir_cache (<[package := {| hc_fingerprint := current; hc_result := result |}]> (db_hir_cache db)) db)
        end in
      match db_hir_cache db !! package with
      | Some cached => if bool_decide (hc_fingerprint cached = current) then Some (hc_result cached, db) else compute
      | None => compute
      end
  end.

Definition package_diagnostics (package : N) (db : Database) : option (list CompilerDiagnostic * Database) :=
  match hir package db with Some (result, db) => Some (hr_diagnostics result, db) | None => None end.

(** ** Sessions *)

Inductive Request :=
| SetSource (file : N) (text : string)
| SetPackageFiles (package : N) (files : list N)
| Cancel
| ResetCancellation
| QueryParse (file : N)
| QueryHir (package : N)
| QueryDiagnostics (package : N).

Inductive Answer :=
| Accepted
| Parsed (r : ParseResult)
| Lowered (r : HirResult)
| Reported (ds : list CompilerDiagnostic).

Definition serve (r : Request) (db : Database) : option (Answer * Database) :=
  match r with
  | SetSource file text => Some (Accepted, set_source file text db)
  | SetPackageFiles package files => Some (Accepted, set_package_files package files db)
  | Cancel => Some (Accepted, cancel db)
  | ResetCancellation => Some (Accepted, reset_cancellation db)
  | QueryParse file => match parse file db with Some (result, db) => Some (Parsed result, db) | None => None end
  | QueryHir package => match hir package db with Some (result, db) => Some (Lowered result, db) | None => None end
  | QueryDiagnostics package =>
      match package_diagnostics package db with Some (ds, db) => Some (Reported ds, db) | None => None end
  end.

Fixpoint session (requests : list Request) (db : Database) : option (list Answer) :=
  match requests with
  | [] => Some []
  | r :: requests =>
      match serve r db with
      | None => None
      | Some (answer, db) => (cons answer) <$> session requests db
      end
  end.
End queries.

(** * The database answers from the current sources (crates/syllog-compiler/src/database.rs)

    The specification keeps only the texts, the packages and the cancellation flag
    and computes every answer anew.  The caches of the database are shown to hold
    what the specification would compute, whatever requests came before. *)

Open Scope string_scope.
Open Scope list_scope.
Open Scope N_scope.

(** ** Specification *)

Record Inputs := { in_texts : gmap N string; in_packages : gmap N (list N); in_cancelled : bool }.

Definition no_inputs : Inputs := {| in_texts := ∅; in_packages := ∅; in_cancelled := false |}.

Section specification.
Context `{Syntax}.

Definition fresh_parse (texts : gmap N string) (file : N) : option ParseResult :=
  match texts !! file with
  | Some text => parse_text file text
  | None => Some {| pr_ast := None; pr_diagnostics := [database_diagnostic (source_name file) "SYL9001" "source input is not set"];
                    pr_cancelled := false |}
  end.

Definition fresh_hir (texts : gmap N string) (files : list N) : option HirResult :=
  match build_files (λ _ : unit, false) (λ file s, (λ r, (r, s)) <$> fresh_parse texts file) 0 files no_building () with
  | Some (Some b, _) => Some (finish_build b)
  | _ => None
  end.

Definition spec_parse (file : N) (i : Inputs) : option ParseResult :=
  if in_cancelled i then Some {| pr_ast := None; pr_diagnostics := []; pr_cancelled := true |} else fresh_parse (in_texts i) file.

Definition spec_hir (package : N) (i : Inputs) : option HirResult :=
  if in_cancelled i then Some cancelled_hir
  else match in_packages i !! package with
       | None => Some (unknown_package package)
       | Some files => fresh_hir (in_texts i) files
       end.

Definition spec_serve (r : Request) (i : Inputs) : option (Answer * Inputs) :=
  match r with
  | SetSource file text =>
      Some (Accepted, {| in_texts := <[file := text]> (in_texts i); in_packages := in_packages i; in_cancelled := in_cancelled i |})
  | SetPackageFiles package files =>
      Some (Accepted, {| in_texts := in_texts i; in_packages := <[package := sorted_ids files]> (in_packages i);
                         in_cancelled := in_cancelled i |})
  | Cancel => Some (Accepted, {| in_texts := in_texts i; in_packages := in_packages i; in_cancelled := true |})
  | ResetCancellation => Some (Accepted, {| in_texts := in_texts i; in_packages := in_packages i; in_cancelled := false |})
  | QueryParse file => (λ r, (Parsed r, i)) <$> spec_parse file i
  | QueryHir package => (λ r, (Lowered r, i)) <$> spec_hir package i
  | QueryDiagnostics package => (λ r, (Reported (hr_diagnostics r), i)) <$> spec_hir package i
  end.

Fixpoint spec_session (requests : list Request) (i : Inputs) : option (list Answer) :=
  match requests with
  | [] => Some []
  | r :: requests =>
      match spec_serve r i with
      | None => None
      | Some (answer, i) => (cons answer) <$> spec_session requests i
      end
  end.

(** ** The caches *)

Definition inputs_of (db : Database) : Inputs :=
  {| in_texts := si_text <$> db_sources db; in_packages := db_packages db; in_cancelled := db_cancelled db |}.

Record coherent (db : Database) : Prop := {
  co_parse file cached :
    db_parse_cache db !! file = Some cached →
    ∃ source, db_sources db !! file = Some source ∧ parse_text file (si_text source) = Some (pc_result cached);
  co_hir package cached :
    db_hir_cache db !! package = Some cached →
    ∃ files, db_packages db !! package = Some files ∧
             fresh_hir (si_text <$> db_sources db) files = Some (hc_result cached)
}.

Lemma parse_text_uncancelled file text r : parse_text file text = Some r → pr_cancelled r = false.
Proof. unfold parse_text. destruct (check_syl _ _); [|done]. by intros [= <-]. Qed.

Lemma fresh_parse_uncancelled texts file r : fresh_parse texts file = Some r → pr_cancelled r = false.
Proof. unfold fresh_parse. destruct (texts !! file); [apply parse_text_uncancelled|]. by intros [= <-]. Qed.

(** Parsing: the answer and a database with the same inputs. *)
Lemma parse_correct file db :
  coherent db → db_cancelled db = false →
  match parse file db with
  | None => fresh_parse (si_text <$> db_sources db) file = None
  | Some (r, db') => fresh_parse (si_text <$> db_sources db) file = Some r ∧ coherent db' ∧ inputs_of db' = inputs_of db ∧
                     db_sources db' = db_sources db ∧ db_hir_cache db' = db_hir_cache db
  end.
Proof.
  intros Hc Hn. unfold parse, fresh_parse. rewrite Hn, lookup_fmap.
  destruct (db_sources db !! file) as [source|] eqn:Es; cbn; [|done].
  assert (match parse_text file (si_text source) with
    | None => parse_text file (si_text source) = None
    | Some r => parse_text file (si_text source) = Some r ∧
        coherent (with_parse_cache (<[file := {| pc_revision := si_revision source; pc_result := r |}]> (db_parse_cache db)) db)
    end) as Hnew.
  { destruct (parse_text file (si_text source)) as [r|] eqn:Er; [|done]. split; [done|]. split; cbn; [|apply (co_hir _ Hc)].
    intros f cached. rewrite lookup_insert_Some. intros [[<- <-]|[_ Hf]]; [by exists source|by apply (co_parse _ Hc)]. }
  destruct (db_parse_cache db !! file) as [cached|] eqn:Ep; [case_bool_decide|].
  - destruct (co_parse _ Hc _ _ Ep) as (source' & Es' & Hr). rewrite Es in Es'. injection Es' as <-. done.
  - destruct (parse_text file (si_text source)) as [r|]; [|done]. by destruct Hnew.
  - destruct (parse_text file (si_text source)) as [r|]; [|done]. by destruct Hnew.
Qed.

(** The loop: parsing through the caches builds what fresh parsing builds. *)
Lemma build_files_correct files : ∀ position b db,
  coherent db → db_cancelled db = false →
  let texts := si_text <$> db_sources db in
  let fresh := build_files (λ _ : unit, false) (λ file s, (λ r, (r, s)) <$> fresh_parse texts file) position files b () in
  match build_files db_cancelled parse position files b db with
  | None => fresh = None
  | Some (ob, db') => fresh = Some (ob, ()) ∧ is_Some ob ∧ coherent db' ∧ inputs_of db' = inputs_of db ∧
                      db_sources db' = db_sources db ∧ db_hir_cache db' = db_hir_cache db
  end.
Proof.
  induction files as [|file files IH]; intros position b db Hc Hn; cbv zeta; cbn [build_files]; [by repeat split; try apply Hc|]. rewrite Hn.
  pose proof (parse_correct file db Hc Hn) as Hp. destruct (parse file db) as [[r db1]|]; [|by rewrite Hp].
  destruct Hp as (Hr & Hc1 & Hi1 & Hs1 & Hh1). rewrite Hr. cbn [fmap option_fmap option_map].
  rewrite (fresh_parse_uncancelled _ _ _ Hr). destruct (build_file position file r b) as [b1|]; [|done].
  assert (db_cancelled db1 = false) as Hn1 by (injection Hi1; congruence).
  specialize (IH (S position) b1 db1 Hc1 Hn1). cbv zeta in IH. rewrite Hs1 in IH.
  destruct (build_files db_cancelled parse (S position) files b1 db1) as [[ob db2]|]; [|done].
  destruct IH as (E & Hob & Hc2 & Hi2 & Hs2 & Hh2). repeat split; try done; try apply Hc2; congruence.
Qed.

Lemma hir_correct package db :
  coherent db →
  match hir package db with
  | None => spec_hir package (inputs_of db) = None
  | Some (r, db') => spec_hir package (inputs_of db) = Some r ∧ coherent db' ∧ inputs_of db' = inputs_of db
  end.
Proof.
  intros Hc. unfold hir, spec_hir. cbn [inputs_of in_cancelled in_packages in_texts].
  destruct (db_cancelled db) eqn:Hn; [done|]. unfold fingerprint, build_hir.
  destruct (db_packages db !! package) as [files|] eqn:Ep; cbn [fmap option_fmap option_map]; [|done].
  set (current := map _ files).
  assert (match (match build_files db_cancelled parse 0 files no_building db with
    | None => None
    | Some (None, db) => Some (cancelled_hir, db)
    | Some (Some b, db) => Some (finish_build b, db)
    end) with
    | None => fresh_hir (si_text <$> db_sources db) files = None
    | Some (r, db') => fresh_hir (si_text <$> db_sources db) files = Some r ∧
        let db'' := if hr_cancelled r then db'
          else with_hir_cache (<[package := {| hc_fingerprint := current; hc_result := r |}]> (db_hir_cache db')) db' in
        coherent db'' ∧ inputs_of db'' = inputs_of db
    end) as Hnew.
  { pose proof (build_files_correct files 0 no_building db Hc Hn) as Hb. cbv zeta in Hb. unfold fresh_hir.
    destruct (build_files db_cancelled parse 0 files no_building db) as [[ob db1]|]; [|by rewrite Hb].
    destruct Hb as (E & [b ->] & Hc1 & Hi1 & Hs1 & Hh1). cbn. rewrite E. split; [done|]. split; [|done]. split; cbn; [apply (co_parse _ Hc1)|].
    intros p cached. rewrite lookup_insert_Some. intros [[<- <-]|[_ Hp]]; [|by apply (co_hir _ Hc1)].
    exists files. split; [by injection Hi1 as _ -> _|]. unfold fresh_hir. rewrite Hs1, E. done. }
  destruct (db_hir_cache db !! package) as [cached|] eqn:Eh; [case_bool_decide|].
  - destruct (co_hir _ Hc _ _ Eh) as (files' & Ep' & Hr). rewrite Ep in Ep'. injection Ep' as <-. done.
  - destruct (build_files db_cancelled parse 0 files no_building db) as [[[b|] db1]|]; done.
  - destruct (build_files db_cancelled parse 0 files no_building db) as [[[b|] db1]|]; done.
Qed.

(** ** Inputs *)

Lemma fresh_hir_ext texts texts' files : (∀ f, f ∈ files → texts !! f = texts' !! f) → fresh_hir texts files = fresh_hir texts' files.
Proof.
  intros Hf. unfold fresh_hir.
  assert (∀ position b, build_files (λ _ : unit, false) (λ file s, (λ r, (r, s)) <$> fresh_parse texts file) position files b () =
    build_files (λ _ : unit, false) (λ file s, (λ r, (r, s)) <$> fresh_parse texts' file) position files b ()) as ->; [|done].
  induction files as [|file files IH]; intros position b; cbn [build_files]; [done|].
  assert (fresh_parse texts file = fresh_parse texts' file) as -> by (unfold fresh_parse; by rewrite (Hf file (list_elem_of_here _ _))).
  destruct (fresh_parse texts' file) as [r|]; cbn; [|done]. destruct (pr_cancelled r); [done|].
  destruct (build_file position file r b); [|done]. apply IH. intros f Hin. apply Hf. by right.
Qed.

Lemma set_source_coherent file text db : coherent db → coherent (set_source file text db).
Proof.
  intros Hc. unfold set_source. case_bool_decide; [done|]. split; cbn.
  - intros f cached. rewrite lookup_delete_Some. intros [Hne Hf]. destruct (co_parse _ Hc _ _ Hf) as (source & Hs & Hr).
    exists source. by rewrite lookup_insert_ne.
  - intros package cached. rewrite map_lookup_filter_Some. unfold unaffected. cbn. intros [Hp Hu].
    destruct (co_hir _ Hc _ _ Hp) as (files & Hf & Hr). exists files. split; [done|]. rewrite Hf in Hu. cbn in Hu. rewrite <-Hr.
    apply fresh_hir_ext. intros f Hin. rewrite fmap_insert. apply lookup_insert_ne. by intros <-.
Qed.

Lemma set_source_inputs file text db :
  inputs_of (set_source file text db) =
  {| in_texts := <[file := text]> (si_text <$> db_sources db); in_packages := db_packages db; in_cancelled := db_cancelled db |}.
Proof.
  unfold set_source, inputs_of. case_bool_decide as Hd; cbn; [|by rewrite fmap_insert].
  f_equal. rewrite insert_id; [done|]. by rewrite lookup_fmap.
Qed.

Lemma set_package_files_coherent package files db : coherent db → coherent (set_package_files package files db).
Proof.
  intros Hc. unfold set_package_files. case_bool_decide; [done|]. split; cbn; [apply (co_parse _ Hc)|].
  intros p cached. rewrite lookup_delete_Some. intros [Hne Hp]. destruct (co_hir _ Hc _ _ Hp) as (fs & Hf & Hr).
  exists fs. by rewrite lookup_insert_ne.
Qed.

Lemma set_package_files_inputs package files db :
  inputs_of (set_package_files package files db) =
  {| in_texts := si_text <$> db_sources db; in_packages := <[package := sorted_ids files]> (db_packages db);
     in_cancelled := db_cancelled db |}.
Proof. unfold set_package_files, inputs_of. case_bool_decide as Hd; cbn; [|done]. f_equal. by rewrite insert_id. Qed.

(** ** Sessions *)

Lemma serve_correct r db :
  coherent db →
  match serve r db with
  | None => spec_serve r (inputs_of db) = None
  | Some (answer, db') => spec_serve r (inputs_of db) = Some (answer, inputs_of db') ∧ coherent db'
  end.
Proof.
  intros Hc. destruct r as [file text|package files| | |file|package|package]; cbn [serve spec_serve].
  - split; [by rewrite set_source_inputs|by apply set_source_coherent].
  - split; [by rewrite set_package_files_inputs|by apply set_package_files_coherent].
  - split; [done|]. split; [apply (co_parse _ Hc)|apply (co_hir _ Hc)].
  - split; [done|]. split; [apply (co_parse _ Hc)|apply (co_hir _ Hc)].
  - unfold spec_parse. destruct (db_cancelled db) eqn:Hn; cbn [inputs_of in_cancelled in_texts]; rewrite Hn.
    + unfold parse. rewrite Hn. by rewrite <-Hn.
    + pose proof (parse_correct file db Hc Hn) as Hp. destruct (parse file db) as [[r db']|]; [|by rewrite Hp].
      destruct Hp as (-> & Hc' & <- & _). done.
  - pose proof (hir_correct package db Hc) as Hh. destruct (hir package db) as [[r db']|]; [|by rewrite Hh].
    destruct Hh as (-> & Hc' & <-). done.
  - unfold package_diagnostics. pose proof (hir_correct package db Hc) as Hh. destruct (hir package db) as [[r db']|]; [|by rewrite Hh].
    destruct Hh as (-> & Hc' & <-). done.
Qed.

Lemma session_correct requests : ∀ db, coherent db → session requests db = spec_session requests (inputs_of db).
Proof.
  induction requests as [|r requests IH]; intros db Hc; cbn [session spec_session]; [done|].
  pose proof (serve_correct r db Hc) as Hs. destruct (serve r db) as [[answer db']|]; [|by rewrite Hs].
  destruct Hs as [-> Hc']. by rewrite IH.
Qed.

Lemma database_new_coherent : coherent database_new.
Proof. split; cbn; intros ? ?; by rewrite lookup_empty. Qed.
End specification.

(** C9: the incremental database refines recomputation: whatever sources, packages,
    cancellations and queries a session consists of, every answer is the one computed
    anew from the current sources; no answer is stale, and a cancelled one is never
    kept. *)
Theorem session_refines `{Syntax} requests : session requests database_new = spec_session requests no_inputs.
Proof. rewrite session_correct by apply database_new_coherent. unfold inputs_of. cbn. by rewrite fmap_empty. Qed.
