(* ===== verification/Package.v ===== *)
(** * Package compiler (crates/syllog-compiler/src/package.rs)

    [compile_package]: sources by name, module analysis, a plan of identities for
    every declaration and member of the package, lowering of each source under the
    names it sees, and effect inference over the linked HIR.  [asts] is the
    [BTreeMap] by file; a panic of a phase is [None]. *)

From stdpp Require Import base gmap strings numbers list.
From S2P Require Import Prelude Text Ir Hir Diagnostics Ast Modules Validate Pest Parser.
From S2P Require Import Semantic SemanticBodies Lower Effects Compile.
Open Scope string_scope.
Open Scope list_scope.
Open Scope N_scope.

Record PackageSource := { ps_file : string; ps_source : string }.
Record PackageCompilation := { pk_hir : option HirProgram; pk_diagnostics : list CompilerDiagnostic }.

Definition package_success (c : PackageCompilation) : bool := forallb (λ d, negb (severe d)) (pk_diagnostics c).
Definition has_errors (ds : list CompilerDiagnostic) : bool := existsb severe ds.

Definition package_error (file code text : string) : CompilerDiagnostic :=
  {| cd_phase := PhaseResolve;
     cd_diagnostic := {| Diagnostics.code := code; severity := SeverityError; message := Text text; Diagnostics.file := file;
                         diagnostic_span := default_span |} |}.

Definition package_phase_codes : list string :=
  ["SYL2001"; "SYL2002"; "SYL2003"; "SYL2004"; "SYL2400"; "SYL2401"; "SYL2402"; "SYL2403"; "SYL2404"].

(** [semantic_phase] of this file. *)
Definition package_phase (code : string) : CompilationPhase :=
  if bool_decide (code ∈ package_phase_codes) then PhaseResolve else PhaseTypeCheck.

Definition compiler_diagnostic_le (a b : CompilerDiagnostic) : bool := diagnostic_le (cd_diagnostic a) (cd_diagnostic b).
Definition sort_diagnostics : list CompilerDiagnostic → list CompilerDiagnostic := stable_sort compiler_diagnostic_le.

Definition failed (ds : list CompilerDiagnostic) : PackageCompilation :=
  {| pk_hir := None; pk_diagnostics := sort_diagnostics ds |}.

(** ** Sources *)

Definition package_source_le (a b : PackageSource) : bool := bool_decide (string_le (ps_file a) (ps_file b)).

(** [windows(2)] *)
Fixpoint duplicate_files (sources : list PackageSource) : list CompilerDiagnostic :=
  match sources with
  | a :: (b :: _) as rest =>
      (if bool_decide (ps_file a = ps_file b) then [package_error (ps_file b) "SYL9002" "package source filename is duplicated"] else []) ++
      duplicate_files rest
  | _ => []
  end.

Section parsing.
Context `{Syntax}.

Fixpoint parse_sources_loop (sources : list PackageSource) (asts : gmap string Ast) (ds : list CompilerDiagnostic)
    : option (gmap string Ast * list CompilerDiagnostic) :=
  match sources with
  | [] => Some (asts, ds)
  | s :: sources =>
      match check_syl (ps_file s) (ps_source s) with
      | None => None
      | Some checked =>
          parse_sources_loop sources
            (match checked_ast checked with Some ast => <[ps_file s := ast]> asts | None => asts end)
            (ds ++ map (phased parser_phase) (checked_diagnostics checked))
      end
  end.

(** The trees, where every source has one, and the diagnostics. *)
Definition parse_sources (sources : list PackageSource) (ds : list CompilerDiagnostic)
    : option (option (gmap string Ast) * list CompilerDiagnostic) :=
  match parse_sources_loop sources ∅ ds with
  | None => None
  | Some (asts, ds) => Some (if bool_decide (size asts = length sources) then Some asts else None, ds)
  end.
End parsing.

(** ** Identities *)

Record IdentityPlan := {
  top_level : gmap (string * string) DefId;
  planned : gmap (string * string) DefId;
  next_by_module : gmap N N
}.

Definition saturating_index (n : N) : N := N.min (n + 1) u32_max.
Definition module_size (m : ResolvedModule) : N := N.min (N.of_nat (size (rm_definitions m))) u32_max.

(** The members of a module, over all its files. *)
Definition module_member_keys (asts : gmap string Ast) (m : ResolvedModule) : list string :=
  flat_map (λ file, match asts !! file with Some ast => flat_map member_keys (ast_items ast) | None => [] end) (rm_files m).

Definition plan_member (m : ResolvedModule) (state : gmap (string * string) DefId * N) (key : string)
    : gmap (string * string) DefId * N :=
  (<[(rm_name m, key) := {| module := rm_id m; index := state.2 |}]> state.1, saturating_index state.2).

Definition plan_module (asts : gmap string Ast) (plan : IdentityPlan) (m : ResolvedModule) : IdentityPlan :=
  let tops := foldl (λ tops '(_, d), <[(rm_name m, md_name d) := {| module := rm_id m; index := qd_index (md_id d) |}]> tops)
                (top_level plan) (entries (rm_definitions m)) in
  let '(members, next) := foldl (plan_member m) (planned plan, module_size m) (module_member_keys asts m) in
  {| top_level := tops; planned := members; next_by_module := <[rm_id m := next]> (next_by_module plan) |}.

Definition plan_identities (modules : list ResolvedModule) (asts : gmap string Ast) : IdentityPlan :=
  foldl (plan_module asts) {| top_level := ∅; planned := ∅; next_by_module := ∅ |} modules.

(** ** Names a source sees *)

Definition find_definition (modules : list ResolvedModule) (id : QualifiedDefId) : option ModuleDefinition :=
  match List.find (λ m, bool_decide (rm_id m = qd_module id)) modules with
  | None => None
  | Some m => snd <$> List.find (λ '(_, d), bool_decide (md_id d = id)) (entries (rm_definitions m))
  end.

Definition rename_member_owner (key owner alias : string) : string :=
  match strip_prefix owner key with Some suffix => alias +:+ suffix | None => key end.

Section names.
Context (modules : list ResolvedModule) (asts : gmap string Ast) (plan : IdentityPlan) (file : string).

Record Names := { nm_globals : id_map; nm_members : id_map; nm_diagnostics : list CompilerDiagnostic }.

(** One import: its name, and the members of its declaration under that name. *)
Definition import_names (names : Names) (i : ResolvedImport) : Names :=
  match find_definition modules (ri_definition i) with
  | None =>
      {| nm_globals := nm_globals names; nm_members := nm_members names;
         nm_diagnostics := nm_diagnostics names ++
           [package_error file "SYL9003" "resolved import target disappeared before HIR linking"] |}
  | Some target =>
      let globals := <[ri_local_name i := {| module := qd_module (ri_definition i); index := qd_index (ri_definition i) |}]>
                       (nm_globals names) in
      let members :=
        match List.find (λ m, bool_decide (rm_id m = qd_module (ri_definition i))) modules with
        | None => nm_members names
        | Some target_module =>
            match asts !! md_file target ≫= λ ast, List.find (λ item, bool_decide (item_name item = md_name target)) (ast_items ast) with
            | None => nm_members names
            | Some item =>
                foldl (λ members key,
                  match planned plan !! (rm_name target_module, key) with
                  | Some id => <[rename_member_owner key (md_name target) (ri_local_name i) := id]> members
                  | None => members
                  end) (nm_members names) (member_keys item)
            end
        end in
      {| nm_globals := globals; nm_members := members; nm_diagnostics := nm_diagnostics names |}
  end.

Definition own_globals (m : ResolvedModule) (module_name : string) : id_map :=
  list_to_map (omap (λ '(name, _), (λ id, (name, id)) <$> top_level plan !! (module_name, name)) (entries (rm_definitions m))).

Definition own_members (module_name : string) : id_map :=
  list_to_map (omap (λ '((owner, key), id), if bool_decide (owner = module_name) then Some (key, id) else None)
                 (map_to_list (planned plan))).

Definition planned_names (m : ResolvedModule) (module_name : string) (ds : list CompilerDiagnostic) : Names :=
  foldl import_names {| nm_globals := own_globals m module_name; nm_members := own_members module_name; nm_diagnostics := ds |}
    ((entries (rm_imports m)).*2).
End names.

(** ** Linking *)

Record Linking := {
  lg_modules : gmap N HirModule;
  lg_entry : option DefId;
  lg_next : gmap N N;
  lg_diagnostics : list CompilerDiagnostic
}.

Definition linking_report (ds : list CompilerDiagnostic) (l : Linking) : Linking :=
  {| lg_modules := lg_modules l; lg_entry := lg_entry l; lg_next := lg_next l; lg_diagnostics := lg_diagnostics l ++ ds |}.

(** A lowered source joins its module. *)
Definition link_lowered (file : string) (id : N) (lowered : HirModule) (candidate : option DefId) (next : N) (l : Linking) : Linking :=
  let before := match lg_modules l !! id with Some m => definitions m | None => [] end in
  let repeated := match candidate, lg_entry l with Some _, Some _ => true | _, _ => false end in
  {| lg_modules := <[id := {| hm_module := id; definitions := before ++ definitions lowered |}]> (lg_modules l);
     lg_entry := match candidate with Some _ => candidate | None => lg_entry l end;
     lg_next := <[id := next]> (lg_next l);
     lg_diagnostics := lg_diagnostics l ++
       (if repeated then [package_error file "SYL3002" "package declares more than one main function"] else []) |}.

Definition link_source (analysis : ModuleAnalysis (Analysis := Analysis)) (asts : gmap string Ast) (plan : IdentityPlan)
    (s : PackageSource) (l : Linking) : option Linking :=
  match asts !! ps_file s with
  | None => None
  | Some ast =>
      match ast_module ast with
      | None => Some l
      | Some declaration =>
          let module_name := path_name (mn_path declaration) in
          match find_module analysis module_name with
          | None => Some (linking_report [package_error (ps_file s) "SYL9003" "analyzed module disappeared before HIR linking"] l)
          | Some m =>
              let names := planned_names (ma_modules analysis) asts plan (ps_file s) m module_name (lg_diagnostics l) in
              let l := {| lg_modules := lg_modules l; lg_entry := lg_entry l; lg_next := lg_next l;
                          lg_diagnostics := nm_diagnostics names |} in
              match ma_source_analyses analysis !! ps_file s with
              | None => Some (linking_report [package_error (ps_file s) "SYL9003" "source analysis disappeared before HIR linking"] l)
              | Some source_analysis =>
                  match lower_module_to_hir ast source_analysis (rm_id m) (nm_globals names) (nm_members names)
                          (default 0 (lg_next l !! rm_id m)) with
                  | None => None
                  | Some (Ok (lowered, candidate, next)) => Some (link_lowered (ps_file s) (rm_id m) lowered candidate next l)
                  | Some (Err errors) =>
                      Some (linking_report (map (λ d, {| cd_phase := PhaseTypeCheck; cd_diagnostic := d |}) errors) l)
                  end
              end
          end
      end
  end.

Fixpoint link_package (analysis : ModuleAnalysis (Analysis := Analysis)) (asts : gmap string Ast) (plan : IdentityPlan)
    (sources : list PackageSource) (l : Linking) : option Linking :=
  match sources with
  | [] => Some l
  | s :: sources =>
      match link_source analysis asts plan s l with
      | None => None
      | Some l => link_package analysis asts plan sources l
      end
  end.

(** ** The package *)

Section package.
Context `{Syntax} (sha256 : string → string).

Definition module_sources (asts : gmap string Ast) : list ModuleSource :=
  map (λ '(file, ast), {| src_file := file; src_ast := ast |}) (entries asts).

(** From the linked sources to the result. *)
Definition finish_package (l : Linking) : option PackageCompilation :=
  let hir := {| schema_version := 1; modules := (id_entries (lg_modules l)).*2; hir_entry := lg_entry l |} in
  let ds := lg_diagnostics l in
  match (if has_errors ds then Some []
         else match analyze_effects hir with
              | None => None
              | Some (Ok _) => Some []
              | Some (Err errors) => Some (map (effect_diagnostic "<package>") errors)
              end) with
  | None => None
  | Some reported =>
      let ds := sort_diagnostics (ds ++ reported) in
      Some {| pk_hir := if has_errors ds then None else Some hir; pk_diagnostics := ds |}
  end.

Definition compile_package (sources : list PackageSource) : option PackageCompilation :=
  let sources := stable_sort package_source_le sources in
  match sources with
  | [] => Some (failed [package_error "<package>" "SYL9001" "package compilation requires at least one source file"])
  | _ =>
      let ds := duplicate_files sources in
      if has_errors ds then Some (failed ds)
      else match parse_sources sources ds with
      | None => None
      | Some (None, ds) => Some (failed ds)
      | Some (Some asts, ds) =>
          match analyze_modules analysis_diagnostics analyze_with_imports sha256 (module_sources asts) with
          | None => None
          | Some analysis =>
              let ds := ds ++ map (phased package_phase) (ma_diagnostics analysis) in
              if has_errors ds then Some (failed ds)
              else
                let plan := plan_identities (ma_modules analysis) asts in
                match link_package analysis asts plan sources
                        {| lg_modules := ∅; lg_entry := None; lg_next := next_by_module plan; lg_diagnostics := ds |} with
                | None => None
                | Some l => finish_package l
                end
          end
      end
  end.
End package.
