(* ===== verification/PackageLink.v ===== *)
(** * Linking a package: the identities of its definitions

    The module analysis gives every declaration an identity; the linked HIR must
    use the same ones.  Lowering leaves the table of globals alone, collection
    without errors sees each name of a module once, and the definitions of the
    linked modules are those of the sources. *)

From stdpp Require Import base gmap strings numbers sorting list.
From S2P Require Import Prelude Text Ir Hir Diagnostics Ast Modules ModulesTheorems ModulesClaims Validate Pest.
From S2P Require Import Parser Semantic SemanticBodies Lower LowerNames LowerTheorems LowerPrograms Effects Compile Package.
From S2P Require Import SemanticPackages.
Open Scope string_scope.
Open Scope list_scope.

(** ** Lowering leaves the globals alone *)

(** The globals stay; what is reported is an error. *)
Definition moves (l l' : Lowerer) : Prop :=
  lw_globals l' = lw_globals l ∧ ∃ k, lw_diagnostics l' = lw_diagnostics l ++ k ∧ Forall (λ d, is_error d = true) k.

#[export] Instance moves_preorder : PreOrder moves.
Proof.
  split; [intros l; split; [done|]; exists []; by rewrite app_nil_r|].
  intros a b c [G1 (k1 & D1 & F1)] [G2 (k2 & D2 & F2)]. split; [congruence|]. exists (k1 ++ k2).
  split; [by rewrite D2, D1, app_assoc|by apply Forall_app].
Qed.

Lemma moves_error l span text : moves l (push_hir_error span text l).
Proof. split; [done|]. exists [hir_error span text]. split; [done|]. by repeat constructor. Qed.

Lemma moves_same l l' : lw_globals l' = lw_globals l → lw_diagnostics l' = lw_diagnostics l → moves l l'.
Proof. intros H1 H2. split; [done|]. exists []. by rewrite app_nil_r. Qed.

(** Chains the steps in the context. *)
Ltac chain := cbn in *; repeat (etrans; [eassumption|]); first [reflexivity|eassumption].

Section frame.
Context (module : N) (symbols : SymbolTable) (types : gmap Span ResolvedType).

(** A step of the lowerer that keeps the table of globals. *)
Definition keeps {A} (step : Lowerer → A * Lowerer) : Prop := ∀ l, moves l (step l).2.

Abbreviation lower_expr := (lower_expression module symbols types).
Abbreviation kept := (λ e, ∀ scope, keeps (lower_expr e scope)).

Lemma map_state_keeps {X Y} (g : X → Lowerer → Y * Lowerer) items :
  Forall (λ x, keeps (g x)) items → keeps (map_state g items).
Proof.
  induction 1 as [|x items Hx _ IH]; intros l; cbn; [done|]. specialize (Hx l).
  destruct (g x l) as [y l1]. specialize (IH l1). destruct (map_state g items l1) as [ys l2]. chain.
Qed.

Lemma allocate_moves l : moves l (allocate module l).2.
Proof. by apply moves_same. Qed.

Lemma resolve_member_keeps name span : keeps (resolve_member name span).
Proof. intros l. unfold resolve_member. destruct (lw_members l !! name); [done|]. destruct (builtin_definition name); [done|apply moves_error]. Qed.

Lemma index_or_panic_keeps m key : keeps (index_or_panic m key).
Proof. intros l. unfold index_or_panic. destruct (m !! key); [done|by apply moves_same]. Qed.

Lemma lower_fields_keeps fields :
  Forall (λ p, ∀ scope, keeps (lower_pattern module p scope)) fields →
  ∀ scope, keeps (lower_fields (lower_pattern module) fields scope).
Proof.
  induction 1 as [|p fields Hp _ IH]; intros scope l; cbn; [done|]. specialize (Hp scope l).
  destruct (lower_pattern module p scope l) as [[h scope1] l1]. specialize (IH scope1 l1).
  destruct (lower_fields _ fields scope1 l1) as [[hs scope2] l2]. chain.
Qed.

Lemma lower_pattern_keeps p : ∀ scope, keeps (lower_pattern module p scope).
Proof.
  revert p. fix IH 1. intros [kind span] scope l.
  destruct kind as [|path|path fields|literal]; cbn [lower_pattern]; [done| | |done].
  - destruct path as [|name [|second path]]; [|by apply moves_same|];
      [pose proof (resolve_member_keeps (join "::" []) span l) as H|
       pose proof (resolve_member_keeps (join "::" (name :: second :: path)) span l) as H]; destruct (resolve_member _ span l); exact H.
  - pose proof (resolve_member_keeps (join "::" path) span l) as H. destruct (resolve_member _ span l) as [id l1].
    assert (keeps (lower_fields (lower_pattern module) fields scope)) as Hf.
    { apply lower_fields_keeps. clear -IH. induction fields as [|f fields IHf]; constructor; [apply IH|apply IHf]. }
    specialize (Hf l1). destruct (lower_fields _ fields scope l1) as [[hs scope2] l2]. chain.
Qed.

Lemma lower_optional_keeps e scope :
  Forall kept (match e with Some e => [e] | None => [] end) → keeps (lower_optional lower_expr e scope).
Proof.
  intros Hf l. destruct e as [e|]; [|done]. apply Forall_inv in Hf. specialize (Hf scope l). cbn.
  by destruct (lower_expr e scope l).
Qed.

Lemma lower_statements_keeps sts :
  Forall (λ s, Forall kept (statement_children s)) sts → ∀ scope, keeps (lower_statements module symbols lower_expr sts scope).
Proof.
  induction 1 as [|[kind sp] sts Hs _ IH]; intros scope l; [done|]. destruct kind as [name ty value|value|value]; cbn in *.
  - apply Forall_inv in Hs. specialize (Hs scope l). destruct (lower_expr value scope l) as [h l1]. pose proof (allocate_moves l1) as Ha. cbn.
    match goal with |- context [lower_statements _ _ _ sts ?sc ?la] => specialize (IH sc la);
      destruct (lower_statements module symbols lower_expr sts sc la) end. chain.
  - assert (Forall kept (match value with Some e => [e] | None => [] end)) as Hv by by destruct value.
    pose proof (lower_optional_keeps value scope Hv l) as H1. destruct (lower_optional lower_expr value scope l) as [h l1].
    specialize (IH scope l1). destruct (lower_statements module symbols lower_expr sts scope l1). chain.
  - apply Forall_inv in Hs. specialize (Hs scope l). destruct (lower_expr value scope l) as [h l1].
    specialize (IH scope l1). destruct (lower_statements module symbols lower_expr sts scope l1). chain.
Qed.

Lemma lower_arm_keeps arm scope : Forall kept (arm_children arm) → keeps (lower_arm module lower_expr arm scope).
Proof.
  destruct arm as [p guard body sp]. unfold arm_children. intros [Hg Hb%Forall_inv]%Forall_app l. cbn.
  pose proof (lower_pattern_keeps p scope l) as H1. destruct (lower_pattern module p scope l) as [[hp scope1] l1].
  pose proof (lower_optional_keeps guard scope1 Hg l1) as H2. destruct (lower_optional lower_expr guard scope1 l1) as [hg l2].
  specialize (Hb scope1 l2). cbn in Hb. destruct (lower_expr body scope1 l2). chain.
Qed.

Lemma lower_kind_keeps e scope : Forall kept (children e) → keeps (lower_kind module symbols lower_expr e scope).
Proof.
  destruct e as [kind span]. intros Hf l.
  destruct kind as [m o|o|lit|p|items|callee args|o n|u o|op x y|value arms|block]; cbn in Hf |- *.
  1,2,8: apply Forall_inv in Hf; specialize (Hf scope l); by destruct (lower_expr o scope l).
  - destruct lit as [|name| | |]; try done. cbn. unfold lower_identifier, resolve_value. case_bool_decide; [done|].
    destruct (scope !! name); [done|]. destruct (lw_globals l !! name); [done|apply moves_error].
  - pose proof (resolve_member_keeps (join "::" p) span l) as H. by destruct (resolve_member _ span l).
  - assert (keeps (map_state (λ x, lower_expr x scope) items)) as H; [|specialize (H l); by destruct (map_state _ items l)].
    apply map_state_keeps. eapply Forall_impl; [exact Hf|]. cbn. auto.
  - apply Forall_cons in Hf as [Hc Hargs]. rewrite Forall_map in Hargs. specialize (Hc scope l).
    destruct (lower_expr callee scope l) as [c l1].
    assert (keeps (map_state (λ x, match x with mkArgument _ value _ => lower_expr value scope end) args)) as H.
    { apply map_state_keeps. eapply Forall_impl; [exact Hargs|]. cbn. intros [an v s] Hv. apply Hv. }
    specialize (H l1). destruct (map_state _ args l1). chain.
  - apply Forall_inv in Hf. specialize (Hf scope l). destruct (lower_expr o scope l) as [h l1].
    match goal with |- context [resolve_member ?k span l1] => pose proof (resolve_member_keeps k span l1) as H end.
    destruct (resolve_member _ span l1). chain.
  - apply Forall_cons in Hf as [Hx Hy%Forall_inv]. specialize (Hx scope l). destruct (lower_expr x scope l) as [hx l1].
    specialize (Hy scope l1). destruct (lower_expr y scope l1). chain.
  - apply Forall_cons in Hf as [Hv Harms%Forall_flat_map_inv]. specialize (Hv scope l). destruct (lower_expr value scope l) as [v l1].
    assert (keeps (map_state (λ arm, lower_arm module lower_expr arm scope) arms)) as H.
    { apply map_state_keeps. eapply Forall_impl; [exact Harms|]. intros arm Ha. by apply lower_arm_keeps. }
    specialize (H l1). destruct (map_state _ arms l1). chain.
  - destruct block as [sts bs]. cbn in *. apply Forall_flat_map_inv in Hf. pose proof (lower_statements_keeps sts Hf scope l) as H.
    by destruct (lower_statements _ _ _ sts scope l).
Qed.

Lemma lower_expression_keeps e : kept e.
Proof.
  induction e as [e IH] using expr_children_ind. intros scope l.
  assert (lower_expr e scope l = (let '(kind, l) := lower_kind module symbols lower_expr e scope l in
    (mkExpr kind (match types !! ex_span e with Some ty => ty | None => fallback_expression_type e scope end)
       (ex_span e), l))) as -> by by destruct e.
  pose proof (lower_kind_keeps e scope IH l) as H. by destruct (lower_kind module symbols lower_expr e scope l).
Qed.

Lemma lower_parameters_keeps ps scope : keeps (lower_parameters module symbols ps scope).
Proof.
  revert scope. induction ps as [|p ps IH]; intros scope l; [done|]. pose proof (allocate_moves l) as Ha. cbn.
  match goal with |- context [lower_parameters _ _ ps ?sc ?la] => specialize (IH sc la);
    destruct (lower_parameters module symbols ps sc la) as [[hs scope1] l1] end. chain.
Qed.

Lemma lower_block_keeps b scope : keeps (lower_block module symbols lower_expr b scope).
Proof.
  intros l. destruct b as [sts span]. cbn.
  assert (Forall (λ s, Forall kept (statement_children s)) sts) as Hf.
  { apply Forall_forall. intros s _. apply Forall_forall. intros e _. apply lower_expression_keeps. }
  pose proof (lower_statements_keeps sts Hf scope l) as H. by destruct (lower_statements _ _ _ sts scope l).
Qed.

Lemma lower_member_keeps owner name ty span : keeps (lower_member symbols owner name ty span).
Proof.
  intros l. unfold lower_member. pose proof (index_or_panic_keeps (lw_members l) (field_key owner name) l) as H.
  by destruct (index_or_panic _ _ l).
Qed.

Lemma lower_variant_keeps owner v : keeps (lower_variant symbols owner v).
Proof.
  intros l. unfold lower_variant. pose proof (index_or_panic_keeps (lw_members l) (variant_key owner (ev_name v)) l) as H.
  by destruct (index_or_panic _ _ l).
Qed.

(** A declaration known to the lowerer keeps its identity. *)
Lemma lower_definition_ids item l id :
  lw_globals l !! item_name item = Some id →
  let '(d, l') := lower_definition module symbols types item l in
  hd_name d = item_name item ∧ hd_id d = id ∧ moves l l'.
Proof.
  intros Hid. unfold lower_definition, index_or_panic. rewrite Hid.
  destruct item as [n|n|n|n|n|n|n]; cbn; try done.
  - assert (keeps (map_state (λ f, lower_member symbols (sn_name n) (sf_name f) (sf_ty f) (sf_span f)) (sn_fields n))) as H.
    { apply map_state_keeps, Forall_forall. intros f _. apply lower_member_keeps. }
    specialize (H l). by destruct (map_state _ _ l).
  - assert (keeps (map_state (lower_variant symbols (en_name n)) (en_variants n))) as H.
    { apply map_state_keeps, Forall_forall. intros f _. apply lower_variant_keeps. }
    specialize (H l). by destruct (map_state _ _ l).
  - unfold lower_function. pose proof (lower_parameters_keeps (fnn_parameters n) ∅ l) as H1.
    destruct (lower_parameters _ _ _ ∅ l) as [[ps scope] l1]. pose proof (lower_block_keeps (fnn_body n) scope l1) as H2.
    destruct (lower_block _ _ _ _ scope l1). cbn in *. split_and!; [done..|chain].
  - assert (keeps (map_state (λ f, lower_member symbols (stn_name n) (stf_name f) (stf_ty f) (stf_span f)) (stn_fields n))) as H.
    { apply map_state_keeps, Forall_forall. intros f _. apply lower_member_keeps. }
    specialize (H l). by destruct (map_state _ _ l).
  - unfold lower_pipeline. pose proof (lower_parameters_keeps (pn_parameters n) ∅ l) as H1.
    destruct (lower_parameters _ _ _ ∅ l) as [[ps scope] l1].
    assert (keeps (lower_optional lower_expr (prop_value <$> property_named (pn_fields n) "result") scope)) as H2.
    { apply lower_optional_keeps, Forall_forall. intros e _. apply lower_expression_keeps. }
    specialize (H2 l1). destruct (lower_optional _ _ scope l1). cbn in *. split_and!; [done..|chain].
Qed.

Definition declares (globals : id_map) (item : Item) (d : HirDefinition) : Prop :=
  hd_name d = item_name item ∧ globals !! item_name item = Some (hd_id d).

Lemma lower_definitions_ids items l ds l' :
  map_state (lower_definition module symbols types) items l = (ds, l') →
  (∀ item, item ∈ items → is_Some (lw_globals l !! item_name item)) →
  moves l l' ∧ Forall2 (declares (lw_globals l)) items ds.
Proof.
  revert l ds l'. induction items as [|item items IH]; intros l ds l'; cbn; [by intros [= <- <-]|].
  intros E Hk. destruct (Hk item) as [id Hid]; [by left|]. pose proof (lower_definition_ids item l id Hid) as H1.
  destruct (lower_definition _ _ _ item l) as [d l1]. destruct H1 as (Hn & Hi & Hm). pose proof (proj1 Hm) as Hg.
  destruct (map_state _ items l1) as [ds1 l2] eqn:E2. injection E as <- <-.
  destruct (IH _ _ _ E2) as [Hg2 Hall]; [rewrite Hg; intros i Hin; apply Hk; by right|].
  rewrite Hg in Hall. split; [by etrans|]. constructor; [|done]. split; [done|]. congruence.
Qed.

Lemma index_globals_known items l :
  (∀ item, item ∈ items → is_Some (lw_globals l !! item_name item)) → index_globals module items l = l.
Proof.
  unfold index_globals. induction items as [|item items IH]; intros Hk; [done|]. cbn. unfold index_global at 2.
  destruct (Hk item) as [id ->]; [by left|]. apply IH. intros i Hi. apply Hk. by right.
Qed.

Lemma index_members_moves items l : moves l (index_members module items l).
Proof.
  unfold index_members. revert l. induction items as [|item items IH]; intros l; [done|]. cbn. etrans; [|apply IH].
  generalize (member_keys item). clear. intros keys. revert l. induction keys as [|k keys IH]; intros l; [done|]. cbn.
  etrans; [|apply IH]. unfold index_member. destruct (lw_members l !! k); [done|by apply moves_same].
Qed.

(** A module lowered under names that cover its declarations. *)
Lemma lower_module_ids ast l answer :
  lower_module module symbols types ast l = Some answer → lw_diagnostics l = [] →
  (∀ item, item ∈ ast_items ast → is_Some (lw_globals l !! item_name item)) →
  match answer with
  | Ok (m, entry, _) =>
      hm_module m = module ∧ Forall2 (declares (lw_globals l)) (ast_items ast) (definitions m) ∧
      entry = (if existsb (λ item, bool_decide (item_name item = "main")) (ast_items ast) then lw_globals l !! "main" else None)
  | Err ds => existsb is_error ds = true
  end.
Proof.
  intros E H0 Hk. unfold lower_module in E. rewrite (index_globals_known _ _ Hk) in E.
  pose proof (index_members_moves (ast_items ast) l) as H1. rewrite <-(proj1 H1) in Hk |- *.
  destruct (map_state _ _ _) as [ds l'] eqn:Ed. destruct (lower_definitions_ids _ _ _ _ Ed Hk) as [H2 Hall].
  assert (lw_diagnostics l' ≠ [] → existsb is_error (lw_diagnostics l') = true) as Herr.
  { destruct H1 as [_ (k1 & D1 & F1)], H2 as [_ (k2 & D2 & F2)]. rewrite D2, D1, H0. cbn. destruct (Forall_app (λ d, is_error d = true) k1 k2) as [_ F].
    specialize (F (conj F1 F2)). destruct (k1 ++ k2) as [|d k]; [done|]. intros _. apply Forall_inv in F. cbn. by rewrite F. }
  unfold index_or_panic in E. rewrite (proj1 H2) in E. destruct (existsb _ (ast_items ast)) eqn:Em.
  - apply existsb_exists in Em as (item & Hin%list_elem_of_In & Hname%bool_decide_eq_true).
    destruct (Hk item Hin) as [id Hid]. rewrite Hname in Hid. rewrite Hid in E |- *.
    destruct (lw_panicked l'); [done|]. destruct (lw_diagnostics l'); injection E as <-; [done|by apply Herr].
  - destruct (lw_panicked l'); [done|]. destruct (lw_diagnostics l'); injection E as <-; [done|by apply Herr].
Qed.
End frame.

(** ** Collection without errors sees each name of a module once *)

Section collected.
Context (ids : gmap string N).

(** The declarations of a source, by module. *)
Definition source_keys (s : ModuleSource) : list (N * string) :=
  match source_module s ≫= λ name, ids !! name with
  | Some id => map (λ item, (id, item_name item)) (ast_items (src_ast s))
  | None => []
  end.

Abbreviation silent c := (existsb is_error (cl_diagnostics c) = false).

Record seen (c : CollectedSources) (keys : list (N * string)) : Prop := {
  sn_once : NoDup keys;
  sn_known : ∀ name id, ids !! name = Some id → is_Some (cl_modules c !! id);
  sn_keys : ∀ id name, (id, name) ∈ keys ↔ ∃ m, cl_modules c !! id = Some m ∧ is_Some (rm_definitions m !! name)
}.

Lemma silent_prefix c c' : cl_diagnostics c `prefix_of` cl_diagnostics c' → silent c' → silent c.
Proof. intros [k ->]. rewrite existsb_app. by intros [? _]%orb_false_iff. Qed.

Lemma md_name_item id index file item : md_name (module_definition id index file item) = item_name item.
Proof. by destruct item. Qed.

Lemma collect_item_seen id name file c item keys :
  is_Some (cl_modules c !! id) → seen c keys → silent (collect_item id name file c item) →
  seen (collect_item id name file c item) (keys ++ [(id, item_name item)]) ∧
  is_Some (cl_modules (collect_item id name file c item) !! id).
Proof.
  intros [m Hm] [H1 H2 H3]. unfold collect_item. rewrite Hm. cbn [mbind option_bind]. rewrite md_name_item.
  case_bool_decide as Hd; cbn.
  { rewrite existsb_app. intros [_ H]%orb_false_iff. done. }
  intros _. assert (∀ j, is_Some (cl_modules c !! j) → is_Some (alter (with_definition
    (module_definition id (default 0%N (cl_next c !! id)) file item)) id (cl_modules c) !! j)) as Halt.
  { intros j Hj. destruct (decide (id = j)) as [<-|Hne]; [by rewrite lookup_alter_eq, Hm|by rewrite lookup_alter_ne]. }
  split; [|by apply Halt]. split; cbn.
  - apply NoDup_app. split_and!; [done| |apply NoDup_singleton].
    intros x Hx ->%list_elem_of_singleton. apply H3 in Hx as (m' & Hm' & Hx). apply Hd. congruence.
  - intros n i Hi. by eapply Halt, H2.
  - intros i n. rewrite elem_of_app, list_elem_of_singleton, H3. split.
    + intros [(m' & Hm' & Hn)|[= -> ->]].
      * destruct (decide (id = i)) as [<-|Hne].
        -- rewrite lookup_alter_eq, Hm. replace m' with m in * by congruence. eexists. split; [done|]. cbn.
           rewrite md_name_item. rewrite lookup_insert_is_Some'. by right.
        -- rewrite lookup_alter_ne by done. by exists m'.
      * rewrite lookup_alter_eq, Hm. eexists. split; [done|]. cbn. rewrite md_name_item, lookup_insert_eq. by eexists.
    + intros (m' & Hm' & Hn). apply lookup_alter_cases in Hm' as [(<- & x & Hx & ->)|[Hne Hm']]; [|left; by exists m'].
      cbn in Hn. rewrite md_name_item, lookup_insert_is_Some' in Hn. destruct Hn as [->|Hn]; [by right|]. left. by exists x.
Qed.

Lemma collect_items_seen id name file items c keys :
  is_Some (cl_modules c !! id) → seen c keys → silent (foldl (collect_item id name file) c items) →
  seen (foldl (collect_item id name file) c items) (keys ++ map (λ item, (id, item_name item)) items).
Proof.
  revert c keys. induction items as [|item items IH]; intros c keys Hid Hs Hd; cbn; [by rewrite app_nil_r|]. cbn in Hd.
  destruct (collect_item_seen id name file c item keys Hid Hs) as [Hs' Hid'].
  { eapply silent_prefix; [apply collect_items_diagnostics|exact Hd]. }
  pose proof (IH _ _ Hid' Hs' Hd) as H. by rewrite <-app_assoc in H.
Qed.

Lemma collect_source_seen c s keys :
  seen c keys → silent (collect_source ids c s) →
  seen (collect_source ids c s) (keys ++ source_keys s) ∧ is_Some (source_module s).
Proof.
  intros Hs. unfold collect_source, source_keys. destruct (source_module s) as [name|]; cbn.
  2: { rewrite existsb_app. intros [_ H]%orb_false_iff. done. }
  intros Hd. split; [|by eexists]. destruct (ids !! name) as [id|] eqn:Hid; [|by rewrite app_nil_r].
  destruct (sn_known _ _ Hs _ _ Hid) as [m Hm]. rewrite Hm in Hd |- *. cbn in Hd |- *.
  match type of Hd with context [foldl _ ?c0 _] => set (c1 := c0) in * end.
  assert (∀ j, cl_modules c1 !! j = (if decide (j = id) then with_files (λ l, l ++ [src_file s]) else (λ m, m)) <$> cl_modules c !! j) as Hc1.
  { intros j. cbn. destruct (decide (j = id)) as [->|Hne]; [by rewrite lookup_alter_eq|].
    rewrite lookup_alter_ne by done. by destruct (cl_modules c !! j). }
  destruct (collect_items_seen id name (src_file s) (ast_items (src_ast s)) c1 keys) as [G1 G2 G3].
  - rewrite Hc1, Hm. by eexists.
  - destruct Hs as [H1 H2 H3]. split; [done| |].
    + intros n i [x Hx]%H2. rewrite Hc1, Hx. by eexists.
    + intros i n. rewrite H3. setoid_rewrite Hc1. split.
      * intros (x & Hx & Hn). rewrite Hx. eexists. split; [done|]. by destruct (decide (i = id)).
      * intros (x & (y & Hy & ->)%fmap_Some & Hn). exists y. split; [done|]. by destruct (decide (i = id)).
  - exact Hd.
  - by split.
Qed.

Lemma collect_sources_seen sources c keys :
  seen c keys → silent (foldl (collect_source ids) c sources) →
  seen (foldl (collect_source ids) c sources) (keys ++ flat_map source_keys sources) ∧
  ∀ s, s ∈ sources → is_Some (source_module s).
Proof.
  assert (∀ l c, cl_diagnostics c `prefix_of` cl_diagnostics (foldl (collect_source ids) c l)) as Hp.
  { clear. induction l as [|s l IH]; intros c; [done|]. etrans; [apply collect_source_diagnostics|apply IH]. }
  revert c keys. induction sources as [|s sources IH]; intros c keys Hs Hd; cbn.
  { rewrite app_nil_r. split; [done|]. by intros s ?%not_elem_of_nil. }
  destruct (collect_source_seen c s keys Hs) as [Hs' Hm]; [eapply silent_prefix; [apply Hp|exact Hd]|].
  destruct (IH _ _ Hs' Hd) as [H1 H2]. rewrite <-app_assoc in H1. split; [done|].
  intros x [->|Hx]%elem_of_cons; [done|by apply H2].
Qed.
End collected.

(** ** The modules of the analysis *)

Definition own_ids (modules : module_map) : Prop := ∀ id m, modules !! id = Some m → rm_id m = id.

Lemma alter_own_ids g i modules : (∀ m, rm_id (g m) = rm_id m) → own_ids modules → own_ids (alter g i modules).
Proof. intros Hg H id m [(<- & x & Hx & ->)|[_ Hm]]%lookup_alter_cases; [rewrite Hg|]; by apply H. Qed.

Lemma foldl_invariant {A B} (P : A → Prop) (step : A → B → A) l a :
  P a → (∀ a b, P a → P (step a b)) → P (foldl step a l).
Proof. intros Ha Hs. revert a Ha. induction l as [|b l IH]; intros a Ha; [done|]. apply IH, Hs, Ha. Qed.

Lemma link_sources_own_ids sources : own_ids (lk_modules (link_sources sources)).
Proof.
  unfold link_sources, resolve_imports. apply (foldl_invariant (λ l, own_ids (lk_modules l))).
  - unfold collect_sources. apply (foldl_invariant (λ c, own_ids (cl_modules c))).
    + intros id m Hm. cbn in Hm. by destruct (empty_modules_empty _ _ _ Hm) as [name ->].
    + intros c s Hc. unfold collect_source. destruct (source_module s) as [name|]; [|done].
      destruct (_ !! name) as [id|]; [|done]. destruct (cl_modules c !! id); [|done]. cbn.
      apply (foldl_invariant (λ c, own_ids (cl_modules c))); [by apply alter_own_ids|].
      intros c1 item H1. unfold collect_item. destruct (bool_decide _); [done|]. by apply alter_own_ids.
  - intros l p Hl. unfold resolve_import. destruct (split_last _) as [[symbol path]|]; [|done].
    destruct (_ !! path_name path) as [t|]; [|done]. destruct (_ ≫= _) as [d|]; [|done]. destruct (negb _); [done|].
    destruct (lk_modules l !! pi_owner p) as [o|]; [|done]. unfold link_import. cbn.
    destruct (_ || _); cbn; repeat (apply alter_own_ids; [done|]); done.
Qed.

Section analysed.
Context (sources : list ModuleSource) (h : ResolvedModule → string).
Hypothesis Hfit : ids_fit sources.
Abbreviation ids := (module_ids sources).
Abbreviation linked := (lk_modules (link_sources sources)).
Abbreviation modules := (module_list ((λ m, with_hash (h m) m) <$> linked)).

Lemma linked_keys :
  existsb is_error (lk_diagnostics (link_sources sources)) = false →
  NoDup (flat_map (source_keys ids) sources) ∧ (∀ s, s ∈ sources → is_Some (source_module s)) ∧
  ∀ id name, (id, name) ∈ flat_map (source_keys ids) sources ↔ ∃ m, linked !! id = Some m ∧ is_Some (rm_definitions m !! name).
Proof using Type.
  intros Hd. destruct (link_sources_ok sources) as (_ & Hg & _).
  assert (existsb is_error (cl_diagnostics (collected sources)) = false) as Hc.
  { destruct (gg_diagnostics _ _ Hg) as [k Hk]. rewrite Hk, existsb_app in Hd. by apply orb_false_iff in Hd as [? _]. }
  unfold collected, collect_sources in Hc. match type of Hc with context [foldl _ ?c0 _] => assert (seen ids c0 []) as H0 end.
  { split; [constructor|..]; cbn.
    - intros name id Hid. destruct (empty_modules_lookup _ _ _ Hid) as [x Hx]. by exists x.
    - intros id name. rewrite elem_of_nil. split; [done|]. intros (m & [n ->]%empty_modules_empty & [x Hx]). done. }
  destruct (collect_sources_seen ids sources _ [] H0 Hc) as [[H1 H2 H3] Hm].
  split_and!; [done|done|]. intros id name. rewrite H3. fold (collect_sources sources ids (empty_modules ids)). split.
    + intros (x & Hx & Hn). destruct (gg_modules _ _ Hg id x Hx) as (m & Hm' & [_ Hdef _ _]). exists m. by rewrite Hdef.
    + intros (m & (x & Hx & Hdef)%linked_definitions & Hn). exists x. by rewrite <-Hdef.
Qed.

Lemma elem_of_modules m : m ∈ modules ↔ ∃ id x, linked !! id = Some x ∧ m = with_hash (h x) x.
Proof.
  unfold module_list. rewrite list_elem_of_fmap. split.
  - intros ([id y] & -> & Hin%elem_of_id_entries). apply lookup_fmap_Some in Hin as (x & <- & Hx). by exists id, x.
  - intros (id & x & Hx & ->). exists (id, with_hash (h x) x). split; [done|]. apply elem_of_id_entries. by rewrite lookup_fmap, Hx.
Qed.

Lemma linked_unique id id' m m' : linked !! id = Some m → linked !! id' = Some m' → rm_name m = rm_name m' → id = id'.
Proof. intros H1%linked_name H2%linked_name E. congruence. Qed.

Lemma modules_names : NoDup (map rm_name modules).
Proof.
  unfold module_list. rewrite map_map. apply NoDup_fmap_2_strong.
  - intros [id m] [id' m'] H1%elem_of_id_entries H2%elem_of_id_entries E.
    apply lookup_fmap_Some in H1 as (x & <- & Hx), H2 as (y & <- & Hy).
    assert (id = id') as <- by by eapply linked_unique. congruence.
  - unfold id_entries. rewrite merge_sort_Permutation. apply NoDup_map_to_list.
Qed.

Lemma linked_filed id m name d : linked !! id = Some m → rm_definitions m !! name = Some d →
  md_name d = name ∧ qd_module (md_id d) = id.
Proof.
  intros (x & Hx & ->)%linked_definitions Hd. unfold ids_fit in Hfit.
  destruct (collect_sources_ok sources ids (empty_modules ids)) as [_ Hfiled _]; [lia|apply empty_modules_empty|].
  by destruct (Hfiled _ _ _ _ Hx Hd) as (? & ? & _).
Qed.
End analysed.

(** ** The names a source sees *)

Definition qualified (id : QualifiedDefId) : DefId := {| Ir.module := qd_module id; index := qd_index id |}.

Section plan.
Context (asts : gmap string Ast).

Lemma planned_tops (m : ResolvedModule) (l : list (string * ModuleDefinition)) (tops : gmap (string * string) DefId) key :
  let tops' := foldl (λ tops '(_, d), <[(rm_name m, md_name d) := {| Ir.module := rm_id m; index := qd_index (md_id d) |}]> tops) tops l in
  (key.1 ≠ rm_name m → tops' !! key = tops !! key) ∧
  (∀ d, (∀ k d, (k, d) ∈ l → md_name d = k) → NoDup l.*1 → key.1 = rm_name m → (key.2, d) ∈ l →
     tops' !! key = Some {| Ir.module := rm_id m; index := qd_index (md_id d) |}).
Proof.
  destruct key as [owner name]. cbn. revert tops. induction l as [|[k d] l IH] using rev_ind; intros tops; cbn.
  { split; [done|]. by intros d _ _ _ ?%not_elem_of_nil. }
  rewrite foldl_app. cbn. destruct (IH tops) as [H1 H2]. split.
  - intros Hne. rewrite lookup_insert_ne by congruence. auto.
  - intros d' Hk Hnd -> Hin. rewrite fmap_app in Hnd. apply NoDup_app in Hnd as (Hnd & Hdis & _).
    apply elem_of_app in Hin as [Hin|[= -> ->]%list_elem_of_singleton].
    + rewrite lookup_insert_ne; [apply H2; [intros; apply Hk; set_solver|done..]|]. intros [= E].
      rewrite (Hk k d) in E by set_solver. subst k. apply (Hdis name); [|set_solver]. apply list_elem_of_fmap. by exists (name, d').
    + rewrite (Hk k d) by set_solver. by rewrite lookup_insert_eq.
Qed.

Lemma plan_module_tops plan m :
  top_level (plan_module asts plan m) =
  foldl (λ tops '(_, d), <[(rm_name m, md_name d) := {| Ir.module := rm_id m; index := qd_index (md_id d) |}]> tops)
    (top_level plan) (entries (rm_definitions m)).
Proof. unfold plan_module. by destruct (foldl (plan_member m) _ _). Qed.

(** The plan has the identity of each declaration of each module. *)
Lemma top_level_planned modules m name d :
  NoDup (map rm_name modules) → (∀ m k d, m ∈ modules → rm_definitions m !! k = Some d → md_name d = k) →
  m ∈ modules → rm_definitions m !! name = Some d →
  top_level (plan_identities modules asts) !! (rm_name m, name) = Some {| Ir.module := rm_id m; index := qd_index (md_id d) |}.
Proof.
  intros Hnd Hfiled Hm Hd. unfold plan_identities. generalize {| top_level := ∅; planned := ∅; next_by_module := ∅ |}. 
  induction modules as [|x modules IH] using rev_ind; intros plan; [by apply not_elem_of_nil in Hm|].
  rewrite map_app in Hnd. apply NoDup_app in Hnd as (Hnd & Hdis & _). rewrite foldl_app. cbn. rewrite plan_module_tops.
  match goal with |- foldl _ ?t _ !! _ = _ =>
    destruct (planned_tops x (entries (rm_definitions x)) t (rm_name m, name)) as [H1 H2] end.
  apply elem_of_app in Hm as [Hm| ->%list_elem_of_singleton].
  - rewrite H1; [apply IH; [done| |done]|].
    + intros m' k d' Hm'. apply Hfiled. set_solver.
    + cbn. intros E. apply (Hdis (rm_name m)); [by apply list_elem_of_fmap_2|]. rewrite E. set_solver.
  - apply H2; [|apply entries_keys_NoDup|done|by apply elem_of_entries].
    intros k d' Hk%elem_of_entries. eapply Hfiled; [|done]. set_solver.
Qed.

Lemma import_names_globals modules plan file names i x :
  ri_local_name i ≠ x → nm_globals (import_names modules asts plan file names i) !! x = nm_globals names !! x.
Proof.
  intros Hne. unfold import_names. destruct (find_definition modules (ri_definition i)); [|done]. cbn.
  by rewrite lookup_insert_ne.
Qed.

(** A source sees the declarations of its module under their identities. *)
Lemma planned_names_own modules plan file m ds name id :
  (∀ k i, rm_imports m !! k = Some i → rm_definitions m !! ri_local_name i = None) →
  is_Some (rm_definitions m !! name) → top_level plan !! (rm_name m, name) = Some id →
  nm_globals (planned_names modules asts plan file m (rm_name m) ds) !! name = Some id.
Proof.
  intros Himp Hname Htop. unfold planned_names.
  assert (∀ i, i ∈ (entries (rm_imports m)).*2 → ri_local_name i ≠ name) as Hfree.
  { intros i ([k i'] & -> & Hi%elem_of_entries)%list_elem_of_fmap E. apply Himp in Hi. cbn in E. rewrite E in Hi.
    destruct Hname as [d Hd]. congruence. }
  assert (own_globals plan m (rm_name m) !! name = Some id) as H0.
  { unfold own_globals. destruct Hname as [d Hd]. apply elem_of_list_to_map_1'.
    - intros y Hy. apply list_elem_of_omap in Hy as ([k d'] & Hk & Hy). destruct (top_level plan !! (rm_name m, k)) eqn:E; [|done].
      cbn in Hy. injection Hy as -> ->. congruence.
    - apply list_elem_of_omap. exists (name, d). split; [by apply elem_of_entries|]. by rewrite Htop. }
  revert Hfree. match goal with |- context [foldl _ ?n0 _] => change (nm_globals n0 !! name = Some id) in H0; revert H0; generalize n0 end.
  induction ((entries (rm_imports m)).*2) as [|i l IH]; intros n0 H0 Hfree; [done|]. cbn. apply IH; [|set_solver].
  rewrite import_names_globals; [done|]. apply Hfree. by left.
Qed.
End plan.

(** ** Linking *)

Definition hir_definitions (modules : gmap N HirModule) : list HirDefinition :=
  flat_map definitions (map_to_list modules).*2.

Lemma hir_definitions_insert (T : gmap N HirModule) i ds :
  hir_definitions (<[i := {| hm_module := i; definitions := match T !! i with Some m => definitions m | None => [] end ++ ds |}]> T) ≡ₚ
  hir_definitions T ++ ds.
Proof.
  unfold hir_definitions. destruct (T !! i) as [m|] eqn:E; cbn.
  - rewrite <-(insert_delete_eq T), map_to_list_insert by apply lookup_delete_eq.
    rewrite <-(map_to_list_delete T i m E). cbn. rewrite <-!app_assoc. apply Permutation_app_head, Permutation_app_comm.
  - rewrite map_to_list_insert by done. cbn. apply Permutation_app_comm.
Qed.

Lemma has_errors_app a b : has_errors (a ++ b) = has_errors a || has_errors b.
Proof. apply existsb_app. Qed.

Lemma has_errors_phased phase ds : has_errors (map (phased phase) ds) = existsb is_error ds.
Proof. induction ds as [|d ds IH]; [done|]. exact (f_equal (orb (is_error d)) IH). Qed.

Lemma planned_names_diagnostics modules asts plan file m name ds :
  has_errors ds = true → has_errors (nm_diagnostics (planned_names modules asts plan file m name ds)) = true.
Proof.
  intros H. unfold planned_names. apply (foldl_invariant (λ n, has_errors (nm_diagnostics n) = true)); [done|].
  intros n i Hn. unfold import_names. destruct (find_definition _ _); cbn; [done|]. by rewrite has_errors_app, Hn.
Qed.

(** Errors are never dropped. *)
Lemma link_source_errors analysis asts plan s l l' :
  link_source analysis asts plan s l = Some l' → has_errors (lg_diagnostics l) = true → has_errors (lg_diagnostics l') = true.
Proof.
  unfold link_source. destruct (asts !! ps_file s) as [ast|]; [|done].
  destruct (ast_module ast) as [decl|]; [|by intros [= <-]].
  destruct (find_module _ _) as [m|]; [|intros [= <-] H; cbn; by rewrite has_errors_app, H].
  intros E H. pose proof (planned_names_diagnostics (ma_modules analysis) asts plan (ps_file s) m
    (path_name (mn_path decl)) (lg_diagnostics l) H) as Hn.
  destruct (ma_source_analyses analysis !! ps_file s) as [a|]; [|injection E as <-; cbn; by rewrite has_errors_app, Hn].
  destruct (lower_module_to_hir _ _ _ _ _ _) as [[[[lowered candidate] next]|errors]|]; [| |done];
    injection E as <-; cbn; by rewrite has_errors_app, Hn.
Qed.

Section linking.
Context (sources : list ModuleSource) (h : ResolvedModule → string) (asts : gmap string Ast).
Context (analysis : ModuleAnalysis (Analysis := Analysis)).
Abbreviation ids := (module_ids sources).
Abbreviation linked := (lk_modules (link_sources sources)).
Hypothesis Hfit : ids_fit sources.
Hypothesis Hsilent : existsb is_error (lk_diagnostics (link_sources sources)) = false.
Hypothesis Hmodules : ma_modules analysis = module_list ((λ m, with_hash (h m) m) <$> linked).
Hypothesis Hsources : ∀ file ast, asts !! file = Some ast → {| src_file := file; src_ast := ast |} ∈ sources.
Abbreviation plan := (plan_identities (ma_modules analysis) asts).

(** A definition of the HIR stands for a declaration the analysis knows. *)
Definition named (key : N * string) (d : HirDefinition) : Prop :=
  hd_name d = key.2 ∧ ∃ m md, linked !! key.1 = Some m ∧ rm_definitions m !! key.2 = Some md ∧ hd_id d = qualified (md_id md).

Definition package_keys (s : PackageSource) : list (N * string) :=
  match asts !! ps_file s with Some ast => source_keys ids {| src_file := ps_file s; src_ast := ast |} | None => [] end.

Record linking_ok (l : Linking) (keys : list (N * string)) (ds : list HirDefinition) : Prop := {
  lk_defined : hir_definitions (lg_modules l) ≡ₚ ds;
  lk_named : Forall2 named keys ds;
  lk_main : ∀ id, lg_entry l = Some id ↔ ∃ d, d ∈ ds ∧ hd_name d = "main" ∧ hd_id d = id;
  lk_placed : ∀ i m, lg_modules l !! i = Some m → hm_module m = i ∧ Forall (λ d, Ir.module (hd_id d) = i) (definitions m)
}.

(** The names a source is lowered under. *)
Lemma source_globals file m ds id x name md :
  linked !! id = Some x → m = with_hash (h x) x → rm_definitions x !! name = Some md →
  nm_globals (planned_names (ma_modules analysis) asts plan file m (rm_name m) ds) !! name = Some (qualified (md_id md)).
Proof.
  intros Hx -> Hmd. apply planned_names_own; cbn.
  - intros k i Hi. destruct (link_sources_ok sources) as ([Himp _ _] & _).
    destruct (Himp _ _ _ _ Hx Hi) as (p & _ & _ & path & symbol & tid & tm & d & _ & _ & _ & _ & _ & _ & -> & -> & Hfree). done.
  - by eexists.
  - change (rm_name x) with (rm_name (with_hash (h x) x)). rewrite (top_level_planned asts _ (with_hash (h x) x) name md).
    + cbn. rewrite (link_sources_own_ids sources _ _ Hx). destruct (linked_filed sources Hfit _ _ _ _ Hx Hmd) as [_ Hq].
      unfold qualified. by rewrite Hq.
    + rewrite Hmodules. apply modules_names.
    + intros m k d Hm Hd. rewrite Hmodules in Hm. apply elem_of_modules in Hm as (i & y & Hy & ->). cbn in Hd.
      by destruct (linked_filed sources Hfit _ _ _ _ Hy Hd).
    + rewrite Hmodules. apply elem_of_modules. by exists id, x.
    + done.
Qed.

(** What a source adds to a linking without errors. *)
Lemma link_source_inv s l l' :
  link_source analysis asts plan s l = Some l' → has_errors (lg_diagnostics l') = false →
  ∃ id ds entry, Forall2 named (package_keys s) ds ∧
    lg_modules l' = <[id := {| hm_module := id; definitions :=
      match lg_modules l !! id with Some m => definitions m | None => [] end ++ ds |}]> (lg_modules l) ∧
    Forall (λ d, Ir.module (hd_id d) = id) ds ∧
    lg_entry l' = match entry with Some _ => entry | None => lg_entry l end ∧
    (is_Some entry → lg_entry l = None) ∧
    ∀ i, entry = Some i ↔ ∃ d, d ∈ ds ∧ hd_name d = "main" ∧ hd_id d = i.
Proof.
  unfold link_source, package_keys, source_keys. destruct (asts !! ps_file s) as [ast|] eqn:Ea; [|done].
  destruct (linked_keys sources Hsilent) as (_ & Hdeclared & Hkeys).
  set (src := {| src_file := ps_file s; src_ast := ast |}). pose proof (Hsources _ _ Ea) as Hsrc. fold src in Hsrc.
  destruct (Hdeclared _ Hsrc) as [name Hname]. rewrite Hname. cbn [mbind option_bind].
  assert (∃ decl, ast_module ast = Some decl ∧ name = path_name (mn_path decl)) as (decl & -> & ->).
  { unfold source_module in Hname. cbn in Hname. destruct (ast_module ast) as [decl|]; [|done]. injection Hname as <-. eauto. }
  destruct (find_module analysis (path_name (mn_path decl))) as [m|] eqn:Em.
  2: { intros [= <-]. cbn. rewrite has_errors_app. by intros [_ ?]%orb_false_iff. }
  apply find_some in Em as [Hin%list_elem_of_In Hmn%bool_decide_eq_true]. rewrite Hmodules in Hin.
  apply elem_of_modules in Hin as (id & x & Hx & Hm). rewrite <-Hmn.
  assert (ids !! rm_name m = Some id) as Hid by (rewrite Hm; exact (linked_name sources id x Hx)). rewrite Hid.
  assert (rm_id m = id) as -> by (rewrite Hm; exact (link_sources_own_ids sources id x Hx)).
  match goal with |- context [planned_names ?a ?b ?c ?d ?e ?f ?g] => set (names := planned_names a b c d e f g) end.
  destruct (ma_source_analyses analysis !! ps_file s) as [a|].
  2: { intros [= <-]. cbn. rewrite has_errors_app. by intros [_ ?]%orb_false_iff. }
  assert (∀ n md, rm_definitions x !! n = Some md → nm_globals names !! n = Some (qualified (md_id md))) as Hglobals.
  { intros n md Hmd. by eapply source_globals. }
  assert (∀ item, item ∈ ast_items ast → ∃ md, rm_definitions x !! item_name item = Some md) as Hitems.
  { intros item Hitem. assert ((id, item_name item) ∈ flat_map (source_keys ids) sources) as Hk.
    { apply elem_of_flat_map. exists src. split; [done|]. unfold source_keys. rewrite Hname. cbn [mbind option_bind].
      rewrite <-Hmn, Hid. apply list_elem_of_fmap. by exists item. }
    apply Hkeys in Hk as (x' & Hx' & [md Hmd]). exists md. congruence. }
  destruct (lower_module_to_hir _ _ _ _ _ _) as [answer|] eqn:El; [|done].
  unfold lower_module_to_hir in El. apply lower_module_ids in El; [|done|].
  2: { intros item [md Hmd]%Hitems. cbn. rewrite (Hglobals _ _ Hmd). by eexists. }
  destruct answer as [[[lowered candidate] next]|errors].
  2: { intros [= <-]. cbn. rewrite has_errors_app. intros [_ H]%orb_false_iff.
       replace (map _ errors) with (map (phased (λ _, PhaseTypeCheck)) errors) in H by done.
       rewrite has_errors_phased in H. congruence. }
  destruct El as (Hmod & Hall & Hentry). cbn in Hall, Hentry.
  intros [= <-]. unfold link_lowered. cbn. rewrite has_errors_app. intros [_ Hrep]%orb_false_iff.
  exists id, (definitions lowered), candidate. split_and!; try done.
  - clear -Hall Hx Hitems Hglobals. induction Hall as [|item d items ds [Hn Hg] _ IH]; cbn; constructor.
    + split; [done|]. destruct (Hitems item) as [md Hmd]; [by left|]. exists x, md. cbn.
      split_and!; [done..|]. rewrite (Hglobals _ _ Hmd) in Hg. congruence.
    + apply IH. intros i Hi. apply Hitems. by right.
  - clear -Hall Hx Hitems Hglobals Hfit. induction Hall as [|item d items ds [Hn Hg] _ IH]; constructor.
    + destruct (Hitems item) as [md Hmd]; [by left|]. rewrite (Hglobals _ _ Hmd) in Hg. injection Hg as <-. cbn.
      by destruct (linked_filed sources Hfit _ _ _ _ Hx Hmd).
    + apply IH. intros i Hi. apply Hitems. by right.
  - intros [i ->]. by destruct (lg_entry l).
  - intros i. rewrite Hentry. destruct (existsb _ (ast_items ast)) eqn:Eb.
    + apply existsb_exists in Eb as (item & Hin%list_elem_of_In & Hmain%bool_decide_eq_true). split.
      * intros Hi. apply (Forall2_elem_l _ _ _ _ Hall) in Hin as (d & Hd & Hn & Hg). exists d. split_and!; [done|congruence..].
      * intros (d & Hd & Hn & <-). apply (Forall2_elem_r _ _ _ _ Hall) in Hd as (item' & _ & Hn' & Hg). congruence.
    + split; [done|]. intros (d & Hd & Hn & _). apply (Forall2_elem_r _ _ _ _ Hall) in Hd as (item & Hin & Hn' & _).
      assert (existsb (λ item, bool_decide (item_name item = "main")) (ast_items ast) = true); [|congruence].
      apply existsb_exists. exists item. split; [by apply list_elem_of_In|]. apply bool_decide_eq_true. congruence.
Qed.

Lemma link_source_ok s l l' keys ds :
  link_source analysis asts plan s l = Some l' → has_errors (lg_diagnostics l') = false → linking_ok l keys ds →
  ∃ new, linking_ok l' (keys ++ package_keys s) (ds ++ new).
Proof.
  intros E Hd [H1 H2 H3 H4]. destruct (link_source_inv _ _ _ E Hd) as (id & new & entry & Hn & Hm & Hplaced & He & Hfresh & Hmain).
  exists new. split.
  - by rewrite Hm, hir_definitions_insert, H1.
  - by apply Forall2_app.
  - intros i. rewrite He. setoid_rewrite elem_of_app. destruct entry as [j|].
    + rewrite Hmain. split; [naive_solver|]. intros (d & [Hin|Hin] & Hname & <-); [|eauto].
      assert (lg_entry l = Some (hd_id d)) as Hl by (apply H3; eauto). rewrite Hfresh in Hl by by eexists. done.
    + rewrite H3. split; [naive_solver|]. intros (d & [Hin|Hin] & Hname & <-); [eauto|].
      assert (None = Some (hd_id d)) as Hl by (apply Hmain; eauto). done.
  - rewrite Hm. intros i m [[<- <-]|[_ Hi]]%lookup_insert_Some; [|by apply H4]. cbn. split; [done|].
    apply Forall_app. split; [|done]. destruct (lg_modules l !! id) as [m|] eqn:Eo; [by apply H4|done].
Qed.

Lemma link_package_errors l0 l l' :
  link_package analysis asts plan l0 l = Some l' → has_errors (lg_diagnostics l) = true → has_errors (lg_diagnostics l') = true.
Proof.
  revert l. induction l0 as [|s l0 IH]; intros l; cbn; [by intros [= <-]|].
  destruct (link_source _ _ _ s l) as [l1|] eqn:E; [|done]. intros E2 H. eapply IH; [done|]. by eapply link_source_errors.
Qed.

Lemma link_package_ok l0 l l' keys ds :
  link_package analysis asts plan l0 l = Some l' → has_errors (lg_diagnostics l') = false → linking_ok l keys ds →
  ∃ ds', linking_ok l' (keys ++ flat_map package_keys l0) ds'.
Proof.
  revert l keys ds. induction l0 as [|s l0 IH]; intros l keys ds; cbn.
  { intros [= <-] _ H. rewrite app_nil_r. eauto. }
  destruct (link_source _ _ _ s l) as [l1|] eqn:E; [|done]. intros E2 Hd H.
  assert (has_errors (lg_diagnostics l1) = false) as Hd1.
  { destruct (has_errors (lg_diagnostics l1)) eqn:Eh; [|done]. by rewrite (link_package_errors _ _ _ E2 Eh) in Hd. }
  destruct (link_source_ok _ _ _ _ _ E Hd1 H) as [new Hnew]. destruct (IH _ _ _ E2 Hd Hnew) as [ds' H'].
  rewrite <-app_assoc in H'. eauto.
Qed.

(** One declaration each, so one identity each. *)
Lemma named_distinct keys ds : NoDup keys → Forall2 named keys ds → NoDup (map hd_id ds).
Proof.
  intros Hnd Hall. induction Hall as [|k d keys ds (Hn & m & md & Hm & Hmd & Hid) Hall IH]; [constructor|].
  apply NoDup_cons in Hnd as [Hk Hnd]. cbn. constructor; [|by apply IH].
  intros (d' & Heq & Hd')%list_elem_of_fmap. apply Hk.
  destruct (Forall2_elem_r _ _ _ _ Hall Hd') as (k' & Hk' & Hn' & m' & md' & Hm' & Hmd' & Hid').
  assert (md_id md = md_id md') as E.
  { rewrite Hid, Hid' in Heq. unfold qualified in Heq. injection Heq as H1 H2. destruct (md_id md), (md_id md'). cbn in *. congruence. }
  destruct (definition_ids_unique sources _ _ _ _ _ _ _ _ Hfit Hm Hmd Hm' Hmd' E) as [E1 E2].
  destruct k, k'. cbn in *. congruence.
Qed.
End linking.
