(* ===== verification/PackageClaims.v ===== *)
(** * What the package compiler reports (crates/syllog-compiler/src/package.rs) *)

From stdpp Require Import base gmap strings numbers sorting list.
From S2P Require Import Prelude Text Ir Hir Diagnostics Ast Modules ModulesTheorems ModulesClaims Validate.
From S2P Require Import Pest Parser ParserPratt Unparse ParserRoundTrip Semantic SemanticBodies Lower LowerPrograms Effects.
From S2P Require Import Compile ModuleCycles Package PackageLink.
Open Scope string_scope.
Open Scope list_scope.

(** ** The order of the sources *)

Lemma package_source_le_total x y : package_source_le x y = false → package_source_le y x = true.
Proof.
  unfold package_source_le. rewrite bool_decide_eq_false, bool_decide_eq_true. intros H.
  by destruct (total string_le (ps_file x) (ps_file y)).
Qed.

Lemma package_source_le_trans x y z :
  package_source_le x y = true → package_source_le y z = true → package_source_le x z = true.
Proof. unfold package_source_le. rewrite !bool_decide_eq_true. intros. by etrans. Qed.

Lemma sorted_files l : StronglySorted string_le (map ps_file (stable_sort package_source_le l)).
Proof.
  pose proof (stable_sort_sorted package_source_le package_source_le_total package_source_le_trans l) as H.
  induction H as [|x k _ IH Hx]; cbn; constructor; [done|]. apply Forall_map. eapply Forall_impl; [exact Hx|].
  intros y Hy. apply Is_true_true in Hy. by apply bool_decide_eq_true in Hy.
Qed.

Lemma sorted_files_unique l k : l ≡ₚ k → map ps_file (stable_sort package_source_le l) = map ps_file (stable_sort package_source_le k).
Proof.
  intros Hp. apply (StronglySorted_unique string_le); [apply sorted_files..|].
  apply Permutation_map. by rewrite !stable_sort_perm.
Qed.

Lemma duplicate_files_cons a b l :
  duplicate_files (a :: b :: l) =
  (if bool_decide (ps_file a = ps_file b) then [package_error (ps_file b) "SYL9002" "package source filename is duplicated"] else []) ++
  duplicate_files (b :: l).
Proof. done. Qed.

(** Duplicates are reported by name. *)
Lemma duplicate_files_names l k : map ps_file l = map ps_file k → duplicate_files l = duplicate_files k.
Proof.
  revert k. induction l as [|a [|b l] IH]; intros [|a' [|b' k]]; try done. intros [= Ea Eb E]. rewrite !duplicate_files_cons, Ea, Eb. f_equal. apply (IH (b' :: k)). cbn. congruence.
Qed.

Lemma duplicate_files_distinct l :
  StronglySorted string_le (map ps_file l) → has_errors (duplicate_files l) = false → NoDup (map ps_file l).
Proof.
  induction l as [|a [|b l] IH]; intros Hs Hd; [constructor|cbn; repeat constructor; set_solver|].
  cbn [map] in Hs |- *. apply StronglySorted_inv in Hs as [Hs Ha]. rewrite duplicate_files_cons in Hd.
  case_bool_decide as Hab; [done|]. cbn [app] in Hd. constructor; [|by apply IH].
  rewrite elem_of_cons. intros [?|Hin]; [done|]. apply Forall_cons in Ha as [Hab' _].
  apply StronglySorted_inv in Hs as [_ Hb]. rewrite Forall_forall in Hb. apply Hab. by apply (anti_symm string_le), Hb.
Qed.

Section package.
Context `{SyntaxLaws} (sha256 : string → string).

(** Two orders of the same sources sort alike, or share a file name. *)
Lemma sorted_sources_unique l k :
  l ≡ₚ k → has_errors (duplicate_files (stable_sort package_source_le l)) = false →
  stable_sort package_source_le l = stable_sort package_source_le k.
Proof.
  intros Hp Hd. apply stable_sort_unique; [apply package_source_le_total|apply package_source_le_trans|done|].
  apply duplicate_files_distinct in Hd; [|apply sorted_files]. rewrite stable_sort_perm in Hd.
  intros x y Hx Hy H1 H2. apply bool_decide_eq_true in H1, H2. eapply (NoDup_map_eq ps_file); [exact Hd|done..|].
  by apply (anti_symm string_le).
Qed.

(** ** Sources *)

Lemma check_syl_errors file source answer :
  check_syl file source = Some answer → checked_ast answer = None → existsb is_error (checked_diagnostics answer) = true.
Proof.
  unfold check_syl. destruct (syl_parser source) as [pairs|e]; [|by intros [= <-]].
  destruct (result_bind _ _) as [ast|[chain| |]]; by intros [= <-].
Qed.

Definition parses (s : PackageSource) (ast : Ast) : Prop :=
  ∃ p, syl_parser (ps_source s) = Ok [p] ∧ lower_program p = Ok ast ∧ existsb is_error (validate (ps_file s) ast) = false.

Lemma parse_sources_loop_ok sources asts ds :
  ∃ asts' k, parse_sources_loop sources asts ds = Some (asts', ds ++ k) ∧
    (has_errors k = false → NoDup (map ps_file sources) → (∀ s, s ∈ sources → asts !! ps_file s = None) →
     size asts' = (size asts + length sources)%nat ∧
     (∀ s, s ∈ sources → ∃ ast, asts' !! ps_file s = Some ast ∧ parses s ast) ∧
     (∀ file ast, asts !! file = Some ast → asts' !! file = Some ast) ∧
     (∀ file, is_Some (asts' !! file) → is_Some (asts !! file) ∨ ∃ s, s ∈ sources ∧ ps_file s = file)).
Proof.
  revert asts ds. induction sources as [|s sources IH]; intros asts ds; cbn.
  { exists asts, []. rewrite app_nil_r. split; [done|]. intros _ _ _.
    split_and!; [lia|by intros s ?%not_elem_of_nil|done|by left]. }
  destruct (check_syl_total (ps_file s) (ps_source s)) as [answer E]. rewrite E.
  match goal with |- context [parse_sources_loop sources ?a ?b] => destruct (IH a b) as (asts' & k & -> & Hk) end.
  exists asts', (map (phased parser_phase) (checked_diagnostics answer) ++ k). split; [by rewrite app_assoc|].
  rewrite has_errors_app, has_errors_phased. intros [Hd Hk0]%orb_false_iff [Hs Hnd]%NoDup_cons Hfresh.
  destruct (checked_ast answer) as [ast|] eqn:Ea.
  2: { by rewrite (check_syl_errors _ _ _ E Ea) in Hd. }
  apply check_syl_inv in E. rewrite Ea in E. destruct E as (p & Ep & El & Ev). rewrite Ev in Hd.
  destruct Hk as (Hsize & Hall & Hkeep & Hdom); [done|done| |].
  { intros x Hx. rewrite lookup_insert_ne; [apply Hfresh; by right|]. intros E. apply Hs. rewrite E. by apply list_elem_of_fmap_2. }
  rewrite map_size_insert_None in Hsize by (apply Hfresh; by left). split_and!; [lia|..].
  - intros x [->|Hx]%elem_of_cons; [|by apply Hall]. exists ast. split; [apply Hkeep, lookup_insert_eq|by exists p].
  - intros file x Hx. apply Hkeep. rewrite lookup_insert_ne; [done|]. intros <-. rewrite Hfresh in Hx by by left. done.
  - intros file [Hx|(x & Hx & Hf)]%Hdom; [|right; exists x; set_solver].
    rewrite lookup_insert_is_Some' in Hx. destruct Hx as [<-|Hx]; [right; exists s; set_solver|by left].
Qed.

(** The trees of a package without errors are those of its sources. *)
Record parsed (sources : list PackageSource) (asts : gmap string Ast) : Prop := {
  pd_all : ∀ s, s ∈ sources → ∃ ast, asts !! ps_file s = Some ast ∧ parses s ast;
  pd_only : ∀ file, is_Some (asts !! file) → ∃ s, s ∈ sources ∧ ps_file s = file
}.

Lemma parse_sources_cases sources ds :
  NoDup (map ps_file sources) →
  ∃ asts k, parse_sources sources ds = Some (asts, ds ++ k) ∧
    (has_errors k = true ∨ ∃ trees, asts = Some trees ∧ parsed sources trees ∧ has_errors k = false).
Proof.
  intros Hnd. unfold parse_sources. destruct (parse_sources_loop_ok sources ∅ ds) as (asts & k & -> & Hk).
  eexists _, k. split; [done|]. destruct (has_errors k); [by left|right].
  destruct Hk as (Hsize & Hall & _ & Hdom); [done|done|by intros|]. exists asts. split_and!; [|split|done].
  - rewrite bool_decide_eq_true_2; [done|]. rewrite Hsize, map_size_empty. lia.
  - done.
  - intros file [[x Hx]|?]%Hdom; [by rewrite lookup_empty in Hx|done].
Qed.

(** ** Identities *)

Lemma module_sources_elem asts src : src ∈ module_sources asts ↔ asts !! src_file src = Some (src_ast src).
Proof.
  unfold module_sources. rewrite list_elem_of_fmap. split.
  - intros ([file ast] & -> & Hin%elem_of_entries). done.
  - intros Hin%elem_of_entries. exists (src_file src, src_ast src). split; [by destruct src|done].
Qed.

Definition package_module (asts : gmap string Ast) (s : PackageSource) : option ModuleSource :=
  (λ ast, {| src_file := ps_file s; src_ast := ast |}) <$> asts !! ps_file s.

Lemma package_modules sources asts :
  NoDup (map ps_file sources) → parsed sources asts → omap (package_module asts) sources ≡ₚ module_sources asts.
Proof.
  intros Hnd [Hall Honly]. apply NoDup_Permutation.
  - apply (NoDup_fmap_1 src_file). replace (src_file <$> omap (package_module asts) sources) with (map ps_file sources); [done|].
    clear Hnd Honly. induction sources as [|s sources IH]; csimpl; [done|]. destruct (Hall s) as (ast & Ha & _); [by left|].
    unfold package_module at 1. rewrite Ha. cbn. f_equal. apply IH. intros x Hx. apply Hall. by right.
  - apply (NoDup_fmap_1 src_file). replace (src_file <$> module_sources asts) with (entries asts).*1; [apply entries_keys_NoDup|].
    unfold module_sources. induction (entries asts) as [|[] k IH]; [done|]. exact (f_equal (cons _) IH).
  - intros src. rewrite module_sources_elem, list_elem_of_omap. split.
    + intros (s & Hs & Hm). unfold package_module in Hm. destruct (asts !! ps_file s) eqn:E; [|done]. by injection Hm as <-.
    + intros Hin. destruct (Honly (src_file src)) as (s & Hs & Hf); [by eexists|]. exists s. split; [done|].
      unfold package_module. rewrite Hf, Hin. by destruct src.
Qed.

Lemma flat_map_omap {A B C} (g : A → option B) (k : B → list C) l :
  flat_map k (omap g l) = flat_map (λ x, match g x with Some y => k y | None => [] end) l.
Proof. induction l as [|x l IH]; csimpl; [done|]. destruct (g x); csimpl; by rewrite IH. Qed.

Lemma ids_fit_perm l k : l ≡ₚ k → ids_fit l → ids_fit k.
Proof. intros Hp. unfold ids_fit, item_count. by rewrite Hp. Qed.

(** The definitions of the linked program are the declarations of the modules,
    under the identities the module analysis gave them. *)
Record identities (analysis : ModuleAnalysis (Analysis := Analysis)) (hir : HirProgram) : Prop := {
  id_distinct : NoDup (map hd_id (flat_map definitions (modules hir)));
  id_placed : ∀ m d, m ∈ modules hir → d ∈ definitions m → Ir.module (hd_id d) = hm_module m;
  id_agree : ∀ id name, (∃ d, d ∈ flat_map definitions (modules hir) ∧ hd_id d = id ∧ hd_name d = name) ↔
    ∃ m md, m ∈ ma_modules analysis ∧ rm_definitions m !! name = Some md ∧ qualified (md_id md) = id;
  id_entry : ∀ id, hir_entry hir = Some id ↔
    ∃ d, d ∈ flat_map definitions (modules hir) ∧ hd_name d = "main" ∧ hd_id d = id
}.

Lemma link_package_identities sources asts analysis l0 l :
  NoDup (map ps_file sources) → parsed sources asts → ids_fit (module_sources asts) →
  analyze_modules analysis_diagnostics analyze_with_imports sha256 (module_sources asts) = Some analysis →
  existsb is_error (ma_diagnostics analysis) = false →
  lg_modules l0 = ∅ → lg_entry l0 = None →
  link_package analysis asts (plan_identities (ma_modules analysis) asts) sources l0 = Some l →
  has_errors (lg_diagnostics l) = false →
  identities analysis {| schema_version := 1; modules := (id_entries (lg_modules l)).*2; hir_entry := lg_entry l |}.
Proof.
  intros Hnd Hparsed Hfit Ha Hd Hm0 He0 Hlink Hl. unfold analyze_modules in Ha.
  set (S := stable_sort source_le (module_sources asts)) in *.
  assert (S ≡ₚ module_sources asts) as HS by apply stable_sort_perm.
  destruct (find_cycle (lk_modules (link_sources S))) as [found|]; [|done].
  apply (inj Some) in Ha. assert (ids_fit S) as HfitS by (eapply ids_fit_perm; [symmetry; exact HS|done]).
  assert (ma_modules analysis = module_list ((λ m, with_hash (interface_hash sha256 m S) m) <$> lk_modules (link_sources S))) as Hmods
    by by rewrite <-Ha.
  assert (existsb is_error (lk_diagnostics (link_sources S)) = false) as Hsilent.
  { rewrite <-Ha in Hd. cbn in Hd. apply not_true_iff_false. intros (d & Hin & He)%existsb_exists.
    apply not_true_iff_false in Hd. apply Hd. apply existsb_exists. exists d. split; [|done].
    apply list_elem_of_In. rewrite stable_sort_perm, elem_of_app. left. by apply list_elem_of_In. }
  clear Ha. assert (∀ file ast, asts !! file = Some ast → {| src_file := file; src_ast := ast |} ∈ S) as Hsrc.
  { intros file ast E. rewrite HS. by apply module_sources_elem. }
  destruct (link_package_ok S (λ m, interface_hash sha256 m S) asts analysis HfitS Hsilent Hmods Hsrc sources l0 l [] []) as [ds Hok];
    [done|done| |].
  { split; [by rewrite Hm0|constructor| |].
    - intros id. rewrite He0. split; [done|]. by intros (d & ?%not_elem_of_nil & _).
    - intros i m. by rewrite Hm0, lookup_empty. }
  destruct Hok as [Hdef Hnamed Hmain Hplaced]. cbn in Hnamed.
  assert (flat_map (package_keys S asts) sources ≡ₚ flat_map (source_keys (module_ids S)) S) as Hkeys.
  { transitivity (flat_map (source_keys (module_ids S)) (omap (package_module asts) sources)).
    - rewrite flat_map_omap. match goal with |- ?a ≡ₚ ?b => enough (a = b) as -> by done end. apply flat_map_ext. intros s. unfold package_keys, package_module.
      by destruct (asts !! ps_file s).
    - apply Permutation_flat_map. etrans; [by apply package_modules|done]. }
  destruct (linked_keys S Hsilent) as (Hnodup & _ & Helem).
  assert (flat_map definitions (id_entries (lg_modules l)).*2 ≡ₚ ds) as Hds.
  { rewrite <-Hdef. unfold hir_definitions, id_entries. by rewrite merge_sort_Permutation. }
  split; cbn [modules hir_entry].
  - rewrite Hds. eapply named_distinct; [exact HfitS| |exact Hnamed]. by rewrite Hkeys.
  - intros m d ([i m'] & -> & Hi%elem_of_id_entries)%list_elem_of_fmap Hin. cbn in *. destruct (Hplaced _ _ Hi) as [-> Hp].
    rewrite Forall_forall in Hp. by apply Hp.
  - intros id name. setoid_rewrite Hds. rewrite Hmods. split.
    + intros (d & Hin & <- & <-). destruct (Forall2_elem_r _ _ _ _ Hnamed Hin) as (k & _ & Hn & m & md & Hm & Hmd & Hid).
      eexists _, md. split; [apply elem_of_modules; by exists k.1, m|]. by rewrite Hn, Hid.
    + intros (m & md & (i & x & Hx & ->)%elem_of_modules & Hmd & Hid). cbn in Hmd.
      assert ((i, name) ∈ flat_map (package_keys S asts) sources) as Hk by (rewrite Hkeys; apply Helem; eauto).
      destruct (Forall2_elem_l _ _ _ _ Hnamed Hk) as (d & Hin & Hn & m & md' & Hm & Hmd' & Hid'). cbn in *.
      exists d. split_and!; [done| |done]. rewrite Hid', <-Hid. congruence.
  - intros id. setoid_rewrite Hds. apply Hmain.
Qed.

(** ** Results *)

Lemma analyze_modules_total {A} (diagnostics : A → list Diagnostic) analyze sources :
  is_Some (analyze_modules diagnostics analyze sha256 sources).
Proof.
  unfold analyze_modules. destruct (link_sources_ok (stable_sort source_le sources)) as ([_ Hdep _] & _).
  destruct (find_cycle_exact (lk_modules (link_sources (stable_sort source_le sources)))) as (r & -> & _); [|by eexists].
  intros a b (m & Hm & Hb). by destruct (Hdep _ _ _ Hm Hb).
Qed.

Definition linked_package (sources : list PackageSource) (hir : HirProgram) : Prop :=
  sources ≠ [] ∧ NoDup (map ps_file sources) ∧ ∃ asts analysis effects,
    parsed sources asts ∧
    analyze_modules analysis_diagnostics analyze_with_imports sha256 (module_sources asts) = Some analysis ∧
    existsb is_error (ma_diagnostics analysis) = false ∧ analyze_effects hir = Some (Ok effects) ∧
    (ids_fit (module_sources asts) → identities analysis hir).

(** Lowering a source ran out of [u32] identities. *)
Definition lowering_panics (sources : list PackageSource) : Prop :=
  ∃ s ast analysis id globals members next, s ∈ sources ∧ parses s ast ∧
    lower_module_to_hir ast analysis id globals members next = None.

Lemma has_errors_perm l k : l ≡ₚ k → has_errors l = has_errors k.
Proof.
  intros Hp. apply eq_true_iff_eq. unfold has_errors. rewrite !existsb_exists. setoid_rewrite <-list_elem_of_In. by setoid_rewrite Hp.
Qed.

Lemma has_errors_sorted ds : has_errors (sort_diagnostics ds) = has_errors ds.
Proof. apply has_errors_perm, stable_sort_perm. Qed.

Lemma link_package_panics analysis asts plan sources l :
  parsed sources asts → link_package analysis asts plan sources l = None → lowering_panics sources.
Proof.
  intros [Hall _]. assert (∀ s, s ∈ sources → s ∈ sources) as Hsub by done. revert Hsub. generalize sources at 1 3. intros k.
  revert l. induction k as [|s k IH]; intros l Hsub; cbn; [done|].
  destruct (link_source analysis asts plan s l) as [l1|] eqn:E; [apply IH; set_solver|]. intros _.
  destruct (Hall s) as (ast & Ha & Hp); [apply Hsub; by left|]. unfold link_source in E. rewrite Ha in E.
  destruct (ast_module ast); [|done]. destruct (find_module _ _); [|done].
  destruct (ma_source_analyses _ !! _); [|done]. destruct (lower_module_to_hir _ _ _ _ _ _) as [[[[]]|]|] eqn:El; [done..|].
  eexists s, ast, _, _, _, _, _. split_and!; [apply Hsub; by left|done|exact El].
Qed.

Lemma finish_package_cases l :
  ∃ c, finish_package l = Some c ∧
    match pk_hir c with
    | None => has_errors (pk_diagnostics c) = true
    | Some hir =>
        has_errors (pk_diagnostics c) = false ∧ has_errors (lg_diagnostics l) = false ∧
        hir = {| schema_version := 1; modules := (id_entries (lg_modules l)).*2; hir_entry := lg_entry l |} ∧
        ∃ effects, analyze_effects hir = Some (Ok effects)
    end.
Proof.
  unfold finish_package. set (hir := {| schema_version := 1 |}). destruct (has_errors (lg_diagnostics l)) eqn:E.
  - eexists. split; [done|]. cbn [pk_hir pk_diagnostics]. by rewrite app_nil_r, !has_errors_sorted, E.
  - destruct (analyze_effects_answers hir) as [[effects Ee]|(errors & -> & Hne)]; [rewrite Ee|];
      (eexists; split; [done|]); cbn [pk_hir pk_diagnostics].
    + rewrite app_nil_r, !has_errors_sorted, E. by split_and!; [..|eexists].
    + rewrite !has_errors_sorted, has_errors_app, E. by destruct errors.
Qed.
End package.

Lemma compile_package_answers `{SyntaxLaws} sha256 sources :
  match compile_package sha256 sources with
  | None => lowering_panics sources
  | Some c =>
      match pk_hir c with
      | None => has_errors (pk_diagnostics c) = true
      | Some hir => has_errors (pk_diagnostics c) = false ∧ linked_package sha256 sources hir
      end
  end.
Proof.
  unfold compile_package. pose proof (stable_sort_perm package_source_le sources) as Hperm.
  pose proof (duplicate_files_distinct _ (sorted_files sources)) as Hdistinct.
  set (sorted := stable_sort package_source_le sources) in *. destruct sorted as [|s0 rest] eqn:Es; [done|].
  rewrite <-Es in *. assert (sources ≠ []) as Hne by (intros ->; rewrite Es in Hperm; symmetry in Hperm; by apply Permutation_nil_cons in Hperm).
  clear rest Es.
  destruct (has_errors (duplicate_files sorted)) eqn:Ed; [cbn; by rewrite has_errors_sorted|].
  specialize (Hdistinct eq_refl). destruct (parse_sources_cases sorted (duplicate_files sorted) Hdistinct) as (asts & k & -> & Hk).
  destruct Hk as [Hk|(trees & -> & Hparsed & Hk)].
  { assert (has_errors (duplicate_files sorted ++ k) = true) as Hall by by rewrite has_errors_app, Hk, orb_true_r.
    destruct asts as [trees|]; [|cbn; by rewrite has_errors_sorted].
    destruct (analyze_modules_total sha256 analysis_diagnostics analyze_with_imports (module_sources trees)) as [analysis ->].
    rewrite has_errors_app, Hall. cbn. by rewrite has_errors_sorted, has_errors_app, Hall. }
  destruct (analyze_modules_total sha256 analysis_diagnostics analyze_with_imports (module_sources trees)) as [analysis Ea]. rewrite Ea.
  rewrite !has_errors_app, Ed, Hk, has_errors_phased. cbn [orb].
  destruct (existsb is_error (ma_diagnostics analysis)) eqn:Em.
  { cbn. by rewrite has_errors_sorted, !has_errors_app, has_errors_phased, Em, orb_true_r. }
  assert (∀ s, s ∈ sorted ↔ s ∈ sources) as Hin by (intros s; by rewrite Hperm).
  assert (parsed sources trees) as Hparsed'.
  { destruct Hparsed as [H1 H2]. split; setoid_rewrite <-Hin; auto. }
  destruct (link_package _ _ _ _ _) as [l|] eqn:El.
  2: { destruct (link_package_panics _ _ _ _ _ Hparsed El) as (s & ast & a & id & globals & members & next & Hs & Hrest).
       exists s, ast, a, id, globals, members, next. by rewrite <-Hin. }
  destruct (finish_package_cases l) as (c & -> & Hc). destruct (pk_hir c) as [hir|]; [|done].
  destruct Hc as (Hc & Hl & -> & effects & He). split; [done|]. split; [done|].
  split; [by rewrite <-Hperm|]. exists trees, analysis, effects. split_and!; [done..|]. intros Hfit.
  refine (link_package_identities _ _ _ _ _ _ Hdistinct Hparsed Hfit Ea Em _ _ El Hl); done.
Qed.

(** C12: [compile_package] always answers, unless lowering a source runs out of
    [u32] identities.  It returns a program exactly when it reports no error; then
    there are sources, with distinct file names, all parse and validate, the module
    analysis and effect inference find no error, and the definitions of the linked
    program are exactly the declarations the analysis found in the modules, under
    the identities the analysis gave them and imports refer to: each identity once,
    in the module it names.  The entry is the package's one [main]. *)
Theorem compile_package_exact `{SyntaxLaws} sha256 sources :
  match compile_package sha256 sources with
  | None => lowering_panics sources
  | Some c =>
      match pk_hir c with
      | None => has_errors (pk_diagnostics c) = true
      | Some hir => has_errors (pk_diagnostics c) = false ∧ linked_package sha256 sources hir
      end
  end.
Proof. apply compile_package_answers. Qed.

(** [compile_package] gives the same program and the same diagnostics for every
    order of the sources, duplicated file names included. *)
Theorem package_order_independent `{Syntax} sha256 l k : l ≡ₚ k → compile_package sha256 l = compile_package sha256 k.
Proof.
  intros Hp. pose proof (sorted_files_unique l k Hp) as Hn. pose proof (duplicate_files_names _ _ Hn) as Hd.
  pose proof (sorted_sources_unique l k Hp) as Hu. unfold compile_package.
  destruct (has_errors (duplicate_files (stable_sort package_source_le l))) eqn:E.
  - rewrite <-Hd, E. revert Hn. by destruct (stable_sort package_source_le l), (stable_sort package_source_le k).
  - rewrite (Hu eq_refl) in E |- *. by rewrite E.
Qed.

(** ** A package of two modules *)

Definition caller_source : string := "module a; use b::double; fn main(x: I64) -> I64 { return double(x); }".
Definition callee_source : string := "module b; pub fn double(x: I64) -> I64 { return x + x; }".

Definition unary_function (public : bool) (name : string) (whole parameter ty result body statement : Span) (value : Expr) : Item :=
  ItemFunction {| fnn_attributes := []; fnn_public := public; fnn_asynchronous := false; fnn_name := name;
    fnn_parameters := [{| pa_name := "x"; pa_ty := mkType (TkPath ["I64"] []) ty; pa_span := parameter |}];
    fnn_return_type := Some (mkType (TkPath ["I64"] []) result); fnn_effects := None;
    fnn_body := mkBody [mkStatement (SReturn (Some value)) statement] body; fnn_span := whole |}.

Definition identifier_at (name : string) (span : Span) : Expr := Ex (ELiteral (LitIdentifier name)) span.

Definition caller_file : Ast :=
  {| ast_module := Some {| mn_path := ["a"]; mn_span := columns 0 9 |};
     ast_imports := [{| un_path := ["b"; "double"]; un_alias := None; un_span := columns 10 24 |}];
     ast_items := [unary_function false "main" (columns 25 69) (columns 33 39) (columns 36 39) (columns 44 47) (columns 48 69)
       (columns 50 67) (Ex (ECall (identifier_at "double" (columns 57 63))
                          [mkArgument None (identifier_at "x" (columns 64 65)) (columns 64 65)]) (columns 57 66))];
     ast_span := columns 0 69 |}.

Definition callee_file : Ast :=
  {| ast_module := Some {| mn_path := ["b"]; mn_span := columns 0 9 |}; ast_imports := [];
     ast_items := [unary_function true "double" (columns 10 56) (columns 24 30) (columns 27 30) (columns 35 38) (columns 39 56)
       (columns 41 54) (Ex (EBinary OpAdd (identifier_at "x" (columns 48 49)) (identifier_at "x" (columns 52 53))) (columns 48 53))];
     ast_span := columns 0 56 |}.

Definition package_syntax : Syntax := {|
  syl_parser input :=
    if bool_decide (input = caller_source) then Ok [unparse plain_quote caller_file]
    else if bool_decide (input = callee_source) then Ok [unparse plain_quote callee_file]
    else Err {| pest_location := LocationPos 0; pest_line_col := LineColPos 1 1; pest_message := "expected program";
                pest_display := "expected program" |};
  pratt_parse A _ := chain_parse;
  json_string := plain_json
|}.

Lemma package_laws : SyntaxLaws (H := package_syntax).
Proof.
  split.
  - intros A primary prefix infix t Hw. by apply chain_parse_law.
  - intros input pairs. cbn. case_bool_decide; [|case_bool_decide; [|done]]; intros [= <-]; eexists; (split; [done|]); (split; [done|]);
      by vm_compute.
Qed.

Definition two_sources : list PackageSource :=
  [{| ps_file := "b.syl"; ps_source := callee_source |}; {| ps_file := "a.syl"; ps_source := caller_source |}].

(** The identities and names of the definitions, and the entry. *)
Definition linked_names (c : option PackageCompilation) : option (list (N * N * string) * option DefId) :=
  (c ≫= pk_hir) ≫= λ hir, Some (map (λ d, (Ir.module (hd_id d), index (hd_id d), hd_name d)) (flat_map definitions (modules hir)), hir_entry hir).

Definition plain_hash (s : string) : string := s.

Lemma two_sources_linked :
  linked_names (compile_package (H := package_syntax) plain_hash two_sources) =
  Some ([(0%N, 0%N, "main"); (1%N, 0%N, "double")], Some {| Ir.module := 0; index := 0 |}).
Proof. vm_compute. reflexivity. Qed.

Lemma compile_package_exact_witness :
  ∃ hir, linked_package (H := package_syntax) plain_hash two_sources hir ∧ hir_entry hir = Some {| Ir.module := 0; index := 0 |}.
Proof.
  pose proof (compile_package_exact (H := package_syntax) (H0 := package_laws) plain_hash two_sources) as H.
  pose proof two_sources_linked as E. destruct (compile_package plain_hash two_sources) as [c|]; [|discriminate E].
  destruct (pk_hir c) as [hir|] eqn:Eh; [|cbn in E; rewrite Eh in E; discriminate E].
  exists hir. split; [apply H|]. cbn in E. rewrite Eh in E. cbn in E. by injection E.
Defined.

Lemma package_order_independent_witness :
  compile_package (H := package_syntax) plain_hash two_sources = compile_package (H := package_syntax) plain_hash (rev two_sources).
Proof. apply (package_order_independent (H := package_syntax)). apply Permutation_rev. Defined.
