(* ===== verification/Registry.v ===== *)
(** * Package registry (crates/syllog-registry-client/src/lib.rs)

    Archives, signed publications and [LocalRegistry].  The JSON encodings and the
    Ed25519 operations are the class [RegistryCodec]; [SemVer] has the versions and
    SHA-256.  A key is 32 bytes, a file's content a list of bytes. *)

From Stdlib Require Import Ascii.
From stdpp Require Import base gmap strings numbers countable sorting list.
From S2P Require Import Prelude Text Resolver.
Open Scope string_scope.
Open Scope list_scope.
Open Scope N_scope.

Abbreviation bytes := (list Byte.byte).

#[export] Instance byte_countable : Countable Byte.byte.
Proof.
  refine (inj_countable Byte.to_N Byte.of_N _). intros x. apply Byte.of_to_N.
Defined.

Section registry.
Context `{SemVer}.

Record ArchiveFile := { af_path : string; af_content : bytes }.

Record PackageArchive := {
  pa_name : string;
  pa_version : Version;
  pa_files : list ArchiveFile;
  pa_dependencies : gmap string string
}.

Inductive RegistryError :=
| ProtocolVersion (found : N)
| InvalidPackageName (name : string)
| EmptyArchive
| UnsafePath (package : string) (version : Version) (path : string)
| DuplicateArchivePath (path : string)
| Encoding (reason : string)
| ArchiveChecksumMismatch (expected actual : string)
| NamespaceMismatch (namespace package : string)
| Unauthorized (namespace : string)
| Replay (namespace nonce : string)
| ImmutableVersion (package : string) (version : Version)
| InvalidSignature (package : string)
| NotFound (package : string) (version : Version).

(** ** Names and paths *)

Definition is_ascii_lowercase (c : ascii) : bool := bool_decide (97 ≤ N_of_ascii c) && bool_decide (N_of_ascii c ≤ 122).
Definition is_ascii_digit (c : ascii) : bool := bool_decide (48 ≤ N_of_ascii c) && bool_decide (N_of_ascii c ≤ 57).
Definition name_character (c : ascii) : bool := is_ascii_lowercase c || is_ascii_digit c || bool_decide (c = "-"%char).

Fixpoint all_characters (p : ascii → bool) (s : string) : bool :=
  match s with EmptyString => true | String c s => p c && all_characters p s end.

(** [s.ends_with(c)] *)
Fixpoint ends_with (c : ascii) (s : string) : bool :=
  match s with
  | EmptyString => false
  | String x EmptyString => bool_decide (x = c)
  | String _ s => ends_with c s
  end.

(** [s.contains(part)] *)
Fixpoint contains (part s : string) : bool :=
  starts_with part s || match s with EmptyString => false | String _ s => contains part s end.

(** [valid_package_name] of transport.rs is the same expression. *)
Definition valid_package_name (name : string) : bool :=
  match name with
  | EmptyString => false
  | String c rest => is_ascii_lowercase c && all_characters name_character rest
  end && negb (ends_with "-"%char name) && negb (contains "--" name).

Definition validate_package_name (name : string) : result unit RegistryError :=
  if valid_package_name name then Ok tt else Err (InvalidPackageName name).

Definition portable_path (path : string) : bool :=
  negb (bool_decide (path = "")) && negb (contains "\" path) && negb (contains ":" path) && forallb is_normal (components path).

Definition validate_archive_path (package : string) (version : Version) (path : string) : result unit RegistryError :=
  if portable_path path then Ok tt else Err (UnsafePath package version path).

(** ** Archives *)

Definition archive_file_le (a b : ArchiveFile) : bool := bool_decide (string_le (af_path a) (af_path b)).

(** The loop over the sorted files, with the paths seen. *)
Fixpoint check_files (name : string) (version : Version) (files : list ArchiveFile) (paths : gset string) : result unit RegistryError :=
  match files with
  | [] => Ok tt
  | file :: files =>
      match validate_archive_path name version (af_path file) with
      | Err e => Err e
      | Ok _ =>
          if bool_decide (af_path file ∈ paths) then Err (DuplicateArchivePath (af_path file))
          else check_files name version files ({[af_path file]} ∪ paths)
      end
  end.

(** [PackageArchive::new] *)
Definition archive_new (name : string) (version : Version) (files : list ArchiveFile) (dependencies : gmap string string)
    : result PackageArchive RegistryError :=
  match validate_package_name name with
  | Err e => Err e
  | Ok _ =>
      match files with
      | [] => Err EmptyArchive
      | _ =>
          let files := stable_sort archive_file_le files in
          match check_files name version files ∅ with
          | Err e => Err e
          | Ok _ => Ok {| pa_name := name; pa_version := version; pa_files := files; pa_dependencies := dependencies |}
          end
      end
  end.

(** ** Publications *)

Record Unsigned := {
  us_protocol_version : N; us_namespace : string; us_publisher_key : bytes; us_nonce : string; us_checksum : string;
  us_archive : PackageArchive
}.

Record PublishRequest := { rq_unsigned : Unsigned; rq_signature : bytes }.

Record PublishReceipt := { rc_name : string; rc_version : Version; rc_checksum : string }.

Definition PROTOCOL_VERSION : N := 1.

Class RegistryCodec := {
  (** [serde_json::to_vec] and [from_slice] of an archive, with the error's text *)
  encode_archive : PackageArchive → result bytes string;
  decode_archive : bytes → result PackageArchive string;
  (** [serde_json::to_vec] of the fields a signature covers *)
  encode_unsigned : Unsigned → result bytes string;
  (** [ed25519_dalek] *)
  SigningKey : Type;
  signing_key_from_seed : bytes → SigningKey;
  verifying_key : SigningKey → bytes;
  sign_message : SigningKey → bytes → bytes;
  (** [VerifyingKey::from_bytes] and [Signature::from_slice] succeed *)
  key_wellformed : bytes → bool;
  signature_wellformed : bytes → bool;
  verify_signature : bytes → bytes → bytes → bool
}.

Section codec.
Context `{RegistryCodec}.

Definition encoded_result {A} (r : result A string) : result A RegistryError :=
  match r with Ok x => Ok x | Err reason => Err (Encoding reason) end.

Definition canonical_bytes (a : PackageArchive) : result bytes RegistryError := encoded_result (encode_archive a).

Definition archive_checksum (a : PackageArchive) : result string RegistryError :=
  match canonical_bytes a with Ok content => Ok (sha256_hex content) | Err e => Err e end.

Definition from_bytes (content : bytes) : result PackageArchive RegistryError :=
  match encoded_result (decode_archive content) with
  | Err e => Err e
  | Ok decoded => archive_new (pa_name decoded) (pa_version decoded) (pa_files decoded) (pa_dependencies decoded)
  end.

Definition signing_bytes (u : Unsigned) : result bytes RegistryError := encoded_result (encode_unsigned u).

Record PublisherIdentity := { id_namespace : string; id_signing_key : SigningKey }.

Definition identity_from_seed (namespace : string) (seed : bytes) : PublisherIdentity :=
  {| id_namespace := namespace; id_signing_key := signing_key_from_seed seed |}.

Definition identity_key (i : PublisherIdentity) : bytes := verifying_key (id_signing_key i).

Definition sign (i : PublisherIdentity) (archive : PackageArchive) (nonce : string) : result PublishRequest RegistryError :=
  match archive_checksum archive with
  | Err e => Err e
  | Ok checksum =>
      let u := {| us_protocol_version := PROTOCOL_VERSION; us_namespace := id_namespace i; us_publisher_key := identity_key i;
                  us_nonce := nonce; us_checksum := checksum; us_archive := archive |} in
      match signing_bytes u with
      | Err e => Err e
      | Ok message => Ok {| rq_unsigned := u; rq_signature := sign_message (id_signing_key i) message |}
      end
  end.

(** ** The registry *)

Context `{!Countable Version}.

Record StoredRelease := { st_archive : PackageArchive; st_yanked : bool }.

Record LocalRegistry := {
  authorized : gmap string (gset bytes);
  used_nonces : gset (string * string);
  releases : gmap (string * Version) StoredRelease
}.

Definition registry_new : LocalRegistry := {| authorized := ∅; used_nonces := ∅; releases := ∅ |}.

Definition authorize (namespace : string) (key : bytes) (r : LocalRegistry) : LocalRegistry :=
  {| authorized := <[namespace := {[key]} ∪ default ∅ (authorized r !! namespace)]> (authorized r);
     used_nonces := used_nonces r; releases := releases r |}.

Definition owns_name (namespace name : string) : bool :=
  bool_decide (name = namespace) || starts_with (namespace +:+ "-") name.

Definition release_key (u : Unsigned) : string * Version := (pa_name (us_archive u), pa_version (us_archive u)).

(** The verification of the signature. *)
Definition verify_request (q : PublishRequest) : result unit RegistryError :=
  let u := rq_unsigned q in
  let invalid := Err (InvalidSignature (pa_name (us_archive u))) in
  if negb (key_wellformed (us_publisher_key u)) then invalid
  else if negb (signature_wellformed (rq_signature q)) then invalid
  else match signing_bytes u with
       | Err e => Err e
       | Ok message => if verify_signature (us_publisher_key u) message (rq_signature q) then Ok tt else invalid
       end.

Definition publish (q : PublishRequest) (r : LocalRegistry) : LocalRegistry * result PublishReceipt RegistryError :=
  let u := rq_unsigned q in
  let name := pa_name (us_archive u) in
  if bool_decide (us_protocol_version u ≠ PROTOCOL_VERSION) then (r, Err (ProtocolVersion (us_protocol_version u)))
  else match archive_checksum (us_archive u) with
  | Err e => (r, Err e)
  | Ok actual =>
      if bool_decide (actual ≠ us_checksum u) then (r, Err (ArchiveChecksumMismatch (us_checksum u) actual))
      else if negb (owns_name (us_namespace u) name) then (r, Err (NamespaceMismatch (us_namespace u) name))
      else if negb (bool_decide (us_publisher_key u ∈ default ∅ (authorized r !! us_namespace u)))
      then (r, Err (Unauthorized (us_namespace u)))
      else if bool_decide ((us_namespace u, us_nonce u) ∈ used_nonces r) then (r, Err (Replay (us_namespace u) (us_nonce u)))
      else if bool_decide (is_Some (releases r !! release_key u)) then (r, Err (ImmutableVersion name (pa_version (us_archive u))))
      else match verify_request q with
      | Err e => (r, Err e)
      | Ok _ =>
          ({| authorized := authorized r; used_nonces := {[(us_namespace u, us_nonce u)]} ∪ used_nonces r;
              releases := <[release_key u := {| st_archive := us_archive u; st_yanked := false |}]> (releases r) |},
           Ok {| rc_name := name; rc_version := pa_version (us_archive u); rc_checksum := us_checksum u |})
      end
  end.

Definition download (name : string) (version : Version) (r : LocalRegistry) : result PackageArchive RegistryError :=
  match releases r !! (name, version) with
  | Some stored => Ok (st_archive stored)
  | None => Err (NotFound name version)
  end.

Definition yank (name : string) (version : Version) (r : LocalRegistry) : LocalRegistry * result unit RegistryError :=
  match releases r !! (name, version) with
  | Some stored =>
      ({| authorized := authorized r; used_nonces := used_nonces r;
          releases := <[(name, version) := {| st_archive := st_archive stored; st_yanked := true |}]> (releases r) |}, Ok tt)
  | None => (r, Err (NotFound name version))
  end.

Definition is_yanked (name : string) (version : Version) (r : LocalRegistry) : result bool RegistryError :=
  match releases r !! (name, version) with
  | Some stored => Ok (st_yanked stored)
  | None => Err (NotFound name version)
  end.
End codec.
End registry.

(** * What the package registry promises (crates/syllog-registry-client/src/lib.rs)

    The registry against a log of accepted publications, and a release on its way
    from the publisher to a download. *)

Open Scope string_scope.
Open Scope list_scope.

(** ** Archives *)

Section archives.
Context `{SemVer}.

Lemma archive_file_le_total a b : archive_file_le a b = false → archive_file_le b a = true.
Proof.
  unfold archive_file_le. rewrite bool_decide_eq_false, bool_decide_eq_true. intros Hn.
  by destruct (total string_le (af_path a) (af_path b)).
Qed.

Lemma archive_file_le_trans a b c : archive_file_le a b = true → archive_file_le b c = true → archive_file_le a c = true.
Proof. unfold archive_file_le. rewrite !bool_decide_eq_true. intros. by etrans. Qed.

Lemma check_files_ok name version files paths :
  check_files name version files paths = Ok tt ↔
  Forall (λ f, portable_path (af_path f) = true ∧ af_path f ∉ paths) files ∧ NoDup (map af_path files).
Proof.
  revert paths. induction files as [|f files IH]; intros paths; cbn; [split; [split; constructor|done]|].
  unfold validate_archive_path. rewrite Forall_cons, NoDup_cons. destruct (portable_path (af_path f)) eqn:Ep; [|naive_solver].
  case_bool_decide as Hin; [naive_solver|]. rewrite IH, list_elem_of_fmap. split.
  - intros [Hall Hnd]. split_and!; try done.
    + eapply Forall_impl; [exact Hall|]. set_solver.
    + intros (g & Heq & Hg). rewrite Forall_forall in Hall. apply Hall in Hg as [_ Hg]. set_solver.
  - intros ([_ Hall] & Hf & Hnd). split; [|done]. rewrite Forall_forall in Hall |- *. intros g Hg.
    destruct (Hall g Hg) as [Hp Hout]. split; [done|]. rewrite elem_of_union, elem_of_singleton. intros [Heq|?]; [|done].
    apply Hf. by exists g.
Qed.

(** The payloads [PackageArchive::new] accepts. *)
Definition wellformed (name : string) (files : list ArchiveFile) : Prop :=
  valid_package_name name = true ∧ files ≠ [] ∧ Forall (λ f, portable_path (af_path f) = true) files ∧ NoDup (map af_path files).

Lemma archive_new_exact name version files dependencies archive :
  archive_new name version files dependencies = Ok archive ↔
  wellformed name files ∧
  archive = {| pa_name := name; pa_version := version; pa_files := stable_sort archive_file_le files;
               pa_dependencies := dependencies |}.
Proof.
  unfold archive_new, validate_package_name, wellformed. destruct (valid_package_name name); [|naive_solver].
  destruct files as [|f files]; [naive_solver|].
  assert (check_files name version (stable_sort archive_file_le (f :: files)) ∅ = Ok tt ↔
    Forall (λ f, portable_path (af_path f) = true) (f :: files) ∧ NoDup (map af_path (f :: files))) as Hc.
  { rewrite check_files_ok. pose proof (stable_sort_perm archive_file_le (f :: files)) as Hp. rewrite Hp. f_equiv.
    rewrite !Forall_forall. set_solver. }
  destruct (check_files _ _ _ ∅) as [[]|e] eqn:E.
  - apply proj1 in Hc. specialize (Hc eq_refl). split; [intros [= <-]; by destruct Hc|]. by intros [_ ->].
  - split; [done|]. intros [(_ & _ & Hx) _]. apply Hc in Hx. done.
Qed.

Lemma insert_stable_head {A} (le : A → A → bool) x l :
  match l with [] => True | y :: _ => le x y = true end → insert_stable le x l = x :: l.
Proof. destruct l as [|y l]; [done|]. cbn. by intros ->. Qed.

Lemma stable_sort_id {A} (le : A → A → bool) l : StronglySorted le l → stable_sort le l = l.
Proof.
  induction 1 as [|x l _ IH Hx]; [done|]. change (insert_stable le x (stable_sort le l) = x :: l). rewrite IH. apply insert_stable_head. destruct l; [done|].
  apply Forall_inv in Hx. by apply Is_true_true.
Qed.

(** An archive is rebuilt from its parts. *)
Lemma archive_new_stable name version files dependencies archive :
  archive_new name version files dependencies = Ok archive →
  archive_new (pa_name archive) (pa_version archive) (pa_files archive) (pa_dependencies archive) = Ok archive.
Proof.
  rewrite !archive_new_exact. intros [(Hn & Hne & Hp & Hnd) ->]. cbn.
  pose proof (stable_sort_perm archive_file_le files) as Hperm. split.
  - split_and!; [done| |by rewrite Hperm|by rewrite Hperm]. intros E. rewrite E in Hperm. by apply Permutation_nil in Hperm.
  - f_equal. symmetry. apply stable_sort_id, stable_sort_sorted; [apply archive_file_le_total|apply archive_file_le_trans].
Qed.
End archives.

(** ** The registry as a log *)

Section log.
Context `{RegistryCodec, !Countable Version}.

Inductive RegistryOp :=
| Authorize (namespace : string) (key : bytes)
| Publish (q : PublishRequest)
| Download (name : string) (version : Version)
| Yank (name : string) (version : Version)
| IsYanked (name : string) (version : Version).

Inductive RegistryReply :=
| Granted
| Receipt (receipt : PublishReceipt)
| Archive (archive : PackageArchive)
| Withdrawn
| Flag (yanked : bool)
| Refused (e : RegistryError).

Definition reply_of {A} (done : A → RegistryReply) (r : result A RegistryError) : RegistryReply :=
  match r with Ok x => done x | Err e => Refused e end.

Definition registry_step (r : LocalRegistry) (op : RegistryOp) : LocalRegistry * RegistryReply :=
  match op with
  | Authorize namespace key => (authorize namespace key r, Granted)
  | Publish q => let '(r, answer) := publish q r in (r, reply_of Receipt answer)
  | Download name version => (r, reply_of Archive (download name version r))
  | Yank name version => let '(r, answer) := yank name version r in (r, reply_of (λ _, Withdrawn) answer)
  | IsYanked name version => (r, reply_of Flag (is_yanked name version r))
  end.

(** The specification: the keys granted, the publications accepted, oldest first,
    and the versions withdrawn. *)
Record Log := { granted : list (string * bytes); accepted : list PublishRequest; withdrawn : list (string * Version) }.

Definition log_new : Log := {| granted := []; accepted := []; withdrawn := [] |}.

Definition nonce_key (q : PublishRequest) : string * string := (us_namespace (rq_unsigned q), us_nonce (rq_unsigned q)).
Definition published_as (q : PublishRequest) : string * Version := release_key (rq_unsigned q).

Definition release_of (log : Log) (key : string * Version) : option PublishRequest :=
  List.find (λ q, bool_decide (published_as q = key)) (accepted log).

(** What a publication can be refused for, in order of precedence. *)
Definition objections (log : Log) (q : PublishRequest) : list RegistryError :=
  let u := rq_unsigned q in
  let name := pa_name (us_archive u) in
  let failing (b : bool) e := if b then [e] else [] in
  failing (bool_decide (us_protocol_version u ≠ PROTOCOL_VERSION)) (ProtocolVersion (us_protocol_version u)) ++
  match archive_checksum (us_archive u) with
  | Err e => [e]
  | Ok actual => failing (bool_decide (actual ≠ us_checksum u)) (ArchiveChecksumMismatch (us_checksum u) actual)
  end ++
  failing (negb (owns_name (us_namespace u) name)) (NamespaceMismatch (us_namespace u) name) ++
  failing (bool_decide ((us_namespace u, us_publisher_key u) ∉ granted log)) (Unauthorized (us_namespace u)) ++
  failing (bool_decide (nonce_key q ∈ map nonce_key (accepted log))) (Replay (us_namespace u) (us_nonce u)) ++
  failing (bool_decide (published_as q ∈ map published_as (accepted log))) (ImmutableVersion name (pa_version (us_archive u))) ++
  match verify_request q with Err e => [e] | Ok _ => [] end.

Definition log_step (log : Log) (op : RegistryOp) : Log * RegistryReply :=
  match op with
  | Authorize namespace key =>
      ({| granted := (namespace, key) :: granted log; accepted := accepted log; withdrawn := withdrawn log |}, Granted)
  | Publish q =>
      match objections log q with
      | e :: _ => (log, Refused e)
      | [] =>
          ({| granted := granted log; accepted := accepted log ++ [q]; withdrawn := withdrawn log |},
           Receipt {| rc_name := (published_as q).1; rc_version := (published_as q).2; rc_checksum := us_checksum (rq_unsigned q) |})
      end
  | Download name version =>
      (log, match release_of log (name, version) with
            | Some q => Archive (us_archive (rq_unsigned q)) | None => Refused (NotFound name version) end)
  | Yank name version =>
      match release_of log (name, version) with
      | Some _ => ({| granted := granted log; accepted := accepted log; withdrawn := (name, version) :: withdrawn log |}, Withdrawn)
      | None => (log, Refused (NotFound name version))
      end
  | IsYanked name version =>
      (log, match release_of log (name, version) with
            | Some _ => Flag (bool_decide ((name, version) ∈ withdrawn log)) | None => Refused (NotFound name version) end)
  end.

Fixpoint session {S O R} (step : S → O → S * R) (s : S) (ops : list O) : S * list R :=
  match ops with
  | [] => (s, [])
  | op :: ops => let '(s, reply) := step s op in let '(s, replies) := session step s ops in (s, reply :: replies)
  end.

(** The registry holds what the log says. *)
Record holds (log : Log) (r : LocalRegistry) : Prop := {
  ho_keys : ∀ namespace key, key ∈ default ∅ (authorized r !! namespace) ↔ (namespace, key) ∈ granted log;
  ho_nonces : ∀ x, x ∈ used_nonces r ↔ x ∈ map nonce_key (accepted log);
  ho_releases : ∀ k, releases r !! k =
    (λ q, {| st_archive := us_archive (rq_unsigned q); st_yanked := bool_decide (k ∈ withdrawn log) |}) <$> release_of log k;
  ho_withdrawn : ∀ k, k ∈ withdrawn log → is_Some (release_of log k)
}.

Lemma release_of_published log k : is_Some (release_of log k) ↔ k ∈ map published_as (accepted log).
Proof.
  unfold release_of. rewrite list_elem_of_fmap. split.
  - intros [q E]. apply find_some in E as [Hin Hk]. apply bool_decide_eq_true in Hk. exists q. by rewrite list_elem_of_In.
  - intros (q & -> & Hin). destruct (List.find _ _) eqn:E; [by eexists|].
    apply list_elem_of_In, (find_none _ _ E) in Hin. by apply bool_decide_eq_false in Hin.
Qed.

Lemma find_release_app {A} (p : A → bool) l k :
  List.find p (l ++ k) = match List.find p l with Some x => Some x | None => List.find p k end.
Proof. induction l as [|x l IH]; [done|]. cbn. by destruct (p x). Qed.

Lemma holds_new : holds log_new registry_new.
Proof. split; cbn; [|set_solver..]. intros namespace key. rewrite lookup_empty. set_solver. Qed.

Definition stored (q : PublishRequest) (r : LocalRegistry) : LocalRegistry :=
  {| authorized := authorized r; used_nonces := {[nonce_key q]} ∪ used_nonces r;
     releases := <[published_as q := {| st_archive := us_archive (rq_unsigned q); st_yanked := false |}]> (releases r) |}.

(** [publish] refuses for the first objection. *)
Lemma publish_objections log r q :
  holds log r →
  publish q r = match objections log q with
                | e :: _ => (r, Err e)
                | [] => (stored q r, Ok {| rc_name := (published_as q).1; rc_version := (published_as q).2;
                                           rc_checksum := us_checksum (rq_unsigned q) |})
                end.
Proof.
  intros [Hk Hn Hr _]. unfold publish, objections. set (u := rq_unsigned q).
  assert (bool_decide ((us_namespace u, us_publisher_key u) ∉ granted log) =
    negb (bool_decide (us_publisher_key u ∈ default ∅ (authorized r !! us_namespace u)))) as ->.
  { rewrite <-bool_decide_not. apply bool_decide_ext. by rewrite Hk. }
  assert (bool_decide (nonce_key q ∈ map nonce_key (accepted log)) = bool_decide (nonce_key q ∈ used_nonces r)) as ->.
  { apply bool_decide_ext. by rewrite Hn. }
  assert (bool_decide (published_as q ∈ map published_as (accepted log)) = bool_decide (is_Some (releases r !! release_key u))) as ->.
  { apply bool_decide_ext. rewrite <-release_of_published. unfold published_as. fold u. by rewrite Hr, fmap_is_Some. }
  unfold nonce_key. fold u. case_bool_decide; [done|]. destruct (archive_checksum (us_archive u)) as [actual|]; [|done].
  case_bool_decide; [done|]. destruct (owns_name _ _); [|done]. cbn. case_bool_decide; [|done]. cbn.
  case_bool_decide; [done|]. case_bool_decide; [done|]. cbn. by destruct (verify_request q).
Qed.

Lemma objections_none log q :
  objections log q = [] →
  (us_namespace (rq_unsigned q), us_publisher_key (rq_unsigned q)) ∈ granted log ∧
  (nonce_key q ∉ map nonce_key (accepted log)) ∧ (published_as q ∉ map published_as (accepted log)) ∧
  us_protocol_version (rq_unsigned q) = PROTOCOL_VERSION ∧ archive_checksum (us_archive (rq_unsigned q)) = Ok (us_checksum (rq_unsigned q)) ∧
  owns_name (us_namespace (rq_unsigned q)) (pa_name (us_archive (rq_unsigned q))) = true ∧ verify_request q = Ok tt.
Proof.
  unfold objections. intros [Hp [Hc [Ho [Hg [Hn [Hi Hv]%app_nil]%app_nil]%app_nil]%app_nil]%app_nil]%app_nil.
  case_bool_decide; [done|]. destruct (archive_checksum _) as [actual|]; [|done]. case_bool_decide; [done|].
  destruct (owns_name _ _) eqn:Eo; [|done]. case_bool_decide; [done|]. case_bool_decide; [done|]. case_bool_decide; [done|].
  destruct (verify_request q) as [[]|] eqn:Ev; [|done].
  split_and!; try done. by f_equal.
Qed.

Lemma holds_publish log r q :
  holds log r → published_as q ∉ map published_as (accepted log) →
  holds {| granted := granted log; accepted := accepted log ++ [q]; withdrawn := withdrawn log |} (stored q r).
Proof.
  intros [Hk Hn Hr Hw] Hnew.
  assert (∀ k, release_of {| granted := granted log; accepted := accepted log ++ [q]; withdrawn := withdrawn log |} k =
    if bool_decide (published_as q = k) then Some q else release_of log k) as Hrel.
  { intros k. unfold release_of. cbn. rewrite find_release_app. cbn. fold (release_of log k). case_bool_decide as E.
    - destruct (release_of log k) eqn:Er; [|done]. exfalso. apply Hnew. rewrite E. apply release_of_published. by eexists.
    - by destruct (release_of log k). }
  split; cbn [granted accepted withdrawn authorized used_nonces releases stored].
  - done.
  - intros x. rewrite map_app. set_solver.
  - intros k. rewrite Hrel. destruct (decide (published_as q = k)) as [<-|E].
    + rewrite (bool_decide_eq_true_2 (published_as q = _)) by done. rewrite lookup_insert_eq. cbn. rewrite bool_decide_eq_false_2; [done|].
      intros Hin. apply Hnew, release_of_published, Hw, Hin.
    + rewrite (bool_decide_eq_false_2 (published_as q = _)) by done. by rewrite lookup_insert_ne.
  - intros k Hin. rewrite Hrel. case_bool_decide; [by eexists|by apply Hw].
Qed.

Lemma holds_yank log r k q :
  holds log r → release_of log k = Some q →
  holds {| granted := granted log; accepted := accepted log; withdrawn := k :: withdrawn log |}
    {| authorized := authorized r; used_nonces := used_nonces r;
       releases := <[k := {| st_archive := us_archive (rq_unsigned q); st_yanked := true |}]> (releases r) |}.
Proof.
  intros [Hk Hn Hr Hw] Hq. split; cbn; [done|done| |].
  - intros j. unfold release_of in *. cbn. destruct (decide (k = j)) as [<-|Hne].
    + rewrite lookup_insert_eq, Hq. cbn. by rewrite bool_decide_eq_true_2 by set_solver.
    + rewrite lookup_insert_ne, Hr by done.
      assert (bool_decide (j ∈ k :: withdrawn log) = bool_decide (j ∈ withdrawn log)) as -> by (apply bool_decide_ext; set_solver).
      done.
  - intros j [->|Hj]%elem_of_cons; [by eexists|by apply Hw].
Qed.

Lemma holds_authorize log r namespace key :
  holds log r →
  holds {| granted := (namespace, key) :: granted log; accepted := accepted log; withdrawn := withdrawn log |} (authorize namespace key r).
Proof.
  intros [Hk Hn Hr Hw]. split; cbn; [|done..]. intros n k. rewrite elem_of_cons. destruct (decide (n = namespace)) as [->|Hne].
  - rewrite lookup_insert_eq. cbn. rewrite elem_of_union, elem_of_singleton, Hk. naive_solver.
  - rewrite lookup_insert_ne, Hk by done. naive_solver.
Qed.

Lemma step_simulates log r op :
  holds log r → (registry_step r op).2 = (log_step log op).2 ∧ holds (log_step log op).1 (registry_step r op).1.
Proof.
  intros Hh. pose proof (ho_releases _ _ Hh) as Hr. destruct op as [namespace key|q|name version|name version|name version];
    cbn [registry_step log_step].
  - split; [done|by apply holds_authorize].
  - rewrite (publish_objections log r q Hh). destruct (objections log q) as [|e es] eqn:E; [|by split].
    split; [done|]. apply holds_publish; [done|]. by destruct (objections_none _ _ E) as (_ & _ & ? & _).
  - unfold download. rewrite Hr. by destruct (release_of log (name, version)).
  - unfold yank. rewrite Hr. destruct (release_of log (name, version)) as [q|] eqn:E; [|done]. cbn.
    split; [done|]. by apply holds_yank.
  - unfold is_yanked. rewrite Hr. by destruct (release_of log (name, version)).
Qed.

(** A log without repetitions, of authentic publications. *)
Record honest (log : Log) : Prop := {
  hn_versions : NoDup (map published_as (accepted log));
  hn_nonces : NoDup (map nonce_key (accepted log));
  hn_authentic : Forall (λ q, let u := rq_unsigned q in
    us_protocol_version u = PROTOCOL_VERSION ∧ archive_checksum (us_archive u) = Ok (us_checksum u) ∧
    owns_name (us_namespace u) (pa_name (us_archive u)) = true ∧ (us_namespace u, us_publisher_key u) ∈ granted log ∧
    verify_request q = Ok tt) (accepted log)
}.

Lemma log_step_honest log op : honest log → honest (log_step log op).1 ∧ accepted log `prefix_of` accepted (log_step log op).1 ∧
  ∀ k, k ∈ withdrawn log → k ∈ withdrawn (log_step log op).1.
Proof.
  intros [Hv Hn Ha]. destruct op as [namespace key|q|name version|name version|name version];
    cbn [log_step]; try by split_and!.
  - split_and!; [|done|done]. split; [done|done|]. eapply Forall_impl; [exact Ha|]. cbn. set_solver.
  - destruct (objections log q) as [|e es] eqn:E; [|by split_and!].
    destruct (objections_none _ _ E) as (Hg & Hnew & Hfresh & Hp & Hc & Ho & Hs). cbn. split_and!; [|by eexists|done]. split; cbn.
    + rewrite map_app. apply NoDup_app. split_and!; [done| |apply NoDup_singleton]. by intros x Hx ->%list_elem_of_singleton.
    + rewrite map_app. apply NoDup_app. split_and!; [done| |apply NoDup_singleton]. by intros x Hx ->%list_elem_of_singleton.
    + apply Forall_app. split; [done|]. repeat constructor; done.
  - destruct (release_of _ _); cbn; split_and!; try done. set_solver.
Qed.
End log.

(** C24: the registry is an append-only log of publications: in every session of
    grants, publications, downloads and withdrawals it replies as the log of
    accepted publications prescribes, errors and their precedence included.  No
    version and no nonce of a namespace is accepted twice; every accepted
    publication has the checksum of its archive, a name its namespace owns, a key
    granted to the namespace and a valid signature; and what was accepted or
    withdrawn stays so. *)
Theorem registry_refines_log `{RegistryCodec, !Countable Version} ops more :
  let '(log, replies) := session log_step log_new ops in
  let log' := (session log_step log_new (ops ++ more)).1 in
  (session registry_step registry_new ops).2 = replies ∧ honest log ∧
  accepted log `prefix_of` accepted log' ∧ ∀ k, k ∈ withdrawn log → k ∈ withdrawn log'.
Proof.
  assert (∀ log r ops, holds log r → (session registry_step r ops).2 = (session log_step log ops).2) as Hsim.
  { clear. intros log r ops. revert log r. induction ops as [|op ops IH]; intros log r Hh; [done|]. cbn.
    destruct (step_simulates log r op Hh) as [H1 H2]. destruct (registry_step r op) as [r' reply], (log_step log op) as [log' reply'].
    cbn in *. subst reply'. specialize (IH _ _ H2). destruct (session registry_step r' ops), (session log_step log' ops). cbn in *. congruence. }
  assert (∀ log ops, honest log → honest (session log_step log ops).1 ∧ accepted log `prefix_of` accepted (session log_step log ops).1 ∧
    ∀ k, k ∈ withdrawn log → k ∈ withdrawn (session log_step log ops).1) as Hhon.
  { clear. intros log ops. revert log. induction ops as [|op ops IH]; intros log Hh; [done|]. cbn.
    destruct (log_step_honest log op Hh) as (H1 & H2 & H3). destruct (log_step log op) as [log' reply]. cbn in *.
    destruct (IH _ H1) as (H4 & H5 & H6). destruct (session log_step log' ops). cbn in *. split_and!; [done|by etrans|auto]. }
  assert (∀ log, (session log_step log (ops ++ more)).1 = (session log_step (session log_step log ops).1 more).1) as Happ.
  { clear. induction ops as [|op ops IH]; intros log; [done|]. cbn. destruct (log_step log op) as [log' reply]. specialize (IH log').
    destruct (session log_step log' (ops ++ more)), (session log_step log' ops). exact IH. }
  specialize (Happ log_new). pose proof (Hsim _ _ ops holds_new) as H1.
  assert (honest log_new) as Hnew by (split; constructor). destruct (Hhon _ ops Hnew) as (H2 & _).
  destruct (session log_step log_new ops) as [log replies]. cbn in *. split_and!; [done|done|..]; rewrite Happ; by apply Hhon.
Qed.

(** ** From the publisher to a download *)

(** Ed25519 signatures verify under their key, and JSON is read back. *)
Class CodecLaws `{RegistryCodec} : Prop := {
  signing_law k message :
    key_wellformed (verifying_key k) = true ∧ signature_wellformed (sign_message k message) = true ∧
    verify_signature (verifying_key k) message (sign_message k message) = true;
  archive_law archive content : encode_archive archive = Ok content → decode_archive content = Ok archive
}.

(** What a registry must not yet hold for a publication. *)
Definition unpublished `{RegistryCodec, !Countable Version} (q : PublishRequest) (r : LocalRegistry) : Prop :=
  (nonce_key q ∉ used_nonces r) ∧ releases r !! published_as q = None.

Lemma sign_verifies `{CodecLaws} i archive nonce q :
  sign i archive nonce = Ok q →
  us_archive (rq_unsigned q) = archive ∧ us_namespace (rq_unsigned q) = id_namespace i ∧ us_publisher_key (rq_unsigned q) = identity_key i ∧
  us_protocol_version (rq_unsigned q) = PROTOCOL_VERSION ∧ archive_checksum archive = Ok (us_checksum (rq_unsigned q)) ∧
  verify_request q = Ok tt.
Proof.
  unfold sign. destruct (archive_checksum archive) as [checksum|] eqn:Ec; [|done].
  destruct (signing_bytes _) as [message|] eqn:Es; [|done]. intros [= <-]. cbn. split_and!; try done.
  unfold verify_request. cbn [rq_unsigned rq_signature]. destruct (signing_law (id_signing_key i) message) as (V1 & V2 & V3).
  rewrite Es. cbn. unfold identity_key. by rewrite V1, V2, V3.
Qed.

(** [publish] of an authentic request depends on what was published before. *)
Lemma publish_authentic `{RegistryCodec, !Countable Version} q r :
  let u := rq_unsigned q in
  us_protocol_version u = PROTOCOL_VERSION → archive_checksum (us_archive u) = Ok (us_checksum u) →
  owns_name (us_namespace u) (pa_name (us_archive u)) = true → us_publisher_key u ∈ default ∅ (authorized r !! us_namespace u) →
  verify_request q = Ok tt →
  publish q r =
  if bool_decide (nonce_key q ∈ used_nonces r) then (r, Err (Replay (us_namespace u) (us_nonce u)))
  else if bool_decide (is_Some (releases r !! published_as q))
  then (r, Err (ImmutableVersion (pa_name (us_archive u)) (pa_version (us_archive u))))
  else (stored q r, Ok {| rc_name := pa_name (us_archive u); rc_version := pa_version (us_archive u); rc_checksum := us_checksum u |}).
Proof.
  intros u Hproto Hsum Howns Hkey Hverify. unfold publish. fold u. rewrite bool_decide_eq_false_2 by (rewrite Hproto; auto).
  rewrite Hsum, bool_decide_eq_false_2 by auto. rewrite Howns. cbn [negb]. rewrite bool_decide_eq_true_2 by done. cbn [negb].
  unfold nonce_key. fold u. destruct (bool_decide _); [done|]. unfold published_as. fold u. destruct (bool_decide _); [done|].
  by rewrite Hverify.
Qed.

(** An archive built by [PackageArchive::new], signed by an authorized publisher
    under a name of its namespace and with a fresh nonce and version, is accepted;
    the receipt names it with the SHA-256 of its encoding, downloads return it and
    the encoding decodes to it; publishing the same request again is a replay. *)
Theorem published_release_downloads `{CodecLaws, !Countable Version} name version files dependencies archive content i nonce q r :
  archive_new name version files dependencies = Ok archive → encode_archive archive = Ok content →
  sign i archive nonce = Ok q → identity_key i ∈ default ∅ (authorized r !! id_namespace i) →
  owns_name (id_namespace i) name = true → unpublished q r →
  ∃ r', publish q r = (r', Ok {| rc_name := name; rc_version := version; rc_checksum := sha256_hex content |}) ∧
    download name version r' = Ok archive ∧ is_yanked name version r' = Ok false ∧ from_bytes content = Ok archive ∧
    (∀ k, k ≠ (name, version) → releases r' !! k = releases r !! k) ∧
    publish q r' = (r', Err (Replay (id_namespace i) nonce)).
Proof.
  intros Hnew Hcontent Hsign Hkey Howns [Hnonce Hrelease]. pose proof (archive_new_stable _ _ _ _ _ Hnew) as Hstable.
  apply archive_new_exact in Hnew as [_ Ha]. assert (us_nonce (rq_unsigned q) = nonce) as Hn.
  { unfold sign in Hsign. destruct (archive_checksum archive); [|done]. destruct (signing_bytes _); [|done]. by injection Hsign as <-. }
  destruct (sign_verifies i archive nonce q Hsign) as (Harchive & Hns & Hpub & Hproto & Hsum & Hverify).
  assert (us_checksum (rq_unsigned q) = sha256_hex content) as Hchecksum.
  { unfold archive_checksum, canonical_bytes in Hsum. rewrite Hcontent in Hsum. by injection Hsum. }
  assert (published_as q = (name, version)) as Has.
  { unfold published_as, release_key. rewrite Harchive, Ha. done. }
  assert (pa_name archive = name ∧ pa_version archive = version) as [Hname Hversion] by by rewrite Ha.
  pose proof (λ r, publish_authentic q r) as Hpublish. cbn zeta in Hpublish. rewrite Harchive, Hname, Hns, Hversion, Hpub, Hn, Hchecksum in Hpublish.
  rewrite Hchecksum in Hsum. exists (stored q r). split_and!.
  - rewrite Hpublish by done. rewrite bool_decide_eq_false_2 by done. by rewrite bool_decide_eq_false_2 by (rewrite Hrelease; by intros [??]).
  - unfold download. cbn. by rewrite Has, lookup_insert_eq, Harchive.
  - unfold is_yanked. cbn. by rewrite Has, lookup_insert_eq.
  - unfold from_bytes. rewrite (archive_law _ _ Hcontent). exact Hstable.
  - intros k Hk. cbn. rewrite Has. by rewrite lookup_insert_ne.
  - rewrite Hpublish by done. by rewrite bool_decide_eq_true_2 by set_solver.
Qed.

(** ** An instance of the laws *)

(** Versions are numbers; a digest of 64 digits that tells lengths below ten apart. *)
#[export] Instance numbered : SemVer := {|
  Version := N; version_cmp := N.compare; version_display n := String (ascii_of_N (48 + n)) EmptyString;
  VersionReq := option N; parse_requirement _ := Ok None;
  requirement_matches req v := match req with Some n => N.eqb n v | None => true end;
  sha256_hex content := String (ascii_of_N (48 + N.of_nat (length content) mod 10)) (String.string_of_list_ascii (repeat "0"%char 63))
|}.

#[export] Instance archive_file_eq_dec : EqDecision ArchiveFile.
Proof. solve_decision. Defined.
#[export] Instance archive_file_countable : Countable ArchiveFile.
Proof.
  refine (inj_countable' (λ f, (af_path f, af_content f)) (λ '(path, content), {| af_path := path; af_content := content |}) _).
  by intros [].
Defined.

#[export] Instance archive_eq_dec : EqDecision PackageArchive.
Proof. solve_decision. Defined.
#[export] Instance archive_countable : Countable PackageArchive.
Proof.
  refine (inj_countable' (λ a, (pa_name a, (pa_version a : N), pa_files a, pa_dependencies a))
    (λ '(name, version, files, dependencies),
       {| pa_name := name; pa_version := version : Version; pa_files := files; pa_dependencies := dependencies |}) _).
  by intros [].
Defined.

(** A number as the bytes of its binary digits. *)
Fixpoint digits (p : positive) : bytes :=
  match p with xH => [] | xO p => Byte.x00 :: digits p | xI p => Byte.x01 :: digits p end.

Fixpoint number (content : bytes) : positive :=
  match content with [] => xH | Byte.x00 :: content => xO (number content) | _ :: content => xI (number content) end.

Lemma number_digits p : number (digits p) = p.
Proof. induction p as [p IH|p IH|]; cbn; congruence. Qed.

#[export] Instance binary_codec : RegistryCodec := {|
  encode_archive a := Ok (digits (encode a));
  decode_archive content := match decode (number content) with Some a => Ok a | None => Err "not an archive" end;
  encode_unsigned u := Ok (digits (encode (us_protocol_version u, us_namespace u, us_publisher_key u, us_nonce u, us_checksum u, us_archive u)));
  SigningKey := bytes; signing_key_from_seed seed := seed; verifying_key key := key; sign_message key message := key ++ message;
  key_wellformed _ := true; signature_wellformed _ := true;
  verify_signature key message signature := bool_decide (signature = key ++ message)
|}.

#[export] Instance binary_laws : CodecLaws.
Proof.
  split.
  - intros k message. cbn. split_and!; [done..|]. by rewrite bool_decide_eq_true_2.
  - intros archive content [= <-]. cbn. by rewrite number_digits, decode_encode.
Qed.

Definition sample_files : list ArchiveFile :=
  [{| af_path := "src/lib.syl"; af_content := [Byte.x01] |}; {| af_path := "Syllog.toml"; af_content := [] |}].

Definition sample_archive : PackageArchive :=
  {| pa_name := "tools-text"; pa_version := 1%N : Version; pa_files := rev sample_files; pa_dependencies := ∅ |}.

Definition sample_publisher : PublisherIdentity := identity_from_seed "tools" [Byte.x07].

Lemma published_release_downloads_witness :
  ∃ q r', sign sample_publisher sample_archive "first" = Ok q ∧
    (publish q (authorize "tools" [Byte.x07] registry_new)).1 = r' ∧ download "tools-text" (1%N : Version) r' = Ok sample_archive.
Proof.
  destruct (sign sample_publisher sample_archive "first") as [q|e] eqn:Eq; [|discriminate Eq].
  destruct (published_release_downloads "tools-text" (1%N : @Version numbered) sample_files ∅ sample_archive (digits (encode sample_archive))
    sample_publisher "first" q (authorize "tools" [Byte.x07] registry_new)) as (r' & E & Hd & _).
  - apply archive_new_exact. split; [|reflexivity]. split_and!; [reflexivity|discriminate|repeat constructor|].
    apply (bool_decide_unpack _). vm_compute. exact I.
  - reflexivity.
  - exact Eq.
  - cbn [authorize authorized id_namespace sample_publisher identity_from_seed]. rewrite lookup_insert_eq. cbn. set_solver.
  - reflexivity.
  - split; [cbn; set_solver|reflexivity].
  - exists q, r'. split_and!; [reflexivity|by rewrite E|exact Hd].
Defined.

(** Paths are compared as they are written, not as the canonical paths they are
    checked as: an archive may hold the same file twice. *)
Lemma archive_holds_a_file_twice :
  components "src/lib.syl" = components "src//lib.syl" ∧
  ∃ archive, archive_new "tools" (1%N : Version)
    [{| af_path := "src/lib.syl"; af_content := [] |}; {| af_path := "src//lib.syl"; af_content := [Byte.x01] |}] ∅ = Ok archive.
Proof.
  split; [reflexivity|]. eexists. apply archive_new_exact. split; [|reflexivity].
  split_and!; [reflexivity|discriminate|repeat constructor|]. apply (bool_decide_unpack _). vm_compute. exact I.
Qed.
