(* ===== verification/Storage.v ===== *)
(** * Files, the content cache and lockfiles
      (crates/syllog-package/src/cache.rs, crates/syllog-package/src/lockfile.rs)

    A disk maps the paths of files to their contents; a temporary file is only
    visible once it is persisted.  Each operation is given the failures the
    operating system answers with, and what another process writes meanwhile. *)

From Stdlib Require Import Ascii.
From stdpp Require Import base gmap strings numbers list.
From S2P Require Import Prelude Text Resolver Registry.
Open Scope string_scope.
Open Scope list_scope.

(** ** Files *)

Abbreviation disk := (gmap string bytes).

(** The calls that can fail. *)
Inductive IoCall :=
| IoCreateDirectory (path : string)
| IoMetadata (path : string)
| IoOpen (path : string)
| IoWrite (path : string) (chunk : nat)
| IoSync (path : string)
| IoRead (path : string)
| IoTemporary (directory : string)
| IoRename (path : string).

Inductive IoFailure := Missing | Refusal (text : string).

Abbreviation faults := (IoCall → option IoFailure).

Definition no_faults : faults := λ _, None.

(** [fs::read] *)
Definition read_file (io : faults) (d : disk) (path : string) : result bytes IoFailure :=
  match io (IoRead path) with
  | Some e => Err e
  | None => match d !! path with Some content => Ok content | None => Err Missing end
  end.

(** [Path::join] on Unix *)
Definition join_path (base part : string) : string :=
  if starts_with "/" part then part
  else if bool_decide (base = "") || ends_with "/"%char base then base +:+ part
  else base +:+ "/" +:+ part.

(** ** Cache *)

Inductive CacheError :=
| InvalidKey (key : string)
| CacheMismatch (expected actual : string)
| CacheIo (path : string) (source : IoFailure).

Definition hexadecimal (c : ascii) : bool := is_ascii_digit c || (bool_decide (97 ≤ N_of_ascii c)%N && bool_decide (N_of_ascii c ≤ 102)%N).

(** 64 lowercase hexadecimal digits. *)
Definition is_digest (checksum : string) : bool := bool_decide (String.length checksum = 64%nat) && all_characters hexadecimal checksum.

Definition validate_key (checksum : string) : result unit CacheError :=
  if is_digest checksum then Ok tt else Err (InvalidKey checksum).

Section cache.
Context `{SemVer}.

Record ContentAddressedCache := { cache_root : string }.

Definition verify_content (checksum : string) (content : bytes) : result unit CacheError :=
  match validate_key checksum with
  | Err e => Err e
  | Ok _ =>
      let actual := sha256_hex content in
      if bool_decide (checksum = actual) then Ok tt else Err (CacheMismatch checksum actual)
  end.

Definition path_for (c : ContentAddressedCache) (checksum : string) : result string CacheError :=
  match validate_key checksum with
  | Err e => Err e
  | Ok _ => Ok (join_path (join_path (cache_root c) "sha256") checksum)
  end.

(** An entry that is already there is verified and kept. *)
Definition keep_existing (io : faults) (d : disk) (destination checksum : string) : disk * result string CacheError :=
  match read_file io d destination with
  | Err e => (d, Err (CacheIo destination e))
  | Ok existing => match verify_content checksum existing with Err e => (d, Err e) | Ok _ => (d, Ok destination) end
  end.

(** A new entry, through a temporary file; [raced] is what another process has put
    at the destination meanwhile. *)
Definition store_new (io : faults) (raced : option bytes) (d : disk) (parent destination checksum : string) (content : bytes)
    : disk * result string CacheError :=
  match io (IoCreateDirectory parent) with
  | Some e => (d, Err (CacheIo parent e))
  | None =>
      match io (IoTemporary parent), io (IoWrite parent 0), io (IoSync parent) with
      | Some e, _, _ | None, Some e, _ | None, None, Some e => (d, Err (CacheIo destination e))
      | None, None, None =>
          let d := match raced with Some other => <[destination := other]> d | None => d end in
          match d !! destination with
          | Some _ => keep_existing io d destination checksum
          | None =>
              match io (IoRename destination) with
              | Some e => (d, Err (CacheIo destination e))
              | None => (<[destination := content]> d, Ok destination)
              end
          end
      end
  end.

Definition cache_store (io : faults) (raced : option bytes) (c : ContentAddressedCache) (checksum : string) (content : bytes) (d : disk)
    : disk * result string CacheError :=
  match verify_content checksum content with
  | Err e => (d, Err e)
  | Ok _ =>
      match path_for c checksum with
      | Err e => (d, Err e)
      | Ok destination =>
          if bool_decide (is_Some (d !! destination)) then keep_existing io d destination checksum
          else store_new io raced d (join_path (cache_root c) "sha256") destination checksum content
      end
  end.

Definition cache_load (io : faults) (c : ContentAddressedCache) (checksum : string) (d : disk) : result bytes CacheError :=
  match path_for c checksum with
  | Err e => Err e
  | Ok path =>
      match read_file io d path with
      | Err e => Err (CacheIo path e)
      | Ok content => match verify_content checksum content with Err e => Err e | Ok _ => Ok content end
      end
  end.

(** ** Lockfiles *)

(** The [toml] crate, on texts as bytes, with the errors' text. *)
Class LockfileCodec := {
  encode_resolution : Resolution → result bytes string;
  decode_resolution : bytes → result Resolution string
}.

Inductive LockfileError :=
| LockfileSerialize (reason : string)
| LockfileDeserialize (reason : string)
| LockfileIo (path : string) (source : IoFailure).

Context `{LockfileCodec}.

Definition lockfile_header : bytes :=
  String.list_byte_of_string ("# This file is generated by Syllog. Do not edit." +:+ String (ascii_of_nat 10) "").

Definition lockfile_bytes (resolution : Resolution) : result bytes LockfileError :=
  match encode_resolution resolution with
  | Err reason => Err (LockfileSerialize reason)
  | Ok text => Ok (lockfile_header ++ text)
  end.

Definition read_lockfile (io : faults) (path : string) (d : disk) : result Resolution LockfileError :=
  match read_file io d path with
  | Err e => Err (LockfileIo path e)
  | Ok content =>
      if utf8_valid content then
        match decode_resolution content with Ok resolution => Ok resolution | Err reason => Err (LockfileDeserialize reason) end
      else Err (LockfileIo path (Refusal "stream did not contain valid UTF-8"))
  end.

(** [IoTemporary path] is the temporary file beside [path]. *)
Definition write_lockfile (io : faults) (path : string) (resolution : Resolution) (d : disk) : disk * result unit LockfileError :=
  match lockfile_bytes resolution with
  | Err e => (d, Err e)
  | Ok content =>
      match io (IoTemporary path), io (IoWrite path 0), io (IoSync path), io (IoRename path) with
      | Some e, _, _, _ | None, Some e, _, _ | None, None, Some e, _ | None, None, None, Some e => (d, Err (LockfileIo path e))
      | None, None, None, None => (<[path := content]> d, Ok tt)
      end
  end.
End cache.

(** * What the cache and lockfiles keep
      (crates/syllog-package/src/cache.rs, crates/syllog-package/src/lockfile.rs) *)

Open Scope string_scope.
Open Scope list_scope.

Section cache.
Context `{SemVer}.

Lemma verify_content_ok checksum content :
  verify_content checksum content = Ok tt ↔ is_digest checksum = true ∧ sha256_hex content = checksum.
Proof.
  unfold verify_content, validate_key. destruct (is_digest checksum); [|naive_solver]. case_bool_decide; naive_solver.
Qed.

Lemma path_for_digest c checksum path : path_for c checksum = Ok path → is_digest checksum = true.
Proof. unfold path_for, validate_key. by destruct (is_digest checksum). Qed.

(** What an answer of the cache means for the disk. *)
Record stored_ok (c : ContentAddressedCache) (checksum path : string) (d : disk) : Prop := {
  so_path : path_for c checksum = Ok path;
  so_kept : ∃ kept, d !! path = Some kept ∧ sha256_hex kept = checksum ∧
    ∀ io, io (IoRead path) = None → cache_load io c checksum d = Ok kept
}.

Lemma stored_ok_intro c checksum path d kept :
  path_for c checksum = Ok path → d !! path = Some kept → sha256_hex kept = checksum → stored_ok c checksum path d.
Proof.
  intros Hp Hk Hs. split; [done|]. exists kept. split_and!; [done..|]. intros io Hio. unfold cache_load. rewrite Hp.
  unfold read_file. rewrite Hio, Hk. by rewrite (proj2 (verify_content_ok checksum kept) (conj (path_for_digest _ _ _ Hp) Hs)).
Qed.

Lemma keep_existing_ok io c checksum path d :
  path_for c checksum = Ok path →
  let '(d', answer) := keep_existing io d path checksum in
  d' = d ∧ (∀ p, answer = Ok p → p = path ∧ stored_ok c checksum path d) ∧
  (io (IoRead path) = None → ∀ x, d !! path = Some x → sha256_hex x = checksum → answer = Ok path).
Proof.
  intros Hp. unfold keep_existing, read_file. destruct (io (IoRead path)); [done|].
  destruct (d !! path) as [existing|] eqn:E; [|done]. destruct (verify_content checksum existing) as [[]|e] eqn:Ev; split_and!; try done.
  - intros p [= <-]. split; [done|]. apply verify_content_ok in Ev as [_ Hs]. by eapply stored_ok_intro.
  - intros _ x [= <-] Hs. rewrite (proj2 (verify_content_ok checksum existing) (conj (path_for_digest _ _ _ Hp) Hs)) in Ev. done.
Qed.

Lemma store_new_ok io raced c checksum path content d :
  path_for c checksum = Ok path → sha256_hex content = checksum → d !! path = None →
  let '(d', answer) := store_new io raced d (join_path (cache_root c) "sha256") path checksum content in
  (∀ p, answer = Ok p → p = path ∧ stored_ok c checksum path d') ∧ (∀ p, p ≠ path → d' !! p = d !! p) ∧
  ((∀ call, io call = None) → (∀ x, raced = Some x → sha256_hex x = checksum) → answer = Ok path).
Proof.
  intros Hp Hs Hd. unfold store_new. destruct (io (IoCreateDirectory _)) eqn:E1; [split_and!; [done|done|by intros H'; rewrite H' in E1]|].
  destruct (io (IoTemporary _)) eqn:E2; [split_and!; [done|done|by intros H'; rewrite H' in E2]|].
  destruct (io (IoWrite _ _)) eqn:E3; [split_and!; [done|done|by intros H'; rewrite H' in E3]|].
  destruct (io (IoSync _)) eqn:E4; [split_and!; [done|done|by intros H'; rewrite H' in E4]|].
  destruct raced as [other|].
  - rewrite lookup_insert_eq. pose proof (keep_existing_ok io c checksum path (<[path := other]> d) Hp) as Hk.
    destruct (keep_existing _ _ _ _) as [d' answer]. destruct Hk as (-> & Hok & Hlive). split_and!.
    + done.
    + intros p Hne. by rewrite lookup_insert_ne.
    + intros Hio Hr. eapply Hlive; [apply Hio|apply lookup_insert_eq|by apply Hr].
  - rewrite Hd. destruct (io (IoRename _)) eqn:E5; [split_and!; [done|done|by intros H'; rewrite H' in E5]|]. split_and!.
    + intros p [= <-]. split; [done|]. eapply stored_ok_intro; [done|apply lookup_insert_eq|done].
    + intros p Hne. by rewrite lookup_insert_ne.
    + done.
Qed.
End cache.

(** Whatever fails and whatever other processes write meanwhile, a successful
    [store] leaves at the path of the digest content with that digest, which later
    loads return; it never changes an existing entry nor touches another path, and
    it succeeds when nothing fails and what is found there has the digest.  [load]
    only returns content with the digest asked for. *)
Theorem cache_keeps_verified_content `{SemVer} io raced c checksum content d :
  let '(d', answer) := cache_store io raced c checksum content d in
  (∀ path, answer = Ok path → stored_ok c checksum path d') ∧
  (∀ path x, d !! path = Some x → d' !! path = Some x) ∧
  (∀ path, path_for c checksum ≠ Ok path → d' !! path = d !! path) ∧
  (is_digest checksum = true → sha256_hex content = checksum → (∀ call, io call = None) →
   (∀ path x, path_for c checksum = Ok path → d !! path = Some x ∨ raced = Some x → sha256_hex x = checksum) →
   ∃ path, answer = Ok path) ∧
  (∀ io x, cache_load io c checksum d = Ok x → sha256_hex x = checksum).
Proof.
  assert (∀ io x, cache_load io c checksum d = Ok x → sha256_hex x = checksum) as Hload.
  { clear. intros io x. unfold cache_load. destruct (path_for c checksum) as [path|]; [|done].
    destruct (read_file io d path) as [y|]; [|done]. destruct (verify_content checksum y) as [[]|] eqn:E; [|done].
    intros [= <-]. by apply verify_content_ok in E as [_ ?]. }
  unfold cache_store. destruct (verify_content checksum content) as [[]|e] eqn:Ev.
  2: { split_and!; [done..| |done]. intros Hd Hs. by rewrite (proj2 (verify_content_ok checksum content) (conj Hd Hs)) in Ev. }
  apply verify_content_ok in Ev as [Hdigest Hsum].
  destruct (path_for c checksum) as [path|e] eqn:Ep.
  2: { unfold path_for, validate_key in Ep. by rewrite Hdigest in Ep. }
  case_bool_decide as Hex.
  - pose proof (keep_existing_ok io c checksum path d Ep) as Hk. destruct (keep_existing _ _ _ _) as [d' answer].
    destruct Hk as (-> & Hok & Hlive). split_and!; [|done|done| |done].
    + intros p Hp. by destruct (Hok p Hp) as [-> ?].
    + intros _ _ Hio Hx. destruct Hex as [x Hd]. exists path. eapply Hlive; [apply Hio|exact Hd|]. eapply Hx; [done|by left].
  - apply eq_None_not_Some in Hex. pose proof (store_new_ok io raced c checksum path content d Ep Hsum Hex) as Hk.
    destruct (store_new _ _ _ _ _ _ _) as [d' answer]. destruct Hk as (Hok & Hsame & Hlive). split_and!; [| | | |done].
    + intros p Hp. by destruct (Hok p Hp) as [-> ?].
    + intros p x Hx. rewrite Hsame; [done|]. intros ->. congruence.
    + intros p Hp. apply Hsame. congruence.
    + intros _ _ Hio Hx. exists path. apply Hlive; [done|]. intros x Hr. eapply Hx; [done|by right].
Qed.

(** ** Lockfiles *)

(** TOML is read back, and a comment in front of it is skipped. *)
Class LockfileLaws `{LockfileCodec} : Prop := {
  lockfile_law resolution text : encode_resolution resolution = Ok text → decode_resolution text = Ok resolution;
  comment_law text : decode_resolution (lockfile_header ++ text) = decode_resolution text;
  utf8_law resolution text : encode_resolution resolution = Ok text → utf8_valid (lockfile_header ++ text) = true
}.

(** A lockfile that is written is read back, and a failed write leaves the disk as it was. *)
Theorem lockfile_round_trip `{LockfileLaws} io path resolution d :
  let '(d', answer) := write_lockfile io path resolution d in
  match answer with
  | Ok _ => ∀ io, io (IoRead path) = None → read_lockfile io path d' = Ok resolution
  | Err _ => d' = d
  end.
Proof.
  unfold write_lockfile, lockfile_bytes. destruct (encode_resolution resolution) as [text|] eqn:E; [|done].
  destruct (io (IoTemporary _)); [done|]. destruct (io (IoWrite _ _)); [done|]. destruct (io (IoSync _)); [done|].
  destruct (io (IoRename _)); [done|]. intros io' Hio. unfold read_lockfile, read_file.
  by rewrite Hio, lookup_insert_eq, (utf8_law _ _ E), comment_law, (lockfile_law _ _ E).
Qed.
