(* ===== verification/Transport.v ===== *)
(** * Registry transport (crates/syllog-registry-client/src/transport.rs)

    Publication and resumable downloads over HTTP.  [reqwest] and its URL parser,
    the JSON of receipts and the server are arguments; files are those of Storage.
    A response carries its chunks, up to the end or the failure of the stream. *)

From Stdlib Require Import Ascii.
From stdpp Require Import base gmap strings numbers pretty list.
From S2P Require Import Prelude Text Resolver Registry Storage.
Open Scope string_scope.
Open Scope list_scope.
Open Scope N_scope.

Record HttpResponse := { rs_status : N; rs_content_range : option string; rs_chunks : list bytes; rs_failure : option string }.

Record ParsedUrl := {
  url_username : string; url_password : option string; url_query : option string; url_fragment : option string;
  url_host : option string; url_scheme : string
}.

(** [String::from_utf8_lossy] of the bytes, where there are any. *)
Inductive StatusMessage := Unreadable | Lossy (content : bytes).

(** [Path::parent] on Unix. *)
Definition render_component (c : Component) : string :=
  match c with RootDir => "" | CurDir => "." | ParentDir => ".." | Normal name => name end.

Definition render_components (cs : list Component) : string :=
  match cs with [RootDir] => "/" | _ => join "/" (map render_component cs) end.

Definition parent_path (path : string) : option string :=
  match components path with
  | [] | [RootDir] => None
  | cs => Some (render_components (removelast cs))
  end.

Definition partial_path (destination : string) : string := destination +:+ ".part".

Definition is_success (status : N) : bool := bool_decide (200 ≤ status) && bool_decide (status < 300).
Definition PARTIAL_CONTENT : N := 206.

(** [trim_end_matches('/')] *)
Fixpoint trim_slashes (s : string) : string :=
  match s with
  | EmptyString => EmptyString
  | String c s => match trim_slashes s with
                  | EmptyString => if bool_decide (c = "/"%char) then EmptyString else String c EmptyString
                  | t => String c t
                  end
  end.

Section transport.
Context `{RegistryCodec}.

Inductive TransportError :=
| Configuration (text : string)
| Http (text : string)
| Status (status : N) (message : StatusMessage)
| InvalidRange (expected : N) (received : option string)
| DownloadChecksum (expected actual : string)
| Integrity (text : string)
| TransportIo (path : string) (source : IoFailure)
| InvalidArchive (e : RegistryError).

Record ProvenanceStatement := {
  pv_schema_version : N; pv_archive_checksum : string; pv_compiler : string; pv_source_revision : string
}.

Record RemotePublication := { rp_publication : PublishRequest; rp_provenance : ProvenanceStatement }.

Record RemotePublishReceipt := { rr_name : string; rr_version : Version; rr_checksum : string; rr_provenance_id : string }.

Record HttpRequest := {
  hr_url : string; hr_authorization : string; hr_range : option string; hr_body : option RemotePublication
}.

Record HttpRegistryClient := { base_url : string; credential : string }.

(** The network: one answer per request. *)
Abbreviation network := (HttpRequest → result HttpResponse string).

(** ** The client *)

Definition is_loopback (host : option string) : bool :=
  match host with
  | Some host => bool_decide (host = "localhost") || bool_decide (host = "127.0.0.1") || bool_decide (host = "::1")
  | None => false
  end.

Definition client_new (parse_url : string → result ParsedUrl string) (build : result unit string)
    (url credential : string) (deadline : N) : result HttpRegistryClient TransportError :=
  if bool_decide (deadline = 0) then Err (Configuration "deadline must be greater than zero")
  else
    let url := trim_slashes url in
    match parse_url url with
    | Err e => Err (Configuration e)
    | Ok parsed =>
        if negb (bool_decide (url_username parsed = "")) || bool_decide (is_Some (url_password parsed))
           || bool_decide (is_Some (url_query parsed)) || bool_decide (is_Some (url_fragment parsed))
        then Err (Configuration "registry URL must not contain credentials, a query, or a fragment")
        else if negb (bool_decide (url_scheme parsed = "https")) && negb (is_loopback (url_host parsed))
        then Err (Configuration "registry URL must use HTTPS except for loopback contract servers")
        else match build with
             | Err e => Err (Http e)
             | Ok _ => Ok {| base_url := url; credential := credential |}
             end
    end.

(** [authorized] *)
Definition request_to (c : HttpRegistryClient) (path : string) (range : option string) (body : option RemotePublication) : HttpRequest :=
  {| hr_url := base_url c +:+ path; hr_authorization := "Bearer " +:+ credential c; hr_range := range; hr_body := body |}.

(** At most 4096 bytes of an unsuccessful response. *)
Fixpoint read_limited (chunks : list bytes) (content : bytes) : bytes :=
  if bool_decide (4096 ≤ length content)%nat then content
  else match chunks with
       | [] => content
       | chunk :: chunks => read_limited chunks (content ++ take (min (length chunk) (4096 - length content)) chunk)
       end.

Definition status_error (response : HttpResponse) : TransportError :=
  let content := read_limited (rs_chunks response) [] in
  Status (rs_status response) (match content with [] => Unreadable | _ => Lossy content end).

Definition successful (response : HttpResponse) : result HttpResponse TransportError :=
  if is_success (rs_status response) then Ok response else Err (status_error response).

(** The whole body of a response, as [json] reads it. *)
Definition response_body (response : HttpResponse) : result bytes TransportError :=
  match rs_failure response with Some e => Err (Http e) | None => Ok (concat (rs_chunks response)) end.

Definition remote_publish (decode_receipt : bytes → result RemotePublishReceipt string) (send : network) (c : HttpRegistryClient)
    (publication : PublishRequest) (provenance : ProvenanceStatement) : result RemotePublishReceipt TransportError :=
  let u := rq_unsigned publication in
  if bool_decide (pv_archive_checksum provenance ≠ us_checksum u)
  then Err (Integrity "provenance checksum does not match publication")
  else match send (request_to c "/v1/publications" None (Some {| rp_publication := publication; rp_provenance := provenance |})) with
  | Err e => Err (Http e)
  | Ok response =>
      match successful response with
      | Err e => Err e
      | Ok response =>
          match response_body response with
          | Err e => Err e
          | Ok body =>
              match decode_receipt body with
              | Err e => Err (Http e)
              | Ok receipt =>
                  if negb (bool_decide (rr_name receipt = pa_name (us_archive u)))
                     || negb (bool_decide (rr_version receipt = pa_version (us_archive u)))
                     || negb (bool_decide (rr_checksum receipt = us_checksum u))
                  then Err (Integrity "publication receipt does not match signed request")
                  else Ok receipt
              end
          end
      end
  end.

(** ** Downloads *)

(** The chunks written to the open file; [torn k] bytes of chunk [k] are on disk
    when its write fails. *)
Fixpoint write_chunks (io : faults) (torn : nat → nat) (path : string) (k : nat) (chunks : list bytes) (failure : option string)
    (content : bytes) : bytes * result unit TransportError :=
  match chunks with
  | [] => (content, match failure with Some e => Err (Http e) | None => Ok tt end)
  | chunk :: chunks =>
      match io (IoWrite path k) with
      | Some e => (content ++ take (torn k) chunk, Err (TransportIo path e))
      | None => write_chunks io torn path (S k) chunks failure (content ++ chunk)
      end
  end.

Definition write_response (io : faults) (torn : nat → nat) (path : string) (response : HttpResponse) (append : bool) (d : disk)
    : disk * result unit TransportError :=
  match io (IoOpen path) with
  | Some e => (d, Err (TransportIo path e))
  | None =>
      let content := if append then default [] (d !! path) else [] in
      let '(content, written) := write_chunks io torn path 0 (rs_chunks response) (rs_failure response) content in
      let d := <[path := content]> d in
      match written with
      | Err e => (d, Err e)
      | Ok _ => match io (IoSync path) with Some e => (d, Err (TransportIo path e)) | None => (d, Ok tt) end
      end
  end.

Definition verify_partial (io : faults) (partial name : string) (version : Version) (checksum : string) (d : disk)
    : result PackageArchive TransportError :=
  match read_file io d partial with
  | Err e => Err (TransportIo partial e)
  | Ok content =>
      let actual := sha256_hex content in
      if bool_decide (actual ≠ checksum) then Err (DownloadChecksum checksum actual)
      else match from_bytes content with
      | Err e => Err (InvalidArchive e)
      | Ok archive =>
          if negb (bool_decide (pa_name archive = name)) || negb (bool_decide (pa_version archive = version))
          then Err (Integrity "downloaded archive identity does not match request")
          else Ok archive
      end
  end.

(** The size of the partial file, 0 without one. *)
Definition partial_offset (io : faults) (partial : string) (d : disk) : result N IoFailure :=
  match io (IoMetadata partial) with
  | Some Missing => Ok 0
  | Some e => Err e
  | None => match d !! partial with Some content => Ok (N.of_nat (length content)) | None => Ok 0 end
  end.

(** The check of the [Content-Range] of a partial response. *)
Definition range_matches (offset : N) (received : option string) : bool :=
  match received with Some value => starts_with ("bytes " +:+ pretty offset +:+ "-") value | None => false end.

Definition archive_path (name : string) (version : Version) : string :=
  "/v1/packages/" +:+ name +:+ "/" +:+ version_display version +:+ "/archive".

(** From the response on. *)
Definition receive (io : faults) (torn : nat → nat) (name : string) (version : Version) (checksum destination : string) (offset : N)
    (response : HttpResponse) (d : disk) : disk * result PackageArchive TransportError :=
  let partial := partial_path destination in
  if negb (is_success (rs_status response)) then (d, Err (status_error response))
  else
    let append := bool_decide (0 < offset) && bool_decide (rs_status response = PARTIAL_CONTENT) in
    if append && negb (range_matches offset (rs_content_range response))
    then (d, Err (InvalidRange offset (rs_content_range response)))
    else match write_response io torn partial response append d with
    | (d, Err e) => (d, Err e)
    | (d, Ok _) =>
        match verify_partial io partial name version checksum d with
        | Err e => (d, Err e)
        | Ok archive =>
            match io (IoRename destination) with
            | Some e => (d, Err (TransportIo destination e))
            | None =>
                (match d !! partial with Some content => <[destination := content]> (delete partial d) | None => d end, Ok archive)
            end
        end
    end.

Definition download_resumable (io : faults) (torn : nat → nat) (send : network) (c : HttpRegistryClient) (name : string) (version : Version)
    (checksum destination : string) (d : disk) : disk * result PackageArchive TransportError :=
  if negb (valid_package_name name) then (d, Err (Configuration ("invalid package name '" +:+ name +:+ "'")))
  else if negb (is_digest checksum) then (d, Err (Configuration "package checksum must be 64 lowercase hexadecimal characters"))
  else match parent_path destination ≫= λ parent, (λ e, (parent, e)) <$> io (IoCreateDirectory parent) with
  | Some (parent, e) => (d, Err (TransportIo parent e))
  | None =>
      let partial := partial_path destination in
      match partial_offset io partial d with
      | Err e => (d, Err (TransportIo partial e))
      | Ok offset =>
          let range := if bool_decide (0 < offset) then Some ("bytes=" +:+ pretty offset +:+ "-") else None in
          match send (request_to c (archive_path name version) range None) with
          | Err e => (d, Err (Http e))
          | Ok response => receive io torn name version checksum destination offset response d
          end
      end
  end.
End transport.

(** * What downloads leave on disk (crates/syllog-registry-client/src/transport.rs) *)

Open Scope string_scope.
Open Scope list_scope.
Open Scope N_scope.

Lemma partial_path_ne destination : partial_path destination ≠ destination.
Proof.
  unfold partial_path. induction destination as [|c s IH]; [done|]. intros [= E]. by apply IH.
Qed.

(** An unsuccessful response is read up to a bound. *)
Lemma read_limited_bound chunks content : (length content ≤ 4096 → length (read_limited chunks content) ≤ 4096)%nat.
Proof.
  revert content. induction chunks as [|chunk chunks IH]; intros content Hl; cbn; case_bool_decide; try done.
  apply IH. rewrite length_app, length_take. lia.
Qed.

Section transport.
Context `{RegistryCodec}.
Context (io : faults) (torn : nat → nat).

Lemma write_response_frame path response append d p :
  p ≠ path → (write_response io torn path response append d).1 !! p = d !! p.
Proof.
  intros Hne. unfold write_response. destruct (io (IoOpen path)); [done|].
  destruct (write_chunks _ _ _ _ _ _ _) as [content [[]|e]]; [destruct (io (IoSync path))|]; cbn; by rewrite lookup_insert_ne.
Qed.

Lemma verify_partial_ok partial name version checksum d archive :
  verify_partial io partial name version checksum d = Ok archive →
  ∃ content, d !! partial = Some content ∧ sha256_hex content = checksum ∧ from_bytes content = Ok archive ∧
    pa_name archive = name ∧ pa_version archive = version.
Proof.
  unfold verify_partial, read_file. destruct (io (IoRead partial)); [done|]. destruct (d !! partial) as [content|]; [|done].
  case_bool_decide as Hs; [done|]. destruct (from_bytes content) as [a|] eqn:E; [|done].
  case_bool_decide; [|done]. case_bool_decide; [|done]. intros [= <-]. by exists content.
Qed.

(** The files of a download: the destination is complete or untouched. *)
Definition download_outcome (name : string) (version : Version) (checksum destination : string) (d : disk)
    (outcome : disk * result PackageArchive TransportError) : Prop :=
  match outcome.2 with
  | Ok archive => ∃ content, outcome.1 !! destination = Some content ∧ outcome.1 !! partial_path destination = None ∧
      sha256_hex content = checksum ∧ from_bytes content = Ok archive ∧ pa_name archive = name ∧ pa_version archive = version
  | Err _ => outcome.1 !! destination = d !! destination
  end ∧ ∀ p, p ≠ destination → p ≠ partial_path destination → outcome.1 !! p = d !! p.

Lemma unchanged_outcome name version checksum destination d e : download_outcome name version checksum destination d (d, Err e).
Proof. by split. Qed.

Lemma receive_outcome name version checksum destination offset response d :
  download_outcome name version checksum destination d (receive io torn name version checksum destination offset response d).
Proof.
  unfold receive. pose proof (partial_path_ne destination) as Hne. destruct (negb _); [apply unchanged_outcome|].
  match goal with |- context [write_response _ _ _ _ ?b _] => generalize b; intros append end.
  destruct (append && _); [apply unchanged_outcome|].
  pose proof (λ p, write_response_frame (partial_path destination) response append d p) as Hframe.
  destruct (write_response _ _ _ _ _ _) as [d1 [[]|e]]; cbn in Hframe.
  2: { split; cbn; [by apply Hframe|]. intros p _ Hp. by apply Hframe. }
  destruct (verify_partial _ _ _ _ _ _) as [archive|e] eqn:Ev.
  2: { split; cbn; [by apply Hframe|]. intros p _ Hp. by apply Hframe. }
  destruct (io (IoRename destination)).
  { split; cbn; [by apply Hframe|]. intros p _ Hp. by apply Hframe. }
  apply verify_partial_ok in Ev as (content & Hc & Hrest). rewrite Hc. split; cbn.
  - exists content. rewrite lookup_insert_eq, lookup_insert_ne, lookup_delete_eq by done. done.
  - intros p Hd Hp. rewrite lookup_insert_ne, lookup_delete_ne by done. by apply Hframe.
Qed.
End transport.

Lemma download_resumable_outcome `{RegistryCodec} io torn send c name version checksum destination d :
  download_outcome name version checksum destination d (download_resumable io torn send c name version checksum destination d).
Proof.
  unfold download_resumable. destruct (negb _); [apply unchanged_outcome|]. destruct (negb _); [apply unchanged_outcome|].
  destruct (_ ≫= _) as [[parent e]|]; [apply unchanged_outcome|]. destruct (partial_offset _ _ _); [|apply unchanged_outcome].
  destruct (send _); [apply receive_outcome|apply unchanged_outcome].
Qed.

(** C25: whatever the server sends and whatever fails, a download either leaves the
    destination as it was, or replaces it by content with the locked digest that
    decodes to an archive of the requested name and version, with no partial file
    left; no other file is touched. *)
Theorem download_verified `{RegistryCodec} io torn send c name version checksum destination d :
  download_outcome name version checksum destination d (download_resumable io torn send c name version checksum destination d).
Proof. apply download_resumable_outcome. Qed.

(** ** Resumption *)

Section resume.
Context `{RegistryCodec} (io : faults) (torn : nat → nat).
Hypothesis Hio : ∀ call, io call = None.

(** A server of some content: it honours ranges, may break off, and refuses a range
    past the end, as RFC 9110 has it. *)
Record server (content : bytes) (send : HttpRequest → result HttpResponse string) : Prop := {
  sv_whole request : hr_range request = None → ∃ response, send request = Ok response ∧ rs_status response = 200 ∧
    concat (rs_chunks response) `prefix_of` content ∧ (rs_failure response = None → concat (rs_chunks response) = content);
  sv_rest request n : hr_range request = Some ("bytes=" +:+ pretty n +:+ "-") → (N.to_nat n < length content)%nat →
    ∃ response, send request = Ok response ∧ rs_status response = PARTIAL_CONTENT ∧
      range_matches n (rs_content_range response) = true ∧ concat (rs_chunks response) `prefix_of` drop (N.to_nat n) content ∧
      (rs_failure response = None → concat (rs_chunks response) = drop (N.to_nat n) content);
  sv_beyond request n : hr_range request = Some ("bytes=" +:+ pretty n +:+ "-") → (length content ≤ N.to_nat n)%nat →
    ∃ response, send request = Ok response ∧ rs_status response = 416
}.

Lemma write_chunks_all path k chunks failure content :
  write_chunks io torn path k chunks failure content =
  (content ++ concat chunks, match failure with Some e => Err (Http e) | None => Ok tt end).
Proof.
  revert k content. induction chunks as [|chunk chunks IH]; intros k content; cbn; [by rewrite app_nil_r|].
  by rewrite Hio, IH, app_assoc.
Qed.

(** The content wanted. *)
Context (content : bytes) (archive : PackageArchive) (name : string) (version : Version) (checksum destination : string).
Hypothesis Hsum : sha256_hex content = checksum.
Hypothesis Harchive : from_bytes content = Ok archive.
Hypothesis Hname : pa_name archive = name.
Hypothesis Hversion : pa_version archive = version.

(** Either the archive is there, or the connection broke and what was received is kept. *)
Definition progressed (before : bytes) (outcome : disk * result PackageArchive TransportError) : Prop :=
  (outcome.2 = Ok archive ∧ outcome.1 !! destination = Some content) ∨
  ∃ e after, outcome.2 = Err (Http e) ∧ outcome.1 !! partial_path destination = Some after ∧
    before `prefix_of` after ∧ after `prefix_of` content.

Lemma receive_progress offset response before d :
  is_success (rs_status response) = true →
  (if bool_decide (0 < offset) && bool_decide (rs_status response = PARTIAL_CONTENT)
   then range_matches offset (rs_content_range response) = true ∧ default [] (d !! partial_path destination) = before
   else before = []) →
  before ++ concat (rs_chunks response) `prefix_of` content →
  (rs_failure response = None → before ++ concat (rs_chunks response) = content) →
  progressed before (receive io torn name version checksum destination offset response d).
Proof.
  intros Hs Happ Hp Hall. unfold receive. rewrite Hs. cbn [negb].
  destruct (bool_decide (0 < offset) && bool_decide (rs_status response = PARTIAL_CONTENT)) eqn:Ea;
    [destruct Happ as [-> Hb]|]; cbn [andb negb]; unfold write_response; rewrite Hio, write_chunks_all;
    [rewrite Hb|rewrite <-Happ].
  all: destruct (rs_failure response) as [e|]; [right; exists e, (before ++ concat (rs_chunks response)); cbn;
    split_and!; [done|by rewrite lookup_insert_eq|by eexists|done]|].
  all: rewrite Hio, (Hall eq_refl); unfold verify_partial, read_file; rewrite Hio, lookup_insert_eq.
  all: rewrite bool_decide_eq_false_2 by (rewrite Hsum; auto); rewrite Harchive, !bool_decide_eq_true_2 by done; cbn [negb orb].
  all: rewrite Hio; left; cbn; split; [done|by rewrite lookup_insert_eq].
Qed.
End resume.

(** While the disk works and the server has the content wanted, a download that
    was interrupted is taken up where it stopped: from a partial file that is a
    proper prefix of the content, an attempt delivers the archive, or its connection
    breaks and everything received so far is kept for the next attempt. *)
Theorem download_resumes `{RegistryCodec} io torn send c content archive name version checksum destination d before :
  (∀ call, io call = None) → server content send → valid_package_name name = true → is_digest checksum = true →
  sha256_hex content = checksum → from_bytes content = Ok archive → pa_name archive = name → pa_version archive = version →
  default [] (d !! partial_path destination) = before → before `prefix_of` content → before ≠ content →
  progressed content archive destination before (download_resumable io torn send c name version checksum destination d).
Proof.
  intros Hio [Hwhole Hrest _] Hvalid Hdigest Hsum Harchive Hname Hversion Hbefore [rest ->] Hne.
  unfold download_resumable. rewrite Hvalid, Hdigest. cbn [negb].
  assert ((parent_path destination ≫= λ parent, (λ e, (parent, e)) <$> io (IoCreateDirectory parent)) = None) as ->.
  { destruct (parent_path destination); cbn; [by rewrite Hio|done]. }
  unfold partial_offset. rewrite Hio.
  replace (match d !! partial_path destination with Some x => Ok (N.of_nat (length x)) | None => Ok 0 end : result N IoFailure)
    with (Ok (N.of_nat (length before)) : result N IoFailure) by (rewrite <-Hbefore; by destruct (d !! partial_path destination)).
  case_bool_decide as Ho; match goal with |- context [send ?r] => set (request := r) end.
  - destruct (Hrest request (N.of_nat (length before)) eq_refl) as (response & -> & Hstatus & Hrange & Hprefix & Hfull).
    { rewrite length_app, Nat2N.id. destruct rest; [by rewrite app_nil_r in Hne|cbn; lia]. }
    rewrite Nat2N.id, drop_app_length in Hprefix, Hfull. apply receive_progress; try done.
    + by rewrite Hstatus.
    + rewrite Hstatus, bool_decide_eq_true_2, bool_decide_eq_true_2 by done. done.
    + by apply prefix_app.
    + intros E. by rewrite Hfull.
  - destruct (Hwhole request eq_refl) as (response & -> & Hstatus & Hprefix & Hfull).
    assert (before = []) as -> by (destruct before; [done|cbn in Ho; lia]). apply receive_progress; try done.
    by rewrite Hstatus.
Qed.

(** A partial file that is complete is never taken up: the range past its end is
    refused, every time. *)
Theorem complete_partial_is_stuck `{RegistryCodec} io torn send c content name version checksum destination d partial :
  (∀ call, io call = None) → server content send → valid_package_name name = true → is_digest checksum = true →
  d !! partial_path destination = Some partial → partial ≠ [] → (length content ≤ length partial)%nat →
  ∃ message, download_resumable io torn send c name version checksum destination d = (d, Err (Status 416 message)).
Proof.
  intros Hio [_ _ Hbeyond] Hvalid Hdigest Hpartial Hne Hlen. unfold download_resumable. rewrite Hvalid, Hdigest. cbn [negb].
  assert ((parent_path destination ≫= λ parent, (λ e, (parent, e)) <$> io (IoCreateDirectory parent)) = None) as ->.
  { destruct (parent_path destination); cbn; [by rewrite Hio|done]. }
  unfold partial_offset. rewrite Hio, Hpartial. rewrite bool_decide_eq_true_2 by (destruct partial; [done|cbn; lia]).
  match goal with |- context [send ?r] => set (request := r) end.
  destruct (Hbeyond request (N.of_nat (length partial)) eq_refl) as (response & -> & Hstatus); [by rewrite Nat2N.id|].
  unfold receive, status_error. rewrite Hstatus. by eexists.
Qed.

(** ** An interrupted download *)

Definition wanted : bytes := digits (encode sample_archive).

Definition range_from (n : nat) : string := "bytes=" +:+ pretty (N.of_nat n) +:+ "-".

Lemma app_string_inj_l (a b c : string) : a +:+ b = a +:+ c → b = c.
Proof. induction a as [|x a IH]; [done|]. cbn. intros [= E]. by apply IH. Qed.

Lemma app_string_inj_r (a b : string) : a +:+ "-" = b +:+ "-" → a = b.
Proof.
  revert b. induction a as [|x a IH]; intros [|y b]; try done.
  - intros [= -> E]. by destruct b.
  - intros [= -> E]. by destruct a.
  - intros [= -> E]. f_equal. by apply IH.
Qed.

Lemma range_from_inj m n : range_from m = range_from n → m = n.
Proof. unfold range_from. intros E%app_string_inj_l%app_string_inj_r%(inj pretty). by apply Nat2N.inj. Qed.

Lemma starts_with_self s : starts_with s s = true.
Proof. induction s as [|c s IH]; [done|]. cbn. by rewrite bool_decide_eq_true_2. Qed.

(** A server that sends everything asked for in one chunk. *)
Definition range_start (range : string) : option nat := List.find (λ n, bool_decide (range = range_from n)) (seq 0 (length wanted)).

Lemma range_start_known n : (n < length wanted)%nat → range_start (range_from n) = Some n.
Proof.
  intros Hn. unfold range_start. destruct (List.find _ _) as [m|] eqn:E.
  - apply find_some in E as [_ Em%bool_decide_eq_true]. by apply range_from_inj in Em as ->.
  - assert (In n (seq 0 (length wanted))) as Hin by (apply in_seq; lia). apply (find_none _ _ E) in Hin.
    by apply bool_decide_eq_false in Hin.
Qed.

Lemma range_start_beyond n : (length wanted ≤ n)%nat → range_start (range_from n) = None.
Proof.
  intros Hn. unfold range_start. destruct (List.find _ _) as [m|] eqn:E; [|done].
  apply find_some in E as [Hm%in_seq Em%bool_decide_eq_true]. apply range_from_inj in Em as ->. lia.
Qed.

Definition sample_send (request : HttpRequest) : result HttpResponse string :=
  match hr_range request with
  | None => Ok {| rs_status := 200; rs_content_range := None; rs_chunks := [wanted]; rs_failure := None |}
  | Some range =>
      match range_start range with
      | Some n => Ok {| rs_status := 206; rs_content_range := Some ("bytes " +:+ pretty (N.of_nat n) +:+ "-");
                        rs_chunks := [drop n wanted]; rs_failure := None |}
      | None => Ok {| rs_status := 416; rs_content_range := None; rs_chunks := []; rs_failure := None |}
      end
  end.

Lemma sample_server : server wanted sample_send.
Proof.
  split.
  - intros request Hr. unfold sample_send. rewrite Hr. eexists. split; [done|]. cbn. by rewrite app_nil_r.
  - intros request n Hr Hn. unfold sample_send. rewrite Hr.
    assert ("bytes=" +:+ pretty n +:+ "-" = range_from (N.to_nat n)) as -> by (unfold range_from; by rewrite N2Nat.id).
    rewrite (range_start_known _ Hn). eexists. split; [done|]. cbn. rewrite app_nil_r, N2Nat.id. by rewrite starts_with_self.
  - intros request n Hr Hn. unfold sample_send. rewrite Hr.
    assert ("bytes=" +:+ pretty n +:+ "-" = range_from (N.to_nat n)) as -> by (unfold range_from; by rewrite N2Nat.id).
    rewrite (range_start_beyond _ Hn). by eexists.
Qed.

(** Three bytes were received before the connection broke. *)
Lemma download_resumes_witness :
  progressed wanted sample_archive "tools.syl" (take 3 wanted)
    (download_resumable no_faults (λ _, 0%nat) sample_send {| base_url := "https://registry"; credential := "key" |} "tools-text"
       (1 : @Version numbered) (sha256_hex wanted) "tools.syl" {[partial_path "tools.syl" := take 3 wanted]}).
Proof.
  eapply (download_resumes no_faults); try reflexivity.
  - apply sample_server.
  - exists (drop 3 wanted). by rewrite take_drop.
  - intros E. apply (f_equal length) in E. vm_compute in E. discriminate E.
Defined.
