(* ===== verification/Sandbox.v ===== *)
(** * Sandbox for emitted modules (crates/syllog-runtime/src/lib.rs)

    Policies, the capability manifest of an artifact, and the execution of an export
    under limits.  [wasmparser], [wasmtime] and [serde_json] are the class
    [Wasmtime]; what wasmtime does between two questions to the limiter is a step
    of a [Run]. *)

From stdpp Require Import base gmap strings numbers pretty list.
From S2P Require Import Prelude Text Ir Interp Hir MirDrops Effects EffectsTheorems Registry.
Open Scope string_scope.
Open Scope list_scope.
Open Scope N_scope.

(** ** Policies *)

Inductive HostCapability := LogI32.

#[export] Instance host_capability_eq_dec : EqDecision HostCapability.
Proof. solve_decision. Defined.
#[export] Instance host_capability_countable : Countable HostCapability.
Proof. refine (inj_countable' (λ _, tt) (λ _, LogI32) _). by intros []. Defined.

(** [HostCapability::import] *)
Definition capability_import (c : HostCapability) : string * string := match c with LogI32 => ("syllog", "log_i32") end.

Record SandboxPolicy := {
  policy_fuel : N; max_memory_bytes : N; capabilities : gset HostCapability; effects : gset Effect
}.

Inductive PolicyError := ZeroFuel | ZeroMemory.

Definition policy_new (fuel memory : N) : result SandboxPolicy PolicyError :=
  if bool_decide (fuel = 0) then Err ZeroFuel
  else if bool_decide (memory = 0) then Err ZeroMemory
  else Ok {| policy_fuel := fuel; max_memory_bytes := memory; capabilities := ∅; effects := ∅ |}.

Definition allow (c : HostCapability) (p : SandboxPolicy) : SandboxPolicy :=
  {| policy_fuel := policy_fuel p; max_memory_bytes := max_memory_bytes p; capabilities := {[c]} ∪ capabilities p; effects := effects p |}.

Definition allow_effect (e : Effect) (p : SandboxPolicy) : SandboxPolicy :=
  {| policy_fuel := policy_fuel p; max_memory_bytes := max_memory_bytes p; capabilities := capabilities p; effects := {[e]} ∪ effects p |}.

(** ** The engine *)

Inductive Payload := CustomSection (name : string) (data : bytes) | OtherPayload.

Inductive TrapReason := OutOfFuel | OtherTrap (text : string).

(** An execution, from one question to the limiter to the next. *)
Inductive Run (A : Type) :=
| Finished (value : A)
| Trapped (reason : TrapReason)
| GrowMemory (desired : N) (rest : Run A)
| GrowTable (desired : N) (rest : Run A).
Arguments Finished {_}.
Arguments Trapped {_}.
Arguments GrowMemory {_}.
Arguments GrowTable {_}.

Inductive ValueType := TypeI32 | TypeI64.

Class Wasmtime := {
  WasmModule : Type;
  (** [Parser::parse_all] *)
  parse_all : bytes → list (result Payload string);
  (** [serde_json::from_slice] of a manifest *)
  decode_manifest : bytes → result CapabilityManifest string;
  (** [Module::new], its imports and its largest initial memory in pages *)
  compile_module : bytes → result WasmModule string;
  module_imports : WasmModule → list (string * string);
  max_initial_memory_size : WasmModule → option N;
  (** [Store::set_fuel] and [Linker::func_wrap] *)
  set_fuel : N → result unit string;
  link_function : string * string → result unit string;
  (** [Linker::instantiate] with some fuel, which leaves the rest of it *)
  instantiate : WasmModule → list (string * string) → N → Run N;
  (** [get_typed_func], and a call with some fuel *)
  typed_export : WasmModule → string → ValueType → result (N → Run Z) string
}.

Inductive SandboxError :=
| Compilation (text : string)
| Configuration (text : string)
| Instantiation (cause : string + option TrapReason)
| InvalidExport (export text : string)
| FuelExhausted
| MemoryLimitExceeded
| CapabilityDenied (module name : string)
| EffectDenied (effect : string)
| InvalidCapabilityManifest (reason : string)
| Execution (export : string) (reason : option TrapReason).

(** ** The limiter *)

Record MemoryLimiter := { max_bytes : N; exceeded : bool }.

(** [false] where [memory_growing] fails. *)
Definition memory_growing (desired : N) (l : MemoryLimiter) : MemoryLimiter * bool :=
  if bool_decide (max_bytes l < desired) then ({| max_bytes := max_bytes l; exceeded := true |}, false) else (l, true).

Definition table_growing (desired : N) (l : MemoryLimiter) : MemoryLimiter * bool := (l, true).

(** A failing limiter ends the execution; [Err None] is its error. *)
Fixpoint drive_run {A} (r : Run A) (l : MemoryLimiter) : MemoryLimiter * result A (option TrapReason) :=
  match r with
  | Finished x => (l, Ok x)
  | Trapped reason => (l, Err (Some reason))
  | GrowMemory desired rest => match memory_growing desired l with (l, true) => drive_run rest l | (l, false) => (l, Err None) end
  | GrowTable desired rest => match table_growing desired l with (l, true) => drive_run rest l | (l, false) => (l, Err None) end
  end.

Section sandbox.
Context `{Wasmtime}.

(** ** The manifest *)

(** Effects in the order of a [BTreeSet]. *)
Definition ordered_effects (s : gset Effect) : list Effect :=
  List.filter (λ e, bool_decide (e ∈ s)) [EffAlloc; EffAsync; EffIo; EffNetwork; EffProvider].

(** The loop over the payloads. *)
Fixpoint find_manifest (payloads : list (result Payload string)) (found : option CapabilityManifest)
    : result (option CapabilityManifest) SandboxError :=
  match payloads with
  | [] => Ok found
  | Err reason :: _ => Err (InvalidCapabilityManifest reason)
  | Ok (CustomSection name data) :: payloads =>
      if bool_decide (name = "syllog.capabilities") then
        match found with
        | Some _ => Err (InvalidCapabilityManifest "duplicate syllog.capabilities section")
        | None =>
            match decode_manifest data with
            | Err reason => Err (InvalidCapabilityManifest reason)
            | Ok decoded =>
                if bool_decide (format_version decoded = 1) then find_manifest payloads (Some decoded)
                else Err (InvalidCapabilityManifest ("unsupported manifest format " +:+ pretty (format_version decoded)))
            end
        end
      else find_manifest payloads found
  | Ok OtherPayload :: payloads => find_manifest payloads found
  end.

Definition enforce_effect_manifest (content : bytes) (p : SandboxPolicy) : result unit SandboxError :=
  match find_manifest (parse_all content) None with
  | Err e => Err e
  | Ok found =>
      match List.find (λ e, negb (bool_decide (e ∈ effects p))) (ordered_effects (required (default default_manifest found))) with
      | Some e => Err (EffectDenied (as_str e))
      | None => Ok tt
      end
  end.

(** ** Execution *)

Definition WASM_PAGE_BYTES : N := 64 * 1024.

Definition granted_import (p : SandboxPolicy) (i : string * string) : bool :=
  existsb (λ c, bool_decide (capability_import c = i)) (elements (capabilities p)).

Definition initial_memory_bytes (m : WasmModule) : N :=
  N.min (default 0 (max_initial_memory_size m) * WASM_PAGE_BYTES) u64_max.

(** The functions the linker is given. *)
Definition link_capabilities (p : SandboxPolicy) : result (list (string * string)) SandboxError :=
  if bool_decide (LogI32 ∈ capabilities p) then
    match link_function (capability_import LogI32) with
    | Err e => Err (Instantiation (inl e))
    | Ok _ => Ok [capability_import LogI32]
    end
  else Ok [].

(** From the store on. *)
Definition run_export (ty : ValueType) (m : WasmModule) (export : string) (p : SandboxPolicy) : result Z SandboxError :=
  let l := {| max_bytes := max_memory_bytes p; exceeded := false |} in
  match set_fuel (policy_fuel p) with
  | Err e => Err (Configuration e)
  | Ok _ =>
      match link_capabilities p with
      | Err e => Err e
      | Ok functions =>
          match drive_run (instantiate m functions (policy_fuel p)) l with
          | (_, Err reason) => Err (Instantiation (inr reason))
          | (l, Ok fuel) =>
              match typed_export m export ty with
              | Err e => Err (InvalidExport export e)
              | Ok call =>
                  match drive_run (call fuel) l with
                  | (_, Ok value) => Ok value
                  | (l, Err reason) =>
                      if exceeded l then Err MemoryLimitExceeded
                      else match reason with
                           | Some OutOfFuel => Err FuelExhausted
                           | _ => Err (Execution export reason)
                           end
                  end
              end
          end
      end
  end.

(** [execute_i32] and [execute_i64] *)
Definition execute_export (ty : ValueType) (content : bytes) (export : string) (p : SandboxPolicy) : result Z SandboxError :=
  match enforce_effect_manifest content p with
  | Err e => Err e
  | Ok _ =>
      match compile_module content with
      | Err e => Err (Compilation e)
      | Ok m =>
          match List.find (λ i, negb (granted_import p i)) (module_imports m) with
          | Some (module, name) => Err (CapabilityDenied module name)
          | None =>
              if bool_decide (max_memory_bytes p < initial_memory_bytes m) then Err MemoryLimitExceeded
              else run_export ty m export p
          end
      end
  end.
End sandbox.

(** * What the sandbox admits (crates/syllog-runtime/src/lib.rs) *)

Open Scope string_scope.
Open Scope list_scope.
Open Scope N_scope.

(** The sizes an execution asks for, and how it ends when they are granted. *)
Fixpoint requests {A} (r : Run A) : list N :=
  match r with
  | Finished _ | Trapped _ => []
  | GrowMemory desired rest => desired :: requests rest
  | GrowTable _ rest => requests rest
  end.

Fixpoint ending {A} (r : Run A) : result A TrapReason :=
  match r with
  | Finished x => Ok x
  | Trapped reason => Err reason
  | GrowMemory _ rest | GrowTable _ rest => ending rest
  end.

(** The limiter lets an execution run exactly as long as it keeps to the bound. *)
Lemma drive_exact {A} (r : Run A) bound :
  let l := {| max_bytes := bound; exceeded := false |} in
  drive_run r l =
  if forallb (λ n, bool_decide (n ≤ bound)) (requests r)
  then (l, match ending r with Ok x => Ok x | Err reason => Err (Some reason) end)
  else ({| max_bytes := bound; exceeded := true |}, Err None).
Proof.
  cbn zeta. induction r as [x|reason|desired rest IH|desired rest IH]; cbn; [done|done| |exact IH].
  unfold memory_growing. cbn. case_bool_decide as Hb.
  - by rewrite bool_decide_eq_false_2 by lia.
  - by rewrite bool_decide_eq_true_2 by lia.
Qed.

Section sandbox.
Context `{Wasmtime}.

(** The artifact embeds this manifest, or none. *)
Definition embeds (content : bytes) (m : option CapabilityManifest) : Prop := find_manifest (parse_all content) None = Ok m.

Lemma find_manifest_found payloads m : ∃ r, find_manifest payloads (Some m) = r ∧ ∀ found, r = Ok found → found = Some m.
Proof.
  induction payloads as [|[[name data|]|reason] payloads IH]; cbn; [eexists; split; [done|by intros ? [= <-]]| |exact IH|by eexists].
  case_bool_decide; [by eexists|exact IH].
Qed.

Lemma ordered_effects_elem s e : e ∈ ordered_effects s ↔ e ∈ s.
Proof.
  unfold ordered_effects. rewrite list_elem_of_In, filter_In, bool_decide_eq_true. split; [by intros [_ ?]|]. intros He. split; [|done].
  destruct e; cbn; repeat (first [left; reflexivity|right]).
Qed.

Lemma find_refusal_none {A} (p : A → bool) l : List.find (λ x, negb (p x)) l = None ↔ ∀ x, x ∈ l → p x = true.
Proof.
  split.
  - intros E x Hx%list_elem_of_In. apply (find_none _ _ E) in Hx. by apply negb_false_iff in Hx.
  - intros Hall. destruct (List.find _ l) as [x|] eqn:E; [|done]. apply find_some in E as [Hx%list_elem_of_In Hn%negb_true_iff].
    rewrite Hall in Hn; done.
Qed.

Lemma enforce_exact content p :
  enforce_effect_manifest content p = Ok tt ↔ ∃ m, embeds content m ∧ required (default default_manifest m) ⊆ effects p.
Proof.
  unfold enforce_effect_manifest, embeds. destruct (find_manifest _ None) as [found|e]; [|split; [done|by intros (m & ? & _)]].
  destruct (List.find _ _) as [e|] eqn:E.
  - split; [done|]. intros (m & [= <-] & Hsub). apply find_some in E as [Hin%list_elem_of_In Hn%negb_true_iff%bool_decide_eq_false].
    apply ordered_effects_elem in Hin. set_solver.
  - split; [|done]. intros _. exists found. split; [done|]. intros x Hx%ordered_effects_elem.
    pose proof (proj1 (find_refusal_none _ _) E x Hx) as Hb. by apply bool_decide_eq_true in Hb.
Qed.

Lemma granted_import_exact p i : granted_import p i = true ↔ ∃ c, c ∈ capabilities p ∧ capability_import c = i.
Proof.
  unfold granted_import. rewrite existsb_exists. setoid_rewrite <-list_elem_of_In. setoid_rewrite elem_of_elements.
  by setoid_rewrite bool_decide_eq_true.
Qed.

(** An execution the policy admits. *)
Record admitted (ty : ValueType) (content : bytes) (export : string) (p : SandboxPolicy) (value : Z) : Prop := {
  ad_effects : ∃ m, embeds content m ∧ required (default default_manifest m) ⊆ effects p;
  ad_run : ∃ m functions fuel call, compile_module content = Ok m ∧ set_fuel (policy_fuel p) = Ok tt ∧ link_capabilities p = Ok functions ∧
    (∀ i, i ∈ module_imports m → ∃ c, c ∈ capabilities p ∧ capability_import c = i) ∧ initial_memory_bytes m ≤ max_memory_bytes p ∧
    ending (instantiate m functions (policy_fuel p)) = Ok fuel ∧ typed_export m export ty = Ok call ∧ ending (call fuel) = Ok value ∧
    Forall (λ n, n ≤ max_memory_bytes p) (requests (instantiate m functions (policy_fuel p)) ++ requests (call fuel))
}.

(** An answer that contradicts the conditions. *)
Ltac refuted := split; [discriminate|]; let H := fresh in intros H; decompose [ex and] H; congruence.

Lemma forallb_bound bound l : forallb (λ n, bool_decide (n ≤ bound)) l = true ↔ Forall (λ n, n ≤ bound) l.
Proof. rewrite forallb_forall, Forall_forall. setoid_rewrite <-list_elem_of_In. by setoid_rewrite bool_decide_eq_true. Qed.

Lemma run_export_exact ty m export p value :
  run_export ty m export p = Ok value ↔
  ∃ functions fuel call, set_fuel (policy_fuel p) = Ok tt ∧ link_capabilities p = Ok functions ∧
    ending (instantiate m functions (policy_fuel p)) = Ok fuel ∧ typed_export m export ty = Ok call ∧ ending (call fuel) = Ok value ∧
    Forall (λ n, n ≤ max_memory_bytes p) (requests (instantiate m functions (policy_fuel p)) ++ requests (call fuel)).
Proof.
  unfold run_export. destruct (set_fuel _) as [[]|]; [|refuted]. destruct (link_capabilities p) as [functions|]; [|refuted].
  rewrite drive_exact. setoid_rewrite Forall_app. setoid_rewrite <-forallb_bound.
  destruct (forallb _ (requests (instantiate _ _ _))) eqn:E1; [|refuted].
  destruct (ending (instantiate _ _ _)) as [fuel|] eqn:E2; [|refuted].
  destruct (typed_export m export ty) as [call|] eqn:E3; [|refuted].
  rewrite drive_exact. destruct (forallb _ (requests (call fuel))) eqn:E4; [|refuted].
  destruct (ending (call fuel)) as [v|[]] eqn:E5; cbn; [|refuted..]. split.
  - intros [= <-]. by exists functions, fuel, call.
  - intros (functions' & fuel' & call' & _ & Hl & H2 & H3 & H4 & _). congruence.
Qed.
End sandbox.

(** C37: a module's export yields a value in the sandbox exactly when the policy
    admits it: its manifest, if any, is the only one, of the known format and asks
    for granted effects only; every import is a granted capability; the initial
    memory and every growth of memory stay within the limit; and it ends within its
    fuel without a trap. *)
Theorem sandbox_exact `{Wasmtime} ty content export p value :
  execute_export ty content export p = Ok value ↔ admitted ty content export p value.
Proof.
  unfold execute_export. pose proof (enforce_exact content p) as He.
  destruct (enforce_effect_manifest content p) as [[]|e].
  2: { split; [done|]. intros [Ha _]. apply He in Ha. done. }
  apply proj1 in He. destruct (compile_module content) as [m|] eqn:Ec; [|split; [done|]; intros [_ (m & ? & ? & ? & ? & _)]; congruence].
  destruct (List.find _ _) as [[module name]|] eqn:Ef.
  { split; [done|]. intros [_ (m' & functions & fuel & call & Hm & _ & _ & Hi & _)]. replace m' with m in * by congruence.
    apply find_some in Ef as [Hin%list_elem_of_In Hn%negb_true_iff]. apply Hi, granted_import_exact in Hin. congruence. }
  pose proof (proj1 (find_refusal_none _ _) Ef) as Hi. case_bool_decide as Hmem.
  { split; [done|]. intros [_ (m' & functions & fuel & call & Hm & _ & _ & _ & Hle & _)]. replace m' with m in * by congruence. lia. }
  rewrite run_export_exact. split.
  - intros (functions & fuel & call & Hrest). split; [by apply He|]. exists m, functions, fuel, call.
    split_and!; try apply Hrest; [done| |lia]. intros i Hin. by apply granted_import_exact, Hi.
  - intros [_ (m' & functions & fuel & call & Hm & Hset & Hlink & _ & _ & Hrest)]. replace m' with m in * by congruence.
    exists functions, fuel, call. split_and!; try done; apply Hrest.
Qed.

(** C38: compiled code only does what its host allowed: when an artifact embeds the
    manifest of a program whose effects were accepted and its export yields a value
    in the sandbox, every effect any definition of the program can have, through
    calls included, was granted by the policy. *)
Theorem compiled_effects_admitted `{Wasmtime} p a ty content export policy value id x :
  analyze_effects p = Some (Ok a) → embeds content (Some (manifest a)) → execute_export ty content export policy = Ok value →
  has_effect (local (collect p)) id x → x ∈ effects policy.
Proof.
  intros Ha Hembeds Hrun Heffect. assert (x ∈ required (manifest a)) as Hx by (apply (manifest_exact _ _ Ha); eauto).
  assert (enforce_effect_manifest content policy = Ok tt) as He.
  { unfold execute_export in Hrun. by destruct (enforce_effect_manifest content policy) as [[]|]. }
  apply enforce_exact in He as (m & Hm & Hsub). unfold embeds in *. rewrite Hm in Hembeds. injection Hembeds as ->. by apply Hsub.
Qed.

(** ** An engine that runs one module *)

Definition sample_manifest : CapabilityManifest := {| format_version := 1; required := {[EffAsync]} |}.

#[export] Instance sample_engine : Wasmtime := {|
  WasmModule := unit;
  parse_all _ := [Ok OtherPayload; Ok (CustomSection "syllog.capabilities" [])];
  decode_manifest _ := Ok sample_manifest;
  compile_module _ := Ok tt;
  module_imports _ := [("syllog", "log_i32")];
  max_initial_memory_size _ := Some 1;
  set_fuel _ := Ok tt;
  link_function _ := Ok tt;
  instantiate _ _ fuel := GrowMemory 65536 (Finished fuel);
  typed_export _ _ _ := Ok (λ fuel, if bool_decide (fuel = 0) then Trapped OutOfFuel else GrowMemory 131072 (Finished 42%Z))
|}.

Definition sample_policy (memory : N) : SandboxPolicy :=
  {| policy_fuel := 1000; max_memory_bytes := memory; capabilities := {[LogI32]}; effects := {[EffAsync; EffIo]} |}.

Example sandboxed_runs :
  execute_export TypeI64 [] "main" (sample_policy 131072) = Ok 42%Z ∧
  execute_export TypeI64 [] "main" (sample_policy 100000) = Err MemoryLimitExceeded ∧
  execute_export TypeI64 [] "main" (sample_policy 1000) = Err MemoryLimitExceeded.
Proof. vm_compute. done. Qed.

Lemma compiled_effects_admitted_witness : EffAsync ∈ effects (sample_policy 131072).
Proof.
  destruct (analyze_effects (effect_program ["async"; "alloc"])) as [[a|e]|] eqn:E; [|vm_compute in E; discriminate E..].
  apply (compiled_effects_admitted (effect_program ["async"; "alloc"]) a TypeI64 [] "main" (sample_policy 131072) 42%Z
    helper_id EffAsync E).
  - assert (option_map (λ r, match r with Ok a => Some (manifest a) | Err _ => None end) (analyze_effects (effect_program ["async"; "alloc"])) =
      Some (Some sample_manifest)) as Hm by (vm_compute; reflexivity). rewrite E in Hm. injection Hm as ->. reflexivity.
  - vm_compute. reflexivity.
  - eapply effect_direct; [vm_compute; reflexivity|]. cbn. set_solver.
Defined.
