(* ===== verification/Providers.v ===== *)
(** * Provider proxy (crates/syllog-proxy/src: provider.rs, registry.rs, router.rs, stream.rs)

    The provider boundary, the registry of adapters, route selection, and the
    executor that streams tokens through a bounded channel.  An adapter is its
    descriptor and, per request, a program of sends; Tokio's channel, its scheduler
    and the consumer are the rules of a machine that allows every interleaving. *)

From stdpp Require Import base gmap strings numbers relations list.
From S2P Require Import Prelude Text.
Open Scope string_scope.
Open Scope list_scope.
Open Scope N_scope.

(** ** The boundary (provider.rs) *)

Record ProviderAbiVersion := { abi_major : N; abi_minor : N }.

Inductive CredentialKind := NoCredential | BearerToken | LocalCapability.

Record ProviderDescriptor := { pd_name : string; pd_abi : ProviderAbiVersion; pd_credentials : CredentialKind }.

(** [SecretValue]: formatting never shows the secret. *)
Record SecretValue := { exposed : string }.
Definition secret_debug (s : SecretValue) : string := "SecretValue([REDACTED])".
Definition secret_display (s : SecretValue) : string := "[REDACTED]".
Definition secret_serialized (s : SecretValue) : string := "[REDACTED]".

Record ModelRoute := { mr_name : string; mr_provider : string; mr_model : string }.
Record ModelRequest := { mq_route : ModelRoute; mq_input : string }.

Record TransportRequest := { tr_provider : string; tr_model : string; tr_input : string; tr_authorization : option SecretValue }.

(** The fields [Debug] prints, by name. *)
Definition transport_request_debug (r : TransportRequest) : list (string * string) :=
  [("provider", tr_provider r); ("model", tr_model r); ("input", "[REDACTED]");
   ("authorization", match tr_authorization r with Some s => "Some(" +:+ secret_debug s +:+ ")" | None => "None" end)].

Inductive ProviderErrorCategory := Cancelled | Timeout | Authentication | RateLimited | Protocol | Unavailable.

#[export] Instance category_eq_dec : EqDecision ProviderErrorCategory.
Proof. solve_decision. Defined.

Record ProviderError := { pe_category : ProviderErrorCategory; pe_message : string; pe_retry_after : option N }.

#[export] Instance provider_error_eq_dec : EqDecision ProviderError.
Proof. solve_decision. Defined.

Definition categorized (category : ProviderErrorCategory) (message : string) : ProviderError :=
  {| pe_category := category; pe_message := message; pe_retry_after := None |}.
Definition provider_error_new (message : string) : ProviderError := categorized Unavailable message.
Definition rate_limited (message : string) (retry_after : option N) : ProviderError :=
  {| pe_category := RateLimited; pe_message := message; pe_retry_after := retry_after |}.

(** [transport_frame_channel]: the capacity of the channel. *)
Definition transport_frame_channel (capacity : N) : result N ProviderError :=
  if bool_decide (capacity = 0) then Err (categorized Protocol "transport frame capacity must be greater than zero") else Ok capacity.

(** One text fragment; an event of a stream is a fragment or an error. *)
Record Token := { token_text : string }.

#[export] Instance token_eq_dec : EqDecision Token.
Proof. solve_decision. Defined.

Abbreviation event := (result Token ProviderError).

(** What an adapter does with a request: it sends events, told each time whether the
    sink took the event, and returns. *)
Inductive Stream :=
| Send (e : event) (next : result unit ProviderError → Stream)
| Return (r : result unit ProviderError).

Record ProviderAdapter := { descriptor : ProviderDescriptor; stream : ModelRequest → Stream }.

(** ** [MockProvider] *)

Definition default_mock_descriptor : ProviderDescriptor :=
  {| pd_name := "mock"; pd_abi := {| abi_major := 1; abi_minor := 0 |}; pd_credentials := NoCredential |}.

Record MockProvider := { mk_descriptor : ProviderDescriptor; mk_events : list event }.

Definition mock_with_descriptor (d : ProviderDescriptor) (tokens : list string) : MockProvider :=
  {| mk_descriptor := d; mk_events := map (λ t, Ok {| token_text := t |}) tokens |}.
Definition mock_tokens (tokens : list string) : MockProvider := mock_with_descriptor default_mock_descriptor tokens.
Definition mock_scripted (events : list event) : MockProvider := {| mk_descriptor := default_mock_descriptor; mk_events := events |}.

(** The loop of [stream]: [send(..).await?]. *)
Fixpoint mock_stream (events : list event) : Stream :=
  match events with
  | [] => Return (Ok tt)
  | Ok token :: events => Send (Ok token) (λ r, match r with Ok _ => mock_stream events | Err e => Return (Err e) end)
  | Err e :: _ => Return (Err e)
  end.

Definition mock_adapter (m : MockProvider) : ProviderAdapter :=
  {| descriptor := mk_descriptor m; stream := λ _, mock_stream (mk_events m) |}.

(** ** The registry (registry.rs) *)

Inductive ProviderLookupError :=
| AbiMismatch (provider : string) (found supported : ProviderAbiVersion)
| Duplicate (provider : string)
| Unknown (provider : string).

Record ProviderRegistry := { supported : ProviderAbiVersion; adapters : gmap string ProviderAdapter }.

Definition provider_registry_new (abi : ProviderAbiVersion) : ProviderRegistry := {| supported := abi; adapters := ∅ |}.

Definition register (adapter : ProviderAdapter) (r : ProviderRegistry) : ProviderRegistry * result unit ProviderLookupError :=
  let d := descriptor adapter in
  if bool_decide (abi_major (pd_abi d) ≠ abi_major (supported r)) || bool_decide (abi_minor (supported r) < abi_minor (pd_abi d))
  then (r, Err (AbiMismatch (pd_name d) (pd_abi d) (supported r)))
  else if bool_decide (is_Some (adapters r !! pd_name d)) then (r, Err (Duplicate (pd_name d)))
  else ({| supported := supported r; adapters := <[pd_name d := adapter]> (adapters r) |}, Ok tt).

Definition registry_len (r : ProviderRegistry) : nat := size (adapters r).
Definition registry_is_empty (r : ProviderRegistry) : bool := bool_decide (size (adapters r) = 0%nat).

(** A snapshot is a copy. *)
Record ProviderRegistrySnapshot := { snapshot_adapters : gmap string ProviderAdapter }.
Definition snapshot (r : ProviderRegistry) : ProviderRegistrySnapshot := {| snapshot_adapters := adapters r |}.

Definition resolve_route (s : ProviderRegistrySnapshot) (route : ModelRoute) : result ProviderAdapter ProviderLookupError :=
  match snapshot_adapters s !! mr_provider route with
  | Some adapter => Ok adapter
  | None => Err (Unknown (mr_provider route))
  end.

(** ** The router (router.rs) *)

Record Router := { routes : list ModelRoute; unavailable : gset string }.

Definition router_new (l : list ModelRoute) : Router := {| routes := l; unavailable := ∅ |}.
Definition trip (name : string) (r : Router) : Router := {| routes := routes r; unavailable := {[name]} ∪ unavailable r |}.
Definition restore_route (name : string) (r : Router) : Router := {| routes := routes r; unavailable := unavailable r ∖ {[name]} |}.
Definition select (r : Router) : option ModelRoute := List.find (λ route, negb (bool_decide (mr_name route ∈ unavailable r))) (routes r).

(** ** The executor (stream.rs) *)

Inductive PipelineConfigError := ZeroCapacity.

Definition stream_executor_new (capacity : N) : result N PipelineConfigError :=
  if bool_decide (capacity = 0) then Err ZeroCapacity else Ok capacity.

Definition cancelled_error : ProviderError := categorized Cancelled "provider invocation cancelled".

(** The spawned task: the adapter's stream, then its error if it is to be told. *)
Inductive Task := Streaming (s : Stream) | Terminating (e : ProviderError) | Stopped.

(** The end of [provider.stream(..).await] *)
Definition after_stream (r : result unit ProviderError) : Task :=
  match r with
  | Ok _ => Stopped
  | Err e => if bool_decide (pe_category e = Cancelled) then Stopped else Terminating e
  end.

Record Invocation := {
  task : Task;
  buffer : list event;
  delivered : list event;
  is_cancelled : bool;
  is_closed : bool
}.

(** [execute_cancellable] *)
Definition execute_cancellable (adapter : ProviderAdapter) (request : ModelRequest) : Invocation :=
  {| task := Streaming (stream adapter request); buffer := []; delivered := []; is_cancelled := false; is_closed := false |}.

Definition with_task (t : Task) (i : Invocation) : Invocation :=
  {| task := t; buffer := buffer i; delivered := delivered i; is_cancelled := is_cancelled i; is_closed := is_closed i |}.
Definition push_event (e : event) (i : Invocation) : Invocation :=
  {| task := task i; buffer := buffer i ++ [e]; delivered := delivered i; is_cancelled := is_cancelled i; is_closed := is_closed i |}.

(** [CancellationHandle::cancel] *)
Definition cancel_invocation (i : Invocation) : Invocation :=
  {| task := task i; buffer := buffer i; delivered := delivered i; is_cancelled := true; is_closed := is_closed i |}.

(** The task's next step, [None] while it waits for room.  [TokenSink::send] looks at
    the cancellation first; [send_terminal] does not. *)
Definition stream_task_step (capacity : nat) (i : Invocation) : option Invocation :=
  let room := bool_decide (length (buffer i) < capacity)%nat in
  match task i with
  | Streaming (Return r) => Some (with_task (after_stream r) i)
  | Streaming (Send e next) =>
      if is_cancelled i || is_closed i then Some (with_task (Streaming (next (Err cancelled_error))) i)
      else if room then Some (with_task (Streaming (next (Ok tt))) (push_event e i))
      else None
  | Terminating e =>
      if is_closed i then Some (with_task Stopped i)
      else if room then Some (with_task Stopped (push_event (Err e) i))
      else None
  | Stopped => None
  end.

(** The consumer takes an event, or drops the stream with what is buffered. *)
Definition receive_event (i : Invocation) : option Invocation :=
  match buffer i with
  | e :: rest =>
      if is_closed i then None
      else Some {| task := task i; buffer := rest; delivered := delivered i ++ [e]; is_cancelled := is_cancelled i; is_closed := is_closed i |}
  | [] => None
  end.

Definition close_stream (i : Invocation) : Invocation :=
  {| task := task i; buffer := []; delivered := delivered i; is_cancelled := is_cancelled i; is_closed := true |}.

Inductive invocation_step (capacity : nat) (i : Invocation) : Invocation → Prop :=
| step_task i' : stream_task_step capacity i = Some i' → invocation_step capacity i i'
| step_receive i' : receive_event i = Some i' → invocation_step capacity i i'
| step_cancel : invocation_step capacity i (cancel_invocation i)
| step_close : invocation_step capacity i (close_stream i).

(** * What the provider proxy promises (crates/syllog-proxy/src) *)

Open Scope string_scope.
Open Scope list_scope.

(** ** Registry and router *)

(** A registry built by registrations. *)
Inductive registered (abi : ProviderAbiVersion) : ProviderRegistry → Prop :=
| registered_new : registered abi (provider_registry_new abi)
| registered_more r adapter : registered abi r → registered abi (register adapter r).1.

Definition abi_compatible (abi : ProviderAbiVersion) (a : ProviderAdapter) : Prop :=
  abi_major (pd_abi (descriptor a)) = abi_major abi ∧ (abi_minor (pd_abi (descriptor a)) ≤ abi_minor abi)%N.

Lemma registered_ok abi r : registered abi r → supported r = abi ∧
  ∀ name a, adapters r !! name = Some a → pd_name (descriptor a) = name ∧ abi_compatible abi a.
Proof.
  induction 1 as [|r adapter _ [Hs IH]]; [split; [done|intros name a; cbn; by rewrite lookup_empty]|].
  unfold register. destruct (bool_decide _ || bool_decide _) eqn:E; [by split|]. destruct (bool_decide (is_Some _)); [by split|]. cbn. split; [done|].
  apply orb_false_iff in E as [E1%bool_decide_eq_false E2%bool_decide_eq_false]. apply dec_stable in E1.
  intros name a [[<- <-]|[_ Ha]]%lookup_insert_Some; [|by apply IH]. split; [done|]. subst abi. split; [done|lia].
Qed.

(** A resolved route names its provider, which the runtime can run; a snapshot keeps
    its answers whatever is registered later. *)
Theorem resolved_providers_compatible abi r route a more :
  registered abi r → resolve_route (snapshot r) route = Ok a →
  pd_name (descriptor a) = mr_provider route ∧ abi_compatible abi a ∧
  resolve_route (snapshot (foldl (λ r x, (register x r).1) r more)) route = Ok a.
Proof.
  intros Hr. destruct (registered_ok abi r Hr) as [_ Hok]. unfold resolve_route. cbn.
  destruct (adapters r !! mr_provider route) as [x|] eqn:E; [|done]. intros [= <-]. destruct (Hok _ _ E) as [Hn Hc].
  split_and!; [done|done|]. clear -E. revert r E. induction more as [|y more IH]; intros r E; cbn; [by rewrite E|]. apply IH.
  unfold register. destruct (_ || _); [done|]. case_bool_decide as Hnew; [done|]. cbn. rewrite lookup_insert_ne; [done|].
  intros Heq. apply Hnew. rewrite Heq, E. by eexists.
Qed.

Inductive RouterOp := Trip (name : string) | Restore (name : string).
Definition router_op (r : Router) (op : RouterOp) : Router := match op with Trip name => trip name r | Restore name => restore_route name r end.
Definition op_route (op : RouterOp) : string := match op with Trip name | Restore name => name end.

(** A route is open when the last operation on it, if any, was no trip. *)
Definition tripped (ops : list RouterOp) (name : string) : bool :=
  match last (filter (λ op, op_route op = name) ops) with Some (Trip _) => true | _ => false end.

Lemma unavailable_tripped l ops name : name ∈ unavailable (foldl router_op (router_new l) ops) ↔ tripped ops name = true.
Proof.
  unfold tripped. induction ops as [|op ops IH] using rev_ind; [cbn; set_solver|].
  rewrite foldl_app, filter_app. destruct (decide (op_route op = name)) as [<-|Hne];
    [rewrite filter_cons_True by done|rewrite filter_cons_False by done]; rewrite filter_nil.
  - rewrite last_snoc. destruct op; cbn; set_solver.
  - rewrite app_nil_r, <-IH. destruct op; cbn in *; set_solver.
Qed.

Lemma router_routes l ops : routes (foldl router_op (router_new l) ops) = l.
Proof. induction ops as [|op ops IH] using rev_ind; [done|]. rewrite foldl_app. by destruct op. Qed.

(** The first route that is not tripped is selected. *)
Theorem router_selects_first_open l ops :
  select (foldl router_op (router_new l) ops) = List.find (λ route, negb (tripped ops (mr_name route))) l.
Proof.
  unfold select. rewrite router_routes. induction l as [|route l IH] in ops |- *; [done|]. cbn.
  replace (bool_decide (mr_name route ∈ unavailable (foldl router_op (router_new (route :: l)) ops))) with (tripped ops (mr_name route)).
  2: { apply eq_true_iff_eq. by rewrite bool_decide_eq_true, unavailable_tripped. }
  destruct (tripped ops (mr_name route)); [|done]. cbn. etrans; [|apply IH]. clear IH.
  assert (unavailable (foldl router_op (router_new (route :: l)) ops) = unavailable (foldl router_op (router_new l) ops)) as ->; [|done].
  induction ops as [|op ops IH] using rev_ind; [done|]. rewrite !foldl_app. destruct op; cbn; by rewrite IH.
Qed.

(** ** Streams *)

(** The events of a stream whose sink takes everything, its error last. *)
Definition told (r : result unit ProviderError) : list event :=
  match r with Err e => if bool_decide (pe_category e = Cancelled) then [] else [Err e] | Ok _ => [] end.

Fixpoint offered (s : Stream) : list event :=
  match s with Send e next => e :: offered (next (Ok tt)) | Return r => told r end.

Definition still_offered (t : Task) : list event :=
  match t with Streaming s => offered s | Terminating e => [Err e] | Stopped => [] end.

Lemma still_offered_after r : still_offered (after_stream r) = told r.
Proof. destruct r as [|e]; cbn; [done|]. by case_bool_decide. Qed.

(** Steps of the task and of a consumer that keeps reading. *)
Inductive left_alone_step (capacity : nat) (i : Invocation) : Invocation → Prop :=
| quiet_task i' : stream_task_step capacity i = Some i' → left_alone_step capacity i i'
| quiet_receive i' : receive_event i = Some i' → left_alone_step capacity i i'.

Lemma quiet_is_step capacity i j : left_alone_step capacity i j → invocation_step capacity i j.
Proof. intros [i' H|i' H]; by constructor. Qed.

Section streams.
Context (capacity : nat) (s : Stream).

(** What an invocation accepted so far: never more buffered than the channel holds; the
    events in the order offered and, after an interruption, at most one error of the
    adapter after them, the last thing its task does; all of them if nothing
    interrupted it. *)
Record in_order (i : Invocation) : Prop := {
  io_bound : (length (buffer i) ≤ capacity)%nat;
  io_order : ∃ l t, delivered i ++ buffer i = l ++ t ∧ l `prefix_of` offered s ∧
    (t = [] ∨ task i = Stopped ∧ ∃ e, t = [Err e]);
  io_whole : is_closed i = false → is_cancelled i = false →
    delivered i ++ buffer i ++ still_offered (task i) = offered s;
  io_closed : is_closed i = true → buffer i = []
}.

Lemma task_step_in_order i j : in_order i → stream_task_step capacity i = Some j → in_order j.
Proof.
  intros [Hb (l & t & Hl & Hp & Ht) Hw Hc]. unfold stream_task_step. destruct i as [k buf del can clo]. cbn in *.
  destruct k as [[e next|r]|e|]; [| | |done].
  - destruct Ht as [->|[? _]]; [|done]. rewrite app_nil_r in Hl.
    destruct (can || clo) eqn:E; [|apply orb_false_iff in E as [-> ->]; case_bool_decide; [|done]]; intros [= <-]; split; cbn.
    all: try done.
    + exists l, []. rewrite app_nil_r. by auto.
    + intros -> ->. done.
    + rewrite length_app. cbn. lia.
    + specialize (Hw eq_refl eq_refl). exists (del ++ buf ++ [e]), []. rewrite app_nil_r. split_and!; [done| |by left].
      exists (offered (next (Ok tt))). rewrite <-Hw. cbn. by rewrite <-!app_assoc.
    + intros _ _. rewrite <-(Hw eq_refl eq_refl). cbn. by rewrite <-!app_assoc.
  - intros [= <-]. destruct Ht as [->|[? _]]; [|done]. split; cbn; [done|exists l, []; by auto| |done].
    intros. rewrite still_offered_after. by apply Hw.
  - destruct Ht as [->|[? _]]; [|done]. rewrite app_nil_r in Hl.
    destruct clo; [|case_bool_decide; [|done]]; intros [= <-]; split; cbn; try done.
    + exists l, []. rewrite app_nil_r. by auto.
    + rewrite length_app. cbn. lia.
    + exists l, [Err e]. rewrite app_assoc, Hl. split_and!; [done|done|]. right. split; [done|by eexists].
    + intros _ ->. rewrite <-(Hw eq_refl eq_refl). cbn. by rewrite app_nil_r.
Qed.

(** A part of what was accepted is still in order. *)
Lemma prefix_in_order (acc rest l t : list event) (k : Task) : acc ++ rest = l ++ t → l `prefix_of` offered s →
  (t = [] ∨ k = Stopped ∧ ∃ e, t = [Err e]) →
  ∃ l' t', acc = l' ++ t' ∧ l' `prefix_of` offered s ∧ (t' = [] ∨ k = Stopped ∧ ∃ e, t' = [Err e]).
Proof.
  intros Heq Hp [->|[-> [e ->]]].
  - exists acc, []. rewrite app_nil_r in *. subst l. split_and!; [done| |by left]. by eapply prefix_app_l.
  - destruct rest as [|x rest _] using rev_ind.
    + exists l, [Err e]. rewrite app_nil_r in Heq. split_and!; [done|done|]. right. split; [done|by eexists].
    + rewrite app_assoc in Heq. apply app_inj_tail in Heq as [<- _]. exists acc, []. rewrite app_nil_r.
      split_and!; [done| |by left]. by eapply prefix_app_l.
Qed.

Lemma receive_in_order i j : in_order i → receive_event i = Some j → in_order j.
Proof.
  intros [Hb Ho Hw Hc]. unfold receive_event. destruct i as [k [|e buf] del can clo]; cbn in *; [done|].
  destruct clo; [done|]. intros [= <-]. split; cbn; [lia| | |done].
  - by rewrite <-app_assoc.
  - intros. rewrite <-app_assoc. by apply Hw.
Qed.

Lemma step_in_order i j : in_order i → invocation_step capacity i j → in_order j.
Proof.
  intros Hi [j' Hs|j' Hs| |]; [by eapply task_step_in_order|by eapply receive_in_order| |]; destruct Hi as [Hb Ho Hw Hc].
  - split; cbn; by auto.
  - destruct Ho as (l & t & Hl & Hp & Ht). split; cbn; [lia| |done|done]. rewrite app_nil_r. by eapply prefix_in_order.
Qed.

(** Left alone, task and reader stop. *)
Lemma quiet_steps_end k : ∀ buf del can clo,
  sn (left_alone_step capacity) {| task := k; buffer := buf; delivered := del; is_cancelled := can; is_closed := clo |}.
Proof.
  assert (∀ k, (∀ i j, task i = k → stream_task_step capacity i = Some j → sn (left_alone_step capacity) j) →
    ∀ buf del can clo, sn (left_alone_step capacity) {| task := k; buffer := buf; delivered := del; is_cancelled := can; is_closed := clo |}) as Hk.
  { clear k. intros k Htask buf. induction buf as [|e buf IH]; intros del can clo; constructor; intros j [j' Hs|j' Hs].
    1, 3: by eapply Htask; [|exact Hs].
    - done.
    - unfold receive_event in Hs. cbn in Hs. destruct clo; [done|]. injection Hs as <-. apply IH. }
  assert (∀ buf del can clo, sn (left_alone_step capacity) {| task := Stopped; buffer := buf; delivered := del; is_cancelled := can; is_closed := clo |}) as Hstop.
  { apply Hk. intros i j Hi. unfold stream_task_step. by rewrite Hi. }
  assert (∀ e buf del can clo, sn (left_alone_step capacity) {| task := Terminating e; buffer := buf; delivered := del; is_cancelled := can; is_closed := clo |}) as Hterm.
  { intros e. apply Hk. intros i j Hi. unfold stream_task_step. rewrite Hi. destruct (is_closed i); [|case_bool_decide; [|done]]; intros [= <-]; apply Hstop. }
  destruct k as [st|e|]; [|by apply Hterm|by apply Hstop]. induction st as [e next IH|r]; apply Hk; intros i j Hi; unfold stream_task_step; rewrite Hi.
  - destruct (_ || _); [|case_bool_decide; [|done]]; intros [= <-]; apply IH.
  - intros [= <-]. unfold with_task, after_stream. destruct r as [|e]; [apply Hstop|]. case_bool_decide; [apply Hstop|apply Hterm].
Qed.

(** They stop for lack of work, not of room. *)
Lemma quiet_end i : (0 < capacity)%nat → in_order i → nf (left_alone_step capacity) i → task i = Stopped ∧ buffer i = [].
Proof.
  intros Hcap Hi Hnf.
  assert (buffer i = []) as Hbuf.
  { destruct (buffer i) as [|e rest] eqn:E; [done|]. destruct (is_closed i) eqn:Hc.
    { by rewrite (io_closed _ Hi Hc) in E. }
    exfalso. apply Hnf. eexists. apply quiet_receive. unfold receive_event. by rewrite E, Hc. }
  split; [|done]. assert (stream_task_step capacity i = None) as Hs.
  { destruct (stream_task_step capacity i) as [j|] eqn:E; [|done]. exfalso. apply Hnf. exists j. by apply quiet_task. }
  revert Hs. unfold stream_task_step. rewrite Hbuf. cbn [length]. rewrite (bool_decide_eq_true_2 (0 < capacity)%nat) by done.
  destruct (task i) as [[e next|r]|e|]; [destruct (_ || _)|..|done]; [done..|]. by destruct (is_closed i).
Qed.
End streams.

Lemma start_in_order capacity adapter request : in_order capacity (stream adapter request) (execute_cancellable adapter request).
Proof. split; cbn; [lia| |done|done]. exists [], []. split_and!; [done|apply prefix_nil|by left]. Qed.

Lemma quiet_keeps_flags capacity i j : left_alone_step capacity i j → is_closed j = is_closed i ∧ is_cancelled j = is_cancelled i.
Proof.
  intros [j' Hs|j' Hs]; revert Hs; [unfold stream_task_step|unfold receive_event].
  - destruct (task i) as [[e next|r]|e|]; [destruct (_ || _); [|case_bool_decide]| |destruct (is_closed i) eqn:E; [|case_bool_decide]|]; intros; simplify_eq; cbn; auto.
  - destruct (buffer i); [done|]. destruct (is_closed i) eqn:E; intros; simplify_eq. done.
Qed.

Lemma stream_outcome n capacity adapter request i : stream_executor_new n = Ok capacity →
  rtc (invocation_step (N.to_nat capacity)) (execute_cancellable adapter request) i →
  in_order (N.to_nat capacity) (stream adapter request) i ∧
  sn (left_alone_step (N.to_nat capacity)) i ∧
  ∀ j, rtc (left_alone_step (N.to_nat capacity)) i j → nf (left_alone_step (N.to_nat capacity)) j →
    task j = Stopped ∧ buffer j = [] ∧
    (is_closed i = false → is_cancelled i = false → delivered j = offered (stream adapter request)).
Proof.
  unfold stream_executor_new. case_bool_decide; [done|]. intros [= <-] Hreach.
  assert (∀ a b, in_order (N.to_nat n) (stream adapter request) a → rtc (invocation_step (N.to_nat n)) a b →
    in_order (N.to_nat n) (stream adapter request) b) as Hkeep.
  { induction 2; eauto using step_in_order. }
  assert (in_order (N.to_nat n) (stream adapter request) i) as Hi by (eapply Hkeep; [apply start_in_order|done]).
  split_and!; [done|destruct i; apply quiet_steps_end|]. intros j Hij Hnf.
  assert (is_closed j = is_closed i ∧ is_cancelled j = is_cancelled i) as [Hclo Hcan].
  { clear -Hij. induction Hij as [|a b c Hab _ IH]; [done|]. apply quiet_keeps_flags in Hab. naive_solver. }
  assert (in_order (N.to_nat n) (stream adapter request) j) as Hj.
  { eapply Hkeep; [exact Hi|]. clear -Hij. induction Hij; econstructor; eauto using quiet_is_step. }
  destruct (quiet_end (N.to_nat n) (stream adapter request) j) as [Ht Hb]; [lia|done|done|]. split_and!; [done|done|]. intros H1 H2.
  rewrite <-(io_whole _ _ _ Hj) by congruence. rewrite Ht, Hb. cbn. by rewrite app_nil_r.
Qed.

(** C19: However task, reader, cancellation and drop interleave, a stream delivers what the
    adapter offered in its order, with at most one error after an interruption, and
    never buffers more than its capacity; from any point on the task and a reader that
    keeps reading come to an end with nothing buffered, and with everything delivered
    if the stream was not cancelled or dropped. *)
Theorem stream_delivers_in_order n capacity adapter request i : stream_executor_new n = Ok capacity →
  rtc (invocation_step (N.to_nat capacity)) (execute_cancellable adapter request) i →
  in_order (N.to_nat capacity) (stream adapter request) i ∧
  sn (left_alone_step (N.to_nat capacity)) i ∧
  ∀ j, rtc (left_alone_step (N.to_nat capacity)) i j → nf (left_alone_step (N.to_nat capacity)) j →
    task j = Stopped ∧ buffer j = [] ∧
    (is_closed i = false → is_cancelled i = false → delivered j = offered (stream adapter request)).
Proof. apply stream_outcome. Qed.

(** Two tokens and an error through a channel of one. *)
Definition limited_mock : ProviderAdapter :=
  mock_adapter (mock_scripted [Ok {| token_text := "a" |}; Ok {| token_text := "b" |}; Err (rate_limited "slow down" (Some 3%N)); Ok {| token_text := "c" |}]).
Definition plain_request : ModelRequest := {| mq_route := {| mr_name := "r"; mr_provider := "mock"; mr_model := "m" |}; mq_input := "hello" |}.

Lemma stream_delivers_in_order_witness :
  stream_executor_new 1 = Ok 1%N ∧ (∃ i, rtc (invocation_step 1) (execute_cancellable limited_mock plain_request) i ∧ length (buffer i) = 1%nat ∧
    in_order 1 (stream limited_mock plain_request) i) ∧
  offered (stream limited_mock plain_request) = [Ok {| token_text := "a" |}; Ok {| token_text := "b" |}; Err (rate_limited "slow down" (Some 3%N))].
Proof.
  split; [reflexivity|]. split; [|reflexivity].
  assert (∃ i, stream_task_step 1 (execute_cancellable limited_mock plain_request) = Some i ∧ length (buffer i) = 1%nat) as (i & Hi & Hlen) by (by eexists).
  assert (rtc (invocation_step 1) (execute_cancellable limited_mock plain_request) i) as Hr by (by apply rtc_once, step_task).
  exists i. split; [exact Hr|]. split; [exact Hlen|]. apply (stream_delivers_in_order 1 1 limited_mock plain_request i); [reflexivity|exact Hr].
Defined.
