(* ===== verification/Frames.v ===== *)
(** * Provider transports and adapters

    The HTTP transport (crates/syllog-proxy/src/http_transport.rs), the process and
    socket transports (crates/syllog-provider-local/src/transport.rs) and the three
    adapters (crates/syllog-provider-openai, -anthropic, -local, src/lib.rs): bytes
    of a response become frames, frames become the tokens of a [Stream].  reqwest,
    serde_json and httpdate are arguments.  A transport gives the frames it sends to
    a receiver that takes them all; one that is dropped has taken a prefix. *)

From Stdlib Require Import Ascii.
From stdpp Require Import base gmap strings numbers pretty relations list.
From S2P Require Import Prelude Text Resolver Registry Storage Transport Providers.
Open Scope string_scope.
Open Scope list_scope.
Open Scope N_scope.

Inductive TransportFrame := FrameData (data : string) | FrameError (e : ProviderError).

Definition protocol (text : string) : ProviderError := categorized Protocol text.
Definition unavailable_error (text : string) : ProviderError := categorized Unavailable text.
Definition timed_out (text : string) : ProviderError := categorized Timeout text.

(** ** Lines *)

(** The lines that a newline ends, without it, and the bytes after the last one. *)
Fixpoint split_lines (l : bytes) : list bytes * bytes :=
  match l with
  | [] => ([], [])
  | b :: l =>
      if bool_decide (b = Byte.x0a) then let '(lines, rest) := split_lines l in ([] :: lines, rest)
      else match split_lines l with
           | ([], rest) => ([], b :: rest)
           | (line :: lines, rest) => ((b :: line) :: lines, rest)
           end
  end.

(** One carriage return at the end of a line is dropped. *)
Definition strip_return (line : bytes) : bytes :=
  if bool_decide (last line = Some Byte.x0d) then removelast line else line.

(** ** Server-sent events *)

Definition MAX_SSE_EVENT_BYTES : N := 1024 * 1024.

Record SseDecoder := { pending : bytes; sse_data : list string; data_bytes : N }.

Definition sse_new : SseDecoder := {| pending := []; sse_data := []; data_bytes := 0 |}.

Definition newline : string := String (ascii_of_nat 10) "".

(** The value of a [data:] field, without one space before it. *)
Definition data_value (line : string) : option string :=
  (λ value, default value (strip_prefix " " value)) <$> strip_prefix "data:" line.

Definition push_data (value : string) (d : SseDecoder) : result SseDecoder ProviderError :=
  let separator := match sse_data d with [] => 0 | _ => 1 end in
  let total := data_bytes d + (N.of_nat (String.length value) + separator) in
  if bool_decide (u64_max < total) then Err (protocol "SSE event size overflowed")
  else if bool_decide (MAX_SSE_EVENT_BYTES < total) then Err (protocol "SSE event exceeded the one-megabyte limit")
  else Ok {| pending := pending d; sse_data := sse_data d ++ [value]; data_bytes := total |}.

(** One pass of the loop of [push], with the event it emits. *)
Definition sse_line (line : bytes) (d : SseDecoder) : result (SseDecoder * list string) ProviderError :=
  match from_utf8 (strip_return line) with
  | None => Err (protocol "SSE line is not UTF-8")
  | Some text =>
      if bool_decide (text = "") then
        match sse_data d with
        | [] => Ok (d, [])
        | data => Ok ({| pending := pending d; sse_data := []; data_bytes := 0 |}, [join newline data])
        end
      else match data_value text with
           | Some value => match push_data value d with Ok d => Ok (d, []) | Err e => Err e end
           | None => Ok (d, [])
           end
  end.

Fixpoint sse_lines (lines : list bytes) (d : SseDecoder) : result (SseDecoder * list string) ProviderError :=
  match lines with
  | [] => Ok (d, [])
  | line :: lines =>
      match sse_line line d with
      | Err e => Err e
      | Ok (d, events) =>
          match sse_lines lines d with Err e => Err e | Ok (d, more) => Ok (d, events ++ more) end
      end
  end.

(** [SseDecoder::push] *)
Definition sse_push (chunk : bytes) (d : SseDecoder) : result (SseDecoder * list string) ProviderError :=
  let received := pending d ++ chunk in
  if bool_decide (MAX_SSE_EVENT_BYTES < N.of_nat (length received)) then Err (protocol "SSE event exceeded the one-megabyte limit")
  else let '(lines, rest) := split_lines received in
       sse_lines lines {| pending := rest; sse_data := sse_data d; data_bytes := data_bytes d |}.

(** [trim_end_matches('\r')] *)
Fixpoint trim_returns (s : string) : string :=
  match s with
  | EmptyString => EmptyString
  | String c s => match trim_returns s with
                  | EmptyString => if bool_decide (c = ascii_of_nat 13) then EmptyString else String c EmptyString
                  | t => String c t
                  end
  end.

Definition last_event (d : SseDecoder) : option string :=
  match sse_data d with [] => None | data => Some (join newline data) end.

(** [SseDecoder::finish] *)
Definition sse_finish (d : SseDecoder) : result (option string) ProviderError :=
  match pending d with
  | [] => Ok (last_event d)
  | rest =>
      match from_utf8 rest with
      | None => Err (protocol "final SSE line is not UTF-8")
      | Some text =>
          match data_value (trim_returns text) with
          | Some value => match push_data value d with Ok d => Ok (last_event d) | Err e => Err e end
          | None => Ok (last_event d)
          end
      end
  end.

(** [reqwest::Error] *)
Record HttpFailure := { hf_timeout : bool; hf_text : string }.

Definition map_reqwest (e : HttpFailure) : ProviderError :=
  categorized (if hf_timeout e then Timeout else Unavailable) ("provider transport failed: " +:+ hf_text e).

(** The events sent, up to the end marker, and whether it was met. *)
Fixpoint send_events (events : list string) : list TransportFrame * bool :=
  match events with
  | [] => ([], false)
  | event :: events =>
      if bool_decide (event = "[DONE]") then ([], true)
      else let '(sent, done) := send_events events in (FrameData event :: sent, done)
  end.

(** [decode_response] *)
Fixpoint decode_response (d : SseDecoder) (chunks : list bytes) (failure : option HttpFailure) : list TransportFrame :=
  match chunks with
  | [] =>
      match failure with
      | Some e => [FrameError (map_reqwest e)]
      | None =>
          match sse_finish d with
          | Ok (Some event) => if bool_decide (event = "[DONE]") then [] else [FrameData event]
          | Ok None => []
          | Err e => [FrameError e]
          end
      end
  | chunk :: chunks =>
      match sse_push chunk d with
      | Err e => [FrameError e]
      | Ok (d, events) =>
          match send_events events with
          | (sent, true) => sent
          | (sent, false) => sent ++ decode_response d chunks failure
          end
      end
  end.

(** ** The HTTP transport *)

Inductive HttpTransportConfigError := InvalidTransport (text : string) | ClientFailed (text : string).

Record HttpSseTransport := { endpoint : string; frame_capacity : N }.

Definition http_transport_new (parse_url : string → result ParsedUrl string) (build : result unit string)
    (url : string) (capacity deadline : N) : result HttpSseTransport HttpTransportConfigError :=
  if bool_decide (capacity = 0) || bool_decide (deadline = 0)
  then Err (InvalidTransport "frame capacity and deadline must be greater than zero")
  else match parse_url url with
  | Err e => Err (InvalidTransport e)
  | Ok parsed =>
      if negb (bool_decide (url_scheme parsed = "https")) && negb (is_loopback (url_host parsed))
      then Err (InvalidTransport "provider endpoint must use HTTPS except on loopback")
      else if negb (bool_decide (url_username parsed = "")) || bool_decide (is_Some (url_password parsed))
              || bool_decide (is_Some (url_fragment parsed))
      then Err (InvalidTransport "provider endpoint must not contain credentials or a fragment")
      else match build with
           | Err e => Err (ClientFailed e)
           | Ok _ => Ok {| endpoint := url; frame_capacity := capacity |}
           end
  end.

(** A request: headers in the order set, the secret ones marked, and the fields of
    the JSON body. *)
Record ProviderHttpRequest := {
  ph_url : string;
  ph_headers : list (string * string * bool);
  ph_model : string;
  ph_max_tokens : option N;
  ph_stream : bool;
  ph_messages : list (string * string)
}.

Record ProviderHttpResponse := {
  pr_status : N;
  pr_content_type : option string;
  pr_retry_after : option string;
  pr_chunks : list bytes;
  pr_failure : option HttpFailure
}.

Section http.
(** [HeaderValue::from_str], [httpdate::parse_http_date] and the clock, in
    nanoseconds, and [String::from_utf8_lossy]. *)
Context (header_value : string → option string) (parse_http_date : string → option N) (now : N) (lossy : bytes → string).

Definition sensitive_header (header : option string) (provider : string) : result string ProviderError :=
  match header with
  | Some value => Ok value
  | None => Err (categorized Authentication (provider +:+ " credential is not valid HTTP header data"))
  end.

Definition openai_request (url : string) (r : TransportRequest) : result ProviderHttpRequest ProviderError :=
  match tr_authorization r with
  | None => Err (categorized Authentication "OpenAI transport requires a bearer credential")
  | Some secret =>
      match sensitive_header (header_value ("Bearer " +:+ exposed secret)) "OpenAI" with
      | Err e => Err e
      | Ok header =>
          Ok {| ph_url := url; ph_headers := [("accept", "text/event-stream", false); ("authorization", header, true)];
                ph_model := tr_model r; ph_max_tokens := None; ph_stream := true; ph_messages := [("user", tr_input r)] |}
      end
  end.

Definition anthropic_request (url : string) (r : TransportRequest) : result ProviderHttpRequest ProviderError :=
  match tr_authorization r with
  | None => Err (categorized Authentication "Anthropic transport requires an API key")
  | Some secret =>
      match sensitive_header (header_value (exposed secret)) "Anthropic" with
      | Err e => Err e
      | Ok header =>
          Ok {| ph_url := url;
                ph_headers := [("accept", "text/event-stream", false); ("x-api-key", header, true); ("anthropic-version", "2023-06-01", false)];
                ph_model := tr_model r; ph_max_tokens := Some 1024; ph_stream := true; ph_messages := [("user", tr_input r)] |}
      end
  end.

Definition build_request (url : string) (r : TransportRequest) : result ProviderHttpRequest ProviderError :=
  if bool_decide (tr_provider r = "openai") then openai_request url r
  else if bool_decide (tr_provider r = "anthropic") then anthropic_request url r
  else Err (protocol ("HTTP/SSE transport does not support provider '" +:+ tr_provider r +:+ "'")).

(** [str::parse::<u64>] *)
Fixpoint parse_digits (s : string) (n : N) : option N :=
  match s with
  | EmptyString => Some n
  | String c s =>
      if is_ascii_digit c then
        let n := n * 10 + (N_of_ascii c - 48) in
        if bool_decide (u64_max < n) then None else parse_digits s n
      else None
  end.

Definition parse_u64 (s : string) : option N :=
  let digits := default s (strip_prefix "+" s) in
  if bool_decide (digits = "") then None else parse_digits digits 0.

(** [str::trim] on header text, which is ASCII. *)
Definition trim_text (s : string) : string := String.rev (trim_start (String.rev (trim_start s))).

Definition from_secs (n : N) : N := n * 1000000000.

Definition parse_retry_after (value : string) : option N :=
  match parse_u64 (trim_text value) with
  | Some seconds => Some (from_secs seconds)
  | None => parse_http_date value ≫= λ deadline, if bool_decide (now ≤ deadline) then Some (deadline - now) else None
  end.

Definition response_error (r : ProviderHttpResponse) : ProviderError :=
  let retry_after := pr_retry_after r ≫= parse_retry_after in
  let summary := "provider returned HTTP " +:+ pretty (pr_status r) +:+ ": " +:+ lossy (read_limited (pr_chunks r) []) in
  if bool_decide (pr_status r = 401) || bool_decide (pr_status r = 403) then categorized Authentication summary
  else if bool_decide (pr_status r = 429) then rate_limited summary retry_after
  else if bool_decide (500 ≤ pr_status r) && bool_decide (pr_status r ≤ 599) then categorized Unavailable summary
  else categorized Protocol summary.

Definition open_http_stream (send : ProviderHttpRequest → result ProviderHttpResponse HttpFailure) (t : HttpSseTransport) (r : TransportRequest)
    : result (list TransportFrame) ProviderError :=
  match build_request (endpoint t) r with
  | Err e => Err e
  | Ok request =>
      match send request with
      | Err e => Err (map_reqwest e)
      | Ok response =>
          if negb (is_success (pr_status response)) then Err (response_error response)
          else if negb (starts_with "text/event-stream" (default "" (pr_content_type response)))
          then Err (protocol "provider response is not text/event-stream")
          else match transport_frame_channel (frame_capacity t) with
               | Err e => Err e
               | Ok _ => Ok (decode_response sse_new (pr_chunks response) (pr_failure response))
               end
      end
  end.
End http.

(** ** Process and socket transports *)

Definition MAX_LOCAL_FRAME_BYTES : N := 1024 * 1024.

Inductive LocalTransportConfigError := InvalidLocal (text : string).

Definition validate_socket (capacity deadline : N) : result unit LocalTransportConfigError :=
  if bool_decide (capacity = 0) || bool_decide (deadline = 0)
  then Err (InvalidLocal "frame capacity and deadline must be greater than zero") else Ok tt.

Definition validate_process (program : string) (capacity deadline : N) : result unit LocalTransportConfigError :=
  if bool_decide (program = "") then Err (InvalidLocal "local model executable path is empty") else validate_socket capacity deadline.

Record LocalProcessTransport := { lp_program : string; lp_arguments : list string; lp_capacity : N; lp_deadline : N }.

Definition process_new (program : string) (arguments : list string) (capacity deadline : N)
    : result LocalProcessTransport LocalTransportConfigError :=
  match validate_process program capacity deadline with
  | Err e => Err e
  | Ok _ => Ok {| lp_program := program; lp_arguments := arguments; lp_capacity := capacity; lp_deadline := deadline |}
  end.

(** An address is known by whether it is a loopback address. *)
Record LocalSocketTransport := { ls_address : string; ls_capacity : N; ls_deadline : N }.

Definition socket_new (loopback : string → bool) (address : string) (capacity deadline : N)
    : result LocalSocketTransport LocalTransportConfigError :=
  if negb (loopback address) then Err (InvalidLocal "local model socket must use a loopback address")
  else match validate_socket capacity deadline with
       | Err e => Err e
       | Ok _ => Ok {| ls_address := address; ls_capacity := capacity; ls_deadline := deadline |}
       end.

(** The frames of complete lines, up to one that is not UTF-8. *)
Fixpoint line_frames (lines : list bytes) : list TransportFrame * result unit ProviderError :=
  match lines with
  | [] => ([], Ok tt)
  | line :: lines =>
      match strip_return line with
      | [] => line_frames lines
      | line =>
          match from_utf8 line with
          | None => ([], Err (protocol "local model frame is not UTF-8"))
          | Some text => let '(sent, r) := line_frames lines in (FrameData text :: sent, r)
          end
      end
  end.

(** [read_frames]: [reads] are what the calls of [read] return until the end of the
    stream or its failure. *)
Fixpoint read_frames (rest : bytes) (reads : list bytes) (failure : option string) : list TransportFrame * result unit ProviderError :=
  match reads with
  | [] =>
      match failure with
      | Some e => ([], Err (unavailable_error ("local model stream failed: " +:+ e)))
      | None =>
          match rest with
          | [] => ([], Ok tt)
          | _ => match from_utf8 rest with
                 | None => ([], Err (protocol "final local model frame is not UTF-8"))
                 | Some text => ([FrameData text], Ok tt)
                 end
          end
      end
  | chunk :: reads =>
      let received := rest ++ chunk in
      if bool_decide (MAX_LOCAL_FRAME_BYTES < N.of_nat (length received)) then ([], Err (protocol "local model frame exceeded one megabyte"))
      else let '(lines, rest) := split_lines received in
           match line_frames lines with
           | (sent, Err e) => (sent, Err e)
           | (sent, Ok _) => let '(more, r) := read_frames rest reads failure in (sent ++ more, r)
           end
  end.

Definition local_deadline : ProviderError := timed_out "local model invocation exceeded its deadline".

(** [send_terminal_error], with [None] for a deadline that has passed. *)
Definition terminal_error (r : option (result unit ProviderError)) : list TransportFrame :=
  match r with
  | Some (Ok _) => []
  | Some (Err e) => [FrameError e]
  | None => [FrameError local_deadline]
  end.

(** The spawned task: [expires] is the number of frames sent when the deadline
    passes, if it does before the operation ends. *)
Definition local_task (expires : option nat) (operation : list TransportFrame * result unit ProviderError) : list TransportFrame :=
  match expires with
  | Some n => take n operation.1 ++ terminal_error None
  | None => operation.1 ++ terminal_error (Some operation.2)
  end.

(** The operating system's side of an invocation. *)
Record LocalRun := {
  lr_start : result unit string;
  lr_write : option (result unit string);
  lr_shutdown : option (result unit string);
  lr_reads : list bytes;
  lr_failure : option string;
  lr_wait : result (string + unit) string;
  lr_expires : option nat
}.

(** [write_request] under its deadline, with the encoder's answer. *)
Definition write_request (encode : string → string → result bytes string) (r : TransportRequest) (run : LocalRun) : result unit ProviderError :=
  match encode (tr_model r) (tr_input r) with
  | Err e => Err (protocol ("could not encode local request: " +:+ e))
  | Ok _ =>
      match lr_write run with
      | None => Err local_deadline
      | Some (Err e) => Err (unavailable_error ("could not write local model request: " +:+ e))
      | Some (Ok _) => Ok tt
      end
  end.

(** [LocalProcessTransport::open] *)
Definition open_process (encode : string → string → result bytes string) (run : LocalRun) (t : LocalProcessTransport) (r : TransportRequest)
    : result (list TransportFrame) ProviderError :=
  match lr_start run with
  | Err e => Err (unavailable_error ("could not start local model: " +:+ e))
  | Ok _ =>
      match write_request encode r run with
      | Err e => Err e
      | Ok _ =>
          match lr_shutdown run with
          | None => Err local_deadline
          | Some (Err e) => Err (unavailable_error ("could not close local model input: " +:+ e))
          | Some (Ok _) =>
              match transport_frame_channel (lp_capacity t) with
              | Err e => Err e
              | Ok _ =>
                  let '(sent, read) := read_frames [] (lr_reads run) (lr_failure run) in
                  let ended := match read with
                               | Err e => Err e
                               | Ok _ => match lr_wait run with
                                         | Err e => Err (unavailable_error ("could not join local model: " +:+ e))
                                         | Ok (inl status) => Err (unavailable_error ("local model exited with status " +:+ status))
                                         | Ok (inr _) => Ok tt
                                         end
                               end in
                  Ok (local_task (lr_expires run) (sent, ended))
              end
          end
      end
  end.

(** [LocalSocketTransport::open]; [None] is a connection that timed out. *)
Definition open_socket (encode : string → string → result bytes string) (connect : option (result unit string)) (run : LocalRun)
    (t : LocalSocketTransport) (r : TransportRequest) : result (list TransportFrame) ProviderError :=
  match connect with
  | None => Err (timed_out "local model socket connection timed out")
  | Some (Err e) => Err (unavailable_error ("could not connect local model: " +:+ e))
  | Some (Ok _) =>
      match write_request encode r run with
      | Err e => Err e
      | Ok _ =>
          match transport_frame_channel (ls_capacity t) with
          | Err e => Err e
          | Ok _ => Ok (local_task (lr_expires run) (read_frames [] (lr_reads run) (lr_failure run)))
          end
      end
  end.

(** ** Adapters *)

(** [serde_json::Value] *)
Class Json := {
  Value : Type;
  json_from_str : string → result Value string;
  json_pointer : Value → string → option Value;
  json_get : Value → string → option Value;
  json_as_str : Value → option string
}.

(** The transport of an adapter: the frames of a request. *)
Abbreviation frame_source := (TransportRequest → result (list TransportFrame) ProviderError).

(** The loop the three adapters share, with what a frame's text gives. *)
Fixpoint adapter_loop (token : string → result (option string) ProviderError) (frames : list TransportFrame) : Stream :=
  match frames with
  | [] => Return (Ok tt)
  | FrameError e :: _ => Return (Err e)
  | FrameData data :: frames =>
      match token data with
      | Err e => Return (Err e)
      | Ok None => adapter_loop token frames
      | Ok (Some text) =>
          Send (Ok {| token_text := text |}) (λ r, match r with Ok _ => adapter_loop token frames | Err e => Return (Err e) end)
      end
  end.

Section adapters.
Context `{Json}.

Definition openai_token (data : string) : result (option string) ProviderError :=
  match json_from_str data with
  | Err e => Err (protocol ("invalid OpenAI stream frame: " +:+ e))
  | Ok value => Ok (json_pointer value "/choices/0/delta/content" ≫= json_as_str)
  end.

Definition anthropic_token (data : string) : result (option string) ProviderError :=
  match json_from_str data with
  | Err e => Err (protocol ("invalid Anthropic stream frame: " +:+ e))
  | Ok value => Ok (json_pointer value "/delta/text" ≫= json_as_str)
  end.

Definition local_token (data : string) : result (option string) ProviderError :=
  match json_from_str data with
  | Err e => Err (protocol ("invalid local-model stream frame: " +:+ e))
  | Ok value =>
      match json_get value "token" ≫= json_as_str with
      | Some text => Ok (Some text)
      | None => Err (protocol "invalid local-model stream frame: missing token")
      end
  end.

Definition adapter_descriptor (name : string) (credentials : CredentialKind) : ProviderDescriptor :=
  {| pd_name := name; pd_abi := {| abi_major := 1; abi_minor := 0 |}; pd_credentials := credentials |}.

Definition adapter_stream (name : string) (credential : option SecretValue) (token : string → result (option string) ProviderError)
    (transport : frame_source) (q : ModelRequest) : Stream :=
  match transport {| tr_provider := name; tr_model := mr_model (mq_route q); tr_input := mq_input q; tr_authorization := credential |} with
  | Err e => Return (Err e)
  | Ok frames => adapter_loop token frames
  end.

Definition openai_adapter (credential : SecretValue) (transport : frame_source) : ProviderAdapter :=
  {| descriptor := adapter_descriptor "openai" BearerToken; stream := adapter_stream "openai" (Some credential) openai_token transport |}.

Definition anthropic_adapter (credential : SecretValue) (transport : frame_source) : ProviderAdapter :=
  {| descriptor := adapter_descriptor "anthropic" BearerToken; stream := adapter_stream "anthropic" (Some credential) anthropic_token transport |}.

Definition local_adapter (transport : frame_source) : ProviderAdapter :=
  {| descriptor := adapter_descriptor "local" LocalCapability; stream := adapter_stream "local" None local_token transport |}.
End adapters.

(** ** Lines across chunks *)

Lemma split_lines_app l1 l2 :
  split_lines (l1 ++ l2) =
  let '(lines, rest) := split_lines l1 in let '(more, rest) := split_lines (rest ++ l2) in (lines ++ more, rest).
Proof.
  induction l1 as [|b l1 IH]; [cbn; by destruct (split_lines l2)|]. cbn [app split_lines]. rewrite IH. case_bool_decide as Hb.
  - destruct (split_lines l1) as [lines rest]. by destruct (split_lines (rest ++ l2)).
  - destruct (split_lines l1) as [[|line lines] rest]; cbn [app].
    + cbn [split_lines]. rewrite bool_decide_eq_false_2 by done. by destruct (split_lines (rest ++ l2)) as [[] ?].
    + by destruct (split_lines (rest ++ l2)).
Qed.

Lemma split_lines_rest l lines rest : split_lines l = (lines, rest) → split_lines rest = ([], rest).
Proof.
  revert lines rest. induction l as [|b l IH]; intros lines rest; cbn [split_lines]; [by intros [= <- <-]|]. case_bool_decide as Hb.
  - destruct (split_lines l) as [lines' rest']. intros [= <- <-]. by eapply IH.
  - destruct (split_lines l) as [[|line lines'] rest'] eqn:E; intros [= <- <-]; [|by eapply IH].
    cbn [split_lines]. rewrite bool_decide_eq_false_2 by done. by rewrite (IH _ _ eq_refl).
Qed.

(** Bytes without a newline belong to the line after them. *)
Lemma split_lines_prefix rest tail : split_lines rest = ([], rest) →
  split_lines (rest ++ tail) =
  match split_lines tail with ([], final) => ([], rest ++ final) | (line :: lines, final) => ((rest ++ line) :: lines, final) end.
Proof.
  induction rest as [|b rest IH]; intros Hrest; [cbn; by destruct (split_lines tail) as [[] ?]|]. cbn [app split_lines] in *.
  case_bool_decide as Hb; [by destruct (split_lines rest)|]. destruct (split_lines rest) as [[|] r]; [|done]. injection Hrest as ->.
  rewrite IH by done. by destruct (split_lines tail) as [[] ?].
Qed.

(** Every line of a body and every chunk together stay within the limit. *)
Definition within (limit : N) (chunks : list bytes) (body : bytes) : Prop :=
  let '(lines, rest) := split_lines body in
  ∀ line chunk, line ∈ rest :: lines → chunk ∈ chunks → N.of_nat (length line + length chunk) ≤ limit.

(** The lines of the first chunk, and what is left for the others. *)
Lemma within_cons limit rest chunk chunks lines rest' : split_lines rest = ([], rest) → split_lines (rest ++ chunk) = (lines, rest') →
  within limit (chunk :: chunks) (rest ++ concat (chunk :: chunks)) →
  N.of_nat (length (rest ++ chunk)) ≤ limit ∧ within limit chunks (rest' ++ concat chunks).
Proof.
  intros Hrest Hlines Hw. split.
  - unfold within in Hw. rewrite (split_lines_prefix rest) in Hw by done. rewrite length_app.
    destruct (split_lines (concat (chunk :: chunks))) as [[|line ls] final].
    + specialize (Hw (rest ++ final) chunk). rewrite length_app in Hw. ospecialize (Hw _ _); [set_solver..|lia].
    + specialize (Hw (rest ++ line) chunk). rewrite length_app in Hw. ospecialize (Hw _ _); [set_solver..|lia].
  - unfold within in *. cbn [concat] in Hw. rewrite app_assoc, split_lines_app, Hlines in Hw.
    destruct (split_lines (rest' ++ concat chunks)) as [more final]. intros line c Hl Hc. apply Hw; set_solver.
Qed.

(** ** Decoding *)

Definition with_pending (rest : bytes) (d : SseDecoder) : SseDecoder :=
  {| pending := rest; sse_data := sse_data d; data_bytes := data_bytes d |}.

(** The lines are decoded alike whatever is left after them. *)
Lemma sse_line_pending rest line d :
  sse_line line (with_pending rest d) =
  match sse_line line d with Ok (d, events) => Ok (with_pending rest d, events) | Err e => Err e end.
Proof.
  unfold sse_line. destruct (from_utf8 _); [|done]. case_bool_decide; [by cbn; destruct (sse_data d)|].
  destruct (data_value _); [|done]. unfold push_data. cbn. by repeat case_bool_decide.
Qed.

Lemma sse_lines_pending rest lines d :
  sse_lines lines (with_pending rest d) =
  match sse_lines lines d with Ok (d, events) => Ok (with_pending rest d, events) | Err e => Err e end.
Proof.
  revert d. induction lines as [|line lines IH]; intros d; [done|]. cbn [sse_lines]. rewrite sse_line_pending.
  destruct (sse_line line d) as [[d' events]|]; [|done]. rewrite IH. by destruct (sse_lines lines d') as [[]|].
Qed.

Lemma sse_lines_app lines more d :
  sse_lines (lines ++ more) d =
  match sse_lines lines d with
  | Ok (d, events) => match sse_lines more d with Ok (d, rest) => Ok (d, events ++ rest) | Err e => Err e end
  | Err e => Err e
  end.
Proof.
  revert d. induction lines as [|line lines IH]; intros d; cbn [app sse_lines]; [by destruct (sse_lines more d) as [[]|]|].
  destruct (sse_line line d) as [[d' events]|]; [|done]. rewrite IH. destruct (sse_lines lines d') as [[d'' events']|]; [|done].
  destruct (sse_lines more d'') as [[]|]; [|done]. by rewrite app_assoc.
Qed.

(** What is sent for some events and then [more]. *)
Definition then_frames (events : list string) (more : list TransportFrame) : list TransportFrame :=
  match send_events events with (sent, true) => sent | (sent, false) => sent ++ more end.

Lemma then_frames_app events events' more : then_frames (events ++ events') more = then_frames events (then_frames events' more).
Proof.
  unfold then_frames. induction events as [|event events IH]; [done|]. cbn. case_bool_decide; [done|].
  destruct (send_events (events ++ events')) as [? []], (send_events events) as [? []]; cbn; by rewrite ?IH.
Qed.

(** However a body without errors is cut into chunks, its events are sent. *)
Lemma decode_chunks chunks failure : ∀ d lines rest d' events,
  split_lines (pending d) = ([], pending d) → within MAX_SSE_EVENT_BYTES chunks (pending d ++ concat chunks) →
  split_lines (pending d ++ concat chunks) = (lines, rest) → sse_lines lines d = Ok (d', events) →
  decode_response d chunks failure = then_frames events (decode_response (with_pending rest d') [] failure).
Proof.
  induction chunks as [|chunk chunks IH]; intros d lines rest d' events Hp Hw Hsplit Hlines.
  - cbn [concat] in Hsplit. rewrite app_nil_r, Hp in Hsplit. injection Hsplit as <- <-. cbn in Hlines. injection Hlines as <- <-.
    by destruct d.
  - destruct (split_lines (pending d ++ chunk)) as [first left] eqn:Efirst.
    destruct (within_cons _ _ _ _ _ _ Hp Efirst Hw) as [Hle Hw']. cbn [decode_response]. unfold sse_push.
    rewrite bool_decide_eq_false_2 by lia. rewrite Efirst. cbn [concat] in Hsplit. rewrite app_assoc, split_lines_app, Efirst in Hsplit.
    destruct (split_lines (left ++ concat chunks)) as [more final] eqn:Emore. injection Hsplit as <- <-.
    rewrite sse_lines_app in Hlines. change {| pending := left; sse_data := sse_data d; data_bytes := data_bytes d |} with (with_pending left d).
    rewrite sse_lines_pending. destruct (sse_lines first d) as [[d1 ev1]|]; [|done].
    destruct (sse_lines more d1) as [[d2 ev2]|] eqn:E2; [|done]. injection Hlines as <- <-. rewrite then_frames_app.
    rewrite (IH (with_pending left d1) more final (with_pending left d2) ev2); [done|by eapply split_lines_rest|done|done|].
    by rewrite sse_lines_pending, E2.
Qed.

(** ** What a body says *)

(** A line of a body: the end of an event, a value, or something else. *)
Inductive Field := Blank | DataField (value : string) | OtherField.

Definition field_of (line : bytes) : option Field :=
  (λ text, if bool_decide (text = "") then Blank else match data_value text with Some value => DataField value | None => OtherField end)
  <$> from_utf8 (strip_return line).

(** The values between blanks, and those after the last one. *)
Fixpoint gather (fields : list Field) (current : list string) : list (list string) * list string :=
  match fields with
  | [] => ([], current)
  | Blank :: fields =>
      match current with
      | [] => gather fields []
      | _ => let '(groups, last) := gather fields [] in (current :: groups, last)
      end
  | DataField value :: fields => gather fields (current ++ [value])
  | OtherField :: fields => gather fields current
  end.

Definition fits (group : list string) : Prop := N.of_nat (String.length (join newline group)) ≤ MAX_SSE_EVENT_BYTES.

Lemma join_snoc l v : (String.length (join newline (l ++ [v])) =
  String.length (join newline l) + (String.length v + match l with [] => 0 | _ => 1 end))%nat.
Proof.
  assert (String.length newline = 1%nat) as Hn by done. revert Hn. generalize newline. intros nl Hn.
  induction l as [|x [|y l] IH]; cbn [join app] in *; [cbn; lia|rewrite !string_length_app; lia|].
  rewrite string_length_app, string_length_app, IH, string_length_app, string_length_app. lia.
Qed.

Lemma fits_app l more : fits (l ++ more) → fits l.
Proof.
  unfold fits. induction more as [|v more IH] using rev_ind; [by rewrite app_nil_r|]. intros H. apply IH.
  rewrite app_assoc in H. rewrite join_snoc in H. lia.
Qed.

Definition gathered (data : list string) (d : SseDecoder) : Prop :=
  sse_data d = data ∧ data_bytes d = N.of_nat (String.length (join newline data)).

Lemma push_data_fits value d data : gathered data d → fits (data ++ [value]) →
  ∃ d', push_data value d = Ok d' ∧ gathered (data ++ [value]) d' ∧ pending d' = pending d.
Proof.
  intros [<- Hb] Hfit. unfold fits in Hfit. unfold push_data. rewrite Hb. rewrite join_snoc in Hfit.
  assert (MAX_SSE_EVENT_BYTES < u64_max) by done.
  assert (N.of_nat (String.length (join newline (sse_data d))) + (N.of_nat (String.length value) + match sse_data d with [] => 0 | _ => 1 end) =
    N.of_nat (String.length (join newline (sse_data d ++ [value])))) as ->.
  { rewrite join_snoc. destruct (sse_data d); lia. }
  rewrite join_snoc. rewrite !bool_decide_eq_false_2 by lia. eexists. split; [done|]. split; [|done]. split; cbn; [done|].
  by rewrite join_snoc.
Qed.

(** The first event a group belongs to contains it. *)
Lemma gather_extends fields current : current ≠ [] →
  ∃ group more, (gather fields current).1 ++ [(gather fields current).2] = group :: more ∧ current `prefix_of` group.
Proof.
  revert current. induction fields as [|[|v|] fields IH]; intros current Hne; cbn [gather].
  - by exists current, [].
  - destruct current as [|x current]; [done|]. destruct (gather fields []) as [groups last]. by eexists _, _.
  - destruct (IH (current ++ [v])) as (g & more & -> & Hp); [by destruct current|]. exists g, more. split; [done|]. by eapply prefix_app_l.
  - by apply IH.
Qed.

Lemma sse_lines_gather lines : ∀ fields d data, map field_of lines = map Some fields → gathered data d →
  Forall fits ((gather fields data).1 ++ [(gather fields data).2]) →
  ∃ d', sse_lines lines d = Ok (d', map (join newline) (gather fields data).1) ∧ gathered (gather fields data).2 d' ∧ pending d' = pending d.
Proof.
  induction lines as [|line lines IH]; intros [|f fields] d data Hf Hd Hfit; try done; [by exists d|].
  cbn [map] in Hf. injection Hf as Hline Hf. unfold field_of in Hline. cbn [sse_lines]. unfold sse_line.
  destruct (from_utf8 (strip_return line)) as [text|]; [|done]. injection Hline as <-. case_bool_decide as Htext.
  - destruct Hd as [Hdata Hbytes]. rewrite Hdata. cbn [gather] in *. destruct data as [|x data].
    + destruct (IH fields d [] Hf (conj Hdata Hbytes) Hfit) as (d' & -> & Hd' & Hp). by exists d'.
    + destruct (gather fields []) as [groups last] eqn:E. cbn [fst snd app] in *. inversion_clear Hfit.
      destruct (IH fields {| pending := pending d; sse_data := []; data_bytes := 0 |} [] Hf (conj eq_refl eq_refl)) as (d' & -> & Hd' & Hp); rewrite E in *; [done|].
      by exists d'.
  - destruct (data_value text) as [value|]; cbn [gather] in *.
    + assert (fits (data ++ [value])) as Hv.
      { destruct (gather_extends fields (data ++ [value])) as (g & more & Heq & [tail ->]); [by destruct data|].
        rewrite Heq in Hfit. inversion_clear Hfit. by eapply fits_app. }
      destruct (push_data_fits value d data Hd Hv) as (d1 & -> & Hd1 & Hp1).
      destruct (IH fields d1 _ Hf Hd1 Hfit) as (d' & -> & Hd' & Hp). exists d'. split_and!; [done|done|congruence].
    + destruct (IH fields d data Hf Hd Hfit) as (d' & -> & Hd' & Hp). by exists d'.
Qed.

(** Bytes after the last newline are a line too, without its carriage returns. *)
Definition final_field (rest : bytes) : option Field :=
  match rest with
  | [] => Some OtherField
  | _ => (λ text, match data_value (trim_returns text) with Some value => DataField value | None => OtherField end) <$> from_utf8 rest
  end.

(** A group, unless it is empty. *)
Definition nonempty (group : list string) : list (list string) := match group with [] => [] | _ => [group] end.

(** The events of a body, [None] where it is not UTF-8. *)
Definition body_events (body : bytes) : option (list (list string)) :=
  let '(lines, rest) := split_lines body in
  fields ← mapM field_of lines;
  final ← final_field rest;
  let '(groups, last) := gather (fields ++ [final]) [] in
  Some (groups ++ nonempty last).

(** The events a blank line ends. *)
Definition complete_events (body : bytes) : option (list (list string)) := (λ fields, (gather fields []).1) <$> mapM field_of (split_lines body).1.

Fixpoint before_done (events : list string) : list string :=
  match events with
  | [] => []
  | event :: events => if bool_decide (event = "[DONE]") then [] else event :: before_done events
  end.

Lemma then_frames_nil events : then_frames events [] = map FrameData (before_done events).
Proof.
  unfold then_frames. induction events as [|event events IH]; [done|]. cbn. case_bool_decide; [done|].
  destruct (send_events events) as [sent []]; cbn in *; by rewrite IH.
Qed.

Lemma mapM_field_of lines fields : mapM field_of lines = Some fields → map field_of lines = map Some fields.
Proof.
  revert fields. induction lines as [|line lines IH]; intros fields; cbn; [by intros [= <-]|].
  destruct (field_of line) as [f|]; [|done]. cbn. destruct (mapM field_of lines) as [fs|]; [|done]. cbn. intros [= <-]. cbn. f_equal. by apply IH.
Qed.

Lemma gather_app fields more current :
  gather (fields ++ more) current =
  let '(groups, last) := gather fields current in let '(groups', last') := gather more last in (groups ++ groups', last').
Proof.
  revert current. induction fields as [|[|v|] fields IH]; intros current; cbn [app gather]; [by destruct (gather more current)| |done|done].
  destruct current as [|x current]; [done|]. rewrite IH. destruct (gather fields []) as [g l]. by destruct (gather more l).
Qed.

Definition events_frames (d : option string) : list TransportFrame := match d with Some event => then_frames [event] [] | None => [] end.

Lemma last_event_frames data d : gathered data d →
  events_frames (last_event d) = then_frames (map (join newline) (nonempty data)) [].
Proof. intros [<- _]. unfold last_event. by destruct (sse_data d). Qed.

(** The end of a body. *)
Lemma finish_gathered rest data d f : final_field rest = Some f → gathered data d →
  Forall fits ((gather [f] data).1 ++ [(gather [f] data).2]) →
  (gather [f] data).1 = [] ∧
  decode_response (with_pending rest d) [] None =
  then_frames (map (join newline) (nonempty (gather [f] data).2)) [].
Proof.
  intros Hf Hd Hfit. cbn [decode_response]. unfold sse_finish. cbn [pending with_pending].
  assert (∀ r, match r with Ok (Some event) => if bool_decide (event = "[DONE]") then [] else [FrameData event] | Ok None => [] | Err e => [FrameError e] end =
    match r with Ok event => events_frames event | Err e => [FrameError e] end) as Hr.
  { intros [[event|]|e]; try done. cbn. unfold then_frames. cbn. by case_bool_decide. }
  rewrite Hr. clear Hr. destruct rest as [|b rest].
  { injection Hf as <-. cbn. split; [done|]. by apply last_event_frames. }
  unfold final_field in Hf. destruct (from_utf8 (b :: rest)) as [text|]; [|done]. injection Hf as <-.
  destruct (data_value (trim_returns text)) as [value|]; cbn [gather fst snd] in *.
  - inversion_clear Hfit. destruct (push_data_fits value (with_pending (b :: rest) d) data) as (d' & -> & Hd' & _); [done|done|].
    split; [done|]. by apply last_event_frames.
  - split; [done|]. by apply last_event_frames.
Qed.

Lemma nonempty_fits l : Forall fits (nonempty l) → fits l.
Proof. destruct l; [done|]. cbn [nonempty]. by rewrite Forall_singleton. Qed.

Lemma decode_body body chunks groups : concat chunks = body → within MAX_SSE_EVENT_BYTES chunks body →
  body_events body = Some groups → Forall fits groups →
  decode_response sse_new chunks None = map FrameData (before_done (map (join newline) groups)) ∧
  ∃ complete, complete_events body = Some complete ∧
    ∀ e, decode_response sse_new chunks (Some e) = then_frames (map (join newline) complete) [FrameError (map_reqwest e)].
Proof.
  intros Hbody Hw He Hfit. unfold complete_events. unfold body_events in He. destruct (split_lines body) as [lines rest] eqn:Esplit.
  destruct (mapM field_of lines) as [fields|] eqn:Ef; [|done]. cbn in He. destruct (final_field rest) as [f|] eqn:Ef'; [|done]. cbn in He.
  rewrite gather_app in He. destruct (gather fields []) as [g last] eqn:Eg.
  assert (gather [f] last = ((gather [f] last).1, (gather [f] last).2)) as Hpair by (by destruct (gather [f] last)).
  assert (Forall fits (g ++ [last]) ∧ Forall fits ((gather [f] last).1 ++ [(gather [f] last).2])) as [Hfg Hff].
  { rewrite Hpair in He. injection He as <-. rewrite !Forall_app in *. destruct Hfit as [[Hg1 Hg2] Hlast].
    assert (fits (gather [f] last).2) as Hl2 by (by apply nonempty_fits).
    split_and!; [done| |done|by repeat constructor]. repeat constructor.
    unfold final_field in Ef'. destruct rest; [by injection Ef' as <-|]. destruct (from_utf8 _); [|done]. injection Ef' as <-.
    destruct (data_value _); cbn in Hl2; [by eapply fits_app|done]. }
  destruct (sse_lines_gather lines fields sse_new []) as (d & Hlines & Hd & _); [by apply mapM_field_of|done|by rewrite Eg|]. rewrite Eg in Hlines, Hd. cbn [fst snd] in *.
  pose proof (λ failure, decode_chunks chunks failure sse_new lines rest d (map (join newline) g) eq_refl) as Hdecode.
  cbn [sse_new pending app] in Hdecode. rewrite Hbody in Hdecode. split.
  2: { cbn [fst]. rewrite Ef. exists g. cbn. rewrite Eg. split; [done|]. intros e. by rewrite (Hdecode _ Hw Esplit Hlines). }
  rewrite (Hdecode None Hw Esplit Hlines).
  destruct (finish_gathered rest last d f Ef' Hd Hff) as [Hnil ->]. rewrite <-then_frames_app, then_frames_nil. do 2 f_equal.
  rewrite Hpair, Hnil in He. injection He as <-. rewrite app_nil_r, map_app. done.
Qed.

(** C21: how a response is cut into chunks does not matter: when every line and chunk
    together stay within the limit, the body is UTF-8 and no event is too long, the
    transport sends exactly the events of the body, in order and up to the end
    marker; when the connection breaks, the events that were complete and then the
    failure. *)
Theorem sse_decoding_exact chunks groups : within MAX_SSE_EVENT_BYTES chunks (concat chunks) →
  body_events (concat chunks) = Some groups → Forall fits groups →
  decode_response sse_new chunks None = map FrameData (before_done (map (join newline) groups)) ∧
  ∃ complete, complete_events (concat chunks) = Some complete ∧
    ∀ e, decode_response sse_new chunks (Some e) = then_frames (map (join newline) complete) [FrameError (map_reqwest e)].
Proof. by apply decode_body. Qed.

Definition sample_chunks : list bytes :=
  map String.list_byte_of_string ["da"; "ta: a" +:+ newline +:+ ": ping" +:+ newline +:+ "da"; "ta: b" +:+ newline +:+ newline +:+ "data:[DONE]"].

Lemma sse_decoding_exact_witness :
  body_events (concat sample_chunks) = Some [["a"; "b"]; ["[DONE]"]] ∧
  decode_response sse_new sample_chunks None = [FrameData ("a" +:+ newline +:+ "b")].
Proof.
  split; [vm_compute; reflexivity|]. apply (sse_decoding_exact sample_chunks [["a"; "b"]; ["[DONE]"]]).
  - intros line chunk Hl Hc. change (line ∈ map String.list_byte_of_string ["data:[DONE]"; "data: a"; ": ping"; "data: b"; ""]) in Hl.
    unfold sample_chunks in Hc. cbn [map] in Hl, Hc. rewrite !elem_of_cons, ?elem_of_nil in Hl; rewrite !elem_of_cons, ?elem_of_nil in Hc.
    destruct_or!; subst; try done; vm_compute; discriminate.
  - vm_compute. reflexivity.
  - repeat constructor; vm_compute; discriminate.
Defined.

(** ** From the response to the reader *)

(** One event with a one-line payload, as providers write it. *)
Definition sse_event (payload : string) : bytes := String.list_byte_of_string ("data: " +:+ payload) ++ [Byte.x0a; Byte.x0a].

Record payload_ok (p : string) : Prop := {
  po_utf8 : utf8_valid (String.list_byte_of_string p) = true;
  po_line : Byte.x0a ∉ String.list_byte_of_string p;
  po_return : last (String.list_byte_of_string p) ≠ Some Byte.x0d;
  po_fits : N.of_nat (String.length p) ≤ MAX_SSE_EVENT_BYTES
}.

Lemma split_lines_none l : Byte.x0a ∉ l → split_lines l = ([], l).
Proof.
  induction l as [|b l IH]; [done|]. rewrite not_elem_of_cons. intros [Hb Hl]. cbn. rewrite bool_decide_eq_false_2 by congruence.
  by rewrite IH.
Qed.

Definition data_prefix : bytes := String.list_byte_of_string "data: ".

Lemma data_line p : String.list_byte_of_string ("data: " +:+ p) = data_prefix ++ String.list_byte_of_string p.
Proof. done. Qed.

Lemma split_event p tail : payload_ok p →
  split_lines (sse_event p ++ tail) =
  let '(lines, rest) := split_lines tail in (String.list_byte_of_string ("data: " +:+ p) :: [] :: lines, rest).
Proof.
  intros [_ Hline _ _]. unfold sse_event. rewrite <-app_assoc, split_lines_prefix.
  - cbn [app split_lines]. rewrite !bool_decide_eq_true_2 by done. destruct (split_lines tail). by rewrite app_nil_r.
  - apply split_lines_none. rewrite data_line, not_elem_of_app. split; [|done]. vm_compute. intros H. set_solver.
Qed.

Lemma field_of_event p : payload_ok p → field_of (String.list_byte_of_string ("data: " +:+ p)) = Some (DataField p).
Proof.
  intros [Hu _ Hr _]. unfold field_of, strip_return, from_utf8. rewrite bool_decide_eq_false_2.
  - rewrite data_line. change (utf8_valid (data_prefix ++ String.list_byte_of_string p)) with (utf8_valid (String.list_byte_of_string p)).
    rewrite Hu, <-data_line, String.string_of_list_byte_of_string. done.
  - rewrite data_line, last_app. by destruct (last (String.list_byte_of_string p)).
Qed.

Lemma events_body ps : Forall payload_ok ps → body_events (concat (map sse_event ps)) = Some (map (λ p, [p]) ps).
Proof.
  intros Hps. assert (∃ lines, split_lines (concat (map sse_event ps)) = (lines, []) ∧
    mapM field_of lines = Some (concat (map (λ p, [DataField p; Blank]) ps))) as (lines & Hs & Hf).
  { induction Hps as [|p ps Hp _ (lines & Hs & Hf)]; [by exists []|]. cbn [map concat]. rewrite split_event, Hs by done.
    eexists. split; [done|]. cbn [mapM]. rewrite field_of_event by done. cbn [mbind option_bind]. by rewrite Hf. }
  unfold body_events. rewrite Hs, Hf. cbn [mbind option_bind final_field]. rewrite gather_app.
  assert (gather (concat (map (λ p, [DataField p; Blank]) ps)) [] = (map (λ p, [p]) ps, [])) as ->; [|by cbn; rewrite !app_nil_r].
  clear. induction ps as [|p ps IH]; [done|]. cbn [map concat app gather]. by rewrite IH.
Qed.

(** The tokens an adapter offers for some frames. *)
Lemma offered_tokens token payloads texts : Forall2 (λ p t, token p = Ok t) payloads texts →
  offered (adapter_loop token (map FrameData payloads)) = map (λ text, Ok {| token_text := text |}) (omap id texts).
Proof. induction 1 as [|p [text|] payloads texts Hp _ IH]; [done|..]; cbn; rewrite Hp; cbn; by rewrite IH. Qed.

Lemma before_done_end ps : Forall (λ p, p ≠ "[DONE]") ps → before_done (ps ++ ["[DONE]"]) = ps.
Proof. induction 1 as [|p ps Hp _ IH]; [done|]. cbn. rewrite bool_decide_eq_false_2 by done. by rewrite IH. Qed.

(** A response that streams some payloads and the end marker, however it is cut. *)
Record streams (payloads : list string) (r : ProviderHttpResponse) : Prop := {
  st_status : is_success (pr_status r) = true;
  st_type : starts_with "text/event-stream" (default "" (pr_content_type r)) = true;
  st_body : concat (pr_chunks r) = concat (map sse_event (payloads ++ ["[DONE]"]));
  st_within : within MAX_SSE_EVENT_BYTES (pr_chunks r) (concat (pr_chunks r));
  st_end : pr_failure r = None;
  st_payloads : Forall (λ p, payload_ok p ∧ p ≠ "[DONE]") payloads
}.

Lemma done_payload : payload_ok "[DONE]".
Proof. split; [done| |done|done]. vm_compute. intros H. set_solver. Qed.

Lemma streams_frames payloads r : streams payloads r →
  decode_response sse_new (pr_chunks r) (pr_failure r) = map FrameData payloads.
Proof.
  intros [_ _ Hbody Hw -> Hps]. assert (Forall payload_ok (payloads ++ ["[DONE]"])) as Hok.
  { apply Forall_app. split; [by eapply Forall_impl; [exact Hps|intros ? []]|repeat constructor; apply done_payload]. }
  destruct (decode_body _ _ (map (λ p, [p]) (payloads ++ ["[DONE]"])) eq_refl Hw) as [-> _].
  - rewrite Hbody. by apply events_body.
  - apply Forall_map. eapply Forall_impl; [exact Hok|]. by intros p [_ _ _ Hf].
  - rewrite map_map, map_id, before_done_end; [done|]. by eapply Forall_impl; [exact Hps|intros ? []].
Qed.

(** C20: what a model says reaches the reader: when the provider answers a request with
    a stream of events, however the network cuts it and however task and reader
    interleave, a reader that reads to the end gets exactly the texts of the events,
    each once and in order, as long as nobody cancels. *)
Theorem model_output_delivered `{Json} header_value parse_http_date now lossy send t secret header response payloads texts n capacity q i j :
  header_value ("Bearer " +:+ exposed secret) = Some header → frame_capacity t ≠ 0 →
  (∀ request, ph_model request = mr_model (mq_route q) → ph_messages request = [("user", mq_input q)] → send request = Ok response) →
  streams payloads response → Forall2 (λ p text, openai_token p = Ok text) payloads texts →
  stream_executor_new n = Ok capacity →
  let adapter := openai_adapter secret (open_http_stream header_value parse_http_date now lossy send t) in
  rtc (invocation_step (N.to_nat capacity)) (execute_cancellable adapter q) i → is_closed i = false → is_cancelled i = false →
  sn (left_alone_step (N.to_nat capacity)) i ∧
  (rtc (left_alone_step (N.to_nat capacity)) i j → nf (left_alone_step (N.to_nat capacity)) j →
   task j = Stopped ∧ buffer j = [] ∧ delivered j = map (λ text, Ok {| token_text := text |}) (omap id texts)).
Proof.
  intros Hh Hcap Hsend Hs Htexts Hn adapter Hi Hclosed Hcancelled.
  assert (stream adapter q = adapter_loop openai_token (map FrameData payloads)) as Hstream.
  { unfold adapter, openai_adapter, adapter_stream, open_http_stream, build_request, openai_request. cbn [stream tr_provider tr_authorization].
    rewrite bool_decide_eq_true_2 by done. rewrite Hh. cbn [sensitive_header]. rewrite Hsend by done.
    rewrite (st_status _ _ Hs), (st_type _ _ Hs). cbn [negb]. unfold transport_frame_channel. rewrite bool_decide_eq_false_2 by done.
    by rewrite (streams_frames payloads). }
  destruct (stream_outcome n capacity adapter q i Hn Hi) as (_ & Hsn & Hend). split; [done|]. intros Hij Hnf.
  destruct (Hend j Hij Hnf) as (Ht & Hb & Hd). split_and!; [done|done|]. rewrite (Hd Hclosed Hcancelled), Hstream.
  by apply offered_tokens.
Qed.

(** JSON reduced to its text. *)
#[local] Instance text_json : Json := {|
  Value := string; json_from_str := Ok; json_pointer v _ := Some v; json_get v _ := Some v; json_as_str := Some
|}.

Definition sample_response : ProviderHttpResponse := {|
  pr_status := 200; pr_content_type := Some "text/event-stream; charset=utf-8"; pr_retry_after := None; pr_failure := None;
  pr_chunks := let body := concat (map sse_event ["hel"; "lo"; "[DONE]"]) in [take 4 body; take 10 (drop 4 body); drop 14 body]
|}.

Lemma sample_streams : streams ["hel"; "lo"] sample_response.
Proof.
  split; [done|done|done| |done|].
  - assert (Forall (λ l : bytes, length l ≤ 100)%nat ((split_lines (concat (pr_chunks sample_response))).2 :: (split_lines (concat (pr_chunks sample_response))).1)) as Hlines.
    { vm_compute. repeat constructor. }
    assert (Forall (λ l : bytes, length l ≤ 100)%nat (pr_chunks sample_response)) as Hchunks by (vm_compute; repeat constructor).
    unfold within. destruct (split_lines _) as [lines rest]. intros line chunk Hl Hc. rewrite Forall_forall in Hlines, Hchunks.
    specialize (Hlines _ Hl). specialize (Hchunks _ Hc). unfold MAX_SSE_EVENT_BYTES. lia.
  - repeat constructor; try done; vm_compute; intros Hin; set_solver.
Qed.

Lemma model_output_delivered_witness :
  let adapter := openai_adapter {| exposed := "key" |}
    (open_http_stream Some (λ _, None) 0 (λ _, "") (λ _, Ok sample_response) {| endpoint := "https://models"; frame_capacity := 8 |}) in
  sn (left_alone_step 2) (execute_cancellable adapter plain_request) ∧
  ∀ j, rtc (left_alone_step 2) (execute_cancellable adapter plain_request) j → nf (left_alone_step 2) j →
    delivered j = [Ok {| token_text := "hel" |}; Ok {| token_text := "lo" |}].
Proof.
  intros adapter.
  assert (∀ j, sn (left_alone_step 2) (execute_cancellable adapter plain_request) ∧
    (rtc (left_alone_step 2) (execute_cancellable adapter plain_request) j → nf (left_alone_step 2) j →
     task j = Stopped ∧ buffer j = [] ∧ delivered j = map (λ text, Ok {| token_text := text |}) (omap id [Some "hel"; Some "lo"]))) as Hall.
  { intros j. apply (model_output_delivered Some (λ _, None) 0 (λ _, "") (λ _, Ok sample_response) {| endpoint := "https://models"; frame_capacity := 8 |}
      {| exposed := "key" |} "Bearer key" sample_response ["hel"; "lo"] [Some "hel"; Some "lo"] 2 2 plain_request); try reflexivity; try done.
    - exact sample_streams.
    - repeat constructor. }
  split; [apply (Hall (execute_cancellable adapter plain_request))|]. intros j H1 H2. destruct (Hall j) as [_ Hd]. by destruct (Hd H1 H2) as (_ & _ & ?).
Defined.

(** ** Where chunks matter *)

(** An event that arrives in the same chunk as a line that is not UTF-8 is lost; alone
    it is delivered. *)
Theorem events_lost_before_an_error :
  let event := sse_event "a" in let bad := [Byte.xff; Byte.x0a] in
  decode_response sse_new [event; bad] None = [FrameData "a"; FrameError (protocol "SSE line is not UTF-8")] ∧
  decode_response sse_new [event ++ bad] None = [FrameError (protocol "SSE line is not UTF-8")].
Proof. vm_compute. done. Qed.

(** A chunk beyond the limit is refused however short its events are. *)
Theorem long_chunk_refused chunk chunks failure : MAX_SSE_EVENT_BYTES < N.of_nat (length chunk) →
  decode_response sse_new (chunk :: chunks) failure = [FrameError (protocol "SSE event exceeded the one-megabyte limit")].
Proof. intros Hlen. cbn [decode_response]. unfold sse_push. cbn [sse_new pending app]. by rewrite bool_decide_eq_true_2. Qed.

(** ** Frames of local models *)

Lemma line_frames_app lines more :
  line_frames (lines ++ more) =
  match line_frames lines with
  | (sent, Err e) => (sent, Err e)
  | (sent, Ok _) => let '(rest, r) := line_frames more in (sent ++ rest, r)
  end.
Proof.
  induction lines as [|line lines IH]; cbn [app line_frames]; [by destruct (line_frames more)|].
  destruct (strip_return line) as [|b l]; [done|]. destruct (from_utf8 (b :: l)); [|done]. rewrite IH.
  destruct (line_frames lines) as [sent []]; [|done]. by destruct (line_frames more).
Qed.

(** How the output of a local model is read does not matter: its lines are the frames,
    up to one that is not UTF-8, and then the last bytes or the failure. *)
Theorem local_frames_exact reads failure : ∀ rest, split_lines rest = ([], rest) →
  within MAX_LOCAL_FRAME_BYTES reads (rest ++ concat reads) →
  read_frames rest reads failure =
  let '(lines, final) := split_lines (rest ++ concat reads) in
  match line_frames lines with
  | (sent, Err e) => (sent, Err e)
  | (sent, Ok _) => let '(more, r) := read_frames final [] failure in (sent ++ more, r)
  end.
Proof.
  induction reads as [|chunk reads IH]; intros rest Hrest Hw.
  - cbn [concat]. rewrite app_nil_r, Hrest. cbn [line_frames]. by destruct (read_frames rest [] failure).
  - destruct (split_lines (rest ++ chunk)) as [lines left] eqn:E. destruct (within_cons _ _ _ _ _ _ Hrest E Hw) as [Hle Hw'].
    cbn [concat]. rewrite app_assoc, split_lines_app, E. specialize (IH left (split_lines_rest _ _ _ E) Hw').
    destruct (split_lines (left ++ concat reads)) as [more final]. rewrite line_frames_app. revert IH.
    generalize (read_frames final [] failure). intros [last r] IH. cbn [read_frames]. rewrite bool_decide_eq_false_2 by lia. rewrite E, IH.
    destruct (line_frames lines) as [sent []]; [|done]. destruct (line_frames more) as [sent' []]; [|done]. by rewrite app_assoc.
Qed.
