(* ===== verification/Project.v ===== *)
(** * Project manifests and discovery (crates/syllog-project/src)

    manifest.rs: loading and validating Syllog.toml; discover.rs: the search for the
    nearest manifest.  The toml crate and [canonicalize] are arguments; files are
    those of Storage.  Spans of the toml crate lie on character boundaries, so that
    slicing the source at them cannot panic. *)

From Stdlib Require Import Ascii.
From stdpp Require Import base gmap strings numbers list.
From S2P Require Import Prelude Text Resolver ResolverTheorems Registry Storage Transport.
Open Scope string_scope.
Open Scope list_scope.
Open Scope N_scope.

(** ** Manifests *)

Record PackageIdentity := { mp_name : string; mp_version : string; mp_edition : string }.

Inductive TargetKind := BinTarget | LibTarget.

#[export] Instance target_kind_eq_dec : EqDecision TargetKind.
Proof. solve_decision. Defined.

Record Target := { tg_name : string; tg_kind : TargetKind; tg_path : string }.

Record Dependency := { dp_requirement : string }.

Record CapabilityProfile := { cp_profile : string; cp_network : list string; cp_environment : list string; cp_max_memory_bytes : N }.

Record Manifest := {
  mf_package : PackageIdentity; mf_targets : list Target; mf_dependencies : gmap string Dependency; mf_capabilities : CapabilityProfile
}.

Record SourcePosition := { sp_line : nat; sp_column : nat }.
Record SourceRange := { sr_start : SourcePosition; sr_end : SourcePosition }.
Record ManifestDiagnostic := { mg_code : string; mg_message : string; mg_file : string; mg_range : SourceRange }.

(** [toml::Spanned] *)
Record Spanned := { into_inner : string; span : nat * nat }.

Record RawTarget := { rt_name : Spanned; rt_kind : TargetKind; rt_path : Spanned }.
Record RawCapabilities := { rw_profile : Spanned; rw_network : list string; rw_environment : list string; rw_max_memory_bytes : N }.
Record RawManifest := {
  rm_package : PackageIdentity; rm_targets : list RawTarget; rm_dependencies : gmap string string; rm_capabilities : RawCapabilities
}.

(** ** Positions *)

Definition newline_character : ascii := ascii_of_nat 10.

Fixpoint string_take (n : nat) (s : string) : string :=
  match n, s with S n, String c s => String c (string_take n s) | _, _ => "" end.

Fixpoint count_character (c : ascii) (s : string) : nat :=
  match s with EmptyString => 0 | String x s => (if bool_decide (x = c) then 1 else 0) + count_character c s end.

(** [chars().count()]: bytes that do not continue a character. *)
Fixpoint count_scalars (s : string) : nat :=
  match s with
  | EmptyString => 0
  | String c s => (if bool_decide (128 ≤ N_of_ascii c) && bool_decide (N_of_ascii c < 192) then 0 else 1) + count_scalars s
  end.

Definition source_position (source : string) (byte : nat) : SourcePosition :=
  let prefix := string_take (byte `min` String.length source) source in
  {| sp_line := count_character newline_character prefix + 1;
     sp_column := count_scalars (default "" (last (split_on newline_character prefix))) + 1 |}.

Definition manifest_diagnostic (code message file source : string) (span : nat * nat) : ManifestDiagnostic :=
  {| mg_code := code; mg_message := message; mg_file := file;
     mg_range := {| sr_start := source_position source span.1; sr_end := source_position source span.2 |} |}.

(** ** Paths *)

(** The names pushed and popped for the components of a relative path. *)
Fixpoint normalize (cs : list Component) (names : list string) : option (list string) :=
  match cs with
  | [] => Some names
  | Normal name :: cs => normalize cs (names ++ [name])
  | ParentDir :: cs => match names with [] => None | _ => normalize cs (removelast names) end
  | CurDir :: cs => normalize cs names
  | RootDir :: _ => None
  end.

Definition normalize_inside (root relative : string) : option string :=
  if starts_with "/" relative then None
  else (λ names, join_path root (join "/" names)) <$> normalize (components relative) [].

(** ** Validation *)

Definition known_profile (profile : string) : bool :=
  bool_decide (profile = "none") || bool_decide (profile = "agent") || bool_decide (profile = "native").

(** The loop over the targets, with the names seen. *)
Fixpoint validate_targets (file source root : string) (targets : list RawTarget) (names : gset string) : list Target * list ManifestDiagnostic :=
  match targets with
  | [] => ([], [])
  | t :: targets =>
      let name := into_inner (rt_name t) in
      let duplicate := if bool_decide (name ∈ names)
                       then [manifest_diagnostic "SYLP1002" ("duplicate target '" +:+ name +:+ "'") file source (span (rt_name t))] else [] in
      let '(valid, escape) := match normalize_inside root (into_inner (rt_path t)) with
                              | Some path => ([{| tg_name := name; tg_kind := rt_kind t; tg_path := path |}], [])
                              | None => ([], [manifest_diagnostic "SYLP1004" ("target path '" +:+ into_inner (rt_path t) +:+ "' escapes the project root")
                                                file source (span (rt_path t))])
                              end in
      let '(rest, ds) := validate_targets file source root targets ({[name]} ∪ names) in
      (valid ++ rest, duplicate ++ escape ++ ds)
  end.

(** [path.parent().unwrap_or_else(|| Path::new("."))] *)
Definition manifest_root (file : string) : string := default "." (parent_path file).

Definition validate_manifest (file source : string) (raw : RawManifest) : result Manifest (list ManifestDiagnostic) :=
  let c := rm_capabilities raw in
  let profile := into_inner (rw_profile c) in
  let unknown := if known_profile profile then []
                 else [manifest_diagnostic "SYLP1003" ("unknown capability profile '" +:+ profile +:+ "'") file source (span (rw_profile c))] in
  let '(targets, ds) := validate_targets file source (manifest_root file) (rm_targets raw) ∅ in
  match unknown ++ ds with
  | [] => Ok {| mf_package := rm_package raw; mf_targets := targets;
                mf_dependencies := (λ requirement, {| dp_requirement := requirement |}) <$> rm_dependencies raw;
                mf_capabilities := {| cp_profile := profile; cp_network := rw_network c; cp_environment := rw_environment c;
                                      cp_max_memory_bytes := rw_max_memory_bytes c |} |}
  | ds => Err ds
  end.

(** [fs::read_to_string] *)
Definition read_text (io : faults) (d : disk) (path : string) : result string IoFailure :=
  match read_file io d path with
  | Err e => Err e
  | Ok content => match from_utf8 content with Some text => Ok text | None => Err (Refusal "stream did not contain valid UTF-8") end
  end.

Section project.
(** [toml::from_str] with its message and span, the text of an I/O error, and
    [canonicalize]. *)
Context (parse_toml : string → result RawManifest (string * option (nat * nat))) (failure_text : IoFailure → string)
  (canonicalize : string → result string IoFailure).

Definition load_manifest (io : faults) (d : disk) (file : string) : result Manifest (list ManifestDiagnostic) :=
  match read_text io d file with
  | Err e => Err [manifest_diagnostic "SYLP1000" ("could not read manifest: " +:+ failure_text e) file "" (0, 0)%nat]
  | Ok source =>
      match parse_toml source with
      | Err (message, at_span) => Err [manifest_diagnostic "SYLP1001" message file source (default (0, 0)%nat at_span)]
      | Ok raw => validate_manifest file source raw
      end
  end.

(** ** Discovery *)

Record Project := { pj_root : string; pj_manifest_path : string; pj_manifest : Manifest }.

Inductive ProjectError :=
| StartPath (path : string) (source : IoFailure)
| ProjectNotFound (start : string)
| InvalidManifest (diagnostics : list ManifestDiagnostic).

Definition is_file (d : disk) (path : string) : bool := bool_decide (is_Some (d !! path)).

(** [Path::ancestors]: the path, its parent, the parent's parent and so on. *)
Fixpoint parents (n : nat) (cs : list Component) : list (list Component) :=
  match n, cs with
  | O, _ | _, [] | _, [RootDir] => []
  | S n, _ => removelast cs :: parents n (removelast cs)
  end.

Definition ancestors (path : string) : list string :=
  path :: map render_components (parents (length (components path)) (components path)).

(** The loop over the ancestors. *)
Fixpoint find_project (io : faults) (d : disk) (directories : list string) : option (result Project (list ManifestDiagnostic)) :=
  match directories with
  | [] => None
  | directory :: directories =>
      let manifest_path := join_path directory "Syllog.toml" in
      if is_file d manifest_path then
        Some match load_manifest io d manifest_path with
             | Err ds => Err ds
             | Ok m => Ok {| pj_root := directory; pj_manifest_path := manifest_path; pj_manifest := m |}
             end
      else find_project io d directories
  end.

Definition containing_directory (d : disk) (path : string) : string :=
  if is_file d path then default path (parent_path path) else path.

Definition discover (io : faults) (d : disk) (start : string) : result Project ProjectError :=
  match canonicalize start with
  | Err e => Err (StartPath start e)
  | Ok resolved =>
      match find_project io d (ancestors (containing_directory d resolved)) with
      | Some (Ok project) => Ok project
      | Some (Err ds) => Err (InvalidManifest ds)
      | None => Err (ProjectNotFound (containing_directory d start))
      end
  end.
End project.

(** ** What validation accepts *)

Lemma normalize_walk dir cs : ∀ acc names, normalize cs acc = Some names →
  foldl walk_component (dir ++ acc) cs = dir ++ names ∧
  ∀ p, p `prefix_of` cs → dir `prefix_of` foldl walk_component (dir ++ acc) p.
Proof.
  induction cs as [|c cs IH]; intros acc names Hn.
  { injection Hn as <-. split; [done|]. intros p ->%prefix_nil_inv. by eexists. }
  assert (∃ acc', normalize cs acc' = Some names ∧ walk_component (dir ++ acc) c = dir ++ acc') as (acc' & Hn' & Hstep).
  { destruct c as [| | |name]; cbn in *; [done|by exists acc| |].
    - destruct acc as [|x acc]; [done|]. eexists. split; [done|]. by rewrite removelast_app.
    - eexists. split; [done|]. by rewrite app_assoc. }
  destruct (IH _ _ Hn') as [Hend Hp]. cbn [foldl]. rewrite Hstep. split; [done|]. intros [|c' p] Hpre; [by eexists|].
  pose proof (prefix_cons_inv_1 _ _ _ _ Hpre) as ->. apply prefix_cons_inv_2 in Hpre. cbn [foldl]. rewrite Hstep. by apply Hp.
Qed.

Lemma normalize_total dir cs : dir ≠ [] → RootDir ∉ cs → ∀ acc,
  (∀ p, p `prefix_of` cs → dir `prefix_of` foldl walk_component (dir ++ acc) p) → is_Some (normalize cs acc).
Proof.
  intros Hdir. induction cs as [|c cs IH]; intros Hroot acc Hin; [by eexists|]. apply not_elem_of_cons in Hroot as [Hc Hroot].
  assert (∀ acc', walk_component (dir ++ acc) c = dir ++ acc' → is_Some (normalize cs acc')) as Hrec.
  { intros acc' Hstep. apply IH; [done|]. intros p Hp. specialize (Hin (c :: p) (prefix_cons _ _ _ Hp)). cbn in Hin. by rewrite Hstep in Hin. }
  destruct c as [| | |name]; cbn; [done|by apply Hrec| |apply Hrec; cbn; by rewrite app_assoc].
  destruct acc as [|x acc]; [|apply Hrec; cbn [walk_component]; by rewrite removelast_app].
  specialize (Hin [ParentDir]). cbn in Hin. rewrite app_nil_r in Hin. exfalso.
  assert (dir `prefix_of` removelast dir) as Hp%prefix_length by (apply Hin; by eexists).
  destruct (exists_last Hdir) as (d & x & ->). rewrite removelast_last, length_app in Hp. cbn in Hp. lia.
Qed.

Lemma relative_components path : starts_with "/" path = false → RootDir ∉ components path.
Proof.
  assert (∀ part, RootDir ∉ normal_component part) as Hpart.
  { intros part. unfold normal_component. destruct (_ || _); [set_solver|]. case_bool_decide; set_solver. }
  assert (∀ parts, RootDir ∉ flat_map normal_component parts) as Hparts.
  { induction parts as [|p parts IH]; [set_solver|]. cbn. rewrite elem_of_app. intros [H|H]; [by eapply Hpart|done]. }
  intros Hs. unfold components. destruct (split_on _ path) as [|first rest] eqn:E; [set_solver|]. rewrite elem_of_app.
  intros [Hin|Hin]; [|by eapply Hparts].
  destruct (bool_decide (first = "") && negb (bool_decide (path = ""))) eqn:Ef.
  - apply andb_true_iff in Ef as [->%bool_decide_eq_true Hne%negb_true_iff%bool_decide_eq_false].
    destruct path as [|c path]; [done|]. cbn in E, Hs. rewrite andb_true_r in Hs. apply bool_decide_eq_false in Hs.
    rewrite bool_decide_eq_false_2 in E by congruence. by destruct (split_on _ path).
  - case_bool_decide; [set_solver|by eapply Hpart].
Qed.

(** A path that never leaves the directory it is read in. *)
Definition stays_inside (path : string) : Prop :=
  starts_with "/" path = false ∧
  ∀ dir p, dir ≠ [] → p `prefix_of` components path → dir `prefix_of` foldl walk_component dir p.

Lemma normalize_inside_exact root path :
  is_Some (normalize_inside root path) ↔ stays_inside path.
Proof.
  unfold normalize_inside, stays_inside. destruct (starts_with "/" path) eqn:Hs; [split; [by intros []|by intros []]|].
  rewrite fmap_is_Some. split.
  - intros [names Hn]. split; [done|]. intros dir p _ Hp. pose proof (normalize_walk dir _ _ _ Hn) as [_ H]. rewrite app_nil_r in H. by apply H.
  - intros [_ Hin]. apply (normalize_total ["root"]); [done|by apply relative_components|]. intros p Hp. rewrite app_nil_r. by apply Hin.
Qed.

(** The target a declaration becomes. *)
Definition target_of (root : string) (t : RawTarget) (tg : Target) : Prop :=
  tg_name tg = into_inner (rt_name t) ∧ tg_kind tg = rt_kind t ∧
  ∃ names, (∀ dir, walk_path dir (into_inner (rt_path t)) = dir ++ names) ∧ tg_path tg = join_path root (join "/" names).

Lemma normalize_inside_target root t path : normalize_inside root (into_inner (rt_path t)) = Some path →
  target_of root t {| tg_name := into_inner (rt_name t); tg_kind := rt_kind t; tg_path := path |}.
Proof.
  unfold normalize_inside. destruct (starts_with _ _); [done|]. intros (names & Hn & ->)%fmap_Some. split_and!; [done|done|].
  exists names. split; [|done]. intros dir. unfold walk_path. pose proof (normalize_walk dir _ _ _ Hn) as [H _]. by rewrite app_nil_r in H.
Qed.

Lemma validate_targets_exact file source root targets : ∀ names,
  ((validate_targets file source root targets names).2 = [] ↔
   NoDup (map (λ t, into_inner (rt_name t)) targets) ∧ Forall (λ t, (into_inner (rt_name t) ∉ names) ∧ stays_inside (into_inner (rt_path t))) targets) ∧
  ((validate_targets file source root targets names).2 = [] → Forall2 (target_of root) targets (validate_targets file source root targets names).1).
Proof.
  induction targets as [|t targets IH]; intros names; cbn [validate_targets map].
  { split; [|by constructor]. split; [|done]. intros _. split; constructor. }
  destruct (IH ({[into_inner (rt_name t)]} ∪ names)) as [IH1 IH2]. rewrite Forall_cons, NoDup_cons, <-(normalize_inside_exact root).
  destruct (validate_targets file source root targets _) as [rest ds]. cbn [fst snd] in *.
  destruct (normalize_inside root (into_inner (rt_path t))) as [path|] eqn:En; cbn [fst snd app].
  2: { split; [split|]; [by intros H%app_eq_nil; destruct H|by intros (_ & (_ & []%is_Some_None) & _)|]. by intros [_ ?]%app_eq_nil. }
  case_bool_decide as Hdup; cbn [app].
  { split; [split; [done|]|done]. intros (_ & [Hn _] & _). done. }
  split.
  - rewrite IH1, list_elem_of_fmap. split.
    + intros [Hnd Hall]. rewrite Forall_forall in *. split_and!; [|done|done|by eexists|].
      * intros (t' & Ht & Hin). destruct (Hall t' Hin) as [Hne _]. set_solver.
      * intros x Hx. destruct (Hall x Hx). set_solver.
    + intros ([Hnin Hnd] & _ & Hall). split; [done|]. rewrite Forall_forall in *. intros x Hx. destruct (Hall x Hx) as [H1 H2]. split; [|done].
      rewrite not_elem_of_union, not_elem_of_singleton. split; [|done]. intros Heq. apply Hnin. exists x. by rewrite Heq.
  - intros Hds. constructor; [by apply normalize_inside_target|by apply IH2].
Qed.

Record acceptable (raw : RawManifest) : Prop := {
  ac_profile : into_inner (rw_profile (rm_capabilities raw)) ∈ ["none"; "agent"; "native"];
  ac_names : NoDup (map (λ t, into_inner (rt_name t)) (rm_targets raw));
  ac_paths : Forall (λ t, stays_inside (into_inner (rt_path t))) (rm_targets raw)
}.

Lemma known_profile_exact p : known_profile p = true ↔ p ∈ ["none"; "agent"; "native"].
Proof. unfold known_profile. rewrite !orb_true_iff, !bool_decide_eq_true, !elem_of_cons, elem_of_nil. naive_solver. Qed.

(** C29: a manifest is accepted exactly when its profile is known, no two targets share
    a name and no target's path leaves the project on its way; the targets are then
    the declared ones, in order, each at the place its path leads to below the
    project root. *)
Theorem manifest_accepted_exactly file source raw :
  ((∃ m, validate_manifest file source raw = Ok m) ↔ acceptable raw) ∧
  ∀ m, validate_manifest file source raw = Ok m →
    Forall2 (target_of (manifest_root file)) (rm_targets raw) (mf_targets m) ∧ mf_package m = rm_package raw ∧
    dp_requirement <$> mf_dependencies m = rm_dependencies raw.
Proof.
  destruct (validate_targets_exact file source (manifest_root file) (rm_targets raw) ∅) as [Hexact Htargets].
  pose proof (known_profile_exact (into_inner (rw_profile (rm_capabilities raw)))) as Hprofile. unfold validate_manifest.
  destruct (validate_targets _ _ _ _ _) as [targets ds]. cbn [fst snd] in *. destruct (known_profile _).
  - cbn [app]. destruct ds as [|d ds]; split.
    + split; [|by eexists]. intros _. destruct (proj1 Hexact eq_refl) as [Hnd Hall]. split; [by apply Hprofile|done|].
      eapply Forall_impl; [exact Hall|]. by intros t [_ ?].
    + intros m [= <-]. cbn. split_and!; [by apply Htargets|done|]. rewrite <-map_fmap_compose. apply map_fmap_id.
    + split; [by intros [? ?]|]. intros [_ Hnd Hall]. discriminate (proj2 Hexact). split; [done|].
      eapply Forall_impl; [exact Hall|]. cbn. set_solver.
    + done.
  - split; [|done]. split; [by intros [? ?]|]. intros [Hp _ _]. by apply Hprofile in Hp.
Qed.

Definition plain_span (text : string) : Spanned := {| into_inner := text; span := (0, 4)%nat |}.
Definition sample_raw (paths : list (string * string)) : RawManifest := {|
  rm_package := {| mp_name := "app"; mp_version := "1.0.0"; mp_edition := "2024" |};
  rm_targets := map (λ '(name, path), {| rt_name := plain_span name; rt_kind := BinTarget; rt_path := plain_span path |}) paths;
  rm_dependencies := {["lib" := "^1"]};
  rm_capabilities := {| rw_profile := plain_span "none"; rw_network := []; rw_environment := []; rw_max_memory_bytes := 65536 |}
|}.

Example manifest_samples :
  match validate_manifest "/p/Syllog.toml" "" (sample_raw [("main", "src/../src/./main.syl"); ("lib", "lib.syl")]) with
  | Ok m => map tg_path (mf_targets m) = ["/p/src/main.syl"; "/p/lib.syl"]
  | Err _ => False
  end ∧
  match validate_manifest "/p/Syllog.toml" "" (sample_raw [("main", "src/../../p/main.syl"); ("main", "lib.syl")]) with
  | Ok _ => False
  | Err ds => map mg_code ds = ["SYLP1004"; "SYLP1002"]
  end.
Proof. vm_compute. done. Qed.

(** ** What discovery finds *)

(** The chain of parents ends at the root. *)
Lemma parents_end n cs : (length cs ≤ n)%nat →
  match last (parents n cs) with Some last => last = [] ∨ last = [RootDir] | None => cs = [] ∨ cs = [RootDir] end.
Proof.
  revert cs. induction n as [|n IH]; intros cs Hn; [destruct cs; [by left|cbn in Hn; lia]|].
  assert (cs = [] ∨ cs = [RootDir] ∨ cs ≠ [] ∧ parents (S n) cs = removelast cs :: parents n (removelast cs)) as [-> |[-> |[Hne ->]]];
    [destruct cs as [|[] []]; cbn; by auto|by left|by right|]. specialize (IH (removelast cs)).
  destruct (exists_last Hne) as (init & c & ->). rewrite removelast_last in *. rewrite length_app in Hn. cbn in Hn.
  specialize (IH ltac:(lia)). rewrite last_cons. by destruct (last (parents n init)).
Qed.

(** The nearest directory with a manifest decides, and only that one. *)
Theorem discover_exact parse_toml failure_text canonicalize io d start resolved : canonicalize start = Ok resolved →
  let candidates := ancestors (containing_directory d resolved) in
  let has_manifest directory := is_file d (join_path directory "Syllog.toml") in
  match discover parse_toml failure_text canonicalize io d start with
  | Ok p => ∃ nearer farther, candidates = nearer ++ pj_root p :: farther ∧ Forall (λ a, has_manifest a = false) nearer ∧
      pj_manifest_path p = join_path (pj_root p) "Syllog.toml" ∧ load_manifest parse_toml failure_text io d (pj_manifest_path p) = Ok (pj_manifest p)
  | Err (InvalidManifest ds) => ∃ nearer root farther, candidates = nearer ++ root :: farther ∧ Forall (λ a, has_manifest a = false) nearer ∧
      load_manifest parse_toml failure_text io d (join_path root "Syllog.toml") = Err ds
  | Err (ProjectNotFound _) => Forall (λ a, has_manifest a = false) candidates
  | Err (StartPath _ _) => False
  end.
Proof.
  intros Hc. unfold discover. rewrite Hc. cbn zeta. generalize (ancestors (containing_directory d resolved)). intros candidates.
  assert (∀ nearer l, Forall (λ a, is_file d (join_path a "Syllog.toml") = false) nearer →
    match find_project parse_toml failure_text io d l with
    | Some (Ok p) => ∃ nearer' farther, nearer ++ l = nearer' ++ pj_root p :: farther ∧ Forall (λ a, is_file d (join_path a "Syllog.toml") = false) nearer' ∧
        pj_manifest_path p = join_path (pj_root p) "Syllog.toml" ∧ load_manifest parse_toml failure_text io d (pj_manifest_path p) = Ok (pj_manifest p)
    | Some (Err ds) => ∃ nearer' root farther, nearer ++ l = nearer' ++ root :: farther ∧ Forall (λ a, is_file d (join_path a "Syllog.toml") = false) nearer' ∧
        load_manifest parse_toml failure_text io d (join_path root "Syllog.toml") = Err ds
    | None => Forall (λ a, is_file d (join_path a "Syllog.toml") = false) (nearer ++ l)
    end) as Hfind.
  { intros nearer l. revert nearer. induction l as [|a l IH]; intros nearer Hn; cbn; [by rewrite app_nil_r|].
    destruct (is_file d (join_path a "Syllog.toml")) eqn:E.
    - destruct (load_manifest _ _ _ _ _) as [m|ds] eqn:El; [by exists nearer, l|by exists nearer, a, l].
    - specialize (IH (nearer ++ [a])). rewrite <-app_assoc in IH. apply IH. apply Forall_app. by repeat constructor. }
  specialize (Hfind [] candidates ltac:(constructor)). cbn [app] in Hfind. by destruct (find_project _ _ _ _ candidates) as [[]|].
Qed.
