(* ===== verification/Commands.v ===== *)
(** * Package commands of the command line (crates/syllog-cli/src)

    commands/mod.rs: the checks of a lockfile against the manifest and of an archive
    against the lockfile, and the sources of locked packages; commands/fetch.rs; the publisher seed of main.rs.  Messages are data. *)

From Stdlib Require Import Ascii.
From stdpp Require Import base gmap strings numbers pretty relations list.
From S2P Require Import Prelude Text Resolver ResolverTheorems ResolverClaims Registry.
From S2P Require Import Storage Transport Project Compile Package.
Open Scope string_scope.
Open Scope list_scope.
Open Scope N_scope.

(** ** Lockfiles *)

Section lock.
Context `{SemVer}.

Inductive LockError :=
| LockDuplicate (name : string)
| LockMissing (name : string)
| LockRequirement (name reason : string)
| LockUnsatisfied (name : string) (version : Version) (requirement : string)
| LockOmits (dependency name : string) (version : Version)
| LockSelects (selected : Version) (dependency name : string) (version expected : Version)
| LockUnreachable (name : string).

Abbreviation locked := (gmap string LockedPackage).

(** The packages by name. *)
Fixpoint index_packages (ps : list LockedPackage) (m : locked) : result locked LockError :=
  match ps with
  | [] => Ok m
  | p :: ps => if bool_decide (is_Some (m !! lp_name p)) then Err (LockDuplicate (lp_name p)) else index_packages ps (<[lp_name p := p]> m)
  end.

(** The loop over the manifest's dependencies. *)
Fixpoint check_direct (m : locked) (deps : list (string * string)) : result unit LockError :=
  match deps with
  | [] => Ok tt
  | (name, text) :: deps =>
      match m !! name with
      | None => Err (LockMissing name)
      | Some p =>
          match parse_requirement text with
          | Err reason => Err (LockRequirement name reason)
          | Ok req => if requirement_matches req (lp_version p) then check_direct m deps else Err (LockUnsatisfied name (lp_version p) text)
          end
      end
  end.

(** The loop over the dependencies of one locked package, and over the packages. *)
Fixpoint check_edges (m : locked) (p : LockedPackage) (deps : list (string * Version)) : result unit LockError :=
  match deps with
  | [] => Ok tt
  | (dependency, expected) :: deps =>
      match m !! dependency with
      | None => Err (LockOmits dependency (lp_name p) (lp_version p))
      | Some q =>
          if bool_decide (lp_version q = expected) then check_edges m p deps
          else Err (LockSelects (lp_version q) dependency (lp_name p) (lp_version p) expected)
      end
  end.

Fixpoint check_packages (m : locked) (ps : list LockedPackage) : result unit LockError :=
  match ps with
  | [] => Ok tt
  | p :: ps => match check_edges m p (entries (lp_dependencies p)) with Err e => Err e | Ok _ => check_packages m ps end
  end.

(** The names a package pushes, the last one on top. *)
Definition pushed (m : locked) (name : string) : list string :=
  match m !! name with Some p => rev (map fst (entries (lp_dependencies p))) | None => [] end.

Fixpoint reach (fuel : nat) (m : locked) (pending : list string) (reachable : gset string) : option (gset string) :=
  match fuel with
  | O => None
  | S fuel =>
      match pending with
      | [] => Some reachable
      | name :: pending =>
          if bool_decide (name ∈ reachable) then reach fuel m pending reachable
          else reach fuel m (pushed m name ++ pending) ({[name]} ∪ reachable)
      end
  end.

(** One step per name pushed and one to see the empty stack. *)
Definition reach_fuel (deps : list (string * string)) (ps : list LockedPackage) : nat :=
  S (length deps + sum_list_with (λ p, length (entries (lp_dependencies p))) ps).

Definition validate_lock_graph (manifest : Manifest) (r : Resolution) : option (result unit LockError) :=
  let deps := entries (dp_requirement <$> mf_dependencies manifest) in
  match index_packages (packages r) ∅ with
  | Err e => Some (Err e)
  | Ok m =>
      match check_direct m deps with
      | Err e => Some (Err e)
      | Ok _ =>
          match check_packages m (packages r) with
          | Err e => Some (Err e)
          | Ok _ =>
              reachable ← reach (reach_fuel deps (packages r)) m (rev (map fst deps)) ∅;
              Some match List.find (λ p, negb (bool_decide (lp_name p ∈ reachable))) (packages r) with
                   | Some p => Err (LockUnreachable (lp_name p))
                   | None => Ok tt
                   end
          end
      end
  end.

(** ** What a valid lockfile says *)

Lemma index_packages_ok ps : ∀ m, match index_packages ps m with
  | Ok m' => NoDup (map lp_name ps) ∧ (∀ p, p ∈ ps → m !! lp_name p = None) ∧
      ∀ n p, m' !! n = Some p ↔ m !! n = Some p ∨ p ∈ ps ∧ lp_name p = n
  | Err _ => ¬ (NoDup (map lp_name ps) ∧ ∀ p, p ∈ ps → m !! lp_name p = None)
  end.
Proof.
  induction ps as [|p ps IH]; intros m; cbn [index_packages map].
  { split_and!; [constructor|set_solver|]. set_solver. }
  case_bool_decide as Hp.
  { intros [_ Hnew]. rewrite Hnew in Hp by set_solver. by destruct Hp. }
  apply eq_None_not_Some in Hp. specialize (IH (<[lp_name p := p]> m)). destruct (index_packages ps _) as [m'|e].
  - destruct IH as (Hnd & Hnew & Hm). split_and!.
    + constructor; [|done]. intros (q & Hq & Hin)%list_elem_of_fmap. specialize (Hnew q Hin). rewrite <-Hq, lookup_insert_eq in Hnew. done.
    + intros q [->|Hin]%elem_of_cons; [done|]. specialize (Hnew q Hin). by apply lookup_insert_None in Hnew as [? _].
    + intros n q. rewrite Hm, lookup_insert_Some, elem_of_cons. split.
      * intros [[[<- <-]|[_ ?]]|[? ?]]; by auto.
      * intros [Hn|[[->|Hin] Hn]]; [|by left; left|by right]. left. right. split; [|done]. intros Heq. subst n. congruence.
  - intros [Hnd Hnew]. apply NoDup_cons in Hnd as [Hnin Hnd]. apply IH. split; [done|]. intros q Hq. rewrite lookup_insert_ne.
    + apply Hnew. set_solver.
    + intros Heq. apply Hnin. rewrite Heq. apply list_elem_of_fmap. by exists q.
Qed.

Lemma check_direct_ok m deps : check_direct m deps = Ok tt ↔
  ∀ name text, (name, text) ∈ deps → ∃ p req, m !! name = Some p ∧ parse_requirement text = Ok req ∧ requirement_matches req (lp_version p) = true.
Proof.
  induction deps as [|[name text] deps IH]; cbn [check_direct]; [split; [set_solver|done]|]. split.
  - destruct (m !! name) as [p|] eqn:Ep; [|done]. destruct (parse_requirement text) as [req|] eqn:Er; [|done].
    destruct (requirement_matches req (lp_version p)) eqn:Em; [|done]. rewrite IH. intros Hrest n t [[= -> ->]|Hin]%elem_of_cons; [by exists p, req|by apply Hrest].
  - intros Hall. destruct (Hall name text) as (p & req & -> & -> & ->); [set_solver|]. apply IH. intros. apply Hall. set_solver.
Qed.

Lemma check_edges_ok m p deps : check_edges m p deps = Ok tt ↔
  ∀ n v, (n, v) ∈ deps → ∃ q, m !! n = Some q ∧ lp_version q = v.
Proof.
  induction deps as [|[n v] deps IH]; cbn [check_edges]; [split; [set_solver|done]|]. split.
  - destruct (m !! n) as [q|] eqn:Eq; [|done]. case_bool_decide as Hv; [|done]. rewrite IH.
    intros Hrest n' v' [[= -> ->]|Hin]%elem_of_cons; [by exists q|by apply Hrest].
  - intros Hall. destruct (Hall n v) as (q & -> & Hv); [set_solver|]. rewrite bool_decide_eq_true_2 by done. apply IH. intros. apply Hall. set_solver.
Qed.

Lemma check_packages_ok m ps : check_packages m ps = Ok tt ↔
  ∀ p n v, p ∈ ps → lp_dependencies p !! n = Some v → ∃ q, m !! n = Some q ∧ lp_version q = v.
Proof.
  induction ps as [|p ps IH]; cbn [check_packages]; [split; [set_solver|done]|]. pose proof (check_edges_ok m p (entries (lp_dependencies p))) as He.
  destruct (check_edges m p _) as [[]|e].
  - rewrite IH. split; [|intros Hall q n v Hq; apply Hall; set_solver]. intros Hall q n v [->|Hq]%elem_of_cons; [|by apply Hall].
    intros Hn. apply (proj1 He eq_refl). by apply elem_of_entries.
  - split; [done|]. intros Hall. discriminate (proj2 He). intros n v Hn%elem_of_entries. apply (Hall p); [set_solver|done].
Qed.

Definition depends (m : locked) (a b : string) : Prop := b ∈ pushed m a.

Lemma reach_sound fuel m : ∀ pending seen R, reach fuel m pending seen = Some R →
  (∀ a b, a ∈ seen → depends m a b → b ∈ seen ∨ b ∈ pending) →
  (∀ n, n ∈ seen ∨ n ∈ pending → n ∈ R) ∧ (∀ a b, a ∈ R → depends m a b → b ∈ R) ∧
  ∀ n, n ∈ R → n ∈ seen ∨ ∃ s, s ∈ pending ∧ rtc (depends m) s n.
Proof.
  unfold depends. induction fuel as [|fuel IH]; intros pending seen R; cbn [reach]; [done|]. destruct pending as [|name pending].
  { intros [= <-] Hclosed. split_and!; [set_solver|set_solver|by left]. }
  case_bool_decide as Hname; intros Hr Hclosed; apply IH in Hr as (H1 & H2 & H3).
  - split_and!; [set_solver|done|]. intros n Hn. destruct (H3 n Hn) as [?|(s & ? & ?)]; [by left|]. right. exists s. set_solver.
  - set_solver.
  - split_and!; [intros n Hn; apply H1; set_solver|done|]. intros n Hn. destruct (H3 n Hn) as [[->%elem_of_singleton|?]%elem_of_union|(s & Hs & Hrtc)]; [|by left|].
    + right. exists name. split; [set_solver|done].
    + right. apply elem_of_app in Hs as [Hs|Hs]; [|exists s; set_solver]. exists name. split; [set_solver|]. by eapply rtc_l.
  - intros a b [->%elem_of_singleton|Ha]%elem_of_union Hb; [set_solver|]. destruct (Hclosed a b Ha Hb) as [?|[->|?]%elem_of_cons]; set_solver.
Qed.

Definition open_edges (ps : list LockedPackage) (seen : gset string) : nat :=
  sum_list_with (λ p, if bool_decide (lp_name p ∈ seen) then 0%nat else length (entries (lp_dependencies p))) ps.

Lemma open_edges_insert ps seen p : p ∈ ps → lp_name p ∉ seen →
  (length (entries (lp_dependencies p)) + open_edges ps ({[lp_name p]} ∪ seen) ≤ open_edges ps seen)%nat.
Proof.
  assert (∀ l, open_edges l ({[lp_name p]} ∪ seen) ≤ open_edges l seen)%nat as Hmono.
  { unfold open_edges. induction l as [|q l IH]; cbn; [lia|]. repeat case_bool_decide; try lia. set_solver. }
  intros Hp Hn. induction ps as [|q ps IH]; [set_solver|]. apply elem_of_cons in Hp as [<-|Hp]; cbn.
  - rewrite bool_decide_eq_true_2, bool_decide_eq_false_2 by set_solver. specialize (Hmono ps). unfold open_edges in *. lia.
  - specialize (IH Hp). unfold open_edges in *. repeat case_bool_decide; try lia. set_solver.
Qed.

Lemma open_edges_empty ps : open_edges ps ∅ = sum_list_with (λ p, length (entries (lp_dependencies p))) ps.
Proof. unfold open_edges. induction ps as [|p ps IH]; cbn; [done|]. rewrite bool_decide_eq_false_2 by set_solver. by rewrite IH. Qed.

Lemma reach_total ps m fuel : (∀ n p, m !! n = Some p → p ∈ ps ∧ lp_name p = n) → ∀ pending seen,
  (length pending + open_edges ps seen < fuel)%nat → is_Some (reach fuel m pending seen).
Proof.
  intros Hm. induction fuel as [|fuel IH]; intros pending seen Hlt; [lia|]. cbn [reach]. destruct pending as [|name pending]; [by eexists|].
  cbn in Hlt. case_bool_decide as Hn; apply IH; [lia|]. rewrite length_app. unfold pushed. destruct (m !! name) as [p|] eqn:E.
  - destruct (Hm _ _ E) as [Hp <-]. rewrite length_rev, length_map. pose proof (open_edges_insert ps seen p Hp Hn). lia.
  - cbn. assert (open_edges ps ({[name]} ∪ seen) ≤ open_edges ps seen)%nat; [|lia].
    unfold open_edges. clear. induction ps as [|q l IH]; cbn; [lia|]. repeat case_bool_decide; try lia. set_solver.
Qed.

(** The search finds what the first names lead to. *)
Lemma reach_exact ps m (deps : list (string * string)) : (∀ n p, m !! n = Some p → p ∈ ps ∧ lp_name p = n) →
  ∃ R, reach (reach_fuel deps ps) m (rev (map fst deps)) ∅ = Some R ∧ ∀ n, n ∈ R ↔ ∃ s, s ∈ map fst deps ∧ rtc (depends m) s n.
Proof.
  intros Hm. destruct (reach_total ps m (reach_fuel deps ps) Hm (rev (map fst deps)) ∅) as [R HR].
  { rewrite length_rev, length_map, open_edges_empty. unfold reach_fuel. lia. }
  exists R. split; [done|]. apply reach_sound in HR as (Hin & Hclosed & Hfrom); [|set_solver].
  assert (∀ s, s ∈ rev (map fst deps) ↔ s ∈ map fst deps) as Hs by (intros s; by rewrite list_elem_of_In, <-in_rev, <-list_elem_of_In).
  intros n. split.
  - intros Hn. destruct (Hfrom n Hn) as [?|(s & Hs' & Hr)]; [set_solver|]. exists s. by rewrite <-Hs.
  - intros (s & Hsome & Hr). assert (s ∈ R) as Hstart by (apply Hin; right; by apply Hs). clear Hsome.
    induction Hr as [|a b c Hab _ IH]; [done|]. apply IH. by eapply Hclosed.
Qed.

(** A lockfile that agrees with a manifest: one package per name, every dependency of
    the manifest met, every dependency of a package locked at the version it names,
    and no package that nothing asks for. *)
Record lock_valid (manifest : Manifest) (r : Resolution) : Prop := {
  lv_names : NoDup (map lp_name (packages r));
  lv_direct name d : mf_dependencies manifest !! name = Some d →
    ∃ p req, p ∈ packages r ∧ lp_name p = name ∧ parse_requirement (dp_requirement d) = Ok req ∧ requirement_matches req (lp_version p) = true;
  lv_edges p n v : p ∈ packages r → lp_dependencies p !! n = Some v → ∃ q, q ∈ packages r ∧ lp_name q = n ∧ lp_version q = v;
  lv_reachable p : p ∈ packages r →
    ∃ s, is_Some (mf_dependencies manifest !! s) ∧
      rtc (λ a b, ∃ q, q ∈ packages r ∧ lp_name q = a ∧ is_Some (lp_dependencies q !! b)) s (lp_name p)
}.

Lemma depends_edges m (ps : list LockedPackage) : (∀ n p, m !! n = Some p ↔ p ∈ ps ∧ lp_name p = n) → ∀ a b,
  depends m a b ↔ ∃ q, q ∈ ps ∧ lp_name q = a ∧ is_Some (lp_dependencies q !! b).
Proof.
  intros Hm a b. unfold depends, pushed. split.
  - destruct (m !! a) as [p|] eqn:E; [|set_solver]. apply Hm in E as [Hp <-].
    rewrite list_elem_of_In, <-in_rev, <-list_elem_of_In. intros ([n v] & -> & Hin%elem_of_entries)%list_elem_of_fmap. exists p. cbn. by eauto.
  - intros (q & Hq & <- & [v Hv]). rewrite (proj2 (Hm _ q)) by done. rewrite list_elem_of_In, <-in_rev, <-list_elem_of_In.
    apply list_elem_of_fmap. exists (b, v). split; [done|]. by apply elem_of_entries.
Qed.

Lemma validate_lock_graph_exact manifest r :
  ∃ answer, validate_lock_graph manifest r = Some answer ∧ (answer = Ok tt ↔ lock_valid manifest r).
Proof.
  unfold validate_lock_graph. pose proof (index_packages_ok (packages r) ∅) as Hi. destruct (index_packages _ _) as [m|e].
  2: { eexists. split; [done|]. split; [done|]. intros [Hn _ _ _]. destruct Hi. split; [done|]. intros. apply lookup_empty. }
  destruct Hi as (Hnd & _ & Hm0). assert (∀ n p, m !! n = Some p ↔ p ∈ packages r ∧ lp_name p = n) as Hm.
  { intros n p. rewrite Hm0, lookup_empty. naive_solver. } clear Hm0.
  set (deps := entries (dp_requirement <$> mf_dependencies manifest)).
  assert (∀ n t, (n, t) ∈ deps ↔ ∃ d, mf_dependencies manifest !! n = Some d ∧ dp_requirement d = t) as Hdeps.
  { intros n t. unfold deps. rewrite elem_of_entries, lookup_fmap, fmap_Some. naive_solver. }
  pose proof (check_direct_ok m deps) as Hd. destruct (check_direct m deps) as [[]|e].
  2: { eexists. split; [done|]. split; [done|]. intros [_ Hl _ _]. apply Hd. intros name text Hin.
       apply Hdeps in Hin as (d & Hlook & <-). destruct (Hl _ _ Hlook) as (p & req & ? & ? & ? & ?). exists p, req. by rewrite Hm. }
  pose proof (check_packages_ok m (packages r)) as He. destruct (check_packages m _) as [[]|e].
  2: { eexists. split; [done|]. split; [done|]. intros [_ _ Hl _]. apply He. intros p n v Hp Hv.
       destruct (Hl p n v Hp Hv) as (q & ? & ? & ?). exists q. by rewrite Hm. }
  destruct (reach_exact (packages r) m deps (λ n p, proj1 (Hm n p))) as (R & -> & HR0). cbn [mbind option_bind]. eexists. split; [done|].
  assert (∀ n, n ∈ R ↔ ∃ s, is_Some (mf_dependencies manifest !! s) ∧ rtc (depends m) s n) as HR.
  { intros n. rewrite HR0. clear -Hdeps. split.
    - intros (s & ([s' t] & -> & (d & ? & _)%Hdeps)%list_elem_of_fmap & ?). exists s'. split; [by eexists|done].
    - intros (s & [d Hlook] & ?). exists s. split; [|done]. apply list_elem_of_fmap. exists (s, dp_requirement d). split; [done|]. apply Hdeps. by eauto. }
  assert (∀ s n, rtc (depends m) s n ↔ rtc (λ a b, ∃ q, q ∈ packages r ∧ lp_name q = a ∧ is_Some (lp_dependencies q !! b)) s n) as Hrtc.
  { intros s n. split; induction 1; econstructor; eauto; by apply (depends_edges m (packages r) Hm). }
  split.
  - destruct (List.find _ _) as [p|] eqn:E; [done|]. intros _. split; [done| | |].
    + intros name d Hlook. destruct (proj1 Hd eq_refl name (dp_requirement d)) as (p & req & Hp & ? & ?); [apply Hdeps; by eauto|].
      apply Hm in Hp as [? ?]. by exists p, req.
    + intros p n v Hp Hv. destruct (proj1 He eq_refl p n v Hp Hv) as (q & Hq & ?). apply Hm in Hq as [? ?]. by exists q.
    + intros p Hp. pose proof (find_none _ _ E p (proj1 (list_elem_of_In _ _) Hp)) as Hf. apply negb_false_iff, bool_decide_eq_true, HR in Hf as (s & ? & ?).
      exists s. by rewrite <-Hrtc.
  - intros [_ _ _ Hreach]. destruct (List.find _ _) as [p|] eqn:E; [|done]. apply find_some in E as [Hp%list_elem_of_In Hn%negb_true_iff%bool_decide_eq_false].
    destruct Hn. apply HR. destruct (Hreach p Hp) as (s & ? & ?). exists s. by rewrite Hrtc.
Qed.
End lock.

(** C28: the lockfile check decides, and accepts exactly the lockfiles that agree with the
    manifest: one package per name, every dependency of the manifest met, every
    dependency of a package locked at the version it names, and every package
    reachable from the manifest. *)
Theorem lockfile_checked_exactly `{SemVer} manifest r :
  ∃ answer, validate_lock_graph manifest r = Some answer ∧ (answer = Ok tt ↔ lock_valid manifest r).
Proof. apply validate_lock_graph_exact. Qed.

(** A solution's lockfile agrees with the manifest it solves. *)
Lemma solution_lock_valid `{SV : SemVer} {SL : SemVerLaws} index offline manifest S r :
  (∀ name x, x ∈ index name → pr_name x = name) → solution index offline (dp_requirement <$> mf_dependencies manifest) S →
  packages r = (λ '(_, x), locked_package S x) <$> entries S → lock_valid manifest r.
Proof.
  intros Hindex HS Hp.
  assert (∀ p, p ∈ packages r ↔ ∃ n x, S !! n = Some x ∧ p = locked_package S x ∧ lp_name p = n) as Hin.
  { intros p. rewrite Hp, list_elem_of_fmap. split.
    - intros ([n x] & -> & Hx%elem_of_entries). exists n, x. cbn. split_and!; [done|done|]. eapply Hindex, sol_known; done.
    - intros (n & x & Hx & -> & _). exists (n, x). split; [done|]. by apply elem_of_entries. }
  assert (∀ n x m, S !! n = Some x → lp_dependencies (locked_package S x) !! m =
    match pr_dependencies x !! m with Some _ => pr_version <$> S !! m | None => None end) as Hdeps.
  { intros n x m Hx. cbn. rewrite map_lookup_imap. by destruct (pr_dependencies x !! m). }
  split.
  - assert (map lp_name (packages r) = (entries S).*1) as ->; [|apply entries_keys_NoDup].
    change (lp_name <$> packages r = (entries S).*1). rewrite Hp, <-list_fmap_compose. apply list_fmap_ext. intros i [n x] Hx. cbn.
    apply list_elem_of_lookup_2, elem_of_entries in Hx. eapply Hindex, sol_known; done.
  - intros name d Hd. destruct (sol_meets _ _ _ _ HS name (dp_requirement d)) as (req & x & Hr & Hx & Hm); [left; by rewrite lookup_fmap, Hd|].
    exists (locked_package S x), req. split_and!; [|eapply Hindex, sol_known; done|done|done].
    apply Hin. exists name, x. split_and!; [done|done|]. eapply Hindex, sol_known; done.
  - intros p n v (m & x & Hx & -> & _)%Hin. rewrite (Hdeps m) by done. destruct (pr_dependencies x !! n) as [text|] eqn:Et; [|done].
    intros (y & Hy & ->)%fmap_Some. exists (locked_package S y). split_and!; [|eapply Hindex, sol_known; done|done].
    apply Hin. exists n, y. split_and!; [done|done|]. eapply Hindex, sol_known; done.
  - intros p (n & x & Hx & _ & ->)%Hin. pose proof (sol_required _ _ _ _ HS n x Hx) as Hreq. clear p x Hx.
    induction Hreq as [name text Hroot|m x name text _ (s & Hs & Hr) Hx Hd].
    + exists name. rewrite lookup_fmap, fmap_Some in Hroot. destruct Hroot as (d & Hd & _). split; [by eexists|done].
    + exists s. split; [done|]. eapply rtc_r; [exact Hr|]. exists (locked_package S x). split_and!.
      * apply Hin. exists m, x. split_and!; [done|done|]. eapply Hindex, sol_known; done.
      * eapply Hindex, sol_known; done.
      * rewrite (Hdeps m) by done. rewrite Hd. destruct (sol_meets _ _ _ _ HS name text) as (req & y & _ & Hy & _); [right; by eauto|].
        rewrite Hy. by eexists.
Qed.

(** What is resolved passes the lockfile check: the lockfile of every successful
    resolution of a manifest's dependencies agrees with that manifest. *)
Theorem resolved_lock_validates `{SV : SemVer} {SL : SemVerLaws} index offline fuel manifest r :
  (∀ name x, x ∈ index name → pr_name x = name) →
  resolve index offline fuel (dp_requirement <$> mf_dependencies manifest) = Some (Ok r) →
  validate_lock_graph manifest r = Some (Ok tt).
Proof.
  intros Hindex (S & HS & Hp)%resolve_solution. destruct (validate_lock_graph_exact manifest r) as (answer & -> & Hanswer).
  rewrite (proj2 Hanswer); [done|]. by eapply solution_lock_valid.
Qed.

Definition sample_manifest_of (deps : gmap string string) : Manifest := {|
  mf_package := {| mp_name := "app"; mp_version := "1.0.0"; mp_edition := "2024" |}; mf_targets := [];
  mf_dependencies := (λ text, {| dp_requirement := text |}) <$> deps;
  mf_capabilities := {| cp_profile := "none"; cp_network := []; cp_environment := []; cp_max_memory_bytes := 65536 |}
|}.

Lemma resolved_lock_validates_witness :
  ∃ r, resolve backtracking true 5 {["a" := "*"]} = Some (Ok r) ∧ validate_lock_graph (sample_manifest_of {["a" := "*"]}) r = Some (Ok tt).
Proof.
  assert (locked_versions (resolve backtracking true 5 {["a" := "*"]}) = [("a", 1%N); ("b", 1%N)]) as Hv by (vm_compute; reflexivity).
  destruct (resolve backtracking true 5 {["a" := "*"]}) as [[r|e]|] eqn:E; [|discriminate Hv..].
  exists r. split; [done|]. apply (resolved_lock_validates (SL := Numbers.numbers_laws) backtracking true 5 (sample_manifest_of {["a" := "*"]}) r).
  - intros name x. unfold backtracking. rewrite in_memory_index_releases. by intros [_ ?%bool_decide_eq_true]%list_elem_of_In%filter_In.
  - cbn [sample_manifest_of mf_dependencies]. rewrite <-map_fmap_compose. exact E.
Defined.

(** ** Locked archives *)

(** [Path::extension] *)
Definition extension (path : string) : option string :=
  match last (components path) with
  | Some (Normal name) =>
      let parts := split_on "."%char name in
      if bool_decide (join "." (removelast parts) = "") then None else last parts
  | _ => None
  end.

Example extensions : map extension ["src/main.syl"; ".syl"; "a/.b.syl"; "syl"; "a.syl/b"] = [Some "syl"; None; Some "syl"; None; None].
Proof. vm_compute. done. Qed.

Section packages.
Context `{RegistryCodec, !Countable Version} {LC : LockfileCodec}.

Inductive PackageError :=
| LockfileUnreadable (e : LockfileError)
| LockFormat (format : N)
| LockRejected (e : LockError)
| ArchiveIdentity (found : string * Version) (expected : string * Version)
| ArchiveFailed (e : RegistryError)
| ArchiveChecksum (name : string) (version : Version) (expected actual : string)
| ArchiveMetadata (name : string) (version : Version)
| ArchiveRequirement (name : string) (version : Version) (dependency reason : string)
| ArchiveUnsatisfied (dependency : string) (version : Version) (requirement : string)
| VendorIncomplete (name : string) (version : Version) (path : string) (source : IoFailure)
| CacheUnavailable (name : string) (version : Version) (e : CacheError)
| SourceNotUtf8 (name path : string)
| ClientFailed (e : TransportError)
| DownloadFailed (e : TransportError).

(** The loop over an archive's requirements; the versions locked have the same keys. *)
Fixpoint check_requirements (p : LockedPackage) (deps : list (string * string)) : result unit PackageError :=
  match deps with
  | [] => Ok tt
  | (name, text) :: deps =>
      match parse_requirement text with
      | Err reason => Err (ArchiveRequirement (lp_name p) (lp_version p) name reason)
      | Ok req =>
          match lp_dependencies p !! name with
          | None => Err (ArchiveMetadata (lp_name p) (lp_version p))
          | Some v => if requirement_matches req v then check_requirements p deps else Err (ArchiveUnsatisfied name v text)
          end
      end
  end.

Definition verify_locked_archive (p : LockedPackage) (a : PackageArchive) : result unit PackageError :=
  if negb (bool_decide (pa_name a = lp_name p)) || negb (bool_decide (pa_version a = lp_version p))
  then Err (ArchiveIdentity (pa_name a, pa_version a) (lp_name p, lp_version p))
  else match archive_checksum a with
  | Err e => Err (ArchiveFailed e)
  | Ok actual =>
      if bool_decide (actual ≠ lp_checksum p) then Err (ArchiveChecksum (lp_name p) (lp_version p) (lp_checksum p) actual)
      else if bool_decide (map fst (entries (pa_dependencies a)) ≠ map fst (entries (lp_dependencies p)))
      then Err (ArchiveMetadata (lp_name p) (lp_version p))
      else check_requirements p (entries (pa_dependencies a))
  end.

Definition vendor_package_root (vendor : string) (p : LockedPackage) : string :=
  join_path vendor (lp_name p +:+ "-" +:+ version_display (lp_version p)).

(** A directory is where some entry is below; an empty one has the entry of its path
    and a slash. *)
Definition is_dir (d : disk) (path : string) : bool :=
  existsb (λ '(k, _), starts_with (path +:+ "/") k) (map_to_list d).

Example directories : map (is_dir {["/p/vendor/" := []; "/p/src/main.syl" := []]}) ["/p/vendor"; "/p/src"; "/p/src/main.syl"; "/p/ven"] = [true; true; false; false].
Proof. vm_compute. done. Qed.

Definition project_cache (root : string) : ContentAddressedCache := {| cache_root := join_path root ".syllog/cache" |}.

(** The archive of a package, vendored or cached. *)
Definition package_bytes (io : faults) (d : disk) (root : string) (p : LockedPackage) : result bytes PackageError :=
  let vendor := join_path root "vendor" in
  if is_dir d vendor then
    let path := join_path (vendor_package_root vendor p) ".syllog-package" in
    match read_file io d path with Ok content => Ok content | Err e => Err (VendorIncomplete (lp_name p) (lp_version p) path e) end
  else match cache_load io (project_cache root) (lp_checksum p) d with
       | Ok content => Ok content
       | Err e => Err (CacheUnavailable (lp_name p) (lp_version p) e)
       end.

(** The loop over the files of an archive. *)
Fixpoint archive_sources (p : LockedPackage) (files : list ArchiveFile) : result (list PackageSource) PackageError :=
  match files with
  | [] => Ok []
  | file :: files =>
      if bool_decide (extension (af_path file) = Some "syl") then
        match from_utf8 (af_content file) with
        | None => Err (SourceNotUtf8 (lp_name p) (af_path file))
        | Some source =>
            match archive_sources p files with
            | Err e => Err e
            | Ok sources =>
                Ok ({| ps_file := "dependencies/" +:+ lp_name p +:+ "-" +:+ version_display (lp_version p) +:+ "/" +:+ af_path file;
                       ps_source := source |} :: sources)
            end
        end
      else archive_sources p files
  end.

Fixpoint package_sources (io : faults) (d : disk) (root : string) (ps : list LockedPackage) : result (list PackageSource) PackageError :=
  match ps with
  | [] => Ok []
  | p :: ps =>
      match package_bytes io d root p with
      | Err e => Err e
      | Ok content =>
          match from_bytes content with
          | Err e => Err (ArchiveFailed e)
          | Ok archive =>
              match verify_locked_archive p archive with
              | Err e => Err e
              | Ok _ =>
                  match archive_sources p (pa_files archive) with
                  | Err e => Err e
                  | Ok sources => match package_sources io d root ps with Err e => Err e | Ok more => Ok (sources ++ more) end
                  end
              end
          end
      end
  end.

(** The lockfile of a project, read and checked. *)
Definition locked_resolution (io : faults) (d : disk) (project : Project) : option (result Resolution PackageError) :=
  match read_lockfile io (join_path (pj_root project) "Syllog.lock") d with
  | Err e => Some (Err (LockfileUnreadable e))
  | Ok resolution =>
      if bool_decide (format resolution ≠ 1) then Some (Err (LockFormat (format resolution)))
      else answer ← validate_lock_graph (pj_manifest project) resolution;
           Some match answer with Err e => Err (LockRejected e) | Ok _ => Ok resolution end
  end.

Definition load_locked_dependency_sources (io : faults) (d : disk) (project : Project) : option (result (list PackageSource) PackageError) :=
  if bool_decide (mf_dependencies (pj_manifest project) = ∅) then Some (Ok [])
  else r ← locked_resolution io d project;
       Some match r with Err e => Err e | Ok resolution => package_sources io d (pj_root project) (packages resolution) end.

(** ** [syllog fetch] *)

(** The loop over the locked packages; the disk's and the network's behaviour may
    differ from one to the next. *)
Fixpoint fetch_packages (io : nat → faults) (torn : nat → nat) (send : nat → HttpRequest → result HttpResponse string) (client : HttpRegistryClient)
    (cache : ContentAddressedCache) (k : nat) (ps : list LockedPackage) (d : disk) : disk * result nat PackageError :=
  match ps with
  | [] => (d, Ok 0%nat)
  | p :: ps =>
      let failed e := CacheUnavailable (lp_name p) (lp_version p) e in
      match path_for cache (lp_checksum p) with
      | Err e => (d, Err (failed e))
      | Ok destination =>
          if bool_decide (is_Some (d !! destination)) then
            match cache_load (io k) cache (lp_checksum p) d with
            | Err e => (d, Err (failed e))
            | Ok _ => fetch_packages io torn send client cache (S k) ps d
            end
          else match download_resumable (io k) torn (send k) client (lp_name p) (lp_version p) (lp_checksum p) destination d with
          | (d, Err e) => (d, Err (DownloadFailed e))
          | (d, Ok _) =>
              match cache_load (io k) cache (lp_checksum p) d with
              | Err e => (d, Err (failed e))
              | Ok _ =>
                  match fetch_packages io torn send client cache (S k) ps d with
                  | (d, Ok n) => (d, Ok (S n))
                  | (d, Err e) => (d, Err e)
                  end
              end
          end
      end
  end.

(** [fetch::execute], with the number of downloads it reports. *)
Definition fetch (io : nat → faults) (torn : nat → nat) (send : nat → HttpRequest → result HttpResponse string)
    (client : result HttpRegistryClient TransportError) (project : Project) (d : disk) : option (disk * result nat PackageError) :=
  r ← locked_resolution (io 0%nat) d project;
  Some match r with
       | Err e => (d, Err e)
       | Ok resolution =>
           match client with
           | Err e => (d, Err (ClientFailed e))
           | Ok client => fetch_packages io torn send client (project_cache (pj_root project)) 1 (packages resolution) d
           end
       end.
End packages.

(** ** The publisher's seed (main.rs) *)

(** [u8::from_str_radix(s, 16)] on two characters: a sign is allowed. *)
Definition hex_value (c : ascii) : option N :=
  let n := N_of_ascii c in
  if bool_decide (48 ≤ n) && bool_decide (n ≤ 57) then Some (n - 48)
  else if bool_decide (97 ≤ n) && bool_decide (n ≤ 102) then Some (n - 87)
  else if bool_decide (65 ≤ n) && bool_decide (n ≤ 70) then Some (n - 55)
  else None.

Definition parse_hex_pair (a b : ascii) : option N :=
  if bool_decide (a = "+"%char) then hex_value b
  else high ← hex_value a; low ← hex_value b; Some (16 * high + low).

Fixpoint parse_pairs (s : string) : option (list N) :=
  match s with
  | String a (String b s) => byte ← parse_hex_pair a b; rest ← parse_pairs s; Some (byte :: rest)
  | _ => Some []
  end.

Inductive SeedError := SeedLength | SeedDigits.

Definition parse_seed (encoded : string) : result (list N) SeedError :=
  if negb (bool_decide (String.length encoded = 64%nat)) || negb (all_characters (λ c, bool_decide (N_of_ascii c < 128)) encoded)
  then Err SeedLength
  else match parse_pairs encoded with Some seed => Ok seed | None => Err SeedDigits end.

(** A seed of signs is read although no pair of it is hexadecimal. *)
Theorem seed_of_signs_accepted :
  let signs := join "" (repeat "+1" 32) in
  all_characters hexadecimal signs = false ∧ parse_seed signs = Ok (repeat 1 32).
Proof. vm_compute. done. Qed.

(** ** What is loaded and fetched *)

Section authentic.
Context `{RegistryCodec, !Countable Version} {LC : LockfileCodec}.

(** An archive that is the one a lockfile names. *)
Record authentic (p : LockedPackage) (a : PackageArchive) : Prop := {
  at_name : pa_name a = lp_name p;
  at_version : pa_version a = lp_version p;
  at_checksum : archive_checksum a = Ok (lp_checksum p);
  at_keys : dom (pa_dependencies a) = dom (lp_dependencies p);
  at_dependencies n text : pa_dependencies a !! n = Some text →
    ∃ req v, parse_requirement text = Ok req ∧ lp_dependencies p !! n = Some v ∧ requirement_matches req v = true
}.

Lemma entries_same_keys {A B} (m : gmap string A) (m' : gmap string B) : map fst (entries m) = map fst (entries m') → dom m = dom m'.
Proof.
  assert (∀ C (k : gmap string C) n, n ∈ dom k ↔ n ∈ map fst (entries k)) as Hdom.
  { intros C k n. rewrite elem_of_dom, list_elem_of_fmap. split.
    - intros [x Hx]. exists (n, x). split; [done|]. by apply elem_of_entries.
    - intros ([n' x] & -> & Hx%elem_of_entries). by exists x. }
  intros E. apply set_eq. intros n. by rewrite !Hdom, E.
Qed.

Lemma check_requirements_ok p deps : check_requirements p deps = Ok tt → ∀ n text, (n, text) ∈ deps →
  ∃ req v, parse_requirement text = Ok req ∧ lp_dependencies p !! n = Some v ∧ requirement_matches req v = true.
Proof.
  induction deps as [|[name text] deps IH]; cbn; [set_solver|]. destruct (parse_requirement text) as [req|] eqn:Er; [|done].
  destruct (lp_dependencies p !! name) as [v|] eqn:Ev; [|done]. destruct (requirement_matches req v) eqn:Em; [|done].
  intros Hrest n t [[= -> ->]|Hin]%elem_of_cons; [by exists req, v|by apply IH].
Qed.

Lemma verify_locked_archive_ok p a : verify_locked_archive p a = Ok tt → authentic p a.
Proof.
  unfold verify_locked_archive. destruct (_ || _) eqn:E; [done|]. apply orb_false_iff in E as [E1 E2].
  apply negb_false_iff, bool_decide_eq_true in E1, E2. destruct (archive_checksum a) as [actual|] eqn:Ec; [|done].
  destruct (decide (actual = lp_checksum p)) as [->|Hne]; [|by rewrite bool_decide_eq_true_2].
  rewrite bool_decide_eq_false_2 by auto. case_bool_decide as Hkeys; [done|]. intros Hr. split; try done; [by apply entries_same_keys|]. intros n text Hn.
  eapply check_requirements_ok; [exact Hr|]. by apply elem_of_entries.
Qed.

(** A source that is a file of the archive a lockfile names. *)
Definition locked_source (ps : list LockedPackage) (s : PackageSource) : Prop :=
  ∃ p a file, p ∈ ps ∧ authentic p a ∧ file ∈ pa_files a ∧ extension (af_path file) = Some "syl" ∧
    from_utf8 (af_content file) = Some (ps_source s) ∧
    ps_file s = "dependencies/" +:+ lp_name p +:+ "-" +:+ version_display (lp_version p) +:+ "/" +:+ af_path file.

Lemma archive_sources_ok p files : ∀ sources, archive_sources p files = Ok sources → ∀ s, s ∈ sources →
  ∃ file, file ∈ files ∧ extension (af_path file) = Some "syl" ∧ from_utf8 (af_content file) = Some (ps_source s) ∧
    ps_file s = "dependencies/" +:+ lp_name p +:+ "-" +:+ version_display (lp_version p) +:+ "/" +:+ af_path file.
Proof.
  induction files as [|file files IH]; intros sources; cbn [archive_sources]; [intros [= <-]; set_solver|]. case_bool_decide as Hext.
  - destruct (from_utf8 _) as [source|] eqn:Eu; [|done]. destruct (archive_sources p files) as [rest|] eqn:Er; [|done].
    intros [= <-] s [->|Hs]%elem_of_cons; [exists file; split; [set_solver|done]|].
    destruct (IH rest eq_refl s Hs) as (f & ? & ?). exists f. split; [set_solver|done].
  - intros Hs s Hin. destruct (IH sources Hs s Hin) as (f & ? & ?). exists f. split; [set_solver|done].
Qed.

Lemma package_sources_ok io d root ps : ∀ sources, package_sources io d root ps = Ok sources → Forall (locked_source ps) sources.
Proof.
  induction ps as [|p ps IH]; intros sources; cbn [package_sources]; [intros [= <-]; constructor|].
  destruct (package_bytes io d root p) as [content|]; [|done]. destruct (from_bytes content) as [a|]; [|done].
  destruct (verify_locked_archive p a) as [[]|] eqn:Ev; [|done]. destruct (archive_sources p (pa_files a)) as [here|] eqn:Es; [|done].
  destruct (package_sources io d root ps) as [more|]; [|done]. intros [= <-]. apply Forall_app. split.
  - apply Forall_forall. intros s Hs. destruct (archive_sources_ok _ _ _ Es s Hs) as (file & ? & ? & ? & ?).
    exists p, a, file. split_and!; [set_solver|by apply verify_locked_archive_ok|done..].
  - eapply Forall_impl; [by apply IH|]. intros s (q & b & file & ? & ?). exists q, b, file. split; [set_solver|done].
Qed.

Lemma locked_resolution_ok io d project r : locked_resolution io d project = Some (Ok r) → format r = 1 ∧ lock_valid (pj_manifest project) r.
Proof.
  unfold locked_resolution. destruct (read_lockfile _ _ _) as [resolution|]; [|done].
  destruct (decide (format resolution = 1)) as [Hf|]; [|by rewrite bool_decide_eq_true_2]. rewrite bool_decide_eq_false_2 by auto.
  destruct (validate_lock_graph_exact (pj_manifest project) resolution) as (answer & -> & Hanswer). cbn. destruct answer as [[]|]; [|done].
  intros [= <-]. split; [done|]. by apply Hanswer.
Qed.

(** The path of an entry is its digest below the directory of the cache. *)
Lemma path_for_form c : ∃ base, ∀ x path, path_for c x = Ok path → path = base +:+ x ∧ String.length x = 64%nat.
Proof.
  set (directory := join_path (cache_root c) "sha256").
  exists (if bool_decide (directory = "") || ends_with "/"%char directory then directory else directory +:+ "/").
  intros x path. unfold path_for, validate_key, is_digest. fold directory. destruct (_ && _) eqn:E; [|done]. intros [= <-].
  apply andb_true_iff in E as [Hl%bool_decide_eq_true Hx]. split; [|done]. unfold join_path.
  destruct x as [|ch x]; [done|]. cbn in Hx. apply andb_true_iff in Hx as [Hch _].
  assert (starts_with "/" (String ch x) = false) as ->.
  { cbn. destruct (decide (ch = "/"%char)) as [->|Hne]; [done|]. by rewrite bool_decide_eq_false_2 by congruence. }
  destruct (_ || _); [done|]. clear. induction directory as [|y base IH]; [done|]. exact (f_equal (String y) IH).
Qed.

(** Entries of different digests, and unfinished downloads, are different files. *)
Lemma path_for_inj c a b path : path_for c a = Ok path → path_for c b = Ok path → a = b.
Proof. destruct (path_for_form c) as [base Hb]. intros [Ha _]%Hb [Hb' _]%Hb. eapply app_string_inj_l. by rewrite <-Ha. Qed.

Lemma path_for_not_partial c a b path path' : path_for c a = Ok path → path_for c b = Ok path' → path ≠ partial_path path'.
Proof.
  destruct (path_for_form c) as [base Hb]. intros [-> Ha]%Hb [-> Hl]%Hb Heq%(f_equal String.length). unfold partial_path in Heq.
  rewrite !string_length_app, Ha, Hl in Heq. cbn in Heq. lia.
Qed.

(** The entry of a digest is there and can be loaded. *)
Definition cached (c : ContentAddressedCache) (checksum : string) (d : disk) : Prop := ∃ path, stored_ok c checksum path d.

Lemma cached_stays c checksum d d' dest x : cached c checksum d → path_for c x = Ok dest → d !! dest = None →
  (∀ p, p ≠ dest → p ≠ partial_path dest → d' !! p = d !! p) → cached c checksum d'.
Proof.
  intros (path & [Hp (kept & Hk & Hs & _)]) Hx Hnone Hsame. exists path. eapply stored_ok_intro; [done| |exact Hs]. rewrite Hsame; [done| |].
  - intros ->. congruence.
  - by eapply path_for_not_partial.
Qed.

Lemma cache_load_cached io c checksum d content : cache_load io c checksum d = Ok content → cached c checksum d.
Proof.
  unfold cache_load. destruct (path_for c checksum) as [path|] eqn:Ep; [|done]. unfold read_file. destruct (io (IoRead path)); [done|].
  destruct (d !! path) as [x|] eqn:Ed; [|done]. destruct (verify_content checksum x) as [[]|] eqn:Ev; [|done]. intros _.
  apply verify_content_ok in Ev as [_ ?]. exists path. by eapply stored_ok_intro.
Qed.

Lemma fetch_packages_ok io torn send client c ps : ∀ k d d' n, fetch_packages io torn send client c k ps d = (d', Ok n) →
  (∀ checksum, cached c checksum d → cached c checksum d') ∧ Forall (λ p, cached c (lp_checksum p) d') ps.
Proof.
  induction ps as [|p ps IH]; intros k d d' n; cbn [fetch_packages]; [by intros [= <- <-]; split; [|constructor]|].
  destruct (path_for c (lp_checksum p)) as [dest|] eqn:Ep; [|done]. case_bool_decide as Hex.
  - destruct (cache_load _ _ _ d) as [content|] eqn:El; [|done]. intros [H1 H2]%IH. split; [done|]. constructor; [|done].
    by eapply H1, cache_load_cached.
  - pose proof (download_resumable_outcome (io k) torn (send k) client (lp_name p) (lp_version p) (lp_checksum p) dest d) as [_ Hframe].
    destruct (download_resumable _ _ _ _ _ _ _ _ d) as [d1 [a|e]]; [|done]. cbn in Hframe.
    destruct (cache_load _ _ _ d1) as [content|] eqn:El; [|done]. destruct (fetch_packages _ _ _ _ _ _ _ d1) as [d2 [m|e]] eqn:Ef; [|done].
    intros [= <- <-]. apply IH in Ef as [H1 H2]. apply eq_None_not_Some in Hex. split.
    + intros checksum Hc. apply H1. by eapply cached_stays.
    + constructor; [|done]. by eapply H1, cache_load_cached.
Qed.
End authentic.

(** *** An instance: one locked package, in the cache *)

Definition sample_lock : @Resolution numbered :=
  {| format := 1; packages := [{| lp_name := "tools-text"; lp_version := (1%N : @Version numbered); lp_checksum := @sha256_hex numbered wanted; lp_dependencies := ∅ |}] |}.

#[export] Instance sample_lock_codec : @LockfileCodec numbered := {| encode_resolution _ := Ok []; decode_resolution _ := Ok sample_lock |}.

Definition sample_project : Project :=
  {| pj_root := "/p"; pj_manifest_path := "/p/Syllog.toml"; pj_manifest := sample_manifest_of {["tools-text" := "*"]} |}.

Definition sample_disk : disk :=
  {["/p/Syllog.lock" := []; "/p/.syllog/cache/sha256/" +:+ @sha256_hex numbered wanted := wanted]}.

(** C26: only locked code is compiled: every dependency source that is loaded, vendored or
    cached, is a source file of an archive with the name, version and digest the
    lockfile records, that depends on exactly the names the lockfile records for it,
    each locked at a version its requirement admits; and the lockfile agrees with the
    manifest. *)
Theorem loaded_sources_are_locked `{RegistryCodec, !Countable Version} {LC : LockfileCodec} io d project sources :
  load_locked_dependency_sources io d project = Some (Ok sources) → sources ≠ [] →
  ∃ r, lock_valid (pj_manifest project) r ∧ read_lockfile io (join_path (pj_root project) "Syllog.lock") d = Ok r ∧
    Forall (locked_source (packages r)) sources.
Proof.
  unfold load_locked_dependency_sources. case_bool_decide; [by intros [= <-]|]. destruct (locked_resolution io d project) as [[r|e]|] eqn:Er; [|done..].
  cbn. intros [= Hs] _. exists r. pose proof (locked_resolution_ok _ _ _ _ Er) as [_ Hv]. split_and!; [done| |by eapply package_sources_ok].
  unfold locked_resolution in Er. destruct (read_lockfile _ _ _) as [r'|]; [|done]. case_bool_decide; [done|].
  destruct (validate_lock_graph _ _) as [[[]|]|]; cbn in Er; [|done..]. by injection Er as ->.
Qed.

Lemma loaded_sources_are_locked_witness :
  ∃ source r, load_locked_dependency_sources no_faults sample_disk sample_project = Some (Ok [source]) ∧
    ps_file source = "dependencies/tools-text-1/src/lib.syl" ∧ Forall (locked_source (packages r)) [source].
Proof.
  assert (match load_locked_dependency_sources no_faults sample_disk sample_project with
          | Some (Ok [source]) => bool_decide (ps_file source = "dependencies/tools-text-1/src/lib.syl")
          | _ => false
          end = true) as Hload by (vm_compute; reflexivity).
  destruct (load_locked_dependency_sources no_faults sample_disk sample_project) as [[[|source []]|]|] eqn:E; try discriminate Hload.
  apply bool_decide_eq_true in Hload.
  destruct (loaded_sources_are_locked no_faults sample_disk sample_project [source] E) as (r & _ & _ & Hs); [discriminate|].
  exists source, r. exact (conj eq_refl (conj Hload Hs)).
Defined.

(** After a successful fetch every locked package can be loaded from the cache,
    whatever failed on the way and whatever the server sent. *)
Theorem fetch_fills_cache `{RegistryCodec, !Countable Version} {LC : LockfileCodec} io torn send client project d d' n :
  fetch io torn send client project d = Some (d', Ok n) →
  ∃ r, lock_valid (pj_manifest project) r ∧
    ∀ p, p ∈ packages r → ∃ content, sha256_hex content = lp_checksum p ∧ cache_load no_faults (project_cache (pj_root project)) (lp_checksum p) d' = Ok content.
Proof.
  unfold fetch. destruct (locked_resolution _ d project) as [[r|e]|] eqn:Er; [|done..]. cbn. destruct client as [client|e]; [|done].
  intros [= Hf]. apply fetch_packages_ok in Hf as [_ Hall]. exists r. split; [by apply locked_resolution_ok in Er as [_ ?]|].
  intros p Hp. rewrite Forall_forall in Hall. destruct (Hall p Hp) as (path & [_ (kept & _ & Hs & Hload)]). exists kept. split; [done|]. by apply Hload.
Qed.

Lemma fetch_fills_cache_witness :
  let client := Ok {| base_url := "https://registry"; credential := "key" |} in
  let begun := {["/p/Syllog.lock" := []]} in
  ∃ d', fetch (λ _, no_faults) (λ _, 0%nat) (λ _, sample_send) client sample_project begun = Some (d', Ok 1%nat) ∧
    ∃ r, lock_valid (pj_manifest sample_project) r ∧
      ∀ p, p ∈ packages r → ∃ content, sha256_hex content = lp_checksum p ∧ cache_load no_faults (project_cache "/p") (lp_checksum p) d' = Ok content.
Proof.
  cbn zeta.
  assert (match fetch (λ _, no_faults) (λ _, 0%nat) (λ _, sample_send) (Ok {| base_url := "https://registry"; credential := "key" |}) sample_project
                  {["/p/Syllog.lock" := []]} with
          | Some (_, Ok 1%nat) => true
          | _ => false
          end = true) as Hfetch by (vm_compute; reflexivity).
  destruct (fetch _ _ _ _ _ _) as [[d' [[|[|n]]|]]|] eqn:E; try discriminate Hfetch.
  exists d'. split; [exact eq_refl|]. exact (fetch_fills_cache _ _ _ _ _ _ _ _ E).
Defined.
