(* ===== verification/Build.v ===== *)
(** * Building and running programs (crates/syllog-cli/src/commands)

    The end of [emit_with_capabilities] (crates/syllog-codegen-wasm/src/lib.rs): sections,
    metadata and bytes.  From commands/mod.rs the sources of a target and
    [compile_program]; build.rs, run.rs and test.rs.  The encoder of modules and
    [serde_json] are the class [ArtifactCodec], the engine is [Wasmtime] of Sandbox, and
    [EngineLaws] says what is relied on of them. *)

From Stdlib Require Import Ascii.
From stdpp Require Import base gmap strings numbers pretty relations sorting list.
From S2P Require Import Prelude Text Ir Cfg Verify Interp InterpSafety Hir Diagnostics.
From S2P Require Import Ast Async MirLower MirDrops Effects EffectsTheorems Wasm Codegen CodegenTheorems.
From S2P Require Import CodegenValid CodegenSim Resolver ResolverTheorems Pest Parser Validate Semantic SemanticBodies.
From S2P Require Import Lower ParserPratt Unparse ParserRoundTrip Compile Package Registry Storage Transport.
From S2P Require Import PackageLink PackageClaims Sandbox Project Commands.
Open Scope string_scope.
Open Scope list_scope.
Open Scope N_scope.

(** ** Artifacts *)

Record ArtifactMetadata := {
  ar_format_version : N; ar_entry : DefId; ar_source_hash : bytes; ar_async_frame_count : N; ar_capabilities : CapabilityManifest
}.

Record WasmOptions := { debug_info : bool; canonicalize_nan : bool }.

Definition default_options : WasmOptions := {| debug_info := true; canonicalize_nan := true |}.

Record WasmArtifact := { ar_bytes : bytes; ar_metadata : ArtifactMetadata }.

(** The sections given to the encoder. *)
Inductive ModuleSection :=
| TypeSection (types : list (list ValType * ValType))
| FunctionSection (types : list N)
| ExportSection (exports : list (string * N))
| CodeSection (bodies : list (list ValType * list Instruction))
| NamedSection (name : string) (data : bytes).

Class ArtifactCodec := {
  (** [Module::finish] *)
  encode_module : list ModuleSection → bytes;
  (** [serde_json::to_vec] of the inputs, the frames and the manifest *)
  encode_inputs : MirProgram → list AsyncStateMachine → CapabilityManifest → result bytes string;
  encode_frame_table : list AsyncStateMachine → result bytes string;
  encode_manifest : CapabilityManifest → result bytes string;
  (** [Sha256::digest] *)
  source_digest : bytes → bytes
}.

Definition bool_text (b : bool) : string := if b then "true" else "false".

Definition source_map_entry (f : MirFunction) : string :=
  pretty (Ir.module (fn_id f)) +:+ ":" +:+ pretty (index (fn_id f)) +:+ ":" +:+ pretty (length (fn_blocks f)) +:+ ";".

Definition encode_source_map (program : MirProgram) (options : WasmOptions) : bytes :=
  String.list_byte_of_string
    ("version=1;debug=" +:+ bool_text (debug_info options) +:+ ";nan=" +:+ bool_text (canonicalize_nan options) +:+ ";" +:+
     join "" (map source_map_entry (functions program))).

(** The type and function sections: a type per function, and one for all frames. *)
Definition function_types (program : MirProgram) (frames : list AsyncStateMachine) : list (list ValType * ValType) :=
  map (λ f, (replicate (N.to_nat (parameter_count f)) TI64, TI64)) (functions program) ++
  (if bool_decide (frames = []) then [] else [([TI32; TI32], TI32)]).

Definition type_indices (program : MirProgram) (frames : list AsyncStateMachine) : list N :=
  imap (λ i _, N.of_nat i) (functions program) ++ map (λ _, N.of_nat (length (functions program))) frames.

Definition module_sections (program : MirProgram) (frames : list AsyncStateMachine) (m : Codegen.WasmModule) : list ModuleSection :=
  [TypeSection (function_types program frames); FunctionSection (type_indices program frames); ExportSection (wm_exports m);
   CodeSection (map (λ f, (wf_locals f, wf_body f)) (wm_functions m))].

Section artifact.
Context `{ArtifactCodec}.

Definition encoding {A} (r : result A string) : result A CodegenError := match r with Ok x => Ok x | Err reason => Err (CodegenEncoding reason) end.

(** The custom sections, in their order. *)
Definition custom_sections (program : MirProgram) (frames : list AsyncStateMachine) (capabilities : CapabilityManifest) (options : WasmOptions)
    : result (list ModuleSection) CodegenError :=
  match (if bool_decide (frames = []) then Ok []
         else match encoding (encode_frame_table frames) with Err e => Err e | Ok data => Ok [NamedSection "syllog.async_frames" data] end) with
  | Err e => Err e
  | Ok table =>
      match encoding (encode_manifest capabilities) with
      | Err e => Err e
      | Ok data =>
          Ok ([NamedSection "syllog.source_map" (encode_source_map program options)] ++ table ++ [NamedSection "syllog.capabilities" data])
      end
  end.

Definition emit_with_capabilities (program : MirProgram) (frames : list AsyncStateMachine) (capabilities : CapabilityManifest) (options : WasmOptions)
    : result WasmArtifact CodegenError :=
  match emit_functions program frames, entry program with
  | Err e, _ => Err e
  | Ok _, None => Err CodegenMissingEntry
  | Ok m, Some start =>
      match encoding (encode_inputs program frames capabilities) with
      | Err e => Err e
      | Ok canonical =>
          match custom_sections program frames capabilities options with
          | Err e => Err e
          | Ok custom =>
              Ok {| ar_bytes := encode_module (module_sections program frames m ++ custom);
                    ar_metadata := {| ar_format_version := 1; ar_entry := start; ar_source_hash := source_digest canonical;
                                      ar_async_frame_count := N.min (N.of_nat (length frames)) u32_max;
                                      ar_capabilities := capabilities |} |}
          end
      end
  end.

Definition emit_with_async_frames (program : MirProgram) (frames : list AsyncStateMachine) (options : WasmOptions) : result WasmArtifact CodegenError :=
  emit_with_capabilities program frames default_manifest options.

Definition emit (program : MirProgram) (options : WasmOptions) : result WasmArtifact CodegenError :=
  emit_with_async_frames program [] options.
End artifact.

(** ** Sources *)

Inductive FileType := RegularFile | Directory | SymbolicLink | OtherFile.

Record DirEntry := { de_name : string; de_type : result FileType IoFailure }.

#[export] Instance component_eq_dec : EqDecision Component.
Proof. solve_decision. Defined.

(** [Path] is ordered by its components: the root, dots and then names by bytes. *)
Definition component_key (c : Component) : string :=
  match c with
  | RootDir => String (ascii_of_nat 1) ""
  | CurDir => String (ascii_of_nat 2) ""
  | ParentDir => String (ascii_of_nat 3) ""
  | Normal name => String (ascii_of_nat 4) name
  end.

Fixpoint keys_le (a b : list string) : bool :=
  match a, b with
  | [], _ => true
  | _ :: _, [] => false
  | x :: a, y :: b => if bool_decide (x = y) then keys_le a b else bool_decide (string_le x y)
  end.

Definition path_le (a b : string) : bool := keys_le (map component_key (components a)) (map component_key (components b)).

Example path_order : path_le "src/a/z.syl" "src/a-b.syl" = true ∧ path_le "src/a-b.syl" "src/a/z.syl" = false.
Proof. vm_compute. done. Qed.

Definition is_syl (path : string) : bool := bool_decide (extension path = Some "syl").

Inductive WalkError := DirectoryUnreadable (directory : string) (e : IoFailure) | EntryUnreadable (e : IoFailure).

Section sources.
(** [fs::read_dir], with the entries in the order the system gives them. *)
Context (read_dir : string → result (list (result DirEntry IoFailure)) IoFailure).

(** The loop over the entries of a directory. *)
Fixpoint scan_entries (directory : string) (entries : list (result DirEntry IoFailure)) (pending sources : list string)
    : result (list string * list string) WalkError :=
  match entries with
  | [] => Ok (pending, sources)
  | Err e :: _ => Err (EntryUnreadable e)
  | Ok entry :: entries =>
      let path := join_path directory (de_name entry) in
      match de_type entry with
      | Err e => Err (EntryUnreadable e)
      | Ok SymbolicLink | Ok OtherFile => scan_entries directory entries pending sources
      | Ok Directory => scan_entries directory entries (path :: pending) sources
      | Ok RegularFile => scan_entries directory entries pending (if is_syl path then sources ++ [path] else sources)
      end
  end.

(** The loop over the directories; the last one pushed comes first. *)
Fixpoint walk (fuel : nat) (pending sources : list string) : option (result (list string) WalkError) :=
  match pending, fuel with
  | [], _ => Some (Ok sources)
  | _, O => None
  | directory :: pending, S fuel =>
      match read_dir directory with
      | Err e => Some (Err (DirectoryUnreadable directory e))
      | Ok entries =>
          match scan_entries directory entries pending sources with
          | Err e => Some (Err e)
          | Ok (pending, sources) => walk fuel pending sources
          end
      end
  end.

(** [source_files] of commands/publish.rs *)
Definition source_files (fuel : nat) (root : string) : option (result (list string) WalkError) :=
  r ← walk fuel [root] []; Some match r with Ok files => Ok (stable_sort path_le files) | Err e => Err e end.
End sources.

(** ** [compile_program] *)

Record CompiledProgram := { cp_mir : MirProgram; cp_async_frames : list AsyncStateMachine; cp_capabilities : CapabilityManifest }.

(** A program that does not compile is printed as its diagnostics. *)
Inductive CompileAnswer := Accepted (p : CompiledProgram) | Rejected (printed : list string).

Section compile_program.
Context `{Syntax} `{RegistryCodec, !Countable Version} {LC : LockfileCodec}.
Context (parse_toml : string → result RawManifest (string * option (nat * nat))) (failure_text : IoFailure → string)
  (canonicalize : string → result string IoFailure) (message_text : DiagnosticMessage → string) (sha256 : string → string).
Context (read_dir : string → result (list (result DirEntry IoFailure)) IoFailure) (fuel : nat) (io : faults) (d : disk).

Inductive BuildError :=
| SourceUnreadable (path : string) (e : IoFailure)
| SourceUnresolved (path : string) (e : IoFailure)
| ProjectUndiscovered (e : ProjectError)
| NoBuildTargets
| SourcesUnreadable (e : WalkError)
| NoSources (root : string)
| DependenciesFailed (e : PackageError)
| HirFailed (diagnostics : list Diagnostic)
| EffectsFailed (errors : list EffectError)
| AsyncFailed (e : AsyncLowerError)
| MirFailed (diagnostics : list Diagnostic).

Abbreviation discover_project := (discover parse_toml failure_text canonicalize io d).

Definition collect_syl_sources (root : string) : option (result (list string) BuildError) :=
  r ← source_files read_dir fuel root;
  Some match r with
       | Err e => Err (SourcesUnreadable e)
       | Ok [] => Err (NoSources root)
       | Ok sources => Ok sources
       end.

Definition target_root (project : Project) (t : Target) : string := default (pj_root project) (parent_path (tg_path t)).

Definition same_path (a b : string) : bool := bool_decide (components a = components b).

(** The first executable, or the first target. *)
Definition build_target (targets : list Target) : option Target :=
  match List.find (λ t, bool_decide (tg_kind t = BinTarget)) targets with Some t => Some t | None => head targets end.

Definition project_source_paths (path : string) : option (result (list string) BuildError) :=
  if is_file d path then
    match canonicalize path with
    | Err e => Some (Err (SourceUnresolved path e))
    | Ok canonical =>
        match discover_project path with
        | Err _ => Some (Ok [canonical])
        | Ok project =>
            match List.find (λ t, same_path (tg_path t) canonical) (mf_targets (pj_manifest project)) with
            | Some t => collect_syl_sources (target_root project t)
            | None => Some (Ok [canonical])
            end
        end
    end
  else
    match discover_project path with
    | Err e => Some (Err (ProjectUndiscovered e))
    | Ok project =>
        match build_target (mf_targets (pj_manifest project)) with
        | None => Some (Err NoBuildTargets)
        | Some t => collect_syl_sources (target_root project t)
        end
    end.

(** From the HIR on. *)
Definition finish_program (hir : HirProgram) : option (result CompiledProgram BuildError) :=
  effects ← analyze_effects hir;
  match effects with
  | Err errors => Some (Err (EffectsFailed errors))
  | Ok analysis =>
      frames ← lower_async_state_machines hir;
      Some match frames with
           | Err e => Err (AsyncFailed e)
           | Ok frames =>
               match lower_to_mir hir with
               | Err diagnostics => Err (MirFailed diagnostics)
               | Ok mir => Ok {| cp_mir := mir; cp_async_frames := frames; cp_capabilities := manifest analysis |}
               end
           end
  end.

Definition accept (r : result CompiledProgram BuildError) : result CompileAnswer BuildError :=
  match r with Ok p => Ok (Accepted p) | Err e => Err e end.

(** [strip_prefix(root).unwrap_or(path)], with forward slashes. *)
Fixpoint strip_components (prefix cs : list Component) : option (list Component) :=
  match prefix, cs with
  | [], cs => Some cs
  | p :: prefix, c :: cs => if bool_decide (p = c) then strip_components prefix cs else None
  | _ :: _, [] => None
  end.

Fixpoint forward_slashes (s : string) : string :=
  match s with EmptyString => "" | String c s => String (if bool_decide (c = "\"%char) then "/"%char else c) (forward_slashes s) end.

Definition relative_name (root path : string) : string :=
  forward_slashes match strip_components (components root) (components path) with
                  | Some cs => render_components cs
                  | None => path
                  end.

(** The loop over the paths. *)
Fixpoint read_sources (root : string) (paths : list string) : result (list PackageSource) BuildError :=
  match paths with
  | [] => Ok []
  | path :: paths =>
      match read_text io d path with
      | Err e => Err (SourceUnreadable path e)
      | Ok source =>
          match read_sources root paths with
          | Err e => Err e
          | Ok sources => Ok ({| ps_file := relative_name root path; ps_source := source |} :: sources)
          end
      end
  end.

(** [source_text]: the last source of a name wins. *)
Definition source_texts (sources : list PackageSource) : gmap string string :=
  foldl (λ m s, <[ps_file s := ps_source s]> m) ∅ sources.

Definition render_package (sources : list PackageSource) (ds : list CompilerDiagnostic) : list string :=
  map (λ x, render_human message_text (default "" (source_texts sources !! Diagnostics.file (cd_diagnostic x))) [x]) ds.

Definition compile_package_program (requested : string) (paths : list string) : option (result CompileAnswer BuildError) :=
  match discover_project requested with
  | Err e => Some (Err (ProjectUndiscovered e))
  | Ok project =>
      match read_sources (pj_root project) paths with
      | Err e => Some (Err e)
      | Ok own =>
          dependencies ← load_locked_dependency_sources io d project;
          match dependencies with
          | Err e => Some (Err (DependenciesFailed e))
          | Ok dependencies =>
              compilation ← compile_package sha256 (own ++ dependencies);
              if package_success compilation then
                hir ← pk_hir compilation; r ← finish_program hir; Some (accept r)
              else Some (Ok (Rejected (render_package (own ++ dependencies) (pk_diagnostics compilation))))
          end
      end
  end.

(** One file. *)
Definition compile_file_program (path : string) : option (result CompileAnswer BuildError) :=
  match read_text io d path with
  | Err e => Some (Err (SourceUnreadable path e))
  | Ok source =>
      compilation ← compile path source;
      if success compilation then
        ast ← compiled_ast compilation; symbols ← compiled_symbols compilation;
        lowered ← lower_to_hir ast symbols;
        match lowered with
        | Err diagnostics => Some (Err (HirFailed diagnostics))
        | Ok hir => r ← finish_program hir; Some (accept r)
        end
      else Some (Ok (Rejected [render_human message_text source (compiled_diagnostics compilation)]))
  end.

Definition compile_program (path : string) : option (result CompileAnswer BuildError) :=
  found ← project_source_paths path;
  match found with
  | Err e => Some (Err e)
  | Ok paths =>
      let has_dependencies := match discover_project path with
                              | Ok project => negb (bool_decide (mf_dependencies (pj_manifest project) = ∅))
                              | Err _ => false
                              end in
      if (1 <? length paths)%nat || has_dependencies then compile_package_program path paths
      else compile_file_program (default path (head paths))
  end.

(** ** [syllog build], [syllog run] and [syllog test] *)

(** [Sandbox::new] *)
Context `{ArtifactCodec} `{Wasmtime} (sandbox_new : result unit string).

Inductive CommandError :=
| UnsupportedTarget (target : string)
| BuildFailed (e : BuildError)
| CodegenFailed (e : CodegenError)
| OutputFailed (path : string) (e : IoFailure)
| InvalidPolicy (e : PolicyError)
| SandboxUnavailable (text : string)
| ProgramFailed (e : SandboxError)
| NoProject (e : ProjectError)
| NoTarget
| TargetUnreadable (path : string) (e : IoFailure)
| TargetRejected (name printed : string)
| TargetHir (diagnostics : list Diagnostic)
| TestMir (diagnostics : list Diagnostic)
| TestParameters (name : string)
| TestResultType (name : string) (ty : ResolvedType)
| TestCodegen (name : string) (e : CodegenError)
| TestTrapped (name : string) (e : SandboxError).

(** What a command prints, and whether it exits with success. *)
Inductive CommandAnswer :=
| ExitRejected (printed : list string)
| ExitBuilt
| ExitValue (z : Z).

Definition emit_program (p : CompiledProgram) : result WasmArtifact CommandError :=
  match emit_with_capabilities (cp_mir p) (cp_async_frames p) (cp_capabilities p) default_options with
  | Ok artifact => Ok artifact
  | Err e => Err (CodegenFailed e)
  end.

(** [fs::write] of an artifact, after its directory; a failed write leaves [torn] bytes. *)
Definition write_output (torn : nat) (output : string) (content : bytes) : disk * result unit CommandError :=
  let parent := default "" (parent_path output) in
  match (if bool_decide (parent = "") then None else io (IoCreateDirectory parent)) with
  | Some e => (d, Err (OutputFailed parent e))
  | None =>
      match io (IoOpen output), io (IoWrite output 0) with
      | Some e, _ => (d, Err (OutputFailed output e))
      | None, Some e => (<[output := take torn content]> d, Err (OutputFailed output e))
      | None, None => (<[output := content]> d, Ok tt)
      end
  end.

Definition build (torn : nat) (path target output : string) : option (disk * result CommandAnswer CommandError) :=
  if bool_decide (target ≠ "wasm32-syllog") then Some (d, Err (UnsupportedTarget target))
  else
    compiled ← compile_program path;
    Some match compiled with
         | Err e => (d, Err (BuildFailed e))
         | Ok (Rejected printed) => (d, Ok (ExitRejected printed))
         | Ok (Accepted p) =>
             match emit_program p with
             | Err e => (d, Err e)
             | Ok artifact =>
                 match write_output torn output (ar_bytes artifact) with
                 | (d', Err e) => (d', Err e)
                 | (d', Ok _) => (d', Ok ExitBuilt)
                 end
             end
         end.

(** The policy of a run: every effect the program requires is granted. *)
Definition run_policy (fuel memory : N) (required : gset Effect) : result SandboxPolicy PolicyError :=
  match policy_new fuel memory with
  | Err e => Err e
  | Ok policy => Ok (foldl (λ policy e, allow_effect e policy) policy (ordered_effects required))
  end.

Definition sandboxed (artifact : WasmArtifact) (policy : SandboxPolicy) (failed : SandboxError → CommandError) : result Z CommandError :=
  match sandbox_new with
  | Err text => Err (SandboxUnavailable text)
  | Ok _ => match execute_export TypeI64 (ar_bytes artifact) "main" policy with Ok z => Ok z | Err e => Err (failed e) end
  end.

Definition run_artifact (program : CompiledProgram) (run_fuel memory : N) (artifact : WasmArtifact) : result Z CommandError :=
  match run_policy run_fuel memory (Ir.required (cp_capabilities program)) with
  | Err e => Err (InvalidPolicy e)
  | Ok policy => sandboxed artifact policy ProgramFailed
  end.

Definition run_program (program : CompiledProgram) (run_fuel memory : N) : result Z CommandError :=
  match emit_program program with
  | Err e => Err e
  | Ok artifact => run_artifact program run_fuel memory artifact
  end.

Definition run (path : string) (run_fuel memory : N) : option (result CommandAnswer CommandError) :=
  compiled ← compile_program path;
  Some match compiled with
       | Err e => Err (BuildFailed e)
       | Ok (Rejected printed) => Ok (ExitRejected printed)
       | Ok (Accepted program) => match run_program program run_fuel memory with Ok z => Ok (ExitValue z) | Err e => Err e end
       end.

(** A target compiled on its own, up to HIR, as [test] and [inspect hir] do it. *)
Definition target_hir (t : Target) : option (result HirProgram CommandError) :=
  match read_text io d (tg_path t) with
  | Err e => Some (Err (TargetUnreadable (tg_path t) e))
  | Ok source =>
      compilation ← compile (tg_path t) source;
      if success compilation then
        ast ← compiled_ast compilation; symbols ← compiled_symbols compilation;
        lowered ← lower_to_hir ast symbols;
        Some match lowered with Err diagnostics => Err (TargetHir diagnostics) | Ok hir => Ok hir end
      else Some (Err (TargetRejected (tg_name t) (render_human message_text source (compiled_diagnostics compilation))))
  end.

Record DiscoveredTest := {
  dt_target : string; dt_name : string; dt_entry : DefId; dt_returns_bool : bool; dt_program : MirProgram; dt_memory_bytes : N
}.

Record TestResult := { tr_target : string; tr_name : string; tr_passed : bool }.

(** The loop over the definitions of a target. *)
Fixpoint target_tests (t : Target) (memory : N) (mir : MirProgram) (ds : list HirDefinition) : result (list DiscoveredTest) CommandError :=
  match ds with
  | [] => Ok []
  | x :: ds =>
      match hd_kind x with
      | KindFunction f =>
          if negb (is_test f) then target_tests t memory mir ds
          else if match hf_parameters f with [] => false | _ => true end then Err (TestParameters (hd_name x))
          else match (match hf_result f with
                      | RtPrimitive PrimBool => Ok true
                      | RtUnit => Ok false
                      | other => Err (TestResultType (hd_name x) other)
                      end) with
          | Err e => Err e
          | Ok returns_bool =>
              match target_tests t memory mir ds with
              | Err e => Err e
              | Ok tests =>
                  Ok ({| dt_target := tg_name t; dt_name := hd_name x; dt_entry := mir_def_id (hd_id x); dt_returns_bool := returns_bool;
                         dt_program := mir; dt_memory_bytes := memory |} :: tests)
              end
          end
      | _ => target_tests t memory mir ds
      end
  end.

Definition discover_target_tests (t : Target) (memory : N) : option (result (list DiscoveredTest) CommandError) :=
  r ← target_hir t;
  Some match r with
       | Err e => Err e
       | Ok hir =>
           match lower_to_mir hir with
           | Err diagnostics => Err (TestMir diagnostics)
           | Ok mir => target_tests t memory mir (program_definitions hir)
           end
       end.

Fixpoint discover_tests (targets : list Target) (memory : N) : option (result (list DiscoveredTest) CommandError) :=
  match targets with
  | [] => Some (Ok [])
  | t :: targets =>
      r ← discover_target_tests t memory;
      match r with
      | Err e => Some (Err e)
      | Ok tests => more ← discover_tests targets memory; Some match more with Err e => Err e | Ok more => Ok (tests ++ more) end
      end
  end.

Definition with_entry (id : DefId) (p : MirProgram) : MirProgram := {| functions := functions p; entry := Some id |}.

Definition run_test (t : DiscoveredTest) : result TestResult CommandError :=
  match emit (with_entry (dt_entry t) (dt_program t)) default_options with
  | Err e => Err (TestCodegen (dt_name t) e)
  | Ok artifact =>
      match policy_new 1000000 (dt_memory_bytes t) with
      | Err e => Err (InvalidPolicy e)
      | Ok policy =>
          match sandboxed artifact policy (TestTrapped (dt_name t)) with
          | Err e => Err e
          | Ok value =>
              Ok {| tr_target := dt_target t; tr_name := dt_name t;
                    tr_passed := negb (dt_returns_bool t) || negb (bool_decide (value = 0%Z)) |}
          end
      end
  end.

Fixpoint run_tests (tests : list DiscoveredTest) : result (list TestResult) CommandError :=
  match tests with
  | [] => Ok []
  | t :: tests =>
      match run_test t with
      | Err e => Err e
      | Ok r => match run_tests tests with Err e => Err e | Ok rs => Ok (r :: rs) end
      end
  end.

(** [(&target, &name)] *)
Definition test_le (a b : DiscoveredTest) : bool := keys_le [dt_target a; dt_name a] [dt_target b; dt_name b].

(** The results and whether the command succeeds. *)
Definition test_command (start : string) : option (result (list TestResult * bool) CommandError) :=
  match discover_project start with
  | Err e => Some (Err (NoProject e))
  | Ok project =>
      found ← discover_tests (mf_targets (pj_manifest project)) (cp_max_memory_bytes (mf_capabilities (pj_manifest project)));
      Some match found with
           | Err e => Err e
           | Ok tests =>
               match run_tests (stable_sort test_le tests) with
               | Err e => Err e
               | Ok results => Ok (results, forallb tr_passed results)
               end
           end
  end.

(** ** [syllog inspect hir] and [syllog check] *)

Definition inspect_hir (project : Project) : option (result (string * HirProgram) CommandError) :=
  match mf_targets (pj_manifest project) with
  | [] => Some (Err NoTarget)
  | t :: _ => r ← target_hir t; Some match r with Err e => Err e | Ok hir => Ok (tg_name t, hir) end
  end.

Inductive DiagnosticFormat := FormatHuman | FormatJson.

(** What [check] prints: diagnostics, then the number of declarations; or a report. *)
Inductive CheckOutput := CheckHuman (diagnostics : option string) (declarations : option nat) | CheckJson (report : EditorReport).

Definition check_file (path : string) (format : DiagnosticFormat) : option (result (CheckOutput * bool) CommandError) :=
  match read_text io d path with
  | Err e => Some (Err (TargetUnreadable path e))
  | Ok source =>
      compilation ← compile path source;
      let output :=
        match format with
        | FormatHuman =>
            CheckHuman (match compiled_diagnostics compilation with [] => None | ds => Some (render_human message_text source ds) end)
              (if success compilation then Some match compiled_ast compilation with Some ast => length (ast_items ast) | None => 0%nat end
               else None)
        | FormatJson => CheckJson (editor_report compilation)
        end in
      Some (Ok (output, success compilation))
  end.
End compile_program.

(** * What the commands do *)

(** ** Sources *)

Lemma keys_le_total a : ∀ b, keys_le a b = false → keys_le b a = true.
Proof.
  induction a as [|x a IH]; intros [|y b]; cbn; try done. case_bool_decide as E.
  - subst. rewrite bool_decide_eq_true_2 by done. apply IH.
  - intros Hn%bool_decide_eq_false. rewrite bool_decide_eq_false_2 by congruence. apply bool_decide_eq_true. by destruct (total string_le x y).
Qed.

Lemma keys_le_trans a : ∀ b c, keys_le a b = true → keys_le b c = true → keys_le a c = true.
Proof.
  induction a as [|x a IH]; intros [|y b] [|z c]; cbn; try done. destruct (decide (x = y)) as [->|Hxy].
  - rewrite bool_decide_eq_true_2 by done. case_bool_decide; [apply IH|done].
  - rewrite (bool_decide_eq_false_2 (x = y)) by done. intros H1%bool_decide_eq_true. destruct (decide (y = z)) as [->|Hyz].
    + rewrite bool_decide_eq_true_2, bool_decide_eq_false_2 by done. intros _. by apply bool_decide_eq_true.
    + rewrite (bool_decide_eq_false_2 (y = z)) by done. intros H2%bool_decide_eq_true. assert (string_le x z) as H3 by by trans y.
      rewrite bool_decide_eq_false_2; [by apply bool_decide_eq_true|]. intros ->. by apply Hyz, (anti_symm string_le).
Qed.

Section walk.
Context (read_dir : string → result (list (result DirEntry IoFailure)) IoFailure).

(** The entries of a directory, of one type. *)
Definition holds_entry (directory : string) (ty : FileType) (path : string) : Prop :=
  ∃ entries entry, read_dir directory = Ok entries ∧ Ok entry ∈ entries ∧ de_type entry = Ok ty ∧ path = join_path directory (de_name entry).

(** Sources below a directory, links not followed. *)
Inductive below (directory : string) : string → Prop :=
| below_here path : holds_entry directory RegularFile path → is_syl path = true → below directory path
| below_nested nested path : holds_entry directory Directory nested → below nested path → below directory path.

(** No directory contains itself. *)
Abbreviation well_nested := (Acc (λ nested directory, holds_entry directory Directory nested)).

Definition entry_readable (r : result DirEntry IoFailure) : Prop := ∃ entry ty, r = Ok entry ∧ de_type entry = Ok ty.

(** Every directory below can be read. *)
Definition readable (root : string) : Prop := ∀ directory, rtc (λ outer nested, holds_entry outer Directory nested) root directory →
  ∃ entries, read_dir directory = Ok entries ∧ Forall entry_readable entries.

(** What one directory adds. *)
Lemma scan_entries_adds directory es : ∀ pending sources, scan_entries directory es pending sources =
  match scan_entries directory es [] [] with Err e => Err e | Ok (subs, files) => Ok (subs ++ pending, sources ++ files) end.
Proof.
  induction es as [|[entry|e] es IH]; intros pending sources; cbn; [by rewrite app_nil_r| |done].
  destruct (de_type entry) as [[]|]; [| | | |done].
  - rewrite IH. rewrite (IH [] (if is_syl _ then _ else _)). destruct (scan_entries directory es [] []) as [[subs files]|]; [|done].
    rewrite !app_nil_r. destruct (is_syl _); cbn; by rewrite <-?app_assoc.
  - rewrite IH, (IH [_] []). destruct (scan_entries directory es [] []) as [[subs files]|]; [|done]. by rewrite <-app_assoc.
  - apply IH.
  - apply IH.
Qed.

(** The entries of one type, as paths. *)
Definition typed_entries (directory : string) (ty : FileType) (es : list (result DirEntry IoFailure)) (path : string) : Prop :=
  ∃ entry, Ok entry ∈ es ∧ de_type entry = Ok ty ∧ path = join_path directory (de_name entry).

Lemma typed_entries_cons directory ty entry es path : typed_entries directory ty (Ok entry :: es) path ↔
  (de_type entry = Ok ty ∧ path = join_path directory (de_name entry)) ∨ typed_entries directory ty es path.
Proof. unfold typed_entries. setoid_rewrite elem_of_cons. naive_solver. Qed.

Lemma scan_entries_exact directory es : match scan_entries directory es [] [] with
  | Err _ => ¬ Forall entry_readable es
  | Ok (subs, files) => Forall entry_readable es ∧ (∀ x, x ∈ subs ↔ typed_entries directory Directory es x) ∧
      ∀ x, x ∈ files ↔ typed_entries directory RegularFile es x ∧ is_syl x = true
  end.
Proof.
  induction es as [|[entry|e] es IH].
  - cbn. split; [done|]. unfold typed_entries. set_solver.
  - assert (∀ ty (subs files subs' files' : list string), de_type entry = Ok ty → scan_entries directory es [] [] = Ok (subs, files) →
      (∀ x, x ∈ subs' ↔ (ty = Directory ∧ x = join_path directory (de_name entry)) ∨ x ∈ subs) →
      (∀ x, x ∈ files' ↔ (ty = RegularFile ∧ x = join_path directory (de_name entry) ∧ is_syl x = true) ∨ x ∈ files) →
      Forall entry_readable (Ok entry :: es) ∧ (∀ x, x ∈ subs' ↔ typed_entries directory Directory (Ok entry :: es) x) ∧
      ∀ x, x ∈ files' ↔ typed_entries directory RegularFile (Ok entry :: es) x ∧ is_syl x = true) as Hstep.
    { intros ty subs files subs' files' Ety Es Hs Hf. rewrite Es in IH. destruct IH as (H1 & H2 & H3). split.
      - constructor; [by exists entry, ty|done].
      - setoid_rewrite typed_entries_cons. setoid_rewrite Hs. setoid_rewrite Hf. setoid_rewrite H2. setoid_rewrite H3. rewrite Ety.
        split; intros x; split; naive_solver. }
    cbn. destruct (de_type entry) as [ty|] eqn:Ety.
    2: { intros Hall%Forall_inv. destruct Hall as (? & ? & [= <-] & ?). congruence. }
    assert (¬ Forall entry_readable es → ¬ Forall entry_readable (Ok entry :: es)) as Hbad by (intros Hn ?%Forall_inv_tail; done).
    destruct ty.
    + rewrite (scan_entries_adds directory es [] (if is_syl (join_path directory (de_name entry)) then _ else _)).
      destruct (scan_entries directory es [] []) as [[subs files]|]; [|by apply Hbad]. rewrite app_nil_r.
      apply (Hstep RegularFile subs files); [done|done|clear; set_solver|]. intros x.
      destruct (is_syl (join_path directory (de_name entry))) eqn:E; cbn [app].
      * rewrite elem_of_cons. split; [intros [->|?]; auto|intros [(_ & -> & _)|?]; auto].
      * split; [by right|]. intros [(_ & -> & ?)|?]; [congruence|done].
    + rewrite (scan_entries_adds directory es [_] []). destruct (scan_entries directory es [] []) as [[subs files]|]; [|by apply Hbad].
      apply (Hstep Directory subs files); [done|done|clear; set_solver..].
    + destruct (scan_entries directory es [] []) as [[subs files]|]; [|by apply Hbad]. apply (Hstep SymbolicLink subs files); [done|done|clear; set_solver..].
    + destruct (scan_entries directory es [] []) as [[subs files]|]; [|by apply Hbad]. apply (Hstep OtherFile subs files); [done|done|clear; set_solver..].
  - cbn. intros Hall%Forall_inv. destruct Hall as (? & ? & [=] & _).
Qed.

(** Reading a directory and everything below it. *)
Lemma walk_directory directory : well_nested directory → ∃ n out,
  (∀ fuel pending sources, walk read_dir (n + fuel) (directory :: pending) sources =
     match out with Err e => Some (Err e) | Ok found => walk read_dir fuel pending (sources ++ found) end) ∧
  match out with Err _ => ¬ readable directory | Ok found => readable directory ∧ ∀ path, path ∈ found ↔ below directory path end.
Proof.
  induction 1 as [directory _ IH].
  assert (∀ subs, (∀ x, x ∈ subs → holds_entry directory Directory x) → ∃ n out,
    (∀ fuel pending sources, walk read_dir (n + fuel) (subs ++ pending) sources =
       match out with Err e => Some (Err e) | Ok found => walk read_dir fuel pending (sources ++ found) end) ∧
    match out with Err _ => ¬ readable directory | Ok found => (∀ x, x ∈ subs → readable x) ∧ ∀ path, path ∈ found ↔ ∃ x, x ∈ subs ∧ below x path end) as Hsubs.
  { induction subs as [|x subs IHs]; intros Hx.
    - exists 0%nat, (Ok []). split; [intros; by rewrite app_nil_r|]. clear. set_solver.
    - destruct (IH x (Hx x ltac:(left))) as (n1 & out1 & W1 & O1). destruct IHs as (n2 & out2 & W2 & O2); [intros y Hy; apply Hx; by right|].
      exists (n1 + n2)%nat. destruct out1 as [found1|e1]; [destruct out2 as [found2|e2]|].
      + exists (Ok (found1 ++ found2)). split; [intros; cbn [app]; by rewrite <-Nat.add_assoc, W1, W2, app_assoc|].
        destruct O1 as [R1 O1], O2 as [R2 O2]. split; [by intros y [->|Hy]%elem_of_cons; [|apply R2]|].
        intros path. rewrite elem_of_app, O1, O2. clear. set_solver.
      + exists (Err e2). split; [intros; cbn [app]; by rewrite <-Nat.add_assoc, W1, W2|done].
      + exists (Err e1). split; [intros; cbn [app]; by rewrite <-Nat.add_assoc, W1|]. intros Hr. apply O1. intros y Hy. apply Hr.
        eapply rtc_l; [|exact Hy]. apply Hx. left. }
  destruct (read_dir directory) as [es|e] eqn:Er.
  2: { exists 1%nat, (Err (DirectoryUnreadable directory e)). split; [intros; cbn; by rewrite Er|]. intros Hr.
       destruct (Hr directory (rtc_refl _ _)) as (es & ? & _). congruence. }
  pose proof (scan_entries_exact directory es) as Hs. destruct (scan_entries directory es [] []) as [[subs files]|e] eqn:Es.
  2: { exists 1%nat, (Err e). split; [intros; cbn; by rewrite Er, scan_entries_adds, Es|]. intros Hr. apply Hs.
       destruct (Hr directory (rtc_refl _ _)) as (es' & Er' & ?). rewrite Er in Er'. by injection Er' as <-. }
  destruct Hs as (Hes & Hsub & Hfile). destruct (Hsubs subs) as (n & out & W & O).
  { intros x (entry & ? & ? & ->)%Hsub. by exists es, entry. }
  exists (S n). destruct out as [found|e].
  - exists (Ok (files ++ found)). split; [intros; cbn; by rewrite Er, scan_entries_adds, Es, W, app_assoc|].
    destruct O as [R O]. split.
    { intros inner Hin. inversion Hin as [|? nested ? (es' & entry & Er' & ? & ? & ->) Hrest]; subst; [by exists es|].
      rewrite Er in Er'. injection Er' as <-. eapply R; [|exact Hrest]. apply Hsub. by exists entry. }
    intros path. rewrite elem_of_app, O, Hfile. split.
    + intros [[(entry & ? & ? & ->) ?]|(x & (entry & ? & ? & ->)%Hsub & Hb)]; [by apply below_here; [exists es, entry|]|].
      eapply below_nested; [|exact Hb]. by exists es, entry.
    + destruct 1 as [path (es' & entry & Er' & ? & ? & ->) ?|nested path (es' & entry & Er' & ? & ? & ->) Hb]; rewrite Er in Er'; injection Er' as <-.
      * left. split; [by exists entry|done].
      * right. eexists. split; [apply Hsub; by exists entry|done].
  - exists (Err e). split; [intros; cbn; by rewrite Er, scan_entries_adds, Es, W|done].
Qed.

Lemma walk_exact root : well_nested root → ∃ enough, ∀ fuel, (enough ≤ fuel)%nat →
  match source_files read_dir fuel root with
  | None => False
  | Some (Err _) => ¬ readable root
  | Some (Ok files) => readable root ∧ StronglySorted path_le files ∧ ∀ path, path ∈ files ↔ below root path
  end.
Proof.
  intros (n & out & W & O)%walk_directory. exists n. intros fuel Hle. unfold source_files.
  replace fuel with (n + (fuel - n))%nat by lia. rewrite W. destruct out as [found|e]; [|done].
  assert (∀ m, walk read_dir m [] ([] ++ found) = Some (Ok found)) as -> by by intros []. destruct O as [R O]. cbn. split_and!; [done| |].
  - apply stable_sort_sorted; intros a b; [apply keys_le_total|intros c; apply keys_le_trans].
  - intros path. rewrite stable_sort_perm. apply O.
Qed.
End walk.

(** ** What an artifact means *)

Definition is_named (s : ModuleSection) : bool := match s with NamedSection _ _ => true | _ => false end.

Definition join_function (types : list (list ValType * ValType)) (x : N * (list ValType * list Instruction)) : option WasmFunction :=
  '(parameters, res) ← types !! N.to_nat x.1;
  Some {| wf_params := parameters; wf_result := res; wf_locals := x.2.1; wf_body := x.2.2 |}.

(** The functions and exports sections denote, after the binary format. *)
Definition module_of (ss : list ModuleSection) : option (list WasmFunction * list (string * N)) :=
  match ss with
  | TypeSection types :: FunctionSection indices :: ExportSection exports :: CodeSection bodies :: rest =>
      if forallb is_named rest && bool_decide (length indices = length bodies)
      then fs ← mapM (join_function types) (zip indices bodies); Some (fs, exports) else None
  | _ => None
  end.

Definition valid_exports (fs : list WasmFunction) (exports : list (string * N)) : Prop :=
  NoDup exports.*1 ∧ Forall (λ x, (N.to_nat x.2 < length fs)%nat) exports.

Definition custom_payload (p : Payload) : option (string * bytes) :=
  match p with CustomSection name data => Some (name, data) | OtherPayload => None end.

Definition custom_section (s : ModuleSection) : option (string * bytes) :=
  match s with NamedSection name data => Some (name, data) | _ => None end.

(** Wasmtime's message where the native stack ends. *)
Definition stack_exhausted : string := "call stack exhausted".

(** An execution of a function without parameters under the core specification: it
    ends with the function's result, with its trap, or at a limit of the engine. *)
Definition runs_as (fs : list WasmFunction) (k : nat) (r : Run Z) : Prop :=
  requests r = [] ∧
  match ending r with
  | Ok z => ∃ n word, wasm_invoke fs n k [] = Some (Returned (W64 word)) ∧ z = signed64 word
  | Err OutOfFuel => True
  | Err (OtherTrap text) => text = stack_exhausted ∨ ∃ n, wasm_invoke fs n k [] = Some Wasm.Trapped
  end.

(** The encoder writes the sections it is given and the engine reads them: custom
    sections come back, valid modules within the implementation's limits compile, and
    what needs no import and no memory gets none and runs by the core specification.
    JSON of these types is written and read back.  Fuel is enabled by [Sandbox::new]. *)
Class EngineLaws `{ArtifactCodec, Wasmtime} (within_limits : list ModuleSection → Prop) : Prop := {
  law_inputs program frames capabilities : ∃ data, encode_inputs program frames capabilities = Ok data;
  law_frames frames : ∃ data, encode_frame_table frames = Ok data;
  law_manifest m : ∃ data, encode_manifest m = Ok data ∧ decode_manifest data = Ok m;
  law_payloads ss : ∃ payloads, parse_all (encode_module ss) = map Ok payloads ∧ omap custom_payload payloads = omap custom_section ss;
  law_fuel n : set_fuel n = Ok tt;
  law_compile ss fs exports : module_of ss = Some (fs, exports) → validate_module fs = true → valid_exports fs exports → within_limits ss →
    ∃ m, compile_module (encode_module ss) = Ok m;
  law_module ss fs exports m : module_of ss = Some (fs, exports) → compile_module (encode_module ss) = Ok m →
    module_imports m = [] ∧ max_initial_memory_size m = None ∧ ∀ functions n, instantiate m functions n = Finished n;
  law_export ss fs exports m name k f : module_of ss = Some (fs, exports) → compile_module (encode_module ss) = Ok m →
    (name, k) ∈ exports → fs !! N.to_nat k = Some f → wf_params f = [] → wf_result f = TI64 →
    ∃ call, typed_export m name TypeI64 = Ok call ∧ ∀ n, runs_as fs (N.to_nat k) (call n)
}.

Lemma wasm_run_more fs n : ∀ n' s r, wasm_run fs n s = Some r → (n ≤ n')%nat → wasm_run fs n' s = Some r.
Proof. induction n as [|n IH]; intros [|n'] [] r; cbn; try done; try lia. intros Hr Hle. apply IH; [done|lia]. Qed.

Lemma wasm_invoke_unique fs n n' k args r r' : wasm_invoke fs n k args = Some r → wasm_invoke fs n' k args = Some r' → r = r'.
Proof.
  unfold wasm_invoke. destruct (fs !! k); [|congruence]. intros H1 H2.
  apply (wasm_run_more _ _ (max n n')) in H1; [|lia]. apply (wasm_run_more _ _ (max n n')) in H2; [|lia]. congruence.
Qed.

Lemma type_indices_lookup p frames i f : functions p !! i = Some f → type_indices p frames !! i = Some (N.of_nat i).
Proof. intros Hf. unfold type_indices. apply lookup_app_l_Some. by rewrite list_lookup_imap, Hf. Qed.

Lemma length_type_indices p frames : length (type_indices p frames) = (length (functions p) + length frames)%nat.
Proof. unfold type_indices. by rewrite length_app, length_imap, length_map. Qed.

Lemma encode_async_frame_signature frame g : encode_async_frame frame = Ok g → (wf_params g, wf_result g) = ([TI32; TI32], TI32).
Proof. unfold encode_async_frame. destruct (encode_all _ _); [|done]. by intros [= <-]. Qed.

(** The type each function is given. *)
Lemma joined_types p frames fs gs i g :
  Forall2 (λ f g, encode_function f (function_indices (functions p)) = Ok g) (functions p) fs →
  Forall2 (λ m g, encode_async_frame m = Ok g) frames gs → (fs ++ gs) !! i = Some g →
  ∃ index, type_indices p frames !! i = Some index ∧ function_types p frames !! N.to_nat index = Some (wf_params g, wf_result g).
Proof.
  intros Hfs Hgs [Hi|[Hlen Hi]]%lookup_app_Some.
  - destruct (Forall2_lookup_r _ _ _ _ _ Hfs Hi) as (f & Hf & Hg). exists (N.of_nat i). split; [by eapply type_indices_lookup|].
    rewrite Nat2N.id. unfold function_types. apply lookup_app_l_Some. rewrite list_lookup_fmap, Hf. cbn.
    by rewrite (encode_function_signature _ _ _ Hg).
  - destruct (Forall2_lookup_r _ _ _ _ _ Hgs Hi) as (frame & Hframe & Hg). apply Forall2_length in Hfs. rewrite <-Hfs in *.
    exists (N.of_nat (length (functions p))). split.
    + unfold type_indices. rewrite lookup_app_r by (rewrite length_imap; lia). by rewrite length_imap, list_lookup_fmap, Hframe.
    + rewrite Nat2N.id. unfold function_types. rewrite bool_decide_eq_false_2 by (intros ->; done).
      rewrite lookup_app_r by (rewrite length_map; lia). rewrite length_map, Nat.sub_diag. cbn. by rewrite (encode_async_frame_signature _ _ Hg).
Qed.

Lemma module_of_emitted p frames m custom : emit_functions p frames = Ok m → forallb is_named custom = true →
  module_of (module_sections p frames m ++ custom) = Some (wm_functions m, wm_exports m).
Proof.
  intros (_ & fs & gs & Hfs%encode_functions_lookup & Hgs%encode_frames_lookup & Efs & _)%emit_functions_ok Hc.
  assert (length (type_indices p frames) = length (wm_functions m)) as Hlen.
  { rewrite length_type_indices, Efs, length_app. by rewrite (Forall2_length _ _ _ Hfs), (Forall2_length _ _ _ Hgs). }
  unfold module_of, module_sections. cbn [app]. rewrite Hc, length_map, bool_decide_eq_true_2 by done. cbn [andb].
  assert (mapM (join_function (function_types p frames)) (zip (type_indices p frames) (map (λ f, (wf_locals f, wf_body f)) (wm_functions m))) =
    Some (wm_functions m)) as ->; [|done].
  apply mapM_Some, Forall2_same_length_lookup. split; [rewrite length_zip, length_map; lia|].
  intros i [position body] g Hx Hg. apply lookup_zip_Some in Hx as [Hidx Hbody]. rewrite list_lookup_fmap, Hg in Hbody. injection Hbody as Hbody.
  rewrite Efs in Hg. destruct (joined_types p frames fs gs i g Hfs Hgs Hg) as (index & Hindex & Htype).
  unfold join_function. rewrite Hindex in Hidx. injection Hidx as <-. cbn [fst snd]. rewrite Htype, <-Hbody. by destruct g.
Qed.

Lemma function_indices_bound fs id k : function_indices fs !! id = Some k → (N.to_nat k < length fs)%nat.
Proof.
  unfold function_indices. revert k. induction fs as [|f fs IH] using rev_ind; intros k; [done|].
  rewrite imap_app, foldl_app, length_app. cbn. rewrite Nat.add_0_r. intros [[_ <-]|[_ Hk]]%lookup_insert_Some; [lia|].
  apply IH in Hk. lia.
Qed.

Lemma emitted_exports_in_range p frames m : emit_functions p frames = Ok m → Forall (λ x, (N.to_nat x.2 < length (wm_functions m))%nat) (wm_exports m).
Proof.
  unfold emit_functions. intros Hm. repeat case_match; try done. simplify_eq. cbn [wm_functions wm_exports].
  match goal with H : encode_functions _ _ = _ |- _ => apply encode_functions_lookup, Forall2_length in H as Hf end.
  match goal with H : encode_frames _ = _ |- _ => apply encode_frames_lookup, Forall2_length in H as Hg end.
  rewrite length_app, <-Hf, <-Hg. constructor.
  - match goal with H : function_indices _ !! _ = Some _ |- _ => apply function_indices_bound in H end. cbn. lia.
  - apply Forall_lookup. intros i [name k] Hi. rewrite list_lookup_imap in Hi. destruct (frames !! i) as [frame|] eqn:E; [|done].
    injection Hi as <- <-. apply lookup_lt_Some in E. unfold u32_saturating_add. cbn. lia.
Qed.

(** ** What a run prints *)

Lemma find_manifest_custom `{Wasmtime} payloads : ∀ found, find_manifest (map Ok payloads) found =
  find_manifest (map (λ x, Ok (CustomSection x.1 x.2)) (omap custom_payload payloads)) found.
Proof.
  induction payloads as [|[name data|] payloads IH]; intros found; cbn; [done| |apply IH]. case_bool_decide; [|apply IH].
  destruct found; [done|]. destruct (decode_manifest data) as [m|]; [|done]. case_bool_decide; [apply IH|done].
Qed.

Lemma grant_effects (l : list Effect) : ∀ p, foldl (λ p e, allow_effect e p) p l =
  {| policy_fuel := policy_fuel p; max_memory_bytes := max_memory_bytes p; capabilities := capabilities p; effects := list_to_set l ∪ effects p |}.
Proof.
  induction l as [|e l IH]; intros p; cbn [foldl]; [destruct p; cbn; f_equal; set_solver|]. rewrite IH. unfold allow_effect. cbn. f_equal. set_solver.
Qed.

(** The policy of a run grants exactly what the program requires. *)
Lemma run_policy_grants n memory (needed : gset Effect) : n ≠ 0 → memory ≠ 0 → run_policy n memory needed =
  Ok {| policy_fuel := n; max_memory_bytes := memory; capabilities := ∅; effects := needed |}.
Proof.
  intros Hn Hm. unfold run_policy, policy_new. rewrite !bool_decide_eq_false_2 by done. rewrite grant_effects. cbn. repeat f_equal.
  apply set_eq. intros e. rewrite union_empty_r_L, elem_of_list_to_set. apply ordered_effects_elem.
Qed.

Section runs.
Context `{EngineLaws}.

Lemma emitted_embeds p frames capabilities options m custom :
  custom_sections p frames capabilities options = Ok custom → format_version capabilities = 1 →
  forallb is_named custom = true ∧ embeds (encode_module (module_sections p frames m ++ custom)) (Some capabilities).
Proof.
  intros Hc Hv. destruct (law_manifest capabilities) as (data & Hdata & Hread). destruct (law_frames frames) as [table Htable].
  unfold custom_sections in Hc. rewrite Hdata, Htable in Hc. cbn in Hc.
  destruct (law_payloads (module_sections p frames m ++ custom)) as (payloads & Hp & Hcustom).
  unfold embeds. rewrite Hp, find_manifest_custom, Hcustom.
  case_bool_decide; injection Hc as <-; (split; [done|]); cbn; rewrite Hread; cbn;
    rewrite ?(bool_decide_eq_false_2 ("syllog.source_map" = _)), ?(bool_decide_eq_false_2 ("syllog.async_frames" = _)) by done;
    by rewrite !bool_decide_eq_true_2 by done.
Qed.

Lemma emit_succeeds p frames capabilities options m start : emit_functions p frames = Ok m → entry p = Some start →
  ∃ custom artifact, custom_sections p frames capabilities options = Ok custom ∧
    emit_with_capabilities p frames capabilities options = Ok artifact ∧ ar_bytes artifact = encode_module (module_sections p frames m ++ custom).
Proof.
  intros Hm He. destruct (law_manifest capabilities) as (data & Hdata & _). destruct (law_frames frames) as [table Htable].
  destruct (law_inputs p frames capabilities) as [canonical Hin]. unfold emit_with_capabilities, custom_sections.
  rewrite Hm, He, Hin, Hdata, Htable. cbn. case_bool_decide; cbn; by eexists _, _.
Qed.

(** The answers of the sandbox on an emitted module whose main function returns. *)
Lemma emitted_runs p frames capabilities m custom k f word policy :
  emit_functions p frames = Ok m → custom_sections p frames capabilities default_options = Ok custom → format_version capabilities = 1 →
  validate_module (wm_functions m) = true → NoDup (wm_exports m).*1 → within_limits (module_sections p frames m ++ custom) →
  head (wm_exports m) = Some ("main", k) → wm_functions m !! N.to_nat k = Some f → wf_params f = [] → wf_result f = TI64 →
  (∃ n, wasm_invoke (wm_functions m) n (N.to_nat k) [] = Some (Returned (W64 word))) →
  Sandbox.capabilities policy = ∅ → Ir.required capabilities ⊆ effects policy →
  let answer := execute_export TypeI64 (encode_module (module_sections p frames m ++ custom)) "main" policy in
  answer = Ok (signed64 word) ∨ answer = Err FuelExhausted ∨ answer = Err (Execution "main" (Some (OtherTrap stack_exhausted))).
Proof.
  intros Hm Hc Hv Hvalid Hdistinct Hlimits Hmain Hf Hps Hres [n Hinvoke] Hcap Heff. destruct (emitted_embeds p frames capabilities default_options m custom Hc Hv) as [Hnamed Hembeds].
  pose proof (module_of_emitted p frames m custom Hm Hnamed) as Hof.
  destruct (law_compile _ _ _ Hof Hvalid (conj Hdistinct (emitted_exports_in_range _ _ _ Hm)) Hlimits) as [compiled Hcompiled].
  destruct (law_module _ _ _ _ Hof Hcompiled) as (Himports & Hmemory & Hinst).
  destruct (law_export _ _ _ _ "main" k f Hof Hcompiled) as (call & Hcall & Hruns); [|done..|].
  { destruct (wm_exports m); [done|]. cbn in Hmain. injection Hmain as ->. left. }
  cbn zeta. unfold execute_export. rewrite (proj2 (enforce_exact _ _)) by (exists (Some capabilities); done).
  rewrite Hcompiled, Himports. cbn [List.find]. unfold initial_memory_bytes. rewrite Hmemory. cbn [default]. rewrite bool_decide_eq_false_2 by (cbn; lia).
  unfold run_export, link_capabilities. rewrite law_fuel, Hcap, bool_decide_eq_false_2 by set_solver. rewrite Hinst. cbn [drive_run]. rewrite Hcall, drive_exact.
  destruct (Hruns (policy_fuel policy)) as [-> Hend]. cbn [forallb]. destruct (ending (call (policy_fuel policy))) as [z|[|text]].
  - left. destruct Hend as (n' & word' & Hinvoke' & ->). f_equal. f_equal. pose proof (wasm_invoke_unique _ _ _ _ _ _ _ Hinvoke Hinvoke'). congruence.
  - right; left. done.
  - right; right. cbn. destruct Hend as [->|[n' Hinvoke']]; [done|]. pose proof (wasm_invoke_unique _ _ _ _ _ _ _ Hinvoke Hinvoke'). discriminate.
Qed.
End runs.

(** What the code generator and the engine need of a program. *)
Record runnable (within_limits : list ModuleSection → Prop) `{ArtifactCodec} (p : MirProgram) (frames : list AsyncStateMachine)
    (needed : CapabilityManifest) (m : Codegen.WasmModule) : Prop := {
  rn_emitted : emit_functions p frames = Ok m;
  rn_supported : forallb (λ f, wasm_faithful f && wasm_ready f) (functions p) = true;
  rn_exports : NoDup (wm_exports m).*1;
  rn_limits custom : custom_sections p frames needed default_options = Ok custom → within_limits (module_sections p frames m ++ custom)
}.

(** The sandbox returns the interpreter's value, or ends at a limit. *)
Lemma sandboxed_returns `{EngineLaws} `{SemVer} p frames needed m start r steps limits policy (failed : SandboxError → CommandError) :
  runnable within_limits p frames needed m → format_version needed = 1 → capabilities policy = ∅ → Ir.required needed ⊆ effects policy →
  entry p = Some start → execute steps p start limits = Some (Done r) →
  ∃ v artifact, er_value r = into_runtime v ∧ emit_with_capabilities p frames needed default_options = Ok artifact ∧
    let answer := sandboxed (Ok tt) artifact policy failed in
    answer = Ok (signed64 (value_word v)) ∨ answer = Err (failed FuelExhausted) ∨
    answer = Err (failed (Execution "main" (Some (OtherTrap stack_exhausted)))).
Proof.
  intros [Hm Hs Hd Hl] Hv Hcap Heff He Hx.
  assert (forallb wasm_faithful (functions p) = true ∧ forallb wasm_ready (functions p) = true) as [Hfaith Hready].
  { rewrite !forallb_forall in *. split; intros f Hf%Hs; by apply andb_prop in Hf as []. }
  destruct (emitted_module_returns _ _ _ _ _ _ _ Hm Hfaith He Hx) as (v & k & Hval & Hmain & (f & Hf & Hps & Hres) & enough & Hinvoke).
  destruct (emit_succeeds _ _ needed default_options _ _ Hm He) as (custom & artifact & Hc & Ha & Hbytes).
  exists v, artifact. split; [done|]. split; [done|]. unfold sandboxed. rewrite Hbytes.
  destruct (emitted_runs p frames needed m custom k f (value_word v) policy) as [E|[E|E]];
    [done|done|done|by eapply module_validates|done|by apply Hl|done|done|done|done|by exists enough; apply Hinvoke|done|done|..];
    cbn zeta; rewrite E; auto.
Qed.

Lemma run_program_returns `{EngineLaws} `{SemVer} p m start r steps limits n memory :
  runnable within_limits (cp_mir p) (cp_async_frames p) (cp_capabilities p) m → format_version (cp_capabilities p) = 1 → n ≠ 0 → memory ≠ 0 →
  entry (cp_mir p) = Some start → execute steps (cp_mir p) start limits = Some (Done r) →
  ∃ v, er_value r = into_runtime v ∧ let answer := run_program (Ok tt) p n memory in
    answer = Ok (signed64 (value_word v)) ∨ answer = Err (ProgramFailed FuelExhausted) ∨
    answer = Err (ProgramFailed (Execution "main" (Some (OtherTrap stack_exhausted)))).
Proof.
  intros Hr Hv Hn Hm He Hx.
  destruct (sandboxed_returns _ _ _ _ _ _ _ _ {| policy_fuel := n; max_memory_bytes := memory; capabilities := ∅; effects := Ir.required (cp_capabilities p) |}
    ProgramFailed Hr Hv eq_refl (reflexivity _) He Hx) as (v & artifact & Hval & Ha & Hanswer).
  exists v. split; [done|]. unfold run_program, emit_program, run_artifact. rewrite Ha, run_policy_grants by done. exact Hanswer.
Qed.

Section accepted.
Context `{Syntax} `{RegistryCodec, !Countable Version} {LC : LockfileCodec}.
Context (parse_toml : string → result RawManifest (string * option (nat * nat))) (failure_text : IoFailure → string)
  (canonicalize : string → result string IoFailure) (message_text : DiagnosticMessage → string) (sha256 : string → string).
Context (read_dir : string → result (list (result DirEntry IoFailure)) IoFailure) (fuel : nat) (io : faults) (d : disk).

Abbreviation compiled_at := (compile_program parse_toml failure_text canonicalize message_text sha256 read_dir fuel io d).

(** The phases behind a compiled program. *)
Record compiled_from (hir : HirProgram) (p : CompiledProgram) : Prop := {
  cf_effects : ∃ effects, analyze_effects hir = Some (Ok effects) ∧ cp_capabilities p = manifest effects;
  cf_async : lower_async_state_machines hir = Some (Ok (cp_async_frames p));
  cf_mir : lower_to_mir hir = Ok (cp_mir p)
}.

Lemma finish_program_ok hir p : finish_program hir = Some (Ok p) ↔ compiled_from hir p.
Proof.
  unfold finish_program. destruct (analyze_effects hir) as [[effects|]|] eqn:E1; cbn.
  2, 3: split; [done|]; intros [(? & ? & _) _ _]; congruence.
  destruct (lower_async_state_machines hir) as [[frames|]|] eqn:E2; cbn; [|split; [done|]; intros [_ ? _]; congruence..].
  destruct (lower_to_mir hir) as [mir|] eqn:E3; [|split; [done|]; intros [_ _ ?]; congruence]. split.
  - intros [= <-]. split; cbn; [by exists effects|done..].
  - intros [(effects' & ? & ?) ? ?]. destruct p; cbn in *. congruence.
Qed.

Lemma accepted_ok r p : accept r = Ok (Accepted p) → r = Ok p.
Proof. destruct r; [by intros [= ->]|done]. Qed.

#[local] Arguments finish_program : simpl never.

Lemma compile_program_accepted path p : compiled_at path = Some (Ok (Accepted p)) → ∃ hir, compiled_from hir p.
Proof.
  unfold compile_program, compile_package_program, compile_file_program. intros Hp.
  repeat match goal with
  | Hp : (?x ≫= _) = Some _ |- _ => destruct x as [?|] eqn:?; cbn in Hp; [|done]
  | Hp : match ?x with _ => _ end = Some _ |- _ => destruct x eqn:?; cbn in Hp; try done
  | Hp : Some (accept _) = Some (Ok (Accepted _)) |- _ => injection Hp as ->%accepted_ok
  | Hf : finish_program ?hir = Some (Ok ?p) |- _ => exists hir; by apply finish_program_ok
  end.
Qed.

Lemma compiled_format hir p : compiled_from hir p → format_version (cp_capabilities p) = 1.
Proof.
  intros [(effects & He & ->) _ _]. unfold analyze_effects in He. destruct (infer _); [|done]. cbn in He.
  destruct (_ ++ _); [|done]. by injection He as <-.
Qed.
End accepted.

(** C4: what [syllog run] prints is what the program means: if a program compiles to
    functions of the supported fragment and the reference interpreter returns a value
    for it, then [run] prints that value's word, or reports that the fuel or the
    native stack it was given is exhausted; no effect is denied and nothing else
    fails. *)
Theorem run_agrees_with_interpreter `{Syntax} `{RegistryCodec, !Countable Version} {LC : LockfileCodec} `{EngineLaws}
    parse_toml failure_text canonicalize message_text sha256 read_dir fuel io d path p m start r steps limits n memory :
  compile_program parse_toml failure_text canonicalize message_text sha256 read_dir fuel io d path = Some (Ok (Accepted p)) →
  runnable within_limits (cp_mir p) (cp_async_frames p) (cp_capabilities p) m → n ≠ 0 → memory ≠ 0 →
  entry (cp_mir p) = Some start → execute steps (cp_mir p) start limits = Some (Done r) →
  ∃ v, er_value r = into_runtime v ∧
    let answer := run parse_toml failure_text canonicalize message_text sha256 read_dir fuel io d (Ok tt) path n memory in
    answer = Some (Ok (ExitValue (signed64 (value_word v)))) ∨ answer = Some (Err (ProgramFailed FuelExhausted)) ∨
    answer = Some (Err (ProgramFailed (Execution "main" (Some (OtherTrap stack_exhausted))))).
Proof.
  intros Hp Hr Hn Hm He Hx. destruct (compile_program_accepted _ _ _ _ _ _ _ _ _ _ _ Hp) as [hir Hf%compiled_format].
  destruct (run_program_returns p m start r steps limits n memory Hr Hf Hn Hm He Hx) as (v & Hv & Ha). exists v. split; [done|].
  cbn zeta. unfold run. rewrite Hp. cbn [mbind option_bind]. cbn zeta in Ha. destruct Ha as [->|[->| ->]]; auto.
Qed.

(** ** An engine for the modules of this encoder *)

#[export] Instance val_type_countable : Countable ValType.
Proof. refine (inj_countable' (λ t, match t with TI32 => true | TI64 => false end) (λ b : bool, if b then TI32 else TI64) _). by intros []. Defined.

#[export] Instance instruction_eq_dec : EqDecision Instruction.
Proof. solve_decision. Defined.

(** An instruction as its number and its argument. *)
Definition instruction_code (i : Instruction) : N * (N + Z + option ValType) :=
  match i with
  | LocalGet l => (0, inl (inl l))
  | LocalSet l => (1, inl (inl l))
  | I64Const z => (2, inl (inr z))
  | I32Const z => (3, inl (inr z))
  | I64Eq => (4, inr None) | I32Eq => (5, inr None) | I64Add => (6, inr None) | I64Sub => (7, inr None) | I64Mul => (8, inr None)
  | I64DivU => (9, inr None) | I64DivS => (10, inr None) | I64LtU => (11, inr None) | I64LtS => (12, inr None) | I64And => (13, inr None)
  | I64Or => (14, inr None)
  | If bt => (15, inr bt)
  | Else => (16, inr None)
  | End_ => (17, inr None)
  | Loop bt => (18, inr bt)
  | Br depth => (19, inl (inl depth))
  | Return_ => (20, inr None)
  | Call f => (21, inl (inl f))
  | Unreachable => (22, inr None)
  end.

Definition instruction_of (x : N * (N + Z + option ValType)) : Instruction :=
  match x with
  | (0, inl (inl l)) => LocalGet l
  | (1, inl (inl l)) => LocalSet l
  | (2, inl (inr z)) => I64Const z
  | (3, inl (inr z)) => I32Const z
  | (4, _) => I64Eq | (5, _) => I32Eq | (6, _) => I64Add | (7, _) => I64Sub | (8, _) => I64Mul
  | (9, _) => I64DivU | (10, _) => I64DivS | (11, _) => I64LtU | (12, _) => I64LtS | (13, _) => I64And
  | (14, _) => I64Or
  | (15, inr bt) => If bt
  | (16, _) => Else
  | (17, _) => End_
  | (18, inr bt) => Loop bt
  | (19, inl (inl depth)) => Br depth
  | (20, _) => Return_
  | (21, inl (inl f)) => Call f
  | _ => Unreachable
  end.

#[export] Instance instruction_countable : Countable Instruction.
Proof. refine (inj_countable' instruction_code instruction_of _). by intros []. Defined.

#[export] Instance module_section_eq_dec : EqDecision ModuleSection.
Proof. solve_decision. Defined.

#[export] Instance module_section_countable : Countable ModuleSection.
Proof.
  refine (inj_countable'
    (λ s, match s with
          | TypeSection types => inl (inl (inl types))
          | FunctionSection types => inl (inl (inr types))
          | ExportSection exports => inl (inr (inl exports))
          | CodeSection bodies => inl (inr (inr bodies))
          | NamedSection name data => inr (name, data)
          end)
    (λ x : (list (list ValType * ValType) + list N) + (list (string * N) + list (list ValType * list Instruction)) + string * bytes,
       match x with
       | inl (inl (inl types)) => TypeSection types
       | inl (inl (inr types)) => FunctionSection types
       | inl (inr (inl exports)) => ExportSection exports
       | inl (inr (inr bodies)) => CodeSection bodies
       | inr (name, data) => NamedSection name data
       end) _).
  by intros [].
Defined.

Definition encode_sections (ss : list ModuleSection) : bytes := digits (encode ss).
Definition decode_sections (content : bytes) : option (list ModuleSection) := decode (number content).

Lemma decode_encode_sections ss : decode_sections (encode_sections ss) = Some ss.
Proof. unfold decode_sections, encode_sections. by rewrite number_digits, decode_encode. Qed.

#[local] Instance plain_artifacts : ArtifactCodec := {|
  encode_module := encode_sections;
  encode_inputs _ _ _ := Ok [];
  encode_frame_table _ := Ok [];
  encode_manifest m := Ok (digits (encode (format_version m, Ir.required m)));
  source_digest data := data
|}.

Definition payload_of (s : ModuleSection) : Payload := match s with NamedSection name data => CustomSection name data | _ => OtherPayload end.

Definition find_export (exports : list (string * N)) (name : string) : option N :=
  snd <$> List.find (λ x, bool_decide (x.1 = name)) exports.

Definition run_function (fs : list WasmFunction) (k : N) (n : N) : Run Z :=
  match wasm_invoke fs (N.to_nat n) (N.to_nat k) [] with
  | Some (Returned (W64 word)) => Finished (signed64 word)
  | None => Trapped OutOfFuel
  | _ => Trapped (OtherTrap stack_exhausted)
  end.

#[local] Instance plain_engine : Wasmtime := {|
  Sandbox.WasmModule := list WasmFunction * list (string * N);
  parse_all content := match decode_sections content with Some ss => map (λ s, Ok (payload_of s)) ss | None => [Err "not a module"] end;
  decode_manifest data := match decode (number data) with
                          | Some (version, needed) => Ok {| format_version := version; Ir.required := needed |}
                          | None => Err "not a manifest"
                          end;
  compile_module content := match decode_sections content ≫= module_of with
                            | Some (fs, exports) => if validate_module fs && bool_decide (NoDup exports.*1) then Ok (fs, exports) else Err "invalid module"
                            | None => Err "not a module"
                            end;
  module_imports _ := [];
  max_initial_memory_size _ := None;
  set_fuel _ := Ok tt;
  link_function _ := Ok tt;
  instantiate _ _ n := Finished n;
  typed_export m name ty :=
    match find_export m.2 name with
    | Some k => match ty, m.1 !! N.to_nat k with
                | TypeI64, Some f => if bool_decide (wf_params f = [] ∧ wf_result f = TI64) then Ok (run_function m.1 k) else Err "another type"
                | _, _ => Err "another type"
                end
    | None => Err "no such export"
    end
|}.

Lemma find_export_unique exports name k : NoDup exports.*1 → (name, k) ∈ exports → find_export exports name = Some k.
Proof.
  unfold find_export. induction exports as [|[name' k'] exports IH]; cbn; [by intros _ ?%elem_of_nil|].
  intros [Hn Hd]%NoDup_cons [[= <- <-]|Hin]%elem_of_cons; [by rewrite bool_decide_eq_true_2|].
  case_bool_decide as E; [|by apply IH]. cbn in E. subst. destruct Hn. apply list_elem_of_fmap. by exists (name, k).
Qed.

Lemma run_function_runs fs k n : runs_as fs (N.to_nat k) (run_function fs k n).
Proof.
  unfold run_function, runs_as. destruct (wasm_invoke fs (N.to_nat n) (N.to_nat k) []) as [[| [word|word] |]|] eqn:E; cbn; auto. split; [done|]. eauto.
Qed.

#[local] Instance plain_laws : EngineLaws (λ _, True).
Proof.
  assert (∀ ss fs exports m, module_of ss = Some (fs, exports) → compile_module (encode_module ss) = Ok m → m = (fs, exports) ∧ NoDup exports.*1) as Hcompiled.
  { intros ss fs exports m Hof. cbn. rewrite decode_encode_sections. cbn. rewrite Hof. destruct (validate_module fs); [|done].
    case_bool_decide; [|done]. by intros [= <-]. }
  split; cbn -[encode_sections decode_sections compile_module encode_module]; try eauto.
  - intros m. eexists. split; [done|]. rewrite number_digits, decode_encode. by destruct m.
  - intros ss. cbn. rewrite decode_encode_sections. exists (map payload_of ss). split; [by rewrite map_map|].
    induction ss as [|[] ss IH]; cbn; [done|done..|]. by rewrite IH.
  - intros ss fs exports Hof Hv [Hd _] _. cbn. rewrite decode_encode_sections. cbn. rewrite Hof, Hv, bool_decide_eq_true_2 by done. by eexists.
  - intros ss fs exports m name k f Hof [-> Hd]%(Hcompiled ss fs exports) Hin Hf Hps Hres; [|done]. cbn -[find_export].
    rewrite (find_export_unique _ _ _ Hd Hin), Hf, bool_decide_eq_true_2 by done. eexists. split; [done|]. apply run_function_runs.
Qed.

(** *** A file that is compiled and run *)

Definition answer_source : string := "fn main() -> I64 { return 40 + 2; }".

Definition answer_file : Ast :=
  {| ast_module := None; ast_imports := [];
     ast_items := [ItemFunction {| fnn_attributes := []; fnn_public := false; fnn_asynchronous := false; fnn_name := "main"; fnn_parameters := [];
       fnn_return_type := Some (mkType (TkPath ["I64"] []) (columns 13 16)); fnn_effects := None;
       fnn_body := mkBody [mkStatement (SReturn (Some (Ex (EBinary OpAdd (Ex (ELiteral (LitInteger 40)) (columns 26 28))
         (Ex (ELiteral (LitInteger 2)) (columns 31 32))) (columns 26 32)))) (columns 19 33)] (columns 17 35);
       fnn_span := columns 0 35 |}];
     ast_span := columns 0 35 |}.

#[local] Instance answer_syntax : Syntax := {|
  syl_parser input :=
    if bool_decide (input = answer_source) then Ok [unparse plain_quote answer_file]
    else Err {| pest_location := LocationPos 0; pest_line_col := LineColPos 1 1; pest_message := "expected program"; pest_display := "expected program" |};
  pratt_parse A _ := chain_parse;
  json_string := plain_json
|}.

Definition answer_disk : disk := {["/w/main.syl" := String.list_byte_of_string answer_source]}.

Definition no_toml (_ : string) : result RawManifest (string * option (nat * nat)) := Err ("no manifest", None).
Definition plain_failure (_ : IoFailure) : string := "failed".
Definition plain_message (_ : DiagnosticMessage) : string := "message".
Definition no_directory (_ : string) : result (list (result DirEntry IoFailure)) IoFailure := Err Missing.

Abbreviation answer_program := (compile_program (H0 := numbered) (LC := sample_lock_codec) no_toml plain_failure Ok plain_message (λ s, s) no_directory 0 no_faults answer_disk "/w/main.syl").

Abbreviation answer_run n := (run (H0 := numbered) (LC := sample_lock_codec) no_toml plain_failure Ok plain_message (λ s, s) no_directory 0 no_faults
  answer_disk (Ok tt) "/w/main.syl" n 65536).

Example answer_printed : answer_run 1000 = Some (Ok (ExitValue 42)) ∧ answer_run 5 = Some (Err (ProgramFailed FuelExhausted)).
Proof. vm_compute. done. Qed.

Lemma run_agrees_with_interpreter_witness :
  ∃ v, RI64 42 = into_runtime v ∧
    (answer_run 1000 = Some (Ok (ExitValue (signed64 (value_word v)))) ∨ answer_run 1000 = Some (Err (ProgramFailed FuelExhausted)) ∨
     answer_run 1000 = Some (Err (ProgramFailed (Execution "main" (Some (OtherTrap stack_exhausted)))))).
Proof.
  assert (match answer_program with
          | Some (Ok (Accepted p)) =>
              match emit_functions (cp_mir p) (cp_async_frames p) with
              | Ok m => forallb (λ f, wasm_faithful f && wasm_ready f) (functions (cp_mir p)) && bool_decide (NoDup (wm_exports m).*1) &&
                  bool_decide (entry (cp_mir p) = Some main_id) &&
                  match execute 100 (cp_mir p) main_id small_limits with
                  | Some (Done r) => match er_value r with RI64 z => bool_decide (z = 42%Z) | _ => false end
                  | _ => false
                  end
              | Err _ => false
              end
          | _ => false
          end = true) as Hall by (vm_compute; reflexivity).
  destruct answer_program as [[[p|]|]|] eqn:Ep; try discriminate Hall.
  destruct (emit_functions (cp_mir p) (cp_async_frames p)) as [m|] eqn:Em; [|discriminate Hall].
  apply andb_prop in Hall as [Hall Hx]. apply andb_prop in Hall as [Hall He%bool_decide_eq_true]. apply andb_prop in Hall as [Hs Hd%bool_decide_eq_true].
  destruct (execute 100 (cp_mir p) main_id small_limits) as [[r| |]|] eqn:Er; try discriminate Hx.
  destruct (run_agrees_with_interpreter (H0 := numbered) (LC := sample_lock_codec) no_toml plain_failure Ok plain_message (λ s, s) no_directory 0 no_faults
    answer_disk "/w/main.syl" p m main_id r 100 small_limits 1000 65536) as (v & Hv & Ha).
  - exact Ep.
  - exact (Build_runnable (λ _, True) plain_artifacts _ _ _ m Em Hs Hd (λ _ _, I)).
  - discriminate.
  - discriminate.
  - exact He.
  - exact Er.
  - exists v. split; [|exact Ha]. rewrite <-Hv. destruct (er_value r); try discriminate Hx. apply bool_decide_eq_true in Hx. by subst.
Defined.

(** ** The sources of a target *)

(** C31: [build] and [run] compile the whole source tree of a target: once directories are
    not nested in themselves the search ends, and it finds exactly the regular files
    with the extension syl below the directory of the target, without following
    links, in the order of their paths.  It succeeds only when every directory and
    every entry below could be read and a source was found, and fails only when one
    of them could not be read or there is no source. *)
Theorem target_sources_exact `{SemVer} read_dir root : Acc (λ nested directory, holds_entry read_dir directory Directory nested) root →
  ∃ enough, ∀ fuel, (enough ≤ fuel)%nat →
    match collect_syl_sources read_dir fuel root with
    | Some (Ok files) => readable read_dir root ∧ files ≠ [] ∧ StronglySorted path_le files ∧ ∀ path, path ∈ files ↔ below read_dir root path
    | Some (Err (NoSources r)) => readable read_dir root ∧ r = root ∧ ¬ ∃ path, below read_dir root path
    | Some (Err (SourcesUnreadable _)) => ¬ readable read_dir root
    | _ => False
    end.
Proof.
  intros (enough & Hw)%walk_exact. exists enough. intros fuel Hle. specialize (Hw fuel Hle). unfold collect_syl_sources.
  destruct (source_files read_dir fuel root) as [[[|path files]|e]|]; cbn; [| |done|done].
  - destruct Hw as (R & _ & Hw). split_and!; [done|done|]. intros [path Hp%Hw]. by apply elem_of_nil in Hp.
  - destruct Hw as (R & Hw). split_and!; [done|done|apply Hw..].
Qed.

Definition sample_entries (entries : list (string * FileType)) : result (list (result DirEntry IoFailure)) IoFailure :=
  Ok (map (λ '(name, ty), Ok {| de_name := name; de_type := Ok ty |}) entries).

(** A source directory with a nested one and a link. *)
Definition sample_tree (directory : string) : result (list (result DirEntry IoFailure)) IoFailure :=
  if bool_decide (directory = "/p/src") then sample_entries [("main.syl", RegularFile); ("link", SymbolicLink); ("a", Directory); ("a-b.syl", RegularFile)]
  else if bool_decide (directory = "/p/src/a") then sample_entries [("notes.md", RegularFile); ("z.syl", RegularFile)]
  else Err Missing.

Lemma sample_tree_nested directory nested : holds_entry sample_tree directory Directory nested → nested = "/p/src/a" ∧ directory = "/p/src".
Proof.
  intros (es & entry & He & Hin & Hty & ->). unfold sample_tree in He. repeat case_bool_decide; try discriminate He; injection He as <-; subst;
    repeat (apply elem_of_cons in Hin as [[= ->]|Hin]; [cbn in Hty; try discriminate Hty; done|]); by apply elem_of_nil in Hin.
Qed.

Lemma target_sources_exact_witness :
  ∃ fuel, collect_syl_sources (H0 := numbered) sample_tree fuel "/p/src" = Some (Ok ["/p/src/a/z.syl"; "/p/src/a-b.syl"; "/p/src/main.syl"]) ∧
    ∀ path, path ∈ ["/p/src/a/z.syl"; "/p/src/a-b.syl"; "/p/src/main.syl"] ↔ below sample_tree "/p/src" path.
Proof.
  destruct (target_sources_exact (H := numbered) sample_tree "/p/src") as [enough Hs].
  - constructor. intros x [-> _]%sample_tree_nested. constructor. intros y [_ E]%sample_tree_nested. discriminate E.
  - assert (∀ n, collect_syl_sources (H0 := numbered) sample_tree (2 + n) "/p/src" = Some (Ok ["/p/src/a/z.syl"; "/p/src/a-b.syl"; "/p/src/main.syl"])) as E
      by (intros []; vm_compute; reflexivity).
    exists (2 + enough)%nat. split; [apply E|]. specialize (Hs (2 + enough)%nat ltac:(lia)). rewrite E in Hs. apply Hs.
Defined.

(** ** Tests *)

(** A test is judged as the interpreter judges it: if that returns a value for the
    test's function, the sandboxed run reports a pass exactly where the result is not
    a Bool or is true, or stops at its fuel or stack. *)
Theorem test_agrees_with_interpreter `{EngineLaws} `{SemVer} t m r steps limits :
  runnable within_limits (with_entry (dt_entry t) (dt_program t)) [] default_manifest m → dt_memory_bytes t ≠ 0 →
  execute steps (with_entry (dt_entry t) (dt_program t)) (dt_entry t) limits = Some (Done r) →
  match er_value r with RBool _ => dt_returns_bool t = true | _ => dt_returns_bool t = false end →
  let passed := match er_value r with RBool b => b | _ => true end in
  run_test (Ok tt) t = Ok {| tr_target := dt_target t; tr_name := dt_name t; tr_passed := passed |} ∨
  run_test (Ok tt) t = Err (TestTrapped (dt_name t) FuelExhausted) ∨
  run_test (Ok tt) t = Err (TestTrapped (dt_name t) (Execution "main" (Some (OtherTrap stack_exhausted)))).
Proof.
  intros Hr Hm Hx Hty.
  assert (∃ policy, policy_new 1000000 (dt_memory_bytes t) = Ok policy ∧ capabilities policy = ∅) as (policy & Hp & Hcap).
  { unfold policy_new. rewrite !bool_decide_eq_false_2 by done. by eexists. }
  destruct (sandboxed_returns _ _ _ _ _ _ _ _ policy (TestTrapped (dt_name t)) Hr eq_refl Hcap (empty_subseteq _) eq_refl Hx)
    as (v & artifact & Hval & Ha & Hanswer).
  unfold run_test, emit, emit_with_async_frames. rewrite Ha, Hp.
  cbn zeta in *. destruct Hanswer as [->|[->| ->]]; [left|by right; left|by right; right]. rewrite Hval in *.
  destruct v; cbn in Hty |- *; rewrite Hty; cbn; try done. by destruct b.
Qed.

(** ** Expectations *)

(** The [expect]s of the commands hold: a compilation without errors has a tree, symbols
    and, for a package, a linked program. *)
Theorem successful_compilations_have_programs `{SyntaxLaws} sha256 :
  (∀ file source c, compile file source = Some c → success c = true → is_Some (compiled_ast c) ∧ is_Some (compiled_symbols c)) ∧
  (∀ sources c, compile_package sha256 sources = Some c → package_success c = true → is_Some (pk_hir c)).
Proof.
  split.
  - intros file source c. unfold compile. destruct (check_syl file source) as [checked|] eqn:Ec; [|done].
    destruct (checked_ast checked) as [ast|] eqn:Ea.
    + destruct (if forallb _ _ then _ else _) as [[ran reported]|]; [|done]. by intros [= <-].
    + intros [= <-] Hs. unfold success in Hs. cbn in Hs. apply negb_true_iff in Hs.
      pose proof (check_syl_errors _ _ _ Ec Ea) as He. change (has_errors (map (phased parser_phase) (checked_diagnostics checked)) = false) in Hs.
      rewrite has_errors_phased in Hs. congruence.
  - intros sources c Hc Hs. pose proof (compile_package_answers sha256 sources) as Ha. rewrite Hc in Ha. destruct (pk_hir c); [by eexists|].
    unfold package_success in Hs. unfold has_errors in Ha. rewrite existsb_exists in Ha. destruct Ha as (x & Hin & Hx).
    rewrite forallb_forall in Hs. apply Hs in Hin. by rewrite Hx in Hin.
Qed.

(** ** Grants of the manifest *)

Section limits.
Context (network environment : list string) (memory : N).

(** Another set of grants. *)
Definition regrant (c : RawCapabilities) : RawCapabilities :=
  {| rw_profile := rw_profile c; rw_network := network; rw_environment := environment; rw_max_memory_bytes := memory |}.

Definition regrant_raw (raw : RawManifest) : RawManifest :=
  {| rm_package := rm_package raw; rm_targets := rm_targets raw; rm_dependencies := rm_dependencies raw; rm_capabilities := regrant (rm_capabilities raw) |}.

Definition regrant_manifest (m : Manifest) : Manifest :=
  {| mf_package := mf_package m; mf_targets := mf_targets m; mf_dependencies := mf_dependencies m;
     mf_capabilities := {| cp_profile := cp_profile (mf_capabilities m); cp_network := network; cp_environment := environment;
                           cp_max_memory_bytes := memory |} |}.

Definition regrant_project (p : Project) : Project :=
  {| pj_root := pj_root p; pj_manifest_path := pj_manifest_path p; pj_manifest := regrant_manifest (pj_manifest p) |}.

Definition map_ok {A B E} (f : A → B) (r : result A E) : result B E := match r with Ok x => Ok (f x) | Err e => Err e end.

Lemma validate_regrant file source raw : validate_manifest file source (regrant_raw raw) = map_ok regrant_manifest (validate_manifest file source raw).
Proof.
  unfold validate_manifest. cbn [regrant_raw rm_capabilities rm_targets rm_package rm_dependencies regrant rw_profile].
  destruct (validate_targets _ _ _ _ _) as [targets ds]. by destruct (_ ++ ds).
Qed.

Context (parse_toml : string → result RawManifest (string * option (nat * nat))) (failure_text : IoFailure → string)
  (canonicalize : string → result string IoFailure).

Abbreviation regranted := (λ s, map_ok regrant_raw (parse_toml s)).

Lemma find_project_regrant io d directories : find_project regranted failure_text io d directories =
  map_ok regrant_project <$> find_project parse_toml failure_text io d directories.
Proof.
  induction directories as [|directory directories IH]; cbn; [done|]. destruct (is_file d _); [|exact IH]. cbn. f_equal. unfold load_manifest.
  destruct (read_text io d _) as [source|]; [|done]. destruct (parse_toml source) as [raw|[message at_span]]; cbn; [|done].
  rewrite validate_regrant. by destruct (validate_manifest _ _ raw).
Qed.

Lemma discover_regrant io d start : discover regranted failure_text canonicalize io d start =
  map_ok regrant_project (discover parse_toml failure_text canonicalize io d start).
Proof. unfold discover. destruct (canonicalize start); [|done]. rewrite find_project_regrant. by destruct (find_project _ _ _ _ _) as [[]|]. Qed.
End limits.

(** What the manifest grants does not reach [syllog run]: with any other list of network
    endpoints and environment variables and any other memory limit in the manifest,
    it answers the same. *)
Theorem run_ignores_manifest_grants `{Syntax} `{RegistryCodec, !Countable Version} {LC : LockfileCodec} `{ArtifactCodec, Wasmtime}
    network environment limit parse_toml failure_text canonicalize message_text sha256 read_dir fuel io d sandbox path n memory :
  run (λ s, map_ok (regrant_raw network environment limit) (parse_toml s)) failure_text canonicalize message_text sha256 read_dir fuel io d sandbox path n memory =
  run parse_toml failure_text canonicalize message_text sha256 read_dir fuel io d sandbox path n memory.
Proof.
  assert (∀ path, compile_program (λ s, map_ok (regrant_raw network environment limit) (parse_toml s)) failure_text canonicalize message_text sha256 read_dir fuel io d path =
    compile_program parse_toml failure_text canonicalize message_text sha256 read_dir fuel io d path) as Hp; [|unfold run; by rewrite Hp].
  clear path. intros path. unfold compile_program, compile_package_program, project_source_paths. rewrite !discover_regrant.
  by destruct (discover parse_toml failure_text canonicalize io d path) as [project|e].
Qed.

(** [test] and [inspect] compile a target's file on its own: a target that imports from
    another file of its source tree is rejected by them, although the package they
    belong to compiles. *)
Theorem tests_see_one_file :
  let d : disk := {["/w/a.syl" := String.list_byte_of_string caller_source; "/w/b.syl" := String.list_byte_of_string callee_source]} in
  (∃ printed, target_hir (H := package_syntax) (H0 := numbered) plain_message no_faults d {| tg_name := "a"; tg_kind := BinTarget; tg_path := "/w/a.syl" |} =
     Some (Err (TargetRejected "a" printed))) ∧
  option_map package_success (compile_package (H := package_syntax) plain_hash two_sources) = Some true.
Proof. split; [eexists; vm_compute; reflexivity|vm_compute; reflexivity]. Qed.
