(* ===== verification/CommandLine.v ===== *)
(** * The command line (crates/syllog-cli/src)

    main.rs: from the arguments to a command.  commands/new.rs, add.rs, vendor.rs and
    publish.rs, on the files of Storage; toml_edit is the class [ManifestEditor].
    Errors are data. *)

From Stdlib Require Import Ascii.
From stdpp Require Import base gmap strings numbers pretty relations sorting list.
From S2P Require Import Prelude Text Ir Resolver ResolverTheorems Pest Parser Unparse.
From S2P Require Import Compile Package Registry Storage Transport Project Commands Build.
Open Scope string_scope.
Open Scope list_scope.
Open Scope N_scope.

(** ** Arguments *)

(** A command with its options. *)
Inductive Command :=
| CmdCheck (path : string) (format : DiagnosticFormat)
| CmdBuild (path target output : string)
| CmdRun (path : string) (fuel memory_bytes : N)
| CmdDev (json_events once : bool)
| CmdTest (json : bool)
| CmdInspect (subject : string) (json : bool)
| CmdSchema
| CmdNew (name template : string)
| CmdAdd (specification : string)
| CmdVendor
| CmdFetch (registry token : string)
| CmdPublishDry
| CmdPublish (registry nonce source_revision token : string) (seed : list N)
| CmdHelp.

Inductive UsageError :=
| Usage (command : string)
| UnexpectedArgument (command argument : string)
| MissingOption (command option : string)
| InvalidNumber (option text : string)
| UnknownSchema (name : string)
| MissingVariable (command variable : string)
| DryRunCombined
| SeedInvalid (e : SeedError)
| UnknownCommand (name : string).

Abbreviation parsed_command := (result Command UsageError).

(** [str::parse] of an unsigned number of at most [max]: a plus sign is allowed. *)
Definition parse_unsigned (max : N) (s : string) : option N :=
  let ds := match String.list_ascii_of_string s with
            | c :: l => if bool_decide (c = "+"%char) then l else c :: l
            | [] => []
            end in
  if bool_decide (ds = []) || negb (forallb is_digit ds) then None
  else let value := Z.to_N (digits_value 0 ds) in if bool_decide (value ≤ max) then Some value else None.

(** The last format given wins. *)
Fixpoint check_options (args : list string) (format : DiagnosticFormat) : result DiagnosticFormat UsageError :=
  match args with
  | [] => Ok format
  | a :: args =>
      if bool_decide (a = "--json") || bool_decide (a = "--diagnostic-format=json") then check_options args FormatJson
      else if bool_decide (a = "--diagnostic-format=human") then check_options args FormatHuman
      else Err (UnexpectedArgument "check" a)
  end.

Definition execute_check (args : list string) : parsed_command :=
  match args with
  | [] => Err (Usage "check")
  | path :: args => match check_options args FormatHuman with Ok format => Ok (CmdCheck path format) | Err e => Err e end
  end.

(** A missing value at the end unsets the option, as [args.next()] does. *)
Fixpoint build_options (args : list string) (target output : option string) : result (option string * option string) UsageError :=
  match args with
  | [] => Ok (target, output)
  | a :: args =>
      if bool_decide (a = "--target") then
        match args with [] => Ok (None, output) | value :: args => build_options args (Some value) output end
      else if bool_decide (a = "--output") || bool_decide (a = "-o") then
        match args with [] => Ok (target, None) | value :: args => build_options args target (Some value) end
      else Err (UnexpectedArgument "build" a)
  end.

Definition execute_build (args : list string) : parsed_command :=
  match args with
  | [] => Err (Usage "build")
  | path :: args =>
      match build_options args None None with
      | Err e => Err e
      | Ok (target, None) => Err (MissingOption "build" "--output")
      | Ok (target, Some output) => Ok (CmdBuild path (default "wasm32-syllog" target) output)
      end
  end.

Fixpoint run_options (args : list string) (fuel memory : N) : result (N * N) UsageError :=
  match args with
  | [] => Ok (fuel, memory)
  | a :: args =>
      if bool_decide (a = "--fuel") then
        match args with
        | [] => Err (MissingOption "run" "--fuel")
        | value :: args => match parse_unsigned u64_max value with Some n => run_options args n memory | None => Err (InvalidNumber "--fuel" value) end
        end
      else if bool_decide (a = "--memory-bytes") then
        match args with
        | [] => Err (MissingOption "run" "--memory-bytes")
        | value :: args => match parse_unsigned u64_max value with Some n => run_options args fuel n | None => Err (InvalidNumber "--memory-bytes" value) end
        end
      else Err (UnexpectedArgument "run" a)
  end.

Definition execute_run (args : list string) : parsed_command :=
  match args with
  | [] => Err (Usage "run")
  | path :: args => match run_options args 1000000 (64 * 1024 * 1024) with Ok (fuel, memory) => Ok (CmdRun path fuel memory) | Err e => Err e end
  end.

Fixpoint dev_options (args : list string) (json once : bool) : result (bool * bool) UsageError :=
  match args with
  | [] => Ok (json, once)
  | a :: args =>
      if bool_decide (a = "--json-events") then dev_options args true once
      else if bool_decide (a = "--once") then dev_options args json true
      else Err (UnexpectedArgument "dev" a)
  end.

Definition execute_dev (args : list string) : parsed_command :=
  match dev_options args false false with Ok (json, once) => Ok (CmdDev json once) | Err e => Err e end.

(** The loop of [test] and [inspect]. *)
Fixpoint json_option (command : string) (args : list string) (json : bool) : result bool UsageError :=
  match args with
  | [] => Ok json
  | a :: args => if bool_decide (a = "--json") then json_option command args true else Err (UnexpectedArgument command a)
  end.

Definition execute_test (args : list string) : parsed_command :=
  match json_option "test" args false with Ok json => Ok (CmdTest json) | Err e => Err e end.

Definition execute_inspect (args : list string) : parsed_command :=
  match args with
  | [] => Err (Usage "inspect")
  | subject :: args => match json_option "inspect" args false with Ok json => Ok (CmdInspect subject json) | Err e => Err e end
  end.

Definition execute_schema (args : list string) : parsed_command :=
  match args with
  | [] => Err (Usage "schema")
  | schema :: rest =>
      if bool_decide (schema ≠ "manifest") then Err (UnknownSchema schema)
      else match rest with [] => Ok CmdSchema | a :: _ => Err (UnexpectedArgument "schema" a) end
  end.

Fixpoint new_options (args : list string) (template : string) : result string UsageError :=
  match args with
  | [] => Ok template
  | a :: args =>
      if bool_decide (a = "--template") then
        match args with [] => Err (MissingOption "new" "--template") | value :: args => new_options args value end
      else Err (UnexpectedArgument "new" a)
  end.

Definition execute_new (args : list string) : parsed_command :=
  match args with
  | [] => Err (Usage "new")
  | name :: args => match new_options args "basic" with Ok template => Ok (CmdNew name template) | Err e => Err e end
  end.

Definition execute_add (args : list string) : parsed_command :=
  match args with
  | [] => Err (Usage "add")
  | [specification] => Ok (CmdAdd specification)
  | _ :: a :: _ => Err (UnexpectedArgument "add" a)
  end.

Definition execute_vendor (args : list string) : parsed_command :=
  match args with [] => Ok CmdVendor | a :: _ => Err (UnexpectedArgument "vendor" a) end.

Section environment.
(** [env::var] *)
Context (variable : string → option string).

Fixpoint fetch_options (args : list string) (registry : option string) : result (option string) UsageError :=
  match args with
  | [] => Ok registry
  | a :: args =>
      if bool_decide (a = "--registry") then
        match args with [] => Ok None | value :: args => fetch_options args (Some value) end
      else Err (UnexpectedArgument "fetch" a)
  end.

Definition execute_fetch (args : list string) : parsed_command :=
  match fetch_options args None with
  | Err e => Err e
  | Ok None => Err (MissingOption "fetch" "--registry")
  | Ok (Some registry) =>
      match variable "SYLLOG_REGISTRY_TOKEN" with
      | None => Err (MissingVariable "fetch" "SYLLOG_REGISTRY_TOKEN")
      | Some token => Ok (CmdFetch registry token)
      end
  end.

Record PublishOptions := { po_dry_run : bool; po_registry : option string; po_nonce : option string; po_source_revision : option string }.

Definition publish_option (a : string) (value : option string) (o : PublishOptions) : option PublishOptions :=
  if bool_decide (a = "--registry") then
    Some {| po_dry_run := po_dry_run o; po_registry := value; po_nonce := po_nonce o; po_source_revision := po_source_revision o |}
  else if bool_decide (a = "--nonce") then
    Some {| po_dry_run := po_dry_run o; po_registry := po_registry o; po_nonce := value; po_source_revision := po_source_revision o |}
  else if bool_decide (a = "--source-revision") then
    Some {| po_dry_run := po_dry_run o; po_registry := po_registry o; po_nonce := po_nonce o; po_source_revision := value |}
  else None.

Fixpoint publish_options (args : list string) (o : PublishOptions) : result PublishOptions UsageError :=
  match args with
  | [] => Ok o
  | a :: args =>
      if bool_decide (a = "--dry-run") then
        publish_options args {| po_dry_run := true; po_registry := po_registry o; po_nonce := po_nonce o; po_source_revision := po_source_revision o |}
      else match args with
      | [] => match publish_option a None o with Some o => Ok o | None => Err (UnexpectedArgument "publish" a) end
      | value :: args =>
          match publish_option a (Some value) o with Some o => publish_options args o | None => Err (UnexpectedArgument "publish" a) end
      end
  end.

Definition execute_publish (args : list string) : parsed_command :=
  match publish_options args {| po_dry_run := false; po_registry := None; po_nonce := None; po_source_revision := None |} with
  | Err e => Err e
  | Ok o =>
      if po_dry_run o then
        match po_registry o, po_nonce o, po_source_revision o with None, None, None => Ok CmdPublishDry | _, _, _ => Err DryRunCombined end
      else match po_registry o, po_nonce o, po_source_revision o with
      | None, _, _ => Err (MissingOption "publish" "--registry")
      | Some _, None, _ => Err (MissingOption "publish" "--nonce")
      | Some _, Some _, None => Err (MissingOption "publish" "--source-revision")
      | Some registry, Some nonce, Some revision =>
          match variable "SYLLOG_REGISTRY_TOKEN", variable "SYLLOG_PUBLISHER_SEED_HEX" with
          | None, _ => Err (MissingVariable "publish" "SYLLOG_REGISTRY_TOKEN")
          | Some _, None => Err (MissingVariable "publish" "SYLLOG_PUBLISHER_SEED_HEX")
          | Some token, Some text =>
              match parse_seed text with
              | Err e => Err (SeedInvalid e)
              | Ok seed => Ok (CmdPublish registry nonce revision token seed)
              end
          end
      end
  end.

(** [execute], up to the command it calls. *)
Definition parse_command (args : list string) : parsed_command :=
  match args with
  | [] => Ok CmdHelp
  | command :: args =>
      if bool_decide (command = "check") then execute_check args
      else if bool_decide (command = "build") then execute_build args
      else if bool_decide (command = "run") then execute_run args
      else if bool_decide (command = "dev") then execute_dev args
      else if bool_decide (command = "test") then execute_test args
      else if bool_decide (command = "inspect") then execute_inspect args
      else if bool_decide (command = "schema") then execute_schema args
      else if bool_decide (command = "new") then execute_new args
      else if bool_decide (command = "add") then execute_add args
      else if bool_decide (command = "vendor") then execute_vendor args
      else if bool_decide (command = "fetch") then execute_fetch args
      else if bool_decide (command = "publish") then execute_publish args
      else if bool_decide (command = "help") || bool_decide (command = "--help") || bool_decide (command = "-h") then Ok CmdHelp
      else Err (UnknownCommand command)
  end.
End environment.

(** *** The arguments of a command *)

(** Twenty digits hold every [u64]. *)
Definition number_text (n : N) : string := String.string_of_list_ascii (decimal_digits 20 (Z.of_N n) []).

Definition flag_text (b : bool) (text : string) : list string := if b then [text] else [].

(** The arguments the help describes. *)
Definition command_arguments (c : Command) : list string :=
  match c with
  | CmdCheck path format => ["check"; path] ++ match format with FormatHuman => [] | FormatJson => ["--json"] end
  | CmdBuild path target output => ["build"; path; "--target"; target; "--output"; output]
  | CmdRun path fuel memory => ["run"; path; "--fuel"; number_text fuel; "--memory-bytes"; number_text memory]
  | CmdDev json once => ["dev"] ++ flag_text json "--json-events" ++ flag_text once "--once"
  | CmdTest json => ["test"] ++ flag_text json "--json"
  | CmdInspect subject json => ["inspect"; subject] ++ flag_text json "--json"
  | CmdSchema => ["schema"; "manifest"]
  | CmdNew name template => ["new"; name; "--template"; template]
  | CmdAdd specification => ["add"; specification]
  | CmdVendor => ["vendor"]
  | CmdFetch registry _ => ["fetch"; "--registry"; registry]
  | CmdPublishDry => ["publish"; "--dry-run"]
  | CmdPublish registry nonce revision _ _ => ["publish"; "--registry"; registry; "--nonce"; nonce; "--source-revision"; revision]
  | CmdHelp => ["help"]
  end.

(** The numbers fit and the variables hold what the command has from them. *)
Definition expressible (variable : string → option string) (c : Command) : Prop :=
  match c with
  | CmdRun _ fuel memory => fuel ≤ u64_max ∧ memory ≤ u64_max
  | CmdFetch _ token => variable "SYLLOG_REGISTRY_TOKEN" = Some token
  | CmdPublish _ _ _ token seed => variable "SYLLOG_REGISTRY_TOKEN" = Some token ∧
      ∃ text, variable "SYLLOG_PUBLISHER_SEED_HEX" = Some text ∧ parse_seed text = Ok seed
  | _ => True
  end.

Lemma parse_number_text n : n ≤ u64_max → parse_unsigned u64_max (number_text n) = Some n.
Proof.
  intros Hn. unfold parse_unsigned, number_text. rewrite String.list_ascii_of_string_of_list_ascii.
  pose proof (decimal_digits_value 20 (Z.of_N n) [] ltac:(unfold u64_max in Hn; change (10 ^ Z.of_nat 20)%Z with 100000000000000000000%Z; lia)) as Hv.
  pose proof (decimal_digits_ok 20 (Z.of_N n) [] ltac:(lia) eq_refl) as Hd. pose proof (decimal_digits_nonempty 19 (Z.of_N n) []) as Hne.
  destruct (decimal_digits 20 (Z.of_N n) []) as [|c l]; [done|].
  assert (c ≠ "+"%char) as Hc by (intros ->; done). rewrite (bool_decide_eq_false_2 (c = _)) by done.
  rewrite bool_decide_eq_false_2, Hd by done. cbn [orb negb]. rewrite Hv. cbn [digits_value]. rewrite N2Z.id. by rewrite bool_decide_eq_true_2.
Qed.

(** Every command can be asked for: the arguments the help describes are parsed to
    that command with those options, and defaults and flags do not get in the way. *)
Theorem arguments_parse_back variable c : expressible variable c → parse_command variable (command_arguments c) = Ok c.
Proof.
  destruct c; cbn [expressible].
  - intros _. by destruct format.
  - done.
  - intros [Hf Hm]. cbn -[parse_unsigned number_text]. by rewrite !parse_number_text.
  - intros _. by destruct json_events, once.
  - intros _. by destruct json.
  - intros _. by destruct json.
  - done.
  - done.
  - done.
  - done.
  - intros Ht. cbv. by rewrite Ht.
  - done.
  - intros (Ht & text & Hs & Hp). cbv -[parse_seed]. by rewrite Ht, Hs, Hp.
  - done.
Qed.

Lemma arguments_parse_back_witness :
  parse_command (λ _, None) ["run"; "main.syl"; "--fuel"; "18446744073709551615"; "--memory-bytes"; "65536"] = Ok (CmdRun "main.syl" u64_max 65536).
Proof. apply (arguments_parse_back (λ _, None) (CmdRun "main.syl" u64_max 65536)). split; [apply N.le_refl|discriminate]. Defined.

(** An option takes the next argument whatever it is, and a last one without a value
    unsets what was given before. *)
Example option_values :
  parse_command (λ _, None) ["publish"; "--registry"; "--dry-run"] = Err (MissingOption "publish" "--nonce") ∧
  parse_command (λ _, None) ["build"; "a.syl"; "-o"; "a.wasm"; "--output"] = Err (MissingOption "build" "--output") ∧
  parse_command (λ _, None) ["run"; "a.syl"; "--fuel"; "18446744073709551616"] = Err (InvalidNumber "--fuel" "18446744073709551616").
Proof. vm_compute. done. Qed.

(** ** [syllog new] *)

(** [str::replace] *)
Fixpoint replace_text (fuel : nat) (from to s : string) : string :=
  match fuel, s with
  | O, _ | _, EmptyString => s
  | S fuel, String c rest =>
      match strip_prefix from s with
      | Some after => to +:+ replace_text fuel from to after
      | None => String c (replace_text fuel from to rest)
      end
  end.

(** A step per byte is enough: the text replaced is not empty. *)
Definition replace (from to s : string) : string := replace_text (String.length s) from to s.

Definition carriage_return_text : string := String carriage_return "".

Definition canonical_template_text (text : string) : string :=
  replace carriage_return_text new_line (replace (carriage_return_text +:+ new_line) new_line text).

Record Template := { tp_name : string; tp_version : N; tp_manifest : string; tp_source : string }.

Definition in_double_quotes (s : string) : string := String "034"%char (s +:+ String "034"%char "").

Definition lines_text (lines : list string) : string := join "" (map (λ l, l +:+ new_line) lines).

(** The templates differ in their capabilities. *)
Definition template_manifest (profile memory : string) : string :=
  lines_text ["[package]"; "name = " +:+ in_double_quotes "{{name}}"; "version = " +:+ in_double_quotes "0.1.0"; "edition = " +:+ in_double_quotes "2026"; "";
    "[[targets]]"; "name = " +:+ in_double_quotes "{{name}}"; "kind = " +:+ in_double_quotes "bin"; "path = " +:+ in_double_quotes "src/main.syl"; "";
    "[capabilities]"; "profile = " +:+ in_double_quotes profile; "network = []"; "environment = []"; "max_memory_bytes = " +:+ memory].

Definition template_source : string :=
  lines_text ["#[test]"; "fn scaffold_smoke() -> Bool {"; "    true"; "}"; ""; "fn main() -> I64 {"; "    0"; "}"].

Definition template (name : string) : option Template :=
  if bool_decide (name = "basic") then
    Some {| tp_name := "basic"; tp_version := 1; tp_manifest := template_manifest "none" "65536"; tp_source := template_source |}
  else if bool_decide (name = "agent") then
    Some {| tp_name := "agent"; tp_version := 1; tp_manifest := template_manifest "agent" "67108864"; tp_source := template_source |}
  else if bool_decide (name = "native") then
    Some {| tp_name := "native"; tp_version := 1; tp_manifest := template_manifest "native" "67108864"; tp_source := template_source |}
  else None.

(** [validate_package_name] of new.rs: the start, the rest, the end and double hyphens. *)
Definition scaffold_name (name : string) : bool :=
  let valid_start := match name with EmptyString => false | String c _ => is_ascii_lowercase c end in
  let valid_rest := match name with EmptyString => true | String _ rest => all_characters name_character rest end in
  negb (negb valid_start || negb valid_rest || ends_with "-"%char name || contains "--" name).

(** [validate_name] of add.rs *)
Definition dependency_name (name : string) : bool :=
  match name with EmptyString => false | String c _ => is_ascii_lowercase c end &&
  match name with EmptyString => true | String _ rest => all_characters name_character rest end &&
  negb (ends_with "-"%char name) && negb (contains "--" name).

Inductive NewError :=
| NewInvalidName (name : string)
| NewUnknownTemplate (name : string)
| NewExists (destination : string)
| NewStaging (e : IoFailure)
| NewUnwritable (file : string) (e : IoFailure)
| NewUnpublished (destination : string) (e : IoFailure).

(** [Path::exists] *)
Definition path_exists (d : disk) (path : string) : bool := is_file d path || is_dir d path.

(** The files of a new project, below its directory. *)
Definition scaffold (t : Template) (name : string) : gmap string bytes :=
  {["Syllog.toml" := String.list_byte_of_string (canonical_template_text (replace "{{name}}" name (tp_manifest t)));
    "src/main.syl" := String.list_byte_of_string (canonical_template_text (tp_source t));
    ".syllog-template-version" := String.list_byte_of_string (tp_name t +:+ "@" +:+ pretty (tp_version t) +:+ new_line)]}.

(** The tree below a directory moved to its place. *)
Definition below_directory (directory : string) (files : gmap string bytes) : disk := kmap (λ relative, directory +:+ "/" +:+ relative) files.

(** [new::execute]: files are staged in a temporary directory, which is removed when a
    step fails, and published by one rename, after which it is kept. *)
Definition new_project (io : faults) (staging : string) (parent name template_name : string) (d : disk) : disk * result unit NewError :=
  if negb (scaffold_name name) then (d, Err (NewInvalidName name))
  else match template template_name with
  | None => (d, Err (NewUnknownTemplate template_name))
  | Some t =>
      let destination := join_path parent name in
      if path_exists d destination then (d, Err (NewExists destination))
      else match io (IoTemporary parent) with
      | Some e => (d, Err (NewStaging e))
      | None =>
          match io (IoCreateDirectory "src"), io (IoWrite "Syllog.toml" 0), io (IoWrite "src/main.syl" 0), io (IoWrite ".syllog-template-version" 0) with
          | Some e, _, _, _ => (d, Err (NewUnwritable "src" e))
          | None, Some e, _, _ => (d, Err (NewUnwritable "Syllog.toml" e))
          | None, None, Some e, _ => (d, Err (NewUnwritable "src/main.syl" e))
          | None, None, None, Some e => (d, Err (NewUnwritable ".syllog-template-version" e))
          | None, None, None, None =>
              match io (IoRename destination) with
              | Some e => (below_directory (join_path parent staging) (scaffold t name) ∪ d, Err (NewUnpublished destination e))
              | None => (below_directory destination (scaffold t name) ∪ d, Ok tt)
              end
          end
      end
  end.

Lemma strip_prefix_app prefix : ∀ s rest, strip_prefix prefix s = Some rest → s = prefix +:+ rest.
Proof.
  induction prefix as [|c prefix IH]; intros [|x s] rest; cbn; [by intros [= <-]..|done|]. case_bool_decide as E; [|done].
  subst. intros H%IH. cbn. by subst.
Qed.

Lemma replace_text_more from to : from ≠ "" → ∀ n m s, (String.length s ≤ n)%nat → (String.length s ≤ m)%nat →
  replace_text n from to s = replace_text m from to s.
Proof.
  intros Hne. induction n as [|n IH]; intros [|m] [|c s] Hn Hm; cbn [String.length] in *; try lia; cbn [replace_text]; [done..|].
  destruct (strip_prefix from (String c s)) as [after|] eqn:E; [|f_equal; apply IH; lia]. f_equal. apply strip_prefix_app in E.
  apply (f_equal String.length) in E. rewrite string_length_app in E. cbn in E. destruct from as [|x from]; [done|]. cbn in E. apply IH; lia.
Qed.

Lemma replace_cons from to c s : from ≠ "" → replace from to (String c s) =
  match strip_prefix from (String c s) with Some after => to +:+ replace from to after | None => String c (replace from to s) end.
Proof.
  intros Hne. unfold replace at 1. cbn [String.length replace_text].
  destruct (strip_prefix from (String c s)) as [after|] eqn:E; [|done]. f_equal. apply strip_prefix_app in E.
  apply (f_equal String.length) in E. rewrite string_length_app in E. cbn in E. destruct from as [|x from]; [done|]. cbn in E.
  apply replace_text_more; [done|lia..].
Qed.

(** Every line ends with one line feed, whether it ended with that, a carriage return
    or both. *)
Fixpoint universal_lines (s : string) : string :=
  match s with
  | EmptyString => ""
  | String c rest =>
      if bool_decide (c = carriage_return) then
        String line_feed (match rest with
                          | String x after => if bool_decide (x = line_feed) then universal_lines after else universal_lines rest
                          | EmptyString => ""
                          end)
      else String c (universal_lines rest)
  end.

Lemma strip_same c prefix s : strip_prefix (String c prefix) (String c s) = strip_prefix prefix s.
Proof. cbn. by rewrite bool_decide_eq_true_2. Qed.

Lemma strip_other c x prefix s : c ≠ x → strip_prefix (String c prefix) (String x s) = None.
Proof. intros Hx. cbn. by rewrite bool_decide_eq_false_2. Qed.

Abbreviation line_break := (String carriage_return (String line_feed "")).

Lemma canonical_text s : canonical_template_text s = universal_lines s.
Proof.
  unfold canonical_template_text. change (carriage_return_text +:+ new_line) with line_break.
  change new_line with (String line_feed ""). change carriage_return_text with (String carriage_return "").
  remember (String.length s) as n eqn:En. assert (String.length s ≤ n)%nat as Hn by lia. clear En.
  revert s Hn. induction n as [|n IH]; intros [|c s] Hn; cbn [String.length] in Hn; try lia; [done..|].
  rewrite (replace_cons line_break) by done. cbn [universal_lines]. destruct (decide (c = carriage_return)) as [->|Hc].
  - rewrite bool_decide_eq_true_2, strip_same by done. destruct s as [|x s]; [by vm_compute|]. destruct (decide (x = line_feed)) as [->|Hx].
    + rewrite strip_same, bool_decide_eq_true_2 by done. cbn [strip_prefix].
      change (String line_feed "" +:+ ?t) with (String line_feed t). rewrite replace_cons, strip_other by done. f_equal. apply IH. cbn in Hn. lia.
    + rewrite strip_other, bool_decide_eq_false_2 by done. rewrite replace_cons, strip_same by done. cbn [strip_prefix].
      change (String line_feed "" +:+ ?t) with (String line_feed t). f_equal. apply IH. cbn [String.length] in *. lia.
  - rewrite bool_decide_eq_false_2, strip_other by done. rewrite replace_cons, strip_other by done. f_equal. apply IH. lia.
Qed.

(** A text whose lines end with [e]. *)
Fixpoint line_ends (e s : string) : string :=
  match s with
  | EmptyString => ""
  | String c s => if bool_decide (c = line_feed) then e +:+ line_ends e s else String c (line_ends e s)
  end.

(** A scaffold does not depend on how a checkout rewrote the line ends of the templates. *)
Theorem scaffold_text_canonical s : all_characters (λ c, negb (bool_decide (c = carriage_return))) s = true →
  canonical_template_text (line_ends line_break s) = s ∧ canonical_template_text (line_ends carriage_return_text s) = s ∧ canonical_template_text s = s.
Proof.
  rewrite !canonical_text. induction s as [|c s IH]; [done|]. cbn [all_characters line_ends].
  intros [Hc%negb_true_iff%bool_decide_eq_false H]%andb_prop. destruct (IH H) as (IH1 & IH2 & IH3). clear IH.
  assert (∀ t, universal_lines (String c t) = String c (universal_lines t)) as Hother by (intros t; cbn [universal_lines]; by rewrite bool_decide_eq_false_2).
  destruct (decide (c = line_feed)) as [->|Hl].
  - rewrite bool_decide_eq_true_2 by done. rewrite Hother, IH3. split_and!; [|..|done].
    + change (line_break +:+ ?t) with (String carriage_return (String line_feed t)). cbn [universal_lines]. rewrite !bool_decide_eq_true_2 by done. by rewrite IH1.
    + change (carriage_return_text +:+ ?t) with (String carriage_return t). cbn [universal_lines]. rewrite bool_decide_eq_true_2 by done. f_equal.
      revert IH2. destruct s as [|x s]; [done|]. cbn [line_ends]. case_bool_decide as E; [done|]. by rewrite bool_decide_eq_false_2 by done.
  - rewrite bool_decide_eq_false_2 by done. by rewrite !Hother, IH1, IH2, IH3.
Qed.

(** [new], [add], the registry and its client accept the same package names. *)
Theorem package_names_agree name : scaffold_name name = valid_package_name name ∧ dependency_name name = valid_package_name name.
Proof.
  unfold scaffold_name, dependency_name, valid_package_name. destruct name as [|c rest]; [done|].
  destruct (is_ascii_lowercase c), (all_characters name_character rest), (ends_with _ _), (contains _ _); done.
Qed.

Lemma starts_with_below directory relative : starts_with (directory +:+ "/") (directory +:+ "/" +:+ relative) = true.
Proof.
  induction directory as [|c directory IH]; [by destruct relative|].
  change (bool_decide (c = c) && starts_with (directory +:+ "/") (directory +:+ "/" +:+ relative) = true). by rewrite bool_decide_eq_true_2, IH.
Qed.

#[export] Instance below_inj directory : Inj (=) (=) (λ relative, directory +:+ "/" +:+ relative).
Proof. intros a b E. apply app_string_inj_l in E. by apply (app_string_inj_l "/") in E. Qed.

Lemma below_directory_lookup directory files relative :
  below_directory directory files !! (directory +:+ "/" +:+ relative) = files !! relative.
Proof. unfold below_directory. apply (lookup_kmap (λ relative, directory +:+ "/" +:+ relative)). Qed.

(** A project is created where nothing was, with exactly the files of its template;
    no other file changes, and an error before the last rename changes nothing. *)
Theorem new_project_outcome io staging parent name template_name d :
  match new_project io staging parent name template_name d with
  | (d', Ok _) => ∃ t, template template_name = Some t ∧ valid_package_name name = true ∧ path_exists d (join_path parent name) = false ∧
      (∀ relative, d' !! (join_path parent name +:+ "/" +:+ relative) = scaffold t name !! relative) ∧
      ∀ path, (∀ relative, path ≠ join_path parent name +:+ "/" +:+ relative) → d' !! path = d !! path
  | (d', Err (NewUnpublished _ _)) => ∀ path, (∀ relative, path ≠ join_path parent staging +:+ "/" +:+ relative) → d' !! path = d !! path
  | (d', Err _) => d' = d
  end.
Proof.
  assert (∀ directory files path, (∀ relative, path ≠ directory +:+ "/" +:+ relative) → (below_directory directory files ∪ d) !! path = d !! path) as Hframe.
  { intros directory files path Hp. apply lookup_union_r. unfold below_directory. apply lookup_kmap_None; [apply _|]. intros i ->. by destruct (Hp i). }
  unfold new_project. rewrite (proj1 (package_names_agree name)). destruct (valid_package_name name) eqn:Hname; [|done]. cbn [negb].
  destruct (template template_name) as [t|]; [|done]. destruct (path_exists d (join_path parent name)) eqn:Hex; [done|].
  destruct (io (IoTemporary parent)); [done|]. repeat (destruct (io _); [by try apply Hframe|]). exists t. split_and!; try done; [|by apply Hframe].
  intros relative. destruct (scaffold t name !! relative) as [content|] eqn:E.
  - apply lookup_union_Some_l. by rewrite below_directory_lookup.
  - rewrite lookup_union_r by (by rewrite below_directory_lookup). apply eq_None_not_Some. intros [content Hd].
    unfold path_exists in Hex. apply orb_false_iff in Hex as [_ Hdir]. unfold is_dir in Hdir.
    assert (existsb (λ '(k, _), starts_with (join_path parent name +:+ "/") k) (map_to_list d) = true) as Hd'; [|congruence].
    apply existsb_exists. exists (join_path parent name +:+ "/" +:+ relative, content). split; [by apply list_elem_of_In, elem_of_map_to_list|].
    apply starts_with_below.
Qed.

(** ** [syllog add] *)

(** [rsplit_once('@')] with both parts not empty. *)
Definition split_specification (s : string) : option (string * string) :=
  let parts := split_on "@"%char s in
  match last parts with
  | Some requirement =>
      let name := join "@" (removelast parts) in
      if bool_decide (1 < length parts)%nat && negb (bool_decide (name = "")) && negb (bool_decide (requirement = "")) then Some (name, requirement) else None
  | None => None
  end.

Example specifications : map split_specification ["text@1.2"; "a@b@c"; "text"; "@1"; "text@"] = [Some ("text", "1.2"); Some ("a@b", "c"); None; None; None].
Proof. vm_compute. done. Qed.

(** toml_edit: documents that keep the text they were read from. *)
Class ManifestEditor := {
  Document : Type;
  parse_document : string → result Document string;
  has_dependencies : Document → bool;
  (** [document["dependencies"] = Table::new()] *)
  insert_table : Document → Document;
  (** [as_table_mut] succeeds *)
  dependencies_are_table : Document → bool;
  (** [dependencies[name] = value(requirement)], not implicit *)
  set_dependency : string → string → Document → Document;
  document_text : Document → string
}.

Inductive AddError :=
| AddSyntax
| AddInvalidName (name : string)
| AddRequirement (reason : string)
| AddProject (e : ProjectError)
| AddUnreadable (e : IoFailure)
| AddUneditable (reason : string)
| AddNotTable
| AddUnwritable (e : IoFailure).

Section add.
Context `{SemVer, ManifestEditor}.
Context (parse_toml : string → result RawManifest (string * option (nat * nat))) (failure_text : IoFailure → string)
  (canonicalize : string → result string IoFailure).

Definition edit_manifest (source name requirement : string) : result string AddError :=
  match parse_document source with
  | Err reason => Err (AddUneditable reason)
  | Ok document =>
      let document := if has_dependencies document then document else insert_table document in
      if dependencies_are_table document then Ok (document_text (set_dependency name requirement document)) else Err AddNotTable
  end.

Definition add (io : faults) (start specification : string) (d : disk) : disk * result unit AddError :=
  match split_specification specification with
  | None => (d, Err AddSyntax)
  | Some (name, requirement) =>
      if negb (dependency_name name) then (d, Err (AddInvalidName name))
      else match parse_requirement requirement with
      | Err reason => (d, Err (AddRequirement reason))
      | Ok _ =>
          match discover parse_toml failure_text canonicalize io d start with
          | Err e => (d, Err (AddProject e))
          | Ok project =>
              let path := pj_manifest_path project in
              match read_text io d path with
              | Err e => (d, Err (AddUnreadable e))
              | Ok source =>
                  match edit_manifest source name requirement with
                  | Err e => (d, Err e)
                  | Ok text =>
                      match io (IoTemporary path), io (IoWrite path 0), io (IoSync path), io (IoRename path) with
                      | Some e, _, _, _ | None, Some e, _, _ | None, None, Some e, _ | None, None, None, Some e => (d, Err (AddUnwritable e))
                      | None, None, None, None => (<[path := String.list_byte_of_string text]> d, Ok tt)
                      end
                  end
              end
          end
      end
  end.

(** The values of a manifest, without their places. *)
Definition raw_values (r : RawManifest) :=
  (rm_package r, map (λ t, (into_inner (rt_name t), rt_kind t, into_inner (rt_path t))) (rm_targets r), into_inner (rw_profile (rm_capabilities r)),
   rw_network (rm_capabilities r), rw_environment (rm_capabilities r), rw_max_memory_bytes (rm_capabilities r)).

(** Editing a dependency changes that dependency only, as the toml crate reads it. *)
Definition edits_faithfully : Prop := ∀ source name requirement text raw,
  edit_manifest source name requirement = Ok text → parse_toml source = Ok raw →
  from_utf8 (String.list_byte_of_string text) = Some text ∧ ∃ raw', parse_toml text = Ok raw' ∧ raw_values raw' = raw_values raw ∧
    rm_dependencies raw' = <[name := requirement]> (rm_dependencies raw).

Lemma validate_targets_values file source root file' source' ts : ∀ ts' names,
  map (λ t, (into_inner (rt_name t), rt_kind t, into_inner (rt_path t))) ts' = map (λ t, (into_inner (rt_name t), rt_kind t, into_inner (rt_path t))) ts →
  (validate_targets file' source' root ts' names).1 = (validate_targets file source root ts names).1 ∧
  ((validate_targets file source root ts names).2 = [] → (validate_targets file' source' root ts' names).2 = []).
Proof.
  induction ts as [|t ts IH]; intros [|t' ts'] names E; try discriminate E; [done|]. injection E as En Ek Ep E. cbn [validate_targets].
  rewrite En, Ek, Ep. destruct (IH ts' ({[into_inner (rt_name t)]} ∪ names) E) as [H1 H2].
  destruct (validate_targets file' source' root ts' _) as [rest' ds'], (validate_targets file source root ts _) as [rest ds]. cbn in H1, H2. subst rest'.
  case_bool_decide; [split; [by destruct (normalize_inside _ _)|]; by destruct (normalize_inside _ _)|].
  destruct (normalize_inside _ _); cbn; [done|]. done.
Qed.

Definition raw_with_dependency (name requirement : string) (m : Manifest) : Manifest :=
  {| mf_package := mf_package m; mf_targets := mf_targets m; mf_dependencies := <[name := {| dp_requirement := requirement |}]> (mf_dependencies m);
     mf_capabilities := mf_capabilities m |}.

Lemma validate_edited file source source' raw raw' name requirement m :
  validate_manifest file source raw = Ok m → raw_values raw' = raw_values raw → rm_dependencies raw' = <[name := requirement]> (rm_dependencies raw) →
  validate_manifest file source' raw' = Ok (raw_with_dependency name requirement m).
Proof.
  unfold validate_manifest. intros Hm E Ed. injection E as Epk Et Epr En Ee Emem. rewrite Epr.
  destruct (validate_targets_values file source (manifest_root file) file source' (rm_targets raw) (rm_targets raw') ∅ Et) as [H1 H2].
  destruct (validate_targets file source' _ (rm_targets raw') ∅) as [ts' ds'], (validate_targets file source _ (rm_targets raw) ∅) as [ts ds]. cbn in H1, H2. subst ts'.
  destruct (known_profile _); [|done]. cbn [app] in *. destruct ds; [|done]. rewrite H2 by done. injection Hm as <-.
  unfold raw_with_dependency. cbn. rewrite Epk, Ed, En, Ee, Emem, fmap_insert. done.
Qed.

Lemma is_file_insert (d : disk) path content x : is_file d path = true → is_file (<[path := content]> d) x = is_file d x.
Proof.
  unfold is_file. intros Hp%bool_decide_eq_true. apply bool_decide_ext. destruct (decide (x = path)) as [->|Hx]; [by rewrite lookup_insert_eq|].
  by rewrite lookup_insert_ne.
Qed.

Lemma find_project_edited d path text raw directories project source :
  find_project parse_toml failure_text no_faults d directories = Some (Ok project) → path = pj_manifest_path project →
  read_text no_faults d path = Ok source → parse_toml source = Ok raw → from_utf8 (String.list_byte_of_string text) = Some text →
  ∀ raw' name requirement, parse_toml text = Ok raw' → raw_values raw' = raw_values raw → rm_dependencies raw' = <[name := requirement]> (rm_dependencies raw) →
  find_project parse_toml failure_text no_faults (<[path := String.list_byte_of_string text]> d) directories =
    Some (Ok {| pj_root := pj_root project; pj_manifest_path := pj_manifest_path project; pj_manifest := raw_with_dependency name requirement (pj_manifest project) |}).
Proof.
  intros Hf -> Hs Hraw Hutf raw' name requirement Hraw' Hv Hd. induction directories as [|directory directories IH]; [done|].
  cbn [find_project] in Hf |- *.
  assert (is_file d (pj_manifest_path project) = true) as Hfile.
  { unfold is_file, read_text, read_file in *. cbn in Hs. destruct (d !! pj_manifest_path project); [done|]. discriminate Hs. }
  rewrite is_file_insert by done. destruct (is_file d (join_path directory "Syllog.toml")) eqn:Edir; [|by apply IH].
  destruct (load_manifest _ _ _ _ _) as [m|] eqn:El; [|done]. injection Hf as <-. cbn [pj_manifest_path pj_root pj_manifest] in *.
  unfold load_manifest in *. rewrite Hs, Hraw in El. unfold read_text, read_file. cbn. rewrite lookup_insert_eq, Hutf, Hraw'.
  by rewrite (validate_edited _ _ text _ _ name requirement _ El Hv Hd).
Qed.

(** A dependency that was added is there the next time the project is read, with its
    requirement, and nothing else of the manifest has changed. *)
Theorem added_dependency_is_read start specification d d' project :
  edits_faithfully → discover parse_toml failure_text canonicalize no_faults d start = Ok project →
  add no_faults start specification d = (d', Ok tt) →
  ∃ name requirement, split_specification specification = Some (name, requirement) ∧ valid_package_name name = true ∧
    discover parse_toml failure_text canonicalize no_faults d' start =
      Ok {| pj_root := pj_root project; pj_manifest_path := pj_manifest_path project; pj_manifest := raw_with_dependency name requirement (pj_manifest project) |}.
Proof.
  intros Hlaw Hp. unfold add. destruct (split_specification specification) as [[name requirement]|]; [|done].
  rewrite (proj2 (package_names_agree name)). destruct (valid_package_name name) eqn:Hname; [|done]. cbn [negb].
  destruct (parse_requirement requirement); [|done]. rewrite Hp. destruct (read_text no_faults d _) as [source|] eqn:Hs; [|done].
  destruct (edit_manifest source name requirement) as [text|] eqn:He; [|done]. cbn. intros [= <-]. exists name, requirement. split_and!; [done..|].
  unfold discover in Hp |- *. destruct (canonicalize start) as [resolved|]; [|done].
  destruct (find_project _ _ _ d _) as [[found|]|] eqn:Ef; [|done..]. injection Hp as ->.
  assert (is_file d (pj_manifest_path project) = true) as Hfile.
  { unfold is_file, read_text, read_file in *. cbn in Hs. destruct (d !! pj_manifest_path project); [done|]. discriminate Hs. }
  assert (∃ raw, parse_toml source = Ok raw) as [raw Hraw].
  { revert Ef. generalize (ancestors (containing_directory d resolved)). induction l as [|directory l IH]; [done|]. cbn. destruct (is_file d (join_path directory "Syllog.toml")); [|exact IH].
    destruct (load_manifest _ _ _ _ _) eqn:El; [|done]. intros [= <-]. cbn in Hs. unfold load_manifest in El. rewrite Hs in El.
    destruct (parse_toml source) as [raw|[]]; [by exists raw|done]. }
  destruct (Hlaw source name requirement text raw He Hraw) as (Hutf & raw' & Hraw' & Hv & Hd).
  assert (containing_directory (<[pj_manifest_path project := String.list_byte_of_string text]> d) resolved = containing_directory d resolved) as ->.
  { unfold containing_directory. by rewrite is_file_insert. }
  by rewrite (find_project_edited d _ text raw _ project source Ef eq_refl Hs Hraw Hutf raw' name requirement Hraw' Hv Hd).
Qed.
End add.

(** ** [syllog vendor] *)

(** The file a path names. *)
Definition normal_path (path : string) : string := render_components (components path).

Section vendor.
Context `{RegistryCodec, !Countable Version} {LC : LockfileCodec}.

Inductive VendorError :=
| VendorLock (e : PackageError)
| VendorExists
| VendorStaging (e : IoFailure)
| VendorPackage (e : PackageError)
| VendorIdentity (name : string)
| VendorBlocked (path : string)
| VendorUnwritable (path : string) (e : IoFailure)
| VendorUnpublished (e : IoFailure).

Definition package_directory (p : LockedPackage) : string := lp_name p +:+ "-" +:+ version_display (lp_version p).

(** A file where a directory is needed, or a directory where the file is. *)
Definition blocked (staged : disk) (path : string) : bool := is_dir staged path || existsb (is_file staged) (tail (ancestors path)).

(** [create_dir_all] of the parent and [fs::write], in the staging directory. *)
Definition write_staged (io : faults) (path : string) (content : bytes) (staged : disk) : result disk VendorError :=
  if blocked staged path then Err (VendorBlocked path)
  else match io (IoCreateDirectory path), io (IoWrite path 0) with
  | Some e, _ | None, Some e => Err (VendorUnwritable path e)
  | None, None => Ok (<[path := content]> staged)
  end.

(** Where a path joined to the staging directory leads: an absolute path replaces it,
    and [..] may leave it. *)
Inductive Placed := Inside (relative : string) | Outside (path : string).

Definition enter_component (names : list string) (c : Component) : list string :=
  match c with RootDir => [] | CurDir => names | ParentDir => removelast names | Normal name => names ++ [name] end.

Fixpoint strip_names (prefix names : list string) : option (list string) :=
  match prefix, names with
  | [], _ => Some names
  | p :: prefix, n :: names => if bool_decide (p = n) then strip_names prefix names else None
  | _, [] => None
  end.

(** [base.join(directory).join(path)] *)
Definition locate (base directory path : string) : Placed :=
  let names := foldl enter_component [] (components base ++ components directory ++ components path) in
  match strip_names (foldl enter_component [] (components base)) names with
  | Some (name :: names) => Inside (join "/" (name :: names))
  | _ => Outside ("/" +:+ join "/" names)
  end.

(** A file of a package, with the rest of the disk. *)
Definition write_package_file (io : faults) (base directory path : string) (content : bytes) (d staged : disk) : disk * result disk VendorError :=
  match locate base directory path with
  | Inside relative => (d, write_staged io relative content staged)
  | Outside path => match write_staged io path content d with Ok d => (d, Ok staged) | Err e => (d, Err e) end
  end.

Fixpoint vendor_files (io : faults) (base directory : string) (files : list ArchiveFile) (d staged : disk) : disk * result disk VendorError :=
  match files with
  | [] => (d, Ok staged)
  | file :: files =>
      match write_package_file io base directory (af_path file) (af_content file) d staged with
      | (d, Err e) => (d, Err e)
      | (d, Ok staged) => vendor_files io base directory files d staged
      end
  end.

(** The loop over the packages. *)
Fixpoint vendor_packages (io : faults) (base : string) (cache : ContentAddressedCache) (ps : list LockedPackage) (d staged : disk)
    : disk * result disk VendorError :=
  match ps with
  | [] => (d, Ok staged)
  | p :: ps =>
      match cache_load io cache (lp_checksum p) d with
      | Err e => (d, Err (VendorPackage (CacheUnavailable (lp_name p) (lp_version p) e)))
      | Ok content =>
          match from_bytes content with
          | Err e => (d, Err (VendorPackage (ArchiveFailed e)))
          | Ok archive =>
              if negb (bool_decide (pa_name archive = lp_name p)) || negb (bool_decide (pa_version archive = lp_version p))
              then (d, Err (VendorIdentity (lp_name p)))
              else match verify_locked_archive p archive with
              | Err e => (d, Err (VendorPackage e))
              | Ok _ =>
                  let directory := package_directory p in
                  match write_package_file io base directory ".syllog-package" content d staged with
                  | (d, Err e) => (d, Err e)
                  | (d, Ok staged) =>
                      match vendor_files io base directory (pa_files archive) d staged with
                      | (d, Err e) => (d, Err e)
                      | (d, Ok staged) => vendor_packages io base cache ps d staged
                      end
                  end
              end
          end
      end
  end.

(** A directory with its files, if any. *)
Definition with_directory (staged : disk) : disk := <["" := []]> staged.

(** [vendor::execute]: the staging directory is removed when a step fails, and kept
    from before the rename on. *)
Definition vendor (io : faults) (staging : string) (project : Project) (d : disk) : option (disk * result nat VendorError) :=
  let root := pj_root project in
  r ← locked_resolution io d project;
  Some match r with
       | Err e => (d, Err (VendorLock e))
       | Ok resolution =>
           let destination := join_path root "vendor" in
           if path_exists d destination then (d, Err VendorExists)
           else match io (IoTemporary root) with
           | Some e => (d, Err (VendorStaging e))
           | None =>
               match vendor_packages io (join_path root staging) (project_cache root) (packages resolution) d ∅ with
               | (d, Err e) => (d, Err e)
               | (d, Ok staged) =>
                   match io (IoRename destination) with
                   | Some e => (below_directory (join_path root staging) (with_directory staged) ∪ d, Err (VendorUnpublished e))
                   | None => (below_directory destination (with_directory staged) ∪ d, Ok (length (packages resolution)))
                   end
               end
           end
       end.
End vendor.

(** *** What was vendored is what was cached *)

Definition slash_free (s : string) : bool := all_characters (λ c, negb (bool_decide (c = "/"%char))) s.

Lemma all_characters_app p (a b : string) : all_characters p (a +:+ b) = all_characters p a && all_characters p b.
Proof. induction a as [|c a IH]; [done|]. change (p c && all_characters p (a +:+ b) = p c && all_characters p a && all_characters p b). by rewrite IH, andb_assoc. Qed.

Lemma all_characters_impl (p q : ascii → bool) s : (∀ c, p c = true → q c = true) → all_characters p s = true → all_characters q s = true.
Proof. intros Hpq. induction s as [|c s IH]; [done|]. cbn. intros [Hc Hs]%andb_prop. by rewrite Hpq, IH. Qed.

Lemma valid_name_slash_free name : valid_package_name name = true → slash_free name = true.
Proof.
  intros H. destruct name as [|c rest]; [done|]. unfold valid_package_name in H. apply andb_prop in H as [[[Hc Hr]%andb_prop _]%andb_prop _].
  unfold slash_free. cbn. apply andb_true_iff. split.
  - apply negb_true_iff, bool_decide_eq_false. intros ->. by vm_compute in Hc.
  - eapply all_characters_impl; [|exact Hr]. intros x Hx. apply negb_true_iff, bool_decide_eq_false. intros ->. by vm_compute in Hx.
Qed.

(** The first slash parts a path in one way. *)
Lemma first_slash a : ∀ b x y, slash_free a = true → slash_free b = true → a +:+ "/" +:+ x = b +:+ "/" +:+ y → a = b ∧ x = y.
Proof.
  unfold slash_free. induction a as [|c a IH]; intros [|c' b] x y Ha Hb E; cbn in Ha, Hb.
  - change (String "/" x = String "/" y) in E. by injection E.
  - injection E as <- _. apply andb_prop in Hb as [Hb _]. by rewrite bool_decide_eq_true_2 in Hb.
  - injection E as -> _. apply andb_prop in Ha as [Ha _]. by rewrite bool_decide_eq_true_2 in Ha.
  - injection E as -> E. apply andb_prop in Ha as [_ Ha]. apply andb_prop in Hb as [_ Hb]. by destruct (IH b x y Ha Hb E) as [-> ->].
Qed.

(** What a path starts with when it is joined. *)
Definition path_base (base : string) : string := if bool_decide (base = "") || ends_with "/"%char base then base else base +:+ "/".

Lemma string_assoc (a b c : string) : (a +:+ b) +:+ c = a +:+ (b +:+ c).
Proof. induction a as [|x a IH]; [done|]. change (String x ((a +:+ b) +:+ c) = String x (a +:+ (b +:+ c))). by rewrite IH. Qed.

Lemma join_path_base base part : starts_with "/" part = false → join_path base part = path_base base +:+ part.
Proof. unfold join_path, path_base. intros ->. destruct (_ || _); [done|]. by rewrite string_assoc. Qed.

Lemma ends_with_app c (b : string) : b ≠ "" → ∀ a, ends_with c (a +:+ b) = ends_with c b.
Proof.
  intros Hb. induction a as [|y a IH]; [done|]. change (String y a +:+ b) with (String y (a +:+ b)). rewrite <-IH.
  cbn [ends_with]. destruct (a +:+ b) as [|z s] eqn:E; [|done]. destruct a; [by destruct b|done].
Qed.

Lemma path_base_plain base : base ≠ "" → ends_with "/"%char base = false → path_base base = base +:+ "/".
Proof. intros Hb He. unfold path_base. by rewrite bool_decide_eq_false_2, He. Qed.

Lemma app_not_empty (a b : string) : b ≠ "" → a +:+ b ≠ "".
Proof. by destruct a. Qed.

Lemma vendor_base root : path_base (join_path root "vendor") = join_path root "vendor" +:+ "/".
Proof. rewrite join_path_base by done. apply path_base_plain; [by apply app_not_empty|]. by rewrite ends_with_app. Qed.

Lemma slash_free_start s : slash_free s = true → starts_with "/" s = false.
Proof.
  destruct s as [|c s]; [done|]. unfold slash_free. cbn. intros [Hc%negb_true_iff%bool_decide_eq_false _]%andb_prop.
  apply andb_false_iff. left. apply bool_decide_eq_false. congruence.
Qed.

Lemma slash_free_end s : slash_free s = true → ends_with "/"%char s = false.
Proof.
  unfold slash_free. induction s as [|c s IH]; [done|]. cbn. intros [Hc%negb_true_iff Hs]%andb_prop. destruct s; [done|]. by apply IH.
Qed.

(** The file of a package's archive. *)
Lemma vendored_path root directory : slash_free directory = true → directory ≠ "" →
  join_path (join_path (join_path root "vendor") directory) ".syllog-package" = join_path root "vendor" +:+ "/" +:+ directory +:+ "/" +:+ ".syllog-package".
Proof.
  intros Hs Hn. rewrite (join_path_base (join_path (join_path root "vendor") directory)) by done.
  rewrite (join_path_base (join_path root "vendor")) by by apply slash_free_start. rewrite vendor_base.
  rewrite path_base_plain; [by rewrite !string_assoc|by apply app_not_empty|]. rewrite ends_with_app by done. by apply slash_free_end.
Qed.

Section vendored.
Context `{RegistryCodec, !Countable Version} {LC : LockfileCodec}.

Lemma write_staged_ok io path content staged staged' : write_staged io path content staged = Ok staged' → staged' = <[path := content]> staged.
Proof. unfold write_staged. destruct (blocked _ _); [done|]. destruct (io _); [done|]. destruct (io _); [done|]. by intros [= <-]. Qed.

(** *** Safe paths stay inside

    The same loops for paths below the directory of their package. *)

Fixpoint stage_files (io : faults) (directory : string) (files : list ArchiveFile) (staged : disk) : result disk VendorError :=
  match files with
  | [] => Ok staged
  | file :: files =>
      match write_staged io (directory +:+ "/" +:+ normal_path (af_path file)) (af_content file) staged with
      | Err e => Err e
      | Ok staged => stage_files io directory files staged
      end
  end.

Lemma strip_names_app prefix names : strip_names prefix (prefix ++ names) = Some names.
Proof. induction prefix as [|p prefix IH]; [done|]. cbn. by rewrite bool_decide_eq_true_2. Qed.

Lemma enter_normal names cs : forallb is_normal cs = true → foldl enter_component names cs = names ++ map render_component cs.
Proof.
  revert names. induction cs as [|c cs IH]; intros names; [by rewrite app_nil_r|]. cbn. intros [Hc Hcs]%andb_prop. rewrite IH by done.
  destruct c; try done. cbn. by rewrite <-app_assoc.
Qed.

Lemma slash_free_components s : slash_free s = true → s ≠ "" → s ≠ "." → s ≠ ".." → components s = [Normal s].
Proof.
  intros Hs N0 N1 N2. assert (split_on "/"%char s = [s]) as E.
  { clear N0 N1 N2. unfold slash_free in Hs. induction s as [|c s IH]; [done|]. cbn in Hs |- *. apply andb_prop in Hs as [Hc Hs].
    rewrite (IH Hs). apply negb_true_iff, bool_decide_eq_false in Hc. by rewrite bool_decide_eq_false_2. }
  unfold components. rewrite E, (bool_decide_eq_false_2 (s = "")) by done. cbn [andb]. rewrite (bool_decide_eq_false_2 (s = ".")) by done.
  unfold normal_component. rewrite !bool_decide_eq_false_2 by done. done.
Qed.

Lemma locate_inside base directory path : components directory = [Normal directory] → components path ≠ [] → forallb is_normal (components path) = true →
  locate base directory path = Inside (directory +:+ "/" +:+ normal_path path).
Proof.
  intros Hd Hne Hn. unfold locate, normal_path. rewrite !foldl_app, Hd. cbn [foldl enter_component]. rewrite (enter_normal _ (components path)) by done. rewrite <-app_assoc, strip_names_app.
  cbn [app]. f_equal. unfold render_components. destruct (components path) as [|c cs]; [by destruct Hne|]. destruct c; done.
Qed.

(** Archives are read with safe paths only. *)
Lemma from_bytes_safe content archive : from_bytes content = Ok archive →
  valid_package_name (pa_name archive) = true ∧ Forall (λ f, portable_path (af_path f) = true) (pa_files archive).
Proof.
  unfold from_bytes. destruct (encoded_result _) as [decoded|]; [|done]. intros [(Hname & _ & Hall & _) ->]%archive_new_exact. split; [done|].
  cbn [pa_files]. by rewrite stable_sort_perm.
Qed.

Lemma portable_components path : portable_path path = true → components path ≠ [] ∧ forallb is_normal (components path) = true.
Proof.
  unfold portable_path. intros [[[Hne%negb_true_iff%bool_decide_eq_false _]%andb_prop _]%andb_prop Hn]%andb_prop. split; [|done]. clear Hn.
  unfold components. destruct (split_on "/"%char path) as [|first rest] eqn:E.
  { destruct path as [|c path]; [done|]. cbn in E. case_bool_decide; [done|]. by destruct (split_on _ path). }
  destruct (bool_decide (first = "")) eqn:E0; cbn [andb].
  - by rewrite bool_decide_eq_false_2.
  - destruct (bool_decide (first = ".")) eqn:E1; [done|]. unfold normal_component at 1. rewrite E0, E1. cbn [orb]. by destruct (bool_decide (first = "..")).
Qed.

Lemma vendor_files_inside io base directory files d : components directory = [Normal directory] → Forall (λ f, portable_path (af_path f) = true) files →
  ∀ staged, vendor_files io base directory files d staged = (d, stage_files io directory files staged).
Proof.
  intros Hd. induction 1 as [|f files [Hne Hn]%portable_components _ IH]; intros staged; [done|]. cbn [vendor_files stage_files]. unfold write_package_file.
  rewrite locate_inside by done. destruct (write_staged _ _ _ staged); [apply IH|done].
Qed.

Lemma package_directory_slash_free p : valid_package_name (lp_name p) = true → slash_free (version_display (lp_version p)) = true → slash_free (package_directory p) = true.
Proof.
  intros Hn Hv. unfold package_directory, slash_free. rewrite !all_characters_app. apply andb_true_iff. split; [by apply valid_name_slash_free|].
  apply andb_true_iff. by split.
Qed.

Lemma package_directory_components p : slash_free (package_directory p) = true → valid_package_name (lp_name p) = true →
  components (package_directory p) = [Normal (package_directory p)].
Proof.
  intros Hs Hn. apply slash_free_components; [done|..]; unfold package_directory; destruct (lp_name p) as [|c rest]; try done.
  - intros E. injection E as -> E. by destruct rest.
  - intros E. injection E as -> E. destruct rest as [|c' rest]; [done|]. injection E as -> E. by destruct rest.
Qed.

(** Files go below the directory of their package, beside the archive. *)
Lemma stage_files_frame io directory files : ∀ staged staged', stage_files io directory files staged = Ok staged' →
  ∀ path, Forall (λ f, path ≠ directory +:+ "/" +:+ normal_path (af_path f)) files → staged' !! path = staged !! path.
Proof.
  induction files as [|f files IH]; intros staged staged'; cbn [stage_files]; [by intros [= <-]|].
  destruct (write_staged _ _ _ _) as [next|] eqn:Ew; [|done]. intros Hv path [Hp Hps]%Forall_cons.
  rewrite (IH _ _ Hv path Hps). apply write_staged_ok in Ew as ->. by rewrite lookup_insert_ne.
Qed.

(** The archive of a package holds no file of the name its archive is kept under. *)
Definition keeps_archive (content : bytes) : Prop :=
  ∀ archive, from_bytes content = Ok archive → Forall (λ f, normal_path (af_path f) ≠ ".syllog-package") (pa_files archive).

Definition staged_archive (p : LockedPackage) : string := package_directory p +:+ "/" +:+ ".syllog-package".

Lemma vendor_packages_stage io base cache ps : ∀ d d' staged staged', vendor_packages io base cache ps d staged = (d', Ok staged') →
  Forall (λ p, slash_free (version_display (lp_version p)) = true) ps → NoDup (map package_directory ps) → d' = d ∧
  (∀ directory relative, slash_free directory = true → directory ∉ map package_directory ps → staged' !! (directory +:+ "/" +:+ relative) = staged !! (directory +:+ "/" +:+ relative)) ∧
  Forall (λ p, slash_free (package_directory p) = true ∧ package_directory p ≠ "" ∧
    ∃ content, cache_load io cache (lp_checksum p) d = Ok content ∧ (keeps_archive content → staged' !! staged_archive p = Some content)) ps.
Proof.
  induction ps as [|p ps IH]; intros d d' staged staged' Hv Hversion Hd; cbn [vendor_packages] in Hv; [by injection Hv as <- <-|].
  destruct (cache_load io cache (lp_checksum p) d) as [content|] eqn:El; [|done]. destruct (from_bytes content) as [archive|] eqn:Ef; [|done].
  destruct (bool_decide (pa_name archive = lp_name p)) eqn:En; [|done]. apply bool_decide_eq_true in En.
  destruct (bool_decide (pa_version archive = lp_version p)); [|done]. cbn [orb negb] in Hv. destruct (verify_locked_archive p archive); [|done].
  destruct (from_bytes_safe _ _ Ef) as [Hname Hsafe]. rewrite En in Hname.
  pose proof (package_directory_slash_free p Hname (Forall_inv Hversion)) as Hslash. pose proof (package_directory_components p Hslash Hname) as Hcomp.
  unfold write_package_file in Hv. rewrite locate_inside in Hv by done. destruct (write_staged _ _ _ staged) as [staged1|] eqn:Ew; [|done]. apply write_staged_ok in Ew as Hstaged1.
  rewrite (vendor_files_inside _ _ _ _ _ Hcomp Hsafe) in Hv. destruct (stage_files _ _ _ staged1) as [staged2|] eqn:Efiles; [|done]. cbn in Hd. apply NoDup_cons in Hd as [Hnew Hd].
  destruct (IH _ _ _ _ Hv (Forall_inv_tail Hversion) Hd) as (-> & Hframe & Hall). pose proof (stage_files_frame _ _ _ _ _ Efiles) as Hfiles.
  split; [done|]. split.
  - intros directory relative Hs [Hne Hnot]%not_elem_of_cons. rewrite Hframe by done. rewrite Hfiles.
    + rewrite Hstaged1. apply lookup_insert_ne. intros E. by destruct (first_slash _ _ _ _ Hslash Hs E).
    + apply Forall_true. intros f E. by destruct (first_slash _ _ _ _ Hs Hslash E).
  - constructor; [|exact Hall]. split; [done|]. split; [unfold package_directory; by destruct (lp_name p)|]. exists content. split; [done|]. intros Hkeep.
    unfold staged_archive. rewrite Hframe by done. rewrite Hfiles; [rewrite Hstaged1; by rewrite lookup_insert_eq|].
    eapply Forall_impl; [exact (Hkeep archive Ef)|]. cbn. intros f Hf E. destruct (first_slash _ _ _ _ Hslash Hslash E) as [_ E']. congruence.
Qed.

Lemma cache_load_reliable io c checksum (d : disk) content : cache_load io c checksum d = Ok content → cache_load no_faults c checksum d = Ok content.
Proof.
  unfold cache_load, read_file. destruct (path_for c checksum) as [path|]; [|done]. destruct (io (IoRead path)); [done|]. done.
Qed.

Lemma package_sources_ext io d d' root ps : Forall (λ p, package_bytes io d' root p = package_bytes io d root p) ps →
  package_sources io d' root ps = package_sources io d root ps.
Proof. induction 1 as [|p ps Hp _ IH]; [done|]. cbn. by rewrite Hp, IH. Qed.

Lemma vendored_lockfile root staged (d : disk) :
  (below_directory (join_path root "vendor") staged ∪ d) !! join_path root "Syllog.lock" = d !! join_path root "Syllog.lock".
Proof.
  apply lookup_union_r. unfold below_directory. apply lookup_kmap_None; [apply _|]. intros relative. rewrite !join_path_base by done.
  rewrite string_assoc. intros E%app_string_inj_l. discriminate E.
Qed.

Lemma vendored_resolution project staged (d : disk) :
  locked_resolution no_faults (below_directory (join_path (pj_root project) "vendor") staged ∪ d) project = locked_resolution no_faults d project.
Proof. unfold locked_resolution, read_lockfile, read_file. cbn. by rewrite vendored_lockfile. Qed.

Lemma locked_resolution_reliable io d project r : locked_resolution io d project = Some (Ok r) → locked_resolution no_faults d project = Some (Ok r).
Proof.
  unfold locked_resolution, read_lockfile, read_file. destruct (io _); [done|]. done.
Qed.
End vendored.

(** C27: vendoring changes where dependencies come from and nothing else: after a successful
    [syllog vendor] the sources loaded for a build, now from the vendor directory, are
    those that were loaded from the cache, and no file outside that directory has
    changed; provided no archive holds a file named as the archive is kept. *)
Theorem vendored_sources_unchanged `{RegistryCodec, !Countable Version} {LC : LockfileCodec} io staging project r d d' n :
  locked_resolution io d project = Some (Ok r) → Forall (λ p, slash_free (version_display (lp_version p)) = true) (packages r) →
  NoDup (map package_directory (packages r)) →
  (∀ p content, p ∈ packages r → cache_load no_faults (project_cache (pj_root project)) (lp_checksum p) d = Ok content → keeps_archive content) →
  vendor io staging project d = Some (d', Ok n) →
  load_locked_dependency_sources no_faults d' project = load_locked_dependency_sources no_faults d project ∧ n = length (packages r) ∧
  ∀ path, (∀ relative, path ≠ join_path (pj_root project) "vendor" +:+ "/" +:+ relative) → d' !! path = d !! path.
Proof.
  intros Hr Hversion Hd Hkeep. unfold vendor. rewrite Hr. cbn [mbind option_bind].
  destruct (path_exists d _) eqn:Hex; [done|]. destruct (io (IoTemporary _)); [done|].
  destruct (vendor_packages _ _ _ _ _ _) as [d1 [staged|]] eqn:Ev; [|done]. destruct (io (IoRename _)); [done|]. intros [= <- <-].
  destruct (vendor_packages_stage _ _ _ _ _ _ _ _ Ev Hversion Hd) as (-> & _ & Hall). split_and!; [|done|].
  2: { intros path Hp. apply lookup_union_r. unfold below_directory. apply lookup_kmap_None; [apply _|]. intros relative ->. by destruct (Hp relative). }
  unfold load_locked_dependency_sources. case_bool_decide; [done|]. rewrite vendored_resolution, (locked_resolution_reliable _ _ _ _ Hr). cbn. f_equal.
  apply package_sources_ext. rewrite Forall_forall in Hall |- *. intros p Hp. destruct (Hall p Hp) as (Hslash & Hne & content & Hload & Hstaged).
  apply cache_load_reliable in Hload. specialize (Hstaged (Hkeep p content Hp Hload)).
  unfold path_exists in Hex. apply orb_false_iff in Hex as [_ Hdir]. unfold package_bytes. rewrite Hdir, Hload.
  set (vendored := below_directory (join_path (pj_root project) "vendor") (with_directory staged) ∪ d).
  assert (vendored !! (join_path (pj_root project) "vendor" +:+ "/" +:+ staged_archive p) = Some content) as Hlook.
  { apply lookup_union_Some_l. rewrite below_directory_lookup. unfold with_directory. rewrite lookup_insert_ne; [done|].
    unfold staged_archive. by destruct (package_directory p). }
  assert (is_dir vendored (join_path (pj_root project) "vendor") = true) as ->.
  { apply existsb_exists. exists (join_path (pj_root project) "vendor" +:+ "/" +:+ staged_archive p, content).
    split; [by apply list_elem_of_In, elem_of_map_to_list|apply starts_with_below]. }
  unfold vendor_package_root, read_file. cbn [no_faults]. fold (package_directory p). rewrite vendored_path by done.
  unfold staged_archive in Hlook. by rewrite Hlook.
Qed.

Lemma vendored_sources_unchanged_witness : ∃ d', vendor no_faults ".syllog-vendor-1" sample_project sample_disk = Some (d', Ok 1%nat) ∧
  load_locked_dependency_sources no_faults d' sample_project = load_locked_dependency_sources no_faults sample_disk sample_project.
Proof.
  assert (match vendor no_faults ".syllog-vendor-1" sample_project sample_disk with Some (_, Ok n) => bool_decide (n = 1%nat) | _ => false end = true) as Hv
    by (vm_compute; reflexivity).
  destruct (vendor no_faults ".syllog-vendor-1" sample_project sample_disk) as [[d' [n|]]|] eqn:E; try discriminate Hv. apply bool_decide_eq_true in Hv. subst n.
  exists d'. split; [reflexivity|].
  destruct (vendored_sources_unchanged no_faults ".syllog-vendor-1" sample_project sample_lock sample_disk d' 1) as [Hl _]; [..|exact Hl].
  - vm_compute. reflexivity.
  - repeat constructor.
  - apply (bool_decide_unpack _). vm_compute. exact I.
  - intros p content Hp Hload archive Ha. apply list_elem_of_singleton in Hp. subst p.
    assert (cache_load no_faults (project_cache "/p") (@sha256_hex numbered wanted) sample_disk = Ok wanted) as Hw by (vm_compute; reflexivity).
    cbn [lp_checksum pj_root sample_project] in Hload. rewrite Hload in Hw. injection Hw as ->.
    assert (match from_bytes wanted with Ok a => bool_decide (Forall (λ f, normal_path (af_path f) ≠ ".syllog-package") (pa_files a)) | Err _ => true end = true) as Hk
      by (vm_compute; reflexivity). rewrite Ha in Hk. exact (proj1 (bool_decide_eq_true _) Hk).
  - exact E.
Defined.

(** An archive may hold a file of the name its own archive is vendored under: the file
    is written over it, and the vendored package can no longer be loaded. *)
Definition hiding_archive : PackageArchive :=
  {| pa_name := "tools-text"; pa_version := 1%N : Version;
     pa_files := [{| af_path := ".syllog-package"; af_content := [Byte.x01] |}; {| af_path := "src/lib.syl"; af_content := [Byte.x41] |}];
     pa_dependencies := ∅ |}.

Definition hiding_bytes : bytes := digits (encode hiding_archive).

Definition hiding_lock : @Resolution numbered :=
  {| format := 1; packages := [{| lp_name := "tools-text"; lp_version := (1%N : @Version numbered); lp_checksum := @sha256_hex numbered hiding_bytes; lp_dependencies := ∅ |}] |}.

Definition hiding_codec : @LockfileCodec numbered := {| encode_resolution _ := Ok []; decode_resolution _ := Ok hiding_lock |}.

Definition hiding_disk : disk := {["/p/Syllog.lock" := []; "/p/.syllog/cache/sha256/" +:+ @sha256_hex numbered hiding_bytes := hiding_bytes]}.

Theorem vendored_archive_overwritten :
  (∃ sources, load_locked_dependency_sources (LC := hiding_codec) no_faults hiding_disk sample_project = Some (Ok sources)) ∧
  ∃ d', vendor (LC := hiding_codec) no_faults ".syllog-vendor-1" sample_project hiding_disk = Some (d', Ok 1%nat) ∧
    ∃ e, load_locked_dependency_sources (LC := hiding_codec) no_faults d' sample_project = Some (Err (ArchiveFailed e)).
Proof. split; [eexists; vm_compute; reflexivity|]. eexists. split; [vm_compute; reflexivity|]. eexists. vm_compute. reflexivity. Qed.

(** ** [syllog publish] *)

Section publish.
Context `{RegistryCodec, !Countable Version}.
(** [Version::parse], and the arguments of discovery. *)
Context (parse_version : string → result Version string) (parse_toml : string → result RawManifest (string * option (nat * nat)))
  (failure_text : IoFailure → string) (canonicalize : string → result string IoFailure).
Context (read_dir : string → result (list (result DirEntry IoFailure)) IoFailure) (fuel : nat) (io : faults) (d : disk).

Inductive PublishError :=
| PublishProject (e : ProjectError)
| PublishVersion (reason : string)
| PublishManifest (e : IoFailure)
| PublishSources (e : WalkError)
| PublishEscaped (path : string)
| PublishCollides
| PublishUnreadable (path : string) (e : IoFailure)
| PublishArchive (e : RegistryError)
| PublishClient (e : TransportError)
| PublishRefused (e : TransportError).

(** [strip_prefix(root)] *)
Definition relative_path (root path : string) : option string :=
  render_components <$> strip_components (components root) (components path).

(** The loop over the sources of one target, with the paths included so far. *)
Fixpoint publish_files (root : string) (paths : list string) (included : gset string) : result (list ArchiveFile * gset string) PublishError :=
  match paths with
  | [] => Ok ([], included)
  | path :: paths =>
      match relative_path root path with
      | None => Err (PublishEscaped path)
      | Some relative =>
          if bool_decide (relative = "Syllog.toml") then Err PublishCollides
          else if bool_decide (relative ∈ included) then publish_files root paths included
          else match read_file io d path with
          | Err e => Err (PublishUnreadable path e)
          | Ok content =>
              match publish_files root paths ({[relative]} ∪ included) with
              | Err e => Err e
              | Ok (files, included) => Ok ({| af_path := relative; af_content := content |} :: files, included)
              end
          end
      end
  end.

Fixpoint publish_targets (project : Project) (targets : list Target) (included : gset string) : option (result (list ArchiveFile) PublishError) :=
  match targets with
  | [] => Some (Ok [])
  | t :: targets =>
      found ← source_files read_dir fuel (target_root project t);
      match found with
      | Err e => Some (Err (PublishSources e))
      | Ok paths =>
          match publish_files (pj_root project) paths included with
          | Err e => Some (Err e)
          | Ok (files, included) =>
              more ← publish_targets project targets included;
              Some match more with Err e => Err e | Ok more => Ok (files ++ more) end
          end
      end
  end.

Definition assemble (start : string) : option (result PackageArchive PublishError) :=
  match discover parse_toml failure_text canonicalize io d start with
  | Err e => Some (Err (PublishProject e))
  | Ok project =>
      let m := pj_manifest project in
      match parse_version (mp_version (mf_package m)) with
      | Err reason => Some (Err (PublishVersion reason))
      | Ok version =>
          match read_file io d (pj_manifest_path project) with
          | Err e => Some (Err (PublishManifest e))
          | Ok content =>
              sources ← publish_targets project (mf_targets m) ∅;
              Some match sources with
                   | Err e => Err e
                   | Ok files =>
                       match archive_new (mp_name (mf_package m)) version ({| af_path := "Syllog.toml"; af_content := content |} :: files)
                               (dp_requirement <$> mf_dependencies m) with
                       | Ok archive => Ok archive
                       | Err e => Err (PublishArchive e)
                       end
                   end
          end
      end
  end.

(** [execute_remote]: the receipt's provenance. *)
Definition publish_command (decode_receipt : bytes → result RemotePublishReceipt string) (send : HttpRequest → result HttpResponse string)
    (client : result HttpRegistryClient TransportError) (compiler start nonce source_revision : string) (seed : bytes)
    : option (result (PackageArchive * string) PublishError) :=
  assembled ← assemble start;
  Some match assembled with
       | Err e => Err e
       | Ok archive =>
           match archive_checksum archive with
           | Err e => Err (PublishArchive e)
           | Ok checksum =>
               match sign (identity_from_seed (pa_name archive) seed) archive nonce with
               | Err e => Err (PublishArchive e)
               | Ok publication =>
                   match client with
                   | Err e => Err (PublishClient e)
                   | Ok client =>
                       match remote_publish decode_receipt send client publication
                               {| pv_schema_version := 1; pv_archive_checksum := checksum; pv_compiler := "syllog " +:+ compiler;
                                  pv_source_revision := source_revision |} with
                       | Err e => Err (PublishRefused e)
                       | Ok receipt => Ok (archive, rr_provenance_id receipt)
                       end
                   end
               end
           end
       end.
End publish.

(** *** What is published *)

Lemma walk_more read_dir n : ∀ m pending sources r, walk read_dir n pending sources = Some r → (n ≤ m)%nat → walk read_dir m pending sources = Some r.
Proof.
  induction n as [|n IH]; intros [|m] [|directory pending] sources r; cbn; try done; try lia. intros Hw Hle. destruct (read_dir directory); [|done].
  destruct (scan_entries _ _ _ _) as [[]|]; [|done]. apply IH; [done|lia].
Qed.

Lemma source_files_found read_dir fuel root files : Acc (λ nested directory, holds_entry read_dir directory Directory nested) root →
  source_files read_dir fuel root = Some (Ok files) → ∀ path, path ∈ files ↔ below read_dir root path.
Proof.
  intros (enough & Hw)%walk_exact Hs. specialize (Hw (max enough fuel) ltac:(lia)).
  assert (source_files read_dir (max enough fuel) root = Some (Ok files)) as E.
  { unfold source_files in *. destruct (walk read_dir fuel [root] []) as [r|] eqn:Er; [|done]. by rewrite (walk_more _ _ _ _ _ _ Er) by lia. }
  rewrite E in Hw. apply Hw.
Qed.

Section published.
Context `{RegistryCodec, !Countable Version}.
Context (parse_version : string → result Version string) (parse_toml : string → result RawManifest (string * option (nat * nat)))
  (failure_text : IoFailure → string) (canonicalize : string → result string IoFailure).
Context (read_dir : string → result (list (result DirEntry IoFailure)) IoFailure) (fuel : nat) (io : faults) (d : disk).

(** A source of the project, as an archive has it. *)
Definition published_source (root : string) (paths : string → Prop) (f : ArchiveFile) : Prop :=
  ∃ path, paths path ∧ relative_path root path = Some (af_path f) ∧ read_file io d path = Ok (af_content f).

Lemma publish_files_ok root paths : ∀ included files included', publish_files io d root paths included = Ok (files, included') →
  Forall (published_source root (λ path, path ∈ paths)) files ∧ (∀ relative, relative ∈ included' ↔ relative ∈ included ∨ relative ∈ map af_path files) ∧
  ∀ path, path ∈ paths → ∃ relative, relative_path root path = Some relative ∧ relative ∈ included'.
Proof.
  induction paths as [|path paths IH]; intros included files included'; cbn [publish_files].
  - intros [= <- <-]. split; [constructor|]. set_solver.
  - assert (∀ fs, Forall (published_source root (λ p, p ∈ paths)) fs → Forall (published_source root (λ p, p ∈ path :: paths)) fs) as Hmore.
    { intros fs Hfs. eapply Forall_impl; [exact Hfs|]. intros f (p & Hp & ?). exists p. split; [by right|done]. }
    destruct (relative_path root path) as [relative|] eqn:Er; [|done]. case_bool_decide; [done|]. case_bool_decide as Hin.
    + intros (F1 & F2 & F3)%IH. split_and!; [by apply Hmore|done|]. intros p [->|Hp]%elem_of_cons; [|by apply F3]. exists relative. split; [done|]. apply F2. by left.
    + destruct (read_file io d path) as [content|] eqn:Ec; [|done]. destruct (publish_files _ _ _ _ _) as [[rest last]|] eqn:E; [|done]. intros [= <- <-].
      destruct (IH _ _ _ E) as (F1 & F2 & F3). split_and!.
      * constructor; [|by apply Hmore]. exists path. split; [by left|done].
      * intros x. rewrite F2. cbn [map af_path]. rewrite elem_of_cons, elem_of_union, elem_of_singleton. clear. tauto.
      * intros p [->|Hp]%elem_of_cons; [|by apply F3]. exists relative. split; [done|]. apply F2. left. apply elem_of_union. left. by apply elem_of_singleton.
Qed.

(** A source below the directory of a target. *)
Definition target_source (project : Project) (targets : list Target) (path : string) : Prop :=
  ∃ t, t ∈ targets ∧ below read_dir (target_root project t) path.

Lemma publish_targets_ok project targets : ∀ included files, publish_targets read_dir fuel io d project targets included = Some (Ok files) →
  Forall (λ t, Acc (λ nested directory, holds_entry read_dir directory Directory nested) (target_root project t)) targets →
  Forall (published_source (pj_root project) (target_source project targets)) files ∧
  ∀ path, target_source project targets path → ∃ relative, relative_path (pj_root project) path = Some relative ∧ (relative ∈ included ∨ relative ∈ map af_path files).
Proof.
  induction targets as [|t targets IH]; intros included files; cbn [publish_targets].
  { intros [= <-] _. split; [constructor|]. by intros path (t & ?%elem_of_nil & _). }
  destruct (source_files _ _ _) as [[paths|]|] eqn:Es; [|done..]. cbn. destruct (publish_files _ _ _ _ _) as [[own included1]|] eqn:Ep; [|done].
  destruct (publish_targets _ _ _ _ _ targets _) as [[more|]|] eqn:Em; [|done..]. cbn. intros [= <-] [Ht Hts]%Forall_cons.
  pose proof (source_files_found _ _ _ _ Ht Es) as Hfound. apply publish_files_ok in Ep as (O1 & O2 & O3). destruct (IH _ _ Em Hts) as [I1 I2]. split.
  - apply Forall_app. split; (eapply Forall_impl; [eassumption|]).
    + intros f (path & Hp%Hfound & Hrest). exists path. split; [|done]. exists t. split; [by left|done].
    + intros f (path & (t' & ? & ?) & Hrest). exists path. split; [|done]. exists t'. split; [by right|done].
  - intros path (t' & [->|Ht']%elem_of_cons & Hb).
    + destruct (O3 path) as (relative & Hr & Hin); [by apply Hfound|]. exists relative. split; [done|]. rewrite map_app, elem_of_app. apply O2 in Hin. tauto.
    + destruct (I2 path) as (relative & Hr & Hin); [by exists t'|]. exists relative. split; [done|]. rewrite map_app, elem_of_app. rewrite O2 in Hin. tauto.
Qed.

(** An assembled archive has the project's name, version and requirements, and its
    files are the manifest and the sources of the targets: each under its path in
    the project with the content on disk, and none of them left out. *)
Theorem published_archive_exact start archive project :
  discover parse_toml failure_text canonicalize io d start = Ok project →
  Forall (λ t, Acc (λ nested directory, holds_entry read_dir directory Directory nested) (target_root project t)) (mf_targets (pj_manifest project)) →
  assemble parse_version parse_toml failure_text canonicalize read_dir fuel io d start = Some (Ok archive) →
  pa_name archive = mp_name (mf_package (pj_manifest project)) ∧ parse_version (mp_version (mf_package (pj_manifest project))) = Ok (pa_version archive) ∧
  pa_dependencies archive = dp_requirement <$> mf_dependencies (pj_manifest project) ∧ wellformed (pa_name archive) (pa_files archive) ∧
  (∀ f, f ∈ pa_files archive → (af_path f = "Syllog.toml" ∧ read_file io d (pj_manifest_path project) = Ok (af_content f)) ∨
     published_source (pj_root project) (target_source project (mf_targets (pj_manifest project))) f) ∧
  ∀ path, target_source project (mf_targets (pj_manifest project)) path →
    ∃ f, f ∈ pa_files archive ∧ relative_path (pj_root project) path = Some (af_path f).
Proof.
  intros Hp Hnested. unfold assemble. rewrite Hp. destruct (parse_version _) as [version|] eqn:Ev; [|done].
  destruct (read_file io d (pj_manifest_path project)) as [content|] eqn:Ec; [|done].
  destruct (publish_targets _ _ _ _ _ _ _) as [[files|]|] eqn:Et; [|done..]. cbn. destruct (archive_new _ _ _ _) as [a|] eqn:Ea; [|done]. intros [= <-].
  apply archive_new_exact in Ea as [Hwf ->]. cbn [pa_name pa_version pa_files pa_dependencies].
  destruct (publish_targets_ok _ _ _ _ Et Hnested) as [H1 H2]. rewrite Forall_forall in H1. split_and!; [done..| | |].
  - destruct Hwf as (W1 & W2 & W3 & W4). pose proof (stable_sort_perm archive_file_le ({| af_path := "Syllog.toml"; af_content := content |} :: files)) as Hperm.
    split_and!; [done| |by rewrite Hperm|by rewrite Hperm]. intros E. rewrite E in Hperm. by apply Permutation_nil in Hperm.
  - intros f. rewrite stable_sort_perm. intros [->|Hf]%elem_of_cons; [by left|right; by apply H1].
  - intros path (relative & Hr & [Hin|Hin])%H2; [by apply elem_of_empty in Hin|]. apply list_elem_of_fmap in Hin as (f & -> & Hf).
    exists f. split; [|done]. rewrite stable_sort_perm. by right.
Qed.
End published.
