(* ===== verification/Conformance.v ===== *)
(** * Conformance and repository contracts (crates/syllog-spec-tests/src/lib.rs)

    Loading and checking the conformance manifest, the rule identifiers of the
    language reference and their coverage by cases, and the checks of governance
    documents and of the repository itself.  The JSON decoder and [canonicalize] are
    arguments; files are those of Storage, directories are read as in Build. *)

From Stdlib Require Import Ascii.
From stdpp Require Import base gmap strings numbers sorting list.
From S2P Require Import Prelude Text Resolver Registry Storage Transport Compile Project Commands Build CommandLine.
Open Scope string_scope.
Open Scope list_scope.
Open Scope N_scope.

(** ** White space *)

(** The characters of the Unicode property White_Space, as UTF-8. *)
Definition white_characters : list string :=
  map (λ n, String (ascii_of_N n) "") [9; 10; 11; 12; 13; 32] ++
  map (λ '(a, b), String (ascii_of_N a) (String (ascii_of_N b) "")) [(194, 133); (194, 160)] ++
  map (λ '(a, b, c), String (ascii_of_N a) (String (ascii_of_N b) (String (ascii_of_N c) "")))
    ([(225, 154, 128)] ++ map (λ c, (226, 128, c)) [128; 129; 130; 131; 132; 133; 134; 135; 136; 137; 138; 168; 169; 175] ++ [(226, 129, 159); (227, 128, 128)]).

Definition strip_white (s : string) : option string :=
  match omap (λ w, strip_prefix w s) white_characters with rest :: _ => Some rest | [] => None end.

Fixpoint trim_white (fuel : nat) (s : string) : string :=
  match fuel with
  | O => s
  | S fuel => match strip_white s with Some rest => trim_white fuel rest | None => s end
  end.

(** [s.trim_start()]: a step per byte is enough. *)
Definition trim_front (s : string) : string := trim_white (String.length s) s.

(** [s.trim().is_empty()] *)
Definition blank (s : string) : bool := bool_decide (trim_front s = "").

(** [line.trim() == text], for a text that neither begins nor ends with white space. *)
Definition trims_to (text line : string) : bool :=
  match strip_prefix text (trim_front line) with Some rest => blank rest | None => false end.

Example trimmed : trims_to "## Status" "  ## Status " = true ∧ trims_to "## Status" "## Status of" = false ∧ blank "   " = true.
Proof. vm_compute. done. Qed.

(** ** Cases *)

Inductive CasePolarity := Positive | Negative.

#[export] Instance polarity_eq_dec : EqDecision CasePolarity.
Proof. solve_decision. Defined.

Inductive ExpectedOutcome :=
| ExpectPass
| ExpectDiagnostics (codes : list string)
| ExpectRun (stdout : string) (exit_code : Z).

Record ConformanceCase := {
  cc_edition : string; cc_source : string; cc_rules : list string; cc_polarity : CasePolarity; cc_expected : ExpectedOutcome
}.

(** A case as it is written; its outcome has the same constructors. *)
Record ManifestCase := {
  mc_edition : string; mc_source : string; mc_rules : list string; mc_polarity : CasePolarity; mc_expected : ExpectedOutcome
}.

Record CaseManifest := { cm_schema_version : N; cm_cases : list ManifestCase }.

Inductive ConformanceError :=
| RootUnresolved (e : IoFailure)
| CasesUnreadable (e : IoFailure)
| CasesUnparsed (reason : string)
| UnsupportedSchema (version : N)
| EmptyEdition
| UnsafeSource (path : string)
| MissingSource (path : string)
| DuplicateCase (edition path : string)
| NoRules (path : string)
| InvalidRule (rule : string)
| DuplicateRule (rule : string)
| EmptyCodes
| PositiveDiagnostics (path : string)
| NegativeSuccess (path : string)
| UnterminatedRule
| NoNormativeRules.

(** The part of [s] after its last hyphen. *)
Definition rule_suffix (s : string) : string := default "" (last (split_on "-"%char s)).

Definition is_ascii_uppercase (c : ascii) : bool := bool_decide (65 ≤ N_of_ascii c) && bool_decide (N_of_ascii c ≤ 90).

Definition valid_rule_id (identifier : string) : bool :=
  starts_with "SYL-" identifier && bool_decide (11 ≤ String.length identifier)%nat &&
  all_characters (λ c, is_ascii_uppercase c || is_ascii_digit c || bool_decide (c = "-"%char)) identifier &&
  (bool_decide (String.length (rule_suffix identifier) = 3%nat) && all_characters is_ascii_digit (rule_suffix identifier)).

Fixpoint check_rules (rules : list string) (seen : gset string) : result unit ConformanceError :=
  match rules with
  | [] => Ok tt
  | rule :: rules =>
      if negb (valid_rule_id rule) then Err (InvalidRule rule)
      else if bool_decide (rule ∈ seen) then Err (DuplicateRule rule)
      else check_rules rules ({[rule]} ∪ seen)
  end.

Definition validate_case_rules (source : string) (rules : list string) : result unit ConformanceError :=
  match rules with [] => Err (NoRules source) | _ => check_rules rules ∅ end.

Definition load_expected (expected : ExpectedOutcome) : result ExpectedOutcome ConformanceError :=
  match expected with
  | ExpectPass => Ok ExpectPass
  | ExpectDiagnostics codes =>
      if bool_decide (codes = []) || existsb blank codes then Err EmptyCodes else Ok (ExpectDiagnostics codes)
  | ExpectRun stdout exit_code => Ok (ExpectRun stdout exit_code)
  end.

Definition validate_polarity (source : string) (polarity : CasePolarity) (expected : ExpectedOutcome) : result unit ConformanceError :=
  match polarity, expected with
  | Positive, ExpectDiagnostics _ => Err (PositiveDiagnostics source)
  | Negative, ExpectPass | Negative, ExpectRun _ _ => Err (NegativeSuccess source)
  | _, _ => Ok tt
  end.

(** A path of names only, with the extension syl. *)
Definition safe_source (path : string) : bool :=
  negb (starts_with "/" path) && forallb is_normal (components path) && is_syl path.

Section cases.
Context (d : disk).

(** [load_case], with the editions and paths seen; paths are equal by components. *)
Definition load_case (root : string) (c : ManifestCase) (identities : list (string * list Component))
    : result (ConformanceCase * list (string * list Component)) ConformanceError :=
  if blank (mc_edition c) then Err EmptyEdition
  else if negb (safe_source (mc_source c)) then Err (UnsafeSource (mc_source c))
  else
    let source := join_path root (mc_source c) in
    let identity := (mc_edition c, components source) in
    if negb (is_file d source) then Err (MissingSource source)
    else if bool_decide (identity ∈ identities) then Err (DuplicateCase (mc_edition c) source)
    else match validate_case_rules source (mc_rules c) with
    | Err e => Err e
    | Ok _ =>
        match load_expected (mc_expected c) with
        | Err e => Err e
        | Ok expected =>
            match validate_polarity source (mc_polarity c) expected with
            | Err e => Err e
            | Ok _ =>
                Ok ({| cc_edition := mc_edition c; cc_source := source; cc_rules := mc_rules c; cc_polarity := mc_polarity c; cc_expected := expected |},
                    identity :: identities)
            end
        end
    end.

Fixpoint load_each (root : string) (cases : list ManifestCase) (identities : list (string * list Component)) : result (list ConformanceCase) ConformanceError :=
  match cases with
  | [] => Ok []
  | c :: cases =>
      match load_case root c identities with
      | Err e => Err e
      | Ok (loaded, identities) => match load_each root cases identities with Err e => Err e | Ok more => Ok (loaded :: more) end
      end
  end.

(** By path and then edition. *)
Definition case_le (a b : ConformanceCase) : bool :=
  if same_path (cc_source a) (cc_source b) then bool_decide (string_le (cc_edition a) (cc_edition b)) else path_le (cc_source a) (cc_source b).

Definition load_cases (io : faults) (canonicalize : string → result string IoFailure) (decode : string → result CaseManifest string) (root : string)
    : result (list ConformanceCase) ConformanceError :=
  match canonicalize root with
  | Err e => Err (RootUnresolved e)
  | Ok root =>
      match read_text io d (join_path root "manifest.json") with
      | Err e => Err (CasesUnreadable e)
      | Ok text =>
          match decode text with
          | Err reason => Err (CasesUnparsed reason)
          | Ok m =>
              if bool_decide (cm_schema_version m ≠ 1) then Err (UnsupportedSchema (cm_schema_version m))
              else match load_each root (cm_cases m) [] with Err e => Err e | Ok cases => Ok (stable_sort case_le cases) end
          end
      end
  end.
End cases.

(** ** Normative rules *)

Record RuleCoverageGap := { gap_rule : string; missing_positive : bool; missing_negative : bool }.

(** [s.find(part)]: what follows the first occurrence of a part. *)
Fixpoint find_text (part s : string) : option string :=
  match strip_prefix part s with
  | Some rest => Some rest
  | None => match s with EmptyString => None | String _ s => find_text part s end
  end.

(** What precedes the first occurrence of a character. *)
Fixpoint text_before (c : ascii) (s : string) : option string :=
  match s with
  | EmptyString => None
  | String x s => if bool_decide (x = c) then Some "" else String x <$> text_before c s
  end.

Definition backquote : ascii := "096"%char.

(** The identifier a line defines: the first one quoted. *)
Definition line_rule (line : string) : option (result string ConformanceError) :=
  match find_text (String backquote "SYL-") line with
  | None => None
  | Some rest => Some match text_before backquote rest with
                      | None => Err UnterminatedRule
                      | Some name => Ok ("SYL-" +:+ name)
                      end
  end.

Fixpoint collect_rules (lines : list string) (rules : gset string) : result (gset string) ConformanceError :=
  match lines with
  | [] => Ok rules
  | line :: lines =>
      match line_rule line with
      | None => collect_rules lines rules
      | Some (Err e) => Err e
      | Some (Ok rule) =>
          if negb (valid_rule_id rule) then Err (InvalidRule rule)
          else if bool_decide (rule ∈ rules) then Err (DuplicateRule rule)
          else collect_rules lines ({[rule]} ∪ rules)
      end
  end.

Definition load_normative_rule_ids (io : faults) (d : disk) (path : string) : result (list string) ConformanceError :=
  match read_text io d path with
  | Err e => Err (CasesUnreadable e)
  | Ok contents =>
      match collect_rules (source_lines contents) ∅ with
      | Err e => Err e
      | Ok rules => if bool_decide (rules = ∅) then Err NoNormativeRules else Ok (merge_sort string_le (elements rules))
      end
  end.

(** The rules the cases of a polarity name. *)
Definition rules_of (polarity : CasePolarity) (cases : list ConformanceCase) : gset string :=
  list_to_set (flat_map (λ c, if bool_decide (cc_polarity c = polarity) then cc_rules c else []) cases).

Definition validate_rule_coverage (normative_rules : list string) (cases : list ConformanceCase) : list RuleCoverageGap :=
  let normative : gset string := list_to_set normative_rules in
  let positive := rules_of Positive cases in
  let negative := rules_of Negative cases in
  omap (λ rule,
    let missing_positive := negb (bool_decide (rule ∈ positive)) in
    let missing_negative := negb (bool_decide (rule ∈ negative)) in
    if negb (bool_decide (rule ∈ normative)) || missing_positive || missing_negative
    then Some {| gap_rule := rule; missing_positive := missing_positive; missing_negative := missing_negative |} else None)
    (merge_sort string_le (elements (normative ∪ (positive ∪ negative)))).

(** ** Documents *)

Definition REQUIRED_DOCUMENTS : list string :=
  ["docs/governance/versioning.md"; "docs/governance/rfc-process.md"; "docs/governance/security.md"; "docs/adr/0001-compiler-pipeline.md"].

Definition REQUIRED_SECTIONS : list string := ["## Status"; "## Decision"; "## Compatibility"; "## Security impact"].

Definition CANONICAL_REPOSITORY_URL : string := "https://github.com/Guruprasath-Annadurai/Syllog".

Definition REQUIRED_ROOT_DOCUMENTS : list string :=
  ["CODE_OF_CONDUCT.md"; "CONTRIBUTING.md"; "ROADMAP.md"; "SECURITY.md"; "docs/supported-platforms.md"].

Record GovernanceIssue := { gi_path : string; missing_sections : list string }.
Record RepositoryTruthIssue := { ri_code : string; ri_path : string; ri_message : string }.

Section documents.
Context (read_dir : string → result (list (result DirEntry IoFailure)) IoFailure) (io : faults) (d : disk).

(** A set of paths, equal by components. *)
Definition insert_path (path : string) (paths : list string) : list string := if existsb (same_path path) paths then paths else path :: paths.

(** The loop over the entries of a directory. *)
Fixpoint markdown_entries (directory : string) (entries : list (result DirEntry IoFailure)) (paths : list string) : result (list string) IoFailure :=
  match entries with
  | [] => Ok paths
  | Err e :: _ => Err e
  | Ok entry :: entries =>
      match de_type entry with
      | Err e => Err e
      | Ok RegularFile =>
          markdown_entries directory entries
            (if bool_decide (extension (de_name entry) = Some "md") then insert_path (join_path directory (de_name entry)) paths else paths)
      | Ok _ => markdown_entries directory entries paths
      end
  end.

Fixpoint governance_paths (repository : string) (directories paths : list string) : result (list string) IoFailure :=
  match directories with
  | [] => Ok paths
  | directory :: directories =>
      match read_dir (join_path repository directory) with
      | Err Missing => governance_paths repository directories paths
      | Err e => Err e
      | Ok entries => match markdown_entries directory entries paths with Err e => Err e | Ok paths => governance_paths repository directories paths end
      end
  end.

Definition absent_sections (contents : string) : list string :=
  map (λ heading, default heading (strip_prefix "## " heading))
    (List.filter (λ heading, negb (existsb (trims_to heading) (source_lines contents))) REQUIRED_SECTIONS).

Fixpoint governance_issues (repository : string) (paths : list string) : result (list GovernanceIssue) IoFailure :=
  match paths with
  | [] => Ok []
  | relative :: paths =>
      match read_text io d (join_path repository relative) with
      | Err (Refusal text) => Err (Refusal text)
      | Err Missing =>
          match governance_issues repository paths with Err e => Err e | Ok more => Ok ({| gi_path := relative; missing_sections := ["document"] |} :: more) end
      | Ok contents =>
          match governance_issues repository paths with
          | Err e => Err e
          | Ok more => Ok (match absent_sections contents with [] => more | missing => {| gi_path := relative; missing_sections := missing |} :: more end)
          end
      end
  end.

Definition validate_governance (repository : string) : result (list GovernanceIssue) IoFailure :=
  match governance_paths repository ["docs/governance"; "docs/adr"] (foldr insert_path [] REQUIRED_DOCUMENTS) with
  | Err e => Err e
  | Ok paths => governance_issues repository (stable_sort path_le paths)
  end.

Definition check_contains (repository : string) (check : string * string * string) : result (list RepositoryTruthIssue) IoFailure :=
  let '(relative, needle, code) := check in
  match read_text io d (join_path repository relative) with
  | Err Missing => Ok [{| ri_code := code; ri_path := relative; ri_message := "required file is missing" |}]
  | Err e => Err e
  | Ok contents => if contains needle contents then Ok [] else Ok [{| ri_code := code; ri_path := relative; ri_message := "required content is absent: " +:+ needle |}]
  end.

Fixpoint check_all (repository : string) (checks : list (string * string * string)) : result (list RepositoryTruthIssue) IoFailure :=
  match checks with
  | [] => Ok []
  | check :: checks =>
      match check_contains repository check with
      | Err e => Err e
      | Ok issues => match check_all repository checks with Err e => Err e | Ok more => Ok (issues ++ more) end
      end
  end.

(** The identity of the repository and its toolchain. *)
Definition identity_checks : list (string * string * string) :=
  [("Cargo.toml", CANONICAL_REPOSITORY_URL, "repository.identity.cargo"); ("README.md", CANONICAL_REPOSITORY_URL, "repository.identity.readme");
   ("rust-toolchain.toml", "channel = " +:+ in_double_quotes "1.88.0", "repository.toolchain.pin");
   ("Cargo.toml", "rust-version = " +:+ in_double_quotes "1.88", "repository.toolchain.msrv");
   (".github/workflows/ci.yml", "RUST_TOOLCHAIN: 1.88.0", "repository.toolchain.ci")].

(** Its automation and the documents that name the authoritative parts. *)
Definition authority_checks : list (string * string * string) :=
  [(".github/workflows/ci.yml", "branches: [main]", "repository.ci.default_branch"); (".github/workflows/ci.yml", "pull_request:", "repository.ci.pull_request");
   (".github/workflows/ci.yml", "ubuntu-latest", "repository.ci.linux"); (".github/workflows/ci.yml", "macos-latest", "repository.ci.macos");
   (".github/workflows/ci.yml", "windows-latest", "repository.ci.windows");
   ("docs/design.md", "crates/syllog-parser/src/grammar.pest", "repository.authority.parser");
   ("docs/design.md", "crates/syllog-compiler", "repository.authority.compiler"); ("docs/feature-status.md", "## Implemented", "repository.status.matrix");
   ("docs/required-branch-checks.md", "workspace (ubuntu-latest)", "repository.ci.required_checks")].

Definition missing_documents (repository : string) : list RepositoryTruthIssue :=
  map (λ document, {| ri_code := "repository.document.missing"; ri_path := document; ri_message := "required Layer 0 document is missing" |})
    (List.filter (λ document, negb (is_file d (join_path repository document))) REQUIRED_ROOT_DOCUMENTS).

Definition validate_repository_truth (repository : string) : result (list RepositoryTruthIssue) IoFailure :=
  match check_all repository identity_checks with
  | Err e => Err e
  | Ok identity =>
      match check_all repository authority_checks with
      | Err e => Err e
      | Ok authority => Ok (identity ++ missing_documents repository ++ authority)
      end
  end.
End documents.

(** * What the contracts check *)

(** ** Coverage *)

Lemma rules_of_elem polarity cases rule : rule ∈ rules_of polarity cases ↔ ∃ c, c ∈ cases ∧ cc_polarity c = polarity ∧ rule ∈ cc_rules c.
Proof.
  unfold rules_of. rewrite elem_of_list_to_set, list_elem_of_In, in_flat_map. setoid_rewrite <-list_elem_of_In. f_equiv. intros c.
  case_bool_decide; set_solver.
Qed.

(** The polarity of a case that names a rule. *)
Definition names_rule (cases : list ConformanceCase) (polarity : CasePolarity) (rule : string) : Prop :=
  ∃ c, c ∈ cases ∧ cc_polarity c = polarity ∧ rule ∈ cc_rules c.

Lemma omap_nil {A B} (f : A → option B) l : omap f l = [] ↔ ∀ x, x ∈ l → f x = None.
Proof.
  induction l as [|x l IH]; cbn; [split; [by intros _ y ?%elem_of_nil|done]|]. destruct (f x) as [y|] eqn:E.
  - split; [done|]. intros Hall. rewrite (Hall x) in E by by left. done.
  - rewrite IH. split; [intros Hl y [->|Hy]%elem_of_cons; auto|]. intros Hall y Hy. apply Hall. by right.
Qed.

(** No gap is reported exactly when the cases cover the language reference: every
    normative rule has an accepted and a rejected program, and no case names a rule
    the reference does not define. *)
Theorem coverage_complete_exactly normative cases :
  validate_rule_coverage normative cases = [] ↔
  (∀ rule, rule ∈ normative → names_rule cases Positive rule ∧ names_rule cases Negative rule) ∧
  ∀ polarity rule, names_rule cases polarity rule → rule ∈ normative.
Proof.
  unfold names_rule. setoid_rewrite <-rules_of_elem. unfold validate_rule_coverage. rewrite omap_nil.
  assert (∀ rule, rule ∈ merge_sort string_le (elements (list_to_set normative ∪ (rules_of Positive cases ∪ rules_of Negative cases) : gset string)) ↔
    rule ∈ normative ∨ rule ∈ rules_of Positive cases ∨ rule ∈ rules_of Negative cases) as Hin.
  { intros rule. by rewrite merge_sort_Permutation, elem_of_elements, !elem_of_union, elem_of_list_to_set. }
  set (covered rule := rule ∈ normative ∧ rule ∈ rules_of Positive cases ∧ rule ∈ rules_of Negative cases).
  assert (∀ rule, (if negb (bool_decide (rule ∈ (list_to_set normative : gset string))) || negb (bool_decide (rule ∈ rules_of Positive cases))
      || negb (bool_decide (rule ∈ rules_of Negative cases))
    then Some {| gap_rule := rule; missing_positive := negb (bool_decide (rule ∈ rules_of Positive cases));
                 missing_negative := negb (bool_decide (rule ∈ rules_of Negative cases)) |} else None) = None ↔ covered rule) as Hgap.
  { intros rule. unfold covered. rewrite <-(elem_of_list_to_set (C := gset string)). repeat case_bool_decide; cbn; naive_solver. }
  split.
  - intros Hall. split.
    + intros rule Hr. apply (Hgap rule), Hall, Hin. by left.
    + intros [] rule Hr; apply (Hgap rule), Hall, Hin; auto.
  - intros [H1 H2] rule Hr%Hin. apply Hgap. assert (rule ∈ normative) as Hn by (destruct Hr as [?|[?|?]]; eauto). split; [done|by apply H1].
Qed.

(** ** Cases *)

(** A case the loader takes. *)
Record case_ok (d : disk) (root : string) (c : ManifestCase) : Prop := {
  co_edition : blank (mc_edition c) = false;
  co_source : safe_source (mc_source c) = true ∧ is_file d (join_path root (mc_source c)) = true;
  co_rules : mc_rules c ≠ [] ∧ NoDup (mc_rules c) ∧ Forall (λ rule, valid_rule_id rule = true) (mc_rules c);
  co_expected : match mc_polarity c, mc_expected c with
                | Positive, (ExpectPass | ExpectRun _ _) => True
                | Negative, ExpectDiagnostics codes => codes ≠ [] ∧ existsb blank codes = false
                | _, _ => False
                end
}.

Definition case_key (root : string) (c : ManifestCase) : string * list Component := (mc_edition c, components (join_path root (mc_source c))).

Definition loaded_case (root : string) (c : ManifestCase) : ConformanceCase :=
  {| cc_edition := mc_edition c; cc_source := join_path root (mc_source c); cc_rules := mc_rules c; cc_polarity := mc_polarity c; cc_expected := mc_expected c |}.

Lemma check_rules_ok rules : ∀ seen, check_rules rules seen = Ok tt ↔
  NoDup rules ∧ Forall (λ rule, valid_rule_id rule = true) rules ∧ ∀ rule, rule ∈ rules → rule ∉ seen.
Proof.
  induction rules as [|rule rules IH]; intros seen; cbn [check_rules].
  - split; [|done]. intros _. split_and!; [constructor|constructor|by intros ? ?%elem_of_nil].
  - rewrite NoDup_cons, Forall_cons. setoid_rewrite elem_of_cons. destruct (valid_rule_id rule); cbn [negb]; [|naive_solver].
    case_bool_decide as Hin; [split; [done|]; intros (_ & _ & Hnot); by destruct (Hnot rule (or_introl eq_refl))|]. rewrite IH. split.
    + intros (H1 & H2 & H3). split_and!; [|done|done|done|].
      * intros Hr. apply H3 in Hr. set_solver.
      * intros x [->|Hx]; [done|]. apply H3 in Hx. set_solver.
    + intros ((H1 & H2) & (_ & H3) & H4). split_and!; [done|done|]. intros x Hx [->%elem_of_singleton|Hs]%elem_of_union; [done|]. apply (H4 x); auto.
Qed.

Lemma load_case_ok d root c identities : match load_case d root c identities with
  | Ok (loaded, identities') => case_ok d root c ∧ (case_key root c ∉ identities) ∧ loaded = loaded_case root c ∧ identities' = case_key root c :: identities
  | Err _ => ¬ (case_ok d root c ∧ (case_key root c ∉ identities))
  end.
Proof.
  unfold load_case. fold (case_key root c). destruct (blank (mc_edition c)) eqn:E1; [intros [[] _]; congruence|].
  destruct (safe_source (mc_source c)) eqn:E2; cbn [negb]; [|intros [[_ [] _ _] _]; congruence].
  destruct (is_file d (join_path root (mc_source c))) eqn:E3; cbn [negb]; [|intros [[_ [] _ _] _]; congruence].
  case_bool_decide as E4; [by intros [_ ?]|].
  assert (validate_case_rules (join_path root (mc_source c)) (mc_rules c) = Ok tt ↔
    mc_rules c ≠ [] ∧ NoDup (mc_rules c) ∧ Forall (λ rule, valid_rule_id rule = true) (mc_rules c)) as Hrules.
  { unfold validate_case_rules. destruct (mc_rules c) as [|rule rules] eqn:E; [naive_solver|]. rewrite check_rules_ok. set_solver. }
  destruct (validate_case_rules _ _) as [[]|] eqn:E5; [|intros [[_ _ Hr _] _]; apply Hrules in Hr; done]. pose proof (proj1 Hrules eq_refl) as Hr.
  assert ((case_ok d root c ∧ (case_key root c ∉ identities)) ↔ match mc_polarity c, mc_expected c with
                | Positive, (ExpectPass | ExpectRun _ _) => True
                | Negative, ExpectDiagnostics codes => codes ≠ [] ∧ existsb blank codes = false
                | _, _ => False
                end) as Hok.
  { split; [by intros [[] _]|]. intros He. split; [by split|done]. }
  unfold loaded_case. destruct (mc_expected c) as [|codes|stdout exit_code] eqn:Ee; cbn [load_expected]; destruct (mc_polarity c) eqn:Epol; cbn [validate_polarity].
  1, 5: split_and!; [by apply Hok|done..].
  1, 4: intros Hc; by apply Hok in Hc.
  all: destruct (bool_decide (codes = []) || existsb blank codes) eqn:Ec; [|apply orb_false_iff in Ec as [Hne%bool_decide_eq_false Hb]]; cbn [validate_polarity].
  1, 2: intros Hc; by apply Hok in Hc.
  - intros [Hne Hb]%Hok. rewrite Hb, bool_decide_eq_false_2 in Ec; done.
  - split_and!; [by apply Hok|done..].
Qed.

Lemma load_each_ok d root cases : ∀ identities, match load_each d root cases identities with
  | Ok loaded => Forall (case_ok d root) cases ∧ NoDup (map (case_key root) cases) ∧ (∀ c, c ∈ cases → case_key root c ∉ identities) ∧
      loaded = map (loaded_case root) cases
  | Err _ => ¬ (Forall (case_ok d root) cases ∧ NoDup (map (case_key root) cases) ∧ ∀ c, c ∈ cases → case_key root c ∉ identities)
  end.
Proof.
  induction cases as [|c cases IH]; intros identities; cbn [load_each].
  { split_and!; [constructor|constructor|by intros ? ?%elem_of_nil|done]. }
  pose proof (load_case_ok d root c identities) as Hc. destruct (load_case d root c identities) as [[loaded identities']|].
  2: { intros (Hall & _ & Hnew). apply Hc. split; [exact (Forall_inv Hall)|]. apply Hnew. by left. }
  destruct Hc as (Hok & Hkey & -> & ->). specialize (IH (case_key root c :: identities)). destruct (load_each _ _ _ _) as [more|].
  - destruct IH as (H1 & H2 & H3 & ->). split_and!; [by constructor| |..|done].
    + cbn. apply NoDup_cons. split; [|done]. intros (c' & E & Hin)%list_elem_of_fmap. apply (H3 c' Hin). rewrite E. by left.
    + intros c' [->|Hin]%elem_of_cons; [done|]. intros Hbad. apply (H3 c' Hin). by right.
  - intros (Hall & Hd & Hnew). apply IH. cbn in Hd. apply NoDup_cons in Hd as [Hfresh Hd]. split_and!; [exact (Forall_inv_tail Hall)|done|].
    intros c' Hin [E|Hbad]%elem_of_cons; [|by apply (Hnew c'); [right|]]. apply Hfresh. rewrite <-E. by apply list_elem_of_fmap_2.
Qed.

(** A conformance manifest is loaded exactly when it has the known schema, every case
    has an edition, a source inside the root that exists, distinct and valid rules and an
    expectation of its polarity, and no two cases have the same edition and source;
    the cases come back as they were written, with their sources resolved. *)
Theorem cases_loaded_exactly io d canonicalize decode root resolved text m :
  canonicalize root = Ok resolved → read_text io d (join_path resolved "manifest.json") = Ok text → decode text = Ok m →
  match load_cases d io canonicalize decode root with
  | Ok cases => cm_schema_version m = 1 ∧ Forall (case_ok d resolved) (cm_cases m) ∧ NoDup (map (case_key resolved) (cm_cases m)) ∧
      cases ≡ₚ map (loaded_case resolved) (cm_cases m)
  | Err _ => ¬ (cm_schema_version m = 1 ∧ Forall (case_ok d resolved) (cm_cases m) ∧ NoDup (map (case_key resolved) (cm_cases m)))
  end.
Proof.
  intros Hroot Htext Hm. unfold load_cases. rewrite Hroot, Htext, Hm. case_bool_decide as Hv; [by intros [? _]|].
  pose proof (load_each_ok d resolved (cm_cases m) []) as Hl. destruct (load_each _ _ _ []) as [cases|].
  - destruct Hl as (H1 & H2 & _ & ->). split_and!; [done..|]. apply stable_sort_perm.
  - intros (_ & H1 & H2). apply Hl. split_and!; [done..|]. intros c _ ?%elem_of_nil. done.
Qed.

(** ** Rule identifiers *)

(** The reference says that identifiers have the form SYL-AREA-NAME-NNN; areas and names
    may be missing. *)
Theorem degenerate_rules_accepted : map valid_rule_id ["SYL-VALUE-NAME-001"; "SYL-----000"; "SYL-0000-000"; "SYL-A-B-00"] = [true; true; true; false].
Proof. vm_compute. reflexivity. Qed.

(** ** The repository *)

Definition satisfied (io : faults) (d : disk) (repository : string) (check : string * string * string) : Prop :=
  ∃ contents, read_text io d (join_path repository check.1.1) = Ok contents ∧ contains check.1.2 contents = true.

Lemma check_all_ok io d repository checks : check_all io d repository checks = Ok [] ↔ Forall (satisfied io d repository) checks.
Proof.
  induction checks as [|[[relative needle] code] checks IH]; cbn [check_all]; [done|]. rewrite Forall_cons. unfold satisfied at 1. cbn [fst snd].
  unfold check_contains. destruct (read_text io d (join_path repository relative)) as [contents|[]].
  - destruct (contains needle contents) eqn:E.
    + destruct (check_all io d repository checks) as [more|] eqn:Em; cbn [app].
      * split; [intros [= ->]; split; [by eexists|by apply IH]|]. intros [_ H%IH]. by injection H as ->.
      * split; [done|]. intros [_ H%IH]. done.
    + split; [by destruct (check_all io d repository checks)|]. intros [(c & [= <-] & ?) _]. congruence.
  - split; [by destruct (check_all io d repository checks)|]. by intros [(c & ? & _) _].
  - split; [done|]. by intros [(c & ? & _) _].
Qed.

(** The repository passes exactly when each required document exists and each checked
    file has the text that is required of it. *)
Theorem repository_truth_exact io d repository :
  validate_repository_truth io d repository = Ok [] ↔
  Forall (satisfied io d repository) (identity_checks ++ authority_checks) ∧
  Forall (λ document, is_file d (join_path repository document) = true) REQUIRED_ROOT_DOCUMENTS.
Proof.
  assert (missing_documents d repository = [] ↔ Forall (λ document, is_file d (join_path repository document) = true) REQUIRED_ROOT_DOCUMENTS) as Hd.
  { unfold missing_documents. rewrite Forall_forall. split.
    - intros E%map_eq_nil document Hin%list_elem_of_In. destruct (is_file d (join_path repository document)) eqn:Ef; [done|].
      assert (In document (List.filter (λ document, negb (is_file d (join_path repository document))) REQUIRED_ROOT_DOCUMENTS)) as Hf
        by (apply filter_In; by rewrite Ef). by rewrite E in Hf.
    - intros Hall. destruct (List.filter _ _) as [|document l] eqn:E; [done|].
      assert (In document (List.filter (λ document, negb (is_file d (join_path repository document))) REQUIRED_ROOT_DOCUMENTS)) as Hf by (rewrite E; by left).
      apply filter_In in Hf as [Hin Hf]. apply list_elem_of_In in Hin. by rewrite (Hall document Hin) in Hf. }
  unfold validate_repository_truth. rewrite Forall_app, <-!check_all_ok, <-Hd.
  destruct (check_all io d repository identity_checks) as [a|], (check_all io d repository authority_checks) as [b|]; try naive_solver. split.
  - intros [= [-> [-> ->]%app_nil]%app_nil]. done.
  - intros [[[= ->] [= ->]] ->]. done.
Qed.
