(* ===== verification/DevServer.v ===== *)
(** * Development server (crates/syllog-dev-server/src/lib.rs, crates/syllog-cli/src/commands/dev.rs)

    The loop polls the sources of the targets, waits until a changed one is quiet and
    rebuilds it; its events are printed by [syllog dev].  A poll is a step with the
    instants and file contents it meets, a receiver takes all events or is dropped
    after some.  Target paths are normalised, so that equal paths are equal strings;
    a counter per target stays below 2^64. *)

From Stdlib Require Import Ascii.
From stdpp Require Import base gmap strings numbers pretty list.
From S2P Require Import Prelude Text Ir Hir Diagnostics Ast Resolver Registry Storage.
From S2P Require Import Project Pest Parser ParserPratt ParserRoundTrip Compile.
Open Scope string_scope.
Open Scope list_scope.
Open Scope N_scope.

(** ** Events and state *)

Inductive DevEvent :=
| Building (id : N)
| DevDiagnostics (report : EditorReport)
| DevReady (target digest : string)
| RuntimeRestarted.

Record DevOptions := { poll_interval : N; debounce : N }.

(** Milliseconds *)
Definition dev_options_default : DevOptions := {| poll_interval := 50; debounce := 100 |}.

Record DevStats := { total_builds : N; by_target : gmap string N }.

#[export] Instance target_eq_dec : EqDecision Target.
Proof. solve_decision. Defined.

(** A build and what it read, kept for the theorems. *)
Record Build := { bd_target : Target; bd_content : option bytes }.

(** The variables of [run_loop], the events sent, the builds made, and how many more
    events are taken when the receiver is dropped at some point. *)
Record DevState := {
  observed : gmap string (option string);
  pending_changes : gmap string N;
  next_build : N;
  dev_stats : DevStats;
  dev_sent : list DevEvent;
  dev_built : list Build;
  dev_room : option nat
}.

Definition dev_initial (room : option nat) : DevState :=
  {| observed := ∅; pending_changes := ∅; next_build := 1; dev_stats := {| total_builds := 0; by_target := ∅ |}; dev_sent := []; dev_built := [];
     dev_room := room |}.

Inductive DevLoop := Running (s : DevState) | Stopped (s : DevState) | Panicked (s : DevState).

(** [sender.send(event).await] *)
Definition send_event (e : DevEvent) (s : DevState) : option DevState :=
  match dev_room s with
  | Some O => None
  | room => Some {| observed := observed s; pending_changes := pending_changes s; next_build := next_build s; dev_stats := dev_stats s;
                    dev_sent := dev_sent s ++ [e]; dev_built := dev_built s; dev_room := pred <$> room |}
  end.

Definition count_build (target : string) (s : DevStats) : DevStats :=
  {| total_builds := u64_saturating_add (total_builds s) 1; by_target := <[target := default 0 (by_target s !! target) + 1]> (by_target s) |}.

Definition with_stats (stats : DevStats) (s : DevState) : DevState :=
  {| observed := observed s; pending_changes := pending_changes s; next_build := next_build s; dev_stats := stats;
     dev_sent := dev_sent s; dev_built := dev_built s; dev_room := dev_room s |}.

Definition with_build (b : Build) (s : DevState) : DevState :=
  {| observed := observed s; pending_changes := pending_changes s; next_build := next_build s; dev_stats := dev_stats s;
     dev_sent := dev_sent s; dev_built := dev_built s ++ [b]; dev_room := dev_room s |}.

Definition without_pending (path : string) (s : DevState) : DevState :=
  {| observed := observed s; pending_changes := delete path (pending_changes s); next_build := next_build s; dev_stats := dev_stats s;
     dev_sent := dev_sent s; dev_built := dev_built s; dev_room := dev_room s |}.

Definition changed_at (now : N) (path : string) (fingerprint : option string) (s : DevState) : DevState :=
  {| observed := <[path := fingerprint]> (observed s); pending_changes := <[path := now]> (pending_changes s); next_build := next_build s;
     dev_stats := dev_stats s; dev_sent := dev_sent s; dev_built := dev_built s; dev_room := dev_room s |}.

Definition next_id (s : DevState) : DevState :=
  {| observed := observed s; pending_changes := pending_changes s; next_build := u64_saturating_add (next_build s) 1; dev_stats := dev_stats s;
     dev_sent := dev_sent s; dev_built := dev_built s; dev_room := dev_room s |}.

(** ** The order of paths *)

Definition component_key (c : Component) : N * string :=
  match c with RootDir => (1, "") | CurDir => (2, "") | ParentDir => (3, "") | Normal name => (4, name) end.

(** [PathBuf] is ordered by its components. *)
Fixpoint components_le (a b : list Component) : bool :=
  match a, b with
  | [], _ => true
  | _, [] => false
  | x :: a, y :: b =>
      let (i, s) := component_key x in
      let (j, t) := component_key y in
      if bool_decide (i = j ∧ s = t) then components_le a b
      else (i <? j) || (bool_decide (i = j) && String.leb s t)
  end.

Definition path_le (a b : string) : bool := components_le (components a) (components b).

(** ** The loop *)

Section server.
Context `{Syntax} (sha256 : bytes → string).

(** [fs::read], digested *)
Definition source_fingerprint (content : option bytes) : option string := sha256 <$> content.

(** One pass per target, at one instant. *)
Fixpoint observe_changes (now : N) (seen : string → option bytes) (targets : list Target) (s : DevState) : DevState :=
  match targets with
  | [] => s
  | t :: targets =>
      let path := tg_path t in
      let fingerprint := source_fingerprint (seen path) in
      observe_changes now seen targets
        (if bool_decide (observed s !! path = Some fingerprint) then s
         else changed_at now path fingerprint s)
  end.

(** [build_target]; a panic of the compiler ends the task. *)
Definition build_target (target : Target) (id : N) (content : option bytes) (s : DevState) : DevLoop :=
  let s := with_stats (count_build (tg_name target) (dev_stats s)) s in
  match send_event (Building id) s with
  | None => Stopped s
  | Some s =>
      let source := default "" (content ≫= from_utf8) in
      let s := with_build {| bd_target := target; bd_content := content |} s in
      match compile (tg_path target) source with
      | None => Panicked s
      | Some c =>
          match send_event (DevDiagnostics (editor_report c)) s with
          | None => Stopped s
          | Some s =>
              if success c then
                match send_event (DevReady (tg_name target) (sha256 (String.list_byte_of_string source))) s with
                | None => Stopped s
                | Some s => match send_event RuntimeRestarted s with None => Stopped s | Some s => Running s end
                end
              else Running s
          end
      end
  end.

(** The loop over the quiet paths, with what each build reads. *)
Fixpoint build_ready (targets : list Target) (read : string → option bytes) (ready : list string) (s : DevState) : DevLoop :=
  match ready with
  | [] => Running s
  | path :: ready =>
      let s := without_pending path s in
      match List.find (λ t, bool_decide (tg_path t = path)) targets with
      | None => build_ready targets read ready s
      | Some target =>
          match build_target target (next_build s) (read path) s with
          | Running s => build_ready targets read ready (next_id s)
          | other => other
          end
      end
  end.

(** A poll: when it observes and when it looks for quiet paths, and the contents it
    observes and builds. *)
Record Tick := { tk_observe : N; tk_check : N; tk_seen : string → option bytes; tk_read : string → option bytes }.

Definition ready_paths (quiet check : N) (pending : gmap string N) : list string :=
  stable_sort path_le (map fst (List.filter (λ '(_, changed), bool_decide (quiet ≤ check - changed)) (map_to_list pending))).

Definition dev_tick (options : DevOptions) (targets : list Target) (t : Tick) (s : DevState) : DevLoop :=
  let s := observe_changes (tk_observe t) (tk_seen t) targets s in
  build_ready targets (tk_read t) (ready_paths (debounce options) (tk_check t) (pending_changes s)) s.

Fixpoint run_loop (options : DevOptions) (targets : list Target) (ticks : list Tick) (s : DevState) : DevLoop :=
  match ticks with
  | [] => Running s
  | t :: ticks => match dev_tick options targets t s with Running s => run_loop options targets ticks s | other => other end
  end.

Inductive DevError := NoTargets.

(** [serve]: the loop's first state. *)
Definition serve (project : Project) (room : option nat) : result DevState DevError :=
  match mf_targets (pj_manifest project) with [] => Err NoTargets | _ => Ok (dev_initial room) end.
End server.

(** ** [syllog dev] *)

Definition terminal_builds (e : DevEvent) : nat :=
  match e with
  | RuntimeRestarted => 1
  | DevDiagnostics report => if report_success report then 0 else 1
  | _ => 0
  end.

(** The events printed, and whether [--once] has ended the command. *)
Fixpoint dev_consume (once : bool) (target_count completed : nat) (events : list DevEvent) : list DevEvent * bool :=
  match events with
  | [] => ([], false)
  | e :: events =>
      let completed := (completed + terminal_builds e)%nat in
      if once && (target_count <=? completed)%nat then ([e], true)
      else let '(printed, done) := dev_consume once target_count completed events in (e :: printed, done)
  end.

Inductive DevLine := OutLine (text : string) | ErrLine (text : string).

Section render_event.
Context (to_json : DevEvent → result string string) (message_text : DiagnosticMessage → string).

Definition diagnostic_line (d : EditorDiagnostic) : DevLine :=
  ErrLine (ed_file d +:+ ":" +:+ pretty (ep_line (range_start (ed_range d)) + 1) +:+ ":" +:+ pretty (ep_column (range_start (ed_range d)) + 1)
           +:+ ": " +:+ ed_severity d +:+ "[" +:+ ed_code d +:+ "]: " +:+ message_text (ed_message d)).

Definition render_event (json : bool) (e : DevEvent) : result (list DevLine) string :=
  if json then match to_json e with Ok text => Ok [OutLine text] | Err reason => Err reason end
  else Ok match e with
          | Building id => [OutLine ("building #" +:+ pretty id)]
          | DevDiagnostics report => if report_success report then [OutLine "checked successfully"] else map diagnostic_line (report_diagnostics report)
          | DevReady target digest => [OutLine ("ready " +:+ target +:+ " " +:+ string_take (12 `min` String.length digest) digest)]
          | RuntimeRestarted => [OutLine "runtime restarted"]
          end.
End render_event.

(** ** What a session builds *)

Section session.
Context `{Syntax} (sha256 : bytes → string) (options : DevOptions) (targets : list Target).

(** The events of one build. *)
Definition build_events (id : N) (b : Build) : list DevEvent :=
  let source := default "" (bd_content b ≫= from_utf8) in
  Building id :: match compile (tg_path (bd_target b)) source with
                 | Some c => DevDiagnostics (editor_report c) ::
                             if success c then [DevReady (tg_name (bd_target b)) (sha256 (String.list_byte_of_string source)); RuntimeRestarted] else []
                 | None => []
                 end.

Definition builds_of (path : string) (l : list Build) : list Build := List.filter (λ b, bool_decide (tg_path (bd_target b) = path)) l.
Definition builds_for (target : Target) (l : list Build) : list Build := List.filter (λ b, bool_decide (bd_target b = target)) l.
Definition builds_named (name : string) (l : list Build) : list Build := List.filter (λ b, bool_decide (tg_name (bd_target b) = name)) l.

Definition is_target (path : string) : Prop := ∃ t, t ∈ targets ∧ tg_path t = path.

(** The events and counters are those of the builds made. *)
Record logged (s : DevState) : Prop := {
  lg_sent : dev_sent s = concat (imap (λ i b, build_events (N.min (N.of_nat i + 1) u64_max) b) (dev_built s));
  lg_next : next_build s = N.min (N.of_nat (length (dev_built s)) + 1) u64_max;
  lg_total : total_builds (dev_stats s) = N.min (N.of_nat (length (dev_built s))) u64_max;
  lg_named name : default 0 (by_target (dev_stats s) !! name) = N.of_nat (length (builds_named name (dev_built s)))
}.

(** A source observed is waiting, or its last build read what was observed. *)
Record up_to_date (s : DevState) : Prop := {
  ud_target path : is_Some (observed s !! path) → is_target path;
  ud_pending path : is_Some (pending_changes s !! path) → is_Some (observed s !! path);
  ud_known : Forall (λ b, bd_target b ∈ targets) (dev_built s);
  ud_built path f : observed s !! path = Some f → pending_changes s !! path = None →
    ∃ b, last (builds_of path (dev_built s)) = Some b ∧ source_fingerprint sha256 (bd_content b) = f
}.

Lemma observe_changes_log now seen ts s : let s' := observe_changes sha256 now seen ts s in
  dev_sent s' = dev_sent s ∧ dev_built s' = dev_built s ∧ next_build s' = next_build s ∧ dev_stats s' = dev_stats s ∧ dev_room s' = dev_room s.
Proof. revert s. induction ts as [|t ts IH]; intros s; cbn; [done|]. case_bool_decide; [apply IH|]. by destruct (IH (changed_at now (tg_path t) (source_fingerprint sha256 (seen (tg_path t))) s)) as (-> & -> & -> & -> & ->). Qed.

Lemma observe_changes_maps now seen ts s : let s' := observe_changes sha256 now seen ts s in
  ∀ path, let f := source_fingerprint sha256 (seen path) in
  if bool_decide (path ∈ map tg_path ts) then
    observed s' !! path = Some f ∧ pending_changes s' !! path = (if bool_decide (observed s !! path = Some f) then pending_changes s !! path else Some now)
  else observed s' !! path = observed s !! path ∧ pending_changes s' !! path = pending_changes s !! path.
Proof.
  revert s. induction ts as [|t ts IH]; intros s; cbn [observe_changes map]; intros path; [done|]. cbv zeta.
  set (s1 := if bool_decide _ then s else _). specialize (IH s1 path). cbv zeta in IH. set (s' := observe_changes _ _ _ _ s1) in *.
  assert (observed s1 !! path = (if bool_decide (tg_path t = path) then Some (source_fingerprint sha256 (seen path)) else observed s !! path) ∧
    pending_changes s1 !! path = (if bool_decide (tg_path t = path) && negb (bool_decide (observed s !! path = Some (source_fingerprint sha256 (seen path))))
                                  then Some now else pending_changes s !! path)) as [Ho Hp].
  { unfold s1. destruct (decide (observed s !! tg_path t = Some (source_fingerprint sha256 (seen (tg_path t))))) as [E1|E1];
      [rewrite (bool_decide_eq_true_2 _ E1)|rewrite (bool_decide_eq_false_2 _ E1)]; destruct (decide (tg_path t = path)) as [<-|E2];
      rewrite ?(bool_decide_eq_true_2 (tg_path t = tg_path t)) by done; rewrite ?(bool_decide_eq_false_2 _ E2); cbn [andb negb].
    - by rewrite (bool_decide_eq_true_2 _ E1).
    - done.
    - rewrite (bool_decide_eq_false_2 _ E1). cbn. by rewrite !lookup_insert_eq.
    - cbn. by rewrite !lookup_insert_ne. }
  destruct (decide (tg_path t = path)) as [<-|Hne].
  - rewrite (bool_decide_eq_true_2 (tg_path t = tg_path t)) in Ho, Hp by done. cbn [andb] in Hp. rewrite bool_decide_eq_true_2 by (by left).
    destruct (bool_decide (tg_path t ∈ map tg_path ts)).
    + destruct IH as [-> ->]. rewrite (bool_decide_eq_true_2 _ Ho). split; [done|]. rewrite Hp. by case_bool_decide.
    + destruct IH as [-> ->]. split; [done|]. rewrite Hp. by case_bool_decide.
  - rewrite (bool_decide_eq_false_2 _ Hne) in Ho, Hp. cbn [andb] in Hp. rewrite Ho, Hp in IH.
    assert (bool_decide (path ∈ tg_path t :: map tg_path ts) = bool_decide (path ∈ map tg_path ts)) as -> by (apply bool_decide_ext; set_solver). done.
Qed.

(** A build that the loop survives. *)
Lemma build_target_runs target content s s' : build_target sha256 target (next_build s) content s = Running s' →
  let b := {| bd_target := target; bd_content := content |} in
  observed s' = observed s ∧ pending_changes s' = pending_changes s ∧ next_build s' = next_build s ∧ dev_built s' = dev_built s ++ [b] ∧
  dev_stats s' = count_build (tg_name target) (dev_stats s) ∧ dev_sent s' = dev_sent s ++ build_events (next_build s) b.
Proof.
  assert (∀ e s1 s2, send_event e s1 = Some s2 → observed s2 = observed s1 ∧ pending_changes s2 = pending_changes s1 ∧ next_build s2 = next_build s1 ∧
    dev_built s2 = dev_built s1 ∧ dev_stats s2 = dev_stats s1 ∧ dev_sent s2 = dev_sent s1 ++ [e]) as Hsend.
  { unfold send_event. intros e s1 s2. destruct (dev_room s1) as [[|n]|]; [done|..]; by intros [= <-]. }
  unfold build_target, build_events. cbn zeta. destruct (send_event (Building _) _) as [s1|] eqn:E1; [|done]. apply Hsend in E1 as (O1 & P1 & N1 & B1 & S1 & T1).
  cbn [bd_target bd_content]. destruct (compile _ _) as [c|]; [|done]. destruct (send_event (DevDiagnostics _) _) as [s2|] eqn:E2; [|done].
  apply Hsend in E2 as (O2 & P2 & N2 & B2 & S2 & T2). destruct (success c).
  - destruct (send_event (DevReady _ _) _) as [s3|] eqn:E3; [|done]. apply Hsend in E3 as (O3 & P3 & N3 & B3 & S3 & T3).
    destruct (send_event RuntimeRestarted _) as [s4|] eqn:E4; [|done]. apply Hsend in E4 as (O4 & P4 & N4 & B4 & S4 & T4). intros [= <-].
    rewrite O4, O3, O2, P4, P3, P2, N4, N3, N2, B4, B3, B2, S4, S3, S2, T4, T3, T2. cbn. rewrite O1, P1, N1, B1, S1, T1, <-!app_assoc. done.
  - intros [= <-]. rewrite O2, P2, N2, B2, S2, T2. cbn. rewrite O1, P1, N1, B1, S1, T1, <-!app_assoc. done.
Qed.

Lemma logged_build target content s s' : logged s → build_target sha256 target (next_build s) content s = Running s' → logged (next_id s').
Proof.
  intros [Hsent Hnext Htotal Hnamed] (_ & _ & N1 & B1 & S1 & T1)%build_target_runs. split; cbn.
  - rewrite T1, B1, Hsent, imap_app, concat_app. cbn. by rewrite app_nil_r, Nat.add_0_r, Hnext.
  - rewrite N1, B1, Hnext, length_app. cbn. unfold u64_saturating_add. lia.
  - rewrite S1, B1, length_app. cbn. rewrite Htotal. unfold u64_saturating_add. lia.
  - intros name. rewrite S1, B1. unfold builds_named. rewrite List.filter_app, length_app. cbn. specialize (Hnamed name). unfold builds_named in Hnamed.
    case_bool_decide as E; cbn.
    + rewrite <-E, lookup_insert_eq. cbn. rewrite E, Hnamed. lia.
    + rewrite lookup_insert_ne by done. rewrite Hnamed. lia.
Qed.

(** Quiet paths are built, from what was observed of them. *)
Lemma build_ready_runs read ready : ∀ s s', build_ready sha256 targets read ready s = Running s' → logged s → up_to_date s →
  (∀ path, path ∈ ready → observed s !! path = Some (source_fingerprint sha256 (read path))) →
  logged s' ∧ up_to_date s' ∧ observed s' = observed s ∧
  ∀ path, pending_changes s' !! path = if bool_decide (path ∈ ready) then None else pending_changes s !! path.
Proof.
  induction ready as [|path ready IH]; intros s s'; cbn [build_ready]; [by intros [= <-] ? ? _|]. intros Hrun Hlog Hup Hread.
  assert (is_target path) as (t & Ht & Hpath) by (eapply ud_target; [done|]; rewrite Hread by (by left); done).
  destruct (List.find _ targets) as [target|] eqn:Ef.
  2: { apply list_elem_of_In, (find_none _ _ Ef), bool_decide_eq_false in Ht. done. }
  apply find_some in Ef as [Hknown%list_elem_of_In Hp%bool_decide_eq_true]. set (s0 := without_pending path s) in *.
  destruct (build_target sha256 target _ _ s0) as [s1|s1|s1] eqn:E; [|done..].
  pose proof (logged_build _ _ _ _ (Build_logged s0 (lg_sent _ Hlog) (lg_next _ Hlog) (lg_total _ Hlog) (lg_named _ Hlog)) E) as Hlog1.
  apply build_target_runs in E as (O1 & P1 & _ & B1 & _ & _). cbn [observed pending_changes dev_built without_pending s0] in O1, P1, B1.
  apply IH in Hrun as (H1 & H2 & H3 & H4); [| |split|].
  - split_and!; [done|done|by rewrite H3; cbn; rewrite O1|]. intros p. rewrite H4. cbn [pending_changes next_id]. rewrite P1.
    destruct (decide (p = path)) as [->|Hne].
    + rewrite lookup_delete_eq. rewrite (bool_decide_eq_true_2 (path ∈ path :: ready)) by (by left). by case_bool_decide.
    + rewrite lookup_delete_ne by done. assert (bool_decide (p ∈ path :: ready) = bool_decide (p ∈ ready)) as -> by (apply bool_decide_ext; set_solver). done.
  - done.
  - cbn. intros p. rewrite O1. apply (ud_target _ Hup).
  - cbn. intros p. rewrite O1, P1. intros [x Hx]. apply lookup_delete_Some in Hx as [_ Hx]. apply (ud_pending _ Hup). by eexists.
  - cbn. rewrite B1. apply Forall_app_2; [apply (ud_known _ Hup)|by apply Forall_singleton].
  - cbn. intros p f. rewrite O1, P1, B1. unfold builds_of. rewrite List.filter_app. cbn. destruct (decide (p = path)) as [->|Hne].
    + rewrite (bool_decide_eq_true_2 _ Hp). intros Hobs _. rewrite last_snoc. eexists. split; [done|]. cbn. rewrite Hread in Hobs by (by left). by injection Hobs.
    + rewrite lookup_delete_ne by done. rewrite bool_decide_eq_false_2 by (by rewrite Hp). rewrite app_nil_r. apply (ud_built _ Hup).
  - cbn. intros p Hin. rewrite O1. apply Hread. by right.
Qed.

(** A poll that builds what it observed. *)
Definition steady (t : Tick) : Prop := ∀ path, tk_read t path = tk_seen t path.

Lemma elem_of_ready path quiet check pending : path ∈ ready_paths quiet check pending ↔ ∃ changed, pending !! path = Some changed ∧ quiet ≤ check - changed.
Proof.
  unfold ready_paths. rewrite stable_sort_perm. rewrite list_elem_of_fmap. split.
  - intros ([p c] & -> & [Hin Hq%bool_decide_eq_true]%list_elem_of_In%filter_In). apply list_elem_of_In, elem_of_map_to_list in Hin. by exists c.
  - intros (c & Hc & Hq). exists (path, c). split; [done|]. apply list_elem_of_In, filter_In. split; [by apply list_elem_of_In, elem_of_map_to_list|].
    by apply bool_decide_eq_true.
Qed.

(** What a poll saw of a path, digested. *)
Definition seen_at (path : string) (t : Tick) : option string := source_fingerprint sha256 (tk_seen t path).

(** The poll that first saw the path as the last of the polls did. *)
Definition last_change (path : string) (ticks : list Tick) (t : Tick) : Prop := ∃ before after, ticks = before ++ t :: after ∧
  (∀ u, last before = Some u → seen_at path u ≠ seen_at path t) ∧ Forall (λ u, seen_at path u = seen_at path t) after.

(** After polls that end with [t], each target was last built from what [t] saw of its
    source, or its source was first seen so less than the quiet period before. *)
Definition fresh (ticks : list Tick) (t : Tick) (s : DevState) : Prop := ∀ target, target ∈ targets →
  (∃ b, last (builds_for target (dev_built s)) = Some b ∧ source_fingerprint sha256 (bd_content b) = seen_at (tg_path target) t) ∨
  ∃ t', last_change (tg_path target) (ticks ++ [t]) t' ∧ tk_check t - tk_observe t' < debounce options.

(** What the loop remembers of the polls. *)
Record remembers (ticks : list Tick) (s : DevState) : Prop := {
  rm_observed path : is_target path → observed s !! path = seen_at path <$> last ticks;
  rm_pending path changed : pending_changes s !! path = Some changed → ∃ t, last_change path ticks t ∧ changed = tk_observe t
}.

Lemma last_change_seen path ticks t : last_change path ticks t → seen_at path <$> last ticks = Some (seen_at path t).
Proof.
  intros (before & after & -> & _ & Hafter). rewrite last_app, last_cons. destruct (last after) as [u|] eqn:E; [|done]. cbn. f_equal.
  apply last_Some in E as [l ->]. by apply Forall_app in Hafter as [_ [? _]%Forall_cons].
Qed.

Lemma last_change_snoc path ticks t u : seen_at path <$> last ticks = Some (seen_at path u) → last_change path ticks t → last_change path (ticks ++ [u]) t.
Proof.
  intros Hu Ht. pose proof (last_change_seen _ _ _ Ht) as Hs. destruct Ht as (before & after & -> & Hb & Ha).
  exists before, (after ++ [u]). split_and!; [by rewrite <-app_assoc|done|]. apply Forall_app_2; [done|]. apply Forall_singleton. rewrite Hu in Hs. by injection Hs.
Qed.

Lemma last_change_now path ticks u : seen_at path <$> last ticks ≠ Some (seen_at path u) → last_change path (ticks ++ [u]) u.
Proof. intros Hu. exists ticks, []. split_and!; [done| |constructor]. intros v Hv E. apply Hu. rewrite Hv. cbn. by rewrite E. Qed.

Lemma is_target_spec path : is_target path ↔ path ∈ map tg_path targets.
Proof. unfold is_target. rewrite list_elem_of_fmap. naive_solver. Qed.

(** Observing keeps the invariants. *)
Lemma observed_up_to_date t s : up_to_date s → up_to_date (observe_changes sha256 (tk_observe t) (tk_seen t) targets s).
Proof.
  intros Hup. pose proof (observe_changes_maps (tk_observe t) (tk_seen t) targets s) as Hmaps.
  pose proof (observe_changes_log (tk_observe t) (tk_seen t) targets s) as (_ & B1 & _). cbv zeta in *. set (s1 := observe_changes _ _ _ _ s) in *. split.
  - intros path. specialize (Hmaps path). case_bool_decide; [intros _; by apply is_target_spec|]. destruct Hmaps as [-> _]. apply (ud_target _ Hup).
  - intros path. specialize (Hmaps path). case_bool_decide; [destruct Hmaps as [-> _]; done|]. destruct Hmaps as [-> ->]. apply (ud_pending _ Hup).
  - rewrite B1. apply (ud_known _ Hup).
  - intros path f. specialize (Hmaps path). rewrite B1. case_bool_decide; destruct Hmaps as [Ho Hp]; rewrite Ho, Hp; [|apply (ud_built _ Hup)].
    intros [= <-]. case_bool_decide; [|done]. by apply (ud_built _ Hup).
Qed.

Lemma observed_remembers ticks t s : up_to_date s → remembers ticks s → remembers (ticks ++ [t]) (observe_changes sha256 (tk_observe t) (tk_seen t) targets s).
Proof.
  intros Hup [Ro Rp]. pose proof (observed_up_to_date t s Hup) as Hup1. pose proof (observe_changes_maps (tk_observe t) (tk_seen t) targets s) as Hmaps. cbv zeta in Hmaps.
  set (s1 := observe_changes _ _ _ _ s) in *. split; intros path.
  - intros Hin. specialize (Hmaps path). rewrite bool_decide_eq_true_2 in Hmaps by (by apply is_target_spec). rewrite last_snoc. apply Hmaps.
  - intros changed Hc. pose proof (ud_target _ Hup1 path (ud_pending _ Hup1 path (mk_is_Some _ _ Hc))) as Hin.
    specialize (Hmaps path). rewrite bool_decide_eq_true_2 in Hmaps by (by apply is_target_spec). destruct Hmaps as [_ Hp]. rewrite Hp in Hc.
    specialize (Ro path Hin). case_bool_decide as Hsame.
    + destruct (Rp path changed Hc) as (u & Hu & ->). exists u. split; [|done]. apply last_change_snoc; [|done]. by rewrite <-Ro.
    + injection Hc as <-. exists t. split; [|done]. apply last_change_now. by rewrite <-Ro.
Qed.

(** With distinct sources, the builds of a source are those of its target. *)
Lemma builds_of_target target s : NoDup (map tg_path targets) → target ∈ targets → up_to_date s →
  builds_of (tg_path target) (dev_built s) = builds_for target (dev_built s).
Proof.
  intros Hnd Hin Hup. apply List.filter_ext_in. intros b Hb. pose proof (ud_known _ Hup) as Hk. rewrite Forall_forall in Hk. apply list_elem_of_In, Hk in Hb.
  apply bool_decide_ext. split; [|by intros ->]. intros E. apply list_elem_of_lookup in Hb as [i Hi], Hin as [j Hj].
  assert (i = j) as ->; [|by simplify_eq]. eapply NoDup_lookup; [exact Hnd|by rewrite list_lookup_fmap, Hi|by rewrite list_lookup_fmap, Hj; cbn; rewrite E].
Qed.

Lemma tick_fresh ticks t s s' : steady t → dev_tick sha256 options targets t s = Running s' → logged s → up_to_date s → remembers ticks s →
  logged s' ∧ up_to_date s' ∧ remembers (ticks ++ [t]) s' ∧ (NoDup (map tg_path targets) → fresh ticks t s').
Proof.
  intros Hsteady Hrun [L1 L2 L3 L4] Hup Hrem. unfold dev_tick in Hrun. pose proof (observed_up_to_date t s Hup) as Hup1. pose proof (observed_remembers ticks t s Hup Hrem) as Hrem1.
  pose proof (observe_changes_log (tk_observe t) (tk_seen t) targets s) as (T1 & B1 & N1 & S1 & _). set (s1 := observe_changes _ _ _ _ s) in *.
  assert (logged s1) as Hlog1 by (split; by rewrite ?T1, ?B1, ?N1, ?S1).
  assert (∀ path, is_target path → observed s1 !! path = Some (seen_at path t)) as Hobs.
  { intros path Hin. by rewrite (rm_observed _ _ Hrem1) by done; rewrite last_snoc. }
  apply build_ready_runs in Hrun as (H1 & H2 & H3 & H4); [|done|done|].
  2: { intros path (changed & Hc & _)%elem_of_ready. rewrite Hsteady. apply Hobs. apply (ud_target _ Hup1), (ud_pending _ Hup1). by eexists. }
  assert (∀ path changed, pending_changes s' !! path = Some changed → pending_changes s1 !! path = Some changed ∧ tk_check t - changed < debounce options) as Hwait.
  { intros path changed Hc. rewrite H4 in Hc. case_bool_decide as Hr; [done|]. split; [done|]. apply N.nle_gt. intros Hq. apply Hr, elem_of_ready. by exists changed. }
  split_and!; [done|done|split|].
  - intros path. rewrite H3. apply (rm_observed _ _ Hrem1).
  - intros path changed [Hc _]%Hwait. by apply (rm_pending _ _ Hrem1).
  - intros Hnd target Hin. assert (is_target (tg_path target)) as Hpath by (by exists target).
    destruct (pending_changes s' !! tg_path target) as [changed|] eqn:Ep.
    + right. apply Hwait in Ep as [Hc Hq]. apply (rm_pending _ _ Hrem1) in Hc as (u & Hu & ->). by exists u.
    + left. rewrite <-builds_of_target by done. apply (ud_built _ H2); [|done]. rewrite H3. by apply Hobs.
Qed.

Lemma session_fresh ticks : ∀ past s s', Forall steady ticks → run_loop sha256 options targets ticks s = Running s' → logged s → up_to_date s → remembers past s →
  logged s' ∧ (NoDup (map tg_path targets) → ∀ init t, ticks = init ++ [t] → fresh (past ++ init) t s').
Proof.
  induction ticks as [|t ticks IH]; intros past s s' Hall; cbn [run_loop]; [intros [= <-] ? ? _; split; [done|]; by intros _ [|] ? [=]|].
  apply Forall_cons in Hall as [Ht Hall]. destruct (dev_tick _ _ _ t s) as [s1|s1|s1] eqn:E; [|done..]. intros Hrun Hlog Hup Hrem.
  pose proof (tick_fresh past _ _ _ Ht E Hlog Hup Hrem) as (L1 & U1 & R1 & F1). destruct (IH (past ++ [t]) _ _ Hall Hrun L1 U1 R1) as [HL HF]. split; [done|].
  intros Hnd [|u init] t' Heq; injection Heq as -> ->.
  - cbn in Hrun. injection Hrun as <-. rewrite app_nil_r. by apply F1.
  - specialize (HF Hnd init t' eq_refl). by rewrite <-app_assoc in HF.
Qed.

Lemma initial_logged room : logged (dev_initial room).
Proof. split; try done. Qed.

Lemma initial_up_to_date room : up_to_date (dev_initial room).
Proof. split; [intros path; cbn; rewrite lookup_empty; by intros []..|constructor|intros path; cbn; by rewrite lookup_empty]. Qed.

Lemma initial_remembers room : remembers [] (dev_initial room).
Proof. split; intros path; cbn; by rewrite lookup_empty. Qed.
End session.

(** C30: the development server of targets with distinct sources is never behind by more
    than the quiet period: after any polls that build what they observe, every target
    was last built from its source as the last poll saw it, or the poll that first saw
    the source so was less than the quiet period ago; and the events and counters are
    exactly those of the builds made, numbered from one. *)
Theorem dev_server_up_to_date `{Syntax} sha256 options targets room ticks t s : NoDup (map tg_path targets) → Forall steady (ticks ++ [t]) →
  run_loop sha256 options targets (ticks ++ [t]) (dev_initial room) = Running s → logged sha256 s ∧ fresh sha256 options targets ticks t s.
Proof.
  intros Hnd Hall Hrun.
  pose proof (session_fresh sha256 options targets (ticks ++ [t]) [] _ _ Hall Hrun (initial_logged sha256 room) (initial_up_to_date sha256 targets room)
    (initial_remembers sha256 targets room)) as [Hl Hf]. split; [done|]. by apply (Hf Hnd ticks t).
Qed.

Definition sample_target (name path : string) : Target := {| tg_name := name; tg_kind := BinTarget; tg_path := path |}.

(** A poll of unchanging files. *)
Definition sample_tick (at_ : N) (content : option bytes) : Tick :=
  {| tk_observe := at_; tk_check := at_; tk_seen _ := content; tk_read _ := content |}.

Lemma dev_server_up_to_date_witness :
  ∃ s, run_loop String.string_of_list_byte dev_options_default [sample_target "app" "/p/main.syl"] ([sample_tick 0 (Some []); sample_tick 50 (Some [])] ++ [sample_tick 100 (Some [])])
         (dev_initial None) = Running s ∧ length (dev_built s) = 1%nat ∧ logged String.string_of_list_byte s ∧
       fresh String.string_of_list_byte dev_options_default [sample_target "app" "/p/main.syl"] [sample_tick 0 (Some []); sample_tick 50 (Some [])] (sample_tick 100 (Some [])) s.
Proof.
  assert (match run_loop String.string_of_list_byte dev_options_default [sample_target "app" "/p/main.syl"]
            ([sample_tick 0 (Some []); sample_tick 50 (Some [])] ++ [sample_tick 100 (Some [])]) (dev_initial None) with
          | Running s => length (dev_built s) = 1%nat
          | _ => False
          end) as Hbuilt by (vm_compute; reflexivity).
  destruct (run_loop _ _ _ _ _) as [s|s|s] eqn:E; [|contradiction Hbuilt..]. exists s. split; [reflexivity|]. split; [exact Hbuilt|].
  apply (dev_server_up_to_date String.string_of_list_byte dev_options_default [sample_target "app" "/p/main.syl"] None
      [sample_tick 0 (Some []); sample_tick 50 (Some [])] (sample_tick 100 (Some [])) s); [apply NoDup_singleton| |exact E].
  repeat (apply Forall_cons_2; [intros path; reflexivity|]). apply Forall_nil_2.
Defined.

(** ** What [--once] waits for *)

Definition terminals (events : list DevEvent) : nat := sum_list_with terminal_builds events.

Lemma dev_consume_waits target_count events : ∀ completed, (completed + terminals events < target_count)%nat →
  dev_consume true target_count completed events = (events, false).
Proof.
  induction events as [|e events IH]; intros completed Hlt; [done|]. cbn in *. unfold terminals in *. cbn in Hlt.
  rewrite (proj2 (Nat.leb_gt _ _)) by lia. rewrite IH by lia. done.
Qed.

Lemma build_events_terminal `{Syntax} sha256 id b : (terminals (build_events sha256 id b) ≤ 1)%nat.
Proof.
  unfold build_events, terminals. cbn. destruct (compile _ _) as [c|]; cbn; [|lia]. destruct (success c) eqn:E; cbn; rewrite ?E; cbn; lia.
Qed.

Lemma NoDup_filter_fst {A B} (f : A * B → bool) l : NoDup (l.*1) → NoDup (map fst (List.filter f l)).
Proof.
  induction l as [|x l IH]; cbn; [constructor|]. intros [Hx Hl]%NoDup_cons. destruct (f x); [|by apply IH]. cbn. apply NoDup_cons. split; [|by apply IH].
  intros (y & Hy & [Hin _]%list_elem_of_In%filter_In)%list_elem_of_fmap. apply Hx. apply list_elem_of_fmap. exists y. by rewrite list_elem_of_In.
Qed.

Section shared.
Context `{Syntax} (sha256 : bytes → string) (options : DevOptions) (path : string) (content : option bytes) (a b : Target).
Context (Ha : tg_path a = path) (Hb : tg_path b = path).

(** One build at most, and none while it waits. *)
Definition built_once (s : DevState) : Prop :=
  (∀ q, is_Some (pending_changes s !! q) → q = path) ∧ (length (dev_built s) ≤ 1)%nat ∧
  (observed s !! path = Some (source_fingerprint sha256 content) ∧ (pending_changes s !! path = None ∨ dev_built s = []) ∨ dev_built s = []).

Lemma tick_built_once at_ s s' : dev_tick sha256 options [a; b] (sample_tick at_ content) s = Running s' → built_once s → built_once s'.
Proof.
  intros Hrun (Hkeys & Hlen & Hcase). unfold dev_tick in Hrun. set (s1 := observe_changes _ _ _ _ s) in *.
  pose proof (observe_changes_log sha256 at_ (λ _, content) [a; b] s) as (_ & B1 & _). pose proof (observe_changes_maps sha256 at_ (λ _, content) [a; b] s) as Hmaps.
  cbn [tk_observe tk_seen tk_read tk_check sample_tick] in *. fold s1 in B1, Hmaps. cbv zeta in Hmaps. clearbody s1. cbn [map] in Hmaps. rewrite Ha, Hb in Hmaps.
  assert (observed s1 !! path = Some (source_fingerprint sha256 content)) as Ho1.
  { specialize (Hmaps path). rewrite bool_decide_eq_true_2 in Hmaps by (by left). apply Hmaps. }
  assert (∀ q, is_Some (pending_changes s1 !! q) → q = path) as Hkeys1.
  { intros q Hq. destruct (decide (q = path)) as [|Hne]; [done|]. specialize (Hmaps q). rewrite bool_decide_eq_false_2 in Hmaps.
    - destruct Hmaps as [_ E]. rewrite E in Hq. by apply Hkeys.
    - rewrite !elem_of_cons, elem_of_nil. naive_solver. }
  assert (pending_changes s1 !! path = None ∨ dev_built s1 = []) as Hcase1.
  { rewrite B1. destruct Hcase as [[Hobs [Hp|?]]|?]; [|by right..]. left. specialize (Hmaps path). rewrite bool_decide_eq_true_2 in Hmaps by (by left).
    destruct Hmaps as [_ ->]. by rewrite (bool_decide_eq_true_2 _ Hobs). }
  assert (∀ q, q ∈ ready_paths (debounce options) at_ (pending_changes s1) → q = path) as Hready.
  { intros q (c & Hc & _)%elem_of_ready. apply Hkeys1. by eexists. }
  assert (NoDup (ready_paths (debounce options) at_ (pending_changes s1))) as Hnodup.
  { unfold ready_paths. rewrite stable_sort_perm. apply NoDup_filter_fst, NoDup_fst_map_to_list. }
  destruct (ready_paths _ _ _) as [|q ready] eqn:Er.
  { cbn [build_ready] in Hrun. assert (s' = s1) as -> by congruence. split_and!; [done|by rewrite B1|]. left. done. }
  assert (q = path) as -> by (apply Hready; by left). assert (ready = []) as ->.
  { destruct ready as [|x ready]; [done|]. assert (x = path) as -> by (apply Hready; by right; left). apply NoDup_cons in Hnodup as [Hn _]. destruct Hn. by left. }
  assert (is_Some (pending_changes s1 !! path)) as Hpend.
  { assert (path ∈ ready_paths (debounce options) at_ (pending_changes s1)) as (c & ? & _)%elem_of_ready by (rewrite Er; by left). by eexists. }
  destruct Hcase1 as [E|E]; [rewrite E in Hpend; by destruct Hpend|].
  cbn [build_ready List.find] in Hrun. rewrite (bool_decide_eq_true_2 _ Ha) in Hrun.
  destruct (build_target _ _ _ _ _) as [s2|s2|s2] eqn:Eb; [|done..]. injection Hrun as <-. apply build_target_runs in Eb as (O2 & P2 & _ & B2 & _).
  cbn in O2, P2, B2. split_and!; cbn.
  - intros q. rewrite P2. intros [c Hc]. apply lookup_delete_Some in Hc as [_ Hc]. apply Hkeys1. by eexists.
  - rewrite B2, E. cbn. lia.
  - left. rewrite O2, P2, lookup_delete_eq. by auto.
Qed.

Lemma session_built_once times : ∀ s s', run_loop sha256 options [a; b] (map (λ t, sample_tick t content) times) s = Running s' → built_once s → built_once s'.
Proof.
  induction times as [|t times IH]; intros s s'; cbn [map run_loop]; [by intros [= <-]|]. destruct (dev_tick _ _ _ _ s) as [s1|s1|s1] eqn:E; [|done..].
  intros Hrun Hs. eapply IH; [done|]. by eapply tick_built_once.
Qed.
End shared.

(** Two targets with one source are built as the first of them: a manifest may declare
    them, and [syllog dev --once] then waits for the second for ever. *)
Theorem dev_once_never_ends `{Syntax} sha256 options path content a b times s : tg_path a = path → tg_path b = path →
  run_loop sha256 options [a; b] (map (λ t, sample_tick t content) times) (dev_initial None) = Running s →
  dev_consume true 2 0 (dev_sent s) = (dev_sent s, false).
Proof.
  intros Ha Hb Hrun. pose proof (session_built_once sha256 options path content a b Ha Hb times _ _ Hrun) as (_ & Hlen & _).
  { split_and!; [|cbn; lia|by right]. intros q. cbn. rewrite lookup_empty. by intros []. }
  assert (Forall steady (map (λ t, sample_tick t content) times)) as Hsteady by (apply Forall_fmap, Forall_true; done).
  pose proof (session_fresh sha256 options [a; b] _ [] _ _ Hsteady Hrun (initial_logged sha256 None) (initial_up_to_date sha256 _ None) (initial_remembers sha256 _ None)) as [Hlog _].
  apply dev_consume_waits. rewrite (lg_sent _ _ Hlog). destruct (dev_built s) as [|x [|? ?]]; [cbn; lia| |cbn in Hlen; lia].
  cbn. rewrite app_nil_r. pose proof (build_events_terminal sha256 (N.min (N.of_nat 0 + 1) u64_max) x). cbn in *. lia.
Qed.

(** A source that changes between a poll's fingerprint and its build, and then back, is
    left as it was built. *)
Theorem build_may_stay_stale :
  let poll at_ seen read := {| tk_observe := at_; tk_check := at_; tk_seen _ := Some seen; tk_read _ := Some read |} in
  match run_loop String.string_of_list_byte dev_options_default [sample_target "app" "/p/main.syl"]
          [poll 0 [] []; poll 100 [] [Byte.x2f]; poll 200 [] []; poll 300 [] []; poll 400 [] []] (dev_initial None) with
  | Running s => map bd_content (dev_built s) = [Some [Byte.x2f]] ∧ map_to_list (pending_changes s) = []
  | _ => False
  end.
Proof. vm_compute. split; reflexivity. Qed.
