(* ===== verification/PrototypeLexer.v ===== *)
(** * Lexer of the prototype (src/lexer.rs, src/token.rs, src/span.rs)

    A lexer holds the bytes it has not read and its position; the text between two
    positions is what was read between them.  A number is the IEEE 754 double nearest
    to its decimal text.  Lines and columns are [u32] counters; one that overflows is a
    panic, as in a build with overflow checks. *)

From Stdlib Require Import SpecFloat.
From stdpp Require Import base strings numbers list.
From S2P Require Import Prelude Text.
Open Scope string_scope.
Open Scope list_scope.
Open Scope N_scope.

Abbreviation text := (list Byte.byte).

(** ** Tokens *)

Record Span := { span_start : N; span_end : N; span_line : N; span_col : N }.

Abbreviation f64 := spec_float.

Inductive TokenKind :=
| Number (value : f64) | StringLiteral (value : string) | Identifier (name : string)
| Fn | Let | Return | If | Else | KwTrue | KwFalse
| LParen | RParen | LBrace | RBrace | Comma | Colon | Arrow
| Plus | Minus | Star | Slash | Percent | Bang | Equal | EqualEqual | BangEqual
| Less | LessEqual | Greater | GreaterEqual
| Eof.

Record Token := { kind : TokenKind; token_span : Span }.

Definition keyword (word : string) : option TokenKind :=
  if bool_decide (word = "fn") then Some Fn
  else if bool_decide (word = "let") then Some Let
  else if bool_decide (word = "return") then Some Return
  else if bool_decide (word = "if") then Some If
  else if bool_decide (word = "else") then Some Else
  else if bool_decide (word = "true") then Some KwTrue
  else if bool_decide (word = "false") then Some KwFalse
  else None.

(** ** Positions *)

(** [overflowed]: an increment of [line] or [col] has passed [u32::MAX]. *)
Record Position := { pos : N; line : N; col : N; overflowed : bool }.

Definition step (c : Byte.byte) (p : Position) : Position :=
  if Byte.eqb c Byte.x0a then {| pos := pos p + 1; line := line p + 1; col := 1; overflowed := overflowed p || bool_decide (line p = u32_max) |}
  else {| pos := pos p + 1; line := line p; col := col p + 1; overflowed := overflowed p || bool_decide (col p = u32_max) |}.

Fixpoint after (t : text) (p : Position) : Position :=
  match t with [] => p | c :: t => after t (step c p) end.

Definition span_between (from to : Position) : Span :=
  {| span_start := pos from; span_end := pos to; span_line := line from; span_col := col from |}.

Definition origin : Position := {| pos := 0; line := 1; col := 1; overflowed := false |}.

(** ** Reading *)

Record Lexer := { rest : text; here : Position }.

Definition lexer_new (source : text) : Lexer := {| rest := source; here := origin |}.

Definition peek (l : Lexer) : option Byte.byte := head (rest l).
Definition peek_next (l : Lexer) : option Byte.byte := head (tail (rest l)).

Definition advance (l : Lexer) : Lexer :=
  match rest l with [] => l | c :: r => {| rest := r; here := step c (here l) |} end.

(** [while self.peek().is_some_and(p) { self.advance(); }], with the text passed. *)
Fixpoint while_next (p : Byte.byte → bool) (r : text) (at_ : Position) : text * Lexer :=
  match r with
  | c :: r' => if p c then let '(t, l) := while_next p r' (step c at_) in (c :: t, l) else ([], {| rest := r; here := at_ |})
  | [] => ([], {| rest := r; here := at_ |})
  end.

Definition advance_while (p : Byte.byte → bool) (l : Lexer) : text * Lexer := while_next p (rest l) (here l).

Definition is_digit : Byte.byte → bool := byte_between 48 57.
Definition is_alphabetic (c : Byte.byte) : bool := byte_between 65 90 c || byte_between 97 122 c.
Definition starts_word (c : Byte.byte) : bool := is_alphabetic c || Byte.eqb c Byte.x5f.
Definition continues_word (c : Byte.byte) : bool := is_alphabetic c || is_digit c || Byte.eqb c Byte.x5f.
Definition is_blank (c : Byte.byte) : bool :=
  Byte.eqb c Byte.x20 || Byte.eqb c Byte.x09 || Byte.eqb c Byte.x0d || Byte.eqb c Byte.x0a.

Definition not_newline (c : Byte.byte) : bool := negb (Byte.eqb c Byte.x0a).
Definition not_quote (c : Byte.byte) : bool := negb (Byte.eqb c Byte.x22).

Definition next_is (b : Byte.byte) (c : option Byte.byte) : bool :=
  match c with Some c => Byte.eqb c b | None => false end.
Definition next_satisfies (p : Byte.byte → bool) (c : option Byte.byte) : bool :=
  match c with Some c => p c | None => false end.

Fixpoint skip_whitespace_and_comments (fuel : nat) (l : Lexer) : option Lexer :=
  match fuel with
  | O => None
  | S fuel =>
      if next_satisfies is_blank (peek l) then skip_whitespace_and_comments fuel (advance l)
      else if next_is Byte.x2f (peek l) && next_is Byte.x2f (peek_next l)
      then skip_whitespace_and_comments fuel (advance_while not_newline l).2
      else Some l
  end.

(** [str::parse::<f64>] on digits with at most one point among them: the double nearest
    to the decimal, to even on a tie, infinity beyond the largest. *)
Fixpoint decimal (t : text) (n : N) : option N :=
  match t with
  | [] => Some n
  | c :: t => if is_digit c then decimal t (10 * n + (Byte.to_N c - 48)) else None
  end.

Definition nearest_f64 (mantissa : N) (places : nat) : f64 :=
  match mantissa with
  | N0 => S754_zero false
  | Npos m =>
      let '(q, e, location) := SFdiv_core_binary 53 1024 (Zpos m) 0 (10 ^ Z.of_nat places)%Z 0 in
      binary_round_aux 53 1024 false q e location
  end.

Fixpoint split_point (t : text) : text * option text :=
  match t with
  | [] => ([], None)
  | c :: t => if Byte.eqb c Byte.x2e then ([], Some t) else let '(whole, places) := split_point t in (c :: whole, places)
  end.

Definition parse_f64 (t : text) : option f64 :=
  let '(whole, places) := split_point t in
  let places := default [] places in
  match whole ++ places with
  | [] => None
  | digits => (λ n, nearest_f64 n (length places)) <$> decimal digits 0
  end.

(** What a reader answers; a failed [unwrap] is a panic. *)
Inductive Read := ReadKind (k : TokenKind) | ReadError (message : string) | ReadPanic.

Definition unwrap_kind {A} (f : A → TokenKind) (x : option A) : Read := match x with Some a => ReadKind (f a) | None => ReadPanic end.

Definition read_number (l : Lexer) : Read * Lexer :=
  let '(whole, l) := advance_while is_digit l in
  let '(t, l) :=
    if next_is Byte.x2e (peek l) && next_satisfies is_digit (peek_next l)
    then let '(places, l) := advance_while is_digit (advance l) in (whole ++ Byte.x2e :: places, l)
    else (whole, l) in
  (unwrap_kind Number (parse_f64 t), l).

Definition read_string (l : Lexer) : Read * Lexer :=
  let '(t, l) := advance_while not_quote (advance l) in
  match peek l with
  | None => (ReadError "unterminated string literal", l)
  | Some _ => (unwrap_kind StringLiteral (from_utf8 t), advance l)
  end.

Definition word_kind (word : string) : TokenKind := default (Identifier word) (keyword word).

Definition read_identifier_or_keyword (l : Lexer) : Read * Lexer :=
  let '(t, l) := advance_while continues_word l in (unwrap_kind word_kind (from_utf8 t), l).

(** [other as char], written in UTF-8. *)
Definition latin1 (b : Byte.byte) : string :=
  let n := Byte.to_N b in
  if n <? 128 then String (Ascii.ascii_of_byte b) ""
  else String (Ascii.ascii_of_N (192 + n / 64)) (String (Ascii.ascii_of_N (128 + n mod 64)) "").

Definition symbol (c : Byte.byte) : option TokenKind :=
  match c with
  | Byte.x28 => Some LParen | Byte.x29 => Some RParen | Byte.x7b => Some LBrace | Byte.x7d => Some RBrace
  | Byte.x2c => Some Comma | Byte.x3a => Some Colon | Byte.x2b => Some Plus | Byte.x2a => Some Star
  | Byte.x2f => Some Slash | Byte.x25 => Some Percent | Byte.x2d => Some Minus | Byte.x3d => Some Equal
  | Byte.x21 => Some Bang | Byte.x3c => Some Less | Byte.x3e => Some Greater
  | _ => None
  end.

(** The second byte of the operators of two bytes, by their first. *)
Definition second_byte (c : Byte.byte) : option (Byte.byte * TokenKind) :=
  match c with
  | Byte.x2d => Some (Byte.x3e, Arrow) | Byte.x3d => Some (Byte.x3d, EqualEqual) | Byte.x21 => Some (Byte.x3d, BangEqual)
  | Byte.x3c => Some (Byte.x3d, LessEqual) | Byte.x3e => Some (Byte.x3d, GreaterEqual)
  | _ => None
  end.

Definition read_operator_or_punct (l : Lexer) : Read * Lexer :=
  match peek l with
  | None => (ReadPanic, l)
  | Some c =>
      let l := advance l in
      match symbol c with
      | None => (ReadError ("unexpected character '" +:+ latin1 c +:+ "'"), l)
      | Some k =>
          match second_byte c with
          | Some (b, longer) => if next_is b (peek l) then (ReadKind longer, advance l) else (ReadKind k, l)
          | None => (ReadKind k, l)
          end
      end
  end.

(** ** The loop *)

Record LexError := { lex_message : string; lex_span : Span }.

Definition read_token (c : Byte.byte) (l : Lexer) : Read * Lexer :=
  if is_digit c then read_number l
  else if Byte.eqb c Byte.x22 then read_string l
  else if starts_word c then read_identifier_or_keyword l
  else read_operator_or_punct l.

Fixpoint tokenize_loop (fuel : nat) (l : Lexer) : option (result (list Token * list LexError) unit) :=
  match fuel with
  | O => None
  | S fuel =>
      l ← skip_whitespace_and_comments (S (length (rest l))) l;
      if overflowed (here l) then Some (Err tt)
      else match peek l with
      | None => Some (Ok ([{| kind := Eof; token_span := span_between (here l) (here l) |}], []))
      | Some c =>
          let '(r, l') := read_token c l in
          let s := span_between (here l) (here l') in
          if overflowed (here l') then Some (Err tt)
          else match r with
          | ReadPanic => Some (Err tt)
          | ReadError message =>
              r ← tokenize_loop fuel l';
              Some match r with Ok (ts, es) => Ok (ts, {| lex_message := message; lex_span := s |} :: es) | Err p => Err p end
          | ReadKind k =>
              r ← tokenize_loop fuel l';
              Some match r with Ok (ts, es) => Ok ({| kind := k; token_span := s |} :: ts, es) | Err p => Err p end
          end
      end
  end.

(** Every pass reads a byte. *)
Definition tokenize (source : text) : option (result (list Token * list LexError) unit) :=
  tokenize_loop (S (length source)) (lexer_new source).

Definition kinds (s : string) : option (list TokenKind * nat) :=
  match tokenize (String.list_byte_of_string s) with Some (Ok (ts, es)) => Some (map kind ts, length es) | _ => None end.

Definition whole (n : N) : TokenKind := Number (nearest_f64 n 0).

(** The lexer's own tests. *)
Example lexer_samples :
  kinds "" = Some ([Eof], 0%nat) ∧
  kinds "42 3.14" = Some ([whole 42; Number (S754_finite false 7070651414971679 (-51)); Eof], 0%nat) ∧
  kinds "1 // this is a comment" = Some ([whole 1; Eof], 0%nat) ∧
  kinds "fn fib(n: Int) -> Int {" =
    Some ([Fn; Identifier "fib"; LParen; Identifier "n"; Colon; Identifier "Int"; RParen; Arrow; Identifier "Int"; LBrace; Eof], 0%nat) ∧
  kinds "----->>>>" = Some ([Minus; Minus; Minus; Minus; Arrow; Greater; Greater; Greater; Eof], 0%nat) ∧
  kinds "1.2.3.4" = Some ([Number (nearest_f64 12 1); Number (nearest_f64 34 1); Eof], 1%nat).
Proof. vm_compute. repeat split. Qed.

(** ** The lexical grammar *)

(** The texts of tokens, each as long as the text after it allows. *)
Inductive lexeme : text → TokenKind → text → Prop :=
| integer_lexeme t n r : t ≠ [] → decimal t 0 = Some n → next_satisfies is_digit (head r) = false →
    next_is Byte.x2e (head r) && next_satisfies is_digit (head (tail r)) = false → lexeme t (Number (nearest_f64 n 0)) r
| decimal_lexeme a b n r : a ≠ [] → b ≠ [] → decimal (a ++ b) 0 = Some n → next_satisfies is_digit (head r) = false →
    lexeme (a ++ Byte.x2e :: b) (Number (nearest_f64 n (length b))) r
| string_lexeme t s r : Forall not_quote t → from_utf8 t = Some s → lexeme (Byte.x22 :: t ++ [Byte.x22]) (StringLiteral s) r
| word_lexeme c t s r : starts_word c = true → Forall continues_word t → from_utf8 (c :: t) = Some s →
    next_satisfies continues_word (head r) = false → lexeme (c :: t) (word_kind s) r
| symbol_lexeme c k r : symbol c = Some k → (∀ b longer, second_byte c = Some (b, longer) → next_is b (head r) = false) →
    Byte.eqb c Byte.x2f && next_is Byte.x2f (head r) = false → lexeme [c] k r
| long_symbol_lexeme c b k r : second_byte c = Some (b, k) → lexeme [c; b] k r.

(** White space, and comments up to the end of their line. *)
Inductive blank : text → text → Prop :=
| blank_space c r : is_blank c = true → blank [c] r
| blank_comment t r : Forall not_newline t → next_satisfies not_newline (head r) = false → blank (Byte.x2f :: Byte.x2f :: t) r.

Inductive mistake : text → string → text → Prop :=
| unterminated_string t : Forall not_quote t → mistake (Byte.x22 :: t) "unterminated string literal" []
| unexpected_character c r : symbol c = None → is_digit c = false → Byte.eqb c Byte.x22 = false → starts_word c = false → is_blank c = false →
    mistake [c] ("unexpected character '" +:+ latin1 c +:+ "'") r.

(** The tokens and errors of a text that begins at a position. *)
Inductive lexes : Position → text → list Token → list LexError → Prop :=
| lexes_end p : lexes p [] [{| kind := Eof; token_span := span_between p p |}] []
| lexes_blank p t r ts es : blank t r → lexes (after t p) r ts es → lexes p (t ++ r) ts es
| lexes_token p t k r ts es : lexeme t k r → lexes (after t p) r ts es →
    lexes p (t ++ r) ({| kind := k; token_span := span_between p (after t p) |} :: ts) es
| lexes_mistake p t m r ts es : mistake t m r → lexes (after t p) r ts es →
    lexes p (t ++ r) ts ({| lex_message := m; lex_span := span_between p (after t p) |} :: es).

(** ** Reading follows the grammar *)

Lemma while_next_app (p : Byte.byte → bool) t r q : Forall p t → next_satisfies p (head r) = false →
  while_next p (t ++ r) q = (t, {| rest := r; here := after t q |}).
Proof.
  intros Ht Hr. revert q. induction Ht as [|c t Hc _ IH]; intros q; cbn.
  - destruct r as [|c r]; [done|]. cbn in *. by rewrite Hr.
  - apply Is_true_true in Hc. rewrite Hc, IH. done.
Qed.

Lemma after_app a b p : after (a ++ b) p = after b (after a p).
Proof. revert p. induction a as [|c a IH]; intros p; [done|]. apply IH. Qed.

Lemma byte_between_spec low high b : byte_between low high b = true ↔ low ≤ Byte.to_N b ≤ high.
Proof. unfold byte_between. by rewrite andb_true_iff, !bool_decide_eq_true. Qed.

Lemma byte_eqb_spec a b : Byte.eqb a b = true ↔ a = b.
Proof. split; [apply Byte.byte_dec_bl|intros ->; apply Byte.byte_dec_lb]. reflexivity. Qed.

(** The classes of bytes are apart. *)
Lemma class_of c : [is_digit c; Byte.eqb c Byte.x22; starts_word c; is_blank c; match symbol c with Some _ => true | None => false end] ∈
  [[true; false; false; false; false]; [false; true; false; false; false]; [false; false; true; false; false];
   [false; false; false; true; false]; [false; false; false; false; true]; [false; false; false; false; false]].
Proof. apply (bool_decide_unpack _). destruct c; vm_compute; exact I. Qed.

Ltac by_class c :=
  let H := fresh in
  pose proof (class_of c) as H;
  repeat match goal with
         | E : is_digit c = _ |- _ => rewrite E in H; clear E
         | E : Byte.eqb c Byte.x22 = _ |- _ => rewrite E in H; clear E
         | E : starts_word c = _ |- _ => rewrite E in H; clear E
         | E : is_blank c = _ |- _ => rewrite E in H; clear E
         | E : symbol c = _ |- _ => rewrite E in H; clear E
         end;
  rewrite !elem_of_cons, elem_of_nil in H; destruct_or? H; congruence.

Lemma second_byte_symbol c b k : second_byte c = Some (b, k) → is_Some (symbol c) ∧ c ≠ Byte.x2f.
Proof. destruct c; cbn; intros [=]; subst; split; (done || by eexists). Qed.

Lemma decimal_digits t : ∀ n m, decimal t n = Some m → Forall is_digit t.
Proof.
  induction t as [|c t IH]; intros n m; cbn; [by constructor|]. destruct (is_digit c) eqn:E; [|done].
  intros H. constructor; [by rewrite E|by eapply IH].
Qed.

Lemma decimal_total t : Forall is_digit t → ∀ n, is_Some (decimal t n).
Proof. induction 1 as [|c t Hc _ IH]; intros n; cbn; [by eexists|]. apply Is_true_true in Hc. by rewrite Hc. Qed.

Lemma split_point_digits t : Forall is_digit t → split_point t = (t, None) ∧ ∀ b, split_point (t ++ Byte.x2e :: b) = (t, Some b).
Proof.
  induction 1 as [|c t Hc _ [IH1 IH2]]; [done|]. cbn. apply Is_true_true, byte_between_spec in Hc.
  destruct (Byte.eqb c Byte.x2e) eqn:E; [apply byte_eqb_spec in E as ->; cbn in Hc; lia|]. split; [by rewrite IH1|]. intros b. by rewrite IH2.
Qed.

Lemma digits_next t r : t ≠ [] → Forall is_digit t → next_satisfies is_digit (head (t ++ r)) = true.
Proof. intros Ht Hd. destruct Hd as [|c t Hc _]; [done|]. cbn. by apply Is_true_true. Qed.

Lemma read_number_ok t k r q : lexeme t k r → next_satisfies is_digit (head t) = true →
  read_number {| rest := t ++ r; here := q |} = (ReadKind k, {| rest := r; here := after t q |}).
Proof.
  unfold read_number, advance_while. cbn [rest here].
  intros [t1 n r1 Hne Hd Hr Hp|a b n r1 Ha Hb Hd Hr|t1 s r1 _ _|c t1 s r1 Hc _ _ _|c k1 r1 Hs _ _|c b k1 r1 Hs] Hfirst; clear t k r.
  - pose proof (decimal_digits _ _ _ Hd) as Hdigits. rewrite while_next_app by done. unfold peek, peek_next. cbn [rest here]. rewrite Hp.
    unfold parse_f64. rewrite (proj1 (split_point_digits t1 Hdigits)). cbn [from_option id]. rewrite app_nil_r. destruct t1 as [|c t1]; [done|]. by rewrite Hd.
  - pose proof (decimal_digits _ _ _ Hd) as Hdigits. apply Forall_app in Hdigits as [Hda Hdb].
    rewrite <-app_assoc, <-app_comm_cons, while_next_app by done. unfold peek, peek_next. cbn [rest here head tail].
    rewrite (digits_next b r1) by done. cbn [next_is andb]. change (Byte.eqb Byte.x2e Byte.x2e) with true. cbn [andb].
    unfold advance. cbn [rest here]. rewrite while_next_app by done. unfold parse_f64. rewrite (proj2 (split_point_digits a Hda)). cbn [from_option id].
    rewrite after_app. destruct a as [|c a]; [done|]. cbn [app] in *. by rewrite Hd.
  - done.
  - cbn in Hfirst. by_class c.
  - cbn in Hfirst. by_class c.
  - cbn in Hfirst. apply second_byte_symbol in Hs as [[k' Hs] _]. by_class c.
Qed.

Lemma word_not_digit c : starts_word c = true → continues_word c = true.
Proof. unfold starts_word, continues_word. intros [->| ->]%orb_true_iff; by rewrite ?orb_true_r. Qed.

Lemma lexeme_class t k r c : lexeme t k r → head t = Some c →
  is_digit c = true ∨ Byte.eqb c Byte.x22 = true ∨ starts_word c = true ∨ is_Some (symbol c).
Proof.
  intros [t1 n r1 Hne Hd _ _|a b n r1 Ha _ Hd _|t1 s r1 _ _|c1 t1 s r1 Hc _ _ _|c1 k1 r1 Hs _ _|c1 b k1 r1 Hs] Hh.
  - apply decimal_digits in Hd. destruct Hd as [|x t1 Hx _]; [done|]. injection Hh as ->. left. by apply Is_true_true.
  - destruct a as [|x a]; [done|]. injection Hh as ->. apply decimal_digits in Hd. apply Forall_cons in Hd as [Hx _]. left. by apply Is_true_true.
  - injection Hh as <-. by right; left.
  - injection Hh as ->. by right; right; left.
  - injection Hh as ->. right; right; right. by rewrite Hs.
  - injection Hh as ->. right; right; right. by apply second_byte_symbol in Hs as [? _].
Qed.

Lemma read_token_ok t k r q c : lexeme t k r → head t = Some c →
  read_token c {| rest := t ++ r; here := q |} = (ReadKind k, {| rest := r; here := after t q |}).
Proof.
  intros Hl Hh. unfold read_token. destruct (is_digit c) eqn:Ed; [by apply read_number_ok; [|by rewrite Hh]|].
  destruct Hl as [t1 n r1 Hne Hd Hr Hp|a b n r1 Ha Hb Hd Hr|t1 s r1 Hq Hs|c1 t1 s r1 Hc Ht Hs Hr|c1 k1 r1 Hs Hlong Hslash|c1 b k1 r1 Hs].
  - apply decimal_digits in Hd. destruct Hd as [|x t1 Hx _]; [done|]. injection Hh as ->. apply Is_true_true in Hx. congruence.
  - destruct a as [|x a]; [done|]. injection Hh as ->. apply decimal_digits, Forall_cons in Hd as [Hx%Is_true_true _]. congruence.
  - injection Hh as <-. change (Byte.eqb Byte.x22 Byte.x22) with true. cbn match. unfold read_string, advance, advance_while. cbn [rest here app].
    rewrite <-app_assoc. cbn [app]. rewrite while_next_app by done. unfold peek. cbn [rest head here]. rewrite Hs. cbn [unwrap_kind after].
    by rewrite after_app.
  - injection Hh as <-. assert (Byte.eqb c1 Byte.x22 = false) as -> by (apply not_true_is_false; intros E; by_class c1).
    rewrite Hc. unfold read_identifier_or_keyword, advance_while. cbn [rest here]. rewrite while_next_app; [by rewrite Hs| |done].
    constructor; [|done]. apply Is_true_true. by apply word_not_digit.
  - injection Hh as <-. assert (Byte.eqb c1 Byte.x22 = false) as -> by (apply not_true_is_false; intros E; by_class c1).
    assert (starts_word c1 = false) as -> by (apply not_true_is_false; intros E; by_class c1).
    unfold read_operator_or_punct, peek, advance. cbn [rest here app head]. rewrite Hs.
    destruct (second_byte c1) as [[b longer]|]; [|done]. by rewrite (Hlong b longer eq_refl).
  - injection Hh as <-. pose proof (second_byte_symbol _ _ _ Hs) as [[k' Hk] _].
    assert (Byte.eqb c1 Byte.x22 = false) as -> by (apply not_true_is_false; intros E; by_class c1).
    assert (starts_word c1 = false) as -> by (apply not_true_is_false; intros E; by_class c1).
    unfold read_operator_or_punct, peek, advance. cbn [rest here app head]. rewrite Hk, Hs. cbn [next_is].
    by rewrite (proj2 (byte_eqb_spec b b)).
Qed.

Lemma read_token_mistake t m r q c : mistake t m r → head t = Some c →
  read_token c {| rest := t ++ r; here := q |} = (ReadError m, {| rest := r; here := after t q |}).
Proof.
  intros [t1 Ht|c1 r1 Hs Hd Hq Hw _] Hh; injection Hh as <-; unfold read_token.
  - change (is_digit Byte.x22) with false. change (Byte.eqb Byte.x22 Byte.x22) with true. cbn match.
    unfold read_string, advance, advance_while. cbn [rest here app]. by rewrite while_next_app.
  - rewrite Hd, Hq, Hw. unfold read_operator_or_punct, peek, advance. cbn [rest here app head]. by rewrite Hs.
Qed.

(** ** Skipping *)

Lemma skip_fuel n : ∀ m l, (length (rest l) < n)%nat → (length (rest l) < m)%nat →
  skip_whitespace_and_comments n l = skip_whitespace_and_comments m l.
Proof.
  assert (∀ p r q, length (rest (while_next p r q).2) ≤ length r)%nat as Hwhile.
  { intros p r. induction r as [|c r IH]; intros q; cbn; [lia|]. destruct (p c); [|cbn; lia]. specialize (IH (step c q)).
    destruct (while_next p r (step c q)). cbn in *. lia. }
  induction n as [|n IH]; intros [|m] l Hn Hm; [lia..|]. cbn [skip_whitespace_and_comments].
  destruct (next_satisfies is_blank (peek l)) eqn:Eb.
  - destruct l as [[|c r] q]; [done|]. apply IH; cbn in *; lia.
  - destruct (_ && _) eqn:Ec; [|done]. destruct l as [[|c r] q]; [done|]. unfold peek, advance_while in *. cbn [rest here head next_is] in *.
    apply andb_true_iff in Ec as [->%byte_eqb_spec _]. cbn [while_next]. change (not_newline Byte.x2f) with true. cbn match.
    specialize (Hwhile not_newline r (step Byte.x2f q)). destruct (while_next _ r _) as [t l]. apply IH; cbn in *; lia.
Qed.

Lemma skip_stops r q n : next_satisfies is_blank (head r) = false → next_is Byte.x2f (head r) && next_is Byte.x2f (head (tail r)) = false →
  skip_whitespace_and_comments (S n) {| rest := r; here := q |} = Some {| rest := r; here := q |}.
Proof. intros Hb Hc. cbn [skip_whitespace_and_comments]. unfold peek, peek_next. cbn [rest]. by rewrite Hb, Hc. Qed.

(** The text that is skipped makes no difference. *)
Lemma skip_blank t r q : blank t r →
  skip_whitespace_and_comments (S (length (t ++ r))) {| rest := t ++ r; here := q |} =
  skip_whitespace_and_comments (S (length r)) {| rest := r; here := after t q |}.
Proof.
  intros [c r1 Hc|t1 r1 Ht Hr].
  - cbn [skip_whitespace_and_comments]. unfold peek. cbn [rest app head next_satisfies]. by rewrite Hc.
  - set (after_comment := skip_whitespace_and_comments (S (length r1)) _). cbn [skip_whitespace_and_comments]. unfold peek, peek_next. cbn [rest app head tail next_satisfies next_is]. change (is_blank Byte.x2f) with false. change (Byte.eqb Byte.x2f Byte.x2f) with true. cbn [andb].
    unfold advance_while. cbn [rest here]. rewrite (while_next_app not_newline (Byte.x2f :: Byte.x2f :: t1) r1) by (repeat constructor; done).
    cbn [snd]. apply skip_fuel; cbn [rest]; cbn [length]; rewrite ?length_app; lia.
Qed.

Lemma lexeme_nonempty t k r : lexeme t k r → ∃ c t', t = c :: t'.
Proof. intros [[|c1 t1] ?|[|c1 a] ?|?|?|?|?]; try done; by eexists _, _. Qed.

Lemma mistake_nonempty t m r : mistake t m r → ∃ c t', t = c :: t'.
Proof. intros []; by eexists _, _. Qed.

(** A text begins with a blank exactly when it does not begin with a token or mistake. *)
Lemma lexeme_not_blank t k r : lexeme t k r → next_satisfies is_blank (head (t ++ r)) = false ∧
  next_is Byte.x2f (head (t ++ r)) && next_is Byte.x2f (head (tail (t ++ r))) = false.
Proof.
  intros Hl. destruct (lexeme_nonempty _ _ _ Hl) as (c & t' & ->). pose proof (lexeme_class _ _ _ c Hl eq_refl) as Hc. cbn [app head tail next_satisfies next_is].
  split; [apply not_true_is_false; intros E; destruct Hc as [Hc|[Hc|[Hc|[k' Hc]]]]; by_class c|].
  destruct (Byte.eqb c Byte.x2f) eqn:E; [|done]. apply byte_eqb_spec in E as ->. cbn [andb].
  inversion Hl as [? ? ? _ Hd|a b ? ? Ha _ Hd| |? ? ? ? Hw| ? ? ? _ _ Hslash| ? ? ? ? Hs]; subst; try done.
  destruct a as [|x a]; [done|]. cbn in *. by simplify_eq.
Qed.

Lemma mistake_not_blank t m r : mistake t m r → next_satisfies is_blank (head (t ++ r)) = false ∧
  next_is Byte.x2f (head (t ++ r)) && next_is Byte.x2f (head (tail (t ++ r))) = false.
Proof.
  intros [t1 _|c r1 Hs _ _ _ Hb]; [done|]. cbn [app head tail next_satisfies next_is]. split; [done|].
  destruct (Byte.eqb c Byte.x2f) eqn:E; [|done]. by apply byte_eqb_spec in E as ->.
Qed.

Lemma overflowed_after t : ∀ p, overflowed p = true → overflowed (after t p) = true.
Proof. induction t as [|c t IH]; intros p Hp; [done|]. apply IH. unfold step. destruct (Byte.eqb _ _); cbn; by rewrite Hp. Qed.

(** The answer for a text with a reading: the reading, unless a counter overflows. *)
Definition lexed (p : Position) (r : text) (ts : list Token) (es : list LexError) : option (result (list Token * list LexError) unit) :=
  Some (if overflowed (after r p) then Err tt else Ok (ts, es)).

(** One pass, over a piece that is not skipped. *)
Lemma tokenize_piece p t r c read fuel : (∃ t', t = c :: t') →
  next_satisfies is_blank (head (t ++ r)) = false → next_is Byte.x2f (head (t ++ r)) && next_is Byte.x2f (head (tail (t ++ r))) = false →
  read_token c {| rest := t ++ r; here := p |} = (read, {| rest := r; here := after t p |}) →
  tokenize_loop (S fuel) {| rest := t ++ r; here := p |} =
  if overflowed (after t p) then Some (Err tt)
  else match read with
       | ReadPanic => Some (Err tt)
       | ReadError message =>
           x ← tokenize_loop fuel {| rest := r; here := after t p |};
           Some match x with Ok (ts, es) => Ok (ts, {| lex_message := message; lex_span := span_between p (after t p) |} :: es) | Err e => Err e end
       | ReadKind k =>
           x ← tokenize_loop fuel {| rest := r; here := after t p |};
           Some match x with Ok (ts, es) => Ok ({| kind := k; token_span := span_between p (after t p) |} :: ts, es) | Err e => Err e end
       end.
Proof.
  intros (t' & Ht) H1 H2 Hread. cbn [tokenize_loop]. cbn [rest]. rewrite (skip_stops (t ++ r) p (length (t ++ r)) H1 H2). cbn [mbind option_bind here].
  destruct (overflowed p) eqn:Ep; [by rewrite (overflowed_after t p Ep)|].
  assert (peek {| rest := t ++ r; here := p |} = Some c) as -> by (by rewrite Ht). by rewrite Hread.
Qed.

Lemma tokenize_complete p r ts es : lexes p r ts es → ∀ fuel, (length r < fuel)%nat →
  tokenize_loop fuel {| rest := r; here := p |} = lexed p r ts es.
Proof.
  unfold lexed. induction 1 as [p|p t r ts es Hb _ IH|p t k r ts es Hl _ IH|p t m r ts es Hm _ IH]; intros [|fuel] Hf; try lia;
    rewrite ?length_app in Hf; rewrite ?after_app.
  - cbn. by destruct (overflowed p).
  - specialize (IH (S fuel) ltac:(lia)). cbn [tokenize_loop rest] in *. by rewrite (skip_blank t r p Hb).
  - pose proof (lexeme_not_blank _ _ _ Hl) as [H1 H2]. destruct (lexeme_nonempty _ _ _ Hl) as (c & t' & Ht).
    rewrite (tokenize_piece p t r c (ReadKind k)); [|by exists t'|done|done|by apply read_token_ok; [|rewrite Ht]].
    rewrite Ht in Hf. cbn in Hf. destruct (overflowed (after t p)) eqn:E; [by rewrite (overflowed_after r _ E)|]. rewrite IH by lia. cbn. by destruct (overflowed _).
  - pose proof (mistake_not_blank _ _ _ Hm) as [H1 H2]. destruct (mistake_nonempty _ _ _ Hm) as (c & t' & Ht).
    rewrite (tokenize_piece p t r c (ReadError m)); [|by exists t'|done|done|by apply read_token_mistake; [|rewrite Ht]].
    rewrite Ht in Hf. cbn in Hf. destruct (overflowed (after t p)) eqn:E; [by rewrite (overflowed_after r _ E)|]. rewrite IH by lia. cbn. by destruct (overflowed _).
Qed.

(** ** A source has one reading *)

Lemma blank_begins t r : blank t r → next_satisfies is_blank (head (t ++ r)) = true ∨
  next_is Byte.x2f (head (t ++ r)) && next_is Byte.x2f (head (tail (t ++ r))) = true.
Proof. intros [c r1 Hc|t1 r1 _ _]; [by left|by right]. Qed.

Lemma blank_unique t r t' r' : blank t r → blank t' r' → t ++ r = t' ++ r' → t = t' ∧ r = r'.
Proof.
  intros [c r1 Hc|t1 r1 Ht Hr] [c' r1' Hc'|t1' r1' Ht' Hr'] E; cbn in E; simplify_eq; try done.
  pose proof (while_next_app not_newline t1 r1 origin Ht Hr) as W.
  match goal with H : t1 ++ r1 = _ |- _ => rewrite H, (while_next_app not_newline t1' r1') in W by done end.
  injection W as _ ->. match goal with H : _ ++ _ = _ ++ _ |- _ => by apply app_inv_tail in H as -> end.
Qed.

(** Pieces that are read as tokens or mistakes. *)
Lemma read_unique t r t' r' k k' p c : head t = Some c → head t' = Some c → t ++ r = t' ++ r' →
  read_token c {| rest := t ++ r; here := p |} = (k, {| rest := r; here := after t p |}) →
  read_token c {| rest := t' ++ r'; here := p |} = (k', {| rest := r'; here := after t' p |}) → k = k' ∧ t = t' ∧ r = r'.
Proof. intros _ _ E H1 H2. rewrite E, H2 in H1. injection H1 as -> -> _. apply app_inv_tail in E. done. Qed.

Lemma lexes_unique p r ts es : lexes p r ts es → ∀ ts' es', lexes p r ts' es' → ts' = ts ∧ es' = es.
Proof.
  assert (∀ (t r : text), (∃ c t', t = c :: t') → t ++ r ≠ []) as Hne by by intros t r' (c & t' & ->).
  assert (∀ (t r t' r' : text), (∃ c u, t = c :: u) → (∃ c u, t' = c :: u) → t ++ r = t' ++ r' → ∃ c, head t = Some c ∧ head t' = Some c) as Hhead.
  { intros t r1 t' r2 (c & u & ->) (c' & u' & ->) E. injection E as -> _. by exists c'. }
  induction 1 as [p|p t r ts es Hb _ IH|p t k r ts es Hl _ IH|p t m r ts es Hm _ IH]; intros ts' es' Hlex.
  - inversion Hlex as [|? t r ? ? Hb _ Hx|? t k r ? ? Hl _ Hx|? t m r ? ? Hm _ Hx]; subst; [done|..]; exfalso.
    + by destruct Hb.
    + by eapply Hne; [eapply lexeme_nonempty|].
    + by eapply Hne; [eapply mistake_nonempty|].
  - pose proof (blank_begins _ _ Hb) as Hbegin. remember (t ++ r) as whole_text eqn:Ew. destruct Hlex as [q|q t' r' ts' es' Hb' Hrest|q t' k' r' ts' es' Hl' _|q t' m' r' ts' es' Hm' _].
    + by destruct Hb.
    + symmetry in Ew. destruct (blank_unique _ _ _ _ Hb Hb' Ew) as [-> ->]. by apply IH.
    + apply lexeme_not_blank in Hl' as [H1 H2]. rewrite H1, H2 in Hbegin. by destruct Hbegin.
    + apply mistake_not_blank in Hm' as [H1 H2]. rewrite H1, H2 in Hbegin. by destruct Hbegin.
  - pose proof (lexeme_not_blank _ _ _ Hl) as [H1 H2]. pose proof (lexeme_nonempty _ _ _ Hl) as Hn. remember (t ++ r) as whole_text eqn:Ew.
    destruct Hlex as [q|q t' r' ts' es' Hb' _|q t' k' r' ts' es' Hl' Hrest|q t' m' r' ts' es' Hm' _].
    + by destruct (Hne t r Hn).
    + apply blank_begins in Hb'. rewrite H1, H2 in Hb'. by destruct Hb'.
    + symmetry in Ew. destruct (Hhead _ _ _ _ Hn (lexeme_nonempty _ _ _ Hl') Ew) as (c & Hc & Hc').
      destruct (read_unique _ _ _ _ _ _ q c Hc Hc' Ew (read_token_ok _ _ _ q c Hl Hc) (read_token_ok _ _ _ q c Hl' Hc')) as ([= ->] & -> & ->).
      by destruct (IH _ _ Hrest) as [-> ->].
    + symmetry in Ew. destruct (Hhead _ _ _ _ Hn (mistake_nonempty _ _ _ Hm') Ew) as (c & Hc & Hc').
      by destruct (read_unique _ _ _ _ _ _ q c Hc Hc' Ew (read_token_ok _ _ _ q c Hl Hc) (read_token_mistake _ _ _ q c Hm' Hc')) as [[=] _].
  - pose proof (mistake_not_blank _ _ _ Hm) as [H1 H2]. pose proof (mistake_nonempty _ _ _ Hm) as Hn. remember (t ++ r) as whole_text eqn:Ew.
    destruct Hlex as [q|q t' r' ts' es' Hb' _|q t' k' r' ts' es' Hl' _|q t' m' r' ts' es' Hm' Hrest].
    + by destruct (Hne t r Hn).
    + apply blank_begins in Hb'. rewrite H1, H2 in Hb'. by destruct Hb'.
    + symmetry in Ew. destruct (Hhead _ _ _ _ Hn (lexeme_nonempty _ _ _ Hl') Ew) as (c & Hc & Hc').
      by destruct (read_unique _ _ _ _ _ _ q c Hc Hc' Ew (read_token_mistake _ _ _ q c Hm Hc) (read_token_ok _ _ _ q c Hl' Hc')) as [[=] _].
    + symmetry in Ew. destruct (Hhead _ _ _ _ Hn (mistake_nonempty _ _ _ Hm') Ew) as (c & Hc & Hc').
      destruct (read_unique _ _ _ _ _ _ q c Hc Hc' Ew (read_token_mistake _ _ _ q c Hm Hc) (read_token_mistake _ _ _ q c Hm' Hc')) as ([= ->] & -> & ->).
      by destruct (IH _ _ Hrest) as [-> ->].
Qed.

(** ** Every source has tokens *)

Definition ascii_byte (b : Byte.byte) : bool := byte_between 0 127 b.

Lemma continuation_not_ascii b : ascii_byte b = true → continuation b = false.
Proof.
  unfold ascii_byte, continuation. rewrite byte_between_spec. intros H. apply not_true_is_false. rewrite byte_between_spec. lia.
Qed.

Lemma second_not_ascii b0 b1 : ascii_byte b1 = true → second_of_three b0 b1 = false ∧ second_of_four b0 b1 = false.
Proof.
  intros Hb. pose proof (continuation_not_ascii b1 Hb) as Hc. unfold ascii_byte in Hb. rewrite byte_between_spec in Hb.
  assert (∀ low high, 128 ≤ low → byte_between low high b1 = false) as Hr by (intros; apply not_true_is_false; rewrite byte_between_spec; lia).
  unfold second_of_three, second_of_four. rewrite Hc, !Hr by lia. by rewrite !andb_false_r.
Qed.

(** Valid UTF-8 may be cut before a byte below 128. *)
Lemma utf8_valid_cut n : ∀ a c b, (length a < n)%nat → ascii_byte c = true →
  utf8_valid (a ++ c :: b) = true → utf8_valid a = true ∧ utf8_valid (c :: b) = true.
Proof.
  induction n as [|n IH]; intros a c b Hn Hc; [lia|]. pose proof (continuation_not_ascii c Hc) as Hcc.
  destruct a as [|b0 a]; [done|]. cbn [app utf8_valid length] in *. destruct (byte_between 0 127 b0); [apply IH; [lia|done]|].
  destruct a as [|b1 a]; cbn [app length] in *.
  { destruct (byte_between 194 223 b0); [by rewrite Hcc|]. destruct b as [|b2 b]; [done|]. destruct (second_not_ascii b0 c Hc) as [-> H4].
    destruct b as [|b3 b]; [done|]. by rewrite H4. }
  destruct (byte_between 194 223 b0); [intros [-> H]%andb_true_iff; cbn; apply IH in H; [done|lia|done]|].
  destruct a as [|b2 a]; cbn [app length] in *.
  { destruct (second_of_three b0 b1); [by rewrite Hcc|]. destruct b as [|b3 b]; [done|]. rewrite Hcc. by rewrite !andb_false_r. }
  destruct (second_of_three b0 b1); [intros [-> H]%andb_true_iff; cbn; apply IH in H; [done|lia|done]|].
  destruct a as [|b3 a]; cbn [app length] in *; [rewrite Hcc; by rewrite !andb_false_r|].
  intros [[[-> ->]%andb_true_iff ->]%andb_true_iff H]%andb_true_iff. cbn. apply IH in H; [done|lia|done].
Qed.

Lemma utf8_valid_ascii t : Forall ascii_byte t → utf8_valid t = true.
Proof. induction 1 as [|c t Hc _ IH]; [done|]. cbn. apply Is_true_true in Hc. unfold ascii_byte in Hc. by rewrite Hc. Qed.

Lemma word_is_ascii c : continues_word c = true → ascii_byte c = true.
Proof.
  unfold continues_word, is_alphabetic, is_digit, ascii_byte. rewrite !orb_true_iff, !byte_between_spec, byte_eqb_spec.
  intros [[[?|?]|?]| ->]; [lia..|]. cbn. lia.
Qed.

(** What is left of a valid source is valid from every byte below 128 on. *)
Definition sound (r : text) : Prop := ∀ a c b, r = a ++ c :: b → ascii_byte c = true → utf8_valid (c :: b) = true.

Lemma sound_valid r : utf8_valid r = true → sound r.
Proof. intros H a c b -> Hc. by eapply (utf8_valid_cut (S (length a))) in H as [_ ?]; [|lia|]. Qed.

Lemma sound_app t r : sound (t ++ r) → sound r.
Proof. intros H a c b -> Hc. eapply (H (t ++ a)); [by rewrite app_assoc|done]. Qed.

Lemma split_while (p : Byte.byte → bool) r : ∃ t r', r = t ++ r' ∧ Forall p t ∧ next_satisfies p (head r') = false.
Proof.
  induction r as [|c r (t & r' & -> & Ht & Hr)]; [by exists [], []|]. destruct (p c) eqn:E.
  - exists (c :: t), r'. split_and!; [done|constructor; [by rewrite E|done]|done].
  - by exists [], (c :: t ++ r').
Qed.

(** The first piece of a text. *)
Inductive piece : text → text → Prop :=
| piece_blank t r : blank t r → piece t r
| piece_token t k r : lexeme t k r → piece t r
| piece_mistake t m r : mistake t m r → piece t r.

Lemma number_piece c r : is_digit c = true → ∃ t r', c :: r = t ++ r' ∧ piece t r'.
Proof.
  intros Hc. destruct (split_while is_digit (c :: r)) as (t & r' & E & Ht & Hr'). rewrite E. destruct t as [|x t]; [cbn in E; subst r'; cbn in Hr'; congruence|].
  destruct (next_is Byte.x2e (head r') && next_satisfies is_digit (head (tail r'))) eqn:Ep.
  - destruct r' as [|point r']; [done|]. cbn in Ep. apply andb_true_iff in Ep as [->%byte_eqb_spec Hd].
    destruct (split_while is_digit r') as (b & r3 & -> & Hb & Hr3). destruct b as [|y b]; [cbn in Hd; congruence|].
    destruct (decimal_total ((x :: t) ++ y :: b) ltac:(by apply Forall_app) 0) as [n Hn].
    exists ((x :: t) ++ Byte.x2e :: y :: b), r3. split; [by rewrite <-app_assoc|]. eapply piece_token. by eapply decimal_lexeme.
  - destruct (decimal_total (x :: t) Ht 0) as [n Hn]. exists (x :: t), r'. split; [done|]. eapply piece_token. by eapply integer_lexeme.
Qed.

Lemma string_piece r : sound (Byte.x22 :: r) → ∃ t r', Byte.x22 :: r = t ++ r' ∧ piece t r'.
Proof.
  intros Hs. destruct (split_while not_quote r) as (t & r' & -> & Ht & Hr'). destruct r' as [|q r'].
  - exists (Byte.x22 :: t), []. split; [done|]. eapply piece_mistake. by constructor.
  - cbn in Hr'. unfold not_quote in Hr'. apply negb_false_iff, byte_eqb_spec in Hr' as ->.
    pose proof (Hs [] Byte.x22 (t ++ Byte.x22 :: r') eq_refl eq_refl) as Hv. cbn [utf8_valid] in Hv. change (byte_between 0 127 Byte.x22) with true in Hv.
    apply (utf8_valid_cut (S (length t))) in Hv as [Hv _]; [|lia|done].
    exists (Byte.x22 :: t ++ [Byte.x22]), r'. split; [cbn; by rewrite <-app_assoc|]. eapply piece_token, string_lexeme; [done|]. unfold from_utf8. by rewrite Hv.
Qed.

Lemma symbol_piece c k r : symbol c = Some k → ∃ t r', c :: r = t ++ r' ∧ piece t r'.
Proof.
  intros Hk. destruct (second_byte c) as [[b longer]|] eqn:Eb; [destruct (next_is b (head r)) eqn:En|].
  - destruct r as [|x r]; [done|]. cbn in En. apply byte_eqb_spec in En as ->. exists [c; b], r. split; [done|]. eapply piece_token. by eapply long_symbol_lexeme.
  - exists [c], r. split; [done|]. eapply piece_token, symbol_lexeme; [done| |].
    + intros b' longer' Hb. rewrite Eb in Hb. by injection Hb as <- <-.
    + apply second_byte_symbol in Eb as [_ Hne]. destruct (Byte.eqb c Byte.x2f) eqn:E; [by apply byte_eqb_spec in E|done].
  - destruct (Byte.eqb c Byte.x2f && next_is Byte.x2f (head r)) eqn:Es.
    + apply andb_true_iff in Es as [->%byte_eqb_spec Hn]. destruct r as [|x r]; [done|]. cbn in Hn. apply byte_eqb_spec in Hn as ->.
      destruct (split_while not_newline r) as (t & r' & -> & Ht & Hr'). exists (Byte.x2f :: Byte.x2f :: t), r'. split; [done|]. apply piece_blank. by constructor.
    + exists [c], r. split; [done|]. eapply piece_token, symbol_lexeme; [done|by rewrite Eb|done].
Qed.

Lemma piece_exists c r : sound (c :: r) → ∃ t r', c :: r = t ++ r' ∧ piece t r'.
Proof.
  intros Hs. destruct (is_blank c) eqn:Eb; [exists [c], r; split; [done|]; apply piece_blank; by constructor|].
  destruct (is_digit c) eqn:Ed; [by apply number_piece|]. destruct (Byte.eqb c Byte.x22) eqn:Eq; [apply byte_eqb_spec in Eq as ->; by apply string_piece|].
  destruct (starts_word c) eqn:Ew.
  - destruct (split_while continues_word r) as (t & r' & -> & Ht & Hr'). exists (c :: t), r'. split; [done|].
    eapply piece_token, word_lexeme; [done|done| |done]. unfold from_utf8. rewrite utf8_valid_ascii; [done|].
    eapply (Forall_impl continues_word); [constructor; [apply Is_true_true; by apply word_not_digit|done]|].
    intros x Hx%Is_true_true. apply Is_true_true. by apply word_is_ascii.
  - destruct (symbol c) as [k|] eqn:Ek; [by eapply symbol_piece|]. exists [c], r. split; [done|]. eapply piece_mistake. by apply unexpected_character.
Qed.

Lemma piece_nonempty t r : piece t r → t ≠ [].
Proof.
  intros [? ? []|? ? ? H|? ? ? H]; [done..| |].
  - apply lexeme_nonempty in H as (? & ? & ->). done.
  - apply mistake_nonempty in H as (? & ? & ->). done.
Qed.

Lemma lexes_total n : ∀ r p, (length r < n)%nat → sound r → ∃ ts es, lexes p r ts es.
Proof.
  induction n as [|n IH]; intros r p Hn Hs; [lia|]. destruct r as [|c r]; [eexists _, _; constructor|].
  destruct (piece_exists c r Hs) as (t & r' & E & Hp). rewrite E in *. pose proof (piece_nonempty _ _ Hp) as Ht.
  destruct (IH r' (after t p)) as (ts & es & Hl); [|by eapply sound_app|].
  { rewrite length_app in Hn. destruct t; [done|]. cbn in Hn. lia. }
  destruct Hp as [t r' H|t k r' H|t m r' H]; eexists _, _; [by eapply lexes_blank|by eapply lexes_token|by eapply lexes_mistake].
Qed.

(** Lines and columns stay below the offset and one, so that only a source of 4 GiB
    or more can overflow them. *)
Lemma no_overflow t : ∀ p, overflowed p = false → line p ≤ pos p + 1 → col p ≤ pos p + 1 → pos p + N.of_nat (length t) < u32_max →
  overflowed (after t p) = false.
Proof.
  induction t as [|c t IH]; intros p Hp Hl Hc Hn; [done|]. cbn [after length] in *.
  apply IH; unfold step; destruct (Byte.eqb _ _); cbn; try lia; rewrite Hp; apply bool_decide_eq_false; lia.
Qed.

(** The readings of a source are what the lexer answers, where no counter overflows. *)
Lemma tokenize_readings source : utf8_valid source = true → ∃ ts es,
  tokenize source = lexed origin source ts es ∧ ∀ ts' es', lexes origin source ts' es' ↔ ts' = ts ∧ es' = es.
Proof.
  intros Hv. destruct (lexes_total (S (length source)) source origin) as (ts & es & Hl); [lia|by apply sound_valid|].
  exists ts, es. split; [by apply tokenize_complete; [|lia]|]. intros ts' es'. split; [|by intros [-> ->]]. intros Hl'. by destruct (lexes_unique _ _ _ _ Hl' _ _ Hl).
Qed.

Lemma tokenize_exact source : utf8_valid source = true → N.of_nat (length source) < u32_max →
  ∃ ts es, tokenize source = Some (Ok (ts, es)) ∧ ∀ ts' es', lexes origin source ts' es' ↔ ts' = ts ∧ es' = es.
Proof.
  intros Hv Hn. destruct (tokenize_readings source Hv) as (ts & es & Ht & Hl). exists ts, es. split; [|done].
  rewrite Ht. unfold lexed. rewrite no_overflow; [done|done|cbn; lia..].
Qed.

(** C33: the prototype's lexer implements its lexical grammar: every UTF-8 source has
    exactly one reading as white space, comments, tokens as long as possible and
    mistakes, each token and error with the offsets, line and column of its text; the
    lexer ends and answers that reading, or panics where a line number or a column
    passes [u32::MAX], which no source shorter than that many bytes does. *)
Theorem lexing_exact source : utf8_valid source = true → ∃ ts es,
  (∀ ts' es', lexes origin source ts' es' ↔ ts' = ts ∧ es' = es) ∧
  tokenize source = Some (if overflowed (after source origin) then Err tt else Ok (ts, es)) ∧
  (N.of_nat (length source) < u32_max → overflowed (after source origin) = false).
Proof.
  intros Hv. destruct (tokenize_readings source Hv) as (ts & es & Ht & Hl). exists ts, es. split_and!; [done|exact Ht|].
  intros Hn. apply no_overflow; [done|cbn; lia..].
Qed.

Lemma lexing_exact_witness :
  ∃ ts es, tokenize [Byte.x78; Byte.x40] = Some (Ok (ts, es)) ∧ lexes origin [Byte.x78; Byte.x40] ts es ∧ map kind ts = [Identifier "x"; Eof] ∧ length es = 1%nat.
Proof.
  destruct (lexing_exact [Byte.x78; Byte.x40] eq_refl) as (ts & es & Hl & Ht & Ho). rewrite Ho in Ht by reflexivity. exists ts, es. split; [exact Ht|].
  split; [by apply Hl|]. vm_compute in Ht. injection Ht as <- <-. split; reflexivity.
Defined.

(** The tokens have one end, at the end. *)
Lemma lexes_end_once p r ts es : lexes p r ts es → ∃ init e, ts = init ++ [e] ∧ kind e = Eof ∧ Forall (λ t, kind t ≠ Eof) init.
Proof.
  induction 1 as [p|p t r ts es _ _ IH|p t k r ts es Hl _ (init & e & -> & He & Hall)|p t m r ts es _ _ IH]; [by eexists [], _|done| |done].
  exists ({| kind := k; token_span := span_between p (after t p) |} :: init), e. split_and!; [done|done|]. constructor; [|done]. cbn.
  destruct Hl as [| | |c t' s r' _ _ _ _|c k r' Hs _ _|c b k r' Hs]; try done.
  - unfold word_kind, keyword. by repeat case_bool_decide.
  - intros ->. by destruct c.
  - intros ->. by destruct c.
Qed.

(** A character beyond ASCII is reported once per byte, each as another character. *)
Theorem character_reported_per_byte :
  match tokenize [Byte.xc3; Byte.xa9] with
  | Some (Ok (_, es)) => map lex_message es = ["unexpected character 'Ã'"; "unexpected character '©'"]
  | _ => False
  end.
Proof. vm_compute. reflexivity. Qed.
