(* ===== verification/PrototypeParser.v ===== *)
(** * Parser of the prototype (src/parser.rs, src/ast.rs, src/main.rs)

    A recursive-descent parser over the tokens of the lexer.  A parser holds the tokens
    it has not taken and the errors reported; taking a token beyond the last one is a
    panic.  Nested calls and loops carry a step budget; every call and every pass
    takes a token, so the number of tokens and one is enough. *)

From stdpp Require Import base strings numbers list.
From S2P Require Import Prelude Text PrototypeLexer.
Open Scope string_scope.
Open Scope list_scope.
Open Scope N_scope.

(** ** Syntax tree *)

Inductive UnaryOp := Neg | Not.
Inductive BinaryOp := Add | Sub | Mul | Div | Mod | Eq | NotEq | Lt | LtEq | Gt | GtEq.

Inductive Expr :=
| ENumber (n : f64) (s : Span)
| EString (value : string) (s : Span)
| EBool (b : bool) (s : Span)
| EIdentifier (name : string) (s : Span)
| EUnary (op : UnaryOp) (operand : Expr) (s : Span)
| EBinary (op : BinaryOp) (left right : Expr) (s : Span)
| ECall (callee : Expr) (args : list Expr) (s : Span).

Definition expr_span (e : Expr) : Span :=
  match e with
  | ENumber _ s | EString _ s | EBool _ s | EIdentifier _ s | EUnary _ _ s | EBinary _ _ _ s | ECall _ _ s => s
  end.

Record LetDecl := { let_name : string; let_ty : option string; let_value : Expr; let_span : Span }.

(** An [if] with its conditions and blocks, and the statements. *)
Inductive Stmt :=
| SLet (d : LetDecl)
| SExpr (e : Expr)
| SReturn (value : option Expr) (s : Span)
| SIf (i : IfStmt)
| SBlock (b : list Stmt)
with IfStmt := MkIf (cond : Expr) (then_block : list Stmt) (else_branch : option ElseBranch) (s : Span)
with ElseBranch := ElseBlock (b : list Stmt) | ElseIf (i : IfStmt).

Abbreviation Block := (list Stmt).

Record Param := { param_name : string; param_ty : string }.
Record FunctionDecl := { fn_name : string; fn_params : list Param; fn_return_type : option string; fn_body : Block; fn_span : Span }.
Inductive Item := ItemFunction (f : FunctionDecl) | ItemLet (d : LetDecl).

(** ** Parser state *)

(** A message is the context with the token found, or the kind expected as well. *)
Inductive ParseMessage :=
| ExpectedKind (context : string) (expected found : TokenKind)
| ExpectedIdentifier (context : string) (found : TokenKind)
| ExpectedItem (found : TokenKind)
| ExpectedExpression (found : TokenKind).

Record ParseError := { parse_message : ParseMessage; parse_span : Span }.

Record Parser := { tokens : list Token; errors : list ParseError }.

Definition parser_new (ts : list Token) : Parser := {| tokens := ts; errors := [] |}.

(** [PResult], a panic, or a budget that is spent. *)
Inductive Outcome (A : Type) := POk (a : A) (p : Parser) | PErr (p : Parser) | PPanic | PFuel.
Arguments POk {A} a p. Arguments PErr {A} p. Arguments PPanic {A}. Arguments PFuel {A}.

Abbreviation parse A := (Parser → Outcome A).

Definition pbind {A B} (m : parse A) (k : A → parse B) : parse B := λ p,
  match m p with POk a p => k a p | PErr p => PErr p | PPanic => PPanic | PFuel => PFuel end.
Definition pret {A} (a : A) : parse A := λ p, POk a p.
Definition pmap {A B} (f : A → B) (m : parse A) : parse B := pbind m (λ a, pret (f a)).

Declare Scope parse_scope.
Delimit Scope parse_scope with parse.
Notation "x <- m ; k" := (pbind m (λ x, k)) (at level 100, m at next level, right associativity) : parse_scope.
Notation "m ;; k" := (pbind m (λ _, k)) (at level 100, right associativity) : parse_scope.
Local Open Scope parse_scope.

(** ** Token stream *)

Definition peek_token : parse Token := λ p,
  match tokens p with [] => PPanic | t :: _ => POk t p end.

Definition is_eof (k : TokenKind) : bool := match k with Eof => true | _ => false end.

Definition is_at_end : parse bool := t <- peek_token; pret (is_eof (kind t)).

Definition advance_token : parse Token := λ p,
  match tokens p with
  | [] => PPanic
  | t :: rest => POk t (if is_eof (kind t) then p else {| tokens := rest; errors := errors p |})
  end.

(** [discriminant(a) == discriminant(b)] *)
Definition same_kind (a b : TokenKind) : bool :=
  match a, b with
  | Number _, Number _ | StringLiteral _, StringLiteral _ | Identifier _, Identifier _
  | Fn, Fn | Let, Let | Return, Return | If, If | Else, Else | KwTrue, KwTrue | KwFalse, KwFalse
  | LParen, LParen | RParen, RParen | LBrace, LBrace | RBrace, RBrace | Comma, Comma | Colon, Colon | Arrow, Arrow
  | Plus, Plus | Minus, Minus | Star, Star | Slash, Slash | Percent, Percent | Bang, Bang | Equal, Equal
  | EqualEqual, EqualEqual | BangEqual, BangEqual | Less, Less | LessEqual, LessEqual | Greater, Greater
  | GreaterEqual, GreaterEqual | Eof, Eof => true
  | _, _ => false
  end.

Definition check (k : TokenKind) : parse bool := t <- peek_token; pret (same_kind (kind t) k).

(** [self.error(..)] followed by [Err(())]. *)
Definition fail {A} (message : ParseMessage) (s : Span) : parse A := λ p,
  PErr {| tokens := tokens p; errors := errors p ++ [{| parse_message := message; parse_span := s |}] |}.

Definition expect_kind (k : TokenKind) (context : string) : parse Token :=
  t <- peek_token;
  if same_kind (kind t) k then advance_token else fail (ExpectedKind context k (kind t)) (token_span t).

Definition expect_identifier (context : string) : parse string :=
  t <- peek_token;
  match kind t with
  | Identifier name => advance_token ;; pret name
  | found => fail (ExpectedIdentifier context found) (token_span t)
  end.

(** [while !self.is_at_end()], up to a token that may begin the next part. *)
Fixpoint skip_to (fuel : nat) (begins : TokenKind → bool) : parse unit :=
  match fuel with
  | O => λ _, PFuel
  | S fuel =>
      t <- peek_token;
      if is_eof (kind t) then pret tt
      else if begins (kind t) then pret tt
      else advance_token ;; skip_to fuel begins
  end.

Definition begins_item (k : TokenKind) : bool := match k with Fn | Let => true | _ => false end.
Definition begins_stmt (k : TokenKind) : bool := match k with Let | Return | If | LBrace | RBrace => true | _ => false end.

Definition synchronize_item (fuel : nat) : parse unit := advance_token ;; skip_to fuel begins_item.
Definition synchronize_stmt (fuel : nat) : parse unit := advance_token ;; skip_to fuel begins_stmt.

(** ** Expressions *)

Definition equality_op (k : TokenKind) : option BinaryOp :=
  match k with EqualEqual => Some Eq | BangEqual => Some NotEq | _ => None end.
Definition comparison_op (k : TokenKind) : option BinaryOp :=
  match k with Less => Some Lt | LessEqual => Some LtEq | Greater => Some Gt | GreaterEqual => Some GtEq | _ => None end.
Definition term_op (k : TokenKind) : option BinaryOp := match k with Plus => Some Add | Minus => Some Sub | _ => None end.
Definition factor_op (k : TokenKind) : option BinaryOp :=
  match k with Star => Some Mul | Slash => Some Div | Percent => Some Mod | _ => None end.
Definition unary_op (k : TokenKind) : option UnaryOp := match k with Bang => Some Not | Minus => Some Neg | _ => None end.

(** [Span::new] from the start of one span to the end of another. *)
Definition span_to (a b : Span) : Span :=
  {| span_start := span_start a; span_end := span_end b; span_line := span_line a; span_col := span_col a |}.

Definition combine_exprs (left : Expr) (op : BinaryOp) (right : Expr) : Expr :=
  EBinary op left right (span_to (expr_span left) (expr_span right)).

Section expressions.
Context (expression : parse Expr).

Definition parse_primary : parse Expr :=
  t <- peek_token;
  match kind t with
  | Number n => advance_token ;; pret (ENumber n (token_span t))
  | StringLiteral value => advance_token ;; pret (EString value (token_span t))
  | KwTrue => advance_token ;; pret (EBool true (token_span t))
  | KwFalse => advance_token ;; pret (EBool false (token_span t))
  | Identifier name => advance_token ;; pret (EIdentifier name (token_span t))
  | LParen =>
      advance_token ;;
      e <- expression;
      expect_kind RParen "parenthesized expression" ;;
      pret e
  | other => fail (ExpectedExpression other) (token_span t)
  end.

(** The loop over the arguments of a call. *)
Fixpoint parse_args (fuel : nat) : parse (list Expr) :=
  match fuel with
  | O => λ _, PFuel
  | S fuel =>
      e <- expression;
      comma <- check Comma;
      if comma then advance_token ;; rest <- parse_args fuel; pret (e :: rest) else pret [e]
  end.

Fixpoint call_loop (fuel : nat) (e : Expr) : parse Expr :=
  match fuel with
  | O => λ _, PFuel
  | S fuel =>
      paren <- check LParen;
      if paren then
        advance_token ;;
        empty <- check RParen;
        args <- (if empty then pret [] else parse_args fuel);
        end_tok <- expect_kind RParen "call arguments";
        call_loop fuel (ECall e args (span_to (expr_span e) (token_span end_tok)))
      else pret e
  end.

Definition parse_call (fuel : nat) : parse Expr := e <- parse_primary; call_loop fuel e.

Fixpoint parse_unary (fuel : nat) : parse Expr :=
  match fuel with
  | O => λ _, PFuel
  | S n =>
      t <- peek_token;
      match unary_op (kind t) with
      | Some op =>
          op_token <- advance_token;
          operand <- parse_unary n;
          pret (EUnary op operand (span_to (token_span op_token) (expr_span operand)))
      | None => parse_call fuel
      end
  end.

(** The loop of the four binary levels, with the operators and operands of one. *)
Fixpoint binary_loop (fuel : nat) (op_of : TokenKind → option BinaryOp) (operand : parse Expr) (left : Expr) : parse Expr :=
  match fuel with
  | O => λ _, PFuel
  | S fuel =>
      t <- peek_token;
      match op_of (kind t) with
      | Some op => advance_token ;; right <- operand; binary_loop fuel op_of operand (combine_exprs left op right)
      | None => pret left
      end
  end.

Definition binary_level (fuel : nat) (op_of : TokenKind → option BinaryOp) (operand : parse Expr) : parse Expr :=
  left <- operand; binary_loop fuel op_of operand left.

Definition parse_factor (fuel : nat) : parse Expr := binary_level fuel factor_op (parse_unary fuel).
Definition parse_term (fuel : nat) : parse Expr := binary_level fuel term_op (parse_factor fuel).
Definition parse_comparison (fuel : nat) : parse Expr := binary_level fuel comparison_op (parse_term fuel).
Definition parse_equality (fuel : nat) : parse Expr := binary_level fuel equality_op (parse_comparison fuel).
End expressions.

Fixpoint parse_expression (fuel : nat) : parse Expr :=
  match fuel with
  | O => λ _, PFuel
  | S n => parse_equality (parse_expression n) fuel
  end.

(** ** Statements *)

Definition parse_let (fuel : nat) : parse LetDecl :=
  t <- peek_token;
  expect_kind Let "let binding" ;;
  name <- expect_identifier "variable name";
  colon <- check Colon;
  ty <- (if colon then advance_token ;; pmap Some (expect_identifier "variable type") else pret None);
  expect_kind Equal "let binding" ;;
  value <- parse_expression fuel;
  pret {| let_name := name; let_ty := ty; let_value := value; let_span := token_span t |}.

Definition parse_return (fuel : nat) : parse Stmt :=
  t <- peek_token;
  expect_kind Return "return statement" ;;
  bare <- check RBrace;
  if bare then pret (SReturn None (token_span t))
  else e <- parse_expression fuel; pret (SReturn (Some e) (token_span t)).

Section statements.
Context (statement : parse Stmt).

(** The loop over the statements of a block; one that fails is skipped. *)
Fixpoint block_loop (fuel : nat) : parse Block :=
  match fuel with
  | O => λ _, PFuel
  | S fuel =>
      closed <- check RBrace;
      ended <- is_at_end;
      if negb closed && negb ended then
        λ p, match statement p with
             | POk s p => pmap (cons s) (block_loop fuel) p
             | PErr p => (synchronize_stmt fuel ;; block_loop fuel) p
             | PPanic => PPanic
             | PFuel => PFuel
             end
      else pret []
  end.

Definition parse_block (fuel : nat) : parse Block :=
  expect_kind LBrace "block" ;;
  stmts <- block_loop fuel;
  expect_kind RBrace "block" ;;
  pret stmts.

Fixpoint parse_if (fuel : nat) : parse IfStmt :=
  match fuel with
  | O => λ _, PFuel
  | S n =>
      t <- peek_token;
      expect_kind If "if statement" ;;
      cond <- parse_expression fuel;
      then_block <- parse_block fuel;
      has_else <- check Else;
      else_branch <-
        (if has_else then
           advance_token ;;
           chained <- check If;
           if chained then pmap (λ i, Some (ElseIf i)) (parse_if n) else pmap (λ b, Some (ElseBlock b)) (parse_block fuel)
         else pret None);
      pret (MkIf cond then_block else_branch (token_span t))
  end.
End statements.

Fixpoint parse_statement (fuel : nat) : parse Stmt :=
  match fuel with
  | O => λ _, PFuel
  | S n =>
      t <- peek_token;
      match kind t with
      | Let => pmap SLet (parse_let fuel)
      | Return => parse_return fuel
      | If => pmap SIf (parse_if (parse_statement n) fuel)
      | LBrace => pmap SBlock (parse_block (parse_statement n) fuel)
      | _ => pmap SExpr (parse_expression fuel)
      end
  end.

(** ** Items *)

Fixpoint parse_params (fuel : nat) : parse (list Param) :=
  match fuel with
  | O => λ _, PFuel
  | S fuel =>
      name <- expect_identifier "parameter name";
      expect_kind Colon "parameter type annotation" ;;
      ty <- expect_identifier "parameter type";
      comma <- check Comma;
      if comma then advance_token ;; pmap (cons {| param_name := name; param_ty := ty |}) (parse_params fuel)
      else pret [{| param_name := name; param_ty := ty |}]
  end.

Definition parse_function (fuel : nat) : parse FunctionDecl :=
  t <- peek_token;
  expect_kind Fn "function declaration" ;;
  name <- expect_identifier "function name";
  expect_kind LParen "function parameters" ;;
  empty <- check RParen;
  params <- (if empty then pret [] else parse_params fuel);
  expect_kind RParen "function parameters" ;;
  arrow <- check Arrow;
  return_type <- (if arrow then advance_token ;; pmap Some (expect_identifier "return type") else pret None);
  body <- parse_block (parse_statement fuel) fuel;
  pret {| fn_name := name; fn_params := params; fn_return_type := return_type; fn_body := body; fn_span := token_span t |}.

Definition parse_item (fuel : nat) : parse Item :=
  t <- peek_token;
  match kind t with
  | Fn => pmap ItemFunction (parse_function fuel)
  | Let => pmap ItemLet (parse_let fuel)
  | found => fail (ExpectedItem found) (token_span t)
  end.

Fixpoint program_loop (fuel : nat) : parse (list Item) :=
  match fuel with
  | O => λ _, PFuel
  | S n =>
      ended <- is_at_end;
      if ended then pret []
      else λ p, match parse_item fuel p with
                | POk item p => pmap (cons item) (program_loop n) p
                | PErr p => (synchronize_item n ;; program_loop n) p
                | PPanic => PPanic
                | PFuel => PFuel
                end
  end.

(** One more than the tokens is enough. *)
Definition parse_program (ts : list Token) : Outcome (list Item) := program_loop (S (length ts)) (parser_new ts).

(** ** The grammar *)

Definition level_op (n : nat) (k : TokenKind) : option BinaryOp :=
  match n with 0%nat => equality_op k | 1%nat => comparison_op k | 2%nat => term_op k | 3%nat => factor_op k | _ => None end.

(** Whether a token continues an expression of a level. *)
Definition continues (n : nat) (k : TokenKind) : bool :=
  ((n <=? 5)%nat && same_kind k LParen) || existsb (λ m, (n <=? m)%nat && bool_decide (is_Some (level_op m k))) [0; 1; 2; 3]%nat.

Definition stops (n : nat) (ts : list Token) : Prop := match ts with t :: _ => continues n (kind t) = false | [] => True end.

(** Expressions: the four binary levels, prefixes (4), calls (5) and primaries (6). *)
Inductive expr_at : nat → list Token → Expr → Prop :=
| expr_binary n t op ts1 left ts2 right : level_op n (kind t) = Some op → expr_at n ts1 left → expr_at (S n) ts2 right →
    expr_at n (ts1 ++ t :: ts2) (combine_exprs left op right)
| expr_up n ts e : (n < 6)%nat → expr_at (S n) ts e → expr_at n ts e
| expr_unary t op ts e : unary_op (kind t) = Some op → expr_at 4 ts e →
    expr_at 4 (t :: ts) (EUnary op e (span_to (token_span t) (expr_span e)))
| expr_call ts f l args_ts args r : expr_at 5 ts f → kind l = LParen → args_at args_ts args → kind r = RParen →
    expr_at 5 (ts ++ l :: args_ts ++ [r]) (ECall f args (span_to (expr_span f) (token_span r)))
| expr_number t n : kind t = Number n → expr_at 6 [t] (ENumber n (token_span t))
| expr_string t value : kind t = StringLiteral value → expr_at 6 [t] (EString value (token_span t))
| expr_true t : kind t = KwTrue → expr_at 6 [t] (EBool true (token_span t))
| expr_false t : kind t = KwFalse → expr_at 6 [t] (EBool false (token_span t))
| expr_identifier t name : kind t = Identifier name → expr_at 6 [t] (EIdentifier name (token_span t))
| expr_paren l ts e r : kind l = LParen → expr_at 0 ts e → kind r = RParen → expr_at 6 (l :: ts ++ [r]) e
with args_at : list Token → list Expr → Prop :=
| args_none : args_at [] []
| args_some ts args : args1_at ts args → args_at ts args
with args1_at : list Token → list Expr → Prop :=
| args_one ts e : expr_at 0 ts e → args1_at ts [e]
| args_more ts e c rest_ts rest : expr_at 0 ts e → kind c = Comma → args1_at rest_ts rest → args1_at (ts ++ c :: rest_ts) (e :: rest).

Inductive let_at : list Token → LetDecl → Prop :=
| let_plain l i name q ts e : kind l = Let → kind i = Identifier name → kind q = Equal → expr_at 0 ts e →
    let_at (l :: i :: q :: ts) {| let_name := name; let_ty := None; let_value := e; let_span := token_span l |}
| let_typed l i name c y ty q ts e : kind l = Let → kind i = Identifier name → kind c = Colon → kind y = Identifier ty → kind q = Equal → expr_at 0 ts e →
    let_at (l :: i :: c :: y :: q :: ts) {| let_name := name; let_ty := Some ty; let_value := e; let_span := token_span l |}.

(** What may follow a statement: an expression at its end is as long as possible, and
    a bare [return] is the last statement of its block. *)
Definition may_follow (s : Stmt) (ts : list Token) : Prop :=
  match s with
  | SLet _ | SExpr _ | SReturn (Some _) _ => stops 0 ts
  | SReturn None _ => ts = []
  | SIf _ | SBlock _ => True
  end.

Inductive stmt_at : list Token → Stmt → Prop :=
| stmt_let ts d : let_at ts d → stmt_at ts (SLet d)
| stmt_expr ts e : expr_at 0 ts e → stmt_at ts (SExpr e)
| stmt_return t ts e : kind t = Return → expr_at 0 ts e → stmt_at (t :: ts) (SReturn (Some e) (token_span t))
| stmt_bare t : kind t = Return → stmt_at [t] (SReturn None (token_span t))
| stmt_if ts i : if_at ts i → stmt_at ts (SIf i)
| stmt_block ts b : block_at ts b → stmt_at ts (SBlock b)
with block_at : list Token → Block → Prop :=
| block_braces l ts b r : kind l = LBrace → stmts_at ts b → kind r = RBrace → block_at (l :: ts ++ [r]) b
with stmts_at : list Token → Block → Prop :=
| stmts_nil : stmts_at [] []
| stmts_cons ts s rest_ts b : stmt_at ts s → stmts_at rest_ts b → may_follow s rest_ts → stmts_at (ts ++ rest_ts) (s :: b)
with if_at : list Token → IfStmt → Prop :=
| if_plain t cts cond bts b : kind t = If → expr_at 0 cts cond → block_at bts b → if_at (t :: cts ++ bts) (MkIf cond b None (token_span t))
| if_else t cts cond bts b l ets e : kind t = If → expr_at 0 cts cond → block_at bts b → kind l = Else → else_at ets e →
    if_at (t :: cts ++ bts ++ l :: ets) (MkIf cond b (Some e) (token_span t))
with else_at : list Token → ElseBranch → Prop :=
| else_block ts b : block_at ts b → else_at ts (ElseBlock b)
| else_if ts i : if_at ts i → else_at ts (ElseIf i).

Inductive params_at : list Token → list Param → Prop :=
| params_one i name c y ty : kind i = Identifier name → kind c = Colon → kind y = Identifier ty →
    params_at [i; c; y] [{| param_name := name; param_ty := ty |}]
| params_more i name c y ty m ts ps : kind i = Identifier name → kind c = Colon → kind y = Identifier ty → kind m = Comma → params_at ts ps →
    params_at (i :: c :: y :: m :: ts) ({| param_name := name; param_ty := ty |} :: ps).

Inductive result_at : list Token → option string → Prop :=
| result_none : result_at [] None
| result_type a y ty : kind a = Arrow → kind y = Identifier ty → result_at [a; y] (Some ty).

Inductive item_at : list Token → Item → Prop :=
| item_let ts d : let_at ts d → item_at ts (ItemLet d)
| item_fn f i name l pts ps r rts ty bts b : kind f = Fn → kind i = Identifier name → kind l = LParen → (pts = [] ∧ ps = [] ∨ params_at pts ps) →
    kind r = RParen → result_at rts ty → block_at bts b →
    item_at (f :: i :: l :: pts ++ r :: rts ++ bts)
      (ItemFunction {| fn_name := name; fn_params := ps; fn_return_type := ty; fn_body := b; fn_span := token_span f |}).

(** The items of a whole file, before its end. *)
Definition program_at (ts : list Token) (items : list Item) : Prop :=
  ∃ parts, ts = concat parts ∧ Forall2 item_at parts items.

(** ** The parser takes what the grammar gives *)

(** The tokens of the lexer: one end, at the end. *)
Definition ended (ts : list Token) : Prop := ∃ init e, ts = init ++ [e] ∧ kind e = Eof ∧ Forall (λ t, kind t ≠ Eof) init.

Definition wp {A} (m : parse A) (p : Parser) (Q : A → Parser → Prop) (E : Parser → Prop) : Prop :=
  match m p with POk a p' => Q a p' | PErr p' => E p' | PPanic | PFuel => False end.

Lemma pwp_bind {A B} (m : parse A) (k : A → parse B) p Q E : wp m p (λ a p', wp (k a) p' Q E) E → wp (pbind m k) p Q E.
Proof. unfold wp, pbind. by destruct (m p). Qed.

Lemma pwp_mono {A} (m : parse A) p (Q Q' : A → Parser → Prop) (E E' : Parser → Prop) :
  wp m p Q E → (∀ a p', Q a p' → Q' a p') → (∀ p', E p' → E' p') → wp m p Q' E'.
Proof. unfold wp. destruct (m p); naive_solver. Qed.

Lemma pwp_ret {A} (a : A) p (Q : A → Parser → Prop) E : Q a p → wp (pret a) p Q E.
Proof. done. Qed.

Lemma wp_map {A B} (f : A → B) (m : parse A) p Q E : wp m p (λ a, Q (f a)) E → wp (pmap f m) p Q E.
Proof. intros H. unfold pmap. by apply pwp_bind. Qed.

(** A parser after a token. *)
Definition taken (p : Parser) (ts : list Token) : Parser := {| tokens := ts; errors := errors p |}.

(** A failure: some tokens are taken, and an error is reported. *)
Definition failed (p p' : Parser) : Prop :=
  ended (tokens p') ∧ (∃ ts, tokens p = ts ++ tokens p') ∧ ∃ e es, errors p' = errors p ++ e :: es.

Lemma ended_cons t ts : ended (t :: ts) → kind t ≠ Eof → ended ts.
Proof.
  intros ([|x init] & e & Heq & He & Hall) Ht; injection Heq as -> ->; [done|]. exists init, e. apply Forall_cons in Hall as [_ ?]. done.
Qed.

Lemma ended_first t ts : ended (t :: ts) → kind t = Eof → ts = [].
Proof. intros ([|x init] & e & Heq & He & Hall) Ht; injection Heq as -> ->; [done|]. by apply Forall_cons in Hall as [? _]. Qed.

Lemma ended_suffix a b : ended (a ++ b) → b ≠ [] → ended b.
Proof.
  induction a as [|t a IH]; [done|]. cbn. intros H Hb. apply IH; [|done]. eapply ended_cons; [exact H|].
  intros Ht. apply (ended_first _ _ H) in Ht. apply app_eq_nil in Ht as [_ ?]. done.
Qed.

Lemma failed_after p p1 p2 t : tokens p = t :: tokens p1 → errors p1 = errors p → failed p1 p2 → failed p p2.
Proof.
  intros Ht He (H1 & (ts & Hts) & e & es & Hes). split_and!; [done| |exists e, es; by rewrite <-He]. exists (t :: ts). by rewrite Ht, Hts.
Qed.

Lemma failed_app p p1 p2 ts : tokens p = ts ++ tokens p1 → errors p1 = errors p → failed p1 p2 → failed p p2.
Proof.
  intros Ht He (H1 & (ts' & Hts) & e & es & Hes). split_and!; [done| |exists e, es; by rewrite <-He]. exists (ts ++ ts'). by rewrite Ht, Hts, app_assoc.
Qed.

(** A parser answers: with a value that is in [R] with the errors reported, the tokens
    taken and the tokens left, or with a failure. *)
Definition ok {A} (R : list ParseError → A → list Token → list Token → Prop) (m : parse A) (p : Parser) : Prop :=
  wp m p (λ a p', ended (tokens p') ∧ ∃ ts es, tokens p = ts ++ tokens p' ∧ errors p' = errors p ++ es ∧ R es a ts (tokens p')) (failed p).

Lemma ok_mono {A} (R R' : list ParseError → A → list Token → list Token → Prop) m p :
  ok R m p → (∀ es a ts rest, tokens p = ts ++ rest → R es a ts rest → R' es a ts rest) → ok R' m p.
Proof. intros H HR. eapply pwp_mono; [exact H| |done]. cbn. intros a p' (? & ts & es & ? & ? & ?). split; [done|]. exists ts, es. auto. Qed.

Lemma ok_ret {A} (R : list ParseError → A → list Token → list Token → Prop) a p : ended (tokens p) → R [] a [] (tokens p) → ok R (pret a) p.
Proof. intros He HR. split; [done|]. exists [], []. by rewrite app_nil_r. Qed.

(** A further parser, from what was left. *)
Lemma ok_then {B} (R : list ParseError → B → list Token → list Token → Prop) (k : parse B) p p' ts es :
  tokens p = ts ++ tokens p' → errors p' = errors p ++ es → ok (λ es' b ts' rest, R (es ++ es') b (ts ++ ts') rest) k p' →
  wp k p' (λ a p', ended (tokens p') ∧ ∃ ts es, tokens p = ts ++ tokens p' ∧ errors p' = errors p ++ es ∧ R es a ts (tokens p')) (failed p).
Proof.
  intros Ht Hes Hk. eapply pwp_mono; [exact Hk| |].
  - cbn. intros b p2 (He2 & ts2 & es2 & Ht2 & Hes2 & HR2). split; [done|]. exists (ts ++ ts2), (es ++ es2). by rewrite Ht, Ht2, Hes2, Hes, !app_assoc.
  - intros p2 (He2 & (ts2 & Ht2) & e & es2 & Hes2). split_and!; [done|exists (ts ++ ts2); by rewrite Ht, Ht2, app_assoc|].
    rewrite Hes2, Hes, <-app_assoc. destruct es as [|e0 es]; [by exists e, es2|]. by exists e0, (es ++ e :: es2).
Qed.

Lemma ok_bind {A B} R1 (R : list ParseError → B → list Token → list Token → Prop) (m : parse A) k p :
  ok R1 m p →
  (∀ a ts es p', tokens p = ts ++ tokens p' → errors p' = errors p ++ es → ended (tokens p') → R1 es a ts (tokens p') →
     ok (λ es' b ts' rest, R (es ++ es') b (ts ++ ts') rest) (k a) p') →
  ok R (pbind m k) p.
Proof.
  intros Hm Hk. apply pwp_bind. eapply pwp_mono; [exact Hm| |done]. cbn. intros a p' (He & ts & es & Ht & Hes & HR). by apply (ok_then R (k a) p p' ts es), Hk.
Qed.

Lemma ok_map {A B} (f : A → B) R (m : parse A) p : ok (λ es a, R es (f a)) m p → ok R (pmap f m) p.
Proof. intros H. by apply wp_map. Qed.

Lemma ok_same {A} R (m k : parse A) p : m p = k p → ok R k p → ok R m p.
Proof. unfold ok, wp. by intros ->. Qed.

Lemma ok_peek {B} R (k : Token → parse B) p : ended (tokens p) → (∀ t ts, tokens p = t :: ts → ok R (k t) p) → ok R (pbind peek_token k) p.
Proof.
  intros (init & e & Ht & _) Hk. destruct (tokens p) as [|t ts] eqn:E; [by destruct init|]. apply (ok_same R _ (k t)); [|by eapply Hk].
  unfold pbind, peek_token. by rewrite E.
Qed.

Lemma ok_check {B} R c (k : bool → parse B) p t ts : tokens p = t :: ts → ok R (k (same_kind (kind t) c)) p → ok R (pbind (check c) k) p.
Proof. intros Ht. apply ok_same. unfold check, pbind, peek_token. by rewrite Ht. Qed.

Lemma ok_at_end {B} R (k : bool → parse B) p t ts : tokens p = t :: ts → ok R (k (is_eof (kind t))) p → ok R (pbind is_at_end k) p.
Proof. intros Ht. apply ok_same. unfold is_at_end, pbind, peek_token. by rewrite Ht. Qed.

Lemma ok_take {B} (R : list ParseError → B → list Token → list Token → Prop) (m k : parse B) p t ts : tokens p = t :: ts →
  m p = k (taken p ts) → ok (λ es b ts' rest, R es b (t :: ts') rest) k (taken p ts) → ok R m p.
Proof.
  intros Ht Hm Hk. unfold ok, wp in *. rewrite Hm. destruct (k (taken p ts)) as [b p'|p'| |]; [| |done..].
  - destruct Hk as (He & ts' & es & Hts & Hes & HR). split; [done|]. exists (t :: ts'), es. cbn in *. by rewrite Ht, Hts.
  - by eapply (failed_after p (taken p ts)).
Qed.

Lemma advance_at {B} (k : Token → parse B) p t ts : tokens p = t :: ts → kind t ≠ Eof → pbind advance_token k p = k t (taken p ts).
Proof. intros Ht Hk. unfold pbind, advance_token. rewrite Ht. by destruct (kind t). Qed.

Lemma ok_advance {B} R (k : Token → parse B) p t ts : tokens p = t :: ts → kind t ≠ Eof →
  ok (λ es b ts' rest, R es b (t :: ts') rest) (k t) (taken p ts) → ok R (pbind advance_token k) p.
Proof. intros Ht Hne Hk. eapply ok_take; [done|by eapply advance_at|done]. Qed.

Lemma ok_fail {A} (R : list ParseError → A → list Token → list Token → Prop) message s p : ended (tokens p) → ok R (fail message s) p.
Proof. intros He. split_and!; [done|by exists []|]. cbn. by eexists _, []. Qed.

(** Kinds without data are known by their discriminant. *)
Definition plain (k : TokenKind) : bool := match k with Number _ | StringLiteral _ | Identifier _ | Eof => false | _ => true end.

Lemma same_kind_plain a k : plain k = true → same_kind a k = true ↔ a = k.
Proof. destruct a, k; cbn; split; congruence. Qed.

Lemma expect_at {B} k context (kk : Token → parse B) p t ts : tokens p = t :: ts → plain k = true → kind t = k →
  pbind (expect_kind k context) kk p = kk t (taken p ts).
Proof.
  intros Ht Hk Hkind. unfold expect_kind, pbind, peek_token. rewrite Ht. rewrite (proj2 (same_kind_plain (kind t) k Hk) Hkind).
  unfold advance_token. rewrite Ht, Hkind. by destruct k.
Qed.

Lemma ok_expect {B} R k context (kk : Token → parse B) p t ts : tokens p = t :: ts → ended (tokens p) → plain k = true →
  (kind t = k → ended ts → ok (λ es b ts' rest, R es b (t :: ts') rest) (kk t) (taken p ts)) → ok R (pbind (expect_kind k context) kk) p.
Proof.
  intros Ht He Hk Hkk. destruct (same_kind (kind t) k) eqn:E.
  - pose proof (proj1 (same_kind_plain _ _ Hk) E) as Hkind. eapply ok_take; [done|by eapply expect_at|]. apply Hkk; [done|]. rewrite Ht in He.
    eapply ended_cons; [done|]. rewrite Hkind. by destruct k.
  - apply (ok_same R _ (fail (ExpectedKind context k (kind t)) (token_span t))); [|by apply ok_fail].
    unfold expect_kind, pbind, peek_token. by rewrite Ht, E.
Qed.

Lemma ok_identifier {B} R context (kk : string → parse B) p t ts : tokens p = t :: ts → ended (tokens p) →
  (∀ name, kind t = Identifier name → ended ts → ok (λ es b ts' rest, R es b (t :: ts') rest) (kk name) (taken p ts)) →
  ok R (pbind (expect_identifier context) kk) p.
Proof.
  intros Ht He Hkk. destruct (kind t) eqn:E;
    try (apply (ok_same R _ (fail (ExpectedIdentifier context (kind t)) (token_span t))); [|by apply ok_fail];
         unfold expect_identifier, pbind, peek_token; by rewrite Ht, E).
  eapply ok_take; [done| |].
  - unfold pbind at 1. unfold expect_identifier, pbind, peek_token. rewrite Ht, E. unfold advance_token. rewrite Ht, E. cbn. reflexivity.
  - apply Hkk; [done|]. rewrite Ht in He. eapply ended_cons; [done|by rewrite E].
Qed.

Lemma ended_inv ts : ended ts → ∃ t rest, ts = t :: rest.
Proof. intros ([|t init] & e & -> & _); by eexists _, _. Qed.

(** ** Expressions are parsed *)

Scheme expr_at_mut := Induction for expr_at Sort Prop
  with args_at_mut := Induction for args_at Sort Prop
  with args1_at_mut := Induction for args1_at Sort Prop.
Combined Scheme expr_args_ind from expr_at_mut, args_at_mut, args1_at_mut.

Lemma expr_nonempty n ts e : expr_at n ts e → ts ≠ [].
Proof. induction 1; try done; intros []%app_eq_nil; done. Qed.

Lemma stops_S n ts : stops n ts → stops (S n) ts.
Proof.
  unfold stops. destruct ts as [|t ts]; [done|]. unfold continues. intros [H1 H2]%orb_false_iff. apply orb_false_iff. split.
  - apply andb_false_iff in H1 as [H1|H1]; [|by rewrite H1, andb_false_r]. rewrite (proj2 (Nat.leb_gt _ _)); [done|]. apply Nat.leb_gt in H1. lia.
  - cbn [existsb] in *. rewrite !orb_false_iff in *. destruct H2 as (? & ? & ? & ? & ?). split_and!; try done;
      match goal with H : (n <=? ?m)%nat && ?b = false |- (S n <=? ?m)%nat && ?b = false =>
        apply andb_false_iff in H as [H|H]; [rewrite (proj2 (Nat.leb_gt _ _)); [done|apply Nat.leb_gt in H; lia]|by rewrite H, andb_false_r] end.
Qed.

(** A level stops where the next one stops and no operator of its own follows. *)
Lemma stops_level n t ts : (n ≤ 3)%nat → stops n (t :: ts) ↔ level_op n (kind t) = None ∧ stops (S n) (t :: ts).
Proof.
  intros Hn. split.
  - intros H. split; [|by apply stops_S]. apply eq_None_not_Some. intros Hs. unfold stops, continues in H. apply orb_false_iff in H as [_ H].
    cbn [existsb] in H. rewrite !orb_false_iff, !andb_false_iff, !bool_decide_eq_false in H.
    destruct H as (H0 & H1 & H2 & H3 & _). destruct n as [|[|[|[|n]]]]; [| | | |lia]; naive_solver.
  - unfold stops, continues. destruct (kind t), n as [|[|[|[|n]]]]; cbn; try done; try (by intros []); lia.
Qed.

Lemma stops_unary t ts : stops 4 (t :: ts) ↔ kind t ≠ LParen.
Proof. unfold stops, continues. destruct (kind t); cbn; split; done. Qed.

Section expressions_ok.
Context (expression : parse Expr) (bound : nat).

Definition expr_ok (n : nat) (m : parse Expr) (p : Parser) : Prop :=
  ok (λ es e ts rest, es = [] ∧ expr_at n ts e ∧ stops n rest) m p.

Context (Hexpr : ∀ p, ended (tokens p) → (length (tokens p) < bound)%nat → expr_ok 0 expression p).

Lemma primary_ok p : ended (tokens p) → (length (tokens p) ≤ bound)%nat → expr_ok 6 (parse_primary expression) p.
Proof.
  intros He Hl. unfold parse_primary. apply ok_peek; [done|]. intros t ts Ht.
  assert (kind t ≠ Eof → ended ts) as Hts by (intros Hk; rewrite Ht in He; by eapply ended_cons).
  assert (∀ ts', stops 6 ts') as Hstops by (intros [|x ts']; [done|]; unfold stops, continues; destruct (kind x); done).
  destruct (kind t) eqn:E; try (by apply ok_fail);
    try (eapply ok_advance; [done|by rewrite E|]; apply ok_ret; [by apply Hts|split_and!; [done|by constructor|done]]).
  eapply ok_advance; [done|by rewrite E|]. eapply ok_bind.
  { apply Hexpr; [by apply Hts|]. rewrite Ht in Hl. cbn in *. lia. }
  intros e ts1 es p1 Ht1 He1 Hp1 (-> & Hd & _). destruct (ended_inv _ Hp1) as (r & ts2 & Hr). eapply ok_expect; [done|done|done|].
  intros Hk Hts2. apply ok_ret; [done|]. split_and!; [done| |done]. by apply expr_paren.
Qed.

Lemma args_ok fuel : ∀ p, ended (tokens p) → (length (tokens p) < bound)%nat → (length (tokens p) < fuel)%nat →
  ok (λ es args ts _, es = [] ∧ args1_at ts args) (parse_args expression fuel) p.
Proof.
  induction fuel as [|fuel IH]; intros p He Hb Hf; [lia|]. cbn [parse_args]. eapply ok_bind; [by apply Hexpr|].
  intros e ts1 es p1 Ht1 He1 Hp1 (-> & Hd & _). destruct (ended_inv _ Hp1) as (c & ts2 & Hc). eapply ok_check; [done|].
  pose proof (expr_nonempty _ _ _ Hd) as Hne. rewrite Ht1, Hc, length_app in Hf, Hb. destruct ts1 as [|x ts1]; [done|]. cbn in Hf, Hb.
  destruct (same_kind (kind c) Comma) eqn:E.
  - apply same_kind_plain in E; [|done]. eapply ok_advance; [done|by rewrite E|]. eapply ok_bind.
    { apply IH; cbn [tokens taken]; [rewrite Hc in Hp1; eapply ended_cons; [done|by rewrite E]|lia|lia]. }
    intros args ts3 es3 p3 Ht3 He3 Hp3 [-> Hargs]. apply ok_ret; [done|]. split; [done|]. rewrite !app_nil_r. by apply args_more.
  - apply ok_ret; [done|]. rewrite !app_nil_r. split; [done|]. by apply args_one.
Qed.

(** The loop continues an expression that is read already. *)
Lemma call_loop_ok fuel : ∀ e ts0 p, expr_at 5 ts0 e → ended (tokens p) → (length (tokens p) ≤ bound)%nat → (length (tokens p) < fuel)%nat →
  ok (λ es e' ts rest, es = [] ∧ expr_at 5 (ts0 ++ ts) e' ∧ stops 5 rest) (call_loop expression fuel e) p.
Proof.
  induction fuel as [|fuel IH]; intros e ts0 p He0 He Hb Hf; [lia|]. cbn [call_loop]. destruct (ended_inv _ He) as (t & ts & Ht).
  eapply ok_check; [done|]. destruct (same_kind (kind t) LParen) eqn:E.
  2: { apply ok_ret; [done|]. rewrite !app_nil_r. split_and!; [done|done|]. rewrite Ht. unfold stops, continues. rewrite E. by destruct (kind t). }
  apply same_kind_plain in E; [|done]. rewrite Ht in Hb, Hf, He. cbn in Hb, Hf. assert (ended ts) as Hts by (eapply ended_cons; [done|by rewrite E]).
  eapply ok_advance; [done|by rewrite E|]. destruct (ended_inv _ Hts) as (u & us & Hu). eapply (ok_check _ _ _ _ u us); [done|].
  eapply (ok_bind (λ es args ts' _, es = [] ∧ args_at ts' args)).
  { destruct (same_kind (kind u) RParen); [apply ok_ret; [done|split; [done|constructor]]|].
    eapply ok_mono; [apply args_ok; cbn [tokens taken]; [done|lia|lia]|]. cbn. intros es args ts' rest _ [-> ?]. split; [done|by constructor]. }
  intros args ts1 es p1 Ht1 He1 Hp1 [-> Hargs]. cbn [tokens taken] in Ht1. destruct (ended_inv _ Hp1) as (r & rs & Hr).
  eapply ok_expect; [done|done|done|]. intros Hk Hrs. rewrite Ht1, Hr, length_app in Hb, Hf. cbn in Hb, Hf.
  eapply ok_mono; [apply (IH _ (ts0 ++ t :: ts1 ++ [r])); cbn [tokens taken]; [by apply expr_call|done|lia|lia]|].
  cbn. intros es e' ts' rest _ (-> & Hd & Hs). split_and!; [done| |done]. by rewrite <-app_assoc, <-app_comm_cons, <-app_assoc in Hd.
Qed.

Lemma call_ok fuel p : ended (tokens p) → (length (tokens p) ≤ bound)%nat → (length (tokens p) < fuel)%nat → expr_ok 5 (parse_call expression fuel) p.
Proof.
  intros He Hb Hf. eapply ok_bind; [by apply primary_ok|]. intros e ts1 es p1 Ht1 He1 Hp1 (-> & Hd & _). rewrite Ht1, length_app in Hb, Hf.
  eapply call_loop_ok; [by apply expr_up; [lia|]|done|lia|lia].
Qed.

Lemma unary_ok fuel : ∀ p, ended (tokens p) → (length (tokens p) ≤ bound)%nat → (length (tokens p) < fuel)%nat → expr_ok 4 (parse_unary expression fuel) p.
Proof.
  induction fuel as [|fuel IH]; intros p He Hb Hf; [lia|]. cbn [parse_unary]. apply ok_peek; [done|]. intros t ts Ht.
  destruct (unary_op (kind t)) as [op|] eqn:E.
  - assert (kind t ≠ Eof) as Hne by (intros Hk; by rewrite Hk in E). eapply ok_advance; [done|done|]. rewrite Ht in He, Hb, Hf. cbn in Hb, Hf. eapply ok_bind.
    { apply IH; cbn [tokens taken]; [by eapply ended_cons|lia|lia]. }
    intros e ts1 es p1 Ht1 He1 Hp1 (-> & Hd & Hs). apply ok_ret; [done|]. rewrite !app_nil_r. split_and!; [done|by apply expr_unary|done].
  - eapply ok_mono; [by apply call_ok|]. cbn. intros es e ts' rest _ (-> & Hd & Hs). split_and!; [done|apply expr_up; [lia|done]|].
    destruct rest as [|r rest]; [done|]. apply stops_unary. unfold stops, continues in Hs. by destruct (kind r).
Qed.

Lemma binary_loop_ok n operand fuel : (n ≤ 3)%nat →
  (∀ p, ended (tokens p) → (length (tokens p) ≤ bound)%nat → (length (tokens p) < fuel)%nat → expr_ok (S n) operand p) →
  ∀ fuel' left ts0 p, (fuel' ≤ fuel)%nat → expr_at n ts0 left → ended (tokens p) → (length (tokens p) ≤ bound)%nat → (length (tokens p) < fuel')%nat →
  stops (S n) (tokens p) →
  ok (λ es e ts rest, es = [] ∧ expr_at n (ts0 ++ ts) e ∧ stops n rest) (binary_loop fuel' (level_op n) operand left) p.
Proof.
  intros Hn Hoperand. induction fuel' as [|fuel' IH]; intros left ts0 p Hle Hleft He Hb Hf Hstops; [lia|]. cbn [binary_loop].
  apply ok_peek; [done|]. intros t ts Ht. destruct (level_op n (kind t)) as [op|] eqn:E.
  - assert (kind t ≠ Eof) as Hne by (intros Hk; rewrite Hk in E; by destruct n as [|[|[|[|n]]]]).
    rewrite Ht in He, Hb, Hf. cbn in Hb, Hf. eapply ok_advance; [done|done|]. eapply ok_bind.
    { apply Hoperand; cbn [tokens taken]; [by eapply ended_cons|lia|lia]. }
    intros right ts1 es p1 Ht1 He1 Hp1 (-> & Hd & Hs). cbn [tokens taken] in Ht1. rewrite Ht1, length_app in Hb, Hf.
    eapply ok_mono; [apply (IH _ (ts0 ++ t :: ts1)); [lia|by apply expr_binary|done|lia|lia|done]|].
    cbn. intros es e ts' rest _ (-> & Hd' & Hs'). split_and!; [done| |done]. by rewrite <-app_assoc in Hd'.
  - apply ok_ret; [done|]. rewrite !app_nil_r. split_and!; [done|done|]. rewrite Ht in *. by apply stops_level.
Qed.

Lemma binary_level_ok n operand fuel : (n ≤ 3)%nat →
  (∀ p, ended (tokens p) → (length (tokens p) ≤ bound)%nat → (length (tokens p) < fuel)%nat → expr_ok (S n) operand p) →
  ∀ p, ended (tokens p) → (length (tokens p) ≤ bound)%nat → (length (tokens p) < fuel)%nat → expr_ok n (binary_level fuel (level_op n) operand) p.
Proof.
  intros Hn Hoperand p He Hb Hf. eapply ok_bind; [by apply Hoperand|]. intros e ts1 es p1 Ht1 He1 Hp1 (-> & Hd & Hs). rewrite Ht1, length_app in Hb, Hf.
  eapply (binary_loop_ok n operand fuel); try done; [by apply expr_up; [lia|]|lia|lia].
Qed.

Lemma equality_ok fuel p : ended (tokens p) → (length (tokens p) ≤ bound)%nat → (length (tokens p) < fuel)%nat → expr_ok 0 (parse_equality expression fuel) p.
Proof.
  revert p. apply (binary_level_ok 0); [lia|]. apply (binary_level_ok 1); [lia|]. apply (binary_level_ok 2); [lia|]. apply (binary_level_ok 3); [lia|].
  apply unary_ok.
Qed.
End expressions_ok.

Lemma expression_ok fuel : ∀ p, ended (tokens p) → (length (tokens p) < fuel)%nat → expr_ok 0 (parse_expression fuel) p.
Proof.
  induction fuel as [|fuel IH]; intros p He Hf; [lia|]. cbn [parse_expression]. apply (equality_ok _ fuel); [done|done|lia|lia].
Qed.

(** ** Statements are parsed *)

(** What follows a statement up to the brace that ends its block. *)
Definition follow (s : Stmt) (rest : list Token) : Prop :=
  match s with
  | SLet _ | SExpr _ | SReturn (Some _) _ => stops 0 rest
  | SReturn None _ => ∃ r rs, rest = r :: rs ∧ kind r = RBrace
  | SIf _ | SBlock _ => True
  end.

(** A part that fails is skipped and the next one is parsed. *)
Lemma ok_recover {A B} R1 (R : list ParseError → B → list Token → list Token → Prop) (m : parse A) (k : A → parse B) (h : parse B) p :
  ok R1 m p →
  (∀ a ts es p', tokens p = ts ++ tokens p' → errors p' = errors p ++ es → ended (tokens p') → R1 es a ts (tokens p') →
     ok (λ es' b ts' rest, R (es ++ es') b (ts ++ ts') rest) (k a) p') →
  (∀ ts e es p', tokens p = ts ++ tokens p' → errors p' = errors p ++ e :: es → ended (tokens p') →
     ok (λ es' b ts' rest, R ((e :: es) ++ es') b (ts ++ ts') rest) h p') →
  ok R (λ p, match m p with POk a p => k a p | PErr p => h p | PPanic => PPanic | PFuel => PFuel end) p.
Proof.
  intros Hm Hk Hh. unfold ok, wp in Hm |- *. destruct (m p) as [a p'|p'| |]; [| |done..].
  - destruct Hm as (He & ts & es & Ht & Hes & HR). by apply (ok_then R (k a) p p' ts es Ht Hes), Hk.
  - destruct Hm as (He & (ts & Ht) & e & es & Hes). by apply (ok_then R h p p' ts (e :: es) Ht Hes), Hh.
Qed.

Lemma skip_to_ok fuel begins : ∀ p, ended (tokens p) → (length (tokens p) ≤ fuel)%nat → ok (λ es _ _ _, es = []) (skip_to fuel begins) p.
Proof.
  induction fuel as [|fuel IH]; intros p He Hf; destruct (ended_inv _ He) as (t & ts & Ht); rewrite Ht in Hf; cbn in Hf; [lia|].
  cbn [skip_to]. apply ok_peek; [done|]. intros t' ts' Ht'. rewrite Ht in Ht'. injection Ht' as <- <-.
  destruct (is_eof (kind t)) eqn:Ee; [by apply ok_ret|]. destruct (begins (kind t)); [by apply ok_ret|].
  assert (kind t ≠ Eof) as Hne by (intros Hk; by rewrite Hk in Ee). eapply ok_advance; [done|done|]. rewrite Ht in He.
  apply IH; cbn [tokens taken]; [by eapply ended_cons|lia].
Qed.

Lemma synchronize_ok fuel begins p : ended (tokens p) → (length (tokens p) ≤ fuel)%nat →
  ok (λ es _ ts rest, es = [] ∧ (ts = [] → length rest = 1%nat)) (advance_token ;; skip_to fuel begins) p.
Proof.
  intros He Hf. destruct (ended_inv _ He) as (t & ts & Ht). destruct (is_eof (kind t)) eqn:Ee.
  - assert (kind t = Eof) as Hk by (by destruct (kind t)). eapply (ok_same _ _ (skip_to fuel begins)).
    { unfold pbind, advance_token. by rewrite Ht, Ee. }
    eapply ok_mono; [by apply skip_to_ok|]. cbn. intros es a ts' rest Htok ->. split; [done|]. intros ->. cbn in Htok. rewrite <-Htok, Ht.
    rewrite Ht in He. by rewrite (ended_first _ _ He Hk).
  - assert (kind t ≠ Eof) as Hne by (intros Hk; by rewrite Hk in Ee). eapply ok_advance; [done|done|]. rewrite Ht in He, Hf. cbn in Hf.
    eapply ok_mono; [apply skip_to_ok; cbn [tokens taken]; [by eapply ended_cons|lia]|]. cbn. intros es a ts' rest _ ->. done.
Qed.

Lemma let_ok fuel p : ended (tokens p) → (length (tokens p) ≤ fuel)%nat →
  ok (λ es d ts rest, es = [] ∧ let_at ts d ∧ stops 0 rest) (parse_let fuel) p.
Proof.
  intros He Hf. unfold parse_let. apply ok_peek; [done|]. intros l ts Hl. eapply ok_expect; [done|done|done|]. intros Hkl Hts.
  destruct (ended_inv _ Hts) as (i & ts1 & ->). eapply ok_identifier; [done|done|]. intros name Hki Hts1.
  destruct (ended_inv _ Hts1) as (c & ts2 & ->). eapply (ok_check _ _ _ _ c ts2); [done|]. rewrite Hl in Hf. cbn in Hf.
  destruct (same_kind (kind c) Colon) eqn:Ec.
  - apply same_kind_plain in Ec; [|done]. assert (ended ts2) as Hts2 by (eapply ended_cons; [done|by rewrite Ec]). destruct (ended_inv _ Hts2) as (y & ts3 & ->).
    eapply (ok_bind (λ es ty ts' rest, es = [] ∧ ∃ y' ty', ts' = [c; y'] ∧ kind y' = Identifier ty' ∧ ty = Some ty')).
    { eapply ok_advance; [done|by rewrite Ec|]. unfold pmap. eapply ok_identifier; [done|done|]. intros ty Hky Hts3. apply ok_ret; [done|]. split; [done|]. by exists y, ty. }
    intros ty ts' es p1 Ht1 He1 Hp1 (-> & y' & ty' & -> & Hky & ->). cbn in Ht1. injection Ht1 as <- Ht1.
    destruct (ended_inv _ Hp1) as (q & ts4 & Hq). eapply ok_expect; [done|done|done|]. intros Hkq Hts4. eapply ok_bind.
    { apply expression_ok; cbn [tokens taken]; [done|]. rewrite Ht1, Hq in Hf. cbn in Hf. lia. }
    intros e ts5 es p2 Ht2 He2 Hp2 (-> & Hd & Hs). apply ok_ret; [done|]. cbn. rewrite !app_nil_r. split_and!; [done|by apply let_typed|done].
  - eapply (ok_bind (λ es ty ts' rest, es = [] ∧ ts' = [] ∧ ty = None)); [by apply ok_ret|].
    intros ty ts' es p1 Ht1 He1 Hp1 (-> & -> & ->). cbn in Ht1. eapply (ok_expect _ _ _ _ _ c ts2); [done|done|done|]. intros Hkq Hts4. eapply ok_bind.
    { apply expression_ok; cbn [tokens taken]; [done|]. cbn in Hf. lia. }
    intros e ts5 es p2 Ht2 He2 Hp2 (-> & Hd & Hs). apply ok_ret; [done|]. cbn. rewrite !app_nil_r. split_and!; [done|by apply let_plain|done].
Qed.

Lemma let_nonempty ts d : let_at ts d → ts ≠ [].
Proof. by intros []. Qed.

Lemma return_ok fuel p : ended (tokens p) → (length (tokens p) ≤ fuel)%nat →
  ok (λ es s ts rest, ts ≠ [] ∧ (es = [] → stmt_at ts s ∧ follow s rest)) (parse_return fuel) p.
Proof.
  intros He Hf. unfold parse_return. apply ok_peek; [done|]. intros t ts Ht. eapply ok_expect; [done|done|done|]. intros Hk Hts.
  destruct (ended_inv _ Hts) as (r & ts1 & ->). eapply (ok_check _ _ _ _ r ts1); [done|]. destruct (same_kind (kind r) RBrace) eqn:Er.
  - apply same_kind_plain in Er; [|done]. apply ok_ret; [done|]. split; [done|]. intros _. split; [by apply stmt_bare|]. by exists r, ts1.
  - eapply ok_bind.
    { apply expression_ok; cbn [tokens taken]; [done|]. rewrite Ht in Hf. cbn in Hf |- *. lia. }
    intros e ts2 es p1 Ht1 He1 Hp1 (-> & Hd & Hs). apply ok_ret; [done|]. split; [done|]. intros _. rewrite app_nil_r. split; [by apply stmt_return|done].
Qed.

Section statements_ok.
Context (statement : parse Stmt) (bound : nat).

Definition stmt_result (es : list ParseError) (s : Stmt) (ts rest : list Token) : Prop := ts ≠ [] ∧ (es = [] → stmt_at ts s ∧ follow s rest).

Context (Hstmt : ∀ p, ended (tokens p) → (length (tokens p) < bound)%nat → ok stmt_result statement p).

Lemma may_follow_rest s ts rest : follow s (ts ++ rest) → (∀ r rs, ts ++ rest = r :: rs → kind r = RBrace → ts = []) → may_follow s ts.
Proof.
  intros Hf Hbrace. destruct s as [d|e|[e|] sp|i|b]; cbn in *; try done; try (by destruct ts).
  destruct Hf as (r & rs & Hr & Hk). by eapply Hbrace.
Qed.

Lemma block_loop_ok fuel : ∀ p, ended (tokens p) → (length (tokens p) < bound)%nat → (length (tokens p) < fuel)%nat →
  ok (λ es b ts rest, (es = [] → stmts_at ts b) ∧ ∀ r rs, ts ++ rest = r :: rs → kind r = RBrace → ts = []) (block_loop statement fuel) p.
Proof.
  induction fuel as [|fuel IH]; intros p He Hb Hf; [lia|]. cbn [block_loop]. destruct (ended_inv _ He) as (t & ts & Ht).
  eapply ok_check; [done|]. eapply ok_at_end; [done|]. destruct (negb _ && negb _) eqn:E.
  2: { apply ok_ret; [done|]. split; [intros _; constructor|done]. }
  apply andb_true_iff in E as [Ebrace%negb_true_iff Eeof%negb_true_iff].
  assert (kind t ≠ Eof) as Hne by (intros Hk; by rewrite Hk in Eeof).
  assert (kind t ≠ RBrace) as Hnb by (intros Hk; by rewrite Hk in Ebrace).
  assert (1 < length (tokens p))%nat as Hlong.
  { rewrite Ht in *. assert (ended ts) as Hts by (by eapply ended_cons). destruct (ended_inv _ Hts) as (? & ? & ->). cbn. lia. }
  assert (∀ ts' rest, tokens p = ts' ++ rest → ∀ r rs, ts' ++ rest = r :: rs → kind r = RBrace → ts' = []) as Hfirst.
  { intros ts' rest Htok r rs Hr Hk. rewrite <-Htok, Ht in Hr. injection Hr as <- <-. done. }
  apply (ok_recover stmt_result); [by apply Hstmt| |].
  - intros s ts1 es p1 Ht1 He1 Hp1 [Hne1 Hs]. apply ok_map. destruct ts1 as [|x ts1]; [done|]. rewrite Ht1, length_app in Hb, Hf. cbn in Hb, Hf.
    eapply ok_mono; [apply IH; [done|lia|lia]|]. cbn [app]. intros es' b ts' rest Htok [Hb' Hbr]. split.
    + intros [-> ->]%app_eq_nil. destruct (Hs eq_refl) as [Hs1 Hs2]. apply (stmts_cons (x :: ts1)); [done|by apply Hb'|].
      rewrite Htok in Hs2. by eapply may_follow_rest.
    + intros r rs Hr. apply (Hfirst ((x :: ts1) ++ ts') rest) with rs; [|done]. by rewrite Ht1, Htok, app_assoc.
  - intros ts1 e es p1 Ht1 He1 Hp1. assert (length (tokens p1) ≤ length (tokens p))%nat as Hle by (rewrite Ht1, length_app; lia).
    eapply ok_bind; [apply (synchronize_ok fuel begins_stmt); [done|lia]|]. intros [] ts2 es2 p2 Ht2 He2 Hp2 [-> Hmoved].
    eapply ok_mono; [apply IH; [done| |]|].
    + rewrite Ht2, length_app in Hle. destruct ts2; [rewrite Hmoved by done|]; cbn in *; lia.
    + rewrite Ht2, length_app in Hle. destruct ts2; [rewrite Hmoved by done|]; cbn in *; lia.
    + cbn. intros es' b ts' rest Htok _. split; [done|]. intros r rs Hr. apply (Hfirst (ts1 ++ ts2 ++ ts') rest) with rs; [|done]. by rewrite Ht1, Ht2, Htok, !app_assoc.
Qed.

Lemma block_ok fuel p : ended (tokens p) → (length (tokens p) ≤ bound)%nat → (length (tokens p) ≤ fuel)%nat →
  ok (λ es b ts rest, ts ≠ [] ∧ (es = [] → block_at ts b)) (parse_block statement fuel) p.
Proof.
  intros He Hb Hf. unfold parse_block. destruct (ended_inv _ He) as (l & ts & Hl). eapply ok_expect; [done|done|done|]. intros Hkl Hts.
  rewrite Hl in Hb, Hf. cbn in Hb, Hf. eapply ok_bind; [apply block_loop_ok; cbn [tokens taken]; [done|lia|lia]|].
  intros b ts1 es p1 Ht1 He1 Hp1 [Hb1 _]. destruct (ended_inv _ Hp1) as (r & rs & Hr). eapply ok_expect; [done|done|done|]. intros Hkr Hrs.
  apply ok_ret; [done|]. split; [done|]. intros [-> _]%app_eq_nil. apply block_braces; [done|by apply Hb1|done].
Qed.

Lemma if_ok fuel : ∀ p, ended (tokens p) → (length (tokens p) ≤ bound)%nat → (length (tokens p) < fuel)%nat →
  ok (λ es i ts rest, ts ≠ [] ∧ (es = [] → if_at ts i)) (parse_if statement fuel) p.
Proof.
  induction fuel as [|fuel IH]; intros p He Hb Hf; [lia|]. cbn [parse_if]. apply ok_peek; [done|]. intros t ts Ht. eapply ok_expect; [done|done|done|].
  intros Hk Hts. rewrite Ht in Hb, Hf. cbn in Hb, Hf. eapply ok_bind; [apply expression_ok; cbn [tokens taken]; [done|lia]|].
  intros cond ts1 es1 p1 Ht1 He1 Hp1 (-> & Hd & _). cbn [tokens taken] in Ht1. rewrite Ht1, length_app in Hb, Hf.
  eapply ok_bind; [apply block_ok; [done|lia|lia]|]. intros b ts2 es2 p2 Ht2 He2 Hp2 [Hne Hbl]. rewrite Ht2, length_app in Hb, Hf.
  destruct (ended_inv _ Hp2) as (l & ls & Hl). eapply ok_check; [done|]. destruct (same_kind (kind l) Else) eqn:El.
  - apply same_kind_plain in El; [|done]. rewrite Hl in Hp2, Hb, Hf. cbn in Hb, Hf. assert (ended ls) as Hls by (eapply ended_cons; [done|by rewrite El]).
    destruct (ended_inv _ Hls) as (u & us & Hu).
    eapply (ok_bind (λ es e ts' rest, ts' ≠ [] ∧ (es = [] → ∃ ets e', ts' = l :: ets ∧ e = Some e' ∧ else_at ets e'))).
    { eapply ok_advance; [done|by rewrite El|]. eapply (ok_check _ _ _ _ u us); [done|]. destruct (same_kind (kind u) If).
      - apply ok_map. eapply ok_mono; [apply IH; cbn [tokens taken]; [done|lia|lia]|]. cbn. intros es i ts' rest _ [_ Hi]. split; [done|].
        intros ->. exists ts', (ElseIf i). split_and!; [done|done|]. apply else_if. by apply Hi.
      - apply ok_map. eapply ok_mono; [apply block_ok; cbn [tokens taken]; [done|lia|lia]|]. cbn. intros es b' ts' rest _ [_ Hb']. split; [done|].
        intros ->. exists ts', (ElseBlock b'). split_and!; [done|done|]. apply else_block. by apply Hb'. }
    intros e ts3 es3 p3 Ht3 He3 Hp3 [_ Helse]. apply ok_ret; [done|]. split; [done|]. cbn [app]. rewrite !app_nil_r. intros [-> ->]%app_eq_nil.
    destruct (Helse eq_refl) as (ets & e' & -> & -> & He'). apply if_else; [done|done|by apply Hbl|done|done].
  - eapply (ok_bind (λ es e ts' rest, es = [] ∧ ts' = [] ∧ e = None)); [by apply ok_ret|]. intros e ts3 es3 p3 Ht3 He3 Hp3 (-> & -> & ->).
    apply ok_ret; [done|]. split; [done|]. cbn [app]. rewrite !app_nil_r. intros ->. apply if_plain; [done|done|by apply Hbl].
Qed.
End statements_ok.

Lemma statement_ok fuel : ∀ p, ended (tokens p) → (length (tokens p) < fuel)%nat → ok stmt_result (parse_statement fuel) p.
Proof.
  induction fuel as [|fuel IH]; intros p He Hf; [lia|]. cbn [parse_statement]. apply ok_peek; [done|]. intros t ts Ht.
  assert (ok stmt_result (pmap SExpr (parse_expression (S fuel))) p) as Hexpr.
  { apply ok_map. eapply ok_mono; [by apply expression_ok|]. cbn. intros es e ts' rest _ (-> & Hd & Hs).
    split; [by eapply expr_nonempty|]. intros _. split; [by apply stmt_expr|done]. }
  destruct (kind t) eqn:E; try exact Hexpr.
  - apply ok_map. eapply ok_mono; [apply let_ok; [done|lia]|]. cbn. intros es d ts' rest _ (-> & Hd & Hs). split; [by eapply let_nonempty|].
    intros _. split; [by apply stmt_let|done].
  - apply return_ok; [done|lia].
  - apply ok_map. eapply ok_mono; [apply (if_ok _ fuel); [done|done|lia|lia]|]. cbn. intros es i ts' rest _ [Hne Hi]. split; [done|].
    intros ->. split; [by apply stmt_if, Hi|done].
  - apply ok_map. eapply ok_mono; [apply (block_ok _ fuel); [done|done|lia|lia]|]. cbn. intros es b ts' rest _ [Hne Hb]. split; [done|].
    intros ->. split; [by apply stmt_block, Hb|done].
Qed.

(** ** Items are parsed *)

Lemma params_ok fuel : ∀ p, ended (tokens p) → (length (tokens p) < fuel)%nat → ok (λ es ps ts rest, es = [] ∧ params_at ts ps) (parse_params fuel) p.
Proof.
  induction fuel as [|fuel IH]; intros p He Hf; [lia|]. cbn [parse_params]. destruct (ended_inv _ He) as (i & ts & Ht).
  eapply ok_identifier; [done|done|]. intros name Hki Hts. destruct (ended_inv _ Hts) as (c & ts1 & ->). eapply ok_expect; [done|done|done|].
  intros Hkc Hts1. destruct (ended_inv _ Hts1) as (y & ts2 & ->). eapply ok_identifier; [done|done|]. intros ty Hky Hts2.
  destruct (ended_inv _ Hts2) as (m & ts3 & ->). eapply (ok_check _ _ _ _ m ts3); [done|]. rewrite Ht in Hf. cbn in Hf.
  destruct (same_kind (kind m) Comma) eqn:Em.
  - apply same_kind_plain in Em; [|done]. eapply ok_advance; [done|by rewrite Em|]. apply ok_map.
    eapply ok_mono; [apply IH; cbn [tokens taken]; [eapply ended_cons; [done|by rewrite Em]|lia]|]. cbn. intros es ps ts' rest _ [-> Hps].
    split; [done|]. by apply params_more.
  - apply ok_ret; [done|]. split; [done|]. by apply params_one.
Qed.

Lemma function_ok fuel p : ended (tokens p) → (length (tokens p) ≤ fuel)%nat →
  ok (λ es f ts rest, ts ≠ [] ∧ (es = [] → item_at ts (ItemFunction f))) (parse_function fuel) p.
Proof.
  intros He Hf. unfold parse_function. apply ok_peek; [done|]. intros f ts Ht. rewrite Ht in Hf. cbn in Hf. eapply ok_expect; [done|done|done|].
  intros Hkf Hts. destruct (ended_inv _ Hts) as (i & ts1 & ->). eapply ok_identifier; [done|done|]. intros name Hki Hts1.
  destruct (ended_inv _ Hts1) as (l & ts2 & ->). eapply ok_expect; [done|done|done|]. intros Hkl Hts2. destruct (ended_inv _ Hts2) as (u & ts3 & ->).
  eapply (ok_check _ _ _ _ u ts3); [done|]. cbn in Hf.
  eapply (ok_bind (λ es ps ts' rest, es = [] ∧ (ts' = [] ∧ ps = [] ∨ params_at ts' ps))).
  { destruct (same_kind (kind u) RParen); [apply ok_ret; [done|by auto]|].
    eapply ok_mono; [apply params_ok; cbn [tokens taken length]; [done|lia]|]. cbn. intros es ps ts' rest _ [-> ?]. auto. }
  intros ps pts es1 p1 Ht1 He1 Hp1 [-> Hps]. cbn [tokens taken] in Ht1. destruct (ended_inv _ Hp1) as (r & rs & Hr). eapply ok_expect; [done|done|done|].
  intros Hkr Hrs. apply (f_equal length) in Ht1. rewrite length_app, Hr in Ht1. cbn in Ht1.
  destruct (ended_inv _ Hrs) as (a & as_ & ->). eapply (ok_check _ _ _ _ a as_); [done|].
  eapply (ok_bind (λ es ty ts' rest, es = [] ∧ result_at ts' ty)).
  { destruct (same_kind (kind a) Arrow) eqn:Ea; [|apply ok_ret; [done|split; [done|constructor]]]. apply same_kind_plain in Ea; [|done].
    eapply ok_advance; [done|by rewrite Ea|]. assert (ended as_) as Has by (eapply ended_cons; [done|by rewrite Ea]).
    destruct (ended_inv _ Has) as (y & ys & ->). unfold pmap. eapply ok_identifier; [done|done|]. intros ty Hky Hys. apply ok_ret; [done|].
    split; [done|]. by constructor. }
  intros ty rts es2 p2 Ht2 He2 Hp2 [-> Hty]. cbn [tokens taken] in Ht2. apply (f_equal length) in Ht2. rewrite length_app in Ht2. cbn in Ht1, Ht2.
  eapply ok_bind; [apply (block_ok _ fuel); [intros; by apply statement_ok|done|lia|lia]|]. intros b bts es3 p3 Ht3 He3 Hp3 [Hne Hb].
  apply ok_ret; [done|]. split; [done|]. cbn [app]. rewrite !app_nil_r. intros ->. apply item_fn; try done. by apply Hb.
Qed.

Lemma item_ok fuel p : ended (tokens p) → (length (tokens p) ≤ fuel)%nat → ok (λ es i ts rest, ts ≠ [] ∧ (es = [] → item_at ts i)) (parse_item fuel) p.
Proof.
  intros He Hf. unfold parse_item. apply ok_peek; [done|]. intros t ts Ht. destruct (kind t) eqn:E; try (by apply ok_fail); apply ok_map.
  - by apply function_ok.
  - eapply ok_mono; [by apply let_ok|]. cbn. intros es d ts' rest _ (-> & Hd & _). split; [by eapply let_nonempty|]. intros _. by apply item_let.
Qed.

Lemma program_loop_ok fuel : ∀ p, ended (tokens p) → (length (tokens p) < fuel)%nat →
  ok (λ es items ts rest, length rest = 1%nat ∧ (es = [] → program_at ts items)) (program_loop fuel) p.
Proof.
  induction fuel as [|fuel IH]; intros p He Hf; [lia|]. cbn [program_loop]. destruct (ended_inv _ He) as (t & ts & Ht). eapply ok_at_end; [done|].
  destruct (is_eof (kind t)) eqn:Ee.
  { apply ok_ret; [done|]. rewrite Ht in He |- *. split; [|intros _; by exists []]. rewrite (ended_first _ _ He); [done|]. by destruct (kind t). }
  assert (kind t ≠ Eof) as Hne by (intros Hk; by rewrite Hk in Ee).
  assert (1 < length (tokens p))%nat as Hlong.
  { rewrite Ht in *. assert (ended ts) as Hts by (by eapply ended_cons). destruct (ended_inv _ Hts) as (? & ? & ->). cbn. lia. }
  apply (ok_recover (λ es i ts rest, ts ≠ [] ∧ (es = [] → item_at ts i))); [apply item_ok; [done|lia]| |].
  - intros i ts1 es p1 Ht1 He1 Hp1 [Hne1 Hi]. apply ok_map. rewrite Ht1, length_app in Hf.
    eapply ok_mono; [apply IH; [done|destruct ts1; [done|cbn in Hf; lia]]|]. cbn. intros es' items ts' rest _ [Hrest Hp]. split; [done|].
    intros [-> ->]%app_eq_nil. destruct (Hp eq_refl) as (parts & -> & Hparts). exists (ts1 :: parts). split; [done|]. constructor; [by apply Hi|done].
  - intros ts1 e es p1 Ht1 He1 Hp1. assert (length (tokens p1) ≤ length (tokens p))%nat as Hle by (rewrite Ht1, length_app; lia).
    eapply ok_bind; [apply (synchronize_ok fuel begins_item); [done|lia]|]. intros [] ts2 es2 p2 Ht2 He2 Hp2 [-> Hmoved].
    eapply ok_mono; [apply IH; [done|]|]; [rewrite Ht2, length_app in Hle; destruct ts2; [rewrite Hmoved by done|]; cbn in *; lia|].
    cbn. by intros es' items ts' rest _ [? _].
Qed.

(** ** Everything in the grammar is parsed *)

Definition level_parser (n m fuel : nat) : parse Expr :=
  match n with
  | 0 => parse_equality (parse_expression m) fuel
  | 1 => parse_comparison (parse_expression m) fuel
  | 2 => parse_term (parse_expression m) fuel
  | 3 => parse_factor (parse_expression m) fuel
  | 4 => parse_unary (parse_expression m) fuel
  | 5 => parse_call (parse_expression m) fuel
  | _ => parse_primary (parse_expression m)
  end%nat.

Abbreviation at_ ts es := ({| tokens := ts; errors := es |} : Parser).

(** A level is where its loop stands after an expression of the level. *)
Definition reads (n : nat) (ts : list Token) (e : Expr) : Prop := ∀ rest es m fuel, rest ≠ [] →
  (length (ts ++ rest) ≤ m)%nat → (length (ts ++ rest) < fuel)%nat →
  ((n ≤ 3)%nat → stops (S n) rest → ∃ fuel', (length rest < fuel')%nat ∧
     level_parser n m fuel (at_ (ts ++ rest) es) = binary_loop fuel' (level_op n) (level_parser (S n) m fuel) e (at_ rest es)) ∧
  (n = 4%nat → stops 4 rest → level_parser 4 m fuel (at_ (ts ++ rest) es) = POk e (at_ rest es)) ∧
  (n = 5%nat → ∃ fuel', (length rest < fuel')%nat ∧
     level_parser 5 m fuel (at_ (ts ++ rest) es) = call_loop (parse_expression m) fuel' e (at_ rest es)) ∧
  (n = 6%nat → level_parser 6 m fuel (at_ (ts ++ rest) es) = POk e (at_ rest es)).

Lemma level_parser_binary n m fuel : (n ≤ 3)%nat → level_parser n m fuel = binary_level fuel (level_op n) (level_parser (S n) m fuel).
Proof. destruct n as [|[|[|[|n]]]]; [done..|lia]. Qed.

Lemma op_level n k op : level_op n k = Some op → (n ≤ 3)%nat ∧ k ≠ Eof ∧ ∀ ts t, kind t = k → stops (S n) (t :: ts).
Proof. destruct n as [|[|[|[|n]]]]; try done; destruct k; try done; intros _; (split; [lia|]); (split; [done|]); intros ts t Hk; unfold stops; by rewrite Hk. Qed.

Lemma binary_loop_stops fuel n operand e rest es : (length rest < fuel)%nat → rest ≠ [] → (n ≤ 3)%nat → stops n rest →
  binary_loop fuel (level_op n) operand e (at_ rest es) = POk e (at_ rest es).
Proof.
  intros Hf Hr Hn Hs. destruct fuel; [lia|]. destruct rest as [|t rest]; [done|]. apply stops_level in Hs as [Hop _]; [|done].
  cbn [binary_loop]. unfold pbind, peek_token. cbn [tokens]. by rewrite Hop.
Qed.

Lemma binary_loop_step fuel n operand e t op rest es : level_op n (kind t) = Some op →
  binary_loop (S fuel) (level_op n) operand e (at_ (t :: rest) es) =
  pbind operand (λ right, binary_loop fuel (level_op n) operand (combine_exprs e op right)) (at_ rest es).
Proof.
  intros Hop. cbn [binary_loop]. unfold pbind at 1, peek_token. cbn [tokens]. rewrite Hop. rewrite (advance_at _ _ t rest); [done|done|].
  by apply op_level in Hop as (_ & ? & _).
Qed.

Lemma call_loop_stops expression fuel e rest es : (length rest < fuel)%nat → rest ≠ [] → stops 4 rest →
  call_loop expression fuel e (at_ rest es) = POk e (at_ rest es).
Proof.
  intros Hf Hr Hs. destruct fuel; [lia|]. destruct rest as [|t rest]; [done|]. apply stops_unary in Hs. cbn [call_loop]. unfold check, pbind, peek_token. cbn [tokens].
  destruct (same_kind (kind t) LParen) eqn:E; [|done]. by apply same_kind_plain in E.
Qed.

(** Where nothing continues an expression, it is the answer. *)
Lemma reads_done n ts e rest es m fuel : reads n ts e → (n ≤ 4)%nat → rest ≠ [] → stops n rest → (length (ts ++ rest) ≤ m)%nat → (length (ts ++ rest) < fuel)%nat →
  level_parser n m fuel (at_ (ts ++ rest) es) = POk e (at_ rest es).
Proof.
  intros Hr Hn Hne Hs Hm Hf. destruct (Hr rest es m fuel Hne Hm Hf) as (H3 & H4 & _). destruct (decide (n = 4%nat)) as [->|]; [by apply H4|].
  destruct H3 as (fuel' & Hf' & ->); [lia|by apply stops_S|]. apply binary_loop_stops; [done|done|lia|done].
Qed.

Lemma reads_expression ts e rest es m : reads 0 ts e → rest ≠ [] → stops 0 rest → (length (ts ++ rest) < m)%nat →
  parse_expression m (at_ (ts ++ rest) es) = POk e (at_ rest es).
Proof. intros Hr Hne Hs Hm. destruct m as [|m]; [lia|]. apply (reads_done 0 ts e rest es m (S m)); [done|lia|done|done|lia|lia]. Qed.

Lemma stops_after t rest k : kind t = k → continues 0 k = false → stops 0 (t :: rest).
Proof. by intros <-. Qed.

(** Calls and primaries do not begin with a prefix operator. *)
Lemma call_first n ts e : expr_at n ts e → (5 ≤ n)%nat → ∃ t ts', ts = t :: ts' ∧ unary_op (kind t) = None.
Proof.
  induction 1 as [n t op ts1 left ts2 right Hop _ _ _ _|n ts e Hn _ IH|t op ts e _ _ _|ts f l ats args r _ IH _ _ _|t ? Ht|t ? Ht|t Ht|t Ht|t ? Ht|l ts e r Hl _ _ _]; intros H5;
    [apply op_level in Hop; lia|apply IH; lia|lia| |by (eexists t, _; rewrite Ht)..|by (eexists l, _; rewrite Hl)].
  destruct (IH H5) as (t & ts' & -> & Ht). by exists t, (ts' ++ l :: ats ++ [r]).
Qed.

Lemma pbind_assoc {A B C} (m : parse A) (f : A → parse B) (k : B → parse C) p : pbind m (λ a, pbind (f a) k) p = pbind (pbind m f) k p.
Proof. unfold pbind. by destruct (m p). Qed.

Lemma pbind_ok {A B} (m : parse A) (k : A → parse B) p a p' : m p = POk a p' → pbind m k p = k a p'.
Proof. unfold pbind. by intros ->. Qed.

Lemma check_at {B} c (k : bool → parse B) p t ts : tokens p = t :: ts → pbind (check c) k p = k (same_kind (kind t) c) p.
Proof. intros Ht. unfold check, pbind, peek_token. by rewrite Ht. Qed.

Lemma peek_at {B} (k : Token → parse B) p t ts : tokens p = t :: ts → pbind peek_token k p = k t p.
Proof. intros Ht. unfold pbind, peek_token. by rewrite Ht. Qed.

Lemma check_false {B} c (k : bool → parse B) p t ts : tokens p = t :: ts → plain c = true → kind t ≠ c → pbind (check c) k p = k false p.
Proof.
  intros Ht Hc Hne. rewrite (check_at c k p t ts Ht). destruct (same_kind (kind t) c) eqn:E; [|done]. by apply same_kind_plain in E.
Qed.

Lemma check_true {B} c (k : bool → parse B) p t ts : tokens p = t :: ts → plain c = true → kind t = c → pbind (check c) k p = k true p.
Proof. intros Ht Hc Heq. rewrite (check_at c k p t ts Ht). by rewrite (proj2 (same_kind_plain _ _ Hc) Heq). Qed.

Definition begins_expr (k : TokenKind) : bool :=
  match k with Number _ | StringLiteral _ | Identifier _ | KwTrue | KwFalse | LParen | Bang | Minus => true | _ => false end.

Lemma expr_first n ts e : expr_at n ts e → ∃ t ts', ts = t :: ts' ∧ begins_expr (kind t) = true.
Proof.
  induction 1 as [n t op ts1 left ts2 right _ _ IH _ _|n ts e _ _ IH|t op ts e Hop _ _|ts f l ats args r _ IH _ _ _|t ? Ht|t ? Ht|t Ht|t Ht|t ? Ht|l ts e r Hl _ _ _];
    [|done| | |by (eexists t, _; rewrite Ht)..|by (eexists l, _; rewrite Hl)].
  - destruct IH as (x & xs & -> & Hx). by exists x, (xs ++ t :: ts2).
  - exists t, ts. split; [done|]. by destruct (kind t).
  - destruct IH as (x & xs & -> & Hx). by exists x, (xs ++ l :: ats ++ [r]).
Qed.

Definition arguments (m fuel : nat) : parse (list Expr) :=
  empty <- check RParen; if empty then pret [] else parse_args (parse_expression m) fuel.

Definition reads_args (ts : list Token) (args : list Expr) : Prop := ∀ r rest es m fuel, kind r = RParen →
  (length (ts ++ r :: rest) < m)%nat → (length (ts ++ r :: rest) < fuel)%nat →
  arguments m fuel (at_ (ts ++ r :: rest) es) = POk args (at_ (r :: rest) es).

Definition reads_args1 (ts : list Token) (args : list Expr) : Prop := (∃ t ts', ts = t :: ts' ∧ begins_expr (kind t) = true) ∧ ∀ r rest es m fuel, kind r = RParen →
  (length (ts ++ r :: rest) < m)%nat → (length (ts ++ r :: rest) < fuel)%nat →
  parse_args (parse_expression m) fuel (at_ (ts ++ r :: rest) es) = POk args (at_ (r :: rest) es).

Lemma reads_call ts f l ats args r : reads 5 ts f → kind l = LParen → reads_args ats args → kind r = RParen →
  reads 5 (ts ++ l :: ats ++ [r]) (ECall f args (span_to (expr_span f) (token_span r))).
Proof.
  intros Hf Hl Hargs Hr rest es m fuel Hne Hm Hfuel. split; [lia|]. split; [lia|]. split; [|lia]. intros _.
  assert (length ((ts ++ l :: ats ++ [r]) ++ rest) = length ts + S (length ats + S (length rest)))%nat as Hlen.
  { rewrite !length_app; cbn. rewrite length_app; cbn. lia. }
  rewrite Hlen in Hm, Hfuel. assert (length (ts ++ l :: ats ++ r :: rest) = length ts + S (length ats + S (length rest)))%nat as Hlen'.
  { rewrite !length_app; cbn. rewrite length_app; cbn. lia. }
  destruct (Hf (l :: ats ++ r :: rest) es m fuel) as (_ & _ & H5 & _); [done|lia|lia|]. destruct (H5 eq_refl) as (fuel' & Hfuel' & E).
  rewrite <-app_assoc, <-app_comm_cons, <-app_assoc. cbn [app]. rewrite E. cbn in Hfuel'. rewrite length_app in Hfuel'. cbn in Hfuel'.
  destruct fuel' as [|fuel']; [lia|]. exists fuel'. split; [lia|]. cbn [call_loop].
  rewrite (check_true LParen _ _ l (ats ++ r :: rest)) by done. rewrite (advance_at _ _ l (ats ++ r :: rest)) by (done || by rewrite Hl). cbn [taken errors].
  rewrite pbind_assoc. rewrite (pbind_ok (arguments m fuel') _ _ args (at_ (r :: rest) es)) by (apply Hargs; [done|rewrite length_app; cbn; lia..]).
  by rewrite (expect_at RParen _ _ _ r rest).
Qed.

Lemma reads_up n ts e : (n < 6)%nat → expr_at (S n) ts e → reads (S n) ts e → reads n ts e.
Proof.
  intros Hn Hd Hr rest es m fuel Hne Hm Hf. split_and!.
  - intros H3 Hs. exists fuel. rewrite length_app in Hf. split; [lia|]. rewrite level_parser_binary by done. unfold binary_level.
    apply pbind_ok. apply reads_done; [done|lia|done|done|done|rewrite length_app; lia].
  - intros -> Hs. destruct (call_first _ _ _ Hd) as (t & ts' & -> & Ht); [lia|]. cbn [level_parser app]. destruct fuel as [|fuel]; [lia|]. cbn [parse_unary].
    rewrite (peek_at _ _ t (ts' ++ rest)) by done. rewrite Ht. destruct (Hr rest es m (S fuel) Hne Hm Hf) as (_ & _ & H5 & _).
    destruct (H5 eq_refl) as (fuel' & Hf' & E). cbn [level_parser app] in E. rewrite E. by apply call_loop_stops.
  - intros ->. exists fuel. rewrite length_app in Hf. split; [lia|]. cbn [level_parser]. unfold parse_call. apply pbind_ok.
    destruct (Hr rest es m fuel Hne Hm) as (_ & _ & _ & H6); [rewrite length_app; lia|]. by apply H6.
  - lia.
Qed.

Lemma reads_binary n t op ts1 left ts2 right : level_op n (kind t) = Some op → reads n ts1 left → reads (S n) ts2 right →
  reads n (ts1 ++ t :: ts2) (combine_exprs left op right).
Proof.
  intros Hop H1 H2 rest es m fuel Hne Hm Hf. pose proof (op_level _ _ _ Hop) as (Hn & _ & Hstop). split; [|split_and!; lia]. intros _ Hs.
  rewrite <-app_assoc in *. cbn [app] in *. destruct (H1 (t :: ts2 ++ rest) es m fuel) as (H & _); [done|done|done|].
  destruct (H Hn (Hstop _ t eq_refl)) as (fuel' & Hf' & ->). destruct fuel' as [|fuel']; [lia|]. cbn in Hf'. rewrite length_app in Hf'.
  exists fuel'. split; [lia|]. rewrite (binary_loop_step fuel' n _ left t op) by done. rewrite (pbind_ok _ _ _ right (at_ rest es)); [done|].
  rewrite length_app in Hm, Hf. cbn in Hm, Hf. apply reads_done; [done|lia|done|done|lia|lia].
Qed.

Lemma reads_unary t op ts e : unary_op (kind t) = Some op → reads 4 ts e → reads 4 (t :: ts) (EUnary op e (span_to (token_span t) (expr_span e))).
Proof.
  intros Hop Hr rest es m fuel Hne Hm Hf. split; [lia|]. split; [|split; lia]. intros _ Hs. cbn [level_parser app] in *. destruct fuel as [|fuel]; [lia|].
  cbn [parse_unary]. rewrite (peek_at _ _ t (ts ++ rest)) by done. rewrite Hop. rewrite (advance_at _ _ t (ts ++ rest)) by (done || by destruct (kind t)).
  cbn [taken errors]. destruct (Hr rest es m fuel) as (_ & H4 & _); [done|cbn in Hm; lia|cbn in Hf; lia|]. by rewrite (pbind_ok _ _ _ e (at_ rest es)) by (by apply H4).
Qed.

Ltac read_literal :=
  match goal with Hk : kind ?t = _ |- _ =>
    intros rest es m fuel Hne Hm Hf; do 3 (split; [lia|]); intros _; cbn [level_parser app]; unfold parse_primary;
    rewrite (peek_at _ _ t rest) by done; rewrite Hk; by rewrite (advance_at _ _ t rest) by (done || by rewrite Hk)
  end.

Lemma expr_reads : (∀ n ts e, expr_at n ts e → reads n ts e) ∧ (∀ ts args, args_at ts args → reads_args ts args) ∧ (∀ ts args, args1_at ts args → reads_args1 ts args).
Proof.
  apply (expr_args_ind (λ n ts e _, reads n ts e) (λ ts args _, reads_args ts args) (λ ts args _, reads_args1 ts args)).
  - intros n t op ts1 left ts2 right Hop _ H1 _ H2. by apply reads_binary.
  - intros n ts e Hn Hd Hr. by apply reads_up.
  - intros t op ts e Hop _ Hr. by apply reads_unary.
  - intros ts f l ats args r _ Hf Hl _ Hargs Hr. by apply reads_call.
  - intros t n Hk. read_literal.
  - intros t n Hk. read_literal.
  - intros t Hk. read_literal.
  - intros t Hk. read_literal.
  - intros t n Hk. read_literal.
  - intros l ts e r Hl _ Hr Hkr rest es m fuel Hne Hm Hf. do 3 (split; [lia|]). intros _. cbn [level_parser app]. unfold parse_primary.
    rewrite (peek_at _ _ l ((ts ++ [r]) ++ rest)) by done. rewrite Hl. rewrite (advance_at _ _ l ((ts ++ [r]) ++ rest)) by (done || by rewrite Hl).
    rewrite <-app_assoc. cbn [app taken errors]. rewrite (pbind_ok _ _ _ e (at_ (r :: rest) es)).
    + by rewrite (expect_at RParen _ _ _ r rest).
    + apply reads_expression; [done|done|by eapply stops_after|]. cbn in Hm. rewrite !length_app in *. cbn in *. lia.
  - intros r rest es m fuel Hr Hm Hf. unfold arguments. cbn [app]. by rewrite (check_true RParen _ _ r rest).
  - intros ts args _ [(t & ts' & -> & Ht) Hr] r rest es m fuel Hkr Hm Hf. unfold arguments. cbn [app].
    rewrite (check_false RParen _ _ t (ts' ++ r :: rest)); [by apply Hr|done|done|]. intros E. by rewrite E in Ht.
  - intros ts e Hd Hr. split; [by eapply expr_first|]. intros r rest es m fuel Hkr Hm Hf. destruct fuel as [|fuel]; [lia|]. cbn [parse_args].
    rewrite (pbind_ok _ _ _ e (at_ (r :: rest) es)) by (apply reads_expression; [done|done|by eapply stops_after|done]).
    rewrite (check_false Comma _ _ r rest); [done|done|done|by rewrite Hkr].
  - intros ts e c rts args Hd Hr Hkc _ [_ IH]. split.
    { destruct (expr_first _ _ _ Hd) as (t & ts' & -> & Ht). by exists t, (ts' ++ c :: rts). }
    intros r rest es m fuel Hkr Hm Hf. rewrite <-app_assoc in *. cbn [app] in *. destruct fuel as [|fuel]; [lia|]. cbn [parse_args].
    rewrite (pbind_ok _ _ _ e (at_ (c :: rts ++ r :: rest) es)) by (apply reads_expression; [done|done|by eapply stops_after|done]).
    rewrite (check_true Comma _ _ c (rts ++ r :: rest)) by done. rewrite (advance_at _ _ c (rts ++ r :: rest)) by (done || by rewrite Hkc). cbn [taken errors].
    rewrite length_app in Hm, Hf. cbn in Hm, Hf. by rewrite (pbind_ok _ _ _ args (at_ (r :: rest) es)) by (apply IH; [done|lia|lia]).
Qed.

Lemma expression_reads ts e rest es fuel : expr_at 0 ts e → rest ≠ [] → stops 0 rest → (length (ts ++ rest) < fuel)%nat →
  parse_expression fuel (at_ (ts ++ rest) es) = POk e (at_ rest es).
Proof. intros Hd. apply reads_expression. by apply expr_reads. Qed.

Lemma identifier_at {B} context (kk : string → parse B) p t ts name : tokens p = t :: ts → kind t = Identifier name →
  pbind (expect_identifier context) kk p = kk name (taken p ts).
Proof. intros Ht Hk. unfold expect_identifier, pbind, peek_token. rewrite Ht, Hk. unfold advance_token. by rewrite Ht, Hk. Qed.

Lemma let_reads ts d rest es fuel : let_at ts d → rest ≠ [] → stops 0 rest → (length (ts ++ rest) ≤ fuel)%nat →
  parse_let fuel (at_ (ts ++ rest) es) = POk d (at_ rest es).
Proof.
  intros [l i name q ts1 e Hl Hi Hq Hd|l i name c y ty q ts1 e Hl Hi Hc Hy Hq Hd] Hne Hs Hf; unfold parse_let; cbn [app length] in *.
  - rewrite (peek_at _ _ l (i :: q :: ts1 ++ rest)) by done. rewrite (expect_at Let _ _ _ l (i :: q :: ts1 ++ rest)) by done.
    rewrite (identifier_at _ _ _ i (q :: ts1 ++ rest) name) by done. rewrite (check_false Colon _ _ q (ts1 ++ rest)) by (done || by rewrite Hq).
    rewrite (pbind_ok _ _ _ None (at_ (q :: ts1 ++ rest) es)) by done. rewrite (expect_at Equal _ _ _ q (ts1 ++ rest)) by done. cbn [taken errors].
    by rewrite (pbind_ok _ _ _ e (at_ rest es)) by (apply expression_reads; [done..|lia]).
  - rewrite (peek_at _ _ l (i :: c :: y :: q :: ts1 ++ rest)) by done. rewrite (expect_at Let _ _ _ l (i :: c :: y :: q :: ts1 ++ rest)) by done.
    rewrite (identifier_at _ _ _ i (c :: y :: q :: ts1 ++ rest) name) by done. rewrite (check_true Colon _ _ c (y :: q :: ts1 ++ rest)) by done.
    rewrite (pbind_ok _ _ _ (Some ty) (at_ (q :: ts1 ++ rest) es)).
    + rewrite (expect_at Equal _ _ _ q (ts1 ++ rest)) by done. cbn [taken errors].
      by rewrite (pbind_ok _ _ _ e (at_ rest es)) by (apply expression_reads; [done..|lia]).
    + rewrite (advance_at _ _ c (y :: q :: ts1 ++ rest)) by (done || by rewrite Hc). unfold pmap. by rewrite (identifier_at _ _ _ y (q :: ts1 ++ rest) ty).
Qed.

Scheme stmt_at_mut := Induction for stmt_at Sort Prop
  with block_at_mut := Induction for block_at Sort Prop
  with stmts_at_mut := Induction for stmts_at Sort Prop
  with if_at_mut := Induction for if_at Sort Prop
  with else_at_mut := Induction for else_at Sort Prop.
Combined Scheme stmt_block_ind from stmt_at_mut, block_at_mut, stmts_at_mut, if_at_mut, else_at_mut.

(** No [else] follows. *)
Definition no_else (ts : list Token) : Prop := match ts with t :: _ => kind t ≠ Else | [] => False end.

Lemma no_else_nonempty ts : no_else ts → ts ≠ [].
Proof. by intros H ->. Qed.

Definition stmt_reads (ts : list Token) (s : Stmt) : Prop := ∀ rest es fuel, follow s rest → no_else rest → (length (ts ++ rest) < fuel)%nat →
  parse_statement fuel (at_ (ts ++ rest) es) = POk s (at_ rest es).
Definition block_reads (ts : list Token) (b : Block) : Prop := ∀ rest es n fuel, (length (ts ++ rest) ≤ n)%nat → (length (ts ++ rest) ≤ fuel)%nat →
  parse_block (parse_statement n) fuel (at_ (ts ++ rest) es) = POk b (at_ rest es).
Definition stmts_reads (ts : list Token) (b : Block) : Prop := ∀ r rest es n fuel, kind r = RBrace →
  (length (ts ++ r :: rest) < n)%nat → (length (ts ++ r :: rest) < fuel)%nat →
  block_loop (parse_statement n) fuel (at_ (ts ++ r :: rest) es) = POk b (at_ (r :: rest) es).
Definition if_reads (ts : list Token) (i : IfStmt) : Prop := ∀ rest es n fuel, no_else rest → (length (ts ++ rest) ≤ n)%nat → (length (ts ++ rest) < fuel)%nat →
  parse_if (parse_statement n) fuel (at_ (ts ++ rest) es) = POk i (at_ rest es).
Definition else_reads (ts : list Token) (e : ElseBranch) : Prop := ∀ rest es n k fuel, no_else rest → (length (ts ++ rest) ≤ n)%nat →
  (length (ts ++ rest) < k)%nat → (length (ts ++ rest) ≤ fuel)%nat →
  (chained <- check If;
   if chained then pmap (λ i, Some (ElseIf i)) (parse_if (parse_statement n) k) else pmap (λ b, Some (ElseBlock b)) (parse_block (parse_statement n) fuel))
    (at_ (ts ++ rest) es) = POk (Some e) (at_ rest es).

Definition begins_statement (k : TokenKind) : bool := begins_expr k || match k with Let | Return | If | LBrace => true | _ => false end.

Lemma if_first ts i : if_at ts i → ∃ t ts', ts = t :: ts' ∧ kind t = If.
Proof. intros [t cts cond bts b Hk _ _|t cts cond bts b l ets e Hk _ _ _ _]; by eexists t, _. Qed.

Lemma block_first ts b : block_at ts b → ∃ t ts', ts = t :: ts' ∧ kind t = LBrace.
Proof. intros [l ts' b' r Hk _ _]; by eexists l, _. Qed.

Lemma stmt_first ts s : stmt_at ts s → ∃ t ts', ts = t :: ts' ∧ begins_statement (kind t) = true.
Proof.
  unfold begins_statement. intros [ts' d [l ? ? ? ? ? Hk _ _ _|l ? ? ? ? ? ? ? ? Hk _ _ _ _ _]|ts' e Hd|t ts' e Hk _|t Hk|ts' i Hi|ts' b Hb].
  - eexists l, _. by rewrite Hk.
  - eexists l, _. by rewrite Hk.
  - destruct (expr_first _ _ _ Hd) as (t & ts1 & -> & Ht). exists t, ts1. by rewrite Ht.
  - eexists t, _. by rewrite Hk.
  - eexists t, _. by rewrite Hk.
  - destruct (if_first _ _ Hi) as (t & ts1 & -> & Ht). exists t, ts1. by rewrite Ht.
  - destruct (block_first _ _ Hb) as (t & ts1 & -> & Ht). exists t, ts1. by rewrite Ht.
Qed.

Lemma stmts_no_else ts b r rest : stmts_at ts b → kind r = RBrace → no_else (ts ++ r :: rest).
Proof.
  intros [|ts1 s rts b' Hs _ _] Hr; [cbn; by rewrite Hr|]. destruct (stmt_first _ _ Hs) as (t & ts' & -> & Ht). cbn. intros E. by rewrite E in Ht.
Qed.

Lemma may_follow_brace s ts r rest : may_follow s ts → kind r = RBrace → follow s (ts ++ r :: rest).
Proof.
  intros Hm Hr. destruct s as [d|e|[e|] sp|i|b]; cbn in *; try done; try (destruct ts; [by eapply stops_after|done]).
  subst ts. by exists r, rest.
Qed.

Lemma statement_dispatch fuel t ts es (m : parse Stmt) : begins_expr (kind t) = true → m = pmap SExpr (parse_expression (S fuel)) →
  parse_statement (S fuel) (at_ (t :: ts) es) = m (at_ (t :: ts) es).
Proof. intros Ht ->. cbn [parse_statement]. rewrite (peek_at _ _ t ts) by done. by destruct (kind t). Qed.

Lemma block_reads_braces l ts b r : kind l = LBrace → stmts_reads ts b → kind r = RBrace → block_reads (l :: ts ++ [r]) b.
Proof.
  intros Hl Hs Hr rest es n fuel Hn Hf. unfold parse_block. cbn [app length] in *. rewrite <-app_assoc in *. cbn [app] in *.
  rewrite (expect_at LBrace _ _ _ l (ts ++ r :: rest)) by done. cbn [taken errors].
  rewrite (pbind_ok _ _ _ b (at_ (r :: rest) es)) by (apply Hs; [done|lia|lia]). by rewrite (expect_at RBrace _ _ _ r rest).
Qed.

Lemma stmts_reads_cons ts s rts b : stmt_at ts s → stmt_reads ts s → stmts_at rts b → stmts_reads rts b → may_follow s rts → stmts_reads (ts ++ rts) (s :: b).
Proof.
  intros Hd Hs Hb IH Hm r rest es n fuel Hr Hn Hf. destruct (stmt_first _ _ Hd) as (t & ts' & Ht & Hbegin). rewrite <-app_assoc in *.
  destruct fuel as [|fuel]; [lia|]. cbn [block_loop]. rewrite Ht at 1. cbn [app].
  rewrite (check_false RBrace _ _ t (ts' ++ rts ++ r :: rest)) by (done || by (intros E; rewrite E in Hbegin)).
  unfold is_at_end at 1. rewrite <-pbind_assoc, (peek_at _ _ t (ts' ++ rts ++ r :: rest)) by done.
  assert (is_eof (kind t) = false) as Hne by (by destruct (kind t)). unfold pbind at 1, pret at 1. rewrite Hne. cbn [negb andb].
  change (t :: ts' ++ rts ++ r :: rest) with ((t :: ts') ++ rts ++ r :: rest). rewrite <-Ht.
  rewrite (Hs (rts ++ r :: rest) es n) by (done || by apply may_follow_brace || by eapply stmts_no_else).
  unfold pmap. rewrite Ht in Hn, Hf. cbn in Hn, Hf. rewrite length_app in Hn, Hf. by rewrite (pbind_ok _ _ _ b (at_ (r :: rest) es)) by (apply IH; [done|lia|lia]).
Qed.

Lemma if_reads_parts t cts cond bts b ets else_ : kind t = If → expr_at 0 cts cond → block_at bts b → block_reads bts b →
  (ets = [] ∧ else_ = None ∨ ∃ l ets' e, ets = l :: ets' ∧ kind l = Else ∧ else_reads ets' e ∧ else_ = Some e) →
  if_reads (t :: cts ++ bts ++ ets) (MkIf cond b else_ (token_span t)).
Proof.
  intros Ht Hc Hbd Hb Helse rest es n fuel Hne Hn Hf. destruct fuel as [|fuel]; [lia|]. cbn [parse_if app length] in *. rewrite <-!app_assoc in *.
  rewrite (peek_at _ _ t (cts ++ bts ++ ets ++ rest)) by done. rewrite (expect_at If _ _ _ t (cts ++ bts ++ ets ++ rest)) by done. cbn [taken errors].
  destruct (block_first _ _ Hbd) as (l & bts' & E & Hl).
  rewrite (pbind_ok _ _ _ cond (at_ (bts ++ ets ++ rest) es)).
  2: { apply expression_reads; [done|by rewrite E|rewrite E; by eapply stops_after|lia]. }
  rewrite !length_app in *. rewrite (pbind_ok _ _ _ b (at_ (ets ++ rest) es)) by (apply Hb; rewrite !length_app; lia).
  destruct Helse as [[-> ->]|(x & ets' & e & -> & Hx & He & ->)]; cbn [app].
  - destruct rest as [|u us]; [done|]. by rewrite (check_false Else _ _ u us).
  - rewrite (check_true Else _ _ x (ets' ++ rest)) by done. rewrite (pbind_ok _ _ _ (Some e) (at_ rest es)); [done|].
    rewrite (advance_at _ _ x (ets' ++ rest)) by (done || by rewrite Hx). cbn [taken errors]. cbn [length] in *. apply He; rewrite ?length_app; (done || lia).
Qed.

Lemma statements_read : (∀ ts s, stmt_at ts s → stmt_reads ts s) ∧ (∀ ts b, block_at ts b → block_reads ts b) ∧
  (∀ ts b, stmts_at ts b → stmts_reads ts b) ∧ (∀ ts i, if_at ts i → if_reads ts i) ∧ (∀ ts e, else_at ts e → else_reads ts e).
Proof.
  apply (stmt_block_ind (λ ts s _, stmt_reads ts s) (λ ts b _, block_reads ts b) (λ ts b _, stmts_reads ts b) (λ ts i _, if_reads ts i) (λ ts e _, else_reads ts e)).
  - intros ts d Hd rest es fuel Hs Hne Hf. destruct fuel as [|fuel]; [lia|]. pose proof (let_reads ts d rest es (S fuel) Hd (no_else_nonempty _ Hne) Hs ltac:(lia)) as E.
    assert (∃ l ts', ts = l :: ts' ∧ kind l = Let) as (l & ts' & -> & Hl) by (destruct Hd; by eexists _, _). cbn [parse_statement app] in *.
    rewrite (peek_at _ _ l (ts' ++ rest)) by done. rewrite Hl. unfold pmap. by rewrite (pbind_ok _ _ _ d (at_ rest es)).
  - intros ts e Hd rest es fuel Hs Hne Hf. destruct fuel as [|fuel]; [lia|].
    pose proof (expression_reads ts e rest es (S fuel) Hd (no_else_nonempty _ Hne) Hs Hf) as E. destruct (expr_first _ _ _ Hd) as (t & ts' & -> & Ht). cbn [app] in *.
    rewrite (statement_dispatch fuel t (ts' ++ rest) es _ Ht eq_refl). unfold pmap. by rewrite (pbind_ok _ _ _ e (at_ rest es)).
  - intros t ts e Hk Hd rest es fuel Hs Hne Hf. destruct fuel as [|fuel]; [lia|]. cbn [parse_statement app length] in *. rewrite (peek_at _ _ t (ts ++ rest)) by done.
    rewrite Hk. unfold parse_return. rewrite (peek_at _ _ t (ts ++ rest)) by done. rewrite (expect_at Return _ _ _ t (ts ++ rest)) by done. cbn [taken errors].
    pose proof (expression_reads ts e rest es (S fuel) Hd (no_else_nonempty _ Hne) Hs ltac:(lia)) as E. destruct (expr_first _ _ _ Hd) as (x & ts' & -> & Hx). cbn [app] in *.
    rewrite (check_false RBrace _ _ x (ts' ++ rest)) by (done || by (intros E'; rewrite E' in Hx)). by rewrite (pbind_ok _ _ _ e (at_ rest es)).
  - intros t Hk rest es fuel (r & rs & -> & Hr) Hne Hf. destruct fuel as [|fuel]; [lia|]. cbn [parse_statement app] in *. rewrite (peek_at _ _ t (r :: rs)) by done.
    rewrite Hk. unfold parse_return. rewrite (peek_at _ _ t (r :: rs)) by done. rewrite (expect_at Return _ _ _ t (r :: rs)) by done. cbn [taken errors].
    by rewrite (check_true RBrace _ _ r rs).
  - intros ts i Hi IH rest es fuel _ Hne Hf. destruct fuel as [|fuel]; [lia|]. pose proof (IH rest es fuel (S fuel) Hne ltac:(lia) Hf) as E.
    destruct (if_first _ _ Hi) as (t & ts' & -> & Ht). cbn [parse_statement app] in *. rewrite (peek_at _ _ t (ts' ++ rest)) by done. rewrite Ht. unfold pmap.
    by rewrite (pbind_ok _ _ _ i (at_ rest es)).
  - intros ts b Hb IH rest es fuel _ Hne Hf. destruct fuel as [|fuel]; [lia|]. pose proof (IH rest es fuel (S fuel) ltac:(lia) ltac:(lia)) as E.
    destruct (block_first _ _ Hb) as (t & ts' & -> & Ht). cbn [parse_statement app] in *. rewrite (peek_at _ _ t (ts' ++ rest)) by done. rewrite Ht. unfold pmap.
    by rewrite (pbind_ok _ _ _ b (at_ rest es)).
  - intros l ts b r Hl _ IH Hr. by apply block_reads_braces.
  - intros r rest es n fuel Hr Hn Hf. destruct fuel as [|fuel]; [lia|]. cbn [block_loop app]. rewrite (check_true RBrace _ _ r rest) by done.
    unfold is_at_end. rewrite <-pbind_assoc. by rewrite (peek_at _ _ r rest).
  - intros ts s rts b Hd IHs Hb IHb Hm. by apply stmts_reads_cons.
  - intros t cts cond bts b Hk Hc Hb IH. rewrite <-(app_nil_r bts). apply if_reads_parts; by auto.
  - intros t cts cond bts b l ets e Hk Hc Hb IH Hl _ IHe. apply if_reads_parts; [done..|]. right. by exists l, ets, e.
  - intros ts b Hb IH rest es n k fuel Hne Hn Hk Hf. pose proof (IH rest es n fuel Hn Hf) as E. destruct (block_first _ _ Hb) as (t & ts' & -> & Ht). cbn [app] in *.
    rewrite (check_false If _ _ t (ts' ++ rest)) by (done || by rewrite Ht). unfold pmap. by rewrite (pbind_ok _ _ _ b (at_ rest es)).
  - intros ts i Hi IH rest es n k fuel Hne Hn Hk Hf. pose proof (IH rest es n k Hne Hn Hk) as E. destruct (if_first _ _ Hi) as (t & ts' & -> & Ht). cbn [app] in *.
    rewrite (check_true If _ _ t (ts' ++ rest)) by done. unfold pmap. by rewrite (pbind_ok _ _ _ i (at_ rest es)).
Qed.

Lemma params_read ts ps : params_at ts ps → ∀ r rest es fuel, kind r = RParen → (length (ts ++ r :: rest) < fuel)%nat →
  parse_params fuel (at_ (ts ++ r :: rest) es) = POk ps (at_ (r :: rest) es).
Proof.
  induction 1 as [i name c y ty Hi Hc Hy|i name c y ty m ts ps Hi Hc Hy Hm _ IH]; intros r rest es fuel Hr Hf; (destruct fuel as [|fuel]; [lia|]); cbn [parse_params app length] in *.
  - rewrite (identifier_at _ _ _ i (c :: y :: r :: rest) name) by done. rewrite (expect_at Colon _ _ _ c (y :: r :: rest)) by done.
    rewrite (identifier_at _ _ _ y (r :: rest) ty) by done. by rewrite (check_false Comma _ _ r rest) by (done || by rewrite Hr).
  - rewrite (identifier_at _ _ _ i (c :: y :: m :: ts ++ r :: rest) name) by done. rewrite (expect_at Colon _ _ _ c (y :: m :: ts ++ r :: rest)) by done.
    rewrite (identifier_at _ _ _ y (m :: ts ++ r :: rest) ty) by done. rewrite (check_true Comma _ _ m (ts ++ r :: rest)) by done.
    rewrite (advance_at _ _ m (ts ++ r :: rest)) by (done || by rewrite Hm). cbn [taken errors]. unfold pmap.
    by rewrite (pbind_ok _ _ _ ps (at_ (r :: rest) es)) by (apply IH; [done|lia]).
Qed.

(** What follows an item: another item, or the end. *)
Definition item_end (rest : list Token) : Prop := ∃ t ts, rest = t :: ts ∧ (kind t = Eof ∨ kind t = Fn ∨ kind t = Let).

Lemma result_read ts ty b bts rest es : result_at ts ty → block_at bts b →
  (arrow <- check Arrow; if arrow then advance_token ;; pmap Some (expect_identifier "return type") else pret None) (at_ (ts ++ bts ++ rest) es) =
  POk ty (at_ (bts ++ rest) es).
Proof.
  intros [|a y ty' Ha Hy] Hb; cbn [app].
  - destruct (block_first _ _ Hb) as (t & bts' & -> & Ht). by rewrite (check_false Arrow _ _ t (bts' ++ rest)) by (done || by rewrite Ht).
  - rewrite (check_true Arrow _ _ a (y :: bts ++ rest)) by done. rewrite (advance_at _ _ a (y :: bts ++ rest)) by (done || by rewrite Ha).
    unfold pmap. by rewrite (identifier_at _ _ _ y (bts ++ rest) ty').
Qed.

Lemma function_read f x name l pts ps r rts ty bts b rest es fuel : kind f = Fn → kind x = Identifier name → kind l = LParen →
  (pts = [] ∧ ps = [] ∨ params_at pts ps) → kind r = RParen → result_at rts ty → block_at bts b →
  (length (f :: x :: l :: pts ++ r :: rts ++ bts ++ rest) ≤ fuel)%nat →
  parse_function fuel (at_ (f :: x :: l :: pts ++ r :: rts ++ bts ++ rest) es) =
  POk {| fn_name := name; fn_params := ps; fn_return_type := ty; fn_body := b; fn_span := token_span f |} (at_ rest es).
Proof.
  intros Hf Hx Hl Hps Hr Hty Hb Hfuel. unfold parse_function. rewrite (peek_at _ _ f (x :: l :: pts ++ r :: rts ++ bts ++ rest)) by done.
  rewrite (expect_at Fn _ _ _ f (x :: l :: pts ++ r :: rts ++ bts ++ rest)) by done.
  rewrite (identifier_at _ _ _ x (l :: pts ++ r :: rts ++ bts ++ rest) name) by done.
  rewrite (expect_at LParen _ _ _ l (pts ++ r :: rts ++ bts ++ rest)) by done. cbn [taken errors length] in *. rewrite !length_app in Hfuel. cbn in Hfuel. rewrite !length_app in Hfuel.
  rewrite (pbind_assoc (check RParen) (λ empty : bool, if empty then pret [] else parse_params fuel)).
  rewrite (pbind_ok _ _ _ ps (at_ (r :: rts ++ bts ++ rest) es)).
  2: { destruct Hps as [[-> ->]|Hps]; [by rewrite (check_true RParen _ _ r (rts ++ bts ++ rest))|].
       assert (∃ k ks, pts = k :: ks ∧ kind k ≠ RParen) as (k & ks & -> & Hk).
       { destruct Hps as [k ? ? ? ? Hk|k ? ? ? ? ? ? ? Hk]; eexists k, _; by rewrite Hk. }
       cbn [app]. rewrite (check_false RParen _ _ k (ks ++ r :: rts ++ bts ++ rest)) by done.
       apply (params_read (k :: ks)); [done|done|]. cbn [app length] in *. rewrite length_app. cbn. rewrite !length_app. lia. }
  rewrite (expect_at RParen _ _ _ r (rts ++ bts ++ rest)) by done. cbn [taken errors].
  rewrite (pbind_assoc (check Arrow) (λ arrow : bool, if arrow then advance_token ;; pmap Some (expect_identifier "return type") else pret None)).
  rewrite (pbind_ok _ _ _ ty (at_ (bts ++ rest) es)) by (by eapply result_read).
  rewrite (pbind_ok _ _ _ b (at_ rest es)); [done|]. apply statements_read; [done|rewrite length_app; lia..].
Qed.

Lemma item_read ts i rest es fuel : item_at ts i → item_end rest → (length (ts ++ rest) ≤ fuel)%nat → parse_item fuel (at_ (ts ++ rest) es) = POk i (at_ rest es).
Proof.
  intros [ts1 d Hd|f x name l pts ps r rts ty bts b Hf Hx Hl Hps Hr Hty Hb] (t & ts' & -> & Ht) Hfuel; unfold parse_item.
  - assert (stops 0 (t :: ts')) as Hs by (destruct Ht as [Ht|[Ht|Ht]]; by eapply stops_after).
    pose proof (let_reads ts1 d (t :: ts') es fuel Hd ltac:(done) Hs Hfuel) as E.
    assert (∃ k ks, ts1 = k :: ks ∧ kind k = Let) as (k & ks & -> & Hk) by (destruct Hd; by eexists _, _). cbn [app] in *.
    rewrite (peek_at _ _ k (ks ++ t :: ts')) by done. rewrite Hk. unfold pmap. by rewrite (pbind_ok _ _ _ d (at_ (t :: ts') es)).
  - cbn [app] in *. rewrite <-app_assoc in *. cbn [app] in *. rewrite <-app_assoc in *.
    rewrite (peek_at _ _ f (x :: l :: pts ++ r :: rts ++ bts ++ t :: ts')) by done. rewrite Hf. unfold pmap.
    by rewrite (pbind_ok _ _ _ _ _ (function_read f x name l pts ps r rts ty bts b (t :: ts') es fuel Hf Hx Hl Hps Hr Hty Hb Hfuel)).
Qed.

Lemma item_first ts i : item_at ts i → ∃ t ts', ts = t :: ts' ∧ (kind t = Fn ∨ kind t = Let).
Proof. intros [ts' d [l ? ? ? ? ? Hk _ _ _|l ? ? ? ? ? ? ? ? Hk _ _ _ _ _]|f ? ? ? ? ? ? ? ? ? ? Hk _ _ _ _ _ _]; eexists _, _; by auto. Qed.

Lemma program_read parts items e es : Forall2 item_at parts items → kind e = Eof → ∀ fuel, (length (concat parts ++ [e]) < fuel)%nat →
  program_loop fuel (at_ (concat parts ++ [e]) es) = POk items (at_ [e] es).
Proof.
  intros Hall He. induction Hall as [|ts i parts items Hi Hall IH]; intros fuel Hf; (destruct fuel as [|fuel]; [lia|]); cbn [program_loop concat app].
  - unfold is_at_end. rewrite <-pbind_assoc, (peek_at _ _ e []) by done. unfold pbind, pret. by rewrite He.
  - rewrite <-app_assoc. cbn [concat] in Hf. rewrite <-app_assoc in Hf. destruct (item_first _ _ Hi) as (t & ts' & Ht & Hk).
    assert (item_end (concat parts ++ [e])) as Hend.
    { destruct Hall as [|ts2 i2 parts items Hi2 _]; [exists e, []; by auto|]. destruct (item_first _ _ Hi2) as (t2 & ts2' & -> & Hk2). eexists t2, _. by auto. }
    unfold is_at_end at 1. rewrite Ht at 1. cbn [app]. rewrite <-pbind_assoc, (peek_at _ _ t (ts' ++ concat parts ++ [e])) by done. unfold pbind at 1, pret at 1.
    assert (is_eof (kind t) = false) as -> by (by destruct Hk as [-> | ->]). change (t :: ts' ++ concat parts ++ [e]) with ((t :: ts') ++ concat parts ++ [e]). rewrite <-Ht.
    rewrite (item_read ts i (concat parts ++ [e]) es (S fuel) Hi Hend) by lia. unfold pmap.
    rewrite (pbind_ok _ _ _ items (at_ [e] es)); [done|]. apply IH. rewrite length_app, Ht in Hf. cbn in Hf. lia.
Qed.

(** Errors of a part are reported, not returned. *)
Lemma skip_to_answers fuel begins : ∀ p q, skip_to fuel begins p ≠ PErr q.
Proof.
  induction fuel as [|fuel IH]; intros p q; cbn [skip_to]; [done|]. unfold pbind at 1, peek_token. destruct (tokens p) as [|t ts] eqn:Ht; [done|].
  destruct (is_eof (kind t)); [done|]. destruct (begins (kind t)); [done|]. unfold pbind, advance_token. rewrite Ht. apply IH.
Qed.

Lemma program_loop_answers fuel : ∀ p q, program_loop fuel p ≠ PErr q.
Proof.
  induction fuel as [|fuel IH]; intros p q; cbn [program_loop]; [done|]. unfold is_at_end. rewrite <-pbind_assoc. unfold pbind at 1, peek_token.
  destruct (tokens p) as [|t ts]; [done|]. unfold pbind at 1, pret at 1. destruct (is_eof (kind t)); [done|].
  destruct (parse_item _ p) as [i p1|p1| |]; [| |done..].
  - unfold pmap, pbind. specialize (IH p1). by destruct (program_loop fuel p1) as [| q' | |].
  - unfold synchronize_item. rewrite <-pbind_assoc. unfold pbind at 1, advance_token. destruct (tokens p1) as [|t1 ts1]; [done|]. unfold pbind.
    pose proof (skip_to_answers fuel begins_item (if is_eof (kind t1) then p1 else at_ ts1 (errors p1))) as Hs.
    destruct (skip_to _ _ _) as [u p2|p2| |]; [apply IH|by destruct (Hs p2)|done..].
Qed.

Lemma parse_program_exact init e : kind e = Eof → Forall (λ t, kind t ≠ Eof) init →
  ∃ items es, parse_program (init ++ [e]) = POk items {| tokens := [e]; errors := es |} ∧
    ∀ items', program_at init items' ↔ es = [] ∧ items' = items.
Proof.
  intros He Hinit. assert (ended (init ++ [e])) as Hended by (by exists init, e).
  pose proof (program_loop_ok (S (length (init ++ [e]))) (parser_new (init ++ [e])) Hended ltac:(cbn; lia)) as Hok. unfold ok, wp in Hok.
  change (program_loop (S (length (init ++ [e]))) (parser_new (init ++ [e]))) with (parse_program (init ++ [e])) in Hok.
  destruct (parse_program (init ++ [e])) as [items p|p| |] eqn:E; [| |done..].
  - destruct Hok as (_ & ts & es & Hts & Hes & Hlen & Hp). destruct p as [rest es']. cbn [tokens errors parser_new app] in Hts, Hes, Hlen, Hp. subst es'.
    destruct rest as [|r [|? ?]]; [done| |done]. apply app_inj_tail in Hts as [<- <-]. exists items, es. split; [done|]. intros items'. split.
    + intros (parts & -> & Hparts). pose proof (program_read parts items' e [] Hparts He (S (length (concat parts ++ [e]))) ltac:(lia)) as Eread.
      unfold parse_program, parser_new in E. rewrite Eread in E. by injection E as -> ->.
    + intros [-> ->]. by apply Hp.
  - by apply program_loop_answers in E.
Qed.

(** C32: the prototype's parser implements its grammar: on the tokens of any source it ends
    without a panic, at the end of the tokens, and it reports no error exactly when
    the tokens are a program of the grammar; the program it answers, with the span of
    every node, is then the only one they are. *)
Theorem parsing_exact init e : kind e = Eof → Forall (λ t, kind t ≠ Eof) init →
  ∃ items es, parse_program (init ++ [e]) = POk items {| tokens := [e]; errors := es |} ∧
    ∀ items', program_at init items' ↔ es = [] ∧ items' = items.
Proof. apply parse_program_exact. Qed.

Definition span_at (n : N) : Span := {| span_start := n; span_end := n + 1; span_line := 1; span_col := n + 1 |}.
Definition sample_tokens (ks : list TokenKind) : list Token := imap (λ i k, {| kind := k; token_span := span_at (N.of_nat i) |}) ks.

(** let x = 1 + y *)
Lemma parsing_exact_witness :
  let init := sample_tokens [Let; Identifier "x"; Equal; whole 1; Plus; Identifier "y"] in
  let e := {| kind := Eof; token_span := span_at 6 |} in
  ∃ items, parse_program (init ++ [e]) = POk items {| tokens := [e]; errors := [] |} ∧ length items = 1%nat ∧ program_at init items.
Proof.
  cbn zeta. destruct (parsing_exact (sample_tokens [Let; Identifier "x"; Equal; whole 1; Plus; Identifier "y"]) {| kind := Eof; token_span := span_at 6 |})
    as (items & es & E & Hp); [reflexivity|repeat (constructor; [discriminate|]); constructor|].
  assert (es = []) as -> by (vm_compute in E; by injection E as <- <-). exists items. split; [exact E|]. split; [vm_compute in E; by injection E as <-|]. by apply Hp.
Defined.

(** ** The command (main.rs) *)

Inductive Report :=
| Usage
| Unreadable (path : string)
| LexReport (es : list LexError)
| TokenReport (ts : list Token)
| ParseReport (es : list ParseError)
| ItemReport (items : list (string * option (nat * string))).

(** A line per item: a function with its parameters and result, or a binding. *)
Definition item_summary (i : Item) : string * option (nat * string) :=
  match i with
  | ItemFunction f => (fn_name f, Some (length (fn_params f), default "()" (fn_return_type f)))
  | ItemLet d => (let_name d, None)
  end.

(** [None] is a panic or a spent budget. *)
Definition prototype_main (args : list string) (read : string → option text) : option Report :=
  match args !! 1%nat with
  | None => Some Usage
  | Some path =>
      match read path with
      | None => Some (Unreadable path)
      | Some source =>
          match tokenize source with
          | Some (Ok (ts, [])) =>
              if existsb (λ a, bool_decide (a = "--tokens")) args then Some (TokenReport ts)
              else match parse_program ts with
                   | POk items p => Some match errors p with [] => ItemReport (map item_summary items) | es => ParseReport es end
                   | _ => None
                   end
          | Some (Ok (_, es)) => Some (LexReport es)
          | _ => None
          end
      end
  end.

(** A file of less than 4 GiB is accepted exactly when its text has no lexical error and its tokens are a
    program. *)
Theorem prototype_accepts_exactly args read path source : args !! 1%nat = Some path → existsb (λ a, bool_decide (a = "--tokens")) args = false →
  read path = Some source → utf8_valid source = true → (N.of_nat (length source) < u32_max)%N →
  ∃ report, prototype_main args read = Some report ∧
    ∀ summary, report = ItemReport summary ↔
      ∃ ts e items, lexes origin source (ts ++ [e]) [] ∧ program_at ts items ∧ summary = map item_summary items.
Proof.
  intros Hpath Htokens Hread Hv Hn. unfold prototype_main. rewrite Hpath, Hread. destruct (tokenize_exact source Hv Hn) as (ts & es & -> & Hl).
  destruct es as [|le es].
  2: { eexists. split; [done|]. intros summary. split; [done|]. intros (ts' & e & items & Hl' & _). by apply Hl in Hl' as [_ ?]. }
  rewrite Htokens. destruct (lexes_end_once origin source ts []) as (init & e & -> & He & Hinit); [by apply Hl|].
  destruct (parse_program_exact init e He Hinit) as (items & es & -> & Hp). eexists. split; [done|]. intros summary. cbn [errors]. split.
  - destruct es as [|pe es]; [|done]. intros [= <-]. exists init, e, items. split_and!; [by apply Hl|by apply Hp|done].
  - intros (ts' & e' & items' & [Ht _]%Hl & Hitems & ->). apply app_inj_tail in Ht as [-> ->]. apply Hp in Hitems as [-> ->]. done.
Qed.

(** ** Recovery *)

Definition parse_source (s : string) : option (list string * list ParseMessage) :=
  match tokenize (String.list_byte_of_string s) with
  | Some (Ok (ts, [])) => match parse_program ts with POk items p => Some (map (λ i, (item_summary i).1) items, map parse_message (errors p)) | _ => None end
  | _ => None
  end.

Example parser_samples :
  parse_source "fn main() { }" = Some (["main"], []) ∧
  parse_source "fn fib(n: Int) -> Int { if n < 2 { return n } return fib(n - 1) + fib(n - 2) } fn main() { let result = fib(10) print(result) }" =
    Some (["fib"; "main"], []) ∧
  parse_source "fn broken() -> { } fn ok() { let x = 1 }" = Some (["ok"], [ExpectedIdentifier "return type" LBrace]).
Proof. vm_compute. done. Qed.

(** A statement that ends too early takes the brace of its block with it: the function
    is lost, and so is the one after it. *)
Theorem recovery_takes_the_brace :
  parse_source "fn f() { let x = } fn g() { }" = Some ([], [ExpectedExpression RBrace; ExpectedKind "block" RBrace Eof]).
Proof. vm_compute. reflexivity. Qed.

(** An item that ends too early takes the keyword of the next with it. *)
Theorem recovery_takes_the_keyword : parse_source "let x = fn g() { } fn h() { }" = Some (["h"], [ExpectedExpression Fn]).
Proof. vm_compute. reflexivity. Qed.
