(* ===== verification/Pipeline.v ===== *)
(** * Pipeline executor (crates/syllog-runtime/src/pipeline.rs)

    The executor is asynchronous and concurrent: a root task runs the groups of
    a plan, a fan-out spawns one child task per branch, and all tasks share the
    circuit states, the clock and the cancellation flag.  A task is a program of
    type [prog]: a tree of the operations that touch anything outside the task,
    each with its continuation.  The executor's methods are functions that build
    these programs; [PipelineMachine] runs them.  A stage's operation is code of
    the embedding application: it is a name of an abstract type [Op], and what it
    may answer is a parameter of the machine.  Durations and instants are
    nanoseconds; the lifecycle log is the list of events it holds. *)

From stdpp Require Import base gmap strings numbers list.
From S2P Require Import Prelude Text.
Open Scope string_scope.
Open Scope list_scope.
Open Scope N_scope.

(** ** Policies, stages and plans *)

Record RetryPolicy := { max_attempts : N; backoff : N }.

Definition default_retry : RetryPolicy := {| max_attempts := 1; backoff := 0 |}.

Record CircuitPolicy := { failure_threshold : N; reset_after : N }.

Inductive JoinPolicy := PreserveInputOrder | CompletionOrder.

Record Stage {Op : Type} := {
  stage_name : string;
  operation : Op;
  retry : RetryPolicy;
  deadline : option N;
  circuit : option CircuitPolicy
}.
Arguments Stage : clear implicits.

(** [Stage::new], [with_retry], [with_deadline] and [with_circuit]. *)
Definition stage_new {Op} (name : string) (op : Op) : Stage Op :=
  {| stage_name := name; operation := op; retry := default_retry; deadline := None; circuit := None |}.

Definition with_retry {Op} (policy : RetryPolicy) (s : Stage Op) : Stage Op :=
  {| stage_name := stage_name s; operation := operation s;
     retry := {| max_attempts := N.max (max_attempts policy) 1; backoff := backoff policy |};
     deadline := deadline s; circuit := circuit s |}.

Definition with_deadline {Op} (d : N) (s : Stage Op) : Stage Op :=
  {| stage_name := stage_name s; operation := operation s; retry := retry s;
     deadline := Some d; circuit := circuit s |}.

Definition with_circuit {Op} (policy : CircuitPolicy) (s : Stage Op) : Stage Op :=
  {| stage_name := stage_name s; operation := operation s; retry := retry s; deadline := deadline s;
     circuit := Some {| failure_threshold := N.max (failure_threshold policy) 1;
                        reset_after := reset_after policy |} |}.

Inductive PipelineGroup {Op : Type} :=
| Serial (stages : list (Stage Op))
| FanOut (stages : list (Stage Op)) (join : JoinPolicy).
Arguments PipelineGroup : clear implicits.

(** ** Errors and events *)

Inductive StageErrorKind :=
| KindRetryable | KindFatal | KindCancelled | KindDeadline | KindCircuitOpen | KindJoin.

Inductive StageError :=
| Retryable (message : string)
| Fatal (message : string)
| StageCancelled
| DeadlineExceeded (stage : string)
| CircuitOpen (stage : string)
| JoinFailed.

#[export] Instance stage_error_eq_dec : EqDecision StageError.
Proof. solve_decision. Defined.

Definition error_kind (e : StageError) : StageErrorKind :=
  match e with
  | Retryable _ => KindRetryable
  | Fatal _ => KindFatal
  | StageCancelled => KindCancelled
  | DeadlineExceeded _ => KindDeadline
  | CircuitOpen _ => KindCircuitOpen
  | JoinFailed => KindJoin
  end.

Inductive PipelineEvent :=
| Started
| StageAttempt (stage : string) (attempt : N)
| StageSucceeded (stage : string)
| StageFailed (stage : string) (kind : StageErrorKind)
| FanOutStarted (width : nat)
| Joined (count : nat)
| Cancelled
| CancellationGraceElapsed (grace_millis : N)
| TaskDetached
| Completed.

#[export] Instance stage_error_kind_eq_dec : EqDecision StageErrorKind.
Proof. solve_decision. Defined.
#[export] Instance pipeline_event_eq_dec : EqDecision PipelineEvent.
Proof. solve_decision. Defined.

Record PipelineOutcome := { output : list string; outcome_events : list PipelineEvent }.
Record PipelineFailure := { failure_error : StageError; failure_events : list PipelineEvent }.

(** ** Lifecycle log *)

(** [LifecycleLog::push]: a full log loses its oldest event. *)
Definition log_push (capacity : nat) (events : list PipelineEvent) (e : PipelineEvent)
    : list PipelineEvent :=
  (if bool_decide (length events = capacity) then tail events else events) ++ [e].

Definition log_extend (capacity : nat) (events incoming : list PipelineEvent) : list PipelineEvent :=
  foldl (log_push capacity) events incoming.

Definition log_cancelled (capacity : nat) (events : list PipelineEvent) : list PipelineEvent :=
  if bool_decide (Cancelled ∈ events) then events else log_push capacity events Cancelled.

(** ** Circuit breakers *)

Record CircuitState := { failures : N; opened_at : option N }.

Definition closed_circuit : CircuitState := {| failures := 0; opened_at := None |}.

Abbreviation circuit_map := (gmap string CircuitState).

(** The body of [check_circuit] under the lock, at time [now]. *)
Definition check_circuit_locked (name : string) (policy : CircuitPolicy) (now : N) (circuits : circuit_map)
    : circuit_map * result unit StageError :=
  let state := default closed_circuit (circuits !! name) in
  match opened_at state with
  | Some opened =>
      if bool_decide (now - opened < reset_after policy)
      then (<[name := state]> circuits, Err (CircuitOpen name))
      else (<[name := closed_circuit]> circuits, Ok tt)
  | None => (<[name := state]> circuits, Ok tt)
  end.

Definition record_success_locked (name : string) (circuits : circuit_map) : circuit_map :=
  alter (λ _, closed_circuit) name circuits.

Definition record_failure_locked (name : string) (policy : CircuitPolicy) (now : N) (circuits : circuit_map)
    : circuit_map :=
  let state := default closed_circuit (circuits !! name) in
  let failures := u32_saturating_add (failures state) 1 in
  <[name := {| failures := failures;
               opened_at := if bool_decide (failure_threshold policy ≤ failures) then Some now
                            else opened_at state |}]> circuits.

(** ** Programs *)

(** What a child task returns: its index, its result and its events. *)
Definition child_result : Type := nat * result string StageError * list PipelineEvent.

Inductive prog {Op : Type} (A : Type) : Type :=
| Ret (a : A)
(** Events of the task's own log. *)
| Push (e : PipelineEvent) (k : prog A)
| PushCancelled (k : prog A)
| Snapshot (k : list PipelineEvent → prog A)
(** The cancellation flag. *)
| IsCancelled (k : bool → prog A)
| Cancel (k : prog A)
(** The circuits, under their lock, with the time of the access. *)
| Circuits (f : N → circuit_map → circuit_map * result unit StageError) (k : result unit StageError → prog A)
(** [operation.call(context, input).await] *)
| Call (op : Op) (input : string) (k : result string StageError → prog A)
(** The biased [select!] between cancellation ([true]) and the end of a sleep. *)
| SleepOrCancelled (d : N) (k : bool → prog A)
(** [timeout(d, p).await]; [None] when the time is up. *)
| Timeout (d : N) (p : prog (result string StageError)) (k : option (result string StageError) → prog A)
(** The semaphore of a fan-out; [false] if it is closed. *)
| NewSemaphore (permits : nat) (k : prog A)
| Acquire (k : bool → prog A)
| Release (k : prog A)
(** The [JoinSet] of a fan-out; the inner [Err] is a child that panicked. *)
| Spawn (child : prog child_result) (k : prog A)
| JoinNext (k : option (result child_result unit) → prog A).
Arguments Ret {Op A} a.
Arguments Push {Op A} e k.
Arguments PushCancelled {Op A} k.
Arguments Snapshot {Op A} k.
Arguments IsCancelled {Op A} k.
Arguments Cancel {Op A} k.
Arguments Circuits {Op A} f k.
Arguments Call {Op A} op input k.
Arguments SleepOrCancelled {Op A} d k.
Arguments Timeout {Op A} d p k.
Arguments NewSemaphore {Op A} permits k.
Arguments Acquire {Op A} k.
Arguments Release {Op A} k.
Arguments Spawn {Op A} child k.
Arguments JoinNext {Op A} k.
Arguments prog : clear implicits.

Fixpoint prog_bind {Op A B} (p : prog Op A) (f : A → prog Op B) : prog Op B :=
  match p with
  | Ret a => f a
  | Push e k => Push e (prog_bind k f)
  | PushCancelled k => PushCancelled (prog_bind k f)
  | Snapshot k => Snapshot (λ l, prog_bind (k l) f)
  | IsCancelled k => IsCancelled (λ b, prog_bind (k b) f)
  | Cancel k => Cancel (prog_bind k f)
  | Circuits g k => Circuits g (λ r, prog_bind (k r) f)
  | Call op input k => Call op input (λ r, prog_bind (k r) f)
  | SleepOrCancelled d k => SleepOrCancelled d (λ b, prog_bind (k b) f)
  | Timeout d p k => Timeout d p (λ r, prog_bind (k r) f)
  | NewSemaphore n k => NewSemaphore n (prog_bind k f)
  | Acquire k => Acquire (λ b, prog_bind (k b) f)
  | Release k => Release (prog_bind k f)
  | Spawn child k => Spawn child (prog_bind k f)
  | JoinNext k => JoinNext (λ r, prog_bind (k r) f)
  end.

Notation "x <-- p ;; q" := (prog_bind p (λ x, q)) (at level 60, p at next level, right associativity).

(** [p.await?] *)
Definition try_bind {Op A B E} (p : prog Op (result A E)) (f : A → prog Op (result B E)) : prog Op (result B E) :=
  r <-- p ;; match r with Ok a => f a | Err e => Ret (Err e) end.

(** ** The executor *)

Inductive ProductionPipelineConfigError := ZeroEventCapacity | ZeroFanOut.

Record Executor := { event_capacity : nat; max_fan_out : nat }.

(** [ProductionPipelineExecutor::new]; the circuits start empty. *)
Definition executor_new (event_capacity max_fan_out : nat) : result Executor ProductionPipelineConfigError :=
  if bool_decide (event_capacity = 0%nat) then Err ZeroEventCapacity
  else if bool_decide (max_fan_out = 0%nat) then Err ZeroFanOut
  else Ok {| event_capacity := event_capacity; max_fan_out := max_fan_out |}.

Section executor.
Context {Op : Type} (x : Executor).

Definition check_circuit (s : Stage Op) : prog Op (result unit StageError) :=
  match circuit s with
  | None => Ret (Ok tt)
  | Some policy => Circuits (check_circuit_locked (stage_name s) policy) Ret
  end.

Definition record_circuit_success (s : Stage Op) : prog Op unit :=
  match circuit s with
  | None => Ret tt
  | Some _ => Circuits (λ _ c, (record_success_locked (stage_name s) c, Ok tt)) (λ _, Ret tt)
  end.

Definition record_circuit_failure (s : Stage Op) : prog Op unit :=
  match circuit s with
  | None => Ret tt
  | Some policy =>
      Circuits (λ now c, (record_failure_locked (stage_name s) policy now c, Ok tt)) (λ _, Ret tt)
  end.

(** The rest of [for attempt in 1..=max_attempts], with [todo] attempts to go. *)
Fixpoint attempt_loop (s : Stage Op) (input : string) (attempt : N) (todo : nat)
    : prog Op (result string StageError) :=
  match todo with
  | O => Ret (Err (Fatal "retry policy exhausted without terminal result"))
  | S todo =>
      IsCancelled (λ cancelled,
        if cancelled then Ret (Err StageCancelled)
        else Push (StageAttempt (stage_name s) attempt)
          (Call (operation s) input (λ r,
            match r with
            | Ok out => Ret (Ok out)
            | Err (Retryable m) =>
                if bool_decide (attempt < max_attempts (retry s))
                then SleepOrCancelled (backoff (retry s)) (λ cancelled,
                       if cancelled then Ret (Err StageCancelled)
                       else attempt_loop s input (attempt + 1) todo)
                else Ret (Err (Retryable m))
            | Err e => Ret (Err e)
            end)))
  end.

Definition run_stage_attempts (s : Stage Op) (input : string) : prog Op (result string StageError) :=
  attempt_loop s input 1 (N.to_nat (max_attempts (retry s))).

(** The end of [run_stage]: the circuit, the event and the result. *)
Definition stage_finished (s : Stage Op) (r : result string StageError) : prog Op (result string StageError) :=
  match r with
  | Ok _ => _ <-- record_circuit_success s ;; Push (StageSucceeded (stage_name s)) (Ret r)
  | Err e => _ <-- record_circuit_failure s ;; Push (StageFailed (stage_name s) (error_kind e)) (Ret r)
  end.

Definition run_stage (s : Stage Op) (input : string) : prog Op (result string StageError) :=
  try_bind (check_circuit s) (λ _,
    match deadline s with
    | Some d =>
        Timeout d (run_stage_attempts s input) (λ r,
          match r with
          | None => Ret (Err (DeadlineExceeded (stage_name s)))
          | Some r => stage_finished s r
          end)
    | None => r <-- run_stage_attempts s input ;; stage_finished s r
    end).

(** The task of one branch. *)
Definition child_task (index : nat) (s : Stage Op) (input : string) : prog Op child_result :=
  Acquire (λ open,
    if open then
      r <-- run_stage s input ;; Release (Snapshot (λ events, Ret (index, r, events)))
    else Ret (index, Err JoinFailed, [])).

Fixpoint spawn_children {A} (index : nat) (stages : list (Stage Op)) (input : string) (k : prog Op A) : prog Op A :=
  match stages with
  | [] => k
  | s :: stages => Spawn (child_task index s input) (spawn_children (S index) stages input k)
  end.

(** [events.extend(..)] *)
Definition extend_events {A} (events : list PipelineEvent) (k : prog Op A) : prog Op A := foldr Push k events.

(** [failure.get_or_insert(error)] *)
Definition get_or_insert (failure : option StageError) (e : StageError) : option StageError :=
  match failure with Some f => Some f | None => Some e end.

(** The [while let] loop over the children, of which [todo] are not joined yet. *)
Fixpoint join_loop (todo : nat) (results : list (nat * string)) (failure : option StageError)
    : prog Op (list (nat * string) * option StageError) :=
  JoinNext (λ joined,
    match joined, todo with
    | None, _ | Some _, O => Ret (results, failure)
    | Some (Ok (index, r, events)), S todo =>
        extend_events events
          match r with
          | Ok out =>
              join_loop todo (match failure with None => results ++ [(index, out)] | Some _ => results end) failure
          | Err e => Cancel (join_loop todo results (get_or_insert failure e))
          end
    | Some (Err _), S todo => Cancel (join_loop todo results (get_or_insert failure JoinFailed))
    end).

Definition index_le (a b : nat * string) : bool := bool_decide (a.1 ≤ b.1)%nat.

(** The end of [run_fan_out]. *)
Definition fan_out_result (join : JoinPolicy) (results : list (nat * string)) (failure : option StageError)
    : result (list string) StageError :=
  match failure with
  | Some e => Err e
  | None =>
      Ok (match join with
          | PreserveInputOrder => stable_sort index_le results
          | CompletionOrder => results
          end).*2
  end.

Definition run_fan_out (stages : list (Stage Op)) (join : JoinPolicy) (input : string)
    : prog Op (result (list string) StageError) :=
  NewSemaphore (max_fan_out x)
    (spawn_children 0 stages input
      (r <-- join_loop (length stages) [] None ;; Ret (fan_out_result join r.1 r.2))).

Fixpoint run_serial (stages : list (Stage Op)) (out : string) : prog Op (result string StageError) :=
  match stages with
  | [] => Ret (Ok out)
  | s :: stages => try_bind (run_stage s out) (run_serial stages)
  end.

(** [outputs.pop()] takes the last output. *)
Fixpoint run_groups (groups : list (PipelineGroup Op)) (outputs : list string)
    : prog Op (result (list string) StageError) :=
  match groups with
  | [] => Ret (Ok outputs)
  | group :: groups =>
      IsCancelled (λ cancelled,
        if cancelled then Ret (Err StageCancelled)
        else match group, last outputs with
             | Serial stages, Some out =>
                 try_bind (run_serial stages out) (λ out, run_groups groups [out])
             | Serial _, None => Ret (Err (Fatal "serial stage has no input"))
             | FanOut stages join, Some out =>
                 Push (FanOutStarted (length stages))
                   (try_bind (run_fan_out stages join out) (λ outputs,
                      Push (Joined (length outputs)) (run_groups groups outputs)))
             | FanOut _ _, None => Ret (Err (Fatal "fan-out has no input"))
             end)
  end.

Definition run_pipeline (groups : list (PipelineGroup Op)) (input : string)
    : prog Op (result PipelineOutcome PipelineFailure) :=
  Push Started
    (r <-- run_groups groups [input] ;;
     match r with
     | Ok out =>
         Push Completed (Snapshot (λ events, Ret (Ok {| output := out; outcome_events := events |})))
     | Err e =>
         let failed := Snapshot (λ events, Ret (Err {| failure_error := e; failure_events := events |})) in
         if bool_decide (e = StageCancelled) then PushCancelled failed else failed
     end).

(** ** The handle *)

(** How [wait]'s [select!] ends: the task first, or the cancellation and then
    the task within the grace period or not.  A task that panicked has no
    result. *)
Inductive Waited :=
| TaskFirst (r : option (result PipelineOutcome PipelineFailure))
| CancelFirst (within_grace : option (option (result PipelineOutcome PipelineFailure))).

Definition flatten_pipeline_join (r : option (result PipelineOutcome PipelineFailure)) (events : list PipelineEvent)
    : result PipelineOutcome PipelineFailure :=
  match r with
  | Some r => r
  | None => Err {| failure_error := JoinFailed; failure_events := events |}
  end.

(** [wait], with the log it finds; [grace] is the cancellation grace in
    milliseconds and the result says whether the task is handed to the supervisor. *)
Definition wait (grace : N) (w : Waited) (events : list PipelineEvent)
    : result PipelineOutcome PipelineFailure * bool :=
  match w with
  | TaskFirst r => (flatten_pipeline_join r events, false)
  | CancelFirst (Some r) => (flatten_pipeline_join r (log_cancelled (event_capacity x) events), false)
  | CancelFirst None =>
      let events := log_cancelled (event_capacity x) events in
      let events := log_push (event_capacity x) events (CancellationGraceElapsed (N.min grace u64_max)) in
      let events := log_push (event_capacity x) events TaskDetached in
      (Err {| failure_error := StageCancelled; failure_events := events |}, true)
  end.
End executor.
