(* ===== verification/PipelineMachine.v ===== *)
(** * Running pipeline programs

    A machine has a root task, the child tasks of the current fan-out, the
    permits of its semaphore and the world the tasks share.  [mstep] lets one
    task take one step; [interfere] is what others may do in between: time
    passes, the handle requests cancellation, other executions change the
    circuits.  Operations may answer anything [answers] allows,
    or panic where [panics] is set. *)

From Stdlib Require Import Wellfounded.
From stdpp Require Import base gmap strings numbers list.
From S2P Require Import Prelude Text Pipeline.
Open Scope list_scope.
Open Scope nat_scope.

Record World := { now : N; cancelled : bool; circuits : gmap string CircuitState }.

Section machine.
Context {Op : Type} (x : Executor) (answers : Op → string → result string StageError → Prop) (panics : bool).

Abbreviation prog := (prog Op).

(** A task that waits for an operation or for a sleep. *)
Inductive pending {A} : prog A → Prop :=
| pending_call op input k : pending (Call op input k)
| pending_sleep d k : pending (SleepOrCancelled d k).

(** A task with an operation in flight. *)
Inductive calling {A} : prog A → Prop :=
| calling_call op input k : calling (Call op input k)
| calling_timeout d p k : calling (A := result string StageError) p → calling (Timeout d p k).

Inductive tstep {A} : World → list PipelineEvent → prog A → World → list PipelineEvent → prog A → Prop :=
| step_push w log e k : tstep w log (Push e k) w (log_push (event_capacity x) log e) k
| step_push_cancelled w log k : tstep w log (PushCancelled k) w (log_cancelled (event_capacity x) log) k
| step_snapshot w log k : tstep w log (Snapshot k) w log (k log)
| step_is_cancelled w log k : tstep w log (IsCancelled k) w log (k (cancelled w))
| step_cancel w log k :
    tstep w log (Cancel k) {| now := now w; cancelled := true; circuits := circuits w |} log k
| step_circuits w log f k c r :
    f (now w) (circuits w) = (c, r) →
    tstep w log (Circuits f k) {| now := now w; cancelled := cancelled w; circuits := c |} log (k r)
| step_call w log op input k r : answers op input r → tstep w log (Call op input k) w log (k r)
| step_sleep w log d k : tstep w log (SleepOrCancelled d k) w log (k (cancelled w))
| step_inside w log d p k w' log' p' :
    tstep (A := result string StageError) w log p w' log' p' → tstep w log (Timeout d p k) w' log' (Timeout d p' k)
| step_in_time w log d r k : tstep w log (Timeout d (Ret r) k) w log (k (Some r))
| step_timed_out w log d p k : pending p → tstep w log (Timeout d p k) w log (k None).

Record Child := { c_log : list PipelineEvent; c_holds : bool; c_prog : option (prog child_result) }.

Record Machine {A : Type} := {
  m_world : World;
  m_permits : nat;
  m_log : list PipelineEvent;
  m_root : option (prog A);
  m_children : list Child
}.
#[global] Arguments Machine : clear implicits.

(** A child step changes the world, the permits and the child. *)
Inductive cstep : World → nat → Child → World → nat → Child → Prop :=
| child_runs w n log holds p w' log' p' :
    tstep w log p w' log' p' →
    cstep w n {| c_log := log; c_holds := holds; c_prog := Some p |}
          w' n {| c_log := log'; c_holds := holds; c_prog := Some p' |}
| child_acquires w n log holds k :
    cstep w (S n) {| c_log := log; c_holds := holds; c_prog := Some (Acquire k) |}
          w n {| c_log := log; c_holds := true; c_prog := Some (k true) |}
| child_releases w n log holds k :
    cstep w n {| c_log := log; c_holds := holds; c_prog := Some (Release k) |}
          w (S n) {| c_log := log; c_holds := false; c_prog := Some k |}
| child_panics w n log holds p :
    panics = true → calling p →
    cstep w n {| c_log := log; c_holds := holds; c_prog := Some p |}
          w (if holds then S n else n) {| c_log := log; c_holds := false; c_prog := None |}.

(** What [join_next] returns for a child that has ended. *)
Inductive ended : Child → result child_result unit → Prop :=
| ended_returned log holds r : ended {| c_log := log; c_holds := holds; c_prog := Some (Ret r) |} (Ok r)
| ended_panicked log holds : ended {| c_log := log; c_holds := holds; c_prog := None |} (Err tt).

Inductive mstep {A} : Machine A → Machine A → Prop :=
| root_runs w n log p cs w' log' p' :
    tstep w log p w' log' p' →
    mstep {| m_world := w; m_permits := n; m_log := log; m_root := Some p; m_children := cs |}
          {| m_world := w'; m_permits := n; m_log := log'; m_root := Some p'; m_children := cs |}
| root_panics w n log p cs :
    panics = true → calling p →
    mstep {| m_world := w; m_permits := n; m_log := log; m_root := Some p; m_children := cs |}
          {| m_world := w; m_permits := n; m_log := log; m_root := None; m_children := [] |}
| root_semaphore w n log permits k cs :
    mstep {| m_world := w; m_permits := n; m_log := log; m_root := Some (NewSemaphore permits k); m_children := cs |}
          {| m_world := w; m_permits := permits; m_log := log; m_root := Some k; m_children := cs |}
| root_spawns w n log child k cs :
    mstep {| m_world := w; m_permits := n; m_log := log; m_root := Some (Spawn child k); m_children := cs |}
          {| m_world := w; m_permits := n; m_log := log; m_root := Some k;
             m_children := cs ++ [{| c_log := []; c_holds := false; c_prog := Some child |}] |}
| root_joins w n log k cs1 c cs2 r :
    ended c r →
    mstep {| m_world := w; m_permits := n; m_log := log; m_root := Some (JoinNext k); m_children := cs1 ++ c :: cs2 |}
          {| m_world := w; m_permits := n; m_log := log; m_root := Some (k (Some r)); m_children := cs1 ++ cs2 |}
| root_joins_none w n log k :
    mstep {| m_world := w; m_permits := n; m_log := log; m_root := Some (JoinNext k); m_children := [] |}
          {| m_world := w; m_permits := n; m_log := log; m_root := Some (k None); m_children := [] |}
| child_steps w n log p cs1 c cs2 w' n' c' :
    cstep w n c w' n' c' →
    mstep {| m_world := w; m_permits := n; m_log := log; m_root := Some p; m_children := cs1 ++ c :: cs2 |}
          {| m_world := w'; m_permits := n'; m_log := log; m_root := Some p; m_children := cs1 ++ c' :: cs2 |}.

Definition with_world {A} (w : World) (m : Machine A) : Machine A :=
  {| m_world := w; m_permits := m_permits m; m_log := m_log m; m_root := m_root m; m_children := m_children m |}.

(** A task step after any interference. *)
Definition task_step {A} (m m' : Machine A) : Prop := ∃ w, mstep (with_world w m) m'.

Definition start {A} (w : World) (p : prog A) : Machine A :=
  {| m_world := w; m_permits := 0; m_log := []; m_root := Some p; m_children := [] |}.

Definition reachable {A} (w : World) (p : prog A) : Machine A → Prop := rtc task_step (start w p).

(** ** Every execution is finite *)

Definition tsucc {A} (p' p : prog A) : Prop := ∃ w log w' log', tstep w log p w' log' p'.

Lemma tsucc_acc {A} (p : prog A) : Acc tsucc p.
Proof.
  induction p as [A a|A e k IH|A k IH|A k IH|A k IH|A k IH|A f k IH|A op input k IH|A d k IH|A d p IHp k IHk
    |A n k _|A k _|A k _|A c _ k _|A k _]; try (constructor; intros p' (w&log&w'&log'&Hs); inv Hs; apply IH).
  induction IHp as [p _ IHp]. constructor. intros p' (w&log&w'&log'&Hs). inv Hs; [|apply IHk..].
  apply IHp. by eexists _, _, _, _.
Qed.

(** What can become of a program, including the steps that only machines take. *)
Inductive psucc {A} : prog A → prog A → Prop :=
| psucc_step p p' : tsucc p' p → psucc p' p
| psucc_acquire k b : psucc (k b) (Acquire k)
| psucc_release k : psucc k (Release k)
| psucc_semaphore n k : psucc k (NewSemaphore n k)
| psucc_spawn c k : psucc k (Spawn c k)
| psucc_join k r : psucc (k r) (JoinNext k).

Lemma psucc_acc {A} (p : prog A) : Acc psucc p.
Proof.
  induction p as [A a|A e k IH|A k IH|A k IH|A k IH|A k IH|A f k IH|A op input k IH|A d k IH|A d p IHp k IHk
    |A n k IH|A k IH|A k IH|A c _ k IH|A k IH];
    try (constructor; intros q Hq; inversion Hq as [? ? (w&log&w'&log'&Hs)|?|?|?|?|?]; subst;
         [inversion Hs; subst; apply IH|..]; apply IH).
  clear IHp. induction (tsucc_acc p) as [p _ IHp]. constructor. intros q Hq. inv Hq.
  match goal with H : tsucc _ _ |- _ => destruct H as (w&log&w'&log'&Hs) end. inv Hs; [|apply IHk..].
  apply IHp. by eexists _, _, _, _.
Qed.

Definition csucc (c' c : Child) : Prop := ∃ w n w' n', cstep w n c w' n' c'.

Lemma csucc_acc c : Acc csucc c.
Proof.
  destruct c as [log holds [p|]]; [|constructor; intros c' (w&n&w'&n'&Hs); inv Hs].
  revert log holds. induction (psucc_acc p) as [p _ IH]. intros log holds. constructor.
  intros c' (w&n&w'&n'&Hs). inv Hs.
  - apply IH. apply psucc_step. by eexists _, _, _, _.
  - apply IH. apply psucc_acquire.
  - apply IH. apply psucc_release.
  - constructor. intros c' (w1&n1&w2&n2&Hs). inv Hs.
Qed.

(** One element of a list gets smaller. *)
Inductive one_smaller {B} (R : B → B → Prop) : list B → list B → Prop :=
| one_smaller_at l1 a b l2 : R a b → one_smaller R (l1 ++ a :: l2) (l1 ++ b :: l2).

Lemma one_smaller_cons {B} (R : B → B → Prop) b l : Acc R b → Acc (one_smaller R) l → Acc (one_smaller R) (b :: l).
Proof.
  intros Hb. revert l. induction Hb as [b _ IHb]. intros l Hl. induction Hl as [l Hl IHl]. constructor. intros l' Hs.
  inversion Hs as [l1 a c l2 HR E1 E2]. subst. destruct l1 as [|d l1]; simplify_eq/=.
  - apply IHb; [done|]. by constructor.
  - apply IHl. by constructor.
Qed.

Lemma one_smaller_acc {B} (R : B → B → Prop) l : Forall (Acc R) l → Acc (one_smaller R) l.
Proof.
  induction 1 as [|b l Hb _ IH]; [|by apply one_smaller_cons]. constructor. intros l' Hs. inversion Hs as [[|] ???]; done.
Qed.

Definition flip_step {A} (m' m : Machine A) : Prop := task_step m m'.

Lemma machine_acc {A} (m : Machine A) : Acc flip_step m.
Proof.
  destruct m as [w n log [p|] cs]; [|constructor; intros m' [w' Hs]; inv Hs].
  revert w n log cs. induction (psucc_acc p) as [p _ IHp]. intros w n log cs. revert w n log.
  assert (Acc (one_smaller csucc) cs) as Hcs.
  { apply one_smaller_acc, Forall_forall. intros c _. apply csucc_acc. }
  induction Hcs as [cs _ IHcs].
  intros w n log. constructor. intros m' [w0 Hs]. unfold with_world in Hs. simpl in Hs. inv Hs.
  - apply IHp, psucc_step. by eexists _, _, _, _.
  - constructor. intros m' [w1 Hs]. inv Hs.
  - apply IHp, psucc_semaphore.
  - apply IHp, psucc_spawn.
  - apply IHp, psucc_join.
  - apply IHp, psucc_join.
  - apply IHcs. constructor. by eexists _, _, _, _.
Qed.
End machine.
Arguments Machine : clear implicits.
Arguments Child : clear implicits.

(** * What pipeline programs do

    Three predicates describe what a program may do from here on, for every
    answer and every interleaving: [iwp] for a program that only runs a stage,
    [cwp] for a child task and whether it holds a permit, [rwp] for the root and
    the branches it has not joined.  [minv] lifts them to machines, and every
    step keeps it. *)

Open Scope list_scope.
Open Scope nat_scope.

Section specs.
Context {Op : Type} (x : Executor) (answers : Op → string → result string StageError → Prop) (panics : bool).

Abbreviation prog := (prog Op).
Abbreviation outcome := (result string StageError).

Fixpoint iwp {A} (Q : A → Prop) (p : prog A) : Prop :=
  match p with
  | Ret a => Q a
  | Push _ k | PushCancelled k | Cancel k => iwp Q k
  | Snapshot k => ∀ l, iwp Q (k l)
  | IsCancelled k | SleepOrCancelled _ k => ∀ b, iwp Q (k b)
  | Circuits _ k => ∀ r, iwp Q (k r)
  | Call op input k => ∀ r, answers op input r → iwp Q (k r)
  | Timeout _ p k => iwp (λ r, iwp Q (k (Some r))) p ∧ iwp Q (k None)
  | _ => False
  end.

Fixpoint cwp {A} (Q : A → Prop) (holds : bool) (p : prog A) : Prop :=
  match p with
  | Ret a => holds = false ∧ Q a
  | Push _ k | PushCancelled k | Cancel k => cwp Q holds k
  | Snapshot k => ∀ l, cwp Q holds (k l)
  | IsCancelled k | SleepOrCancelled _ k => ∀ b, cwp Q holds (k b)
  | Circuits _ k => ∀ r, cwp Q holds (k r)
  | Call op input k => holds = true ∧ ∀ r, answers op input r → cwp Q holds (k r)
  | Timeout _ p k => holds = true ∧ iwp (λ r, cwp Q holds (k (Some r))) p ∧ cwp Q holds (k None)
  | Acquire k => holds = false ∧ ∀ b, cwp Q b (k b)
  | Release k => holds = true ∧ cwp Q false k
  | NewSemaphore _ _ | Spawn _ _ | JoinNext _ => False
  end.

(** [R i] is what may be relied on of the result of branch [i]. *)
Context (R : nat → outcome → Prop).

Definition branch_result (i : nat) (r : child_result) : Prop := r.1.1 = i ∧ R i r.1.2.

Definition joined_result (i : nat) (j : result child_result unit) : Prop :=
  match j with Ok r => branch_result i r | Err _ => True end.

Fixpoint rwp {A} (Q : A → Prop) (sem : bool) (live : list nat) (p : prog A) : Prop :=
  match p with
  | Ret a => live = [] ∧ Q a
  | Push _ k | PushCancelled k | Cancel k => rwp Q sem live k
  | Snapshot k => ∀ l, rwp Q sem live (k l)
  | IsCancelled k | SleepOrCancelled _ k => ∀ b, rwp Q sem live (k b)
  | Circuits _ k => ∀ r, rwp Q sem live (k r)
  | Call op input k => ∀ r, answers op input r → rwp Q sem live (k r)
  | Timeout _ p k => iwp (λ r, rwp Q sem live (k (Some r))) p ∧ rwp Q sem live (k None)
  | NewSemaphore permits k => live = [] ∧ permits = max_fan_out x ∧ rwp Q true [] k
  | Spawn child k => sem = true ∧ ∃ i, cwp (branch_result i) false child ∧ rwp Q true (live ++ [i]) k
  | JoinNext k =>
      (live = [] → rwp Q sem [] (k None)) ∧
      (∀ l1 i l2 j, live = l1 ++ i :: l2 → joined_result i j → rwp Q sem (l1 ++ l2) (k (Some j)))
  | Acquire _ | Release _ => False
  end.

(** ** Sequencing *)

Lemma iwp_mono {A} (P Q : A → Prop) (p : prog A) : (∀ a, P a → Q a) → iwp P p → iwp Q p.
Proof.
  revert P Q. induction p as [A a|A e k IH|A k IH|A k IH|A k IH|A k IH|A f k IH|A op input k IH|A d k IH|A d p IHp k IHk
    |A n k _|A k _|A k _|A c _ k _|A k _]; intros P Q HPQ; simpl; try done; eauto.
  intros [Hp Hk]. split; [|by apply (IHk None P)]. eapply IHp; [|exact Hp]. simpl. intros r. by apply (IHk (Some r) P).
Qed.

Lemma iwp_bind {A B} (P : A → Prop) (Q : B → Prop) (p : prog A) f :
  iwp P p → (∀ a, P a → iwp Q (f a)) → iwp Q (prog_bind p f).
Proof.
  induction p as [A a|A e k IH|A k IH|A k IH|A k IH|A k IH|A g k IH|A op input k IH|A d k IH|A d p _ k IHk
    |A n k _|A k _|A k _|A c _ k _|A k _]; simpl; try done; eauto.
  intros [Hp Hk] Hf. split; [|by eapply IHk]. eapply iwp_mono; [|exact Hp]. simpl. intros r Hr. by eapply IHk.
Qed.

(** A stage run inside a child that holds a permit. *)
Lemma cwp_bind_iwp {A B} (P : A → Prop) (Q : B → Prop) (p : prog A) f :
  iwp P p → (∀ a, P a → cwp Q true (f a)) → cwp Q true (prog_bind p f).
Proof.
  induction p as [A a|A e k IH|A k IH|A k IH|A k IH|A k IH|A g k IH|A op input k IH|A d k IH|A d p _ k IHk
    |A n k _|A k _|A k _|A c _ k _|A k _]; simpl; try done; eauto.
  intros [Hp Hk] Hf. split; [done|]. split; [|by eapply IHk]. eapply iwp_mono; [|exact Hp]. simpl. intros r Hr. by eapply IHk.
Qed.

(** A stage run by the root. *)
Lemma rwp_bind_iwp {A B} (P : A → Prop) (Q : B → Prop) sem live (p : prog A) f :
  iwp P p → (∀ a, P a → rwp Q sem live (f a)) → rwp Q sem live (prog_bind p f).
Proof.
  induction p as [A a|A e k IH|A k IH|A k IH|A k IH|A k IH|A g k IH|A op input k IH|A d k IH|A d p _ k IHk
    |A n k _|A k _|A k _|A c _ k _|A k _]; simpl; try done; eauto.
  intros [Hp Hk] Hf. split; [|by eapply IHk]. eapply iwp_mono; [|exact Hp]. simpl. intros r Hr. by eapply IHk.
Qed.

Lemma rwp_bind {A B} (P : A → Prop) (Q : B → Prop) sem live (p : prog A) f :
  rwp P sem live p → (∀ a sem, P a → rwp Q sem [] (f a)) → rwp Q sem live (prog_bind p f).
Proof.
  revert sem live. induction p as [A a|A e k IH|A k IH|A k IH|A k IH|A k IH|A g k IH|A op input k IH|A d k IH|A d p _ k IHk
    |A n k IH|A k _|A k _|A c _ k IH|A k IH]; intros sem live; simpl; try done; eauto.
  - intros [-> Ha] Hf. by apply Hf.
  - intros [Hp Hk] Hf. split; [|by eapply IHk]. eapply iwp_mono; [|exact Hp]. simpl. intros r Hr. by eapply IHk.
  - intros (->&->&Hk) Hf. split_and!; [done..|]. by eapply IH.
  - intros [-> (i&Hc&Hk)] Hf. split; [done|]. exists i. split; [done|]. by eapply IH.
  - intros [H0 H1] Hf. split; [intros Hl; eapply IH; eauto|]. intros l1 i l2 j Hl Hj. eapply IH; eauto.
Qed.

(** ** Steps *)

Lemma iwp_step {A} (Q : A → Prop) w log p w' log' p' :
  tstep x answers w log p w' log' p' → iwp Q p → iwp Q p'.
Proof.
  intros H. revert Q. induction H as [| | | | | | | |A w log d p k w' log' p' _ IH|A w log d r k|A w log d p k Hp];
    intros Q; simpl; try done; eauto.
  - intros [Hp Hk]. split; [by apply IH|done].
  - by intros [Hr _].
  - by intros [_ Hk].
Qed.

Lemma cwp_step {A} (Q : A → Prop) holds w log p w' log' p' :
  tstep x answers w log p w' log' p' → cwp Q holds p → cwp Q holds p'.
Proof.
  intros H. destruct H as [| | | | | | | |w log d p k w' log' p' Hs|w log d r k|w log d p k Hp]; simpl; try done; eauto.
  - intros [? H']. eauto.
  - intros (?&Hp&Hk). split_and!; [done| |done]. by eapply iwp_step.
  - by intros (_&Hr&_).
  - by intros (_&_&Hk).
Qed.

Lemma rwp_step {A} (Q : A → Prop) sem live w log p w' log' p' :
  tstep x answers w log p w' log' p' → rwp Q sem live p → rwp Q sem live p'.
Proof.
  intros H. destruct H as [| | | | | | | |w log d p k w' log' p' Hs|w log d r k|w log d p k Hp]; simpl; try done; eauto.
  - intros [Hp Hk]. split; [by eapply iwp_step|done].
  - by intros [Hr _].
  - by intros [_ Hk].
Qed.

(** ** Machines *)

Definition child_ok (i : nat) (c : Child Op) : Prop :=
  match c_prog c with Some p => cwp (branch_result i) (c_holds c) p | None => c_holds c = false end.

Definition holder (c : Child Op) : nat := if c_holds c then 1 else 0.

Definition holders (cs : list (Child Op)) : nat := sum_list_with holder cs.

Record minv {A} (Q : A → Prop) (m : Machine Op A) : Prop := {
  mi_root : match m_root m with
            | Some p => ∃ sem live, rwp Q sem live p ∧ Forall2 child_ok live (m_children m) ∧
                (sem = true → m_permits m + holders (m_children m) = max_fan_out x) ∧ (live ≠ [] → sem = true)
            | None => m_children m = []
            end
}.

Lemma calling_holds {A} (Q : A → Prop) holds p : calling p → cwp Q holds p → holds = true.
Proof. intros H. destruct H; simpl; naive_solver. Qed.

Lemma cstep_ok w n c w' n' c' i :
  cstep x answers panics w n c w' n' c' → child_ok i c → child_ok i c' ∧ n' + holder c' = n + holder c.
Proof.
  intros H. destruct H as [w n log holds p w' log' p' Hs|w n log holds k|w n log holds k|w n log holds p _ Hp];
    unfold child_ok, holder; simpl.
  - intros Hc. split; [by eapply cwp_step|done].
  - intros [-> Hk]. split; [apply Hk|lia].
  - intros [-> Hk]. split; [apply Hk|lia].
  - intros Hc. rewrite (calling_holds _ _ _ Hp Hc). split; [done|lia].
Qed.

Lemma ended_ok c r i : ended c r → child_ok i c → joined_result i r ∧ holder c = 0.
Proof.
  intros H. destruct H; unfold child_ok, holder; simpl; [by intros [-> ?]|by intros ->].
Qed.

#[export] Instance holders_proper : Proper ((≡ₚ) ==> (=)) holders.
Proof. intros l k Hp. unfold holders. induction Hp; simpl; lia. Qed.

Lemma holders_app cs cs' : holders (cs ++ cs') = holders cs + holders cs'.
Proof. unfold holders. induction cs as [|c cs IH]; simpl; [done|]. rewrite IH. lia. Qed.

Lemma Forall2_split_r {B C} (P : B → C → Prop) l cs1 c cs2 :
  Forall2 P l (cs1 ++ c :: cs2) → ∃ l1 i l2, l = l1 ++ i :: l2 ∧ Forall2 P l1 cs1 ∧ P i c ∧ Forall2 P l2 cs2.
Proof.
  intros (l1&l2'&H1&H2&->)%Forall2_app_inv_r. apply Forall2_cons_inv_r in H2 as (i&l2&Hi&H2&->). by exists l1, i, l2.
Qed.

Lemma mstep_ok {A} (Q : A → Prop) m m' : mstep x answers panics m m' → minv Q m → minv Q m'.
Proof.
  intros H [Hm]. split. destruct H as [w n log p cs w' log' p' Hs|w n log p cs _ Hp|w n log permits k cs|w n log child k cs
    |w n log k cs1 c cs2 r He|w n log k|w n log p cs1 c cs2 w' n' c' Hs]; simpl in *; try done.
  - destruct Hm as (sem&live&Hp&Hrest). exists sem, live. split; [by eapply rwp_step|done].
  - destruct Hm as (sem&live&(->&->&Hk)&Hc&_). apply Forall2_nil_inv_l in Hc as ->. exists true, [].
    split_and!; [done|constructor|unfold holders; simpl; lia|done].
  - destruct Hm as (sem&live&(->&i&Hc&Hk)&Hcs&Hp&_). exists true, (live ++ [i]). split_and!; [done| | |done].
    + apply Forall2_app; [done|]. by repeat constructor.
    + rewrite holders_app. unfold holders at 2. simpl. intros _. rewrite <-(Hp eq_refl). lia.
  - destruct Hm as (sem&live&[_ Hk]&Hcs&Hp&Hsem). apply Forall2_split_r in Hcs as (l1&i&l2&->&H1&Hi&H2).
    destruct (ended_ok _ _ _ He Hi) as [Hj Hh]. exists sem, (l1 ++ l2). split_and!.
    + by eapply Hk.
    + by apply Forall2_app.
    + intros Hs. rewrite <-(Hp Hs), !holders_app. unfold holders at 4. simpl. fold (holders cs2). rewrite Hh. lia.
    + intros _. apply Hsem. by destruct l1.
  - destruct Hm as (sem&live&[Hk _]&Hcs&Hp&_). apply Forall2_nil_inv_r in Hcs as ->. exists sem, [].
    split_and!; [by apply Hk|constructor|done|done].
  - destruct Hm as (sem&live&Hr&Hcs&Hp&Hsem). apply Forall2_split_r in Hcs as (l1&i&l2&->&H1&Hi&H2).
    destruct (cstep_ok _ _ _ _ _ _ _ Hs Hi) as [Hi' Hn]. exists sem, (l1 ++ i :: l2). split_and!; [done| | |done].
    + apply Forall2_app; [done|by constructor].
    + intros Hs'. rewrite <-(Hp Hs'), !holders_app. unfold holders at 2 4. simpl. lia.
Qed.

Lemma reachable_ok {A} (Q : A → Prop) w p m :
  reachable x answers panics w p m → (∀ sem, rwp Q sem [] p) → minv Q m.
Proof.
  intros H Hp. assert (minv Q (start w p)) as H0.
  { split. simpl. exists false, []. split_and!; [apply Hp|constructor|done|done]. }
  clear Hp. revert H0. induction H as [|m1 m2 m3 [w0 Hs] _ IH]; [done|]. intros [H1]. apply IH.
  eapply mstep_ok; [exact Hs|]. by split.
Qed.

(** ** Progress *)

Context (answered : ∀ op input, ∃ r, answers op input r).

Lemma iwp_progress {A} (Q : A → Prop) w log (p : prog A) :
  iwp Q p → (∃ a, p = Ret a) ∨ ∃ w' log' p', tstep x answers w log p w' log' p'.
Proof.
  revert Q log. induction p as [A a|A e k IH|A k IH|A k IH|A k IH|A k IH|A f k IH|A op input k IH|A d k IH|A d p IHp k IHk
    |A n k _|A k _|A k _|A c _ k _|A k _]; intros Q log; simpl; try done; [by eauto|intros H; right..].
  1-5: by eexists _, _, _; constructor.
  - destruct (f (now w) (circuits w)) as [c r] eqn:E. eexists _, _, _. by econstructor.
  - destruct (answered op input) as [r Hr]. eexists _, _, _. by econstructor.
  - by eexists _, _, _; constructor.
  - destruct H as [Hp _]. destruct (IHp _ log Hp) as [[r ->]|(w'&log'&p'&Hs)].
    + eexists _, _, _. apply step_in_time.
    + eexists _, _, _. by apply step_inside.
Qed.

(** A child can run unless it has ended or waits for a permit. *)
Lemma cwp_progress (Q : child_result → Prop) w n log holds (p : prog child_result) :
  cwp Q holds p → (∃ a, p = Ret a) ∨ (holds = false ∧ ∃ k, p = Acquire k) ∨
    ∃ w' n' c', cstep x answers false w n {| c_log := log; c_holds := holds; c_prog := Some p |} w' n' c'.
Proof.
  intros H. destruct p as [a|e k|k|k|k|k|f k|op input k|d k|d p k|m k|k|k|c k|k]; simpl in H; try done; [by eauto|..];
    try (right; right; by eexists _, _, _; constructor; constructor).
  - right; right. destruct (f (now w) (circuits w)) as [c r] eqn:E. eexists _, _, _. constructor. by econstructor.
  - right; right. destruct (answered op input) as [r Hr]. eexists _, _, _. constructor. by econstructor.
  - right; right. destruct H as (_&Hp&_). destruct (iwp_progress _ w log p Hp) as [[r ->]|(w'&log'&p'&Hs)].
    + eexists _, _, _. apply child_runs, step_in_time.
    + eexists _, _, _. by apply child_runs, step_inside.
  - right; left. destruct H. eauto.
Qed.

Definition finished {A} (m : Machine Op A) : Prop :=
  m_children m = [] ∧ match m_root m with Some (Ret _) | None => True | Some _ => False end.

Lemma children_progress live (cs : list (Child Op)) w n :
  Forall2 child_ok live cs → n + holders cs = max_fan_out x → 0 < max_fan_out x → cs ≠ [] →
  ∃ cs1 c cs2, cs = cs1 ++ c :: cs2 ∧
    ((∃ r, ended c r) ∨ ∃ w' n' c', cstep x answers false w n c w' n' c').
Proof.
  intros Hcs Hn Hmax Hne.
  destruct (decide (Exists (λ c, c_holds c = true) cs)) as [Hex|Hall].
  - apply Exists_exists in Hex as (c&Hin&Hh). apply list_elem_of_split in Hin as (cs1&cs2&->).
    apply Forall2_split_r in Hcs as (l1&i&l2&->&_&Hc&_). exists cs1, c, cs2. split; [done|].
    destruct c as [log holds [p|]]; unfold child_ok in Hc; simpl in *; [|by eauto using @ended_panicked].
    destruct (cwp_progress _ w n log holds p Hc) as [[a ->]|[[-> _]|Hs]]; [left; eexists; constructor|done|by right].
  - apply not_Exists_Forall in Hall; [|apply _]. destruct cs as [|[log holds [p|]] cs]; [done| |].
    2: { exists [], {| c_log := log; c_holds := holds; c_prog := None |}, cs. split; [done|]. left. eexists. constructor. }
    exists [], {| c_log := log; c_holds := holds; c_prog := Some p |}, cs. split; [done|].
    inversion Hcs as [|i ? l ? Hc]; subst. unfold child_ok in Hc. simpl in Hc.
    destruct (cwp_progress _ w n log holds p Hc) as [[a ->]|[[-> [k ->]]|Hs]]; [left; eexists; constructor| |by right].
    right. assert (holders cs = 0) as Hz.
    { apply Forall_cons in Hall as [_ Hall]. unfold holders, holder.
      clear -Hall. induction Hall as [|c cs Hc _ IH]; simpl; [done|]. rewrite IH. destruct (c_holds c) eqn:E; [by destruct Hc|done]. }
    unfold holders in Hn. simpl in Hn. fold (holders cs) in Hn. unfold holder in Hn. simpl in Hn.
    destruct n as [|n]; [lia|]. eexists _, _, _. apply child_acquires.
Qed.

Lemma machine_progress {A} (Q : A → Prop) m :
  0 < max_fan_out x → minv Q m → finished m ∨ ∃ m', mstep x answers false m m'.
Proof.
  intros Hmax [Hm]. destruct m as [w n log [p|] cs]; simpl in *; [|by left].
  destruct Hm as (sem&live&Hp&Hcs&Hn&Hsem).
  destruct p as [a|e k|k|k|k|k|f k|op input k|d k|d p k|permits k|k|k|c k|k]; simpl in Hp; try done;
    try (right; eexists; apply root_runs; by constructor).
  - destruct Hp as [-> _]. apply Forall2_nil_inv_l in Hcs as ->. by left.
  - right. destruct (f (now w) (circuits w)) as [c r] eqn:E. eexists. apply root_runs. by econstructor.
  - right. destruct (answered op input) as [r Hr]. eexists. apply root_runs. by econstructor.
  - right. destruct Hp as [Hp _]. destruct (iwp_progress _ w log p Hp) as [[r ->]|(w'&log'&p'&Hs)].
    + eexists. apply root_runs, step_in_time.
    + eexists. by apply root_runs, step_inside.
  - right. eexists. apply root_semaphore.
  - right. eexists. apply root_spawns.
  - right. destruct cs as [|c0 cs0] eqn:Hcs0; [eexists; apply root_joins_none|]. rewrite <-Hcs0 in *.
    assert (live ≠ []) as Hl by (intros ->; apply Forall2_nil_inv_l in Hcs; congruence).
    destruct (children_progress live cs w n Hcs (Hn (Hsem Hl)) Hmax) as (cs1&c&cs2&->&[[r He]|(w'&n'&c'&Hs)]); [congruence|..].
    + eexists. by apply root_joins.
    + eexists. by apply child_steps.
Qed.
End specs.
