(* ===== verification/PipelineClaims.v ===== *)
(** * Claims about the pipeline executor *)

From stdpp Require Import base gmap strings numbers sorting list.
From S2P Require Import Prelude Text Pipeline PipelineMachine.
Open Scope string_scope.
Open Scope list_scope.
Open Scope nat_scope.

(** ** The programs meet their specifications *)

Section programs.
Context {Op : Type} (x : Executor) (answers : Op → string → result string StageError → Prop).

(** A success is an answer of the stage's operation. *)
Definition answered_by (s : Stage Op) (input : string) (r : result string StageError) : Prop :=
  ∀ out, r = Ok out → answers (operation s) input (Ok out).

Lemma attempt_loop_ok s input attempt todo : iwp answers (answered_by s input) (attempt_loop s input attempt todo).
Proof.
  revert attempt. induction todo as [|todo IH]; intros attempt; simpl; [by intros out|].
  intros [|]; simpl; [by intros out|]. intros r Hr. destruct r as [out|[]]; simpl; try (by intros ? [= <-]); try (by intros ?).
  case_bool_decide; simpl; [|by intros ?]. intros [|]; [by intros ?|]. apply IH.
Qed.

Lemma stage_finished_ok s input r : answered_by s input r → iwp answers (answered_by s input) (stage_finished s r).
Proof.
  intros Hr. unfold stage_finished, record_circuit_success, record_circuit_failure. destruct r, (circuit s); simpl; done.
Qed.

Lemma run_stage_ok s input : iwp answers (answered_by s input) (run_stage s input).
Proof.
  unfold run_stage, try_bind. apply (iwp_bind answers (λ _, True)).
  { unfold check_circuit. destruct (circuit s); simpl; done. }
  intros [[]|e] _; simpl; [|by intros out]. destruct (deadline s) as [d|]; simpl.
  - split; [|by intros out]. eapply iwp_mono; [|apply attempt_loop_ok]. intros r. apply stage_finished_ok.
  - eapply iwp_bind; [apply attempt_loop_ok|]. intros r. apply stage_finished_ok.
Qed.

Lemma child_task_ok (R : nat → result string StageError → Prop) i s input :
  (∀ r, answered_by s input r → R i r) → R i (Err JoinFailed) →
  cwp answers (branch_result R i) false (child_task i s input).
Proof.
  intros HR Hj. unfold child_task. simpl. split; [done|]. intros [|]; simpl; [|by split].
  eapply cwp_bind_iwp; [apply run_stage_ok|]. intros r Hr. simpl. split; [done|]. intros l. split; [done|].
  by split; [|apply HR].
Qed.

Lemma spawn_children_ok {A} (R : nat → result string StageError → Prop) (Q : A → Prop) live index stages input k :
  (∀ i s, stages !! i = Some s → cwp answers (branch_result R (index + i)) false (child_task (index + i) s input)) →
  rwp x answers R Q true (live ++ seq index (length stages)) k →
  rwp x answers R Q true live (spawn_children index stages input k).
Proof.
  revert index live. induction stages as [|s stages IH]; intros index live Hc Hk; simpl in *; [by rewrite app_nil_r in Hk|].
  split; [done|]. exists index. split; [rewrite <-(Nat.add_0_r index); by apply (Hc 0)|].
  apply IH; [|by rewrite <-app_assoc]. intros i s' Hs. replace (S index + i) with (index + S i) by lia. by apply Hc.
Qed.

Lemma extend_events_ok {A} (R : nat → result string StageError → Prop) (Q : A → Prop) sem live events k :
  rwp x answers R Q sem live k → rwp x answers R Q sem live (extend_events events k).
Proof. induction events; simpl; auto. Qed.

(** What the join loop has collected, while no branch has failed. *)
Definition joins_ok (R : nat → result string StageError → Prop) (live : list nat) (n : nat)
    (results : list (nat * string)) (failure : option StageError) : Prop :=
  failure = None → live ++ results.*1 ≡ₚ seq 0 n ∧ Forall (λ p, R p.1 (Ok p.2)) results.

Lemma join_loop_ok (R : nat → result string StageError → Prop) sem live n results failure :
  joins_ok R live n results failure →
  rwp x answers R (λ r, joins_ok R [] n r.1 r.2) sem live (join_loop (length live) results failure).
Proof.
  remember (length live) as m eqn:Hm. revert live results failure Hm.
  induction m as [|m IH]; intros live results failure Hm Hc; simpl.
  { destruct live; [|done]. split; [done|]. by intros [|] ? ? ?. }
  split; [by intros ->|]. intros l1 i l2 j -> Hj.
  assert (m = length (l1 ++ l2)) as Hm' by (rewrite length_app in *; simpl in Hm; lia).
  destruct j as [[[index r] events]|[]]; simpl.
  - destruct Hj as [Hi HR]. simpl in Hi, HR. subst index. apply extend_events_ok.
    destruct r as [out|e]; simpl.
    + apply IH; [done|]. intros ->. destruct (Hc eq_refl) as [Hp HF]. split.
      * rewrite fmap_app. simpl. rewrite <-Hp. solve_Permutation.
      * apply Forall_app. by split; [|repeat constructor].
    + apply IH; [done|]. destruct failure; simpl; done.
  - apply IH; [done|]. destruct failure; simpl; done.
Qed.

Lemma run_fan_out_ok (R : nat → result string StageError → Prop) sem stages join input :
  (∀ i s r, stages !! i = Some s → answered_by s input r → R i r) → (∀ i, R i (Err JoinFailed)) →
  rwp x answers R (λ r, ∀ outs, r = Ok outs →
      ∃ results, results.*1 ≡ₚ seq 0 (length stages) ∧ Forall (λ p, R p.1 (Ok p.2)) results ∧
        outs = match join with PreserveInputOrder => stable_sort index_le results | CompletionOrder => results end.*2)
    sem [] (run_fan_out x stages join input).
Proof.
  intros HR Hj. unfold run_fan_out. simpl. split_and!; [done..|]. apply spawn_children_ok.
  { intros i s Hs. simpl. apply child_task_ok; [|apply Hj]. intros r. by apply HR. }
  simpl. eapply rwp_bind.
  - rewrite <-(length_seq (length stages) 0) at 2. apply (join_loop_ok R _ _ (length stages)).
    intros _. rewrite app_nil_r. by split.
  - intros [results failure] sem' Hc. simpl in *. split; [done|]. intros outs. destruct failure; simpl; [done|].
    intros [= <-]. destruct (Hc eq_refl) as [Hp HF]. by exists results.
Qed.

Abbreviation any := (λ (_ : nat) (_ : result string StageError), True).

Lemma run_serial_ok stages out : iwp answers (λ _, True) (run_serial stages out).
Proof.
  revert out. induction stages as [|s stages IH]; intros out; simpl; [done|]. unfold try_bind.
  eapply iwp_bind; [apply run_stage_ok|]. intros [out'|e] _; [apply IH|done].
Qed.

Lemma run_groups_ok sem groups outputs : rwp x answers any (λ _, True) sem [] (run_groups x groups outputs).
Proof.
  revert sem outputs. induction groups as [|group groups IH]; intros sem outputs; cbn [run_groups rwp]; [done|].
  intros [|]; [done|]. destruct group as [stages|stages join], (last outputs) as [out|]; cbn [rwp]; try done.
  - unfold try_bind. eapply rwp_bind_iwp; [apply run_serial_ok|]. intros [out'|e] _; [apply IH|done].
  - unfold try_bind. eapply rwp_bind; [by apply run_fan_out_ok|]. intros [outs|e] sem' _; simpl; [apply IH|done].
Qed.

Lemma run_pipeline_ok sem groups input : rwp x answers any (λ _, True) sem [] (run_pipeline x groups input).
Proof.
  unfold run_pipeline. simpl. eapply rwp_bind; [apply run_groups_ok|]. intros [out|e] sem' _; simpl; [done|].
  by case_bool_decide.
Qed.
End programs.

(** Sorting by index recovers the order of the branches. *)
Lemma sorted_by_index results n :
  results.*1 ≡ₚ seq 0 n → (stable_sort index_le results).*1 = seq 0 n.
Proof.
  intros Hp. apply (StronglySorted_unique (≤)).
  - assert (StronglySorted index_le (stable_sort index_le results)) as Hs.
    { apply stable_sort_sorted; unfold index_le; intros *; rewrite ?bool_decide_eq_true, ?bool_decide_eq_false; lia. }
    induction Hs as [|a l Hl IH Ha]; [constructor|]. csimpl. constructor; [done|].
    apply Forall_fmap. eapply Forall_impl; [exact Ha|]. intros b Hb%Is_true_true.
    unfold index_le in Hb. by apply bool_decide_eq_true in Hb.
  - apply Sorted_StronglySorted; [intros ? ? ?; lia|]. generalize 0. clear Hp. induction n as [|n IH]; intros i; simpl; [constructor|].
    constructor; [apply IH|]. destruct n; simpl; constructor. lia.
  - by rewrite stable_sort_perm.
Qed.

(** ** Scheduling *)

(** C17: a pipeline always completes when its operations answer: however tasks
    interleave, time passes, circuits change or the handle cancels, only
    finitely many task steps can follow, a pipeline that has not ended can
    take one without any operation panicking, and when the root returns every
    child task has been joined. *)
Theorem pipelines_complete {Op} x (answers : Op → string → result string StageError → Prop) panics
    capacity fan_out w groups input m :
  executor_new capacity fan_out = Ok x →
  (∀ op arg, ∃ r, answers op arg r) →
  reachable x answers panics w (run_pipeline x groups input) m →
  Acc (flip_step x answers panics) m ∧
  (finished m ∨ ∃ m', mstep x answers false m m') ∧
  (∀ r, m_root m = Some (Ret r) → m_children m = []).
Proof.
  intros Hx Hans Hm.
  assert (0 < max_fan_out x) as Hmax.
  { unfold executor_new in Hx. repeat case_bool_decide; simplify_eq/=. lia. }
  pose proof (reachable_ok x answers panics _ _ w _ m Hm (λ sem, run_pipeline_ok x answers sem groups input)) as Hinv.
  split_and!; [apply machine_acc|by eapply machine_progress|].
  intros r Hr. destruct Hinv as [Hroot]. rewrite Hr in Hroot. destruct Hroot as (sem&live&[-> _]&Hc&_).
  by apply Forall2_nil_inv_l in Hc.
Qed.

(** C35: at most [max_fan_out] branches of a fan-out have an operation in
    flight at any moment. *)
Theorem fan_out_is_bounded {Op} x (answers : Op → string → result string StageError → Prop) panics w groups input m running :
  reachable x answers panics w (run_pipeline x groups input) m →
  running ⊆+ m_children m →
  Forall (λ c, ∃ p, c_prog c = Some p ∧ calling p) running →
  length running ≤ max_fan_out x.
Proof.
  intros Hm Hsub Hrun.
  destruct (reachable_ok x answers panics _ _ w _ m Hm (λ sem, run_pipeline_ok x answers sem groups input)) as [Hroot].
  destruct running as [|c0 rest] eqn:Hc; [simpl; lia|]. rewrite <-Hc in *.
  destruct (m_root m) as [p|]; [|rewrite Hroot in Hsub; apply submseteq_nil_r in Hsub; congruence].
  destruct Hroot as (sem&live&_&Hcs&Hn&Hsem).
  assert (live ≠ []) as Hl.
  { intros ->. apply Forall2_nil_inv_l in Hcs. rewrite Hcs in Hsub. apply submseteq_nil_r in Hsub. congruence. }
  rewrite <-(Hn (Hsem Hl)).
  assert (length running ≤ holders (m_children m)); [|lia].
  assert (Forall (λ c, (∃ p, c_prog c = Some p ∧ calling p) → c_holds c = true) (m_children m)) as Hcall.
  { clear -Hcs. induction Hcs as [|i c live cs Hc _ IH]; constructor; [|done]. intros (p&Hp&Hcal).
    unfold child_ok in Hc. rewrite Hp in Hc. by eapply calling_holds. }
  assert (length running = holders running) as Heq.
  { assert (Forall (λ c, c_holds c = true) running) as Hh.
    { rewrite Forall_forall in *. intros c Hin. apply Hcall; [|by apply Hrun]. by eapply elem_of_submseteq. }
    clear -Hh. unfold holders, holder. induction Hh as [|c l Hc _ IH]; simpl; [done|]. rewrite Hc, <-IH. done. }
  rewrite Heq. apply submseteq_Permutation in Hsub as [rest' ->]. rewrite holders_app. lia.
Qed.

(** C18: a fan-out that succeeds has waited for every branch and returns one
    output per branch, each an answer of that branch's operation to the shared
    input; with [PreserveInputOrder] the outputs are in the order of
    declaration, however the branches finished. *)
Theorem fan_out_outputs {Op} x (answers : Op → string → result string StageError → Prop) panics w stages join input m outs :
  reachable x answers panics w (run_fan_out x stages join input) m →
  m_root m = Some (Ret (Ok outs)) →
  m_children m = [] ∧
  ∃ order, order ≡ₚ seq 0 (length stages) ∧ (join = PreserveInputOrder → order = seq 0 (length stages)) ∧
    Forall2 (λ i out, ∃ s, stages !! i = Some s ∧ answers (operation s) input (Ok out)) order outs.
Proof.
  intros Hm Hr.
  set (R := λ i r, i < length stages → ∀ s, stages !! i = Some s → answered_by answers s input r).
  pose proof (λ sem, run_fan_out_ok x answers R sem stages join input) as Hok.
  destruct (reachable_ok x answers panics R _ w _ m Hm (λ sem, Hok sem
    ltac:(intros i s r Hs Ha _ s' Hs'; by replace s' with s by congruence) ltac:(by intros i _ s _ out))) as [Hroot].
  rewrite Hr in Hroot.
  destruct Hroot as (sem&live&[-> Hq]&Hcs&_). apply Forall2_nil_inv_l in Hcs. split; [done|].
  destruct (Hq outs eq_refl) as (results&Hp&HF&->).
  set (l := match join with PreserveInputOrder => stable_sort index_le results | CompletionOrder => results end).
  assert (l ≡ₚ results) as Hl by (unfold l; destruct join; [apply stable_sort_perm|done]).
  exists l.*1. split_and!.
  - by rewrite Hl.
  - unfold l. intros ->. by apply sorted_by_index.
  - apply Forall2_fmap, Forall_Forall2_diag. apply Forall_forall. intros [i out] Hin. simpl.
    assert ((i, out) ∈ results) as Hres by (by rewrite <-Hl).
    assert (i < length stages) as Hi.
    { assert (i ∈ results.*1) as Hi by (apply list_elem_of_fmap; by exists (i, out)). rewrite Hp in Hi. apply elem_of_seq in Hi. lia. }
    destruct (lookup_lt_is_Some_2 stages i Hi) as [s Hs]. exists s. split; [done|].
    rewrite Forall_forall in HF. by apply (HF _ Hres Hi s Hs).
Qed.

(** ** Executions *)

Section executions.
Context {Op : Type} (x : Executor) (answers : Op → string → result string StageError → Prop) (panics : bool).

Lemma nth_child_steps {A} i w n log (p : prog Op A) cs c w' n' c' :
  cs !! i = Some c → cstep x answers panics w n c w' n' c' →
  mstep x answers panics {| m_world := w; m_permits := n; m_log := log; m_root := Some p; m_children := cs |}
    {| m_world := w'; m_permits := n'; m_log := log; m_root := Some p; m_children := <[i := c']> cs |}.
Proof.
  intros Hi Hs. assert (i < length cs) as Hlt by (by eapply lookup_lt_Some).
  rewrite <-(take_drop_middle cs i c Hi), insert_app_r_alt; rewrite length_take_le by lia; [|lia].
  rewrite Nat.sub_diag. simpl. by apply child_steps.
Qed.

Lemma nth_child_joins {A} i w n log (k : _ → prog Op A) cs c r :
  cs !! i = Some c → ended c r →
  mstep x answers panics {| m_world := w; m_permits := n; m_log := log; m_root := Some (JoinNext k); m_children := cs |}
    {| m_world := w; m_permits := n; m_log := log; m_root := Some (k (Some r)); m_children := delete i cs |}.
Proof.
  intros Hi He. rewrite <-(take_drop_middle cs i c Hi) at 1. rewrite delete_take_drop. by apply root_joins.
Qed.

Lemma step_then {A} (m m1 m2 : Machine Op A) :
  mstep x answers panics (with_world (m_world m) m) m1 → rtc (task_step x answers panics) m1 m2 →
  rtc (task_step x answers panics) m m2.
Proof. intros H1 H2. eapply rtc_l; [by exists (m_world m)|done]. Qed.
End executions.

Ltac step_root := eapply step_then; [apply root_runs; econstructor; reflexivity|cbn].
Ltac step_child i := eapply step_then; [eapply (nth_child_steps _ _ _ i); [reflexivity|apply child_runs; econstructor; reflexivity]|cbn].
Ltac join_child i := eapply step_then; [eapply (nth_child_joins _ _ _ i); [reflexivity|constructor]|cbn].

(** Operations that answer with their name and the input, or fail. *)
Definition echo (op : option string) (input : string) (r : result string StageError) : Prop :=
  r = match op with Some name => Ok (name +:+ input) | None => Err (Fatal "failed") end.

Definition two_at_once : Executor := {| event_capacity := 100; max_fan_out := 2 |}.
Definition idle : World := {| now := 0; cancelled := false; circuits := ∅ |}.
Definition two_branches : list (Stage (option string)) := [stage_new "a" (Some "a"); stage_new "b" (Some "b")].

(** Both branches run at once and the second one finishes first. *)
Lemma second_branch_first :
  ∃ m, reachable two_at_once echo true idle (run_fan_out two_at_once two_branches PreserveInputOrder "-in") m ∧
    m_root m = Some (Ret (Ok ["a-in"; "b-in"])).
Proof.
  eexists. split.
  - unfold reachable, start. eapply step_then; [apply root_semaphore|cbn].
    do 2 (eapply step_then; [apply root_spawns|cbn]).
    eapply step_then; [eapply (nth_child_steps _ _ _ 1); [reflexivity|apply child_acquires]|cbn].
    eapply step_then; [eapply (nth_child_steps _ _ _ 0); [reflexivity|apply child_acquires]|cbn].
    do 2 step_child 0. do 4 step_child 1.
    eapply step_then; [eapply (nth_child_steps _ _ _ 1); [reflexivity|apply child_releases]|cbn].
    step_child 1. join_child 1. do 2 step_root. do 2 step_child 0.
    eapply step_then; [eapply (nth_child_steps _ _ _ 0); [reflexivity|apply child_releases]|cbn].
    step_child 0. join_child 0. do 2 step_root. eapply step_then; [apply root_joins_none|cbn]. apply rtc_refl.
  - reflexivity.
Qed.

Lemma fan_out_outputs_witness :
  ∃ m order, reachable two_at_once echo true idle (run_fan_out two_at_once two_branches PreserveInputOrder "-in") m ∧
    order = [0; 1] ∧ m_children m = [] ∧
    Forall2 (λ i out, ∃ s, two_branches !! i = Some s ∧ echo (operation s) "-in" (Ok out)) order ["a-in"; "b-in"].
Proof.
  destruct second_branch_first as (m&Hm&Hr).
  destruct (fan_out_outputs two_at_once echo true idle two_branches PreserveInputOrder "-in" m ["a-in"; "b-in"] Hm Hr)
    as (Hc&order&_&Ho&HF).
  exists m, order. split_and!; [done|by apply Ho|done|done].
Defined.

(** Both operations of the fan-out are in flight. *)
Lemma both_in_flight :
  ∃ m, reachable two_at_once echo true idle (run_pipeline two_at_once [FanOut two_branches CompletionOrder] "-in") m ∧
    length (m_children m) = 2 ∧ Forall (λ c, ∃ p, c_prog c = Some p ∧ calling p) (m_children m).
Proof.
  eexists. split.
  - unfold reachable, start. step_root. step_root. step_root. eapply step_then; [apply root_semaphore|cbn].
    do 2 (eapply step_then; [apply root_spawns|cbn]).
    eapply step_then; [eapply (nth_child_steps _ _ _ 1); [reflexivity|apply child_acquires]|cbn].
    eapply step_then; [eapply (nth_child_steps _ _ _ 0); [reflexivity|apply child_acquires]|cbn].
    do 2 step_child 0. do 2 step_child 1. apply rtc_refl.
  - split; [reflexivity|]. repeat constructor; eexists; (split; [reflexivity|constructor]).
Qed.

Lemma fan_out_is_bounded_witness :
  ∃ m, reachable two_at_once echo true idle (run_pipeline two_at_once [FanOut two_branches CompletionOrder] "-in") m ∧
    length (m_children m) = 2 ∧ length (m_children m) ≤ max_fan_out two_at_once.
Proof.
  destruct both_in_flight as (m&Hm&Hl&Hc). exists m. split_and!; [done..|].
  eapply (fan_out_is_bounded two_at_once echo true idle [FanOut two_branches CompletionOrder] "-in" m (m_children m)); done.
Defined.

Lemma pipelines_complete_witness :
  ∃ m, reachable two_at_once echo true idle (run_pipeline two_at_once [FanOut two_branches CompletionOrder] "-in") m ∧
    length (m_children m) = 2 ∧ Acc (flip_step two_at_once echo true) m ∧ ∃ m', mstep two_at_once echo false m m'.
Proof.
  destruct both_in_flight as (m&Hm&Hl&Hc). exists m. split_and!; [done..| |].
  - eapply (pipelines_complete two_at_once echo true 100 2 idle [FanOut two_branches CompletionOrder] "-in" m);
      [reflexivity|intros op arg; by eexists|done].
  - destruct (pipelines_complete two_at_once echo true 100 2 idle [FanOut two_branches CompletionOrder] "-in" m)
      as (_&[[Hnil _]|Hstep]&_); [reflexivity|intros op arg; by eexists|done| |done].
    rewrite Hnil in Hl. done.
Defined.

(** ** Gaps *)

(** A stage with a deadline and a breaker that opens at the first failure. *)
Definition fragile : Stage (option string) :=
  with_circuit {| failure_threshold := 1; reset_after := 10 |} (with_deadline 5 (stage_new "s" (Some "s"))).

(** Where the executor differs from its description.  A stage that exceeds
    its deadline ends without a [StageFailed] event and without counting as a
    failure, so even a breaker with threshold one stays closed; a refused
    stage leaves no event either; a group after a fan-out sees only the output
    of the last branch; and after the reset time a breaker admits every
    invocation, not one, and a failed one does not open it again. *)
Theorem pipeline_executor_gaps :
  (∃ m, reachable two_at_once echo true idle (run_stage fragile "in") m ∧
     m_root m = Some (Ret (Err (DeadlineExceeded "s"))) ∧ m_log m = [StageAttempt "s" 1] ∧
     circuits (m_world m) !! "s" = Some closed_circuit) ∧
  (∃ m, reachable two_at_once echo true
       {| now := 1; cancelled := false; circuits := {["s" := {| failures := 1; opened_at := Some 0%N |}]} |}
       (run_stage fragile "in") m ∧
     m_root m = Some (Ret (Err (CircuitOpen "s"))) ∧ m_log m = []) ∧
  (∀ (group : PipelineGroup (option string)) groups outputs out,
     run_groups two_at_once (group :: groups) (outputs ++ [out]) = run_groups two_at_once (group :: groups) [out]) ∧
  (let policy := {| failure_threshold := 2; reset_after := 10 |} in
   let c := record_failure_locked "s" policy 1 (record_failure_locked "s" policy 0 ∅) in
   let '(c, first) := check_circuit_locked "s" policy 50 c in
   let '(c, second) := check_circuit_locked "s" policy 50 c in
   let '(c, third) := check_circuit_locked "s" policy 51 (record_failure_locked "s" policy 51 c) in
   first = Ok tt ∧ second = Ok tt ∧ third = Ok tt).
Proof.
  split_and!.
  - eexists. split.
    + unfold reachable, start. step_root.
      eapply step_then; [apply root_runs; apply step_inside; constructor|cbn].
      eapply step_then; [apply root_runs; apply step_inside; constructor|cbn].
      eapply step_then; [apply root_runs; apply step_timed_out; constructor|cbn]. apply rtc_refl.
    + split_and!; reflexivity.
  - eexists. split; [unfold reachable, start; step_root; apply rtc_refl|]. split; reflexivity.
  - intros group groups outputs out. cbn [run_groups]. rewrite last_snoc. done.
  - vm_compute. done.
Qed.

(** * Retry, circuit breakers and the lifecycle log

    The policies of one stage, against abstract descriptions: the attempts a
    retry policy allows, the breaker as the list of failures since the last
    success, and the log as the end of the full history. *)

Open Scope string_scope.
Open Scope list_scope.

(** ** Lifecycle log *)

(** The last [n] elements. *)
Definition lastn {A} (n : nat) (l : list A) : list A := drop (length l - n) l.

Lemma log_push_lastn capacity history e :
  (0 < capacity)%nat → log_push capacity (lastn capacity history) e = lastn capacity (history ++ [e]).
Proof.
  intros Hc. unfold log_push, lastn. rewrite length_drop, length_app. simpl.
  case_bool_decide as E.
  - assert (capacity ≤ length history)%nat as Hle by lia.
    replace (length history + 1 - capacity)%nat with (S (length history - capacity)) by lia.
    rewrite drop_app_le by lia. f_equal. change (tail (drop (length history - capacity) history)) with
      (drop 1 (drop (length history - capacity) history)). rewrite drop_drop. f_equal. lia.
  - replace (length history - capacity)%nat with 0%nat by lia.
    replace (length history + 1 - capacity)%nat with 0%nat by lia. done.
Qed.

Lemma log_extend_lastn capacity history incoming :
  (0 < capacity)%nat → log_extend capacity (lastn capacity history) incoming = lastn capacity (history ++ incoming).
Proof.
  intros Hc. revert history. induction incoming as [|e incoming IH]; intros history; simpl; [by rewrite app_nil_r|].
  unfold log_extend in *. simpl. rewrite log_push_lastn, IH by done. by rewrite <-app_assoc.
Qed.

(** ** Retry *)

(** Complete runs of a program that only runs attempts: the events it pushes and
    the answers it gets. *)
Inductive evals {Op A} : prog Op A → list PipelineEvent → list (result string StageError) → A → Prop :=
| evals_ret a : evals (Ret a) [] [] a
| evals_push e k es rs a : evals k es rs a → evals (Push e k) (e :: es) rs a
| evals_cancelled k b es rs a : evals (k b) es rs a → evals (IsCancelled k) es rs a
| evals_sleep d k b es rs a : evals (k b) es rs a → evals (SleepOrCancelled d k) es rs a
| evals_call op input k r es rs a : evals (k r) es rs a → evals (Call op input k) es (r :: rs) a.

Definition is_retryable (r : result string StageError) : Prop := ∃ m, r = Err (Retryable m).

Definition attempt_events (name : string) (from : N) (count : nat) : list PipelineEvent :=
  map (λ i, StageAttempt name (from + N.of_nat i)) (seq 0 count).

Lemma attempt_events_cons name from count :
  attempt_events name from (S count) = StageAttempt name from :: attempt_events name (from + 1) count.
Proof.
  unfold attempt_events. simpl. rewrite N.add_0_r, <-seq_shift, map_map. f_equal. apply map_ext. intros i. f_equal. lia.
Qed.

(** A run of the loop from [attempt] on. *)
Lemma attempt_loop_runs {Op} (s : Stage Op) input attempt todo es rs r :
  (attempt + N.of_nat todo = max_attempts (retry s) + 1)%N → (0 < todo)%nat →
  evals (attempt_loop s input attempt todo) es rs r →
  es = attempt_events (stage_name s) attempt (length rs) ∧ (length rs ≤ todo)%nat ∧
  (r = Err StageCancelled ∧ Forall is_retryable rs ∨
   ∃ front, rs = front ++ [r] ∧ Forall is_retryable front ∧ (is_retryable r → length rs = todo)).
Proof.
  revert attempt es rs. induction todo as [|todo IH]; intros attempt es rs Hsum Hpos; [lia|]. simpl. intros H.
  inversion H as [| |k b es0 rs0 a0 Hk| |]; subst. destruct b.
  { inversion Hk; subst. split_and!; [done|simpl; lia|]. by left. }
  inversion Hk as [|e k es1 rs1 a1 Hcall| | |]; subst. inversion Hcall as [| | | |op inp k r1 es2 rs2 a2 Hr]; subst.
  cbn [length]. rewrite attempt_events_cons.
  assert (∀ q, evals (Op := Op) (Ret q) es1 rs2 r → q = r1 → (is_retryable r1 → todo = 0%nat) →
    StageAttempt (stage_name s) attempt :: es1 =
      StageAttempt (stage_name s) attempt :: attempt_events (stage_name s) (attempt + 1) (length rs2) ∧
    (S (length rs2) ≤ S todo)%nat ∧
    (r = Err StageCancelled ∧ Forall is_retryable (r1 :: rs2) ∨
     ∃ front, r1 :: rs2 = front ++ [r] ∧ Forall is_retryable front ∧ (is_retryable r → S (length rs2) = S todo))) as Hlast.
  { intros q Hq -> Hz. inversion Hq; subst. split_and!; [done|simpl; lia|]. right. exists []. split_and!; [done|constructor|].
    intros Hre. by rewrite (Hz Hre). }
  destruct r1 as [out|[m|m| |n|n|]]; try (by eapply Hlast; [exact Hr|done|intros [? ?]]).
  case_bool_decide as Hlt; [|eapply Hlast; [exact Hr|done|intros _; lia]].
  inversion Hr as [| | |d k b es3 rs3 a3 Hs|]; subst. destruct b.
  { inversion Hs; subst. split_and!; [done|simpl; lia|]. left. split; [done|]. repeat constructor. by exists m. }
  destruct (IH (attempt + 1)%N es1 rs2) as (->&Hlen&Hres); [lia|lia|done|].
  split_and!; [done|simpl; lia|]. destruct Hres as [[-> HF]|(front&->&HF&Hmax)].
  - left. split; [done|]. constructor; [by exists m|done].
  - right. exists (Err (Retryable m) :: front). split_and!; [done|constructor; [by exists m|done]|].
    intros Hre. simpl. by rewrite (Hmax Hre).
Qed.

(** The retry contract of a stage: attempts are numbered from one and
    logged, there are at most [max_attempts] of them and a further one only
    after a retryable failure; the result is the last answer, or a
    cancellation; a retryable failure is final only when the attempts are used
    up. *)
Theorem retry_contract {Op} (s : Stage Op) policy input es rs r :
  retry s = retry (with_retry policy s) →
  evals (run_stage_attempts s input) es rs r →
  es = attempt_events (stage_name s) 1 (length rs) ∧
  (N.of_nat (length rs) ≤ N.max (max_attempts policy) 1)%N ∧
  (r = Err StageCancelled ∧ Forall is_retryable rs ∨
   ∃ front, rs = front ++ [r] ∧ Forall is_retryable front ∧
     (is_retryable r → N.of_nat (length rs) = N.max (max_attempts policy) 1)%N).
Proof.
  intros Hretry H. unfold run_stage_attempts in H. simpl in Hretry.
  assert (max_attempts (retry s) = N.max (max_attempts policy) 1) as Hmax by (by rewrite Hretry).
  apply attempt_loop_runs in H as (->&Hlen&Hres); [|rewrite Hmax; lia|lia].
  split_and!; [done|lia|]. destruct Hres as [?|(front&?&?&Hre)]; [by left|right]. exists front. split_and!; [done..|].
  intros Hr. rewrite (Hre Hr). lia.
Qed.

Lemma retry_contract_witness :
  ∃ es, es = attempt_events "s" 1 2 ∧
    evals (run_stage_attempts (with_retry {| max_attempts := 3; backoff := 5 |} (stage_new "s" tt)) "in") es
      [Err (Retryable "busy"); Ok "out"] (Ok "out").
Proof.
  assert (∃ es, evals (run_stage_attempts (with_retry {| max_attempts := 3; backoff := 5 |} (stage_new "s" tt)) "in") es
      [Err (Retryable "busy"); Ok "out"] (Ok "out")) as [es H].
  { eexists. apply (evals_cancelled _ false), evals_push, evals_call. simpl.
    apply (evals_sleep _ _ false). simpl. apply (evals_cancelled _ false), evals_push, evals_call. simpl. apply evals_ret. }
  exists es. split; [|done].
  eapply (retry_contract (with_retry {| max_attempts := 3; backoff := 5 |} (stage_new "s" tt))
    {| max_attempts := 3; backoff := 5 |}) in H as [-> _]; done.
Defined.

(** ** Circuit breakers *)

(** What happens to the breaker of one stage. *)
Inductive breaker_op := BreakerCheck (now : N) | BreakerSuccess | BreakerFailure (now : N).

(** The abstract breaker: the times of the failures since the last success or
    reset, latest first. *)
Definition breaker_open (policy : CircuitPolicy) (streak : list N) (now : N) : bool :=
  bool_decide (failure_threshold policy ≤ N.of_nat (length streak))%N &&
  match streak with t :: _ => bool_decide (now - t < reset_after policy)%N | [] => false end.

Definition breaker_spec (policy : CircuitPolicy) (streak : list N) (op : breaker_op) : list N * bool :=
  match op with
  | BreakerCheck now =>
      if breaker_open policy streak now then (streak, false)
      else (if bool_decide (failure_threshold policy ≤ N.of_nat (length streak))%N then [] else streak, true)
  | BreakerSuccess => ([], true)
  | BreakerFailure now => (now :: streak, true)
  end.

(** The same operation on the executor's map. *)
Definition breaker_impl (name : string) (policy : CircuitPolicy) (c : gmap string CircuitState) (op : breaker_op)
    : gmap string CircuitState * bool :=
  match op with
  | BreakerCheck now =>
      let '(c, r) := check_circuit_locked name policy now c in
      (c, match r with Ok _ => true | Err _ => false end)
  | BreakerSuccess => (record_success_locked name c, true)
  | BreakerFailure now => (record_failure_locked name policy now c, true)
  end.

Definition run_breaker {S} (step : S → breaker_op → S * bool) (s : S) (ops : list breaker_op) : S * list bool :=
  foldl (λ '(s, answers) op, let '(s, a) := step s op in (s, answers ++ [a])) (s, []) ops.

(** The state a streak stands for. *)
Definition breaker_state (policy : CircuitPolicy) (streak : list N) : CircuitState :=
  {| failures := N.min (N.of_nat (length streak)) u32_max;
     opened_at := if bool_decide (failure_threshold policy ≤ N.of_nat (length streak))%N then head streak else None |}.

Definition breaker_related (name : string) (policy : CircuitPolicy) (streak : list N) (c : gmap string CircuitState) : Prop :=
  c !! name = Some (breaker_state policy streak) ∨ (c !! name = None ∧ streak = []).

Section breaker.
Context (name : string) (policy : CircuitPolicy).
Context (threshold_pos : (1 ≤ failure_threshold policy)%N) (threshold_u32 : (failure_threshold policy ≤ u32_max)%N).

Lemma breaker_state_nil : breaker_state policy [] = closed_circuit.
Proof. unfold breaker_state. simpl. case_bool_decide; [lia|done]. Qed.

Lemma breaker_related_default streak c :
  breaker_related name policy streak c → default closed_circuit (c !! name) = breaker_state policy streak.
Proof. intros [-> |[-> ->]]; [done|]. by rewrite breaker_state_nil. Qed.

Lemma breaker_step streak c op :
  breaker_related name policy streak c →
  breaker_related name policy (breaker_spec policy streak op).1 (breaker_impl name policy c op).1 ∧
  (breaker_spec policy streak op).2 = (breaker_impl name policy c op).2.
Proof.
  intros Hrel. pose proof (breaker_related_default _ _ Hrel) as Hd. destruct op as [now| |now]; simpl.
  - unfold check_circuit_locked, breaker_open. rewrite Hd. unfold breaker_state at 1. simpl.
    case_bool_decide as Ht; simpl.
    + destruct streak as [|t streak]; simpl in *; [lia|]. case_bool_decide; simpl; (split; [|done]); left; rewrite lookup_insert_eq.
      * done.
      * by rewrite breaker_state_nil.
    + split; [|done]. left. by rewrite lookup_insert_eq.
  - split; [|done]. unfold record_success_locked. destruct Hrel as [H|[H ->]].
    + left. by rewrite lookup_alter_eq, H, breaker_state_nil.
    + right. by rewrite lookup_alter_eq, H.
  - split; [|done]. left. unfold record_failure_locked. rewrite Hd, lookup_insert_eq. f_equal.
    unfold breaker_state, u32_saturating_add. cbn [failures opened_at length head].
    assert (N.min (N.min (N.of_nat (length streak)) u32_max + 1) u32_max = N.min (N.of_nat (S (length streak))) u32_max) as -> by lia.
    f_equal. repeat case_bool_decide; first [done|lia].
Qed.

Lemma run_breaker_related ops streak c answers :
  breaker_related name policy streak c →
  let step {S} (step : S → breaker_op → S * bool) := (λ '(s, answers) op, let '(s, a) := step s op in (s, answers ++ [a])) in
  let spec := foldl (step (breaker_spec policy)) (streak, answers) ops in
  let impl := foldl (step (breaker_impl name policy)) (c, answers) ops in
  breaker_related name policy spec.1 impl.1 ∧ spec.2 = impl.2.
Proof.
  revert streak c answers. induction ops as [|op ops IH]; intros streak c answers Hrel; simpl; [done|].
  destruct (breaker_step _ _ op Hrel) as [Hrel' Ha].
  destruct (breaker_spec policy streak op) as [s' a], (breaker_impl name policy c op) as [c' a']. simpl in *. subst a'.
  by apply IH.
Qed.
End breaker.

(** The executor's circuit map implements the breaker of the documentation:
    for every sequence of checks, successes and failures of a stage it gives the
    same answers as counting consecutive failures without bound, opening at the
    threshold, refusing while the reset time has not passed since the last
    failure, and starting over after a success or an admitted retry. *)
Theorem circuit_breaker_refines name policy ops :
  (1 ≤ failure_threshold policy ≤ u32_max)%N →
  let spec := run_breaker (breaker_spec policy) [] ops in
  let impl := run_breaker (breaker_impl name policy) ∅ ops in
  breaker_related name policy spec.1 impl.1 ∧ spec.2 = impl.2.
Proof. intros [H1 H2]. apply run_breaker_related; [done..|]. by right. Qed.

Lemma circuit_breaker_refines_witness :
  let ops := [BreakerCheck 0; BreakerFailure 1; BreakerCheck 2; BreakerFailure 3; BreakerCheck 5; BreakerCheck 20] in
  let policy := {| failure_threshold := 2; reset_after := 10 |} in
  (run_breaker (breaker_impl "s" policy) ∅ ops).2 = [true; true; true; true; false; true] ∧
  (run_breaker (breaker_spec policy) [] ops).2 = (run_breaker (breaker_impl "s" policy) ∅ ops).2.
Proof.
  split; [by vm_compute|].
  apply (circuit_breaker_refines "s" {| failure_threshold := 2; reset_after := 10 |}
    [BreakerCheck 0; BreakerFailure 1; BreakerCheck 2; BreakerFailure 3; BreakerCheck 5; BreakerCheck 20]).
  unfold u32_max. simpl. lia.
Defined.
